(* ===== verification/_CoqProject ===== *)
-Q . S2P
Prelude.v
Memory.v
Barrier.v
Ints.v
Strings.v
Fiber.v
Interp.v
InterpArith.v
InterpProps.v
Compare.v
CompareSpec.v
Hash.v
Arrays.v
PosTable.v
Extern.v
Intern.v
Traverse.v
ExternProps.v
InternProps.v
Marshal.v
Skiplist.v
GlobRoots.v
Lexing.v
Parsing.v
MinorGc.v
MinorGcProps.v
Finalise.v
Digest.v
Channels.v
ChannelProps.v
ChannelList.v
DigestChannel.v
PoolHeap.v
PoolHeapInv.v
PoolHeapSweep.v
PoolHeapAlloc.v
PoolHeapLarge.v
PoolHeapCycle.v
PoolHeapMove.v
PoolHeapMutate.v
PoolHeapGc.v
PoolHeapProps.v
