(* ===== verification/Prelude.v ===== *)
(** * Verification of the travlang runtime system

    The C runtime of the travlang system (src/runtime): the representation of
    values, the heap and its write barrier, the minor collector and what it
    scans, the primitives on integers, strings, arrays and structured values, fibers,
    the engines of the generated lexers and parsers, channels, digests, the
    shared heap of the major collector, and the bytecode interpreter that ties them
    together.

    ** The program and its model

    A [value] is a 64-bit word, an immediate integer or the address of a
    block in a word-addressed heap.  The mutator changes the heap through the
    write barrier; allocation is in the minor heap of the domain or in the
    shared heap; the interpreter runs bytecode on a chain of fibers, each a
    stack with handlers, and calls the primitives.  One domain is modelled,
    on a 64-bit little-endian machine compiled with wrap-around arithmetic.
    C control flow is a [result] (below): a value, a travlang exception,
    undefined behaviour, control handed to the collector or to pending
    actions, or exhausted fuel; state is passed explicitly.

    - [Prelude]: machine integers as [Z] with [wrap] and [swrap], congruence
      modulo [2^w] with its [Proper] instances, bytes of words, the [result]
      monad, tactics and hints.
    - [Memory] (caml/mlvalues.h, caml/gc.h, caml/memory.h, alloc_shr of
      memory.c): tagged integers, headers, heap accesses, [Alloc_small], the
      interface [SharedHeap] of the major allocator and an instance of it.
    - [Barrier] (memory.c): [caml_modify], [caml_initialize], the atomic
      primitives; the step relation [mutation] of a running domain.
    - [Ints] (ints.c): parsing, printing and the boxed integer types; the
      grammar of the literals that parsing must read.
    - [Strings] (str.c, caml_alloc_string of alloc.c): strings and bytes.
    - [Fiber] (fiber.c, bytecode configuration): stacks, their cache,
      growth, continuations; the interface [StackMemory] of the memory of stacks.
    - [Interp] (interp.c): registers [st], one function per group of
      instructions, [step], [run] and [caml_interprete]; [InterpArith] and
      [InterpProps] hold its theorems.  C primitives, pending actions and the
      debugger are the class [Runtime].
    - [Compare] (compare.c) and [CompareSpec]: the comparison loop and the
      order on trees it implements; custom operations are the class
      [CustomOps], with the laws [BoxedOps] of the boxed integers, which the
      operations of [Ints] satisfy.
    - [Hash] (hash.c): mixing and the bounded traversal of [caml_hash].
    - [Arrays] (array.c, caml_alloc of alloc.c): all the array primitives.
    - [PosTable] (extern.c): the hash table from marshaled objects to their
      positions.  [Extern] (extern.c, caml/intext.h): the marshaler, its
      buffers, writers, traversal and entry points; [Intern] (intern.c): the
      unmarshaler.  What they call (custom operations, code fragments,
      compression, malloc) is the classes [ExternEnv] and [InternEnv].
      [Traverse] is the abstract traversal of a graph of blocks;
      [ExternProps], [InternProps] and [Marshal] hold the theorems.
    - [Skiplist] (skiplist.c): the cells and their links in a store; the class
      [Dictionary] is the interface its clients use.  [GlobRoots]
      (globroots.c): the lists of global roots, against any dictionary.
    - [Lexing] (lexing.c): the two engines of the lexers.  [Parsing]
      (parsing.c, and yyparse of stdlib/parsing.ml as a step relation): the
      pushdown automaton.  The tables of both are lists.
    - [MinorGc] (minor_gc.c, caml_scan_stack of fiber.c, caml_do_local_roots
      of roots.c): a collection of a domain that runs alone, on the memory of
      [Memory], from the roots of [GlobRoots] and the remembered set of [Barrier];
      [MinorGcProps] holds its theorems.
    - [Finalise] (finalise.c): the tables of finalisers and the queue of calls,
      after the major and the minor collections.
    - [Digest] (md5.c, blake2.c): the contexts of the two digests and the
      digests of RFC 1321 and RFC 7693.
    - [Channels] (io.c, caml_read_fd and caml_write_fd of unix.c): buffered
      channels, in a state monad whose exceptions keep the state; the system
      calls are the class [OS] and the signal handlers the class [Actions].
      [ChannelProps] holds the laws [FileLaws] of a regular file, the rules for
      assertions on channels and the theorems; [ChannelList] the list of opened channels;
      [DigestChannel] the digest of a channel.
    - [PoolHeap] (shared_heap.c, caml/sizeclasses.h, heap statistics of
      gc_stats.c): the major heap of all domains, pools of slots by size class and
      large blocks, on its own memory of words; allocation with lazy sweeping,
      incremental sweeping, the end of a cycle, the start and the end of a
      domain, the verification of a swept heap.  The system is the class [OS] of the
      file and its laws the class [OsLaws].  [PoolHeapInv] holds the invariant,
      [PoolHeapSweep], [PoolHeapAlloc], [PoolHeapLarge], [PoolHeapCycle] and
      [PoolHeapMove] the specification of each operation, [PoolHeapMutate] the
      writes of the program and of the marker.  [PoolHeapGc] (major_gc.c): the
      loops that sweep and the step relation [heap_step]; [PoolHeapProps] the
      theorems and a system that satisfies the laws.

    ** What the theorems show

    - Barrier and arrays: every sequence of mutator steps, and the bulk
      updates with their open-coded barrier, keep the remembered set complete
      and never lose a pointer of the marking snapshot.
    - Interpreter: integer instructions compute modulo [2^63]; calls,
      returns, partial application, exception handlers and effect handlers
      restore exactly the registers and stacks they must; method lookup with
      its cache, stack checks and fused instructions agree with their plain
      definitions.
    - Comparison and hashing: the seven comparison primitives terminate and
      compute the lexicographic order of trees, a total order for
      [caml_compare]; values equal for it have equal hashes.
    - Primitives: parsing reads exactly a grammar and inverts printing, division and byte
      swapping per type, serialization round trips, string and array
      operations as operations on lists with their bounds errors, string
      order and equality, allocation that touches only fresh words.
    - Marshaling: the position table refines a finite map; marshaling
      terminates on every finite graph below the bounds and visits each block once;
      unmarshaling its output rebuilds the graph, sharing and cycles
      included, out of fresh blocks; reachable words are counted once.
    - Fibers: no stack is both live and pooled; growth preserves a fiber of fewer
      than [2^31] words.
    - Skip lists and global roots: skip lists refine finite maps ordered by
      keys; the generational roots that point to the minor heap are in
      the young list, whatever C code and the collections do.
    - Minor collections: every root and every field of a copied block receives the
      image of its old value, with sharing, cycles and infix
      pointers kept; afterwards the minor heap is empty, the remembered set is
      complete again, and the custom blocks and the finalisers of the dead blocks are
      treated once.  Two theorems state defects of the code at its boundary: a
      root that becomes an integer, and a table of finalisers with values of both heaps.
    - Lexers and parsers: the engine finds the longest match, refills do not change it, and
      the engine with memory simulates the plain one; the parser is type safe for the
      tables that pass a checker, it terminates, and an action that fails during
      recovery can confuse the types of values.
    - Digests: fed in pieces of any sizes, the contexts compute the digests of
      the RFCs, for strings and for channels.
    - Channels: over a regular file the buffer of a channel cannot be observed, whatever
      sizes and interruptions the system chooses, for input and for output, buffered or
      not; locks are released when an exception is raised, and positions are kept but by the read
      of an integer; the linked list
      of channels holds those with unwritten data.  One theorem states a defect: a closed
      channel accepts output after a first failure.
    - Shared heap: blocks never overlap and no assertion fails in any reachable
      state; allocation returns fresh memory and frees garbage only; sweeping
      ends; a whole cycle frees exactly the blocks that were not marked, runs
      their custom finalisers once, and keeps the statistics exact.

    ** Bounds and fuel

    [compare_loop] and [run] take fuel because the code may not terminate
    (cyclic values, divergent programs); [structural_compare] states a bound
    exists for the values it covers and that every larger fuel gives the same
    result.  [hash_loop] needs at most one round per queue slot and
    [hash_value] three jumps, so their fuel is fixed and proved sufficient.
    [check_stacks_from] leaves one fiber per round; [grow_wsize] doubles a
    size below a fixed limit, and its termination is proved.
    [caml_array_concat] takes the length of the list of arrays.
    [extern_loop], [reachable_loop] and [intern_loop] take fuel; the theorems
    state that enough of it exists for every finite graph of fewer than
    2^26 - 2 blocks, the size at which the explicit stacks of the code could
    reach their limit.  [oldify_one] recurs once or twice per block it copies, so that twice
    the number of blocks is enough, and [oldify_mopup] visits the ephemerons
    at most twice; a chain of stacks is followed to a depth [stack_depth].
    [calls_loop] needs one unit for each call of the queue.  The loops of the lexer
    and of the parser have their bounds in the theorems.  The loops of a channel take the
    constant [fuel] of the class [OS]: a write makes progress, and the laws bound the
    interruptions.  The loops on the lists of the shared heap take the number of pools or of
    large blocks, those on the slots of a pool its size, and [caml_finish_sweeping] one
    round per pool, large block and size class: that they are enough is proved, since the
    theorems say that the functions return.

    ** Not modelled

    The roots that [caml_scan_roots_hook] adds, marking, ephemerons and compaction in the major collector, the pacing of
    its slices, the calls of the collectors from the allocators (the outcome [Pending];
    the clients of the shared heap use the interface [SharedHeap]), the interleaving of
    domains inside one operation and the memory model, native code, floating-point arithmetic
    (doubles are bit patterns that are copied, compared and hashed),
    marshaling to and from channels, the other system calls, the debugger's
    protocol, memory profiling, the compilers (not C) and the parser
    generator.  Each is a component of the manifest with its reason.  *)

From Stdlib Require Export ZArith Lia ZifyBool.
From stdpp Require Export base gmap list strings option numbers.

#[global] Set Default Goal Selector "!".
#[global] Open Scope Z_scope.

(** ** Machine integers

    A C integer of width [w] is a [Z]; the unsigned types hold the residue
    modulo [2^w], the signed types the two's complement representative. *)

Definition wrap (w z : Z) : Z := z mod 2 ^ w.
Definition swrap (w z : Z) : Z := (z + 2 ^ (w - 1)) mod 2 ^ w - 2 ^ (w - 1).

Declare Scope word_scope.
Delimit Scope word_scope with word.
Notation "'u8' x" := (wrap 8 x) (at level 10) : word_scope.
Notation "'u32' x" := (wrap 32 x) (at level 10) : word_scope.
Notation "'u64' x" := (wrap 64 x) (at level 10) : word_scope.
Notation "'s8' x" := (swrap 8 x) (at level 10) : word_scope.
Notation "'s32' x" := (swrap 32 x) (at level 10) : word_scope.
Notation "'s64' x" := (swrap 64 x) (at level 10) : word_scope.
#[global] Open Scope word_scope.

Create HintDb words.

Lemma pow2_pos w : 0 <= w -> 0 < 2 ^ w.
Proof. intros; apply Z.pow_pos_nonneg; lia. Qed.

Lemma pow2_half w : 0 < w -> 2 ^ w = 2 * 2 ^ (w - 1).
Proof. intros. rewrite <- Z.pow_succ_r by lia. f_equal. lia. Qed.

Lemma wrap_range w z : 0 <= w -> 0 <= wrap w z < 2 ^ w.
Proof. intros. apply Z.mod_pos_bound, pow2_pos; done. Qed.

Lemma wrap_small w z : 0 <= z < 2 ^ w -> wrap w z = z.
Proof. apply Z.mod_small. Qed.

Lemma wrap_wrap w z : wrap w (wrap w z) = wrap w z.
Proof. apply Zmod_mod. Qed.

Lemma swrap_range w z : 0 < w -> - 2 ^ (w - 1) <= swrap w z < 2 ^ (w - 1).
Proof.
  intros. unfold swrap.
  pose proof (Z.mod_pos_bound (z + 2 ^ (w - 1)) (2 ^ w) (pow2_pos w ltac:(lia))).
  rewrite (pow2_half w) in * by lia. lia.
Qed.

Lemma swrap_small w z :
  0 < w -> - 2 ^ (w - 1) <= z < 2 ^ (w - 1) -> swrap w z = z.
Proof.
  intros ? ?. unfold swrap. rewrite Z.mod_small; [lia|].
  rewrite (pow2_half w) by lia. lia.
Qed.

Lemma wrap_swrap w z : 0 < w -> wrap w (swrap w z) = wrap w z.
Proof.
  intros. unfold wrap, swrap.
  rewrite Zminus_mod_idemp_l. f_equal. lia.
Qed.

Lemma swrap_ext w a b : wrap w a = wrap w b -> swrap w a = swrap w b.
Proof.
  unfold wrap, swrap. intros E.
  rewrite <- (Zplus_mod_idemp_l a), <- (Zplus_mod_idemp_l b), E. done.
Qed.

Lemma wrap_ext w a b : 0 < w -> swrap w a = swrap w b -> wrap w a = wrap w b.
Proof. intros ? E. rewrite <- (wrap_swrap w a), <- (wrap_swrap w b), E; done. Qed.

Lemma swrap_wrap w z : swrap w (wrap w z) = swrap w z.
Proof. apply swrap_ext, wrap_wrap. Qed.

Lemma swrap_swrap w z : 0 < w -> swrap w (swrap w z) = swrap w z.
Proof. intros. apply swrap_ext, wrap_swrap; done. Qed.

Lemma wrap_inj_signed w a b :
  0 < w -> - 2 ^ (w - 1) <= a < 2 ^ (w - 1) -> - 2 ^ (w - 1) <= b < 2 ^ (w - 1) ->
  wrap w a = wrap w b -> a = b.
Proof.
  intros ? Ha Hb E. apply swrap_ext in E. by rewrite !swrap_small in E by done.
Qed.

(** Congruence modulo [2^w] is the equivalence under which the machine
    operations are total: [wrap] and [swrap] pick its representatives. *)
Definition eqm (w a b : Z) : Prop := wrap w a = wrap w b.

#[export] Instance eqm_equiv w : Equivalence (eqm w).
Proof. split; red; unfold eqm; congruence. Qed.

#[export] Instance eqm_add w : Proper (eqm w ==> eqm w ==> eqm w) Z.add.
Proof.
  intros a b E c d F. unfold eqm, wrap in *.
  by rewrite (Zplus_mod a), (Zplus_mod b), E, F.
Qed.
#[export] Instance eqm_sub w : Proper (eqm w ==> eqm w ==> eqm w) Z.sub.
Proof.
  intros a b E c d F. unfold eqm, wrap in *.
  by rewrite (Zminus_mod a), (Zminus_mod b), E, F.
Qed.
#[export] Instance eqm_mul w : Proper (eqm w ==> eqm w ==> eqm w) Z.mul.
Proof.
  intros a b E c d F. unfold eqm, wrap in *.
  by rewrite (Zmult_mod a), (Zmult_mod b), E, F.
Qed.
#[export] Instance eqm_swrap w : Proper (eqm w ==> eq) (swrap w).
Proof. intros a b E. by apply swrap_ext. Qed.
#[export] Instance eqm_wrap w : Proper (eqm w ==> eq) (wrap w).
Proof. intros a b E. exact E. Qed.

Lemma eqm_of_swrap w z : 0 < w -> eqm w (swrap w z) z.
Proof. intros. unfold eqm. by apply wrap_swrap. Qed.
Lemma eqm_of_wrap w z : eqm w (wrap w z) z.
Proof. apply wrap_wrap. Qed.

Lemma eqm_narrow w w' a b : 0 < w <= w' -> eqm w' a b -> eqm w a b.
Proof.
  unfold eqm, wrap. intros Hw E.
  assert (2 ^ w' = 2 ^ w * 2 ^ (w' - w)) as Hp by (rewrite <- Z.pow_add_r by lia; f_equal; lia).
  rewrite Hp in E.
  rewrite (Z.div_mod a (2 ^ w * 2 ^ (w' - w))), (Z.div_mod b (2 ^ w * 2 ^ (w' - w))), E
    by (rewrite <- Hp; apply Z.pow_nonzero; lia).
  rewrite <- !Z.mul_assoc, !(Z.mul_comm (2 ^ w)), !(Z.add_comm (_ * 2 ^ w)).
  by rewrite !Z_mod_plus_full.
Qed.

Lemma swrap_narrow w w' z : 0 < w <= w' -> swrap w (swrap w' z) = swrap w z.
Proof.
  intros. apply swrap_ext, (eqm_narrow w w'); [done|]. apply eqm_of_swrap. lia.
Qed.

(** *** Bits *)

Lemma testbit_wrap w z i :
  0 <= w -> 0 <= i -> Z.testbit (wrap w z) i = (i <? w) && Z.testbit z i.
Proof.
  intros. unfold wrap. destruct (Z.ltb_spec i w); simpl.
  - apply Z.mod_pow2_bits_low; lia.
  - apply Z.mod_pow2_bits_high; lia.
Qed.

Lemma testbit_sign n a i :
  0 <= n -> - 2 ^ n <= a < 2 ^ n -> n <= i -> Z.testbit a i = (a <? 0).
Proof.
  intros Hn Ha Hi.
  assert (2 ^ n <= 2 ^ i) by (apply Z.pow_le_mono_r; lia).
  destruct (Z.ltb_spec a 0) as [Hneg|Hpos].
  - destruct (decide (a = -1)) as [->|]; [by apply Z.bits_m1; lia|].
    rewrite <- (Z.lnot_involutive a), Z.lnot_spec by lia.
    replace (Z.testbit (Z.lnot a) i) with false; [done|symmetry].
    apply Z.bits_above_log2; unfold Z.lnot; [lia|].
    apply Z.log2_lt_pow2; lia.
  - destruct (decide (a = 0)) as [->|]; [apply Z.testbit_0_l|].
    apply Z.bits_above_log2; [lia|]. apply Z.log2_lt_pow2; lia.
Qed.

Lemma testbit_swrap w z i :
  0 < w -> 0 <= i ->
  Z.testbit (swrap w z) i = if i <? w then Z.testbit z i else Z.testbit z (w - 1).
Proof.
  intros Hw Hi.
  assert (Hlow : forall j, 0 <= j < w -> Z.testbit (swrap w z) j = Z.testbit z j).
  { intros j Hj. transitivity (Z.testbit (wrap w (swrap w z)) j).
    - rewrite testbit_wrap by lia. by rewrite (proj2 (Z.ltb_lt j w)) by lia.
    - rewrite wrap_swrap, testbit_wrap by lia.
      by rewrite (proj2 (Z.ltb_lt j w)) by lia. }
  destruct (Z.ltb_spec i w); [apply Hlow; lia|].
  rewrite <- (Hlow (w - 1)) by lia.
  pose proof (swrap_range w z Hw).
  rewrite (testbit_sign (w - 1) _ i), (testbit_sign (w - 1) _ (w - 1)) by lia. done.
Qed.

(** ** Outcomes of C code

    [Ret] is a normal return; [Raise] an OCaml exception raised from C;
    [Undef] an access the C code has no right to make (unmapped memory,
    popping an empty stack); [Pending] control handed to the garbage
    collector or to the pending-action machinery; [NoFuel] an exhausted
    recursion bound of the model. *)

Inductive exn : Type :=
| Failure (msg : string)
| Invalid_argument (msg : string)
| Division_by_zero
| Out_of_memory
| Not_found
| Stack_overflow.

Inductive result (A : Type) : Type :=
| Ret (a : A)
| Raise (e : exn)
| Undef
| Pending
| NoFuel.
Arguments Ret {A} a.
Arguments Raise {A} e.
Arguments Undef {A}.
Arguments Pending {A}.
Arguments NoFuel {A}.

#[export] Instance exn_eq_dec : EqDecision exn.
Proof. solve_decision. Defined.
#[export] Instance result_eq_dec `{EqDecision A} : EqDecision (result A).
Proof. solve_decision. Defined.

Definition is_Ret {A} (r : result A) : bool := match r with Ret _ => true | _ => false end.
#[export] Instance Ret_inj {A} : Inj (=) (=) (@Ret A).
Proof. by intros a b [= ->]. Qed.

#[export] Instance result_ret : MRet result := fun _ a => Ret a.
#[export] Instance result_bind : MBind result := fun _ _ f m =>
  match m with
  | Ret a => f a
  | Raise e => Raise e
  | Undef => Undef
  | Pending => Pending
  | NoFuel => NoFuel
  end.
#[export] Instance result_fmap : FMap result := fun _ _ f m => m ≫= fun a => Ret (f a).

(** [of_option] turns a failed memory access into undefined behaviour. *)
Definition of_option {A} (o : option A) : result A :=
  match o with Some a => Ret a | None => Undef end.

(** [if (cond) caml_raise...(e);] *)
Definition raise_if (cond : bool) (e : exn) : result unit :=
  if cond then Raise e else Ret ().

Lemma bind_Ret_inv {A B} (m : result A) (f : A -> result B) b :
  m ≫= f = Ret b -> exists a, m = Ret a /\ f a = Ret b.
Proof. destruct m; try discriminate. intros. eauto. Qed.

Lemma bind_assoc {A B C} (m : result A) (f : A -> result B) (g : B -> result C) :
  (m ≫= f) ≫= g = m ≫= (fun a => f a ≫= g).
Proof. by destruct m. Qed.

Lemma raise_if_Ret b e u : raise_if b e = Ret u -> b = false.
Proof. by destruct b. Qed.

(** One step of the monad: a bind whose first computation has returned. *)
Tactic Notation "mred" := cbn [mbind result_bind].
Tactic Notation "mred" "in" hyp(H) := cbn [mbind result_bind] in H.

(** Peel the successful binds of a hypothesis [m ≫= f = Ret b]. *)
Ltac inv_bind :=
  repeat match goal with
  | H : _ ≫= _ = Ret _ |- _ =>
      let a := fresh "a" in let E := fresh "E" in let F := fresh "F" in
      apply bind_Ret_inv in H as (a & E & F); simpl in F
  | H : raise_if _ _ = Ret _ |- _ => apply raise_if_Ret in H
  | H : Ret _ = Ret _ |- _ => injection H as H
  end.

(** Case analysis on the arithmetic and boolean tests of a goal. *)
Ltac case_tests :=
  repeat match goal with
  | |- context [?a =? ?b] => destruct (Z.eqb_spec a b)
  | |- context [?a <? ?b] => destruct (Z.ltb_spec a b)
  | |- context [?a <=? ?b] => destruct (Z.leb_spec a b)
  | |- context [bool_decide ?P] => case_bool_decide
  end.

(** ** Lists *)

Lemma skipn_cons_lookup {A} (l : list A) n x k :
  drop n l = x :: k -> l !! n = Some x /\ drop (S n) l = k.
Proof.
  intros E. split.
  - rewrite <- (Nat.add_0_r n), <- lookup_drop, E. done.
  - by rewrite <- Nat.add_1_r, <- drop_drop, E.
Qed.

(** ** Bytes of a little-endian word *)

Definition get_byte (w k : Z) : Z := Z.land (Z.shiftr w (8 * k)) 255.
Definition set_byte (w k b : Z) : Z :=
  Z.lor (Z.land w (Z.lnot (Z.shiftl 255 (8 * k)))) (Z.shiftl (Z.land b 255) (8 * k)).

Lemma testbit_255 i : 0 <= i -> Z.testbit 255 i = (i <? 8).
Proof.
  intros. change 255 with (Z.ones 8). destruct (Z.ltb_spec i 8).
  - apply Z.ones_spec_low; lia.
  - apply Z.ones_spec_high; lia.
Qed.

Lemma testbit_get_byte w k i :
  0 <= k -> 0 <= i -> Z.testbit (get_byte w k) i = (i <? 8) && Z.testbit w (i + 8 * k).
Proof.
  intros. unfold get_byte. rewrite Z.land_spec, Z.shiftr_spec, testbit_255 by lia.
  apply andb_comm.
Qed.

Lemma get_byte_range w k : 0 <= get_byte w k < 256.
Proof.
  unfold get_byte. change 255 with (Z.ones 8). rewrite Z.land_ones by lia.
  apply Z.mod_pos_bound. lia.
Qed.

Lemma testbit_set_byte w k b i :
  0 <= k -> 0 <= i ->
  Z.testbit (set_byte w k b) i =
  if (8 * k <=? i) && (i <? 8 * k + 8) then Z.testbit b (i - 8 * k) else Z.testbit w i.
Proof.
  intros. unfold set_byte.
  rewrite Z.lor_spec, Z.land_spec, Z.lnot_spec, !Z.shiftl_spec by lia.
  destruct (Z.leb_spec (8 * k) i) as [Hle|Hgt].
  - rewrite Z.land_spec, testbit_255 by lia.
    destruct (Z.ltb_spec (i - 8 * k) 8); destruct (Z.ltb_spec i (8 * k + 8)); try lia; simpl;
      destruct (Z.testbit w i), (Z.testbit b (i - 8 * k)); done.
  - rewrite (Z.testbit_neg_r 255), (Z.testbit_neg_r (Z.land b 255)) by lia.
    simpl. by destruct (Z.testbit w i).
Qed.

Lemma get_set_byte_eq w k b : 0 <= k -> get_byte (set_byte w k b) k = Z.land b 255.
Proof.
  intros. apply Z.bits_inj'. intros i Hi.
  rewrite testbit_get_byte, testbit_set_byte, Z.land_spec, testbit_255 by lia.
  destruct (Z.ltb_spec i 8); [|by rewrite andb_false_r]. simpl.
  rewrite (proj2 (Z.leb_le _ _)), (proj2 (Z.ltb_lt (i + 8 * k) _)) by lia. simpl.
  rewrite andb_true_r. f_equal; lia.
Qed.

Lemma get_set_byte_ne w k k' b :
  0 <= k -> 0 <= k' -> k <> k' -> get_byte (set_byte w k b) k' = get_byte w k'.
Proof.
  intros. apply Z.bits_inj'. intros i Hi.
  rewrite !testbit_get_byte, testbit_set_byte by lia.
  destruct (Z.ltb_spec i 8); [simpl|done].
  destruct (Z.leb_spec (8 * k) (i + 8 * k')); [|done].
  destruct (Z.ltb_spec (i + 8 * k') (8 * k + 8)); [lia|done].
Qed.

Lemma get_byte_lor a b k : get_byte (Z.lor a b) k = Z.lor (get_byte a k) (get_byte b k).
Proof. unfold get_byte. by rewrite Z.shiftr_lor, Z.land_lor_distr_l. Qed.

Lemma mask_byte x j : 0 <= j -> Z.land x (Z.shiftl 255 (8 * j)) = Z.shiftl (get_byte x j) (8 * j).
Proof.
  intros. unfold get_byte. rewrite Z.shiftl_land. apply Z.bits_inj'. intros i Hi.
  rewrite !Z.land_spec, !Z.shiftl_spec by lia.
  destruct (Z.leb_spec (8 * j) i).
  - rewrite Z.shiftr_spec by lia. by replace (i - 8 * j + 8 * j) with i by lia.
  - by rewrite (Z.testbit_neg_r 255), !andb_false_r by lia.
Qed.

Lemma get_byte_shiftl b j k :
  0 <= b < 256 -> 0 <= j -> 0 <= k ->
  get_byte (Z.shiftl b (8 * j)) k = if j =? k then b else 0.
Proof.
  intros Hb Hj Hk. apply Z.bits_inj'. intros i Hi.
  rewrite testbit_get_byte, Z.shiftl_spec by lia.
  assert (Hhi : forall n, 8 <= n -> Z.testbit b n = false).
  { intros n Hn. destruct (decide (b = 0)) as [->|]; [apply Z.testbit_0_l|].
    apply Z.bits_above_log2; [lia|]. apply Z.log2_lt_pow2; [lia|].
    assert (2 ^ 8 <= 2 ^ n) by (apply Z.pow_le_mono_r; lia). lia. }
  destruct (Z.eqb_spec j k) as [->|Hne].
  - replace (i + 8 * k - 8 * k) with i by lia. destruct (Z.ltb_spec i 8); [done|].
    by rewrite Hhi by lia.
  - rewrite Z.testbit_0_l. destruct (Z.ltb_spec i 8); [simpl|done].
    destruct (Z.ltb_spec j k); [by rewrite Hhi by lia|by rewrite Z.testbit_neg_r by lia].
Qed.

Lemma get_byte_swrap w z k : 0 <= k -> 8 * k + 8 <= w -> get_byte (swrap w z) k = get_byte z k.
Proof.
  intros. apply Z.bits_inj'. intros i Hi. rewrite !testbit_get_byte, testbit_swrap by lia.
  destruct (Z.ltb_spec i 8); [simpl|done]. by rewrite (proj2 (Z.ltb_lt _ _)) by lia.
Qed.

Lemma get_byte_wrap w z k : 0 <= k -> 8 * k + 8 <= w -> get_byte (wrap w z) k = get_byte z k.
Proof.
  intros. apply Z.bits_inj'. intros i Hi. rewrite !testbit_get_byte, testbit_wrap by lia.
  destruct (Z.ltb_spec i 8); [simpl|done]. by rewrite (proj2 (Z.ltb_lt _ _)) by lia.
Qed.

(** Two integers of [8 * n] bits with the same bytes are equal. *)
Lemma bytes_ext n a b :
  0 <= n -> (forall k, 0 <= k < n -> get_byte a k = get_byte b k) -> wrap (8 * n) a = wrap (8 * n) b.
Proof.
  intros Hn Hb. apply Z.bits_inj'. intros i Hi. rewrite !testbit_wrap by lia.
  destruct (Z.ltb_spec i (8 * n)); [simpl|done].
  pose proof (Z.div_mod i 8 ltac:(lia)). pose proof (Z.mod_pos_bound i 8 ltac:(lia)).
  assert (0 <= i / 8 < n) as Hk by lia. specialize (Hb _ Hk).
  apply (f_equal (fun z => Z.testbit z (i mod 8))) in Hb.
  rewrite !testbit_get_byte, (proj2 (Z.ltb_lt _ _)) in Hb by lia. simpl in Hb.
  by replace (i mod 8 + 8 * (i / 8)) with i in Hb by lia.
Qed.

(** A signed word is determined by its eight bytes. *)
Lemma word_ext w1 w2 :
  - 2 ^ 63 <= w1 < 2 ^ 63 -> - 2 ^ 63 <= w2 < 2 ^ 63 ->
  (forall k, 0 <= k < 8 -> get_byte w1 k = get_byte w2 k) -> w1 = w2.
Proof. intros. apply (wrap_inj_signed 64); try done. by apply (bytes_ext 8). Qed.
