(* ===== verification/Memory.v ===== *)
(** * Values, headers and the heap (runtime/caml/mlvalues.h, memory.h, memory.c, alloc.c)

    The heap is word addressed: a finite map from byte addresses to 64-bit
    words, exactly the view the macros of mlvalues.h have of it.  A [value]
    is a signed 64-bit word; immediates have bit 0 set, block pointers are
    the address of the first field, with the header in the word before. *)

From S2P Require Import Prelude.

(** ** Immediates *)
Module Val.

Definition Is_long (x : Z) : bool := negb (Z.land x 1 =? 0).
Definition Is_block (x : Z) : bool := Z.land x 1 =? 0.
Definition Val_long (x : Z) : Z := s64 (s64 (Z.shiftl (u64 x) 1) + 1).
Definition Long_val (x : Z) : Z := Z.shiftr x 1.
Definition Max_long : Z := 2 ^ 62 - 1.
Definition Min_long : Z := - 2 ^ 62.
Definition Val_int (x : Z) : Z := Val_long x.
Definition Int_val (x : Z) : Z := s32 (Long_val x).
Definition Unsigned_long_val (x : Z) : Z := Z.shiftr (u64 x) 1.
Definition Val_bool (b : bool) : Z := Val_int (if b then 1 else 0).
Definition Val_false : Z := Val_int 0.
Definition Val_true : Z := Val_int 1.
Definition Val_not (x : Z) : Z := s64 (Val_false + Val_true - x).
Definition Val_unit : Z := Val_int 0.
Definition Val_emptylist : Z := Val_int 0.

(** A word of the machine, as a signed integer. *)
Definition is_word (x : Z) : Prop := - 2 ^ 63 <= x < 2 ^ 63.
(** An integer of the language: 63 bits. *)
Definition is_int (n : Z) : Prop := Min_long <= n <= Max_long.

Lemma Is_long_odd x : Is_long x = Z.odd x.
Proof.
  unfold Is_long. change 1 with (Z.ones 1). rewrite Z.land_ones, Zmod_odd by lia.
  by destruct (Z.odd x).
Qed.
Lemma Is_block_long x : Is_block x = negb (Is_long x).
Proof. unfold Is_block, Is_long. by destruct (_ =? _). Qed.

Lemma Val_long_eq x : Val_long x = 2 * swrap 63 x + 1.
Proof.
  unfold Val_long. rewrite Z.shiftl_mul_pow2 by lia.
  transitivity (s64 (2 * x + 1)).
  - apply swrap_ext. change (eqm 64 (s64 (u64 x * 2 ^ 1) + 1) (2 * x + 1)).
    rewrite eqm_of_swrap by lia. unfold eqm, wrap. change (2 ^ 1) with 2.
    rewrite Zplus_mod, (Zmult_mod (x mod 2 ^ 64)), Zmod_mod.
    rewrite <- Zmult_mod, <- Zplus_mod. f_equal; lia.
  - pose proof (swrap_range 63 x ltac:(lia)) as Hr. change (63 - 1) with 62 in Hr.
    rewrite <- (swrap_small 64 (2 * swrap 63 x + 1)) by lia.
    unfold swrap. change (63 - 1) with 62. change (64 - 1) with 63.
    change (2 ^ 64) with (2 * 2 ^ 63). change (2 ^ 63) with (2 * 2 ^ 62).
    rewrite (Z.mod_eq (x + 2 ^ 62) (2 * 2 ^ 62)) by lia.
    set (q := (x + 2 ^ 62) / (2 * 2 ^ 62)).
    replace (2 * (x + 2 ^ 62 - 2 * 2 ^ 62 * q - 2 ^ 62) + 1 + 2 * 2 ^ 62)
      with (2 * x + 1 + 2 * 2 ^ 62 + (- q) * (2 * (2 * 2 ^ 62))) by lia.
    by rewrite Z_mod_plus_full.
Qed.

Lemma Val_long_int n : is_int n -> Val_long n = 2 * n + 1.
Proof.
  intros [? ?]. rewrite Val_long_eq, swrap_small; unfold Min_long, Max_long in *; lia.
Qed.

Lemma Long_val_half x : Long_val x = x / 2.
Proof. unfold Long_val. by rewrite Z.shiftr_div_pow2 by lia. Qed.

Lemma Long_Val_long x : Long_val (Val_long x) = swrap 63 x.
Proof.
  rewrite Long_val_half, Val_long_eq. symmetry. by apply (Z.div_unique _ _ _ 1); lia.
Qed.

Lemma Long_Val_int n : is_int n -> Long_val (Val_long n) = n.
Proof.
  intros. rewrite Long_val_half, Val_long_int by done. symmetry.
  by apply (Z.div_unique _ _ _ 1); lia.
Qed.

Lemma Val_long_Is_long x : Is_long (Val_long x) = true.
Proof.
  rewrite Is_long_odd, Val_long_eq, Z.add_comm. by rewrite Z.odd_add_mul_2.
Qed.

Lemma Val_Long_val x : is_word x -> Is_long x = true -> Val_long (Long_val x) = x.
Proof.
  intros Hw Ho. rewrite Is_long_odd in Ho. rewrite Long_val_half.
  assert (x = 2 * (x / 2) + 1) as Hx.
  { pose proof (Z.div_mod x 2 ltac:(lia)) as E. rewrite Zmod_odd, Ho in E. lia. }
  rewrite Val_long_int; unfold is_int, is_word, Min_long, Max_long in *; lia.
Qed.

Lemma Long_val_is_int x : is_word x -> is_int (Long_val x).
Proof.
  intros Hx. rewrite Long_val_half. unfold is_word, is_int, Min_long, Max_long in *.
  pose proof (Z.div_mod x 2 ltac:(lia)). pose proof (Z.mod_pos_bound x 2 ltac:(lia)). lia.
Qed.

Lemma Val_long_inj n m : is_int n -> is_int m -> Val_long n = Val_long m -> n = m.
Proof. intros. rewrite !Val_long_int in * by done. lia. Qed.

Lemma Val_long_is_word x : is_word (Val_long x).
Proof.
  rewrite Val_long_eq. pose proof (swrap_range 63 x ltac:(lia)) as Hr.
  change (63 - 1) with 62 in Hr. unfold is_word. lia.
Qed.

#[export] Hint Resolve Val_long_Is_long Val_long_is_word Long_val_is_int : words.
End Val.
Export Val.

(** ** Headers *)
Module Header.

Definition HEADER_TAG_MASK : Z := 2 ^ 8 - 1.
Definition HEADER_COLOR_MASK : Z := Z.shiftl (2 ^ 2 - 1) 8.
Definition HEADER_WOSIZE_SHIFT : Z := 10.
(** [HEADER_RESERVED_BITS] is 0, the default of configure. *)
Definition HEADER_WOSIZE_MASK : Z := Z.shiftl (2 ^ 54 - 1) HEADER_WOSIZE_SHIFT.
Definition Max_wosize : Z := 2 ^ 54 - 1.

Definition Tag_hd (hd : Z) : Z := Z.land hd HEADER_TAG_MASK.
Definition Wosize_hd (hd : Z) : Z := Z.shiftr (Z.land hd HEADER_WOSIZE_MASK) HEADER_WOSIZE_SHIFT.
Definition Color_hd (hd : Z) : Z := Z.land hd HEADER_COLOR_MASK.
Definition Hd_with_color (hd color : Z) : Z :=
  Z.lor (Z.land hd (Z.lnot HEADER_COLOR_MASK)) color.
Definition Cleanhd_hd (hd : Z) : Z := Z.land (u64 hd) (Z.lor HEADER_TAG_MASK HEADER_WOSIZE_MASK).
Definition Make_header (wosize tag color : Z) : Z :=
  u64 (u64 (Z.shiftl wosize HEADER_WOSIZE_SHIFT) + color + tag).

Definition No_scan_tag : Z := 251.
Definition Forward_tag : Z := 250.
Definition Infix_tag : Z := 249.
Definition Object_tag : Z := 248.
Definition Closure_tag : Z := 247.
Definition Lazy_tag : Z := 246.
Definition Cont_tag : Z := 245.
Definition Forcing_tag : Z := 244.
Definition Abstract_tag : Z := 251.
Definition String_tag : Z := 252.
Definition Double_tag : Z := 253.
Definition Double_array_tag : Z := 254.
Definition Custom_tag : Z := 255.
Definition Double_wosize : Z := 1.

Definition Whsize_wosize (sz : Z) : Z := sz + 1.
Definition Bsize_wsize (sz : Z) : Z := sz * 8.
Definition Bosize_hd (hd : Z) : Z := Bsize_wsize (Wosize_hd hd).
Definition Infix_offset_hd (hd : Z) : Z := Bosize_hd hd.

(** Closure information words. *)
Definition Arity_closinfo (info : Z) : Z := Z.shiftr (s64 info) 56.
Definition Start_env_closinfo (info : Z) : Z := Z.shiftr (u64 (Z.shiftl (u64 info) 8)) 9.
Definition Make_closinfo (arity delta : Z) : Z :=
  u64 (u64 (Z.shiftl (u64 arity) 56) + u64 (Z.shiftl (u64 delta) 1) + 1).

Definition Max_young_wosize : Z := 256.

(** The four colours, pre-shifted. *)
Definition is_color (c : Z) : Prop := c = 0 \/ c = 256 \/ c = 512 \/ c = 768.

Lemma Make_header_eq wosize tag color :
  0 <= wosize < 2 ^ 54 -> 0 <= tag < 256 -> is_color color ->
  Make_header wosize tag color = wosize * 1024 + color + tag.
Proof.
  intros Hw Ht Hc. unfold Make_header, HEADER_WOSIZE_SHIFT.
  rewrite Z.shiftl_mul_pow2 by lia. change (2 ^ 10) with 1024.
  unfold is_color in Hc. rewrite (wrap_small 64 (wosize * 1024)) by lia.
  apply wrap_small. lia.
Qed.

Lemma Tag_Make_header wosize tag color :
  0 <= wosize < 2 ^ 54 -> 0 <= tag < 256 -> is_color color ->
  Tag_hd (Make_header wosize tag color) = tag.
Proof.
  intros Hw Ht Hc. rewrite Make_header_eq by done. unfold Tag_hd, HEADER_TAG_MASK.
  change (2 ^ 8 - 1) with (Z.ones 8). rewrite Z.land_ones by lia. change (2 ^ 8) with 256.
  destruct Hc as [->|[->|[->| ->]]]; symmetry;
    [apply (Z.mod_unique _ _ (wosize * 4))|apply (Z.mod_unique _ _ (wosize * 4 + 1))
    |apply (Z.mod_unique _ _ (wosize * 4 + 2))|apply (Z.mod_unique _ _ (wosize * 4 + 3))]; lia.
Qed.

Lemma Wosize_hd_div hd : 0 <= hd < 2 ^ 64 -> Wosize_hd hd = hd / 1024.
Proof.
  intros. unfold Wosize_hd, HEADER_WOSIZE_MASK, HEADER_WOSIZE_SHIFT.
  change (2 ^ 54 - 1) with (Z.ones 54). rewrite Z.shiftr_land, Z.shiftr_shiftl_l by lia.
  rewrite Z.shiftl_0_r, Z.land_ones, Z.shiftr_div_pow2 by lia.
  apply Z.mod_small. split; [apply Z.div_pos; lia|apply Z.div_lt_upper_bound; lia].
Qed.

Lemma Wosize_Make_header wosize tag color :
  0 <= wosize < 2 ^ 54 -> 0 <= tag < 256 -> is_color color ->
  Wosize_hd (Make_header wosize tag color) = wosize.
Proof.
  intros Hw Ht Hc. unfold is_color in Hc.
  rewrite Wosize_hd_div; rewrite Make_header_eq by done; [|lia].
  symmetry. apply (Z.div_unique _ _ _ (color + tag)); lia.
Qed.

Lemma closinfo_start arity delta :
  -128 <= arity < 128 -> 0 <= delta < 2 ^ 54 ->
  Start_env_closinfo (Make_closinfo arity delta) = delta.
Proof.
  intros Ha Hd. unfold Start_env_closinfo, Make_closinfo.
  rewrite !Z.shiftl_mul_pow2, Z.shiftr_div_pow2 by lia.
  match goal with |- u64 ?x / _ = _ => assert (eqm 64 x (delta * 512 + 256)) as -> end.
  { rewrite !eqm_of_wrap. unfold eqm, wrap.
    replace ((arity * 2 ^ 56 + delta * 2 ^ 1 + 1) * 2 ^ 8)
      with (delta * 512 + 256 + arity * 2 ^ 64) by lia.
    by rewrite Z_mod_plus_full. }
  rewrite wrap_small by lia. symmetry. apply (Z.div_unique _ _ _ 256); lia.
Qed.
End Header.
Export Header.

(** ** The heap of one domain *)
Module Heap.

(** The memory words, the minor allocation pointer and limit, the bounds of
    the minor heaps, the address of the table of atoms, the remembered set
    ([minor_tables->major_ref]) and the blocks passed to [caml_darken]. *)
Record heap := mkHeap {
  words : gmap Z Z;
  young_ptr : Z;
  young_limit : Z;
  caml_minor_heaps_start : Z;
  caml_minor_heaps_end : Z;
  atoms : Z;
  major_ref : list Z;
  darkened : list Z;
}.

Definition set_words (m : gmap Z Z) (h : heap) : heap :=
  mkHeap m (young_ptr h) (young_limit h) (caml_minor_heaps_start h)
    (caml_minor_heaps_end h) (atoms h) (major_ref h) (darkened h).
Definition set_young_ptr (p : Z) (h : heap) : heap :=
  mkHeap (words h) p (young_limit h) (caml_minor_heaps_start h)
    (caml_minor_heaps_end h) (atoms h) (major_ref h) (darkened h).
Definition set_major_ref (r : list Z) (h : heap) : heap :=
  mkHeap (words h) (young_ptr h) (young_limit h) (caml_minor_heaps_start h)
    (caml_minor_heaps_end h) (atoms h) r (darkened h).
Definition set_darkened (d : list Z) (h : heap) : heap :=
  mkHeap (words h) (young_ptr h) (young_limit h) (caml_minor_heaps_start h)
    (caml_minor_heaps_end h) (atoms h) (major_ref h) d.

(** *** Loads and stores *)
Definition load (h : heap) (a : Z) : result Z := of_option (words h !! a).
Definition store (h : heap) (a w : Z) : result heap :=
  match words h !! a with
  | Some _ => Ret (set_words (<[a := w]> (words h)) h)
  | None => Undef
  end.

Definition Hd_val (h : heap) (v : Z) : result Z := w ← load h (v - 8); Ret (u64 w).
Definition Tag_val (h : heap) (v : Z) : result Z := hd ← Hd_val h v; Ret (Tag_hd hd).
Definition Wosize_val (h : heap) (v : Z) : result Z := hd ← Hd_val h v; Ret (Wosize_hd hd).
Definition Bosize_val (h : heap) (v : Z) : result Z := sz ← Wosize_val h v; Ret (Bsize_wsize sz).
Definition Field (h : heap) (v i : Z) : result Z := load h (v + 8 * i).
Definition Store_field (h : heap) (v i w : Z) : result heap := store h (v + 8 * i) w.
Definition Code_val (h : heap) (v : Z) : result Z := Field h v 0.
Definition Forward_val (h : heap) (v : Z) : result Z := Field h v 0.
Definition Oid_val (h : heap) (v : Z) : result Z := w ← Field h v 1; Ret (Long_val w).

(** Little-endian byte access, as on amd64 and arm64. *)
Definition Byte_u (h : heap) (v i : Z) : result Z :=
  w ← load h (v + 8 * (i / 8)); Ret (get_byte w (i mod 8)).
Definition Byte (h : heap) (v i : Z) : result Z := b ← Byte_u h v i; Ret (s8 b).
Definition Store_byte (h : heap) (v i b : Z) : result heap :=
  w ← load h (v + 8 * (i / 8));
  store h (v + 8 * (i / 8)) (s64 (set_byte w (i mod 8) b)).

(** A double is its 64-bit pattern. *)
Definition Double_val (h : heap) (v : Z) : result Z := w ← load h v; Ret (u64 w).
Definition Store_double_val (h : heap) (v d : Z) : result heap := store h v (s64 d).
Definition Double_flat_field (h : heap) (v i : Z) : result Z := Double_val h (v + 8 * i).
Definition Store_double_flat_field (h : heap) (v i d : Z) : result heap :=
  Store_double_val h (v + 8 * i) d.

Definition Is_young (h : heap) (v : Z) : bool :=
  (v <? caml_minor_heaps_end h) && (caml_minor_heaps_start h <? v).
Definition Is_block_and_young (h : heap) (v : Z) : bool := Is_block v && Is_young h v.

(** [caml_atom]: the static headers of the zero-sized blocks. *)
Definition Atom (h : heap) (tag : Z) : Z := atoms h + 8 * tag + 8.

(** *** Bulk writes *)
Fixpoint write_words (a : Z) (l : list Z) (m : gmap Z Z) : gmap Z Z :=
  match l with
  | [] => m
  | w :: l' => <[a := w]> (write_words (a + 8) l' m)
  end.

Fixpoint load_words (h : heap) (a : Z) (n : nat) : result (list Z) :=
  match n with
  | O => Ret []
  | S n' => w ← load h a; l ← load_words h (a + 8) n'; Ret (w :: l)
  end.

Fixpoint store_words (h : heap) (a : Z) (l : list Z) : result heap :=
  match l with
  | [] => Ret h
  | w :: l' => h ← store h a w; store_words h (a + 8) l'
  end.

(** *** Allocation *)
Definition Debug_uninit_minor : Z := s64 0xD710D7D7D710D6D8.

Definition caml_check_gc_interrupt (h : heap) : bool := young_ptr h <? young_limit h.

(** [Alloc_small]: the fields of a fresh block hold the canary of the debug
    runtime ([DEBUG_clear]); a full minor heap hands control to the GC. *)
Definition Alloc_small (h : heap) (wosize tag : Z) : result (Z * heap) :=
  let h := set_young_ptr (young_ptr h - Bsize_wsize (Whsize_wosize wosize)) h in
  if caml_check_gc_interrupt h then Pending else
  let hp := young_ptr h in
  let m := write_words (hp + 8) (replicate (Z.to_nat wosize) Debug_uninit_minor) (words h) in
  Ret (hp + 8, set_words (<[hp := s64 (Make_header wosize tag 0)]> m) h).

Lemma lookup_write_words_ne a l m x :
  (forall i, 0 <= i < Z.of_nat (length l) -> x <> a + 8 * i) ->
  write_words a l m !! x = m !! x.
Proof.
  revert a. induction l as [|w l IH]; intros a Hx; simpl; [done|].
  rewrite lookup_insert_ne.
  - apply IH. intros i Hi E. apply (Hx (i + 1)); [simpl; lia|lia].
  - intros <-. apply (Hx 0); simpl; lia.
Qed.

Lemma lookup_write_words a l m i w :
  l !! i = Some w -> write_words a l m !! (a + 8 * Z.of_nat i) = Some w.
Proof.
  revert a i. induction l as [|w' l IH]; intros a [|i] E; simpl in *; try done.
  - injection E as ->. by rewrite Z.mul_0_r, Z.add_0_r, lookup_insert_eq.
  - rewrite lookup_insert_ne by lia.
    replace (a + 8 * Z.of_nat (S i)) with (a + 8 + 8 * Z.of_nat i) by lia. by apply IH.
Qed.

(** The minor allocation invariant: the part of the minor heap below
    [young_ptr] holds no word yet, and the limit lies inside it. *)
Record heap_ok (h : heap) : Prop := {
  ok_limit : caml_minor_heaps_start h <= young_limit h;
  ok_aligned : young_ptr h mod 8 = 0;
  ok_end : young_ptr h <= caml_minor_heaps_end h;
  ok_free : forall a, caml_minor_heaps_start h <= a < young_ptr h -> words h !! a = None;
}.

Definition heap_okb (h : heap) : bool :=
  (caml_minor_heaps_start h <=? young_limit h) && (young_ptr h mod 8 =? 0) &&
  (young_ptr h <=? caml_minor_heaps_end h) &&
  forallb (fun '(a, _) => (a <? caml_minor_heaps_start h) || (young_ptr h <=? a)) (map_to_list (words h)).
Lemma heap_okb_sound h : heap_okb h = true -> heap_ok h.
Proof.
  unfold heap_okb. rewrite !andb_true_iff, forallb_forall. intros (((? & ?) & ?) & Hf).
  split; try lia. intros a Ha. destruct (words h !! a) as [w|] eqn:E; [|done].
  apply elem_of_map_to_list, list_elem_of_In, Hf in E. lia.
Qed.

Lemma load_store_eq h a w h' : store h a w = Ret h' -> load h' a = Ret w.
Proof.
  unfold store, load. destruct (words h !! a); [|done]. intros [= <-].
  simpl. by rewrite lookup_insert_eq.
Qed.

Lemma load_store_ne h a w h' b : store h a w = Ret h' -> a <> b -> load h' b = load h b.
Proof.
  unfold store, load. destruct (words h !! a); [|done]. intros [= <-] ?.
  simpl. by rewrite lookup_insert_ne.
Qed.

Lemma store_Ret h a w x :
  load h a = Ret x -> store h a w = Ret (set_words (<[a := w]> (words h)) h).
Proof. unfold load, store. by destruct (words h !! a). Qed.

Lemma write_words_insert b l a w m :
  (forall i, 0 <= i < Z.of_nat (length l) -> a <> b + 8 * i) ->
  write_words b l (<[a := w]> m) = <[a := w]> (write_words b l m).
Proof.
  revert b. induction l as [|x l IH]; intros b Ha; simpl; [done|].
  rewrite IH.
  - apply insert_insert_ne. intros <-. apply (Ha 0); simpl; lia.
  - intros i Hi E. apply (Ha (i + 1)); simpl; lia.
Qed.

(** Filling consecutive mapped words is a bulk write. *)
Lemma store_words_Ret h a l :
  (forall i, 0 <= i < Z.of_nat (length l) -> exists x, load h (a + 8 * i) = Ret x) ->
  exists m, store_words h a l = Ret (set_words m h) /\ m = write_words a l (words h).
Proof.
  revert h a. induction l as [|w l IH]; intros h a Hm; simpl.
  { exists (words h). by destruct h. }
  destruct (Hm 0) as [x Hx]; [simpl; lia|]. rewrite Z.mul_0_r, Z.add_0_r in Hx.
  rewrite (store_Ret _ _ _ _ Hx). simpl.
  edestruct (IH (set_words (<[a := w]> (words h)) h) (a + 8)) as (m & E & Em).
  { intros i Hi. destruct (Hm (i + 1)) as [y Hy]; [simpl; lia|].
    exists y. rewrite <- Hy. unfold load. simpl. rewrite lookup_insert_ne by lia.
    by replace (a + 8 + 8 * i) with (a + 8 * (i + 1)) by lia. }
  exists m. split; [exact E|]. rewrite Em. simpl.
  apply write_words_insert. lia.
Qed.

Lemma Wosize_range h v n : Wosize_val h v = Ret n -> 0 <= n < 2 ^ 54.
Proof.
  unfold Wosize_val, Hd_val. intros E. apply bind_Ret_inv in E as (hd & E & [= <-]).
  apply bind_Ret_inv in E as (w & _ & [= <-]). pose proof (wrap_range 64 w ltac:(lia)) as Hr.
  rewrite Wosize_hd_div by done. split; [apply Z.div_pos; lia|apply Z.div_lt_upper_bound; lia].
Qed.

(** A block: its header decodes to [tag] and [length l], its fields are [l]. *)
Record block_at (h : heap) (v tag : Z) (l : list Z) : Prop := {
  ba_tag : Tag_val h v = Ret tag;
  ba_size : Wosize_val h v = Ret (Z.of_nat (length l));
  ba_fields : forall i w, l !! i = Some w -> Field h v (Z.of_nat i) = Ret w;
}.

Lemma block_at_mono h h' v tag l :
  words h ⊆ words h' -> block_at h v tag l -> block_at h' v tag l.
Proof.
  intros Hsub.
  assert (Hl : forall a w, load h a = Ret w -> load h' a = Ret w).
  { unfold load. intros a w. destruct (words h !! a) eqn:E; [|done].
    rewrite (lookup_weaken _ _ _ _ E Hsub). done. }
  intros [Ht Hs Hf]. unfold Tag_val, Wosize_val, Hd_val in *. inv_bind. subst.
  split.
  - unfold Tag_val, Hd_val. erewrite Hl by eassumption. simpl. congruence.
  - unfold Wosize_val, Hd_val. erewrite Hl by eassumption. simpl. congruence.
  - intros i w Hi. unfold Field. by apply Hl, Hf.
Qed.

(** Fresh block, then its fields: the allocation idiom
    [Alloc_small(v, n, tag); Field(v, 0) = ...; ... Field(v, n-1) = ...]. *)
Definition alloc_block (h : heap) (tag : Z) (l : list Z) : result (Z * heap) :=
  '(v, h) ← Alloc_small h (Z.of_nat (length l)) tag;
  h ← store_words h v l;
  Ret (v, h).

Definition alloc_addr (h : heap) (n : nat) : Z := young_ptr h - 8 * Z.of_nat n.

Lemma alloc_block_Ret h tag l :
  young_limit h <= young_ptr h - 8 * (Z.of_nat (length l) + 1) ->
  alloc_block h tag l =
  let v := alloc_addr h (length l) in
  Ret (v, set_words
            (<[v - 8 := s64 (Make_header (Z.of_nat (length l)) tag 0)]>
               (write_words v l (words h)))
            (set_young_ptr (v - 8) h)).
Proof.
  intros Hroom. unfold alloc_block, Alloc_small, caml_check_gc_interrupt, Bsize_wsize,
    Whsize_wosize, alloc_addr. simpl.
  rewrite (proj2 (Z.ltb_ge _ _)) by lia. simpl.
  set (v := young_ptr h - 8 * Z.of_nat (length l)).
  replace (young_ptr h - (Z.of_nat (length l) + 1) * 8 + 8) with v by lia.
  replace (young_ptr h - (Z.of_nat (length l) + 1) * 8) with (v - 8) by lia.
  rewrite Nat2Z.id.
  match goal with |- context [store_words ?h0 v l] => edestruct (store_words_Ret h0 v l) as (m & E & Em) end.
  { intros i Hi. exists Debug_uninit_minor. unfold load. simpl.
    rewrite lookup_insert_ne by lia.
    replace i with (Z.of_nat (Z.to_nat i)) by lia.
    erewrite lookup_write_words; [done|]. apply lookup_replicate. split; [done|lia]. }
  rewrite E. simpl. f_equal. f_equal. unfold set_words. simpl. f_equal. rewrite Em. simpl.
  rewrite write_words_insert by lia. f_equal.
  clear. generalize (words h). generalize v. clear.
  induction l as [|x l IH]; intros v m; simpl; [done|].
  rewrite write_words_insert by lia. rewrite insert_insert_eq. by rewrite IH.
Qed.

Lemma alloc_block_inv h tag l v h' :
  alloc_block h tag l = Ret (v, h') ->
  young_limit h <= young_ptr h - 8 * (Z.of_nat (length l) + 1) /\
  v = alloc_addr h (length l) /\
  h' = set_words
         (<[v - 8 := s64 (Make_header (Z.of_nat (length l)) tag 0)]>
            (write_words v l (words h)))
         (set_young_ptr (v - 8) h).
Proof.
  intros E.
  destruct (Z_lt_le_dec (young_ptr h - 8 * (Z.of_nat (length l) + 1)) (young_limit h)) as [Hlt|Hge].
  - unfold alloc_block, Alloc_small, caml_check_gc_interrupt, Bsize_wsize, Whsize_wosize in E.
    simpl in E. rewrite (proj2 (Z.ltb_lt _ _)) in E by lia. done.
  - rewrite alloc_block_Ret in E by done. simpl in E. injection E as <- <-. done.
Qed.

Lemma alloc_block_at h tag l v h' :
  heap_ok h -> 0 <= tag < 256 -> Z.of_nat (length l) < 2 ^ 52 ->
  alloc_block h tag l = Ret (v, h') ->
  block_at h' v tag l /\ words h ⊆ words h' /\ heap_ok h' /\
  v = alloc_addr h (length l) /\ caml_minor_heaps_start h < v.
Proof.
  intros [Hlim Hal Hend Hfree] Ht Hlen E.
  apply alloc_block_inv in E as (Hge & Hv & ->).
  match goal with |- block_at ?h' v _ _ /\ _ =>
    assert (Hd : Hd_val h' v = Ret (Make_header (Z.of_nat (length l)) tag 0)) end.
  { unfold Hd_val, load. simpl. rewrite lookup_insert_eq. simpl.
    rewrite wrap_swrap by lia. f_equal. unfold Make_header. apply wrap_wrap. }
  unfold alloc_addr in *.
  split_and!.
  - split.
    + unfold Tag_val. rewrite Hd. simpl. f_equal. apply Tag_Make_header; [lia..|by left].
    + unfold Wosize_val. rewrite Hd. simpl. f_equal. apply Wosize_Make_header; [lia..|by left].
    + intros i w Hi. unfold Field, load. simpl. rewrite lookup_insert_ne by lia.
      by rewrite (lookup_write_words _ _ _ _ _ Hi).
  - simpl. apply map_subseteq_spec. intros x w Hx.
    assert (x < caml_minor_heaps_start h \/ young_ptr h <= x) as Hout.
    { destruct (decide (caml_minor_heaps_start h <= x < young_ptr h)) as [Hin|]; [|lia].
      rewrite (Hfree _ Hin) in Hx. done. }
    rewrite lookup_insert_ne by lia. rewrite lookup_write_words_ne by lia. done.
  - split; simpl; [done| |lia|].
    + rewrite Hv. unfold Z.sub. rewrite !Z.opp_eq_mul_m1.
      replace (young_ptr h + 8 * Z.of_nat (length l) * -1 + 8 * -1)
        with (young_ptr h + (- Z.of_nat (length l) - 1) * 8) by lia.
      by rewrite Z_mod_plus_full.
    + intros a Ha. rewrite lookup_insert_ne by lia.
      rewrite lookup_write_words_ne by lia. apply Hfree. lia.
  - lia.
  - lia.
Qed.

(** ** The shared (major) heap

    The interface its clients rely on.  [caml_shared_try_alloc] picks the
    address of a free chunk for a header and [wosize] words, or fails; the
    header it writes has the current marked colour. *)
Class SharedHeap : Type := {
  caml_shared_try_alloc : heap -> Z -> option Z;
  heap_MARKED : Z;
}.

Class SharedHeapOk (SH : SharedHeap) : Prop := {
  shared_color : is_color heap_MARKED;
  shared_aligned : forall h n hp, caml_shared_try_alloc h n = Some hp -> hp mod 8 = 0;
  shared_major : forall h n hp, caml_shared_try_alloc h n = Some hp ->
    hp + 8 * n < caml_minor_heaps_start h \/ caml_minor_heaps_end h <= hp;
  shared_free : forall h n hp i, caml_shared_try_alloc h n = Some hp ->
    0 <= i <= n -> words h !! (hp + 8 * i) = None;
}.

Definition Debug_uninit_major : Z := s64 0xD711D7D7D711D6D8.

Definition caml_alloc_shr `{SharedHeap} (h : heap) (wosize tag : Z) : result (Z * heap) :=
  match caml_shared_try_alloc h wosize with
  | None => Raise Out_of_memory
  | Some hp =>
      let m := write_words (hp + 8) (replicate (Z.to_nat wosize) Debug_uninit_major) (words h) in
      Ret (hp + 8, set_words (<[hp := s64 (Make_header wosize tag heap_MARKED)]> m) h)
  end.

Definition caml_check_urgent_gc (h : heap) (v : Z) : result Z :=
  if caml_check_gc_interrupt h then Pending else Ret v.

(** What both allocators guarantee: a block of [n] fields at [v], in words
    that held nothing before. *)
Record fresh_block (h h' : heap) (v n tag : Z) : Prop := {
  fb_aligned : v mod 8 = 0;
  fb_size : 0 <= n < 2 ^ 54;
  fb_free : forall i, -1 <= i < n -> words h !! (v + 8 * i) = None;
  fb_tag : Tag_val h' v = Ret tag;
  fb_wosize : Wosize_val h' v = Ret n;
  fb_mapped : forall i, 0 <= i < n -> exists w, Field h' v i = Ret w /\ is_word w;
  fb_frame : forall a, (forall i, -1 <= i < n -> a <> v + 8 * i) -> words h' !! a = words h !! a;
}.

Lemma fresh_block_intro h h' v n tag color canary :
  0 <= n < 2 ^ 54 -> 0 <= tag < 256 -> is_color color -> v mod 8 = 0 -> is_word canary ->
  (forall i, -1 <= i < n -> words h !! (v + 8 * i) = None) ->
  words h' = <[v - 8 := s64 (Make_header n tag color)]>
               (write_words v (replicate (Z.to_nat n) canary) (words h)) ->
  fresh_block h h' v n tag.
Proof.
  intros Hn Ht Hc Hv Hw Hfree E.
  assert (Hhd : Hd_val h' v = Ret (Make_header n tag color)).
  { unfold Hd_val, load. rewrite E, lookup_insert_eq. simpl. rewrite wrap_swrap by lia.
    f_equal. unfold Make_header. apply wrap_wrap. }
  split; try done.
  - unfold Tag_val. rewrite Hhd. simpl. f_equal. by apply Tag_Make_header.
  - unfold Wosize_val. rewrite Hhd. simpl. f_equal. by apply Wosize_Make_header.
  - intros i Hi. exists canary. split; [|done]. unfold Field, load.
    rewrite E, lookup_insert_ne by lia.
    replace i with (Z.of_nat (Z.to_nat i)) by lia.
    erewrite lookup_write_words; [done|]. apply lookup_replicate. split; [done|lia].
  - intros a Ha. rewrite E, lookup_insert_ne.
    + apply lookup_write_words_ne. rewrite length_replicate. intros i Hi. apply Ha. lia.
    + intros <-. apply (Ha (-1)); lia.
Qed.

Lemma Alloc_small_fresh h n tag v h' :
  heap_ok h -> 0 <= n < 2 ^ 54 -> 0 <= tag < 256 ->
  Alloc_small h n tag = Ret (v, h') -> fresh_block h h' v n tag.
Proof.
  intros [Hlim Hal Hend Hfree] Hn Ht E. unfold Alloc_small in E.
  destruct (caml_check_gc_interrupt _) eqn:Hi; [done|]. injection E as <- <-.
  unfold caml_check_gc_interrupt, Bsize_wsize, Whsize_wosize in *. simpl in *.
  apply Z.ltb_ge in Hi.
  eapply (fresh_block_intro _ _ _ n tag 0 Debug_uninit_minor); try done.
  - by left.
  - replace (young_ptr h - (n + 1) * 8 + 8) with (young_ptr h + (- n) * 8) by lia.
    by rewrite Z_mod_plus_full.
  - intros i Hr. apply Hfree. lia.
  - simpl. by rewrite Z.add_simpl_r.
Qed.

Lemma caml_alloc_shr_fresh `{SH : SharedHeap, !SharedHeapOk SH} h n tag v h' :
  0 <= n < 2 ^ 54 -> 0 <= tag < 256 ->
  caml_alloc_shr h n tag = Ret (v, h') -> fresh_block h h' v n tag.
Proof.
  intros Hn Ht E. unfold caml_alloc_shr in E.
  destruct (caml_shared_try_alloc h n) as [hp|] eqn:Ea; [|done]. injection E as <- <-.
  eapply (fresh_block_intro _ _ _ n tag heap_MARKED Debug_uninit_major); try done.
  - apply shared_color.
  - pose proof (shared_aligned _ _ _ Ea) as Hm.
    replace (hp + 8) with (hp + 1 * 8) by lia. by rewrite Z_mod_plus_full.
  - intros i Hi. replace (hp + 8 + 8 * i) with (hp + 8 * (i + 1)) by lia.
    eapply shared_free; [done|lia].
  - simpl. by rewrite Z.add_simpl_r.
Qed.

(** The interface has implementations: a heap that grows upwards, placing
    each chunk after every word in use. *)
Definition heap_top (h : heap) : Z :=
  map_fold (fun a _ m => Z.max a m) (caml_minor_heaps_end h) (words h).
Definition growing_heap : SharedHeap := {|
  caml_shared_try_alloc h _ := Some (8 * (heap_top h / 8 + 1));
  heap_MARKED := 0;
|}.

Lemma heap_top_spec h :
  caml_minor_heaps_end h <= heap_top h /\
  forall a w, words h !! a = Some w -> a <= heap_top h.
Proof.
  unfold heap_top.
  apply (map_fold_weak_ind (fun r (m : gmap Z Z) =>
    caml_minor_heaps_end h <= r /\ forall a w, m !! a = Some w -> a <= r)).
  - split; [done|]. by intros a w; rewrite lookup_empty.
  - intros a w m r Hm [IH1 IH2]. split; [lia|]. intros b w' Hb.
    apply lookup_insert_Some in Hb as [[<- <-]|[_ Hb]]; [lia|]. apply IH2 in Hb. lia.
Qed.

#[export] Instance growing_heap_ok : SharedHeapOk growing_heap.
Proof.
  split; simpl.
  - by left.
  - intros h n hp [= <-]. rewrite Z.mul_comm. by apply Z_mod_mult.
  - intros h n hp [= <-]. right. pose proof (proj1 (heap_top_spec h)).
    pose proof (Z.div_mod (heap_top h) 8 ltac:(lia)). pose proof (Z.mod_pos_bound (heap_top h) 8 ltac:(lia)). lia.
  - intros h n hp i [= <-] Hi. destruct (words h !! _) as [w|] eqn:E; [|done].
    apply (proj2 (heap_top_spec h)) in E.
    pose proof (Z.div_mod (heap_top h) 8 ltac:(lia)). pose proof (Z.mod_pos_bound (heap_top h) 8 ltac:(lia)). lia.
Qed.
End Heap.
Export Heap.
