(* ===== verification/Barrier.v ===== *)
(** * Mutation of the heap and the write barrier (runtime/memory.c)

    Every store of a value into a field that may live in the major heap goes
    through [caml_modify], [caml_initialize] or an atomic primitive.  Two
    collector invariants depend on it: the remembered set of the minor
    collector lists every major field holding a minor pointer, and the major
    collector is told of every major pointer that is overwritten. *)

From S2P Require Import Prelude Memory.

Module Barrier.

Definition caml_darken (h : heap) (v : Z) : heap := set_darkened (v :: darkened h) h.
Definition Ref_table_add (h : heap) (p : Z) : heap := set_major_ref (p :: major_ref h) h.

Definition write_barrier (h : heap) (obj field old_val new_val : Z) : heap :=
  if Is_young h obj then h else
  if Is_block old_val && Is_young h old_val then h else
  let h := if Is_block old_val then caml_darken h old_val else h in
  if Is_block_and_young h new_val then Ref_table_add h (obj + 8 * field) else h.

Definition caml_modify (h : heap) (fp val : Z) : result heap :=
  old ← load h fp;
  store (write_barrier h fp 0 old val) fp val.

Definition caml_initialize (h : heap) (fp val : Z) : result heap :=
  h ← store h fp val;
  Ret (if negb (Is_young h fp) && Is_block_and_young h val then Ref_table_add h fp else h).

(** The two branches on [caml_domain_alone ()] differ only in the atomicity
    of the access: one domain runs here, so they coincide. *)
Definition caml_atomic_cas_field (h : heap) (obj field oldval newval : Z) : result (bool * heap) :=
  w ← Field h obj field;
  if w =? oldval then
    h ← Store_field h obj field newval;
    Ret (true, write_barrier h obj field oldval newval)
  else Ret (false, h).

Definition caml_atomic_load (h : heap) (ref : Z) : result Z := Field h ref 0.

Definition caml_atomic_exchange (h : heap) (ref v : Z) : result (Z * heap) :=
  ret ← Field h ref 0;
  h ← Store_field h ref 0 v;
  Ret (ret, write_barrier h ref 0 ret v).

Definition caml_atomic_cas (h : heap) (ref oldv newv : Z) : result (Z * heap) :=
  w ← Field h ref 0;
  if w =? oldv then
    h ← Store_field h ref 0 newv;
    Ret (Val_int 1, write_barrier h ref 0 oldv newv)
  else Ret (Val_int 0, h).

Definition caml_atomic_fetch_add (h : heap) (ref incr : Z) : result (Z * heap) :=
  ret ← Field h ref 0;
  h ← Store_field h ref 0 (Val_long (s64 (Long_val ret + Long_val incr)));
  Ret (ret, h).

(** [for (i = 0; i < Wosize_val(obj); i++) caml_modify(&Field(obj, i), v)]: the loop ends when the [int]
    that counts the fields wraps around, since it is compared as an unsigned number. *)
Fixpoint set_fields_loop (n : nat) (h : heap) (fp v : Z) : result heap :=
  match n with
  | O => Ret h
  | S n => h ← caml_modify h fp v; set_fields_loop n h (fp + 8) v
  end.
Definition caml_set_fields (h : heap) (obj v : Z) : result heap :=
  n ← Wosize_val h obj; set_fields_loop (Z.to_nat (Z.min n (2 ^ 31))) h obj v.

(** ** Invariants *)

(** An address outside the area reserved for the minor heaps. *)
Definition major_addr (h : heap) (a : Z) : Prop :=
  a < caml_minor_heaps_start h \/ caml_minor_heaps_end h <= a.

(** Every field of [F] (the fields the minor collector must not miss) that
    lies outside the minor heaps and points into them is in the table. *)
Definition remembered (F : Z -> Prop) (h : heap) : Prop :=
  forall a w, F a -> words h !! a = Some w ->
    major_addr h a -> Is_block_and_young h w = true -> a ∈ major_ref h.

Lemma major_addr_young h a : major_addr h a -> Is_young h a = false.
Proof.
  unfold major_addr, Is_young. intros Ha. apply andb_false_iff.
  destruct Ha; [right|left]; apply Z.ltb_ge; lia.
Qed.

(** Regions do not move between two collections. *)
Definition same_regions (h h' : heap) : Prop :=
  caml_minor_heaps_start h' = caml_minor_heaps_start h /\
  caml_minor_heaps_end h' = caml_minor_heaps_end h.

#[export] Instance same_regions_preorder : PreOrder same_regions.
Proof.
  split; unfold same_regions; [done|]. intros h1 h2 h3 [-> ->]. done.
Qed.

Lemma same_regions_young h h' v : same_regions h h' -> Is_young h' v = Is_young h v.
Proof. intros [E1 E2]. unfold Is_young. by rewrite E1, E2. Qed.

Lemma write_barrier_facts h obj field old new :
  words (write_barrier h obj field old new) = words h /\
  same_regions h (write_barrier h obj field old new) /\
  major_ref h ⊆ major_ref (write_barrier h obj field old new) /\
  young_ptr (write_barrier h obj field old new) = young_ptr h.
Proof.
  unfold write_barrier, same_regions.
  destruct (Is_young h obj), (Is_block old && Is_young h old); try done.
  destruct (Is_block old), (Is_block_and_young _ new); simpl; set_solver.
Qed.

Lemma write_barrier_remembers h obj field old new :
  Is_young h obj = false -> Is_block_and_young h new = true ->
  Is_block_and_young h old = true \/
  obj + 8 * field ∈ major_ref (write_barrier h obj field old new).
Proof.
  intros Ho Hn. unfold write_barrier. rewrite Ho. fold (Is_block_and_young h old).
  destruct (Is_block_and_young h old) eqn:E; [by left|right].
  replace (Is_block_and_young (if Is_block old then caml_darken h old else h) new) with true.
  - destruct (Is_block old); simpl; set_solver.
  - by destruct (Is_block old).
Qed.

Lemma write_barrier_darkens h obj field old new :
  Is_young h obj = false -> Is_block old = true -> Is_young h old = false ->
  old ∈ darkened (write_barrier h obj field old new).
Proof.
  intros Ho Hb Hy. unfold write_barrier. rewrite Ho, Hy, Hb. simpl.
  destruct (Is_block_and_young _ new); simpl; set_solver.
Qed.

Lemma store_facts h a w h' :
  store h a w = Ret h' ->
  words h' = <[a := w]> (words h) /\ same_regions h h' /\ major_ref h' = major_ref h /\
  darkened h' = darkened h /\ is_Some (words h !! a).
Proof. unfold store. destruct (words h !! a) eqn:E; [|done]. intros [= <-]. by eauto 10. Qed.

(** The common argument of all the guarded stores: writing [new] at [a] over
    [old] keeps the invariant when the new table extends the old one and
    accounts for [a]. *)
Lemma remembered_update F h h' a old new :
  remembered F h -> words h !! a = Some old -> words h' = <[a := new]> (words h) ->
  same_regions h h' -> major_ref h ⊆ major_ref h' ->
  (Is_young h a = false -> Is_block_and_young h new = true ->
   Is_block_and_young h old = true \/ a ∈ major_ref h') ->
  remembered F h'.
Proof.
  intros Hr Hold Hw Hreg Hsub Hnew b w Fb Hb Hyb Hyw.
  unfold Is_block_and_young in *. rewrite (same_regions_young h h') in * by done.
  assert (major_addr h b) as Hmb by (destruct Hreg as [E1 E2]; unfold major_addr in *; by rewrite <- E1, <- E2).
  rewrite Hw in Hb. apply lookup_insert_Some in Hb as [[<- <-]|[Hne Hb]].
  - destruct (Hnew (major_addr_young h a Hmb) Hyw) as [Ho|]; [|done].
    apply Hsub. by apply (Hr a old).
  - apply Hsub. by apply (Hr b w).
Qed.

Lemma load_lookup h a w : load h a = Ret w -> words h !! a = Some w.
Proof. unfold load. by destruct (words h !! a) as [x|]; [intros [= ->]|]. Qed.

Lemma caml_modify_remembered F h fp v h' :
  remembered F h -> caml_modify h fp v = Ret h' -> remembered F h' /\ same_regions h h'.
Proof.
  intros Hr E. unfold caml_modify in E. inv_bind.
  destruct (write_barrier_facts h fp 0 a v) as (Ew & Ereg & Eref & _).
  apply store_facts in F0 as (Hw & Hreg & Href & _ & _).
  assert (same_regions h h') as Hrr.
  { destruct Ereg, Hreg. split; congruence. }
  split; [|done].
  eapply (remembered_update F h h' fp a v); eauto using load_lookup.
  - by rewrite Hw, Ew.
  - by rewrite Href.
  - intros Hy Hb. rewrite Href.
    destruct (write_barrier_remembers h fp 0 a v Hy Hb) as [|Hin]; [by left|right].
    by rewrite Z.mul_0_r, Z.add_0_r in Hin.
Qed.

Lemma caml_initialize_remembered F h fp v h' :
  remembered F h -> caml_initialize h fp v = Ret h' -> remembered F h' /\ same_regions h h'.
Proof.
  intros Hr E. unfold caml_initialize in E. inv_bind. subst h'.
  apply store_facts in E0 as (Hw & Hreg & Href & _ & [old Hold]).
  set (h' := if negb (Is_young a fp) && Is_block_and_young a v then Ref_table_add a fp else a).
  assert (words h' = words a /\ same_regions h h' /\ major_ref h ⊆ major_ref h') as (Ew & Er & Es).
  { unfold h'. destruct (_ && _); simpl; rewrite <- ?Href; set_solver. }
  split; [|done].
  eapply (remembered_update F h h' fp old v); eauto; [by rewrite Ew|].
  intros Hy Hb. right. unfold h'. unfold Is_block_and_young in *.
  rewrite !(same_regions_young h a), Hy, Hb by done. simpl. set_solver.
Qed.

(** A raw store followed by the barrier, as in the atomic primitives. *)
Lemma store_then_barrier_remembered F h h1 obj field old new :
  remembered F h -> Is_young h (obj + 8 * field) = Is_young h obj ->
  Field h obj field = Ret old -> Store_field h obj field new = Ret h1 ->
  remembered F (write_barrier h1 obj field old new) /\
  same_regions h (write_barrier h1 obj field old new).
Proof.
  intros Hr Hreg0 Hold Hst. unfold Field, Store_field in *.
  apply store_facts in Hst as (Hw & Hreg & Href & _ & _).
  destruct (write_barrier_facts h1 obj field old new) as (Ew & Er & Es & _).
  assert (same_regions h (write_barrier h1 obj field old new)) as Hrr.
  { destruct Hreg, Er. split; congruence. }
  split; [|done].
  eapply (remembered_update F h _ (obj + 8 * field) old new); eauto using load_lookup.
  - by rewrite Ew, Hw.
  - by rewrite <- Href.
  - unfold Is_block_and_young. rewrite Hreg0, <- !(same_regions_young h h1) by done.
    apply write_barrier_remembers.
Qed.

(** What [caml_initialize] may overwrite: an integer, or the canary of a
    field that was never written (the assertion of the debug runtime). *)
Definition no_pointer (w : Z) : Prop :=
  Is_long w = true \/ w = Debug_uninit_minor \/ w = Debug_uninit_major.

(** ** The mutator

    What a domain does to its heap between two minor collections, as a step
    relation: the guarded stores, and allocation in the minor heap. *)
Inductive mutation (h : heap) : heap -> Prop :=
| mut_modify fp v h' : caml_modify h fp v = Ret h' -> mutation h h'
| mut_initialize fp v old h' :
    load h fp = Ret old -> no_pointer old ->
    caml_initialize h fp v = Ret h' -> mutation h h'
| mut_cas_field obj i old new b h' :
    Is_young h (obj + 8 * i) = Is_young h obj ->
    caml_atomic_cas_field h obj i old new = Ret (b, h') -> mutation h h'
| mut_exchange ref v r h' : caml_atomic_exchange h ref v = Ret (r, h') -> mutation h h'
| mut_cas ref old new r h' : caml_atomic_cas h ref old new = Ret (r, h') -> mutation h h'
| mut_fetch_add ref n r h' :
    Is_long r = true -> caml_atomic_fetch_add h ref n = Ret (r, h') -> mutation h h'
| mut_set_fields obj v h' : caml_set_fields h obj v = Ret h' -> mutation h h'
| mut_alloc tag l v h' :
    heap_ok h -> 0 <= tag < 256 -> Z.of_nat (length l) < 2 ^ 52 ->
    alloc_block h tag l = Ret (v, h') -> mutation h h'.

Lemma set_fields_loop_remembered F n h fp v h' :
  remembered F h -> set_fields_loop n h fp v = Ret h' -> remembered F h'.
Proof.
  revert h fp. induction n as [|n IH]; intros h fp Hr E; simpl in E.
  - by injection E as <-.
  - inv_bind. eapply IH; [|eassumption]. by eapply caml_modify_remembered.
Qed.

Lemma fetch_add_remembered F h ref n r h' :
  remembered F h -> caml_atomic_fetch_add h ref n = Ret (r, h') -> remembered F h'.
Proof.
  intros Hr E. unfold caml_atomic_fetch_add in E. inv_bind. simplify_eq.
  unfold Field, Store_field in *.
  match goal with H : store _ _ _ = _ |- _ => apply store_facts in H as (Hw & Hreg & Href & _ & _) end.
  eapply (remembered_update F h h'); eauto using load_lookup.
  - by rewrite Href.
  - intros _ Hb. unfold Is_block_and_young in Hb.
    by rewrite Is_block_long, Val_long_Is_long in Hb.
Qed.

Lemma alloc_remembered F h tag l v h' :
  heap_ok h -> 0 <= tag < 256 -> Z.of_nat (length l) < 2 ^ 52 ->
  remembered F h -> alloc_block h tag l = Ret (v, h') -> remembered F h'.
Proof.
  intros Hok Ht Hl Hr E.
  destruct (alloc_block_at h tag l v h' Hok Ht Hl E) as (_ & _ & Hok' & Hv & Hstart).
  apply alloc_block_inv in E as (Hge & _ & ->).
  unfold alloc_addr in *. destruct Hok as [Hlim _ Hend _].
  intros a w Fa Ha Hya Hyw. simpl in *. apply (Hr a w); try done.
  unfold major_addr in Hya. simpl in Hya.
  rewrite lookup_insert_ne in Ha by lia.
  by rewrite lookup_write_words_ne in Ha by lia.
Qed.

Lemma mutation_remembered F h h' : remembered F h -> mutation h h' -> remembered F h'.
Proof.
  intros Hr Hm. destruct Hm.
  - by eapply caml_modify_remembered.
  - by eapply caml_initialize_remembered.
  - unfold caml_atomic_cas_field in *. inv_bind. destruct (Z.eqb_spec a old); inv_bind; simplify_eq; [|done].
    by eapply store_then_barrier_remembered.
  - unfold caml_atomic_exchange in *. inv_bind. simplify_eq.
    eapply store_then_barrier_remembered; eauto. by rewrite Z.mul_0_r, Z.add_0_r.
  - unfold caml_atomic_cas in *. inv_bind. destruct (Z.eqb_spec a old); inv_bind; simplify_eq; [|done].
    eapply store_then_barrier_remembered; eauto. by rewrite Z.mul_0_r, Z.add_0_r.
  - by eapply fetch_add_remembered.
  - unfold caml_set_fields in *. inv_bind. by eapply set_fields_loop_remembered.
  - by eapply alloc_remembered.
Qed.

(** ** The deletion barrier *)

(** A pointer the major collector may still have to follow from field [a]:
    it is still there, or the collector has been told. *)
Definition kept_or_darkened (a w : Z) (h : heap) : Prop :=
  words h !! a = Some w \/ w ∈ darkened h.

Definition major_pointer (h : heap) (w : Z) : Prop :=
  Is_block w = true /\ Is_young h w = false /\ ~ no_pointer w.

Lemma write_barrier_darkened h obj i old new :
  darkened h ⊆ darkened (write_barrier h obj i old new).
Proof.
  unfold write_barrier. destruct (Is_young h obj), (Is_block old && Is_young h old); try done.
  destruct (Is_block old), (Is_block_and_young _ new); simpl; set_solver.
Qed.

Lemma kept_update h h' a old new b w :
  kept_or_darkened b w h -> words h !! a = Some old -> words h' = <[a := new]> (words h) ->
  darkened h ⊆ darkened h' -> (b = a -> old = w -> w ∈ darkened h') ->
  kept_or_darkened b w h'.
Proof.
  intros [Hk|Hd] Hold Hw Hsub Hnew; [|right; by apply Hsub].
  destruct (decide (b = a)) as [->|Hne].
  - right. apply Hnew; congruence.
  - left. by rewrite Hw, lookup_insert_ne by congruence.
Qed.

Lemma caml_modify_kept h fp v h' a w :
  major_addr h a -> major_pointer h w -> kept_or_darkened a w h ->
  caml_modify h fp v = Ret h' -> kept_or_darkened a w h'.
Proof.
  intros Ha (Hb & Hy & _) Hk E. unfold caml_modify in E. inv_bind.
  destruct (write_barrier_facts h fp 0 a0 v) as (Ew & _).
  apply store_facts in F as (Hw & _ & _ & Hd & _).
  eapply (kept_update h h' fp a0 v); eauto using load_lookup.
  - by rewrite Hw, Ew.
  - rewrite Hd. apply write_barrier_darkened.
  - intros <- ->. rewrite Hd. apply write_barrier_darkens; auto using major_addr_young.
Qed.

Lemma store_then_barrier_kept h h1 obj i old new a w :
  major_addr h a -> major_pointer h w -> kept_or_darkened a w h ->
  Is_young h (obj + 8 * i) = Is_young h obj ->
  Field h obj i = Ret old -> Store_field h obj i new = Ret h1 ->
  kept_or_darkened a w (write_barrier h1 obj i old new).
Proof.
  intros Ha (Hb & Hy & _) Hk Hreg0 Hold Hst. unfold Field, Store_field in *.
  apply store_facts in Hst as (Hw & Hreg & _ & Hd & _).
  destruct (write_barrier_facts h1 obj i old new) as (Ew & _).
  eapply (kept_update h _ (obj + 8 * i) old new); eauto using load_lookup.
  - by rewrite Ew, Hw.
  - rewrite <- Hd. apply write_barrier_darkened.
  - intros -> ->. apply write_barrier_darkens; rewrite ?(same_regions_young h h1) by done; auto.
    rewrite <- Hreg0. by apply major_addr_young.
Qed.

Lemma set_fields_loop_kept n h fp v h' a w :
  major_addr h a -> major_pointer h w -> kept_or_darkened a w h ->
  set_fields_loop n h fp v = Ret h' -> kept_or_darkened a w h'.
Proof.
  revert h fp. induction n as [|n IH]; intros h fp Ha Hp Hk E; simpl in E.
  - by injection E as <-.
  - inv_bind. assert (same_regions h a0) as [Es Ee].
    { eapply (caml_modify_remembered (fun _ => False)); [|eassumption]. by intros ? ? []. }
    eapply IH; [..|eassumption].
    + unfold major_addr in *. by rewrite Es, Ee.
    + destruct Hp as (? & ? & ?). split_and!; try done. unfold Is_young in *. by rewrite Es, Ee.
    + by eapply caml_modify_kept.
Qed.

(** Overwriting something that is not a pointer loses nothing. *)
Lemma no_pointer_kept h h' fp old v a w :
  major_pointer h w -> kept_or_darkened a w h -> load h fp = Ret old -> no_pointer old ->
  words h' = <[fp := v]> (words h) -> darkened h' = darkened h -> kept_or_darkened a w h'.
Proof.
  intros (_ & _ & Hnp) Hk Hold Hno Hw Hd.
  eapply (kept_update h h' fp old v); eauto using load_lookup.
  - by rewrite Hd.
  - intros _ ->. done.
Qed.

Lemma mutation_kept h h' a w :
  mutation h h' -> major_addr h a -> major_pointer h w ->
  kept_or_darkened a w h -> kept_or_darkened a w h'.
Proof.
  intros Hm Ha Hp Hk. destruct Hm.
  - by eapply caml_modify_kept.
  - unfold caml_initialize in *. inv_bind. subst h'.
    match goal with H : store _ _ _ = _ |- _ => apply store_facts in H as (Hw & _ & _ & Hd & _) end.
    eapply no_pointer_kept; eauto; by destruct (_ && _).
  - unfold caml_atomic_cas_field in *. inv_bind. destruct (Z.eqb_spec a0 old); inv_bind; simplify_eq; [|done].
    by eapply store_then_barrier_kept.
  - unfold caml_atomic_exchange in *. inv_bind. simplify_eq.
    eapply store_then_barrier_kept; eauto. by rewrite Z.mul_0_r, Z.add_0_r.
  - unfold caml_atomic_cas in *. inv_bind. destruct (Z.eqb_spec a0 old); inv_bind; simplify_eq; [|done].
    eapply store_then_barrier_kept; eauto. by rewrite Z.mul_0_r, Z.add_0_r.
  - unfold caml_atomic_fetch_add in *. inv_bind. simplify_eq. unfold Field, Store_field in *.
    match goal with H : store _ _ _ = _ |- _ => apply store_facts in H as (Hw & _ & _ & Hd & _) end.
    eapply no_pointer_kept; eauto. by left.
  - unfold caml_set_fields in *. inv_bind. by eapply set_fields_loop_kept.
  - destruct Hk as [Hk|Hk].
    + left. edestruct alloc_block_at as (_ & Hsub & _); eauto. by eapply lookup_weaken.
    + right. match goal with H : alloc_block _ _ _ = _ |- _ =>
        by apply alloc_block_inv in H as (_ & _ & ->) end.
Qed.

Lemma caml_modify_regions h fp v h' : caml_modify h fp v = Ret h' -> same_regions h h'.
Proof.
  intros E. eapply (caml_modify_remembered (fun _ => False)); [|eassumption].
  by intros ? ? [].
Qed.

Lemma store_barrier_regions h a new h1 obj i old :
  store h a new = Ret h1 -> same_regions h (write_barrier h1 obj i old new).
Proof.
  intros E. apply store_facts in E as (_ & Hr & _). etrans; [exact Hr|].
  apply write_barrier_facts.
Qed.

Lemma set_fields_loop_regions n h fp v h' :
  set_fields_loop n h fp v = Ret h' -> same_regions h h'.
Proof.
  revert h fp. induction n as [|n IH]; intros h fp E; simpl in E.
  - by injection E as <-.
  - inv_bind. etrans; [by eapply caml_modify_regions|by eapply IH].
Qed.

Lemma mutation_regions h h' : mutation h h' -> same_regions h h'.
Proof.
  destruct 1; unfold caml_atomic_cas_field, caml_atomic_exchange, caml_atomic_cas,
    caml_atomic_fetch_add, caml_set_fields, Store_field in *; inv_bind;
    repeat match goal with H : (if ?b then _ else _) = Ret _ |- _ => destruct b; inv_bind end;
    simplify_eq; eauto using caml_modify_regions, store_barrier_regions, set_fields_loop_regions.
  - eapply (caml_initialize_remembered (fun _ => False)); [|eassumption]. by intros ? ? [].
  - done.
  - done.
  - by eapply store_facts.
  - match goal with H : alloc_block _ _ _ = _ |- _ =>
      by apply alloc_block_inv in H as (_ & _ & ->) end.
Qed.

(** ** A small heap to run the barrier on: a two-field major block at 1000,
    holding an integer and a pointer to the major block at 1100, and a minor
    block at 2504. *)
Definition ex_heap : heap :=
  mkHeap (list_to_map [(992, 2048); (1000, 1); (1008, 1100); (1092, 1024); (1100, 1);
                       (2496, 1024); (2504, 3)])
    2496 2000 2000 3000 64 [] [].

(** ** Properties *)

(** C1: the remembered set is complete.  Starting from a heap in which every
    major field holding a minor pointer is in the table [major_ref], any
    sequence of mutator steps (modify, initialize, atomic compare-and-swap,
    exchange, fetch-and-add, caml_set_fields, minor allocation) leaves a heap
    with the same property: the minor collector can find every minor block
    reachable from the major heap by scanning the table. *)
Theorem remembered_set_complete (F : Z -> Prop) (h h' : heap) :
  remembered F h -> rtc mutation h h' -> remembered F h'.
Proof. intros Hr Hs. induction Hs; eauto using mutation_remembered. Qed.

Lemma remembered_set_complete_witness :
  exists h', caml_modify ex_heap 1000 2504 = Ret h' /\ remembered (fun a => a = 1000) h'.
Proof.
  eexists. split; [vm_compute; reflexivity|].
  eapply (remembered_set_complete (fun a => a = 1000) ex_heap).
  - intros a w -> E. vm_compute in E. injection E as <-. vm_compute. congruence.
  - apply rtc_once. apply (mut_modify _ 1000 2504). vm_compute. reflexivity.
Defined.

(** C2: the deletion barrier is complete.  A pointer to a major block held by
    a major field when a marking phase starts is, after any sequence of
    mutator steps, either still in that field or has been given to
    [caml_darken]: the major collector never loses a block of its snapshot. *)
Theorem snapshot_preserved (h h' : heap) (a w : Z) :
  rtc mutation h h' -> major_addr h a -> major_pointer h w -> words h !! a = Some w ->
  words h' !! a = Some w \/ w ∈ darkened h'.
Proof.
  intros Hs Ha Hp Hw. assert (Hk : kept_or_darkened a w h) by by left.
  clear Hw. induction Hs as [|h1 h2 h3 Hm Hs IH]; [done|].
  pose proof (mutation_regions _ _ Hm) as [Es Ee].
  apply IH.
  - unfold major_addr in *. by rewrite Es, Ee.
  - destruct Hp as (? & ? & ?). split_and!; try done. unfold Is_young in *. by rewrite Es, Ee.
  - by eapply mutation_kept.
Qed.
Lemma snapshot_preserved_witness :
  exists h', caml_modify ex_heap 1008 2504 = Ret h' /\
    (words h' !! 1008 = Some 1100 \/ 1100 ∈ darkened h').
Proof.
  eexists. split; [vm_compute; reflexivity|].
  eapply (snapshot_preserved ex_heap _ 1008 1100).
  - apply rtc_once. apply (mut_modify _ 1008 2504). vm_compute. reflexivity.
  - left. vm_compute. reflexivity.
  - split_and!; try reflexivity. intros [E|[E|E]]; vm_compute in E; discriminate.
  - vm_compute. reflexivity.
Defined.

End Barrier.
Export Barrier.
