(* ===== verification/Ints.v ===== *)
(** * Integers of the runtime (runtime/ints.c)

    Parsing and printing of integers of every width, and the boxed types
    [Int32.t], [Int64.t], [Nativeint.t] with their custom operations.  The
    target is a 64-bit little-endian machine compiled with [-fwrapv]. *)

From S2P Require Import Prelude Memory.
From Stdlib Require Import Ascii.

Module Ints.

(** ** Characters

    An OCaml string argument is the list of its bytes; the byte after the
    last one is the terminating 0 of the padding. *)
Definition ch (c : ascii) : Z := Z.of_N (N_of_ascii c).
Definition chars (s : string) : list Z := ch <$> String.list_ascii_of_string s.
Definition deref (p : list Z) : Z := match p with [] => 0 | c :: _ => c end.
Definition next (p : list Z) : list Z := match p with [] => [] | _ :: p => p end.

Definition COMPARE_INT (v1 v2 : Z) : Z :=
  (if v2 <? v1 then 1 else 0) - (if v1 <? v2 then 1 else 0).

(** ** Parsing *)

Record prefix := mkPrefix { px_rest : list Z; px_base : Z; px_signed : bool; px_sign : Z }.

Definition parse_sign_and_base (p : list Z) : prefix :=
  let '(sign, p) :=
    if deref p =? ch "-" then (-1, next p)
    else if deref p =? ch "+" then (1, next p)
    else (1, p) in
  if deref p =? ch "0" then
    let c := deref (next p) in
    if (c =? ch "x") || (c =? ch "X") then mkPrefix (next (next p)) 16 false sign
    else if (c =? ch "o") || (c =? ch "O") then mkPrefix (next (next p)) 8 false sign
    else if (c =? ch "b") || (c =? ch "B") then mkPrefix (next (next p)) 2 false sign
    else if (c =? ch "u") || (c =? ch "U") then mkPrefix (next (next p)) 10 false sign
    else mkPrefix p 10 true sign
  else mkPrefix p 10 true sign.

Definition parse_digit (c : Z) : Z :=
  if (ch "0" <=? c) && (c <=? ch "9") then c - ch "0"
  else if (ch "A" <=? c) && (c <=? ch "F") then c - ch "A" + 10
  else if (ch "a" <=? c) && (c <=? ch "f") then c - ch "a" + 10
  else -1.

Definition INT_ERRMSG : string := "int_of_string".
Definition INT32_ERRMSG : string := "Int32.of_string".
Definition INT64_ERRMSG : string := "Int64.of_string".
Definition INTNAT_ERRMSG : string := "Nativeint.of_string".

(** The digit loop of [parse_intnat]: the accumulated [res] and the position
    at which it stops. *)
Fixpoint parse_loop (base threshold : Z) (errmsg : string) (p : list Z) (res : Z) :
    result (Z * list Z) :=
  match p with
  | [] => Ret (res, [])
  | c :: p' =>
      if c =? ch "_" then parse_loop base threshold errmsg p' res else
      let d := parse_digit c in
      if (d <? 0) || (base <=? d) then Ret (res, p) else
      raise_if (threshold <? res) (Failure errmsg);;
      let res := u64 (base * res + d) in
      raise_if (res <? d) (Failure errmsg);;
      parse_loop base threshold errmsg p' res
  end.

Definition parse_intnat (s : list Z) (nbits : Z) (errmsg : string) : result Z :=
  let px := parse_sign_and_base s in
  let base := px_base px in
  let threshold := u64 (-1) / base in
  let d := parse_digit (deref (px_rest px)) in
  raise_if ((d <? 0) || (base <=? d)) (Failure errmsg);;
  '(res, p) ← parse_loop base threshold errmsg (next (px_rest px)) d;
  raise_if (bool_decide (p <> [])) (Failure errmsg);;
  (if px_signed px then
     if 0 <=? px_sign px
     then raise_if (Z.shiftl 1 (nbits - 1) <=? res) (Failure errmsg)
     else raise_if (Z.shiftl 1 (nbits - 1) <? res) (Failure errmsg)
   else raise_if ((nbits <? 64) && (Z.shiftl 1 nbits <=? res)) (Failure errmsg));;
  Ret (if px_sign px <? 0 then s64 (- s64 res) else s64 res).

(** ** Tagged integers *)
Definition caml_bswap16 (v : Z) : Z :=
  let x := Int_val v in
  Val_int (Z.lor (Z.shiftl (Z.land x 0x00FF) 8) (Z.shiftr (Z.land x 0xFF00) 8)).
Definition caml_int_compare (v1 v2 : Z) : Z := Val_long (COMPARE_INT v1 v2).
Definition caml_int_of_string (s : list Z) : result Z :=
  n ← parse_intnat s 63 INT_ERRMSG; Ret (Val_long n).

(** ** Printing *)
Definition FORMAT_BUFFER_SIZE : Z := 32.

(** [parse_format]: the C format string and the conversion letter; the OCaml
    formats have at least two characters (["%d"]). *)
Definition parse_format (fmt suffix : list Z) : result (list Z * Z) :=
  let len := Z.of_nat (length fmt) in
  let len_suffix := Z.of_nat (length suffix) in
  raise_if (FORMAT_BUFFER_SIZE <=? len + len_suffix + 1)
    (Invalid_argument "format_int: format too long");;
  match rev fmt with
  | lastletter :: prev :: front =>
      let stem := if (prev =? ch "l") || (prev =? ch "n") || (prev =? ch "L")
                  then rev front else rev (prev :: front) in
      Ret (stem ++ suffix ++ [lastletter], lastletter)
  | _ => Undef
  end.

(** Digits of [n] in [base], most significant first, as C99 [vsnprintf]
    produces them; 64 digits are enough for a 64-bit number in any base. *)
Definition digit_char (upper : bool) (d : Z) : Z :=
  if d <? 10 then ch "0" + d else (if upper then ch "A" else ch "a") + (d - 10).
Fixpoint digits_aux (fuel : nat) (upper : bool) (base n : Z) (acc : list Z) : list Z :=
  match fuel with
  | O => acc
  | S fuel =>
      let acc := digit_char upper (n mod base) :: acc in
      if n / base =? 0 then acc else digits_aux fuel upper base (n / base) acc
  end.
Definition digits (upper : bool) (base n : Z) : list Z := digits_aux 64 upper base n [].

(** [vsnprintf] on a bare conversion, that is ["%"], length modifiers and one
    of [d i u x X o]: [arg] is the 64-bit argument, [bits] the width the
    length modifiers select. *)
Definition render (conv : Z) (bits arg : Z) : result (list Z) :=
  if (conv =? ch "d") || (conv =? ch "i") then
    let n := swrap bits arg in
    Ret (if n <? 0 then ch "-" :: digits false 10 (- n) else digits false 10 n)
  else if conv =? ch "u" then Ret (digits false 10 (wrap bits arg))
  else if conv =? ch "x" then Ret (digits false 16 (wrap bits arg))
  else if conv =? ch "X" then Ret (digits true 16 (wrap bits arg))
  else if conv =? ch "o" then Ret (digits false 8 (wrap bits arg))
  else Undef.
Definition sprintf (format : list Z) (arg : Z) : result (list Z) :=
  match format with
  | pc :: rest =>
      if pc =? ch "%" then
        match rest with
        | [conv] => render conv 32 arg
        | [l; conv] => if l =? ch "l" then render conv 64 arg else Undef
        | _ => Undef
        end
      else Undef
  | [] => Undef
  end.

Definition ARCH_INTNAT_PRINTF_FORMAT : list Z := chars "l".
Definition ARCH_INT32_PRINTF_FORMAT : list Z := [].
Definition ARCH_INT64_PRINTF_FORMAT : list Z := chars "l".

Definition caml_format_int (fmt : list Z) (arg : Z) : result (list Z) :=
  '(format_string, conv) ← parse_format fmt ARCH_INTNAT_PRINTF_FORMAT;
  if (conv =? ch "u") || (conv =? ch "x") || (conv =? ch "X") || (conv =? ch "o")
  then sprintf format_string (Unsigned_long_val arg)
  else sprintf format_string (Long_val arg).

(** ** Boxed integers

    A custom block holding an integer: the identifier of its operations and
    its payload, as the C accessor of its type reads it. *)
Record boxed := mkBoxed { bx_ident : string; bx_data : Z }.

(** A shift by a count outside the width of the type is undefined in C. *)
Definition shift_count (w v2 : Z) : result Z :=
  let n := Int_val v2 in if (0 <=? n) && (n <? w) then Ret n else Undef.

(** *** 32-bit integers *)
Definition Int32_val (v : boxed) : Z := s32 (bx_data v).
Definition caml_copy_int32 (i : Z) : boxed := mkBoxed "_i" (s32 i).
Definition int32_cmp (v1 v2 : boxed) : Z := COMPARE_INT (Int32_val v1) (Int32_val v2).
Definition int32_hash (v : boxed) : Z := Int32_val v.
Definition caml_int32_neg (v : boxed) : boxed := caml_copy_int32 (- Int32_val v).
Definition caml_int32_add (v1 v2 : boxed) : boxed := caml_copy_int32 (Int32_val v1 + Int32_val v2).
Definition caml_int32_sub (v1 v2 : boxed) : boxed := caml_copy_int32 (Int32_val v1 - Int32_val v2).
Definition caml_int32_mul (v1 v2 : boxed) : boxed := caml_copy_int32 (Int32_val v1 * Int32_val v2).
Definition caml_int32_div (v1 v2 : boxed) : result boxed :=
  let dividend := Int32_val v1 in
  let divisor := Int32_val v2 in
  raise_if (divisor =? 0) Division_by_zero;;
  if (dividend =? s32 (Z.shiftl 1 31)) && (divisor =? -1) then Ret v1 else
  Ret (caml_copy_int32 (dividend ÷ divisor)).
Definition caml_int32_mod (v1 v2 : boxed) : result boxed :=
  let dividend := Int32_val v1 in
  let divisor := Int32_val v2 in
  raise_if (divisor =? 0) Division_by_zero;;
  if (dividend =? s32 (Z.shiftl 1 31)) && (divisor =? -1) then Ret (caml_copy_int32 0) else
  Ret (caml_copy_int32 (Z.rem dividend divisor)).
Definition caml_int32_and (v1 v2 : boxed) : boxed := caml_copy_int32 (Z.land (Int32_val v1) (Int32_val v2)).
Definition caml_int32_or (v1 v2 : boxed) : boxed := caml_copy_int32 (Z.lor (Int32_val v1) (Int32_val v2)).
Definition caml_int32_xor (v1 v2 : boxed) : boxed := caml_copy_int32 (Z.lxor (Int32_val v1) (Int32_val v2)).
Definition caml_int32_shift_left (v1 : boxed) (v2 : Z) : result boxed :=
  n ← shift_count 32 v2; Ret (caml_copy_int32 (Z.shiftl (Int32_val v1) n)).
Definition caml_int32_shift_right (v1 : boxed) (v2 : Z) : result boxed :=
  n ← shift_count 32 v2; Ret (caml_copy_int32 (Z.shiftr (Int32_val v1) n)).
Definition caml_int32_shift_right_unsigned (v1 : boxed) (v2 : Z) : result boxed :=
  n ← shift_count 32 v2; Ret (caml_copy_int32 (Z.shiftr (wrap 32 (Int32_val v1)) n)).
Definition caml_swap32 (x : Z) : Z :=
  s32 (Z.lor (Z.shiftl (Z.land x 0x000000FF) 24)
      (Z.lor (Z.shiftl (Z.land x 0x0000FF00) 8)
      (Z.lor (Z.shiftr (Z.land x 0x00FF0000) 8)
             (Z.shiftr (Z.land (u32 x) 0xFF000000) 24)))).
Definition caml_int32_bswap (v : boxed) : boxed := caml_copy_int32 (caml_swap32 (Int32_val v)).
Definition caml_int32_of_int (v : Z) : boxed := caml_copy_int32 (s32 (Long_val v)).
Definition caml_int32_to_int (v : boxed) : Z := Val_long (Int32_val v).
Definition caml_int32_compare_unboxed (i1 i2 : Z) : Z := COMPARE_INT i1 i2.
Definition caml_int32_compare (v1 v2 : boxed) : Z :=
  Val_int (caml_int32_compare_unboxed (Int32_val v1) (Int32_val v2)).
Definition caml_int32_format (fmt : list Z) (arg : boxed) : result (list Z) :=
  '(format_string, _) ← parse_format fmt ARCH_INT32_PRINTF_FORMAT;
  sprintf format_string (Int32_val arg).
Definition caml_int32_of_string (s : list Z) : result boxed :=
  n ← parse_intnat s 32 INT32_ERRMSG; Ret (caml_copy_int32 (s32 n)).

(** *** 64-bit integers *)
Definition Int64_val (v : boxed) : Z := s64 (bx_data v).
Definition caml_copy_int64 (i : Z) : boxed := mkBoxed "_j" (s64 i).
Definition int64_cmp (v1 v2 : boxed) : Z := COMPARE_INT (Int64_val v1) (Int64_val v2).
Definition int64_hash (v : boxed) : Z :=
  let x := Int64_val v in
  let lo := u32 x in
  let hi := u32 (Z.shiftr x 32) in
  Z.lxor hi lo.
Definition caml_int64_neg (v : boxed) : boxed := caml_copy_int64 (- Int64_val v).
Definition caml_int64_add (v1 v2 : boxed) : boxed := caml_copy_int64 (Int64_val v1 + Int64_val v2).
Definition caml_int64_sub (v1 v2 : boxed) : boxed := caml_copy_int64 (Int64_val v1 - Int64_val v2).
Definition caml_int64_mul (v1 v2 : boxed) : boxed := caml_copy_int64 (Int64_val v1 * Int64_val v2).
Definition caml_int64_div (v1 v2 : boxed) : result boxed :=
  let dividend := Int64_val v1 in
  let divisor := Int64_val v2 in
  raise_if (divisor =? 0) Division_by_zero;;
  if (dividend =? s64 (Z.shiftl 1 63)) && (divisor =? -1) then Ret v1 else
  Ret (caml_copy_int64 (dividend ÷ divisor)).
Definition caml_int64_mod (v1 v2 : boxed) : result boxed :=
  let dividend := Int64_val v1 in
  let divisor := Int64_val v2 in
  raise_if (divisor =? 0) Division_by_zero;;
  if (dividend =? s64 (Z.shiftl 1 63)) && (divisor =? -1) then Ret (caml_copy_int64 0) else
  Ret (caml_copy_int64 (Z.rem dividend divisor)).
Definition caml_int64_and (v1 v2 : boxed) : boxed := caml_copy_int64 (Z.land (Int64_val v1) (Int64_val v2)).
Definition caml_int64_or (v1 v2 : boxed) : boxed := caml_copy_int64 (Z.lor (Int64_val v1) (Int64_val v2)).
Definition caml_int64_xor (v1 v2 : boxed) : boxed := caml_copy_int64 (Z.lxor (Int64_val v1) (Int64_val v2)).
Definition caml_int64_shift_left (v1 : boxed) (v2 : Z) : result boxed :=
  n ← shift_count 64 v2; Ret (caml_copy_int64 (Z.shiftl (Int64_val v1) n)).
Definition caml_int64_shift_right (v1 : boxed) (v2 : Z) : result boxed :=
  n ← shift_count 64 v2; Ret (caml_copy_int64 (Z.shiftr (Int64_val v1) n)).
Definition caml_int64_shift_right_unsigned (v1 : boxed) (v2 : Z) : result boxed :=
  n ← shift_count 64 v2; Ret (caml_copy_int64 (Z.shiftr (wrap 64 (Int64_val v1)) n)).
(** The common body of [caml_swap64] and [caml_int64_bswap]. *)
Definition swap64_bits (x : Z) : Z :=
  Z.lor (Z.shiftl (Z.land x 0x00000000000000FF) 56)
  (Z.lor (Z.shiftl (Z.land x 0x000000000000FF00) 40)
  (Z.lor (Z.shiftl (Z.land x 0x0000000000FF0000) 24)
  (Z.lor (Z.shiftl (Z.land x 0x00000000FF000000) 8)
  (Z.lor (Z.shiftr (Z.land x 0x000000FF00000000) 8)
  (Z.lor (Z.shiftr (Z.land x 0x0000FF0000000000) 24)
  (Z.lor (Z.shiftr (Z.land x 0x00FF000000000000) 40)
         (Z.shiftr (Z.land x 0xFF00000000000000) 56))))))).
Definition caml_swap64 (x : Z) : Z := s64 (swap64_bits (u64 x)).
Definition caml_int64_bswap (v : boxed) : boxed :=
  let x := Int64_val v in caml_copy_int64 (swap64_bits (u64 x)).
Definition caml_int64_of_int (v : Z) : boxed := caml_copy_int64 (Long_val v).
Definition caml_int64_to_int (v : boxed) : Z := Val_long (Int64_val v).
Definition caml_int64_of_int32 (v : boxed) : boxed := caml_copy_int64 (Int32_val v).
Definition caml_int64_to_int32 (v : boxed) : boxed := caml_copy_int32 (s32 (Int64_val v)).
Definition caml_int64_compare_unboxed (i1 i2 : Z) : Z := COMPARE_INT i1 i2.
Definition caml_int64_compare (v1 v2 : boxed) : Z :=
  Val_int (caml_int64_compare_unboxed (Int64_val v1) (Int64_val v2)).
Definition caml_int64_format (fmt : list Z) (arg : boxed) : result (list Z) :=
  '(format_string, _) ← parse_format fmt ARCH_INT64_PRINTF_FORMAT;
  sprintf format_string (Int64_val arg).

(** [Int64.of_string] has its own copy of the digit loop, on [uint64_t]; the
    loops are the same at this width. *)
Definition caml_int64_of_string (s : list Z) : result boxed :=
  let px := parse_sign_and_base s in
  let base := px_base px in
  let threshold := u64 (-1) / base in
  let d := parse_digit (deref (px_rest px)) in
  raise_if ((d <? 0) || (base <=? d)) (Failure INT64_ERRMSG);;
  '(res, p) ← parse_loop base threshold INT64_ERRMSG (next (px_rest px)) d;
  raise_if (bool_decide (p <> [])) (Failure INT64_ERRMSG);;
  (if px_signed px then
     if 0 <=? px_sign px
     then raise_if (Z.shiftl 1 63 <=? res) (Failure INT64_ERRMSG)
     else raise_if (Z.shiftl 1 63 <? res) (Failure INT64_ERRMSG)
   else Ret ());;
  let res := if px_sign px <? 0 then u64 (- res) else res in
  Ret (caml_copy_int64 res).

(** *** Native integers *)
Definition Nativeint_val (v : boxed) : Z := s64 (bx_data v).
Definition caml_copy_nativeint (i : Z) : boxed := mkBoxed "_n" (s64 i).
Definition nativeint_cmp (v1 v2 : boxed) : Z := COMPARE_INT (Nativeint_val v1) (Nativeint_val v2).
Definition nativeint_hash (v : boxed) : Z :=
  let n := Nativeint_val v in
  Z.lxor (Z.lxor (Z.shiftr n 32) (Z.shiftr n 63)) n.
Definition caml_nativeint_neg (v : boxed) : boxed := caml_copy_nativeint (- Nativeint_val v).
Definition caml_nativeint_add (v1 v2 : boxed) : boxed := caml_copy_nativeint (Nativeint_val v1 + Nativeint_val v2).
Definition caml_nativeint_sub (v1 v2 : boxed) : boxed := caml_copy_nativeint (Nativeint_val v1 - Nativeint_val v2).
Definition caml_nativeint_mul (v1 v2 : boxed) : boxed := caml_copy_nativeint (Nativeint_val v1 * Nativeint_val v2).
Definition caml_nativeint_div (v1 v2 : boxed) : result boxed :=
  let dividend := Nativeint_val v1 in
  let divisor := Nativeint_val v2 in
  raise_if (divisor =? 0) Division_by_zero;;
  if (dividend =? s64 (Z.shiftl 1 63)) && (divisor =? -1) then Ret v1 else
  Ret (caml_copy_nativeint (dividend ÷ divisor)).
Definition caml_nativeint_mod (v1 v2 : boxed) : result boxed :=
  let dividend := Nativeint_val v1 in
  let divisor := Nativeint_val v2 in
  raise_if (divisor =? 0) Division_by_zero;;
  if (dividend =? s64 (Z.shiftl 1 63)) && (divisor =? -1) then Ret (caml_copy_nativeint 0) else
  Ret (caml_copy_nativeint (Z.rem dividend divisor)).
Definition caml_nativeint_and (v1 v2 : boxed) : boxed := caml_copy_nativeint (Z.land (Nativeint_val v1) (Nativeint_val v2)).
Definition caml_nativeint_or (v1 v2 : boxed) : boxed := caml_copy_nativeint (Z.lor (Nativeint_val v1) (Nativeint_val v2)).
Definition caml_nativeint_xor (v1 v2 : boxed) : boxed := caml_copy_nativeint (Z.lxor (Nativeint_val v1) (Nativeint_val v2)).
Definition caml_nativeint_shift_left (v1 : boxed) (v2 : Z) : result boxed :=
  n ← shift_count 64 v2; Ret (caml_copy_nativeint (Z.shiftl (Nativeint_val v1) n)).
Definition caml_nativeint_shift_right (v1 : boxed) (v2 : Z) : result boxed :=
  n ← shift_count 64 v2; Ret (caml_copy_nativeint (Z.shiftr (Nativeint_val v1) n)).
Definition caml_nativeint_shift_right_unsigned (v1 : boxed) (v2 : Z) : result boxed :=
  n ← shift_count 64 v2; Ret (caml_copy_nativeint (Z.shiftr (wrap 64 (Nativeint_val v1)) n)).
Definition caml_int64_of_nativeint (v : boxed) : boxed := caml_copy_int64 (Nativeint_val v).
Definition caml_int64_to_nativeint (v : boxed) : boxed := caml_copy_nativeint (Int64_val v).
Definition caml_nativeint_bswap (v : boxed) : boxed :=
  caml_copy_nativeint (caml_swap64 (Nativeint_val v)).
Definition caml_nativeint_of_int (v : Z) : boxed := caml_copy_nativeint (Long_val v).
Definition caml_nativeint_to_int (v : boxed) : Z := Val_long (Nativeint_val v).
Definition caml_nativeint_of_int32 (v : boxed) : boxed := caml_copy_nativeint (Int32_val v).
Definition caml_nativeint_to_int32 (v : boxed) : boxed := caml_copy_int32 (s32 (Nativeint_val v)).
Definition caml_nativeint_compare_unboxed (i1 i2 : Z) : Z := COMPARE_INT i1 i2.
Definition caml_nativeint_compare (v1 v2 : boxed) : Z :=
  Val_int (caml_nativeint_compare_unboxed (Nativeint_val v1) (Nativeint_val v2)).
Definition caml_nativeint_format (fmt : list Z) (arg : boxed) : result (list Z) :=
  '(format_string, _) ← parse_format fmt ARCH_INTNAT_PRINTF_FORMAT;
  sprintf format_string (Nativeint_val arg).
Definition caml_nativeint_of_string (s : list Z) : result boxed :=
  n ← parse_intnat s 64 INTNAT_ERRMSG; Ret (caml_copy_nativeint n).

(** *** Serialization of the custom blocks

    Big-endian integers, as [caml_serialize_int_4] and friends write them. *)
Fixpoint be_bytes (n : nat) (x : Z) : list Z :=
  match n with
  | O => []
  | S n => Z.land (Z.shiftr x (8 * Z.of_nat n)) 255 :: be_bytes n x
  end.
Definition be_word (l : list Z) : Z := fold_left (fun acc b => acc * 256 + b) l 0.
Definition take_be (n : nat) (l : list Z) : result (Z * list Z) :=
  if Nat.leb n (length l) then Ret (be_word (take n l), drop n l) else Undef.

Definition int32_serialize (v : boxed) : list Z := be_bytes 4 (Int32_val v).
Definition int32_deserialize (l : list Z) : result (Z * list Z) :=
  '(w, l) ← take_be 4 l; Ret (s32 w, l).
Definition int64_serialize (v : boxed) : list Z := be_bytes 8 (Int64_val v).
Definition int64_deserialize (l : list Z) : result (Z * list Z) :=
  '(w, l) ← take_be 8 l; Ret (s64 w, l).
Definition nativeint_serialize (v : boxed) : list Z :=
  let l := Nativeint_val v in
  if (- Z.shiftl 1 31 <=? l) && (l <? Z.shiftl 1 31)
  then be_bytes 1 1 ++ be_bytes 4 (s32 l)
  else be_bytes 1 2 ++ be_bytes 8 l.
Definition nativeint_deserialize (l : list Z) : result (Z * list Z) :=
  '(code, l) ← take_be 1 l;
  if code =? 1 then '(w, l) ← take_be 4 l; Ret (s32 w, l)
  else if code =? 2 then '(w, l) ← take_be 8 l; Ret (s64 w, l)
  else Raise (Failure "input_value: ill-formed native integer").

(** ** The numbers a string denotes

    The reference is a grammar: a sign, a prefix that gives the base, then a digit followed by
    digits and underscores. *)


(** The values a [nbits]-bit type accepts: signed decimal numerals within the
    signed range, other numerals below [2^nbits]. *)
Definition in_range (nbits : Z) (signed : bool) (sign n : Z) : bool :=
  if signed then
    if 0 <=? sign then n <? 2 ^ (nbits - 1) else n <=? 2 ^ (nbits - 1)
  else n <? 2 ^ nbits.

(** ** The parser without overflow *)
Fixpoint numeral_loop (base : Z) (p : list Z) (n : Z) : option Z :=
  match p with
  | [] => Some n
  | c :: p' =>
      if c =? ch "_" then numeral_loop base p' n else
      let d := parse_digit c in
      if (d <? 0) || (base <=? d) then None else numeral_loop base p' (base * n + d)
  end.
Definition numeral (base : Z) (p : list Z) : option Z :=
  let d := parse_digit (deref p) in
  if (d <? 0) || (base <=? d) then None else numeral_loop base (next p) d.

Definition denoted (s : list Z) (nbits : Z) : option Z :=
  let px := parse_sign_and_base s in
  match numeral (px_base px) (px_rest px) with
  | Some n => if in_range nbits (px_signed px) (px_sign px) n
              then Some (px_sign px * n) else None
  | None => None
  end.

(** ** Lemmas *)

Lemma parse_sign_and_base_range s :
  2 <= px_base (parse_sign_and_base s) <= 16 /\
  (px_sign (parse_sign_and_base s) = 1 \/ px_sign (parse_sign_and_base s) = -1).
Proof.
  unfold parse_sign_and_base.
  repeat (case_match; simpl in *; simplify_eq; try lia).
Qed.


Lemma bad_digit base d : (d <? 0) || (base <=? d) = false <-> 0 <= d < base.
Proof. rewrite orb_false_iff, Z.ltb_ge, Z.leb_gt. done. Qed.

Lemma numeral_loop_mono base p n m :
  1 <= base -> 0 <= n -> numeral_loop base p n = Some m -> n <= m.
Proof.
  intros Hb. revert n. induction p as [|c p IH]; intros n Hn E; simpl in E.
  - simplify_eq. done.
  - destruct (c =? ch "_"); [by apply IH|].
    destruct (_ || _) eqn:Hd; [done|]. apply bad_digit in Hd.
    apply IH in E; nia.
Qed.

Lemma numeral_bounds base p n : 2 <= base -> numeral base p = Some n -> 0 <= n.
Proof.
  intros Hb. unfold numeral. destruct (_ || _) eqn:Hd; [done|].
  apply bad_digit in Hd. intros E. apply numeral_loop_mono in E; lia.
Qed.

(** The digit loop computes the numeral, and fails exactly when it is
    ill-formed or does not fit in 64 bits. *)
Lemma parse_loop_exact {A} base e p res (k : Z -> result A) :
  2 <= base <= 16 -> 0 <= res < 2 ^ 64 ->
  ('(r, p) ← parse_loop base (u64 (-1) / base) e p res;
   raise_if (bool_decide (p <> [])) (Failure e);; k r) =
  match numeral_loop base p res with
  | Some n => if n <? 2 ^ 64 then k n else Raise (Failure e)
  | None => Raise (Failure e)
  end.
Proof.
  intros Hb. change (u64 (-1)) with (2 ^ 64 - 1). revert res.
  induction p as [|c p IH]; intros res Hr; simpl.
  { by rewrite (proj2 (Z.ltb_lt _ _)) by lia. }
  destruct (c =? ch "_"); [by apply IH|].
  destruct (_ || _) eqn:Hd; [done|]. apply bad_digit in Hd. set (d := parse_digit c) in *.
  assert (Hover : 2 ^ 64 <= base * res + d ->
    match numeral_loop base p (base * res + d) with
    | Some n => if n <? 2 ^ 64 then k n else Raise (Failure e)
    | None => Raise (Failure e) end = Raise (Failure e)).
  { intros Ho. destruct (numeral_loop _ _ _) as [m|] eqn:E; [|done].
    apply numeral_loop_mono in E; [|lia..].
    by rewrite (proj2 (Z.ltb_ge _ _)) by lia. }
  destruct (Z.ltb_spec ((2 ^ 64 - 1) / base) res) as [Hth|Hth]; simpl.
  { rewrite Hover; [done|].
    pose proof (Z.mul_succ_div_gt (2 ^ 64 - 1) base ltac:(lia)). nia. }
  assert (base * res <= 2 ^ 64 - 1) as Hmul.
  { pose proof (Z.mul_div_le (2 ^ 64 - 1) base ltac:(lia)). nia. }
  destruct (Z_lt_le_dec (base * res + d) (2 ^ 64)) as [Hfit|Hbig].
  - rewrite (wrap_small 64 (base * res + d)) by nia.
    rewrite (proj2 (Z.ltb_ge _ _)) by nia. simpl. apply IH. nia.
  - rewrite Hover by done.
    replace (u64 (base * res + d)) with (base * res + d - 2 ^ 64).
    + by rewrite (proj2 (Z.ltb_lt _ _)) by lia.
    + unfold wrap. apply (Z.mod_unique _ _ 1); lia.
Qed.

Lemma parse_intnat_denoted s nbits e :
  0 < nbits <= 64 ->
  parse_intnat s nbits e =
  match denoted s nbits with Some n => Ret (s64 n) | None => Raise (Failure e) end.
Proof.
  intros Hn. unfold parse_intnat, denoted, numeral.
  destruct (parse_sign_and_base_range s) as [Hb Hs].
  destruct (parse_sign_and_base s) as [p base signed sign]. simpl in *.
  destruct (_ || _) eqn:Hd; [done|]. apply bad_digit in Hd. simpl.
  rewrite (parse_loop_exact base e (next p)) by lia.
  destruct (numeral_loop _ _ _) as [n|] eqn:En; [|done].
  apply numeral_loop_mono in En; [|lia..].
  assert (2 ^ nbits <= 2 ^ 64) by (apply Z.pow_le_mono_r; lia).
  assert (2 * 2 ^ (nbits - 1) = 2 ^ nbits) by (symmetry; apply pow2_half; lia).
  rewrite !Z.shiftl_1_l. unfold in_range.
  destruct signed; destruct Hs as [-> | ->]; simpl; rewrite ?Z.mul_1_l.
  - case_tests; simpl; try lia; done.
  - case_tests; simpl; try lia; try done. f_equal. apply swrap_ext.
    change (eqm 64 (- s64 n) (-1 * n)). rewrite Z.opp_eq_mul_m1, Z.mul_comm.
    by rewrite (eqm_of_swrap 64) by lia.
  - destruct (Z.ltb_spec nbits 64).
    + case_tests; simpl; try lia; done.
    + replace nbits with 64 by lia. case_tests; simpl; try lia; done.
  - assert (Hneg : s64 (- s64 n) = s64 (-1 * n)).
    { apply swrap_ext. change (eqm 64 (- s64 n) (-1 * n)). rewrite Z.opp_eq_mul_m1, Z.mul_comm.
      by rewrite (eqm_of_swrap 64) by lia. }
    destruct (Z.ltb_spec nbits 64).
    + case_tests; simpl; try lia; by rewrite ?Hneg.
    + replace nbits with 64 by lia. case_tests; simpl; try lia; by rewrite ?Hneg.
Qed.

(** *** The grammar *)




(** *** Digits *)

Lemma parse_digit_char upper d : 0 <= d < 16 -> parse_digit (digit_char upper d) = d.
Proof.
  intros Hd. unfold digit_char.
  destruct upper; destruct (Z.ltb_spec d 10); unfold parse_digit, ch; simpl; repeat case_match; lia.
Qed.

Lemma digit_char_not_underscore upper d : 0 <= d < 16 -> (digit_char upper d =? ch "_") = false.
Proof. intros Hd. unfold digit_char, ch. simpl. destruct upper; repeat case_match; lia. Qed.

Lemma numeral_loop_digit base upper d p n :
  2 <= base <= 16 -> 0 <= d < base ->
  numeral_loop base (digit_char upper d :: p) n = numeral_loop base p (base * n + d).
Proof.
  intros. simpl. rewrite digit_char_not_underscore, parse_digit_char by lia.
  by rewrite (proj2 (bad_digit base d)).
Qed.

Lemma numeral_digits_aux base upper fuel n acc :
  2 <= base <= 16 -> 0 <= n < base ^ Z.of_nat fuel -> fuel <> O ->
  numeral base (digits_aux fuel upper base n acc) = numeral_loop base acc n.
Proof.
  intros Hb. revert n acc. induction fuel as [|fuel IH]; intros n acc Hn Hf; [done|].
  cbn [digits_aux]. pose proof (Z.mod_pos_bound n base ltac:(lia)) as Hm.
  pose proof (Z.div_mod n base ltac:(lia)) as Hdm.
  destruct (Z.eqb_spec (n / base) 0) as [Hz|Hnz].
  - unfold numeral. cbn [deref next]. rewrite parse_digit_char by lia.
    rewrite (proj2 (bad_digit base _)) by done. f_equal. nia.
  - destruct fuel as [|fuel'].
    { exfalso. change (base ^ Z.of_nat 1) with (base ^ 1) in Hn. rewrite Z.pow_1_r in Hn.
      apply Hnz, Z.div_small. lia. }
    rewrite IH; [|split|done].
    + rewrite numeral_loop_digit by lia. f_equal. lia.
    + apply Z.div_pos; lia.
    + apply Z.div_lt_upper_bound; [lia|].
      rewrite <- Z.pow_succ_r, <- Nat2Z.inj_succ by lia. lia.
Qed.

Lemma numeral_digits base upper n :
  2 <= base <= 16 -> 0 <= n < 2 ^ 64 -> numeral base (digits upper base n) = Some n.
Proof.
  intros Hb Hn. unfold digits. rewrite numeral_digits_aux; [done|lia| |done].
  split; [lia|]. assert (2 ^ 64 <= base ^ 64) by (apply Z.pow_le_mono_l; lia). lia.
Qed.

(** Decimal digits are never mistaken for a sign or a base prefix. *)
Definition is_decimal (c : Z) : Prop := ch "0" <= c <= ch "9".

Lemma digits_aux_decimal fuel n acc :
  Forall is_decimal acc -> 0 <= n -> Forall is_decimal (digits_aux fuel false 10 n acc).
Proof.
  revert n acc. induction fuel as [|fuel IH]; intros n acc Ha Hn; [done|]. cbn [digits_aux].
  pose proof (Z.mod_pos_bound n 10 ltac:(lia)) as Hm.
  assert (Forall is_decimal (digit_char false (n mod 10) :: acc)) as Hc.
  { constructor; [|done]. unfold is_decimal, digit_char.
    rewrite (proj2 (Z.ltb_lt _ _)) by lia. unfold ch. simpl. lia. }
  destruct (_ =? 0); [done|]. apply IH; [done|]. apply Z.div_pos; lia.
Qed.

Lemma decimal_deref p c : Forall is_decimal p -> c <> 0 -> ~ is_decimal c -> (deref p =? c) = false.
Proof.
  intros Hp Hc Hd. apply Z.eqb_neq. destruct p as [|x p]; simpl; [lia|].
  inversion_clear Hp. intros ->. done.
Qed.

Lemma decimal_next p : Forall is_decimal p -> Forall is_decimal (next p).
Proof. by destruct 1. Qed.

Lemma not_decimal c : c < ch "0" \/ ch "9" < c -> ~ is_decimal c.
Proof. unfold is_decimal. lia. Qed.

Ltac decimal_side :=
  first [ assumption
        | apply not_decimal; first [left; reflexivity | right; reflexivity]
        | let E := fresh in intros E; vm_compute in E; discriminate E ].

Lemma prefix_decimal p sign :
  Forall is_decimal p ->
  let after := (if deref p =? ch "0" then
    let c := deref (next p) in
    if (c =? ch "x") || (c =? ch "X") then mkPrefix (next (next p)) 16 false sign
    else if (c =? ch "o") || (c =? ch "O") then mkPrefix (next (next p)) 8 false sign
    else if (c =? ch "b") || (c =? ch "B") then mkPrefix (next (next p)) 2 false sign
    else if (c =? ch "u") || (c =? ch "U") then mkPrefix (next (next p)) 10 false sign
    else mkPrefix p 10 true sign
  else mkPrefix p 10 true sign) in after = mkPrefix p 10 true sign.
Proof.
  intros Hp. apply decimal_next in Hp as Hn. cbv zeta.
  destruct (deref p =? ch "0"); [|done].
  by rewrite !(decimal_deref (next p)) by decimal_side.
Qed.

Lemma prefix_plain p : Forall is_decimal p -> parse_sign_and_base p = mkPrefix p 10 true 1.
Proof.
  intros Hp. unfold parse_sign_and_base.
  rewrite !(decimal_deref p) by decimal_side.
  by apply prefix_decimal.
Qed.

Lemma prefix_minus p :
  Forall is_decimal p -> parse_sign_and_base (ch "-" :: p) = mkPrefix p 10 true (-1).
Proof.
  intros Hp. unfold parse_sign_and_base. cbn [deref next]. rewrite Z.eqb_refl.
  by apply prefix_decimal.
Qed.

(** What a signed number prints as, and what it reads back as. *)
Definition signed_decimal (n : Z) : list Z :=
  if n <? 0 then ch "-" :: digits false 10 (- n) else digits false 10 n.

Lemma digits_decimal n : 0 <= n -> Forall is_decimal (digits false 10 n).
Proof. intros. apply digits_aux_decimal; [by constructor|done]. Qed.

Lemma denoted_signed_decimal n nbits :
  0 < nbits <= 64 -> - 2 ^ (nbits - 1) <= n < 2 ^ (nbits - 1) ->
  denoted (signed_decimal n) nbits = Some n.
Proof.
  intros Hnb Hn. assert (2 ^ (nbits - 1) <= 2 ^ 63) by (apply Z.pow_le_mono_r; lia).
  unfold denoted, signed_decimal. destruct (Z.ltb_spec n 0).
  - rewrite prefix_minus by (apply digits_decimal; lia). cbn [px_base px_rest px_signed px_sign].
    rewrite numeral_digits by lia. simpl.
    rewrite (proj2 (Z.leb_le _ _)) by lia. f_equal. lia.
  - rewrite prefix_plain by (apply digits_decimal; lia). cbn [px_base px_rest px_signed px_sign].
    rewrite numeral_digits by lia. simpl.
    rewrite (proj2 (Z.ltb_lt _ _)) by lia. f_equal. lia.
Qed.

(** Unsigned conversions and the prefix that reads them back. *)
Inductive radix : Type := Dec | Hex | HEX | Oct.
Definition radix_base (r : radix) : Z := match r with Dec => 10 | Oct => 8 | _ => 16 end.
Definition radix_upper (r : radix) : bool := match r with HEX => true | _ => false end.
Definition radix_fmt (r : radix) : list Z :=
  match r with Dec => chars "%u" | Hex => chars "%x" | HEX => chars "%X" | Oct => chars "%o" end.
Definition radix_prefix (r : radix) : list Z :=
  match r with Dec => chars "0u" | Hex => chars "0x" | HEX => chars "0X" | Oct => chars "0o" end.

Lemma denoted_radix r n nbits :
  0 < nbits <= 64 -> 0 <= n < 2 ^ nbits ->
  denoted (radix_prefix r ++ digits (radix_upper r) (radix_base r) n) nbits = Some n.
Proof.
  intros Hnb Hn. assert (2 ^ nbits <= 2 ^ 64) by (apply Z.pow_le_mono_r; lia).
  unfold denoted.
  replace (parse_sign_and_base _) with
    (mkPrefix (digits (radix_upper r) (radix_base r) n) (radix_base r) false 1) by by destruct r.
  cbn [px_base px_rest px_signed px_sign].
  rewrite numeral_digits by (destruct r; simpl; lia). simpl.
  rewrite (proj2 (Z.ltb_lt _ _)) by lia. f_equal. lia.
Qed.

Lemma caml_int64_of_string_intnat s :
  caml_int64_of_string s = (n ← parse_intnat s 64 INT64_ERRMSG; Ret (caml_copy_int64 n)).
Proof.
  unfold caml_int64_of_string, parse_intnat.
  destruct (parse_sign_and_base s) as [p base signed sign]. cbn [px_base px_rest px_signed px_sign].
  destruct (raise_if _ _); try done. simpl.
  destruct (parse_loop _ _ _ _ _) as [[res p']| | | |]; try done. simpl.
  destruct (raise_if (bool_decide _) _); try done. simpl. change (64 - 1) with 63.
  assert (caml_copy_int64 (if sign <? 0 then u64 (- res) else res) =
          caml_copy_int64 (if sign <? 0 then s64 (- s64 res) else s64 res)) as E.
  { unfold caml_copy_int64. f_equal. destruct (sign <? 0).
    - rewrite swrap_wrap, swrap_swrap by lia. apply swrap_ext.
      change (eqm 64 (- res) (- s64 res)). rewrite !Z.opp_eq_mul_m1.
      by rewrite (eqm_of_swrap 64 res) by lia.
    - by rewrite swrap_swrap by lia. }
  destruct signed; [|by rewrite E].
  destruct (0 <=? sign); destruct (raise_if _ _); simpl; by rewrite ?E.
Qed.

Lemma Val_long_s64 n : Val_long (s64 n) = Val_long n.
Proof. rewrite !Val_long_eq. by rewrite swrap_narrow by lia. Qed.

(** The four readers on a string that denotes a number of their width. *)
Lemma int_of_denoted s n : denoted s 63 = Some n -> caml_int_of_string s = Ret (Val_long n).
Proof.
  intros E. unfold caml_int_of_string. rewrite parse_intnat_denoted, E by lia. simpl.
  by rewrite Val_long_s64.
Qed.
Lemma int32_of_denoted s n :
  denoted s 32 = Some n -> caml_int32_of_string s = Ret (caml_copy_int32 n).
Proof.
  intros E. unfold caml_int32_of_string. rewrite parse_intnat_denoted, E by lia. simpl.
  unfold caml_copy_int32. by rewrite swrap_swrap, swrap_narrow by lia.
Qed.
Lemma int64_of_denoted s n :
  denoted s 64 = Some n -> caml_int64_of_string s = Ret (caml_copy_int64 n).
Proof.
  intros E. rewrite caml_int64_of_string_intnat, parse_intnat_denoted, E by lia. simpl.
  unfold caml_copy_int64. by rewrite swrap_swrap by lia.
Qed.
Lemma nativeint_of_denoted s n :
  denoted s 64 = Some n -> caml_nativeint_of_string s = Ret (caml_copy_nativeint n).
Proof.
  intros E. unfold caml_nativeint_of_string. rewrite parse_intnat_denoted, E by lia. simpl.
  unfold caml_copy_nativeint. by rewrite swrap_swrap by lia.
Qed.

(** What the four writers print on a bare conversion. *)
Lemma format_int_d n : is_int n -> caml_format_int (chars "%d") (Val_long n) = Ret (signed_decimal n).
Proof.
  intros Hn. unfold caml_format_int. simpl.
  rewrite Long_Val_int by done. unfold render. simpl.
  rewrite swrap_small; [done|lia|]. unfold is_int, Min_long, Max_long in Hn. lia.
Qed.

Lemma Unsigned_Val_long n : is_int n -> Unsigned_long_val (Val_long n) = n mod 2 ^ 63.
Proof.
  intros Hn. unfold Unsigned_long_val. rewrite Val_long_int by done.
  rewrite Z.shiftr_div_pow2 by lia. change (2 ^ 1) with 2. unfold is_int, Min_long, Max_long in Hn.
  destruct (Z_lt_le_dec n 0).
  - replace (u64 (2 * n + 1)) with (2 * n + 1 + 2 ^ 64)
      by (apply (Z.mod_unique _ _ (-1)); lia).
    replace (n mod 2 ^ 63) with (n + 2 ^ 63) by (apply (Z.mod_unique _ _ (-1)); lia).
    symmetry. apply (Z.div_unique _ _ _ 1); lia.
  - rewrite wrap_small, Z.mod_small by lia. symmetry. apply (Z.div_unique _ _ _ 1); lia.
Qed.

Lemma format_int_radix r n :
  is_int n ->
  caml_format_int (radix_fmt r) (Val_long n) =
  Ret (digits (radix_upper r) (radix_base r) (n mod 2 ^ 63)).
Proof.
  intros Hn. pose proof (Z.mod_pos_bound n (2 ^ 63) ltac:(lia)).
  destruct r; unfold caml_format_int; simpl; rewrite Unsigned_Val_long by done;
    unfold render; simpl; rewrite wrap_small by lia; done.
Qed.

Lemma boxed_format_d n :
  caml_int32_format (chars "%d") (caml_copy_int32 n) = Ret (signed_decimal (s32 n)) /\
  caml_int64_format (chars "%d") (caml_copy_int64 n) = Ret (signed_decimal (s64 n)) /\
  caml_nativeint_format (chars "%d") (caml_copy_nativeint n) = Ret (signed_decimal (s64 n)).
Proof.
  unfold caml_int32_format, caml_int64_format, caml_nativeint_format, Int32_val, Int64_val,
    Nativeint_val, caml_copy_int32, caml_copy_int64, caml_copy_nativeint.
  split_and!; simpl; unfold render; simpl; by rewrite !swrap_swrap by lia.
Qed.

Lemma boxed_format_radix r n :
  caml_int32_format (radix_fmt r) (caml_copy_int32 n) =
    Ret (digits (radix_upper r) (radix_base r) (u32 n)) /\
  caml_int64_format (radix_fmt r) (caml_copy_int64 n) =
    Ret (digits (radix_upper r) (radix_base r) (u64 n)) /\
  caml_nativeint_format (radix_fmt r) (caml_copy_nativeint n) =
    Ret (digits (radix_upper r) (radix_base r) (u64 n)).
Proof.
  unfold caml_int32_format, caml_int64_format, caml_nativeint_format, Int32_val, Int64_val,
    Nativeint_val, caml_copy_int32, caml_copy_int64, caml_copy_nativeint.
  destruct r; split_and!; simpl; unfold render; simpl;
    by rewrite swrap_swrap, wrap_swrap by lia.
Qed.

(** ** Properties *)



(** C32: printing then parsing is the identity.  For every integer of every
    type, the string printed with [%d] is read back as that integer, and so is
    the string printed with an unsigned conversion ([%u], [%x], [%X], [%o])
    after the matching prefix, also for negative integers. *)
Theorem format_of_string_roundtrip (n : Z) (r : radix) :
  (is_int n ->
     (caml_format_int (chars "%d") (Val_long n) ≫= caml_int_of_string) = Ret (Val_long n) /\
     (s ← caml_format_int (radix_fmt r) (Val_long n); caml_int_of_string (radix_prefix r ++ s))
       = Ret (Val_long n)) /\
  (caml_int32_format (chars "%d") (caml_copy_int32 n) ≫= caml_int32_of_string)
     = Ret (caml_copy_int32 n) /\
  (s ← caml_int32_format (radix_fmt r) (caml_copy_int32 n); caml_int32_of_string (radix_prefix r ++ s))
     = Ret (caml_copy_int32 n) /\
  (caml_int64_format (chars "%d") (caml_copy_int64 n) ≫= caml_int64_of_string)
     = Ret (caml_copy_int64 n) /\
  (s ← caml_int64_format (radix_fmt r) (caml_copy_int64 n); caml_int64_of_string (radix_prefix r ++ s))
     = Ret (caml_copy_int64 n) /\
  (caml_nativeint_format (chars "%d") (caml_copy_nativeint n) ≫= caml_nativeint_of_string)
     = Ret (caml_copy_nativeint n) /\
  (s ← caml_nativeint_format (radix_fmt r) (caml_copy_nativeint n);
     caml_nativeint_of_string (radix_prefix r ++ s)) = Ret (caml_copy_nativeint n).
Proof.
  destruct (boxed_format_d n) as (D32 & D64 & Dn).
  destruct (boxed_format_radix r n) as (R32 & R64 & Rn).
  pose proof (swrap_range 32 n ltac:(lia)). pose proof (swrap_range 64 n ltac:(lia)).
  pose proof (wrap_range 32 n ltac:(lia)). pose proof (wrap_range 64 n ltac:(lia)).
  rewrite D32, R32, D64, R64, Dn, Rn. unfold mbind, result_bind.
  split_and!.
  - intros Hn. pose proof (Z.mod_pos_bound n (2 ^ 63) ltac:(lia)).
    rewrite format_int_d, format_int_radix by done. split.
    + apply int_of_denoted, denoted_signed_decimal; [lia|].
      unfold is_int, Min_long, Max_long in Hn. lia.
    + erewrite int_of_denoted by (apply denoted_radix; lia).
      f_equal. rewrite !Val_long_eq. do 2 f_equal. apply swrap_wrap.
  - erewrite int32_of_denoted by (apply denoted_signed_decimal; lia).
    unfold caml_copy_int32. by rewrite swrap_swrap by lia.
  - erewrite int32_of_denoted by (apply denoted_radix; lia).
    unfold caml_copy_int32. by rewrite swrap_wrap by lia.
  - erewrite int64_of_denoted by (apply denoted_signed_decimal; lia).
    unfold caml_copy_int64. by rewrite swrap_swrap by lia.
  - erewrite int64_of_denoted by (apply denoted_radix; lia).
    unfold caml_copy_int64. by rewrite swrap_wrap by lia.
  - erewrite nativeint_of_denoted by (apply denoted_signed_decimal; lia).
    unfold caml_copy_nativeint. by rewrite swrap_swrap by lia.
  - erewrite nativeint_of_denoted by (apply denoted_radix; lia).
    unfold caml_copy_nativeint. by rewrite swrap_wrap by lia.
Qed.

Lemma format_of_string_roundtrip_witness :
  (caml_format_int (chars "%d") (Val_long (-42)) ≫= caml_int_of_string) = Ret (Val_long (-42)) /\
  (s ← caml_format_int (radix_fmt Hex) (Val_long (-42));
   caml_int_of_string (radix_prefix Hex ++ s)) = Ret (Val_long (-42)).
Proof.
  apply (format_of_string_roundtrip (-42) Hex). vm_compute. split; congruence.
Defined.

(** Division of a boxed type of width [w], as the C code must behave on every
    pair of arguments. *)
Definition division_spec (w : Z) (val : boxed -> Z)
    (div md : boxed -> boxed -> result boxed) : Prop :=
  forall v1 v2,
    if val v2 =? 0 then
      div v1 v2 = Raise Division_by_zero /\ md v1 v2 = Raise Division_by_zero
    else exists q r,
      div v1 v2 = Ret q /\ md v1 v2 = Ret r /\
      val q = swrap w (val v1 ÷ val v2) /\ val r = Z.rem (val v1) (val v2) /\
      val v1 = swrap w (val q * val v2 + val r).

Lemma division_ok w (val : boxed -> Z) (copy : Z -> boxed) min v1 v2 :
  1 < w -> min = - 2 ^ (w - 1) ->
  (forall v, - 2 ^ (w - 1) <= val v < 2 ^ (w - 1)) -> (forall n, val (copy n) = swrap w n) ->
  val v2 <> 0 ->
  let q := if (val v1 =? min) && (val v2 =? -1) then v1 else copy (val v1 ÷ val v2) in
  let r := if (val v1 =? min) && (val v2 =? -1) then copy 0 else copy (Z.rem (val v1) (val v2)) in
  val q = swrap w (val v1 ÷ val v2) /\ val r = Z.rem (val v1) (val v2) /\
  val v1 = swrap w (val q * val v2 + val r).
Proof.
  intros Hw Hmin Hval Hcopy Hnz. pose proof (Hval v1) as H1. pose proof (Hval v2) as H2.
  pose proof (Z.quot_rem' (val v1) (val v2)) as Hqr.
  pose proof (Z.rem_bound_abs (val v1) (val v2) Hnz) as Hrb.
  pose proof (pow2_half w ltac:(lia)) as Hp.
  assert (2 ^ 1 <= 2 ^ (w - 1)) as H2w by (apply Z.pow_le_mono_r; lia).
  change (2 ^ 1) with 2 in H2w.
  assert (Hrem : swrap w (Z.rem (val v1) (val v2)) = Z.rem (val v1) (val v2))
    by (apply swrap_small; lia).
  destruct ((val v1 =? min) && (val v2 =? -1)) eqn:E; cbv zeta; rewrite ?Hcopy.
  - assert (val v1 = min /\ val v2 = -1) as [Ea Eb] by lia. rewrite Ea, Eb in *.
    assert (swrap w (- min) = min) as Hopp.
    { rewrite <- (swrap_small w min) at 2 by lia. apply swrap_ext. unfold wrap.
      rewrite <- (Z_mod_plus_full min 1), Z.mul_1_l. f_equal. lia. }
    assert (min ÷ -1 = - min /\ Z.rem min (-1) = 0) as [-> ->] by lia.
    rewrite (swrap_small w 0) by lia. split_and!; [by rewrite Hopp|done|].
    by replace (min * -1 + 0) with (- min) by lia.
  - rewrite Hrem. split_and!; try done.
    transitivity (swrap w (val v1)); [by rewrite swrap_small by lia|].
    apply swrap_ext. rewrite Hqr at 1.
    change (eqm w (val v2 * (val v1 ÷ val v2) + Z.rem (val v1) (val v2))
              (swrap w (val v1 ÷ val v2) * val v2 + Z.rem (val v1) (val v2))).
    rewrite (eqm_of_swrap w (val v1 ÷ val v2)) by lia. by rewrite Z.mul_comm.
Qed.

(** Division and modulus of the boxed integer types.  On every pair of
    arguments the primitives raise [Division_by_zero] exactly when the divisor
    is zero; otherwise they return the truncated quotient, wrapped to the
    width of the type ([min_int / -1] is [min_int]), and the remainder with
    the sign of the dividend, and the dividend is [q * d + r] in the
    arithmetic of the type. *)
Theorem boxed_division :
  division_spec 32 Int32_val caml_int32_div caml_int32_mod /\
  division_spec 64 Int64_val caml_int64_div caml_int64_mod /\
  division_spec 64 Nativeint_val caml_nativeint_div caml_nativeint_mod.
Proof.
  split_and!; intros v1 v2.
  - unfold caml_int32_div, caml_int32_mod. destruct (Z.eqb_spec (Int32_val v2) 0) as [|Hnz]; [done|].
    pose proof (division_ok 32 Int32_val caml_copy_int32 (s32 (Z.shiftl 1 31)) v1 v2
      ltac:(lia) eq_refl (fun v => swrap_range 32 _ ltac:(lia)) (fun n => swrap_swrap 32 n ltac:(lia)) Hnz)
      as (H1 & H2 & H3).
    simpl. destruct (_ && _); eauto 10.
  - unfold caml_int64_div, caml_int64_mod. destruct (Z.eqb_spec (Int64_val v2) 0) as [|Hnz]; [done|].
    pose proof (division_ok 64 Int64_val caml_copy_int64 (s64 (Z.shiftl 1 63)) v1 v2
      ltac:(lia) eq_refl (fun v => swrap_range 64 _ ltac:(lia)) (fun n => swrap_swrap 64 n ltac:(lia)) Hnz)
      as (H1 & H2 & H3).
    simpl. destruct (_ && _); eauto 10.
  - unfold caml_nativeint_div, caml_nativeint_mod. destruct (Z.eqb_spec (Nativeint_val v2) 0) as [|Hnz]; [done|].
    pose proof (division_ok 64 Nativeint_val caml_copy_nativeint (s64 (Z.shiftl 1 63)) v1 v2
      ltac:(lia) eq_refl (fun v => swrap_range 64 _ ltac:(lia)) (fun n => swrap_swrap 64 n ltac:(lia)) Hnz)
      as (H1 & H2 & H3).
    simpl. destruct (_ && _); eauto 10.
Qed.

(** *** Byte order *)

Ltac swap_bytes :=
  repeat match goal with
  | |- context [Z.land ?x 0x00000000000000FF] => change 0xFF with (Z.shiftl 255 (8 * 0))
  | |- context [Z.land ?x 0x000000000000FF00] => change 0xFF00 with (Z.shiftl 255 (8 * 1))
  | |- context [Z.land ?x 0x0000000000FF0000] => change 0xFF0000 with (Z.shiftl 255 (8 * 2))
  | |- context [Z.land ?x 0x00000000FF000000] => change 0xFF000000 with (Z.shiftl 255 (8 * 3))
  | |- context [Z.land ?x 0x000000FF00000000] => change 0xFF00000000 with (Z.shiftl 255 (8 * 4))
  | |- context [Z.land ?x 0x0000FF0000000000] => change 0xFF0000000000 with (Z.shiftl 255 (8 * 5))
  | |- context [Z.land ?x 0x00FF000000000000] => change 0xFF000000000000 with (Z.shiftl 255 (8 * 6))
  | |- context [Z.land ?x 0xFF00000000000000] => change 0xFF00000000000000 with (Z.shiftl 255 (8 * 7))
  end;
  rewrite !mask_byte, ?Z.shiftl_shiftl, ?Z.shiftr_shiftl_l by lia.

Lemma swap32_bytes x k : 0 <= k < 4 -> get_byte (caml_swap32 x) k = get_byte x (3 - k).
Proof.
  intros Hk. unfold caml_swap32. rewrite get_byte_swrap by lia. swap_bytes.
  rewrite (get_byte_wrap 32) by lia.
  change (8 * 0 + 24) with (8 * 3). change (8 * 1 + 8) with (8 * 2).
  change (8 * 2 - 8) with (8 * 1). change (8 * 3 - 24) with (8 * 0).
  rewrite !get_byte_lor, !get_byte_shiftl by first [apply get_byte_range | lia].
  assert (k = 0 \/ k = 1 \/ k = 2 \/ k = 3) as [->|[->|[->| ->]]] by lia; simpl;
    by rewrite ?Z.lor_0_r.
Qed.

Lemma swap64_bytes x k : 0 <= k < 8 -> get_byte (swap64_bits x) k = get_byte x (7 - k).
Proof.
  intros Hk. unfold swap64_bits. swap_bytes.
  change (8 * 0 + 56) with (8 * 7). change (8 * 1 + 40) with (8 * 6).
  change (8 * 2 + 24) with (8 * 5). change (8 * 3 + 8) with (8 * 4).
  change (8 * 4 - 8) with (8 * 3). change (8 * 5 - 24) with (8 * 2).
  change (8 * 6 - 40) with (8 * 1). change (8 * 7 - 56) with (8 * 0).
  rewrite !get_byte_lor, !get_byte_shiftl by first [apply get_byte_range | lia].
  assert (k = 0 \/ k = 1 \/ k = 2 \/ k = 3 \/ k = 4 \/ k = 5 \/ k = 6 \/ k = 7)
    as [->|[->|[->|[->|[->|[->|[->| ->]]]]]]] by lia; simpl; by rewrite ?Z.lor_0_r.
Qed.

(** A byte-reversal on [n]-byte payloads. *)
Definition reverses (n : Z) (val : boxed -> Z) (bswap : boxed -> boxed) : Prop :=
  (forall v k, 0 <= k < n -> get_byte (val (bswap v)) k = get_byte (val v) (n - 1 - k)) /\
  (forall v, val (bswap (bswap v)) = val v).

Lemma reverses_intro n val bswap :
  0 < n -> (forall v, exists x, val v = swrap (8 * n) x) ->
  (forall v k, 0 <= k < n -> get_byte (val (bswap v)) k = get_byte (val v) (n - 1 - k)) ->
  reverses n val bswap.
Proof.
  intros Hn Hval Hb. split; [done|]. intros v.
  destruct (Hval v) as [x Hx]. destruct (Hval (bswap (bswap v))) as [y Hy].
  rewrite <- (swrap_swrap (8 * n) y) in Hy by lia. rewrite <- (swrap_swrap (8 * n) x) in Hx by lia.
  rewrite Hx, Hy. apply swrap_ext, bytes_ext; [lia|]. intros k Hk.
  rewrite !get_byte_swrap by lia.
  transitivity (get_byte (val (bswap (bswap v))) k); [by rewrite Hy, !get_byte_swrap by lia|].
  rewrite !Hb by lia. replace (n - 1 - (n - 1 - k)) with k by lia.
  by rewrite Hx, !get_byte_swrap by lia.
Qed.

(** *** Serialization *)

Lemma be_bytes_length n x : length (be_bytes n x) = n.
Proof. induction n; cbn [be_bytes length]; congruence. Qed.

Lemma be_word_bytes n x acc :
  fold_left (fun acc b => acc * 256 + b) (be_bytes n x) acc =
  acc * 2 ^ (8 * Z.of_nat n) + x mod 2 ^ (8 * Z.of_nat n).
Proof.
  revert acc. induction n as [|n IH]; intros acc.
  { simpl. rewrite Z.mod_1_r. lia. }
  cbn [be_bytes fold_left]. rewrite IH. clear IH.
  change 255 with (Z.ones 8). rewrite Z.land_ones, Z.shiftr_div_pow2 by lia.
  replace (8 * Z.of_nat (S n)) with (8 * Z.of_nat n + 8) by lia.
  rewrite Z.pow_add_r by lia. set (m := 2 ^ (8 * Z.of_nat n)).
  change (2 ^ 8) with 256. assert (0 < m) by (apply pow2_pos; lia).
  rewrite (Z.rem_mul_r x m 256) by lia. lia.
Qed.

Lemma take_be_bytes n x l :
  take_be n (be_bytes n x ++ l) = Ret (wrap (8 * Z.of_nat n) x, l).
Proof.
  unfold take_be. rewrite length_app, be_bytes_length.
  rewrite (proj2 (Nat.leb_le _ _)) by lia.
  rewrite take_app_length', drop_app_length' by by rewrite be_bytes_length.
  unfold be_word. by rewrite be_word_bytes, Z.mul_0_l.
Qed.

#[local] Opaque be_bytes take_be.

(** Byte swapping.  [bswap] on [Int32.t], [Int64.t] and [Nativeint.t]
    reverses the bytes of its argument, and is its own inverse. *)
Theorem bswap_reverses_bytes :
  reverses 4 Int32_val caml_int32_bswap /\
  reverses 8 Int64_val caml_int64_bswap /\
  reverses 8 Nativeint_val caml_nativeint_bswap.
Proof.
  split_and!; (apply reverses_intro; [lia|by eexists|]); intros v k Hk.
  - unfold caml_int32_bswap, Int32_val at 1, caml_copy_int32. simpl.
    rewrite !get_byte_swrap by lia. apply swap32_bytes. lia.
  - unfold caml_int64_bswap, Int64_val at 1, caml_copy_int64. simpl.
    rewrite !get_byte_swrap, swap64_bytes, get_byte_wrap by lia. done.
  - unfold caml_nativeint_bswap, Nativeint_val at 1, caml_copy_nativeint, caml_swap64. simpl.
    rewrite !get_byte_swrap, swap64_bytes, get_byte_wrap by lia. done.
Qed.

(** The custom blocks of the integer types survive marshaling.  Reading
    back what a serializer wrote, in front of any further input, yields the
    payload and leaves exactly that input; a native integer is written on four
    bytes when it fits in 32 bits and on eight otherwise. *)
Theorem boxed_serialize_roundtrip (v : boxed) (rest : list Z) :
  int32_deserialize (int32_serialize v ++ rest) = Ret (Int32_val v, rest) /\
  int64_deserialize (int64_serialize v ++ rest) = Ret (Int64_val v, rest) /\
  nativeint_deserialize (nativeint_serialize v ++ rest) = Ret (Nativeint_val v, rest) /\
  length (nativeint_serialize v) =
    (if (- 2 ^ 31 <=? Nativeint_val v) && (Nativeint_val v <? 2 ^ 31) then 5%nat else 9%nat).
Proof.
  split_and!.
  - unfold int32_deserialize, int32_serialize. rewrite take_be_bytes. simpl.
    unfold Int32_val. by rewrite swrap_wrap, swrap_swrap by lia.
  - unfold int64_deserialize, int64_serialize. rewrite take_be_bytes. simpl.
    unfold Int64_val. by rewrite swrap_wrap, swrap_swrap by lia.
  - unfold nativeint_deserialize, nativeint_serialize. rewrite !Z.shiftl_1_l.
    destruct (_ && _) eqn:E; rewrite <- app_assoc, take_be_bytes;
      [change (wrap (8 * Z.of_nat 1) 1) with 1 | change (wrap (8 * Z.of_nat 1) 2) with 2];
      simpl; rewrite take_be_bytes; simpl.
    + rewrite swrap_wrap, swrap_swrap by lia. by rewrite swrap_small by lia.
    + unfold Nativeint_val. by rewrite swrap_wrap, swrap_swrap by lia.
  - unfold nativeint_serialize. rewrite !Z.shiftl_1_l.
    by destruct (_ && _); rewrite length_app, !be_bytes_length.
Qed.
End Ints.
Export Ints.
