(* ===== verification/Strings.v ===== *)
(** * Strings and byte sequences (runtime/str.c, caml_alloc_string of runtime/alloc.c)

    A string block is a whole number of words.  Its last byte holds the
    number of padding bytes before it, so that the length in bytes can be
    recovered from the block size; the padding itself is zero, so that two
    strings can be compared word by word. *)

From S2P Require Import Prelude Memory.
From Stdlib Require Import Btauto.

Module Strings.

(** ** Allocation *)
Definition caml_alloc_string `{SharedHeap} (h : heap) (len : Z) : result (Z * heap) :=
  let wosize := (len + 8) / 8 in
  '(result, h) ←
    (if wosize <=? Max_young_wosize then Alloc_small h wosize String_tag
     else '(result, h) ← caml_alloc_shr h wosize String_tag;
          result ← caml_check_urgent_gc h result; Ret (result, h));
  h ← Store_field h result (wosize - 1) 0;
  let offset_index := Bsize_wsize wosize - 1 in
  h ← Store_byte h result offset_index (offset_index - len);
  Ret (result, h).

Fixpoint memcpy_bytes (h : heap) (v i : Z) (p : list Z) : result heap :=
  match p with
  | [] => Ret h
  | b :: p => h ← Store_byte h v i b; memcpy_bytes h v (i + 1) p
  end.
Definition caml_alloc_initialized_string `{SharedHeap} (h : heap) (p : list Z) : result (Z * heap) :=
  '(result, h) ← caml_alloc_string h (Z.of_nat (length p));
  h ← memcpy_bytes h result 0 p;
  Ret (result, h).

(** ** Length and access *)
Definition caml_string_length (h : heap) (s : Z) : result Z :=
  bosize ← Bosize_val h s;
  let temp := bosize - 1 in
  pad ← Byte h s temp;
  Ret (u64 (temp - pad)).
Definition caml_ml_string_length (h : heap) (s : Z) : result Z :=
  n ← caml_string_length h s; Ret (Val_long n).

Definition array_bound_error : exn := Invalid_argument "index out of bounds".

Definition caml_create_bytes `{SharedHeap} (h : heap) (len : Z) : result (Z * heap) :=
  let size := u64 (Long_val len) in
  raise_if (Bsize_wsize Max_wosize - 1 <? size) (Invalid_argument "Bytes.create");;
  caml_alloc_string h size.

(** [idx < 0 || idx + k >= caml_string_length(str)] *)
Definition check_bounds (h : heap) (str idx k : Z) : result unit :=
  if idx <? 0 then Raise array_bound_error else
  len ← caml_string_length h str;
  raise_if (len <=? idx + k) array_bound_error.

Definition caml_string_get (h : heap) (str index : Z) : result Z :=
  let idx := Long_val index in
  check_bounds h str idx 0;;
  b ← Byte_u h str idx; Ret (Val_int b).

Definition caml_bytes_set (h : heap) (str index newval : Z) : result heap :=
  let idx := Long_val index in
  check_bounds h str idx 0;;
  Store_byte h str idx (Int_val newval).

Definition caml_string_get16 (h : heap) (str index : Z) : result Z :=
  let idx := Long_val index in
  check_bounds h str idx 1;;
  b1 ← Byte_u h str idx;
  b2 ← Byte_u h str (idx + 1);
  Ret (Val_int (Z.lor (Z.shiftl b2 8) b1)).

(** The 32- and 64-bit readers return the payload handed to
    [caml_copy_int32] and [caml_copy_int64]. *)
Definition caml_string_get32 (h : heap) (str index : Z) : result Z :=
  let idx := Long_val index in
  check_bounds h str idx 3;;
  b1 ← Byte_u h str idx;
  b2 ← Byte_u h str (idx + 1);
  b3 ← Byte_u h str (idx + 2);
  b4 ← Byte_u h str (idx + 3);
  Ret (s32 (Z.lor (Z.lor (Z.lor (Z.shiftl b4 24) (Z.shiftl b3 16)) (Z.shiftl b2 8)) b1)).

Definition caml_string_get64 (h : heap) (str index : Z) : result Z :=
  let idx := Long_val index in
  check_bounds h str idx 7;;
  b1 ← Byte_u h str idx;
  b2 ← Byte_u h str (idx + 1);
  b3 ← Byte_u h str (idx + 2);
  b4 ← Byte_u h str (idx + 3);
  b5 ← Byte_u h str (idx + 4);
  b6 ← Byte_u h str (idx + 5);
  b7 ← Byte_u h str (idx + 6);
  b8 ← Byte_u h str (idx + 7);
  Ret (s64 (Z.lor (Z.lor (Z.lor (Z.lor (Z.lor (Z.lor (Z.lor
        (Z.shiftl b8 56) (Z.shiftl b7 48)) (Z.shiftl b6 40)) (Z.shiftl b5 32))
        (Z.shiftl b4 24)) (Z.shiftl b3 16)) (Z.shiftl b2 8)) b1)).

Definition caml_bytes_set16 (h : heap) (str index newval : Z) : result heap :=
  let idx := Long_val index in
  check_bounds h str idx 1;;
  let val := Long_val newval in
  let b2 := Z.land 0xFF (Z.shiftr val 8) in
  let b1 := Z.land 0xFF val in
  h ← Store_byte h str idx b1;
  Store_byte h str (idx + 1) b2.

(** [val] is the payload of the boxed argument. *)
Definition caml_bytes_set32 (h : heap) (str index val : Z) : result heap :=
  let idx := Long_val index in
  check_bounds h str idx 3;;
  let b4 := Z.land 0xFF (Z.shiftr val 24) in
  let b3 := Z.land 0xFF (Z.shiftr val 16) in
  let b2 := Z.land 0xFF (Z.shiftr val 8) in
  let b1 := Z.land 0xFF val in
  h ← Store_byte h str idx b1;
  h ← Store_byte h str (idx + 1) b2;
  h ← Store_byte h str (idx + 2) b3;
  Store_byte h str (idx + 3) b4.

Definition caml_bytes_set64 (h : heap) (str index val : Z) : result heap :=
  let idx := Long_val index in
  check_bounds h str idx 7;;
  let b8 := Z.land 0xFF (Z.shiftr val 56) in
  let b7 := Z.land 0xFF (Z.shiftr val 48) in
  let b6 := Z.land 0xFF (Z.shiftr val 40) in
  let b5 := Z.land 0xFF (Z.shiftr val 32) in
  let b4 := Z.land 0xFF (Z.shiftr val 24) in
  let b3 := Z.land 0xFF (Z.shiftr val 16) in
  let b2 := Z.land 0xFF (Z.shiftr val 8) in
  let b1 := Z.land 0xFF val in
  h ← Store_byte h str idx b1;
  h ← Store_byte h str (idx + 1) b2;
  h ← Store_byte h str (idx + 2) b3;
  h ← Store_byte h str (idx + 3) b4;
  h ← Store_byte h str (idx + 4) b5;
  h ← Store_byte h str (idx + 5) b6;
  h ← Store_byte h str (idx + 6) b7;
  Store_byte h str (idx + 7) b8.

(** ** Comparison *)

(** The word loop of [caml_string_equal]. *)
Fixpoint equal_words (sz : nat) (h : heap) (p1 p2 : Z) : result bool :=
  match sz with
  | O => Ret true
  | S sz =>
      w1 ← load h p1;
      w2 ← load h p2;
      if negb (w1 =? w2) then Ret false else equal_words sz h (p1 + 8) (p2 + 8)
  end.
Definition caml_string_equal (h : heap) (s1 s2 : Z) : result Z :=
  if s1 =? s2 then Ret Val_true else
  sz1 ← Wosize_val h s1;
  sz2 ← Wosize_val h s2;
  if negb (sz1 =? sz2) then Ret Val_false else
  b ← equal_words (Z.to_nat sz1) h s1 s2;
  Ret (if b : bool then Val_true else Val_false).
Definition caml_string_notequal (h : heap) (s1 s2 : Z) : result Z :=
  v ← caml_string_equal h s1 s2; Ret (Val_not v).

(** C's [memcmp] on [n] bytes from positions [i] of two blocks. *)
Fixpoint memcmp (n : nat) (h : heap) (s1 s2 i : Z) : result Z :=
  match n with
  | O => Ret 0
  | S n =>
      b1 ← Byte_u h s1 i;
      b2 ← Byte_u h s2 i;
      if b1 <? b2 then Ret (-1) else if b2 <? b1 then Ret 1 else memcmp n h s1 s2 (i + 1)
  end.
Definition caml_string_compare (h : heap) (s1 s2 : Z) : result Z :=
  if s1 =? s2 then Ret (Val_int 0) else
  len1 ← caml_string_length h s1;
  len2 ← caml_string_length h s2;
  res ← memcmp (Z.to_nat (if len1 <=? len2 then len1 else len2)) h s1 s2 0;
  if res <? 0 then Ret (Val_int (-1)) else
  if 0 <? res then Ret (Val_int 1) else
  if len1 <? len2 then Ret (Val_int (-1)) else
  if len2 <? len1 then Ret (Val_int 1) else
  Ret (Val_int 0).
Definition caml_string_lessthan (h : heap) (s1 s2 : Z) : result Z :=
  c ← caml_string_compare h s1 s2; Ret (if c <? Val_int 0 then Val_true else Val_false).
Definition caml_string_lessequal (h : heap) (s1 s2 : Z) : result Z :=
  c ← caml_string_compare h s1 s2; Ret (if c <=? Val_int 0 then Val_true else Val_false).
Definition caml_string_greaterthan (h : heap) (s1 s2 : Z) : result Z :=
  c ← caml_string_compare h s1 s2; Ret (if Val_int 0 <? c then Val_true else Val_false).
Definition caml_string_greaterequal (h : heap) (s1 s2 : Z) : result Z :=
  c ← caml_string_compare h s1 s2; Ret (if Val_int 0 <=? c then Val_true else Val_false).

(** ** Block operations *)
Fixpoint read_bytes (n : nat) (h : heap) (v i : Z) : result (list Z) :=
  match n with
  | O => Ret []
  | S n => b ← Byte_u h v i; l ← read_bytes n h v (i + 1); Ret (b :: l)
  end.
(** [memmove] copies as if through a temporary buffer. *)
Definition caml_blit_bytes (h : heap) (s1 ofs1 s2 ofs2 n : Z) : result heap :=
  buf ← read_bytes (Z.to_nat (Long_val n)) h s1 (Long_val ofs1);
  memcpy_bytes h s2 (Long_val ofs2) buf.
Definition caml_fill_bytes (h : heap) (s offset len init : Z) : result heap :=
  memcpy_bytes h s (Long_val offset) (replicate (Z.to_nat (Long_val len)) (Int_val init)).

(** ** Representation *)

Definition str_len (bs : list Z) : Z := Z.of_nat (length bs).
Definition str_wosize (len : Z) : Z := (len + 8) / 8.
Definition is_byte (b : Z) : Prop := 0 <= b < 256.

(** Byte [i] of the block of a string: its characters, zeros, and the count
    of padding bytes at the end. *)
Definition padded (bs : list Z) (i : Z) : Z :=
  let last := 8 * str_wosize (str_len bs) - 1 in
  if i <? str_len bs then bs !!! Z.to_nat i
  else if i =? last then last - str_len bs else 0.

Record string_at (h : heap) (s : Z) (bs : list Z) : Prop := {
  sa_bytes : Forall is_byte bs;
  sa_small : str_len bs < 2 ^ 56;
  sa_tag : Tag_val h s = Ret String_tag;
  sa_size : Wosize_val h s = Ret (str_wosize (str_len bs));
  sa_words : forall i, 0 <= i < str_wosize (str_len bs) -> exists w, Field h s i = Ret w /\ is_word w;
  sa_content : forall i, 0 <= i < 8 * str_wosize (str_len bs) -> Byte_u h s i = Ret (padded bs i);
}.

Lemma str_wosize_bounds len :
  0 <= len -> 0 < str_wosize len /\ len + 1 <= 8 * str_wosize len <= len + 8.
Proof.
  intros. unfold str_wosize. pose proof (Z.div_mod (len + 8) 8 ltac:(lia)).
  pose proof (Z.mod_pos_bound (len + 8) 8 ltac:(lia)). lia.
Qed.

Lemma str_len_nonneg bs : 0 <= str_len bs.
Proof. unfold str_len. lia. Qed.
#[local] Hint Resolve str_len_nonneg : words.

Lemma padded_char bs i : 0 <= i < str_len bs -> bs !! Z.to_nat i = Some (padded bs i).
Proof.
  intros Hi. unfold padded. rewrite (proj2 (Z.ltb_lt _ _)) by lia.
  apply list_lookup_lookup_total_lt. unfold str_len in Hi. lia.
Qed.

Lemma s8_small b : 0 <= b < 128 -> s8 b = b.
Proof. intros. apply swrap_small; lia. Qed.

Lemma string_length_spec h s bs : string_at h s bs -> caml_string_length h s = Ret (str_len bs).
Proof.
  intros [Hb Hs Ht Hz Hw Hc]. pose proof (str_wosize_bounds (str_len bs) ltac:(auto with words)) as [Hp Hl].
  unfold caml_string_length, Bosize_val. rewrite Hz. simpl. unfold Bsize_wsize.
  set (last := str_wosize (str_len bs) * 8 - 1).
  assert (0 <= last < 8 * str_wosize (str_len bs)) as Hlast by lia.
  unfold Byte. rewrite (Hc last Hlast). simpl.
  assert (padded bs last = last - str_len bs) as ->.
  { unfold padded. rewrite (proj2 (Z.ltb_ge _ _)) by lia.
    rewrite (proj2 (Z.eqb_eq _ _)) by lia. lia. }
  rewrite s8_small by lia. f_equal. rewrite wrap_small; [lia|].
  pose proof (str_len_nonneg bs). lia.
Qed.

(** *** Byte stores *)

Lemma byte_addr_inj v i j :
  v + 8 * (i / 8) = v + 8 * (j / 8) -> i mod 8 = j mod 8 -> i = j.
Proof.
  intros. pose proof (Z.div_mod i 8 ltac:(lia)). pose proof (Z.div_mod j 8 ltac:(lia)). lia.
Qed.

Lemma Byte_u_Store_byte h v i b h' j :
  Store_byte h v i b = Ret h' ->
  Byte_u h' v j = if j =? i then Ret (Z.land b 255) else Byte_u h v j.
Proof.
  intros E. unfold Store_byte in E. inv_bind. unfold Byte_u.
  pose proof (Z.mod_pos_bound i 8 ltac:(lia)). pose proof (Z.mod_pos_bound j 8 ltac:(lia)).
  destruct (decide (v + 8 * (j / 8) = v + 8 * (i / 8))) as [Ea|Ea].
  - rewrite Ea, (load_store_eq _ _ _ _ F), E0. simpl.
    rewrite get_byte_swrap by lia. destruct (Z.eqb_spec j i) as [->|Hne].
    + by rewrite get_set_byte_eq by lia.
    + rewrite get_set_byte_ne; [done|lia..|]. intros Em. apply Hne.
      by eapply (byte_addr_inj v).
  - rewrite (load_store_ne _ _ _ _ _ F) by done.
    destruct (Z.eqb_spec j i) as [->|]; [done|]. done.
Qed.

Lemma Store_byte_Ret h v i b w :
  Field h v (i / 8) = Ret w -> is_word w ->
  exists h', Store_byte h v i b = Ret h' /\
    (forall a, a <> v + 8 * (i / 8) -> load h' a = load h a) /\
    (exists w', load h' (v + 8 * (i / 8)) = Ret w' /\ is_word w').
Proof.
  intros Hf Hw. unfold Store_byte, Field in *. rewrite Hf. simpl.
  rewrite (store_Ret _ _ _ _ Hf). eexists. split; [done|]. split.
  - intros a Ha. unfold load. simpl. by rewrite lookup_insert_ne.
  - eexists. unfold load. simpl. rewrite lookup_insert_eq. split; [done|].
    apply (swrap_range 64); lia.
Qed.

Lemma div8_bounds i n : 0 <= i < 8 * n -> 0 <= i / 8 < n.
Proof.
  intros. pose proof (Z.div_mod i 8 ltac:(lia)). pose proof (Z.mod_pos_bound i 8 ltac:(lia)). lia.
Qed.

Lemma land_255_byte b : is_byte (Z.land b 255).
Proof. unfold is_byte. change 255 with (Z.ones 8). rewrite Z.land_ones by lia. apply Z.mod_pos_bound. lia. Qed.

Lemma header_kept h h' v n :
  0 <= n -> (forall a, (forall i, 0 <= i < n -> a <> v + 8 * i) -> load h' a = load h a) ->
  Tag_val h' v = Tag_val h v /\ Wosize_val h' v = Wosize_val h v.
Proof.
  intros Hn Hl. unfold Tag_val, Wosize_val, Hd_val. rewrite Hl; [done|]. lia.
Qed.

(** Storing one character of a string. *)
Lemma Store_byte_string h s bs i b :
  string_at h s bs -> 0 <= i < str_len bs ->
  exists h', Store_byte h s i b = Ret h' /\
    string_at h' s (<[Z.to_nat i := Z.land b 255]> bs) /\
    (forall a, (forall k, 0 <= k < str_wosize (str_len bs) -> a <> s + 8 * k) -> load h' a = load h a).
Proof.
  intros Hs Hi. pose proof (str_wosize_bounds (str_len bs) ltac:(auto with words)) as [Hp Hl].
  destruct Hs as [Hb Hsm Ht Hz Hw Hc].
  pose proof (div8_bounds i (str_wosize (str_len bs)) ltac:(lia)) as Hk.
  destruct (Hw _ Hk) as (w & Hf & Hiw).
  destruct (Store_byte_Ret h s i b w Hf Hiw) as (h' & E & Hne & w' & Hw' & Hiw').
  exists h'. split; [done|].
  assert (Hframe : forall a, (forall k, 0 <= k < str_wosize (str_len bs) -> a <> s + 8 * k) -> load h' a = load h a).
  { intros a Ha. apply Hne, Ha. lia. }
  split; [|done].
  edestruct (header_kept h h' s (str_wosize (str_len bs))) as [Et Ez]; [lia|exact Hframe|].
  assert (str_len (<[Z.to_nat i := Z.land b 255]> bs) = str_len bs) as Elen
    by (unfold str_len; by rewrite length_insert).
  split; rewrite ?Elen; rewrite ?Et, ?Ez; try done.
  - apply Forall_insert; [done|apply land_255_byte].
  - intros k Hk'. destruct (decide (k = i / 8)) as [->|Hki].
    + by exists w'.
    + destruct (Hw k Hk') as (x & Hx & ?). exists x. split; [|done].
      unfold Field in *. rewrite Hne by lia. done.
  - intros j Hj. rewrite (Byte_u_Store_byte _ _ _ _ _ j E), Hc by done.
    unfold padded. rewrite Elen. destruct (Z.eqb_spec j i) as [->|Hji].
    + rewrite (proj2 (Z.ltb_lt _ _)) by lia.
      by rewrite list_lookup_total_insert_eq by (unfold str_len in Hi; lia).
    + destruct (Z.ltb_spec j (str_len bs)); [|done].
      by rewrite list_lookup_total_insert_ne by lia.
Qed.

Definition bytes (l : list Z) : list Z := (fun b => Z.land b 255) <$> l.

Lemma memcpy_bytes_string p : forall h s bs i,
  string_at h s bs -> 0 <= i -> i + str_len p <= str_len bs ->
  exists h', memcpy_bytes h s i p = Ret h' /\
    string_at h' s (list_inserts (Z.to_nat i) (bytes p) bs) /\
    (forall a, (forall k, 0 <= k < str_wosize (str_len bs) -> a <> s + 8 * k) -> load h' a = load h a).
Proof.
  induction p as [|b p IH]; intros h s bs i Hs Hi Hl; simpl.
  { by exists h. }
  unfold str_len in Hl. simpl in Hl.
  destruct (Store_byte_string h s bs i b Hs) as (h1 & -> & Hs1 & Hf1); [unfold str_len; lia|]. simpl.
  assert (str_len (<[Z.to_nat i := Z.land b 255]> bs) = str_len bs) as Elen
    by (unfold str_len; by rewrite length_insert).
  destruct (IH h1 s _ (i + 1) Hs1) as (h2 & -> & Hs2 & Hf2); [lia|rewrite Elen; unfold str_len; lia|].
  rewrite Elen in Hf2. exists h2. split_and!; [done| |].
  - replace (Z.to_nat (i + 1)) with (S (Z.to_nat i)) in Hs2 by lia.
    by rewrite <- list_insert_inserts_lt in Hs2 by lia.
  - intros a Ha. by rewrite Hf2, Hf1.
Qed.

(** *** Allocation *)

(** The characters a freshly allocated string happens to hold. *)
Definition contents (h : heap) (v len : Z) : list Z :=
  (fun i => match Byte_u h v i with Ret b => b | _ => 0 end) <$> seqZ 0 len.

Lemma Byte_u_range h v i b : Byte_u h v i = Ret b -> is_byte b.
Proof. unfold Byte_u. intros E. inv_bind. subst. apply get_byte_range. Qed.

Lemma contents_len h v len : 0 <= len -> str_len (contents h v len) = len.
Proof. intros. unfold str_len, contents. rewrite length_fmap, length_seqZ. lia. Qed.

Lemma string_of_block h s len :
  0 <= len < 2 ^ 56 ->
  Tag_val h s = Ret String_tag -> Wosize_val h s = Ret (str_wosize len) ->
  (forall i, 0 <= i < str_wosize len -> exists w, Field h s i = Ret w /\ is_word w) ->
  (forall i, len <= i < 8 * str_wosize len - 1 -> Byte_u h s i = Ret 0) ->
  Byte_u h s (8 * str_wosize len - 1) = Ret (8 * str_wosize len - 1 - len) ->
  string_at h s (contents h s len).
Proof.
  intros Hlen Ht Hz Hw Hpad Hlast. pose proof (str_wosize_bounds len ltac:(lia)) as [Hp Hl].
  pose proof (contents_len h s len ltac:(lia)) as El.
  split; rewrite ?El; try done; try lia.
  - unfold contents. apply Forall_fmap, Forall_forall. intros i _. simpl.
    destruct (Byte_u h s i) eqn:E; try (split; lia). by eapply Byte_u_range.
  - intros i Hi. unfold padded. rewrite El. destruct (Z.ltb_spec i len).
    + destruct (Hw (i / 8)) as (w & Hf & _); [apply div8_bounds; lia|].
      unfold contents. erewrite list_lookup_total_correct.
      2:{ rewrite list_lookup_fmap, lookup_seqZ_lt by lia. simpl. reflexivity. }
      replace (0 + Z.of_nat (Z.to_nat i)) with i by lia.
      unfold Byte_u at 1 2. unfold Field in Hf. by rewrite Hf.
    + destruct (Z.eqb_spec i (8 * str_wosize len - 1)) as [->|]; [done|]. apply Hpad. lia.
Qed.

(** The last word and the padding count turn a block into a string. *)
Lemma string_block_init h1 v len :
  0 <= len < 2 ^ 56 -> Tag_val h1 v = Ret String_tag -> Wosize_val h1 v = Ret (str_wosize len) ->
  (forall i, 0 <= i < str_wosize len -> exists w, Field h1 v i = Ret w /\ is_word w) ->
  exists h2 h3, Store_field h1 v (str_wosize len - 1) 0 = Ret h2 /\
    Store_byte h2 v (Bsize_wsize (str_wosize len) - 1) (Bsize_wsize (str_wosize len) - 1 - len) = Ret h3 /\
    string_at h3 v (contents h3 v len) /\
    (forall a, (forall i, 0 <= i < str_wosize len -> a <> v + 8 * i) -> load h3 a = load h1 a).
Proof.
  intros Hlen Ht Hz Hm. pose proof (str_wosize_bounds len ltac:(lia)) as [Hp Hl].
  set (n := str_wosize len) in *. unfold Bsize_wsize.
  destruct (Hm (n - 1)) as (w0 & Hw0 & _); [lia|].
  unfold Store_field. unfold Field in Hw0. rewrite (store_Ret _ _ _ _ Hw0).
  set (h2 := set_words _ h1). exists h2.
  assert (Hl2 : forall a, load h2 a = if a =? v + 8 * (n - 1) then Ret 0 else load h1 a).
  { intros a. unfold h2, load. simpl. destruct (Z.eqb_spec a (v + 8 * (n - 1))) as [->|].
    - by rewrite lookup_insert_eq.
    - by rewrite lookup_insert_ne. }
  assert ((n * 8 - 1) / 8 = n - 1) as Hdiv by (symmetry; apply (Z.div_unique _ _ _ 7); lia).
  destruct (Store_byte_Ret h2 v (n * 8 - 1) (n * 8 - 1 - len) 0) as (h3 & E & Hne & w' & Hw' & Hiw').
  { unfold Field. rewrite Hdiv, Hl2, Z.eqb_refl. done. }
  { unfold is_word. lia. }
  rewrite Hdiv in *. exists h3. split_and!; try done.
  - edestruct (header_kept h1 h3 v n) as [Et Ez]; [lia| |].
    { intros a Ha. rewrite Hne by (apply Ha; lia). rewrite Hl2.
      by rewrite (proj2 (Z.eqb_neq _ _)) by (apply Ha; lia). }
    apply string_of_block; [lia|by rewrite Et|by rewrite Ez|..]; fold n.
    + intros i Hi. destruct (decide (i = n - 1)) as [->|Hin]; [by exists w'|].
      destruct (Hm i Hi) as (x & Hx & ?). exists x. split; [|done].
      unfold Field in *. rewrite Hne, Hl2, (proj2 (Z.eqb_neq _ _)) by lia. done.
    + intros i Hi. rewrite (Byte_u_Store_byte _ _ _ _ _ i E), (proj2 (Z.eqb_neq _ _)) by lia.
      unfold Byte_u. rewrite Hl2.
      replace (i / 8) with (n - 1) by (apply (Z.div_unique _ _ _ (i - 8 * (n - 1))); lia).
      rewrite Z.eqb_refl. simpl. unfold get_byte. by rewrite Z.shiftr_0_l.
    + rewrite (Byte_u_Store_byte _ _ _ _ _ _ E), (proj2 (Z.eqb_eq _ _)) by lia.
      f_equal. change 255 with (Z.ones 8). rewrite Z.land_ones, Z.mod_small by lia. lia.
  - intros a Ha. rewrite Hne by (apply Ha; lia). by rewrite Hl2, (proj2 (Z.eqb_neq _ _)) by (apply Ha; lia).
Qed.

Lemma alloc_string_block h h1 v len :
  0 <= len < 2 ^ 56 -> fresh_block h h1 v (str_wosize len) String_tag ->
  exists h2 h3, Store_field h1 v (str_wosize len - 1) 0 = Ret h2 /\
    Store_byte h2 v (Bsize_wsize (str_wosize len) - 1) (Bsize_wsize (str_wosize len) - 1 - len) = Ret h3 /\
    string_at h3 v (contents h3 v len) /\
    (forall a, (forall i, -1 <= i < str_wosize len -> a <> v + 8 * i) -> load h3 a = load h a).
Proof.
  intros Hlen [Hal Hsz Hfree Ht Hz Hm Hfr].
  destruct (string_block_init h1 v len Hlen Ht Hz Hm) as (h2 & h3 & E2 & E3 & Hs & Hl).
  exists h2, h3. split_and!; try done. intros a Ha. rewrite Hl by (intros i Hi; apply Ha; lia).
  unfold load. by rewrite Hfr.
Qed.

(** The three outcomes of an allocation: a block, a full minor heap (the
    collector runs and the allocation is retried), a full major heap. *)
Definition alloc_outcome (h : heap) (n : Z) (r : result (Z * heap)) (P : Z -> heap -> Prop) : Prop :=
  match r with
  | Ret (v, h') => P v h'
  | Pending => young_ptr h - 8 * (n + 1) < young_limit h
  | Raise e => e = Out_of_memory /\ Max_young_wosize < n
  | _ => False
  end.

Lemma alloc_either `{SH : SharedHeap, !SharedHeapOk SH} h n tag :
  heap_ok h -> 0 <= n < 2 ^ 54 -> 0 <= tag < 256 ->
  alloc_outcome h n
    (if n <=? Max_young_wosize then Alloc_small h n tag
     else '(result, h) ← caml_alloc_shr h n tag;
          result ← caml_check_urgent_gc h result; Ret (result, h))
    (fun v h' => fresh_block h h' v n tag).
Proof.
  intros Hok Hn Ht. destruct (Z.leb_spec n Max_young_wosize) as [Hs|Hb].
  - destruct (Alloc_small h n tag) as [[v h']|e| | |] eqn:E; unfold Alloc_small in E;
      destruct (caml_check_gc_interrupt _) eqn:G; try done; simpl.
    + eapply (Alloc_small_fresh _ _ _ _ _ Hok Hn Ht). unfold Alloc_small. by rewrite G.
    + unfold caml_check_gc_interrupt, Bsize_wsize, Whsize_wosize in G. simpl in G. lia.
  - destruct (caml_alloc_shr h n tag) as [[v h']|e| | |] eqn:E; pose proof E as E';
      unfold caml_alloc_shr in E; destruct (caml_shared_try_alloc h n); simplify_eq; simpl; [|done].
    unfold caml_check_urgent_gc, caml_check_gc_interrupt. simpl.
    destruct (Z.ltb_spec (young_ptr h) (young_limit h)); simpl; [lia|].
    by eapply caml_alloc_shr_fresh.
Qed.

Lemma words_subseteq h h' :
  (forall a w, load h a = Ret w -> load h' a = Ret w) -> words h ⊆ words h'.
Proof.
  intros Hl. apply map_subseteq_spec. intros a w Ha. specialize (Hl a w). unfold load in Hl.
  rewrite Ha in Hl. simpl in Hl. specialize (Hl eq_refl). destruct (words h' !! a); by simplify_eq/=.
Qed.

Lemma load_free h a w : words h !! a = None -> load h a = Ret w -> False.
Proof. unfold load. by intros ->. Qed.

Lemma alloc_string_spec `{SH : SharedHeap, !SharedHeapOk SH} h len :
  heap_ok h -> 0 <= len < 2 ^ 56 ->
  alloc_outcome h (str_wosize len) (caml_alloc_string h len) (fun v h' =>
    string_at h' v (contents h' v len) /\ words h ⊆ words h' /\
    forall i, -1 <= i < str_wosize len -> words h !! (v + 8 * i) = None).
Proof.
  intros Hok Hlen. unfold caml_alloc_string. fold (str_wosize len).
  pose proof (str_wosize_bounds len ltac:(lia)) as [Hp Hl].
  pose proof (alloc_either h (str_wosize len) String_tag Hok ltac:(lia) ltac:(done)) as Ha.
  destruct (if _ <=? _ then _ else _) as [[v h1]|e| | |]; simpl in *; try done.
  destruct (alloc_string_block h h1 v len ltac:(lia) Ha) as (h2 & h3 & -> & E3 & Hs & Hf).
  simpl. rewrite E3. simpl. split_and!; [done| |apply (fb_free _ _ _ _ _ Ha)].
  apply words_subseteq. intros a w Hw. rewrite Hf; [done|].
  intros i Hi ->. eapply load_free; [apply (fb_free _ _ _ _ _ Ha i Hi)|done].
Qed.

Lemma bytes_id p : Forall is_byte p -> bytes p = p.
Proof.
  intros Hp. unfold bytes. rewrite <- (list_fmap_id p) at 2. apply list_fmap_ext.
  intros i b Hb. simpl. rewrite Forall_lookup in Hp. apply Hp in Hb.
  change 255 with (Z.ones 8). rewrite Z.land_ones by lia. apply Z.mod_small. unfold is_byte in Hb. lia.
Qed.

Lemma list_inserts_all {A} (k l : list A) : length k = length l -> list_inserts 0 k l = k.
Proof. intros E. rewrite <- (app_nil_r k) at 1. by apply list_inserts_0_l. Qed.

(** *** Comparison *)

Lemma load_byte h v i w : load h (v + 8 * (i / 8)) = Ret w -> Byte_u h v i = Ret (get_byte w (i mod 8)).
Proof. intros E. unfold Byte_u. by rewrite E. Qed.

(** Two blocks agree on the bytes of word [k] iff they agree on the word. *)
Lemma word_bytes_eq h v1 v2 k w1 w2 :
  is_word w1 -> is_word w2 -> load h (v1 + 8 * k) = Ret w1 -> load h (v2 + 8 * k) = Ret w2 ->
  (forall j, 8 * k <= j < 8 * k + 8 -> Byte_u h v1 j = Byte_u h v2 j) <-> w1 = w2.
Proof.
  intros H1 H2 L1 L2. split.
  - intros Hj. apply word_ext; [done..|]. intros i Hi. specialize (Hj (8 * k + i) ltac:(lia)).
    assert ((8 * k + i) / 8 = k) as Hd by (symmetry; apply (Z.div_unique _ _ _ i); lia).
    assert ((8 * k + i) mod 8 = i) as Hm by (symmetry; apply (Z.mod_unique _ _ k); lia).
    rewrite (load_byte _ _ _ w1), (load_byte _ _ _ w2), Hm in Hj; rewrite ?Hd; try done.
    by injection Hj.
  - intros -> j Hj.
    assert (j / 8 = k) as Hd by (symmetry; apply (Z.div_unique _ _ _ (j - 8 * k)); lia).
    by rewrite (load_byte _ _ _ w2), (load_byte _ _ _ w2) by by rewrite Hd.
Qed.

Lemma equal_words_spec n : forall h p1 p2,
  (forall k, 0 <= k < Z.of_nat n -> exists w1 w2,
     load h (p1 + 8 * k) = Ret w1 /\ load h (p2 + 8 * k) = Ret w2 /\ is_word w1 /\ is_word w2) ->
  exists b : bool, equal_words n h p1 p2 = Ret b /\
    (b = true <-> forall j, 0 <= j < 8 * Z.of_nat n -> Byte_u h p1 j = Byte_u h p2 j).
Proof.
  induction n as [|n IH]; intros h p1 p2 Hm; simpl.
  { exists true. split; [done|]. split; [lia|done]. }
  destruct (Hm 0) as (w1 & w2 & L1 & L2 & H1 & H2); [lia|].
  pose proof (word_bytes_eq h p1 p2 0 w1 w2 H1 H2 L1 L2) as Hw.
  rewrite Z.mul_0_r, Z.add_0_r in L1, L2. rewrite L1, L2. simpl.
  destruct (Z.eqb_spec w1 w2) as [Heq|Hne]; simpl.
  - destruct (IH h (p1 + 8) (p2 + 8)) as (b & -> & Hb).
    { intros k Hk. destruct (Hm (k + 1)) as (x & y & ?); [lia|]. exists x, y.
      by replace (p1 + 8 + 8 * k) with (p1 + 8 * (k + 1)) by lia;
         replace (p2 + 8 + 8 * k) with (p2 + 8 * (k + 1)) by lia. }
    exists b. split; [done|]. rewrite Hb.
    assert (Hshift : forall p j, Byte_u h (p + 8) j = Byte_u h p (j + 8)).
    { intros p j. unfold Byte_u. replace ((j + 8) / 8) with (j / 8 + 1)
        by (rewrite <- (Z.div_add j 1 8) by lia; f_equal; lia).
      replace ((j + 8) mod 8) with (j mod 8)
        by (rewrite <- (Z_mod_plus_full j 1 8); f_equal; lia).
      by replace (p + 8 + 8 * (j / 8)) with (p + 8 * (j / 8 + 1)) by lia. }
    split; intros Hj j Hr.
    + destruct (Z_lt_le_dec j 8).
      * apply (proj2 Hw Heq). lia.
      * specialize (Hj (j - 8) ltac:(lia)). rewrite !Hshift in Hj.
        by replace (j - 8 + 8) with j in Hj by lia.
    + rewrite !Hshift. apply Hj. lia.
  - exists false. split; [done|]. split; [done|]. intros Hj. exfalso. apply Hne, Hw.
    intros j Hr. apply Hj. lia.
Qed.

Lemma str_len_wosize bs1 bs2 :
  (forall i, 0 <= i < 8 * str_wosize (str_len bs1) -> padded bs1 i = padded bs2 i) ->
  str_wosize (str_len bs1) = str_wosize (str_len bs2) -> bs1 = bs2.
Proof.
  intros Hp Hz. pose proof (str_wosize_bounds (str_len bs1) (str_len_nonneg _)) as [Hp1 Hl1].
  pose proof (str_wosize_bounds (str_len bs2) (str_len_nonneg _)) as [Hp2 Hl2].
  assert (Hlen : str_len bs1 = str_len bs2).
  { specialize (Hp (8 * str_wosize (str_len bs1) - 1) ltac:(lia)). unfold padded in Hp.
    rewrite Hz in *. rewrite !(proj2 (Z.ltb_ge _ _)), Z.eqb_refl in Hp by lia. lia. }
  apply list_eq. intros i. destruct (decide (i < length bs1)%nat) as [Hi|Hi].
  - assert (0 <= Z.of_nat i < str_len bs1) by (unfold str_len in *; lia).
    rewrite <- (Nat2Z.id i), !padded_char by lia. f_equal. apply Hp. lia.
  - rewrite !lookup_ge_None_2; unfold str_len in *; lia || done.
Qed.

(** Lexicographic order on byte sequences, the reference of [compare]. *)
Fixpoint lex_compare (l1 l2 : list Z) : Z :=
  match l1, l2 with
  | [], [] => 0
  | [], _ :: _ => -1
  | _ :: _, [] => 1
  | a :: l1, b :: l2 => if a <? b then -1 else if b <? a then 1 else lex_compare l1 l2
  end.

Lemma lex_compare_refl l : lex_compare l l = 0.
Proof. induction l; simpl; [done|]. by rewrite Z.ltb_irrefl. Qed.
Lemma lex_compare_eq l1 l2 : lex_compare l1 l2 = 0 <-> l1 = l2.
Proof.
  split; [|intros ->; apply lex_compare_refl].
  revert l2. induction l1 as [|a l1 IH]; intros [|b l2]; simpl; try done.
  case_tests; try done; intros E; f_equal; [lia|by apply IH].
Qed.
Lemma lex_compare_antisym l1 l2 : lex_compare l2 l1 = - lex_compare l1 l2.
Proof.
  revert l2. induction l1 as [|a l1 IH]; intros [|b l2]; simpl; try done.
  case_tests; try done; lia.
Qed.
Lemma lex_compare_trans l1 l2 l3 :
  lex_compare l1 l2 <= 0 -> lex_compare l2 l3 <= 0 -> lex_compare l1 l3 <= 0.
Proof.
  revert l2 l3. induction l1 as [|a l1 IH]; intros [|b l2] [|c l3]; simpl; try done.
  case_tests; try lia; apply IH.
Qed.
Lemma lex_compare_range l1 l2 : lex_compare l1 l2 = -1 \/ lex_compare l1 l2 = 0 \/ lex_compare l1 l2 = 1.
Proof.
  revert l2. induction l1 as [|a l1 IH]; intros [|b l2]; simpl; auto. case_tests; auto.
Qed.

(** [memcmp] on the common prefix, then the lengths, is that order. *)
Lemma memcmp_spec n : forall h s1 s2 i l1 l2,
  (forall j b, l1 !! j = Some b -> Byte_u h s1 (i + Z.of_nat j) = Ret b) ->
  (forall j b, l2 !! j = Some b -> Byte_u h s2 (i + Z.of_nat j) = Ret b) ->
  n = Nat.min (length l1) (length l2) ->
  exists r, memcmp n h s1 s2 i = Ret r /\
    lex_compare l1 l2 =
      (if r <? 0 then -1 else if 0 <? r then 1
       else if str_len l1 <? str_len l2 then -1 else if str_len l2 <? str_len l1 then 1 else 0).
Proof.
  induction n as [|n IH]; intros h s1 s2 i [|a l1] [|b l2] H1 H2 En; simpl in En; try done; simpl;
    try (exists 0; split; [done|]; unfold str_len; simpl; case_tests; lia || done).
  pose proof (H1 0%nat a eq_refl) as Ha. pose proof (H2 0%nat b eq_refl) as Hb.
  rewrite Z.add_0_r in Ha, Hb. rewrite Ha, Hb. simpl.
  destruct (Z.ltb_spec a b); [by exists (-1)|]. destruct (Z.ltb_spec b a); [by exists 1|].
  destruct (IH h s1 s2 (i + 1) l1 l2) as (r & -> & ->).
  - intros j x Hj. rewrite <- (H1 (S j) x Hj). f_equal. lia.
  - intros j x Hj. rewrite <- (H2 (S j) x Hj). f_equal. lia.
  - congruence.
  - exists r. split; [done|]. unfold str_len. simpl length. case_tests; lia || done.
Qed.

Lemma string_byte h s bs j b :
  string_at h s bs -> bs !! j = Some b -> Byte_u h s (0 + Z.of_nat j) = Ret b.
Proof.
  intros Hs Hj. pose proof (lookup_lt_Some _ _ _ Hj) as Hlt.
  pose proof (str_wosize_bounds (str_len bs) (str_len_nonneg _)) as [Hp Hl].
  rewrite (sa_content _ _ _ Hs) by (unfold str_len in *; lia). f_equal.
  apply (inj Some). rewrite <- padded_char by (unfold str_len; lia).
  by replace (Z.to_nat (0 + Z.of_nat j)) with j by lia.
Qed.

(** *** Bounds *)

Lemma check_bounds_spec h s bs idx k :
  string_at h s bs ->
  check_bounds h s idx k =
  if (idx <? 0) || (str_len bs <=? idx + k) then Raise array_bound_error else Ret ().
Proof.
  intros Hs. unfold check_bounds. destruct (Z.ltb_spec idx 0); [done|].
  by rewrite (string_length_spec _ _ _ Hs).
Qed.

(** The little-endian encoding of the multi-byte accessors. *)
Definition le_bytes (n : nat) (val : Z) : list Z :=
  (fun k => get_byte val k) <$> seqZ 0 (Z.of_nat n).
Definition le_word (l : list Z) : Z := foldr (fun b acc => Z.lor b (Z.shiftl acc 8)) 0 l.

(** The accessors of [n] bytes, as the bounds check followed by the transfer
    of [n] consecutive bytes. *)
Lemma set16_memcpy h s idx newval :
  caml_bytes_set16 h s idx newval =
  (check_bounds h s (Long_val idx) 1;; memcpy_bytes h s (Long_val idx) (le_bytes 2 (Long_val newval))).
Proof.
  unfold caml_bytes_set16. destruct (check_bounds _ _ _ _); try done. simpl.
  unfold get_byte. rewrite !(Z.land_comm 255), ?Z.mul_0_r, Z.shiftr_0_r.
  destruct (Store_byte h s (Long_val idx) _); try done. simpl. by destruct (Store_byte _ _ _ _).
Qed.

Lemma set32_memcpy h s idx val :
  caml_bytes_set32 h s idx val =
  (check_bounds h s (Long_val idx) 3;; memcpy_bytes h s (Long_val idx) (le_bytes 4 val)).
Proof.
  unfold caml_bytes_set32. destruct (check_bounds _ _ _ _); try done. simpl.
  unfold get_byte. rewrite !(Z.land_comm 255), ?Z.mul_0_r, Z.shiftr_0_r.
  rewrite <- !Z.add_assoc. simpl.
  repeat (destruct (Store_byte _ _ _ _); try done; simpl).
Qed.

Lemma set64_memcpy h s idx val :
  caml_bytes_set64 h s idx val =
  (check_bounds h s (Long_val idx) 7;; memcpy_bytes h s (Long_val idx) (le_bytes 8 val)).
Proof.
  unfold caml_bytes_set64. destruct (check_bounds _ _ _ _); try done. simpl.
  unfold get_byte. rewrite !(Z.land_comm 255), ?Z.mul_0_r, Z.shiftr_0_r.
  rewrite <- !Z.add_assoc. simpl.
  repeat (destruct (Store_byte _ _ _ _); try done; simpl).
Qed.

Lemma le_word_cons b l : le_word (b :: l) = Z.lor (Z.shiftl (le_word l) 8) b.
Proof. apply Z.lor_comm. Qed.
Lemma le_word_nil : le_word [] = 0.
Proof. done. Qed.
Lemma le_word_2 b1 b2 : Z.lor (Z.shiftl b2 8) b1 = le_word [b1; b2].
Proof. by rewrite !le_word_cons, le_word_nil, Z.shiftl_0_l, Z.lor_0_l. Qed.
Lemma le_word_4 b1 b2 b3 b4 :
  Z.lor (Z.lor (Z.lor (Z.shiftl b4 24) (Z.shiftl b3 16)) (Z.shiftl b2 8)) b1 = le_word [b1; b2; b3; b4].
Proof.
  rewrite !le_word_cons, le_word_nil, Z.shiftl_0_l, Z.lor_0_l.
  by rewrite !Z.shiftl_lor, !Z.shiftl_shiftl by lia.
Qed.
Lemma le_word_8 b1 b2 b3 b4 b5 b6 b7 b8 :
  Z.lor (Z.lor (Z.lor (Z.lor (Z.lor (Z.lor (Z.lor
        (Z.shiftl b8 56) (Z.shiftl b7 48)) (Z.shiftl b6 40)) (Z.shiftl b5 32))
        (Z.shiftl b4 24)) (Z.shiftl b3 16)) (Z.shiftl b2 8)) b1 = le_word [b1; b2; b3; b4; b5; b6; b7; b8].
Proof.
  rewrite !le_word_cons, le_word_nil, Z.shiftl_0_l, Z.lor_0_l.
  by rewrite !Z.shiftl_lor, !Z.shiftl_shiftl by lia.
Qed.

(** [n] successful reads, one equation per byte. *)
Lemma read_bytes_cons n h s i l :
  read_bytes (S n) h s i = Ret l ->
  exists b l', l = b :: l' /\ Byte_u h s i = Ret b /\ read_bytes n h s (i + 1) = Ret l'.
Proof. simpl. intros E. inv_bind. eauto. Qed.
Ltac split_reads H :=
  repeat (apply read_bytes_cons in H as (? & ? & -> & -> & H); rewrite <- ?Z.add_assoc in H;
    try match type of H with context [?a + (Zpos ?x + Zpos ?y)] =>
      let c := eval compute in (Zpos x + Zpos y) in change (Zpos x + Zpos y) with c in H end);
  simpl in H; injection H as <-.

Lemma get16_read h s idx l :
  read_bytes 2 h s (Long_val idx) = Ret l ->
  caml_string_get16 h s idx = (check_bounds h s (Long_val idx) 1;; Ret (Val_int (le_word l))).
Proof. intros H. unfold caml_string_get16. cbv zeta. split_reads H. mred. by rewrite le_word_2. Qed.
Lemma get32_read h s idx l :
  read_bytes 4 h s (Long_val idx) = Ret l ->
  caml_string_get32 h s idx = (check_bounds h s (Long_val idx) 3;; Ret (s32 (le_word l))).
Proof. intros H. unfold caml_string_get32. cbv zeta. split_reads H. mred. by rewrite le_word_4. Qed.
Lemma get64_read h s idx l :
  read_bytes 8 h s (Long_val idx) = Ret l ->
  caml_string_get64 h s idx = (check_bounds h s (Long_val idx) 7;; Ret (s64 (le_word l))).
Proof. intros H. unfold caml_string_get64. cbv zeta. split_reads H. mred. by rewrite le_word_8. Qed.

Lemma read_bytes_string n : forall h s bs i,
  string_at h s bs -> 0 <= i -> i + Z.of_nat n <= str_len bs ->
  read_bytes n h s i = Ret (take n (drop (Z.to_nat i) bs)).
Proof.
  induction n as [|n IH]; intros h s bs i Hs Hi Hn; simpl; [done|].
  destruct (lookup_lt_is_Some_2 bs (Z.to_nat i)) as [b Hb]; [unfold str_len in Hn; lia|].
  pose proof (string_byte h s bs _ b Hs Hb) as E. rewrite Z.add_0_l, Z2Nat.id in E by lia.
  rewrite E. simpl. rewrite (IH h s bs (i + 1)) by first [done | lia]. simpl.
  rewrite (drop_S bs b (Z.to_nat i)) by done. simpl. do 4 f_equal. lia.
Qed.

Lemma get_byte_le_word_cons b l k :
  is_byte b -> 0 <= k -> get_byte (le_word (b :: l)) k = if k =? 0 then b else get_byte (le_word l) (k - 1).
Proof.
  intros Hb Hk. unfold le_word. simpl. fold (le_word l). rewrite get_byte_lor.
  apply Z.bits_inj'. intros i Hi. rewrite Z.lor_spec, !testbit_get_byte, Z.shiftl_spec by lia.
  assert (Hhi : forall n, 8 <= n -> Z.testbit b n = false).
  { intros n Hn. rewrite <- (Z.land_diag b) at 1. replace b with (get_byte b 0) at 1.
    - rewrite Z.land_spec, testbit_get_byte by lia. by rewrite (proj2 (Z.ltb_ge _ _)) by lia.
    - unfold get_byte. rewrite Z.mul_0_r, Z.shiftr_0_r. change 255 with (Z.ones 8).
      rewrite Z.land_ones by lia. apply Z.mod_small. done. }
  destruct (Z.eqb_spec k 0) as [->|Hne].
  - rewrite Z.mul_0_r, Z.add_0_r. destruct (Z.ltb_spec i 8); simpl.
    + rewrite (Z.testbit_neg_r _ (i - 8)) by lia. by rewrite orb_false_r.
    + by rewrite Hhi by lia.
  - rewrite testbit_get_byte by lia. rewrite (Hhi (i + 8 * k)) by lia. rewrite andb_false_r. simpl.
    by replace (i + 8 * k - 8) with (i + 8 * (k - 1)) by lia.
Qed.

Lemma le_word_bytes n val : 0 <= n -> wrap (8 * n) (le_word (le_bytes (Z.to_nat n) val)) = wrap (8 * n) val.
Proof.
  intros Hn. apply bytes_ext; [done|]. intros k Hk. unfold le_bytes. rewrite Z2Nat.id by lia.
  assert (Hgen : forall m a j, 0 <= j < Z.of_nat m ->
    get_byte (le_word ((fun k => get_byte val k) <$> seqZ a (Z.of_nat m))) j = get_byte val (a + j)).
  { induction m as [|m IH]; intros a j Hj; [lia|].
    rewrite seqZ_cons by lia. replace (Z.pred (Z.of_nat (S m))) with (Z.of_nat m) by lia.
    cbn [fmap list_fmap]. rewrite get_byte_le_word_cons by first [apply get_byte_range | lia].
    destruct (Z.eqb_spec j 0) as [->|]; [by rewrite Z.add_0_r|].
    rewrite IH by lia. f_equal. lia. }
  replace n with (Z.of_nat (Z.to_nat n)) by lia. by rewrite Hgen by lia.
Qed.

Lemma alloc_initialized_spec `{SH : SharedHeap, !SharedHeapOk SH} h p :
  heap_ok h -> Forall is_byte p -> str_len p < 2 ^ 56 ->
  alloc_outcome h (str_wosize (str_len p)) (caml_alloc_initialized_string h p) (fun v h' =>
    string_at h' v p /\ words h ⊆ words h').
Proof.
  intros Hok Hp Hl. unfold caml_alloc_initialized_string. fold (str_len p).
  pose proof (alloc_string_spec h (str_len p) Hok (conj (str_len_nonneg p) Hl)) as Ha.
  destruct (caml_alloc_string h (str_len p)) as [[v h1]|e| | |]; cbn in Ha |- *; try done.
  destruct Ha as (Hs & Hsub & Hfree).
  pose proof (contents_len h1 v (str_len p) (str_len_nonneg p)) as Ec.
  destruct (memcpy_bytes_string p h1 v _ 0 Hs) as (h2 & -> & Hs2 & Hf); [lia|rewrite Ec; lia|]. simpl. split.
  - rewrite list_inserts_all, bytes_id in Hs2; [done..|].
    unfold bytes. rewrite length_fmap. apply Nat2Z.inj. by symmetry.
  - apply words_subseteq. intros a w Hw. rewrite Hf.
    + unfold load in *. destruct (words h !! a) eqn:E; [|done]. by rewrite (lookup_weaken _ _ _ _ E Hsub).
    + intros k Hk ->. rewrite Ec in Hk. eapply load_free; [apply (Hfree k)|done]. lia.
Qed.

(** A block represents one string. *)
Lemma string_at_inj h s bs1 bs2 : string_at h s bs1 -> string_at h s bs2 -> bs1 = bs2.
Proof.
  intros H1 H2. assert (str_wosize (str_len bs1) = str_wosize (str_len bs2)) as Ez.
  { apply (inj Ret). by rewrite <- (sa_size _ _ _ H1), (sa_size _ _ _ H2). }
  apply str_len_wosize; [|done]. intros i Hi. apply (inj Ret).
  rewrite <- (sa_content _ _ _ H1) by done. apply (sa_content _ _ _ H2). by rewrite <- Ez.
Qed.

Lemma string_equal_spec h s1 s2 bs1 bs2 :
  string_at h s1 bs1 -> string_at h s2 bs2 ->
  caml_string_equal h s1 s2 = Ret (if decide (bs1 = bs2) then Val_true else Val_false).
Proof.
  intros H1 H2. unfold caml_string_equal. destruct (Z.eqb_spec s1 s2) as [->|Hne].
  { by rewrite (string_at_inj h s2 bs1 bs2 H1 H2), decide_True. }
  rewrite (sa_size _ _ _ H1), (sa_size _ _ _ H2). simpl.
  destruct (Z.eqb_spec (str_wosize (str_len bs1)) (str_wosize (str_len bs2))) as [Ez|Hz]; simpl.
  2:{ rewrite decide_False; [done|]. congruence. }
  pose proof (proj1 (str_wosize_bounds (str_len bs1) (str_len_nonneg _))) as Hpos.
  destruct (equal_words_spec (Z.to_nat (str_wosize (str_len bs1))) h s1 s2) as (b & -> & Hb).
  { intros k Hk. destruct (sa_words _ _ _ H1 k) as (w1 & ? & ?); [lia|].
    destruct (sa_words _ _ _ H2 k) as (w2 & ? & ?); [lia|]. by exists w1, w2. }
  simpl. f_equal. rewrite Z2Nat.id in Hb by lia.
  assert (b = true <-> bs1 = bs2) as Hbs.
  { rewrite Hb. split.
    - intros Hj. apply str_len_wosize; [|done]. intros i Hi. apply (inj Ret).
      rewrite <- (sa_content _ _ _ H1), <- (sa_content _ _ _ H2) by lia. by apply Hj.
    - intros -> j Hj. by rewrite (sa_content _ _ _ H1), (sa_content _ _ _ H2). }
  destruct (decide (bs1 = bs2)) as [E|E]; destruct b; try done; tauto || (destruct Hbs; intuition congruence).
Qed.

Lemma string_compare_spec h s1 s2 bs1 bs2 :
  string_at h s1 bs1 -> string_at h s2 bs2 ->
  caml_string_compare h s1 s2 = Ret (Val_int (lex_compare bs1 bs2)).
Proof.
  intros H1 H2. unfold caml_string_compare. destruct (Z.eqb_spec s1 s2) as [->|Hne].
  { by rewrite (string_at_inj h s2 bs1 bs2 H1 H2), lex_compare_refl. }
  rewrite (string_length_spec _ _ _ H1), (string_length_spec _ _ _ H2). simpl.
  destruct (memcmp_spec (Z.to_nat (if str_len bs1 <=? str_len bs2 then str_len bs1 else str_len bs2))
              h s1 s2 0 bs1 bs2) as (r & -> & ->).
  - intros j b. by apply string_byte.
  - intros j b. by apply string_byte.
  - unfold str_len. destruct (Z.leb_spec (Z.of_nat (length bs1)) (Z.of_nat (length bs2))); lia.
  - simpl. repeat case_match; try done; lia.
Qed.

(** Reading back, in the byte list, what a store of [n] bytes wrote. *)
Lemma take_drop_inserts {A} i (k l : list A) :
  (i + length k <= length l)%nat -> take (length k) (drop i (list_inserts i k l)) = k.
Proof.
  intros Hl. apply list_eq. intros j. destruct (decide (j < length k)%nat) as [Hj|Hj].
  - rewrite lookup_take_lt by done. rewrite lookup_drop.
    rewrite list_lookup_inserts by lia. f_equal. lia.
  - rewrite lookup_take_ge by lia. symmetry. apply lookup_ge_None. lia.
Qed.

Lemma length_le_bytes n val : length (le_bytes n val) = n.
Proof. unfold le_bytes. rewrite length_fmap, length_seqZ. lia. Qed.
Lemma bytes_le_bytes n val : bytes (le_bytes n val) = le_bytes n val.
Proof. apply bytes_id, Forall_fmap, Forall_forall. intros k _. apply get_byte_range. Qed.

(** A store of [n] bytes inside a string, read back by a load of [n] bytes. *)
Lemma store_read n h s bs i val :
  string_at h s bs -> 0 <= i -> i + Z.of_nat n <= str_len bs ->
  exists h', memcpy_bytes h s i (le_bytes n val) = Ret h' /\
    string_at h' s (list_inserts (Z.to_nat i) (le_bytes n val) bs) /\
    read_bytes n h' s i = Ret (le_bytes n val).
Proof.
  intros Hs Hi Hn. destruct (memcpy_bytes_string (le_bytes n val) h s bs i Hs) as (h' & E & Hs' & _);
    [done|unfold str_len in *; by rewrite length_le_bytes|].
  rewrite bytes_le_bytes in Hs'. exists h'. split_and!; try done.
  rewrite (read_bytes_string n h' s _ i Hs') by
    (unfold str_len in *; rewrite ?length_inserts; lia). f_equal.
  rewrite <- (length_le_bytes n val) at 1. apply take_drop_inserts.
  rewrite length_le_bytes. unfold str_len in Hn. lia.
Qed.

(** What a pair of accessors of [n] bytes at index [idx] does: inside the
    string, the store writes the bytes of [val] and the load returns [r]; one
    byte further, both raise. *)
Definition accessor_spec (h : heap) (s : Z) (bs : list Z) (i n val : Z)
    (set : result heap) (get : heap -> result Z) (r : Z) : Prop :=
  if (0 <=? i) && (i + n <=? str_len bs) then
    exists h', set = Ret h' /\
      string_at h' s (list_inserts (Z.to_nat i) (le_bytes (Z.to_nat n) val) bs) /\ get h' = Ret r
  else set = Raise array_bound_error /\ get h = Raise array_bound_error.

Lemma check_bounds_raise h s bs i n k {A} (f : unit -> result A) :
  string_at h s bs -> n = k + 1 -> (0 <=? i) && (i + n <=? str_len bs) = false ->
  (check_bounds h s i k ≫= f) = Raise array_bound_error.
Proof.
  intros Hs -> Hb. rewrite (check_bounds_spec _ _ _ _ _ Hs).
  destruct (_ || _) eqn:E; [done|]. lia.
Qed.
Lemma check_bounds_ok h s bs i n k {A} (f : unit -> result A) :
  string_at h s bs -> n = k + 1 -> 0 <= i -> i + n <= str_len bs ->
  (check_bounds h s i k ≫= f) = f ().
Proof.
  intros Hs -> Hi Hb. rewrite (check_bounds_spec _ _ _ _ _ Hs).
  by destruct (_ || _) eqn:E; [lia|].
Qed.

Lemma accessor_intro h s bs i n val set get r k getr :
  string_at h s bs -> 0 < n -> n = k + 1 ->
  set = (check_bounds h s i k;; memcpy_bytes h s i (le_bytes (Z.to_nat n) val)) ->
  (forall h' l, read_bytes (Z.to_nat n) h' s i = Ret l -> get h' = (check_bounds h' s i k;; Ret (getr l))) ->
  (exists f, get h = (check_bounds h s i k ≫= f)) ->
  r = getr (le_bytes (Z.to_nat n) val) -> accessor_spec h s bs i n val set get r.
Proof.
  intros Hs Hn Hk -> Hget [f Hf] ->. unfold accessor_spec.
  destruct ((0 <=? i) && (i + n <=? str_len bs)) eqn:Hb.
  - destruct (store_read (Z.to_nat n) h s bs i val Hs ltac:(lia) ltac:(lia)) as (h' & E & Hs' & Hr).
    rewrite (check_bounds_ok _ _ bs _ n) by (done || lia). exists h'. split_and!; try done.
    rewrite (Hget _ _ Hr). erewrite (check_bounds_ok _ _ _ _ n) by
      (try exact Hs'; try done; unfold str_len in *; rewrite ?length_inserts; lia). done.
  - by rewrite Hf, !(check_bounds_raise _ _ bs _ n) by done.
Qed.

Lemma Store_byte_land h v i b : Store_byte h v i (Z.land b 255) = Store_byte h v i b.
Proof. unfold Store_byte, set_byte. by rewrite <- Z.land_assoc, Z.land_diag. Qed.
Lemma set_memcpy h s idx newval :
  caml_bytes_set h s idx newval =
  (check_bounds h s (Long_val idx) 0;; memcpy_bytes h s (Long_val idx) (le_bytes 1 (Int_val newval))).
Proof.
  unfold caml_bytes_set. destruct (check_bounds _ _ _ _); try done. simpl.
  unfold get_byte. rewrite Z.mul_0_r, Z.shiftr_0_r, Store_byte_land. by destruct (Store_byte _ _ _ _).
Qed.
Lemma get_read1 h s idx l :
  read_bytes 1 h s (Long_val idx) = Ret l ->
  caml_string_get h s idx = (check_bounds h s (Long_val idx) 0;; Ret (Val_int (le_word l))).
Proof.
  intros H. unfold caml_string_get. cbv zeta. split_reads H. mred.
  by rewrite le_word_cons, le_word_nil, Z.shiftl_0_l, Z.lor_0_l.
Qed.

Lemma le_bytes_swrap n w val : Z.of_nat n * 8 <= w -> le_bytes n (swrap w val) = le_bytes n val.
Proof.
  intros Hw. unfold le_bytes. apply list_fmap_ext. intros i k Hk. apply lookup_seqZ in Hk as [-> Hi].
  apply get_byte_swrap; lia.
Qed.
Lemma shiftl8_byte a b : is_byte b -> Z.land (Z.shiftl a 8) b = 0.
Proof.
  intros Hb. rewrite <- (Z.mod_small b 256) by done. change 256 with (2 ^ 8).
  rewrite <- Z.land_ones by lia. apply Z.bits_inj'. intros i Hi.
  rewrite !Z.land_spec, Z.shiftl_spec, Z.bits_0 by lia. destruct (Z.ltb_spec i 8).
  - by rewrite Z.testbit_neg_r by lia.
  - rewrite Z.ones_spec_high by lia. by rewrite !andb_false_r.
Qed.
Lemma le_word_range l : Forall is_byte l -> 0 <= le_word l < 2 ^ (8 * Z.of_nat (length l)).
Proof.
  induction 1 as [|b l Hb _ IH]; [done|]. rewrite le_word_cons. cbn [length].
  replace (8 * Z.of_nat (S (length l))) with (8 * Z.of_nat (length l) + 8) by lia.
  rewrite Z.pow_add_r by lia. change (2 ^ 8) with 256.
  assert (Z.lor (Z.shiftl (le_word l) 8) b = 256 * le_word l + b) as ->; [|unfold is_byte in *; nia].
  rewrite <- Z.lxor_lor, <- Z.add_nocarry_lxor, Z.shiftl_mul_pow2 by (lia || apply shiftl8_byte; done). lia.
Qed.
Lemma le_word_small n val : 0 <= n -> le_word (le_bytes (Z.to_nat n) val) = wrap (8 * n) val.
Proof.
  intros Hn. rewrite <- le_word_bytes by done. symmetry. apply wrap_small.
  pose proof (le_word_range (le_bytes (Z.to_nat n) val)) as Hr. rewrite length_le_bytes, Z2Nat.id in Hr by lia.
  apply Hr, Forall_fmap, Forall_forall. intros k _. apply get_byte_range.
Qed.
Lemma land_Int_val c : Z.land (Int_val c) 255 = Z.land (Long_val c) 255.
Proof.
  pose proof (get_byte_swrap 32 (Long_val c) 0 ltac:(lia) ltac:(lia)) as E.
  unfold get_byte in E. by rewrite Z.mul_0_r, !Z.shiftr_0_r in E.
Qed.

(** Results of a three-way comparison, tagged. *)
Definition sign3 (x : Z) : Prop := x = -1 \/ x = 0 \/ x = 1.
Lemma Ret_sign x y : sign3 x -> sign3 y -> Ret (Val_int x) = Ret (Val_int y) <-> x = y.
Proof. by intros [->|[->| ->]] [->|[->| ->]]. Qed.
Lemma sign_lt x : sign3 x -> (if Val_int x <? Val_int 0 then Val_true else Val_false) = Val_bool (x <? 0).
Proof. by intros [->|[->| ->]]. Qed.
Lemma sign_le x : sign3 x -> (if Val_int x <=? Val_int 0 then Val_true else Val_false) = Val_bool (x <=? 0).
Proof. by intros [->|[->| ->]]. Qed.
Lemma sign_gt x : sign3 x -> (if Val_int 0 <? Val_int x then Val_true else Val_false) = Val_bool (0 <? x).
Proof. by intros [->|[->| ->]]. Qed.
Lemma sign_ge x : sign3 x -> (if Val_int 0 <=? Val_int x then Val_true else Val_false) = Val_bool (0 <=? x).
Proof. by intros [->|[->| ->]]. Qed.

(** ** Properties *)

(** A heap holding the strings ["ab"], ["abc"] and ["hello, world"]. *)
Definition ex_strings : result (list Z * heap) :=
  let h := mkHeap ∅ 3000 2000 2000 3000 64 [] [] in
  '(s1, h) ← caml_alloc_initialized_string (H := growing_heap) h [97; 98];
  '(s2, h) ← caml_alloc_initialized_string (H := growing_heap) h [97; 98; 99];
  '(s3, h) ← caml_alloc_initialized_string (H := growing_heap) h [104; 101; 108; 108; 111; 44; 32; 119; 111; 114; 108; 100];
  Ret ([s1; s2; s3], h).
Definition ex_h : heap := match ex_strings with Ret (_, h) => h | _ => mkHeap ∅ 0 0 0 0 0 [] [] end.
Definition ex_s (i : nat) : Z := match ex_strings with Ret (l, _) => l !!! i | _ => 0 end.

Definition string_atb (h : heap) (s : Z) (bs : list Z) : bool :=
  let n := str_wosize (str_len bs) in
  forallb (fun b => (0 <=? b) && (b <? 256)) bs && (str_len bs <? 2 ^ 56) &&
  bool_decide (Tag_val h s = Ret String_tag) && bool_decide (Wosize_val h s = Ret n) &&
  forallb (fun i => match Field h s i with Ret w => (- 2 ^ 63 <=? w) && (w <? 2 ^ 63) | _ => false end) (seqZ 0 n) &&
  forallb (fun i => bool_decide (Byte_u h s i = Ret (padded bs i))) (seqZ 0 (8 * n)).
Lemma string_atb_sound h s bs : string_atb h s bs = true -> string_at h s bs.
Proof.
  unfold string_atb. rewrite !andb_true_iff, !forallb_forall, !bool_decide_eq_true.
  intros (((((H1 & H2) & H3) & H4) & H5) & H6). split; try done.
  - apply Forall_forall. intros b Hb. specialize (H1 b Hb). unfold is_byte. lia.
  - lia.
  - intros i Hi. specialize (H5 i). rewrite <- list_elem_of_In, elem_of_seqZ in H5. specialize (H5 ltac:(lia)).
    destruct (Field h s i) as [w| | | |]; try done. exists w. split; [done|]. unfold is_word. lia.
  - intros i Hi. specialize (H6 i). rewrite <- list_elem_of_In, elem_of_seqZ, bool_decide_eq_true in H6. apply H6. lia.
Qed.
Lemma ex_at0 : string_at ex_h (ex_s 0) [97; 98].
Proof. apply string_atb_sound. vm_compute. reflexivity. Qed.
Lemma ex_at1 : string_at ex_h (ex_s 1) [97; 98; 99].
Proof. apply string_atb_sound. vm_compute. reflexivity. Qed.
Lemma ex_at2 : string_at ex_h (ex_s 2) [104; 101; 108; 108; 111; 44; 32; 119; 111; 114; 108; 100].
Proof. apply string_atb_sound. vm_compute. reflexivity. Qed.

(** Allocating a string from bytes either returns a block that reads back
    as exactly those bytes (length included) and leaves every existing word
    alone, or reports a full minor heap, or (for a large string only) raises
    Out_of_memory; it never reads or writes outside the fresh block. *)
Theorem alloc_string_roundtrip `{SH : SharedHeap, !SharedHeapOk SH} (h : heap) (p : list Z) :
  heap_ok h -> Forall is_byte p -> str_len p < 2 ^ 56 ->
  alloc_outcome h (str_wosize (str_len p)) (caml_alloc_initialized_string h p) (fun v h' =>
    string_at h' v p /\ words h ⊆ words h' /\
    caml_ml_string_length h' v = Ret (Val_long (str_len p)) /\
    read_bytes (length p) h' v 0 = Ret p).
Proof.
  intros Hok Hp Hl. pose proof (alloc_initialized_spec h p Hok Hp Hl) as Ha.
  destruct (caml_alloc_initialized_string h p) as [[v h']|e| | |]; simpl in *; try done.
  destruct Ha as [Hs Hsub]. split_and!; try done.
  - unfold caml_ml_string_length. by rewrite (string_length_spec _ _ _ Hs).
  - rewrite (read_bytes_string _ _ _ _ _ Hs) by (unfold str_len; lia).
    by rewrite drop_0, take_ge.
Qed.

Lemma alloc_string_roundtrip_witness :
  exists v h', caml_alloc_initialized_string (H := growing_heap) ex_h [120; 0; 255] = Ret (v, h') /\
    string_at h' v [120; 0; 255].
Proof.
  assert (heap_ok ex_h) as Hok by (apply heap_okb_sound; vm_compute; reflexivity).
  assert (Forall is_byte [120; 0; 255]) as Hb by (repeat constructor; unfold is_byte; lia).
  pose proof (alloc_string_roundtrip (SH := growing_heap) ex_h [120; 0; 255] Hok Hb eq_refl) as Ha.
  assert (is_Ret (caml_alloc_initialized_string (H := growing_heap) ex_h [120; 0; 255]) = true) as Hr
    by (vm_compute; reflexivity).
  revert Ha Hr. generalize (caml_alloc_initialized_string (H := growing_heap) ex_h [120; 0; 255]).
  intros [[v h']|e| | |] Ha Hr; try discriminate Hr. exists v, h'. exact (conj eq_refl (proj1 Ha)).
Defined.

(** The word-by-word comparison of [caml_string_equal] decides equality
    of the byte sequences, whatever their lengths, aliasing or contents. *)
Theorem string_equal_words (h : heap) (s1 s2 : Z) (bs1 bs2 : list Z) :
  string_at h s1 bs1 -> string_at h s2 bs2 ->
  caml_string_equal h s1 s2 = Ret (if decide (bs1 = bs2) then Val_true else Val_false) /\
  caml_string_notequal h s1 s2 = Ret (if decide (bs1 = bs2) then Val_false else Val_true).
Proof.
  intros H1 H2. unfold caml_string_notequal. rewrite (string_equal_spec _ _ _ _ _ H1 H2).
  split; [done|]. simpl. by destruct (decide _).
Qed.
Lemma string_equal_words_witness : caml_string_equal ex_h (ex_s 0) (ex_s 1) = Ret Val_false.
Proof. exact (proj1 (string_equal_words ex_h _ _ _ _ ex_at0 ex_at1)). Defined.

(** [caml_string_compare] and the four comparison primitives implement
    the lexicographic order on bytes with the shorter string first, a total
    order: zero exactly on equal strings, antisymmetric, transitive. *)
Theorem string_compare_order (h : heap) (s1 s2 s3 : Z) (bs1 bs2 bs3 : list Z) :
  string_at h s1 bs1 -> string_at h s2 bs2 -> string_at h s3 bs3 ->
  let c x y := caml_string_compare h x y in
  c s1 s2 = Ret (Val_int (lex_compare bs1 bs2)) /\
  caml_string_lessthan h s1 s2 = Ret (Val_bool (lex_compare bs1 bs2 <? 0)) /\
  caml_string_lessequal h s1 s2 = Ret (Val_bool (lex_compare bs1 bs2 <=? 0)) /\
  caml_string_greaterthan h s1 s2 = caml_string_lessthan h s2 s1 /\
  caml_string_greaterequal h s1 s2 = caml_string_lessequal h s2 s1 /\
  (c s1 s2 = Ret (Val_int 0) <-> bs1 = bs2) /\
  (c s1 s2 = Ret (Val_int (-1)) <-> c s2 s1 = Ret (Val_int 1)) /\
  (c s1 s2 <> Ret (Val_int 1) -> c s2 s3 <> Ret (Val_int 1) -> c s1 s3 <> Ret (Val_int 1)).
Proof.
  intros H1 H2 H3. unfold caml_string_lessthan, caml_string_lessequal, caml_string_greaterthan,
    caml_string_greaterequal.
  rewrite !(string_compare_spec _ _ _ _ _ H1 H2), !(string_compare_spec _ _ _ _ _ H2 H1),
    !(string_compare_spec _ _ _ _ _ H2 H3), !(string_compare_spec _ _ _ _ _ H1 H3). mred.
  pose proof (lex_compare_trans bs1 bs2 bs3) as Ht. pose proof (lex_compare_eq bs1 bs2) as He.
  pose proof (lex_compare_antisym bs1 bs2) as Ha.
  pose proof (lex_compare_range bs1 bs2) as R12. pose proof (lex_compare_range bs2 bs1) as R21.
  pose proof (lex_compare_range bs1 bs3) as R13. pose proof (lex_compare_range bs2 bs3) as R23.
  split; [done|]. rewrite !sign_lt, !sign_le, !sign_gt, !sign_ge by done.
  rewrite !Ret_sign by first [assumption | unfold sign3; lia].
  split_and!; [done|done|do 2 f_equal; lia|do 2 f_equal; lia|done|lia|lia].
Qed.
Lemma string_compare_order_witness :
  caml_string_compare ex_h (ex_s 2) (ex_s 1) = Ret (Val_int 1) /\
  caml_string_greaterthan ex_h (ex_s 2) (ex_s 1) = caml_string_lessthan ex_h (ex_s 1) (ex_s 2).
Proof.
  destruct (string_compare_order ex_h _ _ _ _ _ _ ex_at2 ex_at1 ex_at0) as (Hc & _ & _ & Hg & _).
  exact (conj Hc Hg).
Defined.

(** The byte, 16-, 32- and 64-bit accessors.  A store inside the string
    writes the little-endian bytes of its argument and nothing else, the load
    at the same index returns the stored value at its width (unsigned for 8
    and 16 bits, signed for 32 and 64); when one of the bytes would fall
    outside the string, both raise and nothing is accessed. *)
Theorem bytes_accessors (h : heap) (s : Z) (bs : list Z) (idx val : Z) :
  string_at h s bs -> is_int val ->
  let i := Long_val idx in
  accessor_spec h s bs i 1 val (caml_bytes_set h s idx (Val_long val))
    (fun h' => caml_string_get h' s idx) (Val_int (wrap 8 val)) /\
  accessor_spec h s bs i 2 val (caml_bytes_set16 h s idx (Val_long val))
    (fun h' => caml_string_get16 h' s idx) (Val_int (wrap 16 val)) /\
  accessor_spec h s bs i 4 val (caml_bytes_set32 h s idx val)
    (fun h' => caml_string_get32 h' s idx) (s32 val) /\
  accessor_spec h s bs i 8 val (caml_bytes_set64 h s idx val)
    (fun h' => caml_string_get64 h' s idx) (s64 val).
Proof.
  intros Hs Hv i. split_and!.
  - apply (accessor_intro _ _ _ _ _ _ _ _ _ 0 (fun l => Val_int (le_word l)) Hs); try done.
    + rewrite set_memcpy. unfold Int_val. by rewrite Long_Val_int, le_bytes_swrap by done.
    + intros h' l. apply get_read1.
    + by eexists.
    + f_equal. by rewrite le_word_small.
  - apply (accessor_intro _ _ _ _ _ _ _ _ _ 1 (fun l => Val_int (le_word l)) Hs); try done.
    + by rewrite set16_memcpy, Long_Val_int.
    + intros h' l. apply get16_read.
    + by eexists.
    + f_equal. by rewrite le_word_small.
  - apply (accessor_intro _ _ _ _ _ _ _ _ _ 3 (fun l => s32 (le_word l)) Hs); try done.
    + apply set32_memcpy.
    + intros h' l. apply get32_read.
    + by eexists.
    + apply swrap_ext. symmetry. by apply (le_word_bytes 4).
  - apply (accessor_intro _ _ _ _ _ _ _ _ _ 7 (fun l => s64 (le_word l)) Hs); try done.
    + apply set64_memcpy.
    + intros h' l. apply get64_read.
    + by eexists.
    + apply swrap_ext. symmetry. by apply (le_word_bytes 8).
Qed.
Lemma bytes_accessors_witness :
  exists h', caml_bytes_set64 ex_h (ex_s 2) (Val_long 4) (-2) = Ret h' /\
    caml_string_get64 h' (ex_s 2) (Val_long 4) = Ret (-2).
Proof.
  destruct (bytes_accessors ex_h (ex_s 2) _ (Val_long 4) (-2) ex_at2) as (_ & _ & _ & H).
  { unfold is_int, Min_long, Max_long. lia. }
  destruct H as (h' & E & _ & G). exists h'. exact (conj E G).
Defined.

(** [caml_blit_bytes] copies the source range as it was before the call,
    also when source and destination are the same string and overlap, and
    [caml_fill_bytes] writes the low byte of its argument; both leave the
    length and every other byte of the destination unchanged. *)
Theorem blit_fill_bytes (h : heap) (s1 s2 : Z) (bs1 bs2 : list Z) (ofs1 ofs2 n c : Z) :
  string_at h s1 bs1 -> string_at h s2 bs2 ->
  0 <= Long_val ofs1 -> 0 <= Long_val ofs2 -> 0 <= Long_val n ->
  Long_val ofs1 + Long_val n <= str_len bs1 -> Long_val ofs2 + Long_val n <= str_len bs2 ->
  (exists h', caml_blit_bytes h s1 ofs1 s2 ofs2 n = Ret h' /\
    string_at h' s2 (list_inserts (Z.to_nat (Long_val ofs2))
      (take (Z.to_nat (Long_val n)) (drop (Z.to_nat (Long_val ofs1)) bs1)) bs2)) /\
  (exists h', caml_fill_bytes h s2 ofs2 n c = Ret h' /\
    string_at h' s2 (list_inserts (Z.to_nat (Long_val ofs2))
      (replicate (Z.to_nat (Long_val n)) (Z.land (Long_val c) 255)) bs2)).
Proof.
  intros H1 H2 Ho1 Ho2 Hn Hl1 Hl2. split.
  - unfold caml_blit_bytes. rewrite (read_bytes_string _ _ _ _ _ H1) by lia. simpl.
    set (buf := take _ _). assert (str_len buf = Long_val n) as El
      by (unfold str_len in *; subst buf; rewrite length_take, length_drop; lia).
    destruct (memcpy_bytes_string buf h s2 bs2 (Long_val ofs2) H2) as (h' & E & Hs & _); [lia..|].
    exists h'. rewrite bytes_id in Hs; [done|]. apply Forall_take, Forall_drop, (sa_bytes _ _ _ H1).
  - unfold caml_fill_bytes. set (buf := replicate _ (Int_val c)).
    destruct (memcpy_bytes_string buf h s2 bs2 (Long_val ofs2) H2) as (h' & E & Hs & _);
      [lia|unfold str_len, buf; rewrite length_replicate; unfold str_len in *; lia|].
    exists h'. split; [done|]. unfold bytes, buf in Hs. rewrite fmap_replicate in Hs.
    by rewrite land_Int_val in Hs.
Qed.
Lemma blit_fill_bytes_witness :
  exists h', caml_blit_bytes ex_h (ex_s 2) (Val_long 0) (ex_s 2) (Val_long 2) (Val_long 5) = Ret h' /\
    string_at h' (ex_s 2) [104; 101; 104; 101; 108; 108; 111; 119; 111; 114; 108; 100].
Proof.
  exact (proj1 (blit_fill_bytes ex_h (ex_s 2) (ex_s 2) _ _ (Val_long 0) (Val_long 2) (Val_long 5) 1
    ex_at2 ex_at2 ltac:(done) ltac:(done) ltac:(done) ltac:(done) ltac:(done))).
Defined.

End Strings.
Export Strings.
