(* ===== verification/Fiber.v ===== *)
(** * Fibers (runtime/fiber.c, runtime/caml/fiber.h, bytecode configuration)

    A fiber is a stack with its effect handlers and a link to its parent.
    The words of a stack from its saved [sp] up to [Stack_high] are a list,
    innermost word first: [sp[i]] is element [i], [sp == Stack_high] is the
    empty list, and an offset from [Stack_high] is minus a length.  Freed
    stacks of the pooled sizes are kept in the five buckets of the cache. *)

From S2P Require Import Prelude Memory Barrier.

Module Fiber.

Record fiber := mkFiber {
  f_sp : list Z;
  handle_value : Z;
  handle_exn : Z;
  handle_effect : Z;
  parent : Z;
  cache_bucket : Z;
  f_wsize : Z;
  f_id : Z;
}.

(** The state of the domain the interpreter and the fibers share. *)
Record dom := mkDom {
  current_stack : Z;
  trap_sp_off : Z;
  fibers : gmap Z fiber;
  stack_cache : list (list (Z * Z));
  fiber_id : Z;
  hp : heap;
  code : gmap Z Z;
  caml_global_data : Z;
  raise_unhandled_effect : Z;
  backtrace_active : bool;
  caml_event_count : Z;
  trap_barrier_block : Z;
  trap_barrier_off : Z;
}.

Definition set_current (x : Z) (d : dom) : dom :=
  mkDom x (trap_sp_off d) (fibers d) (stack_cache d) (fiber_id d) (hp d) (code d) (caml_global_data d)
    (raise_unhandled_effect d) (backtrace_active d) (caml_event_count d) (trap_barrier_block d) (trap_barrier_off d).
Definition set_trap (x : Z) (d : dom) : dom :=
  mkDom (current_stack d) x (fibers d) (stack_cache d) (fiber_id d) (hp d) (code d) (caml_global_data d)
    (raise_unhandled_effect d) (backtrace_active d) (caml_event_count d) (trap_barrier_block d) (trap_barrier_off d).
Definition set_fibers (x : gmap Z fiber) (d : dom) : dom :=
  mkDom (current_stack d) (trap_sp_off d) x (stack_cache d) (fiber_id d) (hp d) (code d) (caml_global_data d)
    (raise_unhandled_effect d) (backtrace_active d) (caml_event_count d) (trap_barrier_block d) (trap_barrier_off d).
Definition set_cache (x : list (list (Z * Z))) (d : dom) : dom :=
  mkDom (current_stack d) (trap_sp_off d) (fibers d) x (fiber_id d) (hp d) (code d) (caml_global_data d)
    (raise_unhandled_effect d) (backtrace_active d) (caml_event_count d) (trap_barrier_block d) (trap_barrier_off d).
Definition set_fiber_id (x : Z) (d : dom) : dom :=
  mkDom (current_stack d) (trap_sp_off d) (fibers d) (stack_cache d) x (hp d) (code d) (caml_global_data d)
    (raise_unhandled_effect d) (backtrace_active d) (caml_event_count d) (trap_barrier_block d) (trap_barrier_off d).
Definition set_hp (x : heap) (d : dom) : dom :=
  mkDom (current_stack d) (trap_sp_off d) (fibers d) (stack_cache d) (fiber_id d) x (code d) (caml_global_data d)
    (raise_unhandled_effect d) (backtrace_active d) (caml_event_count d) (trap_barrier_block d) (trap_barrier_off d).
Definition set_code (x : gmap Z Z) (d : dom) : dom :=
  mkDom (current_stack d) (trap_sp_off d) (fibers d) (stack_cache d) (fiber_id d) (hp d) x (caml_global_data d)
    (raise_unhandled_effect d) (backtrace_active d) (caml_event_count d) (trap_barrier_block d) (trap_barrier_off d).
Definition set_event_count (x : Z) (d : dom) : dom :=
  mkDom (current_stack d) (trap_sp_off d) (fibers d) (stack_cache d) (fiber_id d) (hp d) (code d) (caml_global_data d)
    (raise_unhandled_effect d) (backtrace_active d) x (trap_barrier_block d) (trap_barrier_off d).
Definition set_globals (g r : Z) (d : dom) : dom :=
  mkDom (current_stack d) (trap_sp_off d) (fibers d) (stack_cache d) (fiber_id d) (hp d) (code d) g
    r (backtrace_active d) (caml_event_count d) (trap_barrier_block d) (trap_barrier_off d).

Definition set_f_sp (l : list Z) (f : fiber) : fiber :=
  mkFiber l (handle_value f) (handle_exn f) (handle_effect f) (parent f) (cache_bucket f) (f_wsize f) (f_id f).
Definition set_parent (p : Z) (f : fiber) : fiber :=
  mkFiber (f_sp f) (handle_value f) (handle_exn f) (handle_effect f) p (cache_bucket f) (f_wsize f) (f_id f).
Definition set_handlers (hval hexn heff : Z) (f : fiber) : fiber :=
  mkFiber (f_sp f) hval hexn heff (parent f) (cache_bucket f) (f_wsize f) (f_id f).

Definition Val_ptr (p : Z) : Z := s64 (p + 1).
Definition Ptr_val (v : Z) : Z := v - 1.
Definition NULL : Z := 0.

Definition get_fiber (d : dom) (stk : Z) : result fiber := of_option (fibers d !! stk).
Definition update_fiber (d : dom) (stk : Z) (g : fiber -> fiber) : result dom :=
  f ← get_fiber d stk; Ret (set_fibers (<[stk := g f]> (fibers d)) d).

(** ** Stack allocation *)

Definition NUM_STACK_SIZE_CLASSES : Z := 5.
Definition Stack_threshold_words : Z := 32.

(** The memory of the stacks: [stack_malloc d len] is the address of a fresh block of [len] bytes
    ([caml_stat_alloc_noexc]; the stacks are not made by [mmap]). *)
Class StackMemory : Type := {
  stack_malloc : dom -> Z -> option Z;
  caml_fiber_wsz : Z;
  caml_max_stack_wsize : Z;
}.

Definition sizeof_stack_info : Z := 56.
Definition sizeof_stack_handler : Z := 32.
(** The sizes are far below [2^61] words, so that [len] does not wrap around. *)
Definition alloc_for_stack `{StackMemory} (d : dom) (wosize : Z) : option Z :=
  let len := sizeof_stack_info + 8 * wosize + 8 + sizeof_stack_handler in
  stack_malloc d len.
(** [Stack_high], where the handler of a fresh stack is: alignment can make the stack larger than
    asked. *)
Definition new_stack_high (stack wosize : Z) : Z :=
  Z.land (stack + sizeof_stack_info + 8 * wosize + 15) (Z.lnot 15).
Definition Stack_base (stack : Z) : Z := stack + sizeof_stack_info.

Fixpoint bucket_from (n : nat) (bucket size_bucket_wsz wosize : Z) : Z :=
  match n with
  | O => -1
  | S n =>
      if wosize =? size_bucket_wsz then bucket
      else bucket_from n (bucket + 1) (size_bucket_wsz + size_bucket_wsz) wosize
  end.
Definition stack_cache_bucket `{StackMemory} (wosize : Z) : Z :=
  bucket_from (Z.to_nat NUM_STACK_SIZE_CLASSES) 0 caml_fiber_wsz wosize.

(** A cached stack of the bucket, or fresh memory; the new fiber starts with
    an empty stack and no parent. *)
Definition alloc_size_class_stack_noexc `{StackMemory} (d : dom)
    (wosize cache_bucket hval hexn heff id : Z) : option (Z * dom) :=
  let fresh := fun sz => mkFiber [] hval hexn heff NULL cache_bucket sz id in
  match (if cache_bucket =? -1 then None else stack_cache d !! Z.to_nat cache_bucket) with
  | Some ((stack, sz) :: l) =>
      Some (stack, set_fibers (<[stack := fresh sz]> (fibers d))
                     (set_cache (<[Z.to_nat cache_bucket := l]> (stack_cache d)) d))
  | _ =>
      match alloc_for_stack d wosize with
      | None => None
      | Some stack =>
          let sz := (new_stack_high stack wosize - Stack_base stack) / 8 in
          Some (stack, set_fibers (<[stack := fresh sz]> (fibers d)) d)
      end
  end.
Definition caml_alloc_stack_noexc `{StackMemory} (d : dom) (wosize hval hexn heff id : Z) : option (Z * dom) :=
  alloc_size_class_stack_noexc d wosize (stack_cache_bucket wosize) hval hexn heff id.

Definition caml_free_stack (d : dom) (stk : Z) : result dom :=
  f ← get_fiber d stk;
  let d := set_fibers (delete stk (fibers d)) d in
  if negb (cache_bucket f =? -1) then
    l ← of_option (stack_cache d !! Z.to_nat (cache_bucket f));
    Ret (set_cache (<[Z.to_nat (cache_bucket f) := (stk, f_wsize f) :: l]> (stack_cache d)) d)
  else Ret d.

Definition caml_alloc_stack `{StackMemory} (d : dom) (hval hexn heff : Z) : result (Z * dom) :=
  let id := fiber_id d in
  let d := set_fiber_id (id + 1) d in
  match alloc_size_class_stack_noexc d caml_fiber_wsz 0 hval hexn heff id with
  | None => Raise Out_of_memory
  | Some (stack, d) =>
      d ← update_fiber d stack (fun f => set_f_sp (Val_long 1 :: f_sp f) f);
      Ret (Val_ptr stack, d)
  end.

Definition caml_alloc_main_stack `{StackMemory} (d : dom) (init_wsize : Z) : option (Z * dom) :=
  let id := fiber_id d in
  caml_alloc_stack_noexc (set_fiber_id (id + 1) d) init_wsize Val_unit Val_unit Val_unit id.

(** The [do ... while] loop that doubles the size of a stack. *)
Fixpoint grow_wsize (fuel : nat) (max wsize needed : Z) : result (option Z) :=
  match fuel with
  | O => NoFuel
  | S fuel =>
      if max <=? wsize then Ret None else
      let wsize := u64 (wsize * 2) in
      if wsize <? needed then grow_wsize fuel max wsize needed else Ret (Some wsize)
  end.

(** [false] when the stack cannot grow.  The new stack takes the place of the
    old one as the current stack.  [stack_used] is an [int]: of a stack of [2^31] words or more only a
    part is copied, or [memcpy] gets a negative size.  The list [c_stack] is empty in the bytecode
    runtime. *)
Definition caml_try_realloc_stack `{StackMemory} (d : dom) (required_space : Z) : result (bool * dom) :=
  let old_stack := current_stack d in
  f ← get_fiber d old_stack;
  let stack_used := s32 (Z.of_nat (length (f_sp f))) in
  r ← grow_wsize 64 caml_max_stack_wsize (f_wsize f) (u64 (stack_used + required_space));
  match r with
  | None => Ret (false, d)
  | Some wsize =>
      match caml_alloc_stack_noexc d wsize (handle_value f) (handle_exn f) (handle_effect f) (f_id f) with
      | None => Ret (false, d)
      | Some (new_stack, d) =>
          copied ← (if stack_used <? 0 then Undef else Ret (drop (length (f_sp f) - Z.to_nat stack_used) (f_sp f)));
          d ← update_fiber d new_stack (fun g => set_parent (parent f) (set_f_sp copied g));
          d ← caml_free_stack d old_stack;
          Ret (true, set_current new_stack d)
      end
  end.

(** A stack overflow is raised by the caller.  The pointers are compared as addresses that do not
    wrap around. *)
Definition caml_ensure_stack_capacity `{StackMemory} (d : dom) (required_space : Z) : result (bool * dom) :=
  let req := Long_val required_space in
  f ← get_fiber d (current_stack d);
  if f_wsize f - Z.of_nat (length (f_sp f)) <? req then caml_try_realloc_stack d req
  else Ret (true, d).

(** ** Continuations *)

(** A continuation block holds its fiber until it is used: taking the fiber
    leaves the null pointer behind.  Only this domain runs; a continuation
    of the major heap is first handed to the marking collector. *)
Definition caml_continuation_use_noexc (d : dom) (cont : Z) : result (Z * dom) :=
  let h := if negb (Is_young (hp d) cont) then set_darkened (cont :: darkened (hp d)) (hp d) else hp d in
  v ← Field h cont 0;
  h ← Store_field h cont 0 (Val_ptr NULL);
  Ret (v, set_hp h d).

(** [None]: the continuation had already been resumed. *)
Definition caml_continuation_use (d : dom) (cont : Z) : result (option Z * dom) :=
  '(v, d) ← caml_continuation_use_noexc d cont;
  Ret (if v =? Val_ptr NULL then None else Some v, d).

Fixpoint last_parent (fuel : nat) (d : dom) (stk : Z) : result Z :=
  match fuel with
  | O => NoFuel
  | S fuel =>
      f ← get_fiber d stk;
      if parent f =? NULL then Ret stk else last_parent fuel d (parent f)
  end.
Definition caml_continuation_use_and_update_handler_noexc (d : dom) (cont hval hexn heff : Z) :
    result (Z * dom) :=
  '(stack, d) ← caml_continuation_use_noexc d cont;
  let stk := Ptr_val stack in
  if stk =? NULL then Ret (stack, d) else
  stk ← last_parent (S (size (fibers d))) d stk;
  d ← update_fiber d stk (set_handlers hval hexn heff);
  Ret (stack, d).

(** The compare-and-swap of a fresh fiber into a used continuation. *)
Definition caml_continuation_replace (d : dom) (cont stk : Z) : result dom :=
  n ← Field (hp d) cont 0;
  if n =? Val_ptr NULL then
    h ← Store_field (hp d) cont 0 (Val_ptr stk); Ret (set_hp h d)
  else Ret d.

Definition caml_drop_continuation (d : dom) (cont : Z) : result (option dom) :=
  '(v, d) ← caml_continuation_use d cont;
  match v with
  | None => Ret None
  | Some v => d ← caml_free_stack d (Ptr_val v); Ret (Some d)
  end.

Definition caml_make_unhandled_effect_exn (d : dom) (exn effect : Z) : result (Z * dom) :=
  '(res, h) ← alloc_block (hp d) 0 [exn; effect];
  Ret (res, set_hp h d).

(** ** The stack pool *)

Class StackMemoryOk (SM : StackMemory) : Prop := {
  fiber_wsz_pos : 0 < caml_fiber_wsz;
  max_wsize_bound : caml_max_stack_wsize <= 2 ^ 60;
  stack_mem_fresh : forall d len stk, stack_malloc d len = Some stk ->
    stk <> NULL /\ fibers d !! stk = None /\
    forall b l, stack_cache d !! b = Some l -> stk ∉ l.*1;
}.

Section Pool.
Context `{SM : StackMemory, !StackMemoryOk SM}.

Definition bucket_ok (b sz : Z) : Prop :=
  b = -1 \/ (0 <= b < NUM_STACK_SIZE_CLASSES /\ caml_fiber_wsz * 2 ^ b <= sz).

(** Live stacks and pooled stacks are disjoint, no stack is pooled twice, and
    every stack is at least as large as the class of its bucket. *)
Record pool_ok (d : dom) : Prop := {
  po_buckets : length (stack_cache d) = Z.to_nat NUM_STACK_SIZE_CLASSES;
  po_live : forall stk f, fibers d !! stk = Some f ->
    stk <> NULL /\ 0 < f_wsize f /\ bucket_ok (cache_bucket f) (f_wsize f);
  po_pooled : forall b l stk sz, stack_cache d !! b = Some l -> (stk, sz) ∈ l ->
    stk <> NULL /\ fibers d !! stk = None /\ bucket_ok (Z.of_nat b) sz;
  po_nodup : forall b l, stack_cache d !! b = Some l -> NoDup l.*1;
  po_disjoint : forall b1 b2 l1 l2 stk, stack_cache d !! b1 = Some l1 -> stack_cache d !! b2 = Some l2 ->
    stk ∈ l1.*1 -> stk ∈ l2.*1 -> b1 = b2;
}.

Lemma bucket_from_spec n : forall b sz wosize,
  0 <= b -> let r := bucket_from n b sz wosize in
  r = -1 \/ (b <= r < b + Z.of_nat n /\ wosize = sz * 2 ^ (r - b)).
Proof.
  induction n as [|n IH]; intros b sz wosize Hb; simpl; [by left|].
  destruct (Z.eqb_spec wosize sz) as [->|].
  - right. rewrite Z.sub_diag. lia.
  - destruct (IH (b + 1) (sz + sz) wosize ltac:(lia)) as [E|[Hr Hw]]; [by left|right].
    split; [lia|]. rewrite Hw at 1. replace (bucket_from n (b + 1) (sz + sz) wosize - b)
      with (bucket_from n (b + 1) (sz + sz) wosize - (b + 1) + 1) by lia.
    rewrite Z.pow_add_r by lia. lia.
Qed.

Lemma stack_cache_bucket_spec wosize :
  stack_cache_bucket wosize = -1 \/
  (0 <= stack_cache_bucket wosize < NUM_STACK_SIZE_CLASSES /\
   wosize = caml_fiber_wsz * 2 ^ stack_cache_bucket wosize).
Proof.
  pose proof (bucket_from_spec (Z.to_nat NUM_STACK_SIZE_CLASSES) 0 caml_fiber_wsz wosize ltac:(lia)) as H.
  unfold stack_cache_bucket. simpl in H. destruct H as [H|[H1 H2]]; [by left|right].
  rewrite Z.sub_0_r in H2. done.
Qed.

(** Alignment never makes a stack smaller than asked. *)
Lemma new_stack_size stack wosize : wosize <= (new_stack_high stack wosize - Stack_base stack) / 8.
Proof.
  unfold new_stack_high, Stack_base. apply Z.div_le_lower_bound; [lia|].
  change 15 with (Z.ones 4) at 2. rewrite <- Z.ldiff_land, Z.ldiff_ones_r, Z.shiftr_div_pow2, Z.shiftl_mul_pow2 by lia.
  pose proof (Z.div_mod (stack + sizeof_stack_info + 8 * wosize + 15) (2 ^ 4) ltac:(lia)).
  pose proof (Z.mod_pos_bound (stack + sizeof_stack_info + 8 * wosize + 15) (2 ^ 4) ltac:(lia)). lia.
Qed.

Definition not_pooled (d : dom) (stk : Z) : Prop :=
  forall b l, stack_cache d !! b = Some l -> stk ∉ l.*1.

Lemma pool_live_not_pooled d stk f : pool_ok d -> fibers d !! stk = Some f -> not_pooled d stk.
Proof.
  intros Hd Hf b l Hl (p & -> & Hp)%list_elem_of_fmap. destruct p as [stk sz].
  destruct (po_pooled d Hd b l stk sz Hl Hp) as (_ & Hn & _). simpl in Hf. congruence.
Qed.

Lemma pool_add d stk f :
  pool_ok d -> not_pooled d stk -> stk <> NULL -> 0 < f_wsize f -> bucket_ok (cache_bucket f) (f_wsize f) ->
  pool_ok (set_fibers (<[stk := f]> (fibers d)) d).
Proof.
  intros [H1 H2 H3 H4 H5] Hnp Hnull Hsz Hb. split; simpl; try done.
  - intros x g. rewrite lookup_insert_Some. intros [[<- <-]|[_ Hx]]; [done|by eapply H2].
  - intros b l x sz Hl Hx. destruct (H3 b l x sz Hl Hx) as (? & Hn & ?). split_and!; try done.
    rewrite lookup_insert_ne; [done|]. intros <-. apply (Hnp b l Hl).
    apply list_elem_of_fmap. by exists (stk, sz).
Qed.

Lemma pool_remove d stk : pool_ok d -> pool_ok (set_fibers (delete stk (fibers d)) d).
Proof.
  intros [H1 H2 H3 H4 H5]. split; simpl; try done.
  - intros x g. rewrite lookup_delete_Some. intros [_ Hx]. by eapply H2.
  - intros b l x sz Hl Hx. destruct (H3 b l x sz Hl Hx) as (? & Hn & ?). split_and!; try done.
    rewrite lookup_delete_None. by right.
Qed.

Lemma bucket_lookup d b l b' l' :
  <[b := l]> (stack_cache d) !! b' = Some l' -> (b' = b /\ l' = l) \/ (b' <> b /\ stack_cache d !! b' = Some l').
Proof.
  intros H. apply list_lookup_insert_Some in H as [(-> & -> & _)|[? ?]]; auto.
Qed.

Lemma pool_pop d b stk sz l :
  pool_ok d -> stack_cache d !! b = Some ((stk, sz) :: l) ->
  let d' := set_cache (<[b := l]> (stack_cache d)) d in
  pool_ok d' /\ not_pooled d' stk /\ stk <> NULL /\ fibers d !! stk = None /\ bucket_ok (Z.of_nat b) sz.
Proof.
  intros Hd Hb d'. destruct (po_pooled d Hd b _ stk sz Hb ltac:(set_solver)) as (Hn & Hf & Hbk).
  pose proof (po_nodup d Hd b _ Hb) as Hnd. cbn in Hnd. pose proof (NoDup_cons_1_1 _ _ Hnd) as Hnin. apply NoDup_cons_1_2 in Hnd.
  split_and!; try done.
  - destruct Hd as [H1 H2 H3 H4 H5]. split; simpl; try done.
    + by rewrite length_insert.
    + intros b' l' x sz' [[-> ->]|[Hne Hl]]%bucket_lookup Hx; [|by eapply H3].
      eapply H3; [exact Hb|set_solver].
    + intros b' l' [[-> ->]|[Hne Hl]]%bucket_lookup; [done|by eapply H4].
    + intros b1 b2 l1 l2 x [[-> ->]|[? ?]]%bucket_lookup [[-> ->]|[? ?]]%bucket_lookup Hx1 Hx2; try done;
        eapply H5; try eassumption; cbn; set_solver.
  - intros b' l' [[-> ->]|[Hne Hl]]%bucket_lookup; [done|]. intros Hx. apply Hne.
    apply (po_disjoint d Hd _ _ _ _ stk Hl Hb Hx). cbn. set_solver.
Qed.

Lemma pool_push d b stk sz l :
  pool_ok d -> stack_cache d !! b = Some l -> not_pooled d stk -> stk <> NULL -> fibers d !! stk = None ->
  bucket_ok (Z.of_nat b) sz -> pool_ok (set_cache (<[b := (stk, sz) :: l]> (stack_cache d)) d).
Proof.
  intros [H1 H2 H3 H4 H5] Hb Hnp Hn Hf Hbk. split; simpl; try done.
  - by rewrite length_insert.
  - intros b' l' x sz' [[-> ->]|[Hne Hl]]%bucket_lookup Hx; [|by eapply H3].
    apply elem_of_cons in Hx as [[= -> ->]|Hx]; [done|by eapply H3].
  - intros b' l' [[-> ->]|[Hne Hl]]%bucket_lookup; [|by eapply H4].
    cbn. constructor; [by eapply Hnp|by eapply H4].
  - assert (Hin : forall b' l' x, stack_cache d !! b' = Some l' -> x ∈ l'.*1 -> x <> stk).
    { intros b' l' x Hl Hx ->. by apply (Hnp b' l'). }
    intros b1 b2 l1 l2 x [[-> ->]|[? ?]]%bucket_lookup [[-> ->]|[? ?]]%bucket_lookup Hx1 Hx2; try done;
      cbn in Hx1, Hx2; try (apply elem_of_cons in Hx1 as [->|Hx1]); try (apply elem_of_cons in Hx2 as [->|Hx2]);
      try (by edestruct Hin); by eapply H5.
Qed.

(** The class a caller asks for is the one of the size. *)
Definition class_ok (wosize b : Z) : Prop :=
  b = -1 \/ (0 <= b < NUM_STACK_SIZE_CLASSES /\ wosize = caml_fiber_wsz * 2 ^ b).

Lemma alloc_size_class_spec d wosize b hval hexn heff id stk d' :
  pool_ok d -> 0 < wosize -> class_ok wosize b ->
  alloc_size_class_stack_noexc d wosize b hval hexn heff id = Some (stk, d') ->
  exists sz c, wosize <= sz /\ fibers d !! stk = None /\ pool_ok d' /\
    d' = set_fibers (<[stk := mkFiber [] hval hexn heff NULL b sz id]> (fibers d)) (set_cache c d).
Proof.
  intros Hd Hw Hc E. unfold alloc_size_class_stack_noexc in E. pose proof fiber_wsz_pos as Hpos.
  assert (Hmem : match alloc_for_stack d wosize with
                 | None => None
                 | Some s =>
                     Some (s, set_fibers (<[s := mkFiber [] hval hexn heff NULL b ((new_stack_high s wosize - Stack_base s) / 8) id]> (fibers d)) d)
                 end = Some (stk, d') ->
    exists sz c, wosize <= sz /\ fibers d !! stk = None /\ pool_ok d' /\
      d' = set_fibers (<[stk := mkFiber [] hval hexn heff NULL b sz id]> (fibers d)) (set_cache c d)).
  { destruct (alloc_for_stack d wosize) as [s|] eqn:Ea; [|done]. intros [= <- <-].
    destruct (stack_mem_fresh _ _ _ Ea) as (Hnull & Hf & Hp). pose proof (new_stack_size s wosize) as Hsz.
    exists ((new_stack_high s wosize - Stack_base s) / 8), (stack_cache d). split_and!; try done.
    apply pool_add; simpl; try done; [lia|]. destruct Hc as [->|[Hb ->]]; [by left|right; lia]. }
  destruct (Z.eqb_spec b (-1)) as [->|Hne]; [by apply Hmem|].
  destruct (stack_cache d !! Z.to_nat b) as [[|[s sz] l]|] eqn:Eb; try (by apply Hmem).
  injection E as <- <-. destruct Hc as [?|[Hb Hc]]; [done|].
  destruct (pool_pop d _ _ _ _ Hd Eb) as (Hd' & Hnp & Hnull & Hf & Hbk).
  exists sz, (<[Z.to_nat b := l]> (stack_cache d)).
  destruct Hbk as [?|[_ Hbk]]; [lia|]. rewrite Z2Nat.id in Hbk by lia.
  split_and!; [by rewrite Hc|done| |done].
  assert (0 < 2 ^ b) by (apply Z.pow_pos_nonneg; lia).
  apply (pool_add _ s (mkFiber [] hval hexn heff NULL b sz id)) in Hd'; simpl; try done; [nia|right; lia].
Qed.

Lemma set_cache_fibers x c d : set_fibers x (set_cache c d) = set_cache c (set_fibers x d).
Proof. done. Qed.

Lemma caml_free_stack_spec d stk f :
  pool_ok d -> fibers d !! stk = Some f ->
  exists c, caml_free_stack d stk = Ret (set_fibers (delete stk (fibers d)) (set_cache c d)) /\
    pool_ok (set_fibers (delete stk (fibers d)) (set_cache c d)).
Proof.
  intros Hd Hf. unfold caml_free_stack, get_fiber. rewrite Hf. simpl.
  destruct (po_live d Hd stk f Hf) as (Hnull & Hsz & Hbk).
  pose proof (pool_remove d stk Hd) as Hr.
  destruct (Z.eqb_spec (cache_bucket f) (-1)) as [Eb|Hne]; simpl.
  { exists (stack_cache d). by destruct d. }
  destruct Hbk as [?|[Hb Hbk]]; [done|].
  destruct (lookup_lt_is_Some_2 (stack_cache d) (Z.to_nat (cache_bucket f))) as [l Hl].
  { rewrite (po_buckets d Hd). unfold NUM_STACK_SIZE_CLASSES in *. lia. }
  exists (<[Z.to_nat (cache_bucket f) := (stk, f_wsize f) :: l]> (stack_cache d)).
  rewrite Hl. split; [done|].
  rewrite set_cache_fibers.
  apply (pool_push (set_fibers (delete stk (fibers d)) d) (Z.to_nat (cache_bucket f)) stk (f_wsize f) l);
    simpl; try done.
  - exact (pool_live_not_pooled d stk f Hd Hf).
  - apply lookup_delete_eq.
  - rewrite Z2Nat.id by lia. by right.
Qed.

Lemma grow_wsize_spec fuel : forall max w needed,
  0 < w -> (1 <= fuel)%nat -> max <= w * 2 ^ (Z.of_nat fuel - 1) -> max <= 2 ^ 60 ->
  exists r, grow_wsize fuel max w needed = Ret r /\
    match r with
    | None => max <= w \/ max < needed
    | Some w' => needed <= w' < 2 * max /\ w < w'
    end.
Proof.
  induction fuel as [|fuel IH]; intros max w needed Hw Hf Hm Hmax; [lia|]. cbn [grow_wsize].
  destruct (Z.leb_spec max w); [exists None; auto|]. rewrite (wrap_small 64) by lia.
  destruct (Z.ltb_spec (w * 2) needed).
  - destruct fuel as [|fuel']; [change (Z.of_nat 1 - 1) with 0 in Hm; lia|].
    destruct (IH max (w * 2) needed) as (r & E & Hr); [lia|lia| |done|].
    { replace (Z.of_nat (S (S fuel')) - 1) with (Z.of_nat (S fuel') - 1 + 1) in Hm by lia.
      rewrite Z.pow_add_r in Hm by lia. lia. }
    exists r. split; [done|]. destruct r; lia.
  - exists (Some (w * 2)). split_and!; [done|lia..].
Qed.

Lemma stack_cache_class wosize : class_ok wosize (stack_cache_bucket wosize).
Proof. apply stack_cache_bucket_spec. Qed.

(** What growing the current stack does: on success the current stack is a
    new one with the same words, handlers, parent and identity and room for
    the request, and every other fiber is untouched; otherwise nothing
    changed. *)
Definition realloc_spec (d : dom) (f : fiber) (required : Z) (r : bool * dom) : Prop :=
  if r.1 then
    let new := current_stack r.2 in
    pool_ok r.2 /\ hp r.2 = hp d /\ trap_sp_off r.2 = trap_sp_off d /\ code r.2 = code d /\
    fibers d !! new = None /\
    exists sz b, Z.of_nat (length (f_sp f)) + required <= sz /\
      fibers r.2 = <[new := mkFiber (f_sp f) (handle_value f) (handle_exn f) (handle_effect f)
                              (parent f) b sz (f_id f)]> (delete (current_stack d) (fibers d))
  else r.2 = d /\
    (caml_max_stack_wsize <= f_wsize f \/ caml_max_stack_wsize < Z.of_nat (length (f_sp f)) + required \/
     exists w, caml_alloc_stack_noexc d w (handle_value f) (handle_exn f) (handle_effect f) (f_id f) = None).

(** The part of the stack that the code copies. *)
Definition copied_words (f : fiber) : list Z := drop (length (f_sp f) - Z.to_nat (s32 (Z.of_nat (length (f_sp f))))) (f_sp f).
Lemma realloc_stack_cases d f required :
  pool_ok d -> fibers d !! current_stack d = Some f ->
  let needed := u64 (s32 (Z.of_nat (length (f_sp f))) + required) in
  caml_try_realloc_stack d required = Ret (false, d) /\
    (caml_max_stack_wsize <= f_wsize f \/ caml_max_stack_wsize < needed \/
     exists w, caml_alloc_stack_noexc d w (handle_value f) (handle_exn f) (handle_effect f) (f_id f) = None) \/
  s32 (Z.of_nat (length (f_sp f))) < 0 /\ caml_try_realloc_stack d required = Undef \/
  exists d', caml_try_realloc_stack d required = Ret (true, d') /\
    let new := current_stack d' in
    pool_ok d' /\ hp d' = hp d /\ trap_sp_off d' = trap_sp_off d /\ code d' = code d /\ fibers d !! new = None /\
    exists sz b, needed <= sz /\
      fibers d' = <[new := mkFiber (copied_words f) (handle_value f) (handle_exn f) (handle_effect f)
                             (parent f) b sz (f_id f)]> (delete (current_stack d) (fibers d)).
Proof.
  intros Hd Hf. unfold caml_try_realloc_stack, get_fiber. rewrite Hf. cbn [of_option mbind result_bind].
  destruct (po_live d Hd _ f Hf) as (Hnull & Hsz & Hbk). pose proof max_wsize_bound as Hmax.
  set (needed := u64 _). destruct (grow_wsize_spec 64 caml_max_stack_wsize (f_wsize f) needed)
    as (r & -> & Hr); [lia|lia|change (Z.of_nat 64 - 1) with 63; nia|done|].
  mred. destruct r as [w|].
  2:{ left. split; [done|]. tauto. }
  destruct (caml_alloc_stack_noexc d w _ _ _ _) as [[new d']|] eqn:Ea.
  2:{ left. split; [done|]. eauto. }
  right. destruct (Z.ltb_spec (s32 (Z.of_nat (length (f_sp f)))) 0); [by left|right].
  apply alloc_size_class_spec in Ea as (sz & c & Hw & Hfresh & Hd' & Ed'); [|done|lia|apply stack_cache_class].
  subst d'. assert (new <> current_stack d) as Hne by congruence. fold (copied_words f). mred.
  unfold update_fiber, get_fiber. cbn [set_fibers fibers]. rewrite lookup_insert_eq. cbn [of_option mbind result_bind].
  set (d2 := set_fibers _ (set_fibers _ _)).
  assert (pool_ok d2) as Hd2.
  { destruct (po_live _ Hd' new (mkFiber [] (handle_value f) (handle_exn f) (handle_effect f) NULL
      (stack_cache_bucket w) sz (f_id f))) as (? & ? & ?); [cbn; by rewrite lookup_insert_eq|].
    unfold d2. apply pool_add; [done|..]; try done. eapply pool_live_not_pooled; [done|]. cbn. by rewrite lookup_insert_eq. }
  destruct (caml_free_stack_spec d2 (current_stack d) f Hd2) as (c' & -> & Hp).
  { cbn. by rewrite !lookup_insert_ne. }
  mred. eexists. split; [done|]. cbn. split_and!; try done.
  - destruct Hp as [P1 P2 P3 P4 P5]. by split.
  - exists sz, (stack_cache_bucket w). split; [lia|].
    unfold d2. cbn. rewrite insert_insert_eq. by rewrite delete_insert_ne.
Qed.
(** A stack of fewer than [2^31] words is copied whole. *)
Lemma realloc_stack_spec d f required :
  pool_ok d -> fibers d !! current_stack d = Some f -> Z.of_nat (length (f_sp f)) < 2 ^ 31 -> 0 <= required < 2 ^ 63 ->
  exists r, caml_try_realloc_stack d required = Ret r /\ realloc_spec d f required r.
Proof.
  intros Hd Hf Hl Hr. assert (s32 (Z.of_nat (length (f_sp f))) = Z.of_nat (length (f_sp f))) as E32 by (apply swrap_small; lia).
  pose proof (realloc_stack_cases d f required Hd Hf) as Hc. unfold copied_words in Hc. rewrite E32, Nat2Z.id, Nat.sub_diag in Hc. cbn zeta in Hc.
  rewrite (wrap_small 64) in Hc by lia. destruct Hc as [[E Hc]|[[? _]|(d' & E & Hc)]]; [|lia|].
  - eexists. split; [exact E|]. split; [done|exact Hc].
  - eexists. split; [exact E|exact Hc].
Qed.

(** The operations on stacks. *)
Inductive stack_step (d : dom) : dom -> Prop :=
| step_alloc wosize hval hexn heff id stk d' :
    0 < wosize -> caml_alloc_stack_noexc d wosize hval hexn heff id = Some (stk, d') -> stack_step d d'
| step_fiber hval hexn heff v d' :
    caml_alloc_stack d hval hexn heff = Ret (v, d') -> stack_step d d'
| step_free stk d' : caml_free_stack d stk = Ret d' -> stack_step d d'
| step_realloc required b d' :
    caml_try_realloc_stack d required = Ret (b, d') -> stack_step d d'
| step_save stk g d' : (forall f, cache_bucket (g f) = cache_bucket f /\ f_wsize (g f) = f_wsize f) ->
    update_fiber d stk g = Ret d' -> stack_step d d'.

Lemma pool_update d stk f f' :
  pool_ok d -> fibers d !! stk = Some f -> cache_bucket f' = cache_bucket f -> f_wsize f' = f_wsize f ->
  pool_ok (set_fibers (<[stk := f']> (fibers d)) d).
Proof.
  intros Hd Hf Eb Ew. destruct (po_live d Hd stk f Hf) as (? & ? & ?).
  apply pool_add; rewrite ?Eb, ?Ew; try done. by eapply pool_live_not_pooled.
Qed.

Lemma pool_set_id d x : pool_ok d -> pool_ok (set_fiber_id x d).
Proof. intros [P1 P2 P3 P4 P5]. by split. Qed.

Lemma pool_step d d' : pool_ok d -> stack_step d d' -> pool_ok d'.
Proof.
  intros Hd [wosize hval hexn heff id stk d1 Hw E|hval hexn heff v d1 E|stk d1 E|required b d1 E|stk g d1 Hg E].
  - apply alloc_size_class_spec in E as (sz & c & _ & _ & Hp & _); [done..|apply stack_cache_class].
  - unfold caml_alloc_stack in E. pose proof fiber_wsz_pos.
    destruct (alloc_size_class_stack_noexc _ _ _ _ _ _ _) as [[s d2]|] eqn:Ea; [|done].
    apply alloc_size_class_spec in Ea as (sz & c & _ & _ & Hp & _);
      [|by apply pool_set_id|lia|right; unfold NUM_STACK_SIZE_CLASSES; lia].
    unfold update_fiber, get_fiber in E. destruct (fibers d2 !! s) as [f|] eqn:Ef; [|done].
    simpl in E. injection E as <- <-. by eapply pool_update.
  - destruct (fibers d !! stk) as [f|] eqn:Ef; [|unfold caml_free_stack, get_fiber in E; by rewrite Ef in E].
    destruct (caml_free_stack_spec d stk f Hd Ef) as (c & E' & Hp). rewrite E' in E. by injection E as <-.
  - destruct (fibers d !! current_stack d) as [f|] eqn:Ef.
    2:{ unfold caml_try_realloc_stack, get_fiber in E. by rewrite Ef in E. }
    destruct (realloc_stack_cases d f required Hd Ef) as [[E' _]|[[_ E']|(d2 & E' & Hs & _)]]; rewrite E' in E; by simplify_eq.
  - unfold update_fiber, get_fiber in E. destruct (fibers d !! stk) as [f|] eqn:Ef; [|done].
    simpl in E. injection E as <-. destruct (Hg f). by eapply pool_update.
Qed.

End Pool.

(** ** Properties *)

(** A memory that places each new stack above all the others. *)
Definition stack_top (d : dom) : Z :=
  Z.max (map_fold (fun a _ m => Z.max a m) 0 (fibers d))
        (foldr (fun p m => Z.max p.1 m) 0 (concat (stack_cache d))).
Definition growing_stacks : StackMemory := {|
  stack_malloc d len := Some (stack_top d + 16);
  caml_fiber_wsz := 128;
  caml_max_stack_wsize := 2 ^ 20;
|}.

Lemma stack_top_fibers d stk f : fibers d !! stk = Some f -> stk <= stack_top d.
Proof.
  intros Hf. unfold stack_top. transitivity (map_fold (fun a (_ : fiber) m => Z.max a m) 0 (fibers d)); [|lia].
  revert stk f Hf. apply (map_fold_weak_ind (fun r (m : gmap Z fiber) => forall stk f, m !! stk = Some f -> stk <= r)).
  - intros stk f. by rewrite lookup_empty.
  - intros a g m r _ IH stk f. rewrite lookup_insert_Some. intros [[<- _]|[_ Hf]]; [lia|].
    apply IH in Hf. lia.
Qed.
Lemma stack_top_cache d b l stk : stack_cache d !! b = Some l -> stk ∈ l.*1 -> stk <= stack_top d.
Proof.
  intros Hl (p & -> & Hp)%list_elem_of_fmap. unfold stack_top.
  assert (p ∈ concat (stack_cache d)) as Hc.
  { apply list_elem_of_In, in_concat. exists l. split; apply list_elem_of_In; [by eapply list_elem_of_lookup_2|done]. }
  enough (p.1 <= foldr (fun p m => Z.max p.1 m) 0 (concat (stack_cache d))) by lia.
  induction (concat (stack_cache d)) as [|q l' IH]; [by apply not_elem_of_nil in Hc|].
  apply elem_of_cons in Hc as [->|Hc]; simpl; [lia|]. specialize (IH Hc). lia.
Qed.
#[export] Instance growing_stacks_ok : StackMemoryOk growing_stacks.
Proof.
  assert (forall d, 0 <= stack_top d) as Htop.
  { intros d. unfold stack_top. induction (concat (stack_cache d)); simpl; lia. }
  split; simpl; [lia|lia|]. intros d len stk [= <-]. specialize (Htop d). split_and!; try done.
  - unfold NULL. lia.
  - destruct (fibers d !! _) eqn:E; [|done]. apply stack_top_fibers in E. lia.
  - intros b l Hl Hin. eapply stack_top_cache in Hin; [|done]. lia.
Qed.

(** C40: the pool of stacks is safe.  Whatever sequence of allocations,
    releases, reallocations and saves is performed, no stack is both live and
    pooled, none is pooled twice, and every stack handed out is free, empty,
    unparented and at least as large as asked. *)
Theorem stack_pool_safe `{SM : StackMemory, !StackMemoryOk SM} (d d' : dom) :
  pool_ok d -> rtc stack_step d d' ->
  pool_ok d' /\
  forall wosize hval hexn heff id stk d'', 0 < wosize ->
    caml_alloc_stack_noexc d' wosize hval hexn heff id = Some (stk, d'') ->
    fibers d' !! stk = None /\
    exists sz, wosize <= sz /\
      fibers d'' = <[stk := mkFiber [] hval hexn heff NULL (stack_cache_bucket wosize) sz id]> (fibers d').
Proof.
  intros Hd Hs. assert (pool_ok d') as Hd'.
  { induction Hs as [|x y z Hxy _ IH]; [done|]. apply IH. by eapply pool_step. }
  split; [done|]. intros wosize hval hexn heff id stk d'' Hw E.
  apply alloc_size_class_spec in E as (sz & c & Hsz & Hf & _ & ->); [|done..|apply stack_cache_class].
  split; [done|]. by exists sz.
Qed.

Definition ex_dom : dom :=
  mkDom 16 1 {[16 := mkFiber [Val_long 5; Val_long 1] 1 1 1 NULL (-1) 100 0]} (replicate 5 []) 1
    (mkHeap ∅ 3000 2000 2000 3000 64 [] []) ∅ 1 1 false 0 (-1) 0.
Lemma ex_dom_ok : pool_ok (SM := growing_stacks) ex_dom.
Proof.
  assert (forall b l, stack_cache ex_dom !! b = Some l -> l = []) as Hl.
  { intros b l Hl. unfold ex_dom in Hl. cbn [stack_cache] in Hl. by apply lookup_replicate in Hl as [-> _]. }
  split; try done.
  - intros stk f Hf. unfold ex_dom in Hf. cbn [fibers] in Hf. apply lookup_singleton_Some in Hf as [<- <-].
    split_and!; [done|done|by left].
  - intros b l stk sz E. rewrite (Hl b l E). by intros ?%not_elem_of_nil.
  - intros b l E. rewrite (Hl b l E). constructor.
  - intros b1 b2 l1 l2 stk E. rewrite (Hl b1 l1 E). by intros _ ?%not_elem_of_nil.
Qed.
Lemma stack_pool_safe_witness :
  exists v d', caml_alloc_stack (H := growing_stacks) ex_dom 1 3 5 = Ret (v, d') /\ pool_ok (SM := growing_stacks) d'.
Proof.
  eexists _, _. split; [vm_compute; reflexivity|].
  eapply (stack_pool_safe (SM := growing_stacks) ex_dom); [apply ex_dom_ok|].
  apply rtc_once. eapply (step_fiber ex_dom 1 3 5). vm_compute. reflexivity.
Defined.

(** Growing a stack of fewer than [2^31] words.  [caml_try_realloc_stack] returns; when it
    succeeds the current fiber has moved to a new stack with the same words,
    handlers, parent and identity, at least the requested room, and the same
    trap offset, the other fibers and the heap being untouched; when it fails
    nothing has changed and the limit or the memory is exhausted. *)
Theorem stack_growth `{SM : StackMemory, !StackMemoryOk SM} (d : dom) (f : fiber) (required : Z) :
  pool_ok d -> fibers d !! current_stack d = Some f -> Z.of_nat (length (f_sp f)) < 2 ^ 31 -> 0 <= required < 2 ^ 63 ->
  exists r, caml_try_realloc_stack d required = Ret r /\ realloc_spec d f required r.
Proof. apply realloc_stack_spec. Qed.
Lemma stack_growth_witness :
  exists r, caml_try_realloc_stack (H := growing_stacks) ex_dom 1000 = Ret r /\ r.1 = true /\
    realloc_spec (SM := growing_stacks) ex_dom (mkFiber [Val_long 5; Val_long 1] 1 1 1 NULL (-1) 100 0) 1000 r.
Proof.
  destruct (stack_growth (SM := growing_stacks) ex_dom (mkFiber [Val_long 5; Val_long 1] 1 1 1 NULL (-1) 100 0) 1000)
    as (r & E & Hr); [apply ex_dom_ok|reflexivity|reflexivity|lia|].
  exists r. split; [exact E|]. split; [|exact Hr]. vm_compute in E. by injection E as <-.
Defined.

End Fiber.
Export Fiber.
