(* ===== verification/Interp.v ===== *)
(** * The bytecode interpreter (runtime/interp.c)

    The registers of the abstract machine and one function per group of
    instructions, following the sections of [caml_interprete].  The labels
    several instructions jump to ([check_stacks], [do_return],
    [raise_notrace], [process_signal], [do_resume]) are functions of their
    own.  Code addresses are byte addresses, opcodes and operands signed
    32-bit words at multiples of four. *)

From S2P Require Import Prelude Memory Barrier Fiber.

Module Interp.

(** ** Opcodes, in the order of caml/instruct.h *)
Inductive opcode :=
| ACC0 | ACC1 | ACC2 | ACC3 | ACC4 | ACC5 | ACC6 | ACC7
| ACC | PUSH
| PUSHACC0 | PUSHACC1 | PUSHACC2 | PUSHACC3
| PUSHACC4 | PUSHACC5 | PUSHACC6 | PUSHACC7
| PUSHACC | POP | ASSIGN
| ENVACC1 | ENVACC2 | ENVACC3 | ENVACC4 | ENVACC
| PUSHENVACC1 | PUSHENVACC2 | PUSHENVACC3 | PUSHENVACC4 | PUSHENVACC
| PUSH_RETADDR | APPLY | APPLY1 | APPLY2 | APPLY3
| APPTERM | APPTERM1 | APPTERM2 | APPTERM3
| RETURN | RESTART | GRAB
| CLOSURE | CLOSUREREC
| OFFSETCLOSUREM3 | OFFSETCLOSURE0 | OFFSETCLOSURE3 | OFFSETCLOSURE
| PUSHOFFSETCLOSUREM3 | PUSHOFFSETCLOSURE0
| PUSHOFFSETCLOSURE3 | PUSHOFFSETCLOSURE
| GETGLOBAL | PUSHGETGLOBAL | GETGLOBALFIELD | PUSHGETGLOBALFIELD | SETGLOBAL
| ATOM0 | ATOM | PUSHATOM0 | PUSHATOM
| MAKEBLOCK | MAKEBLOCK1 | MAKEBLOCK2 | MAKEBLOCK3 | MAKEFLOATBLOCK
| GETFIELD0 | GETFIELD1 | GETFIELD2 | GETFIELD3 | GETFIELD | GETFLOATFIELD
| SETFIELD0 | SETFIELD1 | SETFIELD2 | SETFIELD3 | SETFIELD | SETFLOATFIELD
| VECTLENGTH | GETVECTITEM | SETVECTITEM
| GETBYTESCHAR | SETBYTESCHAR
| BRANCH | BRANCHIF | BRANCHIFNOT | SWITCH | BOOLNOT
| PUSHTRAP | POPTRAP | RAISE
| CHECK_SIGNALS
| C_CALL1 | C_CALL2 | C_CALL3 | C_CALL4 | C_CALL5 | C_CALLN
| CONST0 | CONST1 | CONST2 | CONST3 | CONSTINT
| PUSHCONST0 | PUSHCONST1 | PUSHCONST2 | PUSHCONST3 | PUSHCONSTINT
| NEGINT | ADDINT | SUBINT | MULINT | DIVINT | MODINT
| ANDINT | ORINT | XORINT | LSLINT | LSRINT | ASRINT
| EQ | NEQ | LTINT | LEINT | GTINT | GEINT
| OFFSETINT | OFFSETREF | ISINT
| GETMETHOD
| BEQ | BNEQ | BLTINT | BLEINT | BGTINT | BGEINT
| ULTINT | UGEINT
| BULTINT | BUGEINT
| GETPUBMET | GETDYNMET
| STOP
| EVENT | BREAK
| RERAISE | RAISE_NOTRACE
| GETSTRINGCHAR
| PERFORM | RESUME | RESUMETERM | REPERFORMTERM.

Definition instructions : list opcode :=
  [ACC0; ACC1; ACC2; ACC3; ACC4; ACC5; ACC6; ACC7;
   ACC; PUSH;
   PUSHACC0; PUSHACC1; PUSHACC2; PUSHACC3;
   PUSHACC4; PUSHACC5; PUSHACC6; PUSHACC7;
   PUSHACC; POP; ASSIGN;
   ENVACC1; ENVACC2; ENVACC3; ENVACC4; ENVACC;
   PUSHENVACC1; PUSHENVACC2; PUSHENVACC3; PUSHENVACC4; PUSHENVACC;
   PUSH_RETADDR; APPLY; APPLY1; APPLY2; APPLY3;
   APPTERM; APPTERM1; APPTERM2; APPTERM3;
   RETURN; RESTART; GRAB;
   CLOSURE; CLOSUREREC;
   OFFSETCLOSUREM3; OFFSETCLOSURE0; OFFSETCLOSURE3; OFFSETCLOSURE;
   PUSHOFFSETCLOSUREM3; PUSHOFFSETCLOSURE0;
   PUSHOFFSETCLOSURE3; PUSHOFFSETCLOSURE;
   GETGLOBAL; PUSHGETGLOBAL; GETGLOBALFIELD; PUSHGETGLOBALFIELD; SETGLOBAL;
   ATOM0; ATOM; PUSHATOM0; PUSHATOM;
   MAKEBLOCK; MAKEBLOCK1; MAKEBLOCK2; MAKEBLOCK3; MAKEFLOATBLOCK;
   GETFIELD0; GETFIELD1; GETFIELD2; GETFIELD3; GETFIELD; GETFLOATFIELD;
   SETFIELD0; SETFIELD1; SETFIELD2; SETFIELD3; SETFIELD; SETFLOATFIELD;
   VECTLENGTH; GETVECTITEM; SETVECTITEM;
   GETBYTESCHAR; SETBYTESCHAR;
   BRANCH; BRANCHIF; BRANCHIFNOT; SWITCH; BOOLNOT;
   PUSHTRAP; POPTRAP; RAISE;
   CHECK_SIGNALS;
   C_CALL1; C_CALL2; C_CALL3; C_CALL4; C_CALL5; C_CALLN;
   CONST0; CONST1; CONST2; CONST3; CONSTINT;
   PUSHCONST0; PUSHCONST1; PUSHCONST2; PUSHCONST3; PUSHCONSTINT;
   NEGINT; ADDINT; SUBINT; MULINT; DIVINT; MODINT;
   ANDINT; ORINT; XORINT; LSLINT; LSRINT; ASRINT;
   EQ; NEQ; LTINT; LEINT; GTINT; GEINT;
   OFFSETINT; OFFSETREF; ISINT;
   GETMETHOD;
   BEQ; BNEQ;  BLTINT; BLEINT; BGTINT; BGEINT;
   ULTINT; UGEINT;
   BULTINT; BUGEINT;
   GETPUBMET; GETDYNMET;
   STOP;
   EVENT; BREAK;
   RERAISE; RAISE_NOTRACE;
   GETSTRINGCHAR;
   PERFORM; RESUME; RESUMETERM; REPERFORMTERM].

Definition decode (n : Z) : option opcode := if n <? 0 then None else instructions !! Z.to_nat n.

(** ** The machine *)

(** The registers; [sp] is the part of the current stack up to [Stack_high].
    The words saved in the fiber of the current stack are only up to date
    after one of the [Setup_for] macros. *)
Record st := mkSt {
  pc : Z;
  accu : Z;
  env : Z;
  extra_args : Z;
  sp : list Z;
  d : dom;
}.
Definition set_pc (x : Z) (s : st) : st := mkSt x (accu s) (env s) (extra_args s) (sp s) (d s).
Definition set_accu (x : Z) (s : st) : st := mkSt (pc s) x (env s) (extra_args s) (sp s) (d s).
Definition set_env (x : Z) (s : st) : st := mkSt (pc s) (accu s) x (extra_args s) (sp s) (d s).
Definition set_extra (x : Z) (s : st) : st := mkSt (pc s) (accu s) (env s) x (sp s) (d s).
Definition set_sp (x : list Z) (s : st) : st := mkSt (pc s) (accu s) (env s) (extra_args s) x (d s).
Definition set_d (x : dom) (s : st) : st := mkSt (pc s) (accu s) (env s) (extra_args s) (sp s) x.
Definition set_heap (h : heap) (s : st) : st := set_d (set_hp h (d s)) s.
Definition h (s : st) : heap := hp (d s).

(** What one instruction leads to: the next one, the end of the run, or an
    exception no handler of this run catches. *)
Inductive outcome :=
| Next (s : st)
| Stop (v : Z) (s : st)
| Exception_result (v : Z) (s : st).

(** A C function returns a value or raises an exception. *)
Inductive c_result :=
| C_return (v : Z) (x : dom)
| C_raise (exn : Z) (x : dom).

(** The code the interpreter calls and that is not part of it: the C
    primitives, the pending actions (signals, finalisers, memprof), the
    debugger, and the two exceptions of module Effect registered by the
    standard library. *)
Class Runtime : Type := {
  Primitive : Z -> list Z -> dom -> c_result;
  caml_process_pending_actions_with_root_exn : Z -> dom -> c_result;
  caml_debugger : Z -> dom -> dom;
  caml_debugger_saved_instruction : Z -> Z;
  caml_unhandled_effect_exn : Z;
  caml_continuation_already_resumed_exn : Z;
}.
Definition EVENT_COUNT : Z := 0.
Definition BREAKPOINT : Z := 1.
Definition TRAP_BARRIER : Z := 4.

(** Values the interpreter saved when it was entered. *)
Record entry := mkEntry {
  initial_trap_sp_off : Z;
  initial_stack_words : Z;
}.

(** ** Stack and code access *)
Definition peek (s : st) (n : Z) : result Z := if n <? 0 then Undef else of_option (sp s !! Z.to_nat n).
Definition push (x : Z) (s : st) : st := set_sp (x :: sp s) s.
Definition pushes (l : list Z) (s : st) : st := set_sp (l ++ sp s) s.
(** [sp += n]; moving past [Stack_high] is never meaningful. *)
Definition pop (n : Z) (s : st) : result st :=
  if (n <? 0) || (Z.of_nat (length (sp s)) <? n) then Undef else Ret (set_sp (drop (Z.to_nat n) (sp s)) s).
Definition pop1 (s : st) : result (Z * st) :=
  match sp s with [] => Undef | x :: l => Ret (x, set_sp l s) end.
(** [pc[i]] and [*pc++] *)
Definition code_at (s : st) (i : Z) : result Z := of_option (code (d s) !! (pc s + 4 * i)).
Definition operand (s : st) : result (Z * st) := x ← code_at s 0; Ret (x, set_pc (pc s + 4) s).
(** [pc + *pc]: branch targets are relative to the operand. *)
Definition target (s : st) (i : Z) : result Z := x ← code_at s i; Ret (pc s + 4 * x).

(** ** GC, C-call, event and debugger frames *)
Definition save_sp (s : st) : result dom :=
  update_fiber (d s) (current_stack (d s)) (set_f_sp (sp s)).
Definition restore_sp (x : dom) (s : st) : result st :=
  f ← get_fiber x (current_stack x); Ret (set_sp (f_sp f) (set_d x s)).

Definition Setup_for_c_call (s : st) : result st :=
  let s := pushes [env s; pc s + 4] s in x ← save_sp s; Ret (set_d x s).
Definition Restore_after_c_call (x : dom) (s : st) : result st :=
  s ← restore_sp x s; e ← peek s 0; pop 2 (set_env e s).
Definition Setup_for_event (s : st) : result st :=
  let s := pushes [accu s; Val_unit; Val_unit; pc s; env s; Val_long (extra_args s)] s in
  x ← save_sp s; Ret (set_d x s).
Definition Restore_after_event (x : dom) (s : st) : result st :=
  s ← restore_sp x s;
  a ← peek s 0; p ← peek s 3; e ← peek s 4; ea ← peek s 5;
  pop 6 (set_accu a (set_pc p (set_env e (set_extra (Long_val ea) s)))).
Definition Setup_for_debugger (s : st) : result st :=
  let s := pushes [accu s; pc s - 4; env s; Val_long (extra_args s)] s in
  x ← save_sp s; Ret (set_d x s).
Definition Restore_after_debugger (s : st) : result st := pop 4 s.

Section Instructions.
Context `{SM : StackMemory} `{SH : SharedHeap} `{RT : Runtime}.
Variable e : entry.

(** ** Trap barriers (debugger) *)
Definition check_trap_barrier_for_exception (s : st) : result st :=
  f ← get_fiber (d s) (current_stack (d s));
  if (f_id f =? trap_barrier_block (d s)) && (trap_barrier_off (d s) <=? trap_sp_off (d s))
  then Ret (set_d (caml_debugger TRAP_BARRIER (d s)) s) else Ret s.
Definition check_trap_barrier_for_effect (s : st) : result st :=
  f ← get_fiber (d s) (current_stack (d s));
  if f_id f =? trap_barrier_block (d s) then Ret (set_d (caml_debugger TRAP_BARRIER (d s)) s)
  else if negb (parent f =? NULL) then
    p ← get_fiber (d s) (parent f);
    if (f_id p =? trap_barrier_block (d s)) &&
       (2 - Z.of_nat (length (f_sp p)) =? trap_barrier_off (d s))
    then Ret (set_d (caml_debugger TRAP_BARRIER (d s)) s) else Ret s
  else Ret s.

(** ** Raising *)

(** Leaving a fiber for its parent, by a return or by an exception: [accu] is
    the argument of the value or exception handler of the fiber left. *)
Definition switch_to_parent (s : st) (handler : fiber -> Z) : result st :=
  f ← get_fiber (d s) (current_stack (d s));
  p ← get_fiber (d s) (parent f);
  x ← caml_free_stack (d s) (current_stack (d s));
  off ← of_option (f_sp p !! 0%nat);
  ea ← of_option (f_sp p !! 1%nat);
  let x := set_trap (Long_val off) (set_current (parent f) x) in
  pc ← Code_val (hp x) (handler f);
  Ret (mkSt pc (handler f) (handler f) (Long_val ea) (accu s :: drop 2 (f_sp p)) x).

(** Without a handler in this fiber, the exception goes to the parent fiber,
    or out of the interpreter from the outermost one.  [check] is what
    follows label [check_stacks]. *)
Definition raise_notrace_with (check : st -> result outcome) (s : st) : result outcome :=
  let off := trap_sp_off (d s) in
  if 0 <? off then
    f ← get_fiber (d s) (current_stack (d s));
    if parent f =? NULL then
      if Z.of_nat (length (sp s)) <? initial_stack_words e then Undef else
      let f' := set_f_sp (drop (length (sp s) - Z.to_nat (initial_stack_words e)) (sp s)) f in
      Ret (Exception_result (accu s)
             (set_d (set_trap (initial_trap_sp_off e)
                (set_fibers (<[current_stack (d s) := f']> (fibers (d s))) (d s))) s))
    else s ← switch_to_parent s handle_exn; check s
  else
    if Z.of_nat (length (sp s)) <? - off then Undef else
    let tp := drop (length (sp s) - Z.to_nat (- off)) (sp s) in
    let s := set_sp tp s in
    p ← peek s 0; link ← peek s 1; en ← peek s 2; ea ← peek s 3;
    s ← pop 4 (set_pc p (set_env en (set_extra (Long_val ea)
                 (set_d (set_trap (Long_val link) (d s)) s))));
    Ret (Next s).

(** [caml_raise] up to the non-local jump: the pending actions run first, and
    an exception of theirs replaces the one being raised. *)
Definition caml_raise (v : Z) (x : dom) : Z * dom :=
  match caml_process_pending_actions_with_root_exn v x with
  | C_return v x => (v, x)
  | C_raise exn x => (exn, x)
  end.

(** An exception raised by C code: the non-local jump back to the
    interpreter reloads [sp] from the current stack. *)
Definition raise_from_c_with (check : st -> result outcome) (exn : Z) (x : dom) (s : st) : result outcome :=
  s ← restore_sp x s;
  s ← check_trap_barrier_for_exception (set_accu exn s);
  raise_notrace_with check s.

(** ** Stack checks and signals *)
Definition process_signal_with (check : st -> result outcome) (s : st) : result outcome :=
  s ← Setup_for_event s;
  match caml_process_pending_actions_with_root_exn Val_unit (d s) with
  | C_return _ x => s ← Restore_after_event x s; Ret (Next s)
  | C_raise exn x => let '(exn, x) := caml_raise exn x in raise_from_c_with check exn x s
  end.

(** A stack overflow is raised in a state with little room left; raising it
    can lead to a handler whose own stack is checked.  Each such round
    leaves one fiber, so [n] bounds the number of fibers left. *)
Definition STACK_OVERFLOW_EXN : Z := 8.
Definition ZERO_DIVIDE_EXN : Z := 5.
Definition OUT_OF_MEMORY_EXN : Z := 0.
Fixpoint check_stacks_from (n : nat) (s : st) : result outcome :=
  match n with
  | O => NoFuel
  | S n =>
      f ← get_fiber (d s) (current_stack (d s));
      if f_wsize f - Z.of_nat (length (sp s)) <? Stack_threshold_words then
        x ← save_sp s;
        '(ok, x) ← caml_try_realloc_stack x Stack_threshold_words;
        if negb ok then
          s ← Setup_for_c_call (set_d x s);
          exn ← Field (h s) (caml_global_data (d s)) STACK_OVERFLOW_EXN;
          let '(exn, x) := caml_raise exn (d s) in
          raise_from_c_with (check_stacks_from n) exn x s
        else
          s ← restore_sp x s;
          if caml_check_gc_interrupt (h s) then process_signal_with (check_stacks_from n) s else Ret (Next s)
      else
        if caml_check_gc_interrupt (h s) then process_signal_with (check_stacks_from n) s else Ret (Next s)
  end.
Definition check_stacks (s : st) : result outcome := check_stacks_from (S (size (fibers (d s)))) s.
Definition raise_notrace : st -> result outcome := raise_notrace_with check_stacks.
Definition raise_from_c : Z -> dom -> st -> result outcome := raise_from_c_with check_stacks.
Definition process_signal : st -> result outcome := process_signal_with check_stacks.

(** [Setup_for_c_call; caml_raise(exn)] *)
Definition raise_in_c (exn : Z) (s : st) : result outcome :=
  s ← Setup_for_c_call s;
  let '(exn, x) := caml_raise exn (d s) in
  raise_from_c exn x s.
(** [Setup_for_c_call; caml_raise_constant(Field(caml_global_data, k))] *)
Definition raise_constant (k : Z) (s : st) : result outcome :=
  exn ← Field (h s) (caml_global_data (d s)) k; raise_in_c exn s.

(** [raise_exception]: the backtrace itself is not recorded. *)
Definition raise_exception (s : st) : result outcome :=
  s ← check_trap_barrier_for_exception s;
  let s := if backtrace_active (d s) then push (pc s - 4) s else s in
  raise_notrace s.

(** Jump to the code of closure [accu]. *)
Definition enter_closure (s : st) : result st :=
  p ← Code_val (h s) (accu s); Ret (set_env (accu s) (set_pc p s)).

(** ** Basic stack operations *)
Definition acc_n (n : Z) (s : st) : result outcome := x ← peek s n; Ret (Next (set_accu x s)).
Definition pushacc_n (n : Z) (s : st) : result outcome := acc_n n (push (accu s) s).
Definition exec_stack (op : opcode) (s : st) : result outcome :=
  match op with
  | ACC0 => acc_n 0 s
  | ACC1 => acc_n 1 s
  | ACC2 => acc_n 2 s
  | ACC3 => acc_n 3 s
  | ACC4 => acc_n 4 s
  | ACC5 => acc_n 5 s
  | ACC6 => acc_n 6 s
  | ACC7 => acc_n 7 s
  | PUSH | PUSHACC0 => Ret (Next (push (accu s) s))
  | PUSHACC1 => pushacc_n 1 s
  | PUSHACC2 => pushacc_n 2 s
  | PUSHACC3 => pushacc_n 3 s
  | PUSHACC4 => pushacc_n 4 s
  | PUSHACC5 => pushacc_n 5 s
  | PUSHACC6 => pushacc_n 6 s
  | PUSHACC7 => pushacc_n 7 s
  | PUSHACC => let s := push (accu s) s in '(n, s) ← operand s; acc_n n s
  | ACC => '(n, s) ← operand s; acc_n n s
  | POP => '(n, s) ← operand s; s ← pop n s; Ret (Next s)
  | ASSIGN =>
      '(n, s) ← operand s;
      peek s n;;
      Ret (Next (set_accu Val_unit (set_sp (<[Z.to_nat n := accu s]> (sp s)) s)))
  | _ => Undef
  end.

(** ** Access in heap-allocated environment *)
Definition envacc_n (n : Z) (s : st) : result outcome := x ← Field (h s) (env s) n; Ret (Next (set_accu x s)).
Definition exec_env (op : opcode) (s : st) : result outcome :=
  let pushed := push (accu s) s in
  match op with
  | ENVACC1 => envacc_n 1 s
  | ENVACC2 => envacc_n 2 s
  | ENVACC3 => envacc_n 3 s
  | ENVACC4 => envacc_n 4 s
  | PUSHENVACC1 => envacc_n 1 pushed
  | PUSHENVACC2 => envacc_n 2 pushed
  | PUSHENVACC3 => envacc_n 3 pushed
  | PUSHENVACC4 => envacc_n 4 pushed
  | PUSHENVACC => '(n, s) ← operand pushed; envacc_n n s
  | ENVACC => '(n, s) ← operand s; envacc_n n s
  | _ => Undef
  end.

(** ** Function application *)

(** [sp[0..n-1]] *)
Fixpoint peeks (n : nat) (s : st) : result (list Z) :=
  match n with
  | O => Ret []
  | S n => l ← peeks n s; x ← peek s (Z.of_nat n); Ret (l ++ [x])
  end.
(** The return frame is inserted below the [n] arguments. *)
Definition apply_n (n : Z) (s : st) : result outcome :=
  args ← peeks (Z.to_nat n) s;
  s ← pop n s;
  let s := pushes (args ++ [pc s; env s; Val_long (extra_args s)]) s in
  s ← enter_closure s;
  check_stacks (set_extra (n - 1) s).
(** The arguments of a tail call slide over the caller's frame, of which they
    are the innermost words. *)
Definition appterm_n (n : Z) (slotsize : Z) (s : st) : result outcome :=
  if slotsize <? n then Undef else
  args ← peeks (Z.to_nat n) s;
  s ← pop slotsize s;
  s ← enter_closure (pushes args s);
  check_stacks (set_extra (extra_args s + (n - 1)) s).

Definition exec_apply (op : opcode) (s : st) : result outcome :=
  match op with
  | PUSH_RETADDR =>
      t ← target s 0;
      Ret (Next (set_pc (pc s + 4) (pushes [t; env s; Val_long (extra_args s)] s)))
  | APPLY =>
      n ← code_at s 0;
      s ← enter_closure (set_extra (n - 1) s);
      check_stacks s
  | APPLY1 => apply_n 1 s
  | APPLY2 => apply_n 2 s
  | APPLY3 => apply_n 3 s
  | APPTERM =>
      '(nargs, s) ← operand s;
      slotsize ← code_at s 0;
      appterm_n nargs slotsize s
  | APPTERM1 => slotsize ← code_at s 0; appterm_n 1 slotsize s
  | APPTERM2 => slotsize ← code_at s 0; appterm_n 2 slotsize s
  | APPTERM3 => slotsize ← code_at s 0; appterm_n 3 slotsize s
  | _ => Undef
  end.

Definition do_return (s : st) : result outcome :=
  if (length (sp s) =? 0)%nat then
    s ← switch_to_parent s handle_value; check_stacks s
  else
    p ← peek s 0; en ← peek s 1; ea ← peek s 2;
    s ← pop 3 (set_pc p (set_env en (set_extra (Long_val ea) s)));
    Ret (Next s).

Definition exec_return (op : opcode) (s : st) : result outcome :=
  match op with
  | RETURN =>
      '(n, s) ← operand s;
      s ← pop n s;
      if 0 <? extra_args s then
        s ← enter_closure (set_extra (extra_args s - 1) s); Ret (Next s)
      else do_return s
  | RESTART =>
      sz ← Wosize_val (h s) (env s);
      let num_args := sz - 3 in
      if num_args <? 0 then Undef else
      args ← load_words (h s) (env s + 8 * 3) (Z.to_nat num_args);
      en ← Field (h s) (env s) 2;
      Ret (Next (set_extra (extra_args s + num_args) (set_env en (pushes args s))))
  | GRAB =>
      '(required, s) ← operand s;
      if required <=? extra_args s then Ret (Next (set_extra (extra_args s - required) s))
      else
        let num_args := 1 + extra_args s in
        args ← peeks (Z.to_nat num_args) s;
        '(clos, h') ← alloc_block (h s) Closure_tag (pc s - 4 * 3 :: s64 (Make_closinfo 0 2) :: env s :: args);
        s ← pop num_args (set_accu clos (set_heap h' s));
        do_return s
  | _ => Undef
  end.

(** ** Closures *)

(** [for (i = 0; i < n; i++) caml_initialize(&Field(v, ofs + i), l[i])] *)
Fixpoint initialize_from (x : heap) (fp : Z) (l : list Z) : result heap :=
  match l with
  | [] => Ret x
  | w :: l => x ← caml_initialize x fp w; initialize_from x (fp + 8) l
  end.

(** A block of [wosize] words with [vars] at offset [ofs], in the minor heap
    when it is small enough; [inl] when the major heap is exhausted. *)
Definition alloc_with (x : heap) (wosize tag ofs : Z) (vars : list Z) : result (unit + Z * heap) :=
  if wosize <=? Max_young_wosize then
    '(v, x) ← Alloc_small x wosize tag;
    x ← store_words x (v + 8 * ofs) vars;
    Ret (inr (v, x))
  else
    match caml_alloc_shr x wosize tag with
    | Raise _ => Ret (inl ())
    | Ret (v, x) => x ← initialize_from x (v + 8 * ofs) vars; Ret (inr (v, x))
    | _ => Undef
    end.

(** The [Out_of_memory] of [caml_alloc_shr] is raised without a C-call frame.
    The source does not save [sp] first; the handler is found from
    [trap_sp_off] alone, so the words recorded for the fiber only matter to
    callbacks run by [caml_raise], which start here from the actual [sp]. *)
Definition raise_out_of_memory (s : st) : result outcome :=
  exn ← Field (h s) (caml_global_data (d s)) OUT_OF_MEMORY_EXN;
  x ← save_sp s;
  let '(exn, x) := caml_raise exn x in
  raise_from_c exn x s.

(** The siblings of [CLOSUREREC]: an infix header, the code pointer and the
    closure information of function [i], each pushed on the stack. *)
Fixpoint closurerec_siblings (n : nat) (i p envofs : Z) (s : st) : result st :=
  match n with
  | O => Ret s
  | S n =>
      x ← store (h s) p (s64 (Make_header (i * 3) Infix_tag 0));
      let p := p + 8 in
      let s := push p (set_heap x s) in
      t ← target s i;
      x ← store (h s) p t;
      let envofs := envofs - 3 in
      x ← store x (p + 8) (s64 (Make_closinfo 0 envofs));
      closurerec_siblings n (i + 1) (p + 16) envofs (set_heap x s)
  end.

Definition exec_closure (op : opcode) (s : st) : result outcome :=
  match op with
  | CLOSURE =>
      '(nvars, s) ← operand s;
      let s := if 0 <? nvars then push (accu s) s else s in
      vars ← peeks (Z.to_nat nvars) s;
      r ← alloc_with (h s) (2 + nvars) Closure_tag 2 vars;
      match r with
      | inl _ => raise_out_of_memory s
      | inr (v, x) =>
          t ← target s 0;
          x ← Store_field x v 0 t;
          x ← Store_field x v 1 (s64 (Make_closinfo 0 2));
          s ← pop nvars (set_pc (pc s + 4) (set_accu v (set_heap x s)));
          Ret (Next s)
      end
  | CLOSUREREC =>
      '(nfuncs, s) ← operand s;
      '(nvars, s) ← operand s;
      let envofs := nfuncs * 3 - 1 in
      let blksize := envofs + nvars in
      let s := if 0 <? nvars then push (accu s) s else s in
      vars ← peeks (Z.to_nat nvars) s;
      r ← alloc_with (h s) blksize Closure_tag envofs vars;
      match r with
      | inl _ => raise_out_of_memory s
      | inr (v, x) =>
          s ← pop nvars (set_accu v (set_heap x s));
          let s := push v s in
          t ← target s 0;
          x ← store (h s) v t;
          x ← store x (v + 8) (s64 (Make_closinfo 0 envofs));
          s ← closurerec_siblings (Z.to_nat (nfuncs - 1)) 1 (v + 16) envofs (set_heap x s);
          Ret (Next (set_pc (pc s + 4 * nfuncs) s))
      end
  | OFFSETCLOSURE => '(n, s) ← operand s; Ret (Next (set_accu (env s + n * 8) s))
  | PUSHOFFSETCLOSURE => '(n, s) ← operand (push (accu s) s); Ret (Next (set_accu (env s + n * 8) s))
  | OFFSETCLOSUREM3 => Ret (Next (set_accu (env s - 3 * 8) s))
  | PUSHOFFSETCLOSUREM3 => Ret (Next (set_accu (env s - 3 * 8) (push (accu s) s)))
  | OFFSETCLOSURE0 => Ret (Next (set_accu (env s) s))
  | PUSHOFFSETCLOSURE0 => Ret (Next (set_accu (env s) (push (accu s) s)))
  | OFFSETCLOSURE3 => Ret (Next (set_accu (env s + 3 * 8) s))
  | PUSHOFFSETCLOSURE3 => Ret (Next (set_accu (env s + 3 * 8) (push (accu s) s)))
  | _ => Undef
  end.

(** ** Access to global variables *)
Definition getglobal (s : st) : result st :=
  '(n, s) ← operand s; x ← Field (h s) (caml_global_data (d s)) n; Ret (set_accu x s).
Definition getfield (s : st) : result st :=
  '(n, s) ← operand s; x ← Field (h s) (accu s) n; Ret (set_accu x s).
Definition exec_global (op : opcode) (s : st) : result outcome :=
  match op with
  | PUSHGETGLOBAL => s ← getglobal (push (accu s) s); Ret (Next s)
  | GETGLOBAL => s ← getglobal s; Ret (Next s)
  | PUSHGETGLOBALFIELD => s ← getglobal (push (accu s) s); s ← getfield s; Ret (Next s)
  | GETGLOBALFIELD => s ← getglobal s; s ← getfield s; Ret (Next s)
  | SETGLOBAL =>
      n ← code_at s 0;
      x ← caml_modify (h s) (caml_global_data (d s) + 8 * n) (accu s);
      Ret (Next (set_pc (pc s + 4) (set_accu Val_unit (set_heap x s))))
  | _ => Undef
  end.

(** ** Allocation of blocks *)

(** [Alloc_small] of [1 + n] words holding [accu] and [sp[0..n-1]]. *)
Definition makeblock_small (tag : Z) (n : Z) (s : st) : result outcome :=
  args ← peeks (Z.to_nat n) s;
  '(block, x) ← alloc_block (h s) tag (accu s :: args);
  s ← pop n (set_accu block (set_heap x s));
  Ret (Next s).
Fixpoint store_doubles (x : heap) (block i : Z) (l : list Z) : result heap :=
  match l with
  | [] => Ret x
  | v :: l =>
      b ← Double_val x v;
      x ← Store_double_flat_field x block i b;
      store_doubles x block (i + 1) l
  end.
Definition exec_block (op : opcode) (s : st) : result outcome :=
  match op with
  | PUSHATOM0 => Ret (Next (set_accu (Atom (h s) 0) (push (accu s) s)))
  | ATOM0 => Ret (Next (set_accu (Atom (h s) 0) s))
  | PUSHATOM => '(t, s) ← operand (push (accu s) s); Ret (Next (set_accu (Atom (h s) t) s))
  | ATOM => '(t, s) ← operand s; Ret (Next (set_accu (Atom (h s) t) s))
  | MAKEBLOCK =>
      '(wosize, s) ← operand s;
      '(tag, s) ← operand s;
      if wosize <? 1 then Undef else
      args ← peeks (Z.to_nat (wosize - 1)) s;
      r ← alloc_with (h s) wosize tag 0 (accu s :: args);
      match r with
      | inl _ => raise_out_of_memory s
      | inr (block, x) => s ← pop (wosize - 1) (set_accu block (set_heap x s)); Ret (Next s)
      end
  | MAKEBLOCK1 => '(tag, s) ← operand s; makeblock_small tag 0 s
  | MAKEBLOCK2 => '(tag, s) ← operand s; makeblock_small tag 1 s
  | MAKEBLOCK3 => '(tag, s) ← operand s; makeblock_small tag 2 s
  | MAKEFLOATBLOCK =>
      '(size, s) ← operand s;
      if size <? 1 then Undef else
      args ← peeks (Z.to_nat (size - 1)) s;
      r ← alloc_with (h s) (size * Double_wosize) Double_array_tag 0 [];
      match r with
      | inl _ => raise_out_of_memory s
      | inr (block, x) =>
          x ← store_doubles x block 0 (accu s :: args);
          s ← pop (size - 1) (set_accu block (set_heap x s));
          Ret (Next s)
      end
  | _ => Undef
  end.

(** ** Access to components of blocks *)
Definition getfield_n (n : Z) (s : st) : result outcome := x ← Field (h s) (accu s) n; Ret (Next (set_accu x s)).
Definition setfield_n (n : Z) (s : st) : result outcome :=
  '(v, s) ← pop1 s;
  x ← caml_modify (h s) (accu s + 8 * n) v;
  Ret (Next (set_accu Val_unit (set_heap x s))).
Definition exec_field (op : opcode) (s : st) : result outcome :=
  match op with
  | GETFIELD0 => getfield_n 0 s
  | GETFIELD1 => getfield_n 1 s
  | GETFIELD2 => getfield_n 2 s
  | GETFIELD3 => getfield_n 3 s
  | GETFIELD => '(n, s) ← operand s; getfield_n n s
  | GETFLOATFIELD =>
      '(n, s) ← operand s;
      b ← Double_flat_field (h s) (accu s) n;
      '(v, x) ← Alloc_small (h s) Double_wosize Double_tag;
      x ← Store_double_val x v b;
      Ret (Next (set_accu v (set_heap x s)))
  | SETFIELD0 => setfield_n 0 s
  | SETFIELD1 => setfield_n 1 s
  | SETFIELD2 => setfield_n 2 s
  | SETFIELD3 => setfield_n 3 s
  | SETFIELD => '(n, s) ← operand s; setfield_n n s
  | SETFLOATFIELD =>
      '(n, s) ← operand s;
      '(v, s) ← pop1 s;
      b ← Double_val (h s) v;
      x ← Store_double_flat_field (h s) (accu s) n b;
      Ret (Next (set_accu Val_unit (set_heap x s)))
  | _ => Undef
  end.

(** ** Array, bytes and string operations *)
Definition exec_array (op : opcode) (s : st) : result outcome :=
  match op with
  | VECTLENGTH =>
      size ← Wosize_val (h s) (accu s);
      tag ← Tag_val (h s) (accu s);
      let size := if tag =? Double_array_tag then size / Double_wosize else size in
      Ret (Next (set_accu (Val_long size) s))
  | GETVECTITEM =>
      '(i, s) ← pop1 s; x ← Field (h s) (accu s) (Long_val i); Ret (Next (set_accu x s))
  | SETVECTITEM =>
      '(i, s) ← pop1 s;
      '(v, s) ← pop1 s;
      x ← caml_modify (h s) (accu s + 8 * Long_val i) v;
      Ret (Next (set_accu Val_unit (set_heap x s)))
  | GETSTRINGCHAR | GETBYTESCHAR =>
      '(i, s) ← pop1 s; b ← Byte_u (h s) (accu s) (Long_val i); Ret (Next (set_accu (Val_int b) s))
  | SETBYTESCHAR =>
      '(i, s) ← pop1 s;
      '(v, s) ← pop1 s;
      x ← Store_byte (h s) (accu s) (Long_val i) (Int_val v);
      Ret (Next (set_accu Val_unit (set_heap x s)))
  | _ => Undef
  end.

(** ** Branches and conditional branches *)
Definition branch_if (b : bool) (s : st) : result outcome :=
  if b then t ← target s 0; Ret (Next (set_pc t s)) else Ret (Next (set_pc (pc s + 4) s)).
Definition exec_branch (op : opcode) (s : st) : result outcome :=
  match op with
  | BRANCH => branch_if true s
  | BRANCHIF => branch_if (negb (accu s =? Val_false)) s
  | BRANCHIFNOT => branch_if (accu s =? Val_false) s
  | SWITCH =>
      '(sizes, s) ← operand s;
      let sizes := u32 sizes in
      if Is_block (accu s) then
        index ← Tag_val (h s) (accu s);
        t ← target s (Z.land sizes 0xFFFF + index);
        Ret (Next (set_pc t s))
      else
        t ← target s (Long_val (accu s));
        Ret (Next (set_pc t s))
  | BOOLNOT => Ret (Next (set_accu (Val_not (accu s)) s))
  | _ => Undef
  end.

(** ** Exceptions and signals *)
Definition exec_exception (op : opcode) (s : st) : result outcome :=
  match op with
  | PUSHTRAP =>
      t ← target s 0;
      let s := pushes [t; Val_long (trap_sp_off (d s)); env s; Val_long (extra_args s)] s in
      Ret (Next (set_pc (pc s + 4) (set_d (set_trap (- Z.of_nat (length (sp s))) (d s)) s)))
  | POPTRAP =>
      if caml_check_gc_interrupt (h s) then process_signal (set_pc (pc s - 4) s) else
      link ← peek s 1;
      s ← pop 4 (set_d (set_trap (Long_val link) (d s)) s);
      Ret (Next s)
  | RAISE_NOTRACE => s ← check_trap_barrier_for_exception s; raise_notrace s
  | RERAISE | RAISE => raise_exception s
  | CHECK_SIGNALS => if caml_check_gc_interrupt (h s) then process_signal s else Ret (Next s)
  | _ => Undef
  end.

(** ** Calling C functions *)

(** [nargs] arguments in all, of which [accu] is the first; [popped] stack
    words are removed on return. *)
Definition c_call (args : list Z) (popped : Z) (s : st) : result outcome :=
  s ← Setup_for_c_call s;
  prim ← code_at s 0;
  match Primitive prim args (d s) with
  | C_return v x =>
      s ← Restore_after_c_call x s;
      s ← pop popped (set_accu v s);
      Ret (Next (set_pc (pc s + 4) s))
  | C_raise exn x => raise_from_c exn x s
  end.
Definition c_call_n (n : Z) (s : st) : result outcome :=
  args ← peeks (Z.to_nat (n - 1)) s;
  c_call (accu s :: args) (n - 1) s.
Definition exec_ccall (op : opcode) (s : st) : result outcome :=
  match op with
  | C_CALL1 => c_call_n 1 s
  | C_CALL2 => c_call_n 2 s
  | C_CALL3 => c_call_n 3 s
  | C_CALL4 => c_call_n 4 s
  | C_CALL5 => c_call_n 5 s
  | C_CALLN =>
      '(nargs, s) ← operand s;
      let s := push (accu s) s in
      args ← peeks (Z.to_nat nargs) s;
      c_call args nargs s
  | _ => Undef
  end.

(** ** Integer constants *)
Definition exec_const (op : opcode) (s : st) : result outcome :=
  let const n s := Ret (Next (set_accu (Val_int n) s)) in
  match op with
  | CONST0 => const 0 s
  | CONST1 => const 1 s
  | CONST2 => const 2 s
  | CONST3 => const 3 s
  | PUSHCONST0 => const 0 (push (accu s) s)
  | PUSHCONST1 => const 1 (push (accu s) s)
  | PUSHCONST2 => const 2 (push (accu s) s)
  | PUSHCONST3 => const 3 (push (accu s) s)
  | PUSHCONSTINT => '(n, s) ← operand (push (accu s) s); const n s
  | CONSTINT => '(n, s) ← operand s; const n s
  | _ => Undef
  end.

(** ** Integer arithmetic *)

(** The operation on two tagged words, [None] for a division by zero;
    shifting by 64 bits or more, or by a negative count, is undefined. *)
Definition shift_count (b : Z) : result Z :=
  let n := Long_val b in if (n <? 0) || (63 <? n) then Undef else Ret n.
Definition int_op (op : opcode) (a b : Z) : result (option Z) :=
  match op with
  | ADDINT => Ret (Some (s64 (a + b - 1)))
  | SUBINT => Ret (Some (s64 (a - b + 1)))
  | MULINT => Ret (Some (Val_long (s64 (Long_val a * Long_val b))))
  | DIVINT =>
      let divisor := Long_val b in
      if divisor =? 0 then Ret None else Ret (Some (Val_long (Z.quot (Long_val a) divisor)))
  | MODINT =>
      let divisor := Long_val b in
      if divisor =? 0 then Ret None else Ret (Some (Val_long (Z.rem (Long_val a) divisor)))
  | ANDINT => Ret (Some (Z.land a b))
  | ORINT => Ret (Some (Z.lor a b))
  | XORINT => Ret (Some (Z.lor (Z.lxor a b) 1))
  | LSLINT => n ← shift_count b; Ret (Some (s64 (Z.shiftl (s64 (a - 1)) n + 1)))
  | LSRINT => n ← shift_count b; Ret (Some (s64 (Z.lor (Z.shiftr (u64 a) n) 1)))
  | ASRINT => n ← shift_count b; Ret (Some (Z.lor (Z.shiftr a n) 1))
  | EQ => Ret (Some (Val_bool (a =? b)))
  | NEQ => Ret (Some (Val_bool (negb (a =? b))))
  | LTINT => Ret (Some (Val_bool (a <? b)))
  | LEINT => Ret (Some (Val_bool (a <=? b)))
  | GTINT => Ret (Some (Val_bool (b <? a)))
  | GEINT => Ret (Some (Val_bool (b <=? a)))
  | ULTINT => Ret (Some (Val_bool (u64 a <? u64 b)))
  | UGEINT => Ret (Some (Val_bool (u64 b <=? u64 a)))
  | _ => Undef
  end.

(** [*pc++ tst Long_val(accu)] *)
Definition branch_test (op : opcode) (n v : Z) : result bool :=
  match op with
  | BEQ => Ret (n =? v)
  | BNEQ => Ret (negb (n =? v))
  | BLTINT => Ret (n <? v)
  | BLEINT => Ret (n <=? v)
  | BGTINT => Ret (v <? n)
  | BGEINT => Ret (v <=? n)
  | BULTINT => Ret (u64 n <? u64 v)
  | BUGEINT => Ret (u64 v <=? u64 n)
  | _ => Undef
  end.

Definition exec_int (op : opcode) (s : st) : result outcome :=
  match op with
  | NEGINT => Ret (Next (set_accu (s64 (2 - accu s)) s))
  | BEQ | BNEQ | BLTINT | BLEINT | BGTINT | BGEINT | BULTINT | BUGEINT =>
      '(n, s) ← operand s;
      b ← branch_test op n (Long_val (accu s));
      branch_if b s
  | OFFSETINT => '(n, s) ← operand s; Ret (Next (set_accu (s64 (accu s + s32 (Z.shiftl n 1))) s))
  | OFFSETREF =>
      '(n, s) ← operand s;
      v ← Field (h s) (accu s) 0;
      x ← Store_field (h s) (accu s) 0 (s64 (v + s32 (Z.shiftl n 1)));
      Ret (Next (set_accu Val_unit (set_heap x s)))
  | ISINT => Ret (Next (set_accu (Val_long (Z.land (accu s) 1)) s))
  | _ =>
      '(b, s) ← pop1 s;
      r ← int_op op (accu s) b;
      match r with
      | Some v => Ret (Next (set_accu v s))
      | None => raise_constant ZERO_DIVIDE_EXN s
      end
  end.

(** ** Object-oriented operations *)

(** The binary search in a method table: field 0 is the index of the last
    label, labels are at odd indices from 3 on, each after its method. *)
Fixpoint method_search (fuel : nat) (x : heap) (meths tag li hi : Z) : result Z :=
  match fuel with
  | O => NoFuel
  | S fuel =>
      if li <? hi then
        let mi := Z.lor (Z.shiftr (s32 (li + hi)) 1) 1 in
        lab ← Field x meths mi;
        if tag <? lab then method_search fuel x meths tag li (mi - 2)
        else method_search fuel x meths tag mi hi
      else Ret li
  end.
Definition find_method (x : heap) (meths tag : Z) : result Z :=
  hi ← Field x meths 0; method_search 64 x meths tag 3 (s32 hi).

Definition exec_object (op : opcode) (s : st) : result outcome :=
  match op with
  | GETMETHOD =>
      obj ← peek s 0;
      meths ← Field (h s) obj 0;
      m ← Field (h s) meths (Int_val (accu s));
      Ret (Next (set_accu m s))
  | GETPUBMET =>
      meths ← Field (h s) (accu s) 0;
      let s := push (accu s) s in
      '(t, s) ← operand s;
      let tag := Val_int t in
      cache ← code_at s 0;
      mask ← Field (h s) meths 1;
      let ofs := Z.land cache mask in
      lab ← load (h s) (meths + 8 * 3 + ofs);
      if lab =? tag then
        m ← load (h s) (meths + 8 * 2 + ofs);
        Ret (Next (set_pc (pc s + 4) (set_accu m s)))
      else
        li ← find_method (h s) meths tag;
        let x := set_code (<[pc s := s32 ((li - 3) * 8)]> (code (d s))) (d s) in
        m ← Field (h s) meths (li - 1);
        Ret (Next (set_pc (pc s + 4) (set_accu m (set_d x s))))
  | GETDYNMET =>
      obj ← peek s 0;
      meths ← Field (h s) obj 0;
      li ← find_method (h s) meths (accu s);
      m ← Field (h s) meths (li - 1);
      Ret (Next (set_accu m s))
  | _ => Undef
  end.

(** ** Context switching *)
Definition do_resume (resume_fn resume_arg resume_tail : Z) (s : st) : result outcome :=
  let stk := Ptr_val (accu s) in
  if stk =? NULL then raise_in_c caml_continuation_already_resumed_exn s else
  let resume_tail := if resume_tail =? NULL then stk else resume_tail in
  x ← update_fiber (d s) resume_tail (set_parent (current_stack (d s)));
  x ← save_sp (set_d x s);
  let x := set_current stk x in
  f ← get_fiber x stk;
  match f_sp f with
  | [] => Undef
  | off :: l =>
      let x := set_trap (Long_val off) x in
      p ← Code_val (hp x) resume_fn;
      check_stacks (mkSt p resume_fn resume_fn 0 (resume_arg :: l) x)
  end.

(** Leaving the current fiber for its parent's effect handler; [x] is the
    state in which [self] has been detached, [cont] the continuation. *)
Definition enter_effect_handler (x : dom) (self : Z) (par : Z) (eff cont : Z) : result outcome :=
  f ← get_fiber x self;
  p ← get_fiber x par;
  off ← of_option (f_sp p !! 0%nat);
  ea ← of_option (f_sp p !! 1%nat);
  let x := set_trap (Long_val off) (set_current par x) in
  let heff := handle_effect f in
  c ← Code_val (hp x) heff;
  check_stacks (mkSt c heff heff (Long_val ea + 2) (eff :: cont :: Val_ptr self :: drop 2 (f_sp p)) x).

Definition exec_effect (op : opcode) (s : st) : result outcome :=
  match op with
  | RESUME =>
      fn ← peek s 0;
      arg ← peek s 1;
      tail ← peek s 2;
      s ← pop 3 s;
      do_resume fn arg (Ptr_val tail)
        (pushes [Val_long (trap_sp_off (d s)); Val_long 0; pc s; env s; Val_long (extra_args s)] s)
  | RESUMETERM =>
      fn ← peek s 0;
      arg ← peek s 1;
      tail ← peek s 2;
      slotsize ← code_at s 0;
      s ← pop slotsize s;
      do_resume fn arg (Ptr_val tail)
        (pushes [Val_long (trap_sp_off (d s)); Val_long (extra_args s)] s)
  | PERFORM =>
      let old_stack := current_stack (d s) in
      f ← get_fiber (d s) old_stack;
      s ← check_trap_barrier_for_effect s;
      if parent f =? NULL then
        s ← Setup_for_c_call s;
        '(exn, x) ← caml_make_unhandled_effect_exn (d s) caml_unhandled_effect_exn (accu s);
        s ← Restore_after_c_call x s;
        raise_exception (set_accu exn s)
      else
        '(cont, x) ← alloc_block (h s) Cont_tag [Val_ptr old_stack; Val_long 0];
        let s := set_heap x s in
        let s := pushes [Val_long (trap_sp_off (d s)); pc s; env s; Val_long (extra_args s)] s in
        x ← save_sp s;
        x ← update_fiber x old_stack (set_parent NULL);
        enter_effect_handler x old_stack (parent f) (accu s) cont
  | REPERFORMTERM =>
      let eff := accu s in
      cont ← peek s 0;
      tail ← peek s 1;
      let cont_tail := Ptr_val tail in
      let self := current_stack (d s) in
      f ← get_fiber (d s) self;
      s ← check_trap_barrier_for_effect s;
      slotsize ← code_at s 0;
      s ← pop slotsize s;
      let s := pushes [Val_long (trap_sp_off (d s)); Val_long (extra_args s)] s in
      if parent f =? NULL then
        s ← Setup_for_c_call s;
        '(arg, x) ← caml_make_unhandled_effect_exn (d s) caml_unhandled_effect_exn eff;
        '(k, x) ← caml_continuation_use x cont;
        match k with
        | None =>
            let '(exn, x) := caml_raise caml_continuation_already_resumed_exn x in
            raise_from_c exn x s
        | Some stk =>
            s ← Restore_after_c_call x s;
            do_resume (raise_unhandled_effect (d s)) arg cont_tail (set_accu stk s)
        end
      else
        x ← save_sp s;
        x ← update_fiber x self (set_parent NULL);
        x ← update_fiber x cont_tail (set_parent self);
        enter_effect_handler x self (parent f) eff cont
  | _ => Undef
  end.

(** ** Dispatch *)

(** The instructions that are replaced in the code by the debugger are
    restarted with the opcode it saved; [n] bounds the restarts. *)
Definition exec_stop (s : st) : result outcome :=
  x ← save_sp s;
  Ret (Stop (accu s) (set_d (set_trap (initial_trap_sp_off e) x) s)).
Definition exec_event (op : opcode) (s : st) : result st :=
  match op with
  | EVENT =>
      let n := u64 (caml_event_count (d s) - 1) in
      let s := set_d (set_event_count n (d s)) s in
      if n =? 0 then
        s ← Setup_for_debugger s;
        Restore_after_debugger (set_d (caml_debugger EVENT_COUNT (d s)) s)
      else Ret s
  | BREAK =>
      s ← Setup_for_debugger s;
      Restore_after_debugger (set_d (caml_debugger BREAKPOINT (d s)) s)
  | _ => Undef
  end.

Fixpoint dispatch (n : nat) (op : opcode) (s : st) : result outcome :=
  match op with
  | ACC0 | ACC1 | ACC2 | ACC3 | ACC4 | ACC5 | ACC6 | ACC7 | ACC | PUSH
  | PUSHACC0 | PUSHACC1 | PUSHACC2 | PUSHACC3 | PUSHACC4 | PUSHACC5 | PUSHACC6 | PUSHACC7
  | PUSHACC | POP | ASSIGN => exec_stack op s
  | ENVACC1 | ENVACC2 | ENVACC3 | ENVACC4 | ENVACC
  | PUSHENVACC1 | PUSHENVACC2 | PUSHENVACC3 | PUSHENVACC4 | PUSHENVACC => exec_env op s
  | PUSH_RETADDR | APPLY | APPLY1 | APPLY2 | APPLY3
  | APPTERM | APPTERM1 | APPTERM2 | APPTERM3 => exec_apply op s
  | RETURN | RESTART | GRAB => exec_return op s
  | CLOSURE | CLOSUREREC | OFFSETCLOSUREM3 | OFFSETCLOSURE0 | OFFSETCLOSURE3 | OFFSETCLOSURE
  | PUSHOFFSETCLOSUREM3 | PUSHOFFSETCLOSURE0 | PUSHOFFSETCLOSURE3 | PUSHOFFSETCLOSURE => exec_closure op s
  | GETGLOBAL | PUSHGETGLOBAL | GETGLOBALFIELD | PUSHGETGLOBALFIELD | SETGLOBAL => exec_global op s
  | ATOM0 | ATOM | PUSHATOM0 | PUSHATOM
  | MAKEBLOCK | MAKEBLOCK1 | MAKEBLOCK2 | MAKEBLOCK3 | MAKEFLOATBLOCK => exec_block op s
  | GETFIELD0 | GETFIELD1 | GETFIELD2 | GETFIELD3 | GETFIELD | GETFLOATFIELD
  | SETFIELD0 | SETFIELD1 | SETFIELD2 | SETFIELD3 | SETFIELD | SETFLOATFIELD => exec_field op s
  | VECTLENGTH | GETVECTITEM | SETVECTITEM
  | GETBYTESCHAR | SETBYTESCHAR | GETSTRINGCHAR => exec_array op s
  | BRANCH | BRANCHIF | BRANCHIFNOT | SWITCH | BOOLNOT => exec_branch op s
  | PUSHTRAP | POPTRAP | RAISE | RERAISE | RAISE_NOTRACE | CHECK_SIGNALS => exec_exception op s
  | C_CALL1 | C_CALL2 | C_CALL3 | C_CALL4 | C_CALL5 | C_CALLN => exec_ccall op s
  | CONST0 | CONST1 | CONST2 | CONST3 | CONSTINT
  | PUSHCONST0 | PUSHCONST1 | PUSHCONST2 | PUSHCONST3 | PUSHCONSTINT => exec_const op s
  | GETMETHOD | GETPUBMET | GETDYNMET => exec_object op s
  | STOP => exec_stop s
  | EVENT | BREAK =>
      match n with
      | O => NoFuel
      | S n =>
          s ← exec_event op s;
          match decode (caml_debugger_saved_instruction (pc s - 4)) with
          | Some op => dispatch n op s
          | None => Undef
          end
      end
  | PERFORM | RESUME | RESUMETERM | REPERFORMTERM => exec_effect op s
  | _ => exec_int op s
  end.

(** One iteration of the main loop: [curr_instr = *pc++], then the
    instruction; an unknown opcode is a fatal error. *)
Definition step (s : st) : result outcome :=
  '(op, s) ← operand s;
  match decode op with
  | Some op => dispatch 2 op s
  | None => Undef
  end.

Fixpoint run (fuel : nat) (s : st) : result outcome :=
  match fuel with
  | O => NoFuel
  | S fuel =>
      o ← step s;
      match o with
      | Next s => run fuel s
      | _ => Ret o
      end
  end.

End Instructions.

(** [caml_interprete(prog, prog_size)] *)
Definition caml_interprete `{StackMemory} `{SharedHeap} `{Runtime} (fuel : nat) (prog : Z) (x : dom) :
    result outcome :=
  f ← get_fiber x (current_stack x);
  let e := mkEntry (trap_sp_off x) (Z.of_nat (length (f_sp f))) in
  run e fuel (mkSt prog (Val_int 0) (Atom (hp x) 0) 0 (f_sp f) (set_trap 1 x)).

(** [caml_interprete(NULL, 0)]: a closure over the static code
    [ACC 0; RAISE] at address [raise_code] handles unhandled effects. *)
Definition caml_interprete_init (raise_code : Z) (x : dom) : result (Z * dom) :=
  let c := <[raise_code := 8]> (<[raise_code + 4 := 0]> (<[raise_code + 8 := 91]> (code x))) in
  '(v, h') ← alloc_block (hp x) Closure_tag [raise_code; s64 (Make_closinfo 0 2)];
  Ret (Val_unit, set_globals Val_unit v (set_hp h' (set_code c x))).

End Interp.
Export Interp.
