(* ===== verification/InterpArith.v ===== *)
(** * The arithmetic of the interpreter on tagged integers

    The integer instructions compute on tagged words without untagging them
    where they can.  Here they are related to the operations on 63-bit
    integers, with wrap-around. *)

From S2P Require Import Prelude Memory Barrier Fiber Interp.

Module InterpArith.

(** ** Tagged words *)

Lemma Val_long_u64 x : eqm 64 (Val_long x) (2 * x + 1).
Proof.
  rewrite Val_long_eq. unfold eqm, wrap, swrap.
  change (63 - 1) with 62. rewrite (Z.mod_eq (x + 2 ^ 62) (2 ^ 63)) by lia.
  set (q := (x + 2 ^ 62) / 2 ^ 63).
  replace (2 * (x + 2 ^ 62 - 2 ^ 63 * q - 2 ^ 62) + 1) with (2 * x + 1 + (- q) * 2 ^ 64) by lia.
  by rewrite Z_mod_plus_full.
Qed.

Lemma s64_tagged z x : eqm 64 z (2 * x + 1) -> s64 z = Val_long x.
Proof.
  intros Hz. rewrite (swrap_ext 64 z (Val_long x)).
  - pose proof (Val_long_is_word x) as Hw. unfold is_word in Hw. apply swrap_small; lia.
  - etransitivity; [exact Hz|]. symmetry. apply Val_long_u64.
Qed.

Lemma Val_long_swrap x : Val_long (s64 x) = Val_long x.
Proof.
  symmetry. rewrite <- (s64_tagged (Val_long x) (s64 x)).
  - symmetry. pose proof (Val_long_is_word x) as Hw. unfold is_word in Hw. apply swrap_small; lia.
  - rewrite Val_long_u64. unfold eqm, wrap, swrap.
    change (64 - 1) with 63. rewrite (Z.mod_eq (x + 2 ^ 63) (2 ^ 64)) by lia.
    set (q := (x + 2 ^ 63) / 2 ^ 64).
    replace (2 * (x + 2 ^ 63 - 2 ^ 64 * q - 2 ^ 63) + 1) with (2 * x + 1 + (- q * 2) * 2 ^ 64) by lia.
    by rewrite Z_mod_plus_full.
Qed.

Lemma add_tagged x y : s64 (Val_long x + Val_long y - 1) = Val_long (x + y).
Proof.
  apply s64_tagged. rewrite !Val_long_u64. unfold eqm. f_equal. lia.
Qed.
Lemma sub_tagged x y : s64 (Val_long x - Val_long y + 1) = Val_long (x - y).
Proof. apply s64_tagged. rewrite !Val_long_u64. unfold eqm. f_equal. lia. Qed.
Lemma neg_tagged x : s64 (2 - Val_long x) = Val_long (- x).
Proof. apply s64_tagged. rewrite !Val_long_u64. unfold eqm. f_equal. lia. Qed.

(** Bits of a tagged word. *)
Lemma testbit_tag x i : 0 <= i -> Z.testbit (2 * x + 1) i = if i =? 0 then true else Z.testbit x (i - 1).
Proof.
  intros Hi. destruct (Z.eqb_spec i 0) as [->|].
  - by rewrite Z.testbit_odd_0.
  - replace i with (Z.succ (i - 1)) at 1 by lia. by rewrite Z.testbit_odd_succ by lia.
Qed.
Lemma bitop_tagged (f : bool -> bool -> bool) (op : Z -> Z -> Z) x y :
  (forall a b i, 0 <= i -> Z.testbit (op a b) i = f (Z.testbit a i) (Z.testbit b i)) ->
  f true true = true -> op (2 * x + 1) (2 * y + 1) = 2 * op x y + 1.
Proof.
  intros Hop Ht. apply Z.bits_inj'. intros i Hi. rewrite Hop, !testbit_tag by done.
  destruct (Z.eqb_spec i 0); [done|]. by rewrite Hop by lia.
Qed.
Lemma xor_tagged x y : Z.lor (Z.lxor (2 * x + 1) (2 * y + 1)) 1 = 2 * Z.lxor x y + 1.
Proof.
  apply Z.bits_inj'. intros i Hi. rewrite Z.lor_spec, Z.lxor_spec, !testbit_tag by done.
  destruct (Z.eqb_spec i 0) as [->|]; [done|].
  rewrite Z.lxor_spec. replace 1 with (2 ^ 0) at 3 by done. rewrite Z.pow2_bits_eqb by lia.
  rewrite (proj2 (Z.eqb_neq 0 i)) by lia. by rewrite orb_false_r.
Qed.
Lemma bitop_int (op : Z -> Z -> Z) (f : bool -> bool -> bool) x y :
  (forall a b i, 0 <= i -> Z.testbit (op a b) i = f (Z.testbit a i) (Z.testbit b i)) ->
  is_int x -> is_int y -> is_int (op x y).
Proof.
  intros Hop Hx Hy. unfold is_int, Min_long, Max_long in *.
  assert (swrap 63 (op x y) = op x y) as E.
  { apply Z.bits_inj'. intros i Hi. rewrite testbit_swrap by lia.
    destruct (Z.ltb_spec i 63); [done|]. rewrite !Hop by lia.
    assert (Hs : forall z, -2 ^ 62 <= z <= 2 ^ 62 - 1 -> Z.testbit z i = Z.testbit z 62).
    { intros z Hz. rewrite <- (swrap_small 63 z) at 1 by (change (63 - 1) with 62; lia).
      rewrite testbit_swrap by lia. by rewrite (proj2 (Z.ltb_ge i 63)) by lia. }
    by rewrite !Hs by done. }
  pose proof (swrap_range 63 (op x y) ltac:(lia)). change (63 - 1) with 62 in *. lia.
Qed.

(** *** Shifts *)
Lemma lsl_tagged x n : 0 <= n -> s64 (Z.shiftl (s64 (Val_long x - 1)) n + 1) = Val_long (Z.shiftl x n).
Proof.
  intros Hn. apply s64_tagged. rewrite !Z.shiftl_mul_pow2 by done.
  rewrite eqm_of_swrap by lia. rewrite Val_long_u64. unfold eqm. f_equal. lia.
Qed.
Lemma lor_1 z : Z.lor z 1 = 2 * (z / 2) + 1.
Proof.
  apply Z.bits_inj'. intros i Hi. rewrite Z.lor_spec, testbit_tag by done.
  replace 1 with (2 ^ 0) at 1 by done. rewrite Z.pow2_bits_eqb by lia.
  destruct (Z.eqb_spec i 0) as [->|].
  - by rewrite orb_true_r.
  - rewrite (proj2 (Z.eqb_neq 0 i)) by lia. rewrite orb_false_r.
    change 2 with (2 ^ 1). rewrite <- Z.shiftr_div_pow2, Z.shiftr_spec by lia. f_equal. lia.
Qed.
Lemma shiftr_tagged w n : 0 <= n -> Z.shiftr w n / 2 = Z.shiftr (w / 2) n.
Proof.
  intros Hn. change (w / 2) with (w / 2 ^ 1). change (Z.shiftr w n / 2) with (Z.shiftr w n / 2 ^ 1).
  rewrite <- !Z.shiftr_div_pow2, !Z.shiftr_shiftr by lia. f_equal. lia.
Qed.
Lemma asr_tagged x n : is_int x -> 0 <= n -> Z.lor (Z.shiftr (Val_long x) n) 1 = 2 * Z.shiftr x n + 1.
Proof.
  intros Hx Hn. rewrite lor_1, shiftr_tagged, Val_long_int by done. do 3 f_equal.
  symmetry. apply (Z.div_unique _ _ _ 1); lia.
Qed.
Lemma lsr_tagged x n : 0 <= n -> Z.lor (Z.shiftr (u64 (Val_long x)) n) 1 = 2 * Z.shiftr (wrap 63 x) n + 1.
Proof.
  intros Hn. rewrite lor_1, shiftr_tagged by done. do 3 f_equal.
  pose proof (Val_long_u64 x) as E. unfold eqm in E. rewrite E. unfold wrap.
  change (2 ^ 64) with (2 * 2 ^ 63). symmetry.
  rewrite (Z.mod_eq (2 * x + 1)) by lia.
  assert ((2 * x + 1) / (2 * 2 ^ 63) = x / 2 ^ 63) as ->.
  { rewrite <- Z.div_div by lia. f_equal. symmetry. apply (Z.div_unique _ _ _ 1); lia. }
  rewrite (Z.mod_eq x) by lia. apply (Z.div_unique _ _ _ 1); lia.
Qed.
Lemma shiftr_int x n : is_int x -> 0 <= n -> is_int (Z.shiftr x n).
Proof.
  intros Hx Hn. unfold is_int, Min_long, Max_long in *. rewrite Z.shiftr_div_pow2 by done.
  pose proof (Z.pow_pos_nonneg 2 n ltac:(lia) Hn). split.
  - apply Z.div_le_lower_bound; nia.
  - apply Z.div_le_upper_bound; nia.
Qed.

(** ** The specification of the integer instructions

    On integers [x] (in [accu]) and [y] (on the stack) of the language. *)
Definition int_spec (op : opcode) (x y : Z) : option Z :=
  match op with
  | ADDINT => Some (Val_long (x + y))
  | SUBINT => Some (Val_long (x - y))
  | MULINT => Some (Val_long (x * y))
  | DIVINT => if y =? 0 then None else Some (Val_long (Z.quot x y))
  | MODINT => if y =? 0 then None else Some (Val_long (Z.rem x y))
  | ANDINT => Some (Val_long (Z.land x y))
  | ORINT => Some (Val_long (Z.lor x y))
  | XORINT => Some (Val_long (Z.lxor x y))
  | LSLINT => Some (Val_long (Z.shiftl x y))
  | LSRINT => Some (Val_long (Z.shiftr (wrap 63 x) y))
  | ASRINT => Some (Val_long (Z.shiftr x y))
  | EQ => Some (Val_bool (x =? y))
  | NEQ => Some (Val_bool (negb (x =? y)))
  | LTINT => Some (Val_bool (x <? y))
  | LEINT => Some (Val_bool (x <=? y))
  | GTINT => Some (Val_bool (x >? y))
  | GEINT => Some (Val_bool (x >=? y))
  | ULTINT => Some (Val_bool (wrap 63 x <? wrap 63 y))
  | UGEINT => Some (Val_bool (wrap 63 x >=? wrap 63 y))
  | _ => None
  end.
Definition is_int_op (op : opcode) : bool :=
  match op with
  | ADDINT | SUBINT | MULINT | DIVINT | MODINT | ANDINT | ORINT | XORINT | LSLINT | LSRINT | ASRINT
  | EQ | NEQ | LTINT | LEINT | GTINT | GEINT | ULTINT | UGEINT => true
  | _ => false
  end.
Definition is_shift (op : opcode) : bool := match op with LSLINT | LSRINT | ASRINT => true | _ => false end.

Lemma u64_tagged x : u64 (2 * x + 1) = 2 * wrap 63 x + 1.
Proof.
  unfold wrap. change (2 ^ 64) with (2 * 2 ^ 63). rewrite !Z.mod_eq by lia.
  assert ((2 * x + 1) / (2 * 2 ^ 63) = x / 2 ^ 63) as ->; [|lia].
  rewrite <- Z.div_div by lia. f_equal. symmetry. apply (Z.div_unique _ _ _ 1); lia.
Qed.

Lemma shift_count_ok y : 0 <= y <= 63 -> shift_count (Val_long y) = Ret y.
Proof.
  intros Hy. unfold shift_count. rewrite Long_Val_int by (unfold is_int, Min_long, Max_long; lia).
  by destruct ((y <? 0) || (63 <? y)) eqn:E; [lia|].
Qed.

Lemma int_op_spec op x y :
  is_int_op op = true -> is_int x -> is_int y -> (is_shift op = true -> 0 <= y <= 63) ->
  int_op op (Val_long x) (Val_long y) = Ret (int_spec op x y).
Proof.
  intros Hop Hx Hy Hsh. assert (Val_long x = 2 * x + 1) as Ex by (by apply Val_long_int).
  assert (Val_long y = 2 * y + 1) as Ey by (by apply Val_long_int).
  destruct op; try discriminate Hop; cbn [int_op int_spec];
    try (rewrite (shift_count_ok y) by (by apply Hsh); mred).
  - by rewrite add_tagged.
  - by rewrite sub_tagged.
  - by rewrite !Long_Val_int, Val_long_swrap.
  - rewrite !Long_Val_int by done. by destruct (y =? 0).
  - rewrite !Long_Val_int by done. by destruct (y =? 0).
  - rewrite Ex, Ey, (bitop_tagged andb) by (intros; by rewrite ?Z.land_spec).
    rewrite Val_long_int; [done|]. apply (bitop_int _ andb); try done. intros. apply Z.land_spec.
  - rewrite Ex, Ey, (bitop_tagged orb) by (intros; by rewrite ?Z.lor_spec).
    rewrite Val_long_int; [done|]. apply (bitop_int _ orb); try done. intros. apply Z.lor_spec.
  - rewrite Ex, Ey, xor_tagged.
    rewrite Val_long_int; [done|]. apply (bitop_int _ xorb); try done. intros. apply Z.lxor_spec.
  - rewrite lsl_tagged; [done|]. specialize (Hsh eq_refl). lia.
  - specialize (Hsh eq_refl). rewrite lsr_tagged by lia. do 2 f_equal.
    by apply s64_tagged.
  - specialize (Hsh eq_refl). rewrite asr_tagged by (done || lia).
    rewrite Val_long_int; [done|]. apply shiftr_int; [done|lia].
  - rewrite Ex, Ey. do 3 f_equal. lia.
  - rewrite Ex, Ey. do 3 f_equal. lia.
  - rewrite Ex, Ey. do 3 f_equal. lia.
  - rewrite Ex, Ey. do 3 f_equal. lia.
  - rewrite Ex, Ey. do 3 f_equal. lia.
  - rewrite Ex, Ey. do 3 f_equal. lia.
  - rewrite Ex, Ey, !u64_tagged. do 3 f_equal. lia.
  - rewrite Ex, Ey, !u64_tagged. do 3 f_equal. lia.
Qed.
End InterpArith.
Export InterpArith.
