(* ===== verification/InterpProps.v ===== *)
(** * Properties of the bytecode interpreter

    Integer instructions, fused instructions, partial application, exception
    handlers, effect handlers, method lookup, calls and stack checks. *)

From S2P Require Import Prelude Memory Barrier Fiber Interp InterpArith.

Module InterpProps.

(** ** Stack accesses *)

Lemma peek_lookup s n x : sp s !! n = Some x -> peek s (Z.of_nat n) = Ret x.
Proof. intros E. unfold peek. rewrite (proj2 (Z.ltb_ge _ _)), Nat2Z.id, E by lia. done. Qed.

Lemma peek_z s n x : sp s !! Z.to_nat n = Some x -> 0 <= n -> peek s n = Ret x.
Proof. intros E Hn. unfold peek. by rewrite (proj2 (Z.ltb_ge _ _)), E by lia. Qed.
(** Reads of known stack words, then the binds they unblock. *)
Ltac read_sp Hs := repeat (erewrite peek_z by first [rewrite Hs; reflexivity | lia]; cbn [mbind result_bind of_option]).

Lemma peeks_app n : forall s l r, sp s = l ++ r -> length l = n -> peeks n s = Ret l.
Proof.
  induction n as [|n IH]; intros s l r Hs Hl; simpl.
  { by apply nil_length_inv in Hl as ->. }
  destruct l as [|x l _] using rev_ind; [done|]. rewrite length_app in Hl. simpl in Hl.
  rewrite (IH s l (x :: r)); [|by rewrite Hs, <- app_assoc|lia]. simpl.
  erewrite peek_lookup; [done|]. rewrite Hs, <- app_assoc.
  rewrite lookup_app_r by lia. by replace (n - length l)%nat with 0%nat by lia.
Qed.

Lemma pop_app s l r : sp s = l ++ r -> pop (Z.of_nat (length l)) s = Ret (set_sp r s).
Proof.
  intros Hs. unfold pop. destruct (_ || _) eqn:E.
  { rewrite Hs, length_app in E. lia. }
  by rewrite Hs, Nat2Z.id, drop_app_length.
Qed.
Lemma pop_app_z s l r n : sp s = l ++ r -> Z.of_nat (length l) = n -> pop n s = Ret (set_sp r s).
Proof. intros Hs <-. by apply pop_app. Qed.

Lemma operand_at s x : code (d s) !! pc s = Some x -> operand s = Ret (x, set_pc (pc s + 4) s).
Proof. intros E. unfold operand, code_at. by rewrite Z.mul_0_r, Z.add_0_r, E. Qed.

(** ** Stack checks *)

(** No signal is pending and the current stack has room for a frame. *)
Definition quiet (s : st) : Prop :=
  caml_check_gc_interrupt (h s) = false /\
  exists f, fibers (d s) !! current_stack (d s) = Some f /\
    Stack_threshold_words <= f_wsize f - Z.of_nat (length (sp s)).

Section Props.
Context `{SM : StackMemory} `{SH : SharedHeap} `{RT : Runtime}.
Variable e : entry.

Lemma check_stacks_quiet s : quiet s -> check_stacks e s = Ret (Next s).
Proof.
  intros (Hi & f & Hf & Hr). unfold check_stacks. cbn [check_stacks_from]. unfold get_fiber.
  rewrite Hf. cbn [of_option mbind result_bind]. by rewrite (proj2 (Z.ltb_ge _ _)), Hi by lia.
Qed.

Lemma do_return_frame s p en ea l :
  sp s = p :: en :: Val_long ea :: l -> is_int ea ->
  do_return e s = Ret (Next (mkSt p (accu s) en ea l (d s))).
Proof.
  intros Hs Hea. unfold do_return. rewrite Hs. cbn [length Nat.eqb].
  read_sp Hs. rewrite Long_Val_int by done.
  by rewrite (pop_app_z _ [p; en; Val_long ea] l).
Qed.

(** ** Partial application *)

Lemma load_words_block x v tag l i r :
  block_at x v tag l -> drop i l = r -> load_words x (v + 8 * Z.of_nat i) (length r) = Ret r.
Proof.
  intros Hb. revert i. induction r as [|w r IH]; intros i Hr; simpl; [done|].
  assert (l !! i = Some w) as Hw.
  { rewrite <- (take_drop i l), Hr. rewrite lookup_app_r; rewrite length_take.
    - assert (i < length l)%nat by (destruct (decide (i < length l)%nat); [done|rewrite drop_ge in Hr by lia; done]).
      by replace (i - i `min` length l)%nat with 0%nat by lia.
    - lia. }
  pose proof (ba_fields _ _ _ _ Hb i w Hw) as Hf. unfold Field in Hf. rewrite Hf. simpl.
  specialize (IH (S i)). replace (v + 8 * Z.of_nat (S i)) with (v + 8 * Z.of_nat i + 8) in IH by lia.
  rewrite IH; [done|]. by rewrite (drop_S l w i) in Hr by done; simplify_eq.
Qed.

Lemma grab_allocates s required args frame :
  code (d s) !! pc s = Some 42 -> code (d s) !! (pc s + 4) = Some required ->
  sp s = args ++ frame -> Z.of_nat (length args) = 1 + extra_args s -> extra_args s < required ->
  heap_ok (h s) -> Z.of_nat (length args) + 3 < 2 ^ 52 ->
  young_limit (h s) <= young_ptr (h s) - 8 * (Z.of_nat (length args) + 4) ->
  exists v h', words (h s) ⊆ words h' /\ heap_ok h' /\
    block_at h' v Closure_tag (pc s - 4 :: s64 (Make_closinfo 0 2) :: env s :: args) /\
    step e s = do_return e (mkSt (pc s + 8) v (env s) (extra_args s) frame (set_hp h' (d s))).
Proof.
  intros Hc1 Hc2 Hs Hn Hlt Hok Hsz Hroom. unfold step. rewrite (operand_at _ _ Hc1). mred.
  change (decode 42) with (Some GRAB). cbn [dispatch exec_return].
  rewrite (operand_at (set_pc (pc s + 4) s) required) by done. mred.
  cbn [extra_args set_pc]. rewrite (proj2 (Z.leb_gt _ _)) by lia.
  rewrite (peeks_app _ _ args frame) by (done || lia). mred.
  cbn [pc set_pc env].
  set (fields := pc s + 4 + 4 - 4 * 3 :: s64 (Make_closinfo 0 2) :: env s :: args).
  destruct (alloc_block (h s) Closure_tag fields) as [[v h']| | | |] eqn:Ea.
  2-5: rewrite alloc_block_Ret in Ea by (simpl length; lia); done.
  assert (Z.of_nat (length fields) < 2 ^ 52) as Hfl by (unfold fields; simpl length; lia).
  destruct (alloc_block_at _ Closure_tag _ _ _ Hok ltac:(done) Hfl Ea) as (Hb & Hsub & Hok' & _).
  exists v, h'. split_and!; try done.
  - by replace (pc s - 4) with (pc s + 4 + 4 - 4 * 3) by lia.
  - change (h (set_pc (pc s + 4 + 4) (set_pc (pc s + 4) s))) with (h s). rewrite Ea. mred.
    rewrite (pop_app_z _ args frame (1 + extra_args s)); [|exact Hs|lia]. mred.
    do 2 f_equal; lia.
Qed.

Lemma restart_unpacks s code_ptr info v env0 args :
  code (d s) !! pc s = Some 41 -> env s = v ->
  block_at (h s) v Closure_tag (code_ptr :: info :: env0 :: args) ->
  step e s = Ret (Next (mkSt (pc s + 4) (accu s) env0 (extra_args s + Z.of_nat (length args)) (args ++ sp s) (d s))).
Proof.
  intros Hc <- Hb. unfold step. rewrite (operand_at _ _ Hc). mred.
  change (decode 41) with (Some RESTART). cbn [dispatch exec_return].
  change (h (set_pc (pc s + 4) s)) with (h s). cbn [env set_pc].
  rewrite (ba_size _ _ _ _ Hb). mred. cbn [length].
  rewrite (proj2 (Z.ltb_ge _ _)) by lia.
  pose proof (load_words_block _ _ _ _ 3 args Hb eq_refl) as Hl.
  replace (Z.to_nat (Z.of_nat (S (S (S (length args)))) - 3)) with (length args) by lia.
  change (8 * 3) with (8 * Z.of_nat 3). rewrite Hl. mred.
  rewrite (ba_fields _ _ _ _ Hb 2%nat env0 eq_refl : Field (h s) (env s) 2 = _). mred.
  unfold set_extra, set_env, pushes, set_sp, set_pc. cbn. do 3 f_equal. lia.
Qed.

(** ** Exception handlers *)

Lemma pushtrap_spec s t :
  code (d s) !! pc s = Some t -> forall n,
  dispatch e n PUSHTRAP s =
  Ret (Next (mkSt (pc s + 4) (accu s) (env s) (extra_args s)
    (pc s + 4 * t :: Val_long (trap_sp_off (d s)) :: env s :: Val_long (extra_args s) :: sp s)
    (set_trap (- Z.of_nat (length (sp s) + 4)) (d s)))).
Proof.
  intros Hc n. destruct n; cbn [dispatch exec_exception]; unfold target, code_at;
    rewrite Z.mul_0_r, Z.add_0_r, Hc; cbn [of_option mbind result_bind]; unfold pushes, set_pc, set_sp, set_d;
    cbn [pc accu env extra_args sp d app length]; do 5 f_equal; lia.
Qed.

Lemma raise_to_handler s p link en ea l locals :
  is_int link -> is_int ea ->
  sp s = locals ++ p :: Val_long link :: en :: Val_long ea :: l ->
  trap_sp_off (d s) = - Z.of_nat (length l + 4) ->
  raise_notrace e s = Ret (Next (mkSt p (accu s) en ea l (set_trap link (d s)))).
Proof.
  intros Hlink Hea Hs Ho. unfold raise_notrace, raise_notrace_with. rewrite Ho.
  rewrite (proj2 (Z.ltb_ge _ _)) by lia.
  assert (length (sp s) = length locals + (length l + 4))%nat as Hlen by (rewrite Hs, length_app; simpl; lia).
  rewrite (proj2 (Z.ltb_ge _ _)) by lia.
  assert (drop (length (sp s) - Z.to_nat (- - Z.of_nat (length l + 4))) (sp s) =
    p :: Val_long link :: en :: Val_long ea :: l) as Hd.
  { rewrite Hlen. replace (length locals + (length l + 4) - Z.to_nat (- - Z.of_nat (length l + 4)))%nat
      with (length locals) by lia. by rewrite Hs, drop_app_length. }
  rewrite Hd. assert (sp (set_sp (p :: Val_long link :: en :: Val_long ea :: l) s) =
    p :: Val_long link :: en :: Val_long ea :: l) as Hs' by done.
  read_sp Hs'. rewrite !Long_Val_int by done.
  rewrite (pop_app_z _ [p; Val_long link; en; Val_long ea] l) by done. done.
Qed.

(** ** Effect handlers *)

Lemma Ptr_Val_ptr p : 0 <= p < 2 ^ 62 -> Ptr_val (Val_ptr p) = p.
Proof. intros Hp. unfold Ptr_val, Val_ptr. rewrite swrap_small; change (64 - 1) with 63; lia. Qed.

(** No trap barrier of the debugger is set on the fibers involved. *)
Definition no_barrier (x : dom) : Prop :=
  forall stk f, fibers x !! stk = Some f -> f_id f <> trap_barrier_block x.

Lemma check_effect_quiet s f :
  fibers (d s) !! current_stack (d s) = Some f -> no_barrier (d s) ->
  (parent f = NULL \/ is_Some (fibers (d s) !! parent f)) ->
  check_trap_barrier_for_effect s = Ret s.
Proof.
  intros Hf Hb Hp. unfold check_trap_barrier_for_effect, get_fiber. rewrite Hf. cbn [of_option mbind result_bind].
  rewrite (proj2 (Z.eqb_neq _ _)) by (by eapply Hb). destruct (Z.eqb_spec (parent f) NULL); [done|]. cbn [negb].
  destruct Hp as [?|[p Hp]]; [done|]. rewrite Hp. cbn [of_option mbind result_bind].
  by rewrite (proj2 (Z.eqb_neq _ _)) by (by eapply Hb).
Qed.

Lemma check_exception_quiet s f :
  fibers (d s) !! current_stack (d s) = Some f -> no_barrier (d s) ->
  check_trap_barrier_for_exception s = Ret s.
Proof.
  intros Hf Hb. unfold check_trap_barrier_for_exception, get_fiber. rewrite Hf. cbn [of_option mbind result_bind].
  by rewrite (proj2 (Z.eqb_neq _ _)) by (by eapply Hb).
Qed.

(** The fiber a [PERFORM] suspends: its registers are on its stack. *)
Definition suspended (s : st) (f : fiber) : fiber :=
  set_parent NULL (set_f_sp
    (Val_long (trap_sp_off (d s)) :: pc s :: env s :: Val_long (extra_args s) :: sp s) f).

(** The handler runs on the parent's stack with the effect, the continuation
    and the suspended fiber as arguments. *)
Lemma perform_spec s f p toff pea prest c n :
  let F := current_stack (d s) in
  fibers (d s) !! F = Some f -> fibers (d s) !! parent f = Some p -> parent f <> NULL -> parent f <> F ->
  f_sp p = Val_long toff :: Val_long pea :: prest -> is_int toff -> is_int pea ->
  no_barrier (d s) -> heap_ok (h s) -> young_limit (h s) <= young_ptr (h s) - 24 ->
  (forall h', words (h s) ⊆ words h' -> Code_val h' (handle_effect f) = Ret c) ->
  exists cont h', words (h s) ⊆ words h' /\ heap_ok h' /\
    block_at h' cont Cont_tag [Val_ptr F; Val_long 0] /\
    dispatch e n PERFORM s =
    check_stacks e (mkSt c (handle_effect f) (handle_effect f) (pea + 2)
      (accu s :: cont :: Val_ptr F :: prest)
      (set_trap toff (set_current (parent f) (set_fibers (<[F := suspended s f]> (fibers (d s))) (set_hp h' (d s)))))).
Proof.
  intros F Hf Hp Hnull Hne Hps Htoff Hpea Hb Hok Hroom Hcode.
  assert (dispatch e n PERFORM s = exec_effect e PERFORM s) as -> by (by destruct n).
  cbn [exec_effect]. fold F. unfold get_fiber at 1. rewrite Hf. cbn [of_option mbind result_bind].
  rewrite (check_effect_quiet s f) by (try done; right; by eexists). mred.
  rewrite (proj2 (Z.eqb_neq _ _)) by done.
  destruct (alloc_block (h s) Cont_tag [Val_ptr F; Val_long 0]) as [[cont h']| | | |] eqn:Ea.
  2-5: rewrite alloc_block_Ret in Ea by (simpl length; lia); done.
  destruct (alloc_block_at _ Cont_tag [Val_ptr F; Val_long 0] _ _ Hok ltac:(done) ltac:(done) Ea) as (Hbk & Hsub & Hok' & _).
  exists cont, h'. split_and!; try done. mred.
  unfold save_sp, update_fiber, get_fiber.
  cbn [set_heap pushes set_sp set_d d set_hp current_stack fibers sp]. fold F. rewrite Hf.
  cbn [of_option mbind result_bind set_fibers fibers]. rewrite lookup_insert_eq. cbn [of_option mbind result_bind].
  rewrite insert_insert_eq. unfold enter_effect_handler, get_fiber. cbn [set_fibers fibers].
  rewrite lookup_insert_eq. cbn [of_option mbind result_bind]. rewrite lookup_insert_ne, Hp by done.
  cbn [of_option mbind result_bind]. rewrite Hps. cbn [lookup list_lookup of_option mbind result_bind].
  rewrite !Long_Val_int by done.
  cbn [hp set_trap set_current set_hp set_fibers handle_effect set_parent set_f_sp].
  rewrite (Hcode h' Hsub). done.
Qed.

Lemma resume_spec s f q off l fn arg rest c n F :
  let Q := current_stack (d s) in
  0 < F < 2 ^ 62 -> accu s = Val_ptr F -> sp s = fn :: arg :: Val_ptr F :: rest ->
  fibers (d s) !! F = Some f -> fibers (d s) !! Q = Some q -> Q <> F ->
  f_sp f = Val_long off :: l -> is_int off -> Code_val (h s) fn = Ret c ->
  dispatch e n RESUME s =
  check_stacks e (mkSt c fn fn 0 (arg :: l)
    (set_trap off (set_current F (set_fibers
       (<[Q := set_f_sp (Val_long (trap_sp_off (d s)) :: Val_long 0 :: pc s :: env s :: Val_long (extra_args s) :: rest) q]>
          (<[F := set_parent Q f]> (fibers (d s)))) (d s))))).
Proof.
  intros Q HF Ha Hs Hf Hq Hne Hfs Hoff Hc.
  assert (dispatch e n RESUME s = exec_effect e RESUME s) as -> by (by destruct n).
  cbn [exec_effect]. read_sp Hs.
  rewrite (pop_app_z _ [fn; arg; Val_ptr F] rest) by done. mred.
  unfold do_resume. cbn [pushes set_sp accu]. rewrite Ha, Ptr_Val_ptr by lia.
  rewrite (proj2 (Z.eqb_neq F NULL)) by (unfold NULL; lia).
  unfold update_fiber, get_fiber. cbn [pushes set_sp d]. rewrite Hf. cbn [of_option mbind result_bind].
  unfold save_sp, update_fiber, get_fiber.
  cbn [pushes set_sp set_d d set_fibers fibers current_stack sp]. fold Q. rewrite lookup_insert_ne, Hq by done.
  cbn [of_option mbind result_bind set_current set_fibers fibers].
  rewrite lookup_insert_ne, lookup_insert_eq by done. cbn [of_option mbind result_bind set_parent f_sp].
  rewrite Hfs. match goal with |- context [Code_val ?x fn] => change (Code_val x fn) with (Code_val (h s) fn) end.
  rewrite Hc. mred. by rewrite Long_Val_int.
Qed.

(** ** Method lookup *)

(** A method table: the number of public methods (a power of two here), the
    mask of the inline cache, then the methods, each before its label, in
    increasing order of the labels. *)
Record method_table (x : heap) (meths : Z) (tbl : list (Z * Z)) (k : Z) : Prop := {
  mt_size : 0 <= k <= 24 /\ Z.of_nat (length tbl) = 2 ^ k;
  mt_len : Field x meths 0 = Ret (Val_int (Z.of_nat (length tbl)));
  mt_mask : Field x meths 1 = Ret (16 * Z.of_nat (length tbl) - 1);
  mt_entry : forall i lab m, tbl !! i = Some (lab, m) ->
    Field x meths (3 + 2 * Z.of_nat i) = Ret lab /\ Field x meths (2 + 2 * Z.of_nat i) = Ret m;
  mt_sorted : forall i j lab m lab' m', (i < j)%nat -> tbl !! i = Some (lab, m) -> tbl !! j = Some (lab', m') ->
    lab < lab';
}.

Lemma middle a b :
  0 <= a -> a < b -> b < 2 ^ 28 ->
  Z.lor (Z.shiftr (s32 (3 + 2 * a + (3 + 2 * b))) 1) 1 = 3 + 2 * ((a + b + 1) / 2).
Proof.
  intros Ha Hab Hb. rewrite swrap_small by (change (32 - 1) with 31; lia).
  rewrite Z.shiftr_div_pow2 by lia. change (2 ^ 1) with 2.
  replace (3 + 2 * a + (3 + 2 * b)) with ((3 + a + b) * 2) by lia. rewrite Z.div_mul by lia.
  rewrite lor_1. pose proof (Z.div_mod (3 + a + b) 2 ltac:(lia)). pose proof (Z.div_mod (a + b + 1) 2 ltac:(lia)).
  pose proof (Z.mod_pos_bound (3 + a + b) 2 ltac:(lia)). pose proof (Z.mod_pos_bound (a + b + 1) 2 ltac:(lia)). lia.
Qed.

(** The search keeps the entry of the label between its two bounds. *)
Lemma method_search_spec x meths tbl k tag i m fuel : forall a b,
  method_table x meths tbl k -> tbl !! i = Some (tag, m) ->
  0 <= a <= Z.of_nat i -> Z.of_nat i <= b < Z.of_nat (length tbl) -> b - a < 2 ^ (Z.of_nat fuel - 1) ->
  (1 <= fuel)%nat ->
  method_search fuel x meths tag (3 + 2 * a) (3 + 2 * b) = Ret (3 + 2 * Z.of_nat i).
Proof.
  intros a b Ht Hi. revert a b. induction fuel as [|fuel IH]; intros a b Ha Hb Hf Hn; [lia|].
  destruct (mt_size _ _ _ _ Ht) as [Hk Hlen].
  assert (2 ^ k <= 2 ^ 24) by (apply Z.pow_le_mono_r; lia).
  cbn [method_search]. destruct (Z.ltb_spec (3 + 2 * a) (3 + 2 * b)); [|f_equal; lia].
  rewrite middle by lia. set (c := (a + b + 1) / 2).
  assert (a < c <= b /\ 2 * (c - 1 - a) <= b - a - 1 /\ 2 * (b - c) <= b - a) as (Hc & Hc1 & Hc2).
  { unfold c. pose proof (Z.div_mod (a + b + 1) 2 ltac:(lia)). pose proof (Z.mod_pos_bound (a + b + 1) 2 ltac:(lia)). lia. }
  destruct (lookup_lt_is_Some_2 tbl (Z.to_nat c)) as [[lab m'] El]; [lia|].
  pose proof (proj1 (mt_entry _ _ _ _ Ht _ _ _ El)) as Hlab. rewrite Z2Nat.id in Hlab by lia.
  rewrite Hlab. mred.
  destruct fuel as [|fuel']; [change (2 ^ (Z.of_nat 1 - 1)) with 1 in Hf; lia|].
  replace (Z.of_nat (S (S fuel')) - 1) with (Z.of_nat (S fuel') - 1 + 1) in Hf by lia.
  rewrite Z.pow_add_r in Hf by lia.
  destruct (Z.ltb_spec tag lab).
  - replace (3 + 2 * c - 2) with (3 + 2 * (c - 1)) by lia. apply IH; try lia.
    split; [|lia]. destruct (decide (Z.to_nat c <= i)%nat) as [Hci|]; [|lia].
    destruct (decide (Z.to_nat c = i)) as [<-|]; [by simplify_eq; lia|].
    pose proof (mt_sorted _ _ _ _ Ht (Z.to_nat c) i _ _ _ _ ltac:(lia) El Hi). lia.
  - apply IH; try lia. split; [lia|]. destruct (decide (Z.to_nat c <= i)%nat) as [Hci|]; [lia|].
    pose proof (mt_sorted _ _ _ _ Ht i (Z.to_nat c) _ _ _ _ ltac:(lia) Hi El). lia.
Qed.

Lemma find_method_spec x meths tbl k tag i m :
  method_table x meths tbl k -> tbl !! i = Some (tag, m) -> find_method x meths tag = Ret (3 + 2 * Z.of_nat i).
Proof.
  intros Ht Hi. unfold find_method. rewrite (mt_len _ _ _ _ Ht). mred.
  destruct (mt_size _ _ _ _ Ht) as [Hk Hlen]. assert (2 ^ k <= 2 ^ 24) by (apply Z.pow_le_mono_r; lia).
  pose proof (lookup_lt_Some _ _ _ Hi).
  unfold Val_int. rewrite Val_long_int by (unfold is_int, Min_long, Max_long; lia).
  rewrite swrap_small by (change (32 - 1) with 31; lia).
  replace (2 * Z.of_nat (length tbl) + 1) with (3 + 2 * (Z.of_nat (length tbl) - 1)) by lia.
  change 3 with (3 + 2 * 0) at 1. eapply method_search_spec; try done; try lia.
Qed.

Lemma cache_offset c k : 0 <= k -> c mod 16 = 0 -> exists j, Z.land c (16 * 2 ^ k - 1) = 16 * j /\ 0 <= j < 2 ^ k.
Proof.
  intros Hk Hc. replace (16 * 2 ^ k - 1) with (Z.ones (4 + k)).
  2:{ rewrite Z.ones_equiv, Z.pow_add_r by lia. lia. }
  rewrite Z.land_ones, Z.pow_add_r by lia. change (2 ^ 4) with 16.
  exists (c / 16 mod 2 ^ k). pose proof (Z.pow_pos_nonneg 2 k ltac:(lia) Hk).
  split; [|by apply Z.mod_pos_bound].
  rewrite (Z.div_mod c 16) at 1 by lia. rewrite Hc, Z.add_0_r. by rewrite Z.mul_mod_distr_l by lia.
Qed.

Lemma label_unique x meths tbl k i j tag m m' :
  method_table x meths tbl k -> tbl !! i = Some (tag, m) -> tbl !! j = Some (tag, m') -> m = m'.
Proof.
  intros Ht Hi Hj. destruct (lt_eq_lt_dec i j) as [[Hlt| ->]|Hlt].
  - pose proof (mt_sorted _ _ _ _ Ht _ _ _ _ _ _ Hlt Hi Hj). lia.
  - congruence.
  - pose proof (mt_sorted _ _ _ _ Ht _ _ _ _ _ _ Hlt Hj Hi). lia.
Qed.

(** ** Fused instructions *)
Definition fused (op : opcode) : option opcode :=
  match op with
  | PUSHACC0 => Some ACC0 | PUSHACC1 => Some ACC1 | PUSHACC2 => Some ACC2 | PUSHACC3 => Some ACC3
  | PUSHACC4 => Some ACC4 | PUSHACC5 => Some ACC5 | PUSHACC6 => Some ACC6 | PUSHACC7 => Some ACC7
  | PUSHACC => Some ACC
  | PUSHENVACC1 => Some ENVACC1 | PUSHENVACC2 => Some ENVACC2
  | PUSHENVACC3 => Some ENVACC3 | PUSHENVACC4 => Some ENVACC4 | PUSHENVACC => Some ENVACC
  | PUSHOFFSETCLOSUREM3 => Some OFFSETCLOSUREM3 | PUSHOFFSETCLOSURE0 => Some OFFSETCLOSURE0
  | PUSHOFFSETCLOSURE3 => Some OFFSETCLOSURE3 | PUSHOFFSETCLOSURE => Some OFFSETCLOSURE
  | PUSHGETGLOBAL => Some GETGLOBAL | PUSHGETGLOBALFIELD => Some GETGLOBALFIELD
  | PUSHATOM0 => Some ATOM0 | PUSHATOM => Some ATOM
  | PUSHCONST0 => Some CONST0 | PUSHCONST1 => Some CONST1 | PUSHCONST2 => Some CONST2
  | PUSHCONST3 => Some CONST3 | PUSHCONSTINT => Some CONSTINT
  | _ => None
  end.
(** Run an instruction after another. *)
Definition then_exec (r : result outcome) (k : st -> result outcome) : result outcome :=
  o ← r; match o with Next s => k s | o => Ret o end.

(** ** Calls *)
Lemma apply_n_spec s n args rest c :
  n = Z.of_nat (length args) -> sp s = args ++ rest -> Code_val (h s) (accu s) = Ret c ->
  apply_n e n s =
  check_stacks e (mkSt c (accu s) (accu s) (n - 1) (args ++ pc s :: env s :: Val_long (extra_args s) :: rest) (d s)).
Proof.
  intros -> Hs Hc. unfold apply_n. rewrite (peeks_app _ _ args rest) by (done || lia). mred.
  rewrite (pop_app _ _ _ Hs). mred. unfold enter_closure.
  match goal with |- context [Code_val ?x ?y] => change (Code_val x y) with (Code_val (h s) (accu s)) end.
  rewrite Hc. mred. unfold pushes, set_extra, set_env, set_pc, set_sp. cbn.
  by rewrite <- app_assoc.
Qed.

Lemma return_frame s n m locals p en ea l :
  code (d s) !! pc s = Some m -> m = Z.of_nat (length locals) ->
  sp s = locals ++ p :: en :: Val_long ea :: l -> is_int ea -> extra_args s <= 0 ->
  dispatch e n RETURN s = Ret (Next (mkSt p (accu s) en ea l (d s))).
Proof.
  intros Hc -> Hs Hea Hx. assert (dispatch e n RETURN s = exec_return e RETURN s) as -> by (by destruct n).
  cbn [exec_return]. rewrite (operand_at _ _ Hc). mred.
  rewrite (pop_app _ locals (p :: en :: Val_long ea :: l)) by done. cbn [mbind result_bind extra_args set_sp set_pc].
  rewrite (proj2 (Z.ltb_ge _ _)) by lia.
  by rewrite (do_return_frame _ p en ea l).
Qed.

(** ** Growing the stack in a check *)
Lemma restore_saved s x f :
  fibers x !! current_stack x = Some f -> restore_sp x s = Ret (set_sp (f_sp f) (set_d x s)).
Proof. intros Hf. unfold restore_sp, get_fiber. by rewrite Hf. Qed.

Lemma check_stacks_room `{!StackMemoryOk SM} s f :
  pool_ok (d s) -> fibers (d s) !! current_stack (d s) = Some f -> caml_check_gc_interrupt (h s) = false ->
  Z.of_nat (length (sp s)) < 2 ^ 31 ->
  (exists x f', check_stacks e s = Ret (Next (set_d x s)) /\ hp x = h s /\ trap_sp_off x = trap_sp_off (d s) /\
     code x = code (d s) /\
     fibers x !! current_stack x = Some f' /\ Stack_threshold_words <= f_wsize f' - Z.of_nat (length (sp s)) /\
     parent f' = parent f /\ handle_value f' = handle_value f /\ handle_exn f' = handle_exn f /\
     handle_effect f' = handle_effect f) \/
  (exists x, save_sp s = Ret x /\ caml_try_realloc_stack x Stack_threshold_words = Ret (false, x)).
Proof.
  intros Hp Hf Hi Hlen. unfold check_stacks. cbn [check_stacks_from]. unfold get_fiber. rewrite Hf.
  cbn [of_option mbind result_bind]. destruct (Z.ltb_spec (f_wsize f - Z.of_nat (length (sp s))) Stack_threshold_words).
  2:{ left. exists (d s), f. rewrite Hi. split_and!; try done. by destruct s. }
  unfold save_sp, update_fiber, get_fiber. rewrite Hf. cbn [of_option mbind result_bind].
  set (x := set_fibers _ (d s)).
  assert (pool_ok x) as Hx by (by eapply pool_update).
  destruct (realloc_stack_spec x (set_f_sp (sp s) f) Stack_threshold_words Hx) as ([ok x'] & E & Hr).
  { unfold x. cbn. by rewrite lookup_insert_eq. }
  { done. }
  { unfold Stack_threshold_words. lia. }
  rewrite E. mred. unfold realloc_spec in Hr. cbn [fst snd] in Hr. destruct ok; cbn [negb].
  - left. destruct Hr as (_ & Hh & Ht & Hc & _ & sz & b & Hsz & Hfs). cbn in Hsz.
    rewrite (restore_saved _ _ (mkFiber (sp s) (handle_value f) (handle_exn f) (handle_effect f) (parent f) b sz (f_id f))).
    2:{ rewrite Hfs. by rewrite lookup_insert_eq. }
    mred.
    match goal with |- context [caml_check_gc_interrupt (h ?y)] => change (h y) with (hp x') end.
    rewrite Hh. change (hp x) with (h s). rewrite Hi.
    exists x', (mkFiber (sp s) (handle_value f) (handle_exn f) (handle_effect f) (parent f) b sz (f_id f)).
    split_and!; try done.
    + rewrite Hfs. by rewrite lookup_insert_eq.
    + cbn. lia.
  - right. destruct Hr as [-> _]. by exists x.
Qed.

End Props.

(** ** A concrete machine

    Two nested fibers, a heap with a few closures, a program. *)
Definition no_runtime : Runtime := {|
  Primitive _ args x := C_return (default 0 (head args)) x;
  caml_process_pending_actions_with_root_exn v x := C_return v x;
  caml_debugger _ x := x;
  caml_debugger_saved_instruction _ := 143;
  caml_unhandled_effect_exn := 1;
  caml_continuation_already_resumed_exn := 1;
|}.
Definition ex_code (l : list Z) : gmap Z Z := list_to_map (imap (fun i x => (400 + 4 * Z.of_nat i, x)) l).
(** A handler closure at 1000, a function closure at 1024, an object at 1104
    with its method table at 1048. *)
Definition ex_mem : heap :=
  mkHeap (list_to_map [(992, 2295); (1000, 600); (1008, 5); (1016, 2295); (1024, 604); (1032, 5);
                       (1040, 6144); (1048, 5); (1056, 31); (1064, 700); (1072, 11); (1080, 704); (1088, 21);
                       (1096, 1272); (1104, 1048); (3000, 0)])
    3000 2000 2000 3000 64 [] [].
Definition ex_fibers : gmap Z fiber :=
  list_to_map [(16, mkFiber [Val_long 1; Val_long 0; 77] 1 1 1 NULL (-1) 100 0);
               (32, mkFiber [] 1 1 1000 16 (-1) 100 1)].
Definition ex_machine (l : list Z) (cur : Z) : dom :=
  mkDom cur 1 ex_fibers (replicate 5 []) 2 ex_mem (ex_code l) 1 1 false 0 (-1) 0.
Definition no_barrierb (x : dom) : bool :=
  forallb (fun '(_, f) => negb (f_id f =? trap_barrier_block x)) (map_to_list (fibers x)).
Lemma no_barrierb_sound x : no_barrierb x = true -> no_barrier x.
Proof.
  unfold no_barrierb. rewrite forallb_forall. intros H stk f Hf.
  apply elem_of_map_to_list, list_elem_of_In in Hf. specialize (H _ Hf). simpl in H. lia.
Qed.
Definition ex_entry : entry := mkEntry 1 0.

(** ** Properties *)

(** The integer instructions.  On tagged integers they compute the
    operation on 63-bit integers modulo 2^63 (division and remainder truncate
    towards zero, shifts by 0 to 63 bits, the unsigned comparisons compare
    residues) and leave a tagged integer or boolean; only a zero divisor
    raises, with Division_by_zero and both operands consumed. *)
Theorem integer_instructions `{SM : StackMemory} `{SH : SharedHeap} `{RT : Runtime}
    (e : entry) (n : nat) (op : opcode) (s : st) (x y : Z) (l : list Z) :
  is_int_op op = true -> is_int x -> is_int y -> (is_shift op = true -> 0 <= y <= 63) ->
  accu s = Val_long x -> sp s = Val_long y :: l ->
  dispatch e n op s =
  match int_spec op x y with
  | Some v => Ret (Next (set_accu v (set_sp l s)))
  | None => raise_constant e ZERO_DIVIDE_EXN (set_sp l s)
  end.
Proof.
  intros Hop Hx Hy Hsh Ha Hs.
  assert (dispatch e n op s = exec_int e op s) as -> by (by destruct n, op).
  assert (exec_int e op s = ('(b, s) ← pop1 s; r ← int_op op (accu s) b;
    match r with Some v => Ret (Next (set_accu v s)) | None => raise_constant e ZERO_DIVIDE_EXN s end)) as ->
    by (by destruct op).
  unfold pop1. rewrite Hs. cbn [mbind result_bind accu set_sp].
  rewrite Ha, (int_op_spec op x y) by done. mred. by destruct (int_spec op x y).
Qed.
Lemma integer_instructions_witness :
  dispatch (SM := growing_stacks) (SH := growing_heap) (RT := no_runtime) ex_entry 0 DIVINT
    (mkSt 400 (Val_long (-7)) 1 0 [Val_long 2] (ex_machine [] 32)) =
  Ret (Next (mkSt 400 (Val_long (-3)) 1 0 [] (ex_machine [] 32))).
Proof.
  refine (integer_instructions (SM := growing_stacks) (SH := growing_heap) (RT := no_runtime)
    ex_entry 0 DIVINT (mkSt 400 (Val_long (-7)) 1 0 [Val_long 2] (ex_machine [] 32)) (-7) 2 [] _ _ _ _ _ _);
    try reflexivity; try (unfold is_int, Min_long, Max_long; lia).
Defined.

(** C25: partial application.  A function of more arguments than supplied
    returns a closure (GRAB); when that closure is applied to further
    arguments, RESTART puts the saved arguments back under them: the machine
    is then in exactly the state of applying the function to all the
    arguments at once, at the same GRAB. *)
Theorem partial_application `{SM : StackMemory} `{SH : SharedHeap} `{RT : Runtime}
    (e : entry) (s : st) (required : Z) (args frame : list Z) :
  code (d s) !! (pc s - 4) = Some 41 -> code (d s) !! pc s = Some 42 -> code (d s) !! (pc s + 4) = Some required ->
  sp s = args ++ frame -> Z.of_nat (length args) = 1 + extra_args s -> extra_args s < required ->
  heap_ok (h s) -> Z.of_nat (length args) + 3 < 2 ^ 52 ->
  young_limit (h s) <= young_ptr (h s) - 8 * (Z.of_nat (length args) + 4) ->
  exists v h',
    step e s = do_return e (mkSt (pc s + 8) v (env s) (extra_args s) frame (set_hp h' (d s))) /\
    words (h s) ⊆ words h' /\ Code_val h' v = Ret (pc s - 4) /\
    forall s2 args2 rest,
      env s2 = v -> pc s2 = pc s - 4 -> code (d s2) = code (d s) -> words h' ⊆ words (h s2) ->
      sp s2 = args2 ++ rest -> extra_args s2 = Z.of_nat (length args2) - 1 ->
      step e s2 = Ret (Next (mkSt (pc s) (accu s2) (env s)
        (Z.of_nat (length (args ++ args2)) - 1) ((args ++ args2) ++ rest) (d s2))).
Proof.
  intros Hr Hg Hq Hs Hn Hlt Hok Hsz Hroom.
  destruct (grab_allocates e s required args frame) as (v & h' & Hsub & Hok' & Hb & Hst); try done.
  exists v, h'. split_and!; [done|done|exact (ba_fields _ _ _ _ Hb 0%nat _ eq_refl)|].
  intros s2 args2 rest Hv Hpc Hc Hw Hs2 Hx.
  rewrite (restart_unpacks e s2 (pc s - 4) (s64 (Make_closinfo 0 2)) v (env s) args).
  - rewrite Hpc, Hs2, Hx, length_app, app_assoc. do 3 f_equal; lia.
  - by rewrite Hc, Hpc.
  - done.
  - by eapply block_at_mono.
Qed.
Lemma partial_application_witness :
  exists v h', Code_val h' v = Ret 400 /\
    step (SM := growing_stacks) (SH := growing_heap) (RT := no_runtime) ex_entry
      (mkSt 400 1 v 0 [7; 9] (set_hp h' (ex_machine [41; 42; 1] 32))) =
    Ret (Next (mkSt 404 1 1024 1 [5; 7; 9] (set_hp h' (ex_machine [41; 42; 1] 32)))).
Proof.
  destruct (partial_application (SM := growing_stacks) (SH := growing_heap) (RT := no_runtime) ex_entry
    (mkSt 404 1000 1024 0 [5; 88; 1; 1] (ex_machine [41; 42; 1] 32)) 1 [5] [88; 1; 1])
    as (v & h' & _ & _ & Hc & H); try reflexivity; try lia.
  - apply heap_okb_sound. vm_compute. reflexivity.
  - vm_compute. congruence.
  - exists v, h'. split; [exact Hc|].
    exact (H (mkSt 400 1 v 0 [7; 9] (set_hp h' (ex_machine [41; 42; 1] 32))) [7] [9]
      eq_refl eq_refl eq_refl (reflexivity _) eq_refl eq_refl).
Defined.

(** The state in which the pending actions run: the registers are saved on the stack. *)
Definition event_frame (s : st) : list Z := [accu s; Val_unit; Val_unit; pc s; env s; Val_long (extra_args s)] ++ sp s.
Definition event_dom (s : st) (f : fiber) : dom :=
  set_fibers (<[current_stack (d s) := set_f_sp (event_frame s) f]> (fibers (d s))) (d s).
Lemma setup_for_event (s : st) f : fibers (d s) !! current_stack (d s) = Some f -> exists s', Setup_for_event s = Ret s' /\ d s' = event_dom s f.
Proof. intros Hf. eexists. unfold Setup_for_event, save_sp, update_fiber, get_fiber. cbn [d pushes set_sp]. by rewrite Hf. Qed.
Lemma process_signal_return `{SM : StackMemory} `{SH : SharedHeap} `{RT : Runtime} (e : entry) (s : st) f v x f' a' u u' p' en' ea' l' :
  fibers (d s) !! current_stack (d s) = Some f -> caml_process_pending_actions_with_root_exn Val_unit (event_dom s f) = C_return v x ->
  fibers x !! current_stack x = Some f' -> f_sp f' = [a'; u; u'; p'; en'; Val_long ea'] ++ l' -> is_int ea' ->
  process_signal e s = Ret (Next (mkSt p' a' en' ea' l' x)).
Proof.
  intros Hf Hp Hf' Hsp Hea. unfold process_signal, process_signal_with. destruct (setup_for_event s f Hf) as (s' & -> & Ed). mred.
  rewrite Ed, Hp. unfold Restore_after_event, restore_sp, get_fiber. rewrite Hf'. cbn [of_option mbind result_bind].
  assert (sp (set_sp (f_sp f') (set_d x s')) = [a'; u; u'; p'; en'; Val_long ea'] ++ l') as Hs by done. read_sp Hs. rewrite Long_Val_int by done.
  by rewrite (pop_app_z _ [a'; u; u'; p'; en'; Val_long ea'] l').
Qed.
Lemma process_signal_raise `{SM : StackMemory} `{SH : SharedHeap} `{RT : Runtime} (e : entry) (s : st) f exn x1 exn' x f' :
  fibers (d s) !! current_stack (d s) = Some f -> caml_process_pending_actions_with_root_exn Val_unit (event_dom s f) = C_raise exn x1 ->
  caml_raise exn x1 = (exn', x) -> fibers x !! current_stack x = Some f' -> no_barrier x ->
  exists s', accu s' = exn' /\ sp s' = f_sp f' /\ d s' = x /\ process_signal e s = raise_notrace e s'.
Proof.
  intros Hf Hp Hr Hf' Hb. unfold process_signal, process_signal_with. destruct (setup_for_event s f Hf) as (s' & -> & Ed). mred.
  rewrite Ed, Hp, Hr. unfold raise_from_c_with, restore_sp, get_fiber. rewrite Hf'. cbn [of_option mbind result_bind].
  match goal with |- context [check_trap_barrier_for_exception ?s0] => rewrite (check_exception_quiet s0 f') by done; exists s0 end. done.
Qed.

(** C26: exception handlers, when the debugger has set no barrier.  After PUSHTRAP, whatever
    the protected code has pushed, RAISE_NOTRACE continues at the handler with the exception in
    [accu] and with the stack, the environment, the argument count and the
    previous handler exactly as they were before PUSHTRAP.  POPTRAP restores
    the same stack and previous handler and falls through if no interrupt is pending.  If
    one is, it first runs the pending actions, with the handler still installed and the
    registers saved on the stack: when they return, POPTRAP is executed again, with the registers and the
    stack the actions have left; when they raise and have left the frame of the handler on the stack, control goes to the handler as from RAISE_NOTRACE. *)
Theorem exception_handlers `{SM : StackMemory} `{SH : SharedHeap} `{RT : Runtime}
    (e : entry) (n : nat) (s : st) (t : Z) :
  code (d s) !! pc s = Some t -> is_int (trap_sp_off (d s)) -> is_int (extra_args s) ->
  exists s1, dispatch e n PUSHTRAP s = Ret (Next s1) /\ pc s1 = pc s + 4 /\
    (forall s2 f locals, sp s2 = locals ++ sp s1 -> trap_sp_off (d s2) = trap_sp_off (d s1) ->
      fibers (d s2) !! current_stack (d s2) = Some f -> no_barrier (d s2) ->
      dispatch e n RAISE_NOTRACE s2 =
      Ret (Next (mkSt (pc s + 4 * t) (accu s2) (env s) (extra_args s) (sp s)
                   (set_trap (trap_sp_off (d s)) (d s2))))) /\
    (forall s2, sp s2 = sp s1 -> caml_check_gc_interrupt (h s2) = false ->
      dispatch e n POPTRAP s2 =
      Ret (Next (set_sp (sp s) (set_d (set_trap (trap_sp_off (d s)) (d s2)) s2)))) /\
    (forall s2 f, caml_check_gc_interrupt (h s2) = true -> fibers (d s2) !! current_stack (d s2) = Some f ->
      let poptrap := set_pc (pc s2 - 4) s2 in
      (forall v x f' a' u u' en' ea' l',
        caml_process_pending_actions_with_root_exn Val_unit (event_dom poptrap f) = C_return v x ->
        fibers x !! current_stack x = Some f' -> f_sp f' = [a'; u; u'; pc poptrap; en'; Val_long ea'] ++ l' -> is_int ea' ->
        dispatch e n POPTRAP s2 = Ret (Next (mkSt (pc poptrap) a' en' ea' l' x))) /\
      (forall exn x1 exn' x f' locals,
        caml_process_pending_actions_with_root_exn Val_unit (event_dom poptrap f) = C_raise exn x1 ->
        caml_raise exn x1 = (exn', x) -> fibers x !! current_stack x = Some f' -> no_barrier x ->
        f_sp f' = locals ++ sp s1 -> trap_sp_off x = trap_sp_off (d s1) ->
        dispatch e n POPTRAP s2 =
        Ret (Next (mkSt (pc s + 4 * t) exn' (env s) (extra_args s) (sp s) (set_trap (trap_sp_off (d s)) x))))).
Proof.
  intros Hc Ho Hx. rewrite (pushtrap_spec e s t Hc). eexists. split_and!; [done|done| | |].
  - intros s2 f locals Hs Ht Hf Hb.
    assert (dispatch e n RAISE_NOTRACE s2 = exec_exception e RAISE_NOTRACE s2) as -> by (by destruct n).
    cbn [exec_exception]. rewrite (check_exception_quiet s2 f) by done. mred.
    by rewrite (raise_to_handler e s2 (pc s + 4 * t) (trap_sp_off (d s)) (env s) (extra_args s) (sp s) locals).
  - intros s2 Hs Hi.
    assert (dispatch e n POPTRAP s2 = exec_exception e POPTRAP s2) as -> by (by destruct n).
    cbn [exec_exception]. rewrite Hi. cbn [sp] in Hs. read_sp Hs. rewrite Long_Val_int by done.
    by rewrite (pop_app_z _ [pc s + 4 * t; Val_long (trap_sp_off (d s)); env s; Val_long (extra_args s)] (sp s)).
  - intros s2 f Hi Hf poptrap.
    assert (dispatch e n POPTRAP s2 = process_signal e poptrap) as -> by (destruct n; cbn [dispatch exec_exception]; by rewrite Hi).
    split.
    + intros v x f' a' u u' en' ea' l' Hp Hf' Hsp Hea. by eapply (process_signal_return e poptrap f).
    + intros exn x1 exn' x f' locals Hp Hr Hf' Hb Hsp Ht.
      destruct (process_signal_raise e poptrap f exn x1 exn' x f' Hf Hp Hr Hf' Hb) as (s' & <- & Es & <- & ->).
      rewrite Hsp in Es. by apply (raise_to_handler e s' _ _ _ _ _ locals).
Qed.
Lemma exception_handlers_witness :
  exists s1, dispatch (SM := growing_stacks) (SH := growing_heap) (RT := no_runtime) ex_entry 0 PUSHTRAP
      (mkSt 400 1 1024 2 [5; 7] (ex_machine [10] 32)) = Ret (Next s1) /\
    dispatch (SM := growing_stacks) (SH := growing_heap) (RT := no_runtime) ex_entry 0 RAISE_NOTRACE
      (set_accu 99 (push 1 (push 3 s1))) =
    Ret (Next (mkSt 440 99 1024 2 [5; 7] (ex_machine [10] 32))).
Proof.
  destruct (exception_handlers (SM := growing_stacks) (SH := growing_heap) (RT := no_runtime) ex_entry 0
    (mkSt 400 1 1024 2 [5; 7] (ex_machine [10] 32)) 10) as (s1 & E & _ & H & _ & _);
    try reflexivity; try (unfold is_int, Min_long, Max_long; cbn; lia).
  exists s1. split; [exact E|]. assert (E' := E). vm_compute in E. injection E as <-.
  refine (H (set_accu 99 (push 1 (push 3 _))) (mkFiber [] 1 1 1000 16 (-1) 100 1) [1; 3] eq_refl eq_refl eq_refl _).
  apply no_barrierb_sound. vm_compute. reflexivity.
Defined.

(** C24: effect handlers.  PERFORM suspends the current fiber, detaches it
    and enters the effect handler of the fiber on the parent's stack with the
    effect, a continuation block holding the fiber, and the fiber.  When a
    fiber later resumes it with RESUME, the function given runs on its stack,
    under the handlers in force at PERFORM and with the resumer as parent;
    when that function returns a value, the fiber goes on after its PERFORM
    with that value in [accu] and the same code pointer, environment,
    argument count, stack and exception handler. *)
Theorem perform_resume `{SM : StackMemory} `{SH : SharedHeap} `{RT : Runtime}
    (e : entry) (n : nat) (s : st) (f p : fiber) (toff pea c : Z) (prest : list Z) :
  let F := current_stack (d s) in
  fibers (d s) !! F = Some f -> fibers (d s) !! parent f = Some p -> parent f <> NULL -> parent f <> F ->
  0 < F < 2 ^ 62 -> f_sp p = Val_long toff :: Val_long pea :: prest -> is_int toff -> is_int pea ->
  is_int (trap_sp_off (d s)) -> is_int (extra_args s) ->
  no_barrier (d s) -> heap_ok (h s) -> young_limit (h s) <= young_ptr (h s) - 24 ->
  (forall h', words (h s) ⊆ words h' -> Code_val h' (handle_effect f) = Ret c) ->
  exists cont x1,
    dispatch e n PERFORM s = check_stacks e (mkSt c (handle_effect f) (handle_effect f) (pea + 2)
      (accu s :: cont :: Val_ptr F :: prest) x1) /\
    current_stack x1 = parent f /\ trap_sp_off x1 = toff /\
    block_at (hp x1) cont Cont_tag [Val_ptr F; Val_long 0] /\ words (h s) ⊆ words (hp x1) /\
    fibers x1 = <[F := suspended s f]> (fibers (d s)) /\
    forall s2 q fn arg rest cf,
      fibers (d s2) !! F = Some (suspended s f) -> fibers (d s2) !! current_stack (d s2) = Some q ->
      current_stack (d s2) <> F -> accu s2 = Val_ptr F -> sp s2 = fn :: arg :: Val_ptr F :: rest ->
      Code_val (h s2) fn = Ret cf ->
      exists x3,
        dispatch e n RESUME s2 = check_stacks e (mkSt cf fn fn 0
          (arg :: pc s :: env s :: Val_long (extra_args s) :: sp s) x3) /\
        current_stack x3 = F /\ trap_sp_off x3 = trap_sp_off (d s) /\ hp x3 = h s2 /\
        (exists f3, fibers x3 !! F = Some f3 /\ parent f3 = current_stack (d s2) /\
           handle_value f3 = handle_value f /\ handle_exn f3 = handle_exn f /\ handle_effect f3 = handle_effect f) /\
        forall s4 local,
          code (d s4) !! pc s4 = Some 1 -> extra_args s4 = 0 ->
          sp s4 = local :: pc s :: env s :: Val_long (extra_args s) :: sp s ->
          dispatch e n RETURN s4 = Ret (Next (mkSt (pc s) (accu s4) (env s) (extra_args s) (sp s) (d s4))).
Proof.
  intros F Hf Hp Hnull Hne HF Hps Htoff Hpea Ht Hx Hb Hok Hroom Hcode.
  destruct (perform_spec e s f p toff pea prest c n Hf Hp Hnull Hne Hps Htoff Hpea Hb Hok Hroom Hcode)
    as (cont & h' & Hsub & _ & Hbk & E).
  eexists cont, _. split; [exact E|]. split_and!; try done.
  intros s2 q fn arg rest cf HF2 Hq Hne2 Ha Hs2 Hcf.
  pose proof (resume_spec e s2 (suspended s f) q (trap_sp_off (d s)) _ fn arg rest cf n F HF Ha Hs2 HF2 Hq
    Hne2 eq_refl Ht Hcf) as E2.
  eexists. split; [exact E2|]. split_and!; try done.
  - eexists. split.
    + cbn. rewrite lookup_insert_ne, lookup_insert_eq by done. done.
    + done.
  - intros s4 local Hc4 Hx4 Hs4. by eapply (return_frame e s4 n 1 [local]); try done; lia.
Qed.
Lemma perform_resume_witness :
  exists cont x1,
    dispatch (SM := growing_stacks) (SH := growing_heap) (RT := no_runtime) ex_entry 0 PERFORM
      (mkSt 400 11 1024 0 [13] (ex_machine [] 32)) =
    check_stacks (SM := growing_stacks) (RT := no_runtime) ex_entry
      (mkSt 600 1000 1000 2 [11; cont; 33; 77] x1) /\ current_stack x1 = 16.
Proof.
  destruct (perform_resume (SM := growing_stacks) (SH := growing_heap) (RT := no_runtime) ex_entry 0
    (mkSt 400 11 1024 0 [13] (ex_machine [] 32)) (mkFiber [] 1 1 1000 16 (-1) 100 1)
    (mkFiber [Val_long 1; Val_long 0; 77] 1 1 1 NULL (-1) 100 0) 1 0 600 [77])
    as (cont & x1 & E & Hc & _); try reflexivity; try discriminate;
    try (unfold is_int, Min_long, Max_long; cbn; lia).
  - apply no_barrierb_sound. vm_compute. reflexivity.
  - apply heap_okb_sound. vm_compute. reflexivity.
  - intros h' Hsub. unfold Code_val, Field, load. cbn [handle_effect].
    rewrite (lookup_weaken (words (h (mkSt 400 11 1024 0 [13] (ex_machine [] 32)))) (words h') 1000 600);
      [reflexivity|vm_compute; reflexivity|exact Hsub].
  - exists cont, x1. exact (conj E Hc).
Defined.

(** Method lookup.  GETPUBMET finds the method of a label by its inline
    cache or by binary search, whatever the cache holds (as long as it is the
    offset of some entry), leaves the object on the stack, rewrites at most
    the cache word, again with the offset of an entry; GETDYNMET finds the
    same method. *)
Theorem method_lookup `{SM : StackMemory} `{SH : SharedHeap} `{RT : Runtime}
    (e : entry) (n : nat) (s : st) (meths k t cache m : Z) (tbl : list (Z * Z)) (i : nat) :
  Field (h s) (accu s) 0 = Ret meths -> method_table (h s) meths tbl k -> tbl !! i = Some (Val_int t, m) ->
  code (d s) !! pc s = Some t -> code (d s) !! (pc s + 4) = Some cache -> cache mod 16 = 0 ->
  (exists code' cache', dispatch e n GETPUBMET s =
      Ret (Next (mkSt (pc s + 8) m (env s) (extra_args s) (accu s :: sp s) (set_code code' (d s)))) /\
    code' = <[pc s + 4 := cache']> (code (d s)) /\ cache' mod 16 = 0) /\
  (forall s', h s' = h s -> sp s' = accu s :: sp s -> accu s' = Val_int t ->
     dispatch e n GETDYNMET s' = Ret (Next (set_accu m s'))).
Proof.
  intros Hm Ht Hi Hc1 Hc2 Hmod. pose proof (find_method_spec _ _ _ _ _ _ _ Ht Hi) as Hfind.
  destruct (mt_size _ _ _ _ Ht) as [Hk Hlen]. pose proof (mt_entry _ _ _ _ Ht _ _ _ Hi) as [Hlab Hmeth].
  pose proof (lookup_lt_Some _ _ _ Hi) as Hlt. assert (2 ^ k <= 2 ^ 24) by (apply Z.pow_le_mono_r; lia). split.
  - assert (dispatch e n GETPUBMET s = exec_object GETPUBMET s) as -> by (by destruct n).
    cbn [exec_object]. rewrite Hm. mred.
    rewrite (operand_at (push (accu s) s) t) by done. mred.
    unfold code_at. cbn [set_pc push set_sp d pc code]. rewrite Z.mul_0_r, Z.add_0_r, Hc2.
    cbn [of_option mbind result_bind].
    match goal with |- context [h ?y] => change (h y) with (h s) end.
    rewrite (mt_mask _ _ _ _ Ht). mred. rewrite Hlen.
    destruct (cache_offset cache k ltac:(lia) Hmod) as (j & Hj & Hjk). rewrite Hj.
    destruct (lookup_lt_is_Some_2 tbl (Z.to_nat j)) as [[lab' m'] Ej]; [lia|].
    destruct (mt_entry _ _ _ _ Ht _ _ _ Ej) as [Hlab' Hm'].
    rewrite Z2Nat.id in Hlab', Hm' by lia. unfold Field in Hlab', Hm'.
    replace (meths + 8 * 3 + 16 * j) with (meths + 8 * (3 + 2 * j)) by lia.
    replace (meths + 8 * 2 + 16 * j) with (meths + 8 * (2 + 2 * j)) by lia.
    rewrite Hlab'. mred. destruct (Z.eqb_spec lab' (Val_int t)) as [->|Hne].
    + rewrite Hm'. mred. exists (<[pc s + 4 := cache]> (code (d s))), cache.
      rewrite (label_unique _ _ _ _ _ _ _ _ _ Ht Ej Hi). split_and!; try done.
      rewrite insert_id by done. unfold set_pc, set_accu, push, set_sp. cbn [pc accu env extra_args sp d].
      replace (pc s + 4 + 4) with (pc s + 8) by lia. by destruct (d s).
    + rewrite Hfind. mred.
      replace (3 + 2 * Z.of_nat i - 1) with (2 + 2 * Z.of_nat i) by lia. rewrite Hmeth. mred.
      eexists _, _. split_and!; [|done|].
      * unfold set_pc, set_accu, push, set_sp, set_d. cbn [pc accu env extra_args sp d].
        by replace (pc s + 4 + 4) with (pc s + 8) by lia.
      * rewrite swrap_small by (change (32 - 1) with 31; lia).
        replace ((3 + 2 * Z.of_nat i - 3) * 8) with (Z.of_nat i * 16) by lia. apply Z_mod_mult.
  - intros s' Hh Hs' Ha'.
    assert (dispatch e n GETDYNMET s' = exec_object GETDYNMET s') as -> by (by destruct n).
    cbn [exec_object]. read_sp Hs'. rewrite Hh, Hm. mred. rewrite Ha', Hfind.
    mred. replace (3 + 2 * Z.of_nat i - 1) with (2 + 2 * Z.of_nat i) by lia.
    by rewrite Hmeth.
Qed.
Lemma ex_table : method_table ex_mem 1048 [(11, 700); (21, 704)] 1.
Proof.
  split; try done.
  - intros i lab m Hi. destruct i as [|[|i]]; simplify_eq/=; split; reflexivity.
  - intros i j lab m lab' m' Hij Hi Hj.
    destruct i as [|[|i]], j as [|[|j]]; simplify_eq/=; lia.
Qed.
Lemma method_lookup_witness :
  exists code', dispatch (SM := growing_stacks) (SH := growing_heap) (RT := no_runtime) ex_entry 0 GETPUBMET
    (mkSt 400 1104 1 0 [] (ex_machine [10; 48] 32)) =
    Ret (Next (mkSt 408 704 1 0 [1104] (set_code code' (ex_machine [10; 48] 32)))).
Proof.
  destruct (method_lookup (SM := growing_stacks) (SH := growing_heap) (RT := no_runtime) ex_entry 0
    (mkSt 400 1104 1 0 [] (ex_machine [10; 48] 32)) 1048 1 10 48 704 [(11, 700); (21, 704)] 1)
    as [(code' & cache' & E & _) _]; try reflexivity.
  - exact ex_table.
  - exists code'. exact E.
Defined.

(** The fused instructions.  Every PUSHxxx instruction does what PUSH
    followed by xxx does, operands included, on every state. *)
Theorem fused_instructions `{SM : StackMemory} `{SH : SharedHeap} `{RT : Runtime}
    (e : entry) (n : nat) (op op' : opcode) (s : st) :
  fused op = Some op' -> dispatch e n op s = then_exec (dispatch e n PUSH s) (dispatch e n op').
Proof. intros E. destruct n, op; simpl in E; simplify_eq; reflexivity. Qed.
Lemma fused_instructions_witness :
  dispatch (SM := growing_stacks) (SH := growing_heap) (RT := no_runtime) ex_entry 0 PUSHACC
    (mkSt 400 5 1 0 [7; 9] (ex_machine [2] 32)) =
  then_exec (dispatch (SM := growing_stacks) (SH := growing_heap) (RT := no_runtime) ex_entry 0 PUSH
      (mkSt 400 5 1 0 [7; 9] (ex_machine [2] 32)))
    (dispatch (SM := growing_stacks) (SH := growing_heap) (RT := no_runtime) ex_entry 0 ACC).
Proof.
  exact (fused_instructions (SM := growing_stacks) (SH := growing_heap) (RT := no_runtime) ex_entry 0 PUSHACC ACC _ eq_refl).
Defined.

(** Stack checks.  Entering a function or a handler with fewer than [2^31] words on the stack either goes on with
    the same registers and stack words and at least [Stack_threshold] words
    of room in the current fiber, whose handlers and parent are kept even if
    its stack has moved, or finds that the stack cannot grow. *)
Theorem stack_check `{SM : StackMemory, !StackMemoryOk SM} `{SH : SharedHeap} `{RT : Runtime}
    (e : entry) (s : st) (f : fiber) :
  pool_ok (d s) -> fibers (d s) !! current_stack (d s) = Some f -> caml_check_gc_interrupt (h s) = false ->
  Z.of_nat (length (sp s)) < 2 ^ 31 ->
  (exists x f', check_stacks e s = Ret (Next (set_d x s)) /\ hp x = h s /\ trap_sp_off x = trap_sp_off (d s) /\
     code x = code (d s) /\
     fibers x !! current_stack x = Some f' /\ Stack_threshold_words <= f_wsize f' - Z.of_nat (length (sp s)) /\
     parent f' = parent f /\ handle_value f' = handle_value f /\ handle_exn f' = handle_exn f /\
     handle_effect f' = handle_effect f) \/
  (exists x, save_sp s = Ret x /\ caml_try_realloc_stack x Stack_threshold_words = Ret (false, x)).
Proof. intros Hp Hf Hi Hlen. exact (check_stacks_room e s f Hp Hf Hi Hlen). Qed.
Lemma stack_check_witness :
  exists x, check_stacks (SM := growing_stacks) (RT := no_runtime) ex_entry
    (mkSt 400 1 1 0 (replicate 90 1) ex_dom) = Ret (Next (mkSt 400 1 1 0 (replicate 90 1) x)).
Proof.
  destruct (stack_check (SM := growing_stacks) (SH := growing_heap) (RT := no_runtime) ex_entry
    (mkSt 400 1 1 0 (replicate 90 1) ex_dom) (mkFiber [Val_long 5; Val_long 1] 1 1 1 NULL (-1) 100 0))
    as [(x & f' & E & _)|(x & E & G)].
  - exact ex_dom_ok.
  - reflexivity.
  - reflexivity.
  - reflexivity.
  - exists x. exact E.
  - exfalso. vm_compute in E. injection E as <-. vm_compute in G. discriminate.
Defined.

(** Calls and returns.  APPLY1, APPLY2 and APPLY3 put the return frame
    under the arguments and enter the closure; when the function returns a
    value with its frame on top, execution continues after the call with that
    value and with the caller's environment, argument count and stack, the
    arguments removed.  With extra arguments pending, RETURN instead applies
    the value returned to the next ones. *)
Theorem call_return `{SM : StackMemory} `{SH : SharedHeap} `{RT : Runtime}
    (e : entry) (n : nat) (op : opcode) (s : st) (args rest : list Z) (c : Z) :
  (op, length args) ∈ [(APPLY1, 1%nat); (APPLY2, 2%nat); (APPLY3, 3%nat)] ->
  sp s = args ++ rest -> Code_val (h s) (accu s) = Ret c -> is_int (extra_args s) ->
  exists s1, dispatch e n op s = check_stacks e s1 /\ pc s1 = c /\ env s1 = accu s /\ d s1 = d s /\
    extra_args s1 = Z.of_nat (length args) - 1 /\ (exists frame, sp s1 = args ++ frame ++ rest) /\
    forall s2 m locals,
      code (d s2) !! pc s2 = Some m -> m = Z.of_nat (length locals) ->
      sp s2 = locals ++ drop (length args) (sp s1) ->
      (extra_args s2 <= 0 ->
       dispatch e n RETURN s2 = Ret (Next (mkSt (pc s) (accu s2) (env s) (extra_args s) rest (d s2)))) /\
      (forall c2, 0 < extra_args s2 -> Code_val (h s2) (accu s2) = Ret c2 ->
       dispatch e n RETURN s2 = Ret (Next (mkSt c2 (accu s2) (accu s2) (extra_args s2 - 1)
         (drop (length args) (sp s1)) (d s2)))).
Proof.
  intros Hop Hs Hc Hx.
  assert (dispatch e n op s = apply_n e (Z.of_nat (length args)) s) as ->.
  { repeat (apply elem_of_cons in Hop as [[= -> ->]|Hop]; [by destruct n|]). by apply not_elem_of_nil in Hop. }
  rewrite (apply_n_spec e s _ args rest c) by done.
  eexists. split_and!; try done.
  - by exists [pc s; env s; Val_long (extra_args s)].
  - cbn [sp]. rewrite drop_app_length. intros s2 m locals Hm Hl Hs2. split.
    + intros Hx2. by rewrite (return_frame e s2 n m locals (pc s) (env s) (extra_args s) rest).
    + intros c2 Hx2 Hc2. subst m.
      assert (dispatch e n RETURN s2 = exec_return e RETURN s2) as -> by (by destruct n).
      cbn [exec_return]. rewrite (operand_at _ _ Hm). mred.
      erewrite pop_app by exact Hs2. cbn [mbind result_bind extra_args set_sp set_pc].
      rewrite (proj2 (Z.ltb_lt _ _)) by lia. unfold enter_closure.
      match goal with |- context [Code_val ?x ?y] => change (Code_val x y) with (Code_val (h s2) (accu s2)) end.
      by rewrite Hc2.
Qed.
Lemma call_return_witness :
  exists s1, dispatch (SM := growing_stacks) (SH := growing_heap) (RT := no_runtime) ex_entry 0 APPLY2
      (mkSt 400 1024 1000 0 [5; 7; 9] (ex_machine [] 32)) =
      check_stacks (SM := growing_stacks) (RT := no_runtime) ex_entry s1 /\ pc s1 = 604.
Proof.
  destruct (call_return (SM := growing_stacks) (SH := growing_heap) (RT := no_runtime) ex_entry 0 APPLY2
    (mkSt 400 1024 1000 0 [5; 7; 9] (ex_machine [] 32)) [5; 7] [9] 604) as (s1 & E & Hp & _);
    try reflexivity.
  - apply elem_of_cons. right. apply elem_of_cons. left. reflexivity.
  - unfold is_int, Min_long, Max_long. cbn. lia.
  - exists s1. exact (conj E Hp).
Defined.

End InterpProps.
