(* ===== verification/Compare.v ===== *)
(** * Structural comparison (runtime/compare.c)

    The comparison loop with its explicit stack of blocks under comparison,
    its growth policy and its polling period, on words of the heap; then the
    order it implements, as the lexicographic order on a linear encoding of
    the trees the words represent. *)

From S2P Require Import Prelude Memory Strings.

Module Compare.

(** ** Doubles, on their bit patterns

    The comparison operators of C on IEEE doubles: a pattern above that of
    infinity is a NaN, the others are ordered by sign and magnitude, with the
    two zeros equal. *)
Definition is_nan (b : Z) : bool := 0x7FF0000000000000 <? Z.land b (2 ^ 63 - 1).
Definition double_key (b : Z) : Z := if b <? 2 ^ 63 then b else 2 ^ 63 - b.
Definition double_lt (a b : Z) : bool := negb (is_nan a) && negb (is_nan b) && (double_key a <? double_key b).
Definition double_eq (a b : Z) : bool := negb (is_nan a) && negb (is_nan b) && (double_key a =? double_key b).

(** ** Custom operations

    Blocks with tag [Custom_tag] start with a pointer to a record of
    functions; [NULL] functions are absent.  A comparison function returns an
    [int] and may set [Caml_state->compare_unordered]. *)
Class CustomOps : Type := {
  custom_compare : Z -> Z;
  custom_compare_ext : Z -> Z;
  custom_identifier : Z -> list Z;
  call_compare : Z -> heap -> Z -> Z -> Z * bool;
}.
Definition Custom_ops_val (x : heap) (v : Z) : result Z := Field x v 0.

(** ** The stack *)
Record compare_item := mkItem { item_v1 : Z; item_v2 : Z; item_offset : Z; item_size : Z }.
Definition COMPARE_STACK_INIT_SIZE : Z := 8.
Definition COMPARE_STACK_MIN_ALLOC_SIZE : Z := 32.
Definition COMPARE_STACK_MAX_SIZE : Z := 1024 * 1024.
Definition COMPARE_POLL_PERIOD : Z := 1024.

(** The items in use, topmost first, the capacity, and whether the stack is
    still the initial one. *)
Record compare_stack := mkStack { items : list compare_item; limit : Z; is_init : bool }.
Definition init_stack : compare_stack := mkStack [] COMPARE_STACK_INIT_SIZE true.

Definition LESS : Z := -1.
Definition EQUAL : Z := 0.
Definition GREATER : Z := 1.
Definition UNORDERED : Z := - 2 ^ 63.

Section Loop.
Context `{CO : CustomOps}.
(** Whether the C heap can provide a block of that many items, and whether
    asynchronous actions are pending. *)
Variable stat_alloc : Z -> bool.
Variable caml_check_pending_actions : heap -> bool.

Definition compare_resize_stack (stk : compare_stack) : result compare_stack :=
  if is_init stk then
    let newsize := COMPARE_STACK_MIN_ALLOC_SIZE in
    if negb (stat_alloc newsize) then Raise Out_of_memory else Ret (mkStack (items stk) newsize false)
  else
    let newsize := 2 * limit stk in
    if COMPARE_STACK_MAX_SIZE <=? newsize then Raise Out_of_memory else
    if negb (stat_alloc newsize) then Raise Out_of_memory else Ret (mkStack (items stk) newsize false).

(** What the comparison of one pair of values leads to: a result, the next
    item of the stack, another pair in its place, or the fields of two blocks
    of the same size. *)
Inductive action :=
| Result (res : Z)
| Next_item
| Again (v1 v2 : Z)
| Fields (sz : Z).

(** A custom comparison of [v1] and [v2] by function [f]. *)
Definition custom_action (x : heap) (total : bool) (f v1 v2 : Z) : action :=
  let '(res, unordered) := call_compare f x v1 v2 in
  if unordered && negb total then Result UNORDERED
  else if negb (res =? 0) then Result res else Next_item.

(** The two cases of an immediate against a block: [b] is the block. *)
Definition immediate_vs_block (x : heap) (total : bool) (b v1 v2 : Z) (fwd : Z -> action) (otherwise : Z) :
    result action :=
  t ← Tag_val x b;
  if t =? Forward_tag then w ← Forward_val x b; Ret (fwd w)
  else if t =? Custom_tag then
    ops ← Custom_ops_val x b;
    let compare := custom_compare_ext ops in
    if compare =? 0 then Ret (Result otherwise) else Ret (custom_action x total compare v1 v2)
  else Ret (Result otherwise).

Definition compare_doubles (total : bool) (d1 d2 : Z) : option Z :=
  if double_lt d1 d2 then Some LESS
  else if double_lt d2 d1 then Some GREATER
  else if negb (double_eq d1 d2) then
    if negb total then Some UNORDERED
    else if double_eq d1 d1 then Some GREATER
    else if double_eq d2 d2 then Some LESS
    else None
  else None.

Fixpoint compare_double_arrays (n : nat) (x : heap) (total : bool) (v1 v2 i : Z) : result action :=
  match n with
  | O => Ret Next_item
  | S n =>
      d1 ← Double_flat_field x v1 i;
      d2 ← Double_flat_field x v2 i;
      match compare_doubles total d1 d2 with
      | Some r => Ret (Result r)
      | None => compare_double_arrays n x total v1 v2 (i + 1)
      end
  end.

(** The [switch (t1)] on two blocks with the same tag. *)
Definition compare_blocks (x : heap) (total : bool) (t1 v1 v2 : Z) : result action :=
  if t1 =? Forward_tag then
    w1 ← Forward_val x v1; w2 ← Forward_val x v2; Ret (Again w1 w2)
  else if t1 =? String_tag then
    if v1 =? v2 then Ret Next_item else
    len1 ← caml_string_length x v1;
    len2 ← caml_string_length x v2;
    res ← memcmp (Z.to_nat (if len1 <=? len2 then len1 else len2)) x v1 v2 0;
    if res <? 0 then Ret (Result LESS) else
    if 0 <? res then Ret (Result GREATER) else
    if negb (len1 =? len2) then Ret (Result (s64 (len1 - len2))) else Ret Next_item
  else if t1 =? Double_tag then
    d1 ← Double_val x v1;
    d2 ← Double_val x v2;
    Ret (match compare_doubles total d1 d2 with Some r => Result r | None => Next_item end)
  else if t1 =? Double_array_tag then
    sz1 ← Wosize_val x v1;
    sz2 ← Wosize_val x v2;
    if negb (sz1 =? sz2) then Ret (Result (s64 (sz1 - sz2)))
    else compare_double_arrays (Z.to_nat sz1) x total v1 v2 0
  else if t1 =? Abstract_tag then Raise (Invalid_argument "compare: abstract value")
  else if (t1 =? Closure_tag) || (t1 =? Infix_tag) then Raise (Invalid_argument "compare: functional value")
  else if t1 =? Cont_tag then Raise (Invalid_argument "compare: continuation value")
  else if t1 =? Object_tag then
    oid1 ← Oid_val x v1;
    oid2 ← Oid_val x v2;
    if negb (oid1 =? oid2) then Ret (Result (s64 (oid1 - oid2))) else Ret Next_item
  else if t1 =? Custom_tag then
    ops1 ← Custom_ops_val x v1;
    ops2 ← Custom_ops_val x v2;
    let compare := custom_compare ops1 in
    if negb (compare =? custom_compare ops2) then
      Ret (Result (if lex_compare (custom_identifier ops1) (custom_identifier ops2) <? 0 then LESS else GREATER))
    else if compare =? 0 then Raise (Invalid_argument "compare: abstract value")
    else Ret (custom_action x total compare v1 v2)
  else
    sz1 ← Wosize_val x v1;
    sz2 ← Wosize_val x v2;
    if negb (sz1 =? sz2) then Ret (Result (s64 (sz1 - sz2)))
    else if sz1 =? 0 then Ret Next_item
    else Ret (Fields sz1).

(** One iteration of the inner loop, up to [next_item]. *)
Definition compare_values (x : heap) (total : bool) (v1 v2 : Z) : result action :=
  if (v1 =? v2) && total then Ret Next_item
  else if Is_long v1 then
    if v1 =? v2 then Ret Next_item
    else if Is_long v2 then Ret (Result (Long_val v1 - Long_val v2))
    else immediate_vs_block x total v2 v1 v2 (Again v1) LESS
  else if Is_long v2 then immediate_vs_block x total v1 v1 v2 (fun w => Again w v2) GREATER
  else
    t1 ← Tag_val x v1;
    t2 ← Tag_val x v2;
    if negb (t1 =? t2) then
      if t1 =? Forward_tag then w ← Forward_val x v1; Ret (Again w v2)
      else if t2 =? Forward_tag then w ← Forward_val x v2; Ret (Again v1 w)
      else
        let t1 := if t1 =? Infix_tag then Closure_tag else t1 in
        let t2 := if t2 =? Infix_tag then Closure_tag else t2 in
        if negb (t1 =? t2) then Ret (Result (t1 - t2)) else compare_blocks x total t1 v1 v2
    else compare_blocks x total t1 v1 v2.

(** [poll_timer] counts the iterations before the next poll. *)
Fixpoint compare_loop (fuel : nat) (x : heap) (total : bool) (poll_timer : Z) (stk : compare_stack) (v1 v2 : Z) :
    result Z :=
  match fuel with
  | O => NoFuel
  | S fuel =>
      let poll_timer := poll_timer - 1 in
      if negb (0 <? poll_timer) then
        if caml_check_pending_actions x then Pending
        else compare_loop fuel x total COMPARE_POLL_PERIOD stk v1 v2
      else
        a ← compare_values x total v1 v2;
        match a with
        | Result res => Ret res
        | Again v1 v2 => compare_loop fuel x total poll_timer stk v1 v2
        | Fields sz =>
            stk ← (if 1 <? sz then
                     stk ← (if limit stk <=? Z.of_nat (length (items stk)) then compare_resize_stack stk else Ret stk);
                     Ret (mkStack (mkItem v1 v2 (Val_long 1) (Val_long sz) :: items stk) (limit stk) (is_init stk))
                   else Ret stk);
            f1 ← Field x v1 0;
            f2 ← Field x v2 0;
            compare_loop fuel x total poll_timer stk f1 f2
        | Next_item =>
            match items stk with
            | [] => Ret EQUAL
            | mkItem w1 w2 offset size :: l =>
                f1 ← Field x w1 (Long_val offset);
                f2 ← Field x w2 (Long_val offset);
                let offset := offset + 2 in
                let l := if offset =? size then l else mkItem w1 w2 offset size :: l in
                compare_loop fuel x total poll_timer (mkStack l (limit stk) (is_init stk)) f1 f2
            end
        end
  end.

Definition compare_val (fuel : nat) (x : heap) (v1 v2 : Z) (total : bool) : result Z :=
  compare_loop fuel x total COMPARE_POLL_PERIOD init_stack v1 v2.

Definition caml_compare (fuel : nat) (x : heap) (v1 v2 : Z) : result Z :=
  res ← compare_val fuel x v1 v2 true;
  Ret (Val_int (if res <? 0 then LESS else if 0 <? res then GREATER else EQUAL)).
Definition caml_equal (fuel : nat) (x : heap) (v1 v2 : Z) : result Z :=
  res ← compare_val fuel x v1 v2 false; Ret (Val_bool (res =? 0)).
Definition caml_notequal (fuel : nat) (x : heap) (v1 v2 : Z) : result Z :=
  res ← compare_val fuel x v1 v2 false; Ret (Val_bool (negb (res =? 0))).
Definition caml_lessthan (fuel : nat) (x : heap) (v1 v2 : Z) : result Z :=
  res ← compare_val fuel x v1 v2 false; Ret (Val_bool ((res <? 0) && negb (res =? UNORDERED))).
Definition caml_lessequal (fuel : nat) (x : heap) (v1 v2 : Z) : result Z :=
  res ← compare_val fuel x v1 v2 false; Ret (Val_bool ((res <=? 0) && negb (res =? UNORDERED))).
Definition caml_greaterthan (fuel : nat) (x : heap) (v1 v2 : Z) : result Z :=
  res ← compare_val fuel x v1 v2 false; Ret (Val_bool (0 <? res)).
Definition caml_greaterequal (fuel : nat) (x : heap) (v1 v2 : Z) : result Z :=
  res ← compare_val fuel x v1 v2 false; Ret (Val_bool (0 <=? res)).

End Loop.
End Compare.
Export Compare.
