(* ===== verification/CompareSpec.v ===== *)
(** * The order implemented by structural comparison

    Values represent trees; trees are encoded as lists of keys, and the
    comparison of two values is the lexicographic comparison of the two
    encodings, whatever the sharing, the forwarding blocks and the depth. *)

From S2P Require Import Prelude Memory Ints Strings Compare.

Module CompareSpec.

(** ** Trees *)
Inductive tree :=
| TInt (n : Z)
| TBlk (tag : Z) (l : list tree)
| TStr (bs : list Z)
| TDbl (b : Z)
| TDArr (l : list Z)
| TObj (oid : Z)
| TBox (ops z : Z).

(** Induction with a hypothesis for every field. *)
Lemma tree_ind' (P : tree -> Prop) :
  (forall n, P (TInt n)) -> (forall tag l, Forall P l -> P (TBlk tag l)) -> (forall bs, P (TStr bs)) ->
  (forall b, P (TDbl b)) -> (forall l, P (TDArr l)) -> (forall o, P (TObj o)) -> (forall p z, P (TBox p z)) ->
  forall t, P t.
Proof.
  intros Hi Hb Hs Hd Ha Ho Hx. fix IH 1. intros [n|tag l|bs|b|l|o|p z];
    [apply Hi|apply Hb|apply Hs|apply Hd|apply Ha|apply Ho|apply Hx].
  induction l as [|t l IHl]; constructor; [apply IH|exact IHl].
Qed.

(** Tags of the blocks compared field by field. *)
Definition plain_tag (t : Z) : bool :=
  negb (existsb (Z.eqb t) [Forward_tag; String_tag; Double_tag; Double_array_tag; Abstract_tag;
                           Closure_tag; Infix_tag; Cont_tag; Object_tag; Custom_tag]).

(** ** Keys *)
Inductive key := Num (z : Z) | Dbl (b : Z).

Section Order.
Context `{CO : CustomOps}.

Definition enc_bytes (bs : list Z) : list key := ((fun b => Num (b + 1)) <$> bs) ++ [Num 0].
Fixpoint enc (t : tree) : list key :=
  match t with
  | TInt n => [Num 0; Num n]
  | TBlk tag l => Num 1 :: Num tag :: Num (Z.of_nat (length l)) :: concat (map enc l)
  | TStr bs => Num 1 :: Num String_tag :: enc_bytes bs
  | TDbl b => [Num 1; Num Double_tag; Dbl b]
  | TDArr l => Num 1 :: Num Double_array_tag :: Num (Z.of_nat (length l)) :: map Dbl l
  | TObj oid => [Num 1; Num Object_tag; Num oid]
  | TBox ops z => Num 1 :: Num Custom_tag :: enc_bytes (custom_identifier ops) ++ [Num z]
  end.

(** Doubles: [total] orders NaN as equal to itself and below the others;
    otherwise a NaN makes the comparison unordered ([None]). *)
Definition cmp_double (total : bool) (a b : Z) : option Z :=
  if is_nan a || is_nan b then
    if total then Some (Z.b2z (is_nan b) - Z.b2z (is_nan a)) else None
  else Some (Z.sgn (double_key a - double_key b)).
Definition cmp_key (total : bool) (k1 k2 : key) : option Z :=
  match k1, k2 with
  | Num a, Num b => Some (Z.sgn (a - b))
  | Dbl a, Dbl b => cmp_double total a b
  | Num _, Dbl _ => Some (-1)
  | Dbl _, Num _ => Some 1
  end.
Fixpoint cmp_keys (total : bool) (l1 l2 : list key) : option Z :=
  match l1, l2 with
  | [], [] => Some 0
  | [], _ => Some (-1)
  | _, [] => Some 1
  | k1 :: l1, k2 :: l2 =>
      match cmp_key total k1 k2 with
      | Some s => if s =? 0 then cmp_keys total l1 l2 else Some s
      | None => None
      end
  end.
Definition tree_compare (total : bool) (t1 t2 : tree) : option Z := cmp_keys total (enc t1) (enc t2).

(** ** Representation *)

(** Forwarding blocks are transparent. *)
Inductive fwd (x : heap) : Z -> Z -> Prop :=
| fwd_refl v : fwd x v v
| fwd_step v u w : Is_block v = true -> Tag_val x v = Ret Forward_tag -> Forward_val x v = Ret u ->
    fwd x u w -> fwd x v w.

(** The integer of a boxed integer whose data word is [z]: [Int32] has the low 32 bits of the
    word, the others have 64 bits. *)
Definition boxed_number (identifier : list Z) (z : Z) : Z :=
  if bool_decide (identifier = [95; 105]) then s32 z else s64 z.

(** Custom blocks of the boxed integers: one data word, whose number gives the order, with
    no comparison to immediates. *)
Class BoxedOps (boxed_ops : Z -> Prop) : Prop := {
  boxed_fun : forall p, boxed_ops p -> custom_compare p <> 0;
  boxed_ext : forall p, boxed_ops p -> custom_compare_ext p = 0;
  boxed_id : forall p q, boxed_ops p -> boxed_ops q ->
    custom_compare p = custom_compare q <-> custom_identifier p = custom_identifier q;
  boxed_bytes : forall p, boxed_ops p -> Forall is_byte (custom_identifier p);
  boxed_call : forall p x v1 v2 z1 z2, boxed_ops p -> Field x v1 1 = Ret z1 -> Field x v2 1 = Ret z2 ->
    call_compare (custom_compare p) x v1 v2 =
      (Z.sgn (boxed_number (custom_identifier p) z1 - boxed_number (custom_identifier p) z2), false);
}.
Variable boxed_ops : Z -> Prop.

(** [block_repr x w t]: the word [w], past forwarding, represents [t]. *)
Fixpoint block_repr (x : heap) (t : tree) (w : Z) {struct t} : Prop :=
  match t with
  | TInt n => is_int n /\ w = Val_long n
  | TBlk tag l =>
      Is_block w = true /\ plain_tag tag = true /\ Tag_val x w = Ret tag /\
      Wosize_val x w = Ret (Z.of_nat (length l)) /\
      (fix fields (l : list tree) (i : Z) {struct l} : Prop :=
         match l with
         | [] => True
         | t :: l => (exists f w', Field x w i = Ret f /\ fwd x f w' /\ block_repr x t w') /\ fields l (i + 1)
         end) l 0
  | TStr bs => Is_block w = true /\ string_at x w bs
  | TDbl b => Is_block w = true /\ Tag_val x w = Ret Double_tag /\ Double_val x w = Ret b
  | TDArr l =>
      Is_block w = true /\ Tag_val x w = Ret Double_array_tag /\ Wosize_val x w = Ret (Z.of_nat (length l)) /\
      forall i b, l !! i = Some b -> Double_flat_field x w (Z.of_nat i) = Ret b
  | TObj oid => Is_block w = true /\ Tag_val x w = Ret Object_tag /\ Oid_val x w = Ret oid /\ is_int oid
  | TBox ops z =>
      Is_block w = true /\ Tag_val x w = Ret Custom_tag /\ Custom_ops_val x w = Ret ops /\ boxed_ops ops /\
      exists data, Field x w 1 = Ret data /\ z = boxed_number (custom_identifier ops) data
  end.
Definition repr (x : heap) (v : Z) (t : tree) : Prop := exists w, fwd x v w /\ block_repr x t w.
Fixpoint fields_repr (x : heap) (w : Z) (l : list tree) (i : Z) : Prop :=
  match l with
  | [] => True
  | t :: l => (exists f, Field x w i = Ret f /\ repr x f t) /\ fields_repr x w l (i + 1)
  end.

Fixpoint depth (t : tree) : Z :=
  match t with
  | TBlk _ l => 1 + foldr (fun t m => Z.max (depth t) m) 0 l
  | _ => 0
  end.

Lemma block_repr_blk x tag l w :
  block_repr x (TBlk tag l) w <->
  Is_block w = true /\ plain_tag tag = true /\ Tag_val x w = Ret tag /\
  Wosize_val x w = Ret (Z.of_nat (length l)) /\ fields_repr x w l 0.
Proof.
  assert (forall l i, (fix fields (l : list tree) (i : Z) {struct l} : Prop :=
         match l with
         | [] => True
         | t :: l => (exists f w', Field x w i = Ret f /\ fwd x f w' /\ block_repr x t w') /\ fields l (i + 1)
         end) l i <-> fields_repr x w l i) as Hf.
  { clear. induction l as [|t l IH]; intros i; simpl; [done|]. rewrite IH. unfold repr. naive_solver. }
  simpl. by rewrite Hf.
Qed.

(** ** Lexicographic facts *)

Lemma cmp_keys_skip total p L R :
  (forall k, k ∈ p -> cmp_key total k k = Some 0) -> cmp_keys total (p ++ L) (p ++ R) = cmp_keys total L R.
Proof.
  induction p as [|k p IH]; intros Hk; simpl; [done|].
  rewrite Hk by set_solver. simpl. apply IH. set_solver.
Qed.
Lemma cmp_key_num total z : cmp_key total (Num z) (Num z) = Some 0.
Proof. simpl. by rewrite Z.sub_diag. Qed.
Lemma cmp_key_refl k : cmp_key true k k = Some 0.
Proof.
  destruct k as [z|b]; [apply cmp_key_num|]. simpl. unfold cmp_double. rewrite orb_diag.
  by destruct (is_nan b); rewrite Z.sub_diag.
Qed.
Lemma cmp_keys_same p L R : cmp_keys true (p ++ L) (p ++ R) = cmp_keys true L R.
Proof. apply cmp_keys_skip. intros. apply cmp_key_refl. Qed.
Lemma cmp_keys_nums total p L R : cmp_keys total (map Num p ++ L) (map Num p ++ R) = cmp_keys total L R.
Proof.
  apply cmp_keys_skip. intros k (z & -> & _)%list_elem_of_fmap. apply cmp_key_num.
Qed.

(** Two strings against each other, with what follows them. *)
Lemma cmp_keys_bytes total a b L R :
  Forall is_byte a -> Forall is_byte b ->
  cmp_keys total (enc_bytes a ++ L) (enc_bytes b ++ R) =
  if lex_compare a b =? 0 then cmp_keys total L R else Some (lex_compare a b).
Proof.
  intros Ha. revert b. induction Ha as [|x a Hx Ha IH]; intros b Hb; destruct Hb as [|y b Hy Hb]; simpl.
  - done.
  - unfold is_byte in *. destruct (Z.sgn_spec (0 - (y + 1))) as [[? ->]|[[? ->]|[? ->]]]; try lia. done.
  - unfold is_byte in *. destruct (Z.sgn_spec (x + 1 - 0)) as [[? ->]|[[? ->]|[? ->]]]; try lia. done.
  - destruct (Z.ltb_spec x y).
    + replace (Z.sgn (x + 1 - (y + 1))) with (-1) by lia. done.
    + destruct (Z.ltb_spec y x).
      * replace (Z.sgn (x + 1 - (y + 1))) with 1 by lia. done.
      * replace (Z.sgn (x + 1 - (y + 1))) with 0 by lia. simpl. by apply IH.
Qed.

(** ** Representation facts *)

(** The tag of the block that represents a tree. *)
Definition tree_tag (t : tree) : option Z :=
  match t with
  | TInt _ => None
  | TBlk tag _ => Some tag
  | TStr _ => Some String_tag
  | TDbl _ => Some Double_tag
  | TDArr _ => Some Double_array_tag
  | TObj _ => Some Object_tag
  | TBox _ _ => Some Custom_tag
  end.
Definition data_tag (tag : Z) : Prop :=
  plain_tag tag = true \/ tag = String_tag \/ tag = Double_tag \/ tag = Double_array_tag \/
  tag = Object_tag \/ tag = Custom_tag.

Lemma block_repr_tag x t w :
  block_repr x t w ->
  match tree_tag t with
  | None => Is_long w = true /\ Is_block w = false
  | Some tag => Is_long w = false /\ Is_block w = true /\ Tag_val x w = Ret tag /\ data_tag tag
  end.
Proof.
  assert (forall w, Is_block w = true -> Is_long w = false) as Hl.
  { intros u Hu. rewrite Is_block_long in Hu. by destruct (Is_long u). }
  unfold data_tag. destruct t as [n|tag l|bs|b|l|o|p z]; intros Hr.
  - destruct Hr as [Hn ->]. simpl. rewrite Is_block_long, Val_long_Is_long. done.
  - apply block_repr_blk in Hr as (Hb & Hp & Ht & _). simpl. auto 10.
  - destruct Hr as (Hb & Hr). pose proof (sa_tag _ _ _ Hr). simpl. auto 10.
  - destruct Hr as (Hb & Ht & _). simpl. auto 10.
  - destruct Hr as (Hb & Ht & _). simpl. auto 10.
  - destruct Hr as (Hb & Ht & _). simpl. auto 10.
  - destruct Hr as (Hb & Ht & _). simpl. auto 10.
Qed.
Lemma block_repr_same_tag x t1 t2 w : block_repr x t1 w -> block_repr x t2 w -> tree_tag t1 = tree_tag t2.
Proof.
  intros T1%block_repr_tag T2%block_repr_tag. destruct (tree_tag t1), (tree_tag t2); try done.
  - destruct T1 as (_ & _ & E1 & _), T2 as (_ & _ & E2 & _). congruence.
  - destruct T1 as (_ & E1 & _), T2 as (_ & E2). congruence.
  - destruct T1 as (_ & E1), T2 as (_ & E2 & _). congruence.
Qed.
(** Two trees with the same tag and a block each have the same shape. *)
Definition plain (t : tree) : Prop := match t with TBlk tag _ => plain_tag tag = true | _ => True end.
Lemma block_repr_plain x t w : block_repr x t w -> plain t.
Proof. destruct t; simpl; try done. by intros (_ & ? & _). Qed.
Lemma same_shape (P : tree -> tree -> Prop) t1 t2 :
  plain t1 -> plain t2 -> tree_tag t1 = tree_tag t2 ->
  (forall a b, t1 = TInt a -> t2 = TInt b -> P t1 t2) ->
  (forall tag l l', t1 = TBlk tag l -> t2 = TBlk tag l' -> P t1 t2) ->
  (forall a b, t1 = TStr a -> t2 = TStr b -> P t1 t2) ->
  (forall a b, t1 = TDbl a -> t2 = TDbl b -> P t1 t2) ->
  (forall a b, t1 = TDArr a -> t2 = TDArr b -> P t1 t2) ->
  (forall a b, t1 = TObj a -> t2 = TObj b -> P t1 t2) ->
  (forall p a q b, t1 = TBox p a -> t2 = TBox q b -> P t1 t2) -> P t1 t2.
Proof.
  intros P1 P2 E H1 H2 H3 H4 H5 H6 H7.
  destruct t1, t2; simpl in *; simplify_eq; try discriminate;
    [by eapply H1|by eapply H2|by eapply H3|by eapply H4|by eapply H5|by eapply H6|by eapply H7].
Qed.

Lemma data_tag_not_fwd tag : data_tag tag -> tag <> Forward_tag.
Proof. intros H ->. by destruct H as [?|[?|[?|[?|[?|?]]]]]. Qed.
Lemma data_tag_not_fun tag : data_tag tag -> tag <> Infix_tag /\ tag <> Closure_tag /\ tag <> Abstract_tag /\ tag <> Cont_tag.
Proof. intros H. split_and!; intros ->; by destruct H as [?|[?|[?|[?|[?|?]]]]]. Qed.

Definition not_fwd (x : heap) (w : Z) : Prop := Is_block w = true -> Tag_val x w <> Ret Forward_tag.
Lemma block_repr_not_fwd x t w : block_repr x t w -> not_fwd x w.
Proof.
  intros Hr%block_repr_tag Hb Ht. destruct (tree_tag t); [|destruct Hr; congruence].
  destruct Hr as (_ & _ & E & Hd). apply data_tag_not_fwd in Hd. congruence.
Qed.
Lemma fwd_det x v w w' : fwd x v w -> not_fwd x w -> fwd x v w' -> not_fwd x w' -> w = w'.
Proof.
  induction 1 as [v|v u w Hb Ht Hu _ IH]; intros Hw H' Hw'.
  - destruct H' as [|v u w Hb Ht Hu H']; [done|]. by destruct (Hw Hb).
  - destruct H' as [v|v u' w' Hb' Ht' Hu' H']; [by destruct (Hw' Hb)|]. apply IH; try done. congruence.
Qed.

Lemma list_flat_det (l1 l2 : list Z) (P : nat -> Z -> Prop) :
  (forall i a b, P i a -> P i b -> a = b) -> length l1 = length l2 ->
  (forall i a, l1 !! i = Some a -> P i a) -> (forall i a, l2 !! i = Some a -> P i a) -> l1 = l2.
Proof.
  intros Hd Hl H1 H2. apply list_eq_same_length with (length l1); try done.
  intros i a b _ Ha Hb. by eapply Hd; [apply H1|apply H2].
Qed.

Lemma fields_repr_det x w l1 : forall l2 i,
  Forall (fun t1 => forall t2 w, block_repr x t1 w -> block_repr x t2 w -> t1 = t2) l1 ->
  length l1 = length l2 -> fields_repr x w l1 i -> fields_repr x w l2 i -> l1 = l2.
Proof.
  induction l1 as [|t1 l1 IH]; intros [|t2 l2] i Hall Hlen; simpl in *; try done.
  intros [(f & Hf & u & Hu & Hr) H1] [(f' & Hf' & u' & Hu' & Hr') H2].
  inversion Hall as [|? ? Ht Hall']; subst. rewrite Hf in Hf'. injection Hf' as <-.
  assert (u = u') as <-.
  { eapply (fwd_det x f); [done|by eapply block_repr_not_fwd|done|by eapply block_repr_not_fwd]. }
  f_equal; [by eapply Ht|]. eapply IH; try done. lia.
Qed.

Lemma repr_det_block x t1 : forall t2 w, block_repr x t1 w -> block_repr x t2 w -> t1 = t2.
Proof.
  induction t1 as [n|tag l IH|bs|b|l|o|p z] using tree_ind'; intros t2 w H1 H2;
    pose proof (block_repr_same_tag _ _ _ _ H1 H2) as Et;
    pose proof (block_repr_plain _ _ _ H1) as P1; pose proof (block_repr_plain _ _ _ H2) as P2;
    destruct t2 as [n'|tag' l'|bs'|b'|l'|o'|p' z']; simpl in Et, P1, P2; simplify_eq; try discriminate.
  - destruct H1 as [? ->], H2 as [? E]. by rewrite (Val_long_inj n n').
  - apply block_repr_blk in H1 as (_ & _ & _ & Hw1 & Hf1). apply block_repr_blk in H2 as (_ & _ & _ & Hw2 & Hf2).
    f_equal. eapply (fields_repr_det x w l l' 0); try done. rewrite Hw1 in Hw2. injection Hw2. lia.
  - destruct H1 as [_ H1], H2 as [_ H2]. by rewrite (string_at_inj _ _ _ _ H1 H2).
  - destruct H1 as (_ & _ & H1), H2 as (_ & _ & H2). congruence.
  - destruct H1 as (_ & _ & Hw1 & H1), H2 as (_ & _ & Hw2 & H2). f_equal.
    apply (list_flat_det _ _ (fun i b => Double_flat_field x w (Z.of_nat i) = Ret b)); try done; [congruence|].
    rewrite Hw1 in Hw2. injection Hw2. lia.
  - destruct H1 as (_ & _ & H1 & _), H2 as (_ & _ & H2 & _). congruence.
  - destruct H1 as (_ & _ & H1 & _ & d1 & E1 & ->), H2 as (_ & _ & H2 & _ & d2 & E2 & ->). congruence.
Qed.
Lemma repr_det x v t1 t2 : repr x v t1 -> repr x v t2 -> t1 = t2.
Proof.
  intros (w & Hw & H1) (w' & Hw' & H2).
  assert (w = w') as <- by (eapply (fwd_det x v); eauto using block_repr_not_fwd).
  by eapply repr_det_block.
Qed.

(** ** Running the loop *)
Context `{BO : !BoxedOps boxed_ops}.
Variable stat_alloc : Z -> bool.
Variable pending : heap -> bool.
Hypothesis alloc_ok : forall n, stat_alloc n = true.
Variable x : heap.
Hypothesis not_pending : pending x = false.
Variable total : bool.

Notation loop := (compare_loop stat_alloc pending).

(** A result and its meaning. *)
Definition agrees (n : Z) (o : option Z) : Prop :=
  match o with
  | None => n = UNORDERED
  | Some s => Z.sgn n = s /\ n <> UNORDERED
  end.
Definition returns (r : result Z) (o : option Z) : Prop := exists n, r = Ret n /\ agrees n o.
(** With enough fuel, whatever the state of the poll timer. *)
Definition eventually (f : nat -> Z -> result Z) (o : option Z) : Prop :=
  exists N, forall fuel timer, (N <= fuel)%nat -> returns (f fuel timer) o.

Definition next_item (fuel : nat) (timer : Z) (stk : compare_stack) : result Z :=
  match items stk with
  | [] => Ret EQUAL
  | mkItem w1 w2 offset size :: l =>
      f1 ← Field x w1 (Long_val offset);
      f2 ← Field x w2 (Long_val offset);
      let offset := offset + 2 in
      let l := if offset =? size then l else mkItem w1 w2 offset size :: l in
      loop fuel x total timer (mkStack l (limit stk) (is_init stk)) f1 f2
  end.

(** What an action leads to. *)
Definition perform (a : action) (stk : compare_stack) (v1 v2 : Z) (fuel : nat) (timer : Z) : result Z :=
  match a with
  | Result res => Ret res
  | Again v1 v2 => loop fuel x total timer stk v1 v2
  | Fields sz =>
      stk ← (if 1 <? sz then
               stk ← (if limit stk <=? Z.of_nat (length (items stk)) then compare_resize_stack stat_alloc stk else Ret stk);
               Ret (mkStack (mkItem v1 v2 (Val_long 1) (Val_long sz) :: items stk) (limit stk) (is_init stk))
             else Ret stk);
      f1 ← Field x v1 0;
      f2 ← Field x v2 0;
      loop fuel x total timer stk f1 f2
  | Next_item => next_item fuel timer stk
  end.

Lemma loop_poll n t stk v1 v2 :
  t - 1 <= 0 -> loop (S n) x total t stk v1 v2 = loop n x total COMPARE_POLL_PERIOD stk v1 v2.
Proof. intros Ht. cbn [compare_loop]. by rewrite (proj2 (Z.ltb_ge 0 (t - 1))), not_pending by lia. Qed.

Lemma loop_step stk v1 v2 a o :
  compare_values x total v1 v2 = Ret a -> eventually (perform a stk v1 v2) o ->
  eventually (fun fuel timer => loop fuel x total timer stk v1 v2) o.
Proof.
  intros Hc [N HN]. exists (S (S N)). intros fuel timer Hf.
  assert (Hbody : forall n t, (N <= n)%nat -> 0 < t - 1 -> returns (loop (S n) x total t stk v1 v2) o).
  { intros n t Hn Ht. cbn [compare_loop]. rewrite (proj2 (Z.ltb_lt _ _)) by lia. cbn [negb].
    rewrite Hc. mred. destruct a; apply (HN n (t - 1)); done. }
  destruct fuel as [|[|fuel]]; [lia|lia|]. destruct (Z_lt_le_dec 0 (timer - 1)) as [Ht|Ht].
  - apply Hbody; lia.
  - rewrite loop_poll by done. apply Hbody; [lia|]. unfold COMPARE_POLL_PERIOD. lia.
Qed.

Lemma eventually_result r o stk v1 v2 : agrees r o -> eventually (perform (Result r) stk v1 v2) o.
Proof. intros Ha. exists 0%nat. intros fuel timer _. by exists r. Qed.

(** What remains to compare after the current pair. *)
Definition cont (stk : compare_stack) (o : option Z) : Prop :=
  eventually (fun fuel timer => next_item fuel timer stk) o.

(** *** Doubles *)
Lemma compare_doubles_spec d1 d2 :
  match compare_doubles total d1 d2 with
  | Some r => agrees r (cmp_double total d1 d2) /\ cmp_double total d1 d2 <> Some 0
  | None => cmp_double total d1 d2 = Some 0
  end.
Proof.
  unfold compare_doubles, cmp_double, double_lt, double_eq.
  destruct (is_nan d1) eqn:N1, (is_nan d2) eqn:N2; cbn [negb andb orb];
    rewrite ?Z.eqb_refl; cbn [negb andb orb]; try (destruct total; done).
  destruct (Z.ltb_spec (double_key d1) (double_key d2)).
  { replace (Z.sgn (double_key d1 - double_key d2)) with (-1) by lia. done. }
  destruct (Z.ltb_spec (double_key d2) (double_key d1)).
  { replace (Z.sgn (double_key d1 - double_key d2)) with 1 by lia. done. }
  rewrite (proj2 (Z.eqb_eq _ _)) by lia. cbn [negb]. f_equal. lia.
Qed.

Lemma cmp_double_keys d1 d2 L R :
  cmp_keys total (Dbl d1 :: L) (Dbl d2 :: R) =
  match cmp_double total d1 d2 with
  | Some s => if s =? 0 then cmp_keys total L R else Some s
  | None => None
  end.
Proof. done. Qed.

Lemma compare_arrays_spec l1 : forall l2 v1 v2 i L R,
  length l1 = length l2 ->
  (forall j b, l1 !! j = Some b -> Double_flat_field x v1 (i + Z.of_nat j) = Ret b) ->
  (forall j b, l2 !! j = Some b -> Double_flat_field x v2 (i + Z.of_nat j) = Ret b) ->
  exists a, compare_double_arrays (length l1) x total v1 v2 i = Ret a /\
    match a with
    | Next_item => cmp_keys total (map Dbl l1 ++ L) (map Dbl l2 ++ R) = cmp_keys total L R
    | Result r => agrees r (cmp_keys total (map Dbl l1 ++ L) (map Dbl l2 ++ R))
    | _ => False
    end.
Proof.
  induction l1 as [|d1 l1 IH]; intros [|d2 l2] v1 v2 i L R Hl H1 H2; try done.
  { by exists Next_item. }
  cbn [length compare_double_arrays].
  pose proof (H1 0%nat d1 eq_refl) as E1. pose proof (H2 0%nat d2 eq_refl) as E2.
  rewrite Z.add_0_r in E1, E2. rewrite E1, E2. cbn [mbind result_bind map app].
  rewrite cmp_double_keys. pose proof (compare_doubles_spec d1 d2) as Hd.
  destruct (compare_doubles total d1 d2) as [r|].
  - exists (Result r). split; [done|]. destruct Hd as [Ha Hn].
    destruct (cmp_double total d1 d2) as [s|]; [|done]. destruct (Z.eqb_spec s 0); [by subst|done].
  - rewrite Hd. cbn [Z.eqb]. simpl in Hl. injection Hl as Hl. apply IH; try done.
    + intros j b Hj. rewrite <- (H1 (S j) b Hj). f_equal. lia.
    + intros j b Hj. rewrite <- (H2 (S j) b Hj). f_equal. lia.
Qed.

(** *** One pair of blocks *)
Definition decides (a : action) (t1 t2 : tree) : Prop :=
  match a with
  | Result r => forall L R, agrees r (cmp_keys total (enc t1 ++ L) (enc t2 ++ R))
  | Next_item => forall L R, cmp_keys total (enc t1 ++ L) (enc t2 ++ R) = cmp_keys total L R
  | Fields sz => exists tag l1 l2, t1 = TBlk tag l1 /\ t2 = TBlk tag l2 /\ 0 < sz /\
      sz = Z.of_nat (length l1) /\ sz = Z.of_nat (length l2)
  | Again _ _ => False
  end.

Lemma cmp_num_ne a b L R : a <> b -> cmp_keys total (Num a :: L) (Num b :: R) = Some (Z.sgn (a - b)).
Proof. intros. simpl. by rewrite (proj2 (Z.eqb_neq _ _)) by lia. Qed.
Lemma cmp_num_eq a L R : cmp_keys total (Num a :: L) (Num a :: R) = cmp_keys total L R.
Proof. simpl. by rewrite Z.sub_diag. Qed.

Lemma agrees_sgn n z : Z.sgn n = Z.sgn z -> n <> UNORDERED -> agrees n (Some (Z.sgn z)).
Proof. done. Qed.

Lemma plain_tag_ne tag : plain_tag tag = true ->
  tag <> Forward_tag /\ tag <> String_tag /\ tag <> Double_tag /\ tag <> Double_array_tag /\
  tag <> Abstract_tag /\ tag <> Closure_tag /\ tag <> Infix_tag /\ tag <> Cont_tag /\ tag <> Object_tag /\
  tag <> Custom_tag.
Proof. intros H. split_and!; intros ->; discriminate. Qed.

Lemma agrees_sizes a b : 0 <= a < 2 ^ 62 -> 0 <= b < 2 ^ 62 -> agrees (s64 (a - b)) (Some (Z.sgn (a - b))).
Proof.
  intros. rewrite swrap_small by (change (64 - 1) with 63; lia). split; [done|]. unfold UNORDERED. lia.
Qed.

Lemma blocks_string w1 w2 b1 b2 :
  string_at x w1 b1 -> string_at x w2 b2 ->
  exists a, compare_blocks x total String_tag w1 w2 = Ret a /\ decides a (TStr b1) (TStr b2).
Proof.
  intros H1 H2. unfold compare_blocks. cbn [Z.eqb Forward_tag String_tag Pos.eqb].
  assert (Hdec : forall a, match a with Result r => lex_compare b1 b2 <> 0 /\ Z.sgn r = lex_compare b1 b2 /\ r <> UNORDERED
      | Next_item => lex_compare b1 b2 = 0 | _ => False end -> decides a (TStr b1) (TStr b2)).
  { intros a Ha. destruct a as [r| | |]; try done; intros L R; simpl app;
      rewrite !cmp_num_eq, cmp_keys_bytes by (eapply sa_bytes; eauto).
    - destruct Ha as (Hn & Hs & Hu). by rewrite (proj2 (Z.eqb_neq _ _)).
    - by rewrite Ha. }
  destruct (Z.eqb_spec w1 w2) as [->|Hne].
  { exists Next_item. split; [done|]. apply Hdec. by rewrite (string_at_inj _ _ _ _ H1 H2), lex_compare_refl. }
  rewrite (string_length_spec _ _ _ H1), (string_length_spec _ _ _ H2). mred.
  destruct (memcmp_spec (Z.to_nat (if str_len b1 <=? str_len b2 then str_len b1 else str_len b2))
              x w1 w2 0 b1 b2) as (r & -> & Hl).
  { intros j b. by apply string_byte. }
  { intros j b. by apply string_byte. }
  { unfold str_len. destruct (Z.leb_spec (Z.of_nat (length b1)) (Z.of_nat (length b2))); lia. }
  mred. pose proof (str_len_nonneg b1). pose proof (str_len_nonneg b2).
  pose proof (sa_small _ _ _ H1). pose proof (sa_small _ _ _ H2).
  destruct (Z.ltb_spec r 0); [eexists; split; [done|]; apply Hdec; by rewrite Hl|].
  destruct (Z.ltb_spec 0 r); [eexists; split; [done|]; apply Hdec; by rewrite Hl|].
  destruct (Z.eqb_spec (str_len b1) (str_len b2)) as [El|El]; cbn [negb].
  - eexists. split; [done|]. apply Hdec. rewrite Hl, El. by rewrite Z.ltb_irrefl.
  - eexists. split; [done|]. apply Hdec. rewrite Hl, swrap_small by (change (64 - 1) with 63; lia). unfold UNORDERED.
    destruct (Z.ltb_spec (str_len b1) (str_len b2)); [lia|]. destruct (Z.ltb_spec (str_len b2) (str_len b1)); lia.
Qed.

Lemma blocks_decide t1 t2 w1 w2 tag :
  block_repr x t1 w1 -> block_repr x t2 w2 -> tree_tag t1 = Some tag -> tree_tag t2 = Some tag ->
  exists a, compare_blocks x total tag w1 w2 = Ret a /\ decides a t1 t2.
Proof.
  intros H1 H2 E1 E2. pose proof (block_repr_plain _ _ _ H1) as P1. pose proof (block_repr_plain _ _ _ H2) as P2.
  destruct t1 as [n1|tag1 l1|b1|d1|l1|o1|p1 z1], t2 as [n2|tag2 l2|b2|d2|l2|o2|p2 z2];
    simpl in E1, E2, P1, P2; simplify_eq; try discriminate.
  - apply block_repr_blk in H1 as (_ & _ & _ & W1 & _). apply block_repr_blk in H2 as (_ & _ & _ & W2 & _).
    destruct (plain_tag_ne _ P1) as (? & ? & ? & ? & ? & ? & ? & ? & ? & ?). unfold compare_blocks.
    rewrite !(proj2 (Z.eqb_neq tag _)) by done. cbn [orb]. rewrite W1, W2. mred.
    pose proof (Wosize_range _ _ _ W1). pose proof (Wosize_range _ _ _ W2).
    destruct (Z.eqb_spec (Z.of_nat (length l1)) (Z.of_nat (length l2))) as [El|El]; cbn [negb].
    + destruct (Z.eqb_spec (Z.of_nat (length l1)) 0) as [E0|E0]; eexists; (split; [done|]).
      * destruct l1, l2; try done. intros L R. simpl app. by rewrite !cmp_num_eq.
      * exists tag, l1, l2. split_and!; try done; lia.
    + eexists. split; [done|]. intros L R. simpl app. rewrite !cmp_num_eq, cmp_num_ne by done. apply agrees_sizes; lia.
  - destruct H1 as [_ H1], H2 as [_ H2]. by apply blocks_string.
  - destruct H1 as (_ & _ & H1), H2 as (_ & _ & H2). unfold compare_blocks. cbn [Z.eqb Forward_tag String_tag Double_tag Pos.eqb].
    rewrite H1, H2. mred. eexists. split; [done|].
    pose proof (compare_doubles_spec d1 d2) as Hd. destruct (compare_doubles total d1 d2) as [r|]; intros L R; simpl app;
      rewrite !cmp_num_eq, cmp_double_keys.
    + destruct Hd as [Ha Hn]. destruct (cmp_double total d1 d2) as [s|]; [|done]. destruct (Z.eqb_spec s 0); [by subst|done].
    + by rewrite Hd.
  - destruct H1 as (_ & _ & W1 & H1), H2 as (_ & _ & W2 & H2). unfold compare_blocks.
    cbn [Z.eqb Forward_tag String_tag Double_tag Double_array_tag Pos.eqb]. rewrite W1, W2. mred.
    pose proof (Wosize_range _ _ _ W1). pose proof (Wosize_range _ _ _ W2).
    destruct (Z.eqb_spec (Z.of_nat (length l1)) (Z.of_nat (length l2))) as [El|El]; cbn [negb].
    + rewrite Nat2Z.id. destruct (compare_arrays_spec l1 l2 w1 w2 0 [] []) as (a & E & _); [lia| |by eauto|].
      { intros j b Hj. by apply H1. }
      exists a. split; [done|].
      assert (Hall : forall L R, match a with
        | Next_item => cmp_keys total (map Dbl l1 ++ L) (map Dbl l2 ++ R) = cmp_keys total L R
        | Result r => agrees r (cmp_keys total (map Dbl l1 ++ L) (map Dbl l2 ++ R))
        | _ => False end).
      { intros L R. destruct (compare_arrays_spec l1 l2 w1 w2 0 L R) as (a' & E' & Ha'); [lia|by eauto|by eauto|].
        rewrite E in E'. by injection E' as <-. }
      destruct a as [r| |a b|sz]; try (by destruct (Hall [] [])); intros L R; specialize (Hall L R); simpl app;
        rewrite !cmp_num_eq, El, cmp_num_eq; done.
    + eexists. split; [done|]. intros L R. simpl app. rewrite !cmp_num_eq, cmp_num_ne by done. apply agrees_sizes; lia.
  - destruct H1 as (_ & _ & H1 & I1), H2 as (_ & _ & H2 & I2). unfold compare_blocks.
    cbn [Z.eqb Forward_tag String_tag Double_tag Double_array_tag Abstract_tag Closure_tag Infix_tag Cont_tag Object_tag Pos.eqb orb].
    rewrite H1, H2. mred. unfold is_int, Min_long, Max_long in *.
    destruct (Z.eqb_spec o1 o2) as [->|Hne]; cbn [negb]; eexists; (split; [done|]); intros L R; simpl app.
    + by rewrite !cmp_num_eq.
    + rewrite !cmp_num_eq, cmp_num_ne by done. rewrite swrap_small by (change (64 - 1) with 63; lia).
      split; [done|]. unfold UNORDERED. lia.
  - destruct H1 as (_ & _ & H1 & B1 & d1 & F1 & Ez1), H2 as (_ & _ & H2 & B2 & d2 & F2 & Ez2). unfold compare_blocks.
    cbn [Z.eqb Forward_tag String_tag Double_tag Double_array_tag Abstract_tag Closure_tag Infix_tag Cont_tag Object_tag
         Custom_tag Pos.eqb orb].
    rewrite H1, H2. mred. pose proof (boxed_id p1 p2 B1 B2) as Hid.
    destruct (Z.eqb_spec (custom_compare p1) (custom_compare p2)) as [Ec|Ec]; cbn [negb].
    + rewrite (proj2 (Z.eqb_neq _ 0)) by (by apply boxed_fun). eexists. split; [done|].
      unfold custom_action. rewrite (boxed_call p1 x w1 w2 d1 d2), <- Ez1 by done. rewrite (proj1 Hid Ec), <- Ez2. cbn [andb].
      destruct (Z.eqb_spec (Z.sgn (z1 - z2)) 0) as [E0|E0]; cbn [negb]; intros L R; simpl app;
        rewrite !cmp_num_eq, <- !app_assoc, cmp_keys_bytes by (by apply boxed_bytes);
        rewrite ?(proj1 Hid Ec), lex_compare_refl; simpl app; cbn [Z.eqb].
      * replace z2 with z1 by lia. by rewrite cmp_num_eq.
      * rewrite cmp_num_ne by lia. split; [lia|]. unfold UNORDERED. lia.
    + eexists. split; [done|]. intros L R. simpl app. rewrite !cmp_num_eq, <- !app_assoc, cmp_keys_bytes by (by apply boxed_bytes).
      pose proof (lex_compare_eq (custom_identifier p1) (custom_identifier p2)) as Hlex.
      pose proof (lex_compare_range (custom_identifier p1) (custom_identifier p2)) as Hran.
      destruct (Z.eqb_spec (lex_compare (custom_identifier p1) (custom_identifier p2)) 0); [by tauto|].
      destruct (Z.ltb_spec (lex_compare (custom_identifier p1) (custom_identifier p2)) 0);
        (split; [unfold LESS, GREATER; lia|done]).
Qed.

Lemma immediate_less t b v1 v2 g :
  block_repr x t b -> Is_block b = true -> forall r, immediate_vs_block x total b v1 v2 g r = Ret (Result r).
Proof.
  intros H Hb r. pose proof (block_repr_tag _ _ _ H) as T. unfold immediate_vs_block.
  destruct (tree_tag t) as [tag|] eqn:Et; [|destruct T; congruence]. destruct T as (_ & _ & -> & Hd).
  mred. rewrite (proj2 (Z.eqb_neq _ _)) by (by apply data_tag_not_fwd).
  destruct (Z.eqb_spec tag Custom_tag) as [->|]; [|done].
  pose proof (block_repr_plain _ _ _ H) as P.
  destruct t as [n|tag l|bs|d|l|o|p z]; simplify_eq/=; try discriminate.
  destruct H as (_ & _ & -> & Hp & _). mred. by rewrite (boxed_ext p Hp).
Qed.

Lemma values_decide t1 t2 w1 w2 :
  block_repr x t1 w1 -> block_repr x t2 w2 ->
  exists a, compare_values x total w1 w2 = Ret a /\ decides a t1 t2.
Proof.
  intros H1 H2. unfold compare_values.
  destruct ((w1 =? w2) && total) eqn:Ep.
  { apply andb_true_iff in Ep as [->%Z.eqb_eq Htot]. rewrite (repr_det_block _ _ _ _ H1 H2).
    exists Next_item. split; [done|]. intros L R. rewrite Htot. apply cmp_keys_same. }
  pose proof (block_repr_tag _ _ _ H1) as T1. pose proof (block_repr_tag _ _ _ H2) as T2.
  destruct (tree_tag t1) as [g1|] eqn:E1, (tree_tag t2) as [g2|] eqn:E2.
  - destruct T1 as (-> & _ & -> & D1), T2 as (-> & _ & -> & D2). mred.
    destruct (Z.eqb_spec g1 g2) as [->|Hne]; cbn [negb]; [by eapply blocks_decide|].
    pose proof (data_tag_not_fwd _ D1). pose proof (data_tag_not_fwd _ D2).
    destruct (data_tag_not_fun _ D1) as (? & _), (data_tag_not_fun _ D2) as (? & _).
    rewrite (proj2 (Z.eqb_neq g1 Forward_tag)), (proj2 (Z.eqb_neq g2 Forward_tag)), (proj2 (Z.eqb_neq g1 Infix_tag)),
      (proj2 (Z.eqb_neq g2 Infix_tag)) by done. cbv zeta.
    rewrite (proj2 (Z.eqb_neq g1 g2)) by done. cbn [negb]. eexists. split; [done|]. intros L R.
    assert (Hnum : forall t g, tree_tag t = Some g -> exists r, enc t = Num 1 :: Num g :: r).
    { intros [| | | | | |] g Hg; simplify_eq/=; by eexists. }
    destruct (Hnum _ _ E1) as [r1 ->], (Hnum _ _ E2) as [r2 ->]. simpl app.
    rewrite cmp_num_eq, cmp_num_ne by done. split; [done|]. unfold UNORDERED.
    assert (forall w g, Tag_val x w = Ret g -> 0 <= g < 256) as Hrange.
    { intros w g Hg. unfold Tag_val, Hd_val in Hg. destruct (load x (w - 8)); try done. simpl in Hg.
      injection Hg as <-. unfold Tag_hd, HEADER_TAG_MASK. change (2 ^ 8 - 1) with (Z.ones 8).
      rewrite Z.land_ones by lia. apply Z.mod_pos_bound. lia. }
    pose proof (block_repr_tag _ _ _ H1) as T1. pose proof (block_repr_tag _ _ _ H2) as T2. rewrite E1 in T1. rewrite E2 in T2.
    destruct T1 as (_ & _ & T1%Hrange & _), T2 as (_ & _ & T2%Hrange & _). lia.
  - destruct t2; try discriminate. destruct T1 as (-> & Hb & _ & _), T2 as [-> _].
    rewrite (immediate_less t1) by done. eexists. split; [done|]. intros L R.
    destruct t1; try discriminate; simpl app; by rewrite cmp_num_ne.
  - destruct t1; try discriminate. destruct T1 as [-> Hb1], T2 as (-> & Hb & _ & _).
    destruct (Z.eqb_spec w1 w2) as [->|Hne]; [congruence|].
    rewrite (immediate_less t2) by done. eexists. split; [done|]. intros L R.
    destruct t2; try discriminate; simpl app; by rewrite cmp_num_ne.
  - destruct t1 as [n1| | | | | |], t2 as [n2| | | | | |]; try discriminate.
    destruct T1 as [-> _], T2 as [-> _]. destruct H1 as [I1 ->], H2 as [I2 ->].
    destruct (Z.eqb_spec (Val_long n1) (Val_long n2)) as [Ee|Hne].
    + rewrite (Val_long_inj n1 n2) by done. exists Next_item. split; [done|]. intros L R. simpl app. by rewrite !cmp_num_eq.
    + eexists. split; [done|]. intros L R. simpl app. rewrite cmp_num_eq, cmp_num_ne by congruence.
      rewrite !Long_Val_int by done. split; [done|]. unfold is_int, Min_long, Max_long, UNORDERED in *. lia.
Qed.

(** *** Forwarding blocks *)
Lemma block_not_long v : Is_block v = true -> Is_long v = false.
Proof. intros H. rewrite Is_block_long in H. by destruct (Is_long v). Qed.

Lemma forward_values v1 v2 u1 :
  Is_block v1 = true -> Tag_val x v1 = Ret Forward_tag -> Forward_val x v1 = Ret u1 ->
  (Is_long v2 = true \/ exists g, Is_block v2 = true /\ Tag_val x v2 = Ret g /\
     (g = Forward_tag -> exists u2, Forward_val x v2 = Ret u2)) ->
  (v1 = v2 /\ total = true) \/
  exists u2, compare_values x total v1 v2 = Ret (Again u1 u2) /\
    (u2 = v2 \/ (Is_block v2 = true /\ Tag_val x v2 = Ret Forward_tag /\ Forward_val x v2 = Ret u2)).
Proof.
  intros Hb Ht Hu H2. unfold compare_values. destruct (Z.eqb_spec v1 v2) as [E|E].
  - destruct total eqn:Etot; [by left|right]. cbn [andb]. subst v2. rewrite (block_not_long _ Hb), Ht.
    mred. rewrite Z.eqb_refl. unfold compare_blocks. rewrite Z.eqb_refl, Hu. mred.
    exists u1. auto.
  - right. cbn [andb]. rewrite (block_not_long _ Hb). destruct H2 as [Hl|(g & Hb2 & Ht2 & Hg)].
    + rewrite Hl. unfold immediate_vs_block. rewrite Ht. mred. rewrite Z.eqb_refl, Hu. exists v2. auto.
    + rewrite (block_not_long _ Hb2), Ht, Ht2. mred.
      destruct (Z.eqb_spec Forward_tag g) as [<-|Hne]; cbn [negb].
      * destruct (Hg eq_refl) as [u2 Hu2]. unfold compare_blocks. rewrite Z.eqb_refl, Hu, Hu2. exists u2. auto 10.
      * rewrite Z.eqb_refl, Hu. exists v2. auto.
Qed.

Lemma forward_right v1 v2 u2 :
  not_fwd x v1 -> (Is_long v1 = true \/ exists g, Is_block v1 = true /\ Tag_val x v1 = Ret g) ->
  Is_block v2 = true -> Tag_val x v2 = Ret Forward_tag -> Forward_val x v2 = Ret u2 ->
  compare_values x total v1 v2 = Ret (Again v1 u2).
Proof.
  intros Hn H1 Hb Ht Hu. unfold compare_values.
  assert (v1 <> v2) as Hne. { intros ->. by destruct (Hn Hb). }
  rewrite (proj2 (Z.eqb_neq _ _) Hne). cbn [andb]. rewrite (block_not_long _ Hb).
  destruct H1 as [Hl|(g & Hb1 & Ht1)].
  - rewrite Hl. unfold immediate_vs_block. rewrite Ht. mred. by rewrite Z.eqb_refl, Hu.
  - rewrite (block_not_long _ Hb1), Ht1, Ht. mred.
    assert (g <> Forward_tag) as Hg. { intros ->. by destruct (Hn Hb1). }
    rewrite (proj2 (Z.eqb_neq _ _) Hg). cbn [negb]. by rewrite Z.eqb_refl, Hu.
Qed.

Lemma fwd_kind v w t : fwd x v w -> block_repr x t w ->
  Is_long v = true \/ exists g, Is_block v = true /\ Tag_val x v = Ret g /\
    (g = Forward_tag -> exists u, Forward_val x v = Ret u /\ fwd x u w).
Proof.
  intros Hf Hr. destruct Hf as [v|v u w Hb Ht Hu Hf].
  - pose proof (block_repr_tag _ _ _ Hr) as T. destruct (tree_tag t) as [g|]; [right|left; apply T].
    destruct T as (_ & Hb & Ht & Hd). exists g. split_and!; try done. intros ->. by apply data_tag_not_fwd in Hd.
  - right. exists Forward_tag. split_and!; try done. eauto.
Qed.

Lemma through_fwd v1 w1 v2 w2 t1 t2 stk o :
  fwd x v1 w1 -> fwd x v2 w2 -> block_repr x t1 w1 -> block_repr x t2 w2 ->
  (total = true -> t1 = t2 -> cont stk o) ->
  eventually (fun fuel timer => loop fuel x total timer stk w1 w2) o ->
  eventually (fun fuel timer => loop fuel x total timer stk v1 v2) o.
Proof.
  intros F1 F2 H1 H2 Hc Hw. revert v2 F2. induction F1 as [v1|v1 u1 w1 Hb Ht Hu F1 IH]; intros v2 F2.
  - induction F2 as [v2|v2 u2 w2 Hb Ht Hu F2 IH]; [done|].
    eapply loop_step; [eapply forward_right; try done|by apply IH].
    + by eapply block_repr_not_fwd.
    + pose proof (block_repr_tag _ _ _ H1) as T. destruct (tree_tag t1); [right|left]; naive_solver.
  - destruct (forward_values v1 v2 u1 Hb Ht Hu) as [[<- Htot]|(u2 & E & Hu2)].
    + destruct (fwd_kind _ _ _ F2 H2) as [?|(g & ? & ? & Hg)]; [by left|right].
      exists g. split_and!; try done. intros ->. destruct (Hg eq_refl) as (u & ? & _). eauto.
    + eapply loop_step with (a := Next_item).
      * unfold compare_values. by rewrite Z.eqb_refl, Htot.
      * apply Hc; [done|]. eapply (repr_det x v1); [exists w1|exists w2]; split; try done. by eapply fwd_step.
    + eapply loop_step; [exact E|]. simpl. apply IH; try done.
      destruct Hu2 as [->|(Hb2 & Ht2 & Hu2)]; [done|].
      destruct F2 as [v2|v2 u w2 _ _ Hu' F2]; [|by rewrite Hu2 in Hu'; simplify_eq].
      by destruct (block_repr_not_fwd _ _ _ H2 Hb2).
Qed.

(** *** The stack *)

(** The largest capacity the stack reaches. *)
Definition max_items : Z := COMPARE_STACK_MAX_SIZE / 2.
Definition cap_ok (stk : compare_stack) : Prop :=
  Z.of_nat (length (items stk)) <= limit stk /\
  (is_init stk = true /\ limit stk = 8 \/ is_init stk = false /\ exists k, 5 <= k <= 19 /\ limit stk = 2 ^ k).

Lemma cap_pop it l lim ini : cap_ok (mkStack (it :: l) lim ini) -> cap_ok (mkStack l lim ini).
Proof. unfold cap_ok. simpl. intros [? ?]. split; [lia|done]. Qed.
Lemma cap_same it it' l lim ini : cap_ok (mkStack (it :: l) lim ini) -> cap_ok (mkStack (it' :: l) lim ini).
Proof. done. Qed.

Lemma push_ok its lim ini it :
  cap_ok (mkStack its lim ini) -> Z.of_nat (length its) < max_items ->
  exists lim' ini', cap_ok (mkStack (it :: its) lim' ini') /\
    (if lim <=? Z.of_nat (length its) then compare_resize_stack stat_alloc (mkStack its lim ini)
     else Ret (mkStack its lim ini)) = Ret (mkStack its lim' ini').
Proof.
  intros [Hl Hc] Hm. simpl in *. unfold max_items in Hm. change (COMPARE_STACK_MAX_SIZE / 2) with (2 ^ 19) in Hm.
  destruct (Z.leb_spec lim (Z.of_nat (length its))).
  - unfold compare_resize_stack. cbn [is_init limit items]. destruct Hc as [[-> ->]|[-> (k & Hk & ->)]].
    + rewrite alloc_ok. exists 32, false. split; [|done]. split; simpl; [lia|]. right. split; [done|]. by exists 5.
    + assert (k < 19). { destruct (Z.eq_dec k 19) as [->|]; lia. }
      assert (2 * 2 ^ k < COMPARE_STACK_MAX_SIZE) as Hlt.
      { rewrite <- Z.pow_succ_r by lia. change COMPARE_STACK_MAX_SIZE with (2 ^ 20). apply Z.pow_lt_mono_r; lia. }
      rewrite (proj2 (Z.leb_gt _ _)), alloc_ok by lia. exists (2 * 2 ^ k), false. split; [|done]. split; simpl; [lia|].
      right. split; [done|]. exists (k + 1). rewrite Z.pow_add_r by lia. lia.
  - exists lim, ini. split; [|done]. split; simpl; [lia|done].
Qed.

(** The rest of the comparison, whatever the capacity of the stack. *)
Definition rest (its : list compare_item) (o : option Z) : Prop :=
  forall lim ini, cap_ok (mkStack its lim ini) -> cont (mkStack its lim ini) o.

Definition compares (t1 : tree) : Prop :=
  forall t2 v1 v2 its lim ini L R,
    repr x v1 t1 -> repr x v2 t2 -> cap_ok (mkStack its lim ini) ->
    Z.of_nat (length its) + depth t1 <= max_items -> rest its (cmp_keys total L R) ->
    eventually (fun fuel timer => loop fuel x total timer (mkStack its lim ini) v1 v2)
      (cmp_keys total (enc t1 ++ L) (enc t2 ++ R)).

(** The fields of two blocks from index [k] on. *)
Lemma fields_compare w1 w2 l1 : forall l2 its k L R,
  Forall compares l1 -> l1 <> [] -> length l1 = length l2 ->
  fields_repr x w1 l1 k -> fields_repr x w2 l2 k -> 0 <= k -> k + Z.of_nat (length l1) < 2 ^ 60 ->
  Forall (fun t => Z.of_nat (S (length its)) + depth t <= max_items) l1 ->
  rest its (cmp_keys total L R) ->
  rest (mkItem w1 w2 (Val_long k) (Val_long (k + Z.of_nat (length l1))) :: its)
    (cmp_keys total (concat (map enc l1) ++ L) (concat (map enc l2) ++ R)).
Proof.
  induction l1 as [|t1 l1 IH]; intros [|t2 l2] its k L R Hall Hnil Hlen F1 F2 Hk Hn Hd Hr lim ini Hc; try done.
  inversion Hall as [|? ? Ht Hall']; subst. inversion Hd as [|? ? Hdt Hd']; subst. clear Hnil.
  destruct F1 as [(f1 & Hf1 & R1) F1], F2 as [(f2 & Hf2 & R2) F2].
  assert (is_int k) by (unfold is_int, Min_long, Max_long; lia).
  assert (is_int (k + 1)) by (unfold is_int, Min_long, Max_long; lia).
  assert (is_int (k + Z.of_nat (length (t1 :: l1)))) by (unfold is_int, Min_long, Max_long; lia).
  unfold cont, next_item. cbn [items]. rewrite Long_Val_int by done. rewrite Hf1, Hf2. cbn [mbind result_bind limit is_init].
  assert (Val_long k + 2 = Val_long (k + 1)) as -> by (rewrite !Val_long_int by done; lia).
  cbn [map concat]. rewrite <- !app_assoc. simpl in Hlen. injection Hlen as Hlen.
  destruct l1 as [|t1' l1].
  - symmetry in Hlen; apply nil_length_inv in Hlen as ->. cbn [length]. rewrite Z.eqb_refl.
    apply Ht; try done; [by eapply cap_pop|]. simpl in Hdt. lia.
  - destruct (Z.eqb_spec (Val_long (k + 1)) (Val_long (k + Z.of_nat (length (t1 :: t1' :: l1))))) as [E|E].
    { apply Val_long_inj in E; [simpl in E; lia|done..]. }
    apply Ht; try done.
    replace (k + Z.of_nat (length (t1 :: t1' :: l1))) with (k + 1 + Z.of_nat (length (t1' :: l1))) by (simpl length; lia).
    eapply IH; try done; [lia|]. simpl length in *. lia.
Qed.

Lemma depth_nonneg t : 0 <= depth t.
Proof. destruct t as [|tag l| | | | |]; simpl; try lia. induction l; simpl; lia. Qed.
Lemma depth_fields l : forall t, t ∈ l -> depth t <= foldr (fun t m => Z.max (depth t) m) 0 l.
Proof.
  induction l as [|u l IH]; intros t Ht; [by apply not_elem_of_nil in Ht|].
  apply elem_of_cons in Ht as [->|Ht]; simpl; [lia|]. specialize (IH t Ht). lia.
Qed.

Lemma all_compare t1 : compares t1.
Proof.
  induction t1 as [n|tag l IH|bs|b|l|o|p z] using tree_ind'; intros t2 v1 v2 its lim ini L R
    (w1 & F1 & R1) (w2 & F2 & R2) Hc Hd Hr; destruct (values_decide _ _ _ _ R1 R2) as (a & Ea & Ha);
    (eapply through_fwd; [done..| |eapply loop_step; [exact Ea|]]);
    try (intros -> <-; rewrite cmp_keys_same; by apply Hr);
    (destruct a as [r| |u1 u2|sz]; [by apply eventually_result|rewrite Ha; by apply Hr|done|]);
    destruct Ha as (tag' & l1 & l2 & E1 & -> & Hsz & Hl1 & Hl2); try discriminate.
  injection E1 as <- <-.
  apply block_repr_blk in R1 as (_ & _ & _ & W1 & G1). apply block_repr_blk in R2 as (_ & _ & _ & W2 & G2).
  pose proof (Wosize_range _ _ _ W1) as Hw. unfold perform. cbn [enc app]. rewrite !cmp_num_eq.
  rewrite <- Hl1, <- Hl2, cmp_num_eq.
  destruct l as [|t l]; [simpl in Hl1; lia|]. destruct l2 as [|t2 l2]; [simpl in Hl2; lia|].
  inversion IH as [|? ? Ht IH']; subst.
  assert (length l = length l2) as Hlen by (simpl length in Hl2; lia). simpl length in Hw.
  destruct G1 as [(f1 & Hf1 & G1) G1'], G2 as [(f2 & Hf2 & G2) G2'].
  assert (Hdep : forall u, u ∈ t :: l -> Z.of_nat (S (length its)) + depth u <= max_items).
  { intros u Hu. apply depth_fields in Hu. cbn [depth] in Hd. lia. }
  cbn [map concat]. rewrite <- !app_assoc.
  destruct (Z.ltb_spec 1 (Z.of_nat (length (t :: l)))) as [Hgt|Hle].
  - destruct (push_ok its lim ini (mkItem w1 w2 (Val_long 1) (Val_long (Z.of_nat (length (t :: l))))) Hc) as (lim' & ini' & Hc' & E).
    { cbn [depth] in Hd. pose proof (Hdep t ltac:(set_solver)). pose proof (depth_nonneg t). lia. }
    cbn [limit items]. rewrite E. cbn [mbind result_bind limit is_init items]. rewrite Hf1, Hf2. mred.
    apply Ht; try done; [apply (Hdep t); set_solver|].
    assert (Z.of_nat (length (t :: l)) = 1 + Z.of_nat (length l)) as -> by (simpl length; lia).
    apply fields_compare; try done; try lia.
    + destruct l; simpl in *; [lia|done].
    + apply Forall_forall. intros u Hu. apply Hdep, elem_of_cons. right. by apply list_elem_of_In.
  - mred. rewrite Hf1, Hf2. mred.
    destruct l; [|simpl in Hle; lia]. destruct l2; [|simpl in Hlen; lia]. simpl app.
    apply Ht; try done. pose proof (Hdep t ltac:(set_solver)). lia.
Qed.

Lemma compare_val_spec v1 v2 t1 t2 :
  repr x v1 t1 -> repr x v2 t2 -> depth t1 <= max_items ->
  exists N, forall fuel, (N <= fuel)%nat ->
    returns (compare_val stat_alloc pending fuel x v1 v2 total) (tree_compare total t1 t2).
Proof.
  intros R1 R2 Hd. destruct (all_compare t1 t2 v1 v2 [] 8 true [] [] R1 R2) as [N HN].
  - split; simpl; [lia|]. by left.
  - simpl. lia.
  - intros lim ini _. exists 0%nat. intros fuel timer _. by exists EQUAL.
  - rewrite !app_nil_r in HN. exists N. intros fuel Hf. by apply HN.
Qed.

End Order.

(** ** Order laws of the keys, in the total comparison *)
Lemma cmp_key_total k1 k2 : exists s, cmp_key true k1 k2 = Some s /\ cmp_key true k2 k1 = Some (- s) /\ sign3 s.
Proof.
  unfold sign3. destruct k1 as [a|a], k2 as [b|b]; simpl.
  - exists (Z.sgn (a - b)). split_and!; [done|f_equal; lia|lia].
  - exists (-1). auto.
  - exists 1. auto.
  - unfold cmp_double. rewrite (orb_comm (is_nan b)). destruct (is_nan a), (is_nan b); simpl; eexists; split_and!; try done;
      try (f_equal; lia); lia.
Qed.
Lemma cmp_key_trans k1 k2 k3 a b :
  cmp_key true k1 k2 = Some a -> cmp_key true k2 k3 = Some b -> a <= 0 -> b <= 0 ->
  exists c, cmp_key true k1 k3 = Some c /\ c <= 0 /\ (c = 0 -> a = 0 /\ b = 0).
Proof.
  destruct k1 as [x|x], k2 as [y|y], k3 as [z|z]; simpl; intros Ha Hb Hla Hlb; simplify_eq; try lia;
    try (eexists; split; [done|]; lia).
  unfold cmp_double in *. destruct (is_nan x), (is_nan y), (is_nan z); simpl in *; simplify_eq; try lia;
    eexists; (split; [done|]); lia.
Qed.

Lemma cmp_keys_total l1 : forall l2, exists s, cmp_keys true l1 l2 = Some s /\ cmp_keys true l2 l1 = Some (- s) /\ sign3 s.
Proof.
  unfold sign3. induction l1 as [|k1 l1 IH]; intros [|k2 l2]; simpl.
  - exists 0. auto.
  - exists (-1). auto.
  - exists 1. auto.
  - destruct (cmp_key_total k1 k2) as (s & -> & -> & Hs). unfold sign3 in Hs. destruct (Z.eqb_spec s 0) as [->|Hn].
    + apply IH.
    + rewrite (proj2 (Z.eqb_neq _ _)) by lia. exists s. auto.
Qed.
Lemma cmp_keys_trans l1 : forall l2 l3 a b,
  cmp_keys true l1 l2 = Some a -> cmp_keys true l2 l3 = Some b -> a <= 0 -> b <= 0 ->
  exists c, cmp_keys true l1 l3 = Some c /\ c <= 0 /\ (c = 0 -> a = 0 /\ b = 0).
Proof.
  induction l1 as [|k1 l1 IH]; intros [|k2 l2] [|k3 l3] a b; simpl; intros Ha Hb Hla Hlb; simplify_eq; try lia;
    try (eexists; split; [done|]; lia).
  destruct (cmp_key_total k1 k2) as (s1 & E1 & _ & _), (cmp_key_total k2 k3) as (s2 & E2 & _ & _).
  rewrite E1 in Ha. rewrite E2 in Hb.
  assert (s1 <= 0 /\ s2 <= 0) as [Hs1 Hs2].
  { split; [destruct (Z.eqb_spec s1 0)|destruct (Z.eqb_spec s2 0)]; simplify_eq; lia. }
  destruct (cmp_key_trans k1 k2 k3 s1 s2 E1 E2 Hs1 Hs2) as (c & -> & Hc & H0).
  destruct (Z.eqb_spec c 0) as [->|Hne].
  - destruct (H0 eq_refl) as [-> ->]. simpl in Ha, Hb. by eapply IH.
  - exists c. split; [done|]. lia.
Qed.

(** The custom operations of the boxed integers: the comparisons of [Ints] on the data word
    of the block, under the addresses 8, 16 and 24. *)
Definition on_data (f : boxed -> boxed -> Z) (ident : string) (x : heap) (v1 v2 : Z) : Z :=
  match Field x v1 1, Field x v2 1 with Ret a, Ret b => f (mkBoxed ident a) (mkBoxed ident b) | _, _ => 0 end.
Definition boxed_customs : CustomOps := {|
  custom_compare p := p;
  custom_compare_ext _ := 0;
  custom_identifier p := if p =? 8 then [95; 105] else if p =? 16 then [95; 106] else [95; 110];
  call_compare p x v1 v2 :=
    ((if p =? 8 then on_data int32_cmp "_i" x v1 v2 else if p =? 16 then on_data int64_cmp "_j" x v1 v2
      else on_data nativeint_cmp "_n" x v1 v2), false);
|}.
Definition int_ops (p : Z) : Prop := p = 8 \/ p = 16 \/ p = 24.
Lemma COMPARE_INT_sgn a b : COMPARE_INT a b = Z.sgn (a - b).
Proof. unfold COMPARE_INT. destruct (Z.ltb_spec b a), (Z.ltb_spec a b); cbn; lia. Qed.
#[export] Instance boxed_customs_ok : BoxedOps (CO := boxed_customs) int_ops.
Proof.
  unfold int_ops. split; simpl.
  - lia.
  - done.
  - intros p q [->|[->| ->]] [->|[->| ->]]; done.
  - intros p [->|[->| ->]]; repeat constructor; unfold is_byte; lia.
  - intros p x v1 v2 z1 z2 [->|[->| ->]] E1 E2; cbn [Z.eqb Pos.eqb]; unfold on_data; rewrite E1, E2;
      unfold int32_cmp, int64_cmp, nativeint_cmp; by rewrite COMPARE_INT_sgn.
Qed.

(** ** Properties *)
Section Claims.
Context `{CO : CustomOps} (boxed_ops : Z -> Prop) `{BO : !BoxedOps boxed_ops}.
Variable stat_alloc : Z -> bool.
Variable pending : heap -> bool.

(** What each primitive returns when the trees compare as [o] (the total
    comparison for [caml_compare], the partial one for the others). *)
Definition primitives_return (fuel : nat) (x : heap) (v1 v2 : Z) (total partial : option Z) : Prop :=
  (exists s, total = Some s /\ caml_compare stat_alloc pending fuel x v1 v2 = Ret (Val_int s)) /\
  caml_equal stat_alloc pending fuel x v1 v2 = Ret (Val_bool (bool_decide (partial = Some 0))) /\
  caml_notequal stat_alloc pending fuel x v1 v2 = Ret (Val_bool (negb (bool_decide (partial = Some 0)))) /\
  caml_lessthan stat_alloc pending fuel x v1 v2 = Ret (Val_bool (bool_decide (partial = Some (-1)))) /\
  caml_lessequal stat_alloc pending fuel x v1 v2 =
    Ret (Val_bool (bool_decide (partial = Some (-1) \/ partial = Some 0))) /\
  caml_greaterthan stat_alloc pending fuel x v1 v2 = Ret (Val_bool (bool_decide (partial = Some 1))) /\
  caml_greaterequal stat_alloc pending fuel x v1 v2 =
    Ret (Val_bool (bool_decide (partial = Some 1 \/ partial = Some 0))).

Lemma primitives_agree fuel x v1 v2 t1 t2 :
  returns (compare_val stat_alloc pending fuel x v1 v2 true) (tree_compare true t1 t2) ->
  returns (compare_val stat_alloc pending fuel x v1 v2 false) (tree_compare false t1 t2) ->
  primitives_return fuel x v1 v2 (tree_compare true t1 t2) (tree_compare false t1 t2).
Proof.
  intros (n & En & Hn) (m & Em & Hm). unfold primitives_return, caml_compare, caml_equal, caml_notequal,
    caml_lessthan, caml_lessequal, caml_greaterthan, caml_greaterequal. rewrite En, Em. mred.
  destruct (cmp_keys_total (enc t1) (enc t2)) as (s & Es & _ & Hs). unfold tree_compare in *. rewrite Es in *.
  destruct Hn as [Hn _]. split.
  - exists s. split; [done|]. do 2 f_equal. unfold LESS, GREATER, EQUAL.
    destruct (Z.ltb_spec n 0), (Z.ltb_spec 0 n); lia.
  - destruct (cmp_keys false (enc t1) (enc t2)) as [r|]; simpl in Hm.
    + destruct Hm as [Hr Hu]. rewrite (proj2 (Z.eqb_neq m UNORDERED)) by done. cbn [negb].
      assert (forall k, Some r = Some k <-> r = k) as Hk by (intros k; split; congruence).
      split_and!; do 2 f_equal; apply eq_true_iff_eq; rewrite ?negb_true_iff, ?andb_true_r, ?bool_decide_eq_true,
        ?bool_decide_eq_false, !Hk; lia.
    + subst m. done.
Qed.

(** C9: structural comparison.  On values that represent trees (integers,
    strings, doubles, float arrays, objects, boxed integers of 32 and of 64 bits, blocks of such
    values, the first one nested up to 524,288 deep, shared or through forwarding blocks),
    the seven comparison primitives terminate and return what the
    lexicographic order on the encodings of the trees says, NaN included.  The
    stack of the comparison must be able to grow (no allocation fails), and no
    asynchronous action is pending. *)
Theorem structural_compare (x : heap) (v1 v2 : Z) (t1 t2 : tree) :
  (forall n, stat_alloc n = true) -> pending x = false ->
  repr boxed_ops x v1 t1 -> repr boxed_ops x v2 t2 -> depth t1 <= max_items ->
  exists N, forall fuel, (N <= fuel)%nat ->
    primitives_return fuel x v1 v2 (tree_compare true t1 t2) (tree_compare false t1 t2).
Proof.
  intros Ha Hp R1 R2 Hd.
  destruct (compare_val_spec boxed_ops stat_alloc pending Ha x Hp true v1 v2 t1 t2 R1 R2 Hd) as [N1 H1].
  destruct (compare_val_spec boxed_ops stat_alloc pending Ha x Hp false v1 v2 t1 t2 R1 R2 Hd) as [N2 H2].
  exists (N1 + N2)%nat. intros fuel Hf. apply primitives_agree; [apply H1|apply H2]; lia.
Qed.

(** C28: [caml_compare] is a total order on values that represent trees (integers,
    strings, doubles, float arrays, objects, boxed integers of 32 and of 64 bits, blocks of such
    values nested up to 524,288 deep): reflexive even on NaN, antisymmetric,
    transitive.  The stack of the comparison must be able to grow (no allocation
    fails), and no asynchronous action is pending. *)
Theorem compare_total_order (x : heap) (v1 v2 v3 : Z) (t1 t2 t3 : tree) :
  (forall n, stat_alloc n = true) -> pending x = false ->
  repr boxed_ops x v1 t1 -> repr boxed_ops x v2 t2 -> repr boxed_ops x v3 t3 ->
  depth t1 <= max_items -> depth t2 <= max_items -> depth t3 <= max_items ->
  exists N, forall fuel, (N <= fuel)%nat ->
    let c := caml_compare stat_alloc pending fuel x in
    c v1 v1 = Ret (Val_int 0) /\
    (exists s, sign3 s /\ c v1 v2 = Ret (Val_int s) /\ c v2 v1 = Ret (Val_int (- s))) /\
    (forall a b, c v1 v2 = Ret (Val_int a) -> c v2 v3 = Ret (Val_int b) -> sign3 a -> sign3 b -> a <= 0 -> b <= 0 ->
       exists s, c v1 v3 = Ret (Val_int s) /\ sign3 s /\ s <= 0 /\ (s = 0 -> a = 0 /\ b = 0)).
Proof.
  intros Ha Hp R1 R2 R3 D1 D2 D3.
  assert (Hc : forall u w t t', repr boxed_ops x u t -> repr boxed_ops x w t' -> depth t <= max_items ->
    exists N, forall fuel, (N <= fuel)%nat -> exists s, tree_compare true t t' = Some s /\
      caml_compare stat_alloc pending fuel x u w = Ret (Val_int s)).
  { intros u w t t' Ru Rw Hd.
    destruct (compare_val_spec boxed_ops stat_alloc pending Ha x Hp true u w t t' Ru Rw Hd) as [N1 H1].
    destruct (compare_val_spec boxed_ops stat_alloc pending Ha x Hp false u w t t' Ru Rw Hd) as [N2 H2].
    exists (N1 + N2)%nat. intros fuel Hf.
    apply (primitives_agree fuel x u w t t'); [apply H1|apply H2]; lia. }
  destruct (Hc v1 v1 t1 t1 R1 R1 D1) as [N1 H11]. destruct (Hc v1 v2 t1 t2 R1 R2 D1) as [N2 H12].
  destruct (Hc v2 v1 t2 t1 R2 R1 D2) as [N3 H21]. destruct (Hc v2 v3 t2 t3 R2 R3 D2) as [N4 H23].
  destruct (Hc v1 v3 t1 t3 R1 R3 D1) as [N5 H13]. clear Hc.
  exists (N1 + N2 + N3 + N4 + N5)%nat. intros fuel Hf. cbv zeta.
  destruct (H11 fuel ltac:(lia)) as (s11 & T11 & ->). destruct (H12 fuel ltac:(lia)) as (s12 & T12 & ->).
  destruct (H21 fuel ltac:(lia)) as (s21 & T21 & ->). destruct (H23 fuel ltac:(lia)) as (s23 & T23 & ->).
  destruct (H13 fuel ltac:(lia)) as (s13 & T13 & ->). unfold tree_compare in *.
  destruct (cmp_keys_total (enc t1) (enc t2)) as (s & E1 & E2 & Hs).
  destruct (cmp_keys_total (enc t2) (enc t3)) as (s' & E1' & _ & Hs').
  destruct (cmp_keys_total (enc t1) (enc t3)) as (s'' & E1'' & _ & Hs'').
  pose proof (cmp_keys_same (enc t1) [] []) as Er. rewrite !app_nil_r in Er.
  split_and!.
  - rewrite Er in T11. simpl in T11. by simplify_eq.
  - exists s. simplify_eq. done.
  - simplify_eq. intros a b Ea Eb Sa Sb La Lb. apply Ret_sign in Ea as ->; [|done..]. apply Ret_sign in Eb as ->; [|done..].
    destruct (cmp_keys_trans _ _ _ _ _ T12 T23 La Lb) as (c & Ec & Hc & H0). simplify_eq. eauto.
Qed.

(** Functional values.  Comparing two distinct closures raises
    [Invalid_argument "compare: functional value"], infix pointers included;
    comparing a closure to itself is 0 for [caml_compare] but still raises
    for each of the six boolean comparisons. *)
Theorem compare_functional (fuel : nat) (x : heap) (v1 v2 g1 g2 : Z) :
  Is_block v1 = true -> Is_block v2 = true -> Tag_val x v1 = Ret g1 -> Tag_val x v2 = Ret g2 ->
  (g1 = Closure_tag \/ g1 = Infix_tag) -> (g2 = Closure_tag \/ g2 = Infix_tag) ->
  (v1 <> v2 -> caml_compare stat_alloc pending (S fuel) x v1 v2 =
     Raise (Invalid_argument "compare: functional value")) /\
  caml_compare stat_alloc pending (S fuel) x v1 v1 = Ret (Val_int 0) /\
  Forall (fun r => r = Raise (Invalid_argument "compare: functional value"))
    [caml_equal stat_alloc pending (S fuel) x v1 v2; caml_notequal stat_alloc pending (S fuel) x v1 v2;
     caml_lessthan stat_alloc pending (S fuel) x v1 v2; caml_lessequal stat_alloc pending (S fuel) x v1 v2;
     caml_greaterthan stat_alloc pending (S fuel) x v1 v2; caml_greaterequal stat_alloc pending (S fuel) x v1 v2].
Proof.
  intros B1 B2 T1 T2 G1 G2. pose proof (block_not_long _ B1) as L1. pose proof (block_not_long _ B2) as L2.
  assert (Hv : forall total, (v1 =? v2) && total = false ->
    compare_values x total v1 v2 = Raise (Invalid_argument "compare: functional value")).
  { intros total E. unfold compare_values. rewrite E, L1, L2, T1, T2. mred.
    destruct G1 as [->| ->], G2 as [->| ->]; reflexivity. }
  unfold caml_compare, caml_equal, caml_notequal, caml_lessthan, caml_lessequal, caml_greaterthan, caml_greaterequal, compare_val.
  cbn [compare_loop]. split_and!.
  - intros Hne. rewrite Hv; [done|]. by rewrite (proj2 (Z.eqb_neq _ _)).
  - unfold compare_values at 1. by rewrite Z.eqb_refl.
  - rewrite Hv by (by rewrite andb_false_r). repeat constructor.
Qed.
End Claims.

(** ** Concrete values: the lists [1; 2] and [1; 3], two closures, and two boxed [Int32]
    of the number 7 whose data words differ in the upper half *)
#[local] Existing Instance boxed_customs.
Definition ex_lists : heap :=
  mkHeap (list_to_map [(992, 2048); (1000, 3); (1008, 1024); (1016, 2048); (1024, 5); (1032, 1);
                       (1040, 2048); (1048, 3); (1056, 1072); (1064, 2048); (1072, 7); (1080, 1);
                       (1088, 2295); (1096, 400); (1104, 5); (1112, 2295); (1120, 404); (1128, 5);
                       (1136, 2303); (1144, 8); (1152, 2 ^ 40 + 7); (1160, 2303); (1168, 8); (1176, 7)])
    3000 2000 2000 3000 64 [] [].
Definition ex_list (a b : Z) : tree := TBlk 0 [TInt a; TBlk 0 [TInt b; TInt 0]].
Lemma repr_int x n v : is_int n -> v = Val_long n -> repr int_ops x v (TInt n).
Proof. intros Hn ->. exists (Val_long n). split; [apply fwd_refl|done]. Qed.
Lemma repr_cons x v a b ta tb :
  Is_block v = true -> Tag_val x v = Ret 0 -> Wosize_val x v = Ret 2 ->
  Field x v 0 = Ret a -> repr int_ops x a ta -> Field x v 1 = Ret b -> repr int_ops x b tb ->
  repr int_ops x v (TBlk 0 [ta; tb]).
Proof.
  intros Hb Ht Hw Ha Ra Hc Rb. exists v. split; [apply fwd_refl|]. apply block_repr_blk. split_and!; try done.
  simpl. eauto 10.
Qed.
Ltac prove_list := repeat (eapply repr_cons; try reflexivity);
  apply repr_int; first [reflexivity | unfold is_int, Min_long, Max_long; lia].
Lemma ex_repr12 : repr int_ops ex_lists 1000 (ex_list 1 2).
Proof. prove_list. Qed.
Lemma ex_repr13 : repr int_ops ex_lists 1048 (ex_list 1 3).
Proof. prove_list. Qed.

Lemma ex_box v data : Is_block v = true -> Tag_val ex_lists v = Ret Custom_tag -> Custom_ops_val ex_lists v = Ret 8 ->
  Field ex_lists v 1 = Ret data -> s32 data = 7 -> repr int_ops ex_lists v (TBox 8 7).
Proof. intros Hb Ht Ho Hf Hs. exists v. split; [apply fwd_refl|]. simpl. split_and!; [done..|by left|]. exists data. by rewrite <- Hs. Qed.
Lemma ex_repr7 : repr int_ops ex_lists 1144 (TBox 8 7).
Proof. apply (ex_box 1144 (2 ^ 40 + 7)); reflexivity. Qed.
Lemma ex_repr7' : repr int_ops ex_lists 1168 (TBox 8 7).
Proof. apply (ex_box 1168 7); reflexivity. Qed.

Lemma structural_compare_witness :
  (exists N, forall fuel, (N <= fuel)%nat ->
    primitives_return (CO := boxed_customs) (fun _ => true) (fun _ => false) fuel ex_lists 1000 1048 (Some (-1)) (Some (-1))) /\
  (exists N, forall fuel, (N <= fuel)%nat ->
    primitives_return (CO := boxed_customs) (fun _ => true) (fun _ => false) fuel ex_lists 1144 1168 (Some 0) (Some 0)).
Proof.
  split.
  - exact (structural_compare (CO := boxed_customs) int_ops (fun _ => true) (fun _ => false) ex_lists 1000 1048
      (ex_list 1 2) (ex_list 1 3) (fun _ => eq_refl) eq_refl ex_repr12 ex_repr13 ltac:(vm_compute; discriminate)).
  - exact (structural_compare (CO := boxed_customs) int_ops (fun _ => true) (fun _ => false) ex_lists 1144 1168
      (TBox 8 7) (TBox 8 7) (fun _ => eq_refl) eq_refl ex_repr7 ex_repr7' ltac:(vm_compute; discriminate)).
Defined.

Lemma compare_total_order_witness :
  exists N, forall fuel, (N <= fuel)%nat ->
    caml_compare (CO := boxed_customs) (fun _ => true) (fun _ => false) fuel ex_lists 1000 1000 = Ret (Val_int 0).
Proof.
  destruct (compare_total_order (CO := boxed_customs) int_ops (fun _ => true) (fun _ => false) ex_lists 1000 1048 1048
    (ex_list 1 2) (ex_list 1 3) (ex_list 1 3) (fun _ => eq_refl) eq_refl ex_repr12 ex_repr13 ex_repr13
    ltac:(vm_compute; discriminate) ltac:(vm_compute; discriminate) ltac:(vm_compute; discriminate)) as [N HN].
  exists N. intros fuel Hf. exact (proj1 (HN fuel Hf)).
Defined.

Lemma compare_functional_witness :
  caml_compare (CO := boxed_customs) (fun _ => true) (fun _ => false) 1 ex_lists 1096 1120 =
  Raise (Invalid_argument "compare: functional value").
Proof.
  exact (proj1 (compare_functional (CO := boxed_customs) (fun _ => true) (fun _ => false) 0 ex_lists 1096 1120
    Closure_tag Closure_tag eq_refl eq_refl eq_refl eq_refl (or_introl eq_refl) (or_introl eq_refl)) ltac:(lia)).
Defined.

End CompareSpec.
Export CompareSpec.
