(* ===== verification/Hash.v ===== *)
(** * Generic hashing (runtime/hash.c)

    MurmurHash3 mixing on 32-bit words and the bounded breadth-first
    traversal of [caml_hash], with the proof that values equal for
    structural comparison have equal hashes. *)

From S2P Require Import Prelude Memory Ints Strings Compare CompareSpec.

Module Hash.

(** ** Mixing *)
Definition ROTL32 (x n : Z) : Z := u32 (Z.lor (Z.shiftl x n) (Z.shiftr x (32 - n))).
Definition MIX (h d : Z) : Z :=
  let d := u32 (d * 0xcc9e2d51) in
  let d := ROTL32 d 15 in
  let d := u32 (d * 0x1b873593) in
  let h := Z.lxor h d in
  let h := ROTL32 h 13 in
  u32 (h * 5 + 0xe6546b64).
Definition FINAL_MIX (h : Z) : Z :=
  let h := Z.lxor h (Z.shiftr h 16) in
  let h := u32 (h * 0x85ebca6b) in
  let h := Z.lxor h (Z.shiftr h 13) in
  let h := u32 (h * 0xc2b2ae35) in
  Z.lxor h (Z.shiftr h 16).

Definition caml_hash_mix_uint32 (h d : Z) : Z := MIX h d.
Definition caml_hash_mix_intnat (h d : Z) : Z :=
  MIX h (u32 (Z.lxor (Z.lxor (Z.shiftr d 32) (Z.shiftr d 63)) d)).
Definition caml_hash_mix_int64 (h d : Z) : Z := MIX (MIX h (u32 d)) (u32 (Z.shiftr d 32)).
(** On the bits of a double. *)
Definition caml_hash_mix_double (hash d : Z) : Z :=
  let h := u32 (Z.shiftr d 32) in
  let l := u32 d in
  let '(h, l) :=
    if (Z.land h 0x7FF00000 =? 0x7FF00000) && negb (Z.lor l (Z.land h 0xFFFFF) =? 0) then (0x7FF00000, 0x00000001)
    else if (h =? 0x80000000) && (l =? 0) then (0, l) else (h, l) in
  MIX (MIX hash l) h.
(** On the bits of a single-precision float. *)
Definition caml_hash_mix_float (hash n : Z) : Z :=
  let n :=
    if (Z.land n 0x7F800000 =? 0x7F800000) && negb (Z.land n 0x007FFFFF =? 0) then 0x7F800001
    else if n =? 0x80000000 then 0 else n in
  MIX hash n.

(** The 32-bit blocks of a string, then its last bytes. *)
Fixpoint mix_blocks (n : nat) (x : heap) (s i h : Z) : result Z :=
  match n with
  | O => Ret h
  | S n => l ← read_bytes 4 x s i; mix_blocks n x s (i + 4) (MIX h (u32 (le_word l)))
  end.
Definition caml_hash_mix_string (x : heap) (h s : Z) : result Z :=
  len ← caml_string_length x s;
  h ← mix_blocks (Z.to_nat (len / 4)) x s 0 h;
  let i := 4 * (len / 4) in
  let r := Z.land len 3 in
  h ← (if r =? 0 then Ret h else
       w ← (if 3 <=? r then b ← Byte_u x s (i + 2); Ret (Z.shiftl b 16) else Ret 0);
       w ← (if 2 <=? r then b ← Byte_u x s (i + 1); Ret (Z.lor w (Z.shiftl b 8)) else Ret w);
       b ← Byte_u x s i;
       Ret (MIX h (Z.lor w b)));
  Ret (Z.lxor h (u32 len)).

(** ** The traversal *)
Definition HASH_QUEUE_SIZE : Z := 256.
Definition MAX_FORWARD_DEREFERENCE : Z := 1000.

(** The hash function of a custom block; [NULL] when absent. *)
Class CustomHash : Type := {
  custom_hash : Z -> Z;
  call_hash : Z -> heap -> Z -> Z;
}.

(** The rolling hash, the number of meaningful values still to see, and the
    values queued so far, in order; [wr] is the length of the queue. *)
Record hstate := mkH { h_hash : Z; h_num : Z; h_queue : list Z }.

Section Traversal.
Context `{CH : CustomHash}.

Fixpoint enqueue (n : nat) (x : heap) (v i sz : Z) (queue : list Z) : result (list Z) :=
  match n with
  | O => Ret queue
  | S n =>
      if sz <=? Z.of_nat (length queue) then Ret queue else
      f ← Field x v i; enqueue n x v (i + 1) sz (queue ++ [f])
  end.
Fixpoint mix_doubles (n : nat) (x : heap) (v i : Z) (h num : Z) : result (Z * Z) :=
  match n with
  | O => Ret (h, num)
  | S n =>
      b ← Double_flat_field x v i;
      let h := caml_hash_mix_double h b in
      let num := num - 1 in
      if num <=? 0 then Ret (h, num) else mix_doubles n x v (i + 1) h num
  end.
Fixpoint mix_fields (n : nat) (x : heap) (v i : Z) (h num : Z) : result (Z * Z) :=
  match n with
  | O => Ret (h, num)
  | S n => f ← Field x v i; mix_fields n x v (i + 1) (caml_hash_mix_intnat h f) (num - 1)
  end.
(** At most [n] links; [None] when the chain is longer. *)
Fixpoint follow_forward (n : nat) (x : heap) (v : Z) : result (option Z) :=
  match n with
  | O => Ret None
  | S n =>
      v ← Forward_val x v;
      if Is_long v then Ret (Some v) else
      t ← Tag_val x v;
      if negb (t =? Forward_tag) then Ret (Some v) else follow_forward n x v
  end.

(** One value taken from the queue; [fuel] bounds the jumps to [again]. *)
Fixpoint hash_value (fuel : nat) (x : heap) (sz v : Z) (s : hstate) : result hstate :=
  match fuel with
  | O => NoFuel
  | S fuel =>
      let '(mkH h num queue) := s in
      if Is_long v then Ret (mkH (caml_hash_mix_intnat h v) (num - 1) queue) else
      t ← Tag_val x v;
      if t =? String_tag then
        h ← caml_hash_mix_string x h v; Ret (mkH h (num - 1) queue)
      else if t =? Double_tag then
        b ← Double_val x v; Ret (mkH (caml_hash_mix_double h b) (num - 1) queue)
      else if t =? Double_array_tag then
        len ← Wosize_val x v;
        '(h, num) ← mix_doubles (Z.to_nat len) x v 0 h num;
        Ret (mkH h num queue)
      else if t =? Abstract_tag then Ret s
      else if t =? Infix_tag then
        hd ← Hd_val x v;
        let ofs := Infix_offset_hd hd in
        hash_value fuel x sz (v - ofs) (mkH (caml_hash_mix_uint32 h (u32 ofs)) num queue)
      else if t =? Forward_tag then
        r ← follow_forward (Z.to_nat MAX_FORWARD_DEREFERENCE) x v;
        match r with
        | Some v => hash_value fuel x sz v s
        | None => Ret s
        end
      else if t =? Object_tag then
        oid ← Oid_val x v; Ret (mkH (caml_hash_mix_intnat h oid) (num - 1) queue)
      else if t =? Custom_tag then
        ops ← Custom_ops_val x v;
        if negb (custom_hash ops =? 0) then
          let n := u32 (call_hash (custom_hash ops) x v) in
          Ret (mkH (caml_hash_mix_uint32 h n) (num - 1) queue)
        else Ret s
      else if t =? Closure_tag then
        len ← Wosize_val x v;
        info ← Field x v 1;
        let startenv := Start_env_closinfo info in
        hd ← Hd_val x v;
        let h := caml_hash_mix_uint32 h (u32 (Cleanhd_hd hd)) in
        '(h, num) ← mix_fields (Z.to_nat startenv) x v 0 h num;
        queue ← enqueue (Z.to_nat (len - startenv)) x v startenv sz queue;
        Ret (mkH h num queue)
      else if t =? Cont_tag then Ret s
      else
        hd ← Hd_val x v;
        let h := caml_hash_mix_uint32 h (u32 (Cleanhd_hd hd)) in
        len ← Wosize_val x v;
        queue ← enqueue (Z.to_nat len) x v 0 sz queue;
        Ret (mkH h num queue)
  end.

(** [while (rd < wr && num > 0)]: at most one round per queue slot. *)
Fixpoint hash_loop (fuel : nat) (x : heap) (sz : Z) (rd : nat) (s : hstate) : result Z :=
  match fuel with
  | O => NoFuel
  | S fuel =>
      if negb (0 <? h_num s) then Ret (h_hash s) else
      match h_queue s !! rd with
      | None => Ret (h_hash s)
      | Some v => s ← hash_value 4 x sz v s; hash_loop fuel x sz (S rd) s
      end
  end.

Definition fold_result (h : Z) : Z := Val_int (Z.land (FINAL_MIX h) 0x3FFFFFFF).
Definition caml_hash (x : heap) (count limit seed obj : Z) : result Z :=
  let sz := Long_val limit in
  let sz := if (sz <? 0) || (HASH_QUEUE_SIZE <? sz) then HASH_QUEUE_SIZE else sz in
  h ← hash_loop (S (S (Z.to_nat HASH_QUEUE_SIZE))) x sz 0 (mkH (u32 (Int_val seed)) (Long_val count) [obj]);
  Ret (fold_result h).
Definition caml_string_hash (x : heap) (seed string : Z) : result Z :=
  h ← caml_hash_mix_string x (u32 (Int_val seed)) string;
  Ret (fold_result h).

End Traversal.

(** ** Variant tags *)
Fixpoint hash_variant_loop (tag : list Z) (accu : Z) : Z :=
  match tag with
  | [] => accu
  | c :: tag => hash_variant_loop tag (Val_int (s32 (223 * Int_val accu + c)))
  end.
Definition caml_hash_variant (tag : list Z) : Z :=
  let accu := hash_variant_loop tag (Val_int 0) in
  s32 (Z.land accu (Val_long 0x7FFFFFFF)).

(** ** Trees equal for the total comparison *)
Definition dsame (a b : Z) : Prop := cmp_double true a b = Some 0.

Section Same.
Context `{CO : CustomOps}.

Fixpoint same (t1 t2 : tree) {struct t1} : Prop :=
  match t1, t2 with
  | TInt a, TInt b => a = b
  | TBlk g l, TBlk g' l' =>
      g = g' /\
      (fix sames (l l' : list tree) {struct l} : Prop :=
         match l, l' with
         | [], [] => True
         | t :: l, t' :: l' => same t t' /\ sames l l'
         | _, _ => False
         end) l l'
  | TStr a, TStr b => a = b
  | TDbl a, TDbl b => dsame a b
  | TDArr l, TDArr l' => Forall2 dsame l l'
  | TObj a, TObj b => a = b
  | TBox p a, TBox q b => custom_identifier p = custom_identifier q /\ a = b
  | _, _ => False
  end.
Lemma same_blk g l g' l' : same (TBlk g l) (TBlk g' l') <-> g = g' /\ Forall2 same l l'.
Proof.
  simpl. assert (forall l l', (fix sames (l l' : list tree) {struct l} : Prop :=
         match l, l' with
         | [], [] => True
         | t :: l, t' :: l' => same t t' /\ sames l l'
         | _, _ => False
         end) l l' <-> Forall2 same l l') as H; [|by rewrite H].
  clear. induction l as [|t l IH]; intros [|t' l'].
  - done.
  - split; [done|by inversion 1].
  - split; [done|by inversion 1].
  - rewrite IH. split; [intros [? ?]; by constructor|by inversion 1].
Qed.

(** Trees as values represent them. *)
Fixpoint wf_tree (boxed_ops : Z -> Prop) (t : tree) : Prop :=
  match t with
  | TBlk tag l => plain_tag tag = true /\
      (fix all (l : list tree) : Prop := match l with [] => True | t :: l => wf_tree boxed_ops t /\ all l end) l
  | TStr bs => Forall is_byte bs
  | TBox p _ => boxed_ops p
  | _ => True
  end.
Lemma wf_blk B tag l : wf_tree B (TBlk tag l) <-> plain_tag tag = true /\ Forall (wf_tree B) l.
Proof.
  simpl. assert (forall l, (fix all (l : list tree) : Prop :=
    match l with [] => True | t :: l => wf_tree B t /\ all l end) l <-> Forall (wf_tree B) l) as H; [|by rewrite H].
  clear. induction l as [|t l IH]; [done|]. rewrite IH. split; [intros [? ?]; by constructor|by inversion 1].
Qed.
Lemma repr_wf B x t : forall w, block_repr B x t w -> wf_tree B t.
Proof.
  induction t as [n|tag l IH|bs|b|l|o|p z] using tree_ind'; intros w H; try done.
  - apply block_repr_blk in H as (_ & Hp & _ & _ & Hf). apply wf_blk. split; [done|].
    revert Hf. generalize 0. induction IH as [|t l Ht _ IHl]; intros i Hf; constructor.
    + destruct Hf as [(f & _ & u & _ & Hr) _]. by eapply Ht.
    + destruct Hf as [_ Hf]. by eapply IHl.
  - destruct H as [_ H]. apply (sa_bytes _ _ _ H).
  - by destruct H as (_ & _ & _ & ? & _).
Qed.

Context (boxed_ops : Z -> Prop) `{BO : !BoxedOps boxed_ops}.

Lemma cmp_num_zero a b L R :
  cmp_keys true (Num a :: L) (Num b :: R) = Some 0 -> a = b /\ cmp_keys true L R = Some 0.
Proof.
  simpl. destruct (Z.eqb_spec (Z.sgn (a - b)) 0) as [E|E]; intros H; [|by simplify_eq]. split; [lia|done].
Qed.
Lemma cmp_dbl_zero a b L R :
  cmp_keys true (Dbl a :: L) (Dbl b :: R) = Some 0 -> dsame a b /\ cmp_keys true L R = Some 0.
Proof.
  simpl. unfold dsame. destruct (cmp_double true a b) as [s|]; [|done].
  destruct (Z.eqb_spec s 0) as [->|]; intros H; [done|by simplify_eq].
Qed.
Lemma cmp_bytes_zero a b L R :
  Forall is_byte a -> Forall is_byte b ->
  cmp_keys true (enc_bytes a ++ L) (enc_bytes b ++ R) = Some 0 -> a = b /\ cmp_keys true L R = Some 0.
Proof.
  intros Ha Hb. rewrite cmp_keys_bytes by done. destruct (Z.eqb_spec (lex_compare a b) 0) as [E|E]; intros H.
  - split; [by apply lex_compare_eq|done].
  - by simplify_eq.
Qed.
Lemma cmp_dbls_zero l1 : forall l2 L R, length l1 = length l2 ->
  cmp_keys true (map Dbl l1 ++ L) (map Dbl l2 ++ R) = Some 0 -> Forall2 dsame l1 l2 /\ cmp_keys true L R = Some 0.
Proof.
  induction l1 as [|a l1 IH]; intros [|b l2] L R Hl H; try done. cbn [map app] in H.
  apply cmp_dbl_zero in H as [Hd H]. apply IH in H as [? ?]; [|simpl in Hl; lia]. split; [by constructor|done].
Qed.

Lemma compare_zero_same t1 : forall t2 L R, wf_tree boxed_ops t1 -> wf_tree boxed_ops t2 ->
  cmp_keys true (enc t1 ++ L) (enc t2 ++ R) = Some 0 -> same t1 t2 /\ cmp_keys true L R = Some 0.
Proof.
  induction t1 as [n|tag l IH|bs|b|l|o|p z] using tree_ind';
    intros [n'|tag' l'|bs'|b'|l'|o'|p' z'] L R W1 W2 H; cbn [enc app] in H;
    (apply cmp_num_zero in H as [E0 H]; try discriminate E0);
    (apply cmp_num_zero in H as [E H]; try discriminate E);
    try (apply wf_blk in W1 as [P1 W1]); try (apply wf_blk in W2 as [P2 W2]); subst; try discriminate.
  - done.
  - apply cmp_num_zero in H as [El H]. apply Nat2Z.inj in El. rewrite same_blk.
    enough (Forall2 same l l' /\ cmp_keys true L R = Some 0) as [? ?] by done.
    clear P1 P2. revert l' El W1 W2 H. induction IH as [|t l Ht _ IHl]; intros [|t' l'] El W1 W2 H; try done.
    cbn [map concat] in H. rewrite <- !app_assoc in H. inversion W1; inversion W2; subst.
    apply Ht in H as [Hs H]; [|done..]. apply IHl in H as [? ?]; [|simpl in El; lia|done..]. split; [by constructor|done].
  - apply cmp_bytes_zero in H as [-> H]; done.
  - apply cmp_dbl_zero in H as [? H]; done.
  - apply cmp_num_zero in H as [El H]. apply Nat2Z.inj in El. by apply cmp_dbls_zero in H.
  - apply cmp_num_zero in H as [-> H]; done.
  - rewrite <- !app_assoc in H. apply cmp_bytes_zero in H as [Ei H]; [|by apply boxed_bytes..].
    cbn [app] in H. apply cmp_num_zero in H as [-> H]. done.
Qed.
End Same.

(** ** Hashing depends only on the tree, up to comparison *)

(** *** Strings *)
Lemma mix_blocks_same n : forall x s1 s2 bs i h,
  string_at x s1 bs -> string_at x s2 bs -> 0 <= i -> i + 4 * Z.of_nat n <= str_len bs ->
  exists h', mix_blocks n x s1 i h = Ret h' /\ mix_blocks n x s2 i h = Ret h'.
Proof.
  induction n as [|n IH]; intros x s1 s2 bs i h H1 H2 Hi Hn; [by exists h|].
  cbn [mix_blocks]. rewrite (read_bytes_string _ _ _ _ _ H1), (read_bytes_string _ _ _ _ _ H2) by lia.
  mred. apply (IH x s1 s2 bs); try done; lia.
Qed.
Lemma string_byte_same x s1 s2 bs i :
  string_at x s1 bs -> string_at x s2 bs -> 0 <= i < str_len bs -> exists b, Byte_u x s1 i = Ret b /\ Byte_u x s2 i = Ret b.
Proof.
  intros H1 H2 Hi. destruct (lookup_lt_is_Some_2 bs (Z.to_nat i)) as [b Hb]; [unfold str_len in Hi; lia|].
  exists b. pose proof (string_byte _ _ _ _ _ H1 Hb) as E1. pose proof (string_byte _ _ _ _ _ H2 Hb) as E2.
  by replace (0 + Z.of_nat (Z.to_nat i)) with i in * by lia.
Qed.
Lemma mix_string_same x s1 s2 bs h :
  string_at x s1 bs -> string_at x s2 bs ->
  exists r, caml_hash_mix_string x h s1 = Ret r /\ caml_hash_mix_string x h s2 = Ret r.
Proof.
  intros H1 H2. unfold caml_hash_mix_string. rewrite (string_length_spec _ _ _ H1), (string_length_spec _ _ _ H2).
  mred. pose proof (str_len_nonneg bs) as Hn.
  pose proof (Z.div_mod (str_len bs) 4 ltac:(lia)) as Hd. pose proof (Z.mod_pos_bound (str_len bs) 4 ltac:(lia)) as Hm.
  assert (0 <= str_len bs / 4) by (apply Z.div_pos; lia).
  destruct (mix_blocks_same (Z.to_nat (str_len bs / 4)) x s1 s2 bs 0 h H1 H2) as (h' & -> & ->); [lia..|].
  mred.
  assert (Z.land (str_len bs) 3 = str_len bs mod 4) as -> by apply (Z.land_ones (str_len bs) 2 ltac:(lia)).
  set (r := str_len bs mod 4) in *. set (i := 4 * (str_len bs / 4)) in *.
  destruct (Z.eqb_spec r 0) as [E|E]; [eexists; split; reflexivity|].
  destruct (string_byte_same x s1 s2 bs i H1 H2) as (b0 & Hb0 & Hb0'); [lia|].
  assert (Hb1 : 2 <= r -> exists b, Byte_u x s1 (i + 1) = Ret b /\ Byte_u x s2 (i + 1) = Ret b).
  { intros. apply (string_byte_same x s1 s2 bs); try done. lia. }
  assert (Hb2 : 3 <= r -> exists b, Byte_u x s1 (i + 2) = Ret b /\ Byte_u x s2 (i + 2) = Ret b).
  { intros. apply (string_byte_same x s1 s2 bs); try done. lia. }
  destruct (Z.leb_spec 3 r).
  - destruct Hb2 as (b2 & -> & ->); [done|]. destruct Hb1 as (b1 & -> & ->); [lia|].
    rewrite (proj2 (Z.leb_le 2 r)), Hb0, Hb0' by lia. eexists; split; reflexivity.
  - destruct (Z.leb_spec 2 r).
    + destruct Hb1 as (b1 & -> & ->); [done|]. rewrite Hb0, Hb0'. eexists; split; reflexivity.
    + rewrite Hb0, Hb0'. eexists; split; reflexivity.
Qed.

(** *** Doubles: all NaNs hash alike, and so do the two zeros. *)
Lemma is_nan_halves d : 0 <= d < 2 ^ 64 ->
  is_nan d = (Z.land (u32 (Z.shiftr d 32)) 0x7FF00000 =? 0x7FF00000) &&
             negb (Z.lor (u32 d) (Z.land (u32 (Z.shiftr d 32)) 0xFFFFF) =? 0).
Proof.
  intros Hd. unfold is_nan. rewrite Z.shiftr_div_pow2 by lia. unfold wrap.
  set (hi := d / 2 ^ 32). set (lo := d mod 2 ^ 32).
  assert (0 <= hi < 2 ^ 32) as Hhi by (unfold hi; split; [apply Z.div_pos; lia|apply Z.div_lt_upper_bound; lia]).
  rewrite (Z.mod_small hi) by lia.
  assert (d = hi * 2 ^ 32 + lo) as Ed by (unfold hi, lo; rewrite (Z.div_mod d (2 ^ 32)) at 1 by lia; lia).
  assert (0 <= lo < 2 ^ 32) as Hlo by (apply Z.mod_pos_bound; lia).
  change (2 ^ 63 - 1) with (Z.ones 63). rewrite Z.land_ones by lia.
  change 0xFFFFF with (Z.ones 20). rewrite Z.land_ones by lia.
  assert (Z.land hi 0x7FF00000 = (hi / 2 ^ 20 mod 2 ^ 11) * 2 ^ 20) as ->.
  { change 0x7FF00000 with (Z.shiftl (Z.ones 11) 20). rewrite <- (Z.shiftl_mul_pow2 _ 20), <- Z.shiftr_div_pow2 by lia.
    rewrite <- Z.land_ones by lia. apply Z.bits_inj'. intros i Hi. rewrite Z.land_spec, !Z.shiftl_spec, Z.land_spec by lia.
    destruct (Z_lt_le_dec i 20).
    - by rewrite !(Z.testbit_neg_r _ (i - 20)), andb_false_r by lia.
    - rewrite Z.shiftr_spec by lia. by replace (i - 20 + 20) with i by lia. }
  set (q := hi / 2 ^ 20). set (m := hi mod 2 ^ 20).
  assert (hi = q * 2 ^ 20 + m) as Eh by (unfold q, m; rewrite (Z.div_mod hi (2 ^ 20)) at 1 by lia; lia).
  assert (0 <= m < 2 ^ 20) as Hm by (apply Z.mod_pos_bound; lia).
  assert (0 <= q < 2 ^ 12) as Hq by (unfold q; split; [apply Z.div_pos; lia|apply Z.div_lt_upper_bound; lia]).
  assert (d mod 2 ^ 63 = (q mod 2 ^ 11 * 2 ^ 20 + m) * 2 ^ 32 + lo) as ->.
  { symmetry. apply (Z.mod_unique _ _ (q / 2 ^ 11)).
    - pose proof (Z.mod_pos_bound q (2 ^ 11) ltac:(lia)). lia.
    - pose proof (Z.div_mod q (2 ^ 11) ltac:(lia)). rewrite Ed, Eh. lia. }
  pose proof (Z.mod_pos_bound q (2 ^ 11) ltac:(lia)) as Hq'. set (q' := q mod 2 ^ 11) in *.
  assert ((Z.lor lo m =? 0) = (lo =? 0) && (m =? 0)) as ->.
  { apply eq_true_iff_eq. rewrite andb_true_iff, !Z.eqb_eq. apply Z.lor_eq_0_iff. }
  lia.
Qed.

Lemma mix_double_same h a b :
  0 <= a < 2 ^ 64 -> 0 <= b < 2 ^ 64 -> dsame a b -> caml_hash_mix_double h a = caml_hash_mix_double h b.
Proof.
  intros Ha Hb. unfold dsame, cmp_double. pose proof (is_nan_halves a Ha) as Na. pose proof (is_nan_halves b Hb) as Nb.
  unfold caml_hash_mix_double. rewrite <- Na, <- Nb.
  destruct (is_nan a), (is_nan b); cbn; try done. intros [= E].
  unfold double_key in E.
  assert (a = b \/ (a = 0 /\ b = 2 ^ 63) \/ (a = 2 ^ 63 /\ b = 0)) as Hab.
  { destruct (Z.ltb_spec a (2 ^ 63)), (Z.ltb_spec b (2 ^ 63)); lia. }
  destruct Hab as [->|[[-> ->]|[-> ->]]]; reflexivity.
Qed.

(** *** Blocks *)
Lemma Cleanhd_fields hd : 0 <= hd < 2 ^ 64 -> Cleanhd_hd hd = Wosize_hd hd * 1024 + Tag_hd hd.
Proof.
  intros H. rewrite Wosize_hd_div by done. unfold Cleanhd_hd, Tag_hd, HEADER_TAG_MASK, HEADER_WOSIZE_MASK, HEADER_WOSIZE_SHIFT.
  rewrite wrap_small by done. rewrite Z.land_lor_distr_r. change (2 ^ 8 - 1) with (Z.ones 8).
  rewrite Z.land_ones by lia.
  assert (Z.land hd (Z.shiftl (2 ^ 54 - 1) 10) = (hd / 1024) * 1024) as ->.
  { change (2 ^ 54 - 1) with (Z.ones 54). change 1024 with (2 ^ 10). rewrite <- Z.shiftr_div_pow2, <- Z.shiftl_mul_pow2 by lia.
    apply Z.bits_inj'. intros i Hi. rewrite Z.land_spec, !Z.shiftl_spec by lia. destruct (Z_lt_le_dec i 10).
    - by rewrite !(Z.testbit_neg_r _ (i - 10)), andb_false_r by lia.
    - rewrite Z.shiftr_spec by lia. replace (i - 10 + 10) with i by lia. destruct (Z_lt_le_dec i 64).
      + by rewrite Z.ones_spec_low, andb_true_r by lia.
      + rewrite Z.ones_spec_high, andb_false_r by lia. symmetry. apply Z.bits_above_log2; [lia|].
        destruct (Z.eq_dec hd 0) as [->|]; [simpl; lia|]. apply Z.lt_le_trans with 64; [apply Z.log2_lt_pow2; lia|lia]. }
  rewrite Z.lor_comm.
  assert (Z.land (hd / 1024 * 1024) (hd mod 2 ^ 8) = 0) as Hz.
  { change 1024 with (2 ^ 10). rewrite <- Z.shiftl_mul_pow2, <- Z.land_ones by lia. apply Z.bits_inj'. intros i Hi.
    rewrite !Z.land_spec, Z.shiftl_spec, Z.bits_0 by lia. destruct (Z_lt_le_dec i 10).
    - by rewrite Z.testbit_neg_r by lia.
    - rewrite (Z.ones_spec_high 8) by lia. by rewrite !andb_false_r. }
  by rewrite <- Z.lxor_lor, <- Z.add_nocarry_lxor by done.
Qed.

(** *** The traversal *)

(** The hash of a boxed integer depends on its number only. *)
Class BoxedHash `{CO : CustomOps} `{CH : CustomHash} (boxed_ops : Z -> Prop) : Prop := {
  boxed_hash_fun : forall p q, boxed_ops p -> boxed_ops q -> custom_identifier p = custom_identifier q ->
    custom_hash p = custom_hash q;
  boxed_hash_call : forall p x v1 v2 z1 z2, boxed_ops p -> Field x v1 1 = Ret z1 -> Field x v2 1 = Ret z2 ->
    boxed_number (custom_identifier p) z1 = boxed_number (custom_identifier p) z2 ->
    call_hash (custom_hash p) x v1 = call_hash (custom_hash p) x v2;
}.

Section Relational.
Context `{CO : CustomOps} `{CH : CustomHash} (boxed_ops : Z -> Prop) `{BO : !BoxedOps boxed_ops} `{BH : !BoxedHash boxed_ops}.
Variable x : heap.
(** Chains of forwarding blocks have at most [MAX_FORWARD_DEREFERENCE] links. *)
Definition short_chains : Prop := forall v w, Is_block v = true -> Tag_val x v = Ret Forward_tag ->
  fwd x v w -> not_fwd x w -> follow_forward (Z.to_nat MAX_FORWARD_DEREFERENCE) x v = Ret (Some w).
Hypothesis short : short_chains.
Variable sz : Z.

Definition vsame (v1 v2 : Z) : Prop :=
  exists t1 t2, repr boxed_ops x v1 t1 /\ repr boxed_ops x v2 t2 /\ same t1 t2.
Record hsame (s1 s2 : hstate) : Prop := {
  hs_hash : h_hash s1 = h_hash s2;
  hs_num : h_num s1 = h_num s2;
  hs_queue : Forall2 vsame (h_queue s1) (h_queue s2);
}.
(** Two runs that both return, in related states. *)
Definition both {A} (R : A -> A -> Prop) (r1 r2 : result A) : Prop :=
  exists a b, r1 = Ret a /\ r2 = Ret b /\ R a b.

Lemma enqueue_same w1 w2 l1 l2 : forall i q1 q2,
  Forall2 same l1 l2 -> fields_repr boxed_ops x w1 l1 i -> fields_repr boxed_ops x w2 l2 i -> Forall2 vsame q1 q2 ->
  both (Forall2 vsame) (enqueue (length l1) x w1 i sz q1) (enqueue (length l2) x w2 i sz q2).
Proof.
  intros i q1 q2 Hl. revert i q1 q2. induction Hl as [|t1 t2 l1 l2 Ht _ IH]; intros i q1 q2 F1 F2 Hq; simpl.
  { by exists q1, q2. }
  rewrite <- (Forall2_length Hq). destruct (sz <=? _); [by exists q1, q2|].
  destruct F1 as [(f1 & -> & R1) F1], F2 as [(f2 & -> & R2) F2]. mred.
  apply IH; try done. apply Forall2_app; [done|]. constructor; [|done]. by exists t1, t2.
Qed.
Lemma enqueue_length n : forall w i q q', enqueue n x w i sz q = Ret q' -> (length q <= length q')%nat /\
  (Z.of_nat (length q') <= Z.max (Z.of_nat (length q)) sz).
Proof.
  induction n as [|n IH]; intros w i q q'; simpl; intros E; [injection E as <-; lia|].
  destruct (Z.leb_spec sz (Z.of_nat (length q))); [injection E as <-; lia|].
  destruct (Field x w i) as [f| | | |]; try done. simpl in E. apply IH in E. rewrite length_app in E. simpl in E. lia.
Qed.

Lemma mix_doubles_same l1 l2 w1 w2 : forall i h num,
  Forall2 dsame l1 l2 ->
  (forall j b, l1 !! j = Some b -> Double_flat_field x w1 (i + Z.of_nat j) = Ret b) ->
  (forall j b, l2 !! j = Some b -> Double_flat_field x w2 (i + Z.of_nat j) = Ret b) ->
  both eq (mix_doubles (length l1) x w1 i h num) (mix_doubles (length l2) x w2 i h num).
Proof.
  intros i h num Hl. revert i h num. induction Hl as [|a b l1 l2 Hab Hl IH]; intros i h num F1 F2; simpl.
  { by eexists _, _. }
  pose proof (F1 0%nat a eq_refl) as E1. pose proof (F2 0%nat b eq_refl) as E2. rewrite Z.add_0_r in E1, E2.
  rewrite E1, E2. mred.
  assert (forall v i c, Double_flat_field x v i = Ret c -> 0 <= c < 2 ^ 64) as Hr.
  { intros v j c Hc. unfold Double_flat_field, Double_val in Hc. destruct (load x _); try done.
    simpl in Hc. injection Hc as <-. apply wrap_range. lia. }
  rewrite (mix_double_same h a b) by eauto. destruct (num - 1 <=? 0); [by eexists _, _|].
  apply IH.
  - intros j c Hj. rewrite <- (F1 (S j) c Hj). f_equal. lia.
  - intros j c Hj. rewrite <- (F2 (S j) c Hj). f_equal. lia.
Qed.

Lemma block_header w tag n : Tag_val x w = Ret tag -> Wosize_val x w = Ret n ->
  exists hd, Hd_val x w = Ret hd /\ Cleanhd_hd hd = n * 1024 + tag.
Proof.
  unfold Tag_val, Wosize_val, Hd_val. destruct (load x (w - 8)) as [a| | | |]; try done. simpl. intros [= <-] [= <-].
  eexists. split; [done|]. apply Cleanhd_fields, wrap_range. lia.
Qed.

(** The value behind the forwarding blocks. *)
Lemma hash_block fuel fuel' t1 t2 w1 w2 s1 s2 :
  block_repr boxed_ops x t1 w1 -> block_repr boxed_ops x t2 w2 -> same t1 t2 -> hsame s1 s2 ->
  both hsame (hash_value (S fuel) x sz w1 s1) (hash_value (S fuel') x sz w2 s2).
Proof.
  intros R1 R2 Hsame Hs. destruct s1 as [h n q1], s2 as [h2 n2 q2]. destruct Hs as [Eh En Hq]. simpl in Eh, En, Hq. subst h2 n2.
  pose proof (block_repr_tag _ _ _ _ R1) as T1. pose proof (block_repr_tag _ _ _ _ R2) as T2. cbn [hash_value].
  destruct t1 as [a|g l|a|a|a|a|p a], t2 as [b|g' l'|b|b|b|b|p' b]; try done; simpl in T1, T2.
  - destruct R1 as [_ ->], R2 as [_ ->]. simpl in Hsame. subst b. rewrite Val_long_Is_long. by eexists _, _.
  - apply same_blk in Hsame as [<- Hsame]. apply block_repr_blk in R1 as (_ & P & G1 & W1 & F1).
    apply block_repr_blk in R2 as (_ & _ & G2 & W2 & F2).
    rewrite (proj1 T1), (proj1 T2), G1, G2. mred.
    destruct (plain_tag_ne _ P) as (? & ? & ? & ? & ? & ? & ? & ? & ? & ?).
    rewrite !(proj2 (Z.eqb_neq g _)) by done.
    destruct (block_header _ _ _ G1 W1) as (hd1 & -> & C1), (block_header _ _ _ G2 W2) as (hd2 & -> & C2).
    mred. rewrite W1, W2. mred. rewrite !Nat2Z.id.
    assert (Cleanhd_hd hd1 = Cleanhd_hd hd2) as -> by (rewrite C1, C2, (Forall2_length Hsame); done).
    destruct (enqueue_same w1 w2 l l' 0 q1 q2 Hsame F1 F2 Hq) as (q1' & q2' & -> & -> & Hq').
    by eexists _, _.
  - destruct R1 as [_ R1], R2 as [_ R2]. simpl in Hsame. subst b.
    rewrite (proj1 T1), (proj1 T2), (sa_tag _ _ _ R1), (sa_tag _ _ _ R2). mred. rewrite Z.eqb_refl.
    destruct (mix_string_same x w1 w2 a h R1 R2) as (r & -> & ->). by eexists _, _.
  - destruct R1 as (_ & G1 & R1), R2 as (_ & G2 & R2). rewrite (proj1 T1), (proj1 T2), G1, G2. mred.
    change (Double_tag =? String_tag) with false. rewrite Z.eqb_refl, R1, R2. mred.
    assert (forall v c, Double_val x v = Ret c -> 0 <= c < 2 ^ 64) as Hr.
    { intros v c Hc. unfold Double_val in Hc. destruct (load x v); try done. simpl in Hc. injection Hc as <-.
      apply wrap_range. lia. }
    rewrite (mix_double_same h a b) by eauto. by eexists _, _.
  - destruct R1 as (_ & G1 & W1 & R1), R2 as (_ & G2 & W2 & R2). rewrite (proj1 T1), (proj1 T2), G1, G2.
    mred. change (Double_array_tag =? String_tag) with false. change (Double_array_tag =? Double_tag) with false.
    rewrite Z.eqb_refl, W1, W2. mred. rewrite !Nat2Z.id. simpl in Hsame.
    destruct (mix_doubles_same a b w1 w2 0 h n Hsame) as ([h1 n1] & y & -> & -> & <-); [by eauto..|]. by eexists _, _.
  - destruct R1 as (_ & G1 & R1 & _), R2 as (_ & G2 & R2 & _). rewrite (proj1 T1), (proj1 T2), G1, G2.
    mred. simpl in Hsame. subst b.
    change (Object_tag =? String_tag) with false. change (Object_tag =? Double_tag) with false.
    change (Object_tag =? Double_array_tag) with false. change (Object_tag =? Abstract_tag) with false.
    change (Object_tag =? Infix_tag) with false. change (Object_tag =? Forward_tag) with false.
    rewrite Z.eqb_refl, R1, R2. by eexists _, _.
  - destruct R1 as (_ & G1 & O1 & B1 & d1 & R1 & N1), R2 as (_ & G2 & O2 & B2 & d2 & R2 & N2). rewrite (proj1 T1), (proj1 T2), G1, G2.
    mred. destruct Hsame as [Hid ->].
    change (Custom_tag =? String_tag) with false. change (Custom_tag =? Double_tag) with false.
    change (Custom_tag =? Double_array_tag) with false. change (Custom_tag =? Abstract_tag) with false.
    change (Custom_tag =? Infix_tag) with false. change (Custom_tag =? Forward_tag) with false.
    change (Custom_tag =? Object_tag) with false. rewrite Z.eqb_refl, O1, O2. mred.
    rewrite (boxed_hash_fun p p' B1 B2 Hid). destruct (custom_hash p' =? 0); cbn [negb]; [by eexists _, _|].
    rewrite (boxed_hash_call p' x w1 w2 d1 d2 B2 R1 R2) by congruence. by eexists _, _.
Qed.

Lemma hash_through v w t fuel s :
  fwd x v w -> block_repr boxed_ops x t w ->
  hash_value (S (S fuel)) x sz v s = hash_value (S (S fuel)) x sz w s \/
  hash_value (S (S fuel)) x sz v s = hash_value (S fuel) x sz w s.
Proof.
  intros Hf Hr. destruct Hf as [v|v u w Hb Ht Hu Hf]; [by left|right].
  assert (fwd x v w) as Hvw by (by eapply fwd_step).
  pose proof (short v w Hb Ht Hvw (block_repr_not_fwd _ _ _ _ Hr)) as Hs.
  cbn [hash_value]. destruct s as [h n q]. rewrite (block_not_long _ Hb), Ht. mred.
  change (Forward_tag =? String_tag) with false. change (Forward_tag =? Double_tag) with false.
  change (Forward_tag =? Double_array_tag) with false. change (Forward_tag =? Abstract_tag) with false.
  change (Forward_tag =? Infix_tag) with false. rewrite Z.eqb_refl, Hs. done.
Qed.

Lemma hash_value_same v1 v2 s1 s2 :
  vsame v1 v2 -> hsame s1 s2 -> both hsame (hash_value 4 x sz v1 s1) (hash_value 4 x sz v2 s2).
Proof.
  intros (t1 & t2 & (w1 & F1 & R1) & (w2 & F2 & R2) & Hs) Hh.
  destruct (hash_through v1 w1 t1 2 s1 F1 R1) as [-> | ->], (hash_through v2 w2 t2 2 s2 F2 R2) as [-> | ->]; by eapply hash_block.
Qed.

Definition bounded (s s' : hstate) : Prop :=
  Z.of_nat (length (h_queue s')) <= Z.max (Z.of_nat (length (h_queue s))) sz.
Lemma hash_value_bounded fuel : forall v s s', hash_value fuel x sz v s = Ret s' -> bounded s s'.
Proof.
  unfold bounded. induction fuel as [|fuel IH]; intros v [h n q] s' E; [done|]. cbn [hash_value] in E.
  destruct (Is_long v); [injection E as <-; simpl; lia|].
  apply bind_Ret_inv in E as (t & _ & E).
  destruct (t =? String_tag). { apply bind_Ret_inv in E as (r & _ & E). injection E as <-. simpl. lia. }
  destruct (t =? Double_tag). { apply bind_Ret_inv in E as (r & _ & E). injection E as <-. simpl. lia. }
  destruct (t =? Double_array_tag).
  { apply bind_Ret_inv in E as (r & _ & E). apply bind_Ret_inv in E as ([h1 n1] & _ & E). injection E as <-. simpl. lia. }
  destruct (t =? Abstract_tag). { injection E as <-. simpl. lia. }
  destruct (t =? Infix_tag). { apply bind_Ret_inv in E as (r & _ & E). apply IH in E. simpl in *. lia. }
  destruct (t =? Forward_tag).
  { apply bind_Ret_inv in E as ([u|] & _ & E); [apply IH in E; simpl in *; lia|injection E as <-; simpl; lia]. }
  destruct (t =? Object_tag). { apply bind_Ret_inv in E as (r & _ & E). injection E as <-. simpl. lia. }
  destruct (t =? Custom_tag).
  { apply bind_Ret_inv in E as (r & _ & E). destruct (negb _); injection E as <-; simpl; lia. }
  destruct (t =? Closure_tag).
  { apply bind_Ret_inv in E as (len & _ & E). apply bind_Ret_inv in E as (info & _ & E).
    apply bind_Ret_inv in E as (hd & _ & E). apply bind_Ret_inv in E as ([h1 n1] & _ & E).
    apply bind_Ret_inv in E as (q' & Eq & E). apply enqueue_length in Eq. injection E as <-. simpl. lia. }
  destruct (t =? Cont_tag). { injection E as <-. simpl. lia. }
  apply bind_Ret_inv in E as (hd & _ & E). apply bind_Ret_inv in E as (len & _ & E).
  apply bind_Ret_inv in E as (q' & Eq & E). apply enqueue_length in Eq. injection E as <-. simpl. lia.
Qed.

Lemma hash_loop_same fuel : forall rd s1 s2,
  hsame s1 s2 -> sz <= HASH_QUEUE_SIZE -> Z.of_nat (length (h_queue s1)) <= HASH_QUEUE_SIZE ->
  HASH_QUEUE_SIZE + 1 - Z.of_nat rd <= Z.of_nat fuel -> (rd <= Z.to_nat HASH_QUEUE_SIZE)%nat ->
  exists r, hash_loop fuel x sz rd s1 = Ret r /\ hash_loop fuel x sz rd s2 = Ret r.
Proof.
  unfold HASH_QUEUE_SIZE. induction fuel as [|fuel IH]; intros rd s1 s2 Hs Hsz Hq Hf Hrd; [lia|]. cbn [hash_loop].
  pose proof Hs as [Eh En Hqs]. rewrite <- En, <- Eh. destruct (0 <? h_num s1); cbn [negb]; [|by eexists].
  destruct (h_queue s1 !! rd) as [v1|] eqn:E1.
  2:{ assert (h_queue s2 !! rd = None) as ->; [|by eexists].
      apply lookup_ge_None. rewrite <- (Forall2_length Hqs). by apply lookup_ge_None. }
  destruct (Forall2_lookup_l _ _ _ _ _ Hqs E1) as (v2 & -> & Hv).
  destruct (hash_value_same v1 v2 s1 s2 Hv Hs) as (a & b & Ea & Eb & Hab). rewrite Ea, Eb. mred.
  pose proof (hash_value_bounded _ _ _ _ Ea) as Hb. unfold bounded in Hb.
  pose proof (lookup_lt_Some _ _ _ E1) as Hlt. apply IH; try done; lia.
Qed.
End Relational.

(** ** Properties *)

Lemma fold_result_range h : 0 <= Long_val (fold_result h) < 2 ^ 30.
Proof.
  unfold fold_result, Val_int. change 0x3FFFFFFF with (Z.ones 30). rewrite Z.land_ones by lia.
  pose proof (Z.mod_pos_bound (FINAL_MIX h) (2 ^ 30) ltac:(lia)).
  rewrite Long_Val_int by (unfold is_int, Min_long, Max_long; lia). done.
Qed.

(** C29: equal values have equal hashes.  Two values that represent trees
    equal for the total comparison (so also NaN and NaN, 0. and -0., two boxed
    [Int32] of one number, whatever the rest of their data words, or a
    value and the same value behind forwarding blocks) get the same hash for
    every count, limit and seed; the traversal always terminates, and the
    hash is an integer between 0 and 2^30 - 1.  The chains of forwarding blocks of the
    heap must be short enough to be followed to their ends, that is within
    [MAX_FORWARD_DEREFERENCE]: the traversal gives up on longer ones. *)
Theorem hash_respects_compare `{CO : CustomOps} `{CH : CustomHash} (boxed_ops : Z -> Prop)
    `{BO : !BoxedOps boxed_ops} `{BH : !BoxedHash boxed_ops}
    (x : heap) (count limit seed v1 v2 : Z) (t1 t2 : tree) :
  short_chains x -> repr boxed_ops x v1 t1 -> repr boxed_ops x v2 t2 -> tree_compare true t1 t2 = Some 0 ->
  exists r, caml_hash x count limit seed v1 = Ret r /\ caml_hash x count limit seed v2 = Ret r /\
    0 <= Long_val r < 2 ^ 30.
Proof.
  intros Hc R1 R2 Ht. unfold caml_hash.
  set (sz := if _ || _ then _ else Long_val limit).
  assert (sz <= HASH_QUEUE_SIZE) as Hsz.
  { unfold sz. destruct (_ || _) eqn:E; [done|]. unfold HASH_QUEUE_SIZE in *. lia. }
  assert (same t1 t2) as Hsame.
  { destruct R1 as (w1 & _ & R1), R2 as (w2 & _ & R2). unfold tree_compare in Ht.
    rewrite <- (app_nil_r (enc t1)), <- (app_nil_r (enc t2)) in Ht.
    eapply compare_zero_same; [done|by eapply repr_wf|by eapply repr_wf|exact Ht]. }
  edestruct (hash_loop_same boxed_ops x Hc sz (S (S (Z.to_nat HASH_QUEUE_SIZE))) 0
    (mkH (u32 (Int_val seed)) (Long_val count) [v1]) (mkH (u32 (Int_val seed)) (Long_val count) [v2])) as (r & -> & ->).
  - split; simpl; [done|done|]. constructor; [by exists t1, t2|done].
  - done.
  - simpl. unfold HASH_QUEUE_SIZE. lia.
  - unfold HASH_QUEUE_SIZE. lia.
  - lia.
  - mred. eexists. split_and!; [done|done|apply fold_result_range..].
Qed.

(** [caml_string_hash] computes what [caml_hash] computes on a string,
    for every limit and every positive count. *)
Theorem string_hash_is_hash `{CH : CustomHash} (x : heap) (count limit seed s : Z) (bs : list Z) :
  Is_block s = true -> string_at x s bs -> 0 < Long_val count ->
  exists r, caml_string_hash x seed s = Ret r /\ caml_hash x count limit seed s = Ret r.
Proof.
  intros Hb Hs Hc. unfold caml_string_hash, caml_hash.
  destruct (mix_string_same x s s bs (u32 (Int_val seed)) Hs Hs) as (r & E & _). rewrite E. mred.
  exists (fold_result r). split; [done|].
  replace (S (S (Z.to_nat HASH_QUEUE_SIZE))) with (S (S (S (Z.to_nat HASH_QUEUE_SIZE - 1)))) by (unfold HASH_QUEUE_SIZE; lia).
  cbn [hash_loop h_num h_queue lookup list_lookup]. rewrite (proj2 (Z.ltb_lt _ _)) by done. cbn [negb hash_value].
  rewrite (block_not_long _ Hb), (sa_tag _ _ _ Hs). mred. rewrite Z.eqb_refl, E. mred.
  cbn [h_num h_hash h_queue]. by destruct (0 <? Long_val count - 1).
Qed.

(** Mixing a native integer.  For every value of 32 bits, the 64-bit
    mixing function is the 32-bit one (the hash of a value does not depend
    on the word size). *)
Theorem mix_intnat_compatible (h d : Z) :
  - 2 ^ 31 <= d < 2 ^ 31 -> caml_hash_mix_intnat h d = caml_hash_mix_uint32 h (u32 d).
Proof.
  intros Hd. unfold caml_hash_mix_intnat, caml_hash_mix_uint32. do 2 f_equal.
  rewrite !Z.shiftr_div_pow2 by lia.
  assert (d / 2 ^ 32 = d / 2 ^ 63) as ->.
  { destruct (Z_lt_le_dec d 0).
    - transitivity (-1); [symmetry|]; [apply (Z.div_unique _ _ _ (d + 2 ^ 32)); lia|].
      apply (Z.div_unique _ _ _ (d + 2 ^ 63)); lia.
    - rewrite !Z.div_small by lia. done. }
  by rewrite Z.lxor_nilpotent, Z.lxor_0_l.
Qed.
Lemma mix_intnat_compatible_witness : caml_hash_mix_intnat 42 (-7) = caml_hash_mix_uint32 42 4294967289.
Proof. exact (mix_intnat_compatible 42 (-7) ltac:(lia)). Defined.

(** The hash of a variant tag as the compiler computes it (typing/btype.ml):
    a polynomial in 223, kept on 31 bits, sign included. *)
Definition variant_spec (tag : list Z) : Z := swrap 31 (foldl (fun accu c => 223 * accu + c) 0 tag).

Lemma hash_variant_loop_spec tag : forall a b,
  eqm 31 (Long_val a) b -> is_word a -> Is_long a = true ->
  exists n, hash_variant_loop tag a = Val_long n /\ eqm 31 n (foldl (fun accu c => 223 * accu + c) b tag).
Proof.
  induction tag as [|c tag IH]; intros a b Hab Hw Hl; cbn [hash_variant_loop foldl].
  { exists (Long_val a). by rewrite Val_Long_val. }
  apply IH; [|apply Val_long_is_word|apply Val_long_Is_long]. unfold Val_int, Int_val. rewrite Long_Val_long.
  rewrite (eqm_narrow 31 63 _ _ ltac:(lia) (eqm_of_swrap 63 _ ltac:(lia))).
  rewrite (eqm_narrow 31 32 _ _ ltac:(lia) (eqm_of_swrap 32 _ ltac:(lia))).
  by rewrite (eqm_narrow 31 32 _ _ ltac:(lia) (eqm_of_swrap 32 (Long_val a) ltac:(lia))), Hab.
Qed.
Lemma swrap_double w n : 0 < w -> swrap (w + 1) (2 * n + 1) = 2 * swrap w n + 1.
Proof.
  intros Hw. symmetry. apply (wrap_inj_signed (w + 1)); [lia|..].
  - pose proof (swrap_range w n Hw). replace (w + 1 - 1) with (w - 1 + 1) by lia. rewrite Z.pow_add_r by lia. lia.
  - pose proof (swrap_range (w + 1) (2 * n + 1) ltac:(lia)). lia.
  - rewrite wrap_swrap by lia. unfold wrap. pose proof (wrap_swrap w n Hw) as E. unfold wrap in E.
    assert (2 ^ (w + 1) = 2 ^ w * 2) as -> by (rewrite Z.pow_add_r by lia; done).
    assert (0 < 2 ^ w) by (apply Z.pow_pos_nonneg; lia).
    pose proof (Z.div_mod (swrap w n) (2 ^ w) ltac:(lia)) as D1. pose proof (Z.div_mod n (2 ^ w) ltac:(lia)) as D2.
    rewrite E in D1. set (r := n mod 2 ^ w) in *. set (q := swrap w n / 2 ^ w) in *. set (q' := n / 2 ^ w) in *.
    replace (2 * swrap w n + 1) with (2 * r + 1 + q * (2 ^ w * 2)) by lia.
    replace (2 * n + 1) with (2 * r + 1 + q' * (2 ^ w * 2)) by lia. by rewrite !Z_mod_plus_full.
Qed.

(** The hash of a variant tag is the polynomial in 223 kept on 31 bits
    with its sign: computing on [int] at each step, masking to 32 bits of
    the tagged word and sign-extending lose nothing of it. *)
Theorem hash_variant_spec (tag : list Z) : caml_hash_variant tag = Val_long (variant_spec tag).
Proof.
  unfold caml_hash_variant, variant_spec.
  destruct (hash_variant_loop_spec tag (Val_int 0) 0) as (n & -> & Hn);
    [done|apply Val_long_is_word|apply Val_long_Is_long|]. rewrite <- Hn.
  rewrite !Val_long_eq. change (2 * swrap 63 0x7FFFFFFF + 1) with (Z.ones 32). rewrite Z.land_ones by lia.
  change (_ mod 2 ^ 32) with (wrap 32 (2 * swrap 63 n + 1)). rewrite swrap_wrap, (swrap_double 31) by lia.
  rewrite swrap_narrow by lia. pose proof (swrap_range 31 n ltac:(lia)). rewrite (swrap_small 63) by lia. done.
Qed.

(** ** Concrete values: two copies of [[1; 2]], one behind a forwarding block *)
Definition ex_forward : heap :=
  mkHeap (list_to_map [(992, 2048); (1000, 3); (1008, 1024); (1016, 2048); (1024, 5); (1032, 1);
                       (1040, 2048); (1048, 3); (1056, 1072); (1064, 2048); (1072, 5); (1080, 1);
                       (1088, 1274); (1096, 1048)])
    3000 2000 2000 3000 64 [] [].
#[local] Existing Instance boxed_customs.
Definition boxed_hashes : CustomHash := {|
  custom_hash p := p;
  call_hash p x v :=
    match Field x v 1 with
    | Ret z => if p =? 8 then int32_hash (mkBoxed "_i" z) else if p =? 16 then int64_hash (mkBoxed "_j" z)
               else nativeint_hash (mkBoxed "_n" z)
    | _ => 0
    end;
|}.
#[export] Instance boxed_hashes_ok : BoxedHash (CO := boxed_customs) (CH := boxed_hashes) int_ops.
Proof.
  split.
  - unfold int_ops. simpl. intros p q [->|[->| ->]] [->|[->| ->]]; done.
  - simpl. intros p x v1 v2 z1 z2 [->|[->| ->]] E1 E2; rewrite E1, E2; cbn [Z.eqb Pos.eqb]; intros E;
      unfold int32_hash, int64_hash, nativeint_hash, Int32_val, Int64_val, Nativeint_val, bx_data;
      (rewrite (E : s32 z1 = s32 z2) || rewrite (E : s64 z1 = s64 z2)); done.
Qed.
Definition forwards (x : heap) : list Z :=
  List.map (fun aw => fst aw + 8) (List.filter (fun aw => Tag_hd (u64 (snd aw)) =? Forward_tag) (map_to_list (words x))).
Lemma forwards_complete x v : Tag_val x v = Ret Forward_tag -> In v (forwards x).
Proof.
  unfold Tag_val, Hd_val, load. destruct (words x !! (v - 8)) as [w|] eqn:E; [|done]. simpl. intros [= Ht].
  apply in_map_iff. exists (v - 8, w). simpl. split; [lia|]. apply filter_In. split; [|simpl; by apply Z.eqb_eq].
  apply list_elem_of_In, elem_of_map_to_list. done.
Qed.
Lemma ex_forward_short : short_chains ex_forward.
Proof.
  intros v w _ Ht Hf Hn. apply forwards_complete in Ht. vm_compute in Ht. destruct Ht as [<-|[]].
  assert (w = 1048) as ->; [|reflexivity].
  eapply (fwd_det ex_forward 1096); [done|done|..].
  - eapply fwd_step; [reflexivity..|apply fwd_refl].
  - intros _. vm_compute. discriminate.
Qed.
Lemma ex_forward_direct : repr int_ops ex_forward 1000 (ex_list 1 2).
Proof. prove_list. Qed.
Lemma ex_forward_behind : repr int_ops ex_forward 1096 (ex_list 1 2).
Proof.
  assert (repr int_ops ex_forward 1048 (ex_list 1 2)) as (w & Hf & Hr) by prove_list.
  exists w. split; [|done]. eapply fwd_step; [reflexivity..|done].
Qed.

Lemma hash_respects_compare_witness :
  exists r, caml_hash (CH := boxed_hashes) ex_forward (Val_long 10) (Val_long 100) (Val_long 0) 1000 = Ret r /\
    caml_hash (CH := boxed_hashes) ex_forward (Val_long 10) (Val_long 100) (Val_long 0) 1096 = Ret r /\
    0 <= Long_val r < 2 ^ 30.
Proof.
  exact (hash_respects_compare (CO := boxed_customs) (CH := boxed_hashes) int_ops ex_forward
    (Val_long 10) (Val_long 100) (Val_long 0) 1000 1096 (ex_list 1 2) (ex_list 1 2)
    ex_forward_short ex_forward_direct ex_forward_behind eq_refl).
Defined.
Lemma string_hash_is_hash_witness :
  exists r, caml_string_hash ex_h (Val_long 0) (ex_s 2) = Ret r /\
    caml_hash (CH := boxed_hashes) ex_h (Val_long 10) (Val_long 100) (Val_long 0) (ex_s 2) = Ret r.
Proof.
  exact (string_hash_is_hash (CH := boxed_hashes) ex_h (Val_long 10) (Val_long 100) (Val_long 0) (ex_s 2) _
    ltac:(vm_compute; reflexivity) ex_at2 ltac:(vm_compute; reflexivity)).
Defined.

End Hash.
Export Hash.
