(* ===== verification/Arrays.v ===== *)
(** * Arrays (runtime/array.c, caml_alloc of runtime/alloc.c)

    Arrays are blocks of values, or flat arrays of doubles (the runtime is
    configured with flat float arrays).  The primitives copy, concatenate and
    fill them; the theorems give their effect as operations on lists, show
    that overlapping copies are right in both directions, and that the
    open-coded write barrier of [caml_array_fill] keeps the invariants of the
    two collectors. *)

From S2P Require Import Prelude Memory Barrier Strings.

Module Arrays.

Section Operations.
Context `{SH : SharedHeap}.
(** [caml_check_pending_actions ()] *)
Variable pending : heap -> bool.

(** Running signal handlers, finalisers or the collector is left to the
    caller of the model. *)
Definition caml_process_pending_actions_with_root (h : heap) (v : Z) : result Z :=
  if pending h then Pending else Ret v.

(** ** Allocation of blocks *)
Definition caml_alloc (h : heap) (wosize tag : Z) : result (Z * heap) :=
  if wosize <=? Max_young_wosize then
    if wosize =? 0 then Ret (Atom h tag, h)
    else
      '(v, h) ← Alloc_small h wosize tag;
      h ← (if tag <? No_scan_tag then store_words h v (replicate (Z.to_nat wosize) Val_unit) else Ret h);
      Ret (v, h)
  else
    '(v, h) ← caml_alloc_shr h wosize tag;
    h ← (if tag <? No_scan_tag then store_words h v (replicate (Z.to_nat wosize) Val_unit) else Ret h);
    v ← caml_check_urgent_gc h v;
    Ret (v, h).
Definition caml_alloc_small (h : heap) (wosize tag : Z) : result (Z * heap) := Alloc_small h wosize tag.
Definition caml_alloc_tuple (h : heap) (n : Z) : result (Z * heap) := caml_alloc h n 0.
Definition caml_alloc_float_array (h : heap) (len : Z) : result (Z * heap) :=
  let wosize := u64 (len * Double_wosize) in
  if wosize <=? Max_young_wosize then
    if wosize =? 0 then Ret (Atom h 0, h) else Alloc_small h wosize Double_array_tag
  else
    '(v, h) ← caml_alloc_shr h wosize Double_array_tag;
    v ← caml_check_urgent_gc h v;
    Ret (v, h).

(** ** Access *)
Definition caml_array_length (h : heap) (array : Z) : result Z :=
  t ← Tag_val h array;
  n ← Wosize_val h array;
  Ret (if t =? Double_array_tag then n / Double_wosize else n).
Definition caml_is_double_array (h : heap) (array : Z) : result bool :=
  t ← Tag_val h array; Ret (t =? Double_array_tag).

(** [idx < 0 || idx >= n] *)
Definition check_index (idx n : Z) : result unit := raise_if ((idx <? 0) || (n <=? idx)) array_bound_error.
Definition box_double (h : heap) (d : Z) : result (Z * heap) :=
  '(res, h) ← Alloc_small h Double_wosize Double_tag;
  h ← Store_double_val h res d;
  Ret (res, h).

Definition caml_array_get_addr (h : heap) (array index : Z) : result (Z * heap) :=
  let idx := Long_val index in
  n ← Wosize_val h array;
  check_index idx n;;
  w ← Field h array idx; Ret (w, h).
Definition caml_floatarray_get (h : heap) (array index : Z) : result (Z * heap) :=
  let idx := Long_val index in
  n ← Wosize_val h array;
  check_index idx (n / Double_wosize);;
  d ← Double_flat_field h array idx;
  box_double h d.
Definition caml_array_get (h : heap) (array index : Z) : result (Z * heap) :=
  t ← Tag_val h array;
  if t =? Double_array_tag then caml_floatarray_get h array index else caml_array_get_addr h array index.

Definition caml_array_set_addr (h : heap) (array index newval : Z) : result heap :=
  let idx := Long_val index in
  n ← Wosize_val h array;
  check_index idx n;;
  caml_modify h (array + 8 * idx) newval.
Definition caml_floatarray_set (h : heap) (array index newval : Z) : result heap :=
  let idx := Long_val index in
  d ← Double_val h newval;
  n ← Wosize_val h array;
  check_index idx (n / Double_wosize);;
  Store_double_flat_field h array idx d.
Definition caml_array_set (h : heap) (array index newval : Z) : result heap :=
  t ← Tag_val h array;
  if t =? Double_array_tag then caml_floatarray_set h array index newval
  else caml_array_set_addr h array index newval.

Definition caml_floatarray_unsafe_get (h : heap) (array index : Z) : result (Z * heap) :=
  d ← Double_flat_field h array (Long_val index); box_double h d.
Definition caml_array_unsafe_get (h : heap) (array index : Z) : result (Z * heap) :=
  t ← Tag_val h array;
  if t =? Double_array_tag then caml_floatarray_unsafe_get h array index
  else w ← Field h array (Long_val index); Ret (w, h).
Definition caml_array_unsafe_set_addr (h : heap) (array index newval : Z) : result heap :=
  caml_modify h (array + 8 * Long_val index) newval.
Definition caml_floatarray_unsafe_set (h : heap) (array index newval : Z) : result heap :=
  d ← Double_val h newval; Store_double_flat_field h array (Long_val index) d.
Definition caml_array_unsafe_set (h : heap) (array index newval : Z) : result heap :=
  t ← Tag_val h array;
  if t =? Double_array_tag then caml_floatarray_unsafe_set h array index newval
  else caml_array_unsafe_set_addr h array index newval.

(** ** Creation *)
Definition caml_floatarray_create (h : heap) (len : Z) : result (Z * heap) :=
  let wosize := u64 (Long_val len * Double_wosize) in
  if wosize <=? Max_young_wosize then
    if wosize =? 0 then Ret (Atom h 0, h)
    else
      '(v, h) ← Alloc_small h wosize Double_array_tag;
      v ← caml_process_pending_actions_with_root h v; Ret (v, h)
  else
    raise_if (Max_wosize <? wosize) (Invalid_argument "Float.Array.create");;
    '(v, h) ← caml_alloc_shr h wosize Double_array_tag;
    v ← caml_process_pending_actions_with_root h v; Ret (v, h).
Definition caml_make_float_vect (h : heap) (len : Z) : result (Z * heap) := caml_floatarray_create h len.

(** [for (i = 0; i < n; i++) Store_double_flat_field(v, i, d)] *)
Fixpoint fill_doubles (n : nat) (h : heap) (v i d : Z) : result heap :=
  match n with
  | O => Ret h
  | S n => h ← Store_double_flat_field h v i d; fill_doubles n h v (i + 1) d
  end.

(** [Is_block(v) && Tag_val(v) == Double_tag] *)
Definition is_boxed_double (h : heap) (v : Z) : result bool :=
  if Is_block v then t ← Tag_val h v; Ret (t =? Double_tag) else Ret false.

(** A large array initialised with a minor block waits for a minor
    collection to move the block. *)
Definition caml_make_vect (h : heap) (len init : Z) : result (Z * heap) :=
  let size := u64 (Long_val len) in
  '(res, h) ←
    (if size =? 0 then Ret (Atom h 0, h) else
     isfloat ← is_boxed_double h init;
     if (isfloat : bool) then
       d ← Double_val h init;
       let wsize := u64 (size * Double_wosize) in
       raise_if (Max_wosize <? wsize) (Invalid_argument "Array.make");;
       '(res, h) ← caml_alloc h wsize Double_array_tag;
       h ← fill_doubles (Z.to_nat size) h res 0 d;
       Ret (res, h)
     else if size <=? Max_young_wosize then
       '(res, h) ← caml_alloc_small h size 0;
       h ← store_words h res (replicate (Z.to_nat size) init);
       Ret (res, h)
     else
       raise_if (Max_wosize <? size) (Invalid_argument "Array.make");;
       if Is_block init && Is_young h init then Pending else
       '(res, h) ← caml_alloc_shr h size 0;
       h ← store_words h res (replicate (Z.to_nat size) init);
       Ret (res, h));
  res ← caml_process_pending_actions_with_root h res;
  Ret (res, h).

Fixpoint unbox_doubles (n : nat) (h : heap) (init res i : Z) : result heap :=
  match n with
  | O => Ret h
  | S n =>
      v ← Field h init i;
      d ← Double_val h v;
      h ← Store_double_flat_field h res i d;
      unbox_doubles n h init res (i + 1)
  end.
Definition caml_make_array (h : heap) (init : Z) : result (Z * heap) :=
  size ← Wosize_val h init;
  if size =? 0 then Ret (init, h) else
  v ← Field h init 0;
  isfloat ← is_boxed_double h v;
  if negb isfloat then Ret (init, h) else
  let wsize := u64 (size * Double_wosize) in
  '(res, h) ← (if wsize <=? Max_young_wosize then caml_alloc_small h wsize Double_array_tag
               else caml_alloc_shr h wsize Double_array_tag);
  h ← unbox_doubles (Z.to_nat size) h init res 0;
  res ← caml_process_pending_actions_with_root h res;
  Ret (res, h).

(** ** Blitting *)

(** [memmove] and [memcpy] of [n] words: all reads, then all writes. *)
Definition memmove_words (h : heap) (dst src : Z) (n : nat) : result heap :=
  l ← load_words h src n; store_words h dst l.

(** The copying loops, one word at a time: upwards and downwards.  [wr] is
    the assignment: a store, [caml_modify] or [caml_initialize]. *)
Fixpoint copy_up (wr : heap -> Z -> Z -> result heap) (n : nat) (h : heap) (dst src : Z) : result heap :=
  match n with
  | O => Ret h
  | S n => w ← load h src; h ← wr h dst w; copy_up wr n h (dst + 8) (src + 8)
  end.
Fixpoint copy_down (wr : heap -> Z -> Z -> result heap) (n : nat) (h : heap) (dst src : Z) : result heap :=
  match n with
  | O => Ret h
  | S n =>
      w ← load h (src + 8 * Z.of_nat n);
      h ← wr h (dst + 8 * Z.of_nat n) w;
      copy_down wr n h dst src
  end.

(** [alone]: [caml_domain_alone ()]. *)
Definition wo_memmove (alone : bool) (h : heap) (dst src nvals : Z) : result heap :=
  if alone then memmove_words h dst src (Z.to_nat nvals)
  else if dst <? src then copy_up store (Z.to_nat nvals) h dst src
  else copy_down store (Z.to_nat nvals) h dst src.

Definition caml_floatarray_blit (h : heap) (a1 ofs1 a2 ofs2 n : Z) : result heap :=
  memmove_words h (a2 + 8 * Long_val ofs2) (a1 + 8 * Long_val ofs1) (Z.to_nat (Long_val n)).
Definition caml_array_blit (alone : bool) (h : heap) (a1 ofs1 a2 ofs2 n : Z) : result heap :=
  t ← Tag_val h a2;
  if t =? Double_array_tag then caml_floatarray_blit h a1 ofs1 a2 ofs2 n
  else if Is_young h a2 then
    wo_memmove alone h (a2 + 8 * Long_val ofs2) (a1 + 8 * Long_val ofs1) (Long_val n)
  else
    let count := Z.to_nat (Long_val n) in
    h ← (if (a1 =? a2) && (Long_val ofs1 <? Long_val ofs2)
         then copy_down caml_modify count h (a2 + 8 * Long_val ofs2) (a1 + 8 * Long_val ofs1)
         else copy_up caml_modify count h (a2 + 8 * Long_val ofs2) (a1 + 8 * Long_val ofs1));
    caml_check_urgent_gc h Val_unit;;
    Ret h.

(** ** Extraction and concatenation *)
Definition mlsize_t_max : Z := 2 ^ 64 - 1.

(** An array, an offset in it and a number of elements. *)
Record piece := mkPiece { p_array : Z; p_offset : Z; p_length : Z }.

Fixpoint total_size (h : heap) (l : list piece) (size : Z) (isfloat : bool) : result (Z * bool) :=
  match l with
  | [] => Ret (size, isfloat)
  | p :: l =>
      raise_if (u64 (mlsize_t_max - p_length p) <? size) (Invalid_argument "Array.concat");;
      t ← Tag_val h (p_array p);
      total_size h l (u64 (size + p_length p)) (if t =? Double_array_tag then true else isfloat)
  end.
(** The loop over the arrays; [cp] copies the elements of one of them. *)
Fixpoint gather_pieces (cp : heap -> Z -> Z -> nat -> result heap) (h : heap) (res pos : Z) (l : list piece) :
    result heap :=
  match l with
  | [] => Ret h
  | p :: l =>
      h ← cp h (res + 8 * pos) (p_array p + 8 * p_offset p) (Z.to_nat (p_length p));
      gather_pieces cp h res (pos + p_length p) l
  end.
Definition copy_pieces : heap -> Z -> Z -> list piece -> result heap := gather_pieces memmove_words.
Definition initialize_pieces : heap -> Z -> Z -> list piece -> result heap :=
  gather_pieces (fun h dst src n => copy_up caml_initialize n h dst src).
Definition caml_array_gather (h : heap) (l : list piece) : result (Z * heap) :=
  '(size, isfloat) ← total_size h l 0 false;
  if size =? 0 then Ret (Atom h 0, h)
  else if (isfloat : bool) then
    raise_if (Max_wosize / Double_wosize <? size) (Invalid_argument "Array.concat");;
    let wsize := u64 (size * Double_wosize) in
    '(res, h) ← caml_alloc h wsize Double_array_tag;
    h ← copy_pieces h res 0 l;
    Ret (res, h)
  else if size <=? Max_young_wosize then
    '(res, h) ← caml_alloc_small h size 0;
    h ← copy_pieces h res 0 l;
    Ret (res, h)
  else
    raise_if (Max_wosize <? size) (Invalid_argument "Array.concat");;
    '(res, h) ← caml_alloc_shr h size 0;
    h ← initialize_pieces h res 0 l;
    res ← caml_process_pending_actions_with_root h res;
    Ret (res, h).

Definition caml_array_sub (h : heap) (a ofs len : Z) : result (Z * heap) :=
  caml_array_gather h [mkPiece a (Long_val ofs) (Long_val len)].
Definition caml_array_append (h : heap) (a1 a2 : Z) : result (Z * heap) :=
  n1 ← caml_array_length h a1;
  n2 ← caml_array_length h a2;
  caml_array_gather h [mkPiece a1 0 n1; mkPiece a2 0 n2].

(** The list is traversed twice, to count the arrays and to collect them;
    [stat_alloc n] tells whether memory for [n] arrays can be allocated
    outside the heap.  [fuel] bounds the length of the list. *)
Definition STATIC_SIZE : Z := 16.
Variable stat_alloc : Z -> bool.
Fixpoint list_pieces (fuel : nat) (h : heap) (l : Z) : result (list piece) :=
  match fuel with
  | O => NoFuel
  | S fuel =>
      if l =? Val_emptylist then Ret [] else
      a ← Field h l 0;
      n ← caml_array_length h a;
      tl ← Field h l 1;
      ps ← list_pieces fuel h tl;
      Ret (mkPiece a 0 n :: ps)
  end.
Definition caml_array_concat (fuel : nat) (h : heap) (al : Z) : result (Z * heap) :=
  ps ← list_pieces fuel h al;
  let n := Z.of_nat (length ps) in
  if (STATIC_SIZE <? n) && negb (stat_alloc n) then Raise Out_of_memory else
  caml_array_gather h ps.

(** ** Filling: [caml_modify], open-coded *)
Fixpoint fill_young (n : nat) (h : heap) (fp val : Z) : result heap :=
  match n with
  | O => Ret h
  | S n => h ← store h fp val; fill_young n h (fp + 8) val
  end.
Definition fill_one (h : heap) (fp val : Z) (is_val_young_block : bool) : result heap :=
  old ← load h fp;
  if old =? val then Ret h else
  h ← store h fp val;
  if Is_block old && Is_young h old then Ret h else
  let h := if Is_block old then caml_darken h old else h in
  Ret (if is_val_young_block then Ref_table_add h fp else h).
Fixpoint fill_old (n : nat) (h : heap) (fp val : Z) (is_val_young_block : bool) : result heap :=
  match n with
  | O => Ret h
  | S n => h ← fill_one h fp val is_val_young_block; fill_old n h (fp + 8) val is_val_young_block
  end.
Definition caml_array_fill (h : heap) (array v_ofs v_len val : Z) : result heap :=
  let ofs := Long_val v_ofs in
  let len := Long_val v_len in
  t ← Tag_val h array;
  if t =? Double_array_tag then
    d ← Double_val h val; fill_doubles (Z.to_nat len) h array ofs d
  else if Is_young h array then fill_young (Z.to_nat len) h (array + 8 * ofs) val
  else
    let is_val_young_block := Is_block val && Is_young h val in
    h ← fill_old (Z.to_nat len) h (array + 8 * ofs) val is_val_young_block;
    (if is_val_young_block then caml_check_urgent_gc h Val_unit;; Ret h else Ret h).
End Operations.

(** ** Copying loops *)

(** What a store may change: the word, and the tables of the collectors. *)
Definition same_alloc (h h' : heap) : Prop :=
  young_ptr h' = young_ptr h /\ young_limit h' = young_limit h /\ same_regions h h' /\ atoms h' = atoms h.
#[export] Instance same_alloc_preorder : PreOrder same_alloc.
Proof.
  split; [done|]. intros h1 h2 h3 (? & ? & ? & ?) (? & ? & ? & ?). unfold same_alloc.
  split_and!; try congruence. by etrans.
Qed.
(** Only words change. *)
Definition same_tables (h h' : heap) : Prop := h' = set_words (words h') h.
#[export] Instance same_tables_preorder : PreOrder same_tables.
Proof.
  split; unfold same_tables; [by intros []|]. intros h1 h2 h3 E1 E2. rewrite E2. rewrite E1. done.
Qed.

(** An assignment to a mapped word, with [R] the rest of the state. *)
Class Writer (wr : heap -> Z -> Z -> result heap) (R : heap -> heap -> Prop) : Prop := {
  writer_preorder :: PreOrder R;
  writer_ok : forall h a w x, load h a = Ret x ->
    exists h', wr h a w = Ret h' /\ words h' = <[a := w]> (words h) /\ R h h';
}.
#[export] Instance store_writer : Writer store same_tables.
Proof.
  split; [apply _|]. intros h a w x E. rewrite (store_Ret _ _ _ _ E). eexists. split; [done|]. by destruct h.
Qed.
Lemma write_barrier_alloc h obj i old new : same_alloc h (write_barrier h obj i old new).
Proof.
  unfold write_barrier. destruct (Is_young h obj), (Is_block old && Is_young h old); try done.
  by destruct (Is_block old), (Is_block_and_young _ new).
Qed.
#[export] Instance modify_writer : Writer caml_modify same_alloc.
Proof.
  split; [apply _|]. intros h a w x E. unfold caml_modify. rewrite E. simpl.
  destruct (write_barrier_facts h a 0 x w) as (Ew & _). pose proof (write_barrier_alloc h a 0 x w) as Ha.
  assert (load (write_barrier h a 0 x w) a = Ret x) as E' by (unfold load in *; by rewrite Ew).
  rewrite (store_Ret _ _ _ _ E'). eexists. split; [done|]. simpl. by rewrite Ew.
Qed.
#[export] Instance initialize_writer : Writer caml_initialize same_alloc.
Proof.
  split; [apply _|]. intros h a w x E. unfold caml_initialize. rewrite (store_Ret _ _ _ _ E). simpl.
  eexists. split; [done|]. by destruct (_ && _).
Qed.

Definition mapped (h : heap) (a : Z) (n : nat) : Prop := forall i, 0 <= i < Z.of_nat n -> exists x, load h (a + 8 * i) = Ret x.

Lemma load_insert h h' a w b : words h' = <[a := w]> (words h) -> a <> b -> load h' b = load h b.
Proof. intros E Hne. unfold load. by rewrite E, lookup_insert_ne. Qed.
Lemma mapped_insert h h' a w b n : words h' = <[a := w]> (words h) -> mapped h b n -> mapped h' b n.
Proof.
  intros E Hm i Hi. unfold load. rewrite E. destruct (decide (a = b + 8 * i)) as [->|Hne].
  - rewrite lookup_insert_eq. by eexists.
  - rewrite lookup_insert_ne by done. by apply Hm.
Qed.

Lemma load_words_spec h : forall n a l, load_words h a n = Ret l <->
  length l = n /\ forall i w, l !! i = Some w -> load h (a + 8 * Z.of_nat i) = Ret w.
Proof.
  induction n as [|n IH]; intros a l; simpl.
  { split; [intros [= <-]; done|]. intros [Hl _]. by destruct l. }
  split.
  - intros E. apply bind_Ret_inv in E as (w & Ew & E). apply bind_Ret_inv in E as (l' & El & [= <-]).
    apply IH in El as [Hl Hf]. split; [simpl; lia|]. intros [|i] w' Hi; simpl in Hi.
    + injection Hi as <-. by replace (a + 8 * Z.of_nat 0) with a by lia.
    + rewrite <- (Hf i w' Hi). f_equal. lia.
  - intros [Hl Hf]. destruct l as [|w l]; [done|]. pose proof (Hf 0%nat w eq_refl) as E0. simpl in E0.
    rewrite Z.add_0_r in E0. rewrite E0. mred. rewrite (proj2 (IH (a + 8) l)); [done|].
    split; [simpl in Hl; lia|]. intros i w' Hi. rewrite <- (Hf (S i) w' Hi). f_equal. lia.
Qed.
Lemma load_words_snoc h n a l : load_words h a (S n) = Ret l ->
  exists l' w, l = l' ++ [w] /\ load_words h a n = Ret l' /\ load h (a + 8 * Z.of_nat n) = Ret w.
Proof.
  intros [Hl Hf]%load_words_spec. destruct l as [|w l _] using rev_ind; [done|].
  rewrite length_app in Hl. simpl in Hl. exists l, w. split_and!; [done|..].
  - apply load_words_spec. split; [lia|]. intros i x Hi. apply Hf. by apply lookup_app_l_Some.
  - replace n with (length l) by lia. apply Hf. by apply list_lookup_middle.
Qed.
Lemma write_words_app a l1 l2 m :
  write_words a (l1 ++ l2) m = write_words a l1 (write_words (a + 8 * Z.of_nat (length l1)) l2 m).
Proof.
  revert a. induction l1 as [|x l1 IH]; intros a; simpl; [by rewrite Z.add_0_r|].
  rewrite IH. do 3 f_equal. lia.
Qed.

Section Copies.
Context (wr : heap -> Z -> Z -> result heap) (R : heap -> heap -> Prop) `{W : !Writer wr R}.

(** Upwards, no source word may be overwritten before it is read. *)
Lemma copy_up_spec : forall n h dst src l,
  load_words h src n = Ret l -> mapped h dst n ->
  (forall i j, 0 <= i < j -> j < Z.of_nat n -> dst + 8 * i <> src + 8 * j) ->
  exists h', copy_up wr n h dst src = Ret h' /\ words h' = write_words dst l (words h) /\ R h h'.
Proof.
  induction n as [|n IH]; intros h dst src l Hl Hm Hne; simpl in Hl |- *.
  { injection Hl as <-. exists h. by split_and!; try reflexivity. }
  apply bind_Ret_inv in Hl as (w & Ew & Hl). apply bind_Ret_inv in Hl as (l' & El & [= <-]).
  destruct (Hm 0) as [x Hx]; [lia|]. rewrite Z.mul_0_r, Z.add_0_r in Hx.
  destruct (writer_ok h dst w x Hx) as (h1 & E1 & W1 & R1). rewrite Ew. mred. rewrite E1. mred.
  destruct (IH h1 (dst + 8) (src + 8) l') as (h' & E' & W' & R').
  - apply load_words_spec in El as [Hlen Hf]. apply load_words_spec. split; [done|]. intros i y Hi.
    rewrite <- (Hf i y Hi). apply (load_insert _ _ dst w); [done|].
    pose proof (lookup_lt_Some _ _ _ Hi). specialize (Hne 0 (Z.of_nat i + 1)). lia.
  - eapply mapped_insert; [done|]. intros i Hi. destruct (Hm (i + 1)) as [y Hy]; [lia|]. exists y. rewrite <- Hy. f_equal. lia.
  - intros i j Hi Hj. specialize (Hne (i + 1) (j + 1)). lia.
  - exists h'. split_and!; [done| |by etrans]. rewrite W', W1. simpl. apply write_words_insert. lia.
Qed.
Lemma copy_down_spec : forall n h dst src l,
  load_words h src n = Ret l -> mapped h dst n ->
  (forall i j, 0 <= i < j -> j < Z.of_nat n -> dst + 8 * j <> src + 8 * i) ->
  exists h', copy_down wr n h dst src = Ret h' /\ words h' = write_words dst l (words h) /\ R h h'.
Proof.
  induction n as [|n IH]; intros h dst src l Hl Hm Hne.
  { injection Hl as <-. exists h. by split_and!; try reflexivity. }
  apply load_words_snoc in Hl as (l' & w & -> & El & Ew). cbn [copy_down]. rewrite Ew. mred.
  destruct (Hm (Z.of_nat n)) as [x Hx]; [lia|].
  destruct (writer_ok h _ w x Hx) as (h1 & E1 & W1 & R1). rewrite E1. mred.
  apply load_words_spec in El as [Hlen Hf].
  destruct (IH h1 dst src l') as (h' & E' & W' & R').
  - apply load_words_spec. split; [done|]. intros i y Hi. rewrite <- (Hf i y Hi). eapply load_insert; [done|].
    pose proof (lookup_lt_Some _ _ _ Hi). apply Hne; lia.
  - eapply mapped_insert; [done|]. intros i Hi. apply Hm. lia.
  - intros i j Hi Hj. apply Hne; lia.
  - exists h'. split_and!; [done| |by etrans]. rewrite W', W1, write_words_app, Hlen. done.
Qed.
End Copies.

Lemma memmove_spec h dst src n l :
  load_words h src n = Ret l -> mapped h dst n ->
  memmove_words h dst src n = Ret (set_words (write_words dst l (words h)) h).
Proof.
  intros Hl Hm. unfold memmove_words. rewrite Hl. mred.
  apply load_words_spec in Hl as [Hlen _]. destruct (store_words_Ret h dst l) as (m & -> & ->); [|done].
  rewrite Hlen. exact Hm.
Qed.

(** Both implementations of [wo_memmove] have the effect of [memmove]. *)
Lemma wo_memmove_spec alone h dst src n l :
  load_words h src (Z.to_nat n) = Ret l -> mapped h dst (Z.to_nat n) ->
  wo_memmove alone h dst src n = Ret (set_words (write_words dst l (words h)) h).
Proof.
  intros Hl Hm. unfold wo_memmove. destruct alone; [by apply memmove_spec|].
  assert (forall h', words h' = write_words dst l (words h) -> same_tables h h' ->
    h' = set_words (write_words dst l (words h)) h) as Heq by (by intros h' <-).
  destruct (Z.ltb_spec dst src).
  - edestruct (copy_up_spec store same_tables) as (h' & -> & Hw & Ht); [done..|lia|]. f_equal. by apply Heq.
  - edestruct (copy_down_spec store same_tables) as (h' & -> & Hw & Ht); [done..|lia|]. f_equal. by apply Heq.
Qed.

(** ** Blocks as lists *)

(** Two blocks, headers included, that do not overlap. *)
Definition apart (a1 n1 a2 n2 : Z) : Prop := a1 + 8 * n1 <= a2 - 8 \/ a2 + 8 * n2 <= a1 - 8.
Notation zlength l := (Z.of_nat (length l)).

Lemma block_load h v t l i : block_at h v t l -> 0 <= i < zlength l -> exists w, l !! Z.to_nat i = Some w /\ load h (v + 8 * i) = Ret w.
Proof.
  intros [_ _ Hf] Hi. destruct (lookup_lt_is_Some_2 l (Z.to_nat i)) as [w Hw]; [lia|]. exists w. split; [done|].
  rewrite <- (Hf _ _ Hw). unfold Field. f_equal. lia.
Qed.
Lemma block_mapped h v t l ofs n :
  block_at h v t l -> 0 <= ofs -> ofs + Z.of_nat n <= zlength l -> mapped h (v + 8 * ofs) n.
Proof.
  intros Hb Ho Hn i Hi. destruct (block_load _ _ _ _ (ofs + i) Hb) as (w & _ & Hw); [lia|].
  exists w. rewrite <- Hw. f_equal. lia.
Qed.
Lemma block_words h v t l ofs n :
  block_at h v t l -> 0 <= ofs -> ofs + Z.of_nat n <= zlength l ->
  load_words h (v + 8 * ofs) n = Ret (take n (drop (Z.to_nat ofs) l)).
Proof.
  intros Hb Ho Hn. apply load_words_spec. rewrite length_take, length_drop. split; [lia|]. intros i w Hi.
  apply lookup_take_Some in Hi as [Hi Hlt]. rewrite lookup_drop in Hi.
  destruct (block_load _ _ _ _ (ofs + Z.of_nat i) Hb) as (w' & Hw' & Hl); [lia|].
  replace (Z.to_nat (ofs + Z.of_nat i)) with (Z.to_nat ofs + i)%nat in Hw' by lia. simplify_eq.
  rewrite <- Hl. f_equal. lia.
Qed.
Lemma write_words_outside h h' a k b :
  words h' = write_words a k (words h) -> (forall i, 0 <= i < zlength k -> b <> a + 8 * i) -> load h' b = load h b.
Proof. intros E Hb. unfold load. by rewrite E, lookup_write_words_ne. Qed.

Lemma block_write h h' v t l ofs k :
  block_at h v t l -> words h' = write_words (v + 8 * ofs) k (words h) -> 0 <= ofs -> ofs + zlength k <= zlength l ->
  block_at h' v t (list_inserts (Z.to_nat ofs) k l).
Proof.
  intros Hb E Ho Hn. pose proof Hb as [Ht Hs Hf].
  assert (load h' (v - 8) = load h (v - 8)) as Hh by (eapply write_words_outside; [done|lia]).
  split.
  - rewrite <- Ht. unfold Tag_val, Hd_val. by rewrite Hh.
  - rewrite length_inserts, <- Hs. unfold Wosize_val, Hd_val. by rewrite Hh.
  - intros i w Hi. pose proof (lookup_lt_Some _ _ _ Hi) as Hlt. rewrite length_inserts in Hlt. unfold Field, load. rewrite E.
    destruct (decide (Z.to_nat ofs <= i < Z.to_nat ofs + length k)%nat) as [Hin|Hout].
    + rewrite list_lookup_inserts in Hi by lia.
      replace (v + 8 * Z.of_nat i) with (v + 8 * ofs + 8 * Z.of_nat (i - Z.to_nat ofs)) by lia.
      by rewrite (lookup_write_words _ _ _ _ _ Hi).
    + assert (l !! i = Some w) as Hi'.
      { destruct (decide (i < Z.to_nat ofs)%nat); [by rewrite list_lookup_inserts_lt in Hi|].
        by rewrite list_lookup_inserts_ge in Hi by lia. }
      rewrite lookup_write_words_ne by lia. exact (Hf _ _ Hi').
Qed.
Lemma block_elsewhere h h' v (l : list Z) ofs k b t' l' :
  block_at h b t' l' -> apart b (zlength l') v (zlength l) -> words h' = write_words (v + 8 * ofs) k (words h) ->
  0 <= ofs -> ofs + zlength k <= zlength l -> block_at h' b t' l'.
Proof.
  intros [Ht Hs Hf] Ha E Ho Hn. unfold apart in Ha.
  assert (forall i, -1 <= i < zlength l' -> load h' (b + 8 * i) = load h (b + 8 * i)) as Hl.
  { intros i Hi. eapply write_words_outside; [done|lia]. }
  assert (load h' (b - 8) = load h (b - 8)) as Hh by (apply (Hl (-1)); lia).
  split.
  - rewrite <- Ht. unfold Tag_val, Hd_val. by rewrite Hh.
  - rewrite <- Hs. unfold Wosize_val, Hd_val. by rewrite Hh.
  - intros i w Hi. pose proof (lookup_lt_Some _ _ _ Hi). rewrite <- (Hf i w Hi). apply Hl. lia.
Qed.

(** The effect of an update of [k] at index [ofs] of the array [v]: the
    array is updated, every other block is unchanged. *)
Record updated (h h' : heap) (v t : Z) (l : list Z) (ofs : Z) (k : list Z) : Prop := {
  up_array : block_at h' v t (list_inserts (Z.to_nat ofs) k l);
  up_others : forall b t' l', block_at h b t' l' -> apart b (zlength l') v (zlength l) -> block_at h' b t' l';
}.
Lemma updated_intro h h' v t l ofs k :
  block_at h v t l -> words h' = write_words (v + 8 * ofs) k (words h) -> 0 <= ofs -> ofs + zlength k <= zlength l ->
  updated h h' v t l ofs k.
Proof. intros. split; [by apply (block_write h)|]. intros. by eapply block_elsewhere. Qed.

Lemma same_alloc_interrupt h h' : same_alloc h h' -> caml_check_gc_interrupt h' = caml_check_gc_interrupt h.
Proof. intros (E1 & E2 & _). unfold caml_check_gc_interrupt. by rewrite E1, E2. Qed.

Lemma blit_words alone h a1 t1 l1 a2 t2 l2 ofs1 ofs2 n :
  block_at h a1 t1 l1 -> block_at h a2 t2 l2 -> a1 = a2 \/ apart a1 (zlength l1) a2 (zlength l2) ->
  caml_check_gc_interrupt h = false -> 0 <= Long_val n ->
  0 <= Long_val ofs1 -> Long_val ofs1 + Long_val n <= zlength l1 ->
  0 <= Long_val ofs2 -> Long_val ofs2 + Long_val n <= zlength l2 ->
  exists h', caml_array_blit alone h a1 ofs1 a2 ofs2 n = Ret h' /\
    words h' = write_words (a2 + 8 * Long_val ofs2)
                 (take (Z.to_nat (Long_val n)) (drop (Z.to_nat (Long_val ofs1)) l1)) (words h).
Proof.
  intros B1 B2 Ha Hi Hn Ho1 Hl1 Ho2 Hl2.
  pose proof (block_words h a1 t1 l1 (Long_val ofs1) (Z.to_nat (Long_val n)) B1 Ho1 ltac:(lia)) as Hl.
  pose proof (block_mapped h a2 t2 l2 (Long_val ofs2) (Z.to_nat (Long_val n)) B2 Ho2 ltac:(lia)) as Hm.
  unfold caml_array_blit, caml_floatarray_blit. rewrite (ba_tag _ _ _ _ B2). mred.
  destruct (t2 =? Double_array_tag); [rewrite (memmove_spec _ _ _ _ _ Hl Hm); by eexists|].
  destruct (Is_young h a2); [rewrite (wo_memmove_spec _ _ _ _ _ _ Hl Hm); by eexists|].
  unfold apart in Ha. destruct ((a1 =? a2) && (Long_val ofs1 <? Long_val ofs2)) eqn:E.
  - edestruct (copy_down_spec caml_modify same_alloc) as (h' & -> & Hw & Hs); [done..|lia|]. mred.
    unfold caml_check_urgent_gc. rewrite (same_alloc_interrupt _ _ Hs), Hi. by eexists.
  - edestruct (copy_up_spec caml_modify same_alloc) as (h' & -> & Hw & Hs); [done..|lia|]. mred.
    unfold caml_check_urgent_gc. rewrite (same_alloc_interrupt _ _ Hs), Hi. by eexists.
Qed.

(** ** Filling *)
Lemma fill_young_words n : forall h fp val, fill_young n h fp val = store_words h fp (replicate n val).
Proof. induction n as [|n IH]; intros h fp val; simpl; [done|]. destruct (store h fp val); try done. apply IH. Qed.
Lemma fill_doubles_words n : forall h v i d, fill_doubles n h v i d = store_words h (v + 8 * i) (replicate n (s64 d)).
Proof.
  induction n as [|n IH]; intros h v i d; simpl; [done|]. unfold Store_double_flat_field, Store_double_val.
  destruct (store h _ _); try done. simpl. rewrite IH. f_equal. lia.
Qed.
Lemma store_replicate h a n w : mapped h a n ->
  store_words h a (replicate n w) = Ret (set_words (write_words a (replicate n w) (words h)) h).
Proof. intros Hm. destruct (store_words_Ret h a (replicate n w)) as (m & -> & ->); [|done]. by rewrite length_replicate. Qed.
Lemma fill_one_writes h fp val b x : load h fp = Ret x ->
  exists h', fill_one h fp val b = Ret h' /\ words h' = <[fp := val]> (words h) /\ same_alloc h h'.
Proof.
  intros E. unfold fill_one. rewrite E. mred. destruct (Z.eqb_spec x val) as [->|Hne].
  { exists h. split_and!; [done| |done]. symmetry. apply insert_id. by apply load_lookup. }
  rewrite (store_Ret _ _ _ _ E). mred.
  destruct (Is_block x && _); [by eexists|]. destruct (Is_block x), b; by eexists.
Qed.
Lemma fill_old_words n : forall h fp val b, mapped h fp n ->
  exists h', fill_old n h fp val b = Ret h' /\ words h' = write_words fp (replicate n val) (words h) /\ same_alloc h h'.
Proof.
  induction n as [|n IH]; intros h fp val b Hm; simpl; [by eexists|].
  destruct (Hm 0) as [x Hx]; [lia|]. rewrite Z.mul_0_r, Z.add_0_r in Hx.
  destruct (fill_one_writes h fp val b x Hx) as (h1 & -> & W1 & S1). mred.
  destruct (IH h1 (fp + 8) val b) as (h' & -> & W' & S').
  { eapply mapped_insert; [done|]. intros i Hi. destruct (Hm (i + 1)) as [y Hy]; [lia|]. exists y. rewrite <- Hy. f_equal. lia. }
  exists h'. split_and!; [done| |by etrans]. rewrite W', W1. apply write_words_insert. rewrite length_replicate. lia.
Qed.

(** The word an array holds for the element [v]. *)
Definition stored_word (h : heap) (t v : Z) : result Z :=
  if t =? Double_array_tag then d ← Double_val h v; Ret (s64 d) else Ret v.

Lemma fill_words h a t l ofs n val w :
  block_at h a t l -> stored_word h t val = Ret w -> caml_check_gc_interrupt h = false ->
  0 <= Long_val n -> 0 <= Long_val ofs -> Long_val ofs + Long_val n <= zlength l ->
  exists h', caml_array_fill h a ofs n val = Ret h' /\
    words h' = write_words (a + 8 * Long_val ofs) (replicate (Z.to_nat (Long_val n)) w) (words h).
Proof.
  intros Hb Hw Hi Hn Ho Hl. pose proof (block_mapped h a t l (Long_val ofs) (Z.to_nat (Long_val n)) Hb Ho ltac:(lia)) as Hm.
  unfold caml_array_fill, stored_word in *. rewrite (ba_tag _ _ _ _ Hb). mred.
  destruct (t =? Double_array_tag).
  - apply bind_Ret_inv in Hw as (d & -> & [= <-]). mred.
    rewrite fill_doubles_words, (store_replicate _ _ _ _ Hm). by eexists.
  - injection Hw as <-. destruct (Is_young h a).
    + rewrite fill_young_words, (store_replicate _ _ _ _ Hm). by eexists.
    + destruct (fill_old_words _ h _ val (Is_block val && Is_young h val) Hm) as (h' & -> & Ww & Hs). mred.
      exists h'. split; [|done]. destruct (_ && _); [|done].
      unfold caml_check_urgent_gc. by rewrite (same_alloc_interrupt _ _ Hs), Hi.
Qed.

(** ** The collectors' invariants *)

(** The invariants at a heap reached from [h]: the remembered set of the
    fields [F] is complete, and the pointer [p] that the major field [f] held
    is kept or darkened. *)
Record kept (F : Z -> Prop) (f p : Z) (h h1 : heap) : Prop := {
  k_regions : same_regions h h1;
  k_remembered : remembered F h1;
  k_snapshot : kept_or_darkened f p h1;
}.

Section Invariants.
Context (F : Z -> Prop) (f p : Z) (h0 : heap).
Hypothesis f_field : F f.
Hypothesis f_major : major_addr h0 f.
Hypothesis p_pointer : major_pointer h0 p.
Notation inv := (kept F f p h0).

Lemma inv_major h : inv h -> major_addr h f /\ major_pointer h p.
Proof.
  intros [[Es Ee] _ _]. unfold major_addr, major_pointer, Is_young in *. rewrite Es, Ee. done.
Qed.
Lemma modify_inv h a w h' : inv h -> caml_modify h a w = Ret h' -> inv h'.
Proof.
  intros Hi E. pose proof (inv_major _ Hi) as [? ?]. destruct Hi. split.
  - etrans; [done|]. by eapply caml_modify_regions.
  - by eapply caml_modify_remembered.
  - by eapply caml_modify_kept.
Qed.
(** A plain store is safe in a young field, or in a field that holds no value. *)
Lemma store_inv h a w h' : Is_young h0 a = true \/ ~ F a -> inv h -> store h a w = Ret h' -> inv h'.
Proof.
  intros Ha Hi E. pose proof (inv_major _ Hi) as [Hmf _]. destruct Hi as [Hreg Hr Hk].
  pose proof (store_facts _ _ _ _ E) as (Hw & Hreg' & Href & Hd & [old Hold]).
  assert (Is_young h a = false -> ~ F a) as Hy by (rewrite (same_regions_young h0 h) by done; intros; by destruct Ha; [congruence|]).
  split; [by etrans| |].
  - intros b x Fb Hb Hmb Hyx. rewrite Href. rewrite Hw in Hb.
    assert (major_addr h b) as Hmb' by (destruct Hreg' as [E1 E2]; unfold major_addr in *; by rewrite <- E1, <- E2).
    assert (Is_block_and_young h x = true) as Hyx' by (unfold Is_block_and_young in *; by rewrite <- (same_regions_young h h')).
    rewrite lookup_insert_ne in Hb; [by eapply Hr|]. intros ->. by apply Hy; [apply major_addr_young|].
  - eapply (kept_update h h' a old w); try done; [by rewrite Hd|].
    intros <- _. exfalso. by apply Hy; [apply major_addr_young|].
Qed.
Lemma store_words_inv l : forall h a h',
  (forall i, 0 <= i < zlength l -> Is_young h0 (a + 8 * i) = true \/ ~ F (a + 8 * i)) ->
  inv h -> store_words h a l = Ret h' -> inv h'.
Proof.
  induction l as [|w l IH]; intros h a h' Ha Hi E; simpl in E; [by injection E as <-|].
  apply bind_Ret_inv in E as (h1 & E1 & E). eapply (IH h1 (a + 8)); [|by eapply (store_inv h a w); [|done..];
    replace a with (a + 8 * 0) by lia; apply Ha; simpl; lia|done].
  intros i Hi'. replace (a + 8 + 8 * i) with (a + 8 * (i + 1)) by lia. apply Ha. simpl. lia.
Qed.
Lemma copy_up_inv n : forall h dst src h', inv h -> copy_up caml_modify n h dst src = Ret h' -> inv h'.
Proof.
  induction n as [|n IH]; intros h dst src h' Hi E; simpl in E; [by injection E as <-|].
  apply bind_Ret_inv in E as (w & _ & E). apply bind_Ret_inv in E as (h1 & E1 & E).
  eapply IH; [|done]. by eapply modify_inv.
Qed.
Lemma copy_down_inv n : forall h dst src h', inv h -> copy_down caml_modify n h dst src = Ret h' -> inv h'.
Proof.
  induction n as [|n IH]; intros h dst src h' Hi E; simpl in E; [by injection E as <-|].
  apply bind_Ret_inv in E as (w & _ & E). apply bind_Ret_inv in E as (h1 & E1 & E).
  eapply IH; [|done]. by eapply modify_inv.
Qed.
(** The open-coded barrier of [caml_array_fill]. *)
Lemma fill_one_inv h fp val h' :
  inv h -> fill_one h fp val (Is_block val && Is_young h0 val) = Ret h' -> inv h'.
Proof.
  intros Hi E. pose proof (inv_major _ Hi) as [Hmf (Hpb & Hpy & _)]. pose proof Hi as [Hreg Hr Hk].
  unfold fill_one in E. apply bind_Ret_inv in E as (old & Eo & E). apply load_lookup in Eo.
  destruct (Z.eqb_spec old val) as [->|Hne]; [by injection E as <-|].
  apply bind_Ret_inv in E as (h1 & Es & E). apply store_facts in Es as (Hw & Hreg1 & Href & Hd & _).
  rewrite (same_regions_young h h1) in E by done.
  replace (Is_block val && Is_young h0 val) with (Is_block_and_young h val) in E
    by (unfold Is_block_and_young; by rewrite (same_regions_young h0 h)).
  destruct (Is_block old && Is_young h old) eqn:Ey.
  { injection E as <-. apply andb_true_iff in Ey as [Eb Ey]. split; [by etrans| |].
    - eapply (remembered_update F h h1 fp old val); try done; [by rewrite Href|].
      intros _ _. left. unfold Is_block_and_young. by rewrite Eb, Ey.
    - eapply (kept_update h h1 fp old val); try done; [by rewrite Hd|]. intros _ ->. congruence. }
  set (h2 := if Is_block old then caml_darken h1 old else h1) in *.
  assert (words h2 = words h1 /\ major_ref h2 = major_ref h1 /\ same_regions h1 h2 /\ darkened h1 ⊆ darkened h2 /\
    (Is_block old = true -> old ∈ darkened h2)) as (W2 & M2 & R2 & D2 & O2).
  { unfold h2. destruct (Is_block old); split_and!; try done; simpl; set_solver. }
  assert (words h' = words h2 /\ major_ref h2 ⊆ major_ref h' /\ same_regions h2 h' /\ darkened h' = darkened h2 /\
    (Is_block_and_young h val = true -> fp ∈ major_ref h')) as (W3 & M3 & R3 & D3 & O3).
  { injection E as <-. destruct (Is_block_and_young h val); split_and!; try done; simpl; set_solver. }
  assert (same_regions h h') as Hrr by (etrans; [exact Hreg1|]; by etrans).
  split; [by etrans| |].
  - eapply (remembered_update F h h' fp old val); try done.
    + by rewrite W3, W2, Hw.
    + by rewrite <- Href, <- M2.
    + intros _ Hv. right. by apply O3.
  - eapply (kept_update h h' fp old val); try done.
    + by rewrite W3, W2, Hw.
    + by rewrite D3, <- Hd.
    + intros _ ->. rewrite D3. by apply O2.
Qed.
Lemma fill_old_inv n : forall h fp val h', inv h ->
  fill_old n h fp val (Is_block val && Is_young h0 val) = Ret h' -> inv h'.
Proof.
  induction n as [|n IH]; intros h fp val h' Hi E; simpl in E; [by injection E as <-|].
  apply bind_Ret_inv in E as (h1 & E1 & E). eapply IH; [|done]. by eapply fill_one_inv.
Qed.
End Invariants.

(** ** Gathering *)
Lemma write_words_comm a k b r m :
  (forall i j, 0 <= i < zlength k -> 0 <= j < zlength r -> a + 8 * i <> b + 8 * j) ->
  write_words b r (write_words a k m) = write_words a k (write_words b r m).
Proof.
  revert a. induction k as [|w k IH]; intros a Hd; simpl; [done|].
  rewrite write_words_insert.
  - rewrite IH; [done|]. intros i j Hi Hj. specialize (Hd (i + 1) j). simpl in Hd. lia.
  - intros i Hi. specialize (Hd 0 i). simpl in Hd. lia.
Qed.
Lemma write_words_subseteq m0 m a k :
  m0 ⊆ m -> (forall i, 0 <= i < zlength k -> m0 !! (a + 8 * i) = None) -> m0 ⊆ write_words a k m.
Proof.
  intros Hs Hf. apply map_subseteq_spec. intros x w Hx. rewrite lookup_write_words_ne.
  - by eapply lookup_weaken.
  - intros i Hi ->. rewrite Hf in Hx by done. done.
Qed.
Lemma load_weaken h h' a w : words h ⊆ words h' -> load h a = Ret w -> load h' a = Ret w.
Proof.
  unfold load. intros Hs. destruct (words h !! a) eqn:E; [|done]. by rewrite (lookup_weaken _ _ _ _ E Hs).
Qed.
Lemma load_words_weaken h h' a n l : words h ⊆ words h' -> load_words h a n = Ret l -> load_words h' a n = Ret l.
Proof.
  intros Hs [Hl Hf]%load_words_spec. apply load_words_spec. split; [done|]. intros. eapply load_weaken; eauto.
Qed.
Lemma write_words_is_Some a k m c : is_Some (m !! c) -> is_Some (write_words a k m !! c).
Proof.
  revert a. induction k as [|w k IH]; intros a Hc; simpl; [done|]. apply lookup_insert_is_Some'. right. by apply IH.
Qed.
Lemma mapped_write h h' a k b n : words h' = write_words a k (words h) -> mapped h b n -> mapped h' b n.
Proof.
  intros E Hm i Hi. destruct (Hm i Hi) as [x Hx]. unfold load. rewrite E.
  destruct (write_words_is_Some a k (words h) (b + 8 * i)) as [y ->]; [|by exists y].
  exists x. by apply load_lookup.
Qed.

(** The slice of an array a piece stands for. *)
Definition slice_of (h : heap) (p : piece) (k : list Z) : Prop :=
  exists t c, block_at h (p_array p) t c /\ 0 <= p_offset p /\ 0 <= p_length p /\
    p_offset p + p_length p <= zlength c /\ k = take (Z.to_nat (p_length p)) (drop (Z.to_nat (p_offset p)) c).
Lemma slice_length h p k : slice_of h p k -> zlength k = p_length p.
Proof. intros (t & c & _ & Ho & Hn & Hl & ->). rewrite length_take, length_drop. lia. Qed.
Lemma slice_words h p k : slice_of h p k ->
  load_words h (p_array p + 8 * p_offset p) (Z.to_nat (p_length p)) = Ret k.
Proof. intros (t & c & Hb & Ho & Hn & Hl & ->). eapply block_words; [done..|lia]. Qed.

(** One copy into words that do not overlap the source. *)
Definition copier (cp : heap -> Z -> Z -> nat -> result heap) : Prop := forall h dst src n k,
  load_words h src n = Ret k -> mapped h dst n ->
  (forall i j, 0 <= i < Z.of_nat n -> 0 <= j < Z.of_nat n -> dst + 8 * i <> src + 8 * j) ->
  exists h', cp h dst src n = Ret h' /\ words h' = write_words dst k (words h).
Lemma memmove_copier : copier memmove_words.
Proof. intros h dst src n k Hl Hm _. rewrite (memmove_spec _ _ _ _ _ Hl Hm). by eexists. Qed.
Lemma initialize_copier : copier (fun h dst src n => copy_up caml_initialize n h dst src).
Proof.
  intros h dst src n k Hl Hm Hd. edestruct (copy_up_spec caml_initialize same_alloc) as (h' & E & Hw & _); [done..| |by eauto].
  intros i j Hi Hj. apply Hd; lia.
Qed.

(** [h0] holds the arrays, and none of the words written. *)
Lemma gather_pieces_spec cp : copier cp -> forall h0 l ks h res pos,
  Forall2 (slice_of h0) l ks -> words h0 ⊆ words h ->
  mapped h (res + 8 * pos) (length (concat ks)) ->
  (forall i, 0 <= i < zlength (concat ks) -> words h0 !! (res + 8 * (pos + i)) = None) ->
  exists h', gather_pieces cp h res pos l = Ret h' /\ words h' = write_words (res + 8 * pos) (concat ks) (words h).
Proof.
  intros Hcp h0 l ks h res pos Hl. revert h pos. induction Hl as [|p k l ks Hp Hl IH]; intros h pos Hs Hm Hf; simpl.
  { by exists h. }
  simpl in Hm, Hf. rewrite length_app in Hm, Hf. pose proof (slice_length _ _ _ Hp) as Hlen.
  pose proof (slice_words _ _ _ Hp) as Hsrc. pose proof Hsrc as [Hn Hsrc']%load_words_spec.
  destruct (Hcp h (res + 8 * pos) (p_array p + 8 * p_offset p) (Z.to_nat (p_length p)) k) as (h1 & E1 & W1).
  { by eapply load_words_weaken. }
  { intros i Hi. apply Hm. lia. }
  { intros i j Hi Hj E. destruct (lookup_lt_is_Some_2 k (Z.to_nat j)) as [w Hw]; [lia|]. apply Hsrc', load_lookup in Hw.
    rewrite Z2Nat.id, <- E in Hw by lia. specialize (Hf i ltac:(lia)).
    replace (res + 8 * (pos + i)) with (res + 8 * pos + 8 * i) in Hf by lia. congruence. }
  rewrite E1. mred.
  destruct (IH h1 (pos + p_length p)) as (h' & -> & W').
  - rewrite W1. apply write_words_subseteq; [done|]. intros i Hi. specialize (Hf i ltac:(lia)).
    by replace (res + 8 * pos + 8 * i) with (res + 8 * (pos + i)) by lia.
  - eapply mapped_write; [exact W1|]. intros i Hi. destruct (Hm (p_length p + i)) as [x Hx]; [lia|].
    exists x. rewrite <- Hx. f_equal. lia.
  - intros i Hi. rewrite <- (Hf (p_length p + i)) by lia. f_equal. lia.
  - exists h'. split; [done|]. rewrite W', W1, write_words_app, Hlen.
    replace (res + 8 * (pos + p_length p)) with (res + 8 * pos + 8 * p_length p) by lia.
    apply write_words_comm. intros. lia.
Qed.

(** A fresh block, then the words written over its fields. *)
Lemma fresh_subseteq h h' v n tag : fresh_block h h' v n tag -> words h ⊆ words h'.
Proof.
  intros Hf. apply words_subseteq. intros a w E. unfold load in *. rewrite (fb_frame _ _ _ _ _ Hf); [done|].
  intros i Hi ->. rewrite (fb_free _ _ _ _ _ Hf i Hi) in E. done.
Qed.
Lemma fresh_mapped h h' v n tag : fresh_block h h' v n tag -> mapped h' (v + 8 * 0) (Z.to_nat n).
Proof.
  intros Hf i Hi. destruct (fb_mapped _ _ _ _ _ Hf i) as (w & Hw & _); [lia|]. exists w. rewrite <- Hw. unfold Field. f_equal. lia.
Qed.
Lemma fresh_filled h h1 h' v tag k :
  fresh_block h h1 v (zlength k) tag -> words h' = write_words (v + 8 * 0) k (words h1) ->
  block_at h' v tag k /\ words h ⊆ words h'.
Proof.
  intros Hf E. rewrite Z.mul_0_r, Z.add_0_r in E.
  assert (load h' (v - 8) = load h1 (v - 8)) as Hh by (eapply write_words_outside; [done|lia]).
  split; [split|].
  - rewrite <- (fb_tag _ _ _ _ _ Hf). unfold Tag_val, Hd_val. by rewrite Hh.
  - rewrite <- (fb_wosize _ _ _ _ _ Hf). unfold Wosize_val, Hd_val. by rewrite Hh.
  - intros i w Hi. unfold Field, load. rewrite E. by rewrite (lookup_write_words _ _ _ _ _ Hi).
  - rewrite E. apply write_words_subseteq; [by eapply fresh_subseteq|]. intros i Hi. apply (fb_free _ _ _ _ _ Hf). lia.
Qed.

Definition is_float_array (h : heap) (a : Z) : bool := bool_decide (Tag_val h a = Ret Double_array_tag).
Lemma total_size_spec h l ks size b : Forall2 (slice_of h) l ks -> 0 <= size <= mlsize_t_max ->
  total_size h l size b =
  (if size + zlength (concat ks) <=? mlsize_t_max
   then Ret (size + zlength (concat ks), b || existsb (fun p => is_float_array h (p_array p)) l)
   else Raise (Invalid_argument "Array.concat")).
Proof.
  intros Hl. revert size b. induction Hl as [|p k l ks Hp Hl IH]; intros size b Hs; simpl.
  { rewrite Z.add_0_r, orb_false_r. by rewrite (proj2 (Z.leb_le _ _)) by lia. }
  pose proof (slice_length _ _ _ Hp) as Hlen. destruct Hp as (t & c & Hb & Ho & Hn & Hle & ->).
  pose proof (Wosize_range _ _ _ (ba_size _ _ _ _ Hb)) as Hr. rewrite length_app, Nat2Z.inj_add, Hlen.
  set (r := zlength (concat ks)) in *. unfold mlsize_t_max in *. rewrite (wrap_small 64 (2 ^ 64 - 1 - p_length p)) by lia. unfold raise_if.
  destruct (Z.ltb_spec (2 ^ 64 - 1 - p_length p) size) as [Hov|Hno]; mred.
  { by rewrite (proj2 (Z.leb_gt _ _)) by lia. }
  rewrite (ba_tag _ _ _ _ Hb). mred. rewrite (wrap_small 64), IH by lia. rewrite <- Z.add_assoc.
  destruct (_ <=? _); [|done]. do 2 f_equal. unfold is_float_array. rewrite (ba_tag _ _ _ _ Hb).
  rewrite (bool_decide_ext _ (t = Double_array_tag)) by (split; congruence).
  destruct (Z.eqb_spec t Double_array_tag); [rewrite bool_decide_eq_true_2 by done|rewrite bool_decide_eq_false_2 by done]; simpl; [|done].
  by rewrite orb_true_r.
Qed.

Lemma outcome_bind h n r P f Q :
  alloc_outcome h n r P -> (forall v h', P v h' -> exists h'', f (v, h') = Ret (v, h'') /\ Q v h'') ->
  alloc_outcome h n (r ≫= f) Q.
Proof.
  intros Hr Hf. destruct r as [[v h']| | | |]; try done. simpl in Hr |- *. destruct (Hf v h' Hr) as (h'' & -> & HQ). done.
Qed.

Section Created.
Context `{SH : SharedHeap, !SharedHeapOk SH} (pending : heap -> bool) (quiet : forall x, pending x = false).

Lemma alloc_small_outcome h n tag : heap_ok h -> 0 < n <= Max_young_wosize -> 0 <= tag < 256 ->
  alloc_outcome h n (Alloc_small h n tag) (fun v h' => fresh_block h h' v n tag).
Proof.
  intros Hok Hn Ht. pose proof (alloc_either h n tag Hok ltac:(unfold Max_young_wosize in *; lia) Ht) as H.
  by rewrite (proj2 (Z.leb_le _ _)) in H by lia.
Qed.
Lemma alloc_shr_outcome h n tag : Max_young_wosize < n < 2 ^ 54 -> 0 <= tag < 256 ->
  alloc_outcome h n (caml_alloc_shr h n tag) (fun v h' => fresh_block h h' v n tag).
Proof.
  intros Hn Ht. destruct (caml_alloc_shr h n tag) as [[v h']|e| | |] eqn:E; pose proof E as E';
    unfold caml_alloc_shr in E; destruct (caml_shared_try_alloc h n); simplify_eq; simpl; [|split; [done|lia]].
  eapply caml_alloc_shr_fresh; [|done..]. unfold Max_young_wosize in *. lia.
Qed.
Lemma caml_alloc_float h n : heap_ok h -> 0 < n < 2 ^ 54 ->
  alloc_outcome h n (caml_alloc h n Double_array_tag) (fun v h' => fresh_block h h' v n Double_array_tag).
Proof.
  intros Hok Hn. pose proof (alloc_either h n Double_array_tag Hok ltac:(lia) ltac:(done)) as H. unfold caml_alloc.
  rewrite (proj2 (Z.eqb_neq n 0)) by lia. change (Double_array_tag <? No_scan_tag) with false.
  destruct (n <=? Max_young_wosize).
  - eapply outcome_bind; [exact H|]. intros v h' Hf. by exists h'.
  - revert H. destruct (caml_alloc_shr _ _ _) as [[v h']| | | |]; simpl; try done.
Qed.

Lemma gather_spec h l ks :
  heap_ok h -> Forall2 (slice_of h) l ks ->
  let k := concat ks in
  (zlength k = 0 -> caml_array_gather pending h l = Ret (Atom h 0, h)) /\
  (Max_wosize < zlength k -> caml_array_gather pending h l = Raise (Invalid_argument "Array.concat")) /\
  (0 < zlength k <= Max_wosize ->
   alloc_outcome h (zlength k) (caml_array_gather pending h l)
     (fun v h' => block_at h' v (if existsb (fun p => is_float_array h (p_array p)) l then Double_array_tag else 0) k /\
                  words h ⊆ words h')).
Proof.
  intros Hok Hl k. unfold caml_array_gather. rewrite (total_size_spec h l ks 0 false Hl) by (unfold mlsize_t_max; lia).
  rewrite Z.add_0_l. change (concat ks) with k. cbn [orb]. set (fl := existsb _ l).
  unfold Max_wosize, mlsize_t_max in *. change (2 ^ 54 - 1 / Double_wosize) with (2 ^ 54 - 1).
  assert (Hcp : forall cp v h1 tag, copier cp -> fresh_block h h1 v (zlength k) tag ->
    exists h', gather_pieces cp h1 v 0 l = Ret h' /\ block_at h' v tag k /\ words h ⊆ words h').
  { intros cp v h1 tag Hcp Hf. edestruct (gather_pieces_spec cp Hcp h l ks h1 v 0) as (h' & E & Hw); [done|by eapply fresh_subseteq|..].
    - pose proof (fresh_mapped _ _ _ _ _ Hf) as Hm. by rewrite Nat2Z.id in Hm.
    - intros i Hi. rewrite Z.add_0_l. apply (fb_free _ _ _ _ _ Hf). unfold k in *. lia.
    - exists h'. split; [done|]. by eapply fresh_filled. }
  split_and!.
  - intros E. rewrite E. done.
  - intros Hbig. destruct (Z.leb_spec (zlength k) (2 ^ 64 - 1)); [|done]. mred.
    rewrite (proj2 (Z.eqb_neq _ 0)) by lia. destruct fl.
    + change ((2 ^ 54 - 1) / Double_wosize) with (2 ^ 54 - 1). unfold raise_if. by rewrite (proj2 (Z.ltb_lt _ _)) by lia.
    + rewrite (proj2 (Z.leb_gt _ Max_young_wosize)) by (unfold Max_young_wosize; lia). unfold raise_if.
      by rewrite (proj2 (Z.ltb_lt _ _)) by lia.
  - intros Hk. rewrite (proj2 (Z.leb_le _ (2 ^ 64 - 1))) by lia. mred.
    rewrite (proj2 (Z.eqb_neq _ 0)) by lia. unfold raise_if, copy_pieces, initialize_pieces. destruct fl.
    + change ((2 ^ 54 - 1) / Double_wosize) with (2 ^ 54 - 1).
      rewrite (proj2 (Z.ltb_ge _ _)) by lia. mred. unfold Double_wosize. rewrite Z.mul_1_r, wrap_small by lia.
      eapply outcome_bind; [apply caml_alloc_float; [done|lia]|]. intros v h1 Hf.
      destruct (Hcp memmove_words v h1 _ memmove_copier Hf) as (h' & -> & HQ). by exists h'.
    + destruct (Z.leb_spec (zlength k) Max_young_wosize).
      * eapply outcome_bind; [apply alloc_small_outcome; [done|lia|done]|]. intros v h1 Hf.
        destruct (Hcp memmove_words v h1 _ memmove_copier Hf) as (h' & -> & HQ). by exists h'.
      * rewrite (proj2 (Z.ltb_ge _ _)) by lia. mred.
        eapply outcome_bind; [apply alloc_shr_outcome; [lia|done]|]. intros v h1 Hf.
        destruct (Hcp _ v h1 _ initialize_copier Hf) as (h' & -> & HQ). mred.
        unfold caml_process_pending_actions_with_root. rewrite quiet. by exists h'.
Qed.
End Created.

(** ** Properties *)

(** [caml_array_blit] copies a slice.  For all arrays and all bounds
    within them, the destination holds the slice of the source as it was
    before the call, also when source and destination are the same array and
    overlap, whichever generation the destination is in, for flat float
    arrays, and with either implementation of the word copy (one [memmove],
    or word by word when other domains run); other blocks are unchanged. *)
Theorem array_blit_spec (alone : bool) (h : heap) (a1 t1 a2 t2 ofs1 ofs2 n : Z) (l1 l2 : list Z) :
  block_at h a1 t1 l1 -> block_at h a2 t2 l2 -> a1 = a2 \/ apart a1 (zlength l1) a2 (zlength l2) ->
  caml_check_gc_interrupt h = false -> 0 <= Long_val n ->
  0 <= Long_val ofs1 -> Long_val ofs1 + Long_val n <= zlength l1 ->
  0 <= Long_val ofs2 -> Long_val ofs2 + Long_val n <= zlength l2 ->
  exists h', caml_array_blit alone h a1 ofs1 a2 ofs2 n = Ret h' /\
    updated h h' a2 t2 l2 (Long_val ofs2) (take (Z.to_nat (Long_val n)) (drop (Z.to_nat (Long_val ofs1)) l1)).
Proof.
  intros B1 B2 Ha Hi Hn Ho1 Hl1 Ho2 Hl2.
  destruct (blit_words alone h a1 t1 l1 a2 t2 l2 ofs1 ofs2 n) as (h' & E & Hw); try done.
  exists h'. split; [done|]. apply updated_intro; try done. rewrite length_take, length_drop. lia.
Qed.

(** [caml_array_fill] stores the value in every element of the range,
    for arrays of values of either generation and for flat float arrays, and
    changes no other block. *)
Theorem array_fill_spec (h : heap) (a t ofs n val w : Z) (l : list Z) :
  block_at h a t l -> stored_word h t val = Ret w -> caml_check_gc_interrupt h = false ->
  0 <= Long_val n -> 0 <= Long_val ofs -> Long_val ofs + Long_val n <= zlength l ->
  exists h', caml_array_fill h a ofs n val = Ret h' /\
    updated h h' a t l (Long_val ofs) (replicate (Z.to_nat (Long_val n)) w).
Proof.
  intros Hb Hw Hi Hn Ho Hl. destruct (fill_words h a t l ofs n val w) as (h' & E & Ew); try done.
  exists h'. split; [done|]. apply updated_intro; try done. rewrite length_replicate. lia.
Qed.

(** Where the elements of an array of [n] elements lie: floats are not
    fields, and a minor array is inside the minor heaps. *)
Definition well_placed (F : Z -> Prop) (h : heap) (a t n : Z) : Prop := forall i, 0 <= i < n ->
  (t = Double_array_tag -> ~ F (a + 8 * i)) /\ (Is_young h a = true -> Is_young h (a + 8 * i) = true).

(** C30: bulk updates keep the invariants of the collectors.  After
    [caml_array_blit] and after [caml_array_fill], whose write barrier is
    open-coded, the remembered set still lists every major field that points
    into the minor heaps, and a major pointer held before by a major field is
    still there or has been darkened. *)
Theorem array_barriers (F : Z -> Prop) (alone : bool) (h h' : heap)
    (a1 t1 a2 t2 ofs1 ofs2 n val f p : Z) (l1 l2 : list Z) :
  remembered F h -> F f -> major_addr h f -> major_pointer h p -> words h !! f = Some p ->
  block_at h a1 t1 l1 -> block_at h a2 t2 l2 -> well_placed F h a2 t2 (zlength l2) -> 0 <= Long_val n ->
  0 <= Long_val ofs1 -> Long_val ofs1 + Long_val n <= zlength l1 ->
  0 <= Long_val ofs2 -> Long_val ofs2 + Long_val n <= zlength l2 ->
  caml_array_blit alone h a1 ofs1 a2 ofs2 n = Ret h' \/ caml_array_fill h a2 ofs2 n val = Ret h' ->
  remembered F h' /\ (words h' !! f = Some p \/ p ∈ darkened h').
Proof.
  intros Hr Ff Hf Hp Hw B1 B2 Hplace Hn Ho1 Hl1 Ho2 Hl2 E.
  assert (kept F f p h h) as Hk by (by split; [|done|left]).
  enough (kept F f p h h') as [_ ? ?] by done.
  pose proof (block_words h a1 t1 l1 (Long_val ofs1) (Z.to_nat (Long_val n)) B1 Ho1 ltac:(lia)) as Hl.
  pose proof (block_mapped h a2 t2 l2 (Long_val ofs2) (Z.to_nat (Long_val n)) B2 Ho2 ltac:(lia)) as Hm.
  assert (Hst : forall l h', (t2 = Double_array_tag \/ Is_young h a2 = true) -> length l = Z.to_nat (Long_val n) ->
    store_words h (a2 + 8 * Long_val ofs2) l = Ret h' -> kept F f p h h').
  { intros l h1 Hc Hlen Est. eapply store_words_inv; try done. intros i Hi.
    destruct (Hplace (Long_val ofs2 + i)) as [H1 H2]; [lia|].
    replace (a2 + 8 * Long_val ofs2 + 8 * i) with (a2 + 8 * (Long_val ofs2 + i)) by lia. destruct Hc; [right|left]; auto. }
  pose proof Hl as [Hlen _]%load_words_spec.
  unfold caml_array_blit, caml_floatarray_blit, caml_array_fill in E. rewrite (ba_tag _ _ _ _ B2) in E. mred in E.
  destruct (Z.eqb_spec t2 Double_array_tag) as [Et|Et].
  { destruct E as [E|E].
    - unfold memmove_words in E. rewrite Hl in E. mred in E. eapply Hst; [by left|done|done].
    - apply bind_Ret_inv in E as (d & _ & E). rewrite fill_doubles_words in E.
      eapply Hst; [by left| |done]. apply length_replicate. }
  destruct (Is_young h a2) eqn:Ey.
  { destruct E as [E|E].
    - rewrite (wo_memmove_spec alone _ _ _ _ _ Hl Hm), <- (memmove_spec _ _ _ _ _ Hl Hm) in E.
      unfold memmove_words in E. rewrite Hl in E. mred in E. eapply Hst; [by right|done|done].
    - rewrite fill_young_words in E. eapply Hst; [by right| |done]. apply length_replicate. }
  destruct E as [E|E]; apply bind_Ret_inv in E as (h1 & E1 & E).
  - apply bind_Ret_inv in E as (u & _ & [= <-]). destruct (_ && _); [by eapply copy_down_inv|by eapply copy_up_inv].
  - assert (h1 = h') as <-; [|by eapply fill_old_inv].
    destruct (_ && _) in E; [apply bind_Ret_inv in E as (u & _ & [= <-])|injection E as <-]; done.
Qed.

Lemma box_double_outcome `{SH : SharedHeap, !SharedHeapOk SH} h d : heap_ok h ->
  alloc_outcome h 1 (box_double h d) (fun v h' => block_at h' v Double_tag [s64 d] /\ words h ⊆ words h').
Proof.
  intros Hok. unfold box_double, Double_wosize. eapply outcome_bind; [apply alloc_small_outcome; [done|unfold Max_young_wosize; lia|done]|].
  intros v h1 Hf. destruct (fb_mapped _ _ _ _ _ Hf 0) as (x & Hx & _); [lia|]. unfold Field in Hx. unfold Store_double_val.
  rewrite Z.mul_0_r, Z.add_0_r in Hx. rewrite (store_Ret _ _ _ _ Hx). mred. eexists. split; [done|].
  eapply fresh_filled; [exact Hf|]. simpl. by rewrite Z.add_0_r.
Qed.

(** Access to arrays is checked.  Outside the bounds, reading and
    writing raise [Invalid_argument "index out of bounds"]; inside them,
    writing replaces exactly one element, and reading returns the element,
    for a flat float array as a new boxed double with its bits. *)
Theorem array_get_set `{SH : SharedHeap, !SharedHeapOk SH} (h : heap) (a t index newval w : Z) (l : list Z) :
  heap_ok h -> block_at h a t l -> stored_word h t newval = Ret w ->
  let idx := Long_val index in
  (~ 0 <= idx < zlength l ->
     caml_array_get h a index = Raise array_bound_error /\
     caml_array_set h a index newval = Raise array_bound_error) /\
  (forall x, 0 <= idx -> l !! Z.to_nat idx = Some x ->
     (exists h', caml_array_set h a index newval = Ret h' /\ updated h h' a t l idx [w]) /\
     (t <> Double_array_tag -> caml_array_get h a index = Ret (x, h)) /\
     (t = Double_array_tag ->
        alloc_outcome h 1 (caml_array_get h a index)
          (fun v h' => block_at h' v Double_tag [s64 (u64 x)] /\ words h ⊆ words h'))).
Proof.
  intros Hok Hb Hw idx. unfold caml_array_get, caml_array_set, caml_floatarray_get, caml_array_get_addr, caml_floatarray_set,
    caml_array_set_addr, stored_word, check_index, Double_wosize, raise_if in *.
  rewrite (ba_tag _ _ _ _ Hb), (ba_size _ _ _ _ Hb). mred. rewrite Z.div_1_r. fold idx. split.
  - intros Hout. replace ((idx <? 0) || (zlength l <=? idx)) with true by lia.
    destruct (t =? Double_array_tag); [|done]. by apply bind_Ret_inv in Hw as (d & -> & _).
  - intros x H0 Hx. pose proof (lookup_lt_Some _ _ _ Hx) as Hlt. replace ((idx <? 0) || (zlength l <=? idx)) with false by lia.
    mred. pose proof (ba_fields _ _ _ _ Hb _ _ Hx) as Hf. rewrite Z2Nat.id in Hf by done.
    split_and!.
    + assert (forall h', words h' = <[a + 8 * idx := w]> (words h) -> updated h h' a t l idx [w]) as Hup.
      { intros h' E. apply updated_intro; try done. simpl. lia. }
      destruct (t =? Double_array_tag).
      * apply bind_Ret_inv in Hw as (d & -> & [= <-]). mred. unfold Store_double_flat_field, Store_double_val.
        rewrite (store_Ret _ _ _ _ Hf). eexists. split; [done|]. by apply Hup.
      * injection Hw as <-. destruct (writer_ok (wr := caml_modify) h _ newval _ Hf) as (h' & -> & E & _). eexists. split; [done|]. by apply Hup.
    + intros Ht. rewrite (proj2 (Z.eqb_neq _ _)) by done. by rewrite Hf.
    + intros ->. rewrite Z.eqb_refl. unfold Double_flat_field, Double_val. change (load h (a + 8 * idx)) with (Field h a idx).
      rewrite Hf. mred. by apply box_double_outcome.
Qed.

(** What a creating primitive promises for the contents [k]: [Atom(0)] when
    empty, [Invalid_argument] when too large, and otherwise a new block, a
    request for the collector or [Out_of_memory]. *)
Definition created (h : heap) (msg : string) (tag : Z) (k : list Z) (r : result (Z * heap)) : Prop :=
  (zlength k = 0 -> r = Ret (Atom h 0, h)) /\
  (Max_wosize < zlength k -> r = Raise (Invalid_argument msg)) /\
  (0 < zlength k <= Max_wosize ->
   alloc_outcome h (zlength k) r (fun v h' => block_at h' v tag k /\ words h ⊆ words h')).

(** A list of arrays, as a value. *)
Inductive array_list (h : heap) : Z -> list (Z * list Z) -> Prop :=
| al_nil : array_list h Val_emptylist []
| al_cons v a t l tl rest :
    v <> Val_emptylist -> Field h v 0 = Ret a -> block_at h a t l -> Field h v 1 = Ret tl ->
    array_list h tl rest -> array_list h v ((a, l) :: rest).

Lemma block_array_length h a t l : block_at h a t l -> caml_array_length h a = Ret (zlength l).
Proof.
  intros Hb. unfold caml_array_length, Double_wosize. rewrite (ba_tag _ _ _ _ Hb), (ba_size _ _ _ _ Hb). mred.
  rewrite Z.div_1_r. by destruct (_ =? _).
Qed.
Lemma whole_slice h a t l : block_at h a t l -> slice_of h (mkPiece a 0 (zlength l)) l.
Proof. intros Hb. exists t, l. simpl. split_and!; try done; try lia. rewrite drop_0, Nat2Z.id. by rewrite take_ge. Qed.
Lemma list_pieces_spec h v rest : array_list h v rest -> forall fuel, (length rest < fuel)%nat ->
  list_pieces fuel h v = Ret (List.map (fun al => mkPiece (fst al) 0 (zlength (snd al))) rest) /\
  Forall2 (slice_of h) (List.map (fun al => mkPiece (fst al) 0 (zlength (snd al))) rest) (List.map snd rest).
Proof.
  induction 1 as [|v a t l tl rest Hv Ha Hb Ht _ IH]; intros [|fuel] Hf; simpl in Hf; try lia; cbn [list_pieces].
  { rewrite Z.eqb_refl. split; [done|constructor]. }
  rewrite (proj2 (Z.eqb_neq _ _)) by done. rewrite Ha. mred. rewrite (block_array_length _ _ _ _ Hb).
  mred. rewrite Ht. mred. destruct (IH fuel) as [-> HF]; [lia|].
  split; [done|]. constructor; [by eapply whole_slice|done].
Qed.

(** Extraction and concatenation.  [Array.sub], [Array.append] and
    [Array.concat] return a new array whose elements are the slice, and the
    concatenation, of the elements of their arguments (a flat float array
    when one of them is), and leave the arguments unchanged; the only
    failures are a total size above the maximum and exhausted memory. *)
Theorem array_concatenation `{SH : SharedHeap, !SharedHeapOk SH} (pending : heap -> bool) (stat_alloc : Z -> bool)
    (h : heap) (a1 t1 a2 t2 ofs len al : Z) (l1 l2 : list Z) (als : list (Z * list Z)) :
  (forall x, pending x = false) -> (forall n, stat_alloc n = true) -> heap_ok h ->
  block_at h a1 t1 l1 -> block_at h a2 t2 l2 -> array_list h al als ->
  0 <= Long_val ofs -> 0 <= Long_val len -> Long_val ofs + Long_val len <= zlength l1 ->
  let tag b := if (b : bool) then Double_array_tag else 0 in
  created h "Array.concat" (tag (is_float_array h a1))
    (take (Z.to_nat (Long_val len)) (drop (Z.to_nat (Long_val ofs)) l1)) (caml_array_sub pending h a1 ofs len) /\
  created h "Array.concat" (tag (is_float_array h a1 || is_float_array h a2)) (l1 ++ l2)
    (caml_array_append pending h a1 a2) /\
  created h "Array.concat" (tag (existsb (fun al => is_float_array h (fst al)) als)) (concat (List.map snd als))
    (caml_array_concat pending stat_alloc (S (length als)) h al).
Proof.
  intros Hq Hst Hok B1 B2 Hal Ho Hn Hl tag. split_and!.
  - unfold caml_array_sub, created. set (k := take _ _).
    pose proof (gather_spec pending Hq h [mkPiece a1 (Long_val ofs) (Long_val len)] [k] Hok) as Hg.
    simpl in Hg. rewrite app_nil_r, orb_false_r in Hg. apply Hg. constructor; [|constructor]. exists t1, l1. done.
  - unfold caml_array_append, created. rewrite (block_array_length _ _ _ _ B1), (block_array_length _ _ _ _ B2). mred.
    pose proof (gather_spec pending Hq h [mkPiece a1 0 (zlength l1); mkPiece a2 0 (zlength l2)] [l1; l2] Hok) as Hg.
    simpl in Hg. rewrite app_nil_r, orb_false_r in Hg. apply Hg.
    repeat constructor; by eapply whole_slice.
  - unfold caml_array_concat, created. destruct (list_pieces_spec h al als Hal (S (length als)) ltac:(lia)) as [-> HF].
    mred. rewrite Hst, andb_false_r.
    pose proof (gather_spec pending Hq h _ _ Hok HF) as Hg. simpl in Hg.
    assert (existsb (fun p => is_float_array h (p_array p)) (List.map (fun al => mkPiece (fst al) 0 (zlength (snd al))) als) =
      existsb (fun al => is_float_array h (fst al)) als) as Ex.
    { clear. induction als as [|x als IH]; simpl; [done|]. by rewrite IH. }
    rewrite Ex in Hg. exact Hg.
Qed.

(** A fresh block filled with one word. *)
Lemma fresh_replicate h h1 v n tag w : fresh_block h h1 v n tag ->
  exists h', store_words h1 v (replicate (Z.to_nat n) w) = Ret h' /\
    block_at h' v tag (replicate (Z.to_nat n) w) /\ words h ⊆ words h'.
Proof.
  intros Hf. pose proof (fresh_mapped _ _ _ _ _ Hf) as Hm. pose proof (fb_size _ _ _ _ _ Hf) as Hn.
  rewrite Z.mul_0_r, Z.add_0_r in Hm. rewrite (store_replicate _ _ _ _ Hm). eexists. split; [done|]. eapply fresh_filled.
  - rewrite length_replicate, Z2Nat.id by lia. exact Hf.
  - simpl. by rewrite Z.add_0_r.
Qed.

Section Make.
Context `{SH : SharedHeap, !SharedHeapOk SH} (pending : heap -> bool) (quiet : forall x, pending x = false).
Context (h : heap) (len init w : Z) (isfloat : bool).
Hypothesis boxed_init : is_boxed_double h init = Ret isfloat.
Notation tag := (if isfloat then Double_array_tag else 0).
Hypothesis init_word : stored_word h tag init = Ret w.
Notation n := (Long_val len).

Lemma make_vect_too_large : is_word len -> n < 0 \/ Max_wosize < n ->
  caml_make_vect pending h len init = Raise (Invalid_argument "Array.make").
Proof.
  intros Hlen Hout. pose proof (Long_val_is_int _ Hlen) as Hint. unfold is_int, Min_long, Max_long in Hint.
  assert (Max_wosize < u64 n /\ u64 n <> 0 /\ u64 (u64 n * Double_wosize) = u64 n) as (Hgt & Hne & Hm).
  { unfold Max_wosize, Double_wosize, wrap in *. rewrite Z.mul_1_r, Zmod_mod. destruct Hout as [Hneg|Hgt].
    - assert (n mod 2 ^ 64 = n + 2 ^ 64) as ->; [|lia]. symmetry. apply (Z.mod_unique _ _ (-1)); lia.
    - rewrite Z.mod_small by lia. lia. }
  unfold caml_make_vect. rewrite boxed_init, (proj2 (Z.eqb_neq _ 0)) by done. mred. unfold raise_if.
  destruct isfloat.
  - unfold stored_word in init_word. simpl in init_word. apply bind_Ret_inv in init_word as (d & -> & _). mred.
    by rewrite Hm, (proj2 (Z.ltb_lt _ _)).
  - by rewrite (proj2 (Z.leb_gt _ Max_young_wosize)), (proj2 (Z.ltb_lt _ _)) by (unfold Max_young_wosize, Max_wosize in *; lia).
Qed.
Lemma make_vect_created : heap_ok h -> 0 < n <= Max_wosize ->
  Is_block init && Is_young h init && (Max_young_wosize <? n) && negb isfloat = false ->
  alloc_outcome h n (caml_make_vect pending h len init)
    (fun v h' => block_at h' v tag (replicate (Z.to_nat n) w) /\ words h ⊆ words h').
Proof.
  unfold Max_wosize. intros Hok Hr Hyoung. unfold caml_make_vect. rewrite boxed_init, (wrap_small 64 n) by lia.
  rewrite (proj2 (Z.eqb_neq _ 0)) by lia. mred.
  unfold raise_if, Double_wosize, caml_process_pending_actions_with_root. rewrite Z.mul_1_r, (wrap_small 64 n) by lia.
  eapply (outcome_bind _ _ _ (fun v h' => block_at h' v tag (replicate (Z.to_nat n) w) /\ words h ⊆ words h'));
    [|intros v h' HP; exists h'; mred; rewrite quiet; done].
  unfold stored_word in init_word. destruct isfloat; simpl in init_word.
  - apply bind_Ret_inv in init_word as (d & -> & [= <-]). mred. rewrite (proj2 (Z.ltb_ge _ _)) by (unfold Max_wosize; lia).
    mred. eapply outcome_bind; [apply caml_alloc_float; [done|lia]|]. intros v h1 Hf.
    destruct (fresh_replicate _ _ _ _ _ (s64 d) Hf) as (h' & E & HQ). rewrite fill_doubles_words, Z.mul_0_r, Z.add_0_r, E. by exists h'.
  - injection init_word as <-. destruct (Z.leb_spec n Max_young_wosize).
    + eapply outcome_bind; [apply alloc_small_outcome; [done|lia|done]|]. intros v h1 Hf.
      destruct (fresh_replicate _ _ _ _ _ init Hf) as (h' & E & HQ). rewrite E. by exists h'.
    + rewrite (proj2 (Z.ltb_ge _ _)) by (unfold Max_wosize; lia). mred.
      rewrite (proj2 (Z.ltb_lt _ _)), !andb_true_r in Hyoung by done. rewrite Hyoung.
      eapply outcome_bind; [apply alloc_shr_outcome; [lia|done]|]. intros v h1 Hf.
      destruct (fresh_replicate _ _ _ _ _ init Hf) as (h' & E & HQ). rewrite E. by exists h'.
Qed.
End Make.

(** [Array.make].  The new array holds the value in every element,
    unboxed when it is a double; a negative length or one above the maximum
    raises [Invalid_argument]; a large array of a minor block asks for a
    minor collection first. *)
Theorem array_make_spec `{SH : SharedHeap, !SharedHeapOk SH} (pending : heap -> bool)
    (h : heap) (len init w : Z) (isfloat : bool) :
  (forall x, pending x = false) -> heap_ok h -> is_word len ->
  is_boxed_double h init = Ret isfloat ->
  let tag := if isfloat then Double_array_tag else 0 in
  stored_word h tag init = Ret w ->
  let r := caml_make_vect pending h len init in
  (Long_val len < 0 \/ Max_wosize < Long_val len -> r = Raise (Invalid_argument "Array.make")) /\
  (Max_young_wosize < Long_val len <= Max_wosize -> isfloat = false -> Is_block init && Is_young h init = true -> r = Pending) /\
  (0 <= Long_val len -> Is_block init && Is_young h init && (Max_young_wosize <? Long_val len) && negb isfloat = false ->
   created h "Array.make" tag (replicate (Z.to_nat (Long_val len)) w) r).
Proof.
  intros Hq Hok Hlen Hb tag Hw r. subst r. split_and!.
  - by eapply make_vect_too_large.
  - unfold caml_make_vect, Max_young_wosize, Max_wosize in *. intros Hr -> Hy. rewrite Hb, wrap_small by lia.
    rewrite (proj2 (Z.eqb_neq _ 0)) by lia. mred. rewrite (proj2 (Z.leb_gt _ _)) by lia. unfold raise_if.
    rewrite (proj2 (Z.ltb_ge _ _)) by lia. mred. by rewrite Hy.
  - intros H0 Hyoung. unfold created. rewrite length_replicate, Z2Nat.id by done. split_and!.
    + intros E0. unfold caml_make_vect, caml_process_pending_actions_with_root. rewrite E0. change (u64 0 =? 0) with true. mred. by rewrite Hq.
    + intros Hgt. eapply make_vect_too_large; try done. by right.
    + intros Hr. by eapply make_vect_created.
Qed.

(** ** Concrete arrays: [[|1; p; 3; 4|]] in the major heap, where [p] is the
    major block at 1064, a list of one array, and a minor block *)
Definition ex_arrays : heap :=
  mkHeap (list_to_map [(992, 4096); (1000, 3); (1008, 1064); (1016, 7); (1024, 9);
                       (1056, 2048); (1064, 1000); (1072, 1); (100496, 1024); (100504, 3)])
    100496 100000 100000 101000 64 [] [].
Definition block_atb (h : heap) (v t : Z) (l : list Z) : bool :=
  bool_decide (Tag_val h v = Ret t) && bool_decide (Wosize_val h v = Ret (zlength l)) &&
  bool_decide (load_words h v (length l) = Ret l).
Lemma block_atb_sound h v t l : block_atb h v t l = true -> block_at h v t l.
Proof.
  unfold block_atb. rewrite !andb_true_iff, !bool_decide_eq_true. intros [[Ht Hs] Hf]. split; try done.
  intros i w Hi. unfold Field. by apply (proj2 (proj1 (load_words_spec h (length l) v l) Hf)).
Qed.
Lemma ex_array_at : block_at ex_arrays 1000 0 [3; 1064; 7; 9].
Proof. apply block_atb_sound. vm_compute. reflexivity. Qed.
Lemma ex_list_at : array_list ex_arrays 1064 [(1000, [3; 1064; 7; 9])].
Proof. exact (al_cons ex_arrays 1064 1000 0 _ 1 [] ltac:(discriminate) eq_refl ex_array_at eq_refl (al_nil _)). Qed.
Definition no_youngb (h : heap) : bool := forallb (fun aw => negb (Is_block_and_young h (snd aw))) (map_to_list (words h)).
Lemma no_youngb_remembered F h : no_youngb h = true -> remembered F h.
Proof.
  unfold no_youngb. rewrite forallb_forall. intros Hf a w _ Hw _ Hy.
  specialize (Hf (a, w)). simpl in Hf. rewrite Hy in Hf. discriminate Hf. by apply list_elem_of_In, elem_of_map_to_list.
Qed.

Lemma array_blit_spec_witness :
  exists h', caml_array_blit true ex_arrays 1000 (Val_long 0) 1000 (Val_long 1) (Val_long 3) = Ret h' /\
    updated ex_arrays h' 1000 0 [3; 1064; 7; 9] 1 [3; 1064; 7].
Proof.
  exact (array_blit_spec true ex_arrays 1000 0 1000 0 (Val_long 0) (Val_long 1) (Val_long 3) _ _ ex_array_at ex_array_at
    (or_introl eq_refl) eq_refl ltac:(done) ltac:(done) ltac:(done) ltac:(done) ltac:(done)).
Defined.
Lemma array_fill_spec_witness :
  exists h', caml_array_fill ex_arrays 1000 (Val_long 1) (Val_long 2) 100504 = Ret h' /\
    updated ex_arrays h' 1000 0 [3; 1064; 7; 9] 1 [100504; 100504].
Proof.
  exact (array_fill_spec ex_arrays 1000 0 (Val_long 1) (Val_long 2) 100504 100504 _ ex_array_at eq_refl eq_refl
    ltac:(done) ltac:(done) ltac:(done)).
Defined.
Lemma array_barriers_witness :
  exists h', caml_array_fill ex_arrays 1000 (Val_long 1) (Val_long 2) 100504 = Ret h' /\
    remembered (fun a => 1000 <= a < 1032) h' /\ (words h' !! 1008 = Some 1064 \/ 1064 ∈ darkened h').
Proof.
  destruct (fill_words ex_arrays 1000 0 _ (Val_long 1) (Val_long 2) 100504 100504 ex_array_at eq_refl eq_refl
    ltac:(done) ltac:(done) ltac:(done)) as (h' & E & _).
  exists h'. split; [exact E|].
  refine (array_barriers (fun a => 1000 <= a < 1032) true ex_arrays h' 1000 0 1000 0 (Val_long 0) (Val_long 1) (Val_long 2)
    100504 1008 1064 _ _ (no_youngb_remembered _ ex_arrays eq_refl) ltac:(cbv beta; lia) (or_introl eq_refl) _ eq_refl ex_array_at ex_array_at _
    ltac:(done) ltac:(done) ltac:(done) ltac:(done) ltac:(done) (or_intror E)).
  - split_and!; try reflexivity. intros [H|[H|H]]; vm_compute in H; discriminate.
  - intros i Hi. split; intros H; [discriminate|vm_compute in H; discriminate].
Defined.
Lemma array_get_set_witness : caml_array_get ex_arrays 1000 (Val_long 4) = Raise array_bound_error.
Proof.
  refine (proj1 (proj1 (array_get_set (SH := growing_heap) ex_arrays 1000 0 (Val_long 4) 3 3 _
    (heap_okb_sound ex_arrays eq_refl) ex_array_at eq_refl) _)). intros H. vm_compute in H. by destruct H.
Defined.
Lemma array_concatenation_witness :
  created ex_arrays "Array.concat" 0 [3; 1064; 7; 9; 3; 1064; 7; 9]
    (caml_array_append (SH := growing_heap) (fun _ => false) ex_arrays 1000 1000).
Proof.
  exact (proj1 (proj2 (array_concatenation (SH := growing_heap) (fun _ => false) (fun _ => true) ex_arrays 1000 0 1000 0
    (Val_long 1) (Val_long 2) 1064 _ _ _ (fun _ => eq_refl) (fun _ => eq_refl) (heap_okb_sound ex_arrays eq_refl)
    ex_array_at ex_array_at ex_list_at ltac:(done) ltac:(done) ltac:(done)))).
Defined.
Lemma array_make_spec_witness :
  caml_make_vect (SH := growing_heap) (fun _ => false) ex_arrays (Val_long (-1)) 7 = Raise (Invalid_argument "Array.make") /\
  created ex_arrays "Array.make" 0 [7; 7; 7] (caml_make_vect (SH := growing_heap) (fun _ => false) ex_arrays (Val_long 3) 7).
Proof.
  split.
  - exact (proj1 (array_make_spec (SH := growing_heap) (fun _ => false) ex_arrays (Val_long (-1)) 7 7 false (fun _ => eq_refl)
      (heap_okb_sound ex_arrays eq_refl) (Val_long_is_word _) eq_refl eq_refl) (or_introl eq_refl)).
  - exact (proj2 (proj2 (array_make_spec (SH := growing_heap) (fun _ => false) ex_arrays (Val_long 3) 7 7 false (fun _ => eq_refl)
      (heap_okb_sound ex_arrays eq_refl) (Val_long_is_word _) eq_refl eq_refl)) ltac:(done) eq_refl).
Defined.

End Arrays.
Export Arrays.
