(* ===== verification/PosTable.v ===== *)
(** * The position table of the marshaler (runtime/extern.c)

    An open-addressing hash table from the blocks already written to their
    position in the output: linear probing, a bit vector of occupied
    entries, multiplicative hashing, growth when two thirds full.  The
    theorem shows that it implements a finite map, that probing always ends
    at an empty entry, and that growing loses nothing. *)

From S2P Require Import Prelude Memory.

Module PosTable.

Record object_position := mkPosition { obj : Z; pos : Z }.

Record position_table := mkTable {
  pt_shift : Z;
  pt_size : Z;
  pt_mask : Z;
  pt_threshold : Z;
  pt_present : list Z;
  pt_entries : gmap Z object_position;
}.

Definition Bits_word : Z := 64.
Definition Bitvect_size (n : Z) : Z := u64 (n + Bits_word - 1) / Bits_word.
Definition POS_TABLE_INIT_SIZE_LOG2 : Z := 8.
Definition POS_TABLE_INIT_SIZE : Z := Z.shiftl 1 POS_TABLE_INIT_SIZE_LOG2.
Definition sizeof_object_position : Z := 16.

Definition HASH_FACTOR : Z := 11400714819323198486.
Definition Hash (v shift : Z) : Z := Z.shiftr (u64 (u64 v * HASH_FACTOR)) shift.
Definition Threshold (sz : Z) : Z := u64 (sz * 2) / 3.

(** The entries are left uninitialised: only those whose bit is set are read. *)
Definition init_position_table : position_table := {|
  pt_size := POS_TABLE_INIT_SIZE;
  pt_shift := 8 * 8 - POS_TABLE_INIT_SIZE_LOG2;
  pt_mask := POS_TABLE_INIT_SIZE - 1;
  pt_threshold := Threshold POS_TABLE_INIT_SIZE;
  pt_present := replicate (Z.to_nat (Bitvect_size POS_TABLE_INIT_SIZE)) 0;
  pt_entries := ∅;
|}.

Definition bitvect_test (bv : list Z) (i : Z) : result bool :=
  w ← of_option (bv !! Z.to_nat (i / Bits_word));
  Ret (negb (Z.land w (Z.shiftl 1 (Z.land i (Bits_word - 1))) =? 0)).
Definition bitvect_set (bv : list Z) (i : Z) : result (list Z) :=
  w ← of_option (bv !! Z.to_nat (i / Bits_word));
  Ret (<[Z.to_nat (i / Bits_word) := Z.lor w (Z.shiftl 1 (Z.land i (Bits_word - 1)))]> bv).

Definition set_entry (t : position_table) (h : Z) (e : object_position) : result position_table :=
  bv ← bitvect_set (pt_present t) h;
  Ret (mkTable (pt_shift t) (pt_size t) (pt_mask t) (pt_threshold t) bv (<[h := e]> (pt_entries t))).

(** [while (bitvect_test(new_present, h)) h = (h + 1) & mask;] *)
Fixpoint free_slot (fuel : nat) (bv : list Z) (mask h : Z) : result Z :=
  match fuel with
  | O => NoFuel
  | S n =>
      p ← bitvect_test bv h;
      if (p : bool) then free_slot n bv mask (Z.land (u64 (h + 1)) mask) else Ret h
  end.

(** [for (i = 0; i < old.size; i++) ...], from entry [i] on. *)
Fixpoint reinsert (n : nat) (i : Z) (old t : position_table) : result position_table :=
  match n with
  | O => Ret t
  | S n =>
      p ← bitvect_test (pt_present old) i;
      t ← (if (p : bool) then
             e ← of_option (pt_entries old !! i);
             h ← free_slot (Z.to_nat (pt_size t)) (pt_present t) (pt_mask t) (Hash (obj e) (pt_shift t));
             set_entry t h e
           else Ret t);
      reinsert n (i + 1) old t
  end.

Section Growth.
(** [caml_stat_alloc_noexc] and [caml_stat_calloc_noexc]: whether a request
    of that many bytes succeeds. *)
Variable stat_alloc : Z -> bool.

Definition extern_resize_position_table (old : position_table) : result position_table :=
  let '(new_size, new_shift) :=
    if pt_size old <? 1000000 then (u64 (8 * pt_size old), pt_shift old - 3)
    else (u64 (2 * pt_size old), pt_shift old - 1) in
  let new_byte_size := new_size * sizeof_object_position in
  if (new_size =? 0) || (2 ^ 64 <=? new_byte_size) then Raise Out_of_memory
  else if negb (stat_alloc new_byte_size) then Raise Out_of_memory
  else if negb (stat_alloc (Bitvect_size new_size * 8)) then Raise Out_of_memory
  else
    reinsert (Z.to_nat (pt_size old)) 0 old {|
      pt_size := new_size;
      pt_shift := new_shift;
      pt_mask := new_size - 1;
      pt_threshold := Threshold new_size;
      pt_present := replicate (Z.to_nat (Bitvect_size new_size)) 0;
      pt_entries := ∅;
    |}.

(** The table part of [extern_record_location]: [obj_counter] is the
    position given to [o]. *)
Definition record_location (t : position_table) (o h obj_counter : Z) : result position_table :=
  t ← set_entry t h (mkPosition o obj_counter);
  if pt_threshold t <=? u64 (obj_counter + 1) then extern_resize_position_table t else Ret t.
End Growth.

Inductive lookup_result := Found (pos_out : Z) | Absent (h_out : Z).

Fixpoint probe (fuel : nat) (t : position_table) (o h : Z) : result lookup_result :=
  match fuel with
  | O => NoFuel
  | S n =>
      p ← bitvect_test (pt_present t) h;
      if negb p then Ret (Absent h)
      else
        e ← of_option (pt_entries t !! h);
        if obj e =? o then Ret (Found (pos e))
        else probe n t o (Z.land (u64 (h + 1)) (pt_mask t))
  end.
Definition extern_lookup_position (t : position_table) (o : Z) : result lookup_result :=
  probe (Z.to_nat (pt_size t)) t o (Hash o (pt_shift t)).

(** ** The finite map a table stands for *)

(** [sl] is the content of the occupied entries. *)
Record holds (t : position_table) (sl : gmap Z object_position) : Prop := {
  h_len : length (pt_present t) = Z.to_nat (Bitvect_size (pt_size t));
  h_test : forall i, 0 <= i < pt_size t ->
    bitvect_test (pt_present t) i = Ret (bool_decide (is_Some (sl !! i)));
  h_entry : forall i e, sl !! i = Some e -> 0 <= i < pt_size t /\ pt_entries t !! i = Some e;
}.

Record dims (t : position_table) : Prop := {
  d_shift : 0 < pt_shift t <= 56;
  d_size : pt_size t = 2 ^ (64 - pt_shift t);
  d_mask : pt_mask t = pt_size t - 1;
  d_threshold : pt_threshold t = pt_size t * 2 / 3;
}.

(** The entries probed for [o], in order. *)
Definition probed (t : position_table) (o d : Z) : Z := (Hash o (pt_shift t) + d) mod pt_size t.

(** Each entry is reached from its hash through occupied entries, and holds
    an object that no other entry holds. *)
Record chained (t : position_table) (sl : gmap Z object_position) : Prop := {
  c_path : forall i e, sl !! i = Some e -> exists d, 0 <= d < pt_size t /\ i = probed t (obj e) d /\
    forall j, 0 <= j < d -> is_Some (sl !! probed t (obj e) j);
  c_unique : forall i i' e e', sl !! i = Some e -> sl !! i' = Some e' -> obj e = obj e' -> i = i';
}.

(** [m] gives the position of each recorded object. *)
Record positions (sl : gmap Z object_position) (m : gmap Z Z) : Prop := {
  p_lookup : forall o p, m !! o = Some p <-> exists i, sl !! i = Some (mkPosition o p);
  p_size : size m = size sl;
}.

Definition table_ok (t : position_table) (m : gmap Z Z) : Prop :=
  dims t /\ Z.of_nat (size m) < pt_size t /\
  exists sl, holds t sl /\ chained t sl /\ positions sl m.

(** ** Bit vectors *)

Lemma land_bit w k : 0 <= k -> (Z.land w (Z.shiftl 1 k) =? 0) = negb (Z.testbit w k).
Proof.
  intros Hk. rewrite Z.shiftl_1_l. destruct (Z.testbit w k) eqn:E; simpl.
  - apply Z.eqb_neq. intros H. apply (f_equal (fun z => Z.testbit z k)) in H.
    by rewrite Z.land_spec, E, Z.pow2_bits_true, Z.testbit_0_l in H.
  - apply Z.eqb_eq, Z.bits_inj'. intros i Hi.
    rewrite Z.land_spec, Z.pow2_bits_eqb, Z.testbit_0_l by lia.
    destruct (Z.eqb_spec k i) as [->|]; [by rewrite E|apply andb_false_r].
Qed.

Lemma land_63 i : Z.land i (Bits_word - 1) = i mod 64.
Proof. change (Bits_word - 1) with (Z.ones 6). by rewrite Z.land_ones by lia. Qed.

Lemma bitvect_test_Ret bv i w : bv !! Z.to_nat (i / 64) = Some w ->
  bitvect_test bv i = Ret (Z.testbit w (i mod 64)).
Proof.
  intros E. unfold bitvect_test. fold Bits_word in E. rewrite E. simpl.
  rewrite land_63, land_bit, negb_involutive by (apply Z.mod_pos_bound; lia). done.
Qed.

Lemma div64_inj i j : 0 <= i -> 0 <= j -> Z.to_nat (i / 64) = Z.to_nat (j / 64) -> i mod 64 = j mod 64 -> i = j.
Proof.
  intros Hi Hj Hd Hm. pose proof (Z.div_mod i 64 ltac:(lia)). pose proof (Z.div_mod j 64 ltac:(lia)).
  pose proof (Z.div_pos i 64). pose proof (Z.div_pos j 64). lia.
Qed.

Lemma bitvect_set_spec bv i b : 0 <= i -> bitvect_test bv i = Ret b ->
  exists bv', bitvect_set bv i = Ret bv' /\ length bv' = length bv /\
    forall j c, 0 <= j -> bitvect_test bv j = Ret c -> bitvect_test bv' j = Ret (bool_decide (j = i) || c).
Proof.
  intros Hi E. unfold bitvect_test in E. unfold bitvect_set.
  destruct (bv !! Z.to_nat (i / Bits_word)) as [w|] eqn:Ew; [|done]. clear E. mred. eexists. split; [reflexivity|].
  split; [apply length_insert|]. intros j c Hj Ec. rewrite land_63, Z.shiftl_1_l. change Bits_word with 64 in *.
  pose proof (Z.mod_pos_bound i 64 ltac:(lia)). pose proof (Z.mod_pos_bound j 64 ltac:(lia)).
  destruct (bv !! Z.to_nat (j / 64)) as [w'|] eqn:Ew'.
  2:{ unfold bitvect_test in Ec. change Bits_word with 64 in Ec. by rewrite Ew' in Ec. }
  rewrite (bitvect_test_Ret _ _ _ Ew') in Ec. injection Ec as <-.
  destruct (decide (Z.to_nat (i / 64) = Z.to_nat (j / 64))) as [Hd|Hd].
  - erewrite bitvect_test_Ret; [|rewrite <- Hd; apply list_lookup_insert_eq; by apply lookup_lt_Some in Ew].
    rewrite Hd in Ew. rewrite Ew in Ew'. injection Ew' as ->.
    rewrite Z.lor_spec, Z.pow2_bits_eqb by lia. f_equal. rewrite orb_comm. f_equal.
    destruct (Z.eqb_spec (i mod 64) (j mod 64)) as [Hm|Hm]; symmetry.
    + apply bool_decide_eq_true_2. symmetry. by apply div64_inj.
    + apply bool_decide_eq_false_2. by intros ->.
  - erewrite bitvect_test_Ret; [|rewrite list_lookup_insert_ne by done; exact Ew'].
    rewrite bool_decide_eq_false_2; [done|]. by intros ->.
Qed.

Lemma Bitvect_words n : 0 < n <= 2 ^ 63 -> forall i, 0 <= i < n -> (Z.to_nat (i / 64) < Z.to_nat (Bitvect_size n))%nat.
Proof.
  intros Hn i Hi. unfold Bitvect_size. change Bits_word with 64. rewrite wrap_small by lia.
  assert (i / 64 < (n + 64 - 1) / 64); [|pose proof (Z.div_pos i 64); lia].
  apply Z.div_lt_upper_bound; [lia|].
  pose proof (Z.div_mod (n + 64 - 1) 64 ltac:(lia)). pose proof (Z.mod_pos_bound (n + 64 - 1) 64 ltac:(lia)). lia.
Qed.

(** ** Arithmetic of the table *)

Lemma dims_size t : dims t -> 256 <= pt_size t < 2 ^ 64.
Proof.
  intros [Hs -> _ _]. split; [change 256 with (2 ^ 8); apply Z.pow_le_mono_r; lia|apply Z.pow_lt_mono_r; lia].
Qed.

Lemma Hash_range v s : 0 < s <= 64 -> 0 <= Hash v s < 2 ^ (64 - s).
Proof.
  intros. unfold Hash. rewrite Z.shiftr_div_pow2 by lia. pose proof (wrap_range 64 (u64 v * HASH_FACTOR) ltac:(lia)).
  split; [apply Z.div_pos; lia|]. apply Z.div_lt_upper_bound; [lia|]. rewrite <- Z.pow_add_r by lia.
  replace (s + (64 - s)) with 64 by lia. lia.
Qed.

Lemma probed_range t o d : dims t -> 0 <= probed t o d < pt_size t.
Proof. intros Hd. apply Z.mod_pos_bound. pose proof (dims_size t Hd). lia. Qed.

Lemma probed_0 t o : dims t -> probed t o 0 = Hash o (pt_shift t).
Proof.
  intros Hd. unfold probed. rewrite Z.add_0_r. apply Z.mod_small. rewrite (d_size t Hd).
  apply Hash_range. destruct (d_shift t Hd). lia.
Qed.

Lemma probed_succ t o d : dims t -> Z.land (u64 (probed t o d + 1)) (pt_mask t) = probed t o (d + 1).
Proof.
  intros Hd. pose proof (dims_size t Hd). pose proof (probed_range t o d Hd). unfold probed in *.
  rewrite (d_mask t Hd). rewrite wrap_small by lia.
  rewrite (d_size t Hd) in *. destruct (d_shift t Hd).
  replace (2 ^ (64 - pt_shift t) - 1) with (Z.ones (64 - pt_shift t)) by (rewrite Z.ones_equiv; lia).
  rewrite Z.land_ones by lia. rewrite Zplus_mod_idemp_l. f_equal. lia.
Qed.

(** A table that is not full has a free entry on every probe sequence. *)
Lemma free_entry (sl : gmap Z object_position) n h :
  0 < n -> (forall i e, sl !! i = Some e -> 0 <= i < n) -> Z.of_nat (size sl) < n ->
  exists k, 0 <= k < n /\ sl !! ((h + k) mod n) = None.
Proof.
  intros Hn Hr Hs.
  assert (exists i, 0 <= i < n /\ sl !! i = None) as (i & Hi & E).
  { destruct (decide (Exists (fun i => sl !! i = None) (seqZ 0 n))) as [He|Hne].
    - apply Exists_exists in He as (i & Hi & E). apply list_elem_of_In, elem_of_seqZ in Hi. exists i. split; [lia|done].
    - exfalso. assert (list_to_set (seqZ 0 n) ⊆ dom sl) as Hsub.
      { intros i Hi. apply elem_of_list_to_set in Hi. apply elem_of_dom.
        destruct (sl !! i) eqn:E; [done|]. destruct Hne. apply Exists_exists. exists i. by rewrite <- list_elem_of_In. }
      apply subseteq_size in Hsub. rewrite size_dom, size_list_to_set, length_seqZ in Hsub by apply NoDup_seqZ. lia. }
  exists ((i - h) mod n). split; [apply Z.mod_pos_bound; lia|].
  rewrite Zplus_mod_idemp_r. replace (h + (i - h)) with i by lia. by rewrite Z.mod_small.
Qed.

Lemma dims_63 t : dims t -> 0 < pt_size t <= 2 ^ 63.
Proof.
  intros Hd. pose proof (dims_size t Hd). split; [lia|]. rewrite (d_size t Hd). destruct (d_shift t Hd).
  apply Z.pow_le_mono_r; lia.
Qed.

(** ** Probing and insertion *)
Section Probing.
Context (t : position_table) (sl : gmap Z object_position) (Hd : dims t) (Hh : holds t sl).

Lemma test_probed o d : bitvect_test (pt_present t) (probed t o d) = Ret (bool_decide (is_Some (sl !! probed t o d))).
Proof. apply (h_test t sl Hh), probed_range, Hd. Qed.

Lemma probe_spec o : forall fuel d, 0 <= d ->
  (forall j, 0 <= j < d -> exists e, sl !! probed t o j = Some e /\ obj e <> o) ->
  (exists k, d <= k < d + Z.of_nat fuel /\ sl !! probed t o k = None) ->
  (exists p i, probe fuel t o (probed t o d) = Ret (Found p) /\ sl !! i = Some (mkPosition o p)) \/
  (exists d', d <= d' < d + Z.of_nat fuel /\ probe fuel t o (probed t o d) = Ret (Absent (probed t o d')) /\
     sl !! probed t o d' = None /\
     forall j, 0 <= j < d' -> exists e, sl !! probed t o j = Some e /\ obj e <> o).
Proof.
  induction fuel as [|n IH]; intros d Hd0 Hpre (k & Hk & Ek); [lia|].
  cbn [probe]. rewrite test_probed. mred.
  destruct (sl !! probed t o d) as [e|] eqn:E.
  - rewrite bool_decide_eq_true_2 by done. cbn [negb].
    destruct (h_entry t sl Hh _ _ E) as [_ ->]. cbn [of_option]. mred.
    destruct (Z.eqb_spec (obj e) o) as [<-|Hne].
    + left. exists (pos e), (probed t (obj e) d). split; [done|]. by destruct e.
    + rewrite probed_succ by done. destruct (IH (d + 1)) as [Hf|(d' & Hd' & Hf)].
      * lia.
      * intros j Hj. destruct (decide (j = d)) as [->|]; [eauto|]. apply Hpre. lia.
      * exists k. split; [|done]. destruct (decide (k = d)) as [->|]; [congruence|lia].
      * by left.
      * right. exists d'. split; [lia|done].
  - rewrite bool_decide_eq_false_2 by (by intros [? ?]). right. exists d. split; [lia|done].
Qed.

Lemma free_slot_spec o : forall fuel d, 0 <= d ->
  (forall j, 0 <= j < d -> is_Some (sl !! probed t o j)) ->
  (exists k, d <= k < d + Z.of_nat fuel /\ sl !! probed t o k = None) ->
  exists d', d <= d' < d + Z.of_nat fuel /\
    free_slot fuel (pt_present t) (pt_mask t) (probed t o d) = Ret (probed t o d') /\
    sl !! probed t o d' = None /\ forall j, 0 <= j < d' -> is_Some (sl !! probed t o j).
Proof.
  induction fuel as [|n IH]; intros d Hd0 Hpre (k & Hk & Ek); [lia|].
  cbn [free_slot]. rewrite test_probed. mred.
  destruct (sl !! probed t o d) as [e|] eqn:E.
  - rewrite bool_decide_eq_true_2 by done. rewrite probed_succ by done. destruct (IH (d + 1)) as (d' & Hd' & Hf).
    + lia.
    + intros j Hj. destruct (decide (j = d)) as [->|]; [by rewrite E|]. apply Hpre. lia.
    + exists k. split; [|done]. destruct (decide (k = d)) as [->|]; [congruence|lia].
    + exists d'. split; [lia|done].
  - rewrite bool_decide_eq_false_2 by (by intros [? ?]). exists d. split; [lia|done].
Qed.

Lemma set_entry_spec h e : 0 <= h < pt_size t -> sl !! h = None ->
  exists t', set_entry t h e = Ret t' /\ holds t' (<[h := e]> sl) /\
    pt_shift t' = pt_shift t /\ pt_size t' = pt_size t /\ pt_mask t' = pt_mask t /\ pt_threshold t' = pt_threshold t.
Proof.
  intros Hr Hn. destruct (bitvect_set_spec _ h _ ltac:(lia) (h_test t sl Hh h Hr)) as (bv & E & Hl & Ht).
  unfold set_entry. rewrite E. mred. eexists. split; [reflexivity|]. split; [|done]. split; cbn.
  - rewrite Hl. apply (h_len t sl Hh).
  - intros i Hi. rewrite (Ht i _ ltac:(lia) (h_test t sl Hh i Hi)). f_equal.
    destruct (decide (i = h)) as [->|Hne].
    + rewrite lookup_insert_eq. by rewrite !bool_decide_eq_true_2 by done.
    + rewrite lookup_insert_ne by done. by rewrite (bool_decide_eq_false_2 (i = h)) by done.
  - intros i e' Hi. apply lookup_insert_Some in Hi as [[<- <-]|[Hne Hi]].
    + by rewrite lookup_insert_eq.
    + rewrite lookup_insert_ne by done. by apply (h_entry t sl Hh).
Qed.
End Probing.

Lemma chained_insert t t' sl e d :
  pt_shift t' = pt_shift t -> pt_size t' = pt_size t -> chained t sl -> 0 <= d < pt_size t ->
  sl !! probed t (obj e) d = None ->
  (forall j, 0 <= j < d -> is_Some (sl !! probed t (obj e) j)) ->
  (forall i e', sl !! i = Some e' -> obj e' <> obj e) ->
  chained t' (<[probed t (obj e) d := e]> sl).
Proof.
  intros Es Ez [Hp Hu] Hd Hn Hj Hne.
  assert (Ep : forall o j, probed t' o j = probed t o j) by (intros; unfold probed; by rewrite Es, Ez).
  assert (Hmono : forall i k x, is_Some (sl !! i) -> is_Some (<[k := x]> sl !! i)).
  { intros i k x Hi. destruct (decide (k = i)) as [->|]; [by rewrite lookup_insert_eq|by rewrite lookup_insert_ne]. }
  split.
  - intros i e' Hi. apply lookup_insert_Some in Hi as [[<- <-]|[_ Hi]].
    + exists d. rewrite Ez, Ep. split_and!; try done; try lia. intros j Hj'. rewrite Ep. auto.
    + destruct (Hp i e' Hi) as (d' & Hd' & -> & Hj'). exists d'. rewrite Ez, Ep. split_and!; try done; try lia.
      intros j Hj''. rewrite Ep. auto.
  - intros i i' e1 e2 H1 H2 He. apply lookup_insert_Some in H1 as [[<- <-]|[_ H1]], H2 as [[<- <-]|[_ H2]]; try done.
    + by destruct (Hne _ _ H2).
    + by destruct (Hne _ _ H1).
    + by eapply Hu.
Qed.

Lemma positions_insert sl m h o p :
  positions sl m -> sl !! h = None -> m !! o = None -> positions (<[h := mkPosition o p]> sl) (<[o := p]> m).
Proof.
  intros [Hl Hs] Hh Ho. split; [|by rewrite !map_size_insert_None, Hs].
  intros o' p'. rewrite lookup_insert_Some, Hl. split.
  - intros [[<- <-]|[Hne [i Hi]]].
    + exists h. apply lookup_insert_eq.
    + exists i. rewrite lookup_insert_ne; [done|]. intros <-. congruence.
  - intros [i Hi]. apply lookup_insert_Some in Hi as [[<- [= <- <-]]|[_ Hi]]; [by left|]. right. split; [|eauto].
    intros <-. enough (m !! o = Some p') by congruence. apply Hl. eauto.
Qed.

Lemma positions_None sl m o : positions sl m -> (forall i e, sl !! i = Some e -> obj e <> o) -> m !! o = None.
Proof.
  intros Hp Hne. destruct (m !! o) as [p|] eqn:E; [|done].
  apply (p_lookup _ _ Hp) in E as [i Hi]. by destruct (Hne _ _ Hi).
Qed.

Lemma positions_fresh sl m o i e : positions sl m -> m !! o = None -> sl !! i = Some e -> obj e <> o.
Proof.
  intros Hp Ho Hi <-. enough (m !! obj e = Some (pos e)) by congruence. apply (p_lookup _ _ Hp). exists i. by destruct e.
Qed.

Lemma positions_inj sl m m' : positions sl m -> positions sl m' -> m = m'.
Proof.
  intros Hp Hp'. apply map_eq. intros o. apply option_eq. intros p.
  by rewrite (p_lookup _ _ Hp), (p_lookup _ _ Hp').
Qed.

Lemma table_room t m sl o : dims t -> holds t sl -> positions sl m -> Z.of_nat (size m) < pt_size t ->
  exists k, 0 <= k < 0 + Z.of_nat (Z.to_nat (pt_size t)) /\ sl !! probed t o k = None.
Proof.
  intros Hd Hh Hp Hs. pose proof (dims_63 t Hd).
  destruct (free_entry sl (pt_size t) (Hash o (pt_shift t))) as (k & Hk & E); [lia| | |].
  - intros i e Hi. apply (h_entry t sl Hh _ _ Hi).
  - by rewrite <- (p_size _ _ Hp).
  - exists k. split; [lia|done].
Qed.

(** Insertion of an object at the entry a search for it ended in. *)
Lemma insert_ok t m sl o p d : dims t -> holds t sl -> chained t sl -> positions sl m -> m !! o = None ->
  0 <= d < pt_size t -> sl !! probed t o d = None -> (forall j, 0 <= j < d -> is_Some (sl !! probed t o j)) ->
  exists t' sl', set_entry t (probed t o d) (mkPosition o p) = Ret t' /\ dims t' /\ pt_size t' = pt_size t /\
    holds t' sl' /\ chained t' sl' /\ positions sl' (<[o := p]> m).
Proof.
  intros Hd Hh Hc Hp Ho Hr Hn Hj.
  destruct (set_entry_spec t sl Hh (probed t o d) (mkPosition o p)) as (t' & E & Hh' & Es & Ez & Em & Et);
    [by apply probed_range|done|].
  exists t', (<[probed t o d := mkPosition o p]> sl). split_and!; try done.
  - destruct Hd. split; congruence.
  - apply (chained_insert t t' sl (mkPosition o p) d); try done.
    intros i e' Hi. by eapply positions_fresh.
  - by apply positions_insert.
Qed.

Lemma lookup_ok t m sl o : dims t -> holds t sl -> chained t sl -> positions sl m -> Z.of_nat (size m) < pt_size t ->
  match m !! o with
  | Some p => extern_lookup_position t o = Ret (Found p)
  | None => exists d, 0 <= d < pt_size t /\ extern_lookup_position t o = Ret (Absent (probed t o d)) /\
      sl !! probed t o d = None /\ forall j, 0 <= j < d -> is_Some (sl !! probed t o j)
  end.
Proof.
  intros Hd Hh Hc Hp Hs. unfold extern_lookup_position. rewrite <- probed_0 by done.
  pose proof (table_room t m sl o Hd Hh Hp Hs) as Hroom. pose proof (dims_63 t Hd).
  destruct (probe_spec t sl Hd Hh o (Z.to_nat (pt_size t)) 0) as [(p & i & E & Hi)|(d & Hr & E & Hn & Hj)]; try done; try lia.
  - rewrite (proj2 (p_lookup _ _ Hp o p)) by eauto. done.
  - rewrite (positions_None sl m o Hp).
    + exists d. split_and!; try done; try lia. intros j Hj'. destruct (Hj j Hj') as (e & He & _). eauto.
    + intros i e Hi <-. destruct (c_path t sl Hc i e Hi) as (d0 & Hd0 & -> & Hj0).
      destruct (Z.lt_trichotomy d d0) as [Hlt|[->|Hgt]].
      * destruct (Hj0 d) as [? ?]; [lia|congruence].
      * congruence.
      * destruct (Hj d0) as (e' & He' & Hne); [lia|]. congruence.
Qed.

(** ** Growth *)

Definition part (i : Z) (sl : gmap Z object_position) : gmap Z object_position :=
  filter (fun je => je.1 < i) sl.

Lemma part_None sl i : sl !! i = None -> part (i + 1) sl = part i sl.
Proof.
  intros E. unfold part. apply map_filter_ext. intros j e Hj. simpl.
  split; [|lia]. intros. enough (j <> i) by lia. intros ->. congruence.
Qed.
Lemma part_Some sl i e : sl !! i = Some e -> part (i + 1) sl = <[i := e]> (part i sl).
Proof.
  intros E. unfold part. apply map_eq. intros j. apply option_eq. intros e'.
  rewrite lookup_insert_Some, !map_lookup_filter_Some. simpl. split.
  - intros [Hj Hlt]. destruct (decide (i = j)) as [->|]; [left; split; congruence|]. right. repeat split; try done. lia.
  - intros [[<- <-]|(Hne & Hj & Hlt)]; (split; [done|lia]).
Qed.
Lemma part_lookup sl i j e : part i sl !! j = Some e -> sl !! j = Some e /\ j < i.
Proof. unfold part. by rewrite map_lookup_filter_Some. Qed.

Lemma reinsert_spec old sl_old m : holds old sl_old -> chained old sl_old ->
  forall n i t sl' m', Z.of_nat n + i = pt_size old -> 0 <= i ->
  dims t -> pt_size old < pt_size t -> Z.of_nat (size sl_old) <= pt_size old ->
  holds t sl' -> chained t sl' -> positions sl' m' -> positions (part i sl_old) m' -> positions sl_old m ->
  exists t' sl, reinsert n i old t = Ret t' /\ dims t' /\ pt_size t' = pt_size t /\
    holds t' sl /\ chained t' sl /\ positions sl m.
Proof.
  intros Hho Hco. induction n as [|n IH]; intros i t sl' m' Hn Hi Hd Hlt Hsz Hh Hc Hp Hpo Hm; cbn [reinsert].
  - exists t, sl'. split_and!; try done. enough (m' = m) by congruence. eapply positions_inj; [exact Hpo|].
    enough (part i sl_old = sl_old) as -> by done. apply map_filter_id. intros j e Hj. simpl.
    apply (h_entry _ _ Hho) in Hj. lia.
  - rewrite (h_test _ _ Hho) by lia. mred. destruct (sl_old !! i) as [e|] eqn:E.
    + rewrite bool_decide_eq_true_2 by done. destruct (h_entry _ _ Hho _ _ E) as [_ ->]. cbn [of_option]. mred.
      assert (size m' <= size sl_old)%nat as Hsm by (rewrite (p_size _ _ Hpo); apply map_subseteq_size, map_filter_subseteq).
      destruct (free_slot_spec t sl' Hd Hh (obj e) (Z.to_nat (pt_size t)) 0) as (d & Hr & Ef & Hnone & Hj); [lia|lia| |].
      { eapply table_room; try done. lia. }
      rewrite <- probed_0 by done. rewrite Ef. mred.
      assert (m' !! obj e = None) as Hfresh.
      { eapply positions_None; [exact Hpo|]. intros j e' Hj'. apply part_lookup in Hj' as [Hj' Hlt'].
        intros He. enough (j = i) by lia. by eapply (c_unique _ _ Hco). }
      destruct (insert_ok t m' sl' (obj e) (pos e) d) as (t' & sl2 & Es & Hd' & Ez & Hh' & Hc' & Hp'); try done; [lia|].
      replace (mkPosition (obj e) (pos e)) with e in * by by destruct e. rewrite Es. mred.
      destruct (IH (i + 1) t' sl2 (<[obj e := pos e]> m')) as (t2 & sl3 & E2 & Hd2 & Ez2 & H2); try done; try lia.
      * rewrite (part_Some _ _ _ E).
        replace (<[i := e]> (part i sl_old)) with (<[i := mkPosition (obj e) (pos e)]> (part i sl_old)) by by destruct e.
        apply positions_insert; try done. destruct (part i sl_old !! i) eqn:E'; [|done]. apply part_lookup in E'. lia.
      * destruct H2 as (? & ? & ?). exists t2, sl3. rewrite Ez2. by split_and!.
    + rewrite bool_decide_eq_false_2 by (by intros [? ?]). mred. eapply IH; try done; try lia. by rewrite part_None.
Qed.

(** A table of [2^k] entries, all free. *)
Lemma empty_ok t : dims t -> pt_present t = replicate (Z.to_nat (Bitvect_size (pt_size t))) 0 -> pt_entries t = ∅ ->
  holds t ∅ /\ chained t ∅ /\ positions ∅ ∅.
Proof.
  intros Hd Ep Ee. split_and!; split; try done.
  - rewrite Ep. apply length_replicate.
  - intros i Hi. rewrite lookup_empty, bool_decide_eq_false_2 by (by intros [? ?]).
    erewrite bitvect_test_Ret; [by rewrite Z.testbit_0_l|]. rewrite Ep. apply lookup_replicate. split; [done|].
    by apply Bitvect_words; [apply dims_63|].
  - intros o p. rewrite lookup_empty. split; [done|]. intros [i Hi]. by rewrite lookup_empty in Hi.
Qed.

Lemma Threshold_eq n : 0 <= n < 2 ^ 63 -> Threshold n = n * 2 / 3.
Proof. intros. unfold Threshold. by rewrite wrap_small by lia. Qed.

(** The new size and shift, when they are representable. *)
Lemma grown_dims old k bv new_size : dims old -> 0 < k -> new_size = u64 (2 ^ k * pt_size old) ->
  new_size <> 0 -> new_size * sizeof_object_position < 2 ^ 64 ->
  dims (mkTable (pt_shift old - k) new_size (new_size - 1) (Threshold new_size) bv ∅) /\
  new_size = 2 ^ k * pt_size old.
Proof.
  intros [Hs Hz _ _] Hk -> Hne Hb. rewrite Hz in *.
  assert (2 ^ k * 2 ^ (64 - pt_shift old) = 2 ^ (64 - (pt_shift old - k))) as Ep
    by (rewrite <- Z.pow_add_r by lia; f_equal; lia).
  unfold sizeof_object_position in Hb.
  destruct (Z.le_gt_cases 64 (64 - (pt_shift old - k))) as [Hbig|Hsmall].
  { destruct Hne. unfold wrap. rewrite Ep.
    replace (64 - (pt_shift old - k)) with (k - pt_shift old + 64) by lia.
    rewrite Z.pow_add_r by lia. apply Z_mod_mult. }
  assert (u64 (2 ^ k * 2 ^ (64 - pt_shift old)) = 2 ^ k * 2 ^ (64 - pt_shift old)) as En.
  { apply wrap_small. rewrite Ep. split; [lia|]. apply Z.pow_lt_mono_r; lia. }
  split; [|done]. split; cbn; try done.
  - split; [lia|]. lia.
  - rewrite En. exact Ep.
  - apply Threshold_eq. lia.
Qed.

Lemma resize_ok stat_alloc t m : table_ok t m ->
  match extern_resize_position_table stat_alloc t with
  | Ret t' => table_ok t' m /\ 2 * pt_size t <= pt_size t' <= 8 * pt_size t
  | Raise e => e = Out_of_memory /\ ((exists n, stat_alloc n = false) \/ 2 ^ 59 <= pt_size t)
  | _ => False
  end.
Proof.
  intros (Hd & Hsz & sl & Hh & Hc & Hp). pose proof (dims_63 t Hd). unfold extern_resize_position_table.
  assert (exists k, 0 < k /\ (if pt_size t <? 1000000 then (u64 (8 * pt_size t), pt_shift t - 3)
    else (u64 (2 * pt_size t), pt_shift t - 1)) = (u64 (2 ^ k * pt_size t), pt_shift t - k) /\
    k <= 3 /\ (2 ^ 59 <= pt_size t \/ 2 ^ k * pt_size t < 2 ^ 60)) as (k & Hk & -> & Hk3 & Hlarge).
  { destruct (Z.ltb_spec (pt_size t) 1000000); [exists 3|exists 1]; (split; [lia|]; split; [done|]); lia. }
  pose proof (grown_dims t k (replicate (Z.to_nat (Bitvect_size (u64 (2 ^ k * pt_size t)))) 0) _ Hd Hk eq_refl) as Hg.
  destruct (Z.eqb_spec (u64 (2 ^ k * pt_size t)) 0) as [E0|E0]; cbn [orb].
  { split; [done|]. right. destruct Hlarge as [|Hl]; [done|]. rewrite wrap_small in E0 by lia. nia. }
  destruct (Z.leb_spec (2 ^ 64) (u64 (2 ^ k * pt_size t) * sizeof_object_position)) as [Hle|Hgt].
  { split; [done|]. right. destruct Hlarge as [|Hl]; [done|]. rewrite wrap_small in Hle by lia.
    unfold sizeof_object_position in Hle. lia. }
  destruct (stat_alloc _) eqn:Ea; cbn [negb]; [|by eauto]. clear Ea. destruct (stat_alloc _) eqn:Ea; cbn [negb]; [|by eauto].
  destruct Hg as [Hd' En]; [done|lia|]. rewrite En in *. set (t0 := mkTable _ _ _ _ _ _).
  assert (2 * pt_size t <= 2 ^ k * pt_size t) as Hdouble.
  { apply Z.mul_le_mono_nonneg_r; [lia|]. change 2 with (2 ^ 1) at 1. apply Z.pow_le_mono_r; lia. }
  destruct (empty_ok t0) as (Hh0 & Hc0 & Hp0); try done.
  destruct (reinsert_spec t sl m Hh Hc (Z.to_nat (pt_size t)) 0 t0 ∅ ∅) as (t' & sl' & -> & H'); try done; try lia.
  - unfold t0. cbn [pt_size]. lia.
  - rewrite <- (p_size _ _ Hp). lia.
  - enough (part 0 sl = ∅) as -> by done. apply map_empty. intros i. destruct (part 0 sl !! i) eqn:E; [|done].
    apply part_lookup in E as [E ?]. apply (h_entry _ _ Hh) in E. lia.
  - destruct H' as (Hd2 & Ez2 & Hh2 & Hc2 & Hp2). rewrite Ez2. cbn [pt_size t0]. split.
    + split; [done|]. split; [rewrite Ez2; cbn; lia|]. by exists sl'.
    + split; [done|]. apply Z.mul_le_mono_nonneg_r; [lia|]. change 8 with (2 ^ 3). apply Z.pow_le_mono_r; lia.
Qed.

(** The state of a table between two operations of the marshaler. *)
Definition usable (t : position_table) (m : gmap Z Z) : Prop :=
  table_ok t m /\ Z.of_nat (size m) < pt_threshold t /\ pt_size t <= 256 + 16 * Z.of_nat (size m).

Lemma init_usable : usable init_position_table ∅.
Proof.
  assert (dims init_position_table) as Hd by by vm_compute.
  split; [|by split; vm_compute]. split; [done|]. split; [by vm_compute|]. exists ∅. by apply empty_ok.
Qed.

Lemma usable_lookup t m o p : usable t m -> m !! o = Some p -> extern_lookup_position t o = Ret (Found p).
Proof.
  intros [(Hd & Hs & sl & Hh & Hc & Hp) _] E. pose proof (lookup_ok t m sl o Hd Hh Hc Hp Hs) as H. by rewrite E in H.
Qed.

Lemma usable_record stat_alloc t m o : usable t m -> m !! o = None ->
  exists h, extern_lookup_position t o = Ret (Absent h) /\
    match record_location stat_alloc t o h (Z.of_nat (size m)) with
    | Ret t' => usable t' (<[o := Z.of_nat (size m)]> m)
    | Raise e => e = Out_of_memory /\ ((exists n, stat_alloc n = false) \/ 2 ^ 54 <= Z.of_nat (size m))
    | _ => False
    end.
Proof.
  intros [(Hd & Hs & sl & Hh & Hc & Hp) [Hthr Hmax]] E. pose proof (lookup_ok t m sl o Hd Hh Hc Hp Hs) as H. rewrite E in H.
  destruct H as (d & Hr & -> & Hn & Hj). eexists. split; [reflexivity|]. unfold record_location.
  destruct (insert_ok t m sl o (Z.of_nat (size m)) d) as (t' & sl' & -> & Hd' & Ez & Hh' & Hc' & Hp'); try done. mred.
  rewrite (d_threshold _ Hd) in Hthr. rewrite (d_threshold _ Hd'), Ez. pose proof (dims_63 t Hd). pose proof (dims_size t Hd).
  pose proof (Z.div_mod (pt_size t * 2) 3 ltac:(lia)). pose proof (Z.mod_pos_bound (pt_size t * 2) 3 ltac:(lia)).
  rewrite wrap_small by lia.
  assert (table_ok t' (<[o := Z.of_nat (size m)]> m)) as Hok.
  { split; [done|]. split; [|by exists sl']. rewrite map_size_insert_None by done. lia. }
  destruct (Z.leb_spec (pt_size t * 2 / 3) (Z.of_nat (size m) + 1)) as [Hle|Hgt].
  - pose proof (resize_ok stat_alloc t' _ Hok) as Hres. destruct (extern_resize_position_table _ _) as [t2|e| | |]; try done.
    + destruct Hres as [Hok2 Hsz2]. split; [done|]. destruct Hok2 as [Hd2 _].
      rewrite map_size_insert_None, (d_threshold _ Hd2) by done. rewrite Ez in Hsz2. split; [|lia].
      apply (Z.lt_le_trans _ (2 * pt_size t * 2 / 3)); [|apply Z.div_le_mono; lia].
      pose proof (Z.div_mod (2 * pt_size t * 2) 3 ltac:(lia)). pose proof (Z.mod_pos_bound (2 * pt_size t * 2) 3 ltac:(lia)). lia.
    + destruct Hres as [-> Hres]. split; [done|]. destruct Hres as [|Hres]; [by left|right]. lia.
  - split; [done|]. rewrite map_size_insert_None, (d_threshold _ Hd'), Ez by done. lia.
Qed.

(** C11: The position table implements a finite map from blocks to
    positions.  It starts empty; a lookup finds exactly the recorded position
    of a block, after finitely many probes; for a block not recorded it
    returns a free entry, and recording the block there, with the growth of
    the table it may trigger, adds exactly that block with the next position
    and leaves a table in which the next search ends.  The only failure is a
    refused allocation. *)
Theorem position_table_refines (stat_alloc : Z -> bool) (t : position_table) (m : gmap Z Z) (o : Z) :
  usable init_position_table ∅ /\
  (usable t m ->
   match m !! o with
   | Some p => extern_lookup_position t o = Ret (Found p)
   | None => exists h, extern_lookup_position t o = Ret (Absent h) /\
       match record_location stat_alloc t o h (Z.of_nat (size m)) with
       | Ret t' => usable t' (<[o := Z.of_nat (size m)]> m)
       | Raise e => e = Out_of_memory /\ ((exists n, stat_alloc n = false) \/ 2 ^ 54 <= Z.of_nat (size m))
       | _ => False
       end
   end).
Proof.
  split; [apply init_usable|]. intros Hu. destruct (m !! o) eqn:E; [by eapply usable_lookup|by apply usable_record].
Qed.

Lemma position_table_refines_witness :
  exists h, extern_lookup_position init_position_table 4096 = Ret (Absent h) /\
    match record_location (fun _ => true) init_position_table 4096 h 0 with
    | Ret t => extern_lookup_position t 4096 = Ret (Found 0)
    | _ => False
    end.
Proof.
  destruct (position_table_refines (fun _ => true) init_position_table ∅ 4096) as [Hi H].
  destruct (H Hi) as (h & E & Hr). exists h. split; [done|]. vm_compute in E. injection E as <-. by vm_compute.
Defined.
End PosTable.
