(* ===== verification/Extern.v ===== *)
(** * Marshaling (runtime/extern.c, caml/intext.h)

    The output format, the output buffers, the writers of each kind of datum
    and the traversal that writes a value with its sharing.  The bytes
    written so far are the closed output blocks followed by the current one;
    an exception abandons the state, which the next call initialises again. *)

From S2P Require Import Prelude Memory Ints Strings Arrays PosTable.
Import PosTable.

Module Extern.

(** ** The format *)
Definition Intext_magic_number_small : Z := 0x8495A6BE.
Definition Intext_magic_number_big : Z := 0x8495A6BF.
Definition Intext_magic_number_compressed : Z := 0x8495A6BD.

Definition PREFIX_SMALL_BLOCK : Z := 0x80.
Definition PREFIX_SMALL_INT : Z := 0x40.
Definition PREFIX_SMALL_STRING : Z := 0x20.
Definition CODE_INT8 : Z := 0x0.
Definition CODE_INT16 : Z := 0x1.
Definition CODE_INT32 : Z := 0x2.
Definition CODE_INT64 : Z := 0x3.
Definition CODE_SHARED8 : Z := 0x4.
Definition CODE_SHARED16 : Z := 0x5.
Definition CODE_SHARED32 : Z := 0x6.
Definition CODE_SHARED64 : Z := 0x14.
Definition CODE_BLOCK32 : Z := 0x8.
Definition CODE_BLOCK64 : Z := 0x13.
Definition CODE_STRING8 : Z := 0x9.
Definition CODE_STRING32 : Z := 0xA.
Definition CODE_STRING64 : Z := 0x15.
Definition CODE_DOUBLE_BIG : Z := 0xB.
Definition CODE_DOUBLE_LITTLE : Z := 0xC.
Definition CODE_DOUBLE_ARRAY8_BIG : Z := 0xD.
Definition CODE_DOUBLE_ARRAY8_LITTLE : Z := 0xE.
Definition CODE_DOUBLE_ARRAY32_BIG : Z := 0xF.
Definition CODE_DOUBLE_ARRAY32_LITTLE : Z := 0x7.
Definition CODE_DOUBLE_ARRAY64_BIG : Z := 0x16.
Definition CODE_DOUBLE_ARRAY64_LITTLE : Z := 0x17.
Definition CODE_CODEPOINTER : Z := 0x10.
Definition CODE_INFIXPOINTER : Z := 0x11.
Definition OLD_CODE_CUSTOM : Z := 0x12.
Definition CODE_CUSTOM_LEN : Z := 0x18.
Definition CODE_CUSTOM_FIXED : Z := 0x19.
(** The machine is little-endian. *)
Definition CODE_DOUBLE_NATIVE : Z := CODE_DOUBLE_LITTLE.
Definition CODE_DOUBLE_ARRAY8_NATIVE : Z := CODE_DOUBLE_ARRAY8_LITTLE.
Definition CODE_DOUBLE_ARRAY32_NATIVE : Z := CODE_DOUBLE_ARRAY32_LITTLE.
Definition CODE_DOUBLE_ARRAY64_NATIVE : Z := CODE_DOUBLE_ARRAY64_LITTLE.

(** ** State *)
Definition NO_SHARING : Z := 1.
Definition CLOSURES : Z := 2.
Definition COMPAT_32 : Z := 4.
Definition COMPRESSED : Z := 8.

Definition EXTERN_STACK_INIT_SIZE : Z := 256.
Definition EXTERN_STACK_MAX_SIZE : Z := 1024 * 1024 * 100.
Definition SIZE_EXTERN_OUTPUT_BLOCK : Z := 8100.
Definition sizeof_caml_output_block : Z := 8120.
Definition sizeof_extern_item : Z := 16.

(** [&Field(v, i)] and the number of fields from there. *)
Record extern_item := mkItem { item_v : Z; item_count : Z }.

(** [extern_stack_size] is [extern_stack_limit - extern_stack];
    [extern_user] whether the output goes to a user-provided buffer;
    [extern_blocks] the closed output blocks, [extern_cur] the bytes of the
    current one and [extern_room] its capacity. *)
Record extern_state := mkExtern {
  extern_flags : Z;
  obj_counter : Z;
  size_32 : Z;
  size_64 : Z;
  extern_stack_size : Z;
  pos_table : position_table;
  extern_user : bool;
  extern_blocks : list (list Z);
  extern_cur : list Z;
  extern_room : Z;
}.

Definition set_flags (f : Z) (s : extern_state) : extern_state :=
  mkExtern f (obj_counter s) (size_32 s) (size_64 s) (extern_stack_size s) (pos_table s)
    (extern_user s) (extern_blocks s) (extern_cur s) (extern_room s).
Definition set_obj_counter (n : Z) (s : extern_state) : extern_state :=
  mkExtern (extern_flags s) n (size_32 s) (size_64 s) (extern_stack_size s) (pos_table s)
    (extern_user s) (extern_blocks s) (extern_cur s) (extern_room s).
Definition set_sizes (n32 n64 : Z) (s : extern_state) : extern_state :=
  mkExtern (extern_flags s) (obj_counter s) n32 n64 (extern_stack_size s) (pos_table s)
    (extern_user s) (extern_blocks s) (extern_cur s) (extern_room s).
Definition set_stack_size (n : Z) (s : extern_state) : extern_state :=
  mkExtern (extern_flags s) (obj_counter s) (size_32 s) (size_64 s) n (pos_table s)
    (extern_user s) (extern_blocks s) (extern_cur s) (extern_room s).
Definition set_pos_table (t : position_table) (s : extern_state) : extern_state :=
  mkExtern (extern_flags s) (obj_counter s) (size_32 s) (size_64 s) (extern_stack_size s) t
    (extern_user s) (extern_blocks s) (extern_cur s) (extern_room s).
Definition set_output (user : bool) (blocks : list (list Z)) (cur : list Z) (room : Z) (s : extern_state) : extern_state :=
  mkExtern (extern_flags s) (obj_counter s) (size_32 s) (size_64 s) (extern_stack_size s) (pos_table s)
    user blocks cur room.
Definition set_cur (cur : list Z) (s : extern_state) : extern_state :=
  set_output (extern_user s) (extern_blocks s) cur (extern_room s) s.

Definition has_flag (s : extern_state) (f : Z) : bool := negb (Z.land (extern_flags s) f =? 0).

(** [size_32 += n32; size_64 += n64] *)
Definition add_sizes (n32 n64 : Z) (s : extern_state) : extern_state :=
  set_sizes (u64 (size_32 s + n32)) (u64 (size_64 s + n64)) s.

Definition init_extern_state : extern_state :=
  mkExtern 0 0 0 0 EXTERN_STACK_INIT_SIZE init_position_table false [] [] 0.

(** ** Big-endian numbers *)
Definition store16 (n : Z) : list Z := [u8 (Z.shiftr n 8); u8 n].
Definition store32 (n : Z) : list Z :=
  [u8 (Z.shiftr n 24); u8 (Z.shiftr n 16); u8 (Z.shiftr n 8); u8 n].
Definition store64 (n : Z) : list Z :=
  [u8 (Z.shiftr n 56); u8 (Z.shiftr n 48); u8 (Z.shiftr n 40); u8 (Z.shiftr n 32);
   u8 (Z.shiftr n 24); u8 (Z.shiftr n 16); u8 (Z.shiftr n 8); u8 n].

(** The bytes [storevlq] writes: the last digit, then the others before it;
    a 64-bit number has at most ten digits. *)
Fixpoint vlq_prefix (fuel : nat) (n : Z) (dst : list Z) : list Z :=
  match fuel with
  | O => dst
  | S k => if n =? 0 then dst else vlq_prefix k (Z.shiftr n 7) (Z.lor 0x80 (Z.land n 0x7F) :: dst)
  end.
Definition storevlq (n : Z) : list Z := vlq_prefix 10 (Z.shiftr n 7) [Z.land n 0x7F].

(** [for (len = 0, blk = first; blk != NULL; blk = blk->next) len += blk->end - blk->data] *)
Definition output_bytes (s : extern_state) : list Z := concat (extern_blocks s) ++ extern_cur s.
Definition extern_output_length (s : extern_state) : Z := zlength (output_bytes s).

Record code_fragment := mkFragment { code_start : Z; code_end : Z; cf_digest : option (list Z) }.

(** ** What the marshaler calls

    The table of custom operations, by the address of the structure, the
    table of code fragments, and the compressor when the system has one. *)
Class ExternEnv : Type := {
  stat_alloc : Z -> bool;
  ops_identifier : Z -> list Z;
  ops_fixed_length : Z -> option (Z * Z);
  ops_serialize : Z -> option (heap -> Z -> extern_state -> result (extern_state * Z * Z));
  caml_find_code_fragment_by_pc : Z -> option code_fragment;
  caml_extern_compress_output : option (list Z -> option (list Z));
}.

Section Writers.
Context {EE : ExternEnv}.

(** ** Output buffers *)
Definition init_extern_output (s : extern_state) : result extern_state :=
  if stat_alloc sizeof_caml_output_block
  then Ret (set_output false [] [] SIZE_EXTERN_OUTPUT_BLOCK s)
  else Raise Out_of_memory.

Definition grow_extern_output (s : extern_state) (required : Z) : result extern_state :=
  if extern_user s then Raise (Failure "Marshal.to_buffer: buffer overflow")
  else
    let extra := if required <=? SIZE_EXTERN_OUTPUT_BLOCK / 2 then 0 else required in
    if stat_alloc (sizeof_caml_output_block + extra)
    then Ret (set_output false (extern_blocks s ++ [extern_cur s]) [] (SIZE_EXTERN_OUTPUT_BLOCK + extra) s)
    else Raise Out_of_memory.

(** [if (extern_ptr + n > extern_limit) grow_extern_output(s, n);] *)
Definition reserve (s : extern_state) (n : Z) : result extern_state :=
  if extern_room s <? zlength (extern_cur s) + n then grow_extern_output s n else Ret s.
Definition put (s : extern_state) (l : list Z) : extern_state := set_cur (extern_cur s ++ l) s.

Definition writebyte (s : extern_state) (c : Z) : result extern_state :=
  s ← (if extern_room s <=? zlength (extern_cur s) then grow_extern_output s 1 else Ret s);
  Ret (put s [u8 c]).
Definition writeblock (s : extern_state) (data : list Z) : result extern_state :=
  s ← reserve s (zlength data); Ret (put s data).
Definition writecode8 (s : extern_state) (code val : Z) : result extern_state :=
  s ← reserve s 2; Ret (put s [u8 code; u8 val]).
Definition writecode16 (s : extern_state) (code val : Z) : result extern_state :=
  s ← reserve s 3; Ret (put s (u8 code :: store16 (s32 val))).
Definition writecode32 (s : extern_state) (code val : Z) : result extern_state :=
  s ← reserve s 5; Ret (put s (u8 code :: store32 val)).
Definition writecode64 (s : extern_state) (code val : Z) : result extern_state :=
  s ← reserve s 9; Ret (put s (u8 code :: store64 val)).
(** [writeblock_float8]: the doubles at [data], in native order. *)
Definition writeblock_float8 (h : heap) (s : extern_state) (data ndoubles : Z) : result extern_state :=
  l ← read_bytes (Z.to_nat (ndoubles * 8)) h data 0;
  writeblock s l.

(** ** Writers of each kind of datum *)
Definition extern_int (s : extern_state) (n : Z) : result extern_state :=
  if (0 <=? n) && (n <? 0x40) then writebyte s (PREFIX_SMALL_INT + n)
  else if (- Z.shiftl 1 7 <=? n) && (n <? Z.shiftl 1 7) then writecode8 s CODE_INT8 n
  else if (- Z.shiftl 1 15 <=? n) && (n <? Z.shiftl 1 15) then writecode16 s CODE_INT16 n
  else if (n <? - Z.shiftl 1 30) || (Z.shiftl 1 30 <=? n) then
    if has_flag s COMPAT_32 then Raise (Failure "output_value: integer cannot be read back on 32-bit platform")
    else writecode64 s CODE_INT64 n
  else writecode32 s CODE_INT32 n.

Definition extern_shared_reference (s : extern_state) (d : Z) : result extern_state :=
  if d <? 0x100 then writecode8 s CODE_SHARED8 d
  else if d <? 0x10000 then writecode16 s CODE_SHARED16 d
  else if 2 ^ 32 <=? d then writecode64 s CODE_SHARED64 d
  else writecode32 s CODE_SHARED32 d.

Definition NOT_MARKABLE : Z := Z.shiftl 3 8.
Definition extern_header (s : extern_state) (sz tag : Z) : result extern_state :=
  if (tag <? 16) && (sz <? 8) then writebyte s (PREFIX_SMALL_BLOCK + tag + Z.shiftl sz 4)
  else
    let hd := Make_header sz tag NOT_MARKABLE in
    if (0x3FFFFF <? sz) && has_flag s COMPAT_32
    then Raise (Failure "output_value: array cannot be read back on 32-bit platform")
    else if hd <? 2 ^ 32 then writecode32 s CODE_BLOCK32 hd
    else writecode64 s CODE_BLOCK64 hd.

Definition extern_string (h : heap) (s : extern_state) (v len : Z) : result extern_state :=
  s ← (if len <? 0x20 then writebyte s (PREFIX_SMALL_STRING + len)
       else if len <? 0x100 then writecode8 s CODE_STRING8 len
       else if (0xFFFFFB <? len) && has_flag s COMPAT_32
       then Raise (Failure "output_value: string cannot be read back on 32-bit platform")
       else if len <? 2 ^ 32 then writecode32 s CODE_STRING32 len
       else writecode64 s CODE_STRING64 len);
  l ← read_bytes (Z.to_nat len) h v 0;
  writeblock s l.

Definition extern_double (h : heap) (s : extern_state) (v : Z) : result extern_state :=
  s ← writebyte s CODE_DOUBLE_NATIVE;
  writeblock_float8 h s v 1.

Definition extern_double_array (h : heap) (s : extern_state) (v nfloats : Z) : result extern_state :=
  s ← (if nfloats <? 0x100 then writecode8 s CODE_DOUBLE_ARRAY8_NATIVE nfloats
       else if (0x1FFFFF <? nfloats) && has_flag s COMPAT_32
       then Raise (Failure "output_value: float array cannot be read back on 32-bit platform")
       else if nfloats <? 2 ^ 32 then writecode32 s CODE_DOUBLE_ARRAY32_NATIVE nfloats
       else writecode64 s CODE_DOUBLE_ARRAY64_NATIVE nfloats);
  writeblock_float8 h s v nfloats.

(** The bytes [l] written at offset [ofs] of output block number [blk]. *)
Definition patch (s : extern_state) (blk ofs : nat) (l : list Z) : extern_state :=
  if Nat.eqb blk (length (extern_blocks s)) then set_cur (list_inserts ofs l (extern_cur s)) s
  else set_output (extern_user s) (alter (list_inserts ofs l) blk (extern_blocks s)) (extern_cur s) (extern_room s) s.

(** The result: the state, [sz_32] and [sz_64].  A serializer that
    contradicts its declared sizes aborts the program. *)
Definition extern_custom (h : heap) (s : extern_state) (v : Z) : result (extern_state * Z * Z) :=
  ops ← Field h v 0;
  match ops_serialize ops with
  | None => Raise (Invalid_argument "output_value: abstract value (Custom)")
  | Some serialize =>
      match ops_fixed_length ops with
      | None =>
          s ← writebyte s CODE_CUSTOM_LEN;
          s ← writeblock s (ops_identifier ops ++ [0]);
          s ← (if extern_room s <=? zlength (extern_cur s) + 12 then grow_extern_output s 12 else Ret s);
          let blk := length (extern_blocks s) in
          let ofs := length (extern_cur s) in
          let s := put s (replicate 12 0) in
          '(s, sz_32, sz_64) ← serialize h v s;
          Ret (patch (patch s blk ofs (store32 sz_32)) blk (ofs + 4) (store64 sz_64), sz_32, sz_64)
      | Some (bsize_32, bsize_64) =>
          s ← writebyte s CODE_CUSTOM_FIXED;
          s ← writeblock s (ops_identifier ops ++ [0]);
          '(s, sz_32, sz_64) ← serialize h v s;
          if negb (sz_32 =? bsize_32) || negb (sz_64 =? bsize_64) then Undef else Ret (s, sz_32, sz_64)
      end
  end.

Definition extern_code_pointer (s : extern_state) (codeptr : Z) : result extern_state :=
  match caml_find_code_fragment_by_pc codeptr with
  | Some cf =>
      if negb (has_flag s CLOSURES) then Raise (Invalid_argument "output_value: functional value")
      else
        match cf_digest cf with
        | None => Raise (Invalid_argument "output_value: private function")
        | Some digest =>
            s ← writecode32 s CODE_CODEPOINTER (codeptr - code_start cf);
            writeblock s digest
        end
  | None => Raise (Invalid_argument "output_value: abstract value (outside heap)")
  end.

Definition Closinfo_val (h : heap) (v : Z) : result Z := Field h v 1.

(** The [do ... while (i < startenv)] loop: each round passes at least two
    fields. *)
Fixpoint closure_loop (fuel : nat) (h : heap) (s : extern_state) (v i startenv : Z) : result extern_state :=
  match fuel with
  | O => NoFuel
  | S n =>
      '(s, i) ← (if 0 <? i then f ← Field h v i; s ← extern_int s (Long_val f); Ret (s, i + 1) else Ret (s, i));
      c ← Field h v i;
      s ← extern_code_pointer s c;
      info ← Field h v (i + 1);
      s ← extern_int s (Long_val info);
      let i := i + 2 in
      '(s, i) ← (if negb (Arity_closinfo info =? 0) && negb (Arity_closinfo info =? 1)
                 then c ← Field h v i; s ← extern_code_pointer s c; Ret (s, i + 1) else Ret (s, i));
      if i <? startenv then closure_loop n h s v i startenv else Ret s
  end.
Definition extern_closure_up_to_env (h : heap) (s : extern_state) (v : Z) : result (extern_state * Z) :=
  info ← Closinfo_val h v;
  let startenv := Start_env_closinfo info in
  s ← closure_loop (S (Z.to_nat startenv)) h s v 0 startenv;
  Ret (s, startenv).

Definition extern_record_location (s : extern_state) (obj h : Z) : result extern_state :=
  if has_flag s NO_SHARING then Ret s
  else
    t ← record_location stat_alloc (pos_table s) obj h (obj_counter s);
    Ret (set_obj_counter (u64 (obj_counter s + 1)) (set_pos_table t s)).

(** ** The stack of pending fields *)
Definition extern_resize_stack (s : extern_state) : result extern_state :=
  let newsize := 2 * extern_stack_size s in
  if EXTERN_STACK_MAX_SIZE <=? newsize then Raise Out_of_memory
  else if stat_alloc (newsize * sizeof_extern_item) then Ret (set_stack_size newsize s)
  else Raise Out_of_memory.

(** [sp++; if (sp >= extern_stack_limit) sp = extern_resize_stack(s, sp);
    sp->v = v; sp->count = count] *)
Definition push_item (s : extern_state) (sp : list extern_item) (v count : Z) :
    result (extern_state * list extern_item) :=
  s ← (if extern_stack_size s <=? zlength sp + 1 then extern_resize_stack s else Ret s);
  Ret (s, mkItem v count :: sp).

(** [v = *((sp->v)++); if (--(sp->count) == 0) sp--;], none when the stack is empty *)
Definition pop_item (h : heap) (sp : list extern_item) : result (option (Z * list extern_item)) :=
  match sp with
  | [] => Ret None
  | it :: sp =>
      v ← load h (item_v it);
      let count := item_count it - 1 in
      Ret (Some (v, if count =? 0 then sp else mkItem (item_v it + 8) count :: sp))
  end.

Definition extern_free_stack (s : extern_state) : extern_state := set_stack_size EXTERN_STACK_INIT_SIZE s.
Definition extern_init_position_table (s : extern_state) : extern_state :=
  if has_flag s NO_SHARING then s else set_pos_table init_position_table s.

(** ** The traversal *)

(** [tag == Forward_tag] and the forwarded value can take its place. *)
Definition short_circuit (h : heap) (v tag : Z) : result (option Z) :=
  if tag =? Forward_tag then
    f ← Forward_val h v;
    if Is_block f then
      t ← Tag_val h f;
      if (t =? Forward_tag) || (t =? Lazy_tag) || (t =? Forcing_tag) || (t =? Double_tag) then Ret None
      else Ret (Some f)
    else Ret (Some f)
  else Ret None.

(** One round of the loop up to [next_item]: [Some v] is [continue] with [v]. *)
Definition extern_one (h : heap) (s : extern_state) (sp : list extern_item) (v : Z) :
    result (extern_state * list extern_item * option Z) :=
  if Is_long v then s ← extern_int s (Long_val v); Ret (s, sp, None)
  else
    hd ← Hd_val h v;
    let tag := Tag_hd hd in
    let sz := Wosize_hd hd in
    fwd ← short_circuit h v tag;
    match fwd with
    | Some f => Ret (s, sp, Some f)
    | None =>
        if sz =? 0 then s ← extern_header s 0 tag; Ret (s, sp, None)
        else
          seen ← (if has_flag s NO_SHARING then Ret (Absent 0) else extern_lookup_position (pos_table s) v);
          match seen with
          | Found pos =>
              let d := if has_flag s COMPRESSED then pos else u64 (obj_counter s - pos) in
              s ← extern_shared_reference s d; Ret (s, sp, None)
          | Absent ht =>
              if tag =? String_tag then
                len ← caml_string_length h v;
                s ← extern_string h s v len;
                s ← extern_record_location (add_sizes (1 + u64 (len + 4) / 4) (1 + u64 (len + 8) / 8) s) v ht;
                Ret (s, sp, None)
              else if tag =? Double_tag then
                s ← extern_double h s v;
                s ← extern_record_location (add_sizes (1 + 2) (1 + 1) s) v ht;
                Ret (s, sp, None)
              else if tag =? Double_array_tag then
                let nfloats := sz / Double_wosize in
                s ← extern_double_array h s v nfloats;
                s ← extern_record_location (add_sizes (1 + nfloats * 2) (1 + nfloats) s) v ht;
                Ret (s, sp, None)
              else if tag =? Abstract_tag then Raise (Invalid_argument "output_value: abstract value (Abstract)")
              else if tag =? Infix_tag then
                s ← writecode32 s CODE_INFIXPOINTER (Infix_offset_hd hd);
                Ret (s, sp, Some (v - Infix_offset_hd hd))
              else if tag =? Custom_tag then
                '(s, sz_32, sz_64) ← extern_custom h s v;
                s ← extern_record_location (add_sizes (2 + Z.shiftr (u64 (sz_32 + 3)) 2) (2 + Z.shiftr (u64 (sz_64 + 7)) 3) s) v ht;
                Ret (s, sp, None)
              else if tag =? Closure_tag then
                s ← extern_header s sz tag;
                s ← extern_record_location (add_sizes (1 + sz) (1 + sz) s) v ht;
                '(s, i) ← extern_closure_up_to_env h s v;
                if sz <=? i then Ret (s, sp, None)
                else
                  '(s, sp) ← (if i <? sz - 1 then push_item s sp (v + 8 * (i + 1)) (sz - i - 1) else Ret (s, sp));
                  f ← Field h v i;
                  Ret (s, sp, Some f)
              else if tag =? Cont_tag then Raise (Invalid_argument "output_value: continuation value")
              else
                s ← extern_header s sz tag;
                s ← extern_record_location (add_sizes (1 + sz) (1 + sz) s) v ht;
                '(s, sp) ← (if 1 <? sz then push_item s sp (v + 8 * 1) (sz - 1) else Ret (s, sp));
                f ← Field h v 0;
                Ret (s, sp, Some f)
          end
    end.

Fixpoint extern_loop (fuel : nat) (h : heap) (s : extern_state) (sp : list extern_item) (v : Z) : result extern_state :=
  match fuel with
  | O => NoFuel
  | S n =>
      '(s, sp, next) ← extern_one h s sp v;
      match next with
      | Some v => extern_loop n h s sp v
      | None =>
          p ← pop_item h sp;
          match p with
          | None => Ret (extern_free_stack s)
          | Some (v, sp) => extern_loop n h s sp v
          end
      end
  end.
Definition extern_rec (fuel : nat) (h : heap) (s : extern_state) (v : Z) : result extern_state :=
  extern_loop fuel h (extern_init_position_table s) [] v.

(** ** Headers and entry points *)
Definition extern_flag_values : list Z := [NO_SHARING; CLOSURES; COMPAT_32; COMPRESSED].

Fixpoint caml_convert_flag_list (fuel : nat) (h : heap) (l : Z) (flags : list Z) (res : Z) : result Z :=
  match fuel with
  | O => NoFuel
  | S n =>
      if l =? Val_emptylist then Ret res
      else
        f ← Field h l 0;
        w ← (if Int_val f <? 0 then Undef else of_option (flags !! Z.to_nat (Int_val f)));
        l ← Field h l 1;
        caml_convert_flag_list n h l flags (Z.lor res w)
  end.

Definition too_big : exn := Failure "output_value: object too big to be read back on 32-bit platform".

(** The header that precedes the data, once the traversal is over. *)
Definition write_header (s : extern_state) : result (extern_state * list Z) :=
  if has_flag s COMPRESSED then
    let uncompressed_len := extern_output_length s in
    match caml_extern_compress_output with
    | None => Undef
    | Some compress =>
        match compress (output_bytes s) with
        | None => Raise Out_of_memory
        | Some l =>
            let s := set_output (extern_user s) [] l (extern_room s) s in
            let res_len := extern_output_length s in
            if has_flag s COMPAT_32 && ((2 ^ 32 <=? uncompressed_len) || (2 ^ 32 <=? res_len) ||
                 (2 ^ 32 <=? size_32 s) || (2 ^ 32 <=? size_64 s)) then Raise too_big
            else
              let body := storevlq res_len ++ storevlq uncompressed_len ++ storevlq (obj_counter s) ++
                          storevlq (size_32 s) ++ storevlq (size_64 s) in
              Ret (s, store32 Intext_magic_number_compressed ++ [u8 (5 + zlength body)] ++ body)
        end
    end
  else
    let res_len := extern_output_length s in
    if (2 ^ 32 <=? res_len) || (2 ^ 32 <=? size_32 s) || (2 ^ 32 <=? size_64 s) then
      if has_flag s COMPAT_32 then Raise too_big
      else Ret (s, store32 Intext_magic_number_big ++ store32 0 ++ store64 res_len ++
                   store64 (obj_counter s) ++ store64 (size_64 s))
    else Ret (s, store32 Intext_magic_number_small ++ store32 res_len ++ store32 (obj_counter s) ++
                 store32 (size_32 s) ++ store32 (size_64 s)).

(** The result: the state and the header; the data are its [output_bytes]. *)
Definition extern_value (fuel : nat) (h : heap) (s : extern_state) (v flags : Z) : result (extern_state * list Z) :=
  fl ← caml_convert_flag_list fuel h flags extern_flag_values 0;
  let compressible := bool_decide (is_Some caml_extern_compress_output) && negb (extern_user s) in
  let fl := if compressible then fl else Z.land fl (Z.lnot COMPRESSED) in
  let s := set_sizes 0 0 (set_obj_counter 0 (set_flags fl s)) in
  s ← extern_rec fuel h s v;
  write_header s.

Context `{SH : SharedHeap}.

Definition caml_output_value_to_bytes (fuel : nat) (h : heap) (s : extern_state) (v flags : Z) : result (Z * heap) :=
  s ← init_extern_output s;
  '(s, header) ← extern_value fuel h s v flags;
  let data := output_bytes s in
  '(res, h) ← caml_alloc_string h (zlength header + zlength data);
  h ← memcpy_bytes h res 0 header;
  h ← memcpy_bytes h res (zlength header) data;
  Ret (res, h).
Definition caml_output_value_to_string (fuel : nat) (h : heap) (s : extern_state) (v flags : Z) : result (Z * heap) :=
  caml_output_value_to_bytes fuel h s v flags.

(** The bytes left in a buffer of [len] bytes. *)
Definition caml_output_value_to_block (fuel : nat) (h : heap) (s : extern_state) (v flags len : Z) : result (list Z) :=
  let s := set_output true [] [] (len - 20) s in
  '(s, header) ← extern_value fuel h s v flags;
  let data := output_bytes s in
  if negb (zlength header =? 20) && (len <? zlength header + zlength data)
  then Raise (Failure "Marshal.to_buffer: buffer overflow")
  else Ret (header ++ data).

Definition caml_output_value_to_malloc (fuel : nat) (h : heap) (s : extern_state) (v flags : Z) : result (list Z) :=
  s ← init_extern_output s;
  '(s, header) ← extern_value fuel h s v flags;
  let data := output_bytes s in
  if stat_alloc (zlength header + zlength data) then Ret (header ++ data) else Raise Out_of_memory.

(** ** Functions for user-defined marshallers

    A block of data is its bytes in memory. *)
Definition caml_serialize_int_1 (s : extern_state) (i : Z) : result extern_state :=
  s ← reserve s 1; Ret (put s [u8 i]).
Definition caml_serialize_int_2 (s : extern_state) (i : Z) : result extern_state :=
  s ← reserve s 2; Ret (put s (store16 i)).
Definition caml_serialize_int_4 (s : extern_state) (i : Z) : result extern_state :=
  s ← reserve s 4; Ret (put s (store32 i)).
Definition caml_serialize_int_8 (s : extern_state) (i : Z) : result extern_state :=
  s ← reserve s 8; Ret (put s (store64 i)).

(** The loops over [Reverse_16], [Reverse_32] and [Reverse_64]. *)
Fixpoint reverse_groups (k len : nat) (data : list Z) : list Z :=
  match len with
  | O => []
  | S n => rev (take k data) ++ reverse_groups k n (drop k data)
  end.
Definition caml_serialize_block_1 (s : extern_state) (data : list Z) (len : Z) : result extern_state :=
  s ← reserve s len; Ret (put s (take (Z.to_nat len) data)).
Definition caml_serialize_block_2 (s : extern_state) (data : list Z) (len : Z) : result extern_state :=
  s ← reserve s (2 * len); Ret (put s (reverse_groups 2 (Z.to_nat len) data)).
Definition caml_serialize_block_4 (s : extern_state) (data : list Z) (len : Z) : result extern_state :=
  s ← reserve s (4 * len); Ret (put s (reverse_groups 4 (Z.to_nat len) data)).
Definition caml_serialize_block_8 (s : extern_state) (data : list Z) (len : Z) : result extern_state :=
  s ← reserve s (8 * len); Ret (put s (reverse_groups 8 (Z.to_nat len) data)).
Definition caml_serialize_block_float_8 (s : extern_state) (data : list Z) (len : Z) : result extern_state :=
  s ← reserve s (8 * len); Ret (put s (take (Z.to_nat (8 * len)) data)).
Definition caml_serialize_float_4 (s : extern_state) (f : list Z) : result extern_state := caml_serialize_block_4 s f 1.
Definition caml_serialize_float_8 (s : extern_state) (f : list Z) : result extern_state := caml_serialize_block_float_8 s f 1.

(** ** Reachable words *)

(** One round of the loop of [caml_obj_reachable_words]. *)
Definition reachable_one (h : heap) (s : extern_state) (sp : list extern_item) (size v : Z) :
    result (extern_state * list extern_item * Z * option Z) :=
  if Is_long v then Ret (s, sp, size, None)
  else
    seen ← extern_lookup_position (pos_table s) v;
    match seen with
    | Found _ => Ret (s, sp, size, None)
    | Absent ht =>
        hd ← Hd_val h v;
        let tag := Tag_hd hd in
        let sz := Wosize_hd hd in
        if tag =? Infix_tag then Ret (s, sp, size, Some (v - Infix_offset_hd hd))
        else
          s ← extern_record_location s v ht;
          let size := s64 (size + (1 + sz)) in
          if tag <? No_scan_tag then
            i ← (if tag =? Closure_tag then info ← Closinfo_val h v; Ret (Start_env_closinfo info) else Ret 0);
            if i <? sz then
              '(s, sp) ← (if i <? sz - 1 then push_item s sp (v + 8 * (i + 1)) (sz - i - 1) else Ret (s, sp));
              f ← Field h v i;
              Ret (s, sp, size, Some f)
            else Ret (s, sp, size, None)
          else Ret (s, sp, size, None)
    end.
Fixpoint reachable_loop (fuel : nat) (h : heap) (s : extern_state) (sp : list extern_item) (size v : Z) : result Z :=
  match fuel with
  | O => NoFuel
  | S n =>
      '(s, sp, size, next) ← reachable_one h s sp size v;
      match next with
      | Some v => reachable_loop n h s sp size v
      | None =>
          p ← pop_item h sp;
          match p with
          | None => Ret size
          | Some (v, sp) => reachable_loop n h s sp size v
          end
      end
  end.
Definition caml_obj_reachable_words (fuel : nat) (h : heap) (s : extern_state) (v : Z) : result Z :=
  let s := extern_init_position_table (set_flags 0 (set_obj_counter 0 s)) in
  size ← reachable_loop fuel h s [] 0 v;
  Ret (Val_long size).
End Writers.
End Extern.
