(* ===== verification/Intern.v ===== *)
(** * Unmarshaling (runtime/intern.c, caml_fresh_oo_id of runtime/obj.c)

    The input is the list of bytes from [intern_src] to the end of the block
    that holds it; reading past it is undefined.  Objects are allocated either
    one after the other in a single minor block of the announced size, or one
    by one in the shared heap. *)

From S2P Require Import Prelude Memory Ints Strings Arrays PosTable Extern.
Import Extern.

Module Intern.

Definition INTERN_STACK_INIT_SIZE : Z := 256.
Definition INTERN_STACK_MAX_SIZE : Z := 1024 * 1024 * 100.
Definition sizeof_intern_item : Z := 24.

(** The destination of a value: the result variable of the caller of
    [intern_rec], or a word of the heap. *)
Inductive destination := Result | Word (a : Z).
Inductive operation := OReadItems | OFreshOID | OShift.
Record intern_item := mkItem { dest : destination; arg : Z; op : operation }.

(** [table_len] is the size of [intern_obj_table], which is [None] when no
    table was allocated; [intern_res] the result variable; [oo_next_id_local],
    [oo_next_id] and [custom_table] belong to the domain and to obj.c. *)
Record intern_state := mkIntern {
  intern_src : list Z;
  intern_counter : Z;
  intern_obj_table : option (gmap Z Z);
  table_len : Z;
  intern_stack_size : Z;
  intern_dest : option Z;
  compressed : bool;
  intern_res : Z;
  oo_next_id_local : Z;
  oo_next_id : Z;
  custom_table : list (Z * Z * Z);
}.

Definition set_src (l : list Z) (s : intern_state) : intern_state :=
  mkIntern l (intern_counter s) (intern_obj_table s) (table_len s) (intern_stack_size s) (intern_dest s)
    (compressed s) (intern_res s) (oo_next_id_local s) (oo_next_id s) (custom_table s).
Definition set_table (n : Z) (t : option (gmap Z Z)) (len : Z) (s : intern_state) : intern_state :=
  mkIntern (intern_src s) n t len (intern_stack_size s) (intern_dest s)
    (compressed s) (intern_res s) (oo_next_id_local s) (oo_next_id s) (custom_table s).
Definition set_intern_stack (n : Z) (s : intern_state) : intern_state :=
  mkIntern (intern_src s) (intern_counter s) (intern_obj_table s) (table_len s) n (intern_dest s)
    (compressed s) (intern_res s) (oo_next_id_local s) (oo_next_id s) (custom_table s).
Definition set_dest (d : option Z) (s : intern_state) : intern_state :=
  mkIntern (intern_src s) (intern_counter s) (intern_obj_table s) (table_len s) (intern_stack_size s) d
    (compressed s) (intern_res s) (oo_next_id_local s) (oo_next_id s) (custom_table s).
Definition set_compressed (b : bool) (s : intern_state) : intern_state :=
  mkIntern (intern_src s) (intern_counter s) (intern_obj_table s) (table_len s) (intern_stack_size s) (intern_dest s)
    b (intern_res s) (oo_next_id_local s) (oo_next_id s) (custom_table s).
Definition set_res (v : Z) (s : intern_state) : intern_state :=
  mkIntern (intern_src s) (intern_counter s) (intern_obj_table s) (table_len s) (intern_stack_size s) (intern_dest s)
    (compressed s) v (oo_next_id_local s) (oo_next_id s) (custom_table s).
Definition set_oo_ids (l g : Z) (s : intern_state) : intern_state :=
  mkIntern (intern_src s) (intern_counter s) (intern_obj_table s) (table_len s) (intern_stack_size s) (intern_dest s)
    (compressed s) (intern_res s) l g (custom_table s).
Definition set_custom_table (t : list (Z * Z * Z)) (s : intern_state) : intern_state :=
  mkIntern (intern_src s) (intern_counter s) (intern_obj_table s) (table_len s) (intern_stack_size s) (intern_dest s)
    (compressed s) (intern_res s) (oo_next_id_local s) (oo_next_id s) t.

Definition init_intern_state : intern_state :=
  mkIntern [] 0 None 0 INTERN_STACK_INIT_SIZE None false 0 0 0 [].

(** ** What the unmarshaler calls

    [ops_deserialize] reads the data of a custom block from the input to the
    address it is given and returns their size. *)
Class InternEnv : Type := {
  in_stat_alloc : Z -> bool;
  caml_find_custom_operations : list Z -> option Z;
  in_fixed_length : Z -> option (Z * Z);
  ops_deserialize : Z -> heap -> Z -> list Z -> result (heap * list Z * Z);
  ops_finalize : Z -> bool;
  caml_find_code_fragment_by_digest : list Z -> option code_fragment;
  function_placeholder : option Z;
  caml_intern_decompress_input : option (Z -> list Z -> list Z);
  pending_actions : heap -> bool;
}.

(** ** Reading numbers *)
Definition reader (A : Type) : Type := list Z -> result (A * list Z).

Definition read8u : reader Z := fun l =>
  match l with b :: l => Ret (b, l) | [] => Undef end.
Definition read8s : reader Z := fun l => '(b, l) ← read8u l; Ret (s8 b, l).
Definition read16 : reader Z := fun l =>
  match l with
  | b0 :: b1 :: l => Ret (Z.shiftl b0 8 + b1, l)
  | _ => Undef
  end.
Definition read16u : reader Z := fun l => '(n, l) ← read16 l; Ret (wrap 16 n, l).
Definition read16s : reader Z := fun l => '(n, l) ← read16 l; Ret (swrap 16 n, l).
Definition read32 : reader Z := fun l =>
  match l with
  | b0 :: b1 :: b2 :: b3 :: l => Ret (u32 (Z.shiftl b0 24) + Z.shiftl b1 16 + Z.shiftl b2 8 + b3, l)
  | _ => Undef
  end.
Definition read32u : reader Z := fun l => '(n, l) ← read32 l; Ret (u32 n, l).
Definition read32s : reader Z := fun l => '(n, l) ← read32 l; Ret (s32 n, l).
Definition read64u : reader Z := fun l =>
  match l with
  | b0 :: b1 :: b2 :: b3 :: b4 :: b5 :: b6 :: b7 :: l =>
      Ret (u64 (u64 (Z.shiftl b0 56) + u64 (Z.shiftl b1 48) + u64 (Z.shiftl b2 40) + u64 (Z.shiftl b3 32)
                + u64 (Z.shiftl b4 24) + u64 (Z.shiftl b5 16) + u64 (Z.shiftl b6 8) + b7), l)
  | _ => Undef
  end.

(** The result: whether the number overflows 64 bits, and the number. *)
Fixpoint vlq_rest (l : list Z) (c n : Z) (overflow : bool) : result (bool * Z * list Z) :=
  if Z.land c 0x80 =? 0 then Ret (overflow, n, l)
  else
    match l with
    | [] => Undef
    | c :: l =>
        let n7 := u64 (Z.shiftl n 7) in
        vlq_rest l c (Z.lor n7 (Z.land c 0x7F)) (overflow || negb (n =? Z.shiftr n7 7))
    end.
Definition readvlq : reader (bool * Z) := fun l =>
  '(c, l) ← read8u l;
  vlq_rest l c (Z.land c 0x7F) false.

(** [readblock]: the next [len] bytes. *)
Definition readblock (len : Z) : reader (list Z) := fun l =>
  if Nat.leb (Z.to_nat len) (length l) then Ret (take (Z.to_nat len) l, drop (Z.to_nat len) l) else Undef.

(** A reader applied to the input of the state. *)
Definition input {A} (rd : reader A) (s : intern_state) : result (A * intern_state) :=
  '(a, l) ← rd (intern_src s); Ret (a, set_src l s).

(** [readfloat] and [readfloats]: the bytes of the doubles, reversed unless
    the code is one of those listed. *)
Definition readfloat (code : Z) : reader (list Z) := fun l =>
  '(bs, l) ← readblock 8 l;
  Ret (if code =? CODE_DOUBLE_LITTLE then bs else rev bs, l).
Definition readfloats (len code : Z) : reader (list Z) := fun l =>
  '(bs, l) ← readblock (len * 8) l;
  Ret (if negb (code =? CODE_DOUBLE_ARRAY8_LITTLE) && negb (code =? CODE_DOUBLE_ARRAY32_LITTLE)
       then reverse_groups 8 (Z.to_nat len) bs else bs, l).

(** ** Error messages *)
Definition char_of (b : Z) : Ascii.ascii := Ascii.ascii_of_N (Z.to_N b).
Fixpoint string_of (bs : list Z) : string :=
  match bs with [] => "" | b :: bs => String.String (char_of b) (string_of bs) end.
Definition intern_failwith2 (fun_name msg : string) : exn :=
  Failure (String.append fun_name (String.append ": " msg)).
Definition intern_cleanup_failwith3 (fun_name msg : string) (name : list Z) : exn :=
  Failure (String.append fun_name (String.append ": " (String.append msg (String.append " " (string_of name))))).
Definition hex_digit (n : Z) : Z := if n <? 10 then 48 + n else 55 + n.
Definition hex2 (b : Z) : list Z := [hex_digit (Z.shiftr b 4); hex_digit (Z.land b 15)].
Definition intern_bad_code_pointer (digest : list Z) : exn :=
  Failure (String.append "input_value: unknown code module " (string_of (concat (hex2 <$> digest)))).

Section Reading.
Context `{SH : SharedHeap} {IE : InternEnv}.

(** ** The stack of pending operations *)
Definition intern_resize_stack (s : intern_state) : result intern_state :=
  let newsize := 2 * intern_stack_size s in
  if INTERN_STACK_MAX_SIZE <=? newsize then Raise Out_of_memory
  else if in_stat_alloc (newsize * sizeof_intern_item) then Ret (set_intern_stack newsize s)
  else Raise Out_of_memory.
Definition PushItem (s : intern_state) (sp : list intern_item) (it : intern_item) :
    result (intern_state * list intern_item) :=
  s ← (if intern_stack_size s <=? zlength sp + 1 then intern_resize_stack s else Ret s);
  Ret (s, it :: sp).
Definition ReadItems (s : intern_state) (sp : list intern_item) (d : destination) (n : Z) :
    result (intern_state * list intern_item) :=
  if 0 <? n then PushItem s sp (mkItem d n OReadItems) else Ret (s, sp).

(** ** Allocation *)
Definition intern_alloc_storage (h : heap) (s : intern_state) (whsize num_objects : Z) : result (heap * intern_state) :=
  if whsize =? 0 then Ret (h, s)
  else
    let wosize := whsize - 1 in
    '(h, s) ← (if (wosize <=? Max_young_wosize) && negb (wosize =? 0)
               then '(v, h) ← caml_alloc_small h wosize String_tag; Ret (h, set_dest (Some (v - 8)) s)
               else Ret (h, s));
    if 0 <? num_objects then
      if in_stat_alloc (num_objects * 8) then Ret (h, set_table 0 (Some ∅) num_objects s) else Raise Out_of_memory
    else Ret (h, set_table 0 (intern_obj_table s) (table_len s) s).

Definition intern_alloc_obj (h : heap) (s : intern_state) (wosize tag : Z) : result (Z * heap * intern_state) :=
  match intern_dest s with
  | Some p =>
      h ← store h p (s64 (Make_header wosize tag 0));
      Ret (p + 8, h, set_dest (Some (p + 8 * (1 + wosize))) s)
  | None =>
      match caml_shared_try_alloc h wosize with
      | None => Raise Out_of_memory
      | Some hp =>
          let m := write_words (hp + 8) (replicate (Z.to_nat wosize) Debug_uninit_major) (words h) in
          Ret (hp + 8, set_words (<[hp := s64 (Make_header wosize tag heap_MARKED)]> m) h, s)
      end
  end.

(** [if (intern_obj_table != NULL) intern_obj_table[obj_counter++] = v;] *)
Definition record_obj (s : intern_state) (v : Z) : result intern_state :=
  match intern_obj_table s with
  | None => Ret s
  | Some t =>
      if intern_counter s <? table_len s
      then Ret (set_table (intern_counter s + 1) (Some (<[intern_counter s := v]> t)) (table_len s) s)
      else Undef
  end.

(** ** Object identifiers *)
Definition Id_chunk : Z := 1024.
Definition caml_fresh_oo_id (s : intern_state) : Z * intern_state :=
  let '(l, g) := if oo_next_id_local s mod Id_chunk =? 0 then (oo_next_id s, u64 (oo_next_id s + Id_chunk))
                 else (oo_next_id_local s, oo_next_id s) in
  (Val_long l, set_oo_ids (u64 (l + 1)) g s).
Definition caml_set_oo_id (h : heap) (s : intern_state) (obj : Z) : result (heap * intern_state) :=
  let '(v, s) := caml_fresh_oo_id s in
  h ← Store_field h obj 1 v;
  Ret (h, s).

(** ** Storing and shifting a destination *)
Definition next_dest (d : destination) : destination :=
  match d with Result => Result | Word a => Word (a + 8) end.
Definition store_dest (h : heap) (s : intern_state) (d : destination) (v : Z) : result (heap * intern_state) :=
  match d with
  | Result => Ret (h, set_res v s)
  | Word a => h ← store h a v; Ret (h, s)
  end.
Definition load_dest (h : heap) (s : intern_state) (d : destination) : result Z :=
  match d with Result => Ret (intern_res s) | Word a => load h a end.

(** ** Reading one value

    The cases of [OReadItems] up to the store: [None] is the [continue] of an
    infix pointer. *)
Definition read_block (h : heap) (s : intern_state) (sp : list intern_item) (size tag : Z) :
    result (heap * intern_state * list intern_item * option Z) :=
  if size =? 0 then Ret (h, s, sp, Some (Atom h tag))
  else
    '(v, h, s) ← intern_alloc_obj h s size tag;
    s ← record_obj s v;
    if tag =? Object_tag then
      '(s, sp) ← ReadItems s sp (Word (v + 8 * 2)) (size - 2);
      '(s, sp) ← PushItem s sp (mkItem (Word v) 1 OFreshOID);
      '(s, sp) ← ReadItems s sp (Word v) 2;
      Ret (h, s, sp, Some v)
    else
      '(s, sp) ← ReadItems s sp (Word v) size;
      Ret (h, s, sp, Some v).

(** The end of [read_string]: the padding, then the characters. *)
Definition fill_string (h : heap) (s : intern_state) (v len : Z) : result (heap * intern_state) :=
  let size := u64 (len + 8) / 8 in
  h ← Store_field h v (size - 1) 0;
  let ofs_ind := Bsize_wsize size - 1 in
  h ← Store_byte h v ofs_ind (ofs_ind - len);
  '(bs, s) ← input (readblock len) s;
  h ← memcpy_bytes h v 0 bs;
  Ret (h, s).
Definition read_string (h : heap) (s : intern_state) (sp : list intern_item) (len : Z) :
    result (heap * intern_state * list intern_item * option Z) :=
  '(v, h, s) ← intern_alloc_obj h s (u64 (len + 8) / 8) String_tag;
  s ← record_obj s v;
  '(h, s) ← fill_string h s v len;
  Ret (h, s, sp, Some v).

Definition read_shared (s : intern_state) (ofs : Z) : result Z :=
  let ofs := if compressed s then ofs else u64 (intern_counter s - ofs) in
  match intern_obj_table s with
  | None => Undef
  | Some t => of_option (t !! ofs)
  end.

(** The call of [readfloat] or [readfloats]: the doubles go to [v]. *)
Definition fill_floats (rd : reader (list Z)) (h : heap) (s : intern_state) (v : Z) : result (heap * intern_state) :=
  '(bs, s) ← input rd s;
  h ← memcpy_bytes h v 0 bs;
  Ret (h, s).
Definition read_double (h : heap) (s : intern_state) (sp : list intern_item) (code : Z) :
    result (heap * intern_state * list intern_item * option Z) :=
  '(v, h, s) ← intern_alloc_obj h s Double_wosize Double_tag;
  s ← record_obj s v;
  '(h, s) ← fill_floats (readfloat code) h s v;
  Ret (h, s, sp, Some v).
Definition read_double_array (h : heap) (s : intern_state) (sp : list intern_item) (len code : Z) :
    result (heap * intern_state * list intern_item * option Z) :=
  let size := len * Double_wosize in
  '(v, h, s) ← intern_alloc_obj h s size Double_array_tag;
  s ← record_obj s v;
  '(h, s) ← fill_floats (readfloats len code) h s v;
  Ret (h, s, sp, Some v).

Definition intern_resolve_code_pointer (digest : list Z) (offset : Z) : option Z :=
  match caml_find_code_fragment_by_digest digest with
  | Some cf => if code_start cf + offset <? code_end cf then Some (code_start cf + offset) else None
  | None => None
  end.

Definition read_code_pointer (h : heap) (s : intern_state) : result (Z * intern_state) :=
  '(ofs, s) ← input read32u s;
  '(digest, s) ← input (readblock 16) s;
  match intern_resolve_code_pointer digest ofs with
  | Some codeptr => Ret (codeptr, s)
  | None =>
      match function_placeholder with
      | Some f => c ← Code_val h f; Ret (c, s)
      | None => Raise (intern_bad_code_pointer digest)
      end
  end.

(** The identifier of a custom block: the bytes before the next zero. *)
Fixpoint read_name (l : list Z) : result (list Z * list Z) :=
  match l with
  | [] => Undef
  | b :: l => if b =? 0 then Ret ([], l) else '(name, l) ← read_name l; Ret (b :: name, l)
  end.

Definition read_custom (fun_name : string) (h : heap) (s : intern_state) (sp : list intern_item) (code : Z) :
    result (heap * intern_state * list intern_item * option Z) :=
  '(name, rest) ← read_name (intern_src s);
  match caml_find_custom_operations name with
  | None => Raise (intern_cleanup_failwith3 fun_name "unknown custom block identifier" name)
  | Some ops =>
      let s := set_src rest s in
      '(expected_size, s) ←
        (if code =? CODE_CUSTOM_FIXED then
           match in_fixed_length ops with
           | None => Raise (intern_cleanup_failwith3 fun_name "expected a fixed-size custom block" name)
           | Some (_, bsize_64) => Ret (bsize_64, s)
           end
         else '(_, s) ← input (readblock 4) s; input read64u s);
      let temp_size := 1 + u64 (expected_size + 8 - 1) / 8 in
      '(v, h, s) ← intern_alloc_obj h s temp_size Custom_tag;
      h ← Store_field h v 0 ops;
      '(h, rest, size) ← ops_deserialize ops h (v + 8) (intern_src s);
      let s := set_src rest s in
      if negb (size =? expected_size)
      then Raise (intern_cleanup_failwith3 fun_name "error while deserializing custom block" name)
      else
        s ← record_obj s v;
        let s := if ops_finalize ops && Is_young h v then set_custom_table ((v, 0, 1) :: custom_table s) s else s in
        Ret (h, s, sp, Some v)
  end.

Definition old_custom_msg : string :=
  "custom blocks serialized with travlang 4.08.0 (or prior) are no longer supported".

(** The dispatch on the code of a value. *)
Definition read_code (fun_name : string) (h : heap) (s : intern_state) (sp : list intern_item) (dst : destination) (code : Z) :
    result (heap * intern_state * list intern_item * option Z) :=
  let value r := '(v, s) ← r; Ret (h, s, sp, Some v) in
  let long r := '(n, s) ← r; Ret (h, s, sp, Some (Val_long n)) in
  let shared r := '(ofs, s) ← r; v ← read_shared s ofs; Ret (h, s, sp, Some v) in
  if PREFIX_SMALL_INT <=? code then
    if PREFIX_SMALL_BLOCK <=? code then read_block h s sp (Z.land (Z.shiftr code 4) 0x7) (Z.land code 0xF)
    else Ret (h, s, sp, Some (Val_int (Z.land code 0x3F)))
  else if PREFIX_SMALL_STRING <=? code then read_string h s sp (Z.land code 0x1F)
  else if code =? CODE_INT8 then long (input read8s s)
  else if code =? CODE_INT16 then long (input read16s s)
  else if code =? CODE_INT32 then long (input read32s s)
  else if code =? CODE_INT64 then long ('(n, s) ← input read64u s; Ret (s64 n, s))
  else if code =? CODE_SHARED8 then shared (input read8u s)
  else if code =? CODE_SHARED16 then shared (input read16u s)
  else if code =? CODE_SHARED32 then shared (input read32u s)
  else if code =? CODE_SHARED64 then shared (input read64u s)
  else if code =? CODE_BLOCK32 then
    '(header, s) ← input read32u s; read_block h s sp (Wosize_hd header) (Tag_hd header)
  else if code =? CODE_BLOCK64 then
    '(header, s) ← input read64u s; read_block h s sp (Wosize_hd header) (Tag_hd header)
  else if code =? CODE_STRING8 then '(len, s) ← input read8u s; read_string h s sp len
  else if code =? CODE_STRING32 then '(len, s) ← input read32u s; read_string h s sp len
  else if code =? CODE_STRING64 then '(len, s) ← input read64u s; read_string h s sp len
  else if (code =? CODE_DOUBLE_LITTLE) || (code =? CODE_DOUBLE_BIG) then
    read_double h s sp code
  else if (code =? CODE_DOUBLE_ARRAY8_LITTLE) || (code =? CODE_DOUBLE_ARRAY8_BIG) then
    '(len, s) ← input read8u s; read_double_array h s sp len code
  else if (code =? CODE_DOUBLE_ARRAY32_LITTLE) || (code =? CODE_DOUBLE_ARRAY32_BIG) then
    '(len, s) ← input read32u s; read_double_array h s sp len code
  else if (code =? CODE_DOUBLE_ARRAY64_LITTLE) || (code =? CODE_DOUBLE_ARRAY64_BIG) then
    '(len, s) ← input read64u s; read_double_array h s sp len code
  else if code =? CODE_CODEPOINTER then value (read_code_pointer h s)
  else if code =? CODE_INFIXPOINTER then
    '(ofs, s) ← input read32u s;
    '(s, sp) ← PushItem s sp (mkItem dst ofs OShift);
    '(s, sp) ← ReadItems s sp dst 1;
    Ret (h, s, sp, None)
  else if code =? OLD_CODE_CUSTOM then Raise (intern_failwith2 fun_name old_custom_msg)
  else if (code =? CODE_CUSTOM_LEN) || (code =? CODE_CUSTOM_FIXED) then read_custom fun_name h s sp code
  else Raise (intern_failwith2 fun_name "ill-formed message").

Definition read_value (fun_name : string) (h : heap) (s : intern_state) (sp : list intern_item) (dst : destination) :
    result (heap * intern_state * list intern_item * option Z) :=
  '(code, s) ← input read8u s;
  read_code fun_name h s sp dst code.

(** One round of the loop, on the top item of the stack. *)
Definition intern_one (fun_name : string) (h : heap) (s : intern_state) (it : intern_item) (sp : list intern_item) :
    result (heap * intern_state * list intern_item) :=
  match op it with
  | OFreshOID =>
      match dest it with
      | Word v =>
          oid ← Field h v 1;
          '(h, s) ← (if 0 <=? Long_val oid then caml_set_oo_id h s v else Ret (h, s));
          Ret (h, s, sp)
      | Result => Undef
      end
  | OShift =>
      w ← load_dest h s (dest it);
      '(h, s) ← store_dest h s (dest it) (s64 (w + arg it));
      Ret (h, s, sp)
  | OReadItems =>
      let sp := if arg it - 1 =? 0 then sp else mkItem (next_dest (dest it)) (arg it - 1) OReadItems :: sp in
      '(h, s, sp, v) ← read_value fun_name h s sp (dest it);
      match v with
      | None => Ret (h, s, sp)
      | Some v => '(h, s) ← store_dest h s (dest it) v; Ret (h, s, sp)
      end
  end.

Fixpoint intern_loop (fuel : nat) (fun_name : string) (h : heap) (s : intern_state) (sp : list intern_item) :
    result (heap * intern_state) :=
  match sp with
  | [] => Ret (h, set_intern_stack INTERN_STACK_INIT_SIZE s)
  | it :: sp =>
      match fuel with
      | O => NoFuel
      | S n => '(h, s, sp) ← intern_one fun_name h s it sp; intern_loop n fun_name h s sp
      end
  end.
Definition intern_rec (fuel : nat) (fun_name : string) (h : heap) (s : intern_state) : result (heap * intern_state) :=
  '(s, sp) ← ReadItems s [] Result 1;
  intern_loop fuel fun_name h s sp.

Definition intern_cleanup (s : intern_state) : intern_state :=
  set_table (intern_counter s) None 0 (set_dest None (set_intern_stack INTERN_STACK_INIT_SIZE s)).
Definition intern_end (h : heap) (s : intern_state) (res : Z) : result (Z * heap * intern_state) :=
  let s := intern_cleanup s in
  if pending_actions h then Pending else Ret (res, h, s).

(** ** The header *)
Record marshal_header := mkHeader {
  mh_magic : Z;
  header_len : Z;
  data_len : Z;
  uncompressed_data_len : Z;
  num_objects : Z;
  whsize : Z;
  mh_compressed : bool;
}.

Definition caml_parse_header (fun_name : string) (s : intern_state) : result (marshal_header * intern_state) :=
  '(magic, s) ← input read32u s;
  if magic =? Intext_magic_number_small then
    '(data_len, s) ← input read32u s;
    '(num_objects, s) ← input read32u s;
    '(_, s) ← input read32u s;
    '(whsize, s) ← input read32u s;
    Ret (mkHeader magic 20 data_len data_len num_objects whsize false, s)
  else if magic =? Intext_magic_number_big then
    '(_, s) ← input read32u s;
    '(data_len, s) ← input read64u s;
    '(num_objects, s) ← input read64u s;
    '(whsize, s) ← input read64u s;
    Ret (mkHeader magic 32 data_len data_len num_objects whsize false, s)
  else if magic =? Intext_magic_number_compressed then
    '(b, s) ← input read8u s;
    '(o1, data_len, s) ← input readvlq s;
    '(o2, uncompressed_data_len, s) ← input readvlq s;
    '(o3, num_objects, s) ← input readvlq s;
    '(_, _, s) ← input readvlq s;
    '(o4, whsize, s) ← input readvlq s;
    if o1 || o2 || o3 || o4
    then Raise (intern_failwith2 fun_name "object too large to be read back on this platform")
    else Ret (mkHeader magic (Z.land b 0x3F) data_len uncompressed_data_len num_objects whsize true, s)
  else Raise (intern_failwith2 fun_name "bad object").

Definition intern_decompress_input (fun_name : string) (s : intern_state) (mh : marshal_header) : result intern_state :=
  let s := set_compressed (mh_compressed mh) s in
  if negb (mh_compressed mh) then Ret s
  else
    match caml_intern_decompress_input with
    | None => Raise (intern_failwith2 fun_name "compressed object, cannot decompress")
    | Some decompress =>
        if negb (in_stat_alloc (uncompressed_data_len mh)) then Raise Out_of_memory
        else
          '(l, _) ← readblock (data_len mh) (intern_src s);
          let blk := decompress (uncompressed_data_len mh) l in
          if negb (zlength blk =? uncompressed_data_len mh)
          then Raise (intern_failwith2 fun_name "decompression error")
          else Ret (set_src blk s)
    end.

(** ** Entry points *)

(** The bytes of a block from byte [ofs] to its end. *)
Definition block_bytes (h : heap) (str ofs : Z) : result (list Z) :=
  n ← Bosize_val h str;
  read_bytes (Z.to_nat (n - ofs)) h str ofs.

Definition caml_input_val_from_bytes (fuel : nat) (h : heap) (s : intern_state) (str ofs : Z) :
    result (Z * heap * intern_state) :=
  src ← block_bytes h str ofs;
  let s := set_src src s in
  '(mh, s) ← caml_parse_header "input_val_from_string" s;
  len ← caml_string_length h str;
  if len <? u64 (ofs + header_len mh + data_len mh) then Raise (Failure "input_val_from_string: bad length")
  else
    '(h, s) ← intern_alloc_storage h s (whsize mh) (num_objects mh);
    let s := set_src (drop (Z.to_nat (header_len mh)) src) s in
    s ← intern_decompress_input "input_val_from_string" s mh;
    '(h, s) ← intern_rec fuel "input_val_from_string" h s;
    intern_end h s (intern_res s).
Definition caml_input_value_from_bytes (fuel : nat) (h : heap) (s : intern_state) (str ofs : Z) :
    result (Z * heap * intern_state) :=
  caml_input_val_from_bytes fuel h s str (Long_val ofs).

Definition input_val_from_block (fuel : nat) (h : heap) (s : intern_state) (mh : marshal_header) :
    result (Z * heap * intern_state) :=
  s ← intern_decompress_input "input_val_from_block" s mh;
  '(h, s) ← intern_alloc_storage h s (whsize mh) (num_objects mh);
  '(h, s) ← intern_rec fuel "input_val_from_block" h s;
  intern_end h s (intern_res s).
(** [data] is a C buffer, of any length. *)
Definition caml_input_value_from_malloc (fuel : nat) (h : heap) (s : intern_state) (data : list Z) (ofs : Z) :
    result (Z * heap * intern_state) :=
  let s := set_src (drop (Z.to_nat ofs) data) s in
  '(mh, s) ← caml_parse_header "input_value_from_malloc" s;
  input_val_from_block fuel h s mh.
Definition caml_input_value_from_block (fuel : nat) (h : heap) (s : intern_state) (data : list Z) (len : Z) :
    result (Z * heap * intern_state) :=
  let s := set_src data s in
  '(mh, s) ← caml_parse_header "input_value_from_block" s;
  if len <? u64 (header_len mh + data_len mh) then Raise (Failure "input_val_from_block: bad length")
  else input_val_from_block fuel h s mh.

Definition caml_marshal_data_size (h : heap) (buff ofs : Z) : result Z :=
  l ← block_bytes h buff (Long_val ofs);
  '(magic, l) ← read32u l;
  '(header_len, data_len) ←
    (if magic =? Intext_magic_number_small then '(n, _) ← read32u l; Ret (20, n)
     else if magic =? Intext_magic_number_big then
       '(_, l) ← read32u l; '(n, _) ← read64u l; Ret (32, n)
     else if magic =? Intext_magic_number_compressed then
       '(b, l) ← read8u l;
       '(o, n, _) ← readvlq l;
       if (o : bool) then Raise (Failure "Marshal.data_size: object too large to be read back on this platform")
       else Ret (Z.land b 0x3F, n)
     else Raise (Failure "Marshal.data_size: bad object"));
  Ret (Val_long (s64 (header_len - 16 + data_len))).

(** ** Functions for user-defined marshallers *)
Definition caml_deserialize_uint_1 : reader Z := read8u.
Definition caml_deserialize_sint_1 : reader Z := read8s.
Definition caml_deserialize_uint_2 : reader Z := read16u.
Definition caml_deserialize_sint_2 : reader Z := read16s.
Definition caml_deserialize_uint_4 : reader Z := read32u.
Definition caml_deserialize_sint_4 : reader Z := read32s.
Definition caml_deserialize_block_1 (len : Z) : reader (list Z) := readblock len.
Definition reversed_block (k : nat) (len : Z) : reader (list Z) := fun l =>
  '(bs, l) ← readblock (Z.of_nat k * len) l; Ret (reverse_groups k (Z.to_nat len) bs, l).
Definition caml_deserialize_block_2 (len : Z) : reader (list Z) := reversed_block 2 len.
Definition caml_deserialize_block_4 (len : Z) : reader (list Z) := reversed_block 4 len.
Definition caml_deserialize_block_8 (len : Z) : reader (list Z) := reversed_block 8 len.
Definition caml_deserialize_block_float_8 (len : Z) : reader (list Z) := readblock (len * 8).
Definition caml_deserialize_uint_8 : reader Z := fun l =>
  '(bs, l) ← caml_deserialize_block_8 1 l; Ret (le_word bs, l).
Definition caml_deserialize_sint_8 : reader Z := fun l =>
  '(bs, l) ← caml_deserialize_block_8 1 l; Ret (s64 (le_word bs), l).
Definition caml_deserialize_float_4 : reader (list Z) := caml_deserialize_block_4 1.
Definition caml_deserialize_float_8 : reader (list Z) := caml_deserialize_block_float_8 1.
Definition caml_deserialize_error (msg : string) : exn := Failure msg.
End Reading.
End Intern.
