(* ===== verification/Traverse.v ===== *)
(** * Traversal of a graph of values

    The order in which the loops of extern.c visit the values reachable from
    a list of pending values: a block seen for the first time is recorded
    and its fields are put in front of the pending values; a block already
    recorded is skipped.  [classify] says what a value is: a leaf that is
    never recorded, a value another one stands for, a block with the fields
    to visit, or nothing that can be visited. *)

From S2P Require Import Prelude.

Module Traverse.

Inductive node := Leaf | Redirect (v : Z) | Node (succs : list Z) | Stuck.

(** [Seen v d]: [v] was recorded [d] blocks ago. *)
Inductive event := AtLeaf (v : Z) | Seen (v d : Z) | New (v : Z).

(** The blocks an event list visits for the first time. *)
Definition news (es : list event) : list Z := omap (fun e => match e with New v => Some v | _ => None end) es.

Section Traversal.
Variable classify : Z -> node.

(** [trace m W es m']: from the recorded blocks [m] and the pending values
    [W], the traversal goes through the events [es] and ends with [m']. *)
Inductive trace : gmap Z Z -> list Z -> list event -> gmap Z Z -> Prop :=
| trace_nil m : trace m [] [] m
| trace_leaf m v W es m' : classify v = Leaf -> trace m W es m' -> trace m (v :: W) (AtLeaf v :: es) m'
| trace_redirect m v v' W es m' :
    classify v = Redirect v' -> trace m (v' :: W) es m' -> trace m (v :: W) es m'
| trace_seen m v l p W es m' :
    classify v = Node l -> m !! v = Some p -> trace m W es m' ->
    trace m (v :: W) (Seen v (Z.of_nat (size m) - p) :: es) m'
| trace_new m v l W es m' :
    classify v = Node l -> m !! v = None -> trace (<[v := Z.of_nat (size m)]> m) (l ++ W) es m' ->
    trace m (v :: W) (New v :: es) m'.

(** The blocks reachable from a value. *)
Inductive reach : Z -> Z -> Prop :=
| reach_here v l : classify v = Node l -> reach v v
| reach_redirect v v' b : classify v = Redirect v' -> reach v' b -> reach v b
| reach_field v l x b : classify v = Node l -> x ∈ l -> reach x b -> reach v b.

(** A set of blocks whose fields are leaves or blocks of the set. *)
Definition plain (B : gset Z) (x : Z) : Prop := classify x = Leaf \/ x ∈ B.
Definition good (B : gset Z) (x : Z) : Prop := plain B x \/ exists y, classify x = Redirect y /\ plain B y.
Definition closed (B : gset Z) : Prop := forall v, v ∈ B -> exists l, classify v = Node l /\ Forall (good B) l.

Lemma trace_total B : closed B -> forall n m W, (size (B ∖ dom m) <= n)%nat -> Forall (good B) W ->
  exists es m', trace m W es m'.
Proof.
  intros HB n. induction n as [n IH] using (well_founded_ind lt_wf). intros m W Hn HW.
  induction HW as [|x W Hx HW (es & m' & IHW)]; [eexists _, _; constructor|].
  assert (Hplain : forall y, plain B y -> exists es m', trace m (y :: W) es m').
  { intros y [Hl|Hy]; [eexists _, _; by constructor|].
    destruct (HB y Hy) as (l & Hc & Hl). destruct (m !! y) as [p|] eqn:E; [eexists _, _; by econstructor|].
    destruct (IH (size (B ∖ dom (<[y := Z.of_nat (size m)]> m)))) with (m := <[y := Z.of_nat (size m)]> m) (W := l ++ W)
      as (es2 & m2 & H2); [| |by apply Forall_app|eexists _, _; by econstructor].
    - eapply Nat.lt_le_trans; [|exact Hn]. apply subset_size. rewrite dom_insert.
      apply not_elem_of_dom in E. set_solver.
    - done. }
  destruct Hx as [Hx|(y & Hc & Hy)]; [by apply Hplain|].
  destruct (Hplain y Hy) as (es2 & m2 & H2). eexists _, _. by econstructor.
Qed.

(** ** What a traversal records *)

Lemma trace_mono m W es m' : trace m W es m' -> m ⊆ m'.
Proof.
  induction 1; try done. etrans; [|exact IHtrace]. by apply insert_subseteq.
Qed.

Lemma news_new v es : news (New v :: es) = v :: news es.
Proof. done. Qed.

Lemma trace_size m W es m' : trace m W es m' -> size m' = (size m + length (news es))%nat.
Proof.
  induction 1 as [m|m v W es m' Hc Ht IH|m v v' W es m' Hc Ht IH|m v l p W es m' Hc Hm Ht IH|m v l W es m' Hc Hm Ht IH];
    try exact IH; [cbn; lia|].
  rewrite news_new, IH, map_size_insert_None by done. cbn [length]. lia.
Qed.

Lemma trace_news m W es m' : trace m W es m' ->
  NoDup (news es) /\ (forall b, b ∈ news es -> b ∉ dom m) /\ (forall b, b ∈ dom m' <-> b ∈ dom m \/ b ∈ news es).
Proof.
  induction 1 as [m|m v W es m' Hc Ht IH|m v v' W es m' Hc Ht IH|m v l p W es m' Hc Hm Ht IH|m v l W es m' Hc Hm Ht IH];
    try done.
  - split; [constructor|]. split; intros b; [by rewrite elem_of_nil|]. rewrite elem_of_nil. tauto.
  - rewrite news_new. destruct IH as (Hn & Hf & Hb). apply not_elem_of_dom in Hm. split_and!.
    + apply NoDup_cons_2; [|done]. intros Hin. apply (Hf v Hin). rewrite dom_insert. set_solver.
    + intros b Hin. apply elem_of_cons in Hin as [->|Hin]; [done|]. apply Hf in Hin. rewrite dom_insert in Hin. set_solver.
    + intros b. rewrite Hb, dom_insert, elem_of_cons. set_solver.
Qed.

(** Positions are numbered from zero in the order of recording. *)
Definition numbered (m : gmap Z Z) : Prop := forall v p, m !! v = Some p -> 0 <= p < Z.of_nat (size m).

Lemma numbered_insert m v : numbered m -> m !! v = None -> numbered (<[v := Z.of_nat (size m)]> m).
Proof.
  intros Hm Hv w p. rewrite map_size_insert_None by done. rewrite lookup_insert_Some.
  intros [[<- <-]|[_ Hw]]; [lia|]. apply Hm in Hw. lia.
Qed.
Lemma numbered_empty : numbered ∅.
Proof. intros v p Hv. by rewrite lookup_empty in Hv. Qed.

(** Every pending block is recorded in the end, and the fields of every new
    block are. *)
Inductive resolves : Z -> Z -> Prop :=
| resolves_node v l : classify v = Node l -> resolves v v
| resolves_redirect v v' b : classify v = Redirect v' -> resolves v' b -> resolves v b.
Definition recorded (m : gmap Z Z) (x : Z) : Prop := forall b, resolves x b -> b ∈ dom m.

Lemma trace_recorded m W es m' : trace m W es m' ->
  Forall (recorded m') W /\ forall b l, b ∈ news es -> classify b = Node l -> Forall (recorded m') l.
Proof.
  induction 1 as [m|m v W es m' Hc Ht [IW IN]|m v v' W es m' Hc Ht [IW IN]
    |m v l p W es m' Hc Hm Ht [IW IN]|m v l W es m' Hc Hm Ht [IW IN]].
  - split; [done|]. intros b l Hb. by apply elem_of_nil in Hb.
  - split; [constructor; [|done]|done]. intros b Hb. inversion Hb; congruence.
  - inversion IW as [|x k H1 HW]; subst. split; [constructor; [|done]|done].
    intros b Hb. apply H1. inversion Hb; subst; congruence.
  - split; [constructor; [|done]|done]. intros b Hb. assert (b = v) as -> by (inversion Hb; congruence).
    eapply subseteq_dom; [by eapply trace_mono|]. apply elem_of_dom. eauto.
  - apply Forall_app in IW as [Il IW]. split.
    + constructor; [|done]. intros b Hb. assert (b = v) as -> by (inversion Hb; congruence).
      eapply subseteq_dom; [by eapply trace_mono|]. rewrite dom_insert. set_solver.
    + intros b k. rewrite news_new, elem_of_cons. intros [->|Hb] Hk; [|by eapply IN]. congruence.
Qed.

Lemma trace_sound m W es m' : trace m W es m' -> forall b, b ∈ news es -> exists x, x ∈ W /\ reach x b.
Proof.
  induction 1 as [m|m v W es m' Hc Ht IH|m v v' W es m' Hc Ht IH|m v l p W es m' Hc Hm Ht IH|m v l W es m' Hc Hm Ht IH];
    intros b Hb.
  - by apply elem_of_nil in Hb.
  - destruct (IH b Hb) as (x & Hx & Hr). exists x. split; [by constructor|done].
  - destruct (IH b Hb) as (x & Hx & Hr). apply elem_of_cons in Hx as [->|Hx].
    + exists v. split; [by constructor|]. by eapply reach_redirect.
    + exists x. split; [by constructor|done].
  - destruct (IH b Hb) as (x & Hx & Hr). exists x. split; [by constructor|done].
  - rewrite news_new, elem_of_cons in Hb. destruct Hb as [->|Hb].
    + exists v. split; [constructor|]. by eapply reach_here.
    + destruct (IH b Hb) as (x & Hx & Hr). apply elem_of_app in Hx as [Hx|Hx].
      * exists v. split; [constructor|]. by eapply reach_field.
      * exists x. split; [by constructor|done].
Qed.

(** A traversal of a closed set stays inside it. *)
Lemma good_reach B x b : closed B -> good B x -> reach x b -> b ∈ B.
Proof.
  intros HB Hx Hr. induction Hr as [v l Hc|v v' b Hc Hr IH|v l y b Hc Hy Hr IH].
  - destruct Hx as [[Hl|]|(y & Hy & _)]; [congruence|done|congruence].
  - apply IH. left. destruct Hx as [[Hl|Hv]|(y & Hy & Hp)]; [congruence| |by replace v' with y by congruence].
    destruct (HB v Hv) as (l & Hl & _). congruence.
  - apply IH. destruct Hx as [[Hl|Hv]|(z & Hz & _)]; [congruence| |congruence].
    destruct (HB v Hv) as (l' & Hl & Hg). assert (l' = l) as -> by congruence.
    rewrite Forall_forall in Hg. by apply Hg, list_elem_of_In.
Qed.

Lemma trace_closed B m W es m' : closed B -> Forall (good B) W -> trace m W es m' -> forall b, b ∈ news es -> b ∈ B.
Proof.
  intros HB HW Ht b Hb. destruct (trace_sound _ _ _ _ Ht b Hb) as (x & Hx & Hr).
  eapply good_reach; [done| |done]. rewrite Forall_forall in HW. by apply HW, list_elem_of_In.
Qed.

Lemma trace_bounded B m W es m' : closed B -> Forall (good B) W -> trace m W es m' -> (length (news es) <= size B)%nat.
Proof.
  intros HB HW Ht. destruct (trace_news _ _ _ _ Ht) as (Hn & _).
  rewrite <- (size_list_to_set (C := gset Z)) by exact Hn. apply subseteq_size. intros b Hb. apply elem_of_list_to_set in Hb.
  by eapply trace_closed.
Qed.

(** A complete traversal records exactly the reachable blocks. *)
Lemma trace_reach W es m' : trace ∅ W es m' -> forall b, b ∈ news es <-> exists x, x ∈ W /\ reach x b.
Proof.
  intros Ht b. split; [by eapply trace_sound|]. intros (x & Hx & Hr).
  destruct (trace_recorded _ _ _ _ Ht) as [HW HN]. destruct (trace_news _ _ _ _ Ht) as (_ & _ & Hd).
  assert (Hdom : forall y, y ∈ dom m' -> y ∈ news es).
  { intros y Hy. apply Hd in Hy as [Hy|]; [|done]. by rewrite dom_empty in Hy. }
  assert (recorded m' x) as Hrec by (rewrite Forall_forall in HW; by apply HW, list_elem_of_In).
  clear Hx HW. induction Hr as [v l Hc|v v' b Hc Hr IH|v l y b Hc Hy Hr IH].
  - apply Hdom, Hrec. by eapply resolves_node.
  - apply IH. intros y Hy. apply Hrec. by eapply resolves_redirect.
  - apply IH. assert (v ∈ news es) as Hv by (apply Hdom, Hrec; by eapply resolves_node).
    specialize (HN v l Hv Hc). rewrite Forall_forall in HN. by apply HN, list_elem_of_In.
Qed.
End Traversal.
End Traverse.
