(* ===== verification/ExternProps.v ===== *)
(** * The output of the marshaler

    The bytes that stand for each kind of datum, and the theorems on the
    traversals of extern.c: what [extern_rec] writes, and the number of words
    [caml_obj_reachable_words] counts. *)

From S2P Require Import Prelude Memory Ints Strings Arrays PosTable Extern Traverse.
Import PosTable Extern Traverse.

Module ExternProps.

(** ** The bytes of each datum *)
Definition enc_int (n : Z) : list Z :=
  if (0 <=? n) && (n <? 0x40) then [PREFIX_SMALL_INT + n]
  else if (- 2 ^ 7 <=? n) && (n <? 2 ^ 7) then [CODE_INT8; u8 n]
  else if (- 2 ^ 15 <=? n) && (n <? 2 ^ 15) then CODE_INT16 :: store16 n
  else if (n <? - 2 ^ 30) || (2 ^ 30 <=? n) then CODE_INT64 :: store64 n
  else CODE_INT32 :: store32 n.
Definition enc_shared (d : Z) : list Z :=
  if d <? 0x100 then [CODE_SHARED8; u8 d]
  else if d <? 0x10000 then CODE_SHARED16 :: store16 d
  else if 2 ^ 32 <=? d then CODE_SHARED64 :: store64 d
  else CODE_SHARED32 :: store32 d.
Definition enc_header (sz tag : Z) : list Z :=
  if (tag <? 16) && (sz <? 8) then [PREFIX_SMALL_BLOCK + tag + 16 * sz]
  else
    let hd := Make_header sz tag NOT_MARKABLE in
    if hd <? 2 ^ 32 then CODE_BLOCK32 :: store32 hd else CODE_BLOCK64 :: store64 hd.
Definition enc_string (bs : list Z) : list Z :=
  (if str_len bs <? 0x20 then [PREFIX_SMALL_STRING + str_len bs]
   else if str_len bs <? 0x100 then [CODE_STRING8; u8 (str_len bs)]
   else if str_len bs <? 2 ^ 32 then CODE_STRING32 :: store32 (str_len bs)
   else CODE_STRING64 :: store64 (str_len bs)) ++ bs.
Definition enc_double (bs : list Z) : list Z := CODE_DOUBLE_NATIVE :: bs.
Definition enc_double_array (n : Z) (bs : list Z) : list Z :=
  (if n <? 0x100 then [CODE_DOUBLE_ARRAY8_NATIVE; u8 n]
   else if n <? 2 ^ 32 then CODE_DOUBLE_ARRAY32_NATIVE :: store32 n
   else CODE_DOUBLE_ARRAY64_NATIVE :: store64 n) ++ bs.

(** ** The graph of a heap, as the marshaler sees it *)

Definition tag_of (h : heap) (v : Z) : Z := match Tag_val h v with Ret t => t | _ => 0 end.
Definition wosize_of (h : heap) (v : Z) : Z := match Wosize_val h v with Ret n => n | _ => 0 end.
Definition string_len (h : heap) (v : Z) : Z := match caml_string_length h v with Ret n => n | _ => 0 end.

Definition classify (h : heap) (v : Z) : node :=
  if Is_long v then Leaf
  else
    match Hd_val h v with
    | Ret hd =>
        match short_circuit h v (Tag_hd hd) with
        | Ret (Some f) => Redirect f
        | Ret None =>
            if Wosize_hd hd =? 0 then Leaf
            else if Tag_hd hd <? No_scan_tag then
              match load_words h v (Z.to_nat (Wosize_hd hd)) with Ret l => Node l | _ => Stuck end
            else Node []
        | _ => Stuck
        end
    | _ => Stuck
    end.

(** A block of plain data: no code, no custom block, no object identity. *)
Record plain_block (h : heap) (v : Z) : Prop := {
  pb_tag : ~ tag_of h v ∈ [Abstract_tag; Infix_tag; Custom_tag; Closure_tag; Cont_tag; Object_tag];
  pb_string : tag_of h v = String_tag -> exists bs, string_at h v bs;
  pb_flat : No_scan_tag <= tag_of h v -> exists l, load_words h v (Z.to_nat (wosize_of h v)) = Ret l;
  pb_double : tag_of h v = Double_tag -> wosize_of h v = 1;
  pb_doubles : tag_of h v = Double_array_tag -> wosize_of h v < 2 ^ 32;
}.

(** Every word of the heap is a machine word. *)
Definition words_ok (h : heap) : Prop := forall a w, words h !! a = Some w -> is_word w.

(** The bytes written for an event of the traversal. *)
Definition enc (h : heap) (e : event) : list Z :=
  match e with
  | AtLeaf v => if Is_long v then enc_int (Long_val v) else enc_header 0 (tag_of h v)
  | Seen _ d => enc_shared d
  | New v =>
      if tag_of h v =? String_tag then enc_string (contents h v (string_len h v))
      else if tag_of h v =? Double_tag then enc_double (contents h v 8)
      else if tag_of h v =? Double_array_tag then enc_double_array (wosize_of h v) (contents h v (wosize_of h v * 8))
      else enc_header (wosize_of h v) (tag_of h v)
  end.
Definition encoding (h : heap) (es : list event) : list Z := concat (enc h <$> es).

(** The words the blocks of a list take in memory, headers included. *)
Definition total_words (h : heap) (bs : list Z) : Z := foldr (fun v n => 1 + wosize_of h v + n) 0 bs.

(** ** Writers *)

(** [s'] is [s] with [l] appended to its output. *)
Definition wrote (s : extern_state) (l : list Z) (s' : extern_state) : Prop :=
  output_bytes s' = output_bytes s ++ l /\
  exists blocks cur room, s' = set_output false blocks cur room s.

(** The state in which the writers cannot fail: output in chained blocks,
    no compatibility restriction. *)
Definition writable (s : extern_state) : Prop := extern_user s = false /\ has_flag s COMPAT_32 = false.

Lemma wrote_trans s l1 s1 l2 s2 : wrote s l1 s1 -> wrote s1 l2 s2 -> wrote s (l1 ++ l2) s2.
Proof.
  intros [E1 (b1 & c1 & r1 & ->)] [E2 (b2 & c2 & r2 & ->)]. split; [|by eexists _, _, _].
  by rewrite E2, E1, app_assoc.
Qed.
Lemma wrote_writable s l s' : wrote s l s' -> writable s -> writable s'.
Proof. intros [_ (b & c & r & ->)] [? ?]. split; done. Qed.

Lemma u8_get_byte m k n : m = 8 * k -> u8 (Z.shiftr n m) = get_byte n k.
Proof. intros ->. unfold wrap, get_byte. change 255 with (Z.ones 8). by rewrite Z.land_ones by lia. Qed.
Lemma u8_get_byte0 n : u8 n = get_byte n 0.
Proof. rewrite <- (u8_get_byte 0 0) by done. by rewrite Z.shiftr_0_r. Qed.

Lemma store16_bytes n : store16 n = [get_byte n 1; get_byte n 0].
Proof. unfold store16. by rewrite (u8_get_byte 8 1), u8_get_byte0. Qed.
Lemma store32_bytes n : store32 n = [get_byte n 3; get_byte n 2; get_byte n 1; get_byte n 0].
Proof. unfold store32. by rewrite (u8_get_byte 8 1), (u8_get_byte 16 2), (u8_get_byte 24 3), u8_get_byte0. Qed.
Lemma store64_bytes n : store64 n =
  [get_byte n 7; get_byte n 6; get_byte n 5; get_byte n 4; get_byte n 3; get_byte n 2; get_byte n 1; get_byte n 0].
Proof.
  unfold store64. by rewrite (u8_get_byte 8 1), (u8_get_byte 16 2), (u8_get_byte 24 3),
    (u8_get_byte 32 4), (u8_get_byte 40 5), (u8_get_byte 48 6), (u8_get_byte 56 7), u8_get_byte0.
Qed.
Lemma store16_s32 n : store16 (s32 n) = store16 n.
Proof. by rewrite !store16_bytes, !get_byte_swrap by lia. Qed.

Section Output.
Context {EE : ExternEnv}.
Hypothesis memory : forall n, stat_alloc n = true.

Lemma grow_wrote s n : extern_user s = false -> exists s', grow_extern_output s n = Ret s' /\ wrote s [] s' /\ extern_user s' = false.
Proof.
  intros Hu. unfold grow_extern_output. rewrite Hu, memory. eexists. split; [reflexivity|]. split; [|done].
  split; [|by eexists _, _, _]. unfold output_bytes. cbn. by rewrite concat_app, !app_nil_r, concat_cons, app_nil_r.
Qed.

Lemma put_wrote s0 s l : wrote s0 [] s -> extern_user s = false -> wrote s0 l (put s l).
Proof.
  intros [E (b & c & r & ->)] Hu. split; [|by eexists _, _, _].
  unfold put, set_cur, output_bytes in *. cbn in *. by rewrite app_assoc, E, app_nil_r.
Qed.

Lemma reserve_put s n l : writable s -> exists s', (s ← reserve s n; Ret (put s l)) = Ret s' /\ wrote s l s'.
Proof.
  intros [Hu _]. unfold reserve. destruct (_ <? _).
  - destruct (grow_wrote s n Hu) as (s' & -> & Hw & Hu'). mred. eexists. split; [done|]. by apply put_wrote.
  - mred. eexists. split; [done|]. apply put_wrote; [|done]. split; [by rewrite app_nil_r|].
    exists (extern_blocks s), (extern_cur s), (extern_room s). destruct s; cbn in *. by rewrite Hu.
Qed.

(** A writer appends the bytes [l]. *)
Definition writes (f : extern_state -> result extern_state) (l : list Z) : Prop :=
  forall s, writable s -> exists s', f s = Ret s' /\ wrote s l s'.

Lemma writes_seq f g l1 l2 : writes f l1 -> writes g l2 -> writes (fun s => s ← f s; g s) (l1 ++ l2).
Proof.
  intros Hf Hg s Hs. destruct (Hf s Hs) as (s1 & -> & W1). mred.
  destruct (Hg s1 (wrote_writable _ _ _ W1 Hs)) as (s2 & -> & W2). exists s2. split; [done|]. by eapply wrote_trans.
Qed.

Lemma writebyte_writes c : writes (fun s => writebyte s c) [u8 c].
Proof.
  intros s Hs. destruct (reserve_put s 1 [u8 c] Hs) as (s' & E & Hw). exists s'. split; [|done]. rewrite <- E.
  unfold writebyte, reserve. by replace (extern_room s <=? zlength (extern_cur s))
    with (extern_room s <? zlength (extern_cur s) + 1) by lia.
Qed.
Lemma writeblock_writes l : writes (fun s => writeblock s l) l.
Proof. intros s Hs. by apply reserve_put. Qed.
Lemma writecode8_writes c v : writes (fun s => writecode8 s c v) [u8 c; u8 v].
Proof. intros s Hs. by apply reserve_put. Qed.
Lemma writecode16_writes c v : writes (fun s => writecode16 s c v) (u8 c :: store16 v).
Proof.
  intros s Hs. destruct (reserve_put s 3 (u8 c :: store16 (s32 v)) Hs) as (s' & E & Hw). exists s'. split; [done|].
  by rewrite store16_s32 in Hw.
Qed.
Lemma writecode32_writes c v : writes (fun s => writecode32 s c v) (u8 c :: store32 v).
Proof. intros s Hs. by apply reserve_put. Qed.
Lemma writecode64_writes c v : writes (fun s => writecode64 s c v) (u8 c :: store64 v).
Proof. intros s Hs. by apply reserve_put. Qed.

Lemma writes_eq f l l' : writes f l -> l = l' -> writes f l'.
Proof. by intros Hf <-. Qed.
Ltac code := eapply writes_eq;
  [match goal with
   | |- writes (fun s => writeblock s _) _ => apply writeblock_writes
   | |- writes (fun s => writecode8 s _ _) _ => apply writecode8_writes
   | |- writes (fun s => writecode16 s _ _) _ => apply writecode16_writes
   | |- writes (fun s => writecode32 s _ _) _ => apply writecode32_writes
   | |- writes (fun s => writecode64 s _ _) _ => apply writecode64_writes
   end|reflexivity].

(** Under the flags of a writable state the guards on 32-bit platforms do
    not fire. *)
Lemma writes_guard (b : bool) (e : exn) f l :
  writes f l -> writes (fun s => if b && has_flag s COMPAT_32 then Raise e else f s) l.
Proof. intros Hf s Hs. pose proof Hs as [_ E]. rewrite E, andb_false_r. by apply Hf. Qed.

Lemma writes_ext f g l : (forall s, f s = g s) -> writes f l -> writes g l.
Proof. intros E Hf s Hs. rewrite <- E. by apply Hf. Qed.

Lemma extern_int_writes n : writes (fun s => extern_int s n) (enc_int n).
Proof.
  unfold extern_int, enc_int. change (Z.shiftl 1 7) with (2 ^ 7). change (Z.shiftl 1 15) with (2 ^ 15).
  change (Z.shiftl 1 30) with (2 ^ 30). destruct ((0 <=? n) && (n <? 0x40)) eqn:E1.
  { eapply writes_eq; [apply writebyte_writes|]. f_equal. apply wrap_small. unfold PREFIX_SMALL_INT. lia. }
  clear E1. destruct (_ && _); [code|]. destruct (_ && _); [code|]. destruct (_ || _); [|code].
  apply (writes_guard true). code.
Qed.

Lemma extern_shared_writes d : writes (fun s => extern_shared_reference s d) (enc_shared d).
Proof. unfold extern_shared_reference, enc_shared. destruct (_ <? _); [code|]. destruct (_ <? _); [code|]. destruct (_ <=? _); code. Qed.

Lemma extern_header_writes sz tag : 0 <= sz -> 0 <= tag -> writes (fun s => extern_header s sz tag) (enc_header sz tag).
Proof.
  intros Hs Ht. unfold extern_header, enc_header. destruct ((tag <? 16) && (sz <? 8)) eqn:E1.
  { rewrite Z.shiftl_mul_pow2 by lia. change (2 ^ 4) with 16. eapply writes_eq; [apply writebyte_writes|].
    f_equal. rewrite wrap_small by (unfold PREFIX_SMALL_BLOCK; lia). lia. }
  clear E1. cbv zeta. eapply writes_ext; [intros s; reflexivity|]. apply writes_guard. destruct (_ <? _); code.
Qed.

Lemma extern_string_writes h v bs : string_at h v bs ->
  writes (fun s => extern_string h s v (str_len bs)) (enc_string bs).
Proof.
  intros Hb. pose proof (str_len_nonneg bs). unfold extern_string, enc_string.
  assert (read_bytes (Z.to_nat (str_len bs)) h v 0 = Ret bs) as Hr.
  { rewrite (read_bytes_string _ h v bs 0); [|done|lia|unfold str_len in *; lia].
    f_equal. cbn. apply take_ge. unfold str_len. lia. }
  eapply writes_ext; [intros s; rewrite Hr; mred; reflexivity|]. apply writes_seq; [|code].
  destruct (Z.ltb_spec (str_len bs) 0x20).
  { eapply writes_eq; [apply writebyte_writes|]. f_equal. apply wrap_small. unfold PREFIX_SMALL_STRING. lia. }
  destruct (_ <? _); [code|]. apply writes_guard. destruct (_ <? _); code.
Qed.

(** *** Flat data *)

Lemma read_bytes_contents h v : forall n i,
  (forall j, i <= j < i + Z.of_nat n -> exists b, Byte_u h v j = Ret b) ->
  read_bytes n h v i = Ret ((fun j => match Byte_u h v j with Ret b => b | _ => 0 end) <$> seqZ i (Z.of_nat n)).
Proof.
  induction n as [|n IH]; intros i Hb; [done|]. cbn [read_bytes].
  rewrite seqZ_cons by lia. destruct (Hb i) as [b E]; [lia|]. rewrite E. mred.
  rewrite IH by (intros j Hj; apply Hb; lia). mred. cbn. rewrite E.
  by replace (Z.pred (Z.of_nat (S n))) with (Z.of_nat n) by lia.
Qed.

Lemma words_Byte h v n l : load_words h v n = Ret l -> forall j, 0 <= j < 8 * Z.of_nat n -> exists b, Byte_u h v j = Ret b.
Proof.
  intros El j Hj. apply load_words_spec in El as [Hlen Hl].
  destruct (lookup_lt_is_Some_2 l (Z.to_nat (j / 8))) as [w Hw].
  { rewrite Hlen. pose proof (div8_bounds j (Z.of_nat n) ltac:(lia)). lia. }
  apply Hl in Hw. rewrite Z2Nat.id in Hw by (apply Z.div_pos; lia). unfold Byte_u. rewrite Hw. by eexists.
Qed.

Lemma read_flat h v n l : load_words h v n = Ret l ->
  read_bytes (8 * n) h v 0 = Ret (contents h v (8 * Z.of_nat n)).
Proof.
  intros El. rewrite read_bytes_contents.
  - unfold contents. by replace (Z.of_nat (8 * n)) with (8 * Z.of_nat n) by lia.
  - intros j Hj. eapply words_Byte; [done|lia].
Qed.

Lemma string_contents h v bs : string_at h v bs -> string_len h v = str_len bs /\ contents h v (str_len bs) = bs.
Proof.
  intros Hb. unfold string_len. rewrite (string_length_spec _ _ _ Hb). split; [done|]. pose proof (str_len_nonneg bs).
  assert (read_bytes (Z.to_nat (str_len bs)) h v 0 = Ret bs) as Hr.
  { rewrite (read_bytes_string _ h v bs 0); [|done|lia|unfold str_len in *; lia].
    f_equal. cbn. apply take_ge. unfold str_len. lia. }
  rewrite read_bytes_contents in Hr.
  - injection Hr as <-. unfold contents at 1. rewrite Z2Nat.id by lia.
    unfold str_len. by rewrite length_fmap, length_seqZ, Z2Nat.id by lia.
  - intros j Hj. rewrite (sa_content _ _ _ Hb); [by eexists|]. pose proof (str_wosize_bounds (str_len bs)). lia.
Qed.

Lemma float_block_writes h v n l : load_words h v (Z.to_nat n) = Ret l -> 0 <= n ->
  writes (fun s => writeblock_float8 h s v n) (contents h v (n * 8)).
Proof.
  intros El Hn. pose proof (read_flat _ _ _ _ El) as Hr. rewrite Z2Nat.id in Hr by lia.
  unfold writeblock_float8. replace (Z.to_nat (n * 8)) with (8 * Z.to_nat n)%nat by lia. rewrite Hr. mred.
  rewrite Z.mul_comm. code.
Qed.

Lemma extern_double_writes h v l : load_words h v 1 = Ret l -> writes (fun s => extern_double h s v) (enc_double (contents h v 8)).
Proof.
  intros El. unfold extern_double, enc_double. change (CODE_DOUBLE_NATIVE :: ?l) with ([CODE_DOUBLE_NATIVE] ++ l).
  apply writes_seq; [apply writebyte_writes|]. by apply (float_block_writes h v 1 l).
Qed.

Lemma extern_double_array_writes h v n l : load_words h v (Z.to_nat n) = Ret l -> 0 <= n ->
  writes (fun s => extern_double_array h s v n) (enc_double_array n (contents h v (n * 8))).
Proof.
  intros El Hn. unfold extern_double_array, enc_double_array. apply writes_seq; [|by eapply float_block_writes].
  destruct (_ <? _); [code|]. apply writes_guard. destruct (_ <? _); code.
Qed.

(** ** One round of the marshaling loop *)

(** The state between two values: [m] holds the blocks recorded so far. *)
Record tracking (s : extern_state) (m : gmap Z Z) : Prop := {
  r_flags : extern_flags s = 0 \/ extern_flags s = CLOSURES;
  r_table : usable (pos_table s) m;
  r_counter : obj_counter s = Z.of_nat (size m);
  r_stack : exists k, 8 <= k <= 26 /\ extern_stack_size s = 2 ^ k;
}.
Record ready (s : extern_state) (m : gmap Z Z) : Prop := {
  r_user : extern_user s = false;
  r_size : 0 <= size_64 s < 2 ^ 64;
  r_track :> tracking s m;
}.

Lemma ready_flags s m : ready s m ->
  writable s /\ has_flag s NO_SHARING = false /\ has_flag s COMPRESSED = false.
Proof. intros [Hu _ [[Hf|Hf] _ _ _]]; unfold writable, has_flag; by rewrite Hu, Hf. Qed.

(** From [s] to [s'] the output grew by [l], the heap size by [n] words, and
    the blocks written are [m]. *)
Definition advanced (s : extern_state) (l : list Z) (n : Z) (m : gmap Z Z) (s' : extern_state) : Prop :=
  output_bytes s' = output_bytes s ++ l /\ eqm 64 (size_64 s') (size_64 s + n) /\ ready s' m.

Lemma wrote_advanced s l s' m : ready s m -> wrote s l s' -> advanced s l 0 m s'.
Proof.
  intros [? ? [? ? ? ?]] [E (b & c & r & ->)]. split; [done|]. split; [cbn; by rewrite Z.add_0_r|]. split; [done|done|]. by split.
Qed.

Lemma advanced_trans s l1 n1 m1 s1 l2 n2 m2 s2 :
  advanced s l1 n1 m1 s1 -> advanced s1 l2 n2 m2 s2 -> advanced s (l1 ++ l2) (n1 + n2) m2 s2.
Proof.
  intros (E1 & N1 & _) (E2 & N2 & R). split; [by rewrite E2, E1, app_assoc|]. split; [|done].
  rewrite N2, N1. by rewrite Z.add_assoc.
Qed.

Lemma tracking_flags s m : tracking s m -> has_flag s NO_SHARING = false.
Proof. intros [[Hf|Hf] _ _ _]; unfold has_flag; by rewrite Hf. Qed.

(** Recording the block whose lookup failed, in a state that differs in its
    output and sizes only. *)
Lemma record_tracking s m v : tracking s m -> m !! v = None -> Z.of_nat (size m) < 2 ^ 54 ->
  exists ht t, extern_lookup_position (pos_table s) v = Ret (Absent ht) /\
    usable t (<[v := Z.of_nat (size m)]> m) /\
    forall s1, pos_table s1 = pos_table s -> obj_counter s1 = obj_counter s -> extern_flags s1 = extern_flags s ->
      extern_record_location s1 v ht = Ret (set_obj_counter (Z.of_nat (S (size m))) (set_pos_table t s1)).
Proof.
  intros Hr Hv Hs. destruct (usable_record stat_alloc (pos_table s) m v (r_table _ _ Hr) Hv) as (ht & -> & Ht).
  pose proof (tracking_flags s m Hr) as Hns. pose proof (r_counter _ _ Hr) as Hc.
  destruct (record_location stat_alloc (pos_table s) v ht (Z.of_nat (size m))) as [t|e| | |] eqn:E; try done.
  2:{ destruct Ht as [_ [[n Hn]|Hbig]]; [by rewrite memory in Hn|lia]. }
  exists ht, t. split_and!; try done. intros s1 E1 E2 E3. unfold extern_record_location, has_flag in *.
  rewrite E3, Hns, E1, E2, Hc, E. mred. rewrite wrap_small by lia. do 2 f_equal. lia.
Qed.

Lemma record_advanced s m v : ready s m -> m !! v = None -> Z.of_nat (size m) < 2 ^ 54 ->
  exists ht, extern_lookup_position (pos_table s) v = Ret (Absent ht) /\
    forall l s1 n32 n64, wrote s l s1 -> exists s2,
      extern_record_location (add_sizes n32 n64 s1) v ht = Ret s2 /\
      advanced s l n64 (<[v := Z.of_nat (size m)]> m) s2.
Proof.
  intros Hr Hv Hs. destruct (record_tracking s m v Hr Hv Hs) as (ht & t & -> & Ht & Hrec).
  exists ht. split; [done|]. intros l s1 n32 n64 [E (b & c & r & ->)]. rewrite Hrec by done. eexists. split; [reflexivity|].
  destruct Hr as [Hu _ [Hf Htab Hc Hst]]. split; [exact E|]. split; [cbn; apply eqm_of_wrap|].
  split; [done|apply wrap_range; lia|]. split; cbn; try done. by rewrite map_size_insert_None.
Qed.

Lemma push_tracking s m sp a c : tracking s m -> zlength sp + 1 < 2 ^ 26 ->
  exists k, push_item s sp a c = Ret (set_stack_size k s, mkItem a c :: sp) /\ tracking (set_stack_size k s) m.
Proof.
  intros Hr Hd. destruct Hr as [Hf Ht Hc (k & Hk & Es)]. unfold push_item. rewrite Es.
  destruct (Z.leb_spec (2 ^ k) (zlength sp + 1)).
  - assert (k < 26) as Hk' by (apply (Z.pow_lt_mono_r_iff 2); lia).
    unfold extern_resize_stack. rewrite Es, <- Z.pow_succ_r by lia.
    assert (2 ^ Z.succ k <= 2 ^ 26) by (apply Z.pow_le_mono_r; lia).
    rewrite (proj2 (Z.leb_gt _ _)) by (unfold EXTERN_STACK_MAX_SIZE; lia). rewrite memory. mred.
    eexists. split; [reflexivity|]. split; try done. exists (Z.succ k). split; [lia|done].
  - mred. exists (extern_stack_size s). replace (set_stack_size (extern_stack_size s) s) with s by by destruct s.
    split; [done|]. split; try done. by exists k.
Qed.

Lemma push_advanced s m sp a c : ready s m -> zlength sp + 1 < 2 ^ 26 ->
  exists s', push_item s sp a c = Ret (s', mkItem a c :: sp) /\ advanced s [] 0 m s'.
Proof.
  intros [Hu Hz Hr] Hd. destruct (push_tracking s m sp a c Hr Hd) as (k & -> & Hr'). eexists. split; [reflexivity|].
  split; [by rewrite app_nil_r|]. split; [cbn; by rewrite Z.add_0_r|]. by split.
Qed.

(** *** Pending values *)

Fixpoint pending_fields (h : heap) (sp : list extern_item) : result (list Z) :=
  match sp with
  | [] => Ret []
  | it :: sp =>
      l ← load_words h (item_v it) (Z.to_nat (item_count it));
      W ← pending_fields h sp;
      Ret (l ++ W)
  end.

(** [W] are the values of the fields on the stack. *)
Definition pending (h : heap) (sp : list extern_item) (W : list Z) : Prop :=
  pending_fields h sp = Ret W /\ Forall (fun it => 0 < item_count it) sp.

Lemma pending_nil h W : pending h [] W -> W = [].
Proof. intros [E _]. by injection E. Qed.

Lemma pop_nil h sp : pending h sp [] -> pop_item h sp = Ret None /\ sp = [].
Proof.
  destruct sp as [|it sp]; [done|]. intros [E Hc]. inversion Hc; subst. cbn in E.
  apply bind_Ret_inv in E as (l & El & E). apply bind_Ret_inv in E as (W' & EW & E). injection E as E.
  apply app_eq_nil in E as [-> _]. apply load_words_spec in El as [El _]. cbn in El. lia.
Qed.

Lemma pop_cons h sp v W : pending h sp (v :: W) ->
  exists sp', pop_item h sp = Ret (Some (v, sp')) /\ pending h sp' W /\ zlength sp' <= zlength sp.
Proof.
  destruct sp as [|it sp]; [by intros [E _]|]. intros [E Hc]. inversion Hc as [|? ? Hpos Hsp]; subst.
  cbn in E. apply bind_Ret_inv in E as (l & El & E). apply bind_Ret_inv in E as (W' & EW & E). injection E as E.
  destruct (Z.to_nat (item_count it)) as [|n] eqn:En; [lia|]. cbn in El.
  apply bind_Ret_inv in El as (w & Ew & El). apply bind_Ret_inv in El as (l' & El & Eq). injection Eq as <-.
  injection E as <- <-. unfold pop_item. rewrite Ew. mred. eexists. split; [reflexivity|].
  destruct (Z.eqb_spec (item_count it - 1) 0).
  - assert (n = 0%nat) as -> by lia. injection El as <-. split; [by split|]. cbn. lia.
  - split; [|cbn; lia]. split; [|constructor; [cbn; lia|done]]. cbn.
    replace (Z.to_nat (item_count it - 1)) with n by lia. rewrite El. mred. by rewrite EW.
Qed.

Lemma pending_push h sp W v l n : pending h sp W -> load_words h v (Z.to_nat n) = Ret l -> 1 < n ->
  exists f k, l = f :: k /\ Field h v 0 = Ret f /\ pending h (mkItem (v + 8 * 1) (n - 1) :: sp) (k ++ W).
Proof.
  intros [E Hc] El Hn. destruct (Z.to_nat n) as [|k] eqn:Ek; [lia|]. cbn in El.
  apply bind_Ret_inv in El as (w & Ew & El). apply bind_Ret_inv in El as (l' & El & Eq). injection Eq as <-.
  exists w, l'. split; [done|]. split; [unfold Field; by rewrite Z.add_0_r|]. split; [|constructor; [cbn; lia|done]].
  cbn [pending_fields item_v item_count]. change (8 * 1) with 8. replace (Z.to_nat (n - 1)) with k by lia.
  rewrite El. mred. by rewrite E.
Qed.

(** *** The cases of a round *)

Lemma head_values h v hd : Hd_val h v = Ret hd -> tag_of h v = Tag_hd hd /\ wosize_of h v = Wosize_hd hd /\ 0 <= Tag_hd hd < 256 /\ 0 <= Wosize_hd hd < 2 ^ 54.
Proof.
  intros E. unfold tag_of, wosize_of, Tag_val, Wosize_val. rewrite E. split_and!; try done.
  - unfold Tag_hd, HEADER_TAG_MASK. change (2 ^ 8 - 1) with (Z.ones 8). rewrite Z.land_ones by lia. apply Z.mod_pos_bound. lia.
  - unfold Tag_hd, HEADER_TAG_MASK. change (2 ^ 8 - 1) with (Z.ones 8). rewrite Z.land_ones by lia. apply Z.mod_pos_bound. lia.
  - apply (Wosize_range h v). unfold Wosize_val. by rewrite E.
  - apply (Wosize_range h v). unfold Wosize_val. by rewrite E.
Qed.

Lemma one_leaf h s sp v m : ready s m -> classify h v = Leaf ->
  exists s', extern_one h s sp v = Ret (s', sp, None) /\ advanced s (enc h (AtLeaf v)) 0 m s'.
Proof.
  intros Hr Hc. unfold extern_one, enc, classify in *. destruct (ready_flags s m Hr) as [Hw _].
  destruct (Is_long v).
  - destruct (extern_int_writes (Long_val v) s Hw) as (s' & -> & W). mred. exists s'. split; [done|]. by apply wrote_advanced.
  - destruct (Hd_val h v) as [hd| | | |] eqn:E; try done. mred.
    destruct (head_values h v hd E) as (-> & _ & Ht & _).
    destruct (short_circuit _ _ _) as [[f|]| | | |]; try done. mred.
    destruct (Z.eqb_spec (Wosize_hd hd) 0).
    + destruct (extern_header_writes 0 (Tag_hd hd) ltac:(lia) ltac:(lia) s Hw) as (s' & -> & W). mred.
      exists s'. split; [done|]. by apply wrote_advanced.
    + destruct (_ <? _); [|done]. by destruct (load_words _ _ _).
Qed.

Lemma one_redirect h s sp v v' : classify h v = Redirect v' -> extern_one h s sp v = Ret (s, sp, Some v').
Proof.
  intros Hc. unfold extern_one, classify in *. destruct (Is_long v); [done|].
  destruct (Hd_val h v) as [hd| | | |]; try done. mred.
  destruct (short_circuit _ _ _) as [[f|]| | | |]; try done.
  - injection Hc as ->. done.
  - destruct (_ =? 0); [done|]. destruct (_ <? _); [|done]. by destruct (load_words _ _ _).
Qed.

(** What a block that is recorded looks like. *)
Lemma node_inv h v l : classify h v = Node l ->
  Is_long v = false /\ exists hd, Hd_val h v = Ret hd /\ short_circuit h v (Tag_hd hd) = Ret None /\ 0 < Wosize_hd hd /\
    (Tag_hd hd < No_scan_tag /\ load_words h v (Z.to_nat (Wosize_hd hd)) = Ret l \/ No_scan_tag <= Tag_hd hd /\ l = []).
Proof.
  unfold classify. destruct (Is_long v); [done|]. destruct (Hd_val h v) as [hd| | | |] eqn:E; try done.
  destruct (head_values h v hd E) as (_ & _ & _ & Hs).
  destruct (short_circuit _ _ _) as [[f|]| | | |] eqn:Ef; try done.
  destruct (Z.eqb_spec (Wosize_hd hd) 0); [done|].
  intros Hn. split; [done|]. exists hd. split_and!; try done; try lia.
  destruct (Z.ltb_spec (Tag_hd hd) No_scan_tag).
  - left. split; [done|]. destruct (load_words _ _ _); try done. congruence.
  - right. split; [done|]. congruence.
Qed.

Lemma one_seen h s sp v l p m : ready s m -> classify h v = Node l -> m !! v = Some p ->
  0 <= Z.of_nat (size m) - p < 2 ^ 64 ->
  exists s', extern_one h s sp v = Ret (s', sp, None) /\ advanced s (enc h (Seen v (Z.of_nat (size m) - p))) 0 m s'.
Proof.
  intros Hr Hc Hp Hd. destruct (node_inv h v l Hc) as (Hl & hd & Eh & Ef & Hsz & _).
  destruct (ready_flags s m Hr) as (Hw & Hns & Hcp).
  unfold extern_one. rewrite Hl, Eh. mred. rewrite Ef. mred. rewrite (proj2 (Z.eqb_neq _ _)) by lia.
  rewrite Hns, (usable_lookup _ m v p (r_table _ _ (r_track _ _ Hr)) Hp). mred. rewrite Hcp, (r_counter _ _ (r_track _ _ Hr)), wrap_small by lia.
  destruct (extern_shared_writes (Z.of_nat (size m) - p) s Hw) as (s' & -> & W). mred.
  exists s'. split; [done|]. by apply wrote_advanced.
Qed.

(** The pending values when the loop continues with [next]. *)
Definition pends (h : heap) (sp : list extern_item) (next : option Z) (W : list Z) : Prop :=
  match next with
  | Some v => exists W', W = v :: W' /\ pending h sp W'
  | None => pending h sp W
  end.

Lemma advanced_push s m l n s1 sp a c : advanced s l n m s1 -> zlength sp + 1 < 2 ^ 26 ->
  exists s', push_item s1 sp a c = Ret (s', mkItem a c :: sp) /\ advanced s l n m s'.
Proof.
  intros Ha Hd. destruct (push_advanced s1 m sp a c) as (s' & E & Ha'); [apply Ha|done|].
  exists s'. split; [done|]. pose proof (advanced_trans _ _ _ _ _ _ _ _ _ Ha Ha') as H.
  by rewrite app_nil_r, Z.add_0_r in H.
Qed.

(** The fields of a block put in front of the pending values: the last part
    of the [default] case of the loop. *)
Lemma push_fields h s m l n s1 sp v sz k W : advanced s l n m s1 -> zlength sp + 1 < 2 ^ 26 ->
  pending h sp W -> load_words h v (Z.to_nat sz) = Ret k -> 0 < sz ->
  exists s' sp' f, ('(s2, sp2) ← (if 1 <? sz then push_item s1 sp (v + 8 * 1) (sz - 1) else Ret (s1, sp));
       f ← Field h v 0; Ret (s2, sp2, Some f)) = Ret (s', sp', Some f) /\
    advanced s l n m s' /\ pends h sp' (Some f) (k ++ W) /\ zlength sp' <= zlength sp + 1.
Proof.
  intros Ha Hd Hp Ek Hsz. destruct (Z.ltb_spec 1 sz).
  - destruct (advanced_push s m l n s1 sp (v + 8 * 1) (sz - 1) Ha Hd) as (s' & -> & Ha'). mred.
    destruct (pending_push h sp W v k sz Hp Ek ltac:(lia)) as (f & k' & -> & -> & Hp'). mred.
    eexists _, _, _. split; [reflexivity|]. split; [done|]. split; [|cbn [length]; lia]. by exists (k' ++ W).
  - assert (sz = 1) as -> by lia. mred. apply load_words_spec in Ek as [El Hk].
    destruct k as [|f [|]]; try (cbn in El; lia). specialize (Hk 0%nat f eq_refl). change (Z.of_nat 0) with 0 in Hk. unfold Field. rewrite Hk. mred.
    eexists _, _, _. split; [reflexivity|]. split; [done|]. split; [|lia]. by exists W.
Qed.

Lemma plain_tag h v t : plain_block h v -> t ∈ [Abstract_tag; Infix_tag; Custom_tag; Closure_tag; Cont_tag; Object_tag] ->
  (tag_of h v =? t) = false.
Proof. intros Hp Ht. apply Z.eqb_neq. intros <-. by apply (pb_tag _ _ Hp). Qed.

Lemma one_new h s sp v l m W : ready s m -> classify h v = Node l -> plain_block h v -> m !! v = None ->
  Z.of_nat (size m) < 2 ^ 54 -> pending h sp W -> zlength sp + 1 < 2 ^ 26 ->
  exists s' sp' next, extern_one h s sp v = Ret (s', sp', next) /\
    advanced s (enc h (New v)) (1 + wosize_of h v) (<[v := Z.of_nat (size m)]> m) s' /\
    pends h sp' next (l ++ W) /\ zlength sp' <= zlength sp + 1.
Proof.
  intros Hr Hc Hpl Hm Hs Hp Hd. destruct (node_inv h v l Hc) as (Hl & hd & Eh & Ef & Hsz & Hnode).
  destruct (ready_flags s m Hr) as (Hw & Hns & Hcp). destruct (head_values h v hd Eh) as (Et & Ez & Ht & Hz).
  destruct (record_advanced s m v Hr Hm Hs) as (ht & El & Hrec).
  unfold extern_one, enc. rewrite Hl, Eh. mred. rewrite Ef. mred. rewrite (proj2 (Z.eqb_neq (Wosize_hd hd) 0)) by lia.
  rewrite Hns, El. mred. rewrite <- Et, <- Ez in *.
  destruct (Z.eqb_spec (tag_of h v) String_tag) as [Es|Es].
  { destruct (pb_string _ _ Hpl Es) as [bs Hb]. rewrite (string_length_spec _ _ _ Hb). mred.
    destruct (string_contents h v bs Hb) as [-> ->]. pose proof (str_len_nonneg bs). pose proof (sa_small _ _ _ Hb).
    destruct (extern_string_writes h v bs Hb s Hw) as (s1 & -> & W1). mred.
    assert (wosize_of h v = str_wosize (str_len bs)) as En by (unfold wosize_of; by rewrite (sa_size _ _ _ Hb)).
    destruct (Hrec _ s1 (1 + u64 (str_len bs + 4) / 4) (1 + u64 (str_len bs + 8) / 8) W1) as (s2 & -> & Ha). mred.
    eexists _, _, _. split; [reflexivity|].
    rewrite wrap_small in Ha by lia. unfold str_wosize in En. rewrite <- En in Ha.
    split; [done|]. split; [|lia]. destruct Hnode as [[Hlt _]|[_ ->]]; [rewrite Es in Hlt; done|done]. }
  destruct (Z.eqb_spec (tag_of h v) Double_tag) as [Ed|Ed].
  { destruct (pb_flat _ _ Hpl) as [k Hk]; [by rewrite Ed|]. rewrite (pb_double _ _ Hpl Ed) in *.
    destruct (extern_double_writes h v k Hk s Hw) as (s1 & -> & W1). mred.
    destruct (Hrec _ s1 (1 + 2) (1 + 1) W1) as (s2 & -> & Ha). mred. eexists _, _, _. split; [reflexivity|].
    split; [done|]. split; [|lia]. destruct Hnode as [[Hlt _]|[_ ->]]; [rewrite Ed in Hlt; done|done]. }
  destruct (Z.eqb_spec (tag_of h v) Double_array_tag) as [Ea|Ea].
  { destruct (pb_flat _ _ Hpl) as [k Hk]; [by rewrite Ea|]. unfold Double_wosize. rewrite Z.div_1_r.
    destruct (extern_double_array_writes h v (wosize_of h v) k Hk ltac:(lia) s Hw) as (s1 & -> & W1). mred.
    destruct (Hrec _ s1 (1 + wosize_of h v * 2) (1 + wosize_of h v) W1) as (s2 & -> & Ha). mred.
    eexists _, _, _. split; [reflexivity|].
    split; [done|]. split; [|lia]. destruct Hnode as [[Hlt _]|[_ ->]]; [rewrite Ea in Hlt; done|done]. }
  rewrite !(plain_tag h v) by (done || set_solver).
  destruct Hnode as [[Hlt Hk]|[Hge _]].
  2:{ exfalso. pose proof (plain_tag h v Abstract_tag Hpl ltac:(set_solver)). pose proof (plain_tag h v Custom_tag Hpl ltac:(set_solver)).
      unfold No_scan_tag, Abstract_tag, Custom_tag, String_tag, Double_tag, Double_array_tag in *. lia. }
  destruct (extern_header_writes (wosize_of h v) (tag_of h v) ltac:(lia) ltac:(lia) s Hw) as (s1 & -> & W1). mred.
  destruct (Hrec _ s1 (1 + wosize_of h v) (1 + wosize_of h v) W1) as (s2 & -> & Ha). mred.
  destruct (push_fields h s _ _ _ s2 sp v (wosize_of h v) l W Ha Hd Hp Hk Hsz) as (s' & sp' & f & -> & Ha' & Hp' & Hd').
  eexists _, _, _. by split_and!.
Qed.

(** ** The marshaling loop *)

(** The loop from the point where [next] is known. *)
Definition loop_from (n : nat) (h : heap) (s : extern_state) (sp : list extern_item) (next : option Z) : result extern_state :=
  match next with
  | Some v => extern_loop n h s sp v
  | None =>
      p ← pop_item h sp;
      match p with
      | None => Ret (extern_free_stack s)
      | Some (v, sp) => extern_loop n h s sp v
      end
  end.

Lemma extern_loop_S n h s sp v : extern_loop (S n) h s sp v =
  ('(s, sp, next) ← extern_one h s sp v; loop_from n h s sp next).
Proof. done. Qed.

Lemma pends_cons h sp next v W : pends h sp next (v :: W) ->
  exists sp', pending h sp' W /\ zlength sp' <= zlength sp /\
    forall n s, loop_from n h s sp next = extern_loop n h s sp' v.
Proof.
  intros Hp. destruct next as [x|]; cbn in Hp.
  - destruct Hp as (W' & [= <- <-] & Hp). exists sp. by split_and!.
  - destruct (pop_cons h sp v W Hp) as (sp' & E & Hp' & Hl). exists sp'. split_and!; try done.
    intros n s. unfold loop_from. by rewrite E.
Qed.

Lemma encoding_cons h e es : encoding h (e :: es) = enc h e ++ encoding h es.
Proof. done. Qed.

Lemma advanced_eqm s l n n' m s' : n = n' -> advanced s l n m s' -> advanced s l n' m s'.
Proof. by intros ->. Qed.

Lemma extern_loop_trace h m W es m' : trace (classify h) m W es m' -> numbered m ->
  (forall b, b ∈ news es -> plain_block h b) -> Z.of_nat (size m') < 2 ^ 54 ->
  forall s sp next, ready s m -> pends h sp next W -> zlength sp + zlength (news es) < 2 ^ 26 - 1 ->
  exists s' n0, (forall n, (n0 <= n)%nat -> loop_from n h s sp next = Ret s') /\
    advanced s (encoding h es) (total_words h (news es)) m' s'.
Proof.
  induction 1 as [m|m v W es m' Hc Ht IH|m v v' W es m' Hc Ht IH|m v l p W es m' Hc Hm Ht IH|m v l W es m' Hc Hm Ht IH];
    intros Hnum Hpl Hsz s sp next Hr Hp Hd.
  - destruct next as [x|]; [by destruct Hp as (? & ? & _)|]. apply pop_nil in Hp as [E ->].
    exists (extern_free_stack s), 0%nat. split; [intros n _; unfold loop_from; by rewrite E|].
    split; [by rewrite app_nil_r|]. split; [cbn; by rewrite Z.add_0_r|]. destruct Hr as [Hu Hz [? ? ? _]]. split; [done|done|]. split; try done.
    exists 8. split; [lia|done].
  - change (news (AtLeaf v :: es)) with (news es) in *.
    destruct (pends_cons _ _ _ _ _ Hp) as (sp1 & Hp1 & Hl1 & E). destruct (one_leaf h s sp1 v m Hr Hc) as (s1 & E1 & Ha1).
    destruct (IH Hnum Hpl Hsz s1 sp1 None) as (s' & n0 & El & Ha); [apply Ha1|done|lia|].
    exists s', (S n0). split; [|by apply (advanced_trans _ _ _ _ _ _ _ _ _ Ha1 Ha)].
    intros [|n] Hn; [lia|]. rewrite E, extern_loop_S, E1. mred. apply El. lia.
  - destruct (pends_cons _ _ _ _ _ Hp) as (sp1 & Hp1 & Hl1 & E).
    destruct (IH Hnum Hpl Hsz s sp1 (Some v')) as (s' & n0 & El & Ha); [done|by exists W|lia|].
    exists s', (S n0). split; [|done].
    intros [|n] Hn; [lia|]. rewrite E, extern_loop_S, (one_redirect _ _ _ _ _ Hc). mred. apply El. lia.
  - change (news (Seen v (Z.of_nat (size m) - p) :: es)) with (news es) in *.
    destruct (pends_cons _ _ _ _ _ Hp) as (sp1 & Hp1 & Hl1 & E). pose proof (Hnum _ _ Hm).
    assert (size m <= size m')%nat by (apply map_subseteq_size; by eapply trace_mono).
    destruct (one_seen h s sp1 v l p m Hr Hc Hm) as (s1 & E1 & Ha1); [lia|].
    destruct (IH Hnum Hpl Hsz s1 sp1 None) as (s' & n0 & El & Ha); [apply Ha1|done|lia|].
    exists s', (S n0). split; [|by apply (advanced_trans _ _ _ _ _ _ _ _ _ Ha1 Ha)].
    intros [|n] Hn; [lia|]. rewrite E, extern_loop_S, E1. mred. apply El. lia.
  - destruct (pends_cons _ _ _ _ _ Hp) as (sp1 & Hp1 & Hl1 & E). rewrite news_new in *. cbn [length] in Hd.
    assert (size m <= size m')%nat.
    { etrans; [|apply map_subseteq_size; by eapply trace_mono]. rewrite map_size_insert_None by done. lia. }
    destruct (one_new h s sp1 v l m W) as (s1 & sp2 & nx & E1 & Ha1 & Hp2 & Hl2); try done; try lia.
    { apply Hpl. constructor. }
    destruct (IH (numbered_insert _ _ Hnum Hm)) with (s := s1) (sp := sp2) (next := nx) as (s' & n0 & El & Ha); try done; try lia.
    { intros b Hb. apply Hpl. by constructor. }
    { apply Ha1. }
    exists s', (S n0). split; [|by apply (advanced_trans _ _ _ _ _ _ _ _ _ Ha1 Ha)].
    intros [|n] Hn; [lia|]. rewrite E, extern_loop_S, E1. mred. apply El. lia.
Qed.

(** ** Reachable words *)

(** The graph [caml_obj_reachable_words] traverses: every block is counted,
    an infix pointer leads to its closure, the code part of a closure is not
    followed. *)
Definition reachable_classify (h : heap) (v : Z) : node :=
  if Is_long v then Leaf
  else
    match Hd_val h v with
    | Ret hd =>
        let sz := Wosize_hd hd in
        if Tag_hd hd =? Infix_tag then Redirect (v - Infix_offset_hd hd)
        else if Tag_hd hd <? No_scan_tag then
          match (if Tag_hd hd =? Closure_tag then info ← Closinfo_val h v; Ret (Start_env_closinfo info) else Ret 0) with
          | Ret i =>
              if i <? sz then
                match load_words h (v + 8 * i) (Z.to_nat (sz - i)) with Ret l => Node l | _ => Stuck end
              else Node []
          | _ => Stuck
          end
        else Node []
    | _ => Stuck
    end.

(** The recorded blocks are blocks, never infix pointers. *)
Definition nodes (h : heap) (m : gmap Z Z) : Prop := forall v p, m !! v = Some p -> exists l, reachable_classify h v = Node l.

Definition reachable_from (n : nat) (h : heap) (s : extern_state) (sp : list extern_item) (size : Z) (next : option Z) : result Z :=
  match next with
  | Some v => reachable_loop n h s sp size v
  | None =>
      p ← pop_item h sp;
      match p with
      | None => Ret size
      | Some (v, sp) => reachable_loop n h s sp size v
      end
  end.

Lemma reachable_loop_S n h s sp size v : reachable_loop (S n) h s sp size v =
  ('(s, sp, size, next) ← reachable_one h s sp size v; reachable_from n h s sp size next).
Proof. done. Qed.

Lemma reachable_cons h sp next v W : pends h sp next (v :: W) ->
  exists sp', pending h sp' W /\ zlength sp' <= zlength sp /\
    forall n s size, reachable_from n h s sp size next = reachable_loop n h s sp' size v.
Proof.
  intros Hp. destruct next as [x|]; cbn in Hp.
  - destruct Hp as (W' & [= <- <-] & Hp). exists sp. by split_and!.
  - destruct (pop_cons h sp v W Hp) as (sp' & E & Hp' & Hl). exists sp'. split_and!; try done.
    intros n s size. unfold reachable_from. by rewrite E.
Qed.

Lemma absent s m v : tracking s m -> m !! v = None -> exists ht, extern_lookup_position (pos_table s) v = Ret (Absent ht).
Proof. intros Hr Hv. destruct (usable_record stat_alloc _ m v (r_table _ _ Hr) Hv) as (ht & E & _). by exists ht. Qed.

Lemma reachable_redirect h s sp size v v' m : tracking s m -> nodes h m -> reachable_classify h v = Redirect v' ->
  reachable_one h s sp size v = Ret (s, sp, size, Some v').
Proof.
  intros Hr Hn Hc. assert (m !! v = None) as Hv.
  { destruct (m !! v) eqn:E; [|done]. destruct (Hn _ _ E). congruence. }
  destruct (absent s m v Hr Hv) as [ht E]. unfold reachable_one, reachable_classify in *.
  destruct (Is_long v); [done|]. rewrite E. mred. destruct (Hd_val h v) as [hd| | | |]; try done. mred. cbv zeta in *.
  destruct (_ =? _); [by injection Hc as ->|]. destruct (_ <? _); [|done].
  destruct (if _ =? _ then _ else _) as [i| | | |]; try done. destruct (i <? _); [|done]. by destruct (load_words _ _ _).
Qed.

Lemma pending_push_at h sp W v l i n : pending h sp W -> load_words h (v + 8 * i) (Z.to_nat (n - i)) = Ret l -> i < n ->
  exists f k, l = f :: k /\ Field h v i = Ret f /\
    if i <? n - 1 then pending h (mkItem (v + 8 * (i + 1)) (n - i - 1) :: sp) (k ++ W) else k = [].
Proof.
  intros [E Hc] El Hn. destruct (Z.to_nat (n - i)) as [|j] eqn:Ek; [lia|]. cbn in El.
  apply bind_Ret_inv in El as (w & Ew & El). apply bind_Ret_inv in El as (l' & El & Eq). injection Eq as <-.
  exists w, l'. split; [done|]. split; [done|]. destruct (Z.ltb_spec i (n - 1)).
  - split; [|constructor; [cbn; lia|done]]. cbn [pending_fields item_v item_count].
    replace (v + 8 * (i + 1)) with (v + 8 * i + 8) by lia. replace (Z.to_nat (n - i - 1)) with j by lia.
    rewrite El. mred. by rewrite E.
  - assert (j = 0%nat) as -> by lia. by injection El as <-.
Qed.

Lemma reachable_new h s sp size v l m W : tracking s m -> reachable_classify h v = Node l -> m !! v = None ->
  Z.of_nat (base.size m) < 2 ^ 54 -> pending h sp W -> zlength sp + 1 < 2 ^ 26 ->
  exists s' sp' next, reachable_one h s sp size v = Ret (s', sp', s64 (size + (1 + wosize_of h v)), next) /\
    tracking s' (<[v := Z.of_nat (base.size m)]> m) /\ pends h sp' next (l ++ W) /\ zlength sp' <= zlength sp + 1.
Proof.
  intros Hr Hc Hm Hs Hp Hd. destruct (record_tracking s m v Hr Hm Hs) as (ht & t & El & Ht & Hrec).
  unfold reachable_one, reachable_classify in *. destruct (Is_long v); [done|]. rewrite El. mred.
  destruct (Hd_val h v) as [hd| | | |] eqn:Eh; try done. mred. cbv zeta in *.
  destruct (head_values h v hd Eh) as (_ & -> & _ & Hz).
  destruct (_ =? Infix_tag); [done|]. rewrite Hrec by done. mred.
  set (s1 := set_obj_counter _ _).
  assert (tracking s1 (<[v := Z.of_nat (base.size m)]> m)) as Hr1.
  { destruct Hr as [Hf _ _ Hst]. split; cbn; try done. by rewrite map_size_insert_None. }
  destruct (_ <? No_scan_tag).
  2:{ injection Hc as <-. eexists _, _, _. split; [reflexivity|]. split_and!; [done|done|lia]. }
  destruct (if _ =? _ then _ else _) as [i| | | |]; try done. mred.
  destruct (Z.ltb_spec i (Wosize_hd hd)).
  2:{ injection Hc as <-. eexists _, _, _. split; [reflexivity|]. split_and!; [done|done|lia]. }
  destruct (load_words _ _ _) as [k| | | |] eqn:Ek; try done. injection Hc as ->.
  destruct (pending_push_at h sp W v l i (Wosize_hd hd) Hp Ek ltac:(lia)) as (f & k & -> & Ef & Hk).
  destruct (i <? Wosize_hd hd - 1).
  - destruct (push_tracking s1 _ sp (v + 8 * (i + 1)) (Wosize_hd hd - i - 1) Hr1 Hd) as (c & -> & Hr2). mred. rewrite Ef. mred.
    eexists _, _, _. split; [reflexivity|]. split; [done|]. split; [by exists (k ++ W)|cbn [length]; lia].
  - mred. rewrite Ef. mred. subst k. eexists _, _, _. split; [reflexivity|]. split; [done|]. split; [by exists W|lia].
Qed.

Lemma reachable_loop_trace h m W es m' : trace (reachable_classify h) m W es m' -> nodes h m -> Z.of_nat (size m') < 2 ^ 54 ->
  forall s sp n next, tracking s m -> pends h sp next W -> zlength sp + zlength (news es) < 2 ^ 26 - 1 ->
  exists r n0, (forall k, (n0 <= k)%nat -> reachable_from k h s sp n next = Ret r) /\ eqm 64 r (n + total_words h (news es)).
Proof.
  induction 1 as [m|m v W es m' Hc Ht IH|m v v' W es m' Hc Ht IH|m v l p W es m' Hc Hm Ht IH|m v l W es m' Hc Hm Ht IH];
    intros Hn Hsz s sp n next Hr Hp Hd.
  - destruct next as [x|]; [by destruct Hp as (? & ? & _)|]. apply pop_nil in Hp as [E ->].
    exists n, 0%nat. split; [intros k _; unfold reachable_from; by rewrite E|]. cbn. by rewrite Z.add_0_r.
  - destruct (reachable_cons _ _ _ _ _ Hp) as (sp1 & Hp1 & Hl1 & E).
    change (news (AtLeaf v :: es)) with (news es) in *.
    destruct (IH Hn Hsz s sp1 n None Hr Hp1 ltac:(lia)) as (r & n0 & El & Ha). exists r, (S n0). split; [|done].
    intros [|k] Hk; [lia|]. rewrite E, reachable_loop_S. unfold reachable_one.
    replace (Is_long v) with true; [apply El; lia|]. unfold reachable_classify in Hc. destruct (Is_long v); [done|].
    destruct (Hd_val _ _); try done. cbv zeta in Hc. destruct (_ =? _); [done|]. destruct (_ <? _); [|done].
    destruct (if _ =? _ then _ else _) as [i| | | |]; try done. destruct (i <? _); [|done]. by destruct (load_words _ _ _).
  - destruct (reachable_cons _ _ _ _ _ Hp) as (sp1 & Hp1 & Hl1 & E).
    destruct (IH Hn Hsz s sp1 n (Some v') Hr ltac:(by exists W) ltac:(lia)) as (r & n0 & El & Ha).
    exists r, (S n0). split; [|done]. intros [|k] Hk; [lia|].
    rewrite E, reachable_loop_S, (reachable_redirect _ _ _ _ _ _ m Hr Hn Hc). mred. apply El. lia.
  - destruct (reachable_cons _ _ _ _ _ Hp) as (sp1 & Hp1 & Hl1 & E).
    change (news (Seen v (Z.of_nat (size m) - p) :: es)) with (news es) in *.
    destruct (IH Hn Hsz s sp1 n None Hr Hp1 ltac:(lia)) as (r & n0 & El & Ha). exists r, (S n0). split; [|done].
    intros [|k] Hk; [lia|]. rewrite E, reachable_loop_S. unfold reachable_one.
    replace (Is_long v) with false by (unfold reachable_classify in Hc; by destruct (Is_long v)).
    rewrite (usable_lookup _ m v p (r_table _ _ Hr) Hm). mred. apply El. lia.
  - destruct (reachable_cons _ _ _ _ _ Hp) as (sp1 & Hp1 & Hl1 & E). rewrite news_new in *. cbn [length] in Hd.
    assert (size m <= size m')%nat.
    { etrans; [|apply map_subseteq_size; by eapply trace_mono]. rewrite map_size_insert_None by done. lia. }
    destruct (reachable_new h s sp1 n v l m W) as (s1 & sp2 & nx & E1 & Hr1 & Hp2 & Hl2); try done; try lia.
    destruct (IH) with (s := s1) (sp := sp2) (n := s64 (n + (1 + wosize_of h v))) (next := nx) as (r & n0 & El & Ha); try done; try lia.
    { intros w q. rewrite lookup_insert_Some. intros [[<- _]|[_ Hw]]; [by exists l|by eapply Hn]. }
    exists r, (S n0). split.
    + intros [|k] Hk; [lia|]. rewrite E, reachable_loop_S, E1. mred. apply El. lia.
    + rewrite Ha, eqm_of_swrap by lia. cbn [total_words foldr]. fold (total_words h (news es)). by rewrite <- Z.add_assoc.
Qed.

(** A complete run of the marshaling loop. *)
Lemma extern_rec_trace h s v es m' : trace (classify h) ∅ [v] es m' ->
  (forall b, b ∈ news es -> plain_block h b) -> zlength (news es) < 2 ^ 26 - 1 ->
  extern_user s = false -> extern_flags s = 0 \/ extern_flags s = CLOSURES -> obj_counter s = 0 -> 0 <= size_64 s < 2 ^ 64 ->
  extern_stack_size s = EXTERN_STACK_INIT_SIZE ->
  exists s' n0, (forall n, (n0 <= n)%nat -> extern_rec n h s v = Ret s') /\
    advanced s (encoding h es) (total_words h (news es)) m' s'.
Proof.
  intros Ht Hpl Hd Hu Hf Hc Hz Hst. pose proof (trace_size _ _ _ _ _ Ht) as Hsz. rewrite map_size_empty in Hsz.
  assert (has_flag s NO_SHARING = false) as Hns by (unfold has_flag; by destruct Hf as [-> | ->]).
  assert (ready (extern_init_position_table s) ∅) as Hr.
  { unfold extern_init_position_table. rewrite Hns. split; try done. split; cbn; try done.
    - apply init_usable.
    - exists 8. split; [lia|]. by rewrite Hst. }
  destruct (extern_loop_trace h ∅ [v] es m' Ht numbered_empty Hpl ltac:(lia) (extern_init_position_table s) [] (Some v) Hr)
    as (s' & n0 & E & Ha); [by exists []|cbn [length]; lia|].
  exists s', n0. split; [exact E|]. unfold extern_init_position_table in Ha. by rewrite Hns in Ha.
Qed.
End Output.

(** ** Properties *)

(** C27: With sharing (no flags, or only [Closures]), marshaling terminates on every finite
    graph of plain data of fewer than 2^26 - 1 blocks and without a float array of 2^32
    elements or more, cyclic or not, if the C allocator does not fail and the output goes to
    buffers of the runtime.  From the start of a
    traversal [extern_rec] returns for every sufficient number of rounds; it
    goes once through each block reachable from the value, appends to its
    output the encoding of that traversal, and counts the objects and the
    words they take. *)
Theorem marshal_terminates {EE : ExternEnv} (h : heap) (s : extern_state) (v : Z) (B : gset Z) :
  (forall n, stat_alloc n = true) -> closed (classify h) B -> good (classify h) B v ->
  (forall b, b ∈ B -> plain_block h b) -> Z.of_nat (size B) < 2 ^ 26 - 1 ->
  extern_user s = false -> extern_flags s = 0 \/ extern_flags s = CLOSURES -> obj_counter s = 0 -> size_64 s = 0 ->
  extern_stack_size s = EXTERN_STACK_INIT_SIZE ->
  exists es m' s' n0, trace (classify h) ∅ [v] es m' /\ NoDup (news es) /\
    (forall b, b ∈ news es <-> reach (classify h) v b) /\
    (forall n, (n0 <= n)%nat -> extern_rec n h s v = Ret s') /\
    output_bytes s' = output_bytes s ++ encoding h es /\
    obj_counter s' = zlength (news es) /\ size_64 s' = u64 (total_words h (news es)).
Proof.
  intros Hmem HB Hv Hpl Hsz Hu Hf Hc Hz Hst.
  destruct (trace_total (classify h) B HB (size (B ∖ dom (∅ : gmap Z Z))) ∅ [v]) as (es & m' & Ht); [done|by constructor|].
  assert (Forall (good _ B) [v]) as HW by (by constructor). pose proof (trace_bounded _ _ _ _ _ _ HB HW Ht) as Hb.
  destruct (extern_rec_trace Hmem h s v es m' Ht) as (s' & n0 & E & Ho & Hn & Hr); try done; try lia.
  { intros b Hin. apply Hpl. exact (trace_closed _ _ _ _ _ _ HB HW Ht b Hin). }
  exists es, m', s', n0. destruct (trace_news _ _ _ _ _ Ht) as (Hnd & _). pose proof (trace_size _ _ _ _ _ Ht) as Hm. rewrite map_size_empty in Hm.
  split_and!; try done.
  - intros b. rewrite (trace_reach _ _ _ _ Ht). setoid_rewrite list_elem_of_singleton.
    split; [by intros (x & -> & Hr')|intros Hr'; by exists v].
  - rewrite (r_counter _ _ (r_track _ _ Hr)). lia.
  - unfold eqm in Hn. rewrite Hz, Z.add_0_l in Hn. rewrite <- Hn. symmetry. apply wrap_small, (r_size _ _ Hr).
Qed.

(** [caml_obj_reachable_words] counts the words of the reachable
    blocks, headers included, each block once however often it is shared,
    in any finite graph, cyclic or not, with closures and infix pointers. *)
Theorem reachable_words_count {EE : ExternEnv} (h : heap) (s : extern_state) (v : Z) (B : gset Z) :
  (forall n, stat_alloc n = true) -> closed (reachable_classify h) B -> good (reachable_classify h) B v ->
  Z.of_nat (size B) < 2 ^ 26 - 1 -> extern_stack_size s = EXTERN_STACK_INIT_SIZE ->
  exists bs n0, NoDup bs /\ (forall b, b ∈ bs <-> reach (reachable_classify h) v b) /\
    forall n, (n0 <= n)%nat -> caml_obj_reachable_words n h s v = Ret (Val_long (total_words h bs)).
Proof.
  intros Hmem HB Hv Hsz Hst.
  destruct (trace_total (reachable_classify h) B HB (size (B ∖ dom (∅ : gmap Z Z))) ∅ [v]) as (es & m' & Ht); [done|by constructor|].
  assert (Forall (good _ B) [v]) as HW by (by constructor). pose proof (trace_bounded _ _ _ _ _ _ HB HW Ht) as Hb.
  pose proof (trace_size _ _ _ _ _ Ht) as Hm. rewrite map_size_empty in Hm.
  set (s0 := extern_init_position_table (set_flags 0 (set_obj_counter 0 s))).
  assert (tracking s0 ∅) as Hr.
  { change s0 with (set_pos_table init_position_table (set_flags 0 (set_obj_counter 0 s))).
    split; [by left|apply init_usable|done|]. exists 8. split; [lia|exact Hst]. }
  assert (nodes h ∅) as Hn0 by (intros w p Hw; by rewrite lookup_empty in Hw).
  destruct (reachable_loop_trace Hmem h ∅ [v] es m' Ht Hn0 ltac:(lia) s0 [] 0 (Some v) Hr) as (r & n0 & E & Hr');
    [by exists []|cbn [length]; lia|].
  exists (news es), n0. destruct (trace_news _ _ _ _ _ Ht) as (Hnd & _). split; [done|]. split.
  - intros b. rewrite (trace_reach _ _ _ _ Ht). setoid_rewrite list_elem_of_singleton.
    split; [by intros (x & -> & ?)|intros ?; by exists v].
  - intros n Hn. unfold caml_obj_reachable_words. fold s0. specialize (E n Hn). cbn [reachable_from] in E. rewrite E. mred. f_equal.
    rewrite !Val_long_eq. do 2 f_equal. rewrite Z.add_0_l in Hr'. apply swrap_ext. by apply (eqm_narrow 63 64).
Qed.

(** ** Examples *)

(** Two blocks that point to each other, and a string. *)
Definition ex_a : Z := 1008.
Definition ex_b : Z := 1032.
Definition ex_str : Z := 1056.
Definition ex_graph : heap :=
  mkHeap (list_to_map [(1000, Make_header 2 0 0); (1008, ex_b); (1016, Val_long 5);
                       (1024, Make_header 2 7 0); (1032, ex_a); (1040, ex_str);
                       (1048, Make_header 1 String_tag 0); (1056, le_word [104; 105; 0; 0; 0; 0; 0; 5])])
    100000 50000 50000 100000 0 [] [].
Definition ex_blocks : gset Z := {[ex_a; ex_b; ex_str]}.
Definition ex_extern_env : ExternEnv := {|
  stat_alloc := fun _ => true;
  ops_identifier := fun _ => [];
  ops_fixed_length := fun _ => None;
  ops_serialize := fun _ => None;
  caml_find_code_fragment_by_pc := fun _ => None;
  caml_extern_compress_output := None;
|}.

Lemma ex_blocks_elem b : b ∈ ex_blocks -> b = ex_a \/ b = ex_b \/ b = ex_str.
Proof. unfold ex_blocks. set_solver. Qed.

(** A set of blocks is closed when each of its elements is a node whose
    fields are leaves or elements. *)
Lemma ex_closed (f : Z -> node) : f ex_a = Node [ex_b; Val_long 5] -> f ex_b = Node [ex_a; ex_str] -> f ex_str = Node [] ->
  f (Val_long 5) = Leaf -> closed f ex_blocks.
Proof.
  intros Ea Eb Es El v Hv. assert (forall x, x = ex_a \/ x = ex_b \/ x = ex_str -> good f ex_blocks x) as Hg.
  { intros x Hx. left. right. unfold ex_blocks. destruct Hx as [->|[->| ->]]; set_solver. }
  assert (good f ex_blocks (Val_long 5)) by (left; by left).
  destruct (ex_blocks_elem v Hv) as [->|[->| ->]]; eexists; (split; [done|]); auto 10.
Qed.
Lemma ex_good f : good f ex_blocks ex_a.
Proof. left. right. unfold ex_blocks. set_solver. Qed.

Lemma ex_string : string_at ex_graph ex_str [104; 105].
Proof. apply string_atb_sound. vm_compute. reflexivity. Qed.
Lemma ex_plain b : b ∈ ex_blocks -> plain_block ex_graph b.
Proof.
  intros Hb. destruct (ex_blocks_elem b Hb) as [->|[->| ->]]; split.
  all: try (apply (bool_decide_unpack _); vm_compute; exact I).
  all: intros E; try (vm_compute in E; discriminate E); try (by vm_compute in E).
  - eexists. exact ex_string.
  - eexists. vm_compute. reflexivity.
Qed.

Lemma marshal_terminates_witness : exists es m' s' n0, trace (classify ex_graph) ∅ [ex_a] es m' /\
  forall n, (n0 <= n)%nat -> extern_rec (EE := ex_extern_env) n ex_graph init_extern_state ex_a = Ret s'.
Proof.
  destruct (marshal_terminates (EE := ex_extern_env) ex_graph init_extern_state ex_a ex_blocks) as (es & m' & s' & n0 & Ht & _ & _ & E & _);
    try reflexivity; try (by left).
  - apply ex_closed; vm_compute; reflexivity.
  - apply ex_good.
  - apply ex_plain.
  - exists es, m', s', n0. split; [exact Ht|exact E].
Defined.

Lemma reachable_words_count_witness : exists bs n0, NoDup bs /\
  forall n, (n0 <= n)%nat -> caml_obj_reachable_words (EE := ex_extern_env) n ex_graph init_extern_state ex_a = Ret (Val_long (total_words ex_graph bs)).
Proof.
  destruct (reachable_words_count (EE := ex_extern_env) ex_graph init_extern_state ex_a ex_blocks) as (bs & n0 & Hn & _ & E); try reflexivity.
  - apply ex_closed; vm_compute; reflexivity.
  - apply ex_good.
  - exists bs, n0. split; [exact Hn|exact E].
Defined.
Example reachable_words_example :
  caml_obj_reachable_words (EE := ex_extern_env) 10 ex_graph init_extern_state ex_a = Ret (Val_long 8).
Proof. vm_compute. reflexivity. Qed.
End ExternProps.
