(* ===== verification/InternProps.v ===== *)
(** * Reading back marshaled data

    The readers invert the writers, one datum at a time; the loop of
    [intern_rec] rebuilds the graph of values that the traversal of the
    marshaler wrote. *)

From S2P Require Import Prelude Memory Ints Strings Arrays PosTable Extern Traverse ExternProps Intern.
Import PosTable Extern Traverse ExternProps Intern.

Module InternProps.

(** ** Numbers *)

Lemma be_word_wrap n x : be_word (be_bytes n x) = wrap (8 * Z.of_nat n) x.
Proof. unfold be_word. by rewrite be_word_bytes, Z.mul_0_l. Qed.

Lemma read16_store n l : read16 (store16 n ++ l) = Ret (wrap 16 n, l).
Proof.
  rewrite store16_bytes. change (wrap 16 n) with (wrap (8 * Z.of_nat 2) n). rewrite <- be_word_wrap.
  cbn [app read16]. by rewrite Z.shiftl_mul_pow2 by lia.
Qed.

Lemma read32_store n l : exists m, read32 (store32 n ++ l) = Ret (m, l) /\ m = u32 n.
Proof.
  rewrite store32_bytes. eexists. split; [reflexivity|]. change (u32 n) with (wrap (8 * Z.of_nat 4) n). rewrite <- be_word_wrap.
  pose proof (get_byte_range n 3). rewrite wrap_small by (rewrite Z.shiftl_mul_pow2 by lia; lia).
  rewrite !Z.shiftl_mul_pow2 by lia. unfold be_word. cbn [be_bytes fold_left]. unfold get_byte.
  change (8 * Z.of_nat 3) with (8 * 3). change (8 * Z.of_nat 2) with (8 * 2). change (8 * Z.of_nat 1) with (8 * 1).
  change (8 * Z.of_nat 0) with (8 * 0). lia.
Qed.

Lemma read16u_store n l : read16u (store16 n ++ l) = Ret (wrap 16 n, l).
Proof. unfold read16u. rewrite read16_store. mred. by rewrite wrap_wrap. Qed.
Lemma read16s_store n l : read16s (store16 n ++ l) = Ret (swrap 16 n, l).
Proof. unfold read16s. rewrite read16_store. mred. by rewrite swrap_wrap. Qed.
Lemma read32u_store n l : read32u (store32 n ++ l) = Ret (u32 n, l).
Proof. unfold read32u. destruct (read32_store n l) as (m & -> & ->). mred. by rewrite wrap_wrap. Qed.
Lemma read32s_store n l : read32s (store32 n ++ l) = Ret (s32 n, l).
Proof. unfold read32s. destruct (read32_store n l) as (m & -> & ->). mred. by rewrite swrap_wrap. Qed.

Lemma read64u_store n l : read64u (store64 n ++ l) = Ret (u64 n, l).
Proof.
  rewrite store64_bytes. cbn [app read64u]. f_equal. f_equal. rewrite !Z.shiftl_mul_pow2 by lia.
  pose proof (get_byte_range n 7). pose proof (get_byte_range n 6). pose proof (get_byte_range n 5).
  pose proof (get_byte_range n 4). pose proof (get_byte_range n 3). pose proof (get_byte_range n 2).
  pose proof (get_byte_range n 1).
  rewrite (wrap_small 64 (get_byte n 7 * 2 ^ 56)), (wrap_small 64 (get_byte n 6 * 2 ^ 48)),
    (wrap_small 64 (get_byte n 5 * 2 ^ 40)), (wrap_small 64 (get_byte n 4 * 2 ^ 32)), (wrap_small 64 (get_byte n 3 * 2 ^ 24)),
    (wrap_small 64 (get_byte n 2 * 2 ^ 16)), (wrap_small 64 (get_byte n 1 * 2 ^ 8)) by lia.
  rewrite <- (wrap_wrap 64 n). f_equal.
  change (u64 n) with (wrap (8 * Z.of_nat 8) n). rewrite <- be_word_wrap. unfold be_word. cbn [be_bytes fold_left].
  unfold get_byte. change (8 * Z.of_nat 7) with (8 * 7). change (8 * Z.of_nat 6) with (8 * 6).
  change (8 * Z.of_nat 5) with (8 * 5). change (8 * Z.of_nat 4) with (8 * 4). change (8 * Z.of_nat 3) with (8 * 3).
  change (8 * Z.of_nat 2) with (8 * 2). change (8 * Z.of_nat 1) with (8 * 1). change (8 * Z.of_nat 0) with (8 * 0). lia.
Qed.

(** *** Variable-length quantities *)

Definition vlq_value (acc : Z) (ds : list Z) : Z := fold_left (fun n d => n * 128 + Z.land d 0x7F) ds acc.

Lemma land_127 c : Z.land c 0x7F = c mod 128.
Proof. change 0x7F with (Z.ones 7). by rewrite Z.land_ones by lia. Qed.
Lemma shiftr_7 n : Z.shiftr n 7 = n / 128.
Proof. by rewrite Z.shiftr_div_pow2 by lia. Qed.
Lemma lor_128 d : 0 <= d < 128 -> Z.lor 0x80 d = 128 + d.
Proof.
  intros Hd. assert (Z.land 0x80 d = 0) as E.
  { apply Z.bits_inj'. intros i Hi. rewrite Z.land_spec, Z.testbit_0_l. change 0x80 with (2 ^ 7).
    rewrite Z.pow2_bits_eqb by lia. destruct (Z.eqb_spec 7 i) as [<-|]; [|done]. rewrite andb_true_l.
    rewrite <- (Z.mod_small d (2 ^ 7)) by lia. by apply Z.mod_pow2_bits_high. }
  pose proof (Z.add_lor_land 0x80 d). lia.
Qed.

Lemma vlq_value_ge ds : forall n, 0 <= n -> n <= vlq_value n ds.
Proof.
  induction ds as [|d ds IH]; intros n Hn; [done|]. cbn [vlq_value fold_left]. fold (vlq_value (n * 128 + Z.land d 0x7F) ds).
  rewrite land_127. pose proof (Z.mod_pos_bound d 128 ltac:(lia)). specialize (IH (n * 128 + d mod 128) ltac:(lia)). lia.
Qed.
Lemma vlq_value_app n ds ds' : vlq_value n (ds ++ ds') = vlq_value (vlq_value n ds) ds'.
Proof. apply fold_left_app. Qed.

Lemma vlq_prefix_digits fuel : forall n dst, 0 <= n < 128 ^ Z.of_nat fuel ->
  exists ds, vlq_prefix fuel n dst = ds ++ dst /\ Forall (fun c => 128 <= c < 256) ds /\ vlq_value 0 ds = n.
Proof.
  induction fuel as [|k IH]; intros n dst Hn.
  { exists []. split_and!; try done. cbn in *. lia. }
  cbn [vlq_prefix]. destruct (Z.eqb_spec n 0) as [->|Hne]; [by exists []|].
  pose proof (Z.div_mod n 128 ltac:(lia)). pose proof (Z.mod_pos_bound n 128 ltac:(lia)). rewrite shiftr_7, land_127, lor_128 by done.
  destruct (IH (n / 128) (128 + n mod 128 :: dst)) as (ds & -> & Hds & Ev).
  { split; [apply Z.div_pos; lia|]. apply Z.div_lt_upper_bound; [lia|]. rewrite Nat2Z.inj_succ, Z.pow_succ_r in Hn by lia. lia. }
  exists (ds ++ [128 + n mod 128]). split_and!.
  - by rewrite <- app_assoc.
  - apply Forall_app. split; [done|]. constructor; [lia|done].
  - rewrite vlq_value_app, Ev. cbn. rewrite land_127. replace (128 + n mod 128) with (n mod 128 + 1 * 128) by lia.
    rewrite Z_mod_plus_full, Zmod_mod. lia.
Qed.

Lemma land_128 c : 0 <= c < 256 -> (Z.land c 0x80 =? 0) = (c <? 128).
Proof.
  intros Hc. change (Z.land c 0x80) with (Z.land c (Z.shiftl 1 7)). rewrite land_bit by lia.
  destruct (Z.ltb_spec c 128).
  - apply negb_true_iff. rewrite <- (Z.mod_small c (2 ^ 7)) by lia. by apply Z.mod_pow2_bits_high.
  - apply negb_false_iff. apply Z.testbit_true; [lia|]. change (2 ^ 7) with 128.
    replace (c / 128) with 1; [done|]. apply (Z.div_unique _ _ _ (c - 128)); lia.
Qed.

Lemma vlq_rest_spec last l : 0 <= last < 128 -> forall ds c n, 128 <= c < 256 -> 0 <= n ->
  Forall (fun c => 128 <= c < 256) ds -> vlq_value n (ds ++ [last]) < 2 ^ 64 ->
  vlq_rest (ds ++ last :: l) c n false = Ret (false, vlq_value n (ds ++ [last]), l).
Proof.
  intros Hlast. assert (Hstep : forall n x, 0 <= n -> n * 128 + Z.land x 0x7F < 2 ^ 64 ->
    Z.lor (u64 (Z.shiftl n 7)) (Z.land x 0x7F) = n * 128 + Z.land x 0x7F /\ negb (n =? Z.shiftr (u64 (Z.shiftl n 7)) 7) = false).
  { intros n x Hn Hx. rewrite land_127 in *. pose proof (Z.mod_pos_bound x 128 ltac:(lia)).
    rewrite Z.shiftl_mul_pow2 by lia. change (2 ^ 7) with 128. rewrite wrap_small by lia. split.
    - pose proof (Z.add_lor_land (n * 128) (x mod 128)) as E.
      assert (Z.land (n * 128) (x mod 128) = 0); [|lia]. change 128 with (2 ^ 7) at 1. rewrite <- Z.shiftl_mul_pow2 by lia.
      apply Z.bits_inj'. intros i Hi. rewrite Z.land_spec, Z.testbit_0_l, Z.shiftl_spec by lia.
      destruct (Z.ltb_spec i 7); [by rewrite Z.testbit_neg_r by lia|]. change 128 with (2 ^ 7).
      by rewrite Z.mod_pow2_bits_high, andb_false_r by lia.
    - rewrite shiftr_7, Z.div_mul by lia. by rewrite Z.eqb_refl. }
  induction ds as [|d ds IH]; intros c n Hc Hn Hds Hv; cbn [app vlq_rest]; rewrite land_128, (proj2 (Z.ltb_ge c 128)) by lia.
  - cbn [vlq_value fold_left app] in *. destruct (Hstep n last Hn Hv) as [-> ->]. cbn [orb].
    destruct l; cbn [vlq_rest]; rewrite land_128, (proj2 (Z.ltb_lt last 128)) by lia; done.
  - inversion Hds as [|? ? Hd Hds']; subst. cbn [vlq_value fold_left app] in *.
    fold (vlq_value (n * 128 + Z.land d 0x7F) (ds ++ [last])) in *.
    assert (0 <= n * 128 + Z.land d 0x7F) by (rewrite land_127; pose proof (Z.mod_pos_bound d 128 ltac:(lia)); lia).
    pose proof (vlq_value_ge (ds ++ [last]) (n * 128 + Z.land d 0x7F) ltac:(lia)).
    destruct (Hstep n d Hn ltac:(lia)) as [-> ->]. cbn [orb]. by apply IH.
Qed.

(** A number written by [storevlq] is read back, whatever follows it. *)
Lemma readvlq_store n l : 0 <= n < 2 ^ 64 -> readvlq (storevlq n ++ l) = Ret (false, n, l).
Proof.
  intros Hn. unfold storevlq. rewrite shiftr_7, land_127. pose proof (Z.mod_pos_bound n 128 ltac:(lia)).
  pose proof (Z.div_mod n 128 ltac:(lia)).
  destruct (vlq_prefix_digits 10 (n / 128) [n mod 128]) as (ds & -> & Hds & Ev).
  { split; [apply Z.div_pos; lia|]. apply Z.div_lt_upper_bound; lia. }
  rewrite <- app_assoc. cbn [app].
  assert (vlq_value 0 (ds ++ [n mod 128]) = n) as E.
  { rewrite vlq_value_app, Ev. cbn. rewrite land_127, Zmod_mod. lia. }
  unfold readvlq. destruct ds as [|c ds]; cbn [app read8u]; mred.
  - cbn in E. rewrite land_127 in *. rewrite Zmod_mod in *.
    destruct l; cbn [vlq_rest]; rewrite land_128, (proj2 (Z.ltb_lt _ 128)) by lia; do 3 f_equal; lia.
  - inversion Hds; subst. cbn [vlq_value fold_left app] in E. rewrite Z.mul_0_l, Z.add_0_l in E.
    rewrite vlq_rest_spec; try done.
    + unfold vlq_value. by rewrite E.
    + rewrite land_127. apply Z.mod_pos_bound. lia.
    + unfold vlq_value. rewrite E. lia.
Qed.

(** ** One value *)

(** Evaluate the tests on constants of the dispatch on a code. *)
Ltac dispatch :=
  unfold read_code; cbv zeta;
  repeat match goal with
  | |- context [?a <=? ?b] => let r := eval vm_compute in (a <=? b) in
      match r with true => change (a <=? b) with true | false => change (a <=? b) with false end
  | |- context [?a =? ?b] => let r := eval vm_compute in (a =? b) in
      match r with true => change (a =? b) with true | false => change (a =? b) with false end
  end; cbn [orb].

Lemma input_Ret {A} (rd : reader A) s a l : rd (intern_src s) = Ret (a, l) -> input rd s = Ret (a, set_src l s).
Proof. intros E. unfold input. by rewrite E. Qed.

Lemma set_src_src l l' s : set_src l (set_src l' s) = set_src l s.
Proof. done. Qed.

Section Values.
Context `{SH : SharedHeap} {IE : InternEnv} (fun_name : string).

Lemma read_value_code h s sp dst code l : intern_src s = code :: l ->
  read_value fun_name h s sp dst = read_code fun_name h (set_src l s) sp dst code.
Proof. intros E. unfold read_value, input. by rewrite E. Qed.

Lemma read_int h s sp dst n rest : is_int n -> intern_src s = enc_int n ++ rest ->
  read_value fun_name h s sp dst = Ret (h, set_src rest s, sp, Some (Val_long n)).
Proof.
  intros Hn. unfold enc_int. destruct ((0 <=? n) && (n <? 0x40)) eqn:E1.
  { intros Es. rewrite (read_value_code _ _ _ _ _ _ Es). unfold read_code, PREFIX_SMALL_INT, PREFIX_SMALL_BLOCK.
    rewrite (proj2 (Z.leb_le 64 _)), (proj2 (Z.leb_gt 128 _)) by lia. do 3 f_equal. unfold Val_int. f_equal.
    change 0x3F with (Z.ones 6). rewrite Z.land_ones by lia. symmetry. apply (Z.mod_unique _ _ 1); lia. }
  destruct ((- 2 ^ 7 <=? n) && (n <? 2 ^ 7)) eqn:E2.
  { intros Es. rewrite (read_value_code _ _ _ _ _ _ Es). dispatch.
    rewrite (input_Ret _ _ (s8 (u8 n)) rest) by done. mred. rewrite swrap_wrap, swrap_small, set_src_src by lia. done. }
  destruct ((- 2 ^ 15 <=? n) && (n <? 2 ^ 15)) eqn:E3.
  { intros Es. rewrite (read_value_code _ _ _ _ _ _ Es). dispatch.
    rewrite (input_Ret _ _ (swrap 16 n) rest) by apply read16s_store. mred. rewrite swrap_small, set_src_src by lia. done. }
  destruct ((n <? - 2 ^ 30) || (2 ^ 30 <=? n)) eqn:E4; intros Es; rewrite (read_value_code _ _ _ _ _ _ Es); dispatch.
  - rewrite (input_Ret _ _ (u64 n) rest) by apply read64u_store. mred. unfold is_int, Min_long, Max_long in Hn.
    rewrite swrap_wrap, swrap_small, set_src_src by lia. done.
  - rewrite (input_Ret _ _ (s32 n) rest) by apply read32s_store. mred. rewrite swrap_small, set_src_src by lia. done.
Qed.

Lemma read_header h s sp dst sz tag rest : 0 <= sz < 2 ^ 54 -> 0 <= tag < 256 -> intern_src s = enc_header sz tag ++ rest ->
  read_value fun_name h s sp dst = read_block h (set_src rest s) sp sz tag.
Proof.
  intros Hs Ht. unfold enc_header. destruct ((tag <? 16) && (sz <? 8)) eqn:E1.
  { intros Es. rewrite (read_value_code _ _ _ _ _ _ Es). unfold read_code, PREFIX_SMALL_INT, PREFIX_SMALL_BLOCK.
    rewrite (proj2 (Z.leb_le 64 _)), (proj2 (Z.leb_le 128 _)) by lia. f_equal.
    - rewrite Z.shiftr_div_pow2 by lia. change 0x7 with (Z.ones 3). rewrite Z.land_ones by lia.
      replace ((128 + tag + 16 * sz) / 2 ^ 4) with (8 + sz) by (apply (Z.div_unique _ _ _ tag); lia).
      symmetry. apply (Z.mod_unique _ _ 1); lia.
    - change 0xF with (Z.ones 4). rewrite Z.land_ones by lia. symmetry. apply (Z.mod_unique _ _ (8 + sz)); lia. }
  clear E1. assert (is_color NOT_MARKABLE) as Hc by (by right; right; right).
  assert (0 <= Make_header sz tag NOT_MARKABLE < 2 ^ 64) by (apply wrap_range; lia).
  pose proof (Tag_Make_header sz tag NOT_MARKABLE Hs Ht Hc) as Et. pose proof (Wosize_Make_header sz tag NOT_MARKABLE Hs Ht Hc) as Ez.
  cbv zeta. destruct (Z.ltb_spec (Make_header sz tag NOT_MARKABLE) (2 ^ 32));
    intros Es; rewrite (read_value_code _ _ _ _ _ _ Es); dispatch.
  - rewrite (input_Ret _ _ _ rest) by apply read32u_store. mred.
    rewrite (wrap_small 32 (Make_header _ _ _)) by lia. by rewrite Et, Ez.
  - rewrite (input_Ret _ _ _ rest) by apply read64u_store. mred.
    rewrite (wrap_small 64 (Make_header _ _ _)) by lia. by rewrite Et, Ez.
Qed.

Lemma read_atom h s sp dst tag rest : 0 <= tag < 256 -> intern_src s = enc_header 0 tag ++ rest ->
  read_value fun_name h s sp dst = Ret (h, set_src rest s, sp, Some (Atom h tag)).
Proof. intros Ht Es. by rewrite (read_header _ _ _ _ 0 tag rest) by (done || lia). Qed.

Lemma read_seen h s sp dst d t v rest : 0 <= d <= intern_counter s -> intern_counter s < 2 ^ 63 -> compressed s = false ->
  intern_obj_table s = Some t -> t !! (intern_counter s - d) = Some v -> intern_src s = enc_shared d ++ rest ->
  read_value fun_name h s sp dst = Ret (h, set_src rest s, sp, Some v).
Proof.
  intros Hd Hn Hc Ht Hv.
  assert (Hs : forall l, read_shared (set_src l s) d = Ret v).
  { intros l. unfold read_shared. cbn. rewrite Hc, Ht, wrap_small by lia. by rewrite Hv. }
  unfold enc_shared. destruct (Z.ltb_spec d 0x100).
  { intros Es. rewrite (read_value_code _ _ _ _ _ _ Es). dispatch.
    rewrite (input_Ret _ _ (u8 d) rest) by done. mred. rewrite set_src_src, wrap_small, Hs by lia. done. }
  destruct (Z.ltb_spec d 0x10000).
  { intros Es. rewrite (read_value_code _ _ _ _ _ _ Es). dispatch.
    rewrite (input_Ret _ _ _ rest) by apply read16u_store. mred. rewrite set_src_src, wrap_small, Hs by lia. done. }
  destruct (Z.leb_spec (2 ^ 32) d); intros Es; rewrite (read_value_code _ _ _ _ _ _ Es); dispatch.
  - rewrite (input_Ret _ _ _ rest) by apply read64u_store. mred. rewrite set_src_src, wrap_small, Hs by lia. done.
  - rewrite (input_Ret _ _ _ rest) by apply read32u_store. mred. rewrite set_src_src, wrap_small, Hs by lia. done.
Qed.

Lemma read_string_code h s sp dst bs rest : str_len bs < 2 ^ 56 -> intern_src s = enc_string bs ++ rest ->
  read_value fun_name h s sp dst = read_string h (set_src (bs ++ rest) s) sp (str_len bs).
Proof.
  intros Hl. pose proof (str_len_nonneg bs). unfold enc_string. rewrite <- app_assoc. destruct (Z.ltb_spec (str_len bs) 0x20).
  { intros Es. rewrite (read_value_code _ _ _ _ _ _ Es). unfold read_code, PREFIX_SMALL_INT, PREFIX_SMALL_STRING.
    rewrite (proj2 (Z.leb_gt 64 _)), (proj2 (Z.leb_le 32 _)) by lia. f_equal.
    change 0x1F with (Z.ones 5). rewrite Z.land_ones by lia. symmetry. apply (Z.mod_unique _ _ 1); lia. }
  destruct (Z.ltb_spec (str_len bs) 0x100).
  { intros Es. rewrite (read_value_code _ _ _ _ _ _ Es). dispatch.
    rewrite (input_Ret _ _ (u8 (str_len bs)) (bs ++ rest)) by done. mred. by rewrite set_src_src, wrap_small by lia. }
  destruct (Z.ltb_spec (str_len bs) (2 ^ 32)); intros Es; rewrite (read_value_code _ _ _ _ _ _ Es); dispatch.
  - rewrite (input_Ret _ _ _ (bs ++ rest)) by apply read32u_store. mred. by rewrite set_src_src, wrap_small by lia.
  - rewrite (input_Ret _ _ _ (bs ++ rest)) by apply read64u_store. mred. by rewrite set_src_src, wrap_small by lia.
Qed.

(** A flat block: allocate it, record it, fill it. *)
Definition read_flat_block (h : heap) (s : intern_state) (sp : list intern_item) (size tag : Z)
    (fill : heap -> intern_state -> Z -> result (heap * intern_state)) :
    result (heap * intern_state * list intern_item * option Z) :=
  '(v, h, s) ← intern_alloc_obj h s size tag;
  s ← record_obj s v;
  '(h, s) ← fill h s v;
  Ret (h, s, sp, Some v).

Lemma read_double_code h s sp dst bs rest : intern_src s = enc_double bs ++ rest ->
  read_value fun_name h s sp dst = read_flat_block h (set_src (bs ++ rest) s) sp 1 Double_tag (fill_floats (readfloat CODE_DOUBLE_LITTLE)).
Proof. intros Es. rewrite (read_value_code _ _ _ _ _ _ Es). by dispatch. Qed.

Lemma read_doubles_code h s sp dst n bs rest : 0 <= n < 2 ^ 32 -> intern_src s = enc_double_array n bs ++ rest ->
  exists code, (code = CODE_DOUBLE_ARRAY8_LITTLE \/ code = CODE_DOUBLE_ARRAY32_LITTLE) /\
  read_value fun_name h s sp dst = read_flat_block h (set_src (bs ++ rest) s) sp n Double_array_tag (fill_floats (readfloats n code)).
Proof.
  intros Hn. unfold enc_double_array. rewrite <- app_assoc. destruct (Z.ltb_spec n 0x100).
  { intros Es. exists CODE_DOUBLE_ARRAY8_LITTLE. split; [by left|]. rewrite (read_value_code _ _ _ _ _ _ Es). dispatch.
    rewrite (input_Ret _ _ (u8 n) (bs ++ rest)) by done. mred. rewrite set_src_src, wrap_small by lia.
    unfold read_double_array, Double_wosize. by rewrite Z.mul_1_r. }
  rewrite (proj2 (Z.ltb_lt n (2 ^ 32))) by lia. intros Es. exists CODE_DOUBLE_ARRAY32_LITTLE. split; [by right|].
  rewrite (read_value_code _ _ _ _ _ _ Es). dispatch.
  rewrite (input_Ret _ _ _ (bs ++ rest)) by apply read32u_store. mred. rewrite set_src_src, wrap_small by lia.
  unfold read_double_array, Double_wosize. by rewrite Z.mul_1_r.
Qed.

Lemma readblock_app n bs rest : 0 <= n -> zlength bs = n -> readblock n (bs ++ rest) = Ret (bs, rest).
Proof.
  intros Hn Hl. unfold readblock. replace (Z.to_nat n) with (length bs) by lia.
  rewrite (proj2 (Nat.leb_le _ _)) by (rewrite length_app; lia). by rewrite take_app_length, drop_app_length.
Qed.
Lemma readfloat_app bs rest : length bs = 8%nat -> readfloat CODE_DOUBLE_LITTLE (bs ++ rest) = Ret (bs, rest).
Proof. intros Hl. unfold readfloat. by rewrite readblock_app by lia. Qed.
Lemma readfloats_app n code bs rest : 0 <= n -> zlength bs = n * 8 ->
  code = CODE_DOUBLE_ARRAY8_LITTLE \/ code = CODE_DOUBLE_ARRAY32_LITTLE -> readfloats n code (bs ++ rest) = Ret (bs, rest).
Proof. intros Hn Hl Hc. unfold readfloats. rewrite readblock_app by lia. by destruct Hc as [-> | ->]. Qed.
End Values.

(** ** Filling a block *)

(** The fields of the block at [v] are mapped machine words. *)
Definition fields_ok (h : heap) (v n : Z) : Prop := forall i, 0 <= i < n -> exists w, Field h v i = Ret w /\ is_word w.

Lemma same_tables_store h a w h' : store h a w = Ret h' -> same_tables h h'.
Proof. unfold store. destruct (words h !! a); [|done]. by intros [= <-]. Qed.
Lemma same_tables_Store_byte h v i b h' : Store_byte h v i b = Ret h' -> same_tables h h'.
Proof. unfold Store_byte. intros E. apply bind_Ret_inv in E as (w & _ & E). by eapply same_tables_store. Qed.
Lemma same_tables_memcpy p : forall h v i h', memcpy_bytes h v i p = Ret h' -> same_tables h h'.
Proof.
  induction p as [|b p IH]; intros h v i h' E; cbn in E; [by injection E as <-|].
  apply bind_Ret_inv in E as (h1 & E1 & E2). etrans; [by eapply same_tables_Store_byte|by eapply IH].
Qed.

Lemma memcpy_block p : forall h v n i, fields_ok h v n -> 0 <= i -> i + zlength p <= 8 * n ->
  exists h', memcpy_bytes h v i p = Ret h' /\ fields_ok h' v n /\
    (forall j, 0 <= j < 8 * n -> Byte_u h' v j =
       if (i <=? j) && (j <? i + zlength p) then Ret (Z.land (p !!! Z.to_nat (j - i)) 255) else Byte_u h v j) /\
    (forall a, (forall k, 0 <= k < n -> a <> v + 8 * k) -> load h' a = load h a).
Proof.
  induction p as [|b p IH]; intros h v n i Hf Hi Hl; cbn [memcpy_bytes].
  { exists h. split_and!; try done. intros j Hj. by replace ((i <=? j) && (j <? i + zlength [])) with false by (cbn; lia). }
  cbn [length] in Hl. pose proof (div8_bounds i n ltac:(lia)) as Hk. destruct (Hf _ Hk) as (w & Hw & Hiw).
  destruct (Store_byte_Ret h v i b w Hw Hiw) as (h1 & E & Hne & w' & Hw' & Hiw'). rewrite E. mred.
  destruct (IH h1 v n (i + 1)) as (h2 & -> & Hf2 & Hb & Hfr); [|lia|lia|].
  { intros k Hk'. destruct (decide (k = i / 8)) as [->|]; [by exists w'|]. destruct (Hf k Hk') as (x & Hx & ?).
    exists x. split; [|done]. unfold Field in *. by rewrite Hne by lia. }
  exists h2. split_and!; try done.
  - intros j Hj. rewrite Hb by done. rewrite (Byte_u_Store_byte _ _ _ _ _ j E). cbn [length].
    destruct (Z.eqb_spec j i) as [->|Hji].
    + rewrite (proj2 (Z.leb_gt (i + 1) i)), (proj2 (Z.leb_le i i)) by lia.
      rewrite Z.sub_diag. cbn [andb]. by rewrite (proj2 (Z.ltb_lt i _)) by lia.
    + replace ((i <=? j) && (j <? i + Z.of_nat (S (length p)))) with ((i + 1 <=? j) && (j <? i + 1 + zlength p)) by lia.
      destruct ((i + 1 <=? j) && _) eqn:Eb; [|done].
      by replace (Z.to_nat (j - i)) with (S (Z.to_nat (j - (i + 1)))) by lia.
  - intros a Ha. rewrite Hfr by done. apply Hne, Ha. lia.
Qed.

(** A block with the bytes of another has its words. *)
Lemma same_words h v h' v' n l : load_words h v n = Ret l -> words_ok h -> fields_ok h' v' (Z.of_nat n) ->
  (forall j, 0 <= j < 8 * Z.of_nat n -> Byte_u h' v' j = Byte_u h v j) -> load_words h' v' n = Ret l.
Proof.
  intros El Hw Hf Hb. apply load_words_spec in El as [Hlen Hl]. apply load_words_spec. split; [done|].
  intros i w Hi. pose proof (Hl i w Hi) as Ew. apply lookup_lt_Some in Hi. destruct (Hf (Z.of_nat i)) as (w' & Ew' & Hiw'); [lia|].
  unfold Field in Ew'. rewrite Ew'. f_equal. apply word_ext.
  - apply Hiw'.
  - unfold load in Ew. destruct (words h !! _) eqn:E; [|done]. injection Ew as <-. by eapply Hw.
  - intros k Hk. specialize (Hb (8 * Z.of_nat i + k) ltac:(lia)). unfold Byte_u in Hb.
    replace ((8 * Z.of_nat i + k) / 8) with (Z.of_nat i) in Hb by (apply (Z.div_unique _ _ _ k); lia).
    replace ((8 * Z.of_nat i + k) mod 8) with k in Hb by (apply (Z.mod_unique _ _ (Z.of_nat i)); lia).
    rewrite Ew, Ew' in Hb. by injection Hb.
Qed.

Lemma contents_lookup h v len j : 0 <= j < len -> (exists b, Byte_u h v j = Ret b) ->
  Byte_u h v j = Ret (Z.land (contents h v len !!! Z.to_nat j) 255).
Proof.
  intros Hj [b E]. rewrite E. f_equal. unfold contents. erewrite list_lookup_total_correct.
  2:{ rewrite list_lookup_fmap, lookup_seqZ_lt by lia. reflexivity. }
  cbn [fmap option_fmap option_map]. replace (0 + Z.of_nat (Z.to_nat j)) with j by lia. rewrite E. apply Byte_u_range in E. unfold is_byte in E.
  change 255 with (Z.ones 8). rewrite Z.land_ones by lia. symmetry. apply Z.mod_small. lia.
Qed.

Lemma load_words_is_word h v n l : words_ok h -> load_words h v n = Ret l -> Forall is_word l.
Proof.
  intros Hw El. apply load_words_spec in El as [_ Hl]. apply Forall_lookup. intros i w Hi. apply Hl in Hi.
  unfold load in Hi. destruct (words h !! _) eqn:E; [|done]. injection Hi as <-. by eapply Hw.
Qed.
Lemma load_fields_ok h v n l : load_words h v n = Ret l -> Forall is_word l -> fields_ok h v (Z.of_nat n).
Proof.
  intros El Hw i Hi. apply load_words_spec in El as [Hlen Hl].
  destruct (lookup_lt_is_Some_2 l (Z.to_nat i)) as [w Hi']; [lia|]. exists w.
  rewrite Forall_lookup in Hw. split; [|by eapply Hw]. apply Hl in Hi'. rewrite Z2Nat.id in Hi' by lia. exact Hi'.
Qed.

Lemma fill_flat hs vs h v n l : load_words hs vs n = Ret l -> words_ok hs -> fields_ok h v (Z.of_nat n) ->
  exists h', memcpy_bytes h v 0 (contents hs vs (8 * Z.of_nat n)) = Ret h' /\ load_words h' v n = Ret l /\
    (forall a, (forall k, 0 <= k < Z.of_nat n -> a <> v + 8 * k) -> load h' a = load h a).
Proof.
  intros El Hw Hf. pose proof (contents_len hs vs (8 * Z.of_nat n) ltac:(lia)) as Hc. unfold str_len in Hc.
  destruct (memcpy_block (contents hs vs (8 * Z.of_nat n)) h v (Z.of_nat n) 0 Hf) as (h' & E & Hf' & Hb & Hfr); [lia|lia|].
  exists h'. split_and!; try done. eapply same_words; try done. intros j Hj. rewrite Hb by done.
  rewrite Hc, (proj2 (Z.leb_le 0 j)), (proj2 (Z.ltb_lt j _)) by lia. cbn. rewrite Z.sub_0_r. symmetry.
  apply contents_lookup; [lia|]. eapply words_Byte; [done|lia].
Qed.

Lemma string_words hs vs h v bs n l : string_at hs vs bs -> string_at h v bs -> words_ok hs ->
  Wosize_val hs vs = Ret (Z.of_nat n) -> load_words hs vs n = Ret l -> load_words h v n = Ret l.
Proof.
  intros Hs Hd Hw Hn El. rewrite (sa_size _ _ _ Hs) in Hn. injection Hn as Hn. eapply same_words; try done; rewrite <- Hn.
  - exact (sa_words _ _ _ Hd).
  - intros j Hj. by rewrite (sa_content _ _ _ Hd), (sa_content _ _ _ Hs).
Qed.

Lemma fill_string_spec h v bs : Forall is_byte bs -> str_len bs < 2 ^ 56 -> Tag_val h v = Ret String_tag ->
  Wosize_val h v = Ret (str_wosize (str_len bs)) -> fields_ok h v (str_wosize (str_len bs)) ->
  exists h2 h3 h4, Store_field h v (str_wosize (str_len bs) - 1) 0 = Ret h2 /\
    Store_byte h2 v (Bsize_wsize (str_wosize (str_len bs)) - 1) (Bsize_wsize (str_wosize (str_len bs)) - 1 - str_len bs) = Ret h3 /\
    memcpy_bytes h3 v 0 bs = Ret h4 /\ string_at h4 v bs /\
    (forall a, (forall k, 0 <= k < str_wosize (str_len bs) -> a <> v + 8 * k) -> load h4 a = load h a).
Proof.
  intros Hb Hl Ht Hz Hf. pose proof (str_len_nonneg bs) as Hpos.
  destruct (string_block_init h v (str_len bs) ltac:(lia) Ht Hz Hf) as (h2 & h3 & E2 & E3 & Hs & Hfr).
  pose proof (contents_len h3 v (str_len bs) Hpos) as Ec.
  destruct (memcpy_bytes_string bs h3 v _ 0 Hs) as (h4 & E4 & Hs4 & Hf4); [lia|rewrite Ec; lia|].
  exists h2, h3, h4. split_and!; try done.
  - rewrite list_inserts_all, bytes_id in Hs4; [done..|]. unfold bytes. rewrite length_fmap. apply Nat2Z.inj. by symmetry.
  - intros a Ha. rewrite Hf4 by (by rewrite Ec). by apply Hfr.
Qed.

(** ** Copies *)

(** [copy hs h0 f v y]: [y] stands for the value [v] of the heap [hs] when
    [f] gives the copies of its blocks and [h0] holds the atoms. *)
Inductive copy (hs h0 : heap) (f : gmap Z Z) : Z -> Z -> Prop :=
| copy_long v : Is_long v = true -> copy hs h0 f v v
| copy_atom v : Is_long v = false -> classify hs v = Leaf -> copy hs h0 f v (Atom h0 (tag_of hs v))
| copy_redirect v v' y : classify hs v = Redirect v' -> copy hs h0 f v' y -> copy hs h0 f v y
| copy_block v l y : classify hs v = Node l -> f !! v = Some y -> copy hs h0 f v y.

(** The block [o] of [h] is the copy of the block [v] of [hs]: same tag and
    size; the fields are copies, or the same words when the block is flat. *)
Record copied (hs h0 h : heap) (f : gmap Z Z) (v o : Z) : Prop := {
  cp_tag : Tag_val h o = Ret (tag_of hs v);
  cp_size : Wosize_val h o = Ret (wosize_of hs v);
  cp_fields : exists l l', load_words hs v (Z.to_nat (wosize_of hs v)) = Ret l /\
    load_words h o (Z.to_nat (wosize_of hs v)) = Ret l' /\
    (if tag_of hs v <? No_scan_tag then Forall2 (copy hs h0 f) l l' else l' = l);
}.

Lemma copy_mono hs h0 f f' v y : f ⊆ f' -> copy hs h0 f v y -> copy hs h0 f' v y.
Proof.
  intros Hf. induction 1; [by constructor|by constructor|by eapply copy_redirect|].
  eapply copy_block; [done|]. by eapply lookup_weaken.
Qed.

(** ** Allocation *)

Section Rebuild.
Context `{SH : SharedHeap, !SharedHeapOk SH} {IE : InternEnv} (fun_name : string).
Hypothesis memory : forall n, in_stat_alloc n = true.
(** The end of the block of the minor heap that receives the objects. *)
Variable limit : Z.

(** The words future objects may be given. *)
Definition avail (h : heap) (s : intern_state) (a : Z) : Prop :=
  match intern_dest s with
  | Some p => p <= a < limit
  | None => words h !! a = None
  end.

(** In the minor heap, exactly [need] words are left. *)
Definition storage (h : heap) (s : intern_state) (need : Z) : Prop :=
  match intern_dest s with
  | Some p => p mod 8 = 0 /\ p + 8 * need = limit /\
      forall i, 0 <= i < need -> exists w, load h (p + 8 * i) = Ret w /\ is_word w
  | None => True
  end.

Record allocated (h : heap) (s : intern_state) (h' : heap) (s' : intern_state) (v n tag : Z) : Prop := {
  al_aligned : v mod 8 = 0;
  al_avail : forall i, -1 <= i < n -> avail h s (v + 8 * i);
  al_taken : forall i, -1 <= i < n -> ~ avail h' s' (v + 8 * i);
  al_mono : forall a, avail h' s' a -> avail h s a;
  al_tag : Tag_val h' v = Ret tag;
  al_size : Wosize_val h' v = Ret n;
  al_fields : forall i, 0 <= i < n -> exists w, Field h' v i = Ret w /\ is_word w;
  al_frame : forall a, (forall i, -1 <= i < n -> a <> v + 8 * i) -> words h' !! a = words h !! a;
  al_tables : same_tables h h';
  al_state : s' = set_dest (intern_dest s') s;
}.

Lemma header_decoded h v n tag color : 0 <= n < 2 ^ 54 -> 0 <= tag < 256 -> is_color color ->
  words h !! (v - 8) = Some (s64 (Make_header n tag color)) -> Tag_val h v = Ret tag /\ Wosize_val h v = Ret n.
Proof.
  intros Hn Ht Hc E. assert (Hd_val h v = Ret (Make_header n tag color)) as Hd.
  { unfold Hd_val, load. rewrite E. cbn. rewrite wrap_swrap by lia. f_equal. unfold Make_header. apply wrap_wrap. }
  unfold Tag_val, Wosize_val. rewrite Hd. cbn. by rewrite Tag_Make_header, Wosize_Make_header.
Qed.

Lemma alloc_obj h s n tag need : storage h s need -> 0 < n < 2 ^ 54 -> 1 + n <= need -> 0 <= tag < 256 ->
  match intern_alloc_obj h s n tag with
  | Ret (v, h', s') => allocated h s h' s' v n tag /\ storage h' s' (need - (1 + n))
  | Raise e => e = Out_of_memory
  | _ => False
  end.
Proof.
  intros Hst Hn Hneed Ht. unfold intern_alloc_obj, storage in *. destruct (intern_dest s) as [p|] eqn:Ed.
  - destruct Hst as (Hal & Hlim & Hw). destruct (Hw 0) as (w0 & Hw0 & _); [lia|]. rewrite Z.mul_0_r, Z.add_0_r in Hw0.
    rewrite (store_Ret _ _ _ _ Hw0). mred.
    assert (Hl : forall i, 0 < i < need -> load (set_words (<[p := s64 (Make_header n tag 0)]> (words h)) h) (p + 8 * i) = load h (p + 8 * i)).
    { intros i Hi. unfold load. cbn. by rewrite lookup_insert_ne by lia. }
    split; [split|].
    + rewrite Z.add_mod, Hal by lia. done.
    + intros i Hi. unfold avail. rewrite Ed. lia.
    + intros i Hi. unfold avail. cbn. lia.
    + intros a. unfold avail. cbn. rewrite Ed. lia.
    + eapply header_decoded; [| | |cbn; rewrite Z.add_simpl_r; apply lookup_insert_eq]; [lia|done|by left].
    + eapply header_decoded; [| | |cbn; rewrite Z.add_simpl_r; apply lookup_insert_eq]; [lia|done|by left].
    + intros i Hi. unfold Field. replace (p + 8 + 8 * i) with (p + 8 * (i + 1)) by lia. rewrite Hl by lia. apply Hw. lia.
    + intros a Ha. cbn. rewrite lookup_insert_ne; [done|]. intros <-. apply (Ha (-1)); lia.
    + done.
    + done.
    + cbn. split_and!; [|lia|].
      * replace (p + 8 * (1 + n)) with (p + (1 + n) * 8) by lia. by rewrite Z_mod_plus_full.
      * intros i Hi. replace (p + 8 * (1 + n) + 8 * i) with (p + 8 * (1 + n + i)) by lia. rewrite Hl by lia. apply Hw. lia.
  - destruct (caml_shared_try_alloc h n) as [hp|] eqn:Ea; [|done]. mred.
    assert (fresh_block h (set_words (<[hp:=s64 (Make_header n tag heap_MARKED)]>
      (write_words (hp + 8) (replicate (Z.to_nat n) Debug_uninit_major) (words h))) h) (hp + 8) n tag) as [Hal _ Hfree Htag Hsize Hm Hfr].
    { eapply caml_alloc_shr_fresh; [lia|done|]. unfold caml_alloc_shr. by rewrite Ea. }
    split; [split|]; try done.
    + intros i Hi. unfold avail. rewrite Ed. by apply Hfree.
    + intros i Hi. unfold avail. rewrite Ed. cbn. destruct (decide (i = -1)) as [->|].
      * replace (hp + 8 + 8 * -1) with hp by lia. by rewrite lookup_insert_eq.
      * destruct (Hm i) as (w & Hf & _); [lia|]. unfold Field, load in Hf. cbn in Hf. intros E. by rewrite E in Hf.
    + intros a. unfold avail. rewrite Ed. cbn. intros E. apply lookup_insert_None in E as [E _].
      destruct (words h !! a) eqn:Ew; [|done].
      assert (is_Some (write_words (hp + 8) (replicate (Z.to_nat n) Debug_uninit_major) (words h) !! a)) as [? ?]
        by (apply write_words_is_Some; eauto). congruence.
    + by destruct s.
    + rewrite Ed. done.
Qed.

(** ** Destinations *)

Fixpoint dests_from (d : destination) (n : nat) : list destination :=
  match n with O => [] | S n => d :: dests_from (next_dest d) n end.
Definition dests (sp : list intern_item) : list destination :=
  concat ((fun it => dests_from (dest it) (Z.to_nat (arg it))) <$> sp).
Definition reads_only (sp : list intern_item) : Prop := Forall (fun it => op it = OReadItems /\ 0 < arg it) sp.

(** A destination no future allocation can touch. *)
Definition settled (h : heap) (s : intern_state) (d : destination) : Prop :=
  match d with Result => True | Word a => ~ avail h s a end.
Definition writable_dest (h : heap) (s : intern_state) (d : destination) : Prop :=
  settled h s d /\ exists w, load_dest h s d = Ret w.

Lemma dests_cons sp d D : reads_only sp -> dests sp = d :: D ->
  exists it sp0 sp1, sp = it :: sp0 /\ dests sp1 = D /\ reads_only sp1 /\ zlength sp1 <= zlength sp /\
    forall h s, intern_one fun_name h s it sp0 =
      ('(h, s, sp, v) ← read_value fun_name h s sp1 d;
       match v with
       | None => Ret (h, s, sp)
       | Some v => '(h, s) ← store_dest h s d v; Ret (h, s, sp)
       end).
Proof.
  destruct sp as [|it sp]; [done|]. intros Hr E. inversion Hr as [|? ? [Hop Harg] Hr']; subst.
  unfold dests in E. cbn in E. destruct (Z.to_nat (arg it)) as [|n] eqn:En; [lia|]. cbn in E. injection E as <- ED.
  exists it, sp, (if arg it - 1 =? 0 then sp else mkItem (next_dest (dest it)) (arg it - 1) OReadItems :: sp).
  split; [done|]. destruct (Z.eqb_spec (arg it - 1) 0) as [E1|E1].
  - assert (n = 0%nat) as -> by lia. split_and!; try done; [cbn; lia|]. intros h s. unfold intern_one. rewrite Hop, E1. done.
  - split_and!.
    + unfold dests. cbn [fmap list_fmap concat dest arg]. by replace (Z.to_nat (arg it - 1)) with n by lia.
    + constructor; [split; [done|cbn; lia]|done].
    + cbn [length]. lia.
    + intros h s. unfold intern_one. rewrite Hop, (proj2 (Z.eqb_neq _ _)) by done. done.
Qed.

Lemma dests_words o n : forall k, dests_from (Word (o + 8 * k)) n = Word <$> ((fun i => o + 8 * i) <$> seqZ k (Z.of_nat n)).
Proof.
  induction n as [|n IH]; intros k; [done|]. rewrite seqZ_cons by lia. cbn [dests_from next_dest fmap list_fmap].
  replace (o + 8 * k + 8) with (o + 8 * Z.succ k) by lia. rewrite IH. by replace (Z.pred (Z.of_nat (S n))) with (Z.of_nat n) by lia.
Qed.

(** The destinations of the fields of the block at [o]. *)
Definition field_dests (o : Z) (n : nat) : list destination := dests_from (Word o) n.

Lemma field_dests_elem o n d : d ∈ field_dests o n <-> exists i, 0 <= i < Z.of_nat n /\ d = Word (o + 8 * i).
Proof.
  unfold field_dests. replace (Word o) with (Word (o + 8 * 0)) by (f_equal; lia). rewrite dests_words.
  rewrite list_elem_of_fmap. setoid_rewrite list_elem_of_fmap. setoid_rewrite elem_of_seqZ. split.
  - intros (y & -> & i & -> & Hi). exists i. split; [lia|done].
  - intros (i & Hi & ->). exists (o + 8 * i). split; [done|]. exists i. split; [done|lia].
Qed.

Lemma field_dests_NoDup o n : NoDup (field_dests o n).
Proof.
  unfold field_dests. replace (Word o) with (Word (o + 8 * 0)) by (f_equal; lia). rewrite dests_words.
  apply NoDup_fmap_2; [by intros ? ? [= ->]|]. apply NoDup_fmap_2; [intros ? ? E; lia|]. apply NoDup_seqZ.
Qed.

Lemma field_dests_length o n : length (field_dests o n) = n.
Proof. unfold field_dests. generalize (Word o). induction n as [|n IH]; intros d; cbn; congruence. Qed.

(** ** Storing *)

Lemma store_dest_ok h s d v : (exists w, load_dest h s d = Ret w) ->
  exists h' s', store_dest h s d v = Ret (h', s') /\ load_dest h' s' d = Ret v /\
    (forall d', d' <> d -> load_dest h' s' d' = load_dest h s d') /\
    (forall a, avail h' s' a <-> avail h s a) /\ same_tables h h' /\ s' = set_res (intern_res s') s.
Proof.
  intros [w Hw]. destruct d as [|a]; cbn in *.
  - eexists _, _. split; [reflexivity|]. split_and!; try done. intros [|a] Hd; done.
  - rewrite (store_Ret _ _ _ _ Hw). mred. eexists _, _. split; [reflexivity|]. split_and!.
    + unfold load. cbn. by rewrite lookup_insert_eq.
    + intros [|b] Hd; [done|]. unfold load_dest, load. cbn. rewrite lookup_insert_ne; [done|]. congruence.
    + intros b. unfold avail. destruct (intern_dest s); [done|]. cbn. rewrite lookup_insert_None.
      split; [tauto|]. intros E. split; [done|]. intros <-. unfold load in Hw. by rewrite E in Hw.
    + done.
    + by destruct s.
Qed.

Lemma push_item_ok s sp it k : intern_stack_size s = 2 ^ k -> 8 <= k <= 26 -> zlength sp + 1 < 2 ^ 26 ->
  exists k', 8 <= k' <= 26 /\ PushItem s sp it = Ret (set_intern_stack (2 ^ k') s, it :: sp).
Proof.
  intros Es Hk Hd. unfold PushItem. rewrite Es. destruct (Z.leb_spec (2 ^ k) (zlength sp + 1)).
  - assert (k < 26) as Hk' by (apply (Z.pow_lt_mono_r_iff 2); lia).
    unfold intern_resize_stack. rewrite Es, <- Z.pow_succ_r by lia.
    assert (2 ^ Z.succ k <= 2 ^ 26) by (apply Z.pow_le_mono_r; lia).
    rewrite (proj2 (Z.leb_gt _ _)) by (unfold INTERN_STACK_MAX_SIZE; lia). rewrite memory. mred.
    exists (Z.succ k). split; [lia|done].
  - mred. exists k. split; [done|]. do 2 f_equal. rewrite <- Es. by destruct s.
Qed.

(** ** Rebuilding a graph *)

(** The table of objects knows the copies of the blocks recorded in [m]; it
    is needed only if some block is recorded in the end. *)
Record linked (s : intern_state) (m m' f : gmap Z Z) : Prop := {
  lk_dom : dom f = dom m;
  lk_table : (0 < size m')%nat -> intern_counter s = Z.of_nat (size m) /\ Z.of_nat (size m') <= table_len s /\
    exists t, intern_obj_table s = Some t /\
      forall v p, m !! v = Some p -> exists o, f !! v = Some o /\ t !! p = Some o;
  lk_compressed : compressed s = false;
  lk_stack : exists k, 8 <= k <= 26 /\ intern_stack_size s = 2 ^ k;
}.

(** From [(h, s)] with pending destinations [D] for the values [W] to
    [(h', s')] with every copy made. *)
Record rebuilt (hs h0 h : heap) (s : intern_state) (D : list destination) (W : list Z) (f m' : gmap Z Z) (rest : list Z)
    (h' : heap) (s' : intern_state) (f' : gmap Z Z) : Prop := {
  rb_sub : f ⊆ f';
  rb_dom : dom f' = dom m';
  rb_dests : Forall2 (fun d v => exists y, load_dest h' s' d = Ret y /\ copy hs h0 f' v y) D W;
  rb_new : forall v o, f' !! v = Some o -> f !! v = None -> copied hs h0 h' f' v o /\ avail h s o /\ o mod 8 = 0;
  rb_inj : forall v1 v2 o, f' !! v1 = Some o -> f' !! v2 = Some o -> f !! v1 = None -> v1 = v2;
  rb_frame : forall d w, d ∉ D -> settled h s d -> load_dest h s d = Ret w -> load_dest h' s' d = Ret w;
  rb_src : intern_src s' = rest;
  rb_storage : storage h' s' 0;
  rb_tables : same_tables h h';
}.

(** One round: [y] is stored at [d], perhaps after an allocation. *)
Record stepped (h : heap) (s : intern_state) (d : destination) (y : Z) (h2 : heap) (s2 : intern_state) : Prop := {
  sp_value : load_dest h2 s2 d = Ret y;
  sp_keep : forall d' w, d' <> d -> settled h s d' -> load_dest h s d' = Ret w -> load_dest h2 s2 d' = Ret w;
  sp_mono : forall a, avail h2 s2 a -> avail h s a;
  sp_tables : same_tables h h2;
}.

Lemma stepped_settled h s d y h2 s2 d' : stepped h s d y h2 s2 -> settled h s d' -> settled h2 s2 d'.
Proof. intros Hs Hd. destruct d' as [|a]; [done|]. intros Ha. by apply Hd, (sp_mono _ _ _ _ _ _ Hs). Qed.

Lemma stepped_writable h s d y h2 s2 D : stepped h s d y h2 s2 -> d ∉ D ->
  Forall (writable_dest h s) D -> Forall (writable_dest h2 s2) D.
Proof.
  intros Hs Hd. rewrite !Forall_forall. intros HD d' Hd'. destruct (HD d' Hd') as [Hst [w Hw]].
  split; [by eapply stepped_settled|]. exists w. apply (sp_keep _ _ _ _ _ _ Hs); [|done|done].
  intros ->. by apply Hd, list_elem_of_In.
Qed.

(** A value that needs no new block. *)
Lemma rebuilt_value hs h0 h s d D v W f m' rest y h2 s2 h' s' f' :
  stepped h s d y h2 s2 -> settled h s d -> d ∉ D -> copy hs h0 f v y ->
  rebuilt hs h0 h2 s2 D W f m' rest h' s' f' -> rebuilt hs h0 h s (d :: D) (v :: W) f m' rest h' s' f'.
Proof.
  intros Hs Hd HdD Hc [Hsub Hdom Hdests Hnew Hinj Hframe Hsrc Hst Htab]. split; try done.
  - constructor; [|done]. exists y. split; [|by eapply copy_mono].
    apply Hframe; [done|by eapply stepped_settled|apply (sp_value _ _ _ _ _ _ Hs)].
  - intros v' o Hv Hf. destruct (Hnew v' o Hv Hf) as (? & Ha & ?). split_and!; try done. by apply (sp_mono _ _ _ _ _ _ Hs).
  - intros d' w Hd' Hset Hl. apply not_elem_of_cons in Hd' as [Hne HnD].
    apply Hframe; [done|by eapply stepped_settled|by eapply (sp_keep _ _ _ _ _ _ Hs)].
  - etrans; [apply (sp_tables _ _ _ _ _ _ Hs)|done].
Qed.

Lemma rebuilt_redirect hs h0 h s D v v' W f m' rest h' s' f' : classify hs v = Redirect v' ->
  rebuilt hs h0 h s D (v' :: W) f m' rest h' s' f' -> rebuilt hs h0 h s D (v :: W) f m' rest h' s' f'.
Proof.
  intros Hc [Hsub Hdom Hdests Hnew Hinj Hframe Hsrc Hst Htab]. split; try done.
  inversion Hdests as [|d ? D' ? (y & Hy & Hcy) Hrest]; subst. constructor; [|done]. exists y. split; [done|].
  by eapply copy_redirect.
Qed.

(** The block allocated for [v] once its fields are pending. *)
Record block_begun (hs h : heap) (s : intern_state) (h2 : heap) (s2 : intern_state) (v o : Z) (l : list Z) : Prop := {
  bb_aligned : o mod 8 = 0;
  bb_avail : forall i, -1 <= i < wosize_of hs v -> avail h s (o + 8 * i);
  bb_taken : forall i, -1 <= i < wosize_of hs v -> ~ avail h2 s2 (o + 8 * i);
  bb_tag : Tag_val h2 o = Ret (tag_of hs v);
  bb_size : Wosize_val h2 o = Ret (wosize_of hs v);
  bb_source : exists k, load_words hs v (Z.to_nat (wosize_of hs v)) = Ret k /\
    if tag_of hs v <? No_scan_tag then l = k else l = [] /\ load_words h2 o (Z.to_nat (wosize_of hs v)) = Ret k;
  bb_positive : 0 < wosize_of hs v;
  bb_fields : fields_ok h2 o (wosize_of hs v);
}.

Lemma begun_length hs h s h2 s2 v o l : block_begun hs h s h2 s2 v o l -> Z.of_nat (length l) <= wosize_of hs v.
Proof.
  intros Hb. pose proof (bb_positive _ _ _ _ _ _ _ _ Hb).
  destruct (bb_source _ _ _ _ _ _ _ _ Hb) as (k & Ek & Hk). apply load_words_spec in Ek as [Ek _].
  destruct (_ <? _); [subst|destruct Hk as [-> _]; cbn]; lia.
Qed.

Lemma fields_loaded hs h0 h s f o n l :
  Forall2 (fun d v => exists y, load_dest h s d = Ret y /\ copy hs h0 f v y) (field_dests o n) l ->
  exists l', load_words h o n = Ret l' /\ Forall2 (copy hs h0 f) l l'.
Proof.
  unfold field_dests. revert o l. induction n as [|n IH]; intros o l H; cbn in H.
  - inversion H; subst. by exists [].
  - inversion H as [|d x D' l0 (y & Hy & Hc) HD]; subst. destruct (IH (o + 8) _ HD) as (l' & El & Hl). exists (y :: l').
    cbn. cbn in Hy. rewrite Hy. mred. rewrite El. mred. split; [done|]. by constructor.
Qed.

(** A block that is recorded with the copy of [v], its fields pending. *)
Lemma rebuilt_block hs h0 h s d D v W l f m' rest o h2 s2 h' s' f' :
  stepped h s d o h2 s2 -> writable_dest h s d -> d ∉ D -> Forall (writable_dest h s) D ->
  classify hs v = Node l -> f !! v = None -> (forall b c, f !! b = Some c -> ~ avail h s c) ->
  block_begun hs h s h2 s2 v o l ->
  rebuilt hs h0 h2 s2 (field_dests o (length l) ++ D) (l ++ W) (<[v := o]> f) m' rest h' s' f' ->
  rebuilt hs h0 h s (d :: D) (v :: W) f m' rest h' s' f'.
Proof.
  intros Hs [Hd Hdw] HdD HD Hc Hfv Hfa Hb [Hsub Hdom Hdests Hnew Hinj Hframe Hsrc Hst Htab].
  pose proof (sp_mono _ _ _ _ _ _ Hs) as Hmono. rewrite Forall_forall in HD. pose proof (bb_positive _ _ _ _ _ _ _ _ Hb) as Hpos.
  assert (f' !! v = Some o) as Hfo by (eapply lookup_weaken; [apply lookup_insert_eq|exact Hsub]).
  pose proof (begun_length _ _ _ _ _ _ _ _ Hb) as Hlen.
  (* A settled destination is no field of the new block. *)
  assert (Hapart : forall d', settled h s d' -> d' ∉ field_dests o (length l)).
  { intros d' Hset Hin. apply field_dests_elem in Hin as (i & Hi & ->). apply Hset, (bb_avail _ _ _ _ _ _ _ _ Hb). lia. }
  assert (Hpending : forall d', settled h s d' -> d' ∉ D -> d' ∉ field_dests o (length l) ++ D).
  { intros d' H1 H2 Hin. apply elem_of_app in Hin as [Hin|Hin]; [by eapply Hapart|done]. }
  (* The words of the new block are not destinations of [D]. *)
  assert (HoD : forall i, -1 <= i < wosize_of hs v -> Word (o + 8 * i) ∉ D).
  { intros i Hi Hin. apply list_elem_of_In in Hin. destruct (HD _ Hin) as [Hset _]. apply Hset, (bb_avail _ _ _ _ _ _ _ _ Hb), Hi. }
  assert (Hword : forall i w, -1 <= i < wosize_of hs v -> (i < 0 \/ Z.of_nat (length l) <= i) ->
    load h2 (o + 8 * i) = Ret w -> load h' (o + 8 * i) = Ret w).
  { intros i w Hi Hout Hl. apply (Hframe (Word (o + 8 * i)) w); [|by apply (bb_taken _ _ _ _ _ _ _ _ Hb)|exact Hl].
    intros Hin. apply elem_of_app in Hin as [Hin|Hin]; [|by eapply HoD]. apply field_dests_elem in Hin as (j & Hj & [= E]). lia. }
  apply Forall2_app_inv in Hdests as [Hf1 Hf2]; [|by rewrite field_dests_length].
  assert (Hcopied : copied hs h0 h' f' v o).
  { assert (Hhd : Hd_val h' o = Hd_val h2 o).
    { pose proof (bb_tag _ _ _ _ _ _ _ _ Hb) as Et. unfold Tag_val, Hd_val in *. inv_bind.
      replace (o - 8) with (o + 8 * -1) in * by lia. rewrite E0, (Hword (-1) a0) by (done || lia). done. }
    split.
    - unfold Tag_val. rewrite Hhd. apply (bb_tag _ _ _ _ _ _ _ _ Hb).
    - unfold Wosize_val. rewrite Hhd. apply (bb_size _ _ _ _ _ _ _ _ Hb).
    - destruct (bb_source _ _ _ _ _ _ _ _ Hb) as (k & Ek & Hk). exists k.
      pose proof Ek as Ek'. apply load_words_spec in Ek' as [Elen _]. destruct (tag_of hs v <? No_scan_tag).
      + subst k. rewrite <- Elen in *. destruct (fields_loaded _ _ _ _ _ _ _ _ Hf1) as (l' & El & Hl). exists l'. by split_and!.
      + destruct Hk as [-> El]. exists k. split_and!; try done. apply load_words_spec in El as [_ El].
        apply load_words_spec. split; [done|]. intros i w Hi. apply Hword; [|cbn; lia|by apply El].
        apply lookup_lt_Some in Hi. lia. }
  split; try done.
  - etrans; [|exact Hsub]. by apply insert_subseteq.
  - constructor; [|done]. exists o. split; [|by eapply copy_block].
    apply Hframe; [by apply Hpending|by eapply stepped_settled|apply (sp_value _ _ _ _ _ _ Hs)].
  - intros b c Hb' Hn. destruct (decide (b = v)) as [->|Hne].
    + assert (c = o) as -> by congruence. split_and!; [done| |apply (bb_aligned _ _ _ _ _ _ _ _ Hb)].
      replace o with (o + 8 * 0) by lia. apply (bb_avail _ _ _ _ _ _ _ _ Hb). lia.
    + destruct (Hnew b c Hb') as (? & Ha & ?); [by rewrite lookup_insert_ne|]. split_and!; auto.
  - assert (Ho : ~ avail h2 s2 o) by (replace o with (o + 8 * 0) by lia; apply (bb_taken _ _ _ _ _ _ _ _ Hb); lia).
    assert (Ho' : avail h s o) by (replace o with (o + 8 * 0) by lia; apply (bb_avail _ _ _ _ _ _ _ _ Hb); lia).
    intros b1 b2 c H1 H2 Hn. destruct (decide (b1 = v)) as [->|Hne].
    + assert (c = o) as -> by congruence. destruct (decide (b2 = v)) as [->|Hne2]; [done|exfalso].
      destruct (f !! b2) as [c2|] eqn:E2.
      * assert (f' !! b2 = Some c2) by (eapply lookup_weaken; [|exact Hsub]; by rewrite lookup_insert_ne).
        assert (c2 = o) as -> by congruence. by apply (Hfa b2 o).
      * destruct (Hnew b2 o H2) as (_ & Ha & _); [by rewrite lookup_insert_ne|done].
    + apply (Hinj b1 b2 c H1 H2). by rewrite lookup_insert_ne.
  - intros d' w Hd' Hset Hl. apply not_elem_of_cons in Hd' as [Hne HnD].
    apply Hframe; [by apply Hpending|by eapply stepped_settled|by eapply (sp_keep _ _ _ _ _ _ Hs)].
  - etrans; [apply (sp_tables _ _ _ _ _ _ Hs)|done].
Qed.

(** ** The rounds of the loop *)

Lemma load_words_lookup h h' a : load h' a = load h a -> words h' !! a = words h !! a.
Proof. unfold load. destruct (words h' !! a), (words h !! a); cbn; congruence. Qed.

Lemma in_block o n a : (exists k, 0 <= k < n /\ a = o + 8 * k) \/ (forall k, 0 <= k < n -> a <> o + 8 * k).
Proof.
  pose proof (Z.div_mod (a - o) 8 ltac:(lia)) as E.
  destruct (decide ((a - o) mod 8 = 0 /\ 0 <= (a - o) / 8 < n)) as [[Hm Hr]|Hno].
  - left. exists ((a - o) / 8). split; [done|lia].
  - right. intros k Hk ->. apply Hno. replace (o + 8 * k - o) with (k * 8) by lia.
    rewrite Z_mod_mult, Z_div_mult by lia. done.
Qed.

(** Filling the fields of a new block keeps what its allocation gave. *)
Lemma allocated_fill h s h1 s1 h3 o n tag : allocated h s h1 s1 o n tag -> 0 <= n ->
  (forall a, (forall k, 0 <= k < n -> a <> o + 8 * k) -> load h3 a = load h1 a) -> fields_ok h3 o n -> same_tables h1 h3 ->
  allocated h s h3 s1 o n tag /\ forall k, storage h1 s1 k -> storage h3 s1 k.
Proof.
  intros [Hal Hav Htk Hmo Htag Hsz Hf Hfr Htab Hs] Hn Hl Hf3 Ht3.
  destruct (header_kept h1 h3 o n Hn Hl) as [Et Ez].
  assert (Hav3 : forall a, avail h3 s1 a -> avail h1 s1 a).
  { intros a. unfold avail. destruct (intern_dest s1); [done|]. intros E.
    destruct (in_block o n a) as [(k & Hk & ->)|Hno].
    - destruct (Hf3 k Hk) as (w & Hw & _). unfold Field, load in Hw. by rewrite E in Hw.
    - rewrite <- (load_words_lookup h1 h3 a); [done|]. by apply Hl. }
  split.
  - split; rewrite ?Et, ?Ez; try done; try (by etrans); auto.
    + intros i Hi Ha. by apply (Htk i Hi), Hav3.
    + intros a Ha. rewrite <- Hfr by done. apply load_words_lookup, Hl. intros k Hk. apply Ha. lia.
  - unfold storage, avail in *. intros k. destruct (intern_dest s1) as [p|] eqn:Ed; [|done]. intros (H1 & H2 & H3). split_and!; try done.
    intros i Hi. destruct (H3 i Hi) as (w & Hw & Hiw). exists w. split; [|done]. rewrite Hl; [done|].
    intros j Hj E. apply (Htk j); [lia|]. rewrite <- E. lia.
Qed.

(** Storing the value of a round. *)
Lemma store_step h s d y : writable_dest h s d ->
  exists h2 s2, store_dest h s d y = Ret (h2, s2) /\ stepped h s d y h2 s2 /\ s2 = set_res (intern_res s2) s /\
    forall k, storage h s k -> storage h2 s2 k.
Proof.
  intros [Hset Hw]. destruct (store_dest_ok h s d y Hw) as (h2 & s2 & E & Hv & Hk & Ha & Ht & Hs).
  exists h2, s2. split_and!; try done.
  - split; try done.
    + intros d' w Hd' _ Hl. by rewrite Hk.
    + intros a. by rewrite Ha.
  - intros k. unfold storage, settled, avail in *. rewrite Hs. cbn [intern_dest set_res].
    destruct (intern_dest s) as [p|] eqn:Ed; [|done].
    intros (H1 & H2 & H3). split_and!; try done. intros i Hi. destruct (H3 i Hi) as (w & Hl & Hiw). exists w. split; [|done].
    change (load_dest h2 s2 (Word (p + 8 * i)) = Ret w). rewrite Hk; [done|]. intros <-. apply Hset. lia.
Qed.

(** Storing the address of a new block. *)
Lemma store_block h s h3 s3 d o n tag : allocated h s h3 (set_dest (intern_dest s3) s) o n tag -> 0 < n ->
  intern_res s3 = intern_res s -> writable_dest h s d ->
  exists h4 s4, store_dest h3 s3 d o = Ret (h4, s4) /\ stepped h s d o h4 s4 /\ s4 = set_res (intern_res s4) s3 /\
    (forall k, storage h3 s3 k -> storage h4 s4 k) /\
    (forall i, -1 <= i < n -> ~ avail h4 s4 (o + 8 * i) /\ load h4 (o + 8 * i) = load h3 (o + 8 * i)).
Proof.
  intros [Hal Hav Htk Hmo Htag Hsz Hf Hfr Htab _] Hn Hres [Hset [w Hw]].
  assert (Hkeep : forall d' x, settled h s d' -> load_dest h s d' = Ret x -> load_dest h3 s3 d' = Ret x).
  { intros [|a] x Hd' Hx; cbn in *; [by rewrite Hres|]. rewrite <- Hx. unfold load. rewrite Hfr; [done|].
    intros i Hi ->. by apply Hd', Hav. }
  assert (Hset3 : forall d', settled h s d' -> settled h3 s3 d').
  { intros [|a] Hd'; [done|]. intros Ha. by apply Hd', Hmo. }
  destruct (store_step h3 s3 d o) as (h4 & s4 & E & Hst & Hs & Hsto); [split; eauto|].
  destruct Hst as [Hv Hk Hm Ht]. exists h4, s4. split_and!; try done.
  - split; try done; [|by intros a Ha; apply Hmo, Hm|by etrans].
    intros d' x Hd' Hse Hx. apply Hk; auto.
  - intros i Hi. split; [intros Ha; by apply (Htk i Hi), Hm|].
    assert (Word (o + 8 * i) <> d) as Hne by (intros <-; by apply Hset, Hav).
    assert (exists x, load h3 (o + 8 * i) = Ret x) as [x Hx].
    { destruct (decide (i = -1)) as [->|].
      - unfold Tag_val, Hd_val in Htag. inv_bind. replace (o + 8 * -1) with (o - 8) by lia. eauto.
      - destruct (Hf i) as (x & Hx & _); [lia|]. by exists x. }
    rewrite Hx. apply (Hk (Word (o + 8 * i))); try done. intros Ha. by apply (Htk i Hi).
Qed.

Lemma record_ok s m m' f v o : linked s m m' f -> numbered m -> m !! v = None -> (size m < size m')%nat ->
  exists n t len, record_obj s o = Ret (set_table n t len s) /\
    linked (set_table n t len s) (<[v := Z.of_nat (size m)]> m) m' (<[v := o]> f).
Proof.
  intros [Hd Ht Hc Hs] Hnum Hv Hlt. destruct Ht as (En & Hlen & t & Et & Hlk); [lia|].
  unfold record_obj. rewrite Et, (proj2 (Z.ltb_lt _ _)) by lia. eexists _, _, _. split; [reflexivity|].
  split; cbn; try done.
  - by rewrite !dom_insert_L, Hd.
  - intros _. split; [rewrite map_size_insert_None by done; lia|]. split; [done|]. eexists. split; [reflexivity|].
    intros w p. rewrite lookup_insert_Some. intros [[<- <-]|[Hne Hw]].
    + exists o. by rewrite En, !lookup_insert_eq.
    + destruct (Hlk w p Hw) as (c & Hf & Htp). exists c. apply Hnum in Hw. rewrite En, !lookup_insert_ne by (done || lia). done.
Qed.

(** What a round that reads a new block establishes. *)
Definition begun (hs h : heap) (s : intern_state) (sp : list intern_item) (d : destination) (v : Z) (l : list Z)
    (m m' f : gmap Z Z) (rest : list Z) (need : Z) (h2 : heap) (s2 : intern_state) (sp2 : list intern_item) : Prop :=
  exists o, stepped h s d o h2 s2 /\ block_begun hs h s h2 s2 v o l /\ reads_only sp2 /\
    dests sp2 = field_dests o (length l) ++ dests sp /\ zlength sp2 <= zlength sp + 1 /\
    linked s2 (<[v := Z.of_nat (size m)]> m) m' (<[v := o]> f) /\ storage h2 s2 need /\ intern_src s2 = rest.

Lemma linked_src s l m m' f : linked s m m' f -> linked (set_src l s) m m' f.
Proof. by intros []. Qed.
Lemma linked_res s v m m' f : linked s m m' f -> linked (set_res v s) m m' f.
Proof. by intros []. Qed.
Lemma linked_dest s d m m' f : linked s m m' f -> linked (set_dest d s) m m' f.
Proof. by intros []. Qed.

(** The end of such a round: the block [o] is laid out in [h3]. *)
Lemma finish_block hs h s sp sp2 d v l o m m' f rest need h3 s3 :
  allocated h s h3 (set_dest (intern_dest s3) s) o (wosize_of hs v) (tag_of hs v) -> 0 < wosize_of hs v ->
  intern_res s3 = intern_res s -> writable_dest h s d ->
  (exists k, load_words hs v (Z.to_nat (wosize_of hs v)) = Ret k /\
    if tag_of hs v <? No_scan_tag then l = k else l = [] /\ load_words h3 o (Z.to_nat (wosize_of hs v)) = Ret k) ->
  linked s3 (<[v := Z.of_nat (size m)]> m) m' (<[v := o]> f) -> storage h3 s3 need -> intern_src s3 = rest ->
  reads_only sp2 -> dests sp2 = field_dests o (length l) ++ dests sp -> zlength sp2 <= zlength sp + 1 ->
  exists h4 s4, store_dest h3 s3 d o = Ret (h4, s4) /\ begun hs h s sp d v l m m' f rest need h4 s4 sp2.
Proof.
  intros Hal Hpos Hres Hd (k & Ek & Hk) Hl Hst Hsrc Hro Hdests Hlen.
  destruct (store_block h s h3 s3 d o _ _ Hal Hpos Hres Hd) as (h4 & s4 & E & Hstep & Hs4 & Hsto & Hblk).
  exists h4, s4. split; [done|]. exists o.
  assert (Hload : forall a i, a = o + 8 * i -> -1 <= i < wosize_of hs v -> load h4 a = load h3 a) by (intros a i -> Hi; by apply Hblk).
  assert (Hhd : Hd_val h4 o = Hd_val h3 o) by (unfold Hd_val; rewrite (Hload (o - 8) (-1)) by lia; done).
  split; [done|]. split_and!; try done; auto.
  - split; try done.
    + apply (al_aligned _ _ _ _ _ _ _ Hal).
    + apply (al_avail _ _ _ _ _ _ _ Hal).
    + intros i Hi. by apply Hblk.
    + unfold Tag_val. rewrite Hhd. apply (al_tag _ _ _ _ _ _ _ Hal).
    + unfold Wosize_val. rewrite Hhd. apply (al_size _ _ _ _ _ _ _ Hal).
    + exists k. split; [done|]. destruct (_ <? _); [done|]. destruct Hk as [-> Hk]. split; [done|].
      apply load_words_spec in Hk as [El Hw]. apply load_words_spec. split; [done|]. intros i w Hi.
      rewrite (Hload _ (Z.of_nat i)); [by apply Hw|done|]. apply lookup_lt_Some in Hi. lia.
    + intros i Hi. destruct (al_fields _ _ _ _ _ _ _ Hal i Hi) as (w & Hw & Hiw). exists w. split; [|done].
      unfold Field in *. rewrite (Hload _ i) by (done || lia). done.
  - rewrite Hs4. by apply linked_res.
  - rewrite Hs4. done.
Qed.

(** The [OReadItems] case of the loop: read a value, store it. *)
Definition read_item (h : heap) (s : intern_state) (sp : list intern_item) (d : destination) :
    result (heap * intern_state * list intern_item) :=
  '(h, s, sp, v) ← read_value fun_name h s sp d;
  match v with
  | None => Ret (h, s, sp)
  | Some v => '(h, s) ← store_dest h s d v; Ret (h, s, sp)
  end.

Definition new_outcome (P : heap -> intern_state -> list intern_item -> Prop)
    (r : result (heap * intern_state * list intern_item)) : Prop :=
  match r with
  | Ret (h, s, sp) => P h s sp
  | Raise e => e = Out_of_memory
  | _ => False
  end.

Section New.
Context (hs h : heap) (s : intern_state) (sp : list intern_item) (d : destination) (v : Z) (l : list Z)
  (m m' f : gmap Z Z) (rest : list Z) (need : Z).
Context (Hw : words_ok hs) (Hpl : plain_block hs v) (Hc : classify hs v = Node l)
  (Hlk : linked s m m' f) (Hnum : numbered m) (Hm : m !! v = None) (Hlt : (size m < size m')%nat)
  (Hst : storage h s need) (Hneed : 1 + wosize_of hs v <= need) (Hd : writable_dest h s d)
  (Hro : reads_only sp) (Hsp : zlength sp + 1 < 2 ^ 26).
Notation n := (wosize_of hs v).
Notation tag := (tag_of hs v).
Notation done_with := (begun hs h s sp d v l m m' f rest (need - (1 + n))).

Lemma node_sizes : 0 < n < 2 ^ 54 /\ 0 <= tag < 256.
Proof.
  destruct (node_inv hs v l Hc) as (_ & hd & Eh & _ & Hp & _). destruct (head_values hs v hd Eh) as (-> & -> & Ht & Hz). lia.
Qed.

(** A flat block filled by [fill], which leaves the input at [rest]. *)
Lemma new_flat src (fill : heap -> intern_state -> Z -> result (heap * intern_state)) :
  No_scan_tag <= tag ->
  (forall h1 s1 o, Tag_val h1 o = Ret tag -> Wosize_val h1 o = Ret n -> fields_ok h1 o n -> intern_src s1 = src ->
    exists h3 k, fill h1 s1 o = Ret (h3, set_src rest s1) /\ same_tables h1 h3 /\ fields_ok h3 o n /\
      load_words hs v (Z.to_nat n) = Ret k /\ load_words h3 o (Z.to_nat n) = Ret k /\
      (forall a, (forall i, 0 <= i < n -> a <> o + 8 * i) -> load h3 a = load h1 a)) ->
  new_outcome done_with
    ('(h1, s1, sp1, o) ← read_flat_block h (set_src src s) sp n tag fill;
     match o with
     | None => Ret (h1, s1, sp1)
     | Some o => '(h1, s1) ← store_dest h1 s1 d o; Ret (h1, s1, sp1)
     end).
Proof.
  intros Hflat Hfill. destruct node_sizes as [Hn Ht]. unfold read_flat_block.
  pose proof (alloc_obj h (set_src src s) n tag need Hst Hn Hneed Ht) as Ha.
  destruct (intern_alloc_obj _ _ _ _) as [[[o h1] s1]|e| | |]; try done. destruct Ha as [Ha Hst1]. mred.
  assert (linked s1 m m' f) as Hlk1 by (rewrite (al_state _ _ _ _ _ _ _ Ha); by apply linked_dest, linked_src).
  destruct (record_ok s1 m m' f v o Hlk1 Hnum Hm Hlt) as (c & t & len & -> & Hlk2). mred.
  destruct (Hfill h1 (set_table c t len s1) o) as (h3 & k & -> & Htab & Hf3 & Ek & Ek3 & Hfr).
  { apply (al_tag _ _ _ _ _ _ _ Ha). } { apply (al_size _ _ _ _ _ _ _ Ha). } { exact (al_fields _ _ _ _ _ _ _ Ha). }
  { cbn. by rewrite (al_state _ _ _ _ _ _ _ Ha). }
  mred. destruct (allocated_fill _ _ _ _ h3 _ _ _ Ha ltac:(lia) Hfr Hf3 Htab) as [Ha3 Hst3].
  assert (l = []) as El.
  { destruct (node_inv hs v l Hc) as (_ & hd & Eh & _ & _ & Hl). destruct (head_values hs v hd Eh) as (Et & _). destruct Hl as [[? _]|[_ ->]]; [lia|done]. }
  destruct (finish_block hs h s sp sp d v l o m m' f rest (need - (1 + n)) h3 (set_src rest (set_table c t len s1)))
    as (h4 & s4 & -> & Hb); try done; try lia.
  - cbn. destruct Ha3. split; try done.
  - cbn. by rewrite (al_state _ _ _ _ _ _ _ Ha).
  - exists k. split; [done|]. by rewrite (proj2 (Z.ltb_ge _ _)) by lia.
  - by apply linked_src.
  - by apply Hst3.
  - by rewrite El.
Qed.

Lemma new_block src : tag < No_scan_tag -> src = rest ->
  new_outcome done_with
    ('(h1, s1, sp1, o) ← read_block h (set_src src s) sp n tag;
     match o with
     | None => Ret (h1, s1, sp1)
     | Some o => '(h1, s1) ← store_dest h1 s1 d o; Ret (h1, s1, sp1)
     end).
Proof.
  intros Hscan ->. destruct node_sizes as [Hn Ht]. unfold read_block. rewrite (proj2 (Z.eqb_neq n 0)) by lia.
  pose proof (alloc_obj h (set_src rest s) n tag need Hst Hn Hneed Ht) as Ha.
  destruct (intern_alloc_obj _ _ _ _) as [[[o h1] s1]|e| | |]; try done. destruct Ha as [Ha Hst1]. mred.
  assert (linked s1 m m' f) as Hlk1 by (rewrite (al_state _ _ _ _ _ _ _ Ha); by apply linked_dest, linked_src).
  destruct (record_ok s1 m m' f v o Hlk1 Hnum Hm Hlt) as (c & t & len & -> & Hlk2). mred.
  rewrite (plain_tag hs v Object_tag Hpl) by set_solver. unfold ReadItems. rewrite (proj2 (Z.ltb_lt 0 n)) by lia.
  destruct (lk_stack _ _ _ _ Hlk2) as (k & Hk & Ek).
  destruct (push_item_ok (set_table c t len s1) sp (mkItem (Word o) n OReadItems) k Ek Hk Hsp) as (k' & Hk' & ->). mred.
  destruct (node_inv hs v l Hc) as (_ & hd & Eh & _ & _ & Hl). destruct (head_values hs v hd Eh) as (Et & Ez & _).
  rewrite <- Et, <- Ez in Hl. destruct Hl as [[_ El]|[? _]]; [|lia].
  pose proof El as El'. apply load_words_spec in El' as [Elen _].
  destruct (finish_block hs h s sp (mkItem (Word o) n OReadItems :: sp) d v l o m m' f rest (need - (1 + n)) h1
    (set_intern_stack (2 ^ k') (set_table c t len s1))) as (h4 & s4 & -> & Hb); try done; try lia.
  - cbn. destruct Ha. split; try done.
  - cbn. by rewrite (al_state _ _ _ _ _ _ _ Ha).
  - exists l. split; [done|]. by rewrite (proj2 (Z.ltb_lt _ _)) by lia.
  - destruct Hlk2. split; try done. exists k'. split; [done|done].
  - cbn. by rewrite (al_state _ _ _ _ _ _ _ Ha).
  - constructor; [cbn; split; [done|lia]|done].
  - unfold dests. cbn [fmap list_fmap concat dest arg]. by rewrite <- Elen.
  - cbn [length]. lia.
Qed.

Lemma new_item : intern_src s = enc hs (New v) ++ rest -> new_outcome done_with (read_item h s sp d).
Proof.
  intros Es. destruct node_sizes as [Hn Ht]. unfold read_item, enc in *.
  destruct (Z.eqb_spec tag String_tag) as [E|E].
  { destruct (pb_string _ _ Hpl E) as [bs Hb]. destruct (string_contents hs v bs Hb) as [Esl Ecs]. rewrite Esl, Ecs in Es.
    assert (n = str_wosize (str_len bs)) as En by (unfold wosize_of; by rewrite (sa_size _ _ _ Hb)).
    pose proof (sa_small _ _ _ Hb) as Hsm. pose proof (str_len_nonneg bs) as Hp0.
    assert (u64 (str_len bs + 8) / 8 = n) as Eu by (rewrite wrap_small by lia; by rewrite En).
    destruct (pb_flat _ _ Hpl) as [k Ek]; [by rewrite E|]. rewrite (read_string_code _ _ _ _ _ _ _ Hsm Es).
    pose proof (new_flat (bs ++ rest) (fun h1 s1 o => fill_string h1 s1 o (str_len bs))) as H.
    rewrite E in H. unfold read_string. rewrite Eu. apply H; [done|]. clear H.
    intros h1 s1 o Htag Hsz Hf Hsrc. unfold fill_string. rewrite Eu. rewrite En in *.
    destruct (fill_string_spec h1 o bs (sa_bytes _ _ _ Hb) Hsm Htag Hsz Hf) as (h2 & h3 & h4 & E2 & E3 & E4 & Hs4 & Hfr).
    exists h4, k. rewrite E2. mred. rewrite E3. mred.
    rewrite (input_Ret _ _ bs rest) by (rewrite Hsrc; apply readblock_app; [done|done]). mred. rewrite E4. mred.
    split_and!; try done.
    - etrans; [exact (same_tables_store _ _ _ _ E2)|]. etrans; [exact (same_tables_Store_byte _ _ _ _ _ E3)|].
      exact (same_tables_memcpy _ _ _ _ _ E4).
    - exact (sa_words _ _ _ Hs4).
    - apply (string_words hs v h4 o bs _ k); try done. rewrite (sa_size _ _ _ Hb). f_equal. lia. }
  destruct (Z.eqb_spec tag Double_tag) as [E1|E1].
  { assert (n = 1) as En by by apply (pb_double _ _ Hpl). destruct (pb_flat _ _ Hpl) as [k Ek]; [by rewrite E1|].
    rewrite (read_double_code _ _ _ _ _ _ _ Es). pose proof (new_flat (contents hs v 8 ++ rest) (fill_floats (readfloat CODE_DOUBLE_LITTLE))) as H.
    rewrite En. rewrite E1, En in H. apply H; [done|]. clear H. rewrite En in Ek. intros h1 s1 o Htag Hsz Hf Hsrc.
    destruct (fill_flat hs v h1 o 1 k Ek Hw Hf) as (h3 & E3 & Ek3 & Hfr). exists h3, k. unfold fill_floats.
    rewrite (input_Ret _ _ (contents hs v 8) rest) by (rewrite Hsrc; by apply readfloat_app). mred.
    change (8 * Z.of_nat 1) with 8 in E3. rewrite E3. mred.
    split_and!; try done; [by eapply same_tables_memcpy|].
    apply (load_fields_ok _ _ _ _ Ek3). by eapply load_words_is_word. }
  destruct (Z.eqb_spec tag Double_array_tag) as [E2|E2].
  { destruct (pb_flat _ _ Hpl) as [k Ek]; [by rewrite E2|]. pose proof (pb_doubles _ _ Hpl E2).
    destruct (read_doubles_code fun_name h s sp d n _ rest ltac:(lia) Es) as (code & Hcode & ->).
    pose proof (new_flat (contents hs v (n * 8) ++ rest) (fill_floats (readfloats n code))) as H'.
    rewrite E2 in H'. apply H'; [done|]. clear H'. intros h1 s1 o Htag Hsz Hf Hsrc.
    destruct (fill_flat hs v h1 o (Z.to_nat n) k Ek Hw) as (h3 & E3 & Ek3 & Hfr); [by rewrite Z2Nat.id by lia|].
    rewrite Z2Nat.id in E3, Hfr by lia. exists h3, k. unfold fill_floats.
    pose proof (contents_len hs v (n * 8) ltac:(lia)) as Hcl. unfold str_len in Hcl.
    rewrite (input_Ret _ _ (contents hs v (n * 8)) rest) by (rewrite Hsrc; apply readfloats_app; [lia|done|done]). mred.
    rewrite Z.mul_comm, E3. mred. split_and!; try done; [by eapply same_tables_memcpy|].
    pose proof (load_fields_ok _ _ _ _ Ek3 (load_words_is_word _ _ _ _ Hw Ek)) as Hf3. by rewrite Z2Nat.id in Hf3 by lia. }
  rewrite (read_header fun_name h s sp d n tag rest ltac:(lia) ltac:(lia) Es).
  apply new_block; [|done]. destruct (Z.lt_ge_cases tag No_scan_tag) as [|Hge]; [done|exfalso].
  pose proof (plain_tag hs v Abstract_tag Hpl ltac:(set_solver)). pose proof (plain_tag hs v Custom_tag Hpl ltac:(set_solver)).
  unfold No_scan_tag, Abstract_tag, Custom_tag, String_tag, Double_tag, Double_array_tag in *. lia.
Qed.
End New.

Lemma value_item h s sp d rest y : read_value fun_name h s sp d = Ret (h, set_src rest s, sp, Some y) ->
  writable_dest h s d ->
  exists h2 s2, read_item h s sp d = Ret (h2, s2, sp) /\ stepped h s d y h2 s2 /\
    s2 = set_res (intern_res s2) (set_src rest s) /\ forall k, storage h s k -> storage h2 s2 k.
Proof.
  intros E Hd. unfold read_item. rewrite E. mred.
  destruct (store_step h (set_src rest s) d y Hd) as (h2 & s2 & -> & Hst & Hs & Hsto). mred.
  exists h2, s2. split_and!; try done. destruct Hst. by split.
Qed.

Lemma leaf_item hs h0 h s sp d v f rest : classify hs v = Leaf -> is_word v -> same_tables h0 h -> writable_dest h s d ->
  intern_src s = enc hs (AtLeaf v) ++ rest ->
  exists h2 s2 y, read_item h s sp d = Ret (h2, s2, sp) /\ stepped h s d y h2 s2 /\ copy hs h0 f v y /\
    s2 = set_res (intern_res s2) (set_src rest s) /\ forall k, storage h s k -> storage h2 s2 k.
Proof.
  intros Hc Hw Ht Hd Es. unfold enc in Es. destruct (Is_long v) eqn:El.
  - destruct (value_item h s sp d rest v) as (h2 & s2 & H); [|done|].
    + rewrite (read_int _ _ _ _ _ _ _ (Long_val_is_int v Hw) Es). by rewrite Val_Long_val.
    + exists h2, s2, v. destruct H as (? & ? & ? & ?). split_and!; try done. by constructor.
  - assert (0 <= tag_of hs v < 256) as Htag.
    { unfold classify in Hc. rewrite El in Hc. destruct (Hd_val hs v) as [hd| | | |] eqn:Eh; try done.
      destruct (head_values hs v hd Eh) as (-> & _ & ? & _). lia. }
    destruct (value_item h s sp d rest (Atom h (tag_of hs v))) as (h2 & s2 & H); [|done|].
    + by rewrite (read_atom _ _ _ _ _ _ _ Htag Es).
    + exists h2, s2, (Atom h (tag_of hs v)). destruct H as (? & ? & ? & ?). split_and!; try done.
      replace (Atom h (tag_of hs v)) with (Atom h0 (tag_of hs v)); [by constructor|].
      unfold Atom. by rewrite Ht.
Qed.

Lemma seen_item hs h0 h s sp d v l p m m' f rest : classify hs v = Node l -> linked s m m' f -> m !! v = Some p -> numbered m ->
  (0 < size m')%nat -> Z.of_nat (size m) < 2 ^ 54 -> writable_dest h s d ->
  intern_src s = enc hs (Seen v (Z.of_nat (size m) - p)) ++ rest ->
  exists h2 s2 y, read_item h s sp d = Ret (h2, s2, sp) /\ stepped h s d y h2 s2 /\ copy hs h0 f v y /\
    s2 = set_res (intern_res s2) (set_src rest s) /\ forall k, storage h s k -> storage h2 s2 k.
Proof.
  intros Hc Hlk Hm Hnum Hpos Hsz Hd Es. destruct (lk_table _ _ _ _ Hlk Hpos) as (En & _ & t & Et & Hlink).
  destruct (Hlink v p Hm) as (o & Hf & Ho). pose proof (Hnum _ _ Hm).
  destruct (value_item h s sp d rest o) as (h2 & s2 & H'); [|done|].
  - apply (read_seen fun_name h s sp d (Z.of_nat (size m) - p) t o rest); try done; try lia.
    + apply (lk_compressed _ _ _ _ Hlk).
    + rewrite En. by replace (Z.of_nat (size m) - (Z.of_nat (size m) - p)) with p by lia.
  - exists h2, s2, o. destruct H' as (? & ? & ? & ?). split_and!; try done. by eapply copy_block.
Qed.

Lemma redirect_word hs v v' : words_ok hs -> classify hs v = Redirect v' -> is_word v'.
Proof.
  intros Hw Hc. unfold classify in Hc. destruct (Is_long v); [done|]. destruct (Hd_val hs v) as [hd| | | |]; try done.
  destruct (short_circuit hs v (Tag_hd hd)) as [[g|]| | | |] eqn:E; try done.
  2:{ destruct (_ =? 0); [done|]. destruct (_ <? _); [|done]. by destruct (load_words _ _ _). }
  injection Hc as ->. unfold short_circuit in E. destruct (_ =? Forward_tag); [|done].
  apply bind_Ret_inv in E as (w & Ew & E). assert (w = v') as ->.
  { destruct (Is_block w); [|by injection E]. apply bind_Ret_inv in E as (t & _ & E). destruct (_ || _); [done|by injection E]. }
  unfold Forward_val, Field, load in Ew. destruct (words hs !! _) eqn:El; [|done]. injection Ew as <-. by eapply Hw.
Qed.

Lemma node_words hs v l : words_ok hs -> classify hs v = Node l -> Forall is_word l.
Proof.
  intros Hw Hc. destruct (node_inv hs v l Hc) as (_ & hd & _ & _ & _ & [[_ El]|[_ ->]]); [|done].
  by eapply load_words_is_word.
Qed.

(** ** The unmarshaling loop *)

(** The state of the loop: destinations [D] wait for the values [W]. *)
Record loop_ready (hs h0 h : heap) (s : intern_state) (sp : list intern_item) (D : list destination) (W : list Z)
    (es : list event) (m m' f : gmap Z Z) (rest : list Z) : Prop := {
  lr_dests : dests sp = D;
  lr_reads : reads_only sp;
  lr_length : length D = length W;
  lr_distinct : NoDup D;
  lr_writable : Forall (writable_dest h s) D;
  lr_linked : linked s m m' f;
  lr_storage : storage h s (total_words hs (news es));
  lr_taken : forall b c, f !! b = Some c -> ~ avail h s c;
  lr_src : intern_src s = encoding hs es ++ rest;
  lr_tables : same_tables h0 h;
  lr_depth : zlength sp + zlength (news es) < 2 ^ 26 - 1;
}.

Definition loop_outcome (hs h0 h : heap) (s : intern_state) (sp : list intern_item) (D : list destination) (W : list Z)
    (m' f : gmap Z Z) (rest : list Z) : Prop :=
  exists r n0, (forall n, (n0 <= n)%nat -> intern_loop n fun_name h s sp = r) /\
    match r with
    | Ret (h', s') => exists f', rebuilt hs h0 h s D W f m' rest h' s' f'
    | Raise e => e = Out_of_memory
    | _ => False
    end.

(** One round, then the rest of the loop. *)
Lemma loop_round h s sp d D (Q : result (heap * intern_state) -> Prop) : reads_only sp -> dests sp = d :: D ->
  exists sp1, dests sp1 = D /\ reads_only sp1 /\ zlength sp1 <= zlength sp /\
    ((exists e, read_item h s sp1 d = Raise e /\ Q (Raise e)) \/
     (exists h2 s2 sp2, read_item h s sp1 d = Ret (h2, s2, sp2) /\
       exists r n0, (forall n, (n0 <= n)%nat -> intern_loop n fun_name h2 s2 sp2 = r) /\ Q r) ->
     exists r n0, (forall n, (n0 <= n)%nat -> intern_loop n fun_name h s sp = r) /\ Q r).
Proof.
  intros Hr Hd. destruct (dests_cons sp d D Hr Hd) as (it & sp0 & sp1 & -> & HD & Hr1 & Hl & E).
  exists sp1. split_and!; try done. intros [(e & Er & HQ)|(h2 & s2 & sp2 & Er & r & n0 & Hn & HQ)].
  - exists (Raise e), 1%nat. split; [|done]. intros [|n] Hn; [lia|]. cbn [intern_loop]. rewrite E. fold (read_item h s sp1 d). by rewrite Er.
  - exists r, (S n0). split; [|done]. intros [|n] Hn'; [lia|]. cbn [intern_loop]. rewrite E. fold (read_item h s sp1 d).
    rewrite Er. mred. apply Hn. lia.
Qed.

Lemma linked_kept s s2 m m' f l : linked s m m' f -> s2 = set_res (intern_res s2) (set_src l s) -> linked s2 m m' f.
Proof. intros H ->. by apply linked_res, linked_src. Qed.

Lemma value_ready hs h0 h s sp d D v W e es m m' f rest sp1 y h2 s2 :
  loop_ready hs h0 h s sp (d :: D) (v :: W) (e :: es) m m' f rest -> news (e :: es) = news es ->
  dests sp1 = D -> reads_only sp1 -> zlength sp1 <= zlength sp ->
  stepped h s d y h2 s2 -> s2 = set_res (intern_res s2) (set_src (encoding hs es ++ rest) s) ->
  (forall k, storage h s k -> storage h2 s2 k) ->
  loop_ready hs h0 h2 s2 sp1 D W es m m' f rest.
Proof.
  intros [Hd Hr Hl Hn Hw Hlk Hst Ht Hs Htab Hdep] En E1 Hr1 Hl1 Hstep Hs2 Hsto. rewrite En in *.
  apply list.NoDup_cons in Hn as [HdD Hn]. inversion Hw as [|? ? Hwd HwD]; subst x l. split; try done; auto.
  - by eapply stepped_writable.
  - by eapply linked_kept.
  - intros b c Hb Ha. apply (Ht b c Hb), (sp_mono _ _ _ _ _ _ Hstep), Ha.
  - rewrite Hs2. done.
  - etrans; [exact Htab|apply (sp_tables _ _ _ _ _ _ Hstep)].
  - lia.
Qed.

Lemma block_ready hs h0 h s sp d D v W l es m m' f rest sp1 h2 s2 sp2 o :
  loop_ready hs h0 h s sp (d :: D) (v :: W) (New v :: es) m m' f rest -> f !! v = None ->
  dests sp1 = D -> zlength sp1 <= zlength sp ->
  stepped h s d o h2 s2 -> block_begun hs h s h2 s2 v o l -> reads_only sp2 ->
  dests sp2 = field_dests o (length l) ++ dests sp1 -> zlength sp2 <= zlength sp1 + 1 ->
  linked s2 (<[v := Z.of_nat (size m)]> m) m' (<[v := o]> f) ->
  storage h2 s2 (total_words hs (news es)) -> intern_src s2 = encoding hs es ++ rest ->
  loop_ready hs h0 h2 s2 sp2 (field_dests o (length l) ++ D) (l ++ W) es (<[v := Z.of_nat (size m)]> m) m' (<[v := o]> f) rest.
Proof.
  intros [Hd Hr Hl Hn Hw Hlk Hst Ht Hs Htab Hdep] Hfv E1 Hl1 Hstep Hb Hr2 Hd2 Hl2 Hlk2 Hst2 Hsrc.
  pose proof (begun_length _ _ _ _ _ _ _ _ Hb) as Hlen. pose proof (bb_fields _ _ _ _ _ _ _ _ Hb) as Hfo. pose proof (bb_positive _ _ _ _ _ _ _ _ Hb) as Hpos.
  rewrite news_new in Hdep. cbn [length] in Hdep. apply list.NoDup_cons in Hn as [HdD Hn]. inversion Hw as [|? ? Hwd HwD]; subst x l0.
  split; try done.
  - by rewrite Hd2, E1.
  - cbn in Hl. rewrite !length_app, field_dests_length. lia.
  - apply list.NoDup_app. split; [apply field_dests_NoDup|]. split; [|done]. intros d' Hin HD.
    apply field_dests_elem in Hin as (i & Hi & ->). rewrite Forall_forall in HwD. apply list_elem_of_In in HD.
    destruct (HwD _ HD) as [Hset _]. apply Hset, (bb_avail _ _ _ _ _ _ _ _ Hb). lia.
  - apply Forall_app. split; [|by eapply stepped_writable]. apply Forall_forall. intros d' Hin.
    apply list_elem_of_In, field_dests_elem in Hin as (i & Hi & ->). split; [apply (bb_taken _ _ _ _ _ _ _ _ Hb); lia|].
    destruct (Hfo i ltac:(lia)) as (w & Hw' & _). by exists w.
  - intros b c. rewrite lookup_insert_Some. intros [[<- <-]|[_ Hb']].
    + replace o with (o + 8 * 0) by lia. apply (bb_taken _ _ _ _ _ _ _ _ Hb). lia.
    + intros Ha. apply (Ht b c Hb'), (sp_mono _ _ _ _ _ _ Hstep), Ha.
  - etrans; [exact Htab|apply (sp_tables _ _ _ _ _ _ Hstep)].
  - lia.
Qed.

Lemma wosize_of_nonneg hs v : 0 <= wosize_of hs v.
Proof. unfold wosize_of. destruct (Wosize_val hs v) eqn:E; try lia. apply Wosize_range in E. lia. Qed.
Lemma total_words_nonneg hs bs : 0 <= total_words hs bs.
Proof. induction bs as [|b bs IH]; cbn; [lia|]. pose proof (wosize_of_nonneg hs b). unfold total_words in IH. lia. Qed.

(** A round that reads a leaf or a block already seen, then the rest. *)
Lemma value_outcome hs h0 h s sp D v W e es m m' f rest :
  loop_ready hs h0 h s sp D (v :: W) (e :: es) m m' f rest -> news (e :: es) = news es ->
  (forall sp1 d, writable_dest h s d -> exists h2 s2 y, read_item h s sp1 d = Ret (h2, s2, sp1) /\ stepped h s d y h2 s2 /\
     copy hs h0 f v y /\ s2 = set_res (intern_res s2) (set_src (encoding hs es ++ rest) s) /\
     forall k, storage h s k -> storage h2 s2 k) ->
  (forall h2 s2 sp1 D1, loop_ready hs h0 h2 s2 sp1 D1 W es m m' f rest -> loop_outcome hs h0 h2 s2 sp1 D1 W m' f rest) ->
  loop_outcome hs h0 h s sp D (v :: W) m' f rest.
Proof.
  intros Hrd En Hitem IH. pose proof Hrd as [Hd Hr Hl Hn Hw _ _ _ _ _ _].
  destruct D as [|d D]; [done|]. apply list.NoDup_cons in Hn as [HdD Hn]. inversion Hw as [|? ? Hwd HwD]; subst.
  destruct (loop_round h s sp d D (fun r => match r with Ret (h', s') => exists f', rebuilt hs h0 h s (d :: D) (v :: W) f m' rest h' s' f'
    | Raise e => e = Out_of_memory | _ => False end) Hr Hd) as (sp1 & Hd1 & Hr1 & Hl1 & Hround). apply Hround. right. clear Hround.
  destruct (Hitem sp1 d Hwd) as (h2 & s2 & y & E & Hstep & Hcp & Hs2 & Hsto). exists h2, s2, sp1. split; [done|].
  destruct (IH h2 s2 sp1 D) as (r & n0 & Er & Hout); [by eapply value_ready|].
  exists r, n0. split; [done|]. destruct r as [[h' s']| | | |]; try done. destruct Hout as [f' Hrb]. exists f'.
  eapply rebuilt_value; try done. apply Hwd.
Qed.

Lemma intern_loop_trace hs h0 m W es m' : words_ok hs -> trace (classify hs) m W es m' -> numbered m ->
  (forall b, b ∈ news es -> plain_block hs b) -> Z.of_nat (size m') < 2 ^ 54 -> Forall is_word W ->
  forall h s sp D f rest, loop_ready hs h0 h s sp D W es m m' f rest -> loop_outcome hs h0 h s sp D W m' f rest.
Proof.
  intros Hwok.
  induction 1 as [m|m v W es m' Hc Ht IH|m v v' W es m' Hc Ht IH|m v l p W es m' Hc Hm Ht IH|m v l W es m' Hc Hm Ht IH];
    intros Hnum Hpl Hsz HW h s sp D f rest Hrd.
  - destruct Hrd as [Hd Hr Hl Hn Hw Hlk Hst Htk Hs Htab Hdep]. destruct D as [|d D]; [|done].
    destruct sp as [|it sp].
    2:{ inversion Hr as [|? ? [_ Ha] _]; subst. unfold dests in Hd. cbn in Hd. destruct (Z.to_nat (arg it)) eqn:E; [lia|done]. }
    eexists _, 0%nat. split; [intros [|n] _; reflexivity|]. exists f. split; try done.
    + apply (lk_dom _ _ _ _ Hlk).
    + intros b c Hb Hb'. congruence.
    + intros b1 b2 c H1 _ H2. congruence.
  - inversion HW as [|? ? Hv HW']; subst. pose proof (lr_src _ _ _ _ _ _ _ _ _ _ _ _ Hrd) as Hs.
    rewrite encoding_cons, <- app_assoc in Hs. eapply value_outcome; [done|done| |].
    + intros sp1 d Hwd. by apply leaf_item; [..|apply (lr_tables _ _ _ _ _ _ _ _ _ _ _ _ Hrd)| |].
    + intros h2 s2 sp1 D1. by apply IH.
  - inversion HW as [|? ? Hv HW']; subst.
    destruct (IH Hnum Hpl Hsz) with (h := h) (s := s) (sp := sp) (D := D) (f := f) (rest := rest) as (r & n0 & En & Hout).
    { constructor; [by eapply redirect_word|done]. } { by destruct Hrd. }
    exists r, n0. split; [done|]. destruct r as [[h' s']|e| | |]; try done. destruct Hout as [f' Hrb]. exists f'.
    by eapply rebuilt_redirect.
  - inversion HW as [|? ? Hv HW']; subst. pose proof Hrd as [_ _ _ _ _ Hlk _ _ Hs _ _].
    assert (size m <= size m')%nat by (apply map_subseteq_size; by eapply trace_mono). pose proof (Hnum _ _ Hm).
    rewrite encoding_cons, <- app_assoc in Hs. eapply value_outcome; [done|done| |].
    + intros sp1 d Hwd. by apply (seen_item hs h0 h s sp1 d v l p m m' f); try done; lia.
    + intros h2 s2 sp1 D1. by apply IH.
  - inversion HW as [|? ? Hv HW']; subst. pose proof Hrd as [Hd Hr Hl Hn Hw Hlk Hst Htk Hs Htab Hdep].
    destruct D as [|d D]; [done|]. apply list.NoDup_cons in Hn as [HdD Hn]. inversion Hw as [|? ? Hwd HwD]; subst.
    destruct (loop_round h s sp d D (fun r => match r with Ret (h', s') => exists f', rebuilt hs h0 h s (d :: D) (v :: W) f m' rest h' s' f'
      | Raise e => e = Out_of_memory | _ => False end) Hr Hd) as (sp1 & Hd1 & Hr1 & Hl1 & Hround). apply Hround. clear Hround.
    assert (size m < size m')%nat as Hlt.
    { eapply Nat.lt_le_trans; [|apply map_subseteq_size; by eapply trace_mono]. rewrite map_size_insert_None by done. lia. }
    rewrite news_new in *. cbn [total_words foldr] in Hst. fold (total_words hs (news es)) in Hst. cbn [length] in Hdep.
    pose proof (total_words_nonneg hs (news es)). rewrite encoding_cons, <- app_assoc in Hs.
    pose proof (new_item hs h s sp1 d v l m m' f (encoding hs es ++ rest) _ Hwok (Hpl v ltac:(constructor)) Hc Hlk Hnum Hm Hlt Hst ltac:(lia) Hwd Hr1 ltac:(lia) Hs) as Hnew.
    destruct (read_item h s sp1 d) as [[[h2 s2] sp2]|e| | |]; try done; [|by left; exists e].
    destruct Hnew as (o & Hstep & Hb & Hr2 & Hd2 & Hl2 & Hlk2 & Hst2 & Hsrc2). right. exists h2, s2, sp2. split; [done|].
    replace (1 + wosize_of hs v + total_words hs (news es) - (1 + wosize_of hs v)) with (total_words hs (news es)) in Hst2 by lia.
    assert (f !! v = None) as Hfv by (apply not_elem_of_dom; rewrite (lk_dom _ _ _ _ Hlk); by apply not_elem_of_dom).
    destruct (IH (numbered_insert _ _ Hnum Hm)) with (h := h2) (s := s2) (sp := sp2) (D := field_dests o (length l) ++ D)
      (f := <[v := o]> f) (rest := rest) as (r & n0 & En & Hout); try done.
    { intros b Hb'. apply Hpl. by constructor. } { apply Forall_app. split; [by eapply node_words|done]. }
    { by eapply block_ready. }
    exists r, n0. split; [done|]. destruct r as [[h' s']|e| | |]; try done. destruct Hout as [f' Hrb]. exists f'.
    by eapply rebuilt_block.
Qed.
End Rebuild.
End InternProps.
