(* ===== verification/Marshal.v ===== *)
(** * Marshaling and unmarshaling together

    What [caml_output_value] writes, [caml_input_value] reads back: the copy
    has the shape of the original, sharing and cycles included, and fits
    exactly the memory announced by the header. *)

From S2P Require Import Prelude Memory Ints Strings Arrays PosTable Extern Traverse ExternProps Intern InternProps.
Import PosTable Extern Traverse ExternProps Intern InternProps.

Module Marshal.

(** ** The header *)

Definition big_header (len n32 n64 : Z) : bool := (2 ^ 32 <=? len) || (2 ^ 32 <=? n32) || (2 ^ 32 <=? n64).
Definition header_bytes (len n n32 n64 : Z) : list Z :=
  if big_header len n32 n64
  then store32 Intext_magic_number_big ++ store32 0 ++ store64 len ++ store64 n ++ store64 n64
  else store32 Intext_magic_number_small ++ store32 len ++ store32 n ++ store32 n32 ++ store32 n64.

Lemma header_length len n n32 n64 : zlength (header_bytes len n n32 n64) = if big_header len n32 n64 then 32 else 20.
Proof. unfold header_bytes. by destruct (big_header _ _ _). Qed.

Lemma input32_store s n l : intern_src s = store32 n ++ l -> input read32u s = Ret (u32 n, set_src l s).
Proof. intros E. apply input_Ret. rewrite E. apply read32u_store. Qed.
Lemma input64_store s n l : intern_src s = store64 n ++ l -> input read64u s = Ret (u64 n, set_src l s).
Proof. intros E. apply input_Ret. rewrite E. apply read64u_store. Qed.

Lemma parse_header fun_name s len n n32 n64 rest : 0 <= len < 2 ^ 64 -> 0 <= n < 2 ^ 32 -> 0 <= n64 < 2 ^ 64 ->
  intern_src s = header_bytes len n n32 n64 ++ rest ->
  exists magic, caml_parse_header fun_name s =
    Ret (mkHeader magic (zlength (header_bytes len n n32 n64)) len len n n64 false, set_src rest s).
Proof.
  intros Hl Hn H64. rewrite header_length. unfold header_bytes, big_header.
  destruct (_ || _) eqn:Eb; intros Es; rewrite <- !app_assoc in Es; unfold caml_parse_header.
  - rewrite (input32_store _ _ _ Es). mred. change (u32 Intext_magic_number_big =? Intext_magic_number_small) with false.
    change (u32 Intext_magic_number_big =? Intext_magic_number_big) with true. cbn beta iota.
    rewrite (input32_store _ 0 (store64 len ++ store64 n ++ store64 n64 ++ rest)) by done. mred.
    rewrite (input64_store _ len (store64 n ++ store64 n64 ++ rest)) by done. mred.
    rewrite (input64_store _ n (store64 n64 ++ rest)) by done. mred.
    rewrite (input64_store _ n64 rest) by done. mred.
    rewrite (wrap_small 64 len), (wrap_small 64 n), (wrap_small 64 n64) by lia. eexists. reflexivity.
  - apply orb_false_iff in Eb as [Eb E64]. apply orb_false_iff in Eb as [El E32].
    rewrite (input32_store _ _ _ Es). mred. change (u32 Intext_magic_number_small =? Intext_magic_number_small) with true. cbn beta iota.
    rewrite (input32_store _ len (store32 n ++ store32 n32 ++ store32 n64 ++ rest)) by done. mred.
    rewrite (input32_store _ n (store32 n32 ++ store32 n64 ++ rest)) by done. mred.
    rewrite (input32_store _ n32 (store32 n64 ++ rest)) by done. mred.
    rewrite (input32_store _ n64 rest) by done. mred.
    rewrite (wrap_small 32 len), (wrap_small 32 n), (wrap_small 32 n64) by lia. eexists. reflexivity.
Qed.

(** ** The size of an encoding *)

Lemma enc_int_length n : zlength (enc_int n) <= 9.
Proof. unfold enc_int. repeat destruct (_ && _); repeat destruct (_ || _); cbn; lia. Qed.
Lemma enc_shared_length d : zlength (enc_shared d) <= 9.
Proof. unfold enc_shared. repeat destruct (_ <? _); repeat destruct (_ <=? _); cbn; lia. Qed.
Lemma enc_header_length sz tag : zlength (enc_header sz tag) <= 9.
Proof. unfold enc_header. cbv zeta. destruct (_ && _); [cbn; lia|]. destruct (_ <? _); cbn; lia. Qed.
Lemma enc_string_length bs : zlength (enc_string bs) <= 9 + str_len bs.
Proof.
  unfold enc_string. rewrite length_app, Nat2Z.inj_add. fold (str_len bs).
  assert (forall l : list Z, zlength l <= 9 -> zlength l + str_len bs <= 9 + str_len bs) as H by (intros; lia). apply H.
  destruct (_ <? 0x20); [cbn; lia|]. destruct (_ <? 0x100); [cbn; lia|]. destruct (_ <? _); cbn; lia.
Qed.
Lemma enc_doubles_length n bs : zlength (enc_double_array n bs) <= 9 + zlength bs.
Proof.
  unfold enc_double_array. rewrite length_app, Nat2Z.inj_add.
  assert (forall l : list Z, zlength l <= 9 -> zlength l + zlength bs <= 9 + zlength bs) as H by (intros; lia). apply H.
  destruct (_ <? 0x100); [cbn; lia|]. destruct (_ <? _); cbn; lia.
Qed.

Lemma enc_new_length h v : plain_block h v -> zlength (enc h (New v)) <= 9 + 8 * wosize_of h v.
Proof.
  intros Hp. pose proof (wosize_of_nonneg h v). unfold enc. destruct (Z.eqb_spec (tag_of h v) String_tag) as [E|_].
  { destruct (pb_string _ _ Hp E) as [bs Hb]. destruct (string_contents h v bs Hb) as [-> ->].
    pose proof (enc_string_length bs). pose proof (str_wosize_bounds (str_len bs) ltac:(apply str_len_nonneg)).
    assert (wosize_of h v = str_wosize (str_len bs)) as -> by (unfold wosize_of; by rewrite (sa_size _ _ _ Hb)). lia. }
  destruct (Z.eqb_spec (tag_of h v) Double_tag) as [E|_].
  { pose proof (contents_len h v 8 ltac:(lia)) as Hc. unfold str_len in Hc. rewrite (pb_double _ _ Hp E). unfold enc_double. cbn [length]. lia. }
  destruct (_ =? Double_array_tag).
  { pose proof (enc_doubles_length (wosize_of h v) (contents h v (wosize_of h v * 8))).
    pose proof (contents_len h v (wosize_of h v * 8) ltac:(lia)) as Hc. unfold str_len in Hc. lia. }
  pose proof (enc_header_length (wosize_of h v) (tag_of h v)). lia.
Qed.

Lemma node_length h v l : classify h v = Node l -> zlength l <= wosize_of h v.
Proof.
  intros Hc. destruct (node_inv h v l Hc) as (_ & hd & Eh & _ & Hp & Hl). destruct (head_values h v hd Eh) as (_ & -> & _ & _).
  destruct Hl as [[_ El]|[_ ->]]; [|cbn; lia]. apply load_words_spec in El as [-> _]. lia.
Qed.

Lemma encoding_length h m W es m' : trace (classify h) m W es m' -> (forall b, b ∈ news es -> plain_block h b) ->
  zlength (encoding h es) <= 9 * zlength W + 18 * total_words h (news es).
Proof.
  induction 1 as [m|m v W es m' Hc Ht IH|m v v' W es m' Hc Ht IH|m v l p W es m' Hc Hm Ht IH|m v l W es m' Hc Hm Ht IH]; intros Hpl.
  - cbn. lia.
  - change (news (AtLeaf v :: es)) with (news es) in *. rewrite encoding_cons, length_app, Nat2Z.inj_add.
    specialize (IH Hpl). cbn [enc length]. destruct (Is_long v); [pose proof (enc_int_length (Long_val v))|pose proof (enc_header_length 0 (tag_of h v))]; lia.
  - by apply IH.
  - change (news (Seen v (Z.of_nat (size m) - p) :: es)) with (news es) in *. rewrite encoding_cons, length_app, Nat2Z.inj_add.
    specialize (IH Hpl). cbn [enc length]. pose proof (enc_shared_length (Z.of_nat (size m) - p)). lia.
  - rewrite news_new in *. rewrite encoding_cons, length_app, Nat2Z.inj_add.
    specialize (IH ltac:(intros b Hb; apply Hpl; by constructor)). rewrite length_app in IH.
    pose proof (enc_new_length h v ltac:(apply Hpl; constructor)). pose proof (node_length h v l Hc).
    cbn [total_words foldr length]. fold (total_words h (news es)). lia.
Qed.

(** ** Marshaling *)
Section Output.
Context {EE : ExternEnv}.
Hypothesis memory : forall n, stat_alloc n = true.

Lemma write_header_plain s m l n : ready s m -> output_bytes s = l -> size_64 s = n -> 
  write_header s = Ret (s, header_bytes (zlength l) (Z.of_nat (size m)) (size_32 s) n).
Proof.
  intros Hr <- <-. destruct (ready_flags _ _ Hr) as (_ & _ & Hc). unfold write_header. rewrite Hc.
  change (extern_output_length s) with (zlength (output_bytes s)). rewrite (r_counter _ _ (r_track _ _ Hr)).
  unfold header_bytes, big_header. destruct (_ || _); [|done].
  replace (has_flag s COMPAT_32) with false; [done|]. unfold has_flag. by destruct (r_flags _ _ (r_track _ _ Hr)) as [-> | ->].
Qed.

Lemma extern_value_plain h s v es m' : trace (classify h) ∅ [v] es m' ->
  (forall b, b ∈ news es -> plain_block h b) -> zlength (news es) < 2 ^ 26 - 1 -> total_words h (news es) < 2 ^ 64 ->
  extern_user s = false -> output_bytes s = [] -> extern_stack_size s = EXTERN_STACK_INIT_SIZE ->
  exists s' n32 n0, output_bytes s' = encoding h es /\ forall n, (n0 <= n)%nat -> extern_value n h s v Val_emptylist =
    Ret (s', header_bytes (zlength (encoding h es)) (Z.of_nat (size m')) n32 (total_words h (news es))).
Proof.
  intros Ht Hpl Hd Hw Hu Ho Hst. pose proof (total_words_nonneg h (news es)).
  set (s0 := set_sizes 0 0 (set_obj_counter 0 (set_flags 0 s))).
  destruct (extern_rec_trace memory h s0 v es m' Ht Hpl Hd Hu (or_introl eq_refl) eq_refl ltac:(cbn; lia) Hst) as (s' & n0 & E & Ha & Hn & Hr).
  assert (output_bytes s' = encoding h es) as Hout by (rewrite Ha; change (output_bytes s0) with (output_bytes s); by rewrite Ho).
  assert (size_64 s' = total_words h (news es)) as Hsz.
  { unfold eqm in Hn. rewrite (wrap_small 64 (size_64 s')), wrap_small in Hn; [done|cbn; lia|apply (r_size _ _ Hr)]. }
  exists s', (size_32 s'), (S n0). split; [done|]. intros [|n] Hle; [lia|]. unfold extern_value.
  change (caml_convert_flag_list (S n) h Val_emptylist extern_flag_values 0) with (Ret 0 : result Z). mred.
  replace (if _ : bool then 0 else _) with 0 by (by destruct (_ && _)). fold s0. rewrite E by lia. mred. by apply write_header_plain.
Qed.

Lemma output_malloc_plain h s v es m' : trace (classify h) ∅ [v] es m' ->
  (forall b, b ∈ news es -> plain_block h b) -> zlength (news es) < 2 ^ 26 - 1 -> total_words h (news es) < 2 ^ 64 ->
  extern_stack_size s = EXTERN_STACK_INIT_SIZE ->
  exists n32 n0, forall n, (n0 <= n)%nat -> caml_output_value_to_malloc n h s v Val_emptylist =
    Ret (header_bytes (zlength (encoding h es)) (Z.of_nat (size m')) n32 (total_words h (news es)) ++ encoding h es).
Proof.
  intros Ht Hpl Hd Hw Hst. 
  destruct (extern_value_plain h (set_output false [] [] SIZE_EXTERN_OUTPUT_BLOCK s) v es m') as (s' & n32 & n0 & Ho & E); try done.
  exists n32, n0. intros n Hn. unfold caml_output_value_to_malloc, init_extern_output. rewrite memory. mred. rewrite E by done. mred.
  by rewrite memory, Ho.
Qed.
End Output.

(** ** Unmarshaling *)

(** [v'] in [h'] is a copy of the value [v] of [hs]: [f] gives the fresh copy
    of every block reachable from [v], distinct blocks have distinct copies,
    and the words of [h] are unchanged. *)
Definition copied_graph (hs : heap) (v : Z) (h h' : heap) (v' : Z) : Prop :=
  exists f : gmap Z Z, (forall b, b ∈ dom f <-> reach (classify hs) v b) /\ copy hs h' f v v' /\
    (forall b o, f !! b = Some o -> copied hs h' h' f b o /\ o mod 8 = 0 /\ words h !! o = None) /\
    (forall b1 b2 o, f !! b1 = Some o -> f !! b2 = Some o -> b1 = b2) /\ words h ⊆ words h'.

(** Unmarshaling yields a copy, runs out of memory, or has to run the garbage
    collector first. *)
Definition read_back (hs : heap) (v : Z) (h : heap) (r : result (Z * heap * intern_state)) : Prop :=
  match r with
  | Ret (v', h', _) => copied_graph hs v h h' v'
  | Raise e => e = Out_of_memory
  | Pending => True
  | _ => False
  end.

(** No unmarshaling is under way. *)
Definition idle (s : intern_state) : Prop := intern_dest s = None /\ intern_stack_size s = INTERN_STACK_INIT_SIZE.

Section Input.
Context `{SH : SharedHeap, !SharedHeapOk SH} {IE : InternEnv} (fun_name : string).
Hypothesis memory : forall n, in_stat_alloc n = true.

(** After [intern_alloc_storage]. *)
Record storage_ready (h : heap) (s : intern_state) (n objects : Z) (h1 : heap) (s1 : intern_state) (limit : Z) : Prop := {
  st_storage : storage limit h1 s1 n;
  st_words : words h ⊆ words h1;
  st_atoms : atoms h1 = atoms h;
  st_taken : forall a w, words h !! a = Some w -> ~ avail limit h1 s1 a;
  st_free : forall a, a mod 8 = 0 -> avail limit h1 s1 a -> words h !! a = None;
  st_src : intern_src s1 = intern_src s;
  st_compressed : compressed s1 = compressed s;
  st_stack : intern_stack_size s1 = intern_stack_size s;
  st_table : 0 < objects -> intern_counter s1 = 0 /\ table_len s1 = objects /\ intern_obj_table s1 = Some ∅;
}.

Lemma storage_table h s n objects d h1 limit : intern_stack_size s = INTERN_STACK_INIT_SIZE ->
  storage_ready h s n 0 h1 (set_dest d s) limit ->
  exists s1, (if 0 <? objects then
    if in_stat_alloc (objects * 8) then Ret (h1, set_table 0 (Some ∅) objects (set_dest d s)) else Raise Out_of_memory
    else Ret (h1, set_table 0 (intern_obj_table (set_dest d s)) (table_len (set_dest d s)) (set_dest d s))) = Ret (h1, s1) /\
    storage_ready h s n objects h1 s1 limit.
Proof.
  intros Hst [? ? ? ? ? ? ? ? _]. rewrite memory.
  destruct (Z.ltb_spec 0 objects); eexists; (split; [reflexivity|]); split; try done. intros; lia.
Qed.

Lemma minor_storage h s n v h1 : heap_ok h -> 0 < n <= Max_young_wosize -> Alloc_small h n String_tag = Ret (v, h1) ->
  storage_ready h s (1 + n) 0 h1 (set_dest (Some (v - 8)) s) (v + 8 * n).
Proof.
  intros Hok Hn E. destruct (Alloc_small_fresh h n String_tag v h1 Hok ltac:(unfold Max_young_wosize in *; lia) ltac:(done) E)
    as [Hal _ Hfree _ _ Hmap Hfr].
  unfold Alloc_small in E. destruct (caml_check_gc_interrupt _) eqn:Hi; [done|]. injection E as Ev Eh.
  unfold caml_check_gc_interrupt, Bsize_wsize, Whsize_wosize in *. cbn in Hi, Ev. apply Z.ltb_ge in Hi.
  assert (Hnone : forall a, v - 8 <= a < v + 8 * n -> words h !! a = None).
  { intros a Ha. pose proof (ok_limit _ Hok). apply (ok_free _ Hok). lia. }
  split; try done; cbn.
  - split; [rewrite Zminus_mod, Hal; done|]. split; [lia|]. intros i Hr.
    destruct (decide (i = 0)) as [->|Hne].
    + eexists. split; [|apply (swrap_range 64); lia]. unfold load. rewrite <- Eh. cbn.
      rewrite <- Ev, Z.add_0_r, Z.add_simpl_r, lookup_insert_eq. done.
    + destruct (Hmap (i - 1) ltac:(lia)) as (w & Hw & Hww). exists w. split; [|done].
      unfold Field in Hw. by replace (v - 8 + 8 * i) with (v + 8 * (i - 1)) by lia.
  - apply map_subseteq_spec. intros a w Ha. rewrite Hfr; [done|]. intros i Hr ->. rewrite Hfree in Ha by lia. done.
  - by rewrite <- Eh.
  - intros a w Ha Hr. by rewrite Hnone in Ha by lia.
  - intros a _ Hr. by apply Hnone.
Qed.

Lemma shared_storage h s n : intern_dest s = None -> storage_ready h s n 0 h (set_dest None s) 0.
Proof. intros Hd. split; try done; cbn. - intros a w Ha Hn. congruence. Qed.

Lemma alloc_storage h s n objects : heap_ok h -> idle s -> n = 0 /\ objects <= 0 \/ 2 <= n ->
  match intern_alloc_storage h s n objects with
  | Ret (h1, s1) => exists limit, storage_ready h s n objects h1 s1 limit
  | Pending => True
  | _ => False
  end.
Proof.
  intros Hok [Hd Hst] Hn. unfold intern_alloc_storage. destruct (Z.eqb_spec n 0) as [->|Hne].
  { exists 0. split; cbn; try done; rewrite ?Hd; try done; [unfold storage; by rewrite Hd| | |lia].
    - intros a w Ha. unfold avail. rewrite Hd. congruence.
    - intros a _. unfold avail. by rewrite Hd. }
  cbv zeta. unfold caml_alloc_small. destruct (Z.leb_spec (n - 1) Max_young_wosize); cbn [andb].
  - rewrite (proj2 (Z.eqb_neq _ _)) by lia. cbn [negb].
    destruct (Alloc_small h (n - 1) String_tag) as [[v h1]| | | |] eqn:E; try done; try (by unfold Alloc_small in E; destruct (caml_check_gc_interrupt _)).
    mred. pose proof (minor_storage h s (n - 1) v h1 Hok ltac:(lia) E) as Hm. replace (1 + (n - 1)) with n in Hm by lia.
    destruct (storage_table h s n objects _ h1 _ Hst Hm) as (s1 & -> & ?). by eexists.
  - mred. pose proof (shared_storage h s n Hd) as Hm. assert (set_dest None s = s) as Es by (destruct s; cbn in Hd; by subst).
    destruct (storage_table h s n objects _ h _ Hst Hm) as (s1 & E & ?). rewrite Es in E. rewrite E. by eexists.
Qed.

Lemma copy_atoms hs h0 h1 f v y : atoms h1 = atoms h0 -> copy hs h0 f v y -> copy hs h1 f v y.
Proof.
  intros Ea. induction 1 as [v Hv|v Hv Hc|v v' y Hc _ IH|v l y Hc Hf]; [by constructor| |by eapply copy_redirect|by eapply copy_block].
  unfold Atom. rewrite <- Ea. by apply (copy_atom hs h1 f).
Qed.
Lemma copied_atoms hs h0 h1 h f v o : atoms h1 = atoms h0 -> copied hs h0 h f v o -> copied hs h1 h f v o.
Proof.
  intros Ea [Ht Hs (l & l' & El & El' & Hl)]. split; try done. exists l, l'. split_and!; try done. destruct (_ <? _); [|done].
  revert Hl. apply Forall2_impl. intros x y. by apply copy_atoms.
Qed.

Lemma initial_ready hs v es m' h s h1 s1 limit rest : storage_ready h s (total_words hs (news es)) (Z.of_nat (size m')) h1 s1 limit ->
  zlength (news es) < 2 ^ 26 - 2 -> compressed s = false -> intern_stack_size s = INTERN_STACK_INIT_SIZE ->
  intern_src s = encoding hs es ++ rest ->
  loop_ready limit hs h1 h1 s1 [mkItem Result 1 OReadItems] [Result] [v] es ∅ m' ∅ rest.
Proof.
  intros [Hsto Hw Ha Htk Hfr Hs Hc Hst Ht] Hd Hcomp Hst0 Hs0. split; try done.
  - by repeat constructor.
  - apply NoDup_singleton.
  - constructor; [|done]. split; [done|]. by eexists.
  - split; [by rewrite !dom_empty_L| |congruence|].
    + intros Hm. destruct (Ht ltac:(lia)) as (-> & -> & ->). split; [done|]. split; [lia|]. exists ∅. split; [done|].
      intros b p Hb. by rewrite lookup_empty in Hb.
    + exists 8. split; [lia|]. by rewrite Hst, Hst0.
  - by rewrite Hs, Hs0.
  - cbn [length]. lia.
Qed.

Lemma rebuilt_graph hs v es m' h s h1 s1 limit rest h' s' f : trace (classify hs) ∅ [v] es m' ->
  storage_ready h s (total_words hs (news es)) (Z.of_nat (size m')) h1 s1 limit ->
  rebuilt limit hs h1 h1 s1 [Result] [v] ∅ m' rest h' s' f -> copied_graph hs v h h' (intern_res s').
Proof.
  intros Ht Hst [_ Hdom Hdst Hnew Hinj Hkeep _ _ Htab]. assert (atoms h' = atoms h1) as Ea by (by rewrite Htab).
  exists f. split_and!.
  - intros b. rewrite Hdom. destruct (trace_news _ _ _ _ _ Ht) as (_ & _ & ->). rewrite dom_empty, (trace_reach _ _ _ _ Ht).
    setoid_rewrite list_elem_of_singleton. split; [intros [Hb|(x & -> & Hr)]; [set_solver|done]|]. intros Hr. right. by exists v.
  - inversion Hdst as [|? ? ? ? (y & Ey & Hy)]; subst. injection Ey as ->. by eapply copy_atoms.
  - intros b o Hb. destruct (Hnew b o Hb (lookup_empty _)) as (Hcp & Hav & Hal). split; [by eapply copied_atoms|].
    split; [done|]. by apply (st_free _ _ _ _ _ _ _ Hst).
  - intros b1 b2 o H1 H2. by eapply Hinj.
  - apply map_subseteq_spec. intros a w Ha. pose proof (st_taken _ _ _ _ _ _ _ Hst a w Ha) as Hn.
    assert (words h1 !! a = Some w) as Ha1 by (eapply lookup_weaken; [done|]; apply (st_words _ _ _ _ _ _ _ Hst)).
    specialize (Hkeep (Word a) w ltac:(set_solver) Hn). cbn in Hkeep. unfold load in Hkeep. rewrite Ha1 in Hkeep.
    specialize (Hkeep eq_refl). destruct (words h' !! a); [|done]. by injection Hkeep as ->.
Qed.

Lemma intern_graph hs v es m' h s h1 s1 limit rest : words_ok hs -> is_word v -> trace (classify hs) ∅ [v] es m' ->
  (forall b, b ∈ news es -> plain_block hs b) -> zlength (news es) < 2 ^ 26 - 2 ->
  storage_ready h s (total_words hs (news es)) (Z.of_nat (size m')) h1 s1 limit ->
  compressed s = false -> intern_stack_size s = INTERN_STACK_INIT_SIZE -> intern_src s = encoding hs es ++ rest ->
  exists r n0, (forall n, (n0 <= n)%nat -> ('(h, s) ← intern_rec n fun_name h1 s1; intern_end h s (intern_res s)) = r) /\
    read_back hs v h r.
Proof.
  intros Hw Hv Ht Hpl Hd Hst Hc Hss Hsrc.
  pose proof (trace_size _ _ _ _ _ Ht) as Hsz. rewrite map_size_empty in Hsz.
  destruct (intern_loop_trace fun_name memory limit hs h1 ∅ [v] es m' Hw Ht numbered_empty Hpl ltac:(lia) ltac:(by apply Forall_singleton)
    h1 s1 [mkItem Result 1 OReadItems] [Result] ∅ rest) as (r & n0 & E & Hout); [by eapply initial_ready|].
  exists ('(h, s) ← r; intern_end h s (intern_res s)), n0. split.
  - intros n Hn. unfold intern_rec, ReadItems, PushItem. rewrite (st_stack _ _ _ _ _ _ _ Hst), Hss.
    change (INTERN_STACK_INIT_SIZE <=? zlength ([] : list intern_item) + 1) with false. mred. change (0 <? 1) with true. cbn beta iota. mred. by rewrite E.
  - destruct r as [[h' s']|e| | |]; mred; try done. destruct Hout as [f Hrb]. unfold intern_end. destruct (pending_actions h'); [done|].
    by eapply rebuilt_graph.
Qed.

Lemma node_wosize h v l : classify h v = Node l -> 0 < wosize_of h v.
Proof. intros Hc. destruct (node_inv h v l Hc) as (_ & hd & Eh & _ & Hp & _). by destruct (head_values h v hd Eh) as (_ & -> & _ & _). Qed.

Lemma trace_words hs W m es m' : trace (classify hs) m W es m' -> news es = [] \/ 2 <= total_words hs (news es).
Proof.
  induction 1 as [m|m v W es m' Hc Ht IH|m v v' W es m' Hc Ht IH|m v l p W es m' Hc Hm Ht IH|m v l W es m' Hc Hm Ht IH]; try done; [by left|].
  right. rewrite news_new. cbn [total_words foldr]. fold (total_words hs (news es)).
  pose proof (total_words_nonneg hs (news es)). pose proof (node_wosize hs v l Hc). lia.
Qed.

(** From the allocation on, the header being read. *)
Lemma read_graph hs v es m' h s rest : words_ok hs -> is_word v -> trace (classify hs) ∅ [v] es m' ->
  (forall b, b ∈ news es -> plain_block hs b) -> zlength (news es) < 2 ^ 26 - 2 -> heap_ok h -> idle s ->
  compressed s = false -> intern_src s = encoding hs es ++ rest ->
  exists r n0, (forall n, (n0 <= n)%nat ->
    ('(h, s) ← intern_alloc_storage h s (total_words hs (news es)) (Z.of_nat (size m'));
     '(h, s) ← intern_rec n fun_name h s; intern_end h s (intern_res s)) = r) /\ read_back hs v h r.
Proof.
  intros Hw Hv Ht Hpl Hd Hok Hid Hc Hsrc.
  assert (total_words hs (news es) = 0 /\ Z.of_nat (size m') <= 0 \/ 2 <= total_words hs (news es)) as Hn.
  { rewrite (trace_size _ _ _ _ _ Ht), map_size_empty. destruct (trace_words _ _ _ _ _ Ht) as [->|]; [by left|by right]. }
  pose proof (alloc_storage h s _ _ Hok Hid Hn) as Ha.
  destruct (intern_alloc_storage _ _ _ _) as [[h1 s1]| | | |]; mred; try done; [|by eexists _, 0%nat].
  destruct Ha as [limit Hst]. by eapply intern_graph; try done; apply Hid.
Qed.
End Input.

(** ** Bytes *)

Lemma u8_is_byte n : is_byte (u8 n).
Proof. unfold is_byte. apply (wrap_range 8). lia. Qed.
#[local] Hint Resolve u8_is_byte : core.
Ltac is_bytes := repeat (first [apply u8_is_byte | apply Forall_nil_2 | apply Forall_cons_2]); try (split; [discriminate|reflexivity]).

Lemma header_is_bytes len n n32 n64 : Forall is_byte (header_bytes len n n32 n64).
Proof. unfold header_bytes. destruct (big_header _ _ _); is_bytes. Qed.

Lemma contents_is_bytes h v len : Forall is_byte (contents h v len).
Proof.
  apply Forall_fmap, Forall_true. intros j. cbn. destruct (Byte_u h v j) eqn:E; [by eapply Byte_u_range|done..].
Qed.

Lemma enc_int_bytes n : Forall is_byte (enc_int n).
Proof.
  unfold enc_int. destruct (_ && _) eqn:E; [is_bytes; unfold is_byte, PREFIX_SMALL_INT; lia|]. clear E. repeat destruct (_ && _); repeat destruct (_ || _); is_bytes.
Qed.
Lemma enc_header_bytes sz tag : 0 <= sz -> 0 <= tag -> Forall is_byte (enc_header sz tag).
Proof.
  intros ? ?. unfold enc_header. cbv zeta. destruct (_ && _) eqn:E; [is_bytes; unfold is_byte, PREFIX_SMALL_BLOCK; lia|]. clear E. destruct (_ <? _); is_bytes.
Qed.
Lemma enc_shared_bytes d : Forall is_byte (enc_shared d).
Proof. unfold enc_shared. destruct (_ <? 256); [is_bytes|]. destruct (_ <? _); [is_bytes|]. destruct (_ <=? _); is_bytes. Qed.
Lemma enc_string_bytes bs : Forall is_byte bs -> Forall is_byte (enc_string bs).
Proof.
  intros Hb. unfold enc_string. apply Forall_app. split; [|done]. pose proof (str_len_nonneg bs).
  destruct (Z.ltb_spec (str_len bs) 0x20); [is_bytes; unfold is_byte, PREFIX_SMALL_STRING; lia|]. destruct (_ <? 0x100); [is_bytes|]. destruct (_ <? _); is_bytes.
Qed.
Lemma enc_doubles_bytes n bs : Forall is_byte bs -> Forall is_byte (enc_double_array n bs).
Proof.
  intros Hb. unfold enc_double_array. apply Forall_app. split; [|done].
  destruct (_ <? 0x100); [is_bytes|]. destruct (_ <? _); is_bytes.
Qed.

Lemma tag_of_nonneg h v : 0 <= tag_of h v.
Proof.
  destruct (Hd_val h v) as [hd| | | |] eqn:E; try (unfold tag_of, Tag_val; by rewrite E).
  destruct (head_values h v hd E) as (-> & _ & Ht & _). lia.
Qed.

Lemma encoding_is_bytes h es : Forall is_byte (encoding h es).
Proof.
  apply Forall_concat, Forall_fmap, Forall_true. intros [v|v d|v]; cbn.
  - destruct (Is_long v); [apply enc_int_bytes|apply enc_header_bytes; [lia|apply tag_of_nonneg]].
  - apply enc_shared_bytes.
  - repeat destruct (_ =? _).
    + apply enc_string_bytes, contents_is_bytes.
    + constructor; [by split|apply contents_is_bytes].
    + apply enc_doubles_bytes, contents_is_bytes.
    + apply enc_header_bytes; [apply wosize_of_nonneg|apply tag_of_nonneg].
Qed.

(** ** Round trips *)

Lemma total_words_submseteq h l k : l ⊆+ k -> total_words h l <= total_words h k.
Proof.
  unfold total_words. induction 1 as [|x l k _ IH|x y l|x l k _ IH|l1 l2 l3 _ IH1 _ IH2]; cbn [foldr]; try lia.
  pose proof (wosize_of_nonneg h x). lia.
Qed.

(** A finite graph of plain data, and what its traversal gives. *)
Record plain_graph (h : heap) (v : Z) (B : gset Z) : Prop := {
  pg_closed : closed (classify h) B;
  pg_root : good (classify h) B v;
  pg_plain : forall b, b ∈ B -> plain_block h b;
  pg_words : words_ok h;
  pg_word : is_word v;
  pg_size : Z.of_nat (size B) < 2 ^ 26 - 2;
  pg_total : total_words h (elements B) < 2 ^ 50;
}.

Lemma graph_trace h v B : plain_graph h v B -> exists es m', trace (classify h) ∅ [v] es m' /\
  (forall b, b ∈ news es -> plain_block h b) /\ zlength (news es) < 2 ^ 26 - 2 /\ 0 <= total_words h (news es) < 2 ^ 50 /\
  zlength (encoding h es) < 2 ^ 55 /\ size m' = length (news es).
Proof.
  intros [HB Hv Hpl Hw Hiw Hsz Htot].
  destruct (trace_total (classify h) B HB (size (B ∖ dom (∅ : gmap Z Z))) ∅ [v]) as (es & m' & Ht); [done|by constructor|].
  assert (Forall (good (classify h) B) [v]) as HW by (by constructor). exists es, m'.
  pose proof (trace_closed _ _ _ _ _ _ HB HW Ht) as Hin.
  assert (forall b, b ∈ news es -> plain_block h b) as Hpb by (intros b Hb; by apply Hpl, Hin).
  pose proof (encoding_length _ _ _ _ _ Ht Hpb) as Hlen. cbn [length] in Hlen. pose proof (total_words_nonneg h (news es)).
  assert (total_words h (news es) < 2 ^ 50) as Htw.
  { eapply Z.le_lt_trans; [|exact Htot]. apply total_words_submseteq, NoDup_submseteq; [apply (trace_news _ _ _ _ _ Ht)|].
    intros b Hb. by apply elem_of_elements, Hin. }
  split_and!; try done; try lia.
  - pose proof (trace_bounded _ _ _ _ _ _ HB HW Ht). lia.
  - pose proof (trace_size _ _ _ _ _ Ht) as E. by rewrite map_size_empty in E.
Qed.

Section Roundtrip.
Context {EE : ExternEnv} `{SH : SharedHeap, !SharedHeapOk SH} {IE : InternEnv}.
Hypothesis memory_out : forall n, stat_alloc n = true.
Hypothesis memory_in : forall n, in_stat_alloc n = true.

Lemma input_block hs v es m' h s n32 : words_ok hs -> is_word v -> trace (classify hs) ∅ [v] es m' ->
  (forall b, b ∈ news es -> plain_block hs b) -> zlength (news es) < 2 ^ 26 - 2 -> 0 <= total_words hs (news es) < 2 ^ 50 ->
  zlength (encoding hs es) < 2 ^ 55 -> size m' = length (news es) -> heap_ok h -> idle s ->
  let data := header_bytes (zlength (encoding hs es)) (Z.of_nat (size m')) n32 (total_words hs (news es)) ++ encoding hs es in
  exists r n0, (forall n, (n0 <= n)%nat -> caml_input_value_from_block n h s data (zlength data) = r) /\ read_back hs v h r.
Proof.
  intros Hw Hv Ht Hpl Hd Htot Hlen Hsz Hok Hid data.
  destruct (parse_header "input_value_from_block" (set_src data s) (zlength (encoding hs es)) (Z.of_nat (size m')) n32
    (total_words hs (news es)) (encoding hs es)) as (magic & E); [lia|lia|lia|done|].
  destruct (read_graph "input_val_from_block" memory_in hs v es m' h (set_compressed false (set_src (encoding hs es) s)) []) as (r & n0 & Er & Hr);
    try done; [by rewrite app_nil_r|].
  exists r, n0. split; [|done]. intros n Hn. unfold caml_input_value_from_block. rewrite E. mred. cbn [header_len data_len].
  assert (zlength data = zlength (header_bytes (zlength (encoding hs es)) (Z.of_nat (size m')) n32 (total_words hs (news es))) + zlength (encoding hs es)) as ->
    by (unfold data; rewrite length_app; lia).
  rewrite header_length. destruct (big_header _ _ _); rewrite wrap_small, Z.ltb_irrefl by lia; exact (Er n Hn).
Qed.

(** The marshaled data as a string of the heap. *)
Lemma memcpy_bytes_app p q : forall h v i, memcpy_bytes h v i (p ++ q) = (h ← memcpy_bytes h v i p; memcpy_bytes h v (i + zlength p) q).
Proof.
  induction p as [|b p IH]; intros h v i; cbn [memcpy_bytes app]; [mred; by rewrite Z.add_0_r|].
  destruct (Store_byte h v i b) as [h1| | | |]; mred; try done. rewrite IH. destruct (memcpy_bytes h1 v (i + 1) p); mred; try done.
  f_equal. cbn [length]. lia.
Qed.

Lemma output_string_plain h s v es m' : trace (classify h) ∅ [v] es m' ->
  (forall b, b ∈ news es -> plain_block h b) -> zlength (news es) < 2 ^ 26 - 1 -> total_words h (news es) < 2 ^ 64 ->
  extern_stack_size s = EXTERN_STACK_INIT_SIZE ->
  exists n32 n0, forall n, (n0 <= n)%nat -> caml_output_value_to_bytes n h s v Val_emptylist =
    caml_alloc_initialized_string h
      (header_bytes (zlength (encoding h es)) (Z.of_nat (size m')) n32 (total_words h (news es)) ++ encoding h es).
Proof.
  intros Ht Hpl Hd Hw Hst.
  destruct (extern_value_plain memory_out h (set_output false [] [] SIZE_EXTERN_OUTPUT_BLOCK s) v es m') as (s' & n32 & n0 & Ho & E); try done.
  exists n32, n0. intros n Hn. unfold caml_output_value_to_bytes, init_extern_output. rewrite memory_out. mred. rewrite E by done. mred.
  rewrite Ho. unfold caml_alloc_initialized_string. rewrite length_app, Nat2Z.inj_add.
  destruct (caml_alloc_string h _) as [[res h1]| | | |]; mred; try done. rewrite memcpy_bytes_app.
  by destruct (memcpy_bytes h1 res 0 _).
Qed.

Lemma block_bytes_string h str pre data post : string_at h str (pre ++ data ++ post) ->
  exists rest, block_bytes h str (zlength pre) = Ret (data ++ rest).
Proof.
  intros Hs. set (bs := pre ++ data ++ post) in *. pose proof (str_wosize_bounds (str_len bs) (str_len_nonneg _)) as [Hp Hl].
  assert (str_len bs = zlength pre + zlength data + zlength post) as Elen by (unfold str_len, bs; rewrite !length_app; lia).
  pose proof (read_bytes_string (length data) h str bs (zlength pre) Hs ltac:(lia) ltac:(lia)) as Hd.
  unfold bs in Hd. rewrite Nat2Z.id, drop_app_length, take_app_length in Hd.
  assert (forall j, 0 <= j < 8 * str_wosize (str_len bs) -> exists b, Byte_u h str j = Ret b) as Hb
    by (intros j Hj; eexists; by apply (sa_content _ _ _ Hs)).
  unfold block_bytes, Bosize_val. rewrite (sa_size _ _ _ Hs). mred. unfold Bsize_wsize.
  rewrite read_bytes_contents in Hd by (intros j Hj; apply Hb; lia). rewrite read_bytes_contents by (intros j Hj; apply Hb; lia).
  set (k := str_wosize (str_len bs) * 8 - zlength pre - zlength data).
  replace (Z.of_nat (Z.to_nat (str_wosize (str_len bs) * 8 - zlength pre))) with (zlength data + k) by (unfold k; lia).
  rewrite seqZ_app, fmap_app by (unfold k; lia). injection Hd as ->. by eexists.
Qed.

Lemma alloc_storage_src h s n k l : intern_alloc_storage h (set_compressed false (set_src l s)) n k =
  ('(h, s) ← intern_alloc_storage h s n k; Ret (h, set_compressed false (set_src l s))).
Proof.
  unfold intern_alloc_storage. destruct (_ =? 0); [done|]. cbv zeta. destruct (_ && _).
  - destruct (caml_alloc_small _ _ _) as [[v h1]| | | |]; mred; try done. destruct (0 <? k); [|done]. by destruct (in_stat_alloc _).
  - mred. destruct (0 <? k); [|done]. by destruct (in_stat_alloc _).
Qed.

Lemma input_bytes hs v es m' h s n32 str pre post : words_ok hs -> is_word v -> trace (classify hs) ∅ [v] es m' ->
  (forall b, b ∈ news es -> plain_block hs b) -> zlength (news es) < 2 ^ 26 - 2 -> 0 <= total_words hs (news es) < 2 ^ 50 ->
  zlength (encoding hs es) < 2 ^ 55 -> size m' = length (news es) -> heap_ok h -> idle s ->
  string_at h str (pre ++ (header_bytes (zlength (encoding hs es)) (Z.of_nat (size m')) n32 (total_words hs (news es)) ++ encoding hs es) ++ post) ->
  exists r n0, (forall n, (n0 <= n)%nat -> caml_input_value_from_bytes n h s str (Val_long (zlength pre)) = r) /\ read_back hs v h r.
Proof.
  intros Hw Hv Ht Hpl Hd Htot Hlen Hsz Hok Hid Hs. set (hb := header_bytes _ _ _ _) in *. set (data := encoding hs es) in *.
  destruct (block_bytes_string _ _ _ _ _ Hs) as [rest Eb]. rewrite <- app_assoc in Eb.
  destruct (parse_header "input_val_from_string" (set_src (hb ++ data ++ rest) s) (zlength data) (Z.of_nat (size m')) n32
    (total_words hs (news es)) (data ++ rest)) as (magic & E); [lia|lia|lia|done|]. fold hb in E.
  destruct (read_graph "input_val_from_string" memory_in hs v es m' h (set_compressed false (set_src (data ++ rest) s)) rest)
    as (r & n0 & Er & Hr); try done.
  exists r, n0. split; [|done]. intros n Hn. unfold caml_input_value_from_bytes, caml_input_val_from_bytes.
  pose proof (sa_small _ _ _ Hs) as Hsm. unfold str_len in Hsm. rewrite !length_app in Hsm.
  rewrite Long_Val_int by (unfold is_int, Min_long, Max_long; lia). rewrite Eb. mred. rewrite E. mred. cbn [header_len data_len whsize num_objects].
  rewrite (string_length_spec _ _ _ Hs). mred. unfold str_len. rewrite !length_app.
  rewrite wrap_small, (proj2 (Z.ltb_ge _ _)) by lia. rewrite <- (Er n Hn).
  set (s1 := set_src (data ++ rest) (set_src (hb ++ data ++ rest) s)).
  change (set_src (data ++ rest) s) with (set_src (data ++ rest) s1). rewrite alloc_storage_src.
  destruct (intern_alloc_storage h s1 _ _) as [[h1 s2]| | | |]; mred; try done.
  rewrite Nat2Z.id, drop_app_length. by unfold intern_decompress_input.
Qed.

Lemma data_size_string h str pre len n n32 n64 data post : len = zlength data -> 0 <= len < 2 ^ 64 ->
  string_at h str (pre ++ (header_bytes len n n32 n64 ++ data) ++ post) ->
  caml_marshal_data_size h str (Val_long (zlength pre)) =
    Ret (Val_long (zlength (header_bytes len n n32 n64 ++ data) - 16)).
Proof.
  intros El Hlen Hs. destruct (block_bytes_string _ _ _ _ _ Hs) as [rest Eb].
  pose proof (sa_small _ _ _ Hs) as Hsm. unfold str_len in Hsm. rewrite !length_app in Hsm.
  unfold caml_marshal_data_size. rewrite Long_Val_int by (unfold is_int, Min_long, Max_long; lia). rewrite Eb. mred.
  rewrite length_app, Nat2Z.inj_add, header_length. rewrite El in *. unfold header_bytes, big_header.
  destruct (_ || _) eqn:E; rewrite <- !app_assoc; rewrite read32u_store; mred.
  - change (u32 Intext_magic_number_big =? Intext_magic_number_small) with false. change (u32 Intext_magic_number_big =? Intext_magic_number_big) with true.
    cbn beta iota. rewrite read32u_store. mred. rewrite read64u_store. mred. rewrite (wrap_small 64), swrap_small by lia. do 2 f_equal. lia.
  - change (u32 Intext_magic_number_small =? Intext_magic_number_small) with true. cbn beta iota. rewrite read32u_store. mred.
    apply orb_false_iff in E as [E _]. apply orb_false_iff in E as [E _]. rewrite (wrap_small 32), swrap_small by lia. do 2 f_equal. lia.
Qed.
End Roundtrip.

(** ** Arrays of more than 2^32 floats

    [readfloats] lists the codes of the arrays whose bytes it keeps, and
    [CODE_DOUBLE_ARRAY64_LITTLE] is not one of them: each double of such an
    array is reversed although it was written in the order of the machine. *)
Lemma double_array64_reversed n bs rest : 2 ^ 32 <= n -> zlength bs = n * 8 ->
  enc_double_array n bs = CODE_DOUBLE_ARRAY64_LITTLE :: store64 n ++ bs /\
  readfloats n CODE_DOUBLE_ARRAY64_LITTLE (bs ++ rest) = Ret (reverse_groups 8 (Z.to_nat n) bs, rest) /\
  readfloats n CODE_DOUBLE_ARRAY32_LITTLE (bs ++ rest) = Ret (bs, rest).
Proof.
  intros Hn Hb. split_and!.
  - unfold enc_double_array. by rewrite !(proj2 (Z.ltb_ge _ _)) by lia.
  - unfold readfloats. rewrite (readblock_app (n * 8) bs rest) by lia. done.
  - apply readfloats_app; [lia|done|by right].
Qed.

(** ** Properties *)

(** C10: Unmarshaling inverts marshaling.  The bytes
    [caml_output_value_to_malloc] produces, with no flags, for a finite graph of plain data,
    cyclic or not, are read back by [caml_input_value_from_block], in any
    well-formed heap, as a copy of the graph with the same sharing, made of
    fresh blocks; otherwise the shared heap is exhausted or the collector must run first.
    Plain data has no closure, continuation, object, custom or abstract block.  The graph
    has fewer than 2^26 - 2 blocks and 2^50 words, its float arrays have fewer than 2^32
    elements; the traversal starts with its initial stack, and the C allocator does
    not fail, on either side. *)
Theorem marshal_roundtrip {EE : ExternEnv} `{SH : SharedHeap, !SharedHeapOk SH} {IE : InternEnv}
    (hs : heap) (s : extern_state) (v : Z) (B : gset Z) :
  (forall n, stat_alloc n = true) -> (forall n, in_stat_alloc n = true) ->
  plain_graph hs v B -> extern_stack_size s = EXTERN_STACK_INIT_SIZE ->
  exists data n0, (forall n, (n0 <= n)%nat -> caml_output_value_to_malloc n hs s v Val_emptylist = Ret data) /\
    forall h si, heap_ok h -> idle si -> exists r n1,
      (forall n, (n1 <= n)%nat -> caml_input_value_from_block n h si data (zlength data) = r) /\ read_back hs v h r.
Proof.
  intros Ho Hi Hg Hst. destruct (graph_trace _ _ _ Hg) as (es & m' & Ht & Hpl & Hd & Htot & Hlen & Hsz).
  destruct (output_malloc_plain Ho hs s v es m') as (n32 & n0 & E); try done; try lia.
  eexists _, n0. split; [exact E|]. intros h si Hok Hid. by apply (input_block Hi); try done; apply Hg.
Qed.

(** The same through strings.  [caml_output_value_to_bytes] allocates a
    string with the marshaled bytes and touches no other word, or fails as an
    allocation does; wherever these bytes are found in a string, between any
    others, [caml_marshal_data_size] gives their number and
    [caml_input_value_from_bytes] rebuilds the graph. *)
Theorem marshal_string_roundtrip {EE : ExternEnv} `{SH : SharedHeap, !SharedHeapOk SH} {IE : InternEnv}
    (hs : heap) (s : extern_state) (v : Z) (B : gset Z) :
  (forall n, stat_alloc n = true) -> (forall n, in_stat_alloc n = true) -> heap_ok hs ->
  plain_graph hs v B -> extern_stack_size s = EXTERN_STACK_INIT_SIZE ->
  exists data out n0, (forall n, (n0 <= n)%nat -> caml_output_value_to_bytes n hs s v Val_emptylist = out) /\
    alloc_outcome hs (str_wosize (zlength data)) out (fun str h' => string_at h' str data /\ words hs ⊆ words h') /\
    forall h si str pre post, heap_ok h -> idle si -> string_at h str (pre ++ data ++ post) ->
      caml_marshal_data_size h str (Val_long (zlength pre)) = Ret (Val_long (zlength data - 16)) /\
      exists r n1, (forall n, (n1 <= n)%nat -> caml_input_value_from_bytes n h si str (Val_long (zlength pre)) = r) /\
        read_back hs v h r.
Proof.
  intros Ho Hi Hok Hg Hst. destruct (graph_trace _ _ _ Hg) as (es & m' & Ht & Hpl & Hd & Htot & Hlen & Hsz).
  destruct (output_string_plain Ho hs s v es m') as (n32 & n0 & E); try done; try lia.
  eexists _, _, n0. split; [exact E|]. split.
  - apply alloc_initialized_spec; [done| |].
    + apply Forall_app. split; [apply header_is_bytes|apply encoding_is_bytes].
    + unfold str_len. rewrite length_app, Nat2Z.inj_add, header_length. destruct (big_header _ _ _); lia.
  - intros h si str pre post Hok' Hid Hs. split; [eapply data_size_string; [done|lia|exact Hs]|].
    by eapply (input_bytes Hi); try done; apply Hg.
Qed.

(** ** Examples *)

Definition ex_intern_env : InternEnv := {|
  in_stat_alloc := fun _ => true;
  caml_find_custom_operations := fun _ => None;
  in_fixed_length := fun _ => None;
  ops_deserialize := fun _ _ _ _ => Undef;
  ops_finalize := fun _ => false;
  caml_find_code_fragment_by_digest := fun _ => None;
  function_placeholder := None;
  caml_intern_decompress_input := None;
  pending_actions := fun _ => false;
|}.

Lemma ex_plain_graph : plain_graph ex_graph ex_a ex_blocks.
Proof.
  split; [apply ex_closed; vm_compute; reflexivity|apply ex_good|apply ex_plain| |done..].
  assert (map_Forall (fun _ => is_word) (words ex_graph)) as Hw; [|exact Hw].
  unfold ex_graph. cbn [words]. repeat (apply map_Forall_insert_2; [by split|]). apply map_Forall_empty.
Qed.
Lemma ex_graph_ok : heap_ok ex_graph.
Proof. apply heap_okb_sound. vm_compute. reflexivity. Qed.
Lemma ex_idle : idle init_intern_state.
Proof. done. Qed.

(** The graph is read back into the heap it comes from. *)
Definition ex_output : result (list Z) :=
  caml_output_value_to_malloc (EE := ex_extern_env) 10 ex_graph init_extern_state ex_a Val_emptylist.
Definition ex_input : result (Z * heap * intern_state) :=
  data ← ex_output;
  caml_input_value_from_block (SH := growing_heap) (IE := ex_intern_env) 20 ex_graph init_intern_state data (zlength data).
Definition ex_same (r : result (Z * heap * intern_state)) : bool :=
  match r with
  | Ret (v, h, _) =>
      match Field h v 0, Field h v 1 with
      | Ret b, Ret n => negb (v =? ex_a) && (n =? Val_long 5) && bool_decide (Field h b 0 = Ret v) && bool_decide (Tag_val h b = Ret 7)
      | _, _ => false
      end
  | _ => false
  end.
Example marshal_example : ex_same ex_input = true.
Proof. vm_compute. reflexivity. Qed.

Lemma marshal_roundtrip_witness :
  exists data n0, (forall n, (n0 <= n)%nat -> caml_output_value_to_malloc (EE := ex_extern_env) n ex_graph init_extern_state ex_a Val_emptylist = Ret data) /\
    exists r n1, (forall n, (n1 <= n)%nat ->
      caml_input_value_from_block (SH := growing_heap) (IE := ex_intern_env) n ex_graph init_intern_state data (zlength data) = r) /\
      read_back ex_graph ex_a ex_graph r.
Proof.
  destruct (marshal_roundtrip (EE := ex_extern_env) (SH := growing_heap) (IE := ex_intern_env) ex_graph init_extern_state ex_a ex_blocks)
    as (data & n0 & E & H); [reflexivity|reflexivity|apply ex_plain_graph|reflexivity|].
  exists data, n0. split; [exact E|]. exact (H ex_graph init_intern_state ex_graph_ok ex_idle).
Defined.

Lemma marshal_string_roundtrip_witness :
  exists data out n0, (forall n, (n0 <= n)%nat ->
      caml_output_value_to_bytes (EE := ex_extern_env) (SH := growing_heap) n ex_graph init_extern_state ex_a Val_emptylist = out) /\
    alloc_outcome ex_graph (str_wosize (zlength data)) out (fun str h' => string_at h' str data /\ words ex_graph ⊆ words h').
Proof.
  destruct (marshal_string_roundtrip (EE := ex_extern_env) (SH := growing_heap) (IE := ex_intern_env) ex_graph init_extern_state ex_a ex_blocks)
    as (data & out & n0 & E & Ha & _); [reflexivity|reflexivity|apply ex_graph_ok|apply ex_plain_graph|reflexivity|].
  exists data, out, n0. split; [exact E|exact Ha].
Defined.
End Marshal.
