(* ===== verification/Skiplist.v ===== *)
(** * Skip lists (runtime/skiplist.c)

    The dictionary behind the table of code fragments and the frame
    descriptors.  A pointer to a [forward] array is the head of the list or a
    cell; cells live in a map from addresses, and [NULL] is the address 0.
    Reading a cell that is not allocated, or an array out of its bounds, is
    undefined. *)

From S2P Require Import Prelude.
From stdpp Require Import list sorting.
#[local] Open Scope Z_scope.

Module Skiplist.

Definition NUM_LEVELS : nat := 17.
Definition NULL : Z := 0.

Record skipcell := mkCell { key : Z; data : Z; cell_forward : list Z }.

(** [random_seed] is the static variable of the file. *)
Record skiplist := mkSkiplist {
  forward : list Z;
  level : nat;
  cells : gmap Z skipcell;
  random_seed : Z;
}.

Definition set_cells (m : gmap Z skipcell) (sk : skiplist) : skiplist :=
  mkSkiplist (forward sk) (level sk) m (random_seed sk).
Definition set_forward (l : list Z) (sk : skiplist) : skiplist :=
  mkSkiplist l (level sk) (cells sk) (random_seed sk).
Definition set_level (n : nat) (sk : skiplist) : skiplist :=
  mkSkiplist (forward sk) n (cells sk) (random_seed sk).
Definition set_seed (r : Z) (sk : skiplist) : skiplist :=
  mkSkiplist (forward sk) (level sk) (cells sk) r.

(** The [struct skipcell **] pointers: [sk->forward] or [f->forward]. *)
Inductive array := Head | Cell (p : Z).
#[export] Instance array_eq_dec : EqDecision array.
Proof. solve_decision. Defined.

Definition get (sk : skiplist) (e : array) (i : nat) : result Z :=
  match e with
  | Head => of_option (forward sk !! i)
  | Cell p => c ← of_option (cells sk !! p); of_option (cell_forward c !! i)
  end.
Definition set (sk : skiplist) (e : array) (i : nat) (v : Z) : result skiplist :=
  _ ← get sk e i;
  match e with
  | Head => Ret (set_forward (<[i := v]> (forward sk)) sk)
  | Cell p =>
      c ← of_option (cells sk !! p);
      Ret (set_cells (<[p := mkCell (key c) (data c) (<[i := v]> (cell_forward c))]> (cells sk)) sk)
  end.

(** ** Levels *)

(** [while ((r & 0xC0000000U) == 0xC0000000U) { level++; r = r << 2; }] *)
Fixpoint level_loop (fuel : nat) (r : Z) (level : nat) : result nat :=
  match fuel with
  | O => NoFuel
  | S n => if Z.land r 0xC0000000 =? 0xC0000000 then level_loop n (u32 (Z.shiftl r 2)) (S level) else Ret level
  end.
Definition random_level (sk : skiplist) : result (nat * skiplist) :=
  let r := u32 (u32 (random_seed sk * 69069) + 25173) in
  level ← level_loop NUM_LEVELS r 0;
  Ret (level, set_seed r sk).

Definition caml_skiplist_init (sk : skiplist) : skiplist :=
  set_level 0 (set_forward (replicate NUM_LEVELS NULL) sk).

(** ** Search *)

(** The [while (1)] loops: from [e], go on at level [i] as long as the next
    cell exists and its key is [before] the one looked for. *)
Fixpoint advance (fuel : nat) (sk : skiplist) (before : Z -> bool) (e : array) (i : nat) : result array :=
  match fuel with
  | O => NoFuel
  | S n =>
      f ← get sk e i;
      if f =? NULL then Ret e
      else
        c ← of_option (cells sk !! f);
        if before (key c) then advance n sk before (Cell f) i else Ret e
  end.

(** One level of [caml_skiplist_find]: the data, or the array reached. *)
Fixpoint find_level (fuel : nat) (sk : skiplist) (k : Z) (e : array) (i : nat) : result (Z + array) :=
  match fuel with
  | O => NoFuel
  | S n =>
      f ← get sk e i;
      if f =? NULL then Ret (inr e)
      else
        c ← of_option (cells sk !! f);
        if k <? key c then Ret (inr e)
        else if key c =? k then Ret (inl (data c))
        else find_level n sk k (Cell f) i
  end.
(** The [for] loop, from level [i] down to 0. *)
Fixpoint find_from (fuel : nat) (sk : skiplist) (k : Z) (e : array) (i : nat) : result (option Z) :=
  r ← find_level fuel sk k e i;
  match r with
  | inl d => Ret (Some d)
  | inr e => match i with O => Ret None | S i => find_from fuel sk k e i end
  end.

(** Each round of the inner loops leaves one cell behind. *)
Definition rounds (sk : skiplist) : nat := S (size (cells sk)).

Definition caml_skiplist_find (sk : skiplist) (k : Z) : result (option Z) :=
  find_from (rounds sk) sk k Head (level sk).

(** The [for] loops of insertion and deletion: [update], and the last [e]. *)
Fixpoint descend (sk : skiplist) (before : Z -> bool) (e : array) (i : nat) : result (list array * array) :=
  e ← advance (rounds sk) sk before e i;
  match i with
  | O => Ret ([e], e)
  | S i => '(u, e0) ← descend sk before e i; Ret (u ++ [e], e0)
  end.

(** [last] and [e] advance together: [e] is [last->forward]. *)
Definition caml_skiplist_find_below (sk : skiplist) (k : Z) : result (option (Z * Z)) :=
  '(_, e) ← descend sk (fun k' => k' <=? k) Head (level sk);
  match e with
  | Head => Ret None
  | Cell last => c ← of_option (cells sk !! last); Ret (Some (key c, data c))
  end.

(** ** Insertion *)

(** [for (i = 0; i <= new_level; i++) { f->forward[i] = *update[i]; *update[i] = f; }] *)
Fixpoint link_levels (update : list array) (i : nat) (f : Z) (sk : skiplist) : result skiplist :=
  match update with
  | [] => Ret sk
  | u :: update =>
      v ← get sk u i;
      sk ← set sk (Cell f) i v;
      sk ← set sk u i f;
      link_levels update (S i) f sk
  end.

(** [caml_stat_alloc]: the address of a new cell, if there is memory. *)
Class CellMemory : Type := cell_alloc : gmap Z skipcell -> Z -> option Z.
Class CellMemoryOk (CM : CellMemory) : Prop :=
  cell_fresh : forall m n p, cell_alloc m n = Some p -> p <> NULL /\ m !! p = None.

Section Operations.
Context `{CM : CellMemory}.

(** The result is [None] when [caml_stat_alloc] raises [Out_of_memory], after
    the level of the list was raised. *)
Definition caml_skiplist_insert (sk : skiplist) (k d : Z) : result (option Z * skiplist) :=
  '(update, e) ← descend sk (fun k' => k' <? k) Head (level sk);
  f ← get sk e 0;
  found ← (if f =? NULL then Ret None
           else c ← of_option (cells sk !! f); Ret (if key c =? k then Some c else None));
  match found with
  | Some c => Ret (Some 1, set_cells (<[f := mkCell (key c) d (cell_forward c)]> (cells sk)) sk)
  | None =>
      '(new_level, sk) ← random_level sk;
      let update := update ++ replicate (new_level - level sk) Head in
      let sk := if Nat.ltb (level sk) new_level then set_level new_level sk else sk in
      match cell_alloc (cells sk) (16 + (Z.of_nat new_level + 1) * 8) with
      | None => Ret (None, sk)
      | Some f =>
          let sk := set_cells (<[f := mkCell k d (replicate (S new_level) NULL)]> (cells sk)) sk in
          sk ← link_levels (take (S new_level) update) 0 f sk;
          Ret (Some 0, sk)
      end
  end.

(** ** Deletion *)

(** [for (i = 0; i <= sk->level; i++) if ( *update[i] == f) *update[i] = f->forward[i];] *)
Fixpoint unlink_levels (update : list array) (i : nat) (f : Z) (sk : skiplist) : result skiplist :=
  match update with
  | [] => Ret sk
  | u :: update =>
      v ← get sk u i;
      sk ← (if v =? f then n ← get sk (Cell f) i; set sk u i n else Ret sk);
      unlink_levels update (S i) f sk
  end.
Fixpoint down_correct (n : nat) (sk : skiplist) : result skiplist :=
  match n with
  | O => Ret (set_level 0 sk)
  | S m => v ← get sk Head n; if v =? NULL then down_correct m sk else Ret (set_level n sk)
  end.
Definition caml_skiplist_remove (sk : skiplist) (k : Z) : result (Z * skiplist) :=
  '(update, e) ← descend sk (fun k' => k' <? k) Head (level sk);
  f ← get sk e 0;
  present ← (if f =? NULL then Ret false else c ← of_option (cells sk !! f); Ret (key c =? k));
  if (present : bool) then
    sk ← unlink_levels update 0 f sk;
    let sk := set_cells (delete f (cells sk)) sk in
    sk ← down_correct (level sk) sk;
    Ret (1, sk)
  else Ret (0, sk).

(** ** Emptying and iterating *)
Fixpoint free_cells (fuel : nat) (e : Z) (sk : skiplist) : result skiplist :=
  match fuel with
  | O => NoFuel
  | S n =>
      if e =? NULL then Ret sk
      else next ← get sk (Cell e) 0; free_cells n next (set_cells (delete e (cells sk)) sk)
  end.
Fixpoint clear_levels (n : nat) (sk : skiplist) : result skiplist :=
  match n with
  | O => Ret sk
  | S m => sk ← clear_levels m sk; set sk Head m NULL
  end.
Definition caml_skiplist_empty (sk : skiplist) : result skiplist :=
  e ← get sk Head 0;
  sk ← free_cells (rounds sk) e sk;
  sk ← clear_levels (S (level sk)) sk;
  Ret (set_level 0 sk).

(** [FOREACH_SKIPLIST_ELEMENT] with an action that records the element. *)
Fixpoint elements_from (fuel : nat) (sk : skiplist) (var : Z) : result (list (Z * Z)) :=
  match fuel with
  | O => NoFuel
  | S n =>
      if var =? NULL then Ret []
      else
        next ← get sk (Cell var) 0;
        c ← of_option (cells sk !! var);
        l ← elements_from n sk next;
        Ret ((key c, data c) :: l)
  end.
Definition skiplist_elements (sk : skiplist) : result (list (Z * Z)) :=
  e ← get sk Head 0; elements_from (rounds sk) sk e.
End Operations.

(** ** Accesses *)

(** [set] changes one link and keeps the keys, the data and the lengths of
    the arrays. *)
Definition same_cells (sk sk' : skiplist) : Prop :=
  (forall p, (fun c => (key c, data c, length (cell_forward c))) <$> cells sk' !! p =
             (fun c => (key c, data c, length (cell_forward c))) <$> cells sk !! p) /\
  length (forward sk') = length (forward sk) /\ level sk' = level sk /\ random_seed sk' = random_seed sk.
#[export] Instance same_cells_preorder : PreOrder same_cells.
Proof.
  split; [done|]. intros a b c (H1 & H2 & H3 & H4) (K1 & K2 & K3 & K4). split_and!; congruence.
Qed.

Lemma set_spec sk e i v w : get sk e i = Ret w ->
  exists sk', set sk e i v = Ret sk' /\ same_cells sk sk' /\
    forall x j, get sk' x j = if decide (x = e /\ j = i) then Ret v else get sk x j.
Proof.
  intros E. unfold set. rewrite E. mred. destruct e as [|p]; cbn in E.
  - eexists. split; [reflexivity|]. destruct (forward sk !! i) as [u|] eqn:Eu; [|done].
    split; [split_and!; try done; cbn; by rewrite length_insert|].
    intros [|q] j; cbn; [|by rewrite decide_False by naive_solver].
    destruct (decide (j = i)) as [->|Hj].
    + rewrite decide_True, list_lookup_insert_eq; [done|by eapply lookup_lt_Some|done].
    + rewrite decide_False by naive_solver. by rewrite list_lookup_insert_ne.
  - destruct (cells sk !! p) as [c|] eqn:Ec; [|done]. cbn in E |- *. destruct (cell_forward c !! i) as [u|] eqn:Eu; [|done].
    eexists. split; [reflexivity|]. split.
    + split_and!; try done. intros q. cbn. destruct (decide (q = p)) as [->|Hq].
      * rewrite lookup_insert_eq, Ec. cbn. by rewrite length_insert.
      * by rewrite lookup_insert_ne.
    + intros [|q] j; cbn; [by rewrite decide_False by naive_solver|]. destruct (decide (q = p)) as [->|Hq].
      * rewrite lookup_insert_eq, Ec. cbn. destruct (decide (j = i)) as [->|Hj].
        -- rewrite decide_True, list_lookup_insert_eq; [done|by eapply lookup_lt_Some|done].
        -- rewrite decide_False by naive_solver. by rewrite list_lookup_insert_ne.
      * rewrite lookup_insert_ne by done. by rewrite decide_False by naive_solver.
Qed.

(** ** Levels *)

Lemma shiftl_bits r k : 0 <= r < 2 ^ 32 -> (2 ^ k | r) -> 0 <= k <= 30 -> (2 ^ (k + 2) | u32 (Z.shiftl r 2)) /\ 0 <= u32 (Z.shiftl r 2) < 2 ^ 32.
Proof.
  intros Hr [q Hq] Hk. split; [|apply wrap_range; lia]. unfold wrap. rewrite Z.shiftl_mul_pow2, Hq by lia.
  exists (q mod 2 ^ (30 - k)). replace (2 ^ 32) with (2 ^ (k + 2) * 2 ^ (30 - k)) by (rewrite <- Z.pow_add_r by lia; f_equal; lia).
  replace (q * 2 ^ k * 2 ^ 2) with (2 ^ (k + 2) * q) by (rewrite Z.pow_add_r by lia; ring).
  rewrite Z.mul_mod_distr_l; [ring|apply Z.pow_nonzero; lia|apply Z.pow_nonzero; lia].
Qed.

Lemma level_loop_bound n : forall r l, (n <= 16)%nat -> 0 <= r < 2 ^ 32 -> (2 ^ (32 - 2 * Z.of_nat n) | r) ->
  exists m, level_loop (S n) r l = Ret m /\ (m <= l + n)%nat.
Proof.
  induction n as [|n IH]; intros r l Hn Hr Hd.
  - replace r with 0; [exists l; split; [done|lia]|]. destruct Hd as [q Hq]. change (2 ^ (32 - 2 * Z.of_nat 0)) with (2 ^ 32) in Hq. nia.
  - change (level_loop (S (S n)) r l) with
      (if Z.land r 0xC0000000 =? 0xC0000000 then level_loop (S n) (u32 (Z.shiftl r 2)) (S l) else Ret l).
    destruct (_ =? _); [|exists l; split; [done|lia]].
    destruct (shiftl_bits r (32 - 2 * Z.of_nat (S n)) Hr Hd ltac:(lia)) as [Hd' Hr'].
    destruct (IH (u32 (Z.shiftl r 2)) (S l) ltac:(lia) Hr') as (m & E & Hm).
    { by replace (32 - 2 * Z.of_nat n) with (32 - 2 * Z.of_nat (S n) + 2) by lia. }
    exists m. split; [done|lia].
Qed.

(** The random levels fit the array of the head. *)
Lemma random_level_spec sk : exists l r, random_level sk = Ret (l, set_seed r sk) /\ (l < NUM_LEVELS)%nat.
Proof.
  unfold random_level. destruct (level_loop_bound 16 (u32 (u32 (random_seed sk * 69069) + 25173)) 0) as (m & E & Hm).
  - done.
  - apply wrap_range. lia.
  - change (32 - 2 * Z.of_nat 16) with 0. apply Z.divide_1_l.
  - change (level_loop NUM_LEVELS) with (level_loop 17). rewrite E. mred. exists m. eexists. split; [reflexivity|]. unfold NUM_LEVELS. lia.
Qed.

(** ** Chains of links *)

(** From the array [e], the links of level [i] go through the cells [l]. *)
Fixpoint path (sk : skiplist) (i : nat) (e : array) (l : list Z) : Prop :=
  match l with
  | [] => get sk e i = Ret NULL
  | p :: l => get sk e i = Ret p /\ path sk i (Cell p) l
  end.

(** The array at the end of a path. *)
Definition endpoint (e : array) (l : list Z) : array := fold_left (fun _ p => Cell p) l e.

Lemma endpoint_cons e p l : endpoint e (p :: l) = endpoint (Cell p) l.
Proof. done. Qed.
Lemma endpoint_app e a b : endpoint e (a ++ b) = endpoint (endpoint e a) b.
Proof. apply fold_left_app. Qed.
Lemma endpoint_elem e l : endpoint e l ∈ e :: (Cell <$> l).
Proof. revert e. induction l as [|p l IH]; intros e; [by left|]. rewrite endpoint_cons. right. apply IH. Qed.

Lemma path_app sk i a b : forall e, path sk i e (a ++ b) -> path sk i (endpoint e a) b.
Proof.
  induction a as [|p a IH]; intros e; [done|]. cbn [app path]. intros [_ Hp]. rewrite endpoint_cons. by apply IH.
Qed.
Lemma path_head sk i e l : path sk i e l -> get sk e i = Ret (default NULL (head l)).
Proof. by destruct l as [|p l]; [|intros [? _]]. Qed.

Lemma path_frame sk sk' i l : forall e, (forall x, x ∈ e :: (Cell <$> l) -> get sk' x i = get sk x i) ->
  path sk i e l -> path sk' i e l.
Proof.
  induction l as [|p l IH]; intros e Hf; cbn [path].
  - intros E. rewrite Hf; [done|]. by left.
  - intros [E Hp]. split; [rewrite Hf; [done|by left]|]. apply IH; [|done]. intros x Hx. apply Hf. by right.
Qed.

(** A link is redirected to a new cell, or past a cell. *)
Lemma path_insert sk sk' i p b : forall a e, path sk i e (a ++ b) -> NoDup (a ++ b) -> e ∉ Cell <$> (a ++ b) ->
  p ∉ a ++ b -> e <> Cell p ->
  get sk' (endpoint e a) i = Ret p -> get sk' (Cell p) i = get sk (endpoint e a) i ->
  (forall x, x <> endpoint e a -> x <> Cell p -> get sk' x i = get sk x i) -> path sk' i e (a ++ p :: b).
Proof.
  induction a as [|q a IH]; intros e Hp Hn He Hnp Hep H1 H2 Hf; cbn [app] in *.
  - cbn in H1, H2, Hf. split; [done|]. destruct b as [|q b]; cbn in Hp |- *; [by rewrite H2|]. destruct Hp as [Eq Hp].
    rewrite H2. split; [done|]. eapply path_frame; [|exact Hp]. intros x Hx. apply Hf.
    + intros ->. apply He. cbn. done.
    + intros ->. apply Hnp. apply elem_of_cons in Hx as [Hx|Hx]; [injection Hx as ->; by left|].
      apply list_elem_of_fmap in Hx as (y & [= <-] & Hy). by right.
  - rewrite endpoint_cons in *. destruct Hp as [Eq Hp]. apply list.NoDup_cons in Hn as [Hq Hn].
    assert (Cell q ∉ Cell <$> (a ++ b)) as Hcq by (intros Hx; apply list_elem_of_fmap in Hx as (y & [= <-] & Hy); done).
    split.
    + rewrite Hf; [done| |done]. intros ->. apply He. pose proof (endpoint_elem (Cell q) a) as Hin. rewrite fmap_cons, fmap_app. set_solver.
    + apply IH; try done; [set_solver|]. intros [= ->]. apply Hnp. by left.
Qed.

Lemma path_remove sk sk' i p b : forall a e, path sk i e (a ++ p :: b) -> NoDup (a ++ p :: b) -> e ∉ Cell <$> (a ++ p :: b) ->
  get sk' (endpoint e a) i = get sk (Cell p) i ->
  (forall x, x <> endpoint e a -> x <> Cell p -> get sk' x i = get sk x i) -> path sk' i e (a ++ b).
Proof.
  induction a as [|q a IH]; intros e Hp Hn He H1 Hf; cbn [app] in *.
  - cbn in H1, Hf, He. destruct Hp as [Eq Hp]. apply list.NoDup_cons in Hn as [Hq Hn].
    destruct b as [|r b]; cbn in Hp |- *; [by rewrite H1|]. destruct Hp as [Er Hp]. rewrite H1. split; [done|].
    eapply path_frame; [|exact Hp]. intros x Hx. change (Cell r :: (Cell <$> b)) with (Cell <$> r :: b) in Hx.
    apply list_elem_of_fmap in Hx as (y & -> & Hy). apply Hf; [|by intros [= ->]].
    intros <-. apply He. right. apply list_elem_of_fmap. by exists y.
  - rewrite endpoint_cons in *. destruct Hp as [Eq Hp]. apply list.NoDup_cons in Hn as [Hq Hn].
    assert (Cell q ∉ Cell <$> (a ++ p :: b)) as Hcq by (intros Hx; apply list_elem_of_fmap in Hx as (y & [= <-] & Hy); done).
    split.
    + rewrite Hf; [done| |].
      * intros ->. apply He. pose proof (endpoint_elem (Cell q) a) as Hin. rewrite fmap_cons, fmap_app. set_solver.
      * intros ->. apply He. right. apply list_elem_of_fmap. exists p. split; [done|]. apply elem_of_app. right. by left.
    + by apply IH.
Qed.

(** ** The representation of a list of entries *)

Record entry := mkEntry { e_addr : Z; e_key : Z; e_data : Z; e_height : nat }.

(** The cells present at level [i]. *)
Definition tall (i : nat) (cs : list entry) : list Z := e_addr <$> filter (fun c => (i < e_height c)%nat) cs.
(** The array of the last of them. *)
Definition cursor (i : nat) (cs : list entry) : array := endpoint Head (tall i cs).

Definition stored (m : gmap Z skipcell) (c : entry) : Prop :=
  exists fw, m !! e_addr c = Some (mkCell (e_key c) (e_data c) fw) /\ length fw = e_height c.

Record shape (sk : skiplist) (cs : list entry) : Prop := {
  sh_cells : Forall (stored (cells sk)) cs;
  sh_dom : dom (cells sk) = list_to_set (e_addr <$> cs);
  sh_addr : NoDup (e_addr <$> cs);
  sh_null : NULL ∉ e_addr <$> cs;
  sh_height : Forall (fun c => 0 < e_height c <= S (level sk))%nat cs;
  sh_level : (level sk < NUM_LEVELS)%nat;
  sh_forward : length (forward sk) = NUM_LEVELS;
  sh_sorted : StronglySorted (fun c d => e_key c < e_key d) cs;
  sh_paths : forall i, (i < NUM_LEVELS)%nat -> path sk i Head (tall i cs);
}.

Lemma tall_app i a b : tall i (a ++ b) = tall i a ++ tall i b.
Proof. unfold tall. by rewrite filter_app, fmap_app. Qed.
Lemma tall_cons i c cs : tall i (c :: cs) = if decide (i < e_height c)%nat then e_addr c :: tall i cs else tall i cs.
Proof. unfold tall. rewrite filter_cons. by destruct (decide _). Qed.
Lemma tall_elem i p cs : p ∈ tall i cs <-> exists c, c ∈ cs /\ e_addr c = p /\ (i < e_height c)%nat.
Proof. unfold tall. rewrite list_elem_of_fmap. setoid_rewrite list_elem_of_filter. naive_solver. Qed.
Lemma tall_sublist i cs : tall i cs `sublist_of` (e_addr <$> cs).
Proof.
  induction cs as [|c cs IH]; [done|]. rewrite tall_cons, fmap_cons. destruct (decide _); by constructor.
Qed.
Lemma tall_all i cs : Forall (fun c => i < e_height c)%nat cs -> tall i cs = e_addr <$> cs.
Proof. induction 1 as [|c cs Hc _ IH]; [done|]. by rewrite tall_cons, decide_True, IH. Qed.
Lemma tall_length i cs : (length (tall i cs) <= length cs)%nat.
Proof. rewrite <- (length_fmap e_addr cs). apply sublist_length, tall_sublist. Qed.
Lemma cursor_app i a b : cursor i (a ++ b) = endpoint (cursor i a) (tall i b).
Proof. unfold cursor. by rewrite tall_app, endpoint_app. Qed.

(** The cursor of a level is on the path of every level below. *)
Lemma cursor_split i cs : (cursor i cs = Head /\ tall i cs = []) \/
  exists pre c mid, cs = pre ++ c :: mid /\ (i < e_height c)%nat /\ tall i mid = [] /\ cursor i cs = Cell (e_addr c).
Proof.
  induction cs as [|c cs IH] using rev_ind; [by left|]. rewrite cursor_app, tall_app, tall_cons. cbn [tall fmap list_fmap filter].
  change (tall i []) with (@nil Z). destruct (decide (i < e_height c)%nat).
  - right. exists cs, c, []. by split_and!.
  - rewrite app_nil_r. destruct IH as [[-> ->]|(pre & d & mid & -> & Hd & Hm & ->)]; [by left|].
    right. exists pre, d, (mid ++ [c]). split_and!; try done; [by rewrite <- app_assoc|].
    rewrite tall_app, Hm, tall_cons. by rewrite decide_False.
Qed.

Lemma cursor_lower i j sk lo hi : shape sk (lo ++ hi) -> (i <= j)%nat -> (i < NUM_LEVELS)%nat ->
  exists mid, path sk i (cursor j lo) (tall i mid ++ tall i hi) /\ endpoint (cursor j lo) (tall i mid) = cursor i lo /\
    (length mid <= length lo)%nat /\ forall c, c ∈ mid -> c ∈ lo.
Proof.
  intros Hs Hij Hi. pose proof (sh_paths _ _ Hs i Hi) as Hp. rewrite tall_app in Hp.
  destruct (cursor_split j lo) as [[-> _]|(pre & c & mid & -> & Hc & _ & ->)]; [by exists lo|].
  exists mid. rewrite tall_app, tall_cons, decide_True in Hp by lia. rewrite <- app_assoc in Hp. apply path_app in Hp. destruct Hp as [_ Hp].
  split_and!; [done| |rewrite length_app; cbn; lia|set_solver].
  rewrite cursor_app, tall_cons, decide_True by lia. done.
Qed.

(** ** Search *)

Definition is_before (sk : skiplist) (before : Z -> bool) (p : Z) : Prop :=
  p <> NULL /\ exists c, cells sk !! p = Some c /\ before (key c) = true.
Definition not_before (sk : skiplist) (before : Z -> bool) (p : Z) : Prop :=
  p <> NULL /\ exists c, cells sk !! p = Some c /\ before (key c) = false.

Lemma advance_spec sk before i b : (forall p, head b = Some p -> not_before sk before p) ->
  forall a fuel e, path sk i e (a ++ b) -> Forall (is_before sk before) a -> (length a < fuel)%nat ->
  advance fuel sk before e i = Ret (endpoint e a).
Proof.
  intros Hb. induction a as [|p a IH]; intros [|n] e Hp Ha Hn; cbn [length] in Hn; try lia; cbn [advance].
  - cbn [app] in Hp. rewrite (path_head _ _ _ _ Hp). mred. destruct b as [|q b]; [done|]. change (default NULL (head (q :: b))) with q.
    destruct (Hb q eq_refl) as (Hq & c & -> & Hc). rewrite (proj2 (Z.eqb_neq _ _)) by done. mred. cbn. by rewrite Hc.
  - cbn [app path] in Hp. destruct Hp as [E Hp]. apply Forall_cons_1 in Ha as [(Hq & c & Ec & Hc) Ha].
    rewrite E. mred. rewrite (proj2 (Z.eqb_neq _ _)), Ec by done. cbn [of_option]. mred. rewrite Hc. apply IH; [done..|lia].
Qed.

(** A split of the entries at a key. *)
Definition splits (before : Z -> bool) (lo hi : list entry) : Prop :=
  Forall (fun c => before (e_key c) = true) lo /\ Forall (fun c => before (e_key c) = false) hi.

Lemma split_exists before cs : StronglySorted (fun c d => e_key c < e_key d) cs ->
  (forall k k', k < k' -> before k' = true -> before k = true) ->
  exists lo hi, cs = lo ++ hi /\ splits before lo hi.
Proof.
  intros Hs Hb. induction Hs as [|c cs Hs IH Hc]; [by exists [], []; repeat constructor|].
  destruct IH as (lo & hi & -> & Hlo & Hhi). destruct (before (e_key c)) eqn:E.
  - exists (c :: lo), hi. split; [done|]. split; [by constructor|done].
  - exists [], (c :: lo ++ hi). split; [done|]. split; [constructor|]. constructor; [done|]. apply Forall_app. split; [|done].
    apply Forall_app in Hc as [Hc _]. apply Forall_forall. intros d Hd. rewrite Forall_forall in Hlo, Hc.
    specialize (Hc d Hd). specialize (Hlo d Hd). apply Hb in Hc; [|done]. congruence.
Qed.

Lemma entry_cell sk cs c : shape sk cs -> c ∈ cs -> e_addr c <> NULL /\
  exists cell, cells sk !! e_addr c = Some cell /\ key cell = e_key c /\ data cell = e_data c /\ length (cell_forward cell) = e_height c.
Proof.
  intros Hs Hc. split; [intros E; apply (sh_null _ _ Hs); rewrite <- E; by apply list_elem_of_fmap_2|].
  pose proof (sh_cells _ _ Hs) as Hf. rewrite Forall_forall in Hf. destruct (Hf c Hc) as (fw & -> & Hl). eexists. by split_and!.
Qed.
Lemma rounds_bound sk cs : shape sk cs -> (length cs < rounds sk)%nat.
Proof.
  intros Hs. unfold rounds. rewrite <- (size_dom (cells sk)), (sh_dom _ _ Hs), size_list_to_set by apply Hs. rewrite length_fmap. lia.
Qed.
Lemma tall_head i hi p : head (tall i hi) = Some p -> exists c, c ∈ hi /\ e_addr c = p.
Proof. intros E. apply head_Some_elem_of in E. apply tall_elem in E as (c & ? & ? & _). by exists c. Qed.
Lemma cursor_high sk cs lo hi j : shape sk cs -> cs = lo ++ hi -> (level sk < j)%nat -> cursor j lo = Head.
Proof.
  intros Hs -> Hj. destruct (cursor_split j lo) as [[-> _]|(pre & c & mid & -> & Hc & _)]; [done|].
  pose proof (sh_height _ _ Hs) as Hf. rewrite Forall_forall in Hf. specialize (Hf c ltac:(set_solver)). lia.
Qed.

Section Search.
Context (sk : skiplist) (before : Z -> bool) (lo hi : list entry) (Hs : shape sk (lo ++ hi)) (Hsp : splits before lo hi).

Lemma level_spec i j : (i <= j)%nat -> (i < NUM_LEVELS)%nat -> advance (rounds sk) sk before (cursor j lo) i = Ret (cursor i lo).
Proof.
  intros Hij Hi. destruct (cursor_lower i j sk lo hi Hs Hij Hi) as (mid & Hp & <- & Hl & Hm). destruct Hsp as [Hlo Hhi].
  rewrite Forall_forall in Hlo, Hhi. eapply advance_spec; [|exact Hp| |].
  - intros p Ep. apply tall_head in Ep as (c & Hc & <-). destruct (entry_cell sk _ c Hs ltac:(set_solver)) as (Hn & cell & E & Ek & _).
    split; [done|]. exists cell. split; [done|]. rewrite Ek. by apply Hhi.
  - apply Forall_forall. intros p Ep. apply tall_elem in Ep as (c & Hc & <- & _).
    destruct (entry_cell sk _ c Hs ltac:(set_solver)) as (Hn & cell & E & Ek & _). split; [done|]. exists cell. split; [done|].
    rewrite Ek. by apply Hlo, Hm.
  - pose proof (rounds_bound _ _ Hs) as Hr. rewrite length_app in Hr. pose proof (tall_length i mid). lia.
Qed.

Lemma descend_spec i : forall j, (i <= j)%nat -> (i < NUM_LEVELS)%nat ->
  descend sk before (cursor j lo) i = Ret ((fun k => cursor k lo) <$> seq 0 (S i), cursor 0 lo).
Proof.
  induction i as [|i IH]; intros j Hij Hi; cbn [descend]; rewrite level_spec by done; mred; [done|].
  rewrite IH by lia. mred. by rewrite (seq_S (S i) 0), fmap_app.
Qed.

Lemma descend_all : descend sk before Head (level sk) = Ret ((fun k => cursor k lo) <$> seq 0 (S (level sk)), cursor 0 lo).
Proof. rewrite <- (cursor_high sk _ lo hi (S (level sk)) Hs eq_refl) by lia. apply descend_spec; [lia|apply Hs]. Qed.

(** Every entry is at level 0. *)
Lemma tall_zero : tall 0 lo = e_addr <$> lo /\ tall 0 hi = e_addr <$> hi.
Proof.
  pose proof (sh_height _ _ Hs) as Hf. apply Forall_app in Hf as [H1 H2].
  rewrite !tall_all; [done|..]; (eapply Forall_impl; [eassumption|]); intros c Hc; cbn in Hc; lia.
Qed.
Lemma get_cursor : get sk (cursor 0 lo) 0 = Ret (default NULL (e_addr <$> head hi)).
Proof.
  pose proof (sh_paths _ _ Hs 0%nat ltac:(unfold NUM_LEVELS; lia)) as Hp. rewrite tall_app in Hp. apply path_app in Hp.
  unfold cursor. rewrite (path_head _ _ _ _ Hp). destruct tall_zero as [_ ->]. by destruct hi.
Qed.
End Search.

(** One level of [caml_skiplist_find]. *)
Lemma find_path sk k i b : (forall p, head b = Some p -> not_before sk (fun k' => k' <? k) p) ->
  forall a fuel e, path sk i e (a ++ b) -> Forall (is_before sk (fun k' => k' <? k)) a -> (length a < fuel)%nat ->
  find_level fuel sk k e i = Ret (match head b ≫= (cells sk !!.) with
    | Some c => if key c =? k then inl (data c) else inr (endpoint e a)
    | None => inr (endpoint e a)
    end).
Proof.
  intros Hb. induction a as [|p a IH]; intros [|n] e Hp Ha Hn; cbn [length] in Hn; try lia; cbn [find_level].
  - cbn [app] in Hp. rewrite (path_head _ _ _ _ Hp). mred. destruct b as [|q b]; [done|]. change (default NULL (head (q :: b))) with q.
    destruct (Hb q eq_refl) as (Hq & c & Ec & Hc). rewrite (proj2 (Z.eqb_neq _ _)) by done. cbn. rewrite Ec. cbn.
    destruct (Z.ltb_spec k (key c)); [by rewrite (proj2 (Z.eqb_neq _ _)) by lia|]. by destruct (Z.eqb_spec (key c) k); [|lia].
  - cbn [app path] in Hp. destruct Hp as [E Hp]. apply Forall_cons_1 in Ha as [(Hq & c & Ec & Hc) Ha].
    rewrite E. mred. rewrite (proj2 (Z.eqb_neq _ _)), Ec by done. cbn [of_option]. mred.
    destruct (Z.ltb_spec k (key c)); [lia|]. destruct (Z.eqb_spec (key c) k); [lia|]. apply IH; [done..|lia].
Qed.

(** The data of the first entry of [hi], when its key is [k]. *)
Definition found (k : Z) (hi : list entry) : option Z :=
  match hi with c :: _ => if e_key c =? k then Some (e_data c) else None | [] => None end.

Section Find.
Context (sk : skiplist) (k : Z) (lo hi : list entry) (Hs : shape sk (lo ++ hi)) (Hsp : splits (fun k' => k' <? k) lo hi).

Lemma only_first c : c ∈ hi -> e_key c = k -> head hi = Some c.
Proof.
  intros Hc Ek. destruct Hsp as [_ Hhi]. pose proof (sh_sorted _ _ Hs) as Hst. apply StronglySorted_app in Hst as (_ & _ & Hst).
  destruct hi as [|d hi']; [by apply elem_of_nil in Hc|]. apply elem_of_cons in Hc as [->|Hc]; [done|].
  apply StronglySorted_cons in Hst as [Hd _]. rewrite Forall_forall in Hd, Hhi. specialize (Hd c Hc).
  specialize (Hhi d ltac:(by left)). cbn in Hhi. lia.
Qed.

Lemma find_level_spec i j : (i <= j)%nat -> (i < NUM_LEVELS)%nat ->
  find_level (rounds sk) sk k (cursor j lo) i =
    Ret (match hi with
         | c :: _ => if decide (e_key c = k /\ (i < e_height c)%nat) then inl (e_data c) else inr (cursor i lo)
         | [] => inr (cursor i lo)
         end).
Proof.
  intros Hij Hi. destruct (cursor_lower i j sk lo hi Hs Hij Hi) as (mid & Hp & <- & Hl & Hm). pose proof Hsp as [Hlo Hhi].
  rewrite Forall_forall in Hlo, Hhi.
  assert (forall c, c ∈ lo ++ hi -> e_addr c <> NULL /\ exists cell, cells sk !! e_addr c = Some cell /\ key cell = e_key c /\ data cell = e_data c) as Hcell.
  { intros c Hc. destruct (entry_cell sk _ c Hs Hc) as (Hn & cell & E & Ek & Ed & _). split; [done|]. by exists cell. }
  rewrite (find_path sk k i (tall i hi)) with (a := tall i mid).
  - f_equal. destruct (head (tall i hi)) as [p|] eqn:Eh; cbn.
    + pose proof (head_Some_elem_of _ _ Eh) as Hel. apply tall_elem in Hel as (c & Hc & <- & Hic).
      destruct (Hcell c ltac:(set_solver)) as (_ & cell & -> & Ek & Ed). rewrite Ek, Ed. destruct (Z.eqb_spec (e_key c) k) as [E|E].
      * pose proof (only_first c Hc E) as Hf. destruct hi as [|d hi']; [done|]. injection Hf as ->. by rewrite decide_True.
      * destruct hi as [|d hi']; [done|]. destruct (decide _) as [[Ed' Hd]|]; [|done]. rewrite tall_cons, decide_True in Eh by done.
        injection Eh as Ea. destruct (Hcell d ltac:(set_solver)) as (_ & cell' & E' & Ek' & _). destruct (Hcell c ltac:(set_solver)) as (_ & cell2 & E2 & Ek2 & _).
        rewrite Ea in E'. congruence.
    + destruct hi as [|d hi']; [done|]. rewrite decide_False; [done|]. intros [_ Hd]. by rewrite tall_cons, decide_True in Eh.
  - intros p Ep. apply tall_head in Ep as (c & Hc & <-). destruct (Hcell c ltac:(set_solver)) as (Hn & cell & E & Ek & _).
    split; [done|]. exists cell. split; [done|]. rewrite Ek. by apply (Hhi c).
  - exact Hp.
  - apply Forall_forall. intros p Ep. apply tall_elem in Ep as (c & Hc & <- & _).
    destruct (Hcell c ltac:(set_solver)) as (Hn & cell & E & Ek & _). split; [done|]. exists cell. split; [done|].
    rewrite Ek. by apply (Hlo c), Hm.
  - pose proof (rounds_bound _ _ Hs) as Hr. rewrite length_app in Hr. pose proof (tall_length i mid). lia.
Qed.

Lemma find_from_spec i : forall j, (i <= j)%nat -> (i < NUM_LEVELS)%nat ->
  find_from (rounds sk) sk k (cursor j lo) i = Ret (found k hi).
Proof.
  induction i as [|i IH]; intros j Hij Hi; cbn [find_from]; rewrite find_level_spec by done; mred; unfold found in *.
  - destruct hi as [|c hi'] eqn:Eh; [done|]. pose proof (sh_height _ _ Hs) as Hf. rewrite Forall_forall in Hf. specialize (Hf c ltac:(set_solver)).
    destruct (Z.eqb_spec (e_key c) k); [rewrite decide_True by (split; [done|lia]); done|]. by rewrite decide_False by naive_solver.
  - specialize (IH (S i) ltac:(lia) ltac:(lia)). destruct hi as [|c hi'] eqn:Eh; [done|].
    destruct (decide _) as [[-> _]|_]; [|done]. by rewrite Z.eqb_refl.
Qed.

Lemma find_spec : caml_skiplist_find sk k = Ret (found k hi).
Proof.
  unfold caml_skiplist_find. rewrite <- (cursor_high sk _ lo hi (S (level sk)) Hs eq_refl) by lia.
  apply find_from_spec; [lia|apply Hs].
Qed.
End Find.

(** ** Insertion *)

Lemma same_cells_stored sk sk' c : same_cells sk sk' -> stored (cells sk) c -> stored (cells sk') c.
Proof.
  intros (H & _) (fw & E & Hl). specialize (H (e_addr c)). rewrite E in H. cbn in H.
  destruct (cells sk' !! e_addr c) as [[k' d' fw']|] eqn:E'; [|done]. injection H as -> -> Hl'. exists fw'. split; [done|congruence].
Qed.
Lemma same_cells_dom sk sk' : same_cells sk sk' -> dom (cells sk') = dom (cells sk).
Proof.
  intros (H & _). apply set_eq. intros p. rewrite !elem_of_dom. specialize (H p).
  destruct (cells sk' !! p), (cells sk !! p); try done; by split; intros [? ?].
Qed.

Lemma link_levels_spec us : forall i sk f,
  (forall n u, us !! n = Some u -> u <> Cell f /\ exists w, get sk u (i + n) = Ret w) ->
  (forall n, (n < length us)%nat -> exists w, get sk (Cell f) (i + n) = Ret w) ->
  exists sk', link_levels us i f sk = Ret sk' /\ same_cells sk sk' /\
    forall x j, get sk' x j =
      match (if decide (i <= j)%nat then us !! (j - i)%nat else None) with
      | Some u => if decide (x = u) then Ret f else if decide (x = Cell f) then get sk u j else get sk x j
      | None => get sk x j
      end.
Proof.
  induction us as [|u us IH]; intros i sk f Hu Hf; cbn [link_levels].
  - exists sk. split_and!; try done. intros x j. by destruct (decide _).
  - destruct (Hu 0%nat u eq_refl) as [Hne [w Hw]]. destruct (Hf 0%nat ltac:(cbn; lia)) as [w' Hw']. rewrite Nat.add_0_r in *.
    rewrite Hw. mred. destruct (set_spec sk (Cell f) i w w' Hw') as (sk1 & -> & S1 & G1). mred.
    destruct (set_spec sk1 u i f w) as (sk2 & -> & S2 & G2); [rewrite G1, decide_False by naive_solver; done|]. mred.
    assert (G : forall x j, j <> i -> get sk2 x j = get sk x j).
    { intros x j Hj. rewrite G2, G1, !decide_False by naive_solver. done. }
    destruct (IH (S i) sk2 f) as (sk' & E & S' & G').
    + intros n v Hv. destruct (Hu (S n) v Hv) as [? [y Hy]]. split; [done|]. exists y. rewrite G by lia. by replace (S i + n)%nat with (i + S n)%nat by lia.
    + intros n Hn. destruct (Hf (S n) ltac:(cbn; lia)) as [y Hy]. exists y. rewrite G by lia. by replace (S i + n)%nat with (i + S n)%nat by lia.
    + exists sk'. split; [done|]. split; [by rewrite S1, S2|]. intros x j. rewrite G'.
      destruct (decide (i <= j)%nat) as [Hj|Hj]; [|by rewrite decide_False, G by lia].
      destruct (decide (S i <= j)%nat) as [Hj'|Hj'].
      * replace (j - i)%nat with (S (j - S i)) by lia. cbn. destruct (us !! (j - S i)%nat); [|by rewrite G by lia]. by rewrite !G by lia.
      * replace j with i by lia. rewrite Nat.sub_diag. cbn. rewrite G2, G1. destruct (decide (x = u)) as [->|Hx].
        { by rewrite decide_True. } rewrite (decide_False (P := x = u /\ i = i)) by naive_solver.
        destruct (decide (x = Cell f)) as [->|Hc]; [by rewrite decide_True|]. by rewrite decide_False by naive_solver.
Qed.

Lemma shape_raise sk cs l r : shape sk cs -> (level sk <= l < NUM_LEVELS)%nat -> shape (set_level l (set_seed r sk)) cs.
Proof.
  intros [H1 H2 H3 H4 H5 H6 H7 H8 H9] Hl. split; try done.
  - eapply Forall_impl; [exact H5|]. cbn. intros c Hc. lia.
  - cbn. lia.
  - intros i Hi. eapply path_frame; [|by apply H9]. done.
Qed.

Lemma not_in_path f lo hi i e : f ∉ e_addr <$> lo ++ hi -> e ∈ Head :: (Cell <$> tall i (lo ++ hi)) -> e <> Cell f.
Proof.
  intros Hf He ->. apply Hf. apply elem_of_cons in He as [He|He]; [done|]. apply list_elem_of_fmap in He as (y & [= <-] & Hy).
  apply tall_elem in Hy as (c & Hc & <- & _). by apply list_elem_of_fmap_2.
Qed.

Lemma tall_NoDup i cs : NoDup (e_addr <$> cs) -> NoDup (tall i cs).
Proof. intros H. eapply sublist_NoDup; [exact H|]. apply tall_sublist. Qed.

Section Insert.
Context (sk : skiplist) (k d : Z) (lo hi : list entry) (Hs : shape sk (lo ++ hi)) (Hsp : splits (fun k' => k' <? k) lo hi).
Context (Hnew : found k hi = None) (n : nat) (Hn : (n <= level sk)%nat) (f : Z) (Hnull : f <> NULL) (Hfree : cells sk !! f = None).

Let sk1 := set_cells (<[f := mkCell k d (replicate (S n) NULL)]> (cells sk)) sk.
Let c := mkEntry f k d (S n).

Lemma fresh_addr : f ∉ e_addr <$> lo ++ hi.
Proof.
  intros Hin. assert (f ∈ dom (cells sk)) as Hd by (rewrite (sh_dom _ _ Hs); by apply elem_of_list_to_set).
  by apply not_elem_of_dom in Hfree.
Qed.
Lemma get_sk1 x i : x <> Cell f -> get sk1 x i = get sk x i.
Proof. destruct x as [|p]; [done|]. intros Hp. unfold sk1. cbn. by rewrite lookup_insert_ne by naive_solver. Qed.
Lemma paths_sk1 i : (i < NUM_LEVELS)%nat -> path sk1 i Head (tall i lo ++ tall i hi).
Proof.
  intros Hi. rewrite <- tall_app. eapply path_frame; [|apply (sh_paths _ _ Hs i Hi)]. intros x Hx. apply get_sk1.
  eapply not_in_path; [apply fresh_addr|exact Hx].
Qed.
Lemma cursor_not_new i : cursor i lo <> Cell f.
Proof.
  apply (not_in_path f lo hi i); [apply fresh_addr|]. pose proof (endpoint_elem Head (tall i lo)) as H.
  unfold cursor. rewrite tall_app, fmap_app. set_solver.
Qed.

Lemma linked : exists sk', link_levels ((fun i => cursor i lo) <$> seq 0 (S n)) 0 f sk1 = Ret sk' /\ shape sk' (lo ++ c :: hi).
Proof.
  assert (Hlv := sh_level _ _ Hs). pose proof fresh_addr as Hfr.
  destruct (link_levels_spec ((fun i => cursor i lo) <$> seq 0 (S n)) 0 sk1 f) as (sk' & E & Hsame & G).
  { intros i u Hu. apply list_lookup_fmap_Some in Hu as (m & -> & Hm). apply lookup_seq in Hm as [-> Hm]. cbn.
    split; [apply cursor_not_new|]. pose proof (paths_sk1 i ltac:(lia)) as Hp. apply path_app, path_head in Hp. by eexists. }
  { intros i Hi. rewrite length_fmap, length_seq in Hi. exists NULL. unfold sk1. cbn. rewrite lookup_insert_eq. cbn.
    change (NULL :: replicate n NULL) with (replicate (S n) NULL). by rewrite lookup_replicate_2. }
  exists sk'. split; [exact E|]. pose proof Hsame as (_ & Hlf & Hle & _).
  assert (Hgf : forall x i, (n < i)%nat -> get sk' x i = get sk1 x i).
  { intros x i Hi. rewrite G. destruct (decide _); [|done]. by rewrite Nat.sub_0_r, lookup_ge_None_2 by (rewrite length_fmap, length_seq; lia). }
  assert (Hgl : forall x i, (i <= n)%nat -> get sk' x i = if decide (x = cursor i lo) then Ret f
    else if decide (x = Cell f) then get sk1 (cursor i lo) i else get sk1 x i).
  { intros x i Hi. rewrite G, (decide_True (P := (0 <= i)%nat)) by lia. rewrite Nat.sub_0_r, list_lookup_fmap, (lookup_seq_lt 0 (S n) i) by lia. done. }
  pose proof Hsp as [Hlo Hhi]. rewrite Forall_forall in Hlo, Hhi.
  split.
  - assert (Forall (stored (cells sk1)) (c :: lo ++ hi)) as Hst.
    { constructor; [eexists; split; [apply lookup_insert_eq|apply length_replicate]|].
      pose proof (sh_cells _ _ Hs) as Hc. rewrite Forall_forall in Hc |- *. intros x Hx. destruct (Hc x Hx) as (fw & Ex & Hl).
      exists fw. split; [|done]. unfold sk1. cbn. rewrite lookup_insert_ne; [done|]. intros ->. by apply Hfr, list_elem_of_fmap_2. }
    rewrite <- Permutation_middle. eapply Forall_impl; [exact Hst|]. intros x. by apply same_cells_stored.
  - rewrite (same_cells_dom _ _ Hsame). unfold sk1. cbn. rewrite dom_insert_L, (sh_dom _ _ Hs), !fmap_app, fmap_cons. cbn. set_solver.
  - pose proof (sh_addr _ _ Hs) as Hnd. rewrite fmap_app in *. rewrite fmap_cons. apply NoDup_app in Hnd as (H1 & H2 & H3).
    apply NoDup_app. split_and!; [done|set_solver|constructor; [set_solver|done]].
  - pose proof (sh_null _ _ Hs) as Hnl. rewrite fmap_app in *. rewrite fmap_cons. cbn. set_solver.
  - pose proof (sh_height _ _ Hs) as Hh. rewrite Hle. apply Forall_app in Hh as [H1 H2]. apply Forall_app. split; [done|]. constructor; [cbn; lia|done].
  - by rewrite Hle.
  - rewrite Hlf. apply Hs.
  - pose proof (sh_sorted _ _ Hs) as Hst. apply StronglySorted_app in Hst as (H1 & H2 & H3).
    apply StronglySorted_app. split_and!; [|done|].
    + intros x y Hx Hy. apply elem_of_cons in Hy as [->|Hy]; [|by apply H1]. specialize (Hlo x Hx). cbn in Hlo |- *. lia.
    + apply StronglySorted_cons. split; [|done]. apply Forall_forall. intros y Hy. cbn. specialize (Hhi y Hy). cbn in Hhi.
      enough (e_key y <> k) by lia. intros Ey. pose proof (only_first sk k lo hi Hs Hsp y Hy Ey) as Hf. destruct hi as [|z hi']; [done|].
      injection Hf as ->. cbn in Hnew. by rewrite Ey, Z.eqb_refl in Hnew.
  - intros i Hi. rewrite tall_app, tall_cons. pose proof (tall_NoDup i _ (sh_addr _ _ Hs)) as Hnd. rewrite tall_app in Hnd. cbn [e_height c].
    destruct (decide (i < S n)%nat).
    + eapply (path_insert sk1); [by apply paths_sk1|done| | |done| | |].
      * intros Hx. apply list_elem_of_fmap in Hx as (y & ? & _). done.
      * rewrite <- tall_app. intros Hf. apply tall_elem in Hf as (x & Hx & Ex & _). change (e_addr c) with f in Ex.
        apply Hfr. rewrite <- Ex. by apply list_elem_of_fmap_2.
      * fold (cursor i lo). rewrite Hgl by lia. by rewrite decide_True.
      * fold (cursor i lo). rewrite Hgl by lia. rewrite decide_False by (intros E'; symmetry in E'; by apply cursor_not_new in E').
        by rewrite decide_True.
      * fold (cursor i lo). intros x Hx Hxf. rewrite Hgl by lia. by rewrite !decide_False.
    + eapply path_frame; [|by apply paths_sk1]. intros x Hx. apply Hgf. lia.
Qed.
End Insert.

(** ** The finite map a skip list stands for *)

Definition to_map (cs : list entry) : gmap Z Z := list_to_map ((fun c => (e_key c, e_data c)) <$> cs).

Lemma sorted_keys cs : StronglySorted (fun c d => e_key c < e_key d) cs -> NoDup (e_key <$> cs).
Proof.
  induction 1 as [|c cs Hs IH Hc]; [constructor|]. rewrite fmap_cons. constructor; [|done].
  intros Hin. apply list_elem_of_fmap in Hin as (d & Ed & Hd). rewrite Forall_forall in Hc. specialize (Hc d Hd). lia.
Qed.
Lemma to_map_middle lo c hi : NoDup (e_key <$> lo ++ c :: hi) ->
  to_map (lo ++ c :: hi) = <[e_key c := e_data c]> (to_map (lo ++ hi)) /\ to_map (lo ++ hi) !! e_key c = None.
Proof.
  intros Hn. split.
  - unfold to_map. rewrite (list_to_map_proper _ ((fun c => (e_key c, e_data c)) <$> c :: lo ++ hi)); [done| |].
    + by rewrite <- list_fmap_compose.
    + by rewrite Permutation_middle.
  - rewrite <- Permutation_middle, fmap_cons in Hn. apply NoDup_cons in Hn as [Hn _]. apply not_elem_of_list_to_map_1.
    by rewrite <- list_fmap_compose.
Qed.
Lemma to_map_absent cs k : (forall c, c ∈ cs -> e_key c <> k) -> to_map cs !! k = None.
Proof.
  intros H. apply not_elem_of_list_to_map_1. rewrite <- list_fmap_compose. intros Hin.
  apply list_elem_of_fmap in Hin as (c & -> & Hc). by apply (H c).
Qed.

Lemma lookup_found sk k lo hi : shape sk (lo ++ hi) -> splits (fun k' => k' <? k) lo hi -> to_map (lo ++ hi) !! k = found k hi.
Proof.
  intros Hs Hsp. pose proof (sorted_keys _ (sh_sorted _ _ Hs)) as Hn. pose proof Hsp as [Hlo Hhi]. rewrite Forall_forall in Hlo.
  destruct (found k hi) as [d|] eqn:Ef.
  - destruct hi as [|c hi']; [done|]. cbn in Ef. destruct (Z.eqb_spec (e_key c) k) as [Ek|]; [|done]. injection Ef as <-.
    destruct (to_map_middle lo c hi' Hn) as [-> _]. rewrite <- Ek. apply lookup_insert_eq.
  - apply to_map_absent. intros c Hc Ek. apply elem_of_app in Hc as [Hc|Hc]; [specialize (Hlo c Hc); cbn in Hlo; lia|].
    pose proof (only_first sk k lo hi Hs Hsp c Hc Ek) as Hf. destruct hi; [done|]. injection Hf as ->. cbn in Ef. by rewrite Ek, Z.eqb_refl in Ef.
Qed.

(** Replacing the data of a cell. *)
Lemma shape_update sk lo c hi cell d : shape sk (lo ++ c :: hi) -> cells sk !! e_addr c = Some cell -> key cell = e_key c ->
  shape (set_cells (<[e_addr c := mkCell (key cell) d (cell_forward cell)]> (cells sk)) sk)
    (lo ++ mkEntry (e_addr c) (e_key c) d (e_height c) :: hi).
Proof.
  intros Hs Ec Ek. pose proof Hs as [H1 H2 H3 H4 H5 H6 H7 H8 H9]. rewrite fmap_app, fmap_cons in *.
  set (c' := mkEntry (e_addr c) (e_key c) d (e_height c)).
  assert (forall i, tall i (lo ++ c' :: hi) = tall i (lo ++ c :: hi)) as Et by (intros i; by rewrite !tall_app, !tall_cons).
  split; try (by rewrite fmap_app, fmap_cons); try done.
  - apply Forall_app in H1 as [Hl Hr]. apply Forall_cons in Hr as [Hc Hr]. cbn [cells set_cells].
    assert (forall x, x ∈ lo ++ hi -> e_addr x <> e_addr c) as Hne.
    { apply NoDup_app in H3 as (_ & H3 & H3'). apply NoDup_cons in H3' as [H3' _]. intros x Hx Ex. apply elem_of_app in Hx as [Hx|Hx].
      - apply (H3 (e_addr x)); [by apply list_elem_of_fmap_2|]. rewrite Ex. by left.
      - apply H3'. rewrite <- Ex. by apply list_elem_of_fmap_2. }
    assert (forall l, (forall x, x ∈ l -> x ∈ lo ++ hi) -> Forall (stored (cells sk)) l ->
      Forall (stored (<[e_addr c := mkCell (key cell) d (cell_forward cell)]> (cells sk))) l) as Hkeep.
    { intros l Hin Hst. rewrite Forall_forall in Hst |- *. intros x Hx. destruct (Hst x Hx) as (fw & Ex & Hfw).
      exists fw. split; [|done]. rewrite lookup_insert_ne; [done|]. intros E. by apply (Hne x (Hin x Hx)). }
    apply Forall_app. split; [apply Hkeep; [set_solver|done]|]. constructor; [|apply Hkeep; [set_solver|done]].
    destruct Hc as (fw & Ec' & Hfw). rewrite Ec in Ec'. injection Ec' as ->. exists fw. cbn. by rewrite lookup_insert_eq.
  - cbn. rewrite fmap_app, fmap_cons. cbn. rewrite dom_insert_L, H2. cbn. set_solver.
  - apply Forall_app in H5 as [Hl Hr]. apply Forall_cons in Hr as [Hc Hr]. apply Forall_app. split; [done|]. by constructor.
  - apply StronglySorted_app in H8 as (K1 & K2 & K3). apply StronglySorted_cons in K3 as [K3 K4]. apply StronglySorted_app. split_and!; [|done|].
    + intros x y Hx Hy. apply elem_of_cons in Hy as [->|Hy]; [apply (K1 x c); [done|by left]|apply K1; [done|by right]].
    + by apply StronglySorted_cons.
  - intros i Hi. rewrite Et. eapply path_frame; [|by apply H9]. intros [|q] _; [done|]. cbn.
    destruct (decide (q = e_addr c)) as [->|Hq]; [|by rewrite lookup_insert_ne by done]. by rewrite lookup_insert_eq, Ec.
Qed.

Lemma shape_split sk k cs : shape sk cs -> exists lo hi, cs = lo ++ hi /\ splits (fun k' => k' <? k) lo hi.
Proof. intros Hs. apply split_exists; [apply Hs|]. intros x y Hxy Hy. lia. Qed.

(** The cell the search stops at, when it has the key. *)
Lemma stop_cell sk k lo hi : shape sk (lo ++ hi) -> splits (fun k' => k' <? k) lo hi ->
  get sk (cursor 0 lo) 0 = Ret (default NULL (e_addr <$> head hi)) /\
  forall {A} (f : Z -> skipcell -> A) (z : A),
    (if default NULL (e_addr <$> head hi) =? NULL then Ret z
     else c ← of_option (cells sk !! default NULL (e_addr <$> head hi)); Ret (if key c =? k then f (default NULL (e_addr <$> head hi)) c else z)) =
    Ret (match hi with
         | c :: _ => match cells sk !! e_addr c with Some cell => if e_key c =? k then f (e_addr c) cell else z | None => z end
         | [] => z
         end).
Proof.
  intros Hs Hsp. split; [by eapply get_cursor|]. intros A f z. destruct hi as [|c hi]; [done|].
  destruct (entry_cell sk _ c Hs ltac:(set_solver)) as (Hn & cell & E & Ek & _). cbn.
  rewrite (proj2 (Z.eqb_neq _ _)) by done. rewrite E. cbn. by rewrite Ek.
Qed.

Section Inserted.
Context `{CM : CellMemory, !CellMemoryOk CM}.

Lemma update_list sk cs lo hi n : shape sk cs -> cs = lo ++ hi ->
  take (S n) (((fun i => cursor i lo) <$> seq 0 (S (level sk))) ++ replicate (n - level sk) Head) =
  (fun i => cursor i lo) <$> seq 0 (S n).
Proof.
  intros Hs Ecs. apply list_eq. intros i. destruct (decide (i <= n)%nat) as [Hi|Hi].
  - rewrite lookup_take_lt by lia. rewrite (list_lookup_fmap _ (seq 0 (S n))), (lookup_seq_lt 0 (S n) i) by lia. cbn [fmap option_fmap option_map Nat.add].
    destruct (decide (i <= level sk)%nat).
    + rewrite lookup_app_l by (rewrite length_fmap, length_seq; lia). by rewrite list_lookup_fmap, (lookup_seq_lt 0 (S (level sk)) i) by lia.
    + rewrite lookup_app_r; rewrite length_fmap, length_seq; [|lia]. rewrite lookup_replicate_2 by lia.
      f_equal. symmetry. apply (cursor_high sk cs lo hi); [done|done|lia].
  - rewrite lookup_take_ge, lookup_ge_None_2; [done| |lia]. rewrite length_fmap, length_seq. lia.
Qed.

Lemma insert_spec sk cs k d : shape sk cs -> exists r sk' cs', caml_skiplist_insert sk k d = Ret (r, sk') /\ shape sk' cs' /\
  match r with
  | Some r => r = (if to_map cs !! k then 1 else 0) /\ to_map cs' = <[k := d]> (to_map cs)
  | None => to_map cs !! k = None /\ cs' = cs
  end.
Proof.
  intros Hs. destruct (shape_split sk k cs Hs) as (lo & hi & -> & Hsp). pose proof (sorted_keys _ (sh_sorted _ _ Hs)) as Hn.
  unfold caml_skiplist_insert. rewrite (descend_all sk _ lo hi Hs Hsp). mred. destruct (stop_cell sk k lo hi Hs Hsp) as [-> Hstop]. mred.
  rewrite (Hstop _ (fun f c => Some c) None). mred. rewrite (lookup_found sk k lo hi Hs Hsp).
  assert (found k hi = None -> exists r sk' cs', ('(new_level, sk0) ← random_level sk;
    let update := ((fun k => cursor k lo) <$> seq 0 (S (level sk))) ++ replicate (new_level - level sk0) Head in
    let sk1 := if Nat.ltb (level sk0) new_level then set_level new_level sk0 else sk0 in
    match cell_alloc (cells sk1) (16 + (Z.of_nat new_level + 1) * 8) with
    | None => Ret (None, sk1)
    | Some f => sk2 ← link_levels (take (S new_level) update) 0 f (set_cells (<[f := mkCell k d (replicate (S new_level) NULL)]> (cells sk1)) sk1);
       Ret (Some 0, sk2)
    end) = Ret (r, sk') /\ shape sk' cs' /\
    match r with Some r => r = 0 /\ to_map cs' = <[k := d]> (to_map (lo ++ hi)) | None => cs' = lo ++ hi end) as Hnew.
  { intros Hf. destruct (random_level_spec sk) as (n & r & -> & Hlt). mred. cbv zeta. change (level (set_seed r sk)) with (level sk).
    set (sk1 := if Nat.ltb (level sk) n then set_level n (set_seed r sk) else set_seed r sk).
    assert (shape sk1 (lo ++ hi) /\ (n <= level sk1)%nat /\ cells sk1 = cells sk) as (Hs1 & Hn1 & Ec).
    { unfold sk1. pose proof (sh_level _ _ Hs). destruct (Nat.ltb_spec (level sk) n).
      - split_and!; [by apply shape_raise; [|lia]|cbn; lia|done].
      - split_and!; [|cbn; lia|done]. apply (shape_raise sk _ (level sk) r) in Hs; [done|lia]. }
    destruct (cell_alloc (cells sk1) _) as [f|] eqn:Ea; [|by exists None, sk1, (lo ++ hi)].
    destruct (cell_fresh _ _ _ Ea) as [Hnull Hfree].
    rewrite (update_list sk _ lo hi n Hs eq_refl).
    destruct (linked sk1 k d lo hi Hs1 Hsp Hf n Hn1 f Hnull Hfree) as (sk' & -> & Hsh). mred.
    exists (Some 0), sk', (lo ++ mkEntry f k d (S n) :: hi). split_and!; [done|done|done|].
    by destruct (to_map_middle lo (mkEntry f k d (S n)) hi (sorted_keys _ (sh_sorted _ _ Hsh))) as [-> _]. }
  destruct hi as [|c hi]; [destruct (Hnew eq_refl) as (r & sk' & cs' & E & Hsh & Hr); exists r, sk', cs'; split_and!; [exact E|done|by destruct r]|].
  destruct (entry_cell sk _ c Hs ltac:(set_solver)) as (Hnl & cell & E & Ek & _). rewrite E. unfold found in *.
  destruct (Z.eqb_spec (e_key c) k) as [Eck|Eck].
  - eexists _, _, _. split; [reflexivity|]. split; [by apply shape_update|]. split; [done|].
    destruct (to_map_middle lo c hi Hn) as [-> Hnone].
    destruct (to_map_middle lo (mkEntry (e_addr c) (e_key c) d (e_height c)) hi) as [-> _]; [by rewrite fmap_app, fmap_cons in *|].
    cbn. by rewrite Eck, insert_insert_eq.
  - destruct (Hnew eq_refl) as (r & sk' & cs' & Er & Hsh & Hr). exists r, sk', cs'. split_and!; [exact Er|done|by destruct r].
Qed.
End Inserted.

(** ** Deletion *)

Lemma unlink_levels_spec us : forall i sk f,
  (forall n u, us !! n = Some u -> u <> Cell f /\ exists w, get sk u (i + n) = Ret w /\
     (w = f -> exists y, get sk (Cell f) (i + n) = Ret y)) ->
  exists sk', unlink_levels us i f sk = Ret sk' /\ same_cells sk sk' /\
    forall x j, get sk' x j =
      match (if decide (i <= j)%nat then us !! (j - i)%nat else None) with
      | Some u => if decide (x = u /\ get sk u j = Ret f) then get sk (Cell f) j else get sk x j
      | None => get sk x j
      end.
Proof.
  induction us as [|u us IH]; intros i sk f Hu; cbn [unlink_levels].
  - exists sk. split_and!; try done. intros x j. by destruct (decide _).
  - destruct (Hu 0%nat u eq_refl) as [Hne (w & Hw & Hy)]. rewrite Nat.add_0_r in *. rewrite Hw. mred.
    assert (exists sk1, (if w =? f then n ← get sk (Cell f) i; set sk u i n else Ret sk) = Ret sk1 /\ same_cells sk sk1 /\
      (forall x j, get sk1 x j = if decide (x = u /\ j = i /\ w = f) then get sk (Cell f) j else get sk x j)) as (sk1 & -> & S1 & G1).
    { destruct (Z.eqb_spec w f) as [Ewf|Hwf].
      - destruct (Hy Ewf) as [y Ey]. rewrite Ey. mred. destruct (set_spec sk u i y w Hw) as (sk1 & -> & S1 & G1). exists sk1. split_and!; try done.
        intros x j. rewrite G1. destruct (decide (x = u /\ j = i)) as [[-> ->]|Hn]; [by rewrite decide_True|]. by rewrite decide_False by naive_solver.
      - exists sk. split_and!; try done. intros x j. by rewrite decide_False by naive_solver. }
    mred. assert (G : forall x j, j <> i -> get sk1 x j = get sk x j) by (intros x j Hj; rewrite G1, decide_False by naive_solver; done).
    destruct (IH (S i) sk1 f) as (sk' & E & S' & G').
    + intros n v Hv. destruct (Hu (S n) v Hv) as [? (z & Hz & Hzy)]. split; [done|]. exists z. rewrite !G by lia.
      replace (S i + n)%nat with (i + S n)%nat by lia. done.
    + exists sk'. split; [done|]. split; [by rewrite S1|]. intros x j. rewrite G'.
      destruct (decide (i <= j)%nat) as [Hj|Hj]; [|by rewrite decide_False, G by lia].
      destruct (decide (S i <= j)%nat) as [Hj'|Hj'].
      * replace (j - i)%nat with (S (j - S i)) by lia. change ((u :: us) !! S (j - S i)) with (us !! (j - S i)%nat). destruct (us !! (j - S i)%nat) as [v|]; [|by rewrite G by lia].
        rewrite (G (Cell f)), (G x) by lia. apply decide_ext. by rewrite G by lia.
      * replace j with i by lia. rewrite Nat.sub_diag. change ((u :: us) !! 0%nat) with (Some u). rewrite G1, Hw.
        destruct (decide (x = u /\ i = i /\ w = f)) as [(-> & _ & ->)|Hn]; [by rewrite decide_True|].
        rewrite decide_False; [done|]. intros [-> [= ->]]. by apply Hn.
Qed.

Lemma down_correct_spec n : forall sk cs, shape (set_level n sk) cs -> exists l, down_correct n sk = Ret (set_level l sk) /\ shape (set_level l sk) cs.
Proof.
  induction n as [|n IH]; intros sk cs Hs; cbn [down_correct]; [by exists 0%nat|].
  pose proof (sh_level _ _ Hs) as Hl. cbn [level set_level] in Hl. pose proof (sh_paths _ _ Hs (S n) Hl) as Hp.
  pose proof (path_head _ _ _ _ Hp) as Hg. change (get (set_level (S n) sk) Head (S n)) with (get sk Head (S n)) in Hg. rewrite Hg. mred.
  destruct (Z.eqb_spec (default NULL (head (tall (S n) cs))) NULL) as [E|E]; [|by exists (S n)].
  assert (tall (S n) cs = []) as Et.
  { destruct (tall (S n) cs) as [|p l] eqn:Et; [done|]. cbn in E. exfalso. apply (sh_null _ _ Hs).
    assert (p ∈ tall (S n) cs) as Hin by (rewrite Et; by left). apply tall_elem in Hin as (c & Hc & Ec & _).
    rewrite <- E, <- Ec. by apply list_elem_of_fmap_2. }
  apply IH. destruct Hs as [H1 H2 H3 H4 H5 H6 H7 H8 H9]. split; try done.
  - rewrite Forall_forall in H5 |- *. intros c Hc. specialize (H5 c Hc). cbn in H5 |- *.
    enough (~ (S n < e_height c)%nat) by lia. intros Hlt. assert (e_addr c ∈ tall (S n) cs) as Hin by (apply tall_elem; by exists c).
    rewrite Et in Hin. by apply elem_of_nil in Hin.
  - cbn in *. lia.
  - intros i Hi. eapply path_frame; [|by apply H9]. done.
Qed.

Section Remove.
Context (sk : skiplist) (k : Z) (lo hi : list entry) (c : entry) (Hs : shape sk (lo ++ c :: hi)).

Let us := (fun i => cursor i lo) <$> seq 0 (S (level sk)).

Lemma tall_removed i : tall i (lo ++ c :: hi) = tall i lo ++ (if decide (i < e_height c)%nat then e_addr c :: tall i hi else tall i hi).
Proof. by rewrite tall_app, tall_cons. Qed.

Lemma cursor_link i : (i < NUM_LEVELS)%nat -> get sk (cursor i lo) i =
  Ret (if decide (i < e_height c)%nat then e_addr c else default NULL (head (tall i hi))).
Proof.
  intros Hi. pose proof (sh_paths _ _ Hs i Hi) as Hp. rewrite tall_removed in Hp. apply path_app, path_head in Hp.
  fold (cursor i lo) in Hp. rewrite Hp. by destruct (decide _).
Qed.

Lemma removed_addrs : e_addr c ∉ e_addr <$> lo ++ hi.
Proof.
  pose proof (sh_addr _ _ Hs) as Hnd. rewrite <- Permutation_middle, fmap_cons in Hnd. by apply NoDup_cons in Hnd as [? _].
Qed.
Lemma removed_link i : default NULL (head (tall i hi)) <> e_addr c.
Proof.
  destruct (head (tall i hi)) as [p|] eqn:E; cbn.
  - intros ->. apply tall_head in E as (x & Hx & Ex). apply removed_addrs. rewrite <- Ex. apply list_elem_of_fmap_2. set_solver.
  - intros E'. apply (sh_null _ _ Hs). rewrite E'. apply list_elem_of_fmap_2. set_solver.
Qed.

Lemma unlinked : exists sk', unlink_levels us 0 (e_addr c) sk = Ret sk' /\ level sk' = level sk /\
  shape (set_cells (delete (e_addr c) (cells sk')) sk') (lo ++ hi).
Proof.
  pose proof (sh_level _ _ Hs) as Hlv. pose proof removed_addrs as Hra.
  assert (forall i, cursor i lo <> Cell (e_addr c)) as Hcur.
  { intros i. apply (not_in_path (e_addr c) lo hi i); [done|]. pose proof (endpoint_elem Head (tall i lo)) as H.
    unfold cursor. rewrite tall_app, fmap_app. set_solver. }
  assert (forall i, (i < e_height c)%nat -> exists y, get sk (Cell (e_addr c)) i = Ret y) as Hown.
  { intros i Hi. destruct (entry_cell sk _ c Hs ltac:(set_solver)) as (_ & cell & E & _ & _ & El). cbn. rewrite E. cbn.
    destruct (lookup_lt_is_Some_2 (cell_forward cell) i) as [y Ey]; [lia|]. exists y. by rewrite Ey. }
  destruct (unlink_levels_spec us 0 sk (e_addr c)) as (sk' & E & Hsame & G).
  { intros i u Hu. unfold us in Hu. apply list_lookup_fmap_Some in Hu as (m & -> & Hm). apply lookup_seq in Hm as [-> Hm]. cbn.
    split; [apply Hcur|]. eexists. split; [apply cursor_link; lia|]. intros Ew. apply Hown.
    destruct (decide (i < e_height c)%nat); [done|]. by apply removed_link in Ew. }
  exists sk'. split; [exact E|]. pose proof Hsame as (_ & Hlf & Hle & _). split; [done|].
  assert (Hg : forall x i, (i < NUM_LEVELS)%nat -> x <> Cell (e_addr c) -> get (set_cells (delete (e_addr c) (cells sk')) sk') x i =
    if decide (x = cursor i lo /\ (i < e_height c)%nat) then get sk (Cell (e_addr c)) i else get sk x i).
  { intros x i Hi Hx. transitivity (get sk' x i).
    { destruct x as [|q]; [done|]. cbn. by rewrite lookup_delete_ne by naive_solver. }
    rewrite G, (decide_True (P := (0 <= i)%nat)), Nat.sub_0_r by lia. unfold us. rewrite list_lookup_fmap.
    pose proof (sh_height _ _ Hs) as Hh. rewrite Forall_forall in Hh. specialize (Hh c ltac:(set_solver)).
    destruct (decide (i <= level sk)%nat) as [Hil|Hil].
    - rewrite (lookup_seq_lt 0 (S (level sk)) i) by lia. cbn [fmap option_fmap option_map Nat.add]. rewrite cursor_link by done.
      destruct (decide (x = cursor i lo)) as [->|Hxc]; [|by rewrite !decide_False by naive_solver].
      destruct (decide (i < e_height c)%nat); [by rewrite !decide_True|]. rewrite !decide_False; [done|..].
      + by intros [_ ?].
      + intros [_ [= Eh]]. by apply removed_link in Eh.
    - rewrite (lookup_seq_ge 0 (S (level sk)) i) by lia. cbn. by rewrite decide_False by (intros [_ ?]; lia). }
  destruct Hs as [H1 H2 H3 H4 H5 H6 H7 H8 H9]. rewrite <- Permutation_middle in H1, H5. apply Forall_cons in H1 as [_ H1]. apply Forall_cons in H5 as [_ H5].
  split.
  - rewrite Forall_forall in H1 |- *. intros x Hx. pose proof (same_cells_stored _ _ x Hsame (H1 x Hx)) as (fw & Ex & Hfw).
    exists fw. split; [|done]. cbn. rewrite lookup_delete_ne; [done|]. intros Eq. apply Hra. rewrite Eq. by apply list_elem_of_fmap_2.
  - cbn. rewrite dom_delete_L, (same_cells_dom _ _ Hsame), H2. rewrite !fmap_app, fmap_cons in *. cbn. set_solver.
  - rewrite <- Permutation_middle, fmap_cons in H3. by apply NoDup_cons in H3 as [_ ?].
  - rewrite fmap_app, fmap_cons in *. set_solver.
  - cbn. by rewrite Hle.
  - cbn. by rewrite Hle.
  - cbn. by rewrite Hlf.
  - apply StronglySorted_app in H8 as (K1 & K2 & K3). apply StronglySorted_cons in K3 as [_ K3]. apply StronglySorted_app. split_and!; [|done..].
    intros x y Hx Hy. apply K1; [done|by right].
  - intros i Hi. specialize (H9 i Hi). rewrite tall_removed in H9. rewrite tall_app.
    pose proof (tall_NoDup i _ H3) as Hnd. rewrite tall_removed in Hnd.
    assert (forall x, x ∈ Head :: (Cell <$> tall i lo ++ tall i hi) -> x <> Cell (e_addr c)) as Hnp.
    { intros x Hx. rewrite <- tall_app in Hx. by eapply not_in_path. }
    destruct (decide (i < e_height c)%nat) as [Hic|Hic].
    + eapply (path_remove sk _ i (e_addr c)); [exact H9|done| | |].
      * intros Hx. apply list_elem_of_fmap in Hx as (? & ? & _). done.
      * fold (cursor i lo). rewrite Hg by done. by rewrite decide_True.
      * fold (cursor i lo). intros x Hx Hxc. rewrite Hg by done. by rewrite decide_False by naive_solver.
    + eapply path_frame; [|exact H9]. intros x Hx. rewrite Hg by (try apply Hnp; done). by rewrite decide_False by (intros [_ ?]; lia).
Qed.
End Remove.

Lemma remove_spec sk cs k : shape sk cs -> exists sk' cs', caml_skiplist_remove sk k = Ret (if to_map cs !! k then 1 else 0, sk') /\
  shape sk' cs' /\ to_map cs' = delete k (to_map cs).
Proof.
  intros Hs. destruct (shape_split sk k cs Hs) as (lo & hi & -> & Hsp). pose proof (sorted_keys _ (sh_sorted _ _ Hs)) as Hn.
  unfold caml_skiplist_remove. rewrite (descend_all sk _ lo hi Hs Hsp). mred. destruct (stop_cell sk k lo hi Hs Hsp) as [-> Hstop]. mred.
  pose proof (Hstop bool (fun _ _ => true) false) as Hst.
  assert ((if default NULL (e_addr <$> head hi) =? NULL then Ret false
    else c ← of_option (cells sk !! default NULL (e_addr <$> head hi)); Ret (key c =? k)) = Ret (bool_decide (is_Some (found k hi)))) as ->.
  { etrans; [|etrans; [exact Hst|]].
    - destruct (_ =? NULL); [done|]. destruct (of_option _); try done. mred. by destruct (_ =? k).
    - destruct hi as [|c hi]; [done|]. destruct (entry_cell sk _ c Hs ltac:(set_solver)) as (_ & cell & -> & _). cbn.
      destruct (_ =? k); [by rewrite bool_decide_true by eauto|]. rewrite bool_decide_false; [done|]. by intros [? ?]. }
  mred. pose proof (lookup_found sk k lo hi Hs Hsp) as Hlf. rewrite Hlf. clear Hst Hstop. destruct (found k hi) as [d|] eqn:Ef.
  - rewrite bool_decide_true by eauto. destruct hi as [|c hi]; [done|]. cbn in Ef. destruct (Z.eqb_spec (e_key c) k) as [Ek|]; [|done].
    change (default NULL (e_addr <$> head (c :: hi))) with (e_addr c).
    destruct (unlinked sk lo hi c Hs) as (sk' & -> & Hle & Hsh). mred.
    set (sk2 := set_cells _ sk') in *. destruct (down_correct_spec (level sk2) sk2 (lo ++ hi)) as (l & -> & Hsh').
    { eapply (shape_raise sk2 _ (level sk2) (random_seed sk2)) in Hsh; [|split; [done|apply Hsh]]. by destruct sk'. }
    mred. exists (set_level l sk2), (lo ++ hi). split_and!; [done|done|].
    destruct (to_map_middle lo c hi Hn) as [-> Hnone]. rewrite Ek in *. by rewrite delete_insert_id.
  - rewrite bool_decide_false by (by intros [? ?]). exists sk, (lo ++ hi). split_and!; [done|done|]. by rewrite delete_id.
Qed.

(** ** Greatest key below, iteration, emptying *)

Lemma to_map_lookup cs k d : NoDup (e_key <$> cs) -> to_map cs !! k = Some d <-> exists c, c ∈ cs /\ e_key c = k /\ e_data c = d.
Proof.
  intros Hn. unfold to_map. rewrite <- elem_of_list_to_map by (by rewrite <- list_fmap_compose). rewrite list_elem_of_fmap. naive_solver.
Qed.

Lemma find_below_spec sk cs k : shape sk cs -> exists r, caml_skiplist_find_below sk k = Ret r /\
  match r with
  | Some (k', d) => to_map cs !! k' = Some d /\ k' <= k /\ forall k'', is_Some (to_map cs !! k'') -> k'' <= k -> k'' <= k'
  | None => forall k'', is_Some (to_map cs !! k'') -> k < k''
  end.
Proof.
  intros Hs. destruct (split_exists (fun k' => k' <=? k) cs (sh_sorted _ _ Hs) ltac:(intros x y ? ?; lia)) as (lo & hi & -> & Hsp).
  unfold caml_skiplist_find_below. rewrite (descend_all sk _ lo hi Hs Hsp). mred. pose proof (sorted_keys _ (sh_sorted _ _ Hs)) as Hn.
  destruct Hsp as [Hlo Hhi]. rewrite Forall_forall in Hlo, Hhi.
  assert (forall k'', is_Some (to_map (lo ++ hi) !! k'') -> k'' <= k -> exists c, c ∈ lo /\ e_key c = k'') as Hbelow.
  { intros k'' [d Hd] Hk. apply to_map_lookup in Hd as (c & Hc & <- & _); [|done]. exists c. split; [|done].
    apply elem_of_app in Hc as [Hc|Hc]; [done|]. specialize (Hhi c Hc). cbn in Hhi. lia. }
  unfold cursor. destruct (tall_zero sk lo hi Hs) as [-> _]. induction lo as [|c lo _] using rev_ind.
  - exists None. split; [done|]. intros k'' Hk. destruct (Z.ltb_spec k k''); [done|].
    destruct (Hbelow k'' Hk ltac:(lia)) as (c & Hc & _). by apply elem_of_nil in Hc.
  - rewrite fmap_app, endpoint_app. cbn [fmap list_fmap endpoint fold_left].
    destruct (entry_cell sk _ c Hs ltac:(set_solver)) as (_ & cell & E & Ek & Ed & _). cbn. rewrite E. cbn. rewrite Ek, Ed.
    eexists. split; [reflexivity|]. specialize (Hlo c ltac:(set_solver)) as Hck. cbn in Hck. split_and!.
    + apply to_map_lookup; [done|]. exists c. split; [set_solver|done].
    + lia.
    + intros k'' Hk Hle. destruct (Hbelow k'' Hk Hle) as (x & Hx & <-). apply elem_of_app in Hx as [Hx|Hx].
      * pose proof (sh_sorted _ _ Hs) as Hst. rewrite <- app_assoc in Hst. pose proof (StronglySorted_app_1_elem_of _ _ _ x c Hst Hx) as Hlt.
        specialize (Hlt ltac:(set_solver)). cbn in Hlt. lia.
      * apply list_elem_of_singleton in Hx as ->. lia.
Qed.

(** The links of level 0 go through all the cells. *)
Lemma zero_path sk cs : shape sk cs -> path sk 0 Head (e_addr <$> cs).
Proof.
  intros Hs. rewrite <- (tall_all 0 cs).
  - apply (sh_paths _ _ Hs). unfold NUM_LEVELS. lia.
  - eapply Forall_impl; [apply (sh_height _ _ Hs)|]. cbn. intros c Hc. lia.
Qed.

Lemma elements_spec sk cs : shape sk cs -> skiplist_elements sk = Ret ((fun c => (e_key c, e_data c)) <$> cs).
Proof.
  intros Hs. pose proof (zero_path sk cs Hs) as Hp. unfold skiplist_elements. rewrite (path_head _ _ _ _ Hp). mred.
  pose proof (rounds_bound _ _ Hs) as Hr. revert Hr. generalize (rounds sk). revert Hp. generalize Head.
  assert (forall c, c ∈ cs -> e_addr c <> NULL /\ exists cell, cells sk !! e_addr c = Some cell /\ key cell = e_key c /\ data cell = e_data c) as Hc.
  { intros c Hc. destruct (entry_cell sk cs c Hs Hc) as (? & cell & ? & ? & ? & _). split; [done|]. by exists cell. }
  clear Hs. induction cs as [|c cs IH]; intros e Hp [|n] Hn; cbn [length] in Hn; try lia; [done|].
  destruct Hp as [_ Hp]. change (path sk 0 (Cell (e_addr c)) (e_addr <$> cs)) in Hp.
  change (default NULL (head (e_addr <$> c :: cs))) with (e_addr c). cbn [elements_from].
  destruct (Hc c ltac:(by left)) as (Hnl & cell & E & Ek & Ed). rewrite (proj2 (Z.eqb_neq _ _)) by done.
  rewrite (path_head _ _ _ _ Hp). mred. rewrite E. cbn [of_option]. mred.
  rewrite (IH ltac:(set_solver) (Cell (e_addr c)) Hp n) by lia. mred. by rewrite Ek, Ed.
Qed.

Lemma free_cells_spec l : forall sk fuel, (forall p l', l = p :: l' -> path sk 0 (Cell p) l') -> NoDup l -> NULL ∉ l ->
  (length l < fuel)%nat -> free_cells fuel (default NULL (head l)) sk = Ret (set_cells (foldr delete (cells sk) (rev l)) sk).
Proof.
  induction l as [|p l IH]; intros sk [|n] Hp Hn Hnl Hf; cbn [length] in Hf; try lia; [by destruct sk|].
  specialize (Hp p l eq_refl). change (default NULL (head (p :: l))) with p. cbn [free_cells]. apply NoDup_cons in Hn as [Hpl Hn].
  rewrite (proj2 (Z.eqb_neq _ _)) by set_solver. rewrite (path_head _ _ _ _ Hp). mred.
  rewrite IH; [|intros q l' ->|done|set_solver|lia].
  - cbn [rev]. by rewrite foldr_app.
  - destruct Hp as [_ Hp]. eapply path_frame; [|exact Hp]. intros x Hx. change (Cell q :: (Cell <$> l')) with (Cell <$> q :: l') in Hx.
    apply list_elem_of_fmap in Hx as (y & -> & Hy). cbn. rewrite lookup_delete_ne; [done|]. by intros ->.
Qed.

Lemma foldr_delete_empty (l : list Z) : forall m : gmap Z skipcell, (forall p, p ∈ dom m -> p ∈ l) -> foldr delete m l = ∅.
Proof.
  intros m Hm. apply map_empty. intros p. assert (foldr delete m l !! p = None \/ p ∉ l /\ foldr delete m l !! p = m !! p) as H.
  { clear Hm. induction l as [|q l IH]; [right; split; [set_solver|done]|]. cbn. destruct (decide (p = q)) as [->|Hq]; [left; apply lookup_delete_eq|].
    rewrite lookup_delete_ne by done. destruct IH as [?|[? ?]]; [by left|]. right. split; [set_solver|done]. }
  destruct H as [?|[Hn ->]]; [done|]. destruct (m !! p) eqn:E; [|done]. exfalso. apply Hn, Hm, elem_of_dom. by eexists.
Qed.

Lemma clear_levels_spec n : forall sk, (n <= length (forward sk))%nat -> exists sk', clear_levels n sk = Ret sk' /\ same_cells sk sk' /\
  forall x j, get sk' x j = if decide (x = Head /\ (j < n)%nat) then Ret NULL else get sk x j.
Proof.
  induction n as [|n IH]; intros sk Hn; cbn [clear_levels].
  - exists sk. split_and!; try done. intros x j. by rewrite decide_False by (intros [_ ?]; lia).
  - destruct (IH sk ltac:(lia)) as (sk1 & -> & S1 & G1). mred. destruct (lookup_lt_is_Some_2 (forward sk1) n) as [w Hw].
    { destruct S1 as (_ & -> & _). lia. }
    destruct (set_spec sk1 Head n NULL w) as (sk2 & -> & S2 & G2); [cbn; by rewrite Hw|]. exists sk2. split; [done|]. split; [by rewrite S1|].
    intros x j. rewrite G2, G1. destruct (decide (x = Head /\ j = n)) as [[-> ->]|H1]; [by rewrite decide_True by (split; [done|lia])|].
    apply decide_ext. split; intros [-> Hj]; (split; [done|]); [lia|]. destruct (decide (j = n)); [naive_solver|lia].
Qed.

Lemma empty_spec sk cs : shape sk cs -> exists sk', caml_skiplist_empty sk = Ret sk' /\ shape sk' [] /\ cells sk' = ∅.
Proof.
  intros Hs. pose proof (zero_path sk cs Hs) as Hp. unfold caml_skiplist_empty. rewrite (path_head _ _ _ _ Hp). mred.
  rewrite free_cells_spec; [|..].
  - mred. rewrite foldr_delete_empty. 2:{ intros p. rewrite (sh_dom _ _ Hs), elem_of_list_to_set. rewrite !list_elem_of_In. apply in_rev. }
    set (sk1 := set_cells ∅ sk). destruct (clear_levels_spec (S (level sk)) sk1) as (sk2 & E & Hsame & G).
    { cbn. rewrite (sh_forward _ _ Hs). pose proof (sh_level _ _ Hs). lia. }
    change (level sk1) with (level sk). rewrite E. mred. exists (set_level 0 sk2). split; [done|].
    pose proof (same_cells_dom _ _ Hsame) as Hdom. cbn in Hdom. rewrite dom_empty_L in Hdom. apply dom_empty_inv_L in Hdom.
    destruct Hsame as (_ & Hlf & _ & _). split; [|done]. split; try done.
    + cbn. rewrite Hdom. by rewrite dom_empty_L.
    + constructor.
    + intros Hin. by apply elem_of_nil in Hin.
    + cbn. unfold NUM_LEVELS. lia.
    + cbn. rewrite Hlf. apply Hs.
    + constructor.
    + intros i Hi. cbn [tall fmap list_fmap filter path]. change (get sk2 Head i = Ret NULL). rewrite G. destruct (decide _) as [|Hn]; [done|].
      change (get sk1 Head i) with (get sk Head i). rewrite (path_head _ _ _ _ (sh_paths _ _ Hs i Hi)).
      replace (tall i cs) with (@nil Z); [done|]. symmetry. destruct (tall i cs) as [|p l] eqn:Et; [done|].
      assert (p ∈ tall i cs) as Hin by (rewrite Et; by left). apply tall_elem in Hin as (c & Hc & _ & Hic).
      pose proof (sh_height _ _ Hs) as Hh. rewrite Forall_forall in Hh. specialize (Hh c Hc). exfalso. apply Hn. split; [done|lia].
  - intros p l Hl. rewrite Hl in Hp. by destruct Hp.
  - apply Hs.
  - apply Hs.
  - rewrite length_fmap. by apply rounds_bound.
Qed.

Lemma init_shape sk : cells sk = ∅ -> shape (caml_skiplist_init sk) [].
Proof.
  intros Ec. split; try done.
  - cbn. by rewrite Ec, dom_empty_L.
  - constructor.
  - intros Hin. by apply elem_of_nil in Hin.
  - cbn. unfold NUM_LEVELS. lia.
  - constructor.
  - intros i Hi. change (of_option (replicate NUM_LEVELS NULL !! i) = Ret NULL). by rewrite lookup_replicate_2.
Qed.

(** ** Properties *)

(** The skip list stands for a finite map. *)
Definition represents (sk : skiplist) (m : gmap Z Z) : Prop := exists cs, shape sk cs /\ to_map cs = m.

(** ** What a skip list promises to its clients

    [random_seed] is shared by all the skip lists: a client passes it from
    one to the next. *)
Class Dictionary (D : Type) : Type := {
  dict_repr : D -> gmap Z Z -> Prop;
  dict_seed : D -> Z;
  dict_set_seed : Z -> D -> D;
  dict_insert : D -> Z -> Z -> result (option Z * D);
  dict_remove : D -> Z -> result (Z * D);
  dict_elements : D -> result (list (Z * Z));
  dict_clear : D -> result D;
}.
Class DictionaryOk (D : Type) `{!Dictionary D} : Prop := {
  dict_seeded : forall d m r, dict_repr d m -> dict_repr (dict_set_seed r d) m;
  dict_inserted : forall d m k x, dict_repr d m -> exists r d', dict_insert d k x = Ret (r, d') /\
    dict_repr d' (match r with Some _ => <[k := x]> m | None => m end);
  dict_removed : forall d m k, dict_repr d m -> exists r d', dict_remove d k = Ret (r, d') /\ dict_repr d' (delete k m);
  dict_iterated : forall d m, dict_repr d m -> exists l, dict_elements d = Ret l /\ list_to_map l = m /\ NoDup l.*1;
  dict_cleared : forall d m, dict_repr d m -> exists d', dict_clear d = Ret d' /\ dict_repr d' ∅;
}.

#[export] Instance skiplist_dictionary `{CM : CellMemory} : Dictionary skiplist := {|
  dict_repr := represents;
  dict_seed := random_seed;
  dict_set_seed := set_seed;
  dict_insert := caml_skiplist_insert;
  dict_remove := caml_skiplist_remove;
  dict_elements := skiplist_elements;
  dict_clear := caml_skiplist_empty;
|}.
#[export] Instance skiplist_dictionary_ok `{CM : CellMemory, !CellMemoryOk CM} : DictionaryOk skiplist.
Proof.
  split; intros sk m.
  - intros r (cs & Hs & <-). exists cs. split; [|done]. apply (shape_raise sk cs (level sk) r) in Hs; [done|].
    split; [done|apply (sh_level _ _ Hs)].
  - intros k x (cs & Hs & <-). destruct (insert_spec sk cs k x Hs) as (r & sk' & cs' & E & Hs' & Hr). exists r, sk'. split; [done|].
    exists cs'. split; [done|]. destruct r; [apply Hr|by destruct Hr as [_ ->]].
  - intros k (cs & Hs & <-). destruct (remove_spec sk cs k Hs) as (sk' & cs' & E & Hs' & <-). eexists _, sk'. split; [exact E|]. by exists cs'.
  - intros (cs & Hs & <-). eexists. split; [by apply elements_spec|]. split; [done|]. rewrite <- list_fmap_compose. by apply sorted_keys, Hs.
  - intros (cs & Hs & <-). destruct (empty_spec sk cs Hs) as (sk' & E & Hs' & _). exists sk'. split; [done|]. by exists [].
Qed.

(** C12: Skip lists implement finite maps ordered by keys.  Every operation
    terminates without undefined behaviour and has the result its interface
    announces: [caml_skiplist_find] looks a key up, [caml_skiplist_find_below]
    finds the greatest key that is not above, insertion and deletion update
    the map and say whether the key was there, a failed allocation leaves the
    map unchanged, iteration goes through the bindings by increasing keys and
    [caml_skiplist_empty] frees every cell. *)
Theorem skiplist_refines `{CM : CellMemory, !CellMemoryOk CM} :
  (forall sk, cells sk = ∅ -> represents (caml_skiplist_init sk) ∅) /\
  forall sk m, represents sk m ->
    (forall k, caml_skiplist_find sk k = Ret (m !! k)) /\
    (forall k, exists r, caml_skiplist_find_below sk k = Ret r /\
      match r with
      | Some (k', d) => m !! k' = Some d /\ k' <= k /\ forall k'', is_Some (m !! k'') -> k'' <= k -> k'' <= k'
      | None => forall k'', is_Some (m !! k'') -> k < k''
      end) /\
    (forall k d, exists r sk', caml_skiplist_insert sk k d = Ret (r, sk') /\
      match r with
      | Some r => r = (if m !! k then 1 else 0) /\ represents sk' (<[k := d]> m)
      | None => m !! k = None /\ represents sk' m
      end) /\
    (forall k, exists sk', caml_skiplist_remove sk k = Ret (if m !! k then 1 else 0, sk') /\ represents sk' (delete k m)) /\
    (exists l, skiplist_elements sk = Ret l /\ list_to_map l = m /\ StronglySorted (fun a b => a.1 < b.1) l) /\
    (exists sk', caml_skiplist_empty sk = Ret sk' /\ represents sk' ∅ /\ cells sk' = ∅).
Proof.
  split; [intros sk Ec; exists []; split; [by apply init_shape|done]|]. intros sk m (cs & Hs & <-). split_and!.
  - intros k. destruct (shape_split sk k cs Hs) as (lo & hi & -> & Hsp). by rewrite (find_spec sk k lo hi Hs Hsp), (lookup_found sk k lo hi Hs Hsp).
  - intros k. by apply find_below_spec.
  - intros k d. destruct (insert_spec sk cs k d Hs) as (r & sk' & cs' & E & Hs' & Hr). exists r, sk'. split; [done|].
    destruct r; [destruct Hr as [-> <-]|destruct Hr as [? ->]]; (split; [done|]); by eexists.
  - intros k. destruct (remove_spec sk cs k Hs) as (sk' & cs' & E & Hs' & <-). exists sk'. split; [done|]. by exists cs'.
  - eexists. split; [by apply elements_spec|]. split; [done|]. pose proof (sh_sorted _ _ Hs) as Hst. clear Hs.
    induction Hst as [|c l Hl IH Hc]; [constructor|].
    rewrite fmap_cons. apply StronglySorted_cons. split; [|done]. by apply Forall_fmap.
  - destruct (empty_spec sk cs Hs) as (sk' & E & Hs' & Ec). exists sk'. split_and!; [exact E|by exists []|exact Ec].
Qed.

(** ** Examples *)

Definition fresh_cells : CellMemory := fun m _ => Some (fresh ({[NULL]} ∪ dom m : gset Z)).
#[export] Instance fresh_cells_ok : CellMemoryOk fresh_cells.
Proof.
  intros m n p [= <-]. pose proof (is_fresh ({[NULL]} ∪ dom m : gset Z)) as Hf. split; [set_solver|].
  apply not_elem_of_dom. set_solver.
Qed.

Definition ex_empty : skiplist := caml_skiplist_init (mkSkiplist [] 0 ∅ 0).
Fixpoint insert_all (l : list (Z * Z)) (sk : skiplist) : result skiplist :=
  match l with
  | [] => Ret sk
  | (k, d) :: l => '(_, sk) ← caml_skiplist_insert (CM := fresh_cells) sk k d; insert_all l sk
  end.
Definition ex_list : list (Z * Z) := (fun i => (i * 37 mod 101, i)) <$> seqZ 1 40.
(** Forty insertions reach the levels above 0; then a deletion. *)
Example skiplist_example :
  (sk ← insert_all ex_list ex_empty;
   a ← caml_skiplist_find sk 37;
   b ← caml_skiplist_find_below sk 38;
   '(r, sk') ← caml_skiplist_remove sk 37;
   c ← caml_skiplist_find sk' 37;
   l ← skiplist_elements sk';
   Ret (a, b, r, c, length l, Nat.leb 1 (level sk))) = Ret (Some 1, Some (37, 1), 1, None, 39%nat, true).
Proof. vm_compute. reflexivity. Qed.

Lemma skiplist_refines_witness : exists r sk, caml_skiplist_insert (CM := fresh_cells) ex_empty 5 7 = Ret (r, sk) /\
  match r with Some r => r = 0 /\ represents sk {[5 := 7]} | None => represents sk ∅ end.
Proof.
  destruct (skiplist_refines (CM := fresh_cells)) as [Hi Hr].
  destruct (Hr ex_empty ∅ (Hi (mkSkiplist [] 0 ∅ 0) eq_refl)) as (_ & _ & Hins & _).
  destruct (Hins 5 7) as (r & sk & E & Hres). exists r, sk. split; [exact E|]. destruct r as [r|].
  - destruct Hres as [-> Hres]. split; [reflexivity|]. exact Hres.
  - exact (proj2 Hres).
Defined.
End Skiplist.
