(* ===== verification/GlobRoots.v ===== *)
(** * Global roots (runtime/globroots.c)

    C code registers the addresses of its variables that hold values.  The
    generational roots are kept in two lists, so that a minor collection only
    scans those that may point to the minor heap.  The lists are dictionaries
    in the sense of [Skiplist]; the contents of the roots are a map from their
    addresses; one thread runs. *)

From S2P Require Import Prelude Memory Skiplist.
From stdpp Require Import list.
Import Skiplist.
#[local] Open Scope Z_scope.

Module GlobRoots.

Inductive gc_root_class := YOUNG | OLD | UNTRACKED.
#[export] Instance gc_root_class_eq_dec : EqDecision gc_root_class.
Proof. solve_decision. Defined.

Definition classify_gc_root (h : heap) (v : Z) : gc_root_class :=
  if negb (Is_block v) then UNTRACKED
  else if Is_young h v then YOUNG
  else OLD.

(** The three lists, the seed of the skip lists, [roots_mutex], and the
    contents of the C variables. *)
Record roots (D : Type) := mkRoots {
  caml_global_roots : D;
  caml_global_roots_young : D;
  caml_global_roots_old : D;
  roots_seed : Z;
  roots_mutex : bool;
  root_values : gmap Z Z;
}.
Arguments mkRoots {D}.
Arguments caml_global_roots {D}.
Arguments caml_global_roots_young {D}.
Arguments caml_global_roots_old {D}.
Arguments roots_seed {D}.
Arguments roots_mutex {D}.
Arguments root_values {D}.

Inductive root_list := Mutable_roots | Young_roots | Old_roots.
#[export] Instance root_list_eq_dec : EqDecision root_list.
Proof. solve_decision. Defined.

Section Operations.
Context {D : Type} `{DD : !Dictionary D} (h : heap).

Definition list_of (l : root_list) (s : roots D) : D :=
  match l with
  | Mutable_roots => caml_global_roots s
  | Young_roots => caml_global_roots_young s
  | Old_roots => caml_global_roots_old s
  end.
(** A list after an operation on it, with the seed it left. *)
Definition set_list (l : root_list) (d : D) (s : roots D) : roots D :=
  let '(mkRoots g y o _ m v) := s in
  match l with
  | Mutable_roots => mkRoots d y o (dict_seed d) m v
  | Young_roots => mkRoots g d o (dict_seed d) m v
  | Old_roots => mkRoots g y d (dict_seed d) m v
  end.
Definition set_mutex (b : bool) (s : roots D) : roots D :=
  mkRoots (caml_global_roots s) (caml_global_roots_young s) (caml_global_roots_old s) (roots_seed s) b (root_values s).
Definition set_values (m : gmap Z Z) (s : roots D) : roots D :=
  mkRoots (caml_global_roots s) (caml_global_roots_young s) (caml_global_roots_old s) (roots_seed s) (roots_mutex s) m.

(** The thread that holds the mutex cannot take it again. *)
Definition caml_plat_lock (s : roots D) : result (roots D) := if roots_mutex s then Undef else Ret (set_mutex true s).
Definition caml_plat_unlock (s : roots D) : roots D := set_mutex false s.

(** [caml_skiplist_insert] on one of the lists; the boolean is [false] when
    [Out_of_memory] is raised. *)
Definition list_insert (l : root_list) (r : Z) (s : roots D) : result (bool * roots D) :=
  '(res, d) ← dict_insert (dict_set_seed (roots_seed s) (list_of l s)) r 0;
  Ret (bool_decide (is_Some res), set_list l d s).
Definition list_remove (l : root_list) (r : Z) (s : roots D) : result (roots D) :=
  '(_, d) ← dict_remove (dict_set_seed (roots_seed s) (list_of l s)) r;
  Ret (set_list l d s).

(** When insertion raises an exception the mutex is not released. *)
Definition caml_insert_global_root (l : root_list) (r : Z) (s : roots D) : result (bool * roots D) :=
  s ← caml_plat_lock s;
  '(ok, s) ← list_insert l r s;
  Ret (ok, if (ok : bool) then caml_plat_unlock s else s).
Definition caml_delete_global_root (l : root_list) (r : Z) (s : roots D) : result (roots D) :=
  s ← caml_plat_lock s;
  s ← list_remove l r s;
  Ret (caml_plat_unlock s).

Definition caml_register_global_root (r : Z) (s : roots D) : result (bool * roots D) :=
  caml_insert_global_root Mutable_roots r s.
Definition caml_remove_global_root (r : Z) (s : roots D) : result (roots D) :=
  caml_delete_global_root Mutable_roots r s.

Definition caml_register_generational_global_root (r : Z) (s : roots D) : result (bool * roots D) :=
  v ← of_option (root_values s !! r);
  match classify_gc_root h v with
  | YOUNG => caml_insert_global_root Young_roots r s
  | OLD => caml_insert_global_root Old_roots r s
  | UNTRACKED => Ret (true, s)
  end.

Definition caml_remove_generational_global_root (r : Z) (s : roots D) : result (roots D) :=
  v ← of_option (root_values s !! r);
  match classify_gc_root h v with
  | OLD => s ← caml_delete_global_root Old_roots r s; caml_delete_global_root Young_roots r s
  | YOUNG => caml_delete_global_root Young_roots r s
  | UNTRACKED => Ret s
  end.

Definition caml_modify_generational_global_root (r newval : Z) (s : roots D) : result (bool * roots D) :=
  v ← of_option (root_values s !! r);
  let c := classify_gc_root h v in
  '(ok, s) ←
    match classify_gc_root h newval with
    | YOUNG =>
        s ← (if decide (c = OLD) then caml_delete_global_root Old_roots r s else Ret s);
        if decide (c = YOUNG) then Ret (true, s) else caml_insert_global_root Young_roots r s
    | OLD => if decide (c = UNTRACKED) then caml_insert_global_root Old_roots r s else Ret (true, s)
    | UNTRACKED => s ← caml_remove_generational_global_root r s; Ret (true, s)
    end;
  Ret (ok, if (ok : bool) then set_values (<[r := newval]> (root_values s)) s else s).

(** ** Scanning

    A scanning action receives its data, a value and the address it comes
    from, where it may write. *)
Definition scanning_action (A : Type) : Type := A -> Z -> Z -> gmap Z Z -> result (A * gmap Z Z).

Fixpoint scan_list {A} (f : scanning_action A) (l : list (Z * Z)) (a : A) (m : gmap Z Z) : result (A * gmap Z Z) :=
  match l with
  | [] => Ret (a, m)
  | (r, _) :: l => v ← of_option (m !! r); '(a, m) ← f a v r m; scan_list f l a m
  end.
Definition caml_iterate_global_roots {A} (f : scanning_action A) (l : root_list) (a : A) (s : roots D) : result (A * roots D) :=
  es ← dict_elements (list_of l s);
  '(a, m) ← scan_list f es a (root_values s);
  Ret (a, set_values m s).

Definition caml_scan_global_roots {A} (f : scanning_action A) (a : A) (s : roots D) : result (A * roots D) :=
  s ← caml_plat_lock s;
  '(a, s) ← caml_iterate_global_roots f Mutable_roots a s;
  '(a, s) ← caml_iterate_global_roots f Young_roots a s;
  '(a, s) ← caml_iterate_global_roots f Old_roots a s;
  Ret (a, caml_plat_unlock s).

Fixpoint insert_roots (es : list (Z * Z)) (s : roots D) : result (bool * roots D) :=
  match es with
  | [] => Ret (true, s)
  | (r, _) :: es => '(ok, s) ← list_insert Old_roots r s; if (ok : bool) then insert_roots es s else Ret (false, s)
  end.
Definition caml_scan_global_young_roots {A} (f : scanning_action A) (a : A) (s : roots D) : result (bool * A * roots D) :=
  s ← caml_plat_lock s;
  '(a, s) ← caml_iterate_global_roots f Mutable_roots a s;
  '(a, s) ← caml_iterate_global_roots f Young_roots a s;
  es ← dict_elements (caml_global_roots_young s);
  '(ok, s) ← insert_roots es s;
  if negb ok then Ret (false, a, s)
  else
    d ← dict_clear (dict_set_seed (roots_seed s) (caml_global_roots_young s));
    Ret (true, a, caml_plat_unlock (set_list Young_roots d s)).
End Operations.

(** ** The lists as sets of addresses *)

Section Invariant.
Context {D : Type} `{DD : !Dictionary D, !DictionaryOk D} (h : heap).

Definition holds (s : roots D) (M : root_list -> gset Z) : Prop :=
  forall l, exists m, dict_repr (list_of l s) m /\ dom m = M l.
Definition change (l : root_list) (X : gset Z) (M : root_list -> gset Z) : root_list -> gset Z :=
  fun l' => if decide (l' = l) then X else M l'.

Lemma holds_set_list s M l d m : holds s M -> dict_repr d m -> holds (set_list l d s) (change l (dom m) M).
Proof.
  intros HM Hd l'. unfold change. destruct s, (decide (l' = l)) as [->|Hl].
  - exists m. by destruct l.
  - destruct (HM l') as (m' & Hm' & ?). exists m'. by destruct l, l'.
Qed.
Lemma set_list_values l (d : D) s : root_values (set_list l d s) = root_values s /\ roots_mutex (set_list l d s) = roots_mutex s.
Proof. by destruct s, l. Qed.
Lemma holds_seeded s M l : holds s M -> exists m, dict_repr (dict_set_seed (roots_seed s) (list_of l s)) m /\ dom m = M l.
Proof. intros HM. destruct (HM l) as (m & Hm & ?). exists m. split; [by apply dict_seeded|done]. Qed.

(** The sets after an insertion that may fail. *)
Definition added (ok : bool) (l : root_list) (r : Z) (M : root_list -> gset Z) : root_list -> gset Z :=
  change l (if ok then {[r]} ∪ M l else M l) M.

Lemma list_insert_spec s M l r : holds s M -> exists ok s', list_insert l r s = Ret (ok, s') /\ holds s' (added ok l r M) /\
  root_values s' = root_values s /\ roots_mutex s' = roots_mutex s.
Proof.
  intros HM. destruct (holds_seeded s M l HM) as (m & Hm & Hd). unfold list_insert.
  destruct (dict_inserted _ m r 0 Hm) as (res & d & -> & Hr). mred. eexists _, _. split; [reflexivity|]. split; [|apply set_list_values].
  unfold added. rewrite <- Hd. destruct res as [x|].
  - rewrite bool_decide_true by eauto. rewrite <- dom_insert_L with (x := 0). by apply holds_set_list.
  - rewrite bool_decide_false by (by intros [? ?]). by apply holds_set_list.
Qed.
Lemma list_remove_spec s M l r : holds s M -> exists s', list_remove l r s = Ret s' /\ holds s' (change l (M l ∖ {[r]}) M) /\
  root_values s' = root_values s /\ roots_mutex s' = roots_mutex s.
Proof.
  intros HM. destruct (holds_seeded s M l HM) as (m & Hm & Hd). unfold list_remove.
  destruct (dict_removed _ m r Hm) as (res & d & -> & Hr). mred. eexists. split; [reflexivity|]. split; [|apply set_list_values].
  rewrite <- Hd, <- dom_delete_L. by apply holds_set_list.
Qed.

Lemma holds_values s M m : holds s M -> holds (set_values m s) M.
Proof. intros HM []; [apply (HM Mutable_roots)|apply (HM Young_roots)|apply (HM Old_roots)]. Qed.
Lemma holds_mutex s M b : holds s M -> holds (set_mutex b s) M.
Proof. intros HM []; [apply (HM Mutable_roots)|apply (HM Young_roots)|apply (HM Old_roots)]. Qed.

Lemma insert_root_spec s M l r : holds s M -> roots_mutex s = false -> exists ok s', caml_insert_global_root l r s = Ret (ok, s') /\
  holds s' (added ok l r M) /\ root_values s' = root_values s /\ roots_mutex s' = negb ok.
Proof.
  intros HM Hl. unfold caml_insert_global_root, caml_plat_lock. rewrite Hl. mred.
  destruct (list_insert_spec _ _ l r (holds_mutex s M true HM)) as (ok & s' & -> & HM' & Hv & Hm). mred.
  eexists _, _. split; [reflexivity|]. destruct ok; [|done]. split_and!; [by apply holds_mutex|done|done].
Qed.
Lemma delete_root_spec s M l r : holds s M -> roots_mutex s = false -> exists s', caml_delete_global_root l r s = Ret s' /\
  holds s' (change l (M l ∖ {[r]}) M) /\ root_values s' = root_values s /\ roots_mutex s' = false.
Proof.
  intros HM Hl. unfold caml_delete_global_root, caml_plat_lock. rewrite Hl. mred.
  destruct (list_remove_spec _ _ l r (holds_mutex s M true HM)) as (s' & -> & HM' & Hv & Hm). mred.
  eexists. split; [reflexivity|]. split_and!; [by apply holds_mutex|done|done].
Qed.

(** ** The invariant of the generational roots

    [G] is the set of the generational roots registered. *)
Definition placed (M : root_list -> gset Z) (r : Z) (c : gc_root_class) : Prop :=
  match c with
  | YOUNG => r ∈ M Young_roots /\ r ∉ M Old_roots
  | OLD => r ∈ M Young_roots \/ r ∈ M Old_roots
  | UNTRACKED => r ∉ M Young_roots /\ r ∉ M Old_roots
  end.
Definition tracked (M : root_list -> gset Z) (values : gmap Z Z) (G : gset Z) : Prop :=
  (forall r, r ∈ G -> exists v, values !! r = Some v /\ placed M r (classify_gc_root h v)) /\
  (forall r, r ∈ M Young_roots \/ r ∈ M Old_roots -> r ∈ G) /\
  (forall r, r ∈ M Mutable_roots -> r ∈ dom values).
Definition roots_ok (G : gset Z) (s : roots D) : Prop :=
  roots_mutex s = false /\ exists M, holds s M /\ tracked M (root_values s) G.

Lemma classify_cases v : (classify_gc_root h v = YOUNG /\ Is_block v = true /\ Is_young h v = true) \/
  (classify_gc_root h v = OLD /\ Is_block v = true /\ Is_young h v = false) \/ (classify_gc_root h v = UNTRACKED /\ Is_block v = false).
Proof. unfold classify_gc_root. destruct (Is_block v), (Is_young h v); cbn; tauto. Qed.

Lemma change_eq l X M : change l X M l = X.
Proof. unfold change. by rewrite decide_True. Qed.
Lemma change_ne l l' X M : l' <> l -> change l X M l' = M l'.
Proof. intros. unfold change. by rewrite decide_False. Qed.
Ltac sets := unfold added in *; rewrite ?change_eq, ?change_ne in * by done.

(** A root enters the invariant, leaves it, or changes its value. *)
Lemma tracked_enter M M' values values' G r v : tracked M values G -> M' Mutable_roots = M Mutable_roots ->
  (forall r', r' <> r -> (r' ∈ M' Young_roots <-> r' ∈ M Young_roots) /\ (r' ∈ M' Old_roots <-> r' ∈ M Old_roots) /\ values' !! r' = values !! r') ->
  values' !! r = Some v ->
  placed M' r (classify_gc_root h v) -> tracked M' values' ({[r]} ∪ G).
Proof.
  intros (H1 & H2 & H3) Hg Hf Hv Hc. split_and!.
  - intros r' Hr'. destruct (decide (r' = r)) as [->|Hne]; [by exists v|]. destruct (Hf r' Hne) as (E1 & E2 & ->).
    destruct (H1 r' ltac:(set_solver)) as (v' & Hv' & Hc'). exists v'. split; [done|]. unfold placed in *. destruct (classify_gc_root h v'); by rewrite E1, E2.
  - intros r' Hr'. destruct (decide (r' = r)) as [->|Hne]; [set_solver|]. destruct (Hf r' Hne) as (E1 & E2 & _).
    rewrite E1, E2 in Hr'. apply H2 in Hr'. set_solver.
  - intros r' Hr'. rewrite Hg in Hr'. apply H3 in Hr'. apply elem_of_dom. apply elem_of_dom in Hr'.
    destruct (decide (r' = r)) as [->|Hne]; [by eexists|]. by destruct (Hf r' Hne) as (_ & _ & ->).
Qed.
Lemma tracked_leave M M' values G r : tracked M values G -> M' Mutable_roots = M Mutable_roots ->
  (forall r', r' <> r -> (r' ∈ M' Young_roots <-> r' ∈ M Young_roots) /\ (r' ∈ M' Old_roots <-> r' ∈ M Old_roots)) ->
  r ∉ M' Young_roots -> r ∉ M' Old_roots -> tracked M' values (G ∖ {[r]}).
Proof.
  intros (H1 & H2 & H3) Hg Hf Hy Ho. split_and!.
  - intros r' Hr'. assert (r' <> r) as Hne by set_solver. destruct (Hf r' Hne) as (E1 & E2).
    destruct (H1 r' ltac:(set_solver)) as (v' & Hv' & Hc'). exists v'. split; [done|]. unfold placed in *. destruct (classify_gc_root h v'); by rewrite E1, E2.
  - intros r' Hr'. destruct (decide (r' = r)) as [->|Hne]; [tauto|]. destruct (Hf r' Hne) as (E1 & E2). rewrite E1, E2 in Hr'.
    apply H2 in Hr'. set_solver.
  - intros r'. rewrite Hg. apply H3.
Qed.

Lemma not_tracked M values G r : tracked M values G -> r ∉ G -> r ∉ M Young_roots /\ r ∉ M Old_roots.
Proof. intros (_ & H2 & _) Hr. split; intros Hin; apply Hr, H2; tauto. Qed.

Lemma tracked_placed M values G r v : tracked M values G -> values !! r = Some v -> r ∈ G -> placed M r (classify_gc_root h v).
Proof. intros (H1 & _) Hv HG. destruct (H1 r HG) as (v' & Hv' & ?). by replace v with v' by congruence. Qed.

(** The outcome of an operation that allocates. *)
Definition outcome (G : gset Z) (res : result (bool * roots D)) : Prop :=
  exists ok s', res = Ret (ok, s') /\ if ok : bool then roots_ok G s' else roots_mutex s' = true.

Lemma register_ok G s r : roots_ok G s -> r ∈ dom (root_values s) ->
  outcome ({[r]} ∪ G) (caml_register_generational_global_root h r s).
Proof.
  intros (Hl & M & HM & Ht) Hr. apply elem_of_dom in Hr as [v Hv]. unfold caml_register_generational_global_root, outcome. rewrite Hv. cbn [of_option]. mred.
  assert (r ∉ G -> r ∉ M Young_roots /\ r ∉ M Old_roots) as Hnot by (by eapply not_tracked).
  pose proof (tracked_placed M _ G r v Ht Hv) as Hin. unfold placed in *.
  destruct (classify_gc_root h v) eqn:Ec.
  - destruct (insert_root_spec s M Young_roots r HM Hl) as (ok & s' & -> & HM' & Hval & Hmu). exists ok, s'. split; [done|].
    destruct ok; [|done]. split; [done|]. eexists. split; [exact HM'|]. rewrite Hval. eapply (tracked_enter M); [done|by sets| |done|].
    + intros r' Hne. sets. set_solver.
    + rewrite Ec. unfold placed. sets. destruct (decide (r ∈ G)); set_solver.
  - destruct (insert_root_spec s M Old_roots r HM Hl) as (ok & s' & -> & HM' & Hval & Hmu). exists ok, s'. split; [done|].
    destruct ok; [|done]. split; [done|]. eexists. split; [exact HM'|]. rewrite Hval. eapply (tracked_enter M); [done|by sets| |done|].
    + intros r' Hne. sets. set_solver.
    + rewrite Ec. unfold placed. sets. set_solver.
  - exists true, s. split; [done|]. split; [done|]. exists M. split; [done|]. eapply (tracked_enter M); [done|done|done|done|].
    rewrite Ec. unfold placed. destruct (decide (r ∈ G)); auto.
Qed.

Lemma remove_ok G s r : roots_ok G s -> r ∈ dom (root_values s) ->
  exists s', caml_remove_generational_global_root h r s = Ret s' /\ roots_ok (G ∖ {[r]}) s' /\ root_values s' = root_values s.
Proof.
  intros (Hl & M & HM & Ht) Hr. apply elem_of_dom in Hr as [v Hv]. unfold caml_remove_generational_global_root. rewrite Hv. cbn [of_option]. mred.
  assert (r ∉ G -> r ∉ M Young_roots /\ r ∉ M Old_roots) as Hnot by (by eapply not_tracked).
  pose proof (tracked_placed M _ G r v Ht Hv) as Hin. unfold placed in *.
  destruct (classify_gc_root h v) eqn:Ec.
  - destruct (delete_root_spec s M Young_roots r HM Hl) as (s' & -> & HM' & Hval & Hmu). exists s'. split; [done|]. split; [|done].
    split; [done|]. eexists. split; [exact HM'|]. rewrite Hval. eapply (tracked_leave M); [done|by sets| | |].
    + intros r' Hne. sets. set_solver.
    + sets. set_solver.
    + sets. destruct (decide (r ∈ G)); set_solver.
  - destruct (delete_root_spec s M Old_roots r HM Hl) as (s1 & -> & HM1 & Hval1 & Hmu1). mred.
    destruct (delete_root_spec s1 _ Young_roots r HM1 Hmu1) as (s' & -> & HM' & Hval & Hmu). exists s'. split; [done|]. split; [|congruence].
    split; [done|]. eexists. split; [exact HM'|]. rewrite Hval, Hval1. eapply (tracked_leave M); [done|by sets| | |].
    + intros r' Hne. sets. set_solver.
    + sets. set_solver.
    + sets. set_solver.
  - exists s. split; [done|]. split; [|done]. split; [done|]. exists M. split; [done|]. destruct (decide (r ∈ G)) as [HG|HG].
    + by apply (tracked_leave M); [..|apply Hin|apply Hin].
    + by apply (tracked_leave M); [..|apply Hnot|apply Hnot].
Qed.

Lemma modify_ok G s r v : roots_ok G s -> r ∈ G -> outcome G (caml_modify_generational_global_root h r v s).
Proof.
  intros Hok HG. pose proof Hok as (Hl & M & HM & Ht). destruct (proj1 Ht r HG) as (w & Hw & Hp).
  unfold caml_modify_generational_global_root, outcome. rewrite Hw. cbn [of_option]. mred. cbv zeta.
  assert (forall s' M', holds s' M' -> root_values s' = root_values s -> roots_mutex s' = false ->
    M' Mutable_roots = M Mutable_roots ->
    (forall r', r' <> r -> (r' ∈ M' Young_roots <-> r' ∈ M Young_roots) /\ (r' ∈ M' Old_roots <-> r' ∈ M Old_roots)) ->
    placed M' r (classify_gc_root h v) -> roots_ok G (set_values (<[r := v]> (root_values s')) s')) as Hset.
  { intros s' M' HM' Hval Hmu Hmut Hother Hpl. split; [done|]. exists M'. split; [by apply holds_values|]. cbn. rewrite Hval.
    replace G with ({[r]} ∪ G) by set_solver. eapply (tracked_enter M); [done|done| |apply lookup_insert_eq|done].
    intros r' Hne. destruct (Hother r' Hne). by rewrite lookup_insert_ne. }
  destruct (classify_gc_root h v) eqn:Ev.
  - destruct (decide (classify_gc_root h w = OLD)) as [Ew|Ew].
    + destruct (delete_root_spec s M Old_roots r HM Hl) as (s1 & -> & HM1 & Hval1 & Hmu1). mred. rewrite decide_False by congruence.
      destruct (insert_root_spec s1 _ Young_roots r HM1 Hmu1) as (ok & s' & -> & HM' & Hval & Hmu). mred. exists ok. eexists. split; [reflexivity|].
      destruct ok; [|done]. eapply Hset; [exact HM'|congruence|done|by sets|intros r' Hne; sets; set_solver|unfold placed in *; sets; set_solver].
    + mred. destruct (decide (classify_gc_root h w = YOUNG)) as [Ew'|Ew'].
      * mred. eexists true, _. split; [reflexivity|]. by eapply Hset; [exact HM|..|rewrite Ew' in Hp].
      * destruct (insert_root_spec s M Young_roots r HM Hl) as (ok & s' & -> & HM' & Hval & Hmu). mred. exists ok. eexists. split; [reflexivity|].
        destruct ok; [|done]. destruct (classify_gc_root h w); try done. eapply Hset; [exact HM'|done|done|by sets|intros r' Hne; sets; set_solver|unfold placed in *; sets; set_solver].
  - destruct (decide (classify_gc_root h w = UNTRACKED)) as [Ew|Ew].
    + destruct (insert_root_spec s M Old_roots r HM Hl) as (ok & s' & -> & HM' & Hval & Hmu). mred. exists ok. eexists. split; [reflexivity|].
      destruct ok; [|done]. eapply Hset; [exact HM'|done|done|by sets|intros r' Hne; sets; set_solver|unfold placed in *; sets; set_solver].
    + mred. eexists true, _. split; [reflexivity|]. eapply Hset; [exact HM|done..|]. destruct (classify_gc_root h w); unfold placed in *; tauto.
  - destruct (remove_ok G s r Hok) as (s' & E & (Hmu & M' & HM' & Ht') & Hval); [apply elem_of_dom; by eexists|]. rewrite E. mred.
    eexists true, _. split; [reflexivity|]. split; [done|]. exists M'. split; [by apply holds_values|]. cbn.
    replace G with ({[r]} ∪ (G ∖ {[r]})) by (symmetry; by apply union_difference_singleton_L).
    eapply (tracked_enter M'); [exact Ht'|done| |apply lookup_insert_eq|].
    + intros r' Hne. by rewrite lookup_insert_ne.
    + rewrite Ev. eapply not_tracked; [exact Ht'|]. set_solver.
Qed.

Lemma register_mutable_ok G s r : roots_ok G s -> r ∈ dom (root_values s) -> outcome G (caml_register_global_root r s).
Proof.
  intros (Hl & M & HM & H1 & H2 & H3) Hr. unfold caml_register_global_root, outcome.
  destruct (insert_root_spec s M Mutable_roots r HM Hl) as (ok & s' & -> & HM' & Hval & Hmu). exists ok, s'. split; [done|].
  destruct ok; [|done]. split; [done|]. eexists. split; [exact HM'|]. rewrite Hval. split_and!.
  - intros r' HG. destruct (H1 r' HG) as (v & Hv & Hp). exists v. split; [done|]. unfold placed in *. by sets.
  - intros r'. sets. apply H2.
  - intros r'. sets. set_solver.
Qed.
Lemma remove_mutable_ok G s r : roots_ok G s -> exists s', caml_remove_global_root r s = Ret s' /\ roots_ok G s'.
Proof.
  intros (Hl & M & HM & H1 & H2 & H3). unfold caml_remove_global_root.
  destruct (delete_root_spec s M Mutable_roots r HM Hl) as (s' & -> & HM' & Hval & Hmu). exists s'. split; [done|].
  split; [done|]. eexists. split; [exact HM'|]. rewrite Hval. split_and!.
  - intros r' HG. destruct (H1 r' HG) as (v & Hv & Hp). exists v. split; [done|]. unfold placed in *. by sets.
  - intros r'. sets. apply H2.
  - intros r'. sets. set_solver.
Qed.
(** C code assigns a variable that is not a generational root. *)
Lemma assign_ok G s r v : roots_ok G s -> r ∉ G -> roots_ok G (set_values (<[r := v]> (root_values s)) s).
Proof.
  intros (Hl & M & HM & H1 & H2 & H3) Hr. split; [done|]. exists M. split; [by apply holds_values|]. cbn. split_and!; [|done|set_solver].
  intros r' HG. rewrite lookup_insert_ne by (intros ->; done). by apply H1.
Qed.

(** ** Minor collections *)

(** The action of a minor collection that promotes a young block [v] to
    [p v], and keeps a trace of the values it is given. *)
Definition promote (p : Z -> Z) : scanning_action (list (Z * Z)) := fun a v r m =>
  Ret ((v, r) :: a, if Is_block_and_young h v then <[r := p v]> m else m).
Definition promotes (p : Z -> Z) : Prop := forall v, classify_gc_root h (p v) = OLD.
Definition promoted (p : Z -> Z) (v : Z) : Z := if Is_block_and_young h v then p v else v.

Lemma young_class v : Is_block_and_young h v = bool_decide (classify_gc_root h v = YOUNG).
Proof. unfold Is_block_and_young, classify_gc_root. by destruct (Is_block v), (Is_young h v). Qed.
Lemma promoted_class p v : promotes p -> classify_gc_root h (promoted p v) = match classify_gc_root h v with YOUNG => OLD | c => c end.
Proof. intros Hp. unfold promoted. rewrite young_class. destruct (classify_gc_root h v) eqn:E; [apply Hp|exact E..]. Qed.
Lemma promoted_twice p v : promotes p -> promoted p (promoted p v) = promoted p v.
Proof.
  intros Hp. unfold promoted at 1. rewrite young_class, promoted_class by done. by destruct (classify_gc_root h v).
Qed.

Lemma scan_list_spec p : promotes p -> forall l a m, (forall r, r ∈ l.*1 -> r ∈ dom m) ->
  exists a' m', scan_list (promote p) l a m = Ret (a', m') /\
    (forall r, m' !! r = if decide (r ∈ l.*1) then promoted p <$> m !! r else m !! r) /\
    (forall x, x ∈ a -> x ∈ a') /\
    (forall r v, r ∈ l.*1 -> m !! r = Some v -> (v, r) ∈ a').
Proof.
  intros Hp. induction l as [|[r x] l IH]; intros a m Hm; cbn [scan_list].
  - exists a, m. split_and!; [done| |done|]; intros r; [|intros v Hr; by apply elem_of_nil in Hr]. by rewrite decide_False by (intros Hr; by apply elem_of_nil in Hr).
  - assert (r ∈ dom m) as Hr by (apply Hm; by left). apply elem_of_dom in Hr as [v Hv]. rewrite Hv. cbn [of_option]. mred.
    unfold promote at 1. mred. set (m1 := if Is_block_and_young h v then <[r := p v]> m else m).
    assert (forall r', m1 !! r' = if decide (r' = r) then Some (promoted p v) else m !! r') as Hm1.
    { intros r'. unfold m1, promoted. destruct (decide (r' = r)) as [->|Hne]; destruct (Is_block_and_young h v);
        rewrite ?lookup_insert_eq, ?lookup_insert_ne by done; done. }
    destruct (IH ((v, r) :: a) m1) as (a' & m' & E & Hv' & Ha & Hin).
    { intros r' Hr'. apply elem_of_dom. rewrite Hm1. destruct (decide _); [by eexists|]. apply elem_of_dom, Hm. by right. }
    exists a', m'. split; [done|]. split_and!.
    + intros r'. rewrite Hv', Hm1. cbn [fmap list_fmap fst]. destruct (decide (r' = r)) as [->|Hne].
      * rewrite (decide_True (P := r ∈ r :: _)) by (by left). rewrite Hv. destruct (decide _); cbn; [|done]. by rewrite promoted_twice.
      * apply decide_ext. set_solver.
    + intros y Hy. apply Ha. by right.
    + intros r' v' Hr' Ev'. destruct (decide (r' = r)) as [->|Hne]; [replace v' with v by congruence; apply Ha; by left|].
      apply Hin; [set_solver|]. rewrite Hm1. by rewrite decide_False.
Qed.

Lemma iterate_spec p s M l a : promotes p -> holds s M -> M l ⊆ dom (root_values s) ->
  exists a' m', caml_iterate_global_roots (promote p) l a s = Ret (a', set_values m' s) /\
    (forall r, m' !! r = if decide (r ∈ M l) then promoted p <$> root_values s !! r else root_values s !! r) /\
    (forall x, x ∈ a -> x ∈ a') /\
    (forall r v, r ∈ M l -> root_values s !! r = Some v -> (v, r) ∈ a').
Proof.
  intros Hp HM Hd. unfold caml_iterate_global_roots. destruct (HM l) as (m & Hm & Hdom). destruct (dict_iterated _ m Hm) as (es & -> & Hes & _). mred.
  assert (forall r, r ∈ es.*1 <-> r ∈ M l) as Hk.
  { intros r. rewrite <- Hdom, <- Hes, dom_list_to_map_L, elem_of_list_to_set. done. }
  destruct (scan_list_spec p Hp es a (root_values s)) as (a' & m' & -> & Hm' & Ha & Hin).
  { intros r Hr. by apply Hd, Hk. }
  mred. exists a', m'. split; [done|]. split_and!; [|done|].
  - intros r. rewrite Hm'. apply decide_ext. apply Hk.
  - intros r v Hr. apply Hin. by apply Hk.
Qed.

Lemma insert_roots_spec es : forall s M, holds s M -> exists ok s', insert_roots es s = Ret (ok, s') /\
  root_values s' = root_values s /\ roots_mutex s' = roots_mutex s /\
  (ok = true -> holds s' (change Old_roots (list_to_set es.*1 ∪ M Old_roots) M)).
Proof.
  induction es as [|[r x] es IH]; intros s M HM; cbn [insert_roots].
  - exists true, s. split_and!; try done. intros _ l. destruct (HM l) as (m & Hm & E). exists m. split; [done|].
    unfold change. destruct (decide _) as [->|]; [|done]. rewrite E. cbn. set_solver.
  - destruct (list_insert_spec s M Old_roots r HM) as (ok & s1 & -> & HM1 & Hv & Hl). mred. destruct ok; [|by exists false, s1].
    destruct (IH s1 _ HM1) as (ok & s' & -> & Hv' & Hl' & HM'). exists ok, s'. split_and!; [done|congruence..|]. intros Hok l.
    destruct (HM' Hok l) as (m & Hm & E). exists m. split; [done|]. rewrite E. unfold added, change. destruct (decide (l = Old_roots)) as [->|]; [|done].
    rewrite decide_True by done. cbn. set_solver.
Qed.

(** A minor collection is given every generational root that points to the
    minor heap; if it completes, the young list is empty and the invariant
    holds again. *)
Lemma scan_young_spec G s p : promotes p -> roots_ok G s -> exists ok a s',
  caml_scan_global_young_roots (promote p) [] s = Ret (ok, a, s') /\
  (forall r v, r ∈ G -> root_values s !! r = Some v -> Is_block_and_young h v = true -> (v, r) ∈ a) /\
  if ok : bool then roots_ok G s' else roots_mutex s' = true.
Proof.
  intros Hp (Hl & M & HM & H1 & H2 & H3). unfold caml_scan_global_young_roots, caml_plat_lock. rewrite Hl. mred.
  set (s0 := set_mutex true s). assert (holds s0 M) as HM0 by (by apply holds_mutex).
  assert (forall r, r ∈ M Young_roots -> r ∈ dom (root_values s)) as Hyd.
  { intros r Hr. destruct (H1 r ltac:(apply H2; by left)) as (v & Hv & _). apply elem_of_dom. by eexists. }
  destruct (iterate_spec p s0 M Mutable_roots [] Hp HM0 H3) as (a1 & m1 & -> & Hm1 & _ & Hin1). mred. cbn [root_values s0 set_mutex] in Hm1, Hin1.
  destruct (iterate_spec p (set_values m1 s0) M Young_roots a1 Hp) as (a2 & m2 & -> & Hm2 & Hkeep & Hin2).
  { by apply holds_values. }
  { intros r Hr. cbn. apply elem_of_dom. rewrite Hm1. apply Hyd, elem_of_dom in Hr as [v Hv]. rewrite Hv. destruct (decide _); by eexists. }
  mred. cbn [root_values set_values] in Hm2, Hin2. set (s2 := set_values m2 (set_values m1 s0)).
  assert (holds s2 M) as HM2 by (by do 2 apply holds_values).
  assert (forall r, m2 !! r = if decide (r ∈ M Young_roots \/ r ∈ M Mutable_roots) then promoted p <$> root_values s !! r else root_values s !! r) as Hm.
  { intros r. rewrite Hm2, Hm1. destruct (decide (r ∈ M Young_roots)), (decide (r ∈ M Mutable_roots));
      [rewrite decide_True by tauto; destruct (root_values s !! r); cbn; [by rewrite promoted_twice|done]
      |rewrite decide_True by tauto; done|rewrite decide_True by tauto; done|rewrite decide_False by tauto; done]. }
  assert (forall r v, r ∈ G -> root_values s !! r = Some v -> Is_block_and_young h v = true -> (v, r) ∈ a2) as Hvisit.
  { intros r v HG Hv Hy. destruct (H1 r HG) as (v' & Hv' & Hpl). replace v' with v in * by congruence.
    rewrite young_class, bool_decide_eq_true in Hy. rewrite Hy in Hpl. destruct Hpl as [Hyr _].
    destruct (decide (r ∈ M Mutable_roots)) as [Hm'|Hm'].
    - apply Hkeep. by apply Hin1.
    - apply Hin2; [done|]. rewrite Hm1. by rewrite decide_False. }
  destruct (HM2 Young_roots) as (my & Hmy & Edy). change (list_of Young_roots s2) with (caml_global_roots_young s2) in Hmy.
  destruct (dict_iterated _ my Hmy) as (es & -> & Hes & _). mred.
  destruct (insert_roots_spec es s2 M HM2) as (ok & s3 & -> & Hv3 & Hl3 & HM3). mred. destruct ok.
  2:{ eexists false, a2, s3. split; [done|]. split; [done|]. by rewrite Hl3. }
  specialize (HM3 eq_refl). destruct (holds_seeded _ _ Young_roots HM3) as (my3 & Hmy3 & _).
  change (list_of Young_roots s3) with (caml_global_roots_young s3) in Hmy3. cbn [negb].
  destruct (dict_cleared _ my3 Hmy3) as (d & -> & Hd). mred. eexists true, a2, _. split; [reflexivity|]. split; [done|].
  split; [done|]. eexists. split; [apply holds_mutex, holds_set_list; [exact HM3|exact Hd]|].
  cbn. rewrite (proj1 (set_list_values _ _ _)), Hv3. change (root_values s2) with m2. rewrite dom_empty_L.
  assert (list_to_set es.*1 = M Young_roots) as -> by (by rewrite <- Edy, <- Hes, dom_list_to_map_L).
  split_and!.
  - intros r HG. destruct (H1 r HG) as (v & Hv & Hpl). rewrite Hm, Hv. unfold placed in *. rewrite !change_eq, !change_ne, change_eq by done.
    exists (if decide (r ∈ M Young_roots \/ r ∈ M Mutable_roots) then promoted p v else v). split; [by destruct (decide _)|].
    destruct (decide _) as [Hd'|Hd']; [rewrite promoted_class by done|]; destruct (classify_gc_root h v); set_solver.
  - intros r. rewrite change_eq, change_ne, change_eq by done. intros [Hr|Hr]; [set_solver|]. apply H2. set_solver.
  - intros r. rewrite !change_ne by done. intros Hr. apply elem_of_dom. rewrite Hm. apply H3, elem_of_dom in Hr as [v ->]. destruct (decide _); by eexists.
Qed.

(** ** Sequences of operations *)

Inductive root_step : gset Z * roots D -> gset Z * roots D -> Prop :=
| step_register G s r s' : r ∈ dom (root_values s) -> caml_register_generational_global_root h r s = Ret (true, s') ->
    root_step (G, s) ({[r]} ∪ G, s')
| step_remove G s r s' : r ∈ dom (root_values s) -> caml_remove_generational_global_root h r s = Ret s' ->
    root_step (G, s) (G ∖ {[r]}, s')
| step_modify G s r v s' : r ∈ G -> caml_modify_generational_global_root h r v s = Ret (true, s') -> root_step (G, s) (G, s')
| step_register_mutable G s r s' : r ∈ dom (root_values s) -> caml_register_global_root r s = Ret (true, s') -> root_step (G, s) (G, s')
| step_remove_mutable G s r s' : caml_remove_global_root r s = Ret s' -> root_step (G, s) (G, s')
| step_assign G s r v : r ∉ G -> root_step (G, s) (G, set_values (<[r := v]> (root_values s)) s)
| step_minor G s p a s' : promotes p -> caml_scan_global_young_roots (promote p) [] s = Ret (true, a, s') -> root_step (G, s) (G, s').

Lemma root_step_ok c c' : root_step c c' -> roots_ok c.1 c.2 -> roots_ok c'.1 c'.2.
Proof.
  assert (forall G res s', outcome G res -> res = Ret (true, s') -> roots_ok G s') as Hout.
  { intros G res s' (ok & s1 & -> & H) [= -> ->]. done. }
  intros Hst Hok. destruct Hst as [G s r s' Hr E|G s r s' Hr E|G s r v s' Hr E|G s r s' Hr E|G s r s' E|G s r v Hr|G s p a s' Hp E]; cbn in *.
  - by eapply Hout; [apply register_ok|].
  - destruct (remove_ok G s r Hok Hr) as (s1 & E1 & H1 & _). congruence.
  - by eapply Hout; [apply modify_ok|].
  - by eapply Hout; [apply register_mutable_ok|].
  - destruct (remove_mutable_ok G s r Hok) as (s1 & E1 & H1). congruence.
  - by apply assign_ok.
  - destruct (scan_young_spec G s p Hp Hok) as (ok & a1 & s1 & E1 & _ & H1). rewrite E in E1. by injection E1 as <- <- <-.
Qed.
End Invariant.

(** ** Properties *)

(** C13: The invariant of the generational roots.  Whatever sequence of
    registrations, removals, modifications, assignments of other variables
    and minor collections that promote the roots to blocks follows the initial empty lists, as long as
    the lists can grow, every generational
    root that points to the minor heap is in the young list, every one that
    points to the major heap is in one of the two lists, and the others are in
    neither; so a minor collection is given every root that points to the
    minor heap.  No operation on the roots is undefined then: the registration of a variable and its
    removal, generational or not, the modification of a generational root and the scan of the
    young roots all return, the first, third and fourth with whether the lists could grow. *)
Theorem generational_roots `{DD : !Dictionary D, !DictionaryOk D} (h : heap) (s0 s : roots D) (G : gset Z) :
  roots_mutex s0 = false -> (forall l, dict_repr (list_of l s0) ∅) -> rtc (root_step h) (∅, s0) (G, s) ->
  (exists M, holds s M /\ tracked h M (root_values s) G) /\
  (forall p, promotes h p -> exists ok a s', caml_scan_global_young_roots (promote h p) [] s = Ret (ok, a, s') /\
    forall r v, r ∈ G -> root_values s !! r = Some v -> Is_block_and_young h v = true -> (v, r) ∈ a) /\
  (forall r v, r ∈ G -> exists ok s', caml_modify_generational_global_root h r v s = Ret (ok, s')) /\
  (forall r, r ∈ dom (root_values s) ->
    (exists ok s', caml_register_generational_global_root h r s = Ret (ok, s')) /\
    (exists s', caml_remove_generational_global_root h r s = Ret s') /\
    (exists ok s', caml_register_global_root r s = Ret (ok, s'))) /\
  (forall r, exists s', caml_remove_global_root r s = Ret s').
Proof.
  intros Hl Hinit Hst. assert (roots_ok h G s) as Hok.
  { change (roots_ok h (G, s).1 (G, s).2). revert Hst. generalize (G, s). apply rtc_ind_r; [|intros c c' _ Hc IH; by eapply root_step_ok].
    split; [done|]. exists (fun _ => ∅). split; [intros l; exists ∅; split; [done|apply dom_empty_L]|]. split_and!; intros r; set_solver. }
  split; [apply Hok|]. split_and!.
  - intros p Hp. destruct (scan_young_spec h G s p Hp Hok) as (ok & a & s' & E & Hv & _). by exists ok, a, s'.
  - intros r v HG. destruct (modify_ok h G s r v Hok HG) as (ok & s' & E & _). by exists ok, s'.
  - intros r Hr. destruct (register_ok h G s r Hok Hr) as (ok & s1 & E1 & _), (remove_ok h G s r Hok Hr) as (s2 & E2 & _),
      (register_mutable_ok h G s r Hok Hr) as (ok3 & s3 & E3 & _). eauto 10.
  - intros r. destruct (remove_mutable_ok h G s r Hok) as (s' & E & _). by exists s'.
Qed.

(** ** Examples *)

Definition ex_heap : heap := mkHeap ∅ 8192 4096 4096 8192 0 [] [].
Definition ex_roots : roots skiplist := mkRoots ex_empty ex_empty ex_empty 0 false {[16 := 5000; 24 := 1]}.
#[local] Instance ex_cells : CellMemory := fresh_cells.

Lemma ex_roots_empty l : dict_repr (list_of l ex_roots) ∅.
Proof. assert (represents ex_empty ∅) as H by (exists []; split; [by apply init_shape|done]). destruct l; exact H. Qed.

Definition after_registration : roots skiplist :=
  match caml_register_generational_global_root ex_heap 16 ex_roots with Ret (_, s) => s | _ => ex_roots end.

(** A root that points to the minor heap is registered and then scanned. *)
Lemma generational_roots_witness : exists ok a s',
  caml_scan_global_young_roots (promote ex_heap (fun _ => 9000)) [] after_registration = Ret (ok, a, s') /\ (5000, 16) ∈ a.
Proof.
  destruct (generational_roots ex_heap ex_roots after_registration ({[16]} ∪ ∅)) as (_ & Hscan & _).
  - reflexivity.
  - exact ex_roots_empty.
  - eapply rtc_once, (step_register ex_heap ∅ ex_roots 16).
    + apply elem_of_dom. eexists. reflexivity.
    + vm_compute. reflexivity.
  - destruct (Hscan (fun _ => 9000)) as (ok & a & s' & E & Ha); [intros v; vm_compute; reflexivity|].
    exists ok, a, s'. split; [exact E|]. apply Ha; [set_solver|vm_compute; reflexivity..].
Defined.
Example scan_example :
  match caml_scan_global_young_roots (promote ex_heap (fun _ => 9000)) [] after_registration with
  | Ret (ok, a, s') => (ok, a, root_values s' !! 16, skiplist_elements (caml_global_roots_old s'))
  | _ => (false, [], None, Undef)
  end = (true, [(5000, 16)], Some 9000, Ret [(16, 0)]).
Proof. vm_compute. reflexivity. Qed.
End GlobRoots.
