(* ===== verification/Lexing.v ===== *)
(** * The table-driven lexer engines (runtime/lexing.c)

    A lexer buffer is a record with the fields of the block; its numeric
    fields are values.  The tables are strings of 16-bit numbers, the buffer a
    string of bytes, the memory an array of values.  Reading or writing out of
    their bounds is undefined. *)

From S2P Require Import Prelude Memory.
From stdpp Require Import list.
#[local] Open Scope Z_scope.

Module Lexing.

Record lexer_buffer := mkLexbuf {
  refill_buff : Z;
  lex_buffer : list Z;
  lex_buffer_len : Z;
  lex_abs_pos : Z;
  lex_start_pos : Z;
  lex_curr_pos : Z;
  lex_last_pos : Z;
  lex_last_action : Z;
  lex_eof_reached : Z;
  lex_mem : list Z;
  lex_start_p : Z;
  lex_curr_p : Z;
}.

Record lexing_table := mkTable {
  lex_base : list Z;
  lex_backtrk : list Z;
  lex_default : list Z;
  lex_trans : list Z;
  lex_check : list Z;
  lex_base_code : list Z;
  lex_backtrk_code : list Z;
  lex_default_code : list Z;
  lex_trans_code : list Z;
  lex_check_code : list Z;
  lex_code : list Z;
}.

Definition set_curr (p : Z) (b : lexer_buffer) : lexer_buffer :=
  mkLexbuf (refill_buff b) (lex_buffer b) (lex_buffer_len b) (lex_abs_pos b) (lex_start_pos b) p (lex_last_pos b)
    (lex_last_action b) (lex_eof_reached b) (lex_mem b) (lex_start_p b) (lex_curr_p b).
Definition set_start (p : Z) (b : lexer_buffer) : lexer_buffer :=
  mkLexbuf (refill_buff b) (lex_buffer b) (lex_buffer_len b) (lex_abs_pos b) p (lex_curr_pos b) (lex_last_pos b)
    (lex_last_action b) (lex_eof_reached b) (lex_mem b) (lex_start_p b) (lex_curr_p b).
Definition set_last (p a : Z) (b : lexer_buffer) : lexer_buffer :=
  mkLexbuf (refill_buff b) (lex_buffer b) (lex_buffer_len b) (lex_abs_pos b) (lex_start_pos b) (lex_curr_pos b) p
    a (lex_eof_reached b) (lex_mem b) (lex_start_p b) (lex_curr_p b).
Definition set_eof (v : Z) (b : lexer_buffer) : lexer_buffer :=
  mkLexbuf (refill_buff b) (lex_buffer b) (lex_buffer_len b) (lex_abs_pos b) (lex_start_pos b) (lex_curr_pos b) (lex_last_pos b)
    (lex_last_action b) v (lex_mem b) (lex_start_p b) (lex_curr_p b).
Definition set_mem (m : list Z) (b : lexer_buffer) : lexer_buffer :=
  mkLexbuf (refill_buff b) (lex_buffer b) (lex_buffer_len b) (lex_abs_pos b) (lex_start_pos b) (lex_curr_pos b) (lex_last_pos b)
    (lex_last_action b) (lex_eof_reached b) m (lex_start_p b) (lex_curr_p b).

Definition byte_at (s : list Z) (i : Z) : result Z := if i <? 0 then Undef else of_option (s !! Z.to_nat i).
Definition Short (tbl : list Z) (n : Z) : result Z :=
  b0 ← byte_at tbl (2 * n); b1 ← byte_at tbl (2 * n + 1); Ret (swrap 16 (b0 + 256 * b1)).
Definition UShort (tbl : list Z) (n : Z) : result Z :=
  b0 ← byte_at tbl (2 * n); b1 ← byte_at tbl (2 * n + 1); Ret (wrap 16 (b0 + 256 * b1)).

(** The way out of the engine: a value, or the exception
    [Failure "lexing: empty token"]. *)
Inductive lex_exit := Return (v : Z) | Empty_token.
Inductive lex_outcome := Exit (e : lex_exit) | Continue (state : Z).

(** ** The first engine *)

(** [if (state >= 0) { ... } else state = -state - 1]: the state to start from. *)
Definition lex_enter (start_state : Z) (lexbuf : lexer_buffer) : Z * lexer_buffer :=
  let state := Int_val start_state in
  if 0 <=? state
  then (state, set_last (lex_curr_pos lexbuf) (Val_int (-1)) (set_start (lex_curr_pos lexbuf) lexbuf))
  else (- state - 1, lexbuf).

(** The next input character: [None] when a refill is needed. *)
Definition lex_char (lexbuf : lexer_buffer) : result (option (Z * lexer_buffer)) :=
  if lex_buffer_len lexbuf <=? lex_curr_pos lexbuf then
    Ret (if lex_eof_reached lexbuf =? Val_bool false then None else Some (256, lexbuf))
  else
    c ← byte_at (lex_buffer lexbuf) (Long_val (lex_curr_pos lexbuf));
    Ret (Some (c, set_curr (s64 (lex_curr_pos lexbuf + 2)) lexbuf)).

Definition lex_next (tbl : lexing_table) (state base c : Z) : result Z :=
  k ← Short (lex_check tbl) (base + c);
  if k =? state then Short (lex_trans tbl) (base + c) else Short (lex_default tbl) state.

Definition lex_backtrack (lexbuf : lexer_buffer) : lex_outcome * lexer_buffer :=
  let lexbuf := set_curr (lex_last_pos lexbuf) lexbuf in
  (Exit (if lex_last_action lexbuf =? Val_int (-1) then Empty_token else Return (lex_last_action lexbuf)), lexbuf).

(** One round of the loop of [caml_lex_engine]. *)
Definition lex_round (tbl : lexing_table) (state : Z) (lexbuf : lexer_buffer) : result (lex_outcome * lexer_buffer) :=
  base ← Short (lex_base tbl) state;
  if base <? 0 then Ret (Exit (Return (Val_int (- base - 1))), lexbuf)
  else
    backtrk ← Short (lex_backtrk tbl) state;
    let lexbuf := if 0 <=? backtrk then set_last (lex_curr_pos lexbuf) (Val_int backtrk) lexbuf else lexbuf in
    r ← lex_char lexbuf;
    match r with
    | None => Ret (Exit (Return (Val_int (- state - 1))), lexbuf)
    | Some (c, lexbuf) =>
        state ← lex_next tbl state base c;
        Ret (if state <? 0 then lex_backtrack lexbuf
             else (Continue state, if c =? 256 then set_eof (Val_bool false) lexbuf else lexbuf))
    end.
Fixpoint lex_loop (fuel : nat) (tbl : lexing_table) (state : Z) (lexbuf : lexer_buffer) : result (lex_exit * lexer_buffer) :=
  match fuel with
  | O => NoFuel
  | S n =>
      '(o, lexbuf) ← lex_round tbl state lexbuf;
      match o with Exit e => Ret (e, lexbuf) | Continue state => lex_loop n tbl state lexbuf end
  end.
Definition caml_lex_engine (fuel : nat) (tbl : lexing_table) (start_state : Z) (lexbuf : lexer_buffer) :
    result (lex_exit * lexer_buffer) :=
  let '(state, lexbuf) := lex_enter start_state lexbuf in lex_loop fuel tbl state lexbuf.

(** ** The engine with memory of positions *)

(** [Field(mem, dst) = v] and [Field(mem, src)]. *)
Definition mem_get (mem : list Z) (i : Z) : result Z := of_option (mem !! Z.to_nat i).
Definition mem_set (mem : list Z) (i v : Z) : result (list Z) :=
  if decide (Z.to_nat i < length mem)%nat then Ret (<[Z.to_nat i := v]> mem) else Undef.

(** The loops of [run_mem] and [run_tag] on the code from [pc] on; [fresh] is
    what the source 0xff stands for. *)
Fixpoint run_code (pc mem : list Z) (fresh : Z) : result (list Z) :=
  match pc with
  | [] => Undef
  | dst :: pc =>
      if dst =? 0xff then Ret mem
      else
        match pc with
        | [] => Undef
        | src :: pc =>
            v ← (if src =? 0xff then Ret fresh else mem_get mem src);
            mem ← mem_set mem dst v;
            run_code pc mem fresh
        end
  end.
Definition run_mem (pc mem : list Z) (curr_pos : Z) : result (list Z) := run_code pc mem curr_pos.
Definition run_tag (pc mem : list Z) : result (list Z) := run_code pc mem (Val_int (-1)).

Definition lex_tag (tbl : lexing_table) (offsets : list Z) (state : Z) (lexbuf : lexer_buffer) : result lexer_buffer :=
  pc_off ← UShort offsets state;
  mem ← run_tag (drop (Z.to_nat pc_off) (lex_code tbl)) (lex_mem lexbuf);
  Ret (set_mem mem lexbuf).
(** The memory moves of a transition from [pstate] on [c]. *)
Definition lex_moves (tbl : lexing_table) (pstate c : Z) (lexbuf : lexer_buffer) : result lexer_buffer :=
  base_code ← UShort (lex_base_code tbl) pstate;
  k ← Short (lex_check_code tbl) (base_code + c);
  pc_off ← (if k =? pstate then UShort (lex_trans_code tbl) (base_code + c) else UShort (lex_default_code tbl) pstate);
  if 0 <? pc_off then
    mem ← run_mem (drop (Z.to_nat pc_off) (lex_code tbl)) (lex_mem lexbuf) (lex_curr_pos lexbuf);
    Ret (set_mem mem lexbuf)
  else Ret lexbuf.

Definition new_lex_round (tbl : lexing_table) (state : Z) (lexbuf : lexer_buffer) : result (lex_outcome * lexer_buffer) :=
  base ← Short (lex_base tbl) state;
  if base <? 0 then
    lexbuf ← lex_tag tbl (lex_base_code tbl) state lexbuf;
    Ret (Exit (Return (Val_int (- base - 1))), lexbuf)
  else
    backtrk ← Short (lex_backtrk tbl) state;
    lexbuf ← (if 0 <=? backtrk then
                lexbuf ← lex_tag tbl (lex_backtrk_code tbl) state lexbuf;
                Ret (set_last (lex_curr_pos lexbuf) (Val_int backtrk) lexbuf)
              else Ret lexbuf);
    r ← lex_char lexbuf;
    match r with
    | None => Ret (Exit (Return (Val_int (- state - 1))), lexbuf)
    | Some (c, lexbuf) =>
        let pstate := state in
        state ← lex_next tbl state base c;
        if state <? 0 then Ret (lex_backtrack lexbuf)
        else
          lexbuf ← lex_moves tbl pstate c lexbuf;
          Ret (Continue state, if c =? 256 then set_eof (Val_bool false) lexbuf else lexbuf)
    end.
Fixpoint new_lex_loop (fuel : nat) (tbl : lexing_table) (state : Z) (lexbuf : lexer_buffer) : result (lex_exit * lexer_buffer) :=
  match fuel with
  | O => NoFuel
  | S n =>
      '(o, lexbuf) ← new_lex_round tbl state lexbuf;
      match o with Exit e => Ret (e, lexbuf) | Continue state => new_lex_loop n tbl state lexbuf end
  end.
Definition caml_new_lex_engine (fuel : nat) (tbl : lexing_table) (start_state : Z) (lexbuf : lexer_buffer) :
    result (lex_exit * lexer_buffer) :=
  let '(state, lexbuf) := lex_enter start_state lexbuf in new_lex_loop fuel tbl state lexbuf.

(** ** The automaton of the tables *)

Section Automaton.
Variable tbl : lexing_table.

(** The [i]-th entry of a table: two bytes, the low one first, of a signed number. *)
Definition table_entry (t : list Z) (i : Z) : option Z :=
  if i <? 0 then None else
  match t !! (2 * Z.to_nat i)%nat, t !! S (2 * Z.to_nat i) with
  | Some lo, Some hi => Some (swrap 16 (lo + 256 * hi))
  | _, _ => None
  end.
(** The action of a state: the final action, or the one to backtrack to. *)
Definition accepts (q : Z) : option Z :=
  match table_entry (lex_base tbl) q with
  | Some b =>
      if b <? 0 then Some (- b - 1)
      else match table_entry (lex_backtrk tbl) q with Some k => if 0 <=? k then Some k else None | None => None end
  | None => None
  end.
(** The rows of the transitions overlap: the row of a state starts at its base, and the places that
    belong to it are those that [lex_check] gives to it; the others have the default transition. *)
Definition moves (q c q' : Z) : Prop :=
  exists b k, table_entry (lex_base tbl) q = Some b /\ 0 <= b /\ table_entry (lex_check tbl) (b + c) = Some k /\
    (k = q /\ table_entry (lex_trans tbl) (b + c) = Some q' \/ k <> q /\ table_entry (lex_default tbl) q = Some q') /\ 0 <= q'.
Lemma Short_entry t i n : Short t i = Ret n <-> table_entry t i = Some n.
Proof.
  unfold Short, table_entry, byte_at. destruct (Z.ltb_spec i 0) as [Hi|Hi].
  - rewrite (proj2 (Z.ltb_lt (2 * i) 0)) by lia. done.
  - rewrite (proj2 (Z.ltb_ge (2 * i) 0)), (proj2 (Z.ltb_ge (2 * i + 1) 0)) by lia.
    replace (Z.to_nat (2 * i)) with (2 * Z.to_nat i)%nat by lia. replace (Z.to_nat (2 * i + 1)) with (S (2 * Z.to_nat i)) by lia.
    destruct (t !! (2 * Z.to_nat i)%nat), (t !! S (2 * Z.to_nat i)); cbn; split; congruence.
Qed.
Lemma accepts_Short q : accepts q =
  match Short (lex_base tbl) q with
  | Ret b =>
      if b <? 0 then Some (- b - 1)
      else match Short (lex_backtrk tbl) q with Ret k => if 0 <=? k then Some k else None | _ => None end
  | _ => None
  end.
Proof.
  unfold accepts. pose proof (Short_entry (lex_base tbl) q) as H1. pose proof (Short_entry (lex_backtrk tbl) q) as H2.
  destruct (table_entry (lex_base tbl) q) as [b|].
  - rewrite (proj2 (H1 b) eq_refl). destruct (b <? 0); [done|]. destruct (table_entry (lex_backtrk tbl) q) as [k|]; [by rewrite (proj2 (H2 k) eq_refl)|].
    destruct (Short (lex_backtrk tbl) q) as [k| | | |]; try done. by discriminate (proj1 (H2 k) eq_refl).
  - destruct (Short (lex_base tbl) q) as [b| | | |]; try done. by discriminate (proj1 (H1 b) eq_refl).
Qed.
Lemma moves_Short q c q' : moves q c q' <-> exists b, Short (lex_base tbl) q = Ret b /\ 0 <= b /\ lex_next tbl q b c = Ret q' /\ 0 <= q'.
Proof.
  unfold moves, lex_next. setoid_rewrite <- Short_entry. split.
  - intros (b & k & Hb & Hb0 & Hk & Hq & Hq0). exists b. rewrite Hk. mred. split_and!; try done.
    destruct Hq as [[-> Hq]|[Hne Hq]]; [by rewrite Z.eqb_refl|by rewrite (proj2 (Z.eqb_neq _ _))].
  - intros (b & Hb & Hb0 & Hn & Hq0). apply bind_Ret_inv in Hn as (k & Hk & Hn). exists b, k. split_and!; try done.
    destruct (Z.eqb_spec k q); [by left|by right].
Qed.
Inductive reads : Z -> list Z -> Z -> Prop :=
| reads_nil q : reads q [] q
| reads_cons q c q1 w q2 : moves q c q1 -> reads q1 w q2 -> reads q (c :: w) q2.

Lemma moves_fun q c q1 q2 : moves q c q1 -> moves q c q2 -> q1 = q2.
Proof. rewrite !moves_Short. intros (b & E & _ & E1 & _) (b' & E' & _ & E2 & _). congruence. Qed.
Lemma reads_fun q w q1 q2 : reads q w q1 -> reads q w q2 -> q1 = q2.
Proof.
  induction 1 as [q|q c q' w q1 Hm Hr IH]; intros H2; inversion H2 as [|? ? q'' ? ? Hm' Hr']; subst; [done|].
  apply IH. by rewrite (moves_fun _ _ _ _ Hm Hm').
Qed.
Lemma reads_app q w1 w2 q2 : reads q (w1 ++ w2) q2 <-> exists q1, reads q w1 q1 /\ reads q1 w2 q2.
Proof.
  split.
  - revert q. induction w1 as [|c w1 IH]; intros q Hr; [exists q; split; [constructor|done]|].
    inversion Hr as [|? ? q' ? ? Hm Hr']; subst. destruct (IH q' Hr') as (q1 & H1 & H2). exists q1. split; [by econstructor|done].
  - intros (q1 & H1 & H2). induction H1; [done|]. econstructor; [done|]. by apply IHreads.
Qed.

(** Reading [n + 1] symbols goes through the state reached after [n]. *)
Lemma reads_longer q w n m q1 qm : (n < m)%nat -> (m <= length w)%nat -> reads q (take n w) q1 -> reads q (take m w) qm ->
  exists c q2, w !! n = Some c /\ moves q1 c q2 /\ reads q (take (S n) w) q2.
Proof.
  intros Hnm Hm H1 H2. destruct (lookup_lt_is_Some_2 w n ltac:(lia)) as [c Hc].
  replace (take m w) with (take n w ++ c :: drop (S n) (take m w)) in H2.
  2:{ pose proof (take_drop_middle (take m w) n c ltac:(by rewrite lookup_take_lt by lia)) as E. by rewrite take_take, Nat.min_l in E by lia. }
  apply reads_app in H2 as (q' & H2 & H3). rewrite (reads_fun _ _ _ _ H2 H1) in *. inversion H3 as [|? ? q2 ? ? Hmv _]; subst.
  exists c, q2. split_and!; try done. rewrite (take_S_r w n c) by done. apply reads_app. exists q1. split; [done|].
  econstructor; [done|constructor].
Qed.

(** The tables are those of an automaton with [nst] states. *)
Definition tables_ok (nst : Z) : Prop := nst <= 2 ^ 15 /\ forall q, 0 <= q < nst -> exists b, Short (lex_base tbl) q = Ret b /\
  (0 <= b -> (exists k, Short (lex_backtrk tbl) q = Ret k) /\
    forall c, 0 <= c <= 256 -> exists q', lex_next tbl q b c = Ret q' /\ q' < nst).
End Automaton.

Lemma Short_range t n x : Short t n = Ret x -> - 2 ^ 15 <= x < 2 ^ 15.
Proof.
  unfold Short. intros E. apply bind_Ret_inv in E as (b0 & _ & E). apply bind_Ret_inv in E as (b1 & _ & E). injection E as <-.
  apply (swrap_range 16). lia.
Qed.
Lemma accepts_range tbl q a : accepts tbl q = Some a -> 0 <= a < 2 ^ 15.
Proof.
  rewrite accepts_Short. destruct (Short (lex_base tbl) q) as [b| | | |] eqn:Eb; try done. pose proof (Short_range _ _ _ Eb).
  destruct (Z.ltb_spec b 0); [intros [= <-]; lia|]. destruct (Short (lex_backtrk tbl) q) as [k| | | |] eqn:Ek; try done.
  pose proof (Short_range _ _ _ Ek). destruct (Z.leb_spec 0 k); [|done]. intros [= <-]. lia.
Qed.

(** ** Buffers *)

(** The input of a buffer: [bytes] from position [p0] on, then perhaps the
    end of file. *)
Record buffer_at (b : lexer_buffer) (p0 : Z) (bytes : list Z) (eof : bool) : Prop := {
  ba_curr : lex_curr_pos b = Val_long p0;
  ba_len : lex_buffer_len b = Val_long (p0 + Z.of_nat (length bytes));
  ba_eof : lex_eof_reached b = Val_bool eof;
  ba_pos : 0 <= p0;
  ba_small : p0 + Z.of_nat (length bytes) < 2 ^ 60;
  ba_bytes : Forall (fun c => 0 <= c < 256) bytes;
  ba_input : forall i c, bytes !! i = Some c -> lex_buffer b !! (Z.to_nat p0 + i)%nat = Some c;
}.
Definition symbols (bytes : list Z) (eof : bool) : list Z := bytes ++ (if eof then [256] else []).

Lemma Val_long_le a b : - 2 ^ 61 <= a < 2 ^ 61 -> - 2 ^ 61 <= b < 2 ^ 61 -> (Val_long a <=? Val_long b) = (a <=? b).
Proof. intros Ha Hb. rewrite !Val_long_int by (unfold is_int, Min_long, Max_long; lia). destruct (Z.leb_spec a b), (Z.leb_spec (2 * a + 1) (2 * b + 1)); lia. Qed.
Lemma Val_long_eqb a b : - 2 ^ 61 <= a < 2 ^ 61 -> - 2 ^ 61 <= b < 2 ^ 61 -> (Val_long a =? Val_long b) = (a =? b).
Proof. intros Ha Hb. rewrite !Val_long_int by (unfold is_int, Min_long, Max_long; lia). destruct (Z.eqb_spec a b), (Z.eqb_spec (2 * a + 1) (2 * b + 1)); lia. Qed.

Lemma Int_Val_int n : - 2 ^ 31 <= n < 2 ^ 31 -> Int_val (Val_int n) = n.
Proof. intros Hn. unfold Int_val, Val_int. rewrite Long_Val_int by (unfold is_int, Min_long, Max_long; lia). apply swrap_small; lia. Qed.

(** The next character of such a buffer. *)
Lemma lex_char_spec b p0 bytes eof : buffer_at b p0 bytes eof ->
  match bytes with
  | c :: rest => exists b', lex_char b = Ret (Some (c, b')) /\ b' = set_curr (Val_long (p0 + 1)) b /\ buffer_at b' (p0 + 1) rest eof
  | [] => lex_char b = Ret (if eof then Some (256, b) else None)
  end.
Proof.
  intros [Hc Hl He Hp Hs Hb Hi]. unfold lex_char. rewrite Hc, Hl, Val_long_le, He by lia. destruct bytes as [|c rest].
  - cbn [length]. rewrite Z.add_0_r, Z.leb_refl. by destruct eof.
  - cbn [length] in *. rewrite (proj2 (Z.leb_gt _ _)) by lia. unfold byte_at. rewrite Long_Val_int by (unfold is_int, Min_long, Max_long; lia).
    rewrite (proj2 (Z.ltb_ge _ _)) by lia. specialize (Hi 0%nat c eq_refl) as Hi0. rewrite Nat.add_0_r in Hi0. rewrite Hi0. cbn [of_option]. mred.
    eexists. split; [reflexivity|]. assert (s64 (Val_long p0 + 2) = Val_long (p0 + 1)) as ->.
    { rewrite !Val_long_int by (unfold is_int, Min_long, Max_long; lia). rewrite swrap_small by lia. lia. }
    split; [done|]. apply Forall_cons in Hb as [_ Hb]. split; try done; cbn; try lia.
    + rewrite Hl. f_equal. lia.
    + intros i x Hx. replace (Z.to_nat (p0 + 1) + i)%nat with (Z.to_nat p0 + S i)%nat by lia. by apply Hi.
Qed.

(** ** Longest match *)

Section LongestMatch.
Context (tbl : lexing_table) (nst q0 p0 : Z) (bytes : list Z) (eof : bool).
Notation w := (symbols bytes eof).

(** The first [n] symbols of the input are a token of action [a]; the buffer
    position after them (the end of file takes no room). *)
Definition token (n : nat) (a : Z) : Prop :=
  (n <= length w)%nat /\ exists q, reads tbl q0 (take n w) q /\ accepts tbl q = Some a.
Definition pos (n : nat) : Z := Val_long (p0 + Z.of_nat (n `min` length bytes)).
(** The longest token of fewer than [k] symbols. *)
Definition longest (k n : nat) (a : Z) : Prop :=
  token n a /\ (n < k)%nat /\ forall m a', (n < m < k)%nat -> ~ token m a'.
(** What the engine remembers after it looked at [k] prefixes. *)
Definition remembers (k : nat) (b : lexer_buffer) : Prop :=
  (lex_last_action b = Val_int (-1) /\ lex_last_pos b = pos 0 /\ forall n a, (n < k)%nat -> ~ token n a) \/
  exists n a, longest k n a /\ lex_last_action b = Val_int a /\ lex_last_pos b = pos n.

(** What the engine promises of its result. *)
Definition lex_post (e : lex_exit) (b : lexer_buffer) : Prop :=
  match e with
  | Empty_token => (forall n a, ~ token n a) /\ lex_curr_pos b = pos 0
  | Return v =>
      (exists n a, v = Val_int a /\ 0 <= a < 2 ^ 15 /\ longest (S (length w)) n a /\ lex_curr_pos b = pos n) \/
      (exists q, v = Val_int (- q - 1) /\ 0 <= q < nst /\ reads tbl q0 w q /\ lex_curr_pos b = pos (length w) /\
        lex_eof_reached b = Val_bool false /\ remembers (S (length w)) b)
  end.

(** No token is longer than an input after which the automaton is stuck. *)
Lemma stuck_no_token k q n a : reads tbl q0 (take k w) q ->
  (forall c q', w !! k = Some c -> ~ moves tbl q c q') -> (k < n)%nat -> ~ token n a.
Proof.
  intros Hr Hstuck Hkn (Hn & q' & Hq' & _). destruct (reads_longer tbl q0 w k n q q' Hkn Hn Hr Hq') as (c & q2 & Hc & Hm & _).
  by apply (Hstuck c q2 Hc).
Qed.
Lemma token_at k q a : reads tbl q0 (take k w) q -> (k <= length w)%nat -> token k a <-> accepts tbl q = Some a.
Proof.
  intros Hr Hk. split; [|by intros Ha; split; [|exists q]]. intros (_ & q' & Hq' & Ha). by rewrite (reads_fun _ _ _ _ _ Hr Hq').
Qed.

(** Looking at the next prefix. *)
Lemma remembers_none k q b : reads tbl q0 (take k w) q -> (k <= length w)%nat -> accepts tbl q = None ->
  remembers k b -> remembers (S k) b.
Proof.
  intros Hr Hk Ha Hb. pose proof (token_at k q) as Ht.
  assert (forall a, ~ token k a) as Hno by (intros a Hta; apply Ht in Hta; [congruence|done|done]).
  destruct Hb as [(H1 & H2 & H3)|(n & a & (H1 & H2 & H3) & H4)].
  - left. split_and!; try done. intros n a Hn. destruct (decide (n = k)) as [->|]; [apply Hno|apply H3; lia].
  - right. exists n, a. split; [|done]. split_and!; [done|lia|]. intros m a' Hm.
    destruct (decide (m = k)) as [->|]; [apply Hno|apply H3; lia].
Qed.
Lemma remembers_token k q a b : reads tbl q0 (take k w) q -> (k <= length w)%nat -> accepts tbl q = Some a ->
  lex_curr_pos b = pos k -> remembers (S k) (set_last (lex_curr_pos b) (Val_int a) b).
Proof.
  intros Hr Hk Ha Hp. right. exists k, a. split_and!; try done.
  split_and!; [by apply (token_at k q)|lia|lia].
Qed.

(** A memory that covers every prefix the automaton can read is exact. *)
Lemma remembers_all k b : (forall n a, (k <= n)%nat -> ~ token n a) -> remembers k b ->
  (lex_last_action b = Val_int (-1) /\ lex_last_pos b = pos 0 /\ forall n a, ~ token n a) \/
  exists n a, longest (S (length w)) n a /\ lex_last_action b = Val_int a /\ lex_last_pos b = pos n.
Proof.
  intros Hno [(H1 & H2 & H3)|(n & a & (H1 & H2 & H3) & H4)].
  - left. split_and!; try done. intros n a. destruct (decide (n < k)%nat); [by apply H3|apply Hno; lia].
  - right. exists n, a. split; [|done]. pose proof H1 as (Hl & _). split_and!; [done|lia|]. intros m a' Hm.
    destruct (decide (m < k)%nat); [apply H3; lia|apply Hno; lia].
Qed.
Lemma backtrack_post k b o b' : (forall n a, (k <= n)%nat -> ~ token n a) -> remembers k b ->
  lex_backtrack b = (o, b') -> exists e, o = Exit e /\ lex_post e b'.
Proof.
  intros Hno Hb [= <- <-]. eexists. split; [reflexivity|]. destruct (remembers_all k b Hno Hb) as [(-> & Hp & Hn)|(n & a & Hl & -> & Hp)].
  - cbn. rewrite Z.eqb_refl. done.
  - pose proof Hl as ((_ & q & _ & Ha) & _). pose proof (accepts_range _ _ _ Ha). cbn -[Val_long]. unfold Val_int.
    rewrite Val_long_eqb, (proj2 (Z.eqb_neq _ _)) by lia. cbn. left. exists n, a. done.
Qed.

(** The loop invariant: [k] symbols are consumed and the automaton is in [q];
    on a reentry the [k] symbols themselves were already looked at. *)
Record lex_inv (k : nat) (q : Z) (b : lexer_buffer) : Prop := {
  li_k : (k <= length w)%nat;
  li_q : 0 <= q < nst;
  li_reads : reads tbl q0 (take k w) q;
  li_remembers : remembers k b \/ remembers (S k) b;
  li_buffer : buffer_at b (p0 + Z.of_nat (k `min` length bytes)) (drop k bytes) (eof && (k <=? length bytes)%nat);
}.
Lemma symbols_lookup k c : w !! k = Some c -> (k <= length bytes)%nat /\
  (bytes !! k = Some c \/ k = length bytes /\ eof = true /\ c = 256).
Proof.
  unfold symbols. intros [Hl|[Hl Hc]]%lookup_app_Some; [split; [by apply lookup_lt_Some in Hl; lia|by left]|].
  destruct eof; [|done]. apply list_lookup_singleton_Some in Hc as [Hk <-]. split; [lia|right]. split_and!; [lia|done|done].
Qed.
Lemma buffer_at_last b p l e x y : buffer_at b p l e -> buffer_at (set_last x y b) p l e.
Proof. intros []. by split. Qed.
Lemma buffer_at_curr k q b : lex_inv k q b -> lex_curr_pos b = pos k.
Proof. intros [? ? ? ? H]. exact (ba_curr _ _ _ _ H). Qed.

(** The next symbol, and the buffer after it. *)
Lemma lex_symbol_spec k b : (k <= length w)%nat ->
  buffer_at b (p0 + Z.of_nat (k `min` length bytes)) (drop k bytes) (eof && (k <=? length bytes)%nat) ->
  match w !! k with
  | None => lex_char b = Ret None /\ k = length w /\ lex_eof_reached b = Val_bool false
  | Some c => 0 <= c <= 256 /\ exists b', lex_char b = Ret (Some (c, b')) /\ lex_last_pos b' = lex_last_pos b /\
      lex_last_action b' = lex_last_action b /\
      buffer_at (if c =? 256 then set_eof (Val_bool false) b' else b') (p0 + Z.of_nat (S k `min` length bytes)) (drop (S k) bytes)
        (eof && (S k <=? length bytes)%nat)
  end.
Proof.
  intros Hk Hb. pose proof (lex_char_spec _ _ _ _ Hb) as Hc. destruct (w !! k) as [c|] eqn:Ew.
  - apply symbols_lookup in Ew as [Hkl [Hl|(-> & He & ->)]].
    + pose proof (lookup_lt_Some _ _ _ Hl) as Hlt. rewrite (drop_S bytes c k Hl) in Hb, Hc. destruct Hc as (b' & Hc & -> & Hb').
      pose proof (ba_bytes _ _ _ _ Hb) as [Hr _]%Forall_cons. split; [lia|]. eexists. split; [exact Hc|]. split_and!; [done|done|].
      rewrite (proj2 (Z.eqb_neq _ _)) by lia. rewrite (proj2 (Nat.leb_le _ _)) in Hb' by lia. rewrite (proj2 (Nat.leb_le (S k) _)) by lia.
      rewrite Nat.min_l in * by lia. by replace (p0 + Z.of_nat (S k `min` length bytes)) with (p0 + Z.of_nat k + 1) by lia.
    + split; [lia|]. rewrite Nat.leb_refl, He, drop_all in *. cbn in Hc. eexists. split_and!; try done. rewrite Z.eqb_refl.
      rewrite Nat.min_id in Hb. rewrite (proj2 (Nat.leb_gt (S _) _)), (drop_ge bytes), Nat.min_r by lia. destruct Hb. by split.
  - apply lookup_ge_None in Ew. assert (k = length w) as Ek by lia. unfold symbols in Ek. rewrite length_app in Ek.
    rewrite drop_ge in Hc by (destruct eof; cbn in Ek; lia).
    assert (eof && (k <=? length bytes)%nat = false) as Ef. { destruct eof; [|done]. cbn in *. apply Nat.leb_gt. lia. }
    rewrite Ef in Hc. split_and!; [done|unfold symbols; rewrite length_app; lia|]. rewrite (ba_eof _ _ _ _ Hb). by rewrite Ef.
Qed.

(** One round keeps the invariant or leaves with the result. *)
Lemma lex_round_spec k q b : tables_ok tbl nst -> lex_inv k q b ->
  exists o b', lex_round tbl q b = Ret (o, b') /\
    match o with Exit e => lex_post e b' | Continue q' => (S k <= length w)%nat /\ lex_inv (S k) q' b' end.
Proof.
  intros [Hn Ht] Hi. pose proof (buffer_at_curr _ _ _ Hi) as Hcur. destruct Hi as [Hk Hq Hr Hrem Hb].
  destruct (Ht q Hq) as (base & Eb & Hbase). unfold lex_round. rewrite Eb. mred. destruct (Z.ltb_spec base 0) as [Hneg|Hpos].
  { eexists _, _. split; [reflexivity|]. cbn. pose proof (Short_range _ _ _ Eb). left. exists k, (- base - 1).
    split_and!; try done; try lia. split_and!; try lia.
    - apply (token_at k q); [done|done|]. rewrite accepts_Short, Eb. by rewrite (proj2 (Z.ltb_lt _ _)).
    - intros m a' Hm. apply (stuck_no_token k q); [done| |lia]. intros c q' _ (b' & Eb' & Hb' & _)%moves_Short. rewrite Eb in Eb'. injection Eb' as <-. lia. }
  destruct (Hbase Hpos) as ([bk Ek] & Hnext). rewrite Ek. mred.
  set (b1 := if 0 <=? bk then _ else _).
  assert (remembers (S k) b1) as Hrem1.
  { assert (accepts tbl q = if 0 <=? bk then Some bk else None) as Ea.
    { rewrite accepts_Short, Eb, (proj2 (Z.ltb_ge _ _)) by lia. by rewrite Ek. }
    unfold b1. destruct (0 <=? bk); [by apply (remembers_token k q)|]. destruct Hrem; [by apply (remembers_none k q)|done]. }
  assert (buffer_at b1 (p0 + Z.of_nat (k `min` length bytes)) (drop k bytes) (eof && (k <=? length bytes)%nat)) as Hb1.
  { unfold b1. destruct (0 <=? bk); [by apply buffer_at_last|done]. }
  pose proof (lex_symbol_spec k b1 Hk Hb1) as Hsym. destruct (w !! k) as [c|] eqn:Ew.
  2:{ destruct Hsym as (-> & -> & He). mred. eexists _, _. split; [reflexivity|]. right. exists q. rewrite firstn_all in Hr.
      split_and!; try done; try lia. exact (ba_curr _ _ _ _ Hb1). }
  destruct Hsym as (Hc & b2 & -> & Hp2 & Ha2 & Hb2). mred. destruct (Hnext c Hc) as (q' & Eq & Hq'). rewrite Eq. mred.
  assert (remembers (S k) b2) as Hrem2 by (unfold remembers; rewrite Hp2, Ha2; done).
  destruct (Z.ltb_spec q' 0) as [Hq0|Hq0].
  - destruct (lex_backtrack b2) as [o b'] eqn:Eo. destruct (backtrack_post (S k) b2 o b') as (e & -> & He); [|done|done|by eexists _, _].
    intros n a Hkn. apply (stuck_no_token k q); [done| |lia]. intros c' q2 Hc' (base' & Eb' & _ & Eq' & Hq2)%moves_Short.
    rewrite Ew in Hc'. injection Hc' as <-. rewrite Eb in Eb'. injection Eb' as <-. rewrite Eq in Eq'. injection Eq' as <-. lia.
  - eexists _, _. split; [reflexivity|]. apply lookup_lt_Some in Ew as Hlt. split; [lia|]. split; try done; try lia.
    + rewrite (take_S_r w k c Ew). apply reads_app. exists q. split; [done|]. econstructor; [|constructor]. apply moves_Short. by exists base.
    + left. unfold remembers in *. by destruct (c =? 256).
Qed.
Lemma lex_loop_spec fuel : forall k q b, tables_ok tbl nst -> lex_inv k q b -> (length w - k < fuel)%nat ->
  exists e b', lex_loop fuel tbl q b = Ret (e, b') /\ lex_post e b'.
Proof.
  induction fuel as [|n IH]; intros k q b Ht Hi Hf; [lia|]. cbn [lex_loop].
  destruct (lex_round_spec k q b Ht Hi) as (o & b' & -> & Ho). mred. destruct o as [e|q']; [by eexists _, _|].
  destruct Ho as [Hk Hi']. apply (IH (S k)); [done|done|lia].
Qed.

Lemma lex_enter_inv b : 0 <= q0 < nst -> nst <= 2 ^ 15 -> buffer_at b p0 bytes eof ->
  exists b1, lex_enter (Val_int q0) b = (q0, b1) /\ lex_inv 0 q0 b1.
Proof.
  intros Hq Hn Hb. unfold lex_enter. rewrite Int_Val_int by lia. rewrite (proj2 (Z.leb_le _ _)) by lia. eexists. split; [reflexivity|].
  split; try done; try lia.
  - constructor.
  - left. left. cbn -[Val_long Z.add]. rewrite (ba_curr _ _ _ _ Hb). unfold pos. cbn -[Val_long Z.add]. rewrite Z.add_0_r. split_and!; try done. lia.
  - cbn [Nat.min]. rewrite Z.add_0_r. replace (eof && (0 <=? length bytes)%nat) with eof by (by destruct eof). destruct Hb. by split.
Qed.
End LongestMatch.

(** A refill: [d] is added after the input, everything is moved down by [s];
    the end of file may be reached. *)
Definition refilled (s p0 : Z) (bytes d : list Z) (eof : bool) (b b' : lexer_buffer) : Prop :=
  buffer_at b' (p0 - s + Z.of_nat (length bytes)) d eof /\
  lex_last_action b' = lex_last_action b /\ lex_last_pos b' = Val_long (Long_val (lex_last_pos b) - s).

Lemma token_extended tbl q0 bytes d eof n a : (n <= length bytes)%nat ->
  token tbl q0 (bytes ++ d) eof n a <-> token tbl q0 bytes false n a.
Proof.
  intros Hn. unfold token, symbols. rewrite app_nil_r, !length_app, <- app_assoc, take_app_le by lia.
  split; intros [_ H]; (split; [lia|done]).
Qed.

Lemma remembers_extended tbl q0 p0 s bytes d eof b b' : 0 <= s <= p0 -> p0 + Z.of_nat (length bytes) < 2 ^ 60 ->
  refilled s p0 bytes d eof b b' -> remembers tbl q0 p0 bytes false (S (length bytes)) b ->
  remembers tbl q0 (p0 - s) (bytes ++ d) eof (S (length bytes)) b'.
Proof.
  intros Hs Hsm (_ & Ha & Hp) Hr. assert (forall n, (n <= length bytes)%nat ->
    Val_long (Long_val (pos p0 bytes n) - s) = pos (p0 - s) (bytes ++ d) n) as Hpos.
  { intros n Hn. unfold pos. rewrite Long_Val_int by (unfold is_int, Min_long, Max_long; lia). rewrite length_app, !Nat.min_l by lia. f_equal. lia. }
  destruct Hr as [(H1 & H2 & H3)|(n & a & (H1 & H2 & H3) & H4 & H5)].
  - left. rewrite Ha, Hp, H2, Hpos by lia. split_and!; try done. intros n a Hn. rewrite token_extended by lia. by apply H3.
  - right. exists n, a. rewrite Ha, Hp, H5, Hpos by lia. split_and!; try done.
    split_and!; [rewrite token_extended by lia; done|done|]. intros m a' Hm. rewrite token_extended by lia. by apply H3.
Qed.

(** The invariant holds again after a refill. *)
Lemma refill_inv tbl nst q0 p0 s bytes d eof b b' q : 0 <= s <= p0 -> p0 + Z.of_nat (length bytes) < 2 ^ 60 -> 0 <= q < nst ->
  reads tbl q0 bytes q -> remembers tbl q0 p0 bytes false (S (length bytes)) b -> refilled s p0 bytes d eof b b' ->
  lex_inv tbl nst q0 (p0 - s) (bytes ++ d) eof (length bytes) q b'.
Proof.
  intros Hs Hsm Hq Hr Hrem Hrf. split.
  - unfold symbols. rewrite !length_app. lia.
  - done.
  - unfold symbols. by rewrite <- app_assoc, take_app_length.
  - right. by eapply remembers_extended.
  - destruct Hrf as (Hb & _). rewrite length_app, drop_app_length, Nat.min_l, (proj2 (Nat.leb_le _ _)), andb_true_r by lia. done.
Qed.

(** C19: on the tables of an automaton the lexer engine terminates, and finds the
    longest match: it returns the action of the longest prefix of the input
    (the end of file included) that the automaton accepts and leaves the buffer
    after it; it raises [Failure "lexing: empty token"] and rewinds the
    buffer when no prefix is accepted; or it asks for a refill in the state
    reached on the whole input, having remembered the longest match so far. *)
Theorem lex_longest_match tbl nst q0 p0 bytes eof b fuel :
  tables_ok tbl nst -> 0 <= q0 < nst -> buffer_at b p0 bytes eof -> (length (symbols bytes eof) < fuel)%nat ->
  exists e b', caml_lex_engine fuel tbl (Val_int q0) b = Ret (e, b') /\ lex_post tbl nst q0 p0 bytes eof e b'.
Proof.
  intros Ht Hq Hb Hf. unfold caml_lex_engine. destruct (lex_enter_inv tbl nst q0 p0 bytes eof b Hq (proj1 Ht) Hb) as (b1 & -> & Hi).
  apply (lex_loop_spec _ _ _ _ _ _ _ 0 q0 b1 Ht Hi). lia.
Qed.

(** Refilling is transparent: when the engine asked for a refill, entering
    it again with the value it returned, on the buffer with more input (moved
    down by [s], perhaps at the end of file), gives the result the longest
    match on the whole input has, wherever the input was cut. *)
Theorem lex_refill tbl nst q0 q p0 s bytes d eof b b' b2 fuel fuel' :
  tables_ok tbl nst -> 0 <= q0 < nst -> 0 <= q < nst -> buffer_at b p0 bytes false -> 0 <= s <= p0 ->
  caml_lex_engine fuel tbl (Val_int q0) b = Ret (Return (Val_int (- q - 1)), b') -> (length bytes < fuel)%nat ->
  refilled s p0 bytes d eof b' b2 -> (length (symbols d eof) < fuel')%nat ->
  exists e b3, caml_lex_engine fuel' tbl (Val_int (- q - 1)) b2 = Ret (e, b3) /\
    lex_post tbl nst q0 (p0 - s) (bytes ++ d) eof e b3.
Proof.
  intros Ht Hq0 Hq Hb Hs He Hf Hrf Hf'. pose proof (proj1 Ht) as Hn. unfold caml_lex_engine in *.
  destruct (lex_enter_inv tbl nst q0 p0 bytes false b Hq0 Hn Hb) as (b1 & E1 & Hi). rewrite E1 in He.
  destruct (lex_loop_spec tbl nst q0 p0 bytes false fuel 0 q0 b1 Ht Hi ltac:(unfold symbols; rewrite app_nil_r; lia)) as (e & b4 & E & Hpost).
  rewrite He in E. injection E as <- <-. destruct Hpost as [(n & a & Ev & Ha & _)|(q1 & Ev & Hq1 & Hr & _ & _ & Hrem)].
  { exfalso. apply (f_equal Int_val) in Ev. rewrite !Int_Val_int in Ev by lia. lia. }
  apply (f_equal Int_val) in Ev. rewrite !Int_Val_int in Ev by lia. assert (q1 = q) as -> by lia.
  unfold symbols in Hr, Hrem. rewrite app_nil_r in Hr, Hrem. unfold lex_enter. rewrite Int_Val_int, (proj2 (Z.leb_gt _ _)) by lia.
  replace (- (- q - 1) - 1) with q by lia. pose proof (ba_small _ _ _ _ Hb) as Hsm.
  apply (lex_loop_spec _ _ _ _ _ _ _ (length bytes) q b2 Ht); [by apply (refill_inv _ _ _ _ _ _ _ _ b')|].
  unfold symbols in *. rewrite !length_app in *. lia.
Qed.

(** ** The engine with memory *)

(** A code that ends and only names cells of a memory of size [m]. *)
Fixpoint code_okb (m : nat) (pc : list Z) : bool :=
  match pc with
  | [] => false
  | dst :: pc =>
      (dst =? 0xff) ||
      match pc with
      | [] => false
      | src :: pc => (0 <=? dst) && (Z.to_nat dst <? m)%nat && ((src =? 0xff) || (Z.to_nat src <? m)%nat) && code_okb m pc
      end
  end.
Definition codes_ok (tbl : lexing_table) (nst : Z) (m : nat) : Prop := forall q, 0 <= q < nst ->
  (exists off, UShort (lex_base_code tbl) q = Ret off /\
    (forall base, Short (lex_base tbl) q = Ret base -> base < 0 -> code_okb m (drop (Z.to_nat off) (lex_code tbl)) = true) /\
    (forall base c, Short (lex_base tbl) q = Ret base -> 0 <= base -> 0 <= c <= 256 -> exists k pc,
      Short (lex_check_code tbl) (off + c) = Ret k /\
      (if k =? q then UShort (lex_trans_code tbl) (off + c) else UShort (lex_default_code tbl) q) = Ret pc /\
      (0 < pc -> code_okb m (drop (Z.to_nat pc) (lex_code tbl)) = true))) /\
  (forall k, Short (lex_backtrk tbl) q = Ret k -> 0 <= k -> exists off, UShort (lex_backtrk_code tbl) q = Ret off /\
    code_okb m (drop (Z.to_nat off) (lex_code tbl)) = true).

(** Such a code runs, and keeps the size of the memory. *)
Lemma run_code_ok fresh n : forall m pc mem, (length pc <= n)%nat -> code_okb m pc = true -> length mem = m ->
  exists mem', run_code pc mem fresh = Ret mem' /\ length mem' = m.
Proof.
  induction n as [|n IH]; intros m pc mem Hn Hok Hm; (destruct pc as [|dst pc]; [done|]); cbn [length] in Hn; [lia|].
  cbn [code_okb run_code] in *. destruct (dst =? 0xff); [by eexists|]. destruct pc as [|src pc]; [done|]. cbn [length orb] in *.
  apply andb_prop in Hok as [[[Hd0 Hd]%andb_prop Hs]%andb_prop Hok]. apply Nat.ltb_lt in Hd.
  assert (exists v, (if src =? 0xff then Ret fresh else mem_get mem src) = Ret v) as [v ->].
  { destruct (src =? 0xff); [by eexists|]. cbn in Hs. apply Nat.ltb_lt in Hs. unfold mem_get.
    destruct (lookup_lt_is_Some_2 mem (Z.to_nat src) ltac:(lia)) as [v ->]. by eexists. }
  mred. unfold mem_set. rewrite decide_True by lia. mred. apply IH; [lia|done|by rewrite length_insert].
Qed.

(** Buffers up to the memory. *)
Definition erase (b : lexer_buffer) : lexer_buffer := set_mem [] b.
Lemma lex_tag_ok tbl offs q off m b : UShort offs q = Ret off -> code_okb m (drop (Z.to_nat off) (lex_code tbl)) = true ->
  length (lex_mem b) = m -> exists mem, lex_tag tbl offs q b = Ret (set_mem mem b) /\ length mem = m.
Proof.
  intros E Hok Hm. unfold lex_tag, run_tag. rewrite E. mred.
  destruct (run_code_ok (Val_int (-1)) _ m _ (lex_mem b) (le_n _) Hok Hm) as (mem & -> & Hl). mred. by exists mem.
Qed.
Lemma lex_moves_ok tbl nst m q base c b : codes_ok tbl nst m -> 0 <= q < nst -> Short (lex_base tbl) q = Ret base -> 0 <= base ->
  0 <= c <= 256 -> length (lex_mem b) = m -> exists mem, lex_moves tbl q c b = Ret (set_mem mem b) /\ length mem = m.
Proof.
  intros Hc Hq Eb Hb Hc256 Hm. destruct (Hc q Hq) as ((off & Eo & _ & H) & _). destruct (H base c Eb Hb Hc256) as (k & pc & Ek & Ep & Hok).
  unfold lex_moves, run_mem. rewrite Eo. mred. rewrite Ek. mred. rewrite Ep. mred. destruct (Z.ltb_spec 0 pc) as [Hp|].
  - destruct (run_code_ok (lex_curr_pos b) _ m _ (lex_mem b) (le_n _) (Hok Hp) Hm) as (mem & -> & Hl). mred. by exists mem.
  - exists (lex_mem b). split; [by destruct b|done].
Qed.

(** Reading a character does not look at the memory. *)
Lemma lex_char_erase b : lex_char (erase b) = match lex_char b with
  | Ret (Some (c, b')) => Ret (Some (c, erase b')) | Ret None => Ret None | Undef => Undef | r => r end.
Proof.
  unfold lex_char, erase. destruct b; cbn. destruct (_ <=? _); [by destruct (_ =? _)|]. by destruct (byte_at _ _).
Qed.
Lemma lex_char_same b c b' : Forall (fun c => 0 <= c < 256) (lex_buffer b) -> lex_char b = Ret (Some (c, b')) ->
  lex_mem b' = lex_mem b /\ lex_buffer b' = lex_buffer b /\ 0 <= c <= 256.
Proof.
  intros Hb. unfold lex_char. destruct (_ <=? _); [destruct (_ =? _); [done|]; intros [= <- <-]; by split_and!|].
  unfold byte_at. destruct (_ <? _); [done|]. destruct (lex_buffer b !! _) as [x|] eqn:Ex; [|done]. cbn. intros [= <- <-].
  pose proof (Forall_lookup_1 _ _ _ _ Hb Ex). split_and!; try done; cbn in *; lia.
Qed.

Section Simulation.
Context (tbl : lexing_table) (nst : Z) (m : nat).
Hypothesis Ht : tables_ok tbl nst.
Hypothesis Hc : codes_ok tbl nst m.

(** The memory has its size and the buffer holds bytes. *)
Definition mem_ok (b : lexer_buffer) : Prop := length (lex_mem b) = m /\ Forall (fun c => 0 <= c < 256) (lex_buffer b).

(** The update at a backtrack point. *)
Lemma backtrack_point_sim q k b : 0 <= q < nst -> Short (lex_backtrk tbl) q = Ret k -> mem_ok b ->
  exists b', (if 0 <=? k then
                lexbuf ← lex_tag tbl (lex_backtrk_code tbl) q b;
                Ret (set_last (lex_curr_pos lexbuf) (Val_int k) lexbuf)
              else Ret b) = Ret b' /\ mem_ok b' /\
    erase b' = (if 0 <=? k then set_last (lex_curr_pos (erase b)) (Val_int k) (erase b) else erase b).
Proof.
  intros Hq Ek [Hm Hb]. destruct (Z.leb_spec 0 k) as [H0|]; [|by exists b].
  destruct (Hc q Hq) as (_ & Hk). destruct (Hk k Ek H0) as (off & Eo & Hok).
  destruct (lex_tag_ok tbl _ _ _ _ _ Eo Hok Hm) as (mem & -> & Hl). mred. eexists. split; [reflexivity|]. by destruct b.
Qed.

Lemma new_lex_round_sim q b o b1 : 0 <= q < nst -> mem_ok b -> lex_round tbl q (erase b) = Ret (o, b1) ->
  exists b', new_lex_round tbl q b = Ret (o, b') /\ mem_ok b' /\ erase b' = b1 /\
    forall q', o = Continue q' -> 0 <= q' < nst.
Proof.
  intros Hq Hm. destruct (proj2 Ht q Hq) as (base & Eb & Hbase). unfold lex_round, new_lex_round. rewrite Eb. mred.
  destruct (Z.ltb_spec base 0) as [Hneg|Hpos].
  { intros [= <- <-]. destruct (Hc q Hq) as ((off & Eo & Hok & _) & _).
    destruct (lex_tag_ok tbl _ _ _ _ _ Eo (Hok base Eb Hneg) (proj1 Hm)) as (mem & -> & Hl). mred. eexists. split; [reflexivity|].
    destruct Hm. by destruct b. }
  destruct (Hbase Hpos) as ([k Ek] & Hnext). rewrite Ek. mred.
  destruct (backtrack_point_sim q k b Hq Ek Hm) as (b2 & -> & Hm2 & <-). mred. rewrite lex_char_erase.
  destruct (lex_char b2) as [[[c b3]|]| | | |] eqn:Ec; mred; try done; [|by intros [= <- <-]; exists b2].
  destruct (lex_char_same _ _ _ (proj2 Hm2) Ec) as (Hm3 & Hb3 & Hc256).
  assert (mem_ok b3) as Hok3 by (destruct Hm2; split; congruence).
  destruct (Hnext c Hc256) as (q' & -> & Hq'). mred. destruct (Z.ltb_spec q' 0).
  - intros [= <- <-]. eexists. by split_and!.
  - intros [= <- <-]. destruct (lex_moves_ok tbl nst m q base c b3 Hc Hq Eb Hpos Hc256 (proj1 Hok3)) as (mem & -> & Hl). mred.
    eexists. split; [reflexivity|]. destruct Hok3. split_and!; [|by destruct b3, (c =? 256)|intros ? [= <-]; lia]. by destruct (c =? 256).
Qed.
Lemma new_lex_loop_sim fuel : forall q b e b1, 0 <= q < nst -> mem_ok b -> lex_loop fuel tbl q (erase b) = Ret (e, b1) ->
  exists b', new_lex_loop fuel tbl q b = Ret (e, b') /\ mem_ok b' /\ erase b' = b1.
Proof.
  induction fuel as [|n IH]; intros q b e b1 Hq Hm E; [done|]. cbn [lex_loop new_lex_loop] in *.
  apply bind_Ret_inv in E as ([o b2] & E1 & E2). destruct (new_lex_round_sim q b o b2 Hq Hm E1) as (b3 & -> & Hm3 & <- & Hq'). mred.
  destruct o as [e'|q']; [injection E2 as <- <-; by exists b3|]. apply (IH q' b3); [by apply Hq'|done|done].
Qed.
End Simulation.

(** C20: the engine with memory is the first engine plus the memory: on codes that
    end and stay in the memory, from a first entry or a reentry, whenever the first
    engine returns (a token, a refill or the exception), the new one returns
    the same with the same buffer but for the memory. *)
Theorem new_lex_engine_simulates tbl nst m q st b fuel e b1 :
  tables_ok tbl nst -> codes_ok tbl nst m -> mem_ok m b -> 0 <= q < nst -> st = Val_int q \/ st = Val_int (- q - 1) ->
  caml_lex_engine fuel tbl st (erase b) = Ret (e, b1) ->
  exists b', caml_new_lex_engine fuel tbl st b = Ret (e, b') /\ mem_ok m b' /\ erase b' = b1.
Proof.
  intros Ht Hc Hm Hq Hst. pose proof (proj1 Ht) as Hn. unfold caml_lex_engine, caml_new_lex_engine, lex_enter.
  destruct Hst as [-> | ->]; rewrite Int_Val_int by lia.
  - rewrite (proj2 (Z.leb_le _ _)) by lia. intros E. apply (new_lex_loop_sim tbl nst m Ht Hc); [done|by destruct Hm|]. by destruct b.
  - rewrite (proj2 (Z.leb_gt _ _)) by lia. replace (- (- q - 1) - 1) with q by lia. intros E. by apply (new_lex_loop_sim tbl nst m Ht Hc).
Qed.

(** ** Deciding the conditions on tables *)

Definition okb {A} (r : result A) (f : A -> bool) : bool := match r with Ret x => f x | _ => false end.
Lemma okb_true {A} (r : result A) f : okb r f = true -> exists x, r = Ret x /\ f x = true.
Proof. destruct r; try done. by eexists. Qed.
Definition below (n : Z) : list Z := map Z.of_nat (seq 0 (Z.to_nat n)).
Lemma below_spec n f : forallb f (below n) = true -> forall q, 0 <= q < n -> f q = true.
Proof.
  intros H q Hq. rewrite forallb_forall in H. apply H. unfold below. apply in_map_iff. exists (Z.to_nat q). split; [lia|]. apply in_seq. lia.
Qed.
Definition tables_okb (tbl : lexing_table) (nst : Z) : bool :=
  (nst <=? 2 ^ 15) && forallb (fun q => okb (Short (lex_base tbl) q) (fun b => (b <? 0) ||
    (okb (Short (lex_backtrk tbl) q) (fun _ => true) &&
     forallb (fun c => okb (lex_next tbl q b c) (fun q' => q' <? nst)) (below 257)))) (below nst).
Lemma tables_okb_ok tbl nst : tables_okb tbl nst = true -> tables_ok tbl nst.
Proof.
  intros [Hn H]%andb_prop. split; [lia|]. intros q Hq. apply (below_spec _ _ H), okb_true in Hq as (b & -> & Hb). exists b.
  split; [done|]. intros H0. rewrite (proj2 (Z.ltb_ge _ _)) in Hb by lia. apply andb_prop in Hb as [(k & -> & _)%okb_true Hb].
  split; [by eexists|]. intros c Hc. assert (0 <= c < 257) as Hc' by lia. apply (below_spec _ _ Hb), okb_true in Hc' as (q' & -> & Hq').
  exists q'. split; [done|lia].
Qed.
Definition codes_okb (tbl : lexing_table) (nst : Z) (m : nat) : bool :=
  let code off := code_okb m (drop (Z.to_nat off) (lex_code tbl)) in
  forallb (fun q =>
    okb (UShort (lex_base_code tbl) q) (fun off => okb (Short (lex_base tbl) q) (fun base =>
      if base <? 0 then code off
      else forallb (fun c => okb (Short (lex_check_code tbl) (off + c)) (fun k =>
             okb (if k =? q then UShort (lex_trans_code tbl) (off + c) else UShort (lex_default_code tbl) q)
               (fun pc => (pc <=? 0) || code pc))) (below 257))) &&
    okb (Short (lex_backtrk tbl) q) (fun k => (k <? 0) || okb (UShort (lex_backtrk_code tbl) q) code)) (below nst).
Lemma codes_okb_ok tbl nst m : codes_okb tbl nst m = true -> codes_ok tbl nst m.
Proof.
  intros H q Hq. apply (below_spec _ _ H), andb_prop in Hq as [(off & Eo & (base & Eb & Hb)%okb_true)%okb_true (k & Ek & Hk)%okb_true].
  split.
  - exists off. split_and!; [done| |]; intros base'; [intros E H0|intros c E H0 Hc]; rewrite Eb in E; injection E as <-.
    + by rewrite (proj2 (Z.ltb_lt _ _)) in Hb by lia.
    + rewrite (proj2 (Z.ltb_ge _ _)) in Hb by lia. assert (0 <= c < 257) as Hc' by lia.
      apply (below_spec _ _ Hb), okb_true in Hc' as (k' & Ek' & (pc & Ep & Hp)%okb_true). exists k', pc. split_and!; try done.
      intros H1. by rewrite (proj2 (Z.leb_gt _ _)) in Hp by lia.
  - intros k' E H0. rewrite Ek in E. injection E as <-. rewrite (proj2 (Z.ltb_ge _ _)) in Hk by lia. apply okb_true in Hk as (o & -> & Ho).
    by exists o.
Qed.

(** The tables of a lexer with the rules ['a'+] (action 0) and the end of file (action 1);
    the end of a match of the first rule is kept in the cell 0. *)
Definition table16 (l : list Z) : list Z := flat_map (fun x => [x mod 256; x / 256 mod 256]) l.
Definition sparse (n : nat) (d : Z) (l : list (Z * Z)) : list Z := foldr (fun '(i, x) t => <[Z.to_nat i := x]> t) (replicate n d) l.
Definition ex_tables : lexing_table := mkTable
  (table16 [0; 1; -2]) (table16 [-1; 0; -1]) (table16 [-1; -1; -1])
  (table16 (sparse 258 (-1) [(97, 1); (256, 2); (98, 1)])) (table16 (sparse 258 (-1) [(97, 0); (256, 0); (98, 1)]))
  (table16 [1; 1; 0]) (table16 [0; 0; 0]) (table16 [0; 0; 0])
  (table16 (sparse 258 0 [(98, 1)])) (table16 (sparse 258 (-1) [(98, 1)]))
  [255; 0; 255; 255].
Definition ex_lexbuf (s : list Z) (eof : bool) : lexer_buffer :=
  mkLexbuf 1 s (Val_long (Z.of_nat (length s))) 1 1 (Val_long 0) 1 1 (Val_bool eof) [1] 1 1.
Ltac bytes := repeat (apply Forall_cons_2; [lia|]); apply Forall_nil_2.
Lemma ex_lexbuf_at s eof : Z.of_nat (length s) < 2 ^ 60 -> Forall (fun c => 0 <= c < 256) s -> buffer_at (ex_lexbuf s eof) 0 s eof.
Proof. intros Hs Hb. split; try done; cbn -[Z.pow]; lia. Qed.

Example ex_lex_token : caml_new_lex_engine 10 ex_tables (Val_int 0) (ex_lexbuf [97; 97; 98; 97] true) =
  Ret (Return (Val_int 0), mkLexbuf 1 [97; 97; 98; 97] 9 1 1 5 5 1 3 [5] 1 1).
Proof. vm_compute. reflexivity. Qed.
Example ex_lex_eof : caml_lex_engine 10 ex_tables (Val_int 0) (ex_lexbuf [] true) =
  Ret (Return (Val_int 1), mkLexbuf 1 [] 1 1 1 1 1 (-1) 1 [1] 1 1).
Proof. vm_compute. reflexivity. Qed.
Example ex_lex_empty : caml_lex_engine 10 ex_tables (Val_int 0) (ex_lexbuf [98] true) =
  Ret (Empty_token, mkLexbuf 1 [98] 3 1 1 1 1 (-1) 3 [1] 1 1).
Proof. vm_compute. reflexivity. Qed.

Lemma lex_longest_match_witness : exists e b', caml_lex_engine 6 ex_tables (Val_int 0) (ex_lexbuf [97; 97; 98; 97] true) = Ret (e, b') /\
  lex_post ex_tables 3 0 0 [97; 97; 98; 97] true e b'.
Proof.
  apply (lex_longest_match ex_tables 3 0 0 [97; 97; 98; 97] true).
  - apply tables_okb_ok. vm_compute. reflexivity.
  - lia.
  - apply ex_lexbuf_at; [done|bytes].
  - cbn. lia.
Defined.
Lemma lex_refill_witness : exists e b3,
  caml_lex_engine 4 ex_tables (Val_int (-1 - 1)) (set_curr (Val_long 2) (set_last (Val_long 2) (Val_int 0) (ex_lexbuf [97; 97; 97] true))) = Ret (e, b3) /\
  lex_post ex_tables 3 0 (0 - 0) ([97; 97] ++ [97]) true e b3.
Proof.
  apply (lex_refill ex_tables 3 0 1 0 0 [97; 97] [97] true (ex_lexbuf [97; 97] false)
    (set_last (Val_long 2) (Val_int 0) (set_curr (Val_long 2) (ex_lexbuf [97; 97] false))) _ 3).
  - apply tables_okb_ok. vm_compute. reflexivity.
  - lia.
  - lia.
  - apply ex_lexbuf_at; [done|bytes].
  - lia.
  - vm_compute. reflexivity.
  - cbn. lia.
  - split_and!; [|done|done]. split; try done. bytes.
  - cbn. lia.
Defined.
Lemma new_lex_engine_simulates_witness : exists b',
  caml_new_lex_engine 10 ex_tables (Val_int 0) (ex_lexbuf [97; 97; 98; 97] true) = Ret (Return (Val_int 0), b') /\
  mem_ok 1 b' /\ erase b' = mkLexbuf 1 [97; 97; 98; 97] 9 1 1 5 5 1 3 [] 1 1.
Proof.
  apply (new_lex_engine_simulates ex_tables 3 1 0).
  - apply tables_okb_ok. vm_compute. reflexivity.
  - apply codes_okb_ok. vm_compute. reflexivity.
  - split; [done|bytes].
  - lia.
  - by left.
  - vm_compute. reflexivity.
Defined.
End Lexing.
