(* ===== verification/Parsing.v ===== *)
(** * The table-driven parser engine (runtime/parsing.c)

    The engine is a pushdown automaton that returns to its caller for a token,
    for larger stacks and for a semantic action, and saves its variables in
    the environment meanwhile.  The labels of the C function are the
    constructors of [label]; a [goto] is a step.  The environment is a record
    with the fields of the block, its stacks are lists; the caller's loop
    (stdlib/parsing.ml, [yyparse]) is the relation [yy_step]. *)

From S2P Require Import Prelude Memory Lexing.
From stdpp Require Import list.
#[local] Open Scope Z_scope.
Import Lexing.

Module Parsing.

Definition ERRCODE : Z := 256.

Record parser_tables := mkTables {
  transl_const : list Z;
  transl_block : list Z;
  lhs : list Z;
  len : list Z;
  defred : list Z;
  dgoto : list Z;
  sindex : list Z;
  rindex : list Z;
  gindex : list Z;
  tablesize : Z;
  table : list Z;
  check : list Z;
}.
Record parser_env := mkEnv {
  s_stack : list Z;
  v_stack : list Z;
  symb_start_stack : list Z;
  symb_end_stack : list Z;
  stacksize : Z;
  stackbase : Z;
  curr_char : Z;
  lval : Z;
  symb_start : Z;
  symb_end : Z;
  env_asp : Z;
  rule_len : Z;
  rule_number : Z;
  env_sp : Z;
  env_state : Z;
  env_errflag : Z;
}.

Definition set_token (c v : Z) (e : parser_env) : parser_env :=
  mkEnv (s_stack e) (v_stack e) (symb_start_stack e) (symb_end_stack e) (stacksize e) (stackbase e) c v
    (symb_start e) (symb_end e) (env_asp e) (rule_len e) (rule_number e) (env_sp e) (env_state e) (env_errflag e).
Definition set_curr_char (c : Z) (e : parser_env) : parser_env := set_token c (lval e) e.
Definition set_stacks (s v p q : list Z) (e : parser_env) : parser_env :=
  mkEnv s v p q (stacksize e) (stackbase e) (curr_char e) (lval e)
    (symb_start e) (symb_end e) (env_asp e) (rule_len e) (rule_number e) (env_sp e) (env_state e) (env_errflag e).
Definition set_stacksize (n : Z) (e : parser_env) : parser_env :=
  mkEnv (s_stack e) (v_stack e) (symb_start_stack e) (symb_end_stack e) n (stackbase e) (curr_char e) (lval e)
    (symb_start e) (symb_end e) (env_asp e) (rule_len e) (rule_number e) (env_sp e) (env_state e) (env_errflag e).
Definition set_positions (p q : Z) (e : parser_env) : parser_env :=
  mkEnv (s_stack e) (v_stack e) (symb_start_stack e) (symb_end_stack e) (stacksize e) (stackbase e) (curr_char e) (lval e)
    p q (env_asp e) (rule_len e) (rule_number e) (env_sp e) (env_state e) (env_errflag e).
Definition set_rule (a n m : Z) (e : parser_env) : parser_env :=
  mkEnv (s_stack e) (v_stack e) (symb_start_stack e) (symb_end_stack e) (stacksize e) (stackbase e) (curr_char e) (lval e)
    (symb_start e) (symb_end e) a m n (env_sp e) (env_state e) (env_errflag e).

(** Input and output codes. *)
Definition START : Z := 0.
Definition TOKEN_READ : Z := 1.
Definition STACKS_GROWN_1 : Z := 2.
Definition STACKS_GROWN_2 : Z := 3.
Definition SEMANTIC_ACTION_COMPUTED : Z := 4.
Definition ERROR_DETECTED : Z := 5.
Definition READ_TOKEN : Z := Val_int 0.
Definition RAISE_PARSE_ERROR : Z := Val_int 1.
Definition GROW_STACKS_1 : Z := Val_int 2.
Definition GROW_STACKS_2 : Z := Val_int 3.
Definition COMPUTE_SEMANTIC_ACTION : Z := Val_int 4.
Definition CALL_ERROR_FUNCTION : Z := Val_int 5.

(** The local variables that live across the labels. *)
Record locals := mkLocals { state : Z; sp : Z; errflag : Z }.
Definition SAVE (x : locals) (e : parser_env) : parser_env :=
  mkEnv (s_stack e) (v_stack e) (symb_start_stack e) (symb_end_stack e) (stacksize e) (stackbase e) (curr_char e) (lval e)
    (symb_start e) (symb_end e) (env_asp e) (rule_len e) (rule_number e)
    (Val_int (sp x)) (Val_int (state x)) (Val_int (errflag x)).
Definition RESTORE (e : parser_env) : locals :=
  mkLocals (Int_val (env_state e)) (u64 (Int_val (env_sp e))) (Int_val (env_errflag e)).

Inductive label :=
| Loop | Testshift | Recover | Shift (n2 : Z) | Shift_recover (n2 : Z) | Push | Reduce (n : Z) | Semantic_action.
Inductive jump := Goto (l : label) (x : locals) (e : parser_env) | Out (o : Z) (e : parser_env).

Section Engine.
Variable tables : parser_tables.

(** [n1 != 0 && n2 >= 0 && n2 <= Int_val(tables->tablesize) && Short(tables->check, n2) == key] *)
Definition has_entry (n1 n2 key : Z) : result bool :=
  if negb (n1 =? 0) && (0 <=? n2) && (n2 <=? Int_val (tablesize tables))
  then k ← Short (check tables) n2; Ret (k =? key) else Ret false.

Definition do_loop (x : locals) (e : parser_env) : result jump :=
  n ← Short (defred tables) (state x);
  Ret (if negb (n =? 0) then Goto (Reduce n) x e
       else if 0 <=? Int_val (curr_char e) then Goto Testshift x e
       else Out READ_TOKEN (SAVE x e)).

Definition do_testshift (x : locals) (e : parser_env) : result jump :=
  n1 ← Short (sindex tables) (state x);
  let n2 := n1 + Int_val (curr_char e) in
  b ← has_entry n1 n2 (Int_val (curr_char e));
  if (b : bool) then Ret (Goto (Shift n2) x e)
  else
    n1 ← Short (rindex tables) (state x);
    let n2 := n1 + Int_val (curr_char e) in
    b ← has_entry n1 n2 (Int_val (curr_char e));
    if (b : bool) then n ← Short (table tables) n2; Ret (Goto (Reduce n) x e)
    else Ret (if 0 <? errflag x then Goto Recover x e else Out CALL_ERROR_FUNCTION (SAVE x e)).

(** The states are discarded until one that can shift the error token. *)
Fixpoint recover_loop (fuel : nat) (x : locals) (e : parser_env) : result jump :=
  match fuel with
  | O => NoFuel
  | S n =>
      v ← mem_get (s_stack e) (sp x);
      let state1 := Int_val v in
      n1 ← Short (sindex tables) state1;
      let n2 := n1 + ERRCODE in
      b ← has_entry n1 n2 ERRCODE;
      if (b : bool) then Ret (Goto (Shift_recover n2) x e)
      else if sp x <=? u64 (Int_val (stackbase e)) then Ret (Out RAISE_PARSE_ERROR e)
      else recover_loop n (mkLocals (state x) (u64 (sp x - 1)) (errflag x)) e
  end.
Definition do_recover (x : locals) (e : parser_env) : result jump :=
  if errflag x <? 3 then recover_loop (S (Z.to_nat (sp x))) (mkLocals (state x) (sp x) 3) e
  else if Int_val (curr_char e) =? 0 then Ret (Out RAISE_PARSE_ERROR e)
  else Ret (Goto Loop x (set_curr_char (Val_int (-1)) e)).

Definition do_shift (n2 : Z) (x : locals) (e : parser_env) : result jump :=
  Ret (Goto (Shift_recover n2) (mkLocals (state x) (sp x) (if 0 <? errflag x then errflag x - 1 else errflag x))
         (set_curr_char (Val_int (-1)) e)).
Definition do_shift_recover (n2 : Z) (x : locals) (e : parser_env) : result jump :=
  state ← Short (table tables) n2;
  let x := mkLocals state (u64 (sp x + 1)) (errflag x) in
  Ret (if sp x <? u64 (Long_val (stacksize e)) then Goto Push x e else Out GROW_STACKS_1 (SAVE x e)).
Definition do_push (x : locals) (e : parser_env) : result jump :=
  s ← mem_set (s_stack e) (sp x) (Val_int (state x));
  v ← mem_set (v_stack e) (sp x) (lval e);
  p ← mem_set (symb_start_stack e) (sp x) (symb_start e);
  q ← mem_set (symb_end_stack e) (sp x) (symb_end e);
  Ret (Goto Loop x (set_stacks s v p q e)).

Definition do_reduce (n : Z) (x : locals) (e : parser_env) : result jump :=
  m ← Short (len tables) n;
  let e := set_rule (Val_int (sp x)) (Val_int n) (Val_int m) e in
  let sp' := u64 (sp x - m + 1) in
  m ← Short (lhs tables) n;
  v ← mem_get (s_stack e) (u64 (sp' - 1));
  let state1 := Int_val v in
  n1 ← Short (gindex tables) m;
  let n2 := n1 + state1 in
  b ← has_entry n1 n2 state1;
  state ← (if (b : bool) then Short (table tables) n2 else Short (dgoto tables) m);
  let x := mkLocals state sp' (errflag x) in
  Ret (if sp' <? u64 (Long_val (stacksize e)) then Goto Semantic_action x e else Out GROW_STACKS_2 (SAVE x e)).

Definition do_label (l : label) (x : locals) (e : parser_env) : result jump :=
  match l with
  | Loop => do_loop x e
  | Testshift => do_testshift x e
  | Recover => do_recover x e
  | Shift n2 => do_shift n2 x e
  | Shift_recover n2 => do_shift_recover n2 x e
  | Push => do_push x e
  | Reduce n => do_reduce n x e
  | Semantic_action => Ret (Out COMPUTE_SEMANTIC_ACTION (SAVE x e))
  end.

(** [case TOKEN_READ], [h] being the heap the token is in. *)
Definition do_token_read (h : heap) (e : parser_env) (arg : Z) : result jump :=
  let x := RESTORE e in
  if Is_block arg then
    t ← Tag_val h arg;
    c ← mem_get (transl_block tables) t;
    v ← Field h arg 0;
    Ret (Goto Testshift x (set_token c v e))
  else
    c ← (if Int_val arg <? 0 then Undef else mem_get (transl_const tables) (Int_val arg));
    Ret (Goto Testshift x (set_token c (Val_long 0) e)).

(** [case SEMANTIC_ACTION_COMPUTED] *)
Definition do_action_computed (e : parser_env) (arg : Z) : result jump :=
  let x := RESTORE e in
  s ← mem_set (s_stack e) (sp x) (Val_int (state x));
  v ← mem_set (v_stack e) (sp x) arg;
  let asp := u64 (Int_val (env_asp e)) in
  en ← mem_get (symb_end_stack e) asp;
  q ← mem_set (symb_end_stack e) (sp x) en;
  p ← (if asp <? sp x then en ← mem_get q asp; mem_set (symb_start_stack e) (sp x) en else Ret (symb_start_stack e));
  Ret (Goto Loop x (set_stacks s v p q e)).

Definition do_case (h : heap) (e : parser_env) (cmd arg : Z) : result jump :=
  let c := Int_val cmd in
  if c =? START then Ret (Goto Loop (mkLocals 0 (u64 (Int_val (env_sp e))) 0) e)
  else if c =? TOKEN_READ then do_token_read h e arg
  else if c =? ERROR_DETECTED then Ret (Goto Recover (RESTORE e) e)
  else if c =? STACKS_GROWN_1 then Ret (Goto Push (RESTORE e) e)
  else if c =? STACKS_GROWN_2 then Ret (Goto Semantic_action (RESTORE e) e)
  else if c =? SEMANTIC_ACTION_COMPUTED then do_action_computed e arg
  else Ret (Out RAISE_PARSE_ERROR e).

Fixpoint run (fuel : nat) (j : jump) : result (Z * parser_env) :=
  match j with
  | Out o e => Ret (o, e)
  | Goto l x e => match fuel with O => NoFuel | S n => j ← do_label l x e; run n j end
  end.
Definition caml_parse_engine (fuel : nat) (h : heap) (e : parser_env) (cmd arg : Z) : result (Z * parser_env) :=
  j ← do_case h e cmd arg; run fuel j.
End Engine.

(** The trace flag of the domain; [params] is that of the start-up parameters. *)
Definition trace (params flag : bool) : bool := params || flag.
Definition caml_set_parser_trace (params flag : bool) (v : Z) : Z * bool :=
  (Val_bool (trace params flag), negb (Int_val v =? 0)).

(** ** Termination *)

(** The labels a call can still go through: a token is shifted or discarded at
    most once, and the states are discarded at most once. *)
Definition loop_rank (c err : Z) : nat := if c <? 0 then 3 else if err <? 3 then 13 else 8.
Definition rank (l : label) (x : locals) (e : parser_env) : nat :=
  match l with
  | Semantic_action => 1
  | Reduce _ => 2
  | Loop => loop_rank (Int_val (curr_char e)) (errflag x)
  | Push => 1 + loop_rank (Int_val (curr_char e)) (errflag x)
  | Shift_recover _ => 2 + loop_rank (Int_val (curr_char e)) (errflag x)
  | Shift _ => 6
  | Recover => if errflag x <? 3 then 3 + loop_rank (Int_val (curr_char e)) 3 else 4
  | Testshift => if errflag x <? 3 then 12 else 7
  end.
Definition jump_rank (j : jump) : nat := match j with Goto l x e => rank l x e | Out _ _ => 0 end.
(** A result other than running out of fuel. *)
Definition halts {A} (P : A -> Prop) (r : result A) : Prop := match r with Ret a => P a | NoFuel => False | _ => True end.
Lemma halts_bind {A B} (P : A -> Prop) (Q : B -> Prop) (r : result A) (f : A -> result B) :
  halts P r -> (forall a, P a -> halts Q (f a)) -> halts Q (r ≫= f).
Proof. destruct r; cbn; eauto. Qed.
Lemma halts_weaken {A} (P Q : A -> Prop) (r : result A) : halts P r -> (forall a, P a -> Q a) -> halts Q r.
Proof. destruct r; cbn; eauto. Qed.
Definition any {A} (_ : A) : Prop := True.
Lemma halts_Short t n : halts any (Short t n).
Proof.
  unfold Short, byte_at. eapply (halts_bind any); [destruct (_ <? _); [done|]; by destruct (t !! _)|]. intros b0 _.
  eapply (halts_bind any); [destruct (_ <? _); [done|]; by destruct (t !! _)|done].
Qed.
Lemma halts_get m i : halts any (mem_get m i).
Proof. unfold mem_get. by destruct (m !! _). Qed.
Lemma halts_set m i v : halts any (mem_set m i v).
Proof. unfold mem_set. by destruct (decide _). Qed.
Lemma halts_entry tables n1 n2 k : halts any (has_entry tables n1 n2 k).
Proof.
  unfold has_entry. destruct (_ && _); [|done]. eapply halts_bind; [apply halts_Short|done].
Qed.
Create HintDb halts.
#[local] Hint Resolve halts_Short halts_get halts_set halts_entry : halts.
Ltac halts := repeat (eapply halts_bind; [solve [eauto with halts]|intros ? _; cbn beta]).

(** A jump to a label of rank below [n]. *)
Definition descends (n : nat) (j : jump) : Prop :=
  (jump_rank j < n)%nat /\ match j with Goto _ x _ => 0 <= sp x | _ => True end.
Lemma recover_loop_halts tables n : forall x e, 0 <= sp x -> (Z.to_nat (sp x) < n)%nat ->
  halts (descends (3 + loop_rank (Int_val (curr_char e)) (errflag x))) (recover_loop tables n x e).
Proof.
  induction n as [|n IH]; intros x e H0 Hn; [lia|]. cbn [recover_loop]. halts.
  destruct a1; [split; cbn [jump_rank rank]; lia|]. destruct (Z.leb_spec (sp x) (u64 (Int_val (stackbase e)))) as [|Hlt]; [by split; cbn; lia|].
  assert (0 <= u64 (Int_val (stackbase e))) by (apply wrap_range; lia).
  apply (IH (mkLocals (state x) (u64 (sp x - 1)) (errflag x)) e); cbn [sp].
  - apply wrap_range. lia.
  - assert (u64 (sp x - 1) <= sp x - 1) by (apply Z.mod_le; lia). lia.
Qed.
Lemma u64_pos z : 0 <= u64 z.
Proof. apply wrap_range. lia. Qed.

Ltac descend := split; [cbn [jump_rank rank errflag]; unfold loop_rank;
  repeat match goal with |- context [?a <? ?b] => destruct (Z.ltb_spec a b) end; lia|first [done|apply u64_pos]].

Lemma rank_no_token k x e n : (k + 3 < n)%nat ->
  (k + loop_rank (Int_val (curr_char (set_curr_char (Val_int (-1)) e))) (errflag x) < n)%nat.
Proof. by change (Int_val (curr_char (set_curr_char (Val_int (-1)) e))) with (-1). Qed.

Lemma do_label_halts tables l x e : 0 <= sp x -> halts (descends (rank l x e)) (do_label tables l x e).
Proof.
  intros H0. destruct l; cbn [do_label rank]; unfold do_loop, do_testshift, do_recover, do_shift, do_shift_recover, do_push, do_reduce.
  - halts. cbn [halts]. destruct (negb _); [descend|]. destruct (Z.leb_spec 0 (Int_val (curr_char e))); descend.
  - halts. destruct a0; [descend|]. halts. destruct a1; [halts; descend|]. cbn [halts]. destruct (0 <? errflag x); descend.
  - destruct (Z.ltb_spec (errflag x) 3).
    + by apply (recover_loop_halts tables (S (Z.to_nat (sp x))) (mkLocals (state x) (sp x) 3) e H0); cbn; lia.
    + destruct (_ =? 0); [descend|]. split; [apply (rank_no_token 0 x e 4); lia|done].
  - split; [apply (rank_no_token 2 (mkLocals (state x) (sp x) (if 0 <? errflag x then errflag x - 1 else errflag x)) e 6); lia|done].
  - halts. cbn [halts]. destruct (sp _ <? _); (split; [cbn [jump_rank rank errflag]; lia|]); [apply u64_pos|done].
  - halts. split; [cbn [jump_rank rank]; cbn; lia|done].
  - halts. assert (halts any (if a3 then Short (table tables) (a2 + Int_val a1) else Short (dgoto tables) a0)) as Hs
      by (destruct a3; apply halts_Short). eapply halts_bind; [exact Hs|]. intros q _. cbn [halts].
    destruct (_ <? _); (split; [cbn; lia|]); [apply u64_pos|done].
  - descend.
Qed.
Lemma run_halts tables n : forall j, descends n j -> halts any (run tables n j).
Proof.
  induction n as [|n IH]; intros [l x e|o e] [Hr Hs]; cbn in Hr; try lia; try done. cbn [run].
  eapply halts_bind; [by apply do_label_halts|]. intros j [Hj Hx]. apply IH. split; [lia|done].
Qed.
Lemma do_case_halts tables h e cmd arg : halts (descends 15) (do_case tables h e cmd arg).
Proof.
  assert (forall x e l, 0 <= sp x -> (forall n2, l <> Shift_recover n2) -> descends 15 (Goto l x e)) as Hd.
  { intros x e' l Hs Hl. destruct l as [| | | |n2| | |]; try (by destruct (Hl n2)); descend. }
  unfold do_case, do_token_read, do_action_computed. repeat (destruct (_ =? _)); try (by apply Hd; [apply u64_pos|]).
  - destruct (Is_block arg).
    + eapply (halts_bind any); [by unfold Tag_val, Hd_val, load; destruct (words h !! _)|]. intros t _. halts.
      eapply (halts_bind any); [by unfold Field, load; destruct (words h !! _)|]. intros v _. by apply Hd; [apply u64_pos|].
    + eapply (halts_bind any); [destruct (_ <? _); [done|apply halts_get]|]. intros c _. by apply Hd; [apply u64_pos|].
  - halts. eapply (halts_bind any); [|intros p _; by apply Hd; [apply u64_pos|]]. destruct (_ <? _); [|done]. by halts; apply halts_set.
  - by split; cbn; lia.
Qed.

(** C22: every call of the parser engine comes back: no tables, environment or command
    make it loop, 15 jumps are enough and a recovery discards each state of
    the stack once. *)
Theorem parse_engine_terminates tables h e cmd arg fuel : (15 <= fuel)%nat ->
  caml_parse_engine tables fuel h e cmd arg <> NoFuel.
Proof.
  intros Hf E. assert (halts any (caml_parse_engine tables fuel h e cmd arg)) as H.
  { eapply halts_bind; [apply do_case_halts|]. intros j [Hj Hs]. apply run_halts. split; [lia|done]. }
  by rewrite E in H.
Qed.

(** ** The automaton of the tables *)

Inductive symbol := T (c : Z) | N (m : Z).
#[export] Instance symbol_eq_dec : EqDecision symbol.
Proof. solve_decision. Defined.

Section Automaton.
Variable tables : parser_tables.
(** The shift, the reduction and the transition on a nonterminal of a state. *)
Definition entry_of (index : list Z) (q c : Z) : result (option Z) :=
  n1 ← Short index q; b ← has_entry tables n1 (n1 + c) c;
  if (b : bool) then k ← Short (table tables) (n1 + c); Ret (Some k) else Ret None.
Definition shift_of (q c : Z) : result (option Z) := entry_of (sindex tables) q c.
Definition reduce_of (q c : Z) : result (option Z) := entry_of (rindex tables) q c.
Definition goto_of (q m : Z) : result Z :=
  n1 ← Short (gindex tables) m; b ← has_entry tables n1 (n1 + q) q;
  if (b : bool) then Short (table tables) (n1 + q) else Short (dgoto tables) m.
End Automaton.

(** A grammar: the right-hand side of each rule, the rules that accept, and the tokens
    that choose an entry point. *)
Record grammar := mkGrammar { rhs : Z -> list symbol; accept : Z -> bool; entry_tokens : list Z }.
Definition entry_token (g : grammar) (c : Z) : bool := existsb (Z.eqb c) (entry_tokens g).

(** What is known of the stack below a state: the symbols that lead to it, nearest
    first, each with the states it may have been read in. *)
Notation history := (list (symbol * list Z)).
Definition later (a b : history) : Prop :=
  forall i X Q, a !! i = Some (X, Q) -> exists Q', b !! i = Some (X, Q') /\ forall q, In q Q' -> In q Q.
Definition reached (past : Z -> history) (q' : Z) (X : symbol) (q : Z) : Prop := later (past q') ((X, [q]) :: past q).
(** The states a reduction of [k] symbols in [q] can come back to. *)
Definition exposed (past : Z -> history) (q : Z) (k : nat) : list Z :=
  match k with O => [q] | S i => match past q !! i with Some (_, Q) => Q | None => [] end end.

(** The tables are those of an automaton of the grammar: a validator of them. *)
Record valid (tables : parser_tables) (g : grammar) (nst ntok : Z) (past : Z -> history) : Prop := {
  va_sizes : 0 < nst < 2 ^ 15 /\ ERRCODE < ntok < 2 ^ 15;
  va_bottom : past 0 = [];
  va_table : forall n, 0 <= n <= Int_val (tablesize tables) ->
    (exists k, Short (check tables) n = Ret k) /\ exists k, Short (table tables) n = Ret k;
  va_defred : forall q, 0 <= q < nst -> exists n, Short (defred tables) q = Ret n;
  va_shift : forall q c, 0 <= q < nst -> 0 <= c < ntok -> exists r, shift_of tables q c = Ret r /\
    forall q', r = Some q' -> 0 < q' < nst /\ reached past q' (T c) q;
  va_reduce : forall q c, 0 <= q < nst -> 0 <= c < ntok -> exists r, reduce_of tables q c = Ret r;
  va_rule : forall q n, 0 <= q < nst ->
    (Short (defred tables) q = Ret n /\ n <> 0 \/
     Short (defred tables) q = Ret 0 /\ exists c, 0 <= c < ntok /\ reduce_of tables q c = Ret (Some n)) ->
    q <> 0 /\ - 2 ^ 15 <= n < 2 ^ 15 /\ Short (len tables) n = Ret (Z.of_nat (length (rhs g n))) /\ Z.of_nat (length (rhs g n)) < 2 ^ 15 /\
    (fst <$> take (length (rhs g n)) (past q)) = rev (rhs g n) /\
    exists m, Short (lhs tables) n = Ret m /\ (exists k, Short (gindex tables) m = Ret k) /\ (exists k, Short (dgoto tables) m = Ret k) /\
      (accept g n = false -> forall s, In s (exposed past q (length (rhs g n))) -> 0 < s < nst /\
        exists q', goto_of tables s m = Ret q' /\ 0 < q' < nst /\ reached past q' (N m) s);
  va_entry : Short (defred tables) 0 = Ret 0 /\ forall c, entry_token g c = true -> 0 <= c < ntok /\ exists q, shift_of tables 0 c = Ret (Some q);
}.

(** ** The stack *)

Section Stack.
Context (tables : parser_tables) (g : grammar) (nst ntok : Z) (past : Z -> history) (has_type : symbol -> Z -> Prop).
Hypothesis Hv : valid tables g nst ntok past.
Hypothesis error_typed : forall v, has_type (T ERRCODE) v.
Hypothesis entry_typed : forall c v, entry_token g c = true -> has_type (T c) v.

(** The stack of a parse, from the top: symbols and the states they lead to.  State
    0 is below it. *)
Notation stack := (list (symbol * Z)).
Definition top (l : stack) : Z := match l with (_, q) :: _ => q | [] => 0 end.
Inductive linked : stack -> Prop :=
| linked_nil : linked []
| linked_cons X q l : linked l -> 0 < q < nst -> reached past q X (top l) -> linked ((X, q) :: l).

Lemma linked_top l : linked l -> 0 <= top l < nst.
Proof. destruct 1; cbn; [destruct (va_sizes _ _ _ _ _ Hv); lia|lia]. Qed.
Lemma linked_drop k l : linked l -> linked (drop k l).
Proof.
  intros Hl. revert k. induction Hl as [|X q l Hl IH Hq Hr]; intros [|k]; [constructor..|by constructor|apply IH].
Qed.
(** The history of the top state is true of the stack. *)
Lemma linked_history l : linked l -> forall i X Q, past (top l) !! i = Some (X, Q) ->
  (exists q, l !! i = Some (X, q)) /\ In (top (drop (S i) l)) Q.
Proof.
  induction 1 as [|X q l Hl IH Hq Hr]; intros i Y Q Hi.
  { cbn in Hi. by rewrite (va_bottom _ _ _ _ _ Hv) in Hi. }
  cbn [top] in Hi. destruct (Hr i Y Q Hi) as (Q' & Hi' & Hsub). destruct i as [|i]; cbn in Hi'.
  - injection Hi' as <- <-. split; [by exists q|]. apply Hsub. by left.
  - destruct (IH i Y Q' Hi') as [(q' & Hq') Hin]. split; [by exists q'|]. by apply Hsub.
Qed.
(** A rule that the top state reduces by has its right-hand side on the stack, and
    comes back to one of the exposed states. *)
Lemma linked_rule l k ss : linked l -> length ss = k -> (fst <$> take k (past (top l))) = rev ss ->
  (fst <$> take k l) = rev ss /\ (k <= length l)%nat /\ In (top (drop k l)) (exposed past (top l) k).
Proof.
  intros Hl Hk Hp. assert (length (past (top l)) >= k)%nat as Hlen.
  { apply (f_equal length) in Hp. rewrite length_fmap, length_take, length_rev in Hp. lia. }
  assert (forall i, (i < k)%nat -> exists X Q q, past (top l) !! i = Some (X, Q) /\ l !! i = Some (X, q) /\ In (top (drop (S i) l)) Q) as Hall.
  { intros i Hi. destruct (lookup_lt_is_Some_2 (past (top l)) i ltac:(lia)) as [[X Q] HX].
    destruct (linked_history l Hl i X Q HX) as [(q & Hq) Hin]. by exists X, Q, q. }
  assert (k <= length l)%nat as Hkl.
  { destruct k as [|k]; [lia|]. destruct (Hall k ltac:(lia)) as (X & Q & q & _ & Hq & _). apply lookup_lt_Some in Hq. lia. }
  split_and!; [|done|].
  - rewrite <- Hp. apply list_eq. intros i. rewrite !list_lookup_fmap. destruct (decide (i < k)%nat) as [Hi|].
    + destruct (Hall i Hi) as (X & Q & q & E1 & E2 & _). rewrite (lookup_take_lt l), (lookup_take_lt (past _)), E1, E2 by done. done.
    + by rewrite (lookup_take_ge l), (lookup_take_ge (past _)) by lia.
  - destruct k as [|k]; [by left|]. cbn [exposed]. destruct (Hall k ltac:(lia)) as (X & Q & q & -> & _ & Hin). done.
Qed.

(** The stack in the arrays of states and values: its bottom is at index [base]. *)
Fixpoint holds (base : Z) (l : stack) (ss vs : list Z) : Prop :=
  match l with
  | [] => True
  | (X, q) :: l =>
      ss !! Z.to_nat (base + Z.of_nat (length l)) = Some (Val_int q) /\
      (exists v, vs !! Z.to_nat (base + Z.of_nat (length l)) = Some v /\ has_type X v) /\ holds base l ss vs
  end.
Lemma holds_drop base k l ss vs : holds base l ss vs -> holds base (drop k l) ss vs.
Proof. revert k. induction l as [|[X q] l IH]; intros [|k] Hl; try done. apply IH. apply Hl. Qed.
Lemma holds_lookup base l ss vs i X q : holds base l ss vs -> l !! i = Some (X, q) ->
  ss !! Z.to_nat (base + Z.of_nat (length l) - 1 - Z.of_nat i) = Some (Val_int q) /\
  exists v, vs !! Z.to_nat (base + Z.of_nat (length l) - 1 - Z.of_nat i) = Some v /\ has_type X v.
Proof.
  revert i. induction l as [|[Y p] l IH]; intros [|i] Hl Hi; try done; cbn [length].
  - injection Hi as -> ->. replace (base + Z.of_nat (S (length l)) - 1 - Z.of_nat 0) with (base + Z.of_nat (length l)) by lia.
    destruct Hl as (? & ? & _). done.
  - replace (base + Z.of_nat (S (length l)) - 1 - Z.of_nat (S i)) with (base + Z.of_nat (length l) - 1 - Z.of_nat i) by lia.
    apply IH; [apply Hl|done].
Qed.
(** What is above the top may change. *)
Lemma holds_above base l ss vs ss' vs' : 0 <= base ->
  (forall i, (Z.of_nat i < base + Z.of_nat (length l)) -> ss' !! i = ss !! i /\ vs' !! i = vs !! i) ->
  holds base l ss vs -> holds base l ss' vs'.
Proof.
  intros Hb. induction l as [|[X q] l IH]; intros Hsame Hl; [done|]. destruct Hl as (H1 & (v & H2 & H3) & Hl). cbn [length holds] in *.
  destruct (Hsame (Z.to_nat (base + Z.of_nat (length l))) ltac:(lia)) as [E1 E2]. rewrite E1, E2. split_and!; [done|by exists v|].
  apply IH; [|done]. intros i Hi. apply Hsame. lia.
Qed.
Lemma holds_push base l ss vs X q v : 0 <= base -> holds base l ss vs -> has_type X v ->
  (Z.to_nat (base + Z.of_nat (length l)) < length ss)%nat -> length vs = length ss ->
  holds base ((X, q) :: l) (<[Z.to_nat (base + Z.of_nat (length l)) := Val_int q]> ss) (<[Z.to_nat (base + Z.of_nat (length l)) := v]> vs).
Proof.
  intros Hb Hl Hx Hlt Hlen. cbn [holds]. rewrite !list_lookup_insert_eq by lia. split_and!; [done|by exists v|].
  apply (holds_above base l ss vs); [done| |done]. intros i Hi. by rewrite !list_lookup_insert_ne by lia.
Qed.

(** ** The invariant *)

Record env_ok (base : Z) (e : parser_env) : Prop := {
  eo_size : stacksize e = Val_long (Z.of_nat (length (s_stack e)));
  eo_v : length (v_stack e) = length (s_stack e);
  eo_start : length (symb_start_stack e) = length (s_stack e);
  eo_end : length (symb_end_stack e) = length (s_stack e);
  eo_small : Z.of_nat (length (s_stack e)) <= 2 ^ 30;
  eo_stackbase : stackbase e = Val_int base;
  eo_base : 1 <= base <= Z.of_nat (length (s_stack e));
  eo_token : exists c, curr_char e = Val_int c /\ -1 <= c < ntok /\ (0 <= c -> has_type (T c) (lval e));
}.
(** The stack [l] is in the environment, with its top at [p]; an empty stack
    waits for the token of an entry point. *)
Record stack_ok (base : Z) (l : stack) (p : Z) (e : parser_env) : Prop := {
  so_env : env_ok base e;
  so_linked : linked l;
  so_holds : holds base l (s_stack e) (v_stack e);
  so_sp : p = base + Z.of_nat (length l) - 1;
  so_room : p < Z.of_nat (length (s_stack e));
}.
Definition at_state (base : Z) (l : stack) (x : locals) (e : parser_env) : Prop :=
  stack_ok base l (sp x) e /\ state x = top l /\ 0 <= errflag x <= 3 /\
  (l = [] -> exists c, curr_char e = Val_int c /\ entry_token g c = true).
(** [X] has been read in the top state of [l] and leads to [q]. *)
Definition leads (X : symbol) (l : stack) (q : Z) : Prop := 0 < q < nst /\ reached past q X (top l).
Definition rule_at (q n : Z) : Prop := Short (defred tables) q = Ret n /\ n <> 0 \/
  Short (defred tables) q = Ret 0 /\ exists c, 0 <= c < ntok /\ reduce_of tables q c = Ret (Some n).
(** A reduction by [n]: the arguments of the action are still on the stack. *)
Record pending (base : Z) (l : stack) (n : Z) (x : locals) (e : parser_env) : Prop := {
  pe_stack : stack_ok base l (base + Z.of_nat (length l) - 1) e;
  pe_len : (length (rhs g n) <= length l)%nat;
  pe_rhs : (fst <$> take (length (rhs g n)) l) = rev (rhs g n);
  pe_asp : env_asp e = Val_int (base + Z.of_nat (length l) - 1);
  pe_rule : rule_number e = Val_int n /\ - 2 ^ 15 <= n < 2 ^ 15;
  pe_rule_len : rule_len e = Val_int (Z.of_nat (length (rhs g n))) /\ Z.of_nat (length (rhs g n)) < 2 ^ 15;
  pe_sp : sp x = base + Z.of_nat (length l) - Z.of_nat (length (rhs g n));
  pe_err : 0 <= errflag x <= 3;
  pe_state : - 2 ^ 15 <= state x < 2 ^ 15;
  pe_lhs : exists m, Short (lhs tables) n = Ret m;
  pe_goto : accept g n = false -> drop (length (rhs g n)) l <> [] /\
    exists m, Short (lhs tables) n = Ret m /\ leads (N m) (drop (length (rhs g n)) l) (state x);
}.
Definition room (p : Z) (e : parser_env) : Prop := p < Z.of_nat (length (s_stack e)).
(** A symbol about to be pushed on [l]. *)
Definition pushing (base : Z) (l : stack) (X : symbol) (x : locals) (e : parser_env) : Prop :=
  stack_ok base l (base + Z.of_nat (length l) - 1) e /\ sp x = base + Z.of_nat (length l) /\ 0 <= errflag x <= 3 /\
  leads X l (state x) /\ has_type X (lval e).
(** Error recovery starts from a stack that is not empty; only when states are to be
    discarded can the current state be another one than the top. *)
Definition recovering (base : Z) (l : stack) (x : locals) (e : parser_env) : Prop :=
  stack_ok base l (sp x) e /\ l <> [] /\ 0 <= errflag x <= 3 /\ (3 <= errflag x -> state x = top l) /\
  - 2 ^ 15 <= state x < 2 ^ 15.

Definition jump_ok (base : Z) (j : jump) : Prop :=
  match j with
  | Goto Loop x e => exists l, at_state base l x e
  | Goto Testshift x e => exists l c, at_state base l x e /\ curr_char e = Val_int c /\ 0 <= c < ntok /\ Short (defred tables) (top l) = Ret 0
  | Goto Recover x e => exists l, recovering base l x e
  | Goto (Shift n2) x e => exists l c q, at_state base l x e /\ curr_char e = Val_int c /\ 0 <= c < ntok /\ leads (T c) l q /\ Short (table tables) n2 = Ret q
  | Goto (Shift_recover n2) x e => exists l X q, stack_ok base l (sp x) e /\ 0 <= errflag x <= 3 /\ leads X l q /\ has_type X (lval e) /\
      Short (table tables) n2 = Ret q
  | Goto Push x e => exists l X, pushing base l X x e /\ room (sp x) e
  | Goto (Reduce n) x e => exists l, at_state base l x e /\ rule_at (top l) n
  | Goto Semantic_action x e => exists l n, pending base l n x e /\ room (sp x) e
  | Out o e =>
      o = READ_TOKEN /\ (exists l, l <> [] /\ at_state base l (RESTORE e) e /\ Short (defred tables) (top l) = Ret 0) \/
      o = RAISE_PARSE_ERROR \/
      o = GROW_STACKS_1 /\ (exists l X, pushing base l X (RESTORE e) e) \/
      o = GROW_STACKS_2 /\ (exists l n, pending base l n (RESTORE e) e) \/
      o = COMPUTE_SEMANTIC_ACTION /\ (exists l n, pending base l n (RESTORE e) e /\ room (sp (RESTORE e)) e) \/
      o = CALL_ERROR_FUNCTION /\ (exists l, recovering base l (RESTORE e) e)
  end.

Lemma stack_ok_SAVE base l p x e : stack_ok base l p e -> stack_ok base l p (SAVE x e).
Proof. intros [[] ? ? ? ?]. by split. Qed.
Lemma stack_ok_set_rule base l p a n m e : stack_ok base l p e -> stack_ok base l p (set_rule a n m e).
Proof. intros [[] ? ? ? ?]. by split. Qed.
Lemma stack_ok_set_token base l p c v e : -1 <= c < ntok -> (0 <= c -> has_type (T c) v) ->
  stack_ok base l p e -> stack_ok base l p (set_token (Val_int c) v e).
Proof. intros Hc Hx [[] ? ? ? ?]. split; try done. split; try done. by exists c. Qed.
Lemma stack_ok_no_token base l p e : stack_ok base l p e -> stack_ok base l p (set_curr_char (Val_int (-1)) e).
Proof. destruct (va_sizes _ _ _ _ _ Hv) as [_ Hn]. intros Hs. apply stack_ok_set_token; [unfold ERRCODE in Hn; lia|lia|done]. Qed.
Lemma RESTORE_SAVE x e : - 2 ^ 31 <= state x < 2 ^ 31 -> 0 <= sp x < 2 ^ 31 -> - 2 ^ 31 <= errflag x < 2 ^ 31 -> RESTORE (SAVE x e) = x.
Proof.
  intros H1 H2 H3. destruct x as [st p er]. unfold RESTORE, SAVE. cbn [env_state env_sp env_errflag state sp errflag] in *.
  rewrite !Int_Val_int, wrap_small by lia. done.
Qed.
Lemma stack_ok_range base l p e : stack_ok base l p e -> 0 <= p < 2 ^ 30 /\ 1 <= base /\ 0 <= Z.of_nat (length l) <= p + 1.
Proof. intros [He Hl Hh Hp Hr]. destruct He. lia. Qed.
Lemma top_small l : linked l -> 0 <= top l < 2 ^ 15.
Proof. intros Hl%linked_top. destruct (va_sizes _ _ _ _ _ Hv). lia. Qed.

(** A successful shift leads to its target. *)
Lemma has_entry_true n1 c : has_entry tables n1 (n1 + c) c = Ret true ->
  exists k, Short (table tables) (n1 + c) = Ret k.
Proof.
  unfold has_entry. destruct (negb (n1 =? 0) && (0 <=? n1 + c) && (n1 + c <=? Int_val (tablesize tables))) eqn:E; [|done].
  intros _. destruct (va_table _ _ _ _ _ Hv (n1 + c)) as [_ Hk]; [lia|done].
Qed.
(** The three ways a table is consulted, from the entries of the automaton. *)
Lemma entry_of_inv index q c r : entry_of tables index q c = Ret r -> exists n1, Short index q = Ret n1 /\
  match r with
  | Some k => has_entry tables n1 (n1 + c) c = Ret true /\ Short (table tables) (n1 + c) = Ret k
  | None => has_entry tables n1 (n1 + c) c = Ret false
  end.
Proof.
  unfold entry_of. intros E. apply bind_Ret_inv in E as (n1 & E1 & E). exists n1. split; [done|].
  apply bind_Ret_inv in E as (b & E2 & E). destruct b; [|by injection E as <-]. apply bind_Ret_inv in E as (k & E3 & E). by injection E as <-.
Qed.

Lemma do_loop_ok base l x e : at_state base l x e -> exists j, do_loop tables x e = Ret j /\ jump_ok base j.
Proof.
  intros Ha. pose proof Ha as (Hs & Hst & Her & Hem). pose proof (so_linked _ _ _ _ Hs) as Hl.
  destruct (va_defred _ _ _ _ _ Hv (top l) (linked_top l Hl)) as (n & En). unfold do_loop. rewrite Hst, En. mred. eexists. split; [reflexivity|].
  destruct (eo_token _ _ (so_env _ _ _ _ Hs)) as (c & Ec & Hc & Ht). destruct (va_sizes _ _ _ _ _ Hv) as [_ Htok].
  destruct (Z.eqb_spec n 0) as [-> |Hn0]; cbn [negb].
  - rewrite Ec, Int_Val_int by lia. destruct (Z.leb_spec 0 c) as [Hc0|Hc0].
    + exists l, c. split_and!; try done; lia.
    + left. split; [done|]. exists l. pose proof (stack_ok_range _ _ _ _ Hs). pose proof (top_small l Hl). split; [|split; [|done]].
      * intros ->. destruct (Hem eq_refl) as (c' & Ec' & Hen). rewrite Ec in Ec'. apply (f_equal Int_val) in Ec'.
        destruct (proj2 (va_entry _ _ _ _ _ Hv) c' Hen) as [Hc' _]. rewrite !Int_Val_int in Ec' by lia. lia.
      * rewrite RESTORE_SAVE by lia. split; [by apply stack_ok_SAVE|done].
  - exists l. split; [done|]. by left.
Qed.

Lemma do_testshift_ok base l x e c : at_state base l x e -> curr_char e = Val_int c -> 0 <= c < ntok -> Short (defred tables) (top l) = Ret 0 ->
  exists j, do_testshift tables x e = Ret j /\ jump_ok base j.
Proof.
  intros Ha Ec Hc0 Hd. pose proof Ha as (Hs & Hst & Her & Hem). pose proof (so_linked _ _ _ _ Hs) as Hl. pose proof (linked_top l Hl) as Htop.
  destruct (eo_token _ _ (so_env _ _ _ _ Hs)) as (c' & Ec' & Hc & Ht). destruct (va_sizes _ _ _ _ _ Hv) as [Hnst Htok].
  assert (c' = c) as ->. { rewrite Ec in Ec'. apply (f_equal Int_val) in Ec'. by rewrite !Int_Val_int in Ec' by lia. }
  unfold do_testshift. rewrite Hst, Ec, Int_Val_int by lia.
  destruct (va_shift _ _ _ _ _ Hv (top l) c Htop ltac:(lia)) as (r & Er & Hr). pose proof Er as Er0. apply entry_of_inv in Er as (n1 & -> & Er). mred.
  destruct r as [q|].
  { destruct Er as [-> Eq]. mred. eexists. split; [reflexivity|]. exists l, c, q. destruct (Hr q eq_refl) as [Hq Hre]. split_and!; try done; lia. }
  rewrite Er. mred. destruct (va_reduce _ _ _ _ _ Hv (top l) c Htop ltac:(lia)) as (r & Err). pose proof Err as Err0.
  apply entry_of_inv in Err as (n1' & -> & Err). mred. destruct r as [n|].
  { destruct Err as [-> En]. mred. rewrite En. mred. eexists. split; [reflexivity|]. exists l. split; [done|]. right. split; [done|]. by exists c. }
  rewrite Err. mred. eexists. split; [reflexivity|].
  assert (l <> []) as Hne.
  { intros ->. destruct (Hem eq_refl) as (c2 & Ec2 & Hen). rewrite Ec in Ec2. apply (f_equal Int_val) in Ec2.
    destruct (proj2 (va_entry _ _ _ _ _ Hv) c2 Hen) as [Hc2 (q & Hq)]. rewrite !Int_Val_int in Ec2 by lia. subst c2. cbn [top] in *. congruence. }
  pose proof (stack_ok_range _ _ _ _ Hs). destruct (Z.ltb_spec 0 (errflag x)).
  - exists l. split_and!; try done; lia.
  - do 5 right. split; [done|]. exists l. rewrite RESTORE_SAVE by lia. split_and!; [by apply stack_ok_SAVE|try done; lia..].
Qed.

Lemma stack_ok_drop base l k e : stack_ok base l (base + Z.of_nat (length l) - 1) e -> (k <= length l)%nat ->
  stack_ok base (drop k l) (base + Z.of_nat (length (drop k l)) - 1) e.
Proof.
  intros Hs Hk. pose proof (stack_ok_range _ _ _ _ Hs). destruct Hs as [He Hl Hh Hp Hr].
  split; [done|by apply linked_drop|by apply holds_drop|done|]. rewrite length_drop. lia.
Qed.
Lemma stack_ok_top base X q l p e : stack_ok base ((X, q) :: l) p e -> mem_get (s_stack e) p = Ret (Val_int q).
Proof.
  intros [He Hl (Hs & _) Hp Hr]. unfold mem_get. replace p with (base + Z.of_nat (length l)) by (rewrite Hp; cbn [length]; lia). by rewrite Hs.
Qed.

Lemma recover_loop_ok base fuel : forall l x e, stack_ok base l (sp x) e -> l <> [] -> 0 <= errflag x <= 3 -> (Z.to_nat (sp x) < fuel)%nat ->
  exists j, recover_loop tables fuel x e = Ret j /\ jump_ok base j.
Proof.
  induction fuel as [|fuel IH]; intros l x e Hs Hne Her Hf; [lia|]. destruct l as [|[X q] l]; [done|]. clear Hne. cbn [recover_loop].
  rewrite (stack_ok_top _ _ _ _ _ _ Hs). mred. pose proof (so_linked _ _ _ _ Hs) as Hl. pose proof (linked_top _ Hl) as Htop. cbn [top] in Htop.
  destruct (va_sizes _ _ _ _ _ Hv) as [Hnst Htok]. assert (0 <= ERRCODE) by done. rewrite Int_Val_int by lia.
  destruct (va_shift _ _ _ _ _ Hv q ERRCODE Htop ltac:(lia)) as (r & Er & Hr). apply entry_of_inv in Er as (n1 & -> & Er). mred.
  destruct r as [q'|].
  - destruct Er as [-> Eq]. mred. eexists. split; [reflexivity|]. exists ((X, q) :: l), (T ERRCODE), q'. by destruct (Hr q' eq_refl).
  - rewrite Er. mred. pose proof (stack_ok_range _ _ _ _ Hs) as Hrange. pose proof (so_sp _ _ _ _ Hs) as Hsp. cbn [length] in *.
    rewrite (eo_stackbase _ _ (so_env _ _ _ _ Hs)), Int_Val_int, (wrap_small 64 base) by lia. destruct (Z.leb_spec (sp x) base).
    + eexists. split; [reflexivity|]. by right; left.
    + assert (u64 (sp x - 1) = base + Z.of_nat (length l) - 1) as E1 by (rewrite wrap_small; lia). apply (IH l); cbn [sp errflag]; try done; try lia.
      * rewrite E1. apply (stack_ok_drop base ((X, q) :: l) 1); [|cbn; lia]. cbn [length]. by rewrite <- Hsp.
      * intros ->. cbn in *. lia.
Qed.
Lemma do_recover_ok base l x e : recovering base l x e -> exists j, do_recover tables x e = Ret j /\ jump_ok base j.
Proof.
  intros (Hs & Hne & Her & Hst & _). unfold do_recover. destruct (Z.ltb_spec (errflag x) 3).
  - apply (recover_loop_ok base _ l (mkLocals (state x) (sp x) 3)); cbn; try done; lia.
  - destruct (_ =? 0); eexists; (split; [reflexivity|]); [by right; left|]. exists l. split_and!; [by apply stack_ok_no_token|apply Hst; lia|lia|lia|done].
Qed.
Lemma do_shift_ok base l c q n2 x e : at_state base l x e -> curr_char e = Val_int c -> 0 <= c < ntok -> leads (T c) l q ->
  Short (table tables) n2 = Ret q -> exists j, do_shift n2 x e = Ret j /\ jump_ok base j.
Proof.
  intros (Hs & Hst & Her & _) Ec Hc Hle Hq. eexists. split; [reflexivity|]. exists l, (T c), q. split_and!; try done.
  - by apply stack_ok_no_token.
  - cbn. destruct (Z.ltb_spec 0 (errflag x)); lia.
  - cbn. destruct (Z.ltb_spec 0 (errflag x)); lia.
  - destruct (eo_token _ _ (so_env _ _ _ _ Hs)) as (c' & Ec' & Hc' & Ht). destruct (va_sizes _ _ _ _ _ Hv) as [_ Htok].
    rewrite Ec in Ec'. apply (f_equal Int_val) in Ec'. rewrite !Int_Val_int in Ec' by lia. subst c'. apply Ht. lia.
Qed.
Lemma do_shift_recover_ok base l X q n2 x e : stack_ok base l (sp x) e -> 0 <= errflag x <= 3 -> leads X l q -> has_type X (lval e) ->
  Short (table tables) n2 = Ret q -> exists j, do_shift_recover tables n2 x e = Ret j /\ jump_ok base j.
Proof.
  intros Hs Her Hle Hx Hq. unfold do_shift_recover. rewrite Hq. mred. eexists. split; [reflexivity|]. cbn [sp].
  pose proof (stack_ok_range _ _ _ _ Hs) as Hrange. pose proof (so_sp _ _ _ _ Hs) as Hsp. pose proof (so_env _ _ _ _ Hs) as He.
  pose proof (eo_small _ _ He) as Hsm. rewrite (eo_size _ _ He), Long_Val_int by (unfold is_int, Min_long, Max_long; lia).
  rewrite !wrap_small by lia. destruct (va_sizes _ _ _ _ _ Hv) as [Hnst _]. pose proof Hle as [Hq0 _].
  assert (pushing base l X (mkLocals q (sp x + 1) (errflag x)) e) as Hp.
  { split_and!; cbn; try done; try lia. by rewrite <- Hsp. }
  destruct (Z.ltb_spec (sp x + 1) (Z.of_nat (length (s_stack e)))) as [Hlt|].
  - exists l, X. split; [done|]. unfold room. cbn. lia.
  - do 2 right. left. split; [done|]. exists l, X. rewrite RESTORE_SAVE by (cbn; lia). destruct Hp as (H1 & H2). split; [by apply stack_ok_SAVE|done].
Qed.

Lemma mem_set_ok m i v : (Z.to_nat i < length m)%nat -> mem_set m i v = Ret (<[Z.to_nat i := v]> m).
Proof. intros H. unfold mem_set. by rewrite decide_True. Qed.
(** A symbol is pushed on [l]; the position stacks are [p] and [q]. *)
Lemma stack_ok_push base l X q v p r e : stack_ok base l (base + Z.of_nat (length l) - 1) e -> leads X l q -> has_type X v ->
  base + Z.of_nat (length l) < Z.of_nat (length (s_stack e)) -> length p = length (s_stack e) -> length r = length (s_stack e) ->
  let i := Z.to_nat (base + Z.of_nat (length l)) in
  stack_ok base ((X, q) :: l) (base + Z.of_nat (length l)) (set_stacks (<[i := Val_int q]> (s_stack e)) (<[i := v]> (v_stack e)) p r e).
Proof.
  intros Hs [Hq Hre] Hx Hlt Hp Hr i. pose proof (stack_ok_range _ _ _ _ Hs). destruct Hs as [He Hl Hh Hsp Hroom]. destruct He.
  split; cbn [s_stack v_stack set_stacks length]; rewrite ?length_insert; try lia.
  - split; cbn [s_stack v_stack symb_start_stack symb_end_stack stacksize stackbase curr_char lval set_stacks]; rewrite ?length_insert; try done; lia.
  - by constructor.
  - apply holds_push; try done; lia.
Qed.
Lemma do_push_ok base l X x e : pushing base l X x e -> room (sp x) e -> exists j, do_push x e = Ret j /\ jump_ok base j.
Proof.
  intros (Hs & Hsp & Her & Hle & Hx) Hr. unfold room in Hr. pose proof (stack_ok_range _ _ _ _ Hs). pose proof (so_env _ _ _ _ Hs) as [].
  unfold do_push. rewrite !mem_set_ok by lia. mred. eexists. split; [reflexivity|]. exists ((X, state x) :: l).
  split_and!; try done; try lia. rewrite Hsp in *. apply stack_ok_push; try done; rewrite ?length_insert; lia.
Qed.

Lemma goto_total q m k d : Short (gindex tables) m = Ret k -> Short (dgoto tables) m = Ret d ->
  exists q', goto_of tables q m = Ret q'.
Proof.
  intros Ek Ed. unfold goto_of. rewrite Ek. mred. unfold has_entry.
  destruct (negb (k =? 0) && (0 <=? k + q) && (k + q <=? Int_val (tablesize tables))) eqn:E; [|mred; by exists d].
  destruct (va_table _ _ _ _ _ Hv (k + q)) as [[a ->] [b Hb]]; [lia|]. mred. destruct (a =? q); [by exists b|by exists d].
Qed.
Lemma goto_of_range q m q' : goto_of tables q m = Ret q' -> - 2 ^ 15 <= q' < 2 ^ 15.
Proof.
  unfold goto_of. intros E. apply bind_Ret_inv in E as (n1 & _ & E). apply bind_Ret_inv in E as (b & _ & E). by destruct b; eapply Short_range.
Qed.
(** [do_reduce], the transition on the left-hand side being [goto_of]. *)
Definition reduced (n k q : Z) (x : locals) (e : parser_env) : jump :=
  let e' := set_rule (Val_int (sp x)) (Val_int n) (Val_int k) e in
  let x' := mkLocals q (u64 (sp x - k + 1)) (errflag x) in
  if sp x' <? u64 (Long_val (stacksize e)) then Goto Semantic_action x' e' else Out GROW_STACKS_2 (SAVE x' e').
Lemma do_reduce_eq n m k v q x e : Short (len tables) n = Ret k -> Short (lhs tables) n = Ret m ->
  mem_get (s_stack e) (u64 (u64 (sp x - k + 1) - 1)) = Ret v -> goto_of tables (Int_val v) m = Ret q ->
  do_reduce tables n x e = Ret (reduced n k q x e).
Proof.
  intros Ek Em Ev Eq. unfold do_reduce. rewrite Ek. mred. rewrite Em. mred. cbn [s_stack set_rule]. rewrite Ev. mred.
  unfold goto_of in Eq. apply bind_Ret_inv in Eq as (n1 & -> & Eq). mred. apply bind_Ret_inv in Eq as (b & -> & Eq). mred.
  rewrite Eq. done.
Qed.
Lemma do_reduce_ok base l n x e : at_state base l x e -> rule_at (top l) n -> exists j, do_reduce tables n x e = Ret j /\ jump_ok base j.
Proof.
  intros (Hs & Hst & Her & _) Hru. pose proof (so_linked _ _ _ _ Hs) as Hl.
  destruct (va_rule _ _ _ _ _ Hv (top l) n (linked_top l Hl) Hru) as (Hq0 & Hn & Ek & Hk & Hrhs & m & Em & (gk & Egk) & (dk & Edk) & Hgo).
  set (k := length (rhs g n)) in *. destruct (linked_rule l k (rhs g n) Hl eq_refl Hrhs) as (Hsyms & Hkl & Hexp).
  pose proof (stack_ok_range _ _ _ _ Hs) as Hrange. pose proof (so_sp _ _ _ _ Hs) as Hsp. pose proof (so_room _ _ _ _ Hs) as Hroom.
  pose proof (so_env _ _ _ _ Hs) as He. pose proof (eo_small _ _ He) as Hsm.
  assert (u64 (sp x - Z.of_nat k + 1) = base + Z.of_nat (length l) - Z.of_nat k) as Esp by (rewrite wrap_small; lia).
  assert (stack_ok base (drop k l) (base + Z.of_nat (length (drop k l)) - 1) e) as Hsd by (apply stack_ok_drop; [by rewrite <- Hsp|done]).
  assert (exists v, mem_get (s_stack e) (u64 (u64 (sp x - Z.of_nat k + 1) - 1)) = Ret v /\
    (drop k l <> [] -> v = Val_int (top (drop k l)))) as (v & Ev & Htop).
  { rewrite Esp, wrap_small by lia. destruct (drop k l) as [|[Y p] l'] eqn:Ed.
    - apply (f_equal length) in Ed. rewrite length_drop in Ed. cbn in Ed. unfold mem_get.
      destruct (lookup_lt_is_Some_2 (s_stack e) (Z.to_nat (base + Z.of_nat (length l) - Z.of_nat k - 1))) as [v Hv']; [lia|]. rewrite Hv'. by exists v.
    - exists (Val_int p). split; [|done]. replace (base + Z.of_nat (length l) - Z.of_nat k - 1) with (base + Z.of_nat (length (drop k l)) - 1)
        by (rewrite length_drop; lia). rewrite Ed. by apply (stack_ok_top base Y p l'). }
  destruct (goto_total (Int_val v) m gk dk Egk Edk) as (q & Eq). eexists. split; [by eapply do_reduce_eq|].
  assert (pending base l n (mkLocals q (u64 (sp x - Z.of_nat k + 1)) (errflag x)) (set_rule (Val_int (sp x)) (Val_int n) (Val_int (Z.of_nat k)) e)) as Hp.
  { split; cbn [sp state errflag env_asp rule_number rule_len set_rule]; fold k; try done; try lia.
    - apply stack_ok_set_rule. by rewrite <- Hsp.
    - by rewrite Hsp.
    - by eapply goto_of_range.
    - by exists m.
    - intros Hacc. destruct (Hgo Hacc _ Hexp) as (Hs0 & q' & Eq' & Hq' & Hre).
      assert (drop k l <> []) as Hne by (intros E; rewrite E in Hs0; cbn in Hs0; lia). split; [done|]. exists m. split; [done|].
      destruct (va_sizes _ _ _ _ _ Hv) as [Hnst _]. rewrite (Htop Hne), Int_Val_int, Eq' in Eq by lia. injection Eq as <-. by split. }
  unfold reduced. cbn [sp]. rewrite (eo_size _ _ He), Long_Val_int, (wrap_small 64 (Z.of_nat _)) by (unfold is_int, Min_long, Max_long; lia).
  rewrite Esp in *. destruct (Z.ltb_spec (base + Z.of_nat (length l) - Z.of_nat k) (Z.of_nat (length (s_stack e)))).
  - exists l, n. by split.
  - do 3 right. left. split; [done|]. exists l, n. pose proof (pe_state _ _ _ _ _ Hp) as Hqr. cbn [state] in Hqr. rewrite RESTORE_SAVE by (cbn; lia).
    destruct Hp. split; try done. by apply stack_ok_SAVE.
Qed.
Lemma do_label_ok base l x e : jump_ok base (Goto l x e) -> exists j, do_label tables l x e = Ret j /\ jump_ok base j.
Proof.
  destruct l; cbn [jump_ok do_label].
  - intros (l & Hl). by eapply do_loop_ok.
  - intros (l & c & Hl & Hc & Hc0 & Hd). by eapply do_testshift_ok.
  - intros (l & Hl). by eapply do_recover_ok.
  - intros (l & c & q & Hl & Hc & Hc0 & Hd & Hq). by eapply do_shift_ok.
  - intros (l & X & q & Hl & Her & Hle & Hx & Hq). by eapply do_shift_recover_ok.
  - intros (l & X & Hp & Hr). by eapply do_push_ok.
  - intros (l & Hl & Hr). by eapply do_reduce_ok.
  - intros (l & n & Hp & Hr). eexists. split; [reflexivity|]. do 4 right. left. split; [done|]. exists l, n. destruct (va_sizes _ _ _ _ _ Hv) as [Hnst _].
    pose proof (stack_ok_range _ _ _ _ (pe_stack _ _ _ _ _ Hp)). pose proof (pe_state _ _ _ _ _ Hp). pose proof (pe_sp _ _ _ _ _ Hp).
    pose proof (pe_err _ _ _ _ _ Hp). pose proof (pe_len _ _ _ _ _ Hp). rewrite RESTORE_SAVE by lia. split; [|done]. destruct Hp. split; try done. by apply stack_ok_SAVE.
Qed.
Lemma run_ok base fuel : forall j, descends fuel j -> jump_ok base j -> exists o e, run tables fuel j = Ret (o, e) /\ jump_ok base (Out o e).
Proof.
  induction fuel as [|n IH]; intros [l x e|o e] [Hr Hs] Hj; cbn [jump_rank] in Hr; try lia; [|by exists o, e].
  cbn [run]. destruct (do_label_ok base l x e Hj) as (j & Ej & Hj'). rewrite Ej. mred. apply IH; [|done].
  pose proof (do_label_halts tables l x e Hs) as Hh. rewrite Ej in Hh. destruct Hh. split; [lia|done].
Qed.

(** ** Commands *)

(** A token of the lexer: its code and its attribute. *)
Definition token_ok (h : heap) (arg : Z) : Prop := exists c, 0 <= c < ntok /\
  if Is_block arg
  then exists t v, Tag_val h arg = Ret t /\ mem_get (transl_block tables) t = Ret (Val_int c) /\ Field h arg 0 = Ret v /\ has_type (T c) v
  else 0 <= Int_val arg /\ mem_get (transl_const tables) (Int_val arg) = Ret (Val_int c) /\ has_type (T c) (Val_long 0).
(** The commands the engine can be called with. *)
Inductive ready (base : Z) (h : heap) (e : parser_env) : Z -> Z -> Prop :=
| ready_start c arg : env_ok base e -> env_sp e = Val_int (base - 1) -> curr_char e = Val_int c -> entry_token g c = true ->
    ready base h e (Val_int START) arg
| ready_token l arg : l <> [] -> at_state base l (RESTORE e) e -> Short (defred tables) (top l) = Ret 0 -> token_ok h arg ->
    ready base h e (Val_int TOKEN_READ) arg
| ready_grown_1 l X arg : pushing base l X (RESTORE e) e -> room (sp (RESTORE e)) e -> ready base h e (Val_int STACKS_GROWN_1) arg
| ready_grown_2 l n arg : pending base l n (RESTORE e) e -> room (sp (RESTORE e)) e -> ready base h e (Val_int STACKS_GROWN_2) arg
| ready_action l n m arg : pending base l n (RESTORE e) e -> room (sp (RESTORE e)) e -> accept g n = false ->
    Short (lhs tables) n = Ret m -> has_type (N m) arg -> ready base h e (Val_int SEMANTIC_ACTION_COMPUTED) arg
| ready_error l arg : recovering base l (RESTORE e) e -> ready base h e (Val_int ERROR_DETECTED) arg.

Lemma token_read_ok base h e l arg : l <> [] -> at_state base l (RESTORE e) e -> Short (defred tables) (top l) = Ret 0 -> token_ok h arg ->
  exists j, do_token_read tables h e arg = Ret j /\ jump_ok base j.
Proof.
  intros Hne (Hs & Hst & Her & Hem) Hd (c & Hc & Htok). unfold do_token_read.
  assert (forall v, has_type (T c) v -> jump_ok base (Goto Testshift (RESTORE e) (set_token (Val_int c) v e))) as Hj.
  { intros v Hx. exists l, c. split; [|by split_and!; try done; lia]. split_and!; try done; try lia. by apply stack_ok_set_token; [lia|..]. }
  destruct (Is_block arg).
  - destruct Htok as (t & v & -> & Et & Ef & Hx). mred. rewrite Et. mred. rewrite Ef. mred. eexists. split; [reflexivity|]. by apply Hj.
  - destruct Htok as (H0 & Et & Hx). rewrite (proj2 (Z.ltb_ge _ _)), Et by done. mred. eexists. split; [reflexivity|]. by apply Hj.
Qed.
Lemma action_computed_ok base e l n m arg : pending base l n (RESTORE e) e -> room (sp (RESTORE e)) e -> accept g n = false ->
  Short (lhs tables) n = Ret m -> has_type (N m) arg -> exists j, do_action_computed e arg = Ret j /\ jump_ok base j.
Proof.
  intros Hp Hr Hacc Hm Hx. destruct (pe_goto _ _ _ _ _ Hp Hacc) as (Hne & m' & Hm' & Hle). rewrite Hm in Hm'. injection Hm' as <-.
  pose proof (pe_stack _ _ _ _ _ Hp) as Hs. pose proof (stack_ok_range _ _ _ _ Hs) as Hrange. pose proof (so_env _ _ _ _ Hs) as He.
  pose proof (so_room _ _ _ _ Hs) as Hroom. pose proof (pe_len _ _ _ _ _ Hp) as Hlen. pose proof (pe_sp _ _ _ _ _ Hp) as Hsp. unfold room in Hr.
  assert (base + Z.of_nat (length l) - Z.of_nat (length (rhs g n)) = base + Z.of_nat (length (drop (length (rhs g n)) l))) as Ei
    by (rewrite length_drop; lia).
  unfold do_action_computed. rewrite (pe_asp _ _ _ _ _ Hp), Int_Val_int, (wrap_small 64 (base + _ - 1)) by lia.
  rewrite (mem_set_ok (s_stack e)), (mem_set_ok (v_stack e)) by (rewrite ?(eo_v _ _ He); lia). mred. unfold mem_get.
  destruct (lookup_lt_is_Some_2 (symb_end_stack e) (Z.to_nat (base + Z.of_nat (length l) - 1))) as [en Een]; [rewrite (eo_end _ _ He); lia|].
  rewrite Een. cbn [of_option]. mred. rewrite (mem_set_ok (symb_end_stack e)) by (rewrite (eo_end _ _ He); lia). mred.
  assert (exists p, (if base + Z.of_nat (length l) - 1 <? sp (RESTORE e)
     then en0 ← of_option (<[Z.to_nat (sp (RESTORE e)):=en]> (symb_end_stack e) !! Z.to_nat (base + Z.of_nat (length l) - 1));
          mem_set (symb_start_stack e) (sp (RESTORE e)) en0
     else Ret (symb_start_stack e)) = Ret p /\ length p = length (s_stack e)) as (p & -> & Hpl).
  { destruct (Z.ltb_spec (base + Z.of_nat (length l) - 1) (sp (RESTORE e))); [|eexists; split; [reflexivity|apply (eo_start _ _ He)]].
    rewrite list_lookup_insert_ne, Een by lia. cbn [of_option]. mred. rewrite mem_set_ok by (rewrite (eo_start _ _ He); lia).
    eexists. split; [reflexivity|]. rewrite length_insert. apply (eo_start _ _ He). }
  mred. eexists. split; [reflexivity|]. exists ((N m, state (RESTORE e)) :: drop (length (rhs g n)) l). split_and!; try done; try apply (pe_err _ _ _ _ _ Hp).
  rewrite Hsp, Ei. apply stack_ok_push; try done.
  - by apply stack_ok_drop.
  - lia.
  - rewrite length_insert. apply (eo_end _ _ He).
Qed.
Lemma do_case_ok base h e cmd arg : ready base h e cmd arg -> exists j, do_case tables h e cmd arg = Ret j /\ jump_ok base j.
Proof.
  destruct 1 as [c arg He Hsp Hc Hen|l arg Hne Hl Hd Ht|l X arg Hp Hr|l n arg Hp Hr|l n m arg Hp Hr Ha Hm Hx|l arg Hr]; unfold do_case; rewrite Int_Val_int by done; cbn.
  - eexists. split; [reflexivity|]. exists []. pose proof (eo_base _ _ He). pose proof (eo_small _ _ He).
    rewrite Hsp, Int_Val_int, wrap_small by lia. split_and!; [|done|done|done|by exists c]. split; try done; cbn; try lia. constructor.
  - by eapply token_read_ok.
  - eexists. split; [reflexivity|]. by exists l, X.
  - eexists. split; [reflexivity|]. by exists l, n.
  - by eapply action_computed_ok.
  - eexists. split; [reflexivity|]. by exists l.
Qed.
Lemma engine_ok base h e cmd arg : ready base h e cmd arg ->
  exists o e', caml_parse_engine tables 15 h e cmd arg = Ret (o, e') /\ jump_ok base (Out o e').
Proof.
  intros Hr. destruct (do_case_ok base h e cmd arg Hr) as (j & Ej & Hj). unfold caml_parse_engine. rewrite Ej. mred. apply run_ok; [|done].
  pose proof (do_case_halts tables h e cmd arg) as Hh. by rewrite Ej in Hh.
Qed.
End Stack.

(** ** The caller (stdlib/parsing.ml) *)

(** [peek_val] and [grow_stacks]. *)
Definition peek_val (e : parser_env) (n : Z) : option Z :=
  let i := Long_val (env_asp e) - n in if i <? 0 then None else v_stack e !! Z.to_nat i.
Definition grow_stacks (dummy_pos : Z) (e : parser_env) : parser_env :=
  let n := length (s_stack e) in
  set_stacksize (Val_long (2 * Long_val (stacksize e)))
    (set_stacks (s_stack e ++ replicate n (Val_int 0)) (v_stack e ++ replicate n Val_unit)
       (symb_start_stack e ++ replicate n dummy_pos) (symb_end_stack e ++ replicate n dummy_pos) e).

(** What a parser is used with: the types of the attributes of its symbols, the tokens
    the lexer returns, the values the semantic actions return and the calls where they raise
    [Parse_error]. *)
Record client := mkClient {
  has_type : symbol -> Z -> Prop;
  lexer : heap -> Z -> Prop;
  action : parser_env -> Z -> Prop;
  action_fails : parser_env -> Prop;
}.
(** The arguments of the action of rule [n] have the types of its right-hand side. *)
Definition arguments_typed (g : grammar) (k : client) (n : Z) (e : parser_env) : Prop :=
  forall i X, rhs g n !! i = Some X ->
    exists v, peek_val e (Z.of_nat (length (rhs g n)) - 1 - Z.of_nat i) = Some v /\ has_type k X v.
Record client_ok (tables : parser_tables) (g : grammar) (ntok : Z) (k : client) : Prop := {
  co_error : forall v, has_type k (T ERRCODE) v;
  co_entry : forall c v, entry_token g c = true -> has_type k (T c) v;
  co_lexer : forall h t, lexer k h t -> token_ok tables ntok (has_type k) h t;
  co_action : forall e n m v, rule_number e = Val_int n -> Short (lhs tables) n = Ret m -> arguments_typed g k n e ->
    action k e v -> accept g n = false /\ has_type k (N m) v;
}.
(** An action raises [Parse_error] only when its rule is not empty, and no error is being
    recovered from. *)
Definition fails_early (k : client) : Prop :=
  forall e, action_fails k e -> rule_len e <> Val_int 0 /\ Int_val (env_errflag e) < 3.

Record config := mkConfig { cf_heap : heap; cf_env : parser_env; cf_cmd : Z; cf_arg : Z }.
Definition call (tables : parser_tables) (c : config) : result (Z * parser_env) :=
  caml_parse_engine tables 15 (cf_heap c) (cf_env c) (cf_cmd c) (cf_arg c).
(** The loop of [yyparse], between two calls of the engine. *)
Inductive yy_step (tables : parser_tables) (k : client) : config -> config -> Prop :=
| yy_read c e h t p q : call tables c = Ret (READ_TOKEN, e) -> lexer k h t ->
    yy_step tables k c (mkConfig h (set_positions p q e) (Val_int TOKEN_READ) t)
| yy_action c e h v : call tables c = Ret (COMPUTE_SEMANTIC_ACTION, e) -> action k e v ->
    yy_step tables k c (mkConfig h e (Val_int SEMANTIC_ACTION_COMPUTED) v)
| yy_action_fails c e h : call tables c = Ret (COMPUTE_SEMANTIC_ACTION, e) -> action_fails k e ->
    yy_step tables k c (mkConfig h e (Val_int ERROR_DETECTED) Val_unit)
| yy_grow_1 c e h d : call tables c = Ret (GROW_STACKS_1, e) -> 2 * Z.of_nat (length (s_stack e)) <= 2 ^ 30 ->
    yy_step tables k c (mkConfig h (grow_stacks d e) (Val_int STACKS_GROWN_1) Val_unit)
| yy_grow_2 c e h d : call tables c = Ret (GROW_STACKS_2, e) -> 2 * Z.of_nat (length (s_stack e)) <= 2 ^ 30 ->
    yy_step tables k c (mkConfig h (grow_stacks d e) (Val_int STACKS_GROWN_2) Val_unit)
| yy_error c e h : call tables c = Ret (CALL_ERROR_FUNCTION, e) ->
    yy_step tables k c (mkConfig h e (Val_int ERROR_DETECTED) Val_unit).

Section Safety.
Context (tables : parser_tables) (g : grammar) (nst ntok : Z) (past : Z -> history) (k : client) (base : Z).
Hypothesis Hv : valid tables g nst ntok past.
Hypothesis Hk : client_ok tables g ntok k.
Hypothesis Hf : fails_early k.
Notation is_ready c := (ready tables g nst ntok past (has_type k) base (cf_heap c) (cf_env c) (cf_cmd c) (cf_arg c)).
Notation pend := (pending tables g nst ntok past (has_type k) base).
Notation is_stack := (stack_ok nst ntok past (has_type k) base).

(** The arguments of the pending action are where [peek_val] finds them. *)
Lemma pending_arguments l n x e : pend l n x e -> arguments_typed g k n e.
Proof.
  intros Hp i X Hi. pose proof (pe_stack _ _ _ _ _ _ _ _ _ _ _ Hp) as Hs. pose proof (pe_len _ _ _ _ _ _ _ _ _ _ _ Hp) as Hlen.
  pose proof (pe_rhs _ _ _ _ _ _ _ _ _ _ _ Hp) as Hr. pose proof (lookup_lt_Some _ _ _ Hi) as Hlt. set (m := length (rhs g n)) in *.
  assert ((fst <$> take m l) !! (m - S i)%nat = Some X) as Hl.
  { rewrite Hr, (rev_alt _ : rev (rhs g n) = reverse (rhs g n)), reverse_lookup by (fold m; lia). rewrite <- Hi. f_equal. fold m. lia. }
  rewrite list_lookup_fmap, lookup_take_lt in Hl by lia. destruct (l !! (m - S i)%nat) as [[Y q]|] eqn:El; [|done]. injection Hl as ->.
  pose proof (holds_lookup _ _ _ _ _ _ _ _ (so_holds _ _ _ _ _ _ _ _ Hs) El) as (_ & v & Hv' & Hx).
  pose proof (stack_ok_range _ _ _ _ _ _ _ _ Hs). exists v. split; [|done]. unfold peek_val. rewrite (pe_asp _ _ _ _ _ _ _ _ _ _ _ Hp).
  unfold Val_int. rewrite Long_Val_int by (unfold is_int, Min_long, Max_long; lia). rewrite (proj2 (Z.ltb_ge _ _)) by lia. rewrite <- Hv'. f_equal. lia.
Qed.

Lemma stack_ok_grow l p d e : 2 * Z.of_nat (length (s_stack e)) <= 2 ^ 30 -> is_stack l p e -> is_stack l p (grow_stacks d e).
Proof.
  intros Hg Hs. pose proof (stack_ok_range _ _ _ _ _ _ _ _ Hs) as Hr. destruct Hs as [[] Hl Hh Hp Hroom].
  split; cbn [s_stack v_stack grow_stacks set_stacks set_stacksize]; rewrite ?length_app, ?length_replicate; try done; try lia.
  - split; cbn [s_stack v_stack symb_start_stack symb_end_stack stacksize stackbase curr_char lval grow_stacks set_stacks set_stacksize];
      rewrite ?length_app, ?length_replicate; try done; try lia.
    rewrite eo_size0, Long_Val_int by (unfold is_int, Min_long, Max_long; lia). f_equal. lia.
  - apply (holds_above _ _ _ (s_stack e) (v_stack e)); [lia| |done]. intros i Hi. by rewrite !lookup_app_l by lia.
Qed.
Lemma grow_room l p d e : 2 * Z.of_nat (length (s_stack e)) <= 2 ^ 30 -> is_stack l (base + Z.of_nat (length l) - 1) e ->
  p <= base + Z.of_nat (length l) -> room p (grow_stacks d e).
Proof.
  intros Hg Hs Hp. unfold room. cbn [s_stack grow_stacks set_stacks set_stacksize]. rewrite length_app, length_replicate.
  pose proof (stack_ok_range _ _ _ _ _ _ _ _ Hs). destruct Hs as [[] Hl Hh Hp' Hroom]. lia.
Qed.
Lemma stack_ok_positions l p a b e : is_stack l p e -> is_stack l p (set_positions a b e).
Proof. intros [[] ? ? ? ?]. by split. Qed.

(** After an action that raised [Parse_error] the first symbol of the rule is still on top. *)
Lemma failed_action l n e : pend l n (RESTORE e) e -> action_fails k e ->
  recovering nst ntok past (has_type k) base (drop (length (rhs g n) - 1) l) (RESTORE e) e.
Proof.
  intros Hp [Hne Herr]%Hf. pose proof (pe_stack _ _ _ _ _ _ _ _ _ _ _ Hp) as Hs. pose proof (pe_len _ _ _ _ _ _ _ _ _ _ _ Hp) as Hlen.
  pose proof (pe_err _ _ _ _ _ _ _ _ _ _ _ Hp) as He. destruct (pe_rule_len _ _ _ _ _ _ _ _ _ _ _ Hp) as [Hrl _].
  assert (length (rhs g n) <> 0%nat) as H0 by (intros E; apply Hne; by rewrite Hrl, E).
  assert (sp (RESTORE e) = base + Z.of_nat (length (drop (length (rhs g n) - 1) l)) - 1) as Hsp
    by (rewrite (pe_sp _ _ _ _ _ _ _ _ _ _ _ Hp), length_drop; lia).
  split_and!; try apply (pe_state _ _ _ _ _ _ _ _ _ _ _ Hp); try apply He.
  - rewrite Hsp. apply stack_ok_drop; [done|lia].
  - intros E. apply (f_equal length) in E. rewrite length_drop in E. cbn in E. lia.
  - cbn [RESTORE errflag]. lia.
Qed.

(** The caller keeps the protocol of the engine. *)
Lemma yy_step_ready c c' : is_ready c -> yy_step tables k c c' -> is_ready c'.
Proof.
  intros Hr Hst. destruct (engine_ok tables g nst ntok past (has_type k) Hv (co_error _ _ _ _ Hk) base _ _ _ _ Hr) as (o & e' & Ec & Hj).
  destruct Hst as [c e h t p q E Ht|c e h v E Ha|c e h E Ha|c e h d E Hg|c e h d E Hg|c e h E]; unfold call in E; rewrite E in Ec; injection Ec as <- <-;
    destruct Hj as [[Ho Hj]|[Ho|[[Ho Hj]|[[Ho Hj]|[[Ho Hj]|[Ho Hj]]]]]]; try (vm_compute in Ho; discriminate Ho); cbn [cf_heap cf_env cf_cmd cf_arg].
  - destruct Hj as (l & Hne & (Hs & Hl) & Hd). apply (ready_token _ _ _ _ _ _ _ _ _ l); [done| |done|by apply (co_lexer _ _ _ _ Hk)].
    split; [by apply stack_ok_positions|done].
  - destruct Hj as (l & n & Hp & Hroom). destruct (pe_rule _ _ _ _ _ _ _ _ _ _ _ Hp) as [Hn _].
    destruct (pe_lhs _ _ _ _ _ _ _ _ _ _ _ Hp) as (m & Hm). destruct (co_action _ _ _ _ Hk e n m v Hn Hm (pending_arguments _ _ _ _ Hp) Ha) as [Hacc Hx].
    by apply (ready_action _ _ _ _ _ _ _ _ _ l n m).
  - destruct Hj as (l & n & Hp & Hroom). eapply (ready_error _ _ _ _ _ _ _ _ _). by apply (failed_action l n).
  - destruct Hj as (l & X & Hs & Hsp & Hp). apply (ready_grown_1 _ _ _ _ _ _ _ _ _ l X).
    + split; [by apply stack_ok_grow|done].
    + apply (grow_room l); [done|done|]. change (RESTORE (grow_stacks d e)) with (RESTORE e). lia.
  - destruct Hj as (l & n & Hp). apply (ready_grown_2 _ _ _ _ _ _ _ _ _ l n).
    + destruct Hp. split; [by apply stack_ok_grow|assumption..].
    + apply (grow_room l); [done|apply Hp|]. change (RESTORE (grow_stacks d e)) with (RESTORE e). rewrite (pe_sp _ _ _ _ _ _ _ _ _ _ _ Hp). lia.
  - destruct Hj as (l & Hl). by apply (ready_error _ _ _ _ _ _ _ _ _ l).
Qed.
Lemma yy_steps_ready c c' : is_ready c -> rtc (yy_step tables k) c c' -> is_ready c'.
Proof. intros Hr Hs. induction Hs; [done|]. apply IHHs. by eapply yy_step_ready. Qed.
End Safety.

(** C21: parsers are type-safe.  On the tables of an automaton of the grammar, with a lexer
    and semantic actions that return attributes of the right types, and that raise
    [Parse_error] only for a rule that is not empty and when the error flag is below 3 (a token
    has been shifted since the last recovery), at every call of
    the loop of [yyparse] the engine returns, without an access out of the
    tables or of the stacks, error recovery and growth of the stacks included;
    and when it asks for the action of a rule, the arguments the action
    takes from the stack of values have the types of its right-hand side. *)
Theorem parser_type_safe tables g nst ntok past k base e h arg c :
  valid tables g nst ntok past -> client_ok tables g ntok k -> fails_early k ->
  env_ok ntok (has_type k) base e -> env_sp e = Val_int (base - 1) ->
  (exists start, curr_char e = Val_int start /\ entry_token g start = true) ->
  rtc (yy_step tables k) (mkConfig h e (Val_int START) arg) c ->
  exists o e', call tables c = Ret (o, e') /\
    (o = COMPUTE_SEMANTIC_ACTION -> exists n, rule_number e' = Val_int n /\ arguments_typed g k n e').
Proof.
  intros Hv Hk Hf He Hsp (start & Hc & Hen) Hs. apply (yy_steps_ready tables g nst ntok past k base Hv Hk Hf) in Hs; [|by eapply ready_start].
  destruct (engine_ok tables g nst ntok past (has_type k) Hv (co_error _ _ _ _ Hk) base _ _ _ _ Hs) as (o & e' & Ec & Hj). exists o, e'.
  split; [done|]. intros ->. destruct Hj as [[Ho Hj]|[Ho|[[Ho Hj]|[[Ho Hj]|[[Ho Hj]|[Ho Hj]]]]]]; try (vm_compute in Ho; discriminate Ho). destruct Hj as (l & n & Hp & _).
  exists n. split; [apply (pe_rule _ _ _ _ _ _ _ _ _ _ _ Hp)|by eapply pending_arguments].
Qed.

(** ** The validator *)

Section Validator.
Context (tables : parser_tables) (g : grammar) (nst ntok : Z) (past : Z -> history).

Fixpoint laterb (a b : history) : bool :=
  match a, b with
  | [], _ => true
  | (X, Q) :: a, (Y, Q') :: b => bool_decide (X = Y) && forallb (fun q => existsb (Z.eqb q) Q) Q' && laterb a b
  | _, [] => false
  end.
Lemma laterb_ok a b : laterb a b = true -> later a b.
Proof.
  revert b. induction a as [|[X Q] a IH]; intros [|[Y Q'] b] H; try done; cbn in H; intros i Z R Hi; try done.
  apply andb_prop in H as [[HX HQ]%andb_prop Hr]. destruct i as [|i]; cbn in Hi; [|by apply (IH b Hr)]. injection Hi as -> ->.
  apply bool_decide_eq_true in HX as <-. exists Q'. split; [done|]. intros q Hq. rewrite forallb_forall in HQ. specialize (HQ q Hq).
  apply existsb_exists in HQ as (q' & Hq' & E). by apply Z.eqb_eq in E as ->.
Qed.
Definition targetb (X : symbol) (q q' : Z) : bool := (0 <? q') && (q' <? nst) && laterb (past q') ((X, [q]) :: past q).
Lemma targetb_ok X q q' : targetb X q q' = true -> 0 < q' < nst /\ reached past q' X q.
Proof. intros [[H1 H2]%andb_prop H3%laterb_ok]%andb_prop. split; [lia|done]. Qed.

Definition ruleb (q n : Z) : bool :=
  let k := length (rhs g n) in
  (0 <? q) && (- 2 ^ 15 <=? n) && (n <? 2 ^ 15) && okb (Short (len tables) n) (fun x => x =? Z.of_nat k) && (Z.of_nat k <? 2 ^ 15) &&
  bool_decide ((fst <$> take k (past q)) = rev (rhs g n)) &&
  okb (Short (lhs tables) n) (fun m => okb (Short (gindex tables) m) (fun _ => true) && okb (Short (dgoto tables) m) (fun _ => true) &&
    (accept g n || forallb (fun s => (0 <? s) && (s <? nst) && okb (goto_of tables s m) (targetb (N m) s)) (exposed past q k))).
Definition stateb (q : Z) : bool :=
  okb (Short (defred tables) q) (fun d => (d =? 0) || ruleb q d) &&
  forallb (fun c => okb (shift_of tables q c) (fun r => match r with Some q' => targetb (T c) q q' | None => true end) &&
                    okb (reduce_of tables q c) (fun r => match r with Some n => ruleb q n | None => true end)) (below ntok).
Definition validb : bool :=
  (0 <? nst) && (nst <? 2 ^ 15) && (ERRCODE <? ntok) && (ntok <? 2 ^ 15) && (match past 0 with [] => true | _ => false end) &&
  forallb (fun n => okb (Short (check tables) n) (fun _ => true) && okb (Short (table tables) n) (fun _ => true)) (below (Int_val (tablesize tables) + 1)) &&
  forallb stateb (below nst) && okb (Short (defred tables) 0) (fun d => d =? 0) &&
  forallb (fun c => (0 <=? c) && (c <? ntok) && okb (shift_of tables 0 c) (fun r => match r with Some _ => true | None => false end)) (entry_tokens g).

Lemma ruleb_ok q n : ruleb q n = true -> q <> 0 /\ - 2 ^ 15 <= n < 2 ^ 15 /\ Short (len tables) n = Ret (Z.of_nat (length (rhs g n))) /\
  Z.of_nat (length (rhs g n)) < 2 ^ 15 /\ (fst <$> take (length (rhs g n)) (past q)) = rev (rhs g n) /\
  exists m, Short (lhs tables) n = Ret m /\ (exists k, Short (gindex tables) m = Ret k) /\ (exists k, Short (dgoto tables) m = Ret k) /\
    (accept g n = false -> forall s, In s (exposed past q (length (rhs g n))) -> 0 < s < nst /\
      exists q', goto_of tables s m = Ret q' /\ 0 < q' < nst /\ reached past q' (N m) s).
Proof.
  unfold ruleb. intros [[[[[[H1 H2]%andb_prop H3]%andb_prop (x & Hx & Ex)%okb_true]%andb_prop H4]%andb_prop H5]%andb_prop (m & Hm & H6)%okb_true]%andb_prop.
  apply Z.eqb_eq in Ex as ->. apply bool_decide_eq_true in H5. apply andb_prop in H6 as [[(a & Ha & _)%okb_true (b & Hb & _)%okb_true]%andb_prop H6].
  split_and!; try done; try lia. exists m. split_and!; [done|by exists a|by exists b|]. intros Hacc s Hs. rewrite Hacc in H6. cbn in H6.
  rewrite forallb_forall in H6. specialize (H6 s Hs). apply andb_prop in H6 as [[Hs0 Hs1]%andb_prop (q' & Hq' & Ht%targetb_ok)%okb_true].
  split; [lia|]. by exists q'.
Qed.
Lemma validb_ok : validb = true -> valid tables g nst ntok past.
Proof.
  unfold validb. intros [[[[[[[[H1 H2]%andb_prop H3]%andb_prop H4]%andb_prop H5]%andb_prop H6]%andb_prop H7]%andb_prop H8]%andb_prop H9]%andb_prop.
  assert (forall q, 0 <= q < nst -> stateb q = true) as Hst by (by apply below_spec). split.
  - lia.
  - by destruct (past 0).
  - intros n Hn. assert (0 <= n < Int_val (tablesize tables) + 1) as Hn' by lia.
    apply (below_spec _ _ H6), andb_prop in Hn' as [(a & Ha & _)%okb_true (b & Hb & _)%okb_true]. split; [by exists a|by exists b].
  - intros q Hq. apply Hst, andb_prop in Hq as [(d & Hd & _)%okb_true _]. by exists d.
  - intros q c Hq Hc. apply Hst, andb_prop in Hq as [_ Hq]. apply (below_spec _ _ Hq), andb_prop in Hc as [(r & Hr & Ht)%okb_true _]. exists r. split; [done|].
    intros q' ->. by apply targetb_ok.
  - intros q c Hq Hc. apply Hst, andb_prop in Hq as [_ Hq]. apply (below_spec _ _ Hq), andb_prop in Hc as [_ (r & Hr & Ht)%okb_true]. by exists r.
  - intros q n Hq Hru. apply ruleb_ok. apply Hst, andb_prop in Hq as [(d & Hd & Hdr)%okb_true Hq].
    destruct Hru as [[Hd' Hn]|(Hd' & c & Hc & Hr)].
    + rewrite Hd in Hd'. injection Hd' as ->. by rewrite (proj2 (Z.eqb_neq _ _)) in Hdr.
    + apply (below_spec _ _ Hq), andb_prop in Hc as [_ (r & Hr' & Ht)%okb_true]. rewrite Hr in Hr'. by injection Hr' as <-.
  - apply okb_true in H8 as (d & Hd & E). apply Z.eqb_eq in E as ->. split; [done|]. intros c Hc. unfold entry_token in Hc.
    apply existsb_exists in Hc as (c' & Hc & E). apply Z.eqb_eq in E as <-. rewrite forallb_forall in H9. specialize (H9 c Hc).
    apply andb_prop in H9 as [[Ha Hb]%andb_prop (r & Hr & Ht)%okb_true]. split; [lia|]. destruct r as [q|]; [by exists q|done].
Qed.
End Validator.

(** *** An example
    [start: \001 s], [s: a s], [s: (empty)], [s: error]; the tokens are the end of file
    (0), the entry point (1), [a] (2), and one no rule uses (3). *)
Definition ex_grammar : grammar := mkGrammar
  (fun n => if n =? 1 then [T 2; N 1] else if n =? 3 then [T 1; N 1] else if n =? 4 then [T 256] else []) (fun n => n =? 3) [1].
Definition ex_check : list Z := sparse 287 (-1) [(11, 1); (22, 2); (276, 256); (32, 2); (286, 256); (40, 0); (41, 0); (51, 1)].
Definition ex_table : list Z := sparse 287 0 [(11, 1); (22, 2); (276, 5); (32, 2); (286, 5); (40, 2); (41, 2); (51, 3)].
Definition ex_ptables : parser_tables := mkTables (map Val_int [0; 2; 3]) []
  (table16 [0; 1; 1; 2; 1]) (table16 [0; 2; 0; 2; 1]) (table16 [0; 0; 0; 3; 1; 4]) (table16 [0; 4; 0])
  (table16 [10; 20; 30; 0; 0; 0]) (table16 [0; 40; 41; 0; 0; 0]) (table16 [0; 50; 0]) (Val_int 286)
  (table16 ex_table) (table16 ex_check).
Definition ex_past (q : Z) : history :=
  if q =? 1 then [(T 1, [0])] else if q =? 2 then [(T 2, [1; 2])] else if q =? 3 then [(N 1, [1]); (T 1, [0])]
  else if q =? 4 then [(N 1, [2]); (T 2, [1; 2])] else if q =? 5 then [(T 256, [1; 2])] else [].
Lemma ex_valid : valid ex_ptables ex_grammar 6 257 ex_past.
Proof. apply validb_ok. vm_compute. reflexivity. Qed.

(** An [a] has the attribute 1, an [s] the attribute 16. *)
Definition ex_client (fails : parser_env -> Prop) : client := mkClient
  (fun X v => match X with T c => c = 2 -> v = 1 | N m => m = 1 -> v = 16 end)
  (fun _ t => t = Val_int 0 \/ t = Val_int 1 \/ t = Val_int 2)
  (fun e v => rule_number e = Val_int 1 /\ peek_val e 0 = Some v \/ (rule_number e = Val_int 2 \/ rule_number e = Val_int 4) /\ v = 16)
  fails.
Lemma Short_index t n x : Short t n = Ret x -> 0 <= n /\ 2 * n < Z.of_nat (length t).
Proof.
  unfold Short, byte_at. destruct (Z.ltb_spec (2 * n) 0); [done|]. destruct (t !! Z.to_nat (2 * n)) eqn:E; [|done]. intros _.
  apply lookup_lt_Some in E. lia.
Qed.
Lemma ex_client_ok fails : client_ok ex_ptables ex_grammar 257 (ex_client fails).
Proof.
  split.
  - done.
  - intros c v Hc. cbn. intros ->. done.
  - intros h t [-> |[-> | ->]]; [exists 0|exists 2|exists 3]; (split; [lia|]); cbn; split_and!; try done.
  - intros e n m v Hn Hm Hargs Ha. pose proof (Short_index _ _ _ Hm) as Hi. change (length (lhs ex_ptables)) with 10%nat in Hi.
    assert (forall k, 0 <= k < 10 -> rule_number e = Val_int k -> n = k) as Hinj.
    { intros k Hk E. rewrite Hn in E. apply (f_equal Int_val) in E. by rewrite !Int_Val_int in E by lia. }
    destruct Ha as [[Ha Hp]|[[Ha|Ha] ->]]; apply Hinj in Ha; try lia; subst n; (split; [done|]); try done.
    injection Hm as <-. destruct (Hargs 1%nat (N 1) eq_refl) as (w & Hw & Hx). change (peek_val e 0 = Some w) in Hw. rewrite Hp in Hw. by injection Hw as <-.
Qed.
Definition ex_heap : heap := mkHeap ∅ 8192 4096 4096 8192 0 [] [].
Definition ex_env : parser_env :=
  mkEnv (replicate 4 1) (replicate 4 1) (replicate 4 1) (replicate 4 1) (Val_long 4) (Val_int 1) (Val_int 1) 1 1 1 1 1 1 (Val_int 0) 1 1.
Definition ex_start : config := mkConfig ex_heap ex_env (Val_int START) Val_unit.

(** The environment a call leaves. *)
Definition env_after (c : config) : parser_env := match call ex_ptables c with Ret (_, e) => e | _ => cf_env c end.
Definition next (c : config) (cmd arg : Z) : config := mkConfig ex_heap (env_after c) (Val_int cmd) arg.
Definition next_token (c : config) (t : Z) : config := mkConfig ex_heap (set_positions 1 1 (env_after c)) (Val_int TOKEN_READ) t.
(** The input is [a] and the token no rule uses; the error token is shifted after the
    [a], reduced to an [s], and the [a s] to an [s], whose action raises [Parse_error]. *)
Definition ex_a : config := next_token ex_start (Val_int 1).
Definition ex_bad : config := next_token ex_a (Val_int 2).
Definition ex_recover : config := next ex_bad ERROR_DETECTED Val_unit.
Definition ex_error_rule : config := next ex_recover SEMANTIC_ACTION_COMPUTED 16.
Definition ex_failed : config := next ex_error_rule ERROR_DETECTED Val_unit.

Lemma ex_steps fails : rtc (yy_step ex_ptables (ex_client fails)) ex_start ex_error_rule.
Proof.
  eapply rtc_l; [apply (yy_read _ _ ex_start (env_after ex_start) ex_heap (Val_int 1) 1 1); [vm_compute; reflexivity|right; by left]|].
  eapply rtc_l; [apply (yy_read _ _ ex_a (env_after ex_a) ex_heap (Val_int 2) 1 1); [vm_compute; reflexivity|right; by right]|].
  eapply rtc_l; [apply (yy_error _ _ ex_bad (env_after ex_bad) ex_heap); vm_compute; reflexivity|].
  eapply rtc_l; [apply (yy_action _ _ ex_recover (env_after ex_recover) ex_heap 16); [vm_compute; reflexivity|right; split; [by right|done]]|].
  apply rtc_refl.
Qed.

Definition early (e : parser_env) : Prop := rule_number e = Val_int 1 /\ rule_len e = Val_int 2 /\ env_errflag e = Val_int 0.
Lemma early_fails : fails_early (ex_client early).
Proof. intros e (_ & -> & ->). done. Qed.
Lemma ex_env_ok fails : env_ok 257 (has_type (ex_client fails)) 1 ex_env.
Proof. split; try done; try (cbn; lia). exists 1. split_and!; try done; lia. Qed.
Lemma parser_type_safe_witness : exists o e', call ex_ptables ex_error_rule = Ret (o, e') /\
  (o = COMPUTE_SEMANTIC_ACTION -> exists n, rule_number e' = Val_int n /\ arguments_typed ex_grammar (ex_client early) n e').
Proof.
  apply (parser_type_safe ex_ptables ex_grammar 6 257 ex_past (ex_client early) 1 ex_env ex_heap Val_unit).
  - apply ex_valid.
  - apply ex_client_ok.
  - apply early_fails.
  - apply ex_env_ok.
  - reflexivity.
  - exists 1. split; reflexivity.
  - apply ex_steps.
Defined.
Lemma parse_engine_terminates_witness : caml_parse_engine ex_ptables 15 ex_heap ex_env (Val_int START) Val_unit <> NoFuel.
Proof. apply (parse_engine_terminates ex_ptables ex_heap ex_env (Val_int START) Val_unit 15). lia. Defined.

(** C23: the condition on failing actions is needed: when an action raises [Parse_error] while
    an error is being recovered from, the engine goes on in the state after the
    left-hand side without having pushed it, and the value of the first symbol of the
    right-hand side takes its place.  Here, on a valid automaton and with
    well-typed actions, the action of the accepting rule is called with the
    attribute of a token for that of a nonterminal. *)
Theorem failed_action_confusion : exists tables g nst ntok past k base e h arg c e' n,
  valid tables g nst ntok past /\ client_ok tables g ntok k /\
  env_ok ntok (has_type k) base e /\ env_sp e = Val_int (base - 1) /\
  (exists start, curr_char e = Val_int start /\ entry_token g start = true) /\
  rtc (yy_step tables k) (mkConfig h e (Val_int START) arg) c /\
  call tables c = Ret (COMPUTE_SEMANTIC_ACTION, e') /\ rule_number e' = Val_int n /\ ~ arguments_typed g k n e'.
Proof.
  exists ex_ptables, ex_grammar, 6, 257, ex_past, (ex_client (fun e => rule_number e = Val_int 1)), 1, ex_env, ex_heap, Val_unit, ex_failed,
    (env_after ex_failed), 3.
  split_and!; [apply ex_valid|apply ex_client_ok|apply ex_env_ok|done|by exists 1| |vm_compute; reflexivity|vm_compute; reflexivity|].
  - eapply rtc_r; [apply ex_steps|]. apply yy_action_fails; vm_compute; reflexivity.
  - intros Hargs. destruct (Hargs 1%nat (N 1) eq_refl) as (v & Hv & Hx). vm_compute in Hv. injection Hv as <-. specialize (Hx eq_refl). discriminate Hx.
Qed.
End Parsing.
