(* ===== verification/MinorGc.v ===== *)
(** * The minor collector (runtime/minor_gc.c)

    A minor collection of one domain that runs alone: the blocks of the minor
    heap that the roots reach are copied to the shared heap.  A copied block is
    forwarded: its header is 0 and its first field points to the copy.  The
    blocks whose fields are still to be copied form a list, chained through the second
    field of the copies.  The roots, the stacks and the tables of the domain
    are words of the memory: a slot is its address. *)

From S2P Require Import Prelude Memory Barrier Fiber Skiplist GlobRoots.
#[local] Open Scope Z_scope.

Module MinorGc.
Import Skiplist(Dictionary).
Import GlobRoots.

(** [caml_fatal_error] ends the process: nothing continues from this result. *)
Definition caml_fatal_error {A} (msg : string) : result A := Raise (Failure msg).

Record oldify_state := mkOldify {
  gh : heap;
  todo_list : Z;
  live_bytes : Z;
  allocated_words : Z;
}.
Definition set_gh (h : heap) (st : oldify_state) : oldify_state := mkOldify h (todo_list st) (live_bytes st) (allocated_words st).
Definition set_todo (v : Z) (st : oldify_state) : oldify_state := mkOldify (gh st) v (live_bytes st) (allocated_words st).
Definition add_live (n : Z) (st : oldify_state) : oldify_state := mkOldify (gh st) (todo_list st) (u64 (live_bytes st + n)) (allocated_words st).
Definition add_words (n : Z) (st : oldify_state) : oldify_state := mkOldify (gh st) (todo_list st) (live_bytes st) (u64 (allocated_words st + n)).

(** A bound on the number of stacks on top of each other. *)
Class StackDepth : Type := stack_depth : nat.

Definition Bhsize_hd (hd : Z) : Z := Bsize_wsize (Whsize_wosize (Wosize_hd hd)).
Definition In_progress_update_val : Z := 0x100.
(** [spin_on_header] waits for another domain. *)
Definition get_header_val (h : heap) (v : Z) : result Z :=
  hd ← Hd_val h v; if hd =? In_progress_update_val then NoFuel else Ret hd.

Section Oldify.
Context `{SH : SharedHeap} `{SD : StackDepth}.

Definition alloc_shared (st : oldify_state) (wosize tag : Z) : result (Z * oldify_state) :=
  match caml_alloc_shr (gh st) wosize tag with
  | Ret (v, h) => Ret (v, add_words (Whsize_wosize wosize) (set_gh h st))
  | Raise _ => caml_fatal_error "allocation failure during minor GC"
  | Undef => Undef | Pending => Pending | NoFuel => NoFuel
  end.
Definition write_word (st : oldify_state) (a w : Z) : result oldify_state := h ← store (gh st) a w; Ret (set_gh h st).

(** The branch of [caml_domain_alone ()]: the update always succeeds. *)
Definition try_update_object_header (st : oldify_state) (v p result infix_offset : Z) : Prelude.result oldify_state :=
  st ← write_word st (v - 8) 0;
  st ← write_word st v result;
  write_word st p (result + infix_offset).

(** The header of the block [v] is in, 0 when it is forwarded; the block and the offset
    of [v] in it. *)
Fixpoint find_header (fuel : nat) (h : heap) (v infix_offset : Z) : result (Z * Z * Z) :=
  match fuel with
  | O => NoFuel
  | S n =>
      hd ← get_header_val h v;
      if hd =? 0 then Ret (0, v, infix_offset)
      else if Tag_hd hd =? Infix_tag then find_header n h (v - Infix_offset_hd hd) (Infix_offset_hd hd)
      else Ret (hd, v, infix_offset)
  end.
(** [for (i = 0; i < sz; i++) Field(result, i) = Field(v, i);] *)
Fixpoint copy_fields (n : nat) (st : oldify_state) (src dst : Z) : result oldify_state :=
  match n with
  | O => Ret st
  | S n => w ← load (gh st) src; st ← write_word st dst w; copy_fields n st (src + 8) (dst + 8)
  end.
(** [f] on every slot of a list, with the value in it. *)
Fixpoint scan_slots (f : oldify_state -> Z -> Z -> result oldify_state) (l : list Z) (st : oldify_state) : result oldify_state :=
  match l with
  | [] => Ret st
  | p :: l => v ← load (gh st) p; st ← f st v p; scan_slots f l st
  end.
(** A [struct stack_info] is in the memory: its stack pointer and its handler, where the
    stack starts.  With [SCANNING_ONLY_YOUNG_VALUES] every slot is scannable. *)
Definition stack_sp (h : heap) (stk : Z) : result Z := load h stk.
Definition stack_handler (h : heap) (stk : Z) : result Z := load h (stk + 16).
Definition Stack_parent (h : heap) (stk : Z) : result Z := handler ← stack_handler h stk; load h (handler + 24).
(** [for (sp = low; sp < high; sp++)] *)
Definition slots_between (low high : Z) : list Z := (fun i => low + 8 * Z.of_nat i) <$> seq 0 (Z.to_nat ((high - low + 7) / 8)).
Definition scan_handler (f : oldify_state -> Z -> Z -> result oldify_state) (stk off : Z) (st : oldify_state) : result oldify_state :=
  handler ← stack_handler (gh st) stk;
  scan_slots f [handler + off] st.
Fixpoint scan_stacks (n : nat) (f : oldify_state -> Z -> Z -> result oldify_state) (stk : Z) (st : oldify_state) : result oldify_state :=
  if stk =? NULL then Ret st else
  match n with
  | O => NoFuel
  | S n =>
      high ← stack_handler (gh st) stk;
      low ← stack_sp (gh st) stk;
      st ← scan_slots f (slots_between low high) st;
      st ← scan_handler f stk 0 st;
      st ← scan_handler f stk 8 st;
      st ← scan_handler f stk 16 st;
      parent ← Stack_parent (gh st) stk;
      scan_stacks n f parent st
  end.
Definition caml_scan_stack (f : oldify_state -> Z -> Z -> result oldify_state) (stk : Z) (st : oldify_state) : result oldify_state :=
  scan_stacks stack_depth f stk st.

(** The tag of the contents of a forwarding block, 0 for an integer. *)
Definition forward_tag (h : heap) (f : Z) : result Z :=
  if Is_block f then
    hd ← get_header_val h f;
    if hd =? 0 then r ← Field h f 0; Tag_val h r else Tag_val h f
  else Ret 0.
Definition keeps_forward (ft : Z) : bool :=
  (ft =? Forward_tag) || (ft =? Lazy_tag) || (ft =? Forcing_tag) || (ft =? Double_tag).

(** The cases of [oldify_one] on a block that is not forwarded; [oldify] is [oldify_one] itself, for a
    [goto tail_call] and for the scan of a stack. *)
Section Cases.
Variable oldify : oldify_state -> Z -> Z -> result oldify_state.
Definition oldify_cont (st : oldify_state) (v p : Z) : result oldify_state :=
  stack_value ← Field (gh st) v 0;
  '(result, st) ← alloc_shared st 2 Cont_tag;
  st ← try_update_object_header st v p result 0;
  st ← (st ← write_word st result stack_value; w ← Field (gh st) v 1; write_word st (result + 8) w);
  if Ptr_val stack_value =? NULL then Ret st else caml_scan_stack oldify (Ptr_val stack_value) st.
Definition oldify_scanned (st : oldify_state) (hd v p infix_offset : Z) : result oldify_state :=
  let sz := Wosize_hd hd in
  let st := add_live (Bhsize_hd hd) st in
  '(result, st) ← alloc_shared st sz (Tag_hd hd);
  field0 ← Field (gh st) v 0;
  st ← try_update_object_header st v p result infix_offset;
  if 1 <? sz then
    st ← write_word st result field0;
    st ← write_word st (result + 8) (todo_list st);
    Ret (set_todo v st)
  else oldify st field0 result.
Definition oldify_raw (st : oldify_state) (hd v p : Z) : result oldify_state :=
  let sz := Wosize_hd hd in
  let st := add_live (Bhsize_hd hd) st in
  '(result, st) ← alloc_shared st sz (Tag_hd hd);
  st ← copy_fields (Z.to_nat sz) st v result;
  try_update_object_header st v p result 0.
Definition oldify_forward (st : oldify_state) (hd v p : Z) : result oldify_state :=
  f ← Forward_val (gh st) v;
  ft ← forward_tag (gh st) f;
  if keeps_forward ft then
    let st := add_live (Bhsize_hd hd) st in
    '(result, st) ← alloc_shared st 1 Forward_tag;
    st ← try_update_object_header st v p result 0;
    oldify st f result
  else oldify st f p.
End Cases.
Fixpoint oldify_one (fuel : nat) (st : oldify_state) (v p : Z) : result oldify_state :=
  match fuel with
  | O => NoFuel
  | S n =>
      if negb (Is_block_and_young (gh st) v) then write_word st p v
      else
        '(hd, v, infix_offset) ← find_header 3 (gh st) v 0;
        if hd =? 0 then r ← Field (gh st) v 0; write_word st p (r + infix_offset)
        else if Tag_hd hd =? Cont_tag then oldify_cont (oldify_one n) st v p
        else if Tag_hd hd <? Infix_tag then oldify_scanned (oldify_one n) st hd v p infix_offset
        else if No_scan_tag <=? Tag_hd hd then oldify_raw st hd v p
        else oldify_forward (oldify_one n) st hd v p
  end.

(** The fields of a block taken from the list, from the second on. *)
Fixpoint oldify_fields (fuel n : nat) (st : oldify_state) (src dst : Z) : result oldify_state :=
  match n with
  | O => Ret st
  | S n =>
      f ← load (gh st) src;
      st ← (if Is_block_and_young (gh st) f then oldify_one fuel st f dst else write_word st dst f);
      oldify_fields fuel n st (src + 8) (dst + 8)
  end.
Definition oldify_block (fuel : nat) (st : oldify_state) : result oldify_state :=
  let v := todo_list st in
  new_v ← Field (gh st) v 0;
  next ← Field (gh st) new_v 1;
  let st := set_todo next st in
  f ← Field (gh st) new_v 0;
  st ← (if Is_block_and_young (gh st) f then oldify_one fuel st f new_v else Ret st);
  sz ← Wosize_val (gh st) new_v;
  oldify_fields fuel (Z.to_nat (sz - 1)) st (v + 8) (new_v + 8).
(** [while (st->todo_list != 0) ...] *)
Fixpoint oldify_todo (rounds fuel : nat) (st : oldify_state) : result oldify_state :=
  if todo_list st =? 0 then Ret st
  else match rounds with O => NoFuel | S r => st ← oldify_block fuel st; oldify_todo r fuel st end.

(** The slots of the ephemerons of the table; the flag is [redo]. *)
Fixpoint oldify_ephemerons (caml_ephe_none : Z) (fuel : nat) (l : list Z) (st : oldify_state) : result (bool * oldify_state) :=
  match l with
  | [] => Ret (false, st)
  | data :: l =>
      v ← load (gh st) data;
      if negb (v =? caml_ephe_none) && Is_block_and_young (gh st) v then
        t ← Tag_val (gh st) v;
        offs ← (if t =? Infix_tag then hd ← Hd_val (gh st) v; Ret (Infix_offset_hd hd) else Ret 0);
        let v' := v - offs in
        hd ← get_header_val (gh st) v';
        if hd =? 0 then
          w ← Field (gh st) v' 0;
          st ← write_word st data (w + offs);
          oldify_ephemerons caml_ephe_none fuel l st
        else
          st ← oldify_one fuel st v data;
          '(_, st) ← oldify_ephemerons caml_ephe_none fuel l st;
          Ret (true, st)
      else oldify_ephemerons caml_ephe_none fuel l st
  end.
(** An entry of the table: an ephemeron and the offset of a key or of the data. *)
Definition ephe_slot (re : Z * Z) : Z := fst re + 8 * snd re.
Fixpoint oldify_mopup (again : nat) (fuel : nat) (caml_ephe_none : Z) (ephe_ref : list (Z * Z)) (do_ephemerons : bool) (st : oldify_state) :
    result oldify_state :=
  match again with
  | O => NoFuel
  | S n =>
      st ← oldify_todo fuel fuel st;
      if do_ephemerons then
        '(redo, st) ← oldify_ephemerons caml_ephe_none fuel (ephe_slot <$> ephe_ref) st;
        if (redo : bool) then oldify_mopup n fuel caml_ephe_none ephe_ref do_ephemerons st else Ret st
      else Ret st
  end.

(** ** The roots of a domain *)

(** A [struct caml__roots_block]: [nitems] slots in each of its tables. *)
Record roots_block := mkRootsBlock { nitems : nat; tables : list Z }.
Definition block_slots (lr : roots_block) : list Z :=
  t ← tables lr; (fun j => t + 8 * Z.of_nat j) <$> seq 0 (nitems lr).
(** [f] on the slots that do not hold 0. *)
Fixpoint scan_nonzero (f : oldify_state -> Z -> Z -> result oldify_state) (l : list Z) (st : oldify_state) : result oldify_state :=
  match l with
  | [] => Ret st
  | sp :: l =>
      v ← load (gh st) sp;
      st ← (if v =? 0 then Ret st else f st v sp);
      scan_nonzero f l st
  end.
Definition caml_do_local_roots (f : oldify_state -> Z -> Z -> result oldify_state) (local_roots : list roots_block) (current_stack : Z)
    (st : oldify_state) : result oldify_state :=
  st ← scan_nonzero f (local_roots ≫= block_slots) st;
  caml_scan_stack f current_stack st.

(** A [struct finalisable]: an array of [struct final], each of three words: the function, the
    value and its offset.  The entries from [old] to [young] may point to the minor heap. *)
Record finalisable := mkFinalisable { final_table : Z; final_old : nat; final_young : nat }.
Definition final_fun (f : finalisable) (i : nat) : Z := final_table f + 24 * Z.of_nat i.
Definition final_val (f : finalisable) (i : nat) : Z := final_table f + 24 * Z.of_nat i + 8.
Definition young_entries (f : finalisable) : list nat := seq (final_old f) (final_young f - final_old f).
Definition final_slots (first last : finalisable) (do_last_val : bool) : list Z :=
  (i ← young_entries first; [final_fun first i; final_val first i]) ++
  (i ← young_entries last; final_fun last i :: if do_last_val then [final_val last i] else []).
Definition caml_final_do_young_roots (f : oldify_state -> Z -> Z -> result oldify_state) (first last : finalisable) (do_last_val : bool)
    (st : oldify_state) : result oldify_state :=
  scan_slots f (final_slots first last do_last_val) st.

(** An entry of the table of the custom blocks. *)
Record caml_custom_elt := mkCustomElt { elt_block : Z; elt_mem : Z; elt_max : Z }.

Record domain (D : Type) := mkDomain {
  globals : roots D;
  local_roots : list roots_block;
  current_stack : Z;
  final_first : finalisable;
  final_last : finalisable;
  ephe_ref : list (Z * Z);
  custom : list caml_custom_elt;
  dom_allocated_words : Z;
  stat_minor_words : Z;
  stat_promoted_words : Z;
}.
#[global] Arguments mkDomain {D}.
#[global] Arguments globals {D}.
#[global] Arguments local_roots {D}.
#[global] Arguments current_stack {D}.
#[global] Arguments final_first {D}.
#[global] Arguments final_last {D}.
#[global] Arguments ephe_ref {D}.
#[global] Arguments custom {D}.
#[global] Arguments dom_allocated_words {D}.
#[global] Arguments stat_minor_words {D}.
#[global] Arguments stat_promoted_words {D}.

(** [oldify_one] on a global root: the C variables are words of the memory. *)
Definition oldify_root (fuel : nat) : scanning_action oldify_state := fun st v r _ =>
  st ← oldify_one fuel st v r; Ret (st, words (gh st)).

(** ** A minor collection of a domain that runs alone *)

Section Collect.
Context {D : Type} `{DD : !Dictionary D} (caml_ephe_none : Z) (fuel : nat).

(** [domain->young_ptr = domain->young_end], and a GC poll when half of the heap is filled:
    the minor heap of the only domain is the whole area of the minor heaps. *)
Definition reset_young (h : heap) : heap :=
  let start := caml_minor_heaps_start h in
  let young_trigger := start + 8 * ((caml_minor_heaps_end h - start) / 8 / 2) in
  mkHeap (words h) (caml_minor_heaps_end h) young_trigger start (caml_minor_heaps_end h) (atoms h) (major_ref h) (darkened h).

(** The hook [caml_scan_roots_hook], by which a library such as [systhreads] adds roots, is
    not set; nor are the statistics of the collector sampled. *)
Definition caml_empty_minor_heap_promote (d : domain D) (h : heap) : result (domain D * heap) :=
  let minor_allocated_bytes := u64 (caml_minor_heaps_end h - young_ptr h) in
  let st := mkOldify h 0 0 (dom_allocated_words d) in
  '(ok, st, g) ← caml_scan_global_young_roots (oldify_root fuel) st (set_values (words h) (globals d));
  if negb ok then Raise Out_of_memory else
  st ← scan_slots (oldify_one fuel) (rev (major_ref h)) st;
  st ← caml_final_do_young_roots (oldify_one fuel) (final_first d) (final_last d) false st;
  st ← oldify_mopup fuel fuel caml_ephe_none (ephe_ref d) true st;
  st ← caml_do_local_roots (oldify_one fuel) (local_roots d) (current_stack d) st;
  st ← oldify_mopup fuel fuel caml_ephe_none (ephe_ref d) false st;
  Ret (mkDomain (set_values (words (gh st)) g) (local_roots d) (current_stack d) (final_first d) (final_last d) (ephe_ref d) (custom d)
         (allocated_words st) (u64 (stat_minor_words d + minor_allocated_bytes / 8))
         (u64 (stat_promoted_words d + (allocated_words st - dom_allocated_words d))),
       reset_young (gh st)).

(** What [custom_finalize_minor] does of each block of the table; [has_finalize] says whether
    the operations of a block have a finaliser. *)
Inductive custom_event := Adjust_gc_speed (mem max : Z) | Finalize (v : Z).
Fixpoint custom_finalize_minor (has_finalize : Z -> bool) (h : heap) (l : list caml_custom_elt) : result (list custom_event) :=
  match l with
  | [] => Ret []
  | elt :: l =>
      let v := elt_block elt in
      ev ← (if Is_block v && Is_young h v then
              hd ← get_header_val h v;
              if hd =? 0 then Ret [Adjust_gc_speed (elt_mem elt) (elt_max elt)]
              else ops ← Field h v 0; Ret (if has_finalize ops then [Finalize v] else [])
            else Ret []);
      evs ← custom_finalize_minor has_finalize h l;
      Ret (ev ++ evs)
  end.

Definition empty_young (f : finalisable) : finalisable := mkFinalisable (final_table f) (final_young f) (final_young f).
Definition caml_empty_minor_heap_domain_clear (d : domain D) (h : heap) : domain D * heap :=
  (mkDomain (globals d) (local_roots d) (current_stack d) (empty_young (final_first d)) (empty_young (final_last d)) [] []
     (dom_allocated_words d) (stat_minor_words d) (stat_promoted_words d),
   set_major_ref [] h).
End Collect.
End Oldify.
End MinorGc.
