(* ===== verification/MinorGcProps.v ===== *)
(** * Correctness of the minor collector *)

From S2P Require Import Prelude Memory Barrier Fiber Skiplist GlobRoots MinorGc.
From stdpp Require Import list gmap.
#[local] Open Scope Z_scope.
Import Skiplist(Dictionary, DictionaryOk, dict_repr, dict_insert, dict_elements, dict_clear, dict_iterated, dict_cleared).
Import GlobRoots(roots, root_list, Mutable_roots, Young_roots, Old_roots, root_values, roots_mutex, list_of, set_values, set_mutex, holds, change).
Import MinorGc.

Module MinorGcProps.

(** ** The memory before the collection *)

(** The slots of a stack and of the stacks below. *)
Class StackLayout : Type := stack_slots : Z -> list Z.

Section Collection.
Context `{SH : SharedHeap, !SharedHeapOk SH} `{SD : StackDepth} `{SL : StackLayout}.
(** The heap when the collection starts, the blocks of the minor heap (tag and
    fields) and the slots that may be scanned. *)
Context (h0 : heap) (Y : gmap Z (Z * list Z)) (R : gset Z).

Definition young (v : Z) : Prop := Is_block_and_young h0 v = true.
Definition in_block (v : Z) (n : nat) (a : Z) : Prop := exists i, -1 <= i < Z.of_nat n /\ a = v + 8 * i.
(** [f] is in the block [v], at the infix header that is its field [i]. *)
Definition infix_at (v : Z) (l : list Z) (i : nat) (f : Z) : Prop :=
  (1 <= i)%nat /\ (i + 1 < length l)%nat /\ f = v + 8 * Z.of_nat (i + 1) /\
  exists w, l !! i = Some w /\ Tag_hd (u64 w) = Infix_tag /\ Infix_offset_hd (u64 w) = 8 * Z.of_nat (i + 1).
(** A value that may be oldified: if it is in the minor heap it is one of the
    blocks, or points to an infix header of a closure. *)
Definition target (f : Z) : Prop := young f ->
  is_Some (Y !! f) \/ exists v l i, Y !! v = Some (Closure_tag, l) /\ infix_at v l i f.
(** The tag of the contents of a forwarding block. *)
Definition contents_tag (f : Z) : Z :=
  if Is_block f then match words h0 !! (f - 8) with Some w => Tag_hd (u64 w) | None => 0 end else 0.
(** A word of the memory that a collection does not change. *)
Definition fixed (a w : Z) : Prop := words h0 !! a = Some w /\ major_addr h0 a /\ a ∉ R.
Inductive stack_at : nat -> Z -> list Z -> Prop :=
| stack_at_null n : stack_at n NULL []
| stack_at_cons n stk sp handler parent ls : stk <> NULL -> fixed stk sp -> fixed (stk + 16) handler -> fixed (handler + 24) parent ->
    stack_at n parent ls -> stack_at (S n) stk (slots_between sp handler ++ [handler; handler + 8; handler + 16] ++ ls).
Definition stack_ok (stk : Z) : Prop := stack_at stack_depth stk (stack_slots stk) /\ forall a, a ∈ stack_slots stk -> a ∈ R.
Definition scanned (t : Z) : Prop := t < No_scan_tag /\ t <> Cont_tag.

Record young_ok : Prop := {
  yo_start : 0 <= caml_minor_heaps_start h0;
  yo_block v t l : Y !! v = Some (t, l) -> block_at h0 v t l;
  yo_size v t l : Y !! v = Some (t, l) -> 1 <= Z.of_nat (length l) < 2 ^ 54;
  yo_area v t l : Y !! v = Some (t, l) ->
    caml_minor_heaps_start h0 <= v - 8 /\ v + 8 * Z.of_nat (length l) <= caml_minor_heaps_end h0;
  yo_align v t l : Y !! v = Some (t, l) -> v mod 8 = 0;
  yo_disjoint v t l v' t' l' : Y !! v = Some (t, l) -> Y !! v' = Some (t', l') -> v <> v' ->
    v + 8 * Z.of_nat (length l) <= v' - 8 \/ v' + 8 * Z.of_nat (length l') <= v - 8;
  yo_tag v t l : Y !! v = Some (t, l) -> t <> Infix_tag /\ (t = Forward_tag -> length l = 1%nat) /\ (t = Cont_tag -> length l = 2%nat);
  yo_fields v t l f : Y !! v = Some (t, l) -> scanned t -> f ∈ l -> target f;
  (** The contents of a forwarding block have a header. *)
  yo_forward v f : Y !! v = Some (Forward_tag, [f]) -> Is_block f = true -> Is_young h0 f = false ->
    f - 8 ∉ R /\ major_addr h0 (f - 8) /\ exists w, words h0 !! (f - 8) = Some w /\ u64 w <> 0 /\ u64 w <> In_progress_update_val;
  (** The slots are outside the minor heap, and hold values. *)
  yo_slots a : a ∈ R -> major_addr h0 a /\ exists s, words h0 !! a = Some s /\ target s;
  yo_stacks v k w : Y !! v = Some (Cont_tag, [k; w]) -> k <> 1 -> stack_ok (Ptr_val k);
}.
Hypothesis Hok : young_ok.

(** ** Images *)

(** What a value becomes, [F] giving the copy of each forwarded block. *)
Inductive image (F : gmap Z Z) : Z -> Z -> Prop :=
| image_other v : ~ young v -> image F v v
| image_block v n : F !! v = Some n -> image F v n
| image_infix v l i f n : Y !! v = Some (Closure_tag, l) -> infix_at v l i f -> F !! v = Some n ->
    image F f (n + 8 * Z.of_nat (i + 1))
| image_short v f w : Y !! v = Some (Forward_tag, [f]) -> keeps_forward (contents_tag f) = false ->
    image F f w -> image F v w.
Lemma image_mono F F' v w : F ⊆ F' -> image F v w -> image F' v w.
Proof.
  intros Hsub. induction 1.
  - by apply image_other.
  - apply image_block. by eapply lookup_weaken.
  - eapply image_infix; [done|done|by eapply lookup_weaken].
  - by eapply image_short.
Qed.

Lemma aligned_block v : v mod 8 = 0 -> Is_block v = true.
Proof.
  intros H. unfold Is_block. change 1 with (Z.ones 1). rewrite Z.land_ones by lia. change (2 ^ 1) with 2.
  pose proof (Z.div_mod v 8 ltac:(lia)). apply Z.eqb_eq. rewrite (Z.mod_eq v 2) by lia.
  replace v with (4 * (v / 8) * 2) by lia. rewrite Z.div_mul by lia. lia.
Qed.
Lemma block_young v t l : Y !! v = Some (t, l) -> young v.
Proof.
  intros Hy. pose proof (yo_area Hok _ _ _ Hy). pose proof (yo_size Hok _ _ _ Hy). pose proof (yo_align Hok _ _ _ Hy) as Ha.
  unfold young, Is_block_and_young, Is_young. rewrite aligned_block by done. rewrite !andb_true_iff, !Z.ltb_lt. split; [done|lia].
Qed.
Lemma infix_young v l i f : Y !! v = Some (Closure_tag, l) -> infix_at v l i f -> young f.
Proof.
  intros Hy (Hi & Hil & -> & _). pose proof (yo_area Hok _ _ _ Hy). pose proof (yo_size Hok _ _ _ Hy). pose proof (yo_align Hok _ _ _ Hy) as Ha.
  unfold young, Is_block_and_young, Is_young. rewrite aligned_block.
  2:{ rewrite Z.mul_comm, Z_mod_plus_full. done. }
  rewrite !andb_true_iff, !Z.ltb_lt. split; [done|lia].
Qed.
(** An infix pointer is inside its closure: it is no block, and has one offset. *)
Lemma infix_block v l i f u t l' : Y !! v = Some (Closure_tag, l) -> infix_at v l i f -> Y !! u = Some (t, l') -> in_block u (length l') f -> u = v.
Proof.
  intros Hy (Hi & Hil & -> & _) Hu (j & Hj & E). destruct (decide (u = v)) as [|Hne]; [done|]. exfalso.
  pose proof (yo_disjoint Hok _ _ _ _ _ _ Hy Hu ltac:(congruence)). lia.
Qed.
Lemma infix_not_block v l i f t l' : Y !! v = Some (Closure_tag, l) -> infix_at v l i f -> Y !! f = Some (t, l') -> False.
Proof.
  intros Hy Hi Hf. pose proof (yo_size Hok _ _ _ Hf) as Hsz. assert (in_block f (length l') f) as Hb by (exists 0; lia).
  pose proof (infix_block _ _ _ _ _ _ _ Hy Hi Hf Hb). subst. destruct Hi as (? & ? & ? & _). lia.
Qed.
Lemma infix_unique v l i f u l' j : Y !! v = Some (Closure_tag, l) -> infix_at v l i f -> Y !! u = Some (Closure_tag, l') -> infix_at u l' j f -> u = v /\ j = i.
Proof.
  intros Hy Hi Hu Hj. assert (in_block u (length l') f) as Hb by (destruct Hj as (? & ? & -> & _); exists (Z.of_nat (j + 1)); lia).
  pose proof (infix_block _ _ _ _ _ _ _ Hy Hi Hu Hb). subst. split; [done|]. destruct Hi as (? & ? & -> & _), Hj as (? & ? & ? & _). lia.
Qed.
Lemma major_not_young a : major_addr h0 a -> ~ young a.
Proof. intros Ha. unfold young, Is_block_and_young. rewrite (major_addr_young h0 a Ha). by rewrite andb_false_r. Qed.

(** ** Forwarded blocks and their copies *)

Record core (F : gmap Z Z) (m : gmap Z Z) : Prop := {
  co_dom v n : F !! v = Some n -> exists t l, Y !! v = Some (t, l) /\
    (t = Forward_tag -> exists f, l = [f] /\ keeps_forward (contents_tag f) = true);
  co_mapped a : is_Some (words h0 !! a) -> is_Some (m !! a);
  co_kept v t l a : Y !! v = Some (t, l) -> F !! v = None -> in_block v (length l) a -> m !! a = words h0 !! a;
  co_fwd v t l n : Y !! v = Some (t, l) -> F !! v = Some n ->
    m !! (v - 8) = Some 0 /\ m !! v = Some n /\ forall i, 1 <= i < Z.of_nat (length l) -> m !! (v + 8 * i) = words h0 !! (v + 8 * i);
  co_header v t l n : Y !! v = Some (t, l) -> F !! v = Some n ->
    exists hd, m !! (n - 8) = Some hd /\ Tag_hd (u64 hd) = t /\ Wosize_hd (u64 hd) = Z.of_nat (length l);
  co_copy v t l n : Y !! v = Some (t, l) -> F !! v = Some n -> n mod 8 = 0 /\ forall i, -1 <= i < Z.of_nat (length l) ->
    words h0 !! (n + 8 * i) = None /\ is_Some (m !! (n + 8 * i)) /\ major_addr h0 (n + 8 * i);
  co_disjoint v t l n v' t' l' n' i j : Y !! v = Some (t, l) -> F !! v = Some n -> Y !! v' = Some (t', l') -> F !! v' = Some n' ->
    v <> v' -> -1 <= i < Z.of_nat (length l) -> -1 <= j < Z.of_nat (length l') -> n + 8 * i <> n' + 8 * j;
  co_rest a : ~ major_addr h0 a -> (forall v, is_Some (F !! v) -> a <> v - 8 /\ a <> v) -> m !! a = words h0 !! a;
}.

(** The image of a value is not in the minor heap. *)
Lemma image_not_young F m v w : core F m -> image F v w -> ~ young w.
Proof.
  intros Hc. induction 1 as [v Hv|v n Hf|v l i f n Hy Hi Hf|v f w Hy Hk Him IH]; [done| | |done].
  - destruct (co_dom _ _ Hc _ _ Hf) as (t & l & Hy & _). destruct (co_copy _ _ Hc _ _ _ _ Hy Hf) as [_ Hn].
    pose proof (yo_size Hok _ _ _ Hy). destruct (Hn 0) as (_ & _ & Hm); [lia|]. apply major_not_young. by rewrite Z.mul_0_r, Z.add_0_r in Hm.
  - destruct (co_copy _ _ Hc _ _ _ _ Hy Hf) as [_ Hn]. destruct Hi as (? & ? & _). apply major_not_young. apply Hn. lia.
Qed.
(** A value outside the minor heap is its own image only. *)
Lemma image_other_inv F m v w : core F m -> ~ young v -> image F v w -> w = v.
Proof.
  intros Hc Hv. destruct 1 as [|v n Hf|v l i f n Hy Hi Hf|v f w Hy Hk Him]; [done|exfalso..]; apply Hv.
  - destruct (co_dom _ _ Hc _ _ Hf) as (t & l & Hy & _). by eapply block_young.
  - by eapply infix_young.
  - by eapply block_young.
Qed.
Lemma young_not_mapped v t l a : Y !! v = Some (t, l) -> in_block v (length l) a -> ~ major_addr h0 a.
Proof.
  intros Hy (i & Hi & ->). pose proof (yo_area Hok _ _ _ Hy). unfold major_addr. lia.
Qed.

(** ** Slots *)

(** [T] are the blocks of the list; [S] the slots seen so far, with their source; [P]
    those whose image is not there yet. *)
Definition field_slot (F : gmap Z Z) (T : list Z) (a s : Z) : Prop := exists v n t l i,
  F !! v = Some n /\ Y !! v = Some (t, l) /\ l !! i = Some s /\ a = n + 8 * Z.of_nat i /\ v ∉ T /\ scanned t.
Record slots (F : gmap Z Z) (T : list Z) (S : gmap Z Z) (P : gset Z) (m : gmap Z Z) : Prop := {
  sl_target a s : S !! a = Some s -> target s;
  sl_slot a s : S !! a = Some s -> a ∈ R /\ words h0 !! a = Some s \/ field_slot F T a s;
  sl_done a s : S !! a = Some s -> a ∉ P -> exists w, m !! a = Some w /\ image F s w;
  sl_pending a s : S !! a = Some s -> a ∈ P -> a ∈ R -> m !! a = Some s;
  sl_cover v n t l i s : F !! v = Some n -> Y !! v = Some (t, l) -> scanned t -> v ∉ T -> l !! i = Some s ->
    S !! (n + 8 * Z.of_nat i) = Some s;
  sl_raw v n t l i s : F !! v = Some n -> Y !! v = Some (t, l) -> ~ scanned t -> l !! i = Some s -> m !! (n + 8 * Z.of_nat i) = Some s;
  sl_stack v k w a : is_Some (F !! v) -> Y !! v = Some (Cont_tag, [k; w]) -> k <> 1 -> a ∈ stack_slots (Ptr_val k) -> is_Some (S !! a);
  sl_frame a : major_addr h0 a -> S !! a = None -> is_Some (words h0 !! a) -> m !! a = words h0 !! a;
}.
Fixpoint chain (F : gmap Z Z) (m : gmap Z Z) (T : list Z) (head : Z) : Prop :=
  match T with
  | [] => head = 0
  | v :: T => head = v /\ exists n t l s next, F !! v = Some n /\ Y !! v = Some (t, l) /\ t < Infix_tag /\ scanned t /\
      (2 <= length l)%nat /\ l !! 0%nat = Some s /\ m !! n = Some s /\ m !! (n + 8) = Some next /\ chain F m T next
  end.
Record inv (F : gmap Z Z) (T : list Z) (S : gmap Z Z) (P : gset Z) (st : oldify_state) : Prop := {
  in_heap : gh st = set_words (words (gh st)) h0;
  in_core : core F (words (gh st));
  in_slots : slots F T S P (words (gh st));
  in_chain : chain F (words (gh st)) T (todo_list st);
  in_nodup : NoDup T;
}.

(** *** Where slots are *)
Section Slots.
Context (F : gmap Z Z) (T : list Z) (S : gmap Z Z) (P : gset Z) (m : gmap Z Z).
Hypothesis Hc : core F m.
Hypothesis Hs : slots F T S P m.

Lemma slot_major p s : S !! p = Some s -> major_addr h0 p /\ is_Some (m !! p).
Proof.
  intros Hp. destruct (sl_slot _ _ _ _ _ Hs _ _ Hp) as [[Hr Hw]|(v & n & t & l & i & Hf & Hy & Hi & -> & _)].
  - split; [apply (yo_slots Hok _ Hr)|]. apply (co_mapped _ _ Hc). by eexists.
  - destruct (co_copy _ _ Hc _ _ _ _ Hy Hf) as [_ Hn]. apply lookup_lt_Some in Hi. destruct (Hn (Z.of_nat i)) as (_ & H1 & H2); [lia|done].
Qed.
(** A slot is not a word of a copy, unless it is a field of a scanned block not in the list. *)
Lemma slot_not_copy p s v n t l i : S !! p = Some s -> F !! v = Some n -> Y !! v = Some (t, l) -> -1 <= i < Z.of_nat (length l) ->
  i = -1 \/ v ∈ T \/ ~ scanned t -> p <> n + 8 * i.
Proof.
  intros Hp Hf Hy Hi Hwhy ->. destruct (sl_slot _ _ _ _ _ Hs _ _ Hp) as [[Hr Hw]|(v' & n' & t' & l' & j & Hf' & Hy' & Hj & E & Ht & Hsc)].
  - destruct (co_copy _ _ Hc _ _ _ _ Hy Hf) as [_ Hn]. destruct (Hn i Hi) as (E & _). congruence.
  - apply lookup_lt_Some in Hj. destruct (decide (v = v')) as [<-|Hne].
    + simplify_eq. destruct Hwhy as [->|[Hin|Hns]]; [lia|done|done].
    + by apply (co_disjoint _ _ Hc v t l n v' t' l' n' i (Z.of_nat j) Hy Hf Hy' Hf' Hne Hi ltac:(lia)).
Qed.

Lemma core_write p s w : S !! p = Some s -> core F (<[p := w]> m).
Proof.
  intros Hp. destruct (slot_major p s Hp) as [Hmaj _]. split.
  - apply (co_dom _ _ Hc).
  - intros a Ha. destruct (decide (p = a)) as [->|]; [rewrite lookup_insert_eq; by eexists|rewrite lookup_insert_ne by done; by apply (co_mapped _ _ Hc)].
  - intros v t l a Hy Hf Ha. rewrite lookup_insert_ne; [by eapply (co_kept _ _ Hc)|]. intros ->. by eapply young_not_mapped.
  - intros v t l n Hy Hf. assert (forall i, -1 <= i < Z.of_nat (length l) -> p <> v + 8 * i) as Hne.
    { intros i Hi ->. eapply young_not_mapped; [done| |done]. by exists i. }
    pose proof (yo_size Hok _ _ _ Hy). destruct (co_fwd _ _ Hc _ _ _ _ Hy Hf) as (H1 & H2 & H3). split_and!.
    + rewrite lookup_insert_ne; [done|]. specialize (Hne (-1)). lia.
    + rewrite lookup_insert_ne; [done|]. specialize (Hne 0). lia.
    + intros i Hi. rewrite lookup_insert_ne; [by apply H3|]. apply Hne. lia.
  - intros v t l n Hy Hf. pose proof (yo_size Hok _ _ _ Hy). rewrite lookup_insert_ne; [by apply (co_header _ _ Hc v)|].
    pose proof (slot_not_copy p s v n t l (-1) Hp Hf Hy ltac:(lia) ltac:(by left)). lia.
  - intros v t l n Hy Hf. destruct (co_copy _ _ Hc _ _ _ _ Hy Hf) as [Ha Hn]. split; [done|]. intros i Hi. destruct (Hn i Hi) as (H1 & H2 & H3). split_and!; try done.
    destruct (decide (p = n + 8 * i)) as [->|]; [rewrite lookup_insert_eq; by eexists|by rewrite lookup_insert_ne].
  - apply (co_disjoint _ _ Hc).
  - intros a Ha Hf. rewrite lookup_insert_ne by (by intros ->). by apply (co_rest _ _ Hc).
Qed.
Lemma chain_write p s w : S !! p = Some s -> forall T' head, (forall v, v ∈ T' -> v ∈ T) -> chain F m T' head -> chain F (<[p := w]> m) T' head.
Proof.
  intros Hp T'. induction T' as [|v T' IH]; intros head Hin Hch; [done|].
  destruct Hch as (-> & n & t & l & s0 & next & Hf & Hy & Ht & Hsc & Hlen & Hl0 & H1 & H2 & Hch). split; [done|].
  assert (v ∈ T) as Hv by (apply Hin; set_solver).
  pose proof (slot_not_copy p s v n t l 0 Hp Hf Hy ltac:(lia) ltac:(auto)). pose proof (slot_not_copy p s v n t l 1 Hp Hf Hy ltac:(lia) ltac:(auto)).
  exists n, t, l, s0, next. rewrite !lookup_insert_ne by lia. split_and!; try done. apply IH; [|done]. intros u Hu. apply Hin. set_solver.
Qed.
Lemma slots_write p s w : S !! p = Some s -> image F s w -> slots F T S (P ∖ {[p]}) (<[p := w]> m).
Proof.
  intros Hp Him. split.
  - apply (sl_target _ _ _ _ _ Hs).
  - apply (sl_slot _ _ _ _ _ Hs).
  - intros a s' Ha HP. destruct (decide (p = a)) as [<-|Hne].
    + rewrite lookup_insert_eq. exists w. split; [done|congruence].
    + rewrite lookup_insert_ne by done. apply (sl_done _ _ _ _ _ Hs); [done|set_solver].
  - intros a s' Ha HP HR. rewrite lookup_insert_ne by set_solver. apply (sl_pending _ _ _ _ _ Hs); [done|set_solver|done].
  - apply (sl_cover _ _ _ _ _ Hs).
  - intros v n t l i s' Hf Hy Hns Hi. rewrite lookup_insert_ne; [by eapply (sl_raw _ _ _ _ _ Hs)|].
    apply lookup_lt_Some in Hi. apply (slot_not_copy p s v n t l (Z.of_nat i) Hp Hf Hy); [lia|auto].
  - apply (sl_stack _ _ _ _ _ Hs).
  - intros a Ha HSa Hw. rewrite lookup_insert_ne by congruence. by apply (sl_frame _ _ _ _ _ Hs).
Qed.
(** A slot whose contents are already its image. *)
Lemma slots_done p s w : S !! p = Some s -> m !! p = Some w -> image F s w -> slots F T S (P ∖ {[p]}) m.
Proof. intros Hp Hm Him. rewrite <- (insert_id m p w Hm). by eapply slots_write. Qed.
(** A slot is seen for the first time. *)
Lemma slots_register a s : a ∈ R -> words h0 !! a = Some s -> S !! a = None -> slots F T (<[a := s]> S) (P ∪ {[a]}) m.
Proof.
  intros Ha Hw Hn. destruct (yo_slots Hok _ Ha) as [Hmaj (s' & Hw' & Ht)]. assert (s' = s) as -> by congruence.
  assert (m !! a = Some s) as Hma by (rewrite (sl_frame _ _ _ _ _ Hs) by (done || by eexists); done). split.
  - intros b s' [[<- <-]|[_ Hb]]%lookup_insert_Some; [done|]. by eapply (sl_target _ _ _ _ _ Hs).
  - intros b s' [[<- <-]|[_ Hb]]%lookup_insert_Some; [by left|]. by apply (sl_slot _ _ _ _ _ Hs).
  - intros b s' [[<- <-]|[_ Hb]]%lookup_insert_Some HP; [set_solver|]. apply (sl_done _ _ _ _ _ Hs); [done|set_solver].
  - intros b s' [[<- <-]|[Hne Hb]]%lookup_insert_Some HP HR; [done|]. apply (sl_pending _ _ _ _ _ Hs); [done|set_solver|done].
  - intros v n t l i s' Hf Hy Hsc HT Hi. rewrite lookup_insert_ne; [by eapply (sl_cover _ _ _ _ _ Hs)|].
    intros E. pose proof (sl_cover _ _ _ _ _ Hs _ _ _ _ _ _ Hf Hy Hsc HT Hi). congruence.
  - apply (sl_raw _ _ _ _ _ Hs).
  - intros v k w b Hf Hy Hk Hb. destruct (decide (a = b)) as [->|]; [rewrite lookup_insert_eq; by eexists|].
    rewrite lookup_insert_ne by done. by eapply (sl_stack _ _ _ _ _ Hs).
  - intros b Hb HSb Hwb. apply lookup_insert_None in HSb as [HSb _]. by apply (sl_frame _ _ _ _ _ Hs).
Qed.
End Slots.

(** ** Promotion of a block *)

(** From [m] to [m'] the block [v] is copied to [n] and forwarded. *)
Record promoted (v t : Z) (l : list Z) (n : Z) (m m' : gmap Z Z) : Prop := {
  pr_free i : -1 <= i < Z.of_nat (length l) -> m !! (n + 8 * i) = None /\ major_addr h0 (n + 8 * i);
  pr_align : n mod 8 = 0;
  pr_header : exists hd, m' !! (n - 8) = Some hd /\ Tag_hd (u64 hd) = t /\ Wosize_hd (u64 hd) = Z.of_nat (length l);
  pr_copy i : 0 <= i < Z.of_nat (length l) -> is_Some (m' !! (n + 8 * i));
  pr_zero : m' !! (v - 8) = Some 0;
  pr_forward : m' !! v = Some n;
  pr_frame a : a <> v - 8 -> a <> v -> (forall i, -1 <= i < Z.of_nat (length l) -> a <> n + 8 * i) -> m' !! a = m !! a;
}.

Section Promotion.
Context (F : gmap Z Z) (T : list Z) (S : gmap Z Z) (P : gset Z) (m m' : gmap Z Z) (v t n : Z) (l : list Z).
Hypothesis Hc : core F m.
Hypothesis Hs : slots F T S P m.
Hypothesis Hy : Y !! v = Some (t, l).
Hypothesis Hv : F !! v = None.
Hypothesis Hfw : t = Forward_tag -> exists f, l = [f] /\ keeps_forward (contents_tag f) = true.
Hypothesis Hp : promoted v t l n m m'.
Notation F' := (<[v := n]> F).

Lemma promoted_sub : F ⊆ F'.
Proof. by apply insert_subseteq. Qed.
(** The words in use outside the minor heap are not changed. *)
Lemma promoted_major a : is_Some (m !! a) -> major_addr h0 a -> m' !! a = m !! a.
Proof.
  intros [w Hw] Hmaj. pose proof (yo_size Hok _ _ _ Hy). apply (pr_frame _ _ _ _ _ _ Hp).
  - intros ->. eapply young_not_mapped; [done| |done]. exists (-1). lia.
  - intros ->. eapply young_not_mapped; [done| |done]. exists 0. lia.
  - intros i Hi ->. destruct (pr_free _ _ _ _ _ _ Hp i Hi). congruence.
Qed.
Lemma promoted_copy u tu lu nu i : Y !! u = Some (tu, lu) -> F !! u = Some nu -> -1 <= i < Z.of_nat (length lu) ->
  m' !! (nu + 8 * i) = m !! (nu + 8 * i).
Proof. intros Hyu Hfu Hi. destruct (co_copy _ _ Hc _ _ _ _ Hyu Hfu) as [_ Hn]. destruct (Hn i Hi) as (_ & ? & ?). by apply promoted_major. Qed.
(** The other blocks of the minor heap are not changed. *)
Lemma promoted_other u tu lu a : Y !! u = Some (tu, lu) -> u <> v -> in_block u (length lu) a -> m' !! a = m !! a.
Proof.
  intros Hyu Hne Ha. pose proof (yo_size Hok _ _ _ Hy). pose proof (yo_disjoint Hok _ _ _ _ _ _ Hyu Hy Hne). destruct Ha as (i & Hi & ->).
  apply (pr_frame _ _ _ _ _ _ Hp); [lia|lia|]. intros j Hj E. destruct (pr_free _ _ _ _ _ _ Hp j Hj) as [_ Hmaj]. rewrite <- E in Hmaj.
  eapply young_not_mapped; [exact Hyu| |exact Hmaj]. by exists i.
Qed.

Lemma core_promote : core F' m'.
Proof.
  pose proof (yo_size Hok _ _ _ Hy) as Hsz. split.
  - intros u nu [[<- <-]|[_ Hu]]%lookup_insert_Some; [by exists t, l|]. by eapply (co_dom _ _ Hc).
  - intros a Ha%(co_mapped _ _ Hc). destruct (decide (a = v - 8)) as [->|]; [rewrite (pr_zero _ _ _ _ _ _ Hp); by eexists|].
    destruct (decide (a = v)) as [->|]; [rewrite (pr_forward _ _ _ _ _ _ Hp); by eexists|].
    rewrite (pr_frame _ _ _ _ _ _ Hp); try done. intros i Hi ->. destruct (pr_free _ _ _ _ _ _ Hp i Hi) as [E _]. rewrite E in Ha. by destruct Ha.
  - intros u tu lu a Hyu [Hfu Hne]%lookup_insert_None Ha. rewrite (promoted_other u tu lu) by done. by eapply (co_kept _ _ Hc).
  - intros u tu lu nu Hyu [[<- <-]|[Hne Hfu]]%lookup_insert_Some.
    + assert (tu = t /\ lu = l) as [-> ->] by (rewrite Hy in Hyu; by injection Hyu). split_and!; [apply (pr_zero _ _ _ _ _ _ Hp)|apply (pr_forward _ _ _ _ _ _ Hp)|].
      intros i Hi. rewrite (pr_frame _ _ _ _ _ _ Hp); [|lia|lia|].
      * eapply (co_kept _ _ Hc); [done|done|]. exists i. lia.
      * intros j Hj E. destruct (pr_free _ _ _ _ _ _ Hp j Hj) as [_ Hmaj]. rewrite <- E in Hmaj. eapply young_not_mapped; [exact Hy| |exact Hmaj]. exists i. lia.
    + destruct (co_fwd _ _ Hc _ _ _ _ Hyu Hfu) as (H1 & H2 & H3). pose proof (yo_size Hok _ _ _ Hyu).
      rewrite !(promoted_other u tu lu); [|done|done|exists 0; lia|done|done|exists (-1); lia]. split_and!; [done|done|].
      intros i Hi. rewrite (promoted_other u tu lu); [by apply H3|done|done|exists i; lia].
  - intros u tu lu nu Hyu [[<- <-]|[Hne Hfu]]%lookup_insert_Some.
    + assert (tu = t /\ lu = l) as [-> ->] by (rewrite Hy in Hyu; by injection Hyu). apply (pr_header _ _ _ _ _ _ Hp).
    + pose proof (yo_size Hok _ _ _ Hyu). replace (nu - 8) with (nu + 8 * -1) by lia. rewrite (promoted_copy u tu lu) by (done || lia).
      replace (nu + 8 * -1) with (nu - 8) by lia. by apply (co_header _ _ Hc u).
  - intros u tu lu nu Hyu [[<- <-]|[Hne Hfu]]%lookup_insert_Some.
    + assert (tu = t /\ lu = l) as [-> ->] by (rewrite Hy in Hyu; by injection Hyu). split; [apply (pr_align _ _ _ _ _ _ Hp)|]. intros i Hi.
      destruct (pr_free _ _ _ _ _ _ Hp i Hi) as [Hn Hmaj]. split_and!; [|destruct (decide (i = -1)) as [->|]|done].
      * destruct (words h0 !! (n + 8 * i)) eqn:E; [|done]. destruct (co_mapped _ _ Hc (n + 8 * i)) as [w Hw]; [by rewrite E; eexists|]. congruence.
      * destruct (pr_header _ _ _ _ _ _ Hp) as (hd & Hhd & _). replace (n + 8 * -1) with (n - 8) by lia. rewrite Hhd. by eexists.
      * apply (pr_copy _ _ _ _ _ _ Hp). lia.
    + destruct (co_copy _ _ Hc _ _ _ _ Hyu Hfu) as [Ha Hn]. split; [done|]. intros i Hi. rewrite (promoted_copy u tu lu) by done. by apply Hn.
  - assert (forall u tu lu nu i j, Y !! u = Some (tu, lu) -> F !! u = Some nu -> -1 <= i < Z.of_nat (length l) -> -1 <= j < Z.of_nat (length lu) ->
      n + 8 * i <> nu + 8 * j) as Hnew.
    { intros u tu lu nu i j Hyu Hfu Hi Hj E. destruct (co_copy _ _ Hc _ _ _ _ Hyu Hfu) as [_ Hn]. destruct (Hn j Hj) as (_ & [w Hw] & _).
      destruct (pr_free _ _ _ _ _ _ Hp i Hi) as [Hf _]. congruence. }
    intros u tu lu nu u' tu' lu' nu' i j Hyu [[<- <-]|[Hne Hfu]]%lookup_insert_Some Hyu' [[<- <-]|[Hne' Hfu']]%lookup_insert_Some Huu Hi Hj; [done| | |].
    + rewrite Hy in Hyu. injection Hyu as <- <-. by eapply Hnew.
    + rewrite Hy in Hyu'. injection Hyu' as <- <-. intros E. symmetry in E. by eapply Hnew.
    + by eapply (co_disjoint _ _ Hc u tu lu nu u').
  - intros a Ha Hf. destruct (Hf v) as [Ha1 Ha2]; [by rewrite lookup_insert_eq; eexists|]. rewrite (pr_frame _ _ _ _ _ _ Hp); [|done|done|].
    + apply (co_rest _ _ Hc); [done|]. intros u [x Hu]. apply Hf. exists x. eapply lookup_weaken; [exact Hu|apply promoted_sub].
    + intros i Hi ->. by destruct (pr_free _ _ _ _ _ _ Hp i Hi).
Qed.
Lemma chain_promote T' head : chain F m T' head -> chain F' m' T' head.
Proof.
  revert head. induction T' as [|u T' IH]; intros head Hch; [done|].
  destruct Hch as (-> & nu & tu & lu & s0 & next & Hfu & Hyu & Ht & Hsc & Hlen & Hl0 & H1 & H2 & Hch). split; [done|].
  exists nu, tu, lu, s0, next. rewrite lookup_insert_ne by congruence. split_and!; try done.
  - pose proof (promoted_copy u tu lu nu 0 Hyu Hfu ltac:(lia)) as E. by rewrite Z.mul_0_r, Z.add_0_r, H1 in E.
  - pose proof (promoted_copy u tu lu nu 1 Hyu Hfu ltac:(lia)) as E. by rewrite Z.mul_1_r, H2 in E.
  - by apply IH.
Qed.

(** The slots seen so far keep their images, whatever becomes of the new copy. *)
Hypothesis HT : forall u, u ∈ T -> is_Some (F !! u).
Lemma slot_promoted a s : S !! a = Some s -> m' !! a = m !! a.
Proof. intros Ha. destruct (slot_major _ _ _ _ _ Hc Hs a s Ha). by apply promoted_major. Qed.
Lemma not_listed : v ∉ T.
Proof. intros Hin%HT. rewrite Hv in Hin. by destruct Hin. Qed.
Lemma field_slot_promoted T' a s : (forall u, u ∈ T' -> u ∈ T \/ u = v) -> field_slot F T a s -> field_slot F' T' a s.
Proof.
  intros Hsub (u & nu & tu & lu & i & Hf & Hyu & Hi & E & Ht & Hsc). exists u, nu, tu, lu, i. rewrite lookup_insert_ne by congruence.
  split_and!; try done. intros Hin%Hsub. destruct Hin as [| ->]; [done|congruence].
Qed.
Lemma slots_promote_aux T' : (forall u, u ∈ T' <-> u ∈ T \/ u = v /\ scanned t) ->
  (~ scanned t -> forall i s, l !! i = Some s -> m' !! (n + 8 * Z.of_nat i) = Some s) ->
  (t = Cont_tag -> forall k w a, l = [k; w] -> k <> 1 -> a ∈ stack_slots (Ptr_val k) -> is_Some (S !! a)) ->
  slots F' T' S P m'.
Proof.
  intros HT' Hraw Hstk. split.
  - apply (sl_target _ _ _ _ _ Hs).
  - intros a s Ha. destruct (sl_slot _ _ _ _ _ Hs a s Ha) as [|Hfs]; [by left|right]. eapply field_slot_promoted; [|done]. intros u Hu%HT'. naive_solver.
  - intros a s Ha HP. rewrite (slot_promoted a s Ha). destruct (sl_done _ _ _ _ _ Hs a s Ha HP) as (w & Hw & Him). exists w. split; [done|].
    eapply image_mono; [apply promoted_sub|done].
  - intros a s Ha HP HR. rewrite (slot_promoted a s Ha). by apply (sl_pending _ _ _ _ _ Hs).
  - intros u nu tu lu i s [[<- <-]|[Hne Hfu]]%lookup_insert_Some Hyu Hsc Hnin Hi.
    + exfalso. apply Hnin, HT'. right. rewrite Hy in Hyu. by injection Hyu as <- <-.
    + eapply (sl_cover _ _ _ _ _ Hs); try done. intros Hin. apply Hnin, HT'. by left.
  - intros u nu tu lu i s [[<- <-]|[Hne Hfu]]%lookup_insert_Some Hyu Hsc Hi.
    + rewrite Hy in Hyu. injection Hyu as <- <-. by apply Hraw.
    + pose proof (lookup_lt_Some _ _ _ Hi). rewrite (promoted_copy u tu lu) by (done || lia). by eapply (sl_raw _ _ _ _ _ Hs).
  - intros u k w a [nu Hu] Hyu Hk Ha. apply lookup_insert_Some in Hu as [[<- <-]|[Hne Hfu]].
    + rewrite Hy in Hyu. injection Hyu as E1 E2. by apply (Hstk E1 k w a).
    + by eapply (sl_stack _ _ _ _ _ Hs u k w).
  - intros a Ha HSa Hw. rewrite promoted_major; [by apply (sl_frame _ _ _ _ _ Hs)|by apply (co_mapped _ _ Hc)|done].
Qed.
(** A block write_word on the list. *)
Lemma slots_promote_todo : scanned t -> slots F' (v :: T) S P m'.
Proof.
  intros Hsc. apply slots_promote_aux.
  - intros u. rewrite elem_of_cons. naive_solver.
  - done.
  - intros ->. by destruct Hsc.
Qed.
(** A block copied as it is. *)
Lemma slots_promote_raw : ~ scanned t -> (forall i s, l !! i = Some s -> m' !! (n + 8 * Z.of_nat i) = Some s) ->
  (t = Cont_tag -> forall k w a, l = [k; w] -> k <> 1 -> a ∈ stack_slots (Ptr_val k) -> is_Some (S !! a)) -> slots F' T S P m'.
Proof. intros Hns Hraw Hstk. apply slots_promote_aux; try done. intros u. naive_solver. Qed.
(** A block of one field, which is to be oldified next. *)
Lemma slots_promote_single f : scanned t -> l = [f] -> slots F' T (<[n := f]> S) (P ∪ {[n]}) m'.
Proof.
  intros Hsc El. pose proof (slots_promote_todo Hsc) as Ht. pose proof (yo_size Hok _ _ _ Hy) as Hsz.
  destruct (pr_free _ _ _ _ _ _ Hp 0 ltac:(lia)) as [Hfree _]. rewrite Z.mul_0_r, Z.add_0_r in Hfree.
  assert (forall a s, S !! a = Some s -> a <> n) as HSn.
  { intros a s Ha ->. destruct (slot_major _ _ _ _ _ Hc Hs n s Ha) as [_ [w Hw]]. congruence. }
  split.
  - intros a s [[<- <-]|[_ Ha]]%lookup_insert_Some; [|by eapply (sl_target _ _ _ _ _ Hs)].
    eapply (yo_fields Hok); [done|done|]. rewrite El. set_solver.
  - intros a s [[<- <-]|[_ Ha]]%lookup_insert_Some.
    + right. exists v, n, t, l, 0%nat. rewrite lookup_insert_eq, El. split_and!; try done; [by rewrite <- El|lia|apply not_listed].
    + destruct (sl_slot _ _ _ _ _ Hs a s Ha) as [|Hfs]; [by left|right]. eapply field_slot_promoted; [|done]. auto.
  - intros a s [[<- <-]|[_ Ha]]%lookup_insert_Some HP; [set_solver|]. apply (sl_done _ _ _ _ _ Ht); [done|set_solver].
  - intros a s [[<- <-]|[_ Ha]]%lookup_insert_Some HP HR.
    + destruct (yo_slots Hok _ HR) as [_ (s & Hs' & _)]. destruct (co_mapped _ _ Hc n) as [w Hw]; [by eexists|]. congruence.
    + apply (sl_pending _ _ _ _ _ Ht); [done|set_solver|done].
  - intros u nu tu lu i s [[<- <-]|[Hne Hfu]]%lookup_insert_Some Hyu Hscu Hnin Hi.
    + rewrite Hy in Hyu. injection Hyu as <- <-. rewrite El in Hi. destruct i; [|done]. injection Hi as <-. rewrite Z.mul_0_r, Z.add_0_r. by rewrite lookup_insert_eq.
    + pose proof (sl_cover _ _ _ _ _ Hs _ _ _ _ _ _ Hfu Hyu Hscu Hnin Hi) as Hcov. rewrite lookup_insert_ne; [done|]. intros E. by eapply HSn.
  - apply (sl_raw _ _ _ _ _ Ht).
  - intros u k w a Hu Hyu Hk Ha. apply lookup_insert_is_Some'. right. by eapply (sl_stack _ _ _ _ _ Ht).
  - intros a Ha [HSa _]%lookup_insert_None Hw. by apply (sl_frame _ _ _ _ _ Ht).
Qed.
End Promotion.

(** ** Steps of the collector *)

(** Writing a word. *)
Definition poke (a w : Z) (st : oldify_state) : oldify_state := set_gh (set_words (<[a := w]> (words (gh st))) (gh st)) st.
Lemma put_Ret st a w : is_Some (words (gh st) !! a) -> write_word st a w = Ret (poke a w st).
Proof. intros [x Hx]. unfold write_word, store. rewrite Hx. done. Qed.
Lemma words_poke a w st : words (gh (poke a w st)) = <[a := w]> (words (gh st)).
Proof. done. Qed.
Lemma young_gh F T S P st v : inv F T S P st -> Is_block_and_young (gh st) v = Is_block_and_young h0 v.
Proof. intros [Hh _ _ _ _]. by rewrite Hh. Qed.
Lemma listed F m T head : chain F m T head -> forall u, u ∈ T -> is_Some (F !! u).
Proof.
  revert head. induction T as [|v T IH]; intros head Hch u Hu; [set_solver|].
  destruct Hch as (_ & n & t & l & s0 & next & Hf & _ & _ & _ & _ & _ & _ & _ & Hch). apply elem_of_cons in Hu as [->|Hu]; [by eexists|by eapply IH].
Qed.

Lemma inv_write F T S P st p s w : inv F T S P st -> S !! p = Some s -> image F s w -> inv F T S (P ∖ {[p]}) (poke p w st).
Proof.
  intros [Hh Hc Hs Hch Hn] Hp Him. split; rewrite ?words_poke; try done.
  - cbn. by rewrite Hh.
  - by eapply core_write.
  - by eapply slots_write.
  - cbn [todo_list poke set_gh]. by eapply chain_write.
Qed.
Lemma inv_put F T S P st p s w : inv F T S P st -> S !! p = Some s -> image F s w ->
  write_word st p w = Ret (poke p w st) /\ inv F T S (P ∖ {[p]}) (poke p w st).
Proof.
  intros Hi Hp Him. pose proof Hi as [_ Hc Hs _ _]. destruct (slot_major _ _ _ _ _ Hc Hs p s Hp) as [_ Hm]. split; [by apply put_Ret|by eapply inv_write].
Qed.
Lemma inv_register F T S P st a : inv F T S P st -> a ∈ R -> S !! a = None ->
  exists s, words h0 !! a = Some s /\ words (gh st) !! a = Some s /\ target s /\ inv F T (<[a := s]> S) (P ∪ {[a]}) st.
Proof.
  intros [Hh Hc Hs Hch Hn] Ha HS. destruct (yo_slots Hok _ Ha) as [Hmaj (s & Hw & Ht)]. exists s.
  pose proof (slots_register F T S P (words (gh st)) Hc Hs a s Ha Hw HS) as Hs'. split_and!; try done.
  eapply (sl_pending _ _ _ _ _ Hs'); [by rewrite lookup_insert_eq|set_solver|done].
Qed.

(** Headers. *)
Lemma Tag_hd_range hd : 0 <= Tag_hd hd < 256.
Proof. unfold Tag_hd, HEADER_TAG_MASK. change (2 ^ 8 - 1) with (Z.ones 8). rewrite Z.land_ones by lia. apply Z.mod_pos_bound. lia. Qed.
Lemma header_nonzero w : 1 <= Wosize_hd (u64 w) -> u64 w <> 0 /\ u64 w <> In_progress_update_val.
Proof.
  intros Hs. pose proof (wrap_range 64 w ltac:(lia)) as Hr. rewrite Wosize_hd_div in Hs by done. unfold In_progress_update_val.
  split; intros E; rewrite E in Hs; done.
Qed.
Lemma header_of v t l : Y !! v = Some (t, l) -> exists w, words h0 !! (v - 8) = Some w /\ Tag_hd (u64 w) = t /\
  Wosize_hd (u64 w) = Z.of_nat (length l) /\ u64 w <> 0 /\ u64 w <> In_progress_update_val.
Proof.
  intros Hy. pose proof (yo_size Hok _ _ _ Hy) as Hsz. destruct (yo_block Hok _ _ _ Hy) as [Ht Hs _]. unfold Tag_val, Wosize_val, Hd_val, load in *.
  destruct (words h0 !! (v - 8)) as [w|]; [|done]. cbn in Ht, Hs. injection Ht as Ht. injection Hs as Hs. exists w.
  split_and!; try done; apply header_nonzero; lia.
Qed.
Lemma field_of v t l i s : Y !! v = Some (t, l) -> l !! i = Some s -> words h0 !! (v + 8 * Z.of_nat i) = Some s.
Proof.
  intros Hy Hi. destruct (yo_block Hok _ _ _ Hy) as [_ _ Hf]. specialize (Hf i s Hi). unfold Field, load in Hf.
  destruct (words h0 !! _); [|done]. by injection Hf as ->.
Qed.
Lemma get_header_Ret h v w : words h !! (v - 8) = Some w -> u64 w <> In_progress_update_val -> get_header_val h v = Ret (u64 w).
Proof. intros Hw Hp. unfold get_header_val, Hd_val, load. rewrite Hw. cbn [of_option]. mred. by rewrite (proj2 (Z.eqb_neq _ _)). Qed.

(** [f] is the block [u], or an infix pointer into it. *)
Definition inside (u t : Z) (l : list Z) (off f : Z) : Prop :=
  Y !! u = Some (t, l) /\ (off = 0 /\ f = u \/ t = Closure_tag /\ exists i, infix_at u l i f /\ off = 8 * Z.of_nat (i + 1)).
Lemma target_inside f : target f -> young f -> exists u t l off, inside u t l off f.
Proof.
  intros Ht Hy. destruct (Ht Hy) as [[[t l] HY]|(v & l & i & HY & Hi)].
  - exists f, t, l, 0. split; [done|]. by left.
  - exists v, Closure_tag, l, (8 * Z.of_nat (i + 1)). split; [done|]. right. split; [done|]. by exists i.
Qed.
Lemma inside_image F u t l off f n : inside u t l off f -> F !! u = Some n -> image F f (n + off).
Proof.
  intros [HY [[-> ->]|(-> & i & Hi & ->)]] Hf; [rewrite Z.add_0_r; by apply image_block|]. by eapply image_infix.
Qed.
Lemma find_header_ok F m u t l off f : core F m -> inside u t l off f ->
  match F !! u with
  | Some n => find_header 3 (set_words m h0) f 0 = Ret (0, u, off)
  | None => exists hd, find_header 3 (set_words m h0) f 0 = Ret (hd, u, off) /\ hd <> 0 /\ Tag_hd hd = t /\ Wosize_hd hd = Z.of_nat (length l)
  end.
Proof.
  intros Hc [HY Hin]. pose proof (yo_size Hok _ _ _ HY) as Hsz. destruct (yo_tag Hok _ _ _ HY) as [Hni _].
  assert (forall k off, match F !! u with
    | Some n => find_header (Datatypes.S k) (set_words m h0) u off = Ret (0, u, off)
    | None => exists hd, find_header (Datatypes.S k) (set_words m h0) u off = Ret (hd, u, off) /\ hd <> 0 /\ Tag_hd hd = t /\ Wosize_hd hd = Z.of_nat (length l)
    end) as Hu.
  { intros k o. cbn [find_header]. destruct (F !! u) as [n|] eqn:Ef.
    - destruct (co_fwd _ _ Hc _ _ _ _ HY Ef) as (H0 & _). rewrite (get_header_Ret _ _ 0) by done. done.
    - destruct (header_of _ _ _ HY) as (w & Hw & Ht & Hs & Hz & Hp). exists (u64 w). rewrite (get_header_Ret _ _ w); [|cbn|done].
      2:{ rewrite (co_kept _ _ Hc _ _ _ _ HY Ef); [done|]. exists (-1). lia. }
      mred. rewrite (proj2 (Z.eqb_neq _ _)), Ht, (proj2 (Z.eqb_neq _ _)) by done. done. }
  destruct Hin as [[-> ->]|(-> & i & (Hi1 & Hi2 & -> & w & Hw & Htag & Hoff) & ->)]; [apply Hu|].
  pose proof (field_of _ _ _ _ _ HY Hw) as Hf. assert (m !! (u + 8 * Z.of_nat (i + 1) - 8) = Some w) as Hm.
  { replace (u + 8 * Z.of_nat (i + 1) - 8) with (u + 8 * Z.of_nat i) by lia. destruct (F !! u) as [n|] eqn:Ef.
    - destruct (co_fwd _ _ Hc _ _ _ _ HY Ef) as (_ & _ & H). rewrite H by lia. done.
    - rewrite (co_kept _ _ Hc _ _ _ _ HY Ef); [done|]. exists (Z.of_nat i). lia. }
  assert (1 <= Wosize_hd (u64 w)) as Hnz by (unfold Infix_offset_hd, Bosize_hd, Bsize_wsize in Hoff; lia). apply header_nonzero in Hnz as [Hz Hp].
  change 3%nat with (Datatypes.S 2). cbn [find_header]. rewrite (get_header_Ret (set_words m h0) _ w Hm Hp). mred. rewrite (proj2 (Z.eqb_neq _ _)), Htag, Z.eqb_refl, Hoff by done.
  replace (u + 8 * Z.of_nat (i + 1) - 8 * Z.of_nat (i + 1)) with u by lia. exact (Hu 1%nat _).
Qed.

(** ** Copies *)

(** A fresh block of the shared heap. *)
Record fresh_copy (n wo t : Z) (m m1 : gmap Z Z) : Prop := {
  fc_align : n mod 8 = 0;
  fc_free i : -1 <= i < wo -> m !! (n + 8 * i) = None /\ major_addr h0 (n + 8 * i) /\ is_Some (m1 !! (n + 8 * i));
  fc_header : exists hd, m1 !! (n - 8) = Some hd /\ Tag_hd (u64 hd) = t /\ Wosize_hd (u64 hd) = wo;
  fc_frame a : (forall i, -1 <= i < wo -> a <> n + 8 * i) -> m1 !! a = m !! a;
}.
(** The only failure: the shared heap has no room. *)
Definition exhausted (e : exn) : Prop :=
  e = Failure "allocation failure during minor GC" /\ exists h n, caml_shared_try_alloc h n = None.
Lemma alloc_shared_ok st wo t : gh st = set_words (words (gh st)) h0 -> 0 <= wo < 2 ^ 54 -> 0 <= t < 256 ->
  match alloc_shared st wo t with
  | Ret (n, st1) => exists m1, gh st1 = set_words m1 h0 /\ todo_list st1 = todo_list st /\ fresh_copy n wo t (words (gh st)) m1
  | Raise e => exhausted e
  | _ => False
  end.
Proof.
  intros Hh Hwo Ht. unfold alloc_shared. destruct (caml_alloc_shr (gh st) wo t) as [[n h]|e| | |] eqn:E; try done;
    try (unfold caml_alloc_shr in E; destruct (caml_shared_try_alloc _ _); discriminate E).
  2:{ split; [done|]. unfold caml_alloc_shr in E. destruct (caml_shared_try_alloc _ _) eqn:Ea; [done|]. by eexists _, _. }
  pose proof (caml_alloc_shr_fresh _ _ _ _ _ Hwo Ht E) as [Hal _ Hfree Htag Hsz Hmap Hframe]. unfold caml_alloc_shr in E.
  destruct (caml_shared_try_alloc (gh st) wo) as [hp|] eqn:Ea; [|done]. injection E as <- <-. pose proof (shared_major _ _ _ Ea) as Hmaj.
  eexists. split; [by cbn; rewrite Hh|]. split; [done|]. rewrite Hh in Hmaj. cbn in Hmaj. split; [done| | |].
  - intros i Hi. split; [by apply Hfree|]. split; [unfold major_addr; lia|].
    destruct (decide (i = -1)) as [->|]; [replace (hp + 8 + 8 * -1) with hp by lia; rewrite lookup_insert_eq; by eexists|].
    destruct (Hmap i) as (w & Hw & _); [lia|]. unfold Field, load in Hw. cbn [gh set_gh words set_words] in Hw. destruct (_ !! _) eqn:El; [|done]. by eexists.
  - unfold Tag_val, Wosize_val, Hd_val, load in Htag, Hsz. cbn [words set_words] in Htag, Hsz. destruct (_ !! (hp + 8 - 8)) as [hd|] eqn:El; [|done].
    cbn in Htag, Hsz. injection Htag as Htag. injection Hsz as Hsz. by exists hd.
  - intros a Ha. by apply Hframe.
Qed.

Definition forward_map (v n : Z) (m : gmap Z Z) : gmap Z Z := <[v := n]> (<[v - 8 := 0]> m).
Lemma try_update_Ret st v p n off : is_Some (words (gh st) !! (v - 8)) -> is_Some (words (gh st) !! v) -> is_Some (words (gh st) !! p) ->
  try_update_object_header st v p n off = Ret (poke p (n + off) (poke v n (poke (v - 8) 0 st))).
Proof.
  intros H1 H2 H3. unfold try_update_object_header. rewrite put_Ret by done. mred. rewrite put_Ret; [|by rewrite words_poke, lookup_insert_is_Some'; auto]. mred.
  apply put_Ret. rewrite !words_poke, !lookup_insert_is_Some'. auto.
Qed.

Section Promote.
Context (F : gmap Z Z) (T : list Z) (S : gmap Z Z) (P : gset Z) (st : oldify_state) (v t n : Z) (l : list Z) (m1 : gmap Z Z).
Hypothesis Hi : inv F T S P st.
Hypothesis Hy : Y !! v = Some (t, l).
Hypothesis Hv : F !! v = None.
Hypothesis Hn : fresh_copy n (Z.of_nat (length l)) t (words (gh st)) m1.

Lemma fresh_not_block i j : -1 <= i < Z.of_nat (length l) -> -1 <= j < Z.of_nat (length l) -> v + 8 * i <> n + 8 * j.
Proof.
  intros Hi1 Hj E. destruct (fc_free _ _ _ _ _ Hn j Hj) as (_ & Hmaj & _). rewrite <- E in Hmaj. eapply young_not_mapped; [exact Hy| |exact Hmaj]. by exists i.
Qed.
Lemma fresh_not_slot p s i : S !! p = Some s -> -1 <= i < Z.of_nat (length l) -> p <> n + 8 * i.
Proof.
  intros Hp Hr ->. destruct Hi as [_ Hc Hs _ _]. destruct (slot_major _ _ _ _ _ Hc Hs _ _ Hp) as [_ [w Hw]].
  destruct (fc_free _ _ _ _ _ Hn i Hr) as (Hf & _). congruence.
Qed.
(** The block and the slots are still there after the allocation. *)
Lemma block_after i : -1 <= i < Z.of_nat (length l) -> m1 !! (v + 8 * i) = words h0 !! (v + 8 * i).
Proof.
  intros Hr. rewrite (fc_frame _ _ _ _ _ Hn) by (intros j Hj; by apply fresh_not_block).
  eapply (co_kept _ _ (in_core _ _ _ _ _ Hi)); [done|done|]. by exists i.
Qed.
Lemma field0_after f : l !! 0%nat = Some f -> m1 !! v = Some f.
Proof.
  intros Hf. pose proof (block_after 0) as E. rewrite Z.mul_0_r, Z.add_0_r in E. rewrite E by (apply lookup_lt_Some in Hf; lia).
  pose proof (field_of _ _ _ _ _ Hy Hf) as H. by rewrite Z.mul_0_r, Z.add_0_r in H.
Qed.
Lemma young_block_mapped : is_Some (m1 !! (v - 8)) /\ is_Some (m1 !! v).
Proof.
  pose proof (yo_size Hok _ _ _ Hy). destruct (header_of _ _ _ Hy) as (w & Hw & _). destruct (lookup_lt_is_Some_2 l 0 ltac:(lia)) as [f Hf].
  pose proof (block_after (-1) ltac:(lia)) as E. replace (v + 8 * -1) with (v - 8) in E by lia. rewrite E, Hw, (field0_after f Hf). eauto.
Qed.
Lemma slot_after p s : S !! p = Some s -> m1 !! p = words (gh st) !! p.
Proof. intros Hp. apply (fc_frame _ _ _ _ _ Hn). intros i Hr. by eapply fresh_not_slot. Qed.

Lemma promoted_intro m2 : (forall a, (forall i, 0 <= i < Z.of_nat (length l) -> a <> n + 8 * i) -> m2 !! a = forward_map v n m1 !! a) ->
  (forall i, 0 <= i < Z.of_nat (length l) -> is_Some (m2 !! (n + 8 * i))) -> promoted v t l n (words (gh st)) m2.
Proof.
  intros Hout Hin. pose proof (yo_size Hok _ _ _ Hy) as Hsz. pose proof fresh_not_block as Hnb.
  assert (forall i, 0 <= i < Z.of_nat (length l) -> v - 8 <> n + 8 * i) as H1.
  { intros i Hr. specialize (Hnb (-1) i ltac:(lia) ltac:(lia)). lia. }
  assert (forall i, 0 <= i < Z.of_nat (length l) -> v <> n + 8 * i) as H2.
  { intros i Hr. specialize (Hnb 0 i ltac:(lia) ltac:(lia)). lia. }
  split.
  - intros i Hr. destruct (fc_free _ _ _ _ _ Hn i Hr) as (? & ? & _). done.
  - apply (fc_align _ _ _ _ _ Hn).
  - rewrite Hout by lia. unfold forward_map. pose proof (Hnb 0 (-1) ltac:(lia) ltac:(lia)). pose proof (Hnb (-1) (-1) ltac:(lia) ltac:(lia)).
    rewrite !lookup_insert_ne by lia. apply (fc_header _ _ _ _ _ Hn).
  - done.
  - rewrite Hout by done. unfold forward_map. rewrite lookup_insert_ne by lia. apply lookup_insert_eq.
  - rewrite Hout by done. apply lookup_insert_eq.
  - intros a Ha1 Ha2 Ha3. rewrite Hout by (intros i Hr; apply Ha3; lia). unfold forward_map. rewrite !lookup_insert_ne by done. by apply (fc_frame _ _ _ _ _ Hn).
Qed.

(** After the header is updated and the slot written, [st1] being the state after the allocation. *)
Context (st1 : oldify_state) (p s off : Z).
Hypothesis Hg1 : gh st1 = set_words m1 h0.
Hypothesis Ht1 : todo_list st1 = todo_list st.
Hypothesis Hp : S !! p = Some s.
Hypothesis Hfw : t = Forward_tag -> exists f, l = [f] /\ keeps_forward (contents_tag f) = true.
Hypothesis Him : image (<[v := n]> F) s (n + off).
Notation F' := (<[v := n]> F).
Definition updated : oldify_state := poke p (n + off) (poke v n (poke (v - 8) 0 st1)).
Lemma update_ok : try_update_object_header st1 v p n off = Ret updated.
Proof.
  destruct young_block_mapped as [H1 H2]. apply try_update_Ret; rewrite Hg1; [done|done|].
  change (is_Some (m1 !! p)). rewrite (slot_after p s Hp). destruct Hi as [_ Hc Hs _ _]. by eapply slot_major.
Qed.
Lemma words_updated : words (gh updated) = <[p := n + off]> (forward_map v n m1).
Proof. unfold updated. rewrite !words_poke, Hg1. done. Qed.
Lemma gh_updated : gh updated = set_words (words (gh updated)) h0.
Proof. unfold updated, poke. cbn [gh set_gh]. by rewrite Hg1. Qed.
Lemma copy_mapped i : 0 <= i < Z.of_nat (length l) -> is_Some (words (gh updated) !! (n + 8 * i)).
Proof.
  intros Hr. rewrite words_updated. unfold forward_map. rewrite !lookup_insert_is_Some'.
  destruct (fc_free _ _ _ _ _ Hn i ltac:(lia)) as (_ & _ & ?). auto.
Qed.

(** The final memory, whatever is written to the copy: [m2] without the slot. *)
Lemma finish_promote T' S' P' m2 head st2 : promoted v t l n (words (gh st)) m2 -> gh st2 = set_words (<[p := n + off]> m2) h0 ->
  slots F' T' S' P' m2 -> chain F' m2 T' head -> NoDup T' -> todo_list st2 = head -> S' !! p = Some s -> inv F' T' S' (P' ∖ {[p]}) st2.
Proof.
  intros Hpr Hg2 Hsl Hch Hnd <- Hp'. pose proof Hi as [_ Hc Hs _ _].
  pose proof (core_promote F _ m2 v t n l Hc Hy Hv Hfw Hpr) as Hc'.
  pose proof (inv_write F' T' S' P' (mkOldify (set_words m2 h0) (todo_list st2) (live_bytes st2) (allocated_words st2)) p s (n + off)) as Hw.
  destruct Hw as [Hw1 Hw2 Hw3 Hw4 Hw5]; [by split|done|done|]. split; rewrite ?Hg2; try done.
Qed.

Lemma promote_todo f : l !! 0%nat = Some f -> (2 <= length l)%nat -> t < Infix_tag -> scanned t ->
  exists st2, (st ← write_word updated n f; st ← write_word st (n + 8) (todo_list st); Ret (set_todo v st)) = Ret st2 /\ inv F' (v :: T) S (P ∖ {[p]}) st2.
Proof.
  intros Hf Hlen Hti Hsc. pose proof (copy_mapped 0 ltac:(lia)) as H0. pose proof (copy_mapped 1 ltac:(lia)) as H1. rewrite Z.mul_0_r, Z.add_0_r in H0. rewrite Z.mul_1_r in H1.
  rewrite put_Ret by done. mred. rewrite put_Ret by (rewrite words_poke, lookup_insert_is_Some'; auto). mred. eexists. split; [reflexivity|].
  pose proof (fresh_not_slot p s 0 Hp ltac:(lia)) as Hp0. pose proof (fresh_not_slot p s 1 Hp ltac:(lia)) as Hp1.
  set (m2 := <[n + 8 := todo_list st]> (<[n := f]> (forward_map v n m1))).
  assert (promoted v t l n (words (gh st)) m2) as Hpr.
  { apply promoted_intro.
    - intros a Ha. unfold m2. rewrite !lookup_insert_ne; [done| |]; [specialize (Ha 0)|specialize (Ha 1)]; lia.
    - intros i Hr. unfold m2, forward_map. rewrite !lookup_insert_is_Some'. destruct (fc_free _ _ _ _ _ Hn i ltac:(lia)) as (_ & _ & ?). auto. }
  pose proof Hi as [_ Hc Hs Hch Hnd]. pose proof (listed _ _ _ _ Hch) as HT.
  eapply (finish_promote _ _ _ m2 v); try done.
  - pose proof gh_updated as Hgu. rewrite words_updated in Hgu. unfold set_todo, poke. cbn [gh set_gh]. rewrite Hgu. unfold set_words, m2. cbn. f_equal.
    rewrite Ht1.
    rewrite (insert_insert_ne _ n p) by lia. rewrite (insert_insert_ne _ (n + 8) p) by lia. done.
  - by eapply slots_promote_todo.
  - split; [done|]. exists n, t, l, f, (todo_list st). unfold m2. rewrite lookup_insert_eq, (lookup_insert_ne _ (n + 8) n), !lookup_insert_eq by lia.
    split_and!; try done. by eapply (chain_promote F _ m2).
  - apply NoDup_cons. split; [|done]. intros Hin%HT. rewrite Hv in Hin. by destruct Hin.
Qed.
Lemma promote_single f : l = [f] -> scanned t -> inv F' T (<[n := f]> S) ((P ∪ {[n]}) ∖ {[p]}) updated.
Proof.
  intros Hl Hsc. pose proof Hi as [_ Hc Hs Hch Hnd]. pose proof (listed _ _ _ _ Hch) as HT. set (m2 := forward_map v n m1).
  assert (promoted v t l n (words (gh st)) m2) as Hpr.
  { apply promoted_intro; [done|]. intros i Hr. unfold m2, forward_map. rewrite !lookup_insert_is_Some'. destruct (fc_free _ _ _ _ _ Hn i ltac:(lia)) as (_ & _ & ?). auto. }
  eapply (finish_promote _ _ _ m2); try done.
  - by rewrite gh_updated, words_updated.
  - by eapply slots_promote_single.
  - by eapply (chain_promote F _ m2).
  - rewrite lookup_insert_ne; [done|]. pose proof (fresh_not_slot p s 0 Hp ltac:(rewrite Hl; cbn; lia)). lia.
Qed.

(** A block copied as it is, before the update. *)
Lemma promote_raw : ~ scanned t -> t <> Cont_tag -> (forall i w, l !! i = Some w -> m1 !! (n + 8 * Z.of_nat i) = Some w) ->
  inv F' T S (P ∖ {[p]}) updated.
Proof.
  intros Hns Hnc Hraw. pose proof Hi as [_ Hc Hs Hch Hnd]. pose proof (listed _ _ _ _ Hch) as HT. set (m2 := forward_map v n m1).
  assert (forall i w, l !! i = Some w -> m2 !! (n + 8 * Z.of_nat i) = Some w) as Hraw2.
  { intros i w Hw. pose proof (lookup_lt_Some _ _ _ Hw). pose proof (yo_size Hok _ _ _ Hy). unfold m2, forward_map.
    pose proof (fresh_not_block 0 (Z.of_nat i) ltac:(lia) ltac:(lia)). pose proof (fresh_not_block (-1) (Z.of_nat i) ltac:(lia) ltac:(lia)).
    rewrite !lookup_insert_ne by lia. by apply Hraw. }
  assert (promoted v t l n (words (gh st)) m2) as Hpr.
  { apply promoted_intro; [done|]. intros i Hr. destruct (lookup_lt_is_Some_2 l (Z.to_nat i) ltac:(lia)) as [w Hw].
    apply Hraw2 in Hw. rewrite Z2Nat.id in Hw by lia. by eexists. }
  eapply (finish_promote _ _ _ m2); try done.
  - by rewrite gh_updated, words_updated.
  - by eapply slots_promote_raw.
  - by eapply (chain_promote F _ m2).
Qed.
(** A continuation, after the update. *)
Lemma promote_cont k w : t = Cont_tag -> l = [k; w] -> (k <> 1 -> forall a, a ∈ stack_slots (Ptr_val k) -> is_Some (S !! a)) ->
  exists st2, (st ← write_word updated n k; w ← Field (gh st) v 1; write_word st (n + 8) w) = Ret st2 /\ inv F' T S (P ∖ {[p]}) st2.
Proof.
  intros Ht Hl Hstk. assert (length l = 2%nat) as Hlen by (by rewrite Hl).
  pose proof (copy_mapped 0 ltac:(lia)) as H0. pose proof (copy_mapped 1 ltac:(lia)) as H1. rewrite Z.mul_0_r, Z.add_0_r in H0. rewrite Z.mul_1_r in H1.
  pose proof (fresh_not_slot p s 0 Hp ltac:(lia)) as Hp0. pose proof (fresh_not_slot p s 1 Hp ltac:(lia)) as Hp1.
  pose proof (fresh_not_block 1 0 ltac:(lia) ltac:(lia)) as Hv0. pose proof (fresh_not_block 1 1 ltac:(lia) ltac:(lia)) as Hv1.
  pose proof Hi as [_ Hc Hs Hch Hnd]. pose proof (listed _ _ _ _ Hch) as HT.
  assert (p <> v + 8 * 1) as Hpv.
  { intros ->. destruct (slot_major _ _ _ _ _ Hc Hs _ _ Hp) as [Hmaj _]. eapply young_not_mapped; [exact Hy| |exact Hmaj]. exists 1. lia. }
  rewrite put_Ret by done. mred. unfold Field, load. rewrite words_poke, words_updated. unfold forward_map.
  rewrite !lookup_insert_ne, block_after by lia.
  pose proof (field_of v t l 1 w Hy ltac:(by rewrite Hl)) as Hw. change (8 * Z.of_nat 1) with (8 * 1) in Hw. rewrite Hw. cbn [of_option]. mred.
  rewrite put_Ret by (rewrite words_poke, lookup_insert_is_Some'; auto). eexists. split; [reflexivity|].
  set (m2 := <[n + 8 := w]> (<[n := k]> (forward_map v n m1))).
  assert (promoted v t l n (words (gh st)) m2) as Hpr.
  { apply promoted_intro.
    - intros a Ha. unfold m2. rewrite !lookup_insert_ne; [done| |]; [specialize (Ha 0)|specialize (Ha 1)]; lia.
    - intros i Hr. unfold m2, forward_map. rewrite !lookup_insert_is_Some'. destruct (fc_free _ _ _ _ _ Hn i ltac:(lia)) as (_ & _ & ?). auto. }
  eapply (finish_promote _ _ _ m2); try done.
  - pose proof gh_updated as Hgu. rewrite words_updated in Hgu. unfold poke. cbn [gh set_gh]. rewrite Hgu. unfold set_words, m2. cbn. f_equal.
    rewrite (insert_insert_ne _ n p) by lia. rewrite (insert_insert_ne _ (n + 8) p) by lia. done.
  - eapply slots_promote_raw; try done.
    + intros [_ Hne]. done.
    + intros i x Hx. rewrite Hl in Hx. unfold m2. destruct i as [|[|i]]; cbn in Hx; [injection Hx as <-|injection Hx as <-|done].
      * rewrite Z.mul_0_r, Z.add_0_r, lookup_insert_ne, lookup_insert_eq by lia. done.
      * replace (n + 8 * Z.of_nat 1) with (n + 8) by lia. by rewrite lookup_insert_eq.
    + intros _ k' w' a Hl' Hk Ha. rewrite Hl in Hl'. injection Hl' as <- <-. by apply Hstk.
  - by eapply (chain_promote F _ m2).
Qed.
End Promote.

(** [copy_fields] copies the fields. *)
Lemma copy_fields_ok l : forall st src dst, (forall i w, l !! i = Some w -> words (gh st) !! (src + 8 * Z.of_nat i) = Some w) ->
  (forall i, 0 <= i < Z.of_nat (length l) -> is_Some (words (gh st) !! (dst + 8 * i))) ->
  (forall i j, 0 <= i < Z.of_nat (length l) -> 0 <= j < Z.of_nat (length l) -> src + 8 * i <> dst + 8 * j) ->
  exists m, copy_fields (length l) st src dst = Ret (set_gh (set_words m (gh st)) st) /\
    (forall i w, l !! i = Some w -> m !! (dst + 8 * Z.of_nat i) = Some w) /\
    (forall a, (forall i, 0 <= i < Z.of_nat (length l) -> a <> dst + 8 * i) -> m !! a = words (gh st) !! a).
Proof.
  induction l as [|w l IH]; intros st src dst Hsrc Hdst Hdis; cbn [length copy_fields].
  { exists (words (gh st)). split_and!; try done. by destruct st as [[] ? ? ?]. }
  cbn [length] in *. pose proof (Hsrc 0%nat w eq_refl) as H0. rewrite Z.mul_0_r, Z.add_0_r in H0. unfold load. rewrite H0. cbn [of_option]. mred.
  pose proof (Hdst 0 ltac:(lia)) as D0. rewrite Z.mul_0_r, Z.add_0_r in D0. rewrite put_Ret by done. mred.
  pose proof (Hdis 0 0 ltac:(lia) ltac:(lia)) as Hd0.
  destruct (IH (poke dst w st) (src + 8) (dst + 8)) as (m & E & Hm & Hfr).
  - intros i x Hx. rewrite words_poke. pose proof (lookup_lt_Some _ _ _ Hx). pose proof (Hdis (Z.of_nat i + 1) 0 ltac:(lia) ltac:(lia)).
    rewrite lookup_insert_ne by lia. specialize (Hsrc (Datatypes.S i) x Hx). by replace (src + 8 + 8 * Z.of_nat i) with (src + 8 * Z.of_nat (Datatypes.S i)) by lia.
  - intros i Hi. rewrite words_poke, lookup_insert_is_Some'. right. replace (dst + 8 + 8 * i) with (dst + 8 * (i + 1)) by lia. apply Hdst. lia.
  - intros i j Hi Hj. pose proof (Hdis (i + 1) (j + 1) ltac:(lia) ltac:(lia)). lia.
  - exists m. split; [exact E|]. split.
    + intros [|i] x Hx; cbn in Hx.
      * injection Hx as <-. rewrite Hfr, words_poke by lia. rewrite Z.mul_0_r, Z.add_0_r. by rewrite lookup_insert_eq.
      * specialize (Hm i x Hx). by replace (dst + 8 * Z.of_nat (Datatypes.S i)) with (dst + 8 + 8 * Z.of_nat i) by lia.
    + intros a Ha. rewrite Hfr, words_poke.
      * rewrite lookup_insert_ne; [done|]. specialize (Ha 0). lia.
      * intros i Hi. specialize (Ha (i + 1)). lia.
Qed.

Lemma forward_tag_ok F T S P st v f : inv F T S P st -> Y !! v = Some (Forward_tag, [f]) -> forward_tag (gh st) f = Ret (contents_tag f).
Proof.
  intros Hi Hy. pose proof Hi as [Hh Hc Hs _ _]. rewrite Hh. unfold forward_tag, contents_tag. destruct (Is_block f) eqn:Eb; [|done].
  set (m := words (gh st)) in *.
  assert (target f) as Ht by (eapply (yo_fields Hok); [done|by split|set_solver]).
  assert (forall w, m !! (f - 8) = Some w -> words h0 !! (f - 8) = Some w -> u64 w <> 0 -> u64 w <> In_progress_update_val ->
    (hd ← get_header_val (set_words m h0) f; if hd =? 0 then r ← Field (set_words m h0) f 0; Tag_val (set_words m h0) r else Tag_val (set_words m h0) f) =
    Ret match words h0 !! (f - 8) with Some w => Tag_hd (u64 w) | None => 0 end) as Hsame.
  { intros w Hm Hw Hz Hp. rewrite (get_header_Ret (set_words m h0) f w Hm Hp). mred. rewrite (proj2 (Z.eqb_neq _ _)), Hw by done.
    unfold Tag_val, Hd_val, load. cbn [words set_words]. by rewrite Hm. }
  destruct (Is_young h0 f) eqn:Ey.
  - destruct (target_inside f Ht) as (u & t & l & off & Hin); [unfold young, Is_block_and_young; by rewrite Eb, Ey|].
    destruct Hin as [HY [[-> ->]|(-> & i & (Hi1 & Hi2 & -> & w & Hw & Htag & Hoff) & ->)]].
    + pose proof (yo_size Hok _ _ _ HY). destruct (header_of _ _ _ HY) as (w & Hw & Htw & Hsw & Hz & Hp). destruct (F !! u) as [n|] eqn:Ef.
      * destruct (co_fwd _ _ Hc _ _ _ _ HY Ef) as (H0 & Hfd & _). destruct (co_header _ _ Hc _ _ _ _ HY Ef) as (hd & Hhd & Hthd & _).
        rewrite (get_header_Ret (set_words m h0) u 0 H0) by done. mred. change (u64 0 =? 0) with true. cbn iota.
        unfold Field, Tag_val, Hd_val, load. cbn [words set_words]. rewrite Z.mul_0_r, Z.add_0_r, Hfd. cbn [of_option]. mred. rewrite Hhd. cbn [of_option]. mred.
        rewrite Hw. congruence.
      * apply (Hsame w); try done. rewrite (co_kept _ _ Hc _ _ _ _ HY Ef); [done|]. exists (-1). lia.
    + pose proof (field_of _ _ _ _ _ HY Hw) as Hf. replace (u + 8 * Z.of_nat i) with (u + 8 * Z.of_nat (i + 1) - 8) in Hf by lia.
      assert (1 <= Wosize_hd (u64 w)) as Hnz by (unfold Infix_offset_hd, Bosize_hd, Bsize_wsize in Hoff; lia). apply header_nonzero in Hnz as [Hz Hp].
      apply (Hsame w); try done. rewrite <- Hf. replace (u + 8 * Z.of_nat (i + 1) - 8) with (u + 8 * Z.of_nat i) by lia. destruct (F !! u) as [n|] eqn:Ef.
      * destruct (co_fwd _ _ Hc _ _ _ _ HY Ef) as (_ & _ & H). apply H. lia.
      * rewrite (co_kept _ _ Hc _ _ _ _ HY Ef); [done|]. exists (Z.of_nat i). lia.
  - destruct (yo_forward Hok v f Hy Eb Ey) as (HR & Hmaj & w & Hw & Hz & Hp). apply (Hsame w); try done. rewrite <- Hw.
    apply (sl_frame _ _ _ _ _ Hs); [done| |by eexists]. destruct (S !! (f - 8)) as [s|] eqn:ES; [|done]. exfalso.
    destruct (sl_slot _ _ _ _ _ Hs _ _ ES) as [[HR' _]|(u & n & t & l & i & Hf & Hyu & Hli & E & _)]; [done|].
    destruct (co_copy _ _ Hc _ _ _ _ Hyu Hf) as [_ Hn]. apply lookup_lt_Some in Hli. destruct (Hn (Z.of_nat i) ltac:(lia)) as (Hnone & _). congruence.
Qed.

(** ** [oldify_one] *)

(** The blocks still to be copied. *)
Definition left (F : gmap Z Z) : nat := size Y - size F.
Lemma left_promote F v n m : core (<[v := n]> F) m -> F !! v = None -> left F = Datatypes.S (left (<[v := n]> F)).
Proof.
  intros Hc Hv. unfold left. rewrite map_size_insert_None by done.
  assert (size (<[v := n]> F) <= size Y)%nat as Hle.
  { rewrite <- !size_dom. apply subseteq_size. intros u [nu Hu]%elem_of_dom. destruct (co_dom _ _ Hc _ _ Hu) as (t & l & Hy & _). apply elem_of_dom. by eexists. }
  rewrite map_size_insert_None in Hle by done. lia.
Qed.
(** What a step of the collector does: it ends with the invariant, or stops because the shared
    heap is full; the slots [l] have their images, the others are as they were. *)
Definition step_ok (F : gmap Z Z) (T : list Z) (S : gmap Z Z) (P : gset Z) (l : list Z) (r : result oldify_state) : Prop :=
  match r with
  | Ret st => exists F' T' S' P', inv F' T' S' P' st /\ F ⊆ F' /\ S ⊆ S' /\ P' ⊆ P ∖ list_to_set l /\
      (forall p, p ∈ l -> is_Some (S' !! p)) /\ (left F' + length T' <= left F + length T)%nat /\ (left F' <= left F)%nat
  | Raise e => exhausted e
  | _ => False
  end.
(** A value with the same images as the source of the slot. *)
Definition stands_for (F : gmap Z Z) (v s : Z) : Prop := forall F' w m, core F' m -> F ⊆ F' -> image F' v w -> image F' s w.
Lemma stands_for_mono F F' v s : F ⊆ F' -> stands_for F v s -> stands_for F' v s.
Proof. intros Hsub H F2 w m Hc Hs. apply (H F2 w m Hc). by etrans. Qed.
Lemma stands_for_refl F v : stands_for F v v.
Proof. by intros F' w m _ _. Qed.

Lemma step_seq F T S P l1 l2 r f :
  step_ok F T S P l1 r ->
  (forall st F' T' S' P', inv F' T' S' P' st -> F ⊆ F' -> S ⊆ S' -> (left F' <= left F)%nat -> step_ok F' T' S' P' l2 (f st)) ->
  step_ok F T S P (l1 ++ l2) (r ≫= f).
Proof.
  intros Hr Hf. destruct r as [st| | | |]; try done. destruct Hr as (F1 & T1 & S1 & P1 & Hi & HF & HS & HP & Hl & Hm & Hm'). mred.
  specialize (Hf st F1 T1 S1 P1 Hi HF HS Hm'). destruct (f st) as [st2| | | |]; try done.
  destruct Hf as (F2 & T2 & S2 & P2 & Hi2 & HF2 & HS2 & HP2 & Hl2 & Hm2 & Hm2'). exists F2, T2, S2, P2. split_and!; try done; try lia.
  - by etrans.
  - by etrans.
  - rewrite list_to_set_app. set_solver.
  - intros p [Hp|Hp]%elem_of_app; [|by apply Hl2]. destruct (Hl p Hp) as [s Hs]. exists s. by eapply lookup_weaken.
Qed.

(** A slot is registered if needed, and holds a value that stands for its source. *)
Lemma slot_value F T S P st p : inv F T S P st -> p ∈ R -> exists v s S' P', words (gh st) !! p = Some v /\ inv F T S' P' st /\
  S ⊆ S' /\ P' ⊆ P ∪ {[p]} /\ S' !! p = Some s /\ target v /\ stands_for F v s.
Proof.
  intros Hi Hp. destruct (S !! p) as [s|] eqn:Es.
  - pose proof Hi as [_ Hc Hs _ _]. destruct (decide (p ∈ P)) as [HP|HP].
    + exists s, s, S, P. pose proof (sl_pending _ _ _ _ _ Hs _ _ Es HP Hp). pose proof (sl_target _ _ _ _ _ Hs _ _ Es).
      split_and!; try done; try apply stands_for_refl; try set_solver; reflexivity.
    + destruct (sl_done _ _ _ _ _ Hs _ _ Es HP) as (w & Hw & Him). pose proof (image_not_young _ _ _ _ Hc Him) as Hny.
      exists w, s, S, P. split_and!; try done; [set_solver|by intros Hyw|]. intros F' w' m' Hc' Hsub Him'.
      rewrite (image_other_inv _ _ _ _ Hc' Hny Him'). by eapply image_mono.
  - destruct (inv_register _ _ _ _ _ _ Hi Hp Es) as (s & Hw0 & Hw & Ht & Hi'). exists s, s, (<[p := s]> S), (P ∪ {[p]}).
    rewrite lookup_insert_eq. split_and!; try done; try apply stands_for_refl; by apply insert_subseteq.
Qed.

(** Scanning a list of slots, with a function that oldifies a value. *)
Section Scan.
Context (f : oldify_state -> Z -> Z -> result oldify_state) (k : nat).
Hypothesis Hf : forall F T S P st p s v, inv F T S P st -> S !! p = Some s -> target v -> stands_for F v s -> (left F <= k)%nat ->
  step_ok F T S P [p] (f st v p).

Lemma scan_slots_ok l : forall F T S P st, inv F T S P st -> (forall p, p ∈ l -> p ∈ R) -> (left F <= k)%nat -> step_ok F T S P l (scan_slots f l st).
Proof.
  induction l as [|p l IH]; intros F T S P st Hi Hl Hk; cbn [scan_slots].
  { exists F, T, S, P. split_and!; try done; set_solver. }
  destruct (slot_value F T S P st p Hi) as (v & s & S1 & P1 & Hv & Hi1 & HS1 & HP1 & Hs1 & Ht & Hst); [apply Hl; set_solver|].
  unfold load. rewrite Hv. cbn [of_option]. mred. assert (step_ok F T S1 P1 ([p] ++ l) (f st v p ≫= scan_slots f l)) as Hstep.
  { apply step_seq; [by eapply Hf|]. intros st' F' T' S' P' Hi' HF HS' Hle. apply IH; [done|intros q Hq; apply Hl; set_solver|lia]. }
  change (λ st : oldify_state, scan_slots f l st) with (scan_slots f l). destruct (f st v p ≫= scan_slots f l) as [st'| | | |]; try done.
  destruct Hstep as (F2 & T2 & S2 & P2 & Hi2 & HF2 & HS2 & HP2 & Hl2 & Hm2 & Hm2'). exists F2, T2, S2, P2. split_and!; try done.
  - by etrans.
  - cbn [list_to_set app] in *. set_solver.
Qed.
Lemma fixed_word F T S P st a w : inv F T S P st -> fixed a w -> words (gh st) !! a = Some w.
Proof.
  intros [_ Hc Hs _ _] (Hw & Hmaj & HR). rewrite (sl_frame _ _ _ _ _ Hs); [done|done| |by eexists]. destruct (S !! a) as [s|] eqn:E; [|done]. exfalso.
  destruct (sl_slot _ _ _ _ _ Hs _ _ E) as [[? _]|(v & n & t & l & i & Hv & Hy & Hi & -> & _)]; [done|].
  destruct (co_copy _ _ Hc _ _ _ _ Hy Hv) as [_ Hn]. apply lookup_lt_Some in Hi. destruct (Hn (Z.of_nat i) ltac:(lia)) as (E1 & _). congruence.
Qed.
Lemma scan_handler_ok stk handler off F T S P st : fixed (stk + 16) handler -> handler + off ∈ R -> inv F T S P st -> (left F <= k)%nat ->
  step_ok F T S P [handler + off] (scan_handler f stk off st).
Proof.
  intros Hh HR Hi Hk. unfold scan_handler, stack_handler, load. rewrite (fixed_word _ _ _ _ _ _ _ Hi Hh). cbn [of_option]. mred.
  apply scan_slots_ok; [done|by intros p ->%list_elem_of_singleton|done].
Qed.
Lemma scan_stacks_ok n stk ls : stack_at n stk ls -> forall F T S P st, inv F T S P st -> (forall p, p ∈ ls -> p ∈ R) -> (left F <= k)%nat ->
  step_ok F T S P ls (scan_stacks n f stk st).
Proof.
  induction 1 as [n|n stk sp handler parent ls Hnz Hsp Hh Hpa Hst IH]; intros F T S P st Hi Hl Hk.
  { destruct n; exists F, T, S, P; split_and!; try done; set_solver. }
  cbn [scan_stacks]. rewrite (proj2 (Z.eqb_neq _ _)) by done. unfold stack_handler at 1, stack_sp, load.
  rewrite (fixed_word _ _ _ _ _ _ _ Hi Hh), (fixed_word _ _ _ _ _ _ _ Hi Hsp). cbn [of_option]. mred.
  assert (forall p, p ∈ [handler; handler + 8; handler + 16] -> p ∈ R) as Hh3 by (intros p Hp; apply Hl; rewrite !elem_of_app; tauto).
  apply step_seq; [apply scan_slots_ok; [done| |done]; intros p Hp; apply Hl; rewrite !elem_of_app; tauto|].
  intros st1 F1 T1 S1 P1 Hi1 _ _ Hle1. change ([handler; handler + 8; handler + 16] ++ ls) with ([handler] ++ [handler + 8] ++ [handler + 16] ++ ls).
  apply step_seq; [rewrite <- (Z.add_0_r handler) at 1; apply scan_handler_ok; [done|rewrite Z.add_0_r; apply Hh3; by left|done|lia]|].
  intros st2 F2 T2 S2 P2 Hi2 _ _ Hle2. apply step_seq; [apply scan_handler_ok; [done|apply Hh3; by right; left|done|lia]|].
  intros st3 F3 T3 S3 P3 Hi3 _ _ Hle3. apply step_seq; [apply scan_handler_ok; [done|apply Hh3; by right; right; left|done|lia]|].
  intros st4 F4 T4 S4 P4 Hi4 _ _ Hle4. unfold Stack_parent, stack_handler, load. rewrite (fixed_word _ _ _ _ _ _ _ Hi4 Hh). cbn [of_option]. mred.
  rewrite (fixed_word _ _ _ _ _ _ _ Hi4 Hpa). cbn [of_option]. mred. apply IH; [done| |lia]. intros p Hp. apply Hl. rewrite !elem_of_app. tauto.
Qed.
Lemma scan_stack_ok stk F T S P st : stack_ok stk -> inv F T S P st -> (left F <= k)%nat -> step_ok F T S P (stack_slots stk) (caml_scan_stack f stk st).
Proof. intros [Hst Hl] Hi Hk. by apply scan_stacks_ok. Qed.
End Scan.

Lemma step_after F T S P l F' T' S' P' l' r : step_ok F' T' S' P' l' r -> F ⊆ F' -> S ⊆ S' -> P' ∖ list_to_set l' ⊆ P ∖ list_to_set l ->
  (forall p, p ∈ l -> is_Some (S' !! p)) -> (left F' + length T' <= left F + length T)%nat -> (left F' <= left F)%nat -> step_ok F T S P l r.
Proof.
  intros Hr HF HS HP Hl Hm Hm'. destruct r as [st| | | |]; try done.
  destruct Hr as (F2 & T2 & S2 & P2 & Hi2 & HF2 & HS2 & HP2 & Hl2 & Hm2 & Hm2'). exists F2, T2, S2, P2. split_and!; try done; try lia.
  - by etrans.
  - by etrans.
  - set_solver.
  - intros p Hp. destruct (Hl p Hp) as [s Hs]. exists s. by eapply lookup_weaken.
Qed.
Lemma step_leaf F T S P p s F' T' st : inv F' T' S (P ∖ {[p]}) st -> S !! p = Some s -> F ⊆ F' ->
  (left F' + length T' <= left F + length T)%nat -> (left F' <= left F)%nat -> step_ok F T S P [p] (Ret st).
Proof.
  intros Hi Hp HF Hm Hm'. exists F', T', S, (P ∖ {[p]}). split_and!; try done; cbn.
  - set_solver.
  - intros q ->%list_elem_of_singleton. by eexists.
Qed.

(** The slots of a stack are registered before they are scanned. *)
Lemma register_all ls : forall F T S P st, inv F T S P st -> (forall a, a ∈ ls -> a ∈ R) ->
  exists S' P', inv F T S' P' st /\ S ⊆ S' /\ P' ⊆ P ∪ list_to_set ls /\ forall a, a ∈ ls -> is_Some (S' !! a).
Proof.
  induction ls as [|a ls IH]; intros F T S P st Hi Hl.
  { exists S, P. split_and!; try done; [clear; set_solver|]. intros a Ha. by apply not_elem_of_nil in Ha. }
  assert (exists S1 P1, inv F T S1 P1 st /\ S ⊆ S1 /\ P1 ⊆ P ∪ {[a]} /\ is_Some (S1 !! a)) as (S1 & P1 & Hi1 & HS1 & HP1 & Ha1).
  { destruct (S !! a) as [s|] eqn:E.
    - exists S, P. split_and!; try done. clear. set_solver.
    - destruct (inv_register _ _ _ _ _ a Hi) as (s & _ & _ & _ & Hi'); [apply Hl; left|done|].
      exists (<[a := s]> S), (P ∪ {[a]}). split_and!; try done; [by apply insert_subseteq|by rewrite lookup_insert_eq]. }
  destruct (IH F T S1 P1 st Hi1) as (S2 & P2 & Hi2 & HS2 & HP2 & Hl2); [intros b Hb; apply Hl; by right|].
  exists S2, P2. split_and!; try done; [by etrans|cbn [list_to_set]; clear -HP1 HP2; set_solver|].
  intros b [->|Hb]%elem_of_cons; [|by apply Hl2]. destruct Ha1 as [s Hs]. exists s. by eapply lookup_weaken.
Qed.

(** The cases of [oldify_one]: [v] is in the block [u], not forwarded yet. *)
Section Cases.
Context (oldify : oldify_state -> Z -> Z -> result oldify_state) (k : nat).
Hypothesis Hold : forall F T S P st p s v, inv F T S P st -> S !! p = Some s -> target v -> stands_for F v s -> (left F <= k)%nat ->
  step_ok F T S P [p] (oldify st v p).
Context (F : gmap Z Z) (T : list Z) (S : gmap Z Z) (P : gset Z) (st : oldify_state) (p s v u t off hd : Z) (l : list Z).
Hypothesis Hi : inv F T S P st.
Hypothesis Hp : S !! p = Some s.
Hypothesis Hst : stands_for F v s.
Hypothesis Hin : inside u t l off v.
Hypothesis Hu : F !! u = None.
Hypothesis Hk : (left F <= Datatypes.S k)%nat.
Hypothesis Htag : Tag_hd hd = t.
Hypothesis Hsize : Wosize_hd hd = Z.of_nat (length l).

Lemma inv_live n : inv F T S P (add_live n st).
Proof. by destruct Hi. Qed.
(** The copy of [u], and what follows its allocation. *)
Lemma copy_step n st1 m1 : gh st1 = set_words m1 h0 -> todo_list st1 = todo_list st -> fresh_copy n (Z.of_nat (length l)) t (words (gh st)) m1 ->
  (t = Forward_tag -> exists f, l = [f] /\ keeps_forward (contents_tag f) = true) ->
  core (<[u := n]> F) (forward_map u n m1) /\ image (<[u := n]> F) s (n + off) /\ left F = Datatypes.S (left (<[u := n]> F)) /\ F ⊆ <[u := n]> F.
Proof.
  clear Hold Hk Htag Hsize. intros Hg1 Ht1 Hn Hfw. pose proof Hi as [_ Hc Hs _ _]. destruct Hin as [HY _].
  assert (core (<[u := n]> F) (forward_map u n m1)) as Hc'.
  { eapply core_promote; try done. eapply promoted_intro; try done. intros i Hr. unfold forward_map. rewrite !lookup_insert_is_Some'.
    destruct (fc_free _ _ _ _ _ Hn i ltac:(lia)) as (_ & _ & ?). auto. }
  assert (F ⊆ <[u := n]> F) as Hsub by (by apply insert_subseteq). split_and!; try done.
  - apply (Hst _ _ _ Hc' Hsub). eapply inside_image; [done|]. apply lookup_insert_eq.
  - by eapply left_promote.
Qed.

(** The field of a block of one field is oldified next. *)
Lemma single_step n f st2 : inv (<[u := n]> F) T (<[n := f]> S) ((P ∪ {[n]}) ∖ {[p]}) st2 ->
  left F = Datatypes.S (left (<[u := n]> F)) -> F ⊆ <[u := n]> F ->
  forall m1, fresh_copy n (Z.of_nat (length l)) t (words (gh st)) m1 -> target f -> step_ok F T S P [p] (oldify st2 f n).
Proof.
  intros Hi2 Hleft Hsub m1 Hn Htf. pose proof Hin as [HY _]. pose proof (yo_size Hok _ _ _ HY) as Hsz.
  assert (S !! n = None) as HSn.
  { destruct (S !! n) as [x|] eqn:E; [|done]. pose proof (fresh_not_slot F T S P st t n l m1 Hi Hn n x 0 E ltac:(lia)). lia. }
  eapply step_after; [apply (Hold _ _ _ _ _ n f f Hi2)|..]; try done; try lia.
  - apply lookup_insert_eq.
  - apply stands_for_refl.
  - by apply insert_subseteq.
  - cbn. clear. set_solver.
  - intros q ->%list_elem_of_singleton. apply lookup_insert_is_Some'. right. by eexists.
Qed.
Lemma oldify_scanned_ok : t < Infix_tag -> t <> Cont_tag -> step_ok F T S P [p] (oldify_scanned oldify st hd u p off).
Proof.
  intros Ht Htc. pose proof Hin as [HY _]. pose proof (yo_size Hok _ _ _ HY) as Hsz. unfold oldify_scanned.
  assert (scanned t) as Hsc by (split; [unfold No_scan_tag; unfold Infix_tag in Ht; lia|done]).
  assert (t = Forward_tag -> exists f, l = [f] /\ keeps_forward (contents_tag f) = true) as Hfw by (intros ->; by unfold Forward_tag, Infix_tag in Ht).
  rewrite Htag, Hsize. pose proof (alloc_shared_ok (add_live (Bhsize_hd hd) st) (Z.of_nat (length l)) t (in_heap _ _ _ _ _ Hi) ltac:(lia)
    ltac:(rewrite <- Htag; apply Tag_hd_range)) as Ha.
  destruct (alloc_shared _ _ _) as [[n st1]| | | |]; try done. destruct Ha as (m1 & Hg1 & Ht1 & Hn). mred. change (words (gh (add_live _ st))) with (words (gh st)) in Hn.
  destruct (copy_step n st1 m1 Hg1 Ht1 Hn Hfw) as (_ & Him & Hleft & Hsub).
  destruct (lookup_lt_is_Some_2 l 0 ltac:(lia)) as [f Hf]. unfold Field, load. rewrite Z.mul_0_r, Z.add_0_r.
  replace (words (gh st1) !! u) with (Some f) by (rewrite Hg1; symmetry; by eapply field0_after). cbn [of_option]. mred.
  rewrite (update_ok F T S P st u t n l m1 Hi HY Hu Hn st1 p s off Hg1 Hp). mred. destruct (Z.ltb_spec 1 (Z.of_nat (length l))) as [H1|H1].
  - destruct (promote_todo F T S P st u t n l m1 Hi HY Hu Hn st1 p s off Hg1 Ht1 Hp Hfw Him f Hf ltac:(lia) Ht Hsc) as (st2 & -> & Hi2).
    eapply step_leaf; [exact Hi2|done|done|cbn [length]; lia|lia].
  - assert (l = [f]) as Hl by (destruct l as [|x [|y l']]; cbn in *; [done|congruence|lia]).
    pose proof (promote_single F T S P st u t n l m1 Hi HY Hu Hn st1 p s off Hg1 Ht1 Hp Hfw Him f Hl Hsc) as Hi2.
    apply (single_step n f _ Hi2 Hleft Hsub m1 Hn). eapply (yo_fields Hok); [done|done|]. rewrite Hl. set_solver.
Qed.

Lemma not_infix : t <> Closure_tag -> off = 0 /\ v = u.
Proof. intros Hne. destruct Hin as [_ [?|[? _]]]; [done|congruence]. Qed.
Lemma oldify_raw_ok : No_scan_tag <= t -> step_ok F T S P [p] (oldify_raw st hd u p).
Proof.
  intros Ht. pose proof Hin as [HY _]. pose proof (yo_size Hok _ _ _ HY) as Hsz. unfold oldify_raw, No_scan_tag in *.
  assert (~ scanned t) as Hns by (unfold scanned, No_scan_tag; lia). assert (t <> Cont_tag) as Htc by (unfold Cont_tag; lia).
  destruct not_infix as [Hoff Hvu]; [unfold Closure_tag; lia|].
  assert (t = Forward_tag -> exists f, l = [f] /\ keeps_forward (contents_tag f) = true) as Hfw by (unfold Forward_tag; lia).
  rewrite Htag, Hsize. pose proof (alloc_shared_ok (add_live (Bhsize_hd hd) st) (Z.of_nat (length l)) t (in_heap _ _ _ _ _ Hi) ltac:(lia)
    ltac:(rewrite <- Htag; apply Tag_hd_range)) as Ha.
  destruct (alloc_shared _ _ _) as [[n st1]| | | |]; try done. destruct Ha as (m1 & Hg1 & Ht1 & Hn). mred. change (words (gh (add_live _ st))) with (words (gh st)) in Hn.
  rewrite Nat2Z.id. destruct (copy_fields_ok l st1 u n) as (m & E & Hm & Hfr).
  - intros i w Hw. rewrite Hg1. cbn [words set_words]. apply lookup_lt_Some in Hw as Hlt. erewrite block_after by (done || lia). by eapply field_of.
  - intros i Hr. rewrite Hg1. cbn [words set_words]. apply (fc_free _ _ _ _ _ Hn). lia.
  - intros i j Hr Hj. eapply fresh_not_block; try done; lia.
  - rewrite E. mred. rewrite Hg1 in E. set (st2 := set_gh (set_words m (gh st1)) st1).
    assert (fresh_copy n (Z.of_nat (length l)) t (words (gh st)) m) as Hn2.
    { rewrite Hg1 in Hfr. cbn [words set_words] in Hfr. split.
      - apply (fc_align _ _ _ _ _ Hn).
      - intros i Hr. destruct (fc_free _ _ _ _ _ Hn i Hr) as (H1 & H2 & H3). split_and!; try done. destruct (decide (i = -1)) as [->|].
        + by rewrite Hfr by lia.
        + destruct (lookup_lt_is_Some_2 l (Z.to_nat i) ltac:(lia)) as [w Hw]. apply Hm in Hw. rewrite Z2Nat.id in Hw by lia. by eexists.
      - rewrite Hfr by lia. apply (fc_header _ _ _ _ _ Hn).
      - intros a Ha. rewrite Hfr by (intros i Hr; apply Ha; lia). by apply (fc_frame _ _ _ _ _ Hn). }
    assert (gh st2 = set_words m h0) as Hg2 by (unfold st2; cbn [gh set_gh]; by rewrite Hg1).
    destruct (copy_step n st2 m Hg2 Ht1 Hn2 Hfw) as (_ & Him & Hleft & Hsub). rewrite Hoff in Him.
    rewrite (update_ok F T S P st u t n l m Hi HY Hu Hn2 st2 p s 0 Hg2 Hp).
    pose proof (promote_raw F T S P st u t n l m Hi HY Hu Hn2 st2 p s 0 Hg2 Ht1 Hp Hfw Him Hns Htc Hm) as Hi2.
    eapply step_leaf; [exact Hi2|done|done|lia|lia].
Qed.

(** A block that forwards to [f]. *)
Hypothesis Hold' : forall F T S P st p s v, inv F T S P st -> S !! p = Some s -> target v -> stands_for F v s ->
  (forall l, Y !! v <> Some (Forward_tag, l)) -> (left F <= Datatypes.S k)%nat -> step_ok F T S P [p] (oldify st v p).
Lemma oldify_forward_ok : t = Forward_tag -> step_ok F T S P [p] (oldify_forward oldify st hd u p).
Proof.
  intros Ht. pose proof Hin as [HY _]. destruct (yo_tag Hok _ _ _ HY) as (_ & Hlen & _). specialize (Hlen Ht).
  assert (exists f, l = [f]) as [f Hl] by (clear -Hlen; destruct l as [|f [|? ?]]; try done; by exists f).
  destruct not_infix as [Hoff Hvu]; [by rewrite Ht|]. assert (Y !! u = Some (Forward_tag, [f])) as HYf by congruence.
  assert (target f) as Htf by (eapply (yo_fields Hok); [exact HYf|by split|set_solver]). pose proof Hi as [_ Hc _ _ _].
  unfold oldify_forward, Forward_val, Field, load. rewrite Z.mul_0_r, Z.add_0_r, (co_kept _ _ Hc _ _ _ u HYf Hu) by (exists 0; cbn; lia).
  pose proof (field_of _ _ _ 0%nat f HYf eq_refl) as Hf. rewrite Z.mul_0_r, Z.add_0_r in Hf. rewrite Hf. cbn [of_option]. mred.
  rewrite (forward_tag_ok _ _ _ _ _ _ _ Hi HYf). mred. destruct (keeps_forward (contents_tag f)) eqn:Ek.
  - assert (t = Forward_tag -> exists f0, l = [f0] /\ keeps_forward (contents_tag f0) = true) as Hfw by (intros _; by exists f).
    pose proof (alloc_shared_ok (add_live (Bhsize_hd hd) st) 1 Forward_tag (in_heap _ _ _ _ _ Hi) ltac:(lia) ltac:(done)) as Ha.
    destruct (alloc_shared _ _ _) as [[n st1]| | | |]; try done. destruct Ha as (m1 & Hg1 & Ht1 & Hn). mred. change (words (gh (add_live _ st))) with (words (gh st)) in Hn.
    assert (fresh_copy n (Z.of_nat (length l)) t (words (gh st)) m1) as Hn' by (by rewrite Hlen, Ht).
    destruct (copy_step n st1 m1 Hg1 Ht1 Hn' Hfw) as (_ & Him & Hleft & Hsub). rewrite Hoff in Him.
    rewrite (update_ok F T S P st u t n l m1 Hi HY Hu Hn' st1 p s 0 Hg1 Hp). mred. assert (scanned t) as Hsc by (rewrite Ht; by split).
    pose proof (promote_single F T S P st u t n l m1 Hi HY Hu Hn' st1 p s 0 Hg1 Ht1 Hp Hfw Him f Hl Hsc) as Hi2.
    by apply (single_step n f _ Hi2 Hleft Hsub m1 Hn').
  - apply (Hold' F T S P st p s f); try done.
    + intros F' w m Hc' Hsub Him. apply (Hst F' w m Hc' Hsub). rewrite Hvu. by eapply image_short.
    + intros l' Hf'. destruct (header_of _ _ _ Hf') as (w & Hw & Htw & _). unfold contents_tag in Ek.
      pose proof (block_young _ _ _ Hf') as Hyf. unfold young, Is_block_and_young in Hyf. apply andb_prop in Hyf as [Hb _]. by rewrite Hb, Hw, Htw in Ek.
Qed.
End Cases.

Lemma oldify_cont_ok oldify k F T S P st p s u l :
  (forall F T S P st p s v, inv F T S P st -> S !! p = Some s -> target v -> stands_for F v s -> (left F <= k)%nat -> step_ok F T S P [p] (oldify st v p)) ->
  inv F T S P st -> S !! p = Some s -> stands_for F u s -> Y !! u = Some (Cont_tag, l) -> F !! u = None -> (left F <= Datatypes.S k)%nat ->
  step_ok F T S P [p] (oldify_cont oldify st u p).
Proof.
  intros Hold Hi0 Hp0 Hst HY Hu Hk. destruct (yo_tag Hok _ _ _ HY) as (_ & _ & Hlen). specialize (Hlen eq_refl).
  assert (exists c w, l = [c; w]) as (c & w & Hl) by (clear -Hlen; destruct l as [|c [|w [|? ?]]]; try done; by exists c, w).
  set (ls := if decide (c = 1) then [] else stack_slots (Ptr_val c)).
  destruct (register_all ls F T S P st Hi0) as (S1 & P1 & Hi & HS1 & HP1 & Hl1).
  { intros a. unfold ls. destruct (decide (c = 1)); [by intros Ha%not_elem_of_nil|]. rewrite Hl in HY. by apply (yo_stacks Hok _ _ _ HY). }
  assert (S1 !! p = Some s) as Hp by (by eapply lookup_weaken). pose proof Hi as [_ Hc _ _ _].
  unfold oldify_cont. assert (Field (gh st) u 0 = Ret c) as ->.
  { unfold Field, load. rewrite Z.mul_0_r, Z.add_0_r, (co_kept _ _ Hc _ _ _ u HY Hu) by (exists 0; rewrite Hlen; lia).
    pose proof (field_of u Cont_tag l 0%nat c HY ltac:(by rewrite Hl)) as Hf. rewrite Z.mul_0_r, Z.add_0_r in Hf. by rewrite Hf. }
  mred.
  pose proof (alloc_shared_ok st 2 Cont_tag (in_heap _ _ _ _ _ Hi) ltac:(lia) ltac:(done)) as Ha.
  destruct (alloc_shared _ _ _) as [[n st1]| | | |]; try done. destruct Ha as (m1 & Hg1 & Ht1 & Hn). mred.
  assert (fresh_copy n (Z.of_nat (length l)) Cont_tag (words (gh st)) m1) as Hn' by (by rewrite Hlen).
  assert (inside u Cont_tag l 0 u) as Hin by (split; [done|by left]).
  assert (Cont_tag = Forward_tag -> exists f, l = [f] /\ keeps_forward (contents_tag f) = true) as Hfw by done.
  destruct (copy_step F T S1 P1 st s u u Cont_tag 0 l Hi Hst Hin Hu n st1 m1 Hg1 Ht1 Hn' Hfw) as (_ & Him & Hleft & Hsub).
  rewrite (update_ok F T S1 P1 st u Cont_tag n l m1 Hi HY Hu Hn' st1 p s 0 Hg1 Hp). mred.
  destruct (promote_cont F T S1 P1 st u Cont_tag n l m1 Hi HY Hu Hn' st1 p s 0 Hg1 Ht1 Hp Hfw Him c w eq_refl Hl) as (st2 & -> & Hi2).
  { intros Hc1 a Ha. apply Hl1. unfold ls. by rewrite decide_False. }
  mred. unfold Ptr_val at 1, NULL. destruct (Z.eqb_spec (c - 1) 0) as [E|E].
  - apply (step_after F T S P [p] F T S1 P1 [p]); [eapply step_leaf; [exact Hi2|done|done|lia|lia]|..]; try done; [|intros q ->%list_elem_of_singleton; by eexists].
    unfold ls in HP1. rewrite decide_True in HP1 by lia. clear -HP1. cbn in *. set_solver.
  - unfold ls in *. rewrite decide_False in * by lia. eapply step_after; [apply (scan_stack_ok oldify k Hold _ _ _ _ _ _); [|exact Hi2|lia]|..]; try done; try lia.
    + rewrite Hl in HY. apply (yo_stacks Hok _ _ _ HY). lia.
    + clear -HP1. cbn in *. set_solver.
    + intros q ->%list_elem_of_singleton. by eexists.
Qed.

Lemma oldify_one_ok fuel : forall F T S P st p s v, inv F T S P st -> S !! p = Some s -> target v -> stands_for F v s ->
  (2 * left F + 2 <= fuel \/ 2 * left F + 1 <= fuel /\ forall l, Y !! v <> Some (Forward_tag, l))%nat -> step_ok F T S P [p] (oldify_one fuel st v p).
Proof.
  induction fuel as [|n IH]; intros F T S P st p s v Hi Hp Ht Hst Hfuel; [lia|]. cbn [oldify_one]. rewrite (young_gh _ _ _ _ _ _ Hi).
  pose proof Hi as [Hh Hc _ _ _]. destruct (Is_block_and_young h0 v) eqn:Ey; cbn [negb].
  2:{ destruct (inv_put F T S P st p s v Hi Hp) as [-> Hi']; [|by eapply step_leaf].
      apply (Hst F v _ Hc ltac:(done)). apply image_other. unfold young. by rewrite Ey. }
  destruct (target_inside v Ht Ey) as (u & t & l & off & Hin). pose proof Hin as [HY _].
  pose proof (find_header_ok F _ _ _ _ _ _ Hc Hin) as Hfh. rewrite <- Hh in Hfh. destruct (F !! u) as [m|] eqn:Hu.
  - rewrite Hfh. mred. rewrite Z.eqb_refl. destruct (co_fwd _ _ Hc _ _ _ _ HY Hu) as (_ & Hm & _).
    unfold Field, load. rewrite Z.mul_0_r, Z.add_0_r, Hm. cbn [of_option]. mred.
    destruct (inv_put F T S P st p s (m + off) Hi Hp) as [-> Hi']; [|by eapply step_leaf]. apply (Hst F _ _ Hc ltac:(done)). by eapply inside_image.
  - destruct Hfh as (hd & -> & Hnz & Htag & Hsize). mred. rewrite (proj2 (Z.eqb_neq _ _)), Htag by done.
    assert (exists k, left F = Datatypes.S k) as [k Hk].
    { destruct (left F) eqn:E; [|by eexists]. exfalso. unfold left in E.
      assert (dom F ⊂ dom Y) as Hlt%subset_size; [|rewrite !size_dom in Hlt; lia]. split.
      - intros x [nx Hx]%elem_of_dom. destruct (co_dom _ _ Hc _ _ Hx) as (? & ? & ? & _). apply elem_of_dom. by eexists.
      - intros Hsub. assert (u ∈ dom F) as [? ?]%elem_of_dom by (apply Hsub, elem_of_dom; by eexists). congruence. }
    assert (forall F T S P st p s v, inv F T S P st -> S !! p = Some s -> target v -> stands_for F v s -> (left F <= k)%nat -> step_ok F T S P [p] (oldify_one n st v p)) as Hold
      by (intros; eapply IH; try done; lia).
    destruct (Z.eqb_spec t Cont_tag) as [->|Htc].
    { assert (off = 0 /\ v = u) as [_ ->] by (by eapply (not_infix v u Cont_tag off l)). by eapply (oldify_cont_ok (oldify_one n) k); try done; lia. }
    destruct (Z.ltb_spec t Infix_tag); [by eapply (oldify_scanned_ok (oldify_one n) k Hold _ _ _ _ _ _ s v); try done; lia|].
    destruct (Z.leb_spec No_scan_tag t); [eapply (oldify_raw_ok k); try done; lia|].
    assert (t = Forward_tag) as Htf by (destruct (yo_tag Hok _ _ _ HY) as [Hni _]; unfold Infix_tag, No_scan_tag, Forward_tag in *; lia).
    assert (v = u) as -> by (eapply (not_infix v u t off l); [done|by rewrite Htf]). rewrite Htf in HY.
    destruct Hfuel as [Hfuel|[_ Hfuel]]; [|by destruct (Hfuel l)].
    eapply (oldify_forward_ok (oldify_one n) k Hold _ _ _ _ _ _ s); try done; try lia. intros F1 T1 S1 P1 st1 p1 s1 v1 Hi1 Hp1 Ht1 Hst1 Hnf Hle. eapply IH; try done. right. split; [lia|done].
Qed.

(** ** The list of blocks to scan *)

Section Mopup.
Context (fuel : nat).
Hypothesis Hfuel : (2 * size Y + 2 <= fuel)%nat.
Lemma oldify_ok F T S P st p s v : inv F T S P st -> S !! p = Some s -> target v -> stands_for F v s ->
  step_ok F T S P [p] (oldify_one fuel st v p).
Proof. intros Hi Hp Ht Hst. eapply oldify_one_ok; try done. left. unfold left. lia. Qed.

Lemma write_words_cases n l (S : gmap Z Z) a :
  (exists i w, l !! i = Some w /\ a = n + 8 * Z.of_nat i /\ write_words n l S !! a = Some w) \/
  ((forall i, 0 <= i < Z.of_nat (length l) -> a <> n + 8 * i) /\ write_words n l S !! a = S !! a).
Proof.
  destruct (decide (a ∈ (fun i => n + 8 * Z.of_nat i) <$> seq 0 (length l))) as [(i & -> & Hi%elem_of_seq)%list_elem_of_fmap|Hno].
  - left. destruct (lookup_lt_is_Some_2 l i ltac:(lia)) as [w Hw]. exists i, w. split_and!; try done. by apply lookup_write_words.
  - right. assert (forall i, 0 <= i < Z.of_nat (length l) -> a <> n + 8 * i) as Hne.
    { intros i Hi ->. apply Hno, list_elem_of_fmap. exists (Z.to_nat i). split; [by rewrite Z2Nat.id by lia|]. apply elem_of_seq. lia. }
    split; [done|]. by apply lookup_write_words_ne.
Qed.

(** A block is taken from the list: its fields become slots. *)
Lemma pop_ok F v T S st : inv F (v :: T) S ∅ st -> exists n t l next s0, F !! v = Some n /\ Y !! v = Some (t, l) /\ scanned t /\ (2 <= length l)%nat /\
  words (gh st) !! v = Some n /\ words (gh st) !! (n + 8) = Some next /\ l !! 0%nat = Some s0 /\ words (gh st) !! n = Some s0 /\ todo_list st = v /\
  S ⊆ write_words n l S /\ inv F T (write_words n l S) (list_to_set ((fun i => n + 8 * Z.of_nat i) <$> seq 0 (length l))) (set_todo next st).
Proof.
  intros [Hh Hc Hs Hch Hnd]. pose proof Hch as (Htd & n & t & l & s0 & next & Hf & Hy & Ht & Hsc & Hlen & Hl0 & H1 & H2 & Hch').
  apply NoDup_cons in Hnd as [Hnin Hnd]. destruct (co_fwd _ _ Hc _ _ _ _ Hy Hf) as (_ & Hv & _).
  assert (forall i, 0 <= i < Z.of_nat (length l) -> S !! (n + 8 * i) = None) as Hnew.
  { intros i Hi. destruct (S !! (n + 8 * i)) as [s|] eqn:E; [|done]. exfalso.
    apply (slot_not_copy _ _ _ _ _ Hc Hs _ _ v n t l i E Hf Hy); [lia| |done]. right. left. left. }
  assert (S ⊆ write_words n l S) as Hsub.
  { apply map_subseteq_spec. intros a s Ha. destruct (write_words_cases n l S a) as [(i & w & Hi & -> & _)|[_ E]]; [|congruence].
    apply lookup_lt_Some in Hi. rewrite Hnew in Ha by lia. done. }
  set (P := list_to_set ((fun i => n + 8 * Z.of_nat i) <$> seq 0 (length l)) : gset Z). assert (forall i, (i < length l)%nat -> n + 8 * Z.of_nat i ∈ P) as HP.
  { intros i Hi. unfold P. apply elem_of_list_to_set, list_elem_of_fmap. exists i. split; [done|]. apply elem_of_seq. lia. }
  exists n, t, l, next, s0. split_and!; try done. split; try done. split.
  - intros a s Ha. destruct (write_words_cases n l S a) as [(i & w & Hi & -> & E)|[_ E]]; rewrite E in Ha; [|by eapply (sl_target _ _ _ _ _ Hs)].
    injection Ha as <-. eapply (yo_fields Hok); [done|done|]. by eapply list_elem_of_lookup_2.
  - intros a s Ha. destruct (write_words_cases n l S a) as [(i & w & Hi & -> & E)|[_ E]]; rewrite E in Ha.
    + injection Ha as <-. right. by exists v, n, t, l, i.
    + destruct (sl_slot _ _ _ _ _ Hs _ _ Ha) as [|(u & nu & tu & lu & i & ? & ? & ? & ? & Hu & ?)]; [by left|right]. exists u, nu, tu, lu, i.
      split_and!; try done. intros Hin. apply Hu. by right.
  - intros a s Ha HPa. destruct (write_words_cases n l S a) as [(i & w & Hi & -> & E)|[_ E]]; rewrite E in Ha.
    + apply lookup_lt_Some in Hi. by destruct HPa; apply HP.
    + apply (sl_done _ _ _ _ _ Hs); [done|apply not_elem_of_empty].
  - intros a s Ha HPa HR. unfold P in HPa. apply elem_of_list_to_set, list_elem_of_fmap in HPa as (i & -> & Hi%elem_of_seq).
    destruct (co_copy _ _ Hc _ _ _ _ Hy Hf) as [_ Hn]. destruct (Hn (Z.of_nat i) ltac:(lia)) as (E & _).
    destruct (yo_slots Hok _ HR) as [_ (x & Hx & _)]. congruence.
  - intros u nu tu lu i s Hfu Hyu Hscu Hnu Hi. destruct (decide (u = v)) as [->|Hne].
    + rewrite Hf in Hfu. injection Hfu as <-. rewrite Hy in Hyu. injection Hyu as <- <-. by apply lookup_write_words.
    + eapply lookup_weaken; [|exact Hsub]. eapply (sl_cover _ _ _ _ _ Hs); try done. by intros [->|]%elem_of_cons.
  - apply (sl_raw _ _ _ _ _ Hs).
  - intros u k w a Hu Hyu Hk Ha. destruct (sl_stack _ _ _ _ _ Hs u k w a Hu Hyu Hk Ha) as [x Hx]. exists x. by eapply lookup_weaken.
  - intros a Ha HSa Hw. apply (sl_frame _ _ _ _ _ Hs); try done. destruct (S !! a) as [x|] eqn:E; [|done].
    rewrite (lookup_weaken _ _ _ _ E Hsub) in HSa. done.
Qed.

Definition field_slots (n : Z) (i k : nat) : list Z := (fun j => n + 8 * Z.of_nat j) <$> seq i k.
Lemma oldify_fields_ok v n t l k : Y !! v = Some (t, l) -> scanned t -> forall i F T S P st, inv F T S P st -> F !! v = Some n -> (1 <= i)%nat -> (i + k = length l)%nat ->
  (forall j s, l !! j = Some s -> S !! (n + 8 * Z.of_nat j) = Some s) ->
  step_ok F T S P (field_slots n i k) (oldify_fields fuel k st (v + 8 * Z.of_nat i) (n + 8 * Z.of_nat i)).
Proof.
  intros Hy Hsc. induction k as [|k IH]; intros i F T S P st Hi Hf H1 Hk HS; cbn [oldify_fields].
  { exists F, T, S, P. split_and!; try done; cbn; [clear; set_solver|]. intros p Hp. by apply not_elem_of_nil in Hp. }
  pose proof Hi as [_ Hc _ _ _]. destruct (co_fwd _ _ Hc _ _ _ _ Hy Hf) as (_ & _ & Hrest).
  destruct (lookup_lt_is_Some_2 l i ltac:(lia)) as [f Hfi]. unfold load. rewrite Hrest, (field_of _ _ _ _ _ Hy Hfi) by lia. cbn [of_option]. mred.
  rewrite (young_gh _ _ _ _ _ _ Hi). assert (target f) as Ht by (eapply (yo_fields Hok); [done|done|by eapply list_elem_of_lookup_2]).
  change (field_slots n i (Datatypes.S k)) with ([n + 8 * Z.of_nat i] ++ field_slots n (Datatypes.S i) k). apply step_seq.
  - destruct (Is_block_and_young h0 f) eqn:Ey; [eapply oldify_ok; [done|by apply HS|done|apply stands_for_refl]|].
    destruct (inv_put F T S P st (n + 8 * Z.of_nat i) f f Hi (HS _ _ Hfi)) as [-> Hi']; [apply image_other; unfold young; by rewrite Ey|].
    eapply step_leaf; [exact Hi'|by apply HS|done|done|done].
  - intros st' F' T' S' P' Hi' HF HS' _. replace (v + 8 * Z.of_nat i + 8) with (v + 8 * Z.of_nat (Datatypes.S i)) by lia.
    replace (n + 8 * Z.of_nat i + 8) with (n + 8 * Z.of_nat (Datatypes.S i)) by lia. apply IH; [done|by eapply lookup_weaken|lia|lia|].
    intros j s Hj. eapply lookup_weaken; [|exact HS']. by apply HS.
Qed.

(** Between two blocks no slot waits for its image. *)
Definition round_ok (F : gmap Z Z) (T : list Z) (S : gmap Z Z) (r : result oldify_state) (Q : gmap Z Z -> list Z -> Prop) : Prop :=
  match r with
  | Ret st => exists F' T' S', inv F' T' S' ∅ st /\ F ⊆ F' /\ S ⊆ S' /\ Q F' T'
  | Raise e => exhausted e
  | _ => False
  end.
Lemma oldify_block_ok F v T S st : inv F (v :: T) S ∅ st ->
  round_ok F (v :: T) S (oldify_block fuel st) (fun F' T' => left F' + length T' < left F + length (v :: T))%nat.
Proof.
  intros Hi. destruct (pop_ok F v T S st Hi) as (n & t & l & next & s0 & Hf & Hy & Hsc & Hlen & Hv & H8 & Hl0 & H0 & Htd & Hsub & Hi1).
  unfold oldify_block. rewrite Htd. unfold Field, load. rewrite Z.mul_0_r, Z.add_0_r, Hv. cbn [of_option]. mred.
  replace (n + 8 * 1) with (n + 8) by lia. rewrite H8. cbn [of_option]. mred. cbn [gh set_todo]. rewrite Z.add_0_r, H0. cbn [of_option]. mred.
  change (gh st) with (gh (set_todo next st)). rewrite (young_gh _ _ _ _ _ _ Hi1).
  assert (forall j s, l !! j = Some s -> write_words n l S !! (n + 8 * Z.of_nat j) = Some s) as HS by (intros j s Hj; by apply lookup_write_words).
  pose proof (HS _ _ Hl0) as HS0. rewrite Z.mul_0_r, Z.add_0_r in HS0.
  set (P := list_to_set _) in Hi1. assert (step_ok F T (write_words n l S) P ([n] ++ field_slots n 1 (length l - 1))
    ((if Is_block_and_young h0 s0 then oldify_one fuel (set_todo next st) s0 n else Ret (set_todo next st)) ≫= fun st =>
     (sz ← Wosize_val (gh st) n; oldify_fields fuel (Z.to_nat (sz - 1)) st (v + 8) (n + 8)))) as Hstep.
  { apply step_seq.
    - destruct (Is_block_and_young h0 s0) eqn:Ey; [eapply oldify_ok; [done|done| |apply stands_for_refl]|].
      + eapply (yo_fields Hok); [done|done|by eapply list_elem_of_lookup_2].
      + eapply step_leaf; [|done|done|done|done]. destruct Hi1 as [Hh Hc Hs Hch Hnd]. split; try done. eapply slots_done; try done.
        apply image_other. unfold young. by rewrite Ey.
    - intros st' F' T' S' P' Hi' HF HS' _. pose proof Hi' as [Hh' Hc' _ _ _]. assert (F' !! v = Some n) as Hf' by exact (lookup_weaken F F' v n Hf HF).
      destruct (co_header _ _ Hc' _ _ _ _ Hy Hf') as (hd & Hhd & _ & Hw). unfold Wosize_val, Hd_val, load. rewrite Hhd. cbn [of_option]. mred. rewrite Hw.
      replace (Z.to_nat (Z.of_nat (length l) - 1)) with (length l - 1)%nat by lia.
      apply (oldify_fields_ok v n t l (length l - 1) Hy Hsc 1 F' T' S' P' st' Hi' Hf'); [lia|lia|]. intros j s Hj. eapply lookup_weaken; [|exact HS']. by apply HS. }
  unfold round_ok. destruct (_ ≫= _) as [st'| | | |]; try done. destruct Hstep as (F' & T' & S' & P' & Hi' & HF & HS' & HP' & _ & Hm & _).
  exists F', T', S'. split_and!; try done; [|by etrans|cbn [length]; lia].
  assert (P' = ∅) as ->; [|done]. apply set_eq. intros a. split; [|by intros ?%not_elem_of_empty]. intros Ha%HP'. exfalso.
  apply elem_of_difference in Ha as [Ha Hna]. apply Hna. unfold P in Ha. apply elem_of_list_to_set, list_elem_of_fmap in Ha as (j & -> & Hj%elem_of_seq).
  apply elem_of_list_to_set. destruct j as [|j]; [apply elem_of_app; left; apply list_elem_of_singleton; lia|]. apply elem_of_app. right. apply list_elem_of_fmap. exists (Datatypes.S j). split; [done|]. apply elem_of_seq. lia.
Qed.
Lemma oldify_todo_ok rounds : forall F T S st, inv F T S ∅ st -> (left F + length T <= rounds)%nat ->
  round_ok F T S (oldify_todo rounds fuel st) (fun F' T' => T' = []).
Proof.
  induction rounds as [|r IH]; intros F T S st Hi Hr; cbn [oldify_todo].
  - destruct T as [|v T]; [|cbn in Hr; lia]. pose proof (in_chain _ _ _ _ _ Hi) as Hch. cbn in Hch. rewrite Hch. cbn. by exists F, [], S.
  - destruct T as [|v T].
    + pose proof (in_chain _ _ _ _ _ Hi) as Hch. cbn in Hch. rewrite Hch. cbn. by exists F, [], S.
    + assert (todo_list st <> 0) as Hnz.
      { destruct (in_chain _ _ _ _ _ Hi) as (-> & n & t & l & _ & _ & _ & Hy & _). pose proof (yo_area Hok _ _ _ Hy). pose proof (yo_start Hok). lia. }
      rewrite (proj2 (Z.eqb_neq _ _)) by done. pose proof (oldify_block_ok F v T S st Hi) as Hb. destruct (oldify_block fuel st) as [st'| | | |]; try done.
      destruct Hb as (F1 & T1 & S1 & Hi1 & HF1 & HS1 & Hm1). mred. pose proof (IH F1 T1 S1 st' Hi1 ltac:(lia)) as Ht. unfold round_ok in *.
      destruct (oldify_todo r fuel st') as [st2| | | |]; try done. destruct Ht as (F2 & T2 & S2 & Hi2 & HF2 & HS2 & HT2). exists F2, T2, S2.
      split_and!; try done; by etrans.
Qed.

(** ** Ephemerons *)

Context (none : Z).
Hypothesis Hnone : ~ young none.

(** The block an ephemeron's slot points into, and whether it is forwarded. *)
Lemma ephe_header F m u t l off f : core F m -> inside u t l off f -> let h := set_words m h0 in
  (t ← Tag_val h f; if t =? Infix_tag then hd ← Hd_val h f; Ret (Infix_offset_hd hd) else Ret 0) = Ret off /\ f - off = u /\
  exists hd, get_header_val h u = Ret hd /\ (hd = 0 <-> is_Some (F !! u)).
Proof.
  intros Hc [HY Hin] h. pose proof (yo_size Hok _ _ _ HY) as Hsz. destruct (yo_tag Hok _ _ _ HY) as [Hni _].
  assert (exists w, m !! (u - 8) = Some w /\ Tag_hd (u64 w) <> Infix_tag /\ u64 w <> In_progress_update_val /\ (u64 w = 0 <-> is_Some (F !! u))) as (w & Hw & Ht & Hp & Hz).
  { destruct (F !! u) as [n|] eqn:Ef.
    - destruct (co_fwd _ _ Hc _ _ _ _ HY Ef) as (H0 & _). exists 0. by split_and!.
    - destruct (header_of _ _ _ HY) as (w & Hw & Htw & _ & Hz & Hp). exists w. rewrite (co_kept _ _ Hc _ _ _ _ HY Ef) by (exists (-1); lia).
      split_and!; try done. congruence. }
  split_and!; [| |exists (u64 w); split; [by apply get_header_Ret|done]].
  - destruct Hin as [[-> ->]|(-> & i & (Hi1 & Hi2 & -> & x & Hx & Htag & Hoff) & ->)].
    + unfold Tag_val, Hd_val, load. cbn [words set_words h]. rewrite Hw. cbn [of_option]. mred. by rewrite (proj2 (Z.eqb_neq _ _)).
    + assert (m !! (u + 8 * Z.of_nat (i + 1) - 8) = Some x) as Hm.
      { replace (u + 8 * Z.of_nat (i + 1) - 8) with (u + 8 * Z.of_nat i) by lia. rewrite <- (field_of _ _ _ _ _ HY Hx). destruct (F !! u) as [n|] eqn:Ef.
        - destruct (co_fwd _ _ Hc _ _ _ _ HY Ef) as (_ & _ & H). apply H. lia.
        - rewrite (co_kept _ _ Hc _ _ _ _ HY Ef); [done|]. exists (Z.of_nat i). lia. }
      unfold Tag_val, Hd_val, load. cbn [words set_words h]. rewrite Hm. cbn [of_option]. mred. rewrite Htag, Z.eqb_refl. by rewrite Hoff.
  - destruct Hin as [[-> ->]|(-> & i & (Hi1 & Hi2 & -> & _) & ->)]; lia.
Qed.

Definition ephe_ok (F : gmap Z Z) (T : list Z) (S : gmap Z Z) (l : list Z) (r : result (bool * oldify_state)) : Prop :=
  match r with
  | Ret (redo, st) => exists F' T' S', inv F' T' S' ∅ st /\ F ⊆ F' /\ S ⊆ S' /\ (forall p, p ∈ l -> is_Some (S' !! p)) /\
      (left F' + length T' <= left F + length T)%nat /\ (redo = false -> T' = T) /\ ((forall p, p ∈ l -> is_Some (S !! p)) -> redo = false)
  | Raise e => exhausted e
  | _ => False
  end.
(** One slot is done, the rest of the table follows. *)
Lemma ephe_cons F T S p l F1 T1 S1 b r : ephe_ok F1 T1 S1 l r -> F ⊆ F1 -> S ⊆ S1 -> is_Some (S1 !! p) ->
  (left F1 + length T1 <= left F + length T)%nat -> (b = false -> T1 = T) -> (is_Some (S !! p) -> b = false) ->
  ephe_ok F T S (p :: l) ('(redo, st) ← r; Ret (b || redo, st)).
Proof.
  intros Hr HF HS Hp Hm HT Hb. destruct r as [[redo st]| | | |]; try done. destruct Hr as (F2 & T2 & S2 & Hi2 & HF2 & HS2 & Hl2 & Hm2 & HT2 & Hb2).
  mred. exists F2, T2, S2. split_and!; try done; try lia.
  - by etrans.
  - by etrans.
  - intros q [->|Hq]%elem_of_cons; [|by apply Hl2]. destruct Hp as [x Hx]. exists x. by eapply lookup_weaken.
  - intros [-> ->]%orb_false_iff. rewrite HT2 by done. by apply HT.
  - intros Hall. rewrite Hb by (apply Hall; left). cbn. apply Hb2. intros q Hq. destruct (Hall q) as [x Hx]; [by right|]. exists x. by eapply lookup_weaken.
Qed.
Lemma ephe_bind_false (r : result (bool * oldify_state)) : r = ('(redo, st) ← r; Ret (false || redo, st)).
Proof. by destruct r as [[]| | | |]. Qed.

Lemma oldify_ephemerons_ok l : forall F T S st, inv F T S ∅ st -> (forall p, p ∈ l -> p ∈ R) -> ephe_ok F T S l (oldify_ephemerons none fuel l st).
Proof.
  induction l as [|p l IH]; intros F T S st Hi Hl; cbn [oldify_ephemerons].
  { exists F, T, S. split_and!; try done. intros q Hq. by apply not_elem_of_nil in Hq. }
  destruct (slot_value F T S ∅ st p Hi) as (v & s & S1 & P1 & Hv & Hi1 & HS1 & HP1 & Hs1 & Ht & Hst); [apply Hl; left|].
  unfold load. rewrite Hv. cbn [of_option]. mred. rewrite (young_gh _ _ _ _ _ _ Hi). pose proof Hi1 as [Hh Hc Hs _ _].
  assert (P1 ∖ {[p]} = ∅) as HP0 by (clear -HP1; set_solver). assert (forall q, q ∈ l -> q ∈ R) as Hl' by (intros q Hq; apply Hl; by right).
  destruct (Is_block_and_young h0 v) eqn:Ey.
  2:{ rewrite andb_false_r, ephe_bind_false. apply (ephe_cons F T S p l F T S1 false); try done. apply IH; [|done].
      rewrite <- HP0. destruct Hi1. split; try done. eapply slots_done; try done. eapply (Hst F v); [done|done|]. apply image_other. unfold young. by rewrite Ey. }
  assert (v <> none) as Hvn by (intros ->; by apply Hnone). rewrite (proj2 (Z.eqb_neq _ _)) by done. cbn [negb andb].
  assert (S !! p = None) as HSp.
  { destruct (S !! p) as [x|] eqn:E; [|done]. exfalso. destruct Hi as [_ Hc0 Hs0 _ _]. destruct (sl_done _ _ _ _ _ Hs0 _ _ E ltac:(apply not_elem_of_empty)) as (w & Hw & Him).
    rewrite Hv in Hw. injection Hw as <-. by apply (image_not_young _ _ _ _ Hc0 Him). }
  destruct (target_inside v Ht Ey) as (u & t & ll & off & Hin). pose proof Hin as [HY _].
  destruct (ephe_header F _ _ _ _ _ _ Hc Hin) as (E1 & E2 & hd & E3 & Hz). rewrite <- Hh in E1, E3. rewrite <- bind_assoc.
  match goal with |- ephe_ok _ _ _ _ (?x ≫= _) => replace x with (Ret off : result Z) by (symmetry; exact E1) end. mred. rewrite E2, E3. mred.
  destruct (Z.eqb_spec hd 0) as [Hd|Hd].
  - destruct (proj1 Hz Hd) as [n Hn]. destruct (co_fwd _ _ Hc _ _ _ _ HY Hn) as (_ & Hm & _). unfold Field, load. rewrite Z.mul_0_r, Z.add_0_r, Hm. cbn [of_option]. mred.
    destruct (inv_put F T S1 P1 st p s (n + off) Hi1 Hs1) as [-> Hi2]; [apply (Hst F _ _ Hc ltac:(done)); by eapply inside_image|]. mred. rewrite HP0 in Hi2.
    rewrite ephe_bind_false. apply (ephe_cons F T S p l F T S1 false); try done. by apply IH.
  - pose proof (oldify_ok F T S1 P1 st p s v Hi1 Hs1 Ht Hst) as Hstep. destruct (oldify_one fuel st v p) as [st'| | | |]; try done.
    destruct Hstep as (F2 & T2 & S2 & P2 & Hi2 & HF2 & HS2 & HP2 & Hl2 & Hm2 & _). mred.
    assert (P2 = ∅) as -> by (clear -HP2 HP0; cbn in HP2; set_solver).
    assert (ephe_ok F T S (p :: l) ('(redo, st) ← oldify_ephemerons none fuel l st'; Ret (true || redo, st))) as Hres.
    { apply (ephe_cons F T S p l F2 T2 S2 true); try done; [by apply IH|by etrans|apply Hl2; left|]. intros [x Hx]. congruence. }
    by destruct (oldify_ephemerons none fuel l st') as [[]| | | |].
Qed.

(** ** Rounds *)

(** There is work for at most one block each: forwarded or not yet. *)
Lemma forwarded_size F m : core F m -> (size F <= size Y)%nat.
Proof.
  intros Hc. rewrite <- !size_dom. apply subseteq_size. intros v [n Hv]%elem_of_dom.
  destruct (co_dom _ _ Hc _ _ Hv) as (t & l & Hy & _). apply elem_of_dom. by eexists.
Qed.
Lemma work_bound F T S P st : inv F T S P st -> (left F + length T <= size Y)%nat.
Proof.
  intros [_ Hc _ Hch Hnd]. pose proof (forwarded_size F _ Hc). assert (length T <= size F)%nat; [|unfold left; lia].
  rewrite <- (size_list_to_set (C := gset Z) T Hnd), <- size_dom. apply subseteq_size. intros v Hv%elem_of_list_to_set.
  apply elem_of_dom. by eapply listed.
Qed.
Lemma oldify_all_ok F T S st : inv F T S ∅ st -> round_ok F T S (oldify_todo fuel fuel st) (fun _ T' => T' = []).
Proof. intros Hi. apply oldify_todo_ok; [done|]. pose proof (work_bound _ _ _ _ _ Hi). lia. Qed.

Definition mopup_ok (F : gmap Z Z) (S : gmap Z Z) (l : list Z) (r : result oldify_state) : Prop :=
  match r with
  | Ret st => exists F' S', inv F' [] S' ∅ st /\ F ⊆ F' /\ S ⊆ S' /\ forall p, p ∈ l -> is_Some (S' !! p)
  | Raise e => exhausted e
  | _ => False
  end.
(** The second visit of the ephemerons finds nothing to do. *)
Lemma oldify_mopup_ok again ephe (do_ephe : bool) F T S st : (forall p, p ∈ ephe_slot <$> ephe -> p ∈ R) -> inv F T S ∅ st ->
  (2 <= again)%nat \/ (1 <= again)%nat /\ (forall p, p ∈ ephe_slot <$> ephe -> is_Some (S !! p)) ->
  mopup_ok F S (if do_ephe then ephe_slot <$> ephe else []) (oldify_mopup again fuel none ephe do_ephe st).
Proof.
  intros HR. revert F T S st. induction again as [|n IH]; intros F T S st Hi Hn; [lia|]. cbn [oldify_mopup].
  pose proof (oldify_all_ok F T S st Hi) as Hr. destruct (oldify_todo fuel fuel st) as [st1| | | |]; try done.
  destruct Hr as (F1 & T1 & S1 & Hi1 & HF1 & HS1 & ->). mred. destruct do_ephe.
  2:{ exists F1, S1. split_and!; try done. intros p Hp. by apply not_elem_of_nil in Hp. }
  pose proof (oldify_ephemerons_ok (ephe_slot <$> ephe) F1 [] S1 st1 Hi1 HR) as He.
  destruct (oldify_ephemerons none fuel _ st1) as [[redo st2]| | | |]; try done. destruct He as (F2 & T2 & S2 & Hi2 & HF2 & HS2 & Hp2 & _ & HT2 & Hr2).
  mred. destruct redo.
  - assert (2 <= Datatypes.S n)%nat as H2.
    { destruct Hn as [|[_ Hall]]; [done|]. enough (true = false) by done. apply Hr2. intros p Hp. destruct (Hall p Hp) as [x Hx]. exists x. by eapply lookup_weaken. }
    assert (mopup_ok F2 S2 (ephe_slot <$> ephe) (oldify_mopup n fuel none ephe true st2)) as Hm by (eapply (IH F2 T2 S2); [done|right; split; [lia|done]]).
    destruct (oldify_mopup n fuel none ephe true st2) as [st3| | | |]; try done. destruct Hm as (F3 & S3 & Hi3 & HF3 & HS3 & Hp3).
    exists F3, S3. split_and!; try done; (etrans; [|eassumption]); by etrans.
  - rewrite HT2 in Hi2 by done. exists F2, S2. split_and!; try done; by etrans.
Qed.

(** ** The roots *)

(** Roots are scanned one list after the other; no slot waits for its image in between. *)
Definition roots_done (F : gmap Z Z) (S : gmap Z Z) (l : list Z) (r : result oldify_state) : Prop :=
  match r with
  | Ret st => exists F' T' S', inv F' T' S' ∅ st /\ F ⊆ F' /\ S ⊆ S' /\ forall p, p ∈ l -> is_Some (S' !! p)
  | Raise e => exhausted e
  | _ => False
  end.
Lemma step_roots F T S l r : step_ok F T S ∅ l r -> roots_done F S l r.
Proof.
  destruct r as [st| | | |]; try done. intros (F' & T' & S' & P' & Hi & HF & HS & HP & Hl & _). exists F', T', S'.
  assert (P' = ∅) as -> by (clear -HP; set_solver). by split_and!.
Qed.
Lemma mopup_roots F S l r : mopup_ok F S l r -> roots_done F S l r.
Proof. destruct r as [st| | | |]; try done. intros (F' & S' & ?). by exists F', [], S'. Qed.
Lemma roots_seq F S l1 l2 r f : roots_done F S l1 r -> (forall F' T' S' st, inv F' T' S' ∅ st -> roots_done F' S' l2 (f st)) ->
  roots_done F S (l1 ++ l2) (r ≫= f).
Proof.
  intros H1 H2. destruct r as [st| | | |]; try done. destruct H1 as (F1 & T1 & S1 & Hi1 & HF1 & HS1 & Hp1). mred. pose proof (H2 _ _ _ _ Hi1) as H.
  destruct (f st) as [st2| | | |]; try done. destruct H as (F2 & T2 & S2 & Hi2 & HF2 & HS2 & Hp2). exists F2, T2, S2. split_and!; [done|by etrans|by etrans|].
  intros p [Hp|Hp]%elem_of_app; [|by apply Hp2]. destruct (Hp1 p Hp) as [x Hx]. exists x. by eapply lookup_weaken.
Qed.

Lemma roots_finish F S l1 l2 r f : roots_done F S l1 r -> (forall F' T' S' st, inv F' T' S' ∅ st -> mopup_ok F' S' l2 (f st)) ->
  mopup_ok F S (l1 ++ l2) (r ≫= f).
Proof.
  intros H1 H2. destruct r as [st| | | |]; try done. destruct H1 as (F1 & T1 & S1 & Hi1 & HF1 & HS1 & Hp1). mred. pose proof (H2 _ _ _ _ Hi1) as H.
  destruct (f st) as [st2| | | |]; try done. destruct H as (F2 & S2 & Hi2 & HF2 & HS2 & Hp2). exists F2, S2. split_and!; [done|by etrans|by etrans|].
  intros p [Hp|Hp]%elem_of_app; [|by apply Hp2]. destruct (Hp1 p Hp) as [x Hx]. exists x. by eapply lookup_weaken.
Qed.

Lemma scan_roots_ok l F T S st : inv F T S ∅ st -> (forall p, p ∈ l -> p ∈ R) -> roots_done F S l (scan_slots (oldify_one fuel) l st).
Proof.
  intros Hi Hl. eapply step_roots, (scan_slots_ok _ (left F)); [|done|done|done].
  intros F' T' S' P' st' p s v ? ? ? ? _. by eapply oldify_ok.
Qed.
Lemma scan_current_ok stk F T S st : inv F T S ∅ st -> stack_ok stk -> roots_done F S (stack_slots stk) (caml_scan_stack (oldify_one fuel) stk st).
Proof.
  intros Hi Hl. eapply step_roots, (scan_stack_ok _ (left F)); [|done|done|done].
  intros F' T' S' P' st' p s v ? ? ? ? _. by eapply oldify_ok.
Qed.
Lemma scan_nonzero_ok l : forall F T S st, inv F T S ∅ st -> (forall p, p ∈ l -> p ∈ R) -> roots_done F S l (scan_nonzero (oldify_one fuel) l st).
Proof.
  induction l as [|p l IH]; intros F T S st Hi Hl; cbn [scan_nonzero].
  { exists F, T, S. split_and!; try done. intros q Hq. by apply not_elem_of_nil in Hq. }
  destruct (slot_value F T S ∅ st p Hi) as (v & s & S1 & P1 & Hv & Hi1 & HS1 & HP1 & Hs1 & Ht & Hst); [apply Hl; left|].
  unfold load. rewrite Hv. cbn [of_option]. mred.
  assert (forall q, q ∈ l -> q ∈ R) as Hl' by (intros q Hq; apply Hl; by right). assert (P1 ∖ {[p]} = ∅) as HP0 by (clear -HP1; set_solver).
  change (p :: l) with ([p] ++ l). apply roots_seq; [|intros; by eapply IH]. destruct (Z.eqb_spec v 0) as [->|Hz].
  - exists F, T, S1. split_and!; try done; [|by intros q ->%list_elem_of_singleton]. rewrite <- HP0. pose proof Hi1 as [Hh Hc Hs _ _]. destruct Hi1. split; try done.
    eapply slots_done; try done. eapply (Hst F); [done|done|]. apply image_other. unfold young, Is_block_and_young, Is_young.
    rewrite !andb_true_iff, !Z.ltb_lt. pose proof (yo_start Hok). lia.
  - pose proof (oldify_ok F T S1 P1 st p s v Hi1 Hs1 Ht Hst) as Hstep. destruct (oldify_one fuel st v p) as [st'| | | |]; try done.
    destruct Hstep as (F2 & T2 & S2 & P2 & Hi2 & HF2 & HS2 & HP2 & Hl2 & _). exists F2, T2, S2.
    assert (P2 = ∅) as -> by (clear -HP2 HP0; cbn in HP2; set_solver). split_and!; try done. by etrans.
Qed.

(** *** The global roots *)
Context {D : Type} `{DD : !Dictionary D, !DictionaryOk D}.

Lemma scan_list_oldify es : forall st, GlobRoots.scan_list (oldify_root fuel) es st (words (gh st)) =
  (st ← scan_slots (oldify_one fuel) es.*1 st; Ret (st, words (gh st))).
Proof.
  induction es as [|[r x] es IH]; intros st; [done|]. cbn [GlobRoots.scan_list scan_slots fmap list_fmap fst]. unfold load.
  destruct (words (gh st) !! r) as [v|]; [|done]. cbn [of_option]. mred. change (oldify_root fuel st v r _) with
    (st ← oldify_one fuel st v r; Ret (st, words (gh st))). destruct (oldify_one fuel st v r) as [st'| | | |]; try done. mred. apply IH.
Qed.
Lemma iterate_oldify st (g : roots D) M l : holds g M -> exists es, (forall r, r ∈ es <-> r ∈ M l) /\
  GlobRoots.caml_iterate_global_roots (oldify_root fuel) l st (set_values (words (gh st)) g) =
  (st ← scan_slots (oldify_one fuel) es st; Ret (st, set_values (words (gh st)) g)).
Proof.
  intros HM. unfold GlobRoots.caml_iterate_global_roots. destruct (HM l) as (m & Hm & Hdom). destruct (dict_iterated _ m Hm) as (es & E & Hes & _).
  replace (list_of l (set_values (words (gh st)) g)) with (list_of l g) by (by destruct l). rewrite E. mred. exists es.*1. split.
  - intros r. rewrite <- Hdom, <- Hes, dom_list_to_map_L, elem_of_list_to_set. done.
  - cbn [root_values set_values]. rewrite scan_list_oldify. by destruct (scan_slots _ _ _).
Qed.
(** The lists when the global roots have been scanned. *)
Definition minor_lists (M : root_list -> gset Z) : root_list -> gset Z :=
  change Young_roots ∅ (change Old_roots (M Young_roots ∪ M Old_roots) M).
(** A list cannot grow. *)
Definition list_full : Prop := exists (d : D) k x d', dict_insert d k x = Ret (None, d').
Lemma insert_roots_full es : forall (g g' : roots D), GlobRoots.insert_roots es g = Ret (false, g') -> list_full.
Proof.
  induction es as [|[r x] es IH]; intros g g'; cbn [GlobRoots.insert_roots]; [done|]. unfold GlobRoots.list_insert.
  destruct (dict_insert _ r 0) as [[[y|] d]| | | |] eqn:E; cbn; try done; [apply IH|intros _; by eexists _, _, _, _].
Qed.

Definition global_done (F S : gmap Z Z) (M : root_list -> gset Z) (r : result (bool * oldify_state * roots D)) : Prop :=
  match r with
  | Ret (ok, st, g') => (exists F' T' S', inv F' T' S' ∅ st /\ F ⊆ F' /\ S ⊆ S' /\
        forall p, p ∈ M Mutable_roots \/ p ∈ M Young_roots -> is_Some (S' !! p)) /\
      if ok : bool then roots_mutex g' = false /\ holds g' (minor_lists M) else list_full
  | Raise e => exhausted e
  | _ => False
  end.
Lemma global_roots_ok F T S st (g : roots D) M : inv F T S ∅ st -> roots_mutex g = false -> holds g M ->
  (forall r, r ∈ M Mutable_roots \/ r ∈ M Young_roots -> r ∈ R) ->
  global_done F S M (GlobRoots.caml_scan_global_young_roots (oldify_root fuel) st (set_values (words (gh st)) g)).
Proof.
  intros Hi Hl HM HR. unfold GlobRoots.caml_scan_global_young_roots, GlobRoots.caml_plat_lock. cbn [roots_mutex set_values]. rewrite Hl. mred.
  change (set_mutex true (set_values (words (gh st)) g)) with (set_values (words (gh st)) (set_mutex true g)).
  set (g1 := set_mutex true g). assert (holds g1 M) as HM1 by (by apply GlobRoots.holds_mutex).
  destruct (iterate_oldify st g1 M Mutable_roots HM1) as (es1 & He1 & ->).
  pose proof (scan_roots_ok es1 F T S st Hi ltac:(intros p Hp; apply HR; left; by apply He1)) as H1.
  destruct (scan_slots _ es1 st) as [st1| | | |]; try done. destruct H1 as (F1 & T1 & S1 & Hi1 & HF1 & HS1 & Hp1). mred.
  destruct (iterate_oldify st1 g1 M Young_roots HM1) as (es2 & He2 & ->).
  pose proof (scan_roots_ok es2 F1 T1 S1 st1 Hi1 ltac:(intros p Hp; apply HR; right; by apply He2)) as H2.
  destruct (scan_slots _ es2 st1) as [st2| | | |]; try done. destruct H2 as (F2 & T2 & S2 & Hi2 & HF2 & HS2 & Hp2). mred.
  set (g2 := set_values (words (gh st2)) g1). assert (holds g2 M) as HM2 by (by apply GlobRoots.holds_values).
  destruct (HM2 Young_roots) as (my & Hmy & Edy). change (list_of Young_roots g2) with (GlobRoots.caml_global_roots_young g2) in Hmy.
  destruct (dict_iterated _ my Hmy) as (es & -> & Hes & _). mred.
  assert (exists F' T' S', inv F' T' S' ∅ st2 /\ F ⊆ F' /\ S ⊆ S' /\ forall p, p ∈ M Mutable_roots \/ p ∈ M Young_roots -> is_Some (S' !! p)) as Hst.
  { exists F2, T2, S2. split_and!; [done|by etrans|by etrans|]. intros p [Hp|Hp]; [|by apply Hp2, He2].
    apply He1 in Hp. destruct (Hp1 p Hp) as [x Hx]. exists x. by eapply lookup_weaken. }
  destruct (GlobRoots.insert_roots_spec es g2 M HM2) as (ok & g3 & E & Hv3 & Hl3 & HM3). rewrite E. mred. destruct ok; cbn [negb].
  2:{ split; [done|]. by eapply insert_roots_full. }
  specialize (HM3 eq_refl). destruct (GlobRoots.holds_seeded _ _ Young_roots HM3) as (my3 & Hmy3 & _).
  change (list_of Young_roots g3) with (GlobRoots.caml_global_roots_young g3) in Hmy3.
  destruct (dict_cleared _ my3 Hmy3) as (d & -> & Hd). mred. split; [done|]. split; [done|].
  apply GlobRoots.holds_mutex. pose proof (GlobRoots.holds_set_list g3 _ Young_roots d ∅ HM3 Hd) as HM4. rewrite dom_empty_L in HM4.
  assert (list_to_set es.*1 = M Young_roots) as E2 by (by rewrite <- Edy, <- Hes, dom_list_to_map_L). rewrite E2 in HM4. done.
Qed.

(** ** The result of a collection *)

(** The slots a collection of the domain scans, [M] being the lists of global roots. *)
Definition root_slot (M : root_list -> gset Z) (d : domain D) (p : Z) : Prop :=
  (p ∈ M Mutable_roots \/ p ∈ M Young_roots) \/ p ∈ major_ref h0 \/ p ∈ final_slots (final_first d) (final_last d) false \/
  p ∈ ephe_slot <$> ephe_ref d \/ p ∈ local_roots d ≫= block_slots \/ p ∈ stack_slots (current_stack d).
Record domain_ok (M : root_list -> gset Z) (d : domain D) : Prop := {
  do_mutex : roots_mutex (globals d) = false;
  do_lists : holds (globals d) M;
  do_slots p : root_slot M d p -> p ∈ R;
  do_stack : stack_ok (current_stack d);
}.

(** A block of the minor heap, one of [Y] or dead. *)
Record minor_block (v t : Z) (l : list Z) : Prop := {
  mb_block : block_at h0 v t l;
  mb_size : (1 <= length l)%nat;
  mb_area : caml_minor_heaps_start h0 <= v - 8 /\ v + 8 * Z.of_nat (length l) <= caml_minor_heaps_end h0;
  mb_disjoint u tu lu : Y !! u = Some (tu, lu) -> u <> v -> v + 8 * Z.of_nat (length l) <= u - 8 \/ u + 8 * Z.of_nat (length lu) <= v - 8;
}.

(** [F] gives the copy of each block that was promoted; [h'] is the heap after the
    collection. *)
Record collected (M : root_list -> gset Z) (d : domain D) (F : gmap Z Z) (h' : heap) : Prop := {
  cl_root p : root_slot M d p -> exists s w, words h0 !! p = Some s /\ words h' !! p = Some w /\ image F s w;
  cl_copy v n : F !! v = Some n -> exists t l l', Y !! v = Some (t, l) /\ block_at h' n t l' /\ length l' = length l /\
    (scanned t -> Forall2 (image F) l l') /\ (~ scanned t -> l' = l);
  cl_stack v k w p : is_Some (F !! v) -> Y !! v = Some (Cont_tag, [k; w]) -> k <> 1 -> p ∈ stack_slots (Ptr_val k) ->
    exists s w, words h0 !! p = Some s /\ words h' !! p = Some w /\ image F s w;
  cl_old v w : image F v w -> ~ young w;
  cl_same v w w' : image F v w -> image F v w' -> w = w';
  cl_distinct v v' n : F !! v = Some n -> F !! v' = Some n -> v = v';
  cl_forward v n : F !! v = Some n -> words h' !! (v - 8) = Some 0 /\ words h' !! v = Some n;
  cl_kept v t l : F !! v = None -> minor_block v t l -> block_at h' v t l;
  cl_slot a : a ∈ R -> exists s w, words h0 !! a = Some s /\ words h' !! a = Some w /\ (w = s \/ image F s w);
  cl_frame a : major_addr h0 a -> a ∉ R -> is_Some (words h0 !! a) -> words h' !! a = words h0 !! a;
}.

Lemma image_functional F m v w w' : core F m -> image F v w -> image F v w' -> w = w'.
Proof.
  intros Hc H1. revert w'. induction H1 as [v Hv|v n Hf|v l i f n Hy Hi Hf|v f w Hy Hk Him IH]; intros w' H2.
  - symmetry. by eapply image_other_inv.
  - destruct (co_dom _ _ Hc _ _ Hf) as (t & l & Hy & Hfw). inversion H2 as [v' Hny|v' n' Hf'|v' l' i' f' n' Hy' Hi' Hf'|v' f' w0 Hy' Hk' Him']; subst.
    + by destruct Hny; eapply block_young.
    + congruence.
    + exfalso. by eapply infix_not_block.
    + rewrite Hy in Hy'. injection Hy' as -> ->. destruct (Hfw eq_refl) as (f0 & [= <-] & ?). congruence.
  - inversion H2 as [v' Hny|v' n' Hf'|v' l' i' f' n' Hy' Hi' Hf'|v' f' w0 Hy' Hk' Him']; subst.
    + by destruct Hny; eapply infix_young.
    + exfalso. destruct (co_dom _ _ Hc _ _ Hf') as (t & l' & Hy' & _). by eapply infix_not_block.
    + destruct (infix_unique _ _ _ _ _ _ _ Hy Hi Hy' Hi') as [-> ->]. congruence.
    + exfalso. by eapply infix_not_block.
  - apply IH. inversion H2 as [v' Hny|v' n' Hf'|v' l' i' f' n' Hy' Hi' Hf'|v' f' w0 Hy' Hk' Him']; subst.
    + by destruct Hny; eapply block_young.
    + destruct (co_dom _ _ Hc _ _ Hf') as (t & l & Hy' & Hfw). rewrite Hy in Hy'. injection Hy' as <- <-. destruct (Hfw eq_refl) as (f0 & [= <-] & ?). congruence.
    + exfalso. by eapply infix_not_block.
    + rewrite Hy in Hy'. injection Hy' as <-. done.
Qed.

(** A slot outside the minor heap that was seen holds the image of its contents. *)
Lemma seen_slot F S st p : inv F [] S ∅ st -> p ∈ R -> is_Some (S !! p) ->
  exists s w, words h0 !! p = Some s /\ words (gh st) !! p = Some w /\ image F s w.
Proof.
  intros [_ Hc Hs _ _] Hp [s Hsp]. destruct (sl_done _ _ _ _ _ Hs _ _ Hsp ltac:(apply not_elem_of_empty)) as (w & Hw & Him). exists s, w.
  split_and!; try done. destruct (sl_slot _ _ _ _ _ Hs _ _ Hsp) as [[_ H]|(v & n & t & l & i & Hf & Hy & Hi & -> & _)]; [done|].
  destruct (co_copy _ _ Hc _ _ _ _ Hy Hf) as [_ Hn]. apply lookup_lt_Some in Hi. destruct (Hn (Z.of_nat i) ltac:(lia)) as (E & _).
  destruct (yo_slots Hok _ Hp) as [_ (x & Hx & _)]. congruence.
Qed.
(** The contents of a list of words. *)
Lemma read_fields (m : gmap Z Z) n k : (forall i, (i < k)%nat -> is_Some (m !! (n + 8 * Z.of_nat i))) ->
  exists l, length l = k /\ forall i w, l !! i = Some w -> m !! (n + 8 * Z.of_nat i) = Some w.
Proof.
  induction k as [|k IH]; intros H; [exists []; split; [done|]; intros i w Hi; by rewrite lookup_nil in Hi|].
  destruct IH as (l & Hl & Hw); [intros i Hi; apply H; lia|]. destruct (H k) as [x Hx]; [lia|]. exists (l ++ [x]). rewrite length_app. split; [cbn; lia|].
  intros i w [Hi|[Hi Ei]]%lookup_app_Some; [by apply Hw|]. destruct (i - length l)%nat as [|j] eqn:E; [|by destruct j]. injection Ei as <-.
  by replace i with k by lia.
Qed.
Lemma inv_copy F S st v n : inv F [] S ∅ st -> F !! v = Some n -> exists t l l', Y !! v = Some (t, l) /\ block_at (gh st) n t l' /\
  length l' = length l /\ (scanned t -> Forall2 (image F) l l') /\ (~ scanned t -> l' = l).
Proof.
  intros [Hh Hc Hs _ _] Hf. destruct (co_dom _ _ Hc _ _ Hf) as (t & l & Hy & _). destruct (co_copy _ _ Hc _ _ _ _ Hy Hf) as [_ Hn].
  destruct (co_header _ _ Hc _ _ _ _ Hy Hf) as (hd & Hhd & Ht & Hsz). destruct (read_fields (words (gh st)) n (length l)) as (l' & Hlen & Hl').
  { intros i Hi. by apply Hn; lia. }
  exists t, l, l'. split_and!; [done| |done| |].
  - split; [| |intros i w Hi; unfold Field, load; by rewrite (Hl' i w Hi)]; unfold Tag_val, Wosize_val, Hd_val, load; rewrite Hhd; cbn; by rewrite ?Ht, ?Hsz, ?Hlen.
  - intros Hsc. apply Forall2_same_length_lookup. split; [done|]. intros i s w Hi Hi'.
    assert (S !! (n + 8 * Z.of_nat i) = Some s) as HS by (eapply (sl_cover _ _ _ _ _ Hs); try done; apply not_elem_of_nil).
    destruct (sl_done _ _ _ _ _ Hs _ _ HS ltac:(apply not_elem_of_empty)) as (w' & Hw' & Him). rewrite (Hl' _ _ Hi') in Hw'. by injection Hw' as ->.
  - intros Hns. apply list_eq. intros i. destruct (l !! i) as [s|] eqn:Ei.
    + destruct (lookup_lt_is_Some_2 l' i) as [w Hw]; [rewrite Hlen; by eapply lookup_lt_Some|]. rewrite Hw.
      pose proof (sl_raw _ _ _ _ _ Hs _ _ _ _ _ _ Hf Hy Hns Ei) as E. rewrite (Hl' _ _ Hw) in E. congruence.
    + apply lookup_ge_None. rewrite Hlen. by apply lookup_ge_None.
Qed.
Lemma block_at_words h h' v t l : block_at h v t l -> (forall i, -1 <= i < Z.of_nat (length l) -> words h' !! (v + 8 * i) = words h !! (v + 8 * i)) ->
  block_at h' v t l.
Proof.
  intros [Ht Hs Hf] Hw. pose proof (Hw (-1) ltac:(lia)) as Hh. replace (v + 8 * -1) with (v - 8) in Hh by lia.
  split; [by unfold Tag_val, Hd_val, load in *; rewrite Hh|by unfold Wosize_val, Hd_val, load in *; rewrite Hh|].
  intros i w Hi. pose proof (Hf i w Hi) as H. apply lookup_lt_Some in Hi. unfold Field, load in *. by rewrite Hw by lia.
Qed.
Lemma inv_collected M d F S st : inv F [] S ∅ st -> domain_ok M d -> (forall p, root_slot M d p -> is_Some (S !! p)) -> collected M d F (gh st).
Proof.
  intros Hi Hd HS. pose proof Hi as [Hh Hc Hs _ _]. split.
  - intros p Hp. eapply seen_slot; [done|by apply (do_slots _ _ Hd)|by apply HS].
  - intros v n. by apply (inv_copy F S st v n).
  - intros v k w p Hv Hy Hk Hp. eapply seen_slot; [done|by eapply (proj2 (yo_stacks Hok _ _ _ Hy Hk))|by eapply (sl_stack _ _ _ _ _ Hs)].
  - intros v w. by eapply image_not_young.
  - intros v w w'. by eapply image_functional.
  - intros v v' n Hv Hv'. destruct (decide (v = v')) as [|Hne]; [done|]. destruct (co_dom _ _ Hc _ _ Hv) as (t & l & Hy & _), (co_dom _ _ Hc _ _ Hv') as (t' & l' & Hy' & _).
    pose proof (yo_size Hok _ _ _ Hy). pose proof (yo_size Hok _ _ _ Hy'). exfalso. by eapply (co_disjoint _ _ Hc v t l n v' t' l' n 0 0); try done; lia.
  - intros v n Hf. destruct (co_dom _ _ Hc _ _ Hf) as (t & l & Hy & _). by destruct (co_fwd _ _ Hc _ _ _ _ Hy Hf) as (? & ? & _).
  - intros v t l Hf [Hb Hsz Har Hdj]. apply (block_at_words h0); [done|]. intros i Hi'. apply (co_rest _ _ Hc); [unfold major_addr; lia|].
    intros u [x Hu]. destruct (co_dom _ _ Hc _ _ Hu) as (tu & lu & Hyu & _). pose proof (yo_size Hok _ _ _ Hyu).
    assert (u <> v) as Hne by congruence. pose proof (Hdj _ _ _ Hyu Hne). lia.
  - intros a Ha. destruct (S !! a) as [s|] eqn:E.
    + destruct (seen_slot F S st a Hi Ha ltac:(by eexists)) as (s' & w & ? & ? & ?). exists s', w. auto.
    + destruct (yo_slots Hok _ Ha) as [Hmaj (s & Hw & _)]. exists s, s. split_and!; [done| |by left].
      rewrite (sl_frame _ _ _ _ _ Hs); [done|done|done|by eexists].
  - intros a Ha HR Hw. apply (sl_frame _ _ _ _ _ Hs); [done| |done]. destruct (S !! a) as [s|] eqn:E; [|done]. exfalso.
    destruct (sl_slot _ _ _ _ _ Hs _ _ E) as [[? _]|(v & n & t & l & i & Hf & Hy & Hli & -> & _)]; [done|].
    destruct (co_copy _ _ Hc _ _ _ _ Hy Hf) as [_ Hn]. apply lookup_lt_Some in Hli. destruct (Hn (Z.of_nat i) ltac:(lia)) as (E1 & _).
    destruct Hw as [x Hx]. congruence.
Qed.

Lemma collected_words M d F h h' : words h' = words h -> collected M d F h -> collected M d F h'.
Proof.
  intros Hw [H1 H2 H3 H4 H5 H6 H7 H8 H9 H10]. split; rewrite ?Hw; try done.
  - intros v n Hf. destruct (H2 v n Hf) as (t & l & l' & Hy & Hb & ?). exists t, l, l'. split; [done|]. split; [|done].
    apply (block_at_words h); [done|]. intros. by rewrite Hw.
  - intros v t l Hv Hb. apply (block_at_words h); [by apply H8|]. intros. by rewrite Hw.
Qed.

(** The heap that the collection starts from. *)
Lemma inv_initial n : inv ∅ [] ∅ ∅ (mkOldify h0 0 0 n).
Proof.
  split; [by destruct h0| | |done|by apply NoDup_nil].
  - split; try (intros; by simplify_map_eq).
  - split; intros; simplify_map_eq; done.
Qed.
Definition collection_ok (M : root_list -> gset Z) (d : domain D) (r : result (domain D * heap)) : Prop :=
  match r with
  | Ret (d', h') => (holds (globals d') (minor_lists M) /\ root_values (globals d') = words h') /\ roots_mutex (globals d') = false /\
      h' = reset_young (set_words (words h') h0) /\ exists F, collected M d F h'
  | Raise e => exhausted e \/ list_full
  | _ => False
  end.
Lemma collect_rest M d F T S st : inv F T S ∅ st -> domain_ok M d -> (forall p, p ∈ M Mutable_roots \/ p ∈ M Young_roots -> is_Some (S !! p)) ->
  match (st ← scan_slots (oldify_one fuel) (rev (major_ref h0)) st;
         st ← caml_final_do_young_roots (oldify_one fuel) (final_first d) (final_last d) false st;
         st ← oldify_mopup fuel fuel none (ephe_ref d) true st;
         st ← caml_do_local_roots (oldify_one fuel) (local_roots d) (current_stack d) st;
         oldify_mopup fuel fuel none (ephe_ref d) false st) with
  | Ret st => gh st = set_words (words (gh st)) h0 /\ exists F, collected M d F (gh st)
  | Raise e => exhausted e
  | _ => False
  end.
Proof.
  intros Hi Hd HG. pose proof (do_slots _ _ Hd) as HR. assert (2 <= fuel)%nat as H2 by lia.
  set (ephe := ephe_slot <$> ephe_ref d). assert (forall p, p ∈ ephe -> p ∈ R) as Hep by (intros p Hp; apply HR; unfold root_slot; tauto).
  assert (mopup_ok F S (rev (major_ref h0) ++ final_slots (final_first d) (final_last d) false ++ ephe ++
    ((local_roots d ≫= block_slots) ++ stack_slots (current_stack d)) ++ []) (st ← scan_slots (oldify_one fuel) (rev (major_ref h0)) st;
         st ← caml_final_do_young_roots (oldify_one fuel) (final_first d) (final_last d) false st;
         st ← oldify_mopup fuel fuel none (ephe_ref d) true st;
         st ← caml_do_local_roots (oldify_one fuel) (local_roots d) (current_stack d) st;
         oldify_mopup fuel fuel none (ephe_ref d) false st)) as Hm.
  { apply roots_finish; [eapply scan_roots_ok; [done|]|intros F1 T1 S1 st1 Hi1; apply roots_finish; [eapply scan_roots_ok; [done|]|
      intros F2 T2 S2 st2 Hi2; apply roots_finish; [eapply mopup_roots, (oldify_mopup_ok _ _ true); [done|done|by left]|
      intros F3 T3 S3 st3 Hi3; apply roots_finish; [|intros F4 T4 S4 st4 Hi4; by eapply (oldify_mopup_ok _ _ false); [|done|left]]]]].
    - intros p Hp%list_elem_of_In%in_rev%list_elem_of_In. apply HR. unfold root_slot. tauto.
    - intros p Hp. apply HR. unfold root_slot. tauto.
    - apply roots_seq; [eapply scan_nonzero_ok; [done|]|intros F4 T4 S4 st4 Hi4; eapply scan_current_ok; [done|apply Hd]].
      intros p Hp; apply HR; unfold root_slot; tauto. }
  destruct (scan_slots _ _ _ ≫= _) as [st'| | | |]; try done. destruct Hm as (F' & S' & Hi' & HF & HS & Hp). split; [apply Hi'|]. exists F'.
  eapply inv_collected; [done|done|]. intros p Hr. unfold root_slot in Hr. fold ephe in Hr.
  destruct Hr as [Hr|Hr]; [destruct (HG p Hr) as [x Hx]; exists x; by eapply lookup_weaken|]. apply Hp.
  rewrite !elem_of_app, list_elem_of_In, <- in_rev, <- list_elem_of_In. tauto.
Qed.
(** A collection returns, unless a heap is full. *)
Lemma promote_ok M d : domain_ok M d -> collection_ok M d (caml_empty_minor_heap_promote none fuel d h0).
Proof.
  intros Hd. unfold caml_empty_minor_heap_promote. cbv zeta. set (st0 := mkOldify h0 0 0 _). assert (inv ∅ [] ∅ ∅ st0) as Hi by apply inv_initial.
  pose proof (global_roots_ok ∅ [] ∅ st0 (globals d) M Hi (do_mutex _ _ Hd) (do_lists _ _ Hd) ltac:(intros r Hr; apply (do_slots _ _ Hd); by left)) as Hg.
  change (words (gh st0)) with (words h0) in Hg. destruct (GlobRoots.caml_scan_global_young_roots _ _ _) as [[[ok st] g]|e| | |]; try done; [|by left].
  destruct Hg as [(F & T & S & Hi' & _ & _ & HG) Hok']. mred. destruct ok; cbn [negb]; [|by right].
  pose proof (collect_rest M d F T S st Hi' Hd HG) as Hr. destruct Hok' as [Hmu Hh].
  assert (forall e, exhausted e -> exhausted e \/ list_full) as Hex by (by left).
  destruct (scan_slots _ (rev _) st) as [st1|e| | |]; [|exact (Hex _ Hr)|exact Hr..]. mred. mred in Hr.
  destruct (caml_final_do_young_roots _ _ _ _ st1) as [st2|e| | |]; [|exact (Hex _ Hr)|exact Hr..]. mred. mred in Hr.
  destruct (oldify_mopup _ _ _ _ true st2) as [st3|e| | |]; [|exact (Hex _ Hr)|exact Hr..]. mred. mred in Hr.
  destruct (caml_do_local_roots _ _ _ st3) as [st4|e| | |]; [|exact (Hex _ Hr)|exact Hr..]. mred. mred in Hr.
  destruct (oldify_mopup _ _ _ _ false st4) as [st5|e| | |]; [|exact (Hex _ Hr)|exact Hr..]. mred. mred in Hr. destruct Hr as [Hst (F' & HF')].
  split_and!; [by apply GlobRoots.holds_values|done|done|exact (f_equal reset_young Hst)|]. exists F'. by apply (collected_words M d F' (gh st5)).
Qed.

End Mopup.

(** ** After the collection *)

Section After.
Context {D : Type}.


(** *** Custom blocks *)

(** What is expected of each entry: an adjustment if the block was promoted, else its
    finaliser if it has one. *)
Definition custom_spec (has_finalize : Z -> bool) (F : gmap Z Z) (elt : caml_custom_elt) : list custom_event :=
  let v := elt_block elt in
  if Is_block_and_young h0 v then
    match F !! v with
    | Some _ => [Adjust_gc_speed (elt_mem elt) (elt_max elt)]
    | None => match words h0 !! v with Some ops => if has_finalize ops then [Finalize v] else [] | None => [] end
    end
  else [].
Lemma custom_finalize_ok has_finalize M (d : domain D) F h' l : collected M d F h' -> same_regions h0 h' ->
  (forall elt, elt ∈ l -> young (elt_block elt) -> exists t fs, minor_block (elt_block elt) t fs) ->
  custom_finalize_minor has_finalize h' l = Ret (l ≫= custom_spec has_finalize F).
Proof.
  intros Hcl [E1 E2] Hl. induction l as [|elt l IH]; [done|]. cbn [custom_finalize_minor mbind list_bind]. rewrite IH by (intros e He; apply Hl; by right).
  change (Is_block (elt_block elt) && Is_young h' (elt_block elt)) with (Is_block_and_young h' (elt_block elt)).
  assert (Is_block_and_young h' (elt_block elt) = Is_block_and_young h0 (elt_block elt)) as E by (unfold Is_block_and_young, Is_young; by rewrite E1, E2).
  rewrite E. unfold custom_spec at 2. destruct (Is_block_and_young h0 (elt_block elt)) eqn:Ey; [|by mred].
  destruct (Hl elt ltac:(left) Ey) as (t & fs & Hmb). destruct (F !! elt_block elt) as [n|] eqn:Ef.
  - destruct (cl_forward _ _ _ _ Hcl _ _ Ef) as [H0 _]. rewrite (get_header_Ret _ _ 0) by done. by mred.
  - pose proof (cl_kept _ _ _ _ Hcl _ _ _ Ef Hmb) as [Ht Hs Hf]. pose proof (mb_size _ _ _ Hmb) as Hsz. destruct fs as [|f fs]; [cbn in Hsz; lia|].
    pose proof (Hf 0%nat f eq_refl) as Hf0. unfold Wosize_val, Hd_val, load in Hs. destruct (words h' !! (elt_block elt - 8)) as [w|] eqn:Ew; [|done].
    cbn [of_option] in Hs. mred in Hs. injection Hs as Hs. destruct (header_nonzero w) as [Hz Hp]; [rewrite Hs; cbn; lia|].
    rewrite (get_header_Ret _ _ w) by done. mred. rewrite (proj2 (Z.eqb_neq _ _)) by done. change (Field h' (elt_block elt) 0) with (Field h' (elt_block elt) (Z.of_nat 0)). rewrite Hf0. mred.
    pose proof (ba_fields _ _ _ _ (mb_block _ _ _ Hmb) 0%nat f eq_refl) as Hg. unfold Field, load in Hg. rewrite Z.mul_0_r, Z.add_0_r in Hg.
    destruct (words h0 !! elt_block elt) as [x|]; [|done]. cbn in Hg. by injection Hg as ->.
Qed.
End After.
End Collection.

(** ** Properties *)

Section Theorems.
Context `{SH : SharedHeap, !SharedHeapOk SH} `{SD : StackDepth} `{SL : StackLayout} {D : Type} `{DD : !Dictionary D, !DictionaryOk D}.

(** C3: A minor collection copies the live part of the minor heap.  [Y] is any
    set of blocks of the minor heap that is closed: it contains what the roots
    and the fields of its blocks point to.  With enough fuel the collection
    returns, unless the shared heap or a list of roots cannot grow, and then
    there is a map [F] from blocks of [Y] to fresh blocks outside the minor heap
    such that every root of the domain (global roots, remembered set,
    finalisers, ephemerons, local roots, stacks) holds the image of the value it had;
    the copy of a block has its tag and its size, and its fields are the images of the
    fields of the block, or the same words when they are not scanned; two blocks have different copies and a value has one
    image, so sharing is kept; an infix pointer is still at its offset in the copy of its closure;
    the blocks that are not copied are as they were, and so is the memory outside the minor
    heap that is not a root.  The young generational roots have joined the
    old ones. *)
Theorem minor_collection (h : heap) (Y : gmap Z (Z * list Z)) (R : gset Z) (fuel : nat) (none : Z) (M : root_list -> gset Z) (d : domain D) :
  young_ok h Y R -> domain_ok h R M d -> ~ young h none -> (2 * size Y + 2 <= fuel)%nat ->
  collection_ok h Y R M d (caml_empty_minor_heap_promote none fuel d h).
Proof. intros HY Hd Hn Hf. by apply promote_ok. Qed.


(** C16: After a minor collection the custom blocks of the table that were
    promoted count for the speed of the major collector, and those that were not
    are finalised, each once per entry and in the order of the table. *)
Theorem custom_blocks_finalised (has_finalize : Z -> bool) (h : heap) (Y : gmap Z (Z * list Z)) (R : gset Z) (fuel : nat) (none : Z) (M : root_list -> gset Z)
    (d d' : domain D) (h' : heap) :
  young_ok h Y R -> domain_ok h R M d -> ~ young h none -> (2 * size Y + 2 <= fuel)%nat ->
  (forall elt, elt ∈ custom d -> young h (elt_block elt) -> exists t fs, minor_block h Y (elt_block elt) t fs) ->
  caml_empty_minor_heap_promote none fuel d h = Ret (d', h') ->
  exists F, collected h Y R M d F h' /\
    custom_finalize_minor has_finalize h' (custom d) = Ret (custom d ≫= custom_spec h has_finalize F).
Proof.
  intros HY Hd Hn Hf Hcu E. pose proof (promote_ok h Y R HY fuel Hf none Hn M d Hd) as Hc. rewrite E in Hc.
  destruct Hc as (_ & _ & Hh & F & HF). exists F. split; [done|]. eapply (custom_finalize_ok h Y R _ M d); [done| |done]. rewrite Hh. done.
Qed.

(** C17: A generational root that points to a young forwarding block of an integer
    holds that integer after the collection, and is in the list of the old roots.  To
    unregister it then does nothing, so that the list keeps the address of a
    variable that is no longer a root. *)
Theorem removed_root_stays (h : heap) (Y : gmap Z (Z * list Z)) (R : gset Z) (fuel : nat) (none : Z) (M : root_list -> gset Z) (d d' : domain D) (h' : heap) (r v f : Z) :
  young_ok h Y R -> domain_ok h R M d -> ~ young h none -> (2 * size Y + 2 <= fuel)%nat ->
  r ∈ M Young_roots -> words h !! r = Some v -> Y !! v = Some (Forward_tag, [f]) -> Is_block f = false ->
  caml_empty_minor_heap_promote none fuel d h = Ret (d', h') ->
  words h' !! r = Some f /\ GlobRoots.caml_remove_generational_global_root h' r (globals d') = Ret (globals d') /\
  exists m, dict_repr (list_of Old_roots (globals d')) m /\ r ∈ dom m.
Proof.
  intros HY Hd Hn Hf Hr Hv HYv Hb E. pose proof (promote_ok h Y R HY fuel Hf none Hn M d Hd) as Hc. rewrite E in Hc.
  destruct Hc as ((Hl & Hval) & _ & _ & F & HF). destruct (cl_root _ _ _ _ _ _ _ HF r) as (s & w & Hs & Hw & Him); [left; by right|].
  assert (s = v) as -> by congruence. assert (w = f) as ->.
  { eapply (cl_same _ _ _ _ _ _ _ HF v); [done|]. eapply image_short; [done|by unfold contents_tag; rewrite Hb|]. apply image_other. unfold young, Is_block_and_young.
    by rewrite Hb. }
  split; [done|]. split.
  - unfold GlobRoots.caml_remove_generational_global_root. rewrite Hval, Hw. cbn [of_option]. mred. unfold GlobRoots.classify_gc_root. by rewrite Hb.
  - destruct (Hl Old_roots) as (m & Hm & Hdom). exists m. split; [done|]. rewrite Hdom. unfold minor_lists. rewrite GlobRoots.change_ne, GlobRoots.change_eq by done. set_solver.
Qed.
End Theorems.

(** ** Checking the hypotheses *)

Section Check.
Context `{SD : StackDepth} `{SL : StackLayout} (h : heap) (Y : gmap Z (Z * list Z)) (R : gset Z).
Definition all_blocks (f : Z -> Z -> list Z -> bool) : bool := forallb (fun '(v, (t, l)) => f v t l) (map_to_list Y).
Lemma all_blocks_spec f v t l : all_blocks f = true -> Y !! v = Some (t, l) -> f v t l = true.
Proof. unfold all_blocks. rewrite forallb_forall. intros H Hy. apply (H (v, (t, l))). by apply list_elem_of_In, elem_of_map_to_list. Qed.

Definition infix_atb (v : Z) (l : list Z) (i : nat) (f : Z) : bool :=
  (1 <=? i)%nat && (i + 1 <? length l)%nat && (f =? v + 8 * Z.of_nat (i + 1)) &&
  match l !! i with Some w => (Tag_hd (u64 w) =? Infix_tag) && (Infix_offset_hd (u64 w) =? 8 * Z.of_nat (i + 1)) | None => false end.
Definition targetb (f : Z) : bool :=
  negb (Is_block_and_young h f) || bool_decide (is_Some (Y !! f)) ||
  existsb (fun '(v, (t, l)) => (t =? Closure_tag) && existsb (fun i => infix_atb v l i f) (seq 0 (length l))) (map_to_list Y).
Lemma targetb_sound f : targetb f = true -> target h Y f.
Proof.
  unfold targetb. rewrite !orb_true_iff, negb_true_iff. intros [[H|H]|H] Hy; [unfold young in Hy; congruence|left; by eapply bool_decide_eq_true|right].
  apply existsb_exists in H as ([v [t l]] & Hin & H). apply list_elem_of_In, elem_of_map_to_list in Hin. apply andb_true_iff in H as [Ht%Z.eqb_eq H]. subst.
  apply existsb_exists in H as (i & _ & H). exists v, l, i. split; [done|]. unfold infix_atb in H. rewrite !andb_true_iff in H. destruct H as (((H1 & H2) & H3) & H4).
  destruct (l !! i) as [w|] eqn:E; [|done]. rewrite andb_true_iff in H4. destruct H4 as [H4 H5].
  apply Nat.leb_le in H1. apply Nat.ltb_lt in H2. apply Z.eqb_eq in H3, H4, H5. split_and!; try done. by exists w.
Qed.

Definition block_check (v t : Z) (l : list Z) : bool :=
  bool_decide (Tag_val h v = Ret t) && bool_decide (Wosize_val h v = Ret (Z.of_nat (length l))) &&
  forallb (fun i => bool_decide (Field h v (Z.of_nat i) = of_option (l !! i))) (seq 0 (length l)).
Lemma block_check_sound v t l : block_check v t l = true -> block_at h v t l.
Proof.
  unfold block_check. rewrite !andb_true_iff, !bool_decide_eq_true, forallb_forall. intros [[H1 H2] H3]. split; try done. intros i w Hi.
  assert (In i (seq 0 (length l))) as Hin by (apply in_seq; apply lookup_lt_Some in Hi; lia). apply H3, bool_decide_eq_true in Hin. by rewrite Hin, Hi.
Qed.
Definition headed (f : Z) : bool :=
  negb (bool_decide (f - 8 ∈ R)) && ((f - 8 <? caml_minor_heaps_start h) || (caml_minor_heaps_end h <=? f - 8)) &&
  match words h !! (f - 8) with Some w => negb (u64 w =? 0) && negb (u64 w =? In_progress_update_val) | None => false end.
Definition fixedb (a : Z) : option Z :=
  if negb (bool_decide (a ∈ R)) && ((a <? caml_minor_heaps_start h) || (caml_minor_heaps_end h <=? a)) then words h !! a else None.
Lemma fixedb_sound a w : fixedb a = Some w -> fixed h R a w.
Proof.
  unfold fixedb, fixed, major_addr. destruct (bool_decide_reflect (a ∈ R)); [done|]. destruct (Z.ltb_spec a (caml_minor_heaps_start h)), (Z.leb_spec (caml_minor_heaps_end h) a); cbn; intros; try done; auto.
Qed.
Fixpoint read_stack (n : nat) (stk : Z) : option (list Z) :=
  if stk =? NULL then Some [] else
  match n with
  | O => None
  | S n => sp ← fixedb stk; handler ← fixedb (stk + 16); parent ← fixedb (handler + 24); ls ← read_stack n parent;
      Some (slots_between sp handler ++ [handler; handler + 8; handler + 16] ++ ls)
  end.
Lemma read_stack_sound n : forall stk ls, read_stack n stk = Some ls -> stack_at h R n stk ls.
Proof.
  induction n as [|n IH]; intros stk ls; cbn [read_stack]; destruct (Z.eqb_spec stk NULL) as [->|Hne]; intros E; try done; [injection E as <-; constructor..|].
  destruct (fixedb stk) as [sp|] eqn:E1; [|done]. cbn in E. destruct (fixedb (stk + 16)) as [hl|] eqn:E2; [|done]. cbn in E.
  destruct (fixedb (hl + 24)) as [pa|] eqn:E3; [|done]. cbn in E. destruct (read_stack n pa) as [l|] eqn:E4; [|done]. cbn in E. injection E as <-.
  apply (stack_at_cons _ _ n stk sp hl pa l); [done|by apply fixedb_sound..|by apply IH].
Qed.
Definition stack_okb (stk : Z) : bool :=
  bool_decide (read_stack stack_depth stk = Some (stack_slots stk)) && forallb (fun a => bool_decide (a ∈ R)) (stack_slots stk).
Lemma stack_okb_sound stk : stack_okb stk = true -> stack_ok h R stk.
Proof.
  unfold stack_okb. rewrite andb_true_iff, bool_decide_eq_true, forallb_forall. intros [H1 H2]. split; [by apply read_stack_sound|].
  intros a Ha%list_elem_of_In%H2. by apply bool_decide_eq_true in Ha.
Qed.
Definition scannedb (t : Z) : bool := (t <? No_scan_tag) && negb (t =? Cont_tag).
Definition young_okb : bool :=
  (0 <=? caml_minor_heaps_start h) && all_blocks block_check &&
  all_blocks (fun v t l => (1 <=? Z.of_nat (length l)) && (Z.of_nat (length l) <? 2 ^ 54)) &&
  all_blocks (fun v t l => (caml_minor_heaps_start h <=? v - 8) && (v + 8 * Z.of_nat (length l) <=? caml_minor_heaps_end h)) &&
  all_blocks (fun v t l => v mod 8 =? 0) &&
  all_blocks (fun v t l => all_blocks (fun v' t' l' => (v =? v') || (v + 8 * Z.of_nat (length l) <=? v' - 8) || (v' + 8 * Z.of_nat (length l') <=? v - 8))) &&
  all_blocks (fun v t l => negb (t =? Infix_tag) && (negb (t =? Forward_tag) || (length l =? 1)%nat) && (negb (t =? Cont_tag) || (length l =? 2)%nat)) &&
  all_blocks (fun v t l => negb (scannedb t) || forallb targetb l) &&
  all_blocks (fun v t l => match l with [f] => negb (t =? Forward_tag) || negb (Is_block f) || Is_young h f || headed f | _ => true end) &&
  forallb (fun a => ((a <? caml_minor_heaps_start h) || (caml_minor_heaps_end h <=? a)) && match words h !! a with Some s => targetb s | None => false end) (elements R) &&
  all_blocks (fun v t l => match l with [k; w] => negb (t =? Cont_tag) || (k =? 1) || stack_okb (Ptr_val k) | _ => true end).
Lemma young_okb_sound : young_okb = true -> young_ok h Y R.
Proof.
  unfold young_okb. rewrite !andb_true_iff, forallb_forall.
  intros ((((((((((H0 & H1) & H2) & H3) & H4) & H5) & H6) & H7) & H8) & H9) & H10). split.
  - by apply Z.leb_le.
  - intros v t l Hy. by apply block_check_sound, (all_blocks_spec block_check _ _ _ H1).
  - intros v t l Hy%(all_blocks_spec _ _ _ _ H2). clear -Hy; lia.
  - intros v t l Hy%(all_blocks_spec _ _ _ _ H3). clear -Hy; lia.
  - intros v t l Hy%(all_blocks_spec _ _ _ _ H4). clear -Hy; lia.
  - intros v t l v' t' l' Hy%(all_blocks_spec _ _ _ _ H5) Hy' Hne. apply (all_blocks_spec _ _ _ _ Hy) in Hy'. clear -Hy' Hne. lia.
  - intros v t l Hy%(all_blocks_spec _ _ _ _ H6). rewrite !andb_true_iff, !orb_true_iff, !negb_true_iff, !Nat.eqb_eq, !Z.eqb_neq in Hy. naive_solver.
  - intros v t l f Hy%(all_blocks_spec _ _ _ _ H7) [Hs1 Hs2] Hf. apply orb_true_iff in Hy as [Hy|Hy]; [unfold scannedb in Hy; clear -Hy Hs1 Hs2; lia|].
    apply targetb_sound. rewrite forallb_forall in Hy. by apply Hy, list_elem_of_In.
  - intros v f Hy%(all_blocks_spec _ _ _ _ H8) Hb Hny. rewrite Z.eqb_refl, Hb, Hny in Hy. cbn in Hy. unfold headed in Hy. rewrite !andb_true_iff in Hy.
    destruct Hy as [[Hr%negb_true_iff Hm] Hw]. split; [by apply bool_decide_eq_false in Hr|]. split; [unfold major_addr; clear -Hm; lia|]. destruct (words h !! (f - 8)) as [w|]; [|done].
    exists w. rewrite andb_true_iff, !negb_true_iff, !Z.eqb_neq in Hw. by destruct Hw.
  - intros a Ha. assert (In a (elements R)) as Hin%H9 by (by apply list_elem_of_In, elem_of_elements). apply andb_true_iff in Hin as [Hm Hw].
    split; [unfold major_addr; clear -Hm; lia|]. destruct (words h !! a) as [s|]; [|done]. exists s. split; [done|]. by apply targetb_sound.
  - intros v k w Hy%(all_blocks_spec _ _ _ _ H10) Hk. rewrite Z.eqb_refl in Hy. cbn in Hy. apply orb_true_iff in Hy as [Hy|Hy]; [clear -Hy Hk; lia|]. by apply stack_okb_sound.
Qed.

Definition slots_okb {D} (M : root_list -> gset Z) (d : domain D) : bool :=
  forallb (fun p => bool_decide (p ∈ R)) (elements (M Mutable_roots) ++ elements (M Young_roots) ++ major_ref h ++
    final_slots (final_first d) (final_last d) false ++ (ephe_slot <$> ephe_ref d) ++ (local_roots d ≫= block_slots) ++ stack_slots (current_stack d)).
Lemma slots_okb_sound {D} M (d : domain D) p : slots_okb M d = true -> root_slot h M d p -> p ∈ R.
Proof.
  unfold slots_okb. rewrite forallb_forall. intros H Hp. apply (bool_decide_eq_true (p ∈ R)), H, list_elem_of_In. rewrite !elem_of_app, !elem_of_elements.
  unfold root_slot in Hp. tauto.
Qed.
End Check.

(** ** Example

    A tuple of a string, an integer and an infix pointer; a closure that points back to the tuple; a
    forwarding block of an integer; a continuation and its stack; two custom blocks, of which one is
    not reachable. *)
#[local] Instance ex_shared : SharedHeap := growing_heap.
#[local] Instance ex_shared_ok : SharedHeapOk ex_shared := growing_heap_ok.
#[local] Instance ex_depth : StackDepth := 4%nat.
#[local] Instance ex_cells : Skiplist.CellMemory := Skiplist.fresh_cells.
#[local] Instance ex_dictionary : Dictionary Skiplist.skiplist := Skiplist.skiplist_dictionary.
#[local] Instance ex_dictionary_ok : DictionaryOk Skiplist.skiplist := Skiplist.skiplist_dictionary_ok (CM := ex_cells) (CellMemoryOk0 := Skiplist.fresh_cells_ok).
#[local] Instance ex_layout : StackLayout := fun stk =>
  if stk =? 20000 then [20048; 20056; 20064; 20072; 20080] else if stk =? 21000 then [21048; 21056; 21064] else [].

Definition ex_young : gmap Z (Z * list Z) := list_to_map [
  (7008, (0, [7104; 11; 7224])); (7104, (String_tag, [1234])); (7200, (Closure_tag, [1001; 5; Make_header 3 Infix_tag 0; 1003; 5; 7008]));
  (7304, (Forward_tag, [7])); (7400, (Cont_tag, [20001; 1])); (7608, (Custom_tag, [40000; 77]))].
Definition ex_write (m : gmap Z Z) (b : Z * (Z * list Z)) : gmap Z Z :=
  let '(v, (t, l)) := b in write_words (v - 8) (Make_header (Z.of_nat (length l)) t 0 :: l) m.
Definition ex_slots : list (Z * Z) := [(30000, 7304); (30008, 7008); (30016, 7104); (30024, 7608); (30032, 0); (30104, 7200); (30112, 7008); (30216, 7400);
  (20048, 7104); (20056, 1); (20064, 1); (20072, 1); (20080, 7224); (21048, 1); (21056, 1); (21064, 1)].
Definition ex_fixed : list (Z * Z) := [(20000, 20048); (20016, 20064); (20088, 0); (21000, 21048); (21016, 21048); (21072, 0); (30040, 99)].
Definition ex_heap : heap :=
  mkHeap (foldl ex_write (list_to_map (ex_slots ++ ex_fixed)) ((7504, (Custom_tag, [40008; 78])) :: map_to_list ex_young)) 6000 4096 4096 8192 0 [30016] [].
Definition ex_R : gset Z := list_to_set ex_slots.*1.
Definition insert_true (l : root_list) (r : Z) (s : roots Skiplist.skiplist) : roots Skiplist.skiplist :=
  match GlobRoots.caml_insert_global_root l r s with Ret (true, s') => s' | _ => s end.
Definition ex_globals : roots Skiplist.skiplist := insert_true Mutable_roots 30008 (insert_true Young_roots 30000 GlobRoots.ex_roots).
Definition ex_M : root_list -> gset Z := GlobRoots.added true Mutable_roots 30008 (GlobRoots.added true Young_roots 30000 (fun _ => ∅)).
Definition ex_domain : domain Skiplist.skiplist := mkDomain ex_globals [mkRootsBlock 2 [30024]] 21000 (mkFinalisable 30104 0 1) (mkFinalisable 0 0 0)
  [(30200, 2)] [mkCustomElt 7504 1 2; mkCustomElt 7608 3 4] 0 0 0.

Lemma insert_true_ok s M l r : holds s M -> roots_mutex s = false ->
  match GlobRoots.caml_insert_global_root l r s with Ret (true, _) => true | _ => false end = true ->
  holds (insert_true l r s) (GlobRoots.added true l r M) /\ roots_mutex (insert_true l r s) = false.
Proof.
  intros HM Hl E. destruct (GlobRoots.insert_root_spec s M l r HM Hl) as (ok & s' & Es & H1 & _ & H2). unfold insert_true. rewrite Es in *. by destruct ok.
Qed.
Lemma ex_young_ok : young_ok ex_heap ex_young ex_R.
Proof. apply young_okb_sound. vm_compute. reflexivity. Qed.
Lemma ex_domain_ok : domain_ok ex_heap ex_R ex_M ex_domain.
Proof.
  assert (holds GlobRoots.ex_roots (fun _ => ∅)) as H0 by (intros l; exists ∅; split; [apply GlobRoots.ex_roots_empty|apply dom_empty_L]).
  destruct (insert_true_ok _ _ Young_roots 30000 H0) as [H1 H2]; [vm_compute; reflexivity..|].
  destruct (insert_true_ok _ _ Mutable_roots 30008 H1 H2) as [H3 H4]; [vm_compute; reflexivity|]. split; [exact H4|exact H3| |].
  - intros p. apply slots_okb_sound. vm_compute. reflexivity.
  - apply stack_okb_sound. vm_compute. reflexivity.
Qed.
Example ex_collect : match caml_empty_minor_heap_promote 1 20 ex_domain ex_heap with
  | Ret (d, h) => (fun a => words h !! a) <$> [30000; 30008; 30016; 30024; 30032; 30104; 30112; 30216; 20048; 20080]
  | _ => [] end = Some <$> [7; 30232; 30264; 30360; 0; 30280; 30232; 30336; 30264; 30304].
Proof. vm_compute. reflexivity. Qed.
Lemma ex_none : ~ young ex_heap 1.
Proof. vm_compute. discriminate. Qed.

Definition ex_promote : result (domain Skiplist.skiplist * heap) := caml_empty_minor_heap_promote 1 20 ex_domain ex_heap.
Lemma ex_promote_ok : collection_ok ex_heap ex_young ex_R ex_M ex_domain ex_promote.
Proof. apply promote_ok; [exact ex_young_ok|vm_compute; lia|exact ex_none|exact ex_dictionary_ok|exact ex_domain_ok]. Qed.

(** The image of the tuple through a root of the example. *)
Lemma minor_collection_witness : exists d h F, caml_empty_minor_heap_promote 1 20 ex_domain ex_heap = Ret (d, h) /\ collected ex_heap ex_young ex_R ex_M ex_domain F h /\
  words h !! 30008 = Some 30232.
Proof.
  pose proof (minor_collection ex_heap ex_young ex_R 20 1 ex_M ex_domain ex_young_ok ex_domain_ok ex_none ltac:(vm_compute; lia)) as H.
  assert (match caml_empty_minor_heap_promote 1 20 ex_domain ex_heap with Ret (d, h) => words h !! 30008 = Some 30232 | _ => False end) as Hc by (vm_compute; reflexivity).
  destruct (caml_empty_minor_heap_promote 1 20 ex_domain ex_heap) as [[d h]| | | |]; try (exfalso; exact Hc).
  destruct H as (_ & _ & _ & F & HF). exists d, h, F. split; [reflexivity|]. split; [exact HF|exact Hc].
Defined.
Lemma ex_custom elt : elt ∈ custom ex_domain -> young ex_heap (elt_block elt) -> exists t fs, minor_block ex_heap ex_young (elt_block elt) t fs.
Proof.
  assert (forall v t l, block_check ex_heap v t l && (1 <=? length l)%nat && (caml_minor_heaps_start ex_heap <=? v - 8) &&
    (v + 8 * Z.of_nat (length l) <=? caml_minor_heaps_end ex_heap) &&
    all_blocks ex_young (fun u _ lu => (u =? v) || (v + 8 * Z.of_nat (length l) <=? u - 8) || (u + 8 * Z.of_nat (length lu) <=? v - 8)) = true ->
    minor_block ex_heap ex_young v t l) as Hb.
  { intros v t l. rewrite !andb_true_iff. intros ((((H1 & H2) & H3) & H4) & H5). split; [by apply block_check_sound|by apply Nat.leb_le|lia|].
    intros u tu lu Hu. apply (all_blocks_spec _ _ _ _ _ H5) in Hu. lia. }
  intros [->|[->|[]%not_elem_of_nil]%elem_of_cons]%elem_of_cons _; eexists Custom_tag, _.
  - apply (Hb 7504 Custom_tag [40008; 78]). vm_compute. reflexivity.
  - apply (Hb 7608 Custom_tag [40000; 77]). vm_compute. reflexivity.
Qed.
Lemma custom_blocks_finalised_witness : exists d h, caml_empty_minor_heap_promote 1 20 ex_domain ex_heap = Ret (d, h) /\
  (exists F, custom_finalize_minor (fun _ => true) h (custom ex_domain) = Ret (custom ex_domain ≫= custom_spec ex_heap (fun _ => true) F)) /\
  custom_finalize_minor (fun _ => true) h (custom ex_domain) = Ret [Finalize 7504; Adjust_gc_speed 3 4].
Proof.
  assert (match caml_empty_minor_heap_promote 1 20 ex_domain ex_heap with
    | Ret (d, h) => custom_finalize_minor (fun _ => true) h (custom ex_domain) = Ret [Finalize 7504; Adjust_gc_speed 3 4] | _ => False end) as Hc by (vm_compute; reflexivity).
  destruct (caml_empty_minor_heap_promote 1 20 ex_domain ex_heap) as [[d h]| | | |] eqn:E; try (exfalso; exact Hc).
  exists d, h. split; [reflexivity|]. split; [|exact Hc].
  destruct (custom_blocks_finalised (fun _ => true) ex_heap ex_young ex_R 20 1 ex_M ex_domain d h ex_young_ok ex_domain_ok ex_none ltac:(vm_compute; lia) ex_custom E)
    as (F & _ & HF). exists F. exact HF.
Defined.
Lemma removed_root_stays_witness : exists d h, caml_empty_minor_heap_promote 1 20 ex_domain ex_heap = Ret (d, h) /\ words h !! 30000 = Some 7 /\
  GlobRoots.caml_remove_generational_global_root h 30000 (globals d) = Ret (globals d).
Proof.
  assert (match caml_empty_minor_heap_promote 1 20 ex_domain ex_heap with Ret _ => true | _ => false end = true) as Hc by (vm_compute; reflexivity).
  destruct (caml_empty_minor_heap_promote 1 20 ex_domain ex_heap) as [[d h]| | | |] eqn:E; try discriminate Hc.
  exists d, h. split; [reflexivity|].
  destruct (removed_root_stays ex_heap ex_young ex_R 20 1 ex_M ex_domain d h 30000 7304 7 ex_young_ok ex_domain_ok ex_none ltac:(vm_compute; lia)
    ltac:(vm_compute; reflexivity) eq_refl eq_refl eq_refl E) as (H1 & H2 & _). split; [exact H1|exact H2].
Defined.
End MinorGcProps.
