(* ===== verification/Finalise.v ===== *)
(** * Finalisers (runtime/finalise.c)

    A domain keeps two tables of values with a function to call when the
    value is unreachable: [first] for [Gc.finalise], [last] for
    [Gc.finalise_last], whose functions do not receive the value.  The entries
    below [old] hold values of the major heap, the others may hold values of the
    minor heap.  When the collectors find a value dead its entry moves from the
    table to the end of the list of blocks to do, where
    [caml_final_do_calls_exn] finds it.

    A table is the list of its entries; the capacity counts the free space
    after them, and is 0 for a table that was not allocated. *)

From S2P Require Import Prelude Memory Barrier Fiber Skiplist GlobRoots MinorGc MinorGcProps.
From stdpp Require Import list.
#[local] Open Scope Z_scope.

Module Finalise.

Record final := mkFinal { fin_fun : Z; fin_val : Z; fin_offset : Z }.
#[export] Instance final_eq_dec : EqDecision final.
Proof. solve_decision. Defined.
Record finalisable := mkFinalisable { table : list final; old : nat; size : Z }.
Definition young (f : finalisable) : nat := length (table f).
(** A block of the list: the entries that are still to be called, and the
    array, as long as it was allocated. *)
Record final_todo := mkTodo { todo_size : nat; item : list final }.
Record caml_final_info := mkInfo {
  first : finalisable;
  updated_first : bool;
  last : finalisable;
  updated_last : bool;
  todo : list final_todo;
  running_finalisation_function : bool;
  action_pending : bool;
}.
Definition set_first_table (f : finalisable) (fi : caml_final_info) : caml_final_info :=
  mkInfo f (updated_first fi) (last fi) (updated_last fi) (todo fi) (running_finalisation_function fi) (action_pending fi).
Definition set_last_table (f : finalisable) (fi : caml_final_info) : caml_final_info :=
  mkInfo (first fi) (updated_first fi) f (updated_last fi) (todo fi) (running_finalisation_function fi) (action_pending fi).
Definition set_updated (u1 u2 : bool) (fi : caml_final_info) : caml_final_info :=
  mkInfo (first fi) u1 (last fi) u2 (todo fi) (running_finalisation_function fi) (action_pending fi).
Definition set_todo_blocks (l : list final_todo) (fi : caml_final_info) : caml_final_info :=
  mkInfo (first fi) (updated_first fi) (last fi) (updated_last fi) l (running_finalisation_function fi) (action_pending fi).
Definition set_running (b : bool) (fi : caml_final_info) : caml_final_info :=
  mkInfo (first fi) (updated_first fi) (last fi) (updated_last fi) (todo fi) b (action_pending fi).
Definition caml_set_action_pending (fi : caml_final_info) : caml_final_info :=
  mkInfo (first fi) (updated_first fi) (last fi) (updated_last fi) (todo fi) (running_finalisation_function fi) true.

(** [memset (f, 0, sizeof(struct caml_final_info))] *)
Definition caml_alloc_final_info : caml_final_info :=
  mkInfo (mkFinalisable [] 0 0) false (mkFinalisable [] 0 0) false [] false false.

Section Operations.
(** Whether an allocation of so many bytes succeeds; the status of the blocks that
    the major collector has not reached. *)
Context (stat_alloc : Z -> bool) (heap_UNMARKED : Z).

Definition uninit : final := mkFinal 0 0 0.
(** A new block at the end of the list, of [n] entries that are not initialised yet. *)
Definition alloc_todo (n : nat) (l : list final_todo) : result (list final_todo) :=
  if stat_alloc (40 + 24 * Z.of_nat n) then Ret (l ++ [mkTodo n (replicate n uninit)])
  else MinorGc.caml_fatal_error "out of memory".
(** An assignment to the array of a block, out of its bounds or not. *)
Definition write_item (items : list final) (k : nat) (e : final) : result (list final) :=
  if decide (k < length items)%nat then Ret (<[k := e]> items) else Undef.
(** The last block, with a new size and new contents. *)
Definition set_tail (n : nat) (items : list final) (l : list final_todo) : list final_todo :=
  removelast l ++ [mkTodo n items].
Definition tail_items (l : list final_todo) : result (list final) := of_option (item <$> list.last l).

(** The entry of a dead value whose function is called with unit. *)
Definition without_value (e : final) : final := mkFinal (fin_fun e) Val_unit 0.

(** ** Major collections *)

Definition is_unmarked (h : heap) (v : Z) : result bool := hd ← Hd_val h v; Ret (Color_hd hd =? heap_UNMARKED).
Fixpoint count_unmarked (h : heap) (l : list final) : result nat :=
  match l with
  | [] => Ret 0%nat
  | e :: l => b ← is_unmarked h (fin_val e); n ← count_unmarked h l; Ret (if b : bool then S n else n)
  end.
(** The loop that both collections have, on [n] entries from [i] on: [test] says whether
    the entry is dead.  A dead entry goes to the block, after [conv]; the others are moved down to [j]. *)
Fixpoint partition_loop (test : list final -> nat -> nat -> result bool) (conv : final -> final) (n i j k : nat) (tb items : list final) :
    result (nat * nat * list final * list final) :=
  match n with
  | O => Ret (j, k, tb, items)
  | S n =>
      dead ← test tb i j;
      e ← of_option (tb !! i);
      if (dead : bool) then
        items ← write_item items k (conv e);
        partition_loop test conv n (S i) j (S k) tb items
      else partition_loop test conv n (S i) (S j) k (<[j := e]> tb) items
  end.
Definition unmarked_test (h : heap) (tb : list final) (i j : nat) : result bool := e ← of_option (tb !! i); is_unmarked h (fin_val e).
(** [for ( ; i < final->young; i++) final->table[j++] = final->table[i];] *)
Fixpoint move_loop (n i j : nat) (tb : list final) : result (nat * list final) :=
  match n with
  | O => Ret (j, tb)
  | S n => e ← of_option (tb !! i); move_loop n (S i) (S j) (<[j := e]> tb)
  end.
Fixpoint darken_items (l : list final) (h : heap) : heap :=
  match l with
  | [] => h
  | e :: l => darken_items l (Barrier.caml_darken h (fin_val e))
  end.
(** The table, the list of blocks, whether an action is pending, and the heap. *)
Definition generic_final_update (h : heap) (f : finalisable) (l : list final_todo) (darken_value : bool) :
    result (finalisable * list final_todo * bool * heap) :=
  todo_count ← count_unmarked h (take (old f) (table f));
  if (0 <? todo_count)%nat then
    l ← alloc_todo todo_count l;
    items ← tail_items l;
    let conv e := if darken_value then e else without_value e in
    '(j, k, tb, items) ← partition_loop (unmarked_test h) conv (old f) 0 0 0 (table f) items;
    '(young, tb) ← move_loop (young f - old f) (old f) j tb;
    Ret (mkFinalisable (take young tb) j (size f), set_tail k items l, true, if darken_value then darken_items (take k items) h else h)
  else Ret (f, l, false, h).
(** The flag of the table is set; the second result is the one of the C function. *)
Definition caml_final_update_first (h : heap) (fi : caml_final_info) : result (bool * caml_final_info * heap) :=
  if updated_first fi then Ret (false, fi, h) else
  '(f, l, pending, h) ← generic_final_update h (first fi) (todo fi) true;
  let fi := set_updated true (updated_last fi) (set_todo_blocks l (set_first_table f fi)) in
  Ret (true, if (pending : bool) then caml_set_action_pending fi else fi, h).
Definition caml_final_update_last (h : heap) (fi : caml_final_info) : result (bool * caml_final_info * heap) :=
  if updated_last fi then Ret (false, fi, h) else
  '(f, l, pending, h) ← generic_final_update h (last fi) (todo fi) false;
  let fi := set_updated (updated_first fi) true (set_todo_blocks l (set_last_table f fi)) in
  Ret (true, if (pending : bool) then caml_set_action_pending fi else fi, h).

(** ** Minor collections *)

(** A value of the minor heap that was not forwarded. *)
Definition unforwarded (h : heap) (v : Z) : result bool :=
  if Is_young h v then hd ← MinorGc.get_header_val h v; Ret (negb (hd =? 0)) else Ret false.
Fixpoint count_dead (h : heap) (l : list final) : result nat :=
  match l with
  | [] => Ret 0%nat
  | e :: l => b ← unforwarded h (fin_val e); n ← count_dead h l; Ret (if b : bool then S n else n)
  end.
(** The code tests the entry [j] where the count above tests the entry [i]. *)
Definition minor_test (h : heap) (tb : list final) (i j : nat) : result bool :=
  ej ← of_option (tb !! j);
  if Is_young h (fin_val ej) then
    e ← of_option (tb !! i); hd ← MinorGc.get_header_val h (fin_val e); Ret (negb (hd =? 0))
  else Ret false.
(** The values that were copied are replaced by their copies. *)
Fixpoint forward_vals (h : heap) (l : list final) : result (list final) :=
  match l with
  | [] => Ret []
  | e :: l =>
      v ← (if Is_young h (fin_val e) then Field h (fin_val e) 0 else Ret (fin_val e));
      l ← forward_vals h l;
      Ret (mkFinal (fin_fun e) v (fin_offset e) :: l)
  end.
Definition generic_final_minor_update (h : heap) (f : finalisable) (l : list final_todo) : result (finalisable * list final_todo * bool) :=
  todo_count ← count_dead h (drop (old f) (table f));
  '(tb, l, pending) ←
    (if (0 <? todo_count)%nat then
       l ← alloc_todo todo_count l;
       items ← tail_items l;
       '(young, k, tb, items) ← partition_loop (minor_test h) without_value (young f - old f) (old f) (old f) 0 (table f) items;
       Ret (take young tb, set_tail todo_count items l, true)
     else Ret (table f, l, false));
  recent ← forward_vals h (drop (old f) tb);
  Ret (mkFinalisable (take (old f) tb ++ recent) (old f) (size f), l, pending).
Definition caml_final_update_last_minor (h : heap) (fi : caml_final_info) : result caml_final_info :=
  '(f, l, pending) ← generic_final_minor_update h (last fi) (todo fi);
  let fi := set_todo_blocks l (set_last_table f fi) in
  Ret (if (pending : bool) then caml_set_action_pending fi else fi).
Definition caml_final_empty_young (fi : caml_final_info) : caml_final_info :=
  let all f := mkFinalisable (table f) (young f) (size f) in
  set_last_table (all (last fi)) (set_first_table (all (first fi)) fi).

(** ** Registration *)

Definition caml_stat_alloc (n : Z) : result unit := if stat_alloc n then Ret tt else Raise Out_of_memory.
Definition generic_final_register (h : heap) (f : finalisable) (fn v : Z) : result finalisable :=
  bad ← (if negb (Is_block v) then Ret true
         else t ← Tag_val h v; Ret ((t =? Lazy_tag) || (t =? Double_tag) || (t =? Forcing_tag) || (t =? Forward_tag)));
  if (bad : bool) then Raise (Invalid_argument "Gc.finalise") else
  new_size ← (if size f <=? Z.of_nat (young f) then
                let new_size := if size f =? 0 then 30 else u64 (size f * 2) in
                _ ← caml_stat_alloc (u64 (new_size * 24)); Ret new_size
              else Ret (size f));
  t ← Tag_val h v;
  offset ← (if t =? Infix_tag then hd ← Hd_val h v; Ret (Infix_offset_hd hd) else Ret 0);
  Ret (mkFinalisable (table f ++ [mkFinal fn (v - offset) (s32 offset)]) (old f) new_size).
Definition caml_final_register (h : heap) (fn v : Z) (fi : caml_final_info) : result (Z * caml_final_info) :=
  f ← generic_final_register h (first fi) fn v; Ret (Val_unit, set_first_table f fi).
Definition caml_final_register_called_without_value (h : heap) (fn v : Z) (fi : caml_final_info) : result (Z * caml_final_info) :=
  f ← generic_final_register h (last fi) fn v; Ret (Val_unit, set_last_table f fi).
Definition caml_final_release (fi : caml_final_info) : Z * caml_final_info := (Val_unit, set_running false fi).

(** The entries of [source] come before those of [target]. *)
Definition caml_final_merge_finalisable (source target : finalisable) : result finalisable :=
  let n := Z.of_nat (young target + young source) in
  new_size ← (if size target <=? n then _ ← caml_stat_alloc (u64 (u64 (2 * n) * 24)); Ret (u64 (2 * n)) else Ret (size target));
  Ret (mkFinalisable (table source ++ table target) (old target + young source) new_size).

(** ** Calls *)

(** [caml_callback_exn]: the function may register values and run collections. *)
Context (caml_callback_exn : Z -> Z -> caml_final_info -> result (Z * caml_final_info)).
Definition Is_exception_result (v : Z) : bool := Z.land v 3 =? 2.
(** The blocks that have been called in full are freed. *)
Fixpoint drop_empty (l : list final_todo) : list final_todo :=
  match l with
  | [] => []
  | b :: l' => if (todo_size b =? 0)%nat then drop_empty l' else l
  end.
Fixpoint calls_loop (fuel : nat) (fi : caml_final_info) : result (Z * caml_final_info) :=
  match fuel with
  | O => NoFuel
  | S n =>
      match drop_empty (todo fi) with
      | [] => Ret (Val_unit, set_todo_blocks [] fi)
      | b :: l =>
          let size := (todo_size b - 1)%nat in
          f ← of_option (item b !! size);
          let fi := set_running true (set_todo_blocks (mkTodo size (item b) :: l) fi) in
          '(res, fi) ← caml_callback_exn (fin_fun f) (fin_val f + fin_offset f) fi;
          let fi := set_running false fi in
          if Is_exception_result res then Ret (res, fi) else calls_loop n fi
      end
  end.
Definition caml_final_do_calls_exn (fuel : nat) (fi : caml_final_info) : result (Z * caml_final_info) :=
  if running_finalisation_function fi then Ret (Val_unit, fi)
  else if bool_decide (todo fi = []) then Ret (Val_unit, fi) else calls_loop fuel fi.

(** ** Roots *)

(** A scanning action on the field of an entry, which it may change. *)
Definition action (A : Type) : Type := A -> Z -> result (A * Z).
Fixpoint scan_entries {A} (act : action A) (do_val : bool) (l : list final) (a : A) : result (A * list final) :=
  match l with
  | [] => Ret (a, [])
  | e :: l =>
      '(a, fn) ← act a (fin_fun e);
      '(a, v) ← (if do_val then act a (fin_val e) else Ret (a, fin_val e));
      '(a, l) ← scan_entries act do_val l a;
      Ret (a, mkFinal fn v (fin_offset e) :: l)
  end.
Fixpoint scan_todo {A} (act : action A) (l : list final_todo) (a : A) : result (A * list final_todo) :=
  match l with
  | [] => Ret (a, [])
  | b :: l =>
      '(a, es) ← scan_entries act true (take (todo_size b) (item b)) a;
      '(a, l) ← scan_todo act l a;
      Ret (a, mkTodo (todo_size b) (es ++ drop (todo_size b) (item b)) :: l)
  end.
Definition caml_final_do_roots {A} (act : action A) (do_val : bool) (fi : caml_final_info) (a : A) : result (A * caml_final_info) :=
  '(a, t1) ← scan_entries act do_val (table (first fi)) a;
  '(a, t2) ← scan_entries act do_val (table (last fi)) a;
  '(a, l) ← scan_todo act (todo fi) a;
  Ret (a, set_todo_blocks l (set_last_table (mkFinalisable t2 (old (last fi)) (size (last fi)))
                       (set_first_table (mkFinalisable t1 (old (first fi)) (size (first fi))) fi))).
End Operations.

(** ** The loops *)

Section Loops.
Context (test : list final -> nat -> nat -> result bool) (conv : final -> final) (Q : final -> Prop) (D : final -> bool).
Definition alive (l : list final) : list final := filter (fun e => D e = false) l.
Definition dead (l : list final) : list final := filter (fun e => D e = true) l.
(** The test, when the entries [kept] have been moved, and those of [junk] are to be overwritten. *)
Hypothesis Htest : forall kept junk e rest, Forall Q junk -> Q e ->
  test (kept ++ junk ++ e :: rest) (length kept + length junk) (length kept) = Ret (D e).

Lemma insert_item (items : list final) k x l : (k < length items)%nat ->
  take (S k) (<[k := x]> items) ++ l ++ drop (S k + length l) (<[k := x]> items) = take k items ++ (x :: l) ++ drop (k + length (x :: l)) items.
Proof.
  intros Hk. rewrite (take_S_r _ _ x) by (by apply list_lookup_insert_eq). rewrite take_insert_ge by lia. rewrite drop_insert_lt by lia.
  cbn [length app]. rewrite <- !app_assoc. cbn. by replace (k + S (length l))%nat with (S (k + length l)) by lia.
Qed.
Lemma move_down (kept junk : list final) e rest :
  <[length kept := e]> (kept ++ junk ++ e :: rest) = (kept ++ [e]) ++ drop 1 (junk ++ [e]) ++ rest.
Proof. rewrite <- (Nat.add_0_r (length kept)), insert_app_r. destruct junk as [|x junk]; cbn; rewrite ?drop_0, <- !app_assoc; done. Qed.

Lemma partition_loop_spec rest : forall kept junk tail items k, Forall Q junk -> Forall Q rest -> (k + length (dead rest) <= length items)%nat ->
  exists junk', length junk' = (length junk + length (dead rest))%nat /\
  partition_loop test conv (length rest) (length kept + length junk) (length kept) k (kept ++ junk ++ rest ++ tail) items =
  Ret ((length kept + length (alive rest))%nat, (k + length (dead rest))%nat, kept ++ alive rest ++ junk' ++ tail,
    take k items ++ (conv <$> dead rest) ++ drop (k + length (dead rest)) items).
Proof.
  induction rest as [|e rest IH]; intros kept junk tail items k Hj Hr Hk; cbn [length partition_loop app].
  { exists junk. cbn. rewrite !Nat.add_0_r, take_drop. done. }
  apply Forall_cons in Hr as [He Hr]. rewrite Htest by done. mred.
  assert ((kept ++ junk ++ e :: rest ++ tail) !! (length kept + length junk)%nat = Some e) as ->.
  { rewrite lookup_app_r by lia. rewrite lookup_app_r by lia. by replace (length kept + length junk - length kept - length junk)%nat with 0%nat by lia. }
  cbn [of_option]. mred. unfold dead, alive in *. rewrite !filter_cons in *. destruct (D e) eqn:Ed.
  - rewrite decide_True, (decide_False (P := true = false)) in * by done. cbn [length] in Hk. unfold write_item. rewrite decide_True by lia. mred.
    destruct (IH kept (junk ++ [e]) tail (<[k := conv e]> items) (S k)) as (junk' & Hl & E); [apply Forall_app; split; [done|by apply Forall_singleton]|done|rewrite length_insert; lia|].
    exists junk'. rewrite length_app in Hl, E. cbn [length] in *. split; [lia|].
    replace (S (length kept + length junk)) with (length kept + (length junk + 1))%nat by lia.
    replace (kept ++ junk ++ e :: rest ++ tail) with (kept ++ (junk ++ [e]) ++ rest ++ tail) by (by rewrite <- !app_assoc). rewrite E.
    pose proof (insert_item items k (conv e) (conv <$> filter (fun e => D e = true) rest) ltac:(lia)) as Ei. rewrite length_fmap in Ei. rewrite Ei. cbn [fmap list_fmap length].
    rewrite length_fmap. do 4 f_equal. lia.
  - rewrite decide_False, (decide_True (P := false = false)) in * by done. rewrite move_down.
    destruct (IH (kept ++ [e]) (drop 1 (junk ++ [e])) tail items k) as (junk' & Hl & E); [|done|done|].
    { apply Forall_drop, Forall_app. split; [done|by apply Forall_singleton]. }
    exists junk'. rewrite length_drop, !length_app in *. cbn [length] in *. split; [lia|].
    replace (S (length kept + length junk)) with (length kept + 1 + (length junk + 1 - 1))%nat by lia.
    replace (S (length kept)) with (length kept + 1)%nat by lia. rewrite E. rewrite <- !app_assoc. cbn. do 4 f_equal. lia.
Qed.
End Loops.

Lemma move_loop_spec tail : forall kept junk, exists junk',
  move_loop (length tail) (length kept + length junk) (length kept) (kept ++ junk ++ tail) = Ret ((length kept + length tail)%nat, kept ++ tail ++ junk').
Proof.
  induction tail as [|e tail IH]; intros kept junk; cbn [length move_loop].
  { exists junk. by rewrite Nat.add_0_r, app_nil_r. }
  assert ((kept ++ junk ++ e :: tail) !! (length kept + length junk)%nat = Some e) as ->.
  { rewrite lookup_app_r by lia. rewrite lookup_app_r by lia. by replace (length kept + length junk - length kept - length junk)%nat with 0%nat by lia. }
  cbn [of_option]. mred. rewrite move_down. destruct (IH (kept ++ [e]) (drop 1 (junk ++ [e]))) as (junk' & E). exists junk'.
  rewrite length_drop, !length_app in E. cbn [length] in E. replace (S (length kept + length junk)) with (length kept + 1 + (length junk + 1 - 1))%nat by lia.
  replace (S (length kept)) with (length kept + 1)%nat by lia. rewrite E. rewrite <- !app_assoc. cbn. do 2 f_equal. lia.
Qed.

(** ** Specifications *)

Section Spec.
Context (stat_alloc : Z -> bool) (heap_UNMARKED : Z).

Lemma alloc_todo_ok n l : stat_alloc (40 + 24 * Z.of_nat n) = true -> alloc_todo stat_alloc n l = Ret (l ++ [mkTodo n (replicate n uninit)]).
Proof. intros H. unfold alloc_todo. by rewrite H. Qed.
Lemma tail_items_ok l b : tail_items (l ++ [b]) = Ret (item b).
Proof. unfold tail_items. by rewrite last_snoc. Qed.
Lemma set_tail_ok l b n items : set_tail n items (l ++ [b]) = l ++ [mkTodo n items].
Proof. unfold set_tail. by rewrite removelast_last. Qed.
Lemma count_unmarked_ok h D l : (forall e, e ∈ l -> is_unmarked heap_UNMARKED h (fin_val e) = Ret (D e)) -> count_unmarked heap_UNMARKED h l = Ret (length (dead D l)).
Proof.
  induction l as [|e l IH]; intros H; [done|]. cbn [count_unmarked]. rewrite H by left. mred. rewrite IH by (intros x Hx; apply H; by right). mred.
  unfold dead. rewrite filter_cons. destruct (D e); [by rewrite decide_True|by rewrite decide_False].
Qed.
Lemma count_dead_ok h D l : (forall e, e ∈ l -> unforwarded h (fin_val e) = Ret (D e)) -> count_dead h l = Ret (length (dead D l)).
Proof.
  induction l as [|e l IH]; intros H; [done|]. cbn [count_dead]. rewrite H by left. mred. rewrite IH by (intros x Hx; apply H; by right). mred.
  unfold dead. rewrite filter_cons. destruct (D e); [by rewrite decide_True|by rewrite decide_False].
Qed.
Lemma darken_items_ok l : forall h, darken_items l h = set_darkened (rev (fin_val <$> l) ++ darkened h) h.
Proof.
  induction l as [|e l IH]; intros h; cbn [darken_items]; [by destruct h|]. rewrite IH. destruct h. cbn. unfold set_darkened. cbn. by rewrite <- app_assoc.
Qed.
Lemma alive_all D l : dead D l = [] -> alive D l = l.
Proof.
  unfold dead, alive. induction l as [|e l IH]; [done|]. rewrite !filter_cons. destruct (D e) eqn:E; [by rewrite decide_True|].
  rewrite decide_False, (decide_True (P := false = false)) by done. intros H. by rewrite IH.
Qed.

(** What a collection leaves of a table, and the block that it adds. *)
Definition updated (conv : final -> final) (D : final -> bool) (l : list final_todo) (dying : list final) : list final_todo :=
  if decide (dead D dying = []) then l else l ++ [mkTodo (length (dead D dying)) (conv <$> dead D dying)].

(** The whole array of the new block has been written. *)
Lemma fill_items conv D l : take 0 (replicate (length (dead D l)) uninit) ++ (conv <$> dead D l) ++ drop (length (dead D l)) (replicate (length (dead D l)) uninit) = conv <$> dead D l.
Proof. rewrite take_0. cbn [app]. rewrite drop_ge by (rewrite length_replicate; lia). apply app_nil_r. Qed.
Lemma alive_dead D l : (length (alive D l) + length (dead D l))%nat = length l.
Proof.
  unfold alive, dead. induction l as [|e l IH]; [done|]. rewrite !filter_cons. destruct (D e).
  - rewrite decide_False, (decide_True (P := true = true)) by done. cbn. lia.
  - rewrite decide_True, (decide_False (P := false = true)) by done. cbn. lia.
Qed.

Lemma generic_final_update_ok h f l (dv : bool) D : (old f <= young f)%nat ->
  (forall e, e ∈ take (old f) (table f) -> is_unmarked heap_UNMARKED h (fin_val e) = Ret (D e)) ->
  (forall n, stat_alloc n = true) ->
  let dying := take (old f) (table f) in
  let conv e := if dv then e else without_value e in
  generic_final_update stat_alloc heap_UNMARKED h f l dv =
  Ret (mkFinalisable (alive D dying ++ drop (old f) (table f)) (length (alive D dying)) (size f), updated conv D l dying, bool_decide (dead D dying <> []),
    if dv then set_darkened (rev (fin_val <$> dead D dying) ++ darkened h) h else h).
Proof.
  intros Hle Htest Hal dying conv. unfold generic_final_update. rewrite (count_unmarked_ok h D) by done. mred. fold dying. unfold updated.
  assert (length dying = old f) as Hlen by (unfold dying; rewrite length_take; unfold young in Hle; lia).
  destruct (decide (dead D dying = [])) as [Ed|Ed].
  - rewrite bool_decide_false by tauto. rewrite Ed, (alive_all D dying Ed), Hlen. unfold dying. rewrite take_drop. destruct f, h. cbn. destruct dv; done.
  - rewrite bool_decide_true by done. assert (0 < length (dead D dying))%nat as Hpos by (destruct (dead D dying); [done|cbn; lia]).
    rewrite (proj2 (Nat.ltb_lt _ _)) by done. rewrite alloc_todo_ok by done. mred. rewrite tail_items_ok. mred. cbn [item]. cbv zeta. fold conv.
    change (fun e => if dv then e else without_value e) with conv.
    destruct (partition_loop_spec (unmarked_test heap_UNMARKED h) conv (fun e => e ∈ dying) D) with (rest := dying) (kept := @nil final) (junk := @nil final)
      (tail := drop (old f) (table f)) (items := replicate (length (dead D dying)) uninit) (k := 0%nat) as (junk' & Hj & E).
    + intros kept junk e rest _ He. unfold unmarked_test. rewrite lookup_app_r by lia. rewrite lookup_app_r by lia.
      replace (length kept + length junk - length kept - length junk)%nat with 0%nat by lia. cbn. by apply Htest.
    + done.
    + by apply Forall_forall.
    + by rewrite length_replicate.
    + cbn [length app Nat.add] in E. unfold dying at 2 in E. rewrite take_drop, Hlen in E. rewrite E. mred.
      destruct (move_loop_spec (drop (old f) (table f)) (alive D dying) junk') as (junk2 & E2). rewrite length_drop in E2. unfold young.
      cbn [length Nat.add] in Hj. rewrite Hj, alive_dead, Hlen in E2. rewrite E2. mred. rewrite set_tail_ok, fill_items.
      replace (length (alive D dying) + (length (table f) - old f))%nat with (length (alive D dying ++ drop (old f) (table f))) by (rewrite length_app, length_drop; done).
      rewrite app_assoc, take_app_length. do 3 f_equal. destruct dv; [|done]. rewrite take_ge by (rewrite length_fmap; lia). rewrite darken_items_ok. unfold conv. by rewrite list_fmap_id.
Qed.

(** The entry of a value that was copied. *)
Definition forwarded (G : Z -> Z) (e : final) : final := mkFinal (fin_fun e) (G (fin_val e)) (fin_offset e).
Lemma forward_vals_ok h G l : (forall e, e ∈ l -> Is_young h (fin_val e) = true /\ Field h (fin_val e) 0 = Ret (G (fin_val e))) ->
  forward_vals h l = Ret (forwarded G <$> l).
Proof.
  induction l as [|e l IH]; intros H; [done|]. cbn [forward_vals]. destruct (H e ltac:(left)) as [-> ->]. mred. rewrite IH by (intros x Hx; apply H; by right). done.
Qed.
(** When every recent entry holds a value of the minor heap. *)
Lemma minor_update_ok h f l D G : (old f <= young f)%nat -> let recent := drop (old f) (table f) in
  (forall e, e ∈ recent -> Is_young h (fin_val e) = true) -> (forall e, e ∈ recent -> unforwarded h (fin_val e) = Ret (D e)) ->
  (forall e, e ∈ recent -> D e = false -> Field h (fin_val e) 0 = Ret (G (fin_val e))) -> (forall n, stat_alloc n = true) ->
  generic_final_minor_update stat_alloc h f l =
  Ret (mkFinalisable (take (old f) (table f) ++ (forwarded G <$> alive D recent)) (old f) (size f), updated without_value D l recent, bool_decide (dead D recent <> [])).
Proof.
  intros Hle recent Hy HD HG Hal. unfold generic_final_minor_update. rewrite (count_dead_ok h D) by done. mred. fold recent. unfold updated.
  assert (length (take (old f) (table f)) = old f) as Hlen by (rewrite length_take; unfold young in Hle; lia).
  assert (length recent = (young f - old f)%nat) as Hlr by (unfold recent; by rewrite length_drop).
  assert (forward_vals h (alive D recent) = Ret (forwarded G <$> alive D recent)) as Hfv.
  { apply forward_vals_ok. intros e [Hd He]%list_elem_of_filter. split; [by apply Hy|by apply HG]. }
  assert (forall junk', drop (old f) (take (old f) (table f) ++ alive D recent ++ junk') = alive D recent ++ junk') as Hdrop by (intros; by apply drop_app_length').
  destruct (decide (dead D recent = [])) as [Ed|Ed].
  - rewrite bool_decide_false by tauto. rewrite Ed. cbn [length Nat.ltb Nat.leb]. mred. fold recent. rewrite (alive_all D recent Ed) in *. rewrite Hfv. done.
  - rewrite bool_decide_true by done. assert (0 < length (dead D recent))%nat as Hpos by (destruct (dead D recent); [done|cbn; lia]).
    rewrite (proj2 (Nat.ltb_lt _ _)) by done. rewrite alloc_todo_ok by done. mred. rewrite tail_items_ok. mred. cbn [item].
    destruct (partition_loop_spec (minor_test h) without_value (fun e => e ∈ recent) D) with (rest := recent) (kept := take (old f) (table f)) (junk := @nil final)
      (tail := @nil final) (items := replicate (length (dead D recent)) uninit) (k := 0%nat) as (junk' & Hj & E).
    + intros kept junk e rest Hjunk He. unfold minor_test.
      assert (exists x, (kept ++ junk ++ e :: rest) !! length kept = Some x /\ x ∈ recent) as (x & -> & Hx).
      { rewrite lookup_app_r, Nat.sub_diag by lia. destruct junk as [|x junk]; [by exists e|]. exists x. split; [done|]. by apply Forall_cons in Hjunk as [? _]. }
      cbn [of_option]. mred. rewrite (Hy x Hx). rewrite lookup_app_r by lia. rewrite lookup_app_r by lia.
      replace (length kept + length junk - length kept - length junk)%nat with 0%nat by lia. cbn. pose proof (HD e He) as H. unfold unforwarded in H. by rewrite (Hy e He) in H.
    + done.
    + by apply Forall_forall.
    + by rewrite length_replicate.
    + rewrite Hlen, Hlr in E. cbn [length app Nat.add] in E. rewrite Nat.add_0_r, app_nil_r in E. unfold recent at 1 in E. rewrite take_drop in E. rewrite E. mred.
      rewrite set_tail_ok, fill_items, app_nil_r.
      replace (old f + length (alive D recent))%nat with (length (take (old f) (table f) ++ alive D recent)) by (rewrite length_app; lia).
      rewrite app_assoc, take_app_length. pose proof (Hdrop []) as Hd. rewrite app_nil_r in Hd. rewrite Hd, Hfv. mred. by rewrite take_app_length'.
Qed.
End Spec.

(** ** The list of blocks as a queue *)

(** The calls to come, in order: the blocks from the first one, each from its last entry. *)
Definition calls (l : list final_todo) : list final := l ≫= fun b => rev (take (todo_size b) (item b)).
Definition todo_ok (l : list final_todo) : Prop := Forall (fun b => (todo_size b <= length (item b))%nat) l.
Lemma calls_app l1 l2 : calls (l1 ++ l2) = calls l1 ++ calls l2.
Proof. apply bind_app. Qed.
Lemma drop_empty_calls l : todo_ok l -> todo_ok (drop_empty l) /\ calls (drop_empty l) = calls l.
Proof.
  induction l as [|b l IH]; intros H; [done|]. cbn [drop_empty]. destruct (Nat.eqb_spec (todo_size b) 0) as [E|E]; [|done].
  apply Forall_cons in H as [_ H]. destruct (IH H) as [H1 H2]. split; [done|]. rewrite H2. unfold calls. cbn. rewrite E, take_0. done.
Qed.
Lemma drop_empty_head l b l' : drop_empty l = b :: l' -> (0 < todo_size b)%nat.
Proof. induction l as [|c l IH]; [done|]. cbn [drop_empty]. destruct (Nat.eqb_spec (todo_size c) 0); [done|]. intros [= <- <-]. lia. Qed.
Lemma updated_calls conv D l dying : todo_ok l -> todo_ok (updated conv D l dying) /\ calls (updated conv D l dying) = calls l ++ rev (conv <$> dead D dying).
Proof.
  intros H. unfold updated. destruct (decide _) as [->|]; [by rewrite app_nil_r|]. rewrite calls_app. split.
  - apply Forall_app. split; [done|]. apply Forall_singleton. cbn. by rewrite length_fmap.
  - f_equal. unfold calls. cbn. rewrite app_nil_r, take_ge; [done|]. by rewrite length_fmap.
Qed.
Section Calls.
Context (cb : Z -> Z -> caml_final_info -> result (Z * caml_final_info)).
Lemma calls_loop_step n fi e es : todo_ok (todo fi) -> calls (todo fi) = e :: es -> exists l, todo_ok l /\ calls l = es /\
  calls_loop cb (S n) fi = ('(res, fi) ← cb (fin_fun e) (fin_val e + fin_offset e) (set_running true (set_todo_blocks l fi));
    let fi := set_running false fi in if Is_exception_result res then Ret (res, fi) else calls_loop cb n fi).
Proof.
  intros Hok Hc. cbn [calls_loop]. destruct (drop_empty_calls (todo fi) Hok) as [Hok' Hc']. rewrite Hc in Hc'. destruct (drop_empty (todo fi)) as [|b l] eqn:E; [done|].
  apply drop_empty_head in E. apply Forall_cons in Hok' as [Hb Hl]. destruct (lookup_lt_is_Some_2 (item b) (todo_size b - 1)) as [x Hx]; [lia|].
  rewrite Hx. cbn [of_option]. mred. exists (mkTodo (todo_size b - 1) (item b) :: l). unfold calls in *. cbn in *.
  replace (todo_size b) with (S (todo_size b - 1)) in Hc' by lia. rewrite (take_S_r _ _ _ Hx), rev_app_distr in Hc'. cbn in Hc'. injection Hc' as -> <-.
  split_and!; [|done|done]. apply Forall_cons. split; [cbn; lia|done].
Qed.
Lemma calls_loop_end n fi : todo_ok (todo fi) -> calls (todo fi) = [] -> calls_loop cb (S n) fi = Ret (Val_unit, set_todo_blocks [] fi).
Proof.
  intros Hok Hc. cbn [calls_loop]. destruct (drop_empty_calls (todo fi) Hok) as [Hok' Hc']. rewrite Hc in Hc'. destruct (drop_empty (todo fi)) as [|b l] eqn:E; [done|].
  apply drop_empty_head in E. apply Forall_cons in Hok' as [Hb _]. exfalso. unfold calls in Hc'. cbn in Hc'. apply app_eq_nil in Hc' as [Hc' _].
  apply (f_equal length) in Hc'. rewrite length_rev, length_take in Hc'. cbn in Hc'. lia.
Qed.
(** Functions that leave the list alone are called one after the other. *)
Lemma calls_loop_returns : (forall f v fi, exists res fi', cb f v fi = Ret (res, fi') /\ todo fi' = todo fi) ->
  forall n fi, todo_ok (todo fi) -> (length (calls (todo fi)) < n)%nat -> exists res fi', calls_loop cb n fi = Ret (res, fi').
Proof.
  intros Hcb. induction n as [|n IH]; intros fi Hok Hn; [lia|]. destruct (calls (todo fi)) as [|e es] eqn:E.
  - rewrite calls_loop_end by done. by eexists _, _.
  - destruct (calls_loop_step n fi e es Hok E) as (l & Hl & Hc & ->). destruct (Hcb (fin_fun e) (fin_val e + fin_offset e) (set_running true (set_todo_blocks l fi))) as (res & fi' & -> & Ht).
    mred. cbn in Ht. destruct (Is_exception_result res); [by eexists _, _|]. apply IH; cbn [todo set_running]; rewrite Ht; [done|]. rewrite Hc. cbn in Hn. lia.
Qed.
End Calls.

(** ** Properties *)

(** C14: The values that a major collection finds dead are finalised, once each and in a
    fixed order.  At the end of marking, the entries of the old part of a table whose
    value is unmarked leave the table and join the queue of calls, the last one first; the
    others stay, in order.  The values of [Gc.finalise] are darkened and
    passed to their functions, those of [Gc.finalise_last] are not.
    [caml_final_do_calls_exn] takes the first call of the queue, calls its
    function on the value while no other call can start, and goes on with the queue it finds
    after the call, until the queue is empty or a function raises. *)
Theorem finalisers_queued (stat_alloc : Z -> bool) (heap_UNMARKED : Z) (h : heap) (fi : caml_final_info) (D : final -> bool) :
  (forall n, stat_alloc n = true) -> todo_ok (todo fi) ->
  (old (first fi) <= young (first fi))%nat -> (old (last fi) <= young (last fi))%nat ->
  (forall e, e ∈ take (old (first fi)) (table (first fi)) \/ e ∈ take (old (last fi)) (table (last fi)) -> is_unmarked heap_UNMARKED h (fin_val e) = Ret (D e)) ->
  (updated_first fi = false -> exists fi' h', caml_final_update_first stat_alloc heap_UNMARKED h fi = Ret (true, fi', h') /\
     let dying := take (old (first fi)) (table (first fi)) in
     table (first fi') = alive D dying ++ drop (old (first fi)) (table (first fi)) /\ old (first fi') = length (alive D dying) /\
     todo_ok (todo fi') /\ calls (todo fi') = calls (todo fi) ++ rev (dead D dying) /\
     h' = set_darkened (rev (fin_val <$> dead D dying) ++ darkened h) h /\ (dead D dying <> [] -> action_pending fi' = true) /\ updated_first fi' = true) /\
  (updated_last fi = false -> exists fi', caml_final_update_last stat_alloc heap_UNMARKED h fi = Ret (true, fi', h) /\
     let dying := take (old (last fi)) (table (last fi)) in
     table (last fi') = alive D dying ++ drop (old (last fi)) (table (last fi)) /\ old (last fi') = length (alive D dying) /\
     todo_ok (todo fi') /\ calls (todo fi') = calls (todo fi) ++ rev (without_value <$> dead D dying) /\
     (dead D dying <> [] -> action_pending fi' = true) /\ updated_last fi' = true) /\
  (forall cb n e es, running_finalisation_function fi = false -> calls (todo fi) = e :: es -> exists l, todo_ok l /\ calls l = es /\
     caml_final_do_calls_exn cb (S n) fi =
     ('(res, fi) ← cb (fin_fun e) (fin_val e + fin_offset e) (set_running true (set_todo_blocks l fi));
      let fi := set_running false fi in if Is_exception_result res then Ret (res, fi) else calls_loop cb n fi)) /\
  (forall cb n, calls (todo fi) = [] -> exists fi', caml_final_do_calls_exn cb (S n) fi = Ret (Val_unit, fi')) /\
  (forall cb n, (forall f v fi, exists res fi', cb f v fi = Ret (res, fi') /\ todo fi' = todo fi) -> (length (calls (todo fi)) < n)%nat ->
     exists res fi', caml_final_do_calls_exn cb n fi = Ret (res, fi')).
Proof.
  intros Hal Hok Ho1 Ho2 HD. split_and!.
  - intros Hu. unfold caml_final_update_first. rewrite Hu. rewrite (generic_final_update_ok stat_alloc heap_UNMARKED h (first fi) (todo fi) true D) by auto. mred.
    eexists _, _. split; [reflexivity|]. cbv zeta. set (dying := take _ _). destruct (updated_calls (fun e => e) D (todo fi) dying Hok) as [H1 H2]. rewrite list_fmap_id in H2.
    destruct (bool_decide_reflect (dead D dying <> [])); by split_and!.
  - intros Hu. unfold caml_final_update_last. rewrite Hu. rewrite (generic_final_update_ok stat_alloc heap_UNMARKED h (last fi) (todo fi) false D) by auto. mred.
    eexists. split; [reflexivity|]. cbv zeta. set (dying := take _ _). destruct (updated_calls without_value D (todo fi) dying Hok) as [H1 H2].
    destruct (bool_decide_reflect (dead D dying <> [])); by split_and!.
  - intros cb n e es Hr Hc. unfold caml_final_do_calls_exn. rewrite Hr, bool_decide_false by (intros E; by rewrite E in Hc). by apply calls_loop_step.
  - intros cb n Hc. unfold caml_final_do_calls_exn. destruct (running_finalisation_function fi); [by eexists|]. destruct (bool_decide _); [by eexists|].
    rewrite calls_loop_end by done. by eexists.
  - intros cb n Hcb Hn. unfold caml_final_do_calls_exn. destruct (running_finalisation_function fi); [by eexists _, _|]. destruct (bool_decide _); [by eexists _, _|].
    by apply calls_loop_returns.
Qed.

(** C15: [Gc.finalise_last] and minor collections.  After a minor collection, if every recent
    entry of the table holds a block of the minor heap, the entries whose
    block was promoted stay in the table with the copy of the block, and
    the functions of the others join the queue of calls, to be called with unit. *)
Theorem finalise_last_minor `{SL : MinorGcProps.StackLayout} {D : Type} (stat_alloc : Z -> bool) (h h' : heap) (Y : gmap Z (Z * list Z)) (R : gset Z)
    (M : GlobRoots.root_list -> gset Z) (d : MinorGc.domain D) (F : gmap Z Z) (fi : caml_final_info) :
  MinorGcProps.collected h Y R M d F h' -> same_regions h h' -> (forall n, stat_alloc n = true) -> todo_ok (todo fi) ->
  (old (last fi) <= young (last fi))%nat ->
  let recent := drop (old (last fi)) (table (last fi)) in
  let lost e := bool_decide (F !! fin_val e = None) in
  (forall e, e ∈ recent -> exists t fs, MinorGcProps.minor_block h Y (fin_val e) t fs) ->
  exists fi', caml_final_update_last_minor stat_alloc h' fi = Ret fi' /\
    table (last fi') = take (old (last fi)) (table (last fi)) ++ (forwarded (fun v => default 0 (F !! v)) <$> alive lost recent) /\
    todo_ok (todo fi') /\ calls (todo fi') = calls (todo fi) ++ rev (without_value <$> dead lost recent) /\
    (dead lost recent <> [] -> action_pending fi' = true).
Proof.
  intros Hcl [E1 E2] Hal Hok Ho recent lost Hr. unfold caml_final_update_last_minor.
  assert (forall e, e ∈ recent -> Is_young h' (fin_val e) = true) as Hy.
  { intros e He. destruct (Hr e He) as (t & fs & [_ Hsz Har _]). unfold Is_young. rewrite E1, E2. apply andb_true_iff. rewrite !Z.ltb_lt. lia. }
  rewrite (minor_update_ok stat_alloc h' (last fi) (todo fi) lost (fun v => default 0 (F !! v))); [| | | | |done]; try done; fold recent.
  - mred. eexists. split; [reflexivity|]. destruct (updated_calls without_value lost (todo fi) recent Hok) as [H1 H2].
    destruct (bool_decide_reflect (dead lost recent <> [])); by split_and!.
  - intros e He. destruct (Hr e He) as (t & fs & Hmb). unfold unforwarded. rewrite (Hy e He). unfold lost. destruct (F !! fin_val e) as [n|] eqn:Ef.
    + destruct (MinorGcProps.cl_forward _ _ _ _ _ _ _ Hcl _ _ Ef) as [H0 _]. rewrite (MinorGcProps.get_header_Ret _ _ 0) by done. mred. by rewrite bool_decide_false.
    + pose proof (MinorGcProps.cl_kept _ _ _ _ _ _ _ Hcl _ _ _ Ef Hmb) as [_ Hs _]. pose proof (MinorGcProps.mb_size _ _ _ _ _ Hmb) as Hsz.
      unfold Wosize_val, Hd_val, load in Hs. destruct (words h' !! (fin_val e - 8)) as [w|] eqn:Ew; [|done]. cbn [of_option] in Hs. mred in Hs. injection Hs as Hs.
      destruct (MinorGcProps.header_nonzero w) as [Hz Hp]; [lia|]. rewrite (MinorGcProps.get_header_Ret _ _ w) by done. mred.
      rewrite (proj2 (Z.eqb_neq _ _)) by done. by rewrite bool_decide_true.
  - intros e He Hl. unfold lost in Hl. apply bool_decide_eq_false in Hl. destruct (F !! fin_val e) as [n|] eqn:Ef; [|done].
    destruct (MinorGcProps.cl_forward _ _ _ _ _ _ _ Hcl _ _ Ef) as [_ H0]. unfold Field, load. rewrite Z.mul_0_r, Z.add_0_r, H0. done.
Qed.

(** C18: The update of [Gc.finalise_last] after a minor collection is wrong when a recent entry
    holds a value of the major heap: the loop tests whether the entry [j] is in
    the minor heap, and not the entry [i].  If the first recent entry is
    dead and the next one holds a value of the major heap, which is not
    dead, both are taken for dead and the second one is written after the end of a
    block that was allocated for one. *)
Theorem minor_update_overflow (stat_alloc : Z -> bool) (h : heap) (pre : list final) (e0 e1 : final) (sz : Z) (l : list final_todo) (hd : Z) :
  (forall n, stat_alloc n = true) -> unforwarded h (fin_val e0) = Ret true -> Is_young h (fin_val e1) = false ->
  MinorGc.get_header_val h (fin_val e1) = Ret hd -> hd <> 0 ->
  generic_final_minor_update stat_alloc h (mkFinalisable (pre ++ [e0; e1]) (length pre) sz) l = Undef.
Proof.
  intros Hal H0 Hy Hh Hz. unfold generic_final_minor_update. cbn [old table]. rewrite drop_app_length. cbn [count_dead]. rewrite H0. mred.
  unfold unforwarded at 1. rewrite Hy. mred. cbn [Nat.ltb Nat.leb]. rewrite alloc_todo_ok by done. mred. rewrite tail_items_ok. mred. cbn [item].
  unfold young. cbn [table]. rewrite length_app. replace (length pre + length [e0; e1] - length pre)%nat with 2%nat by (cbn; lia).
  cbn [partition_loop replicate]. unfold minor_test. 
  assert ((pre ++ [e0; e1]) !! length pre = Some e0) as E0 by (by rewrite lookup_app_r, Nat.sub_diag by lia).
  rewrite E0. cbn [of_option]. mred. unfold unforwarded in H0.
  destruct (Is_young h (fin_val e0)); [|done]. rewrite H0. mred.
  change (write_item [uninit] 0 (without_value e0)) with (Ret [without_value e0]). mred.
  assert ((pre ++ [e0; e1]) !! S (length pre) = Some e1) as ->.
  { rewrite lookup_app_r by lia. by replace (S (length pre) - length pre)%nat with 1%nat by lia. }
  cbn [of_option]. mred. rewrite Hh. mred. rewrite (proj2 (Z.eqb_neq _ _)) by done. cbn [negb]. done.
Qed.

(** ** Examples *)

Definition ex_words : list (Z * Z) := [(50000, Make_header 1 0 256); (50008, 1); (50100, Make_header 1 0 0); (50108, 1); (5000, Make_header 1 0 0); (5008, 1)].
Definition ex_heap : heap := mkHeap (list_to_map ex_words) 4900 4096 4096 8192 0 [] [].
Definition ex_entries : list final := [mkFinal 60000 50008 0; mkFinal 60008 50108 0; mkFinal 60016 50008 0; mkFinal 60024 5008 0].
Definition ex_info : caml_final_info := mkInfo (mkFinalisable ex_entries 3 30) false (mkFinalisable [] 0 0) false [] false false.
Definition ex_dead (e : final) : bool := fin_val e =? 50008.

(** Two of the three old entries have an unmarked value; the calls. *)
Lemma finalisers_queued_witness : exists fi h, caml_final_update_first (fun _ => true) 256 ex_heap ex_info = Ret (true, fi, h) /\
  calls (todo fi) = [mkFinal 60016 50008 0; mkFinal 60000 50008 0].
Proof.
  destruct (finalisers_queued (fun _ => true) 256 ex_heap ex_info ex_dead) as (H & _).
  - reflexivity.
  - apply Forall_nil. exact I.
  - apply Nat.leb_le. reflexivity.
  - apply Nat.leb_le. reflexivity.
  - intros e [He|He]; [|by apply not_elem_of_nil in He].
    repeat (apply elem_of_cons in He as [->|He]; [vm_compute; reflexivity|]). by apply not_elem_of_nil in He.
  - destruct (H eq_refl) as (fi & h & E & _ & _ & _ & Hc & _). exists fi, h. split; [exact E|]. rewrite Hc. vm_compute. reflexivity.
Defined.
Example ex_calls : match caml_final_update_first (fun _ => true) 256 ex_heap ex_info with
  | Ret (_, fi, h) => match caml_final_do_calls_exn (fun f v fi => Ret (Val_unit, set_updated true true fi)) 5 fi with
                      | Ret (res, fi) => (res, length (todo fi), fin_fun <$> table (first fi), darkened h)
                      | _ => (0, 0%nat, [], []) end
  | _ => (0, 0%nat, [], []) end = (Val_unit, 0%nat, [60008; 60024], [50008; 50008]).
Proof. vm_compute. reflexivity. Qed.

(** After the collection of the example of [MinorGcProps], a custom block of the table was
    promoted and the other was not. *)
Definition ex_last : caml_final_info :=
  mkInfo (mkFinalisable [] 0 0) false (mkFinalisable [mkFinal 60000 7504 0; mkFinal 60008 7608 0] 0 30) false [] false false.
Lemma finalise_last_minor_witness : exists d h fi, MinorGcProps.ex_promote = Ret (d, h) /\
  caml_final_update_last_minor (fun _ => true) h ex_last = Ret fi /\ todo_ok (todo fi) /\ table (last fi) = [mkFinal 60008 30360 0].
Proof.
  pose proof MinorGcProps.ex_promote_ok as H.
  assert (match MinorGcProps.ex_promote with
    | Ret (d, h) => match caml_final_update_last_minor (fun _ => true) h ex_last with Ret fi => table (last fi) = [mkFinal 60008 30360 0] | _ => False end
    | _ => False end) as Hc by (vm_compute; reflexivity).
  destruct MinorGcProps.ex_promote as [[d h]| | | |]; try (exfalso; exact Hc).
  destruct H as (_ & _ & Hh & F & HF).
  destruct (finalise_last_minor (fun _ => true) MinorGcProps.ex_heap h MinorGcProps.ex_young MinorGcProps.ex_R MinorGcProps.ex_M MinorGcProps.ex_domain F ex_last HF)
    as (fi & E & _ & Hok & _).
  - rewrite Hh. split; reflexivity.
  - reflexivity.
  - apply Forall_nil. exact I.
  - apply Nat.leb_le. reflexivity.
  - intros e He. apply elem_of_cons in He as [->|He].
    + apply (MinorGcProps.ex_custom (MinorGc.mkCustomElt 7504 1 2)); [left|vm_compute; reflexivity].
    + apply elem_of_cons in He as [->|He]; [|by apply not_elem_of_nil in He].
      apply (MinorGcProps.ex_custom (MinorGc.mkCustomElt 7608 3 4)); [right; left|vm_compute; reflexivity].
  - exists d, h, fi. split; [reflexivity|]. split; [exact E|]. split; [exact Hok|]. rewrite E in Hc. exact Hc.
Defined.

(** The block of 5008 is in the minor heap, that of 50008 is not. *)
Lemma minor_update_overflow_witness :
  generic_final_minor_update (fun _ => true) ex_heap (mkFinalisable [mkFinal 60000 5008 0; mkFinal 60008 50008 0] 0 30) [] = Undef.
Proof.
  apply (minor_update_overflow (fun _ => true) ex_heap [] (mkFinal 60000 5008 0) (mkFinal 60008 50008 0) 30 [] (Make_header 1 0 256)).
  - reflexivity.
  - vm_compute. reflexivity.
  - vm_compute. reflexivity.
  - vm_compute. reflexivity.
  - vm_compute. discriminate.
Defined.
End Finalise.
