(* ===== verification/Digest.v ===== *)
(** * Message digests (runtime/md5.c and runtime/blake2.c)

    A digest is computed from a context that takes the data in pieces.  A byte
    is a [Z] between 0 and 255; the arrays of the contexts are lists. *)

From S2P Require Import Prelude Memory Strings.
From stdpp Require Import list.
#[local] Open Scope Z_scope.
Import Strings.

Module Digest.

(** [memcpy(dst + i, src, ...)] on an array. *)
Definition memcpy (dst : list Z) (i : nat) (src : list Z) : list Z := list_inserts i src dst.
Definition memset (dst : list Z) (i : nat) (c : Z) (n : nat) : list Z := list_inserts i (replicate n c) dst.

(** ** MD5 *)

Record MD5Context := mkMD5 { buf : list Z; bits0 : Z; bits1 : Z; md5_in : list Z }.
(** The stack variable of the callers is not initialised: [junk] is what its
    array holds. *)
Definition caml_MD5Init (junk : list Z) : MD5Context :=
  mkMD5 [0x67452301; 0xefcdab89; 0x98badcfe; 0x10325476] 0 0 junk.

Definition F1 (x y z : Z) : Z := Z.lxor z (Z.land x (Z.lxor y z)).
Definition F2 (x y z : Z) : Z := F1 z x y.
Definition F3 (x y z : Z) : Z := Z.lxor (Z.lxor x y) z.
Definition F4 (x y z : Z) : Z := Z.lxor y (Z.lor x (u32 (Z.lnot z))).
Definition MD5STEP (f : Z -> Z -> Z -> Z) (w x y z data s : Z) : Z :=
  let w := u32 (w + u32 (f x y z + data)) in
  let w := Z.lor (u32 (Z.shiftl w s)) (Z.shiftr w (32 - s)) in
  u32 (w + x).

(** [x = v; k], for a long sequence of assignments. *)
Definition assign {A B} (v : A) (k : A -> B) : B := k v.
Notation "x '=:' v ';;' k" := (assign v (fun x => k)) (at level 100, v at level 99, right associativity).

(** The four words of the state, and the sixteen words of the block. *)
Definition caml_MD5Transform (buf : list Z) (input : list Z) : list Z :=
  let in_word i := le_word (take 4 (drop (4 * i) input)) in
  let a := nth 0 buf 0 in
  let b := nth 1 buf 0 in
  let c := nth 2 buf 0 in
  let d := nth 3 buf 0 in
  a =: MD5STEP F1 a b c d (u32 (in_word 0%nat + 0xd76aa478)) 7 ;;
  d =: MD5STEP F1 d a b c (u32 (in_word 1%nat + 0xe8c7b756)) 12 ;;
  c =: MD5STEP F1 c d a b (u32 (in_word 2%nat + 0x242070db)) 17 ;;
  b =: MD5STEP F1 b c d a (u32 (in_word 3%nat + 0xc1bdceee)) 22 ;;
  a =: MD5STEP F1 a b c d (u32 (in_word 4%nat + 0xf57c0faf)) 7 ;;
  d =: MD5STEP F1 d a b c (u32 (in_word 5%nat + 0x4787c62a)) 12 ;;
  c =: MD5STEP F1 c d a b (u32 (in_word 6%nat + 0xa8304613)) 17 ;;
  b =: MD5STEP F1 b c d a (u32 (in_word 7%nat + 0xfd469501)) 22 ;;
  a =: MD5STEP F1 a b c d (u32 (in_word 8%nat + 0x698098d8)) 7 ;;
  d =: MD5STEP F1 d a b c (u32 (in_word 9%nat + 0x8b44f7af)) 12 ;;
  c =: MD5STEP F1 c d a b (u32 (in_word 10%nat + 0xffff5bb1)) 17 ;;
  b =: MD5STEP F1 b c d a (u32 (in_word 11%nat + 0x895cd7be)) 22 ;;
  a =: MD5STEP F1 a b c d (u32 (in_word 12%nat + 0x6b901122)) 7 ;;
  d =: MD5STEP F1 d a b c (u32 (in_word 13%nat + 0xfd987193)) 12 ;;
  c =: MD5STEP F1 c d a b (u32 (in_word 14%nat + 0xa679438e)) 17 ;;
  b =: MD5STEP F1 b c d a (u32 (in_word 15%nat + 0x49b40821)) 22 ;;
  a =: MD5STEP F2 a b c d (u32 (in_word 1%nat + 0xf61e2562)) 5 ;;
  d =: MD5STEP F2 d a b c (u32 (in_word 6%nat + 0xc040b340)) 9 ;;
  c =: MD5STEP F2 c d a b (u32 (in_word 11%nat + 0x265e5a51)) 14 ;;
  b =: MD5STEP F2 b c d a (u32 (in_word 0%nat + 0xe9b6c7aa)) 20 ;;
  a =: MD5STEP F2 a b c d (u32 (in_word 5%nat + 0xd62f105d)) 5 ;;
  d =: MD5STEP F2 d a b c (u32 (in_word 10%nat + 0x02441453)) 9 ;;
  c =: MD5STEP F2 c d a b (u32 (in_word 15%nat + 0xd8a1e681)) 14 ;;
  b =: MD5STEP F2 b c d a (u32 (in_word 4%nat + 0xe7d3fbc8)) 20 ;;
  a =: MD5STEP F2 a b c d (u32 (in_word 9%nat + 0x21e1cde6)) 5 ;;
  d =: MD5STEP F2 d a b c (u32 (in_word 14%nat + 0xc33707d6)) 9 ;;
  c =: MD5STEP F2 c d a b (u32 (in_word 3%nat + 0xf4d50d87)) 14 ;;
  b =: MD5STEP F2 b c d a (u32 (in_word 8%nat + 0x455a14ed)) 20 ;;
  a =: MD5STEP F2 a b c d (u32 (in_word 13%nat + 0xa9e3e905)) 5 ;;
  d =: MD5STEP F2 d a b c (u32 (in_word 2%nat + 0xfcefa3f8)) 9 ;;
  c =: MD5STEP F2 c d a b (u32 (in_word 7%nat + 0x676f02d9)) 14 ;;
  b =: MD5STEP F2 b c d a (u32 (in_word 12%nat + 0x8d2a4c8a)) 20 ;;
  a =: MD5STEP F3 a b c d (u32 (in_word 5%nat + 0xfffa3942)) 4 ;;
  d =: MD5STEP F3 d a b c (u32 (in_word 8%nat + 0x8771f681)) 11 ;;
  c =: MD5STEP F3 c d a b (u32 (in_word 11%nat + 0x6d9d6122)) 16 ;;
  b =: MD5STEP F3 b c d a (u32 (in_word 14%nat + 0xfde5380c)) 23 ;;
  a =: MD5STEP F3 a b c d (u32 (in_word 1%nat + 0xa4beea44)) 4 ;;
  d =: MD5STEP F3 d a b c (u32 (in_word 4%nat + 0x4bdecfa9)) 11 ;;
  c =: MD5STEP F3 c d a b (u32 (in_word 7%nat + 0xf6bb4b60)) 16 ;;
  b =: MD5STEP F3 b c d a (u32 (in_word 10%nat + 0xbebfbc70)) 23 ;;
  a =: MD5STEP F3 a b c d (u32 (in_word 13%nat + 0x289b7ec6)) 4 ;;
  d =: MD5STEP F3 d a b c (u32 (in_word 0%nat + 0xeaa127fa)) 11 ;;
  c =: MD5STEP F3 c d a b (u32 (in_word 3%nat + 0xd4ef3085)) 16 ;;
  b =: MD5STEP F3 b c d a (u32 (in_word 6%nat + 0x04881d05)) 23 ;;
  a =: MD5STEP F3 a b c d (u32 (in_word 9%nat + 0xd9d4d039)) 4 ;;
  d =: MD5STEP F3 d a b c (u32 (in_word 12%nat + 0xe6db99e5)) 11 ;;
  c =: MD5STEP F3 c d a b (u32 (in_word 15%nat + 0x1fa27cf8)) 16 ;;
  b =: MD5STEP F3 b c d a (u32 (in_word 2%nat + 0xc4ac5665)) 23 ;;
  a =: MD5STEP F4 a b c d (u32 (in_word 0%nat + 0xf4292244)) 6 ;;
  d =: MD5STEP F4 d a b c (u32 (in_word 7%nat + 0x432aff97)) 10 ;;
  c =: MD5STEP F4 c d a b (u32 (in_word 14%nat + 0xab9423a7)) 15 ;;
  b =: MD5STEP F4 b c d a (u32 (in_word 5%nat + 0xfc93a039)) 21 ;;
  a =: MD5STEP F4 a b c d (u32 (in_word 12%nat + 0x655b59c3)) 6 ;;
  d =: MD5STEP F4 d a b c (u32 (in_word 3%nat + 0x8f0ccc92)) 10 ;;
  c =: MD5STEP F4 c d a b (u32 (in_word 10%nat + 0xffeff47d)) 15 ;;
  b =: MD5STEP F4 b c d a (u32 (in_word 1%nat + 0x85845dd1)) 21 ;;
  a =: MD5STEP F4 a b c d (u32 (in_word 8%nat + 0x6fa87e4f)) 6 ;;
  d =: MD5STEP F4 d a b c (u32 (in_word 15%nat + 0xfe2ce6e0)) 10 ;;
  c =: MD5STEP F4 c d a b (u32 (in_word 6%nat + 0xa3014314)) 15 ;;
  b =: MD5STEP F4 b c d a (u32 (in_word 13%nat + 0x4e0811a1)) 21 ;;
  a =: MD5STEP F4 a b c d (u32 (in_word 4%nat + 0xf7537e82)) 6 ;;
  d =: MD5STEP F4 d a b c (u32 (in_word 11%nat + 0xbd3af235)) 10 ;;
  c =: MD5STEP F4 c d a b (u32 (in_word 2%nat + 0x2ad7d2bb)) 15 ;;
  b =: MD5STEP F4 b c d a (u32 (in_word 9%nat + 0xeb86d391)) 21 ;;
  [u32 (nth 0 buf 0 + a); u32 (nth 1 buf 0 + b); u32 (nth 2 buf 0 + c); u32 (nth 3 buf 0 + d)].

(** [while (len >= 64)]: the state after the full blocks, and the bytes left. *)
Fixpoint md5_blocks (fuel : nat) (b inp : list Z) (data : list Z) : list Z * list Z * list Z :=
  match fuel with
  | O => (b, inp, data)
  | S n =>
      if 64 <=? Z.of_nat (length data) then
        let inp := memcpy inp 0 (take 64 data) in
        md5_blocks n (caml_MD5Transform b inp) inp (drop 64 data)
      else (b, inp, data)
  end.
Definition caml_MD5Update (ctx : MD5Context) (data : list Z) : MD5Context :=
  let len := Z.of_nat (length data) in
  let t := bits0 ctx in
  let b0 := u32 (t + u32 (Z.shiftl (u32 len) 3)) in
  let b1 := if b0 <? t then u32 (bits1 ctx + 1) else bits1 ctx in
  let b1 := u32 (b1 + Z.shiftr len 29) in
  let t := Z.land (Z.shiftr t 3) 0x3f in
  if negb (t =? 0) && (len <? 64 - t) then
    mkMD5 (buf ctx) b0 b1 (memcpy (md5_in ctx) (Z.to_nat t) data)
  else
    let '(b, inp, data) :=
      if negb (t =? 0) then
        let n := Z.to_nat (64 - t) in
        let inp := memcpy (md5_in ctx) (Z.to_nat t) (take n data) in
        (caml_MD5Transform (buf ctx) inp, inp, drop n data)
      else (buf ctx, md5_in ctx, data) in
    let '(b, inp, data) := md5_blocks (length data) b inp data in
    mkMD5 b b0 b1 (memcpy inp 0 data).
Definition caml_MD5Final (ctx : MD5Context) : list Z * MD5Context :=
  let count := Z.land (Z.shiftr (bits0 ctx) 3) 0x3f in
  let inp := memcpy (md5_in ctx) (Z.to_nat count) [0x80] in
  let p := Z.to_nat (count + 1) in
  let count := 64 - 1 - count in
  let '(b, inp) :=
    if count <? 8 then
      let inp := memset inp p 0 (Z.to_nat count) in
      (caml_MD5Transform (buf ctx) inp, memset inp 0 0 56)
    else (buf ctx, memset inp p 0 (Z.to_nat (count - 8))) in
  let inp := memcpy inp 56 (le_bytes 4 (bits0 ctx)) in
  let inp := memcpy inp 60 (le_bytes 4 (bits1 ctx)) in
  let b := caml_MD5Transform b inp in
  (b ≫= le_bytes 4, mkMD5 (replicate 4 0) 0 0 (replicate 64 0)).
Definition caml_md5_block (junk data : list Z) : list Z := (caml_MD5Final (caml_MD5Update (caml_MD5Init junk) data)).1.
Definition caml_md5_string `{SharedHeap} (junk : list Z) (h : heap) (str ofs len : Z) : result (Z * heap) :=
  data ← read_bytes (Z.to_nat (Long_val len)) h str (Long_val ofs);
  let ctx := caml_MD5Update (caml_MD5Init junk) data in
  '(res, h) ← caml_alloc_string h 16;
  h ← memcpy_bytes h res 0 (caml_MD5Final ctx).1;
  Ret (res, h).

(** ** BLAKE2 *)

Definition BLAKE2_BLOCKSIZE : Z := 128.
Record BLAKE2_context := mkBLAKE2 { b2_h : list Z; len0 : Z; len1 : Z; numbytes : Z; buffer : list Z }.

Definition U8TO64LE (src : list Z) : Z := le_word (take 8 src).
Definition ROTR64 (x amount : Z) : Z := Z.lor (Z.shiftr x amount) (u64 (Z.shiftl x (64 - amount))).
Definition caml_BLAKE2_iv : list Z := [
  0x6a09e667f3bcc908; 0xbb67ae8584caa73b; 0x3c6ef372fe94f82b; 0xa54ff53a5f1d36f1;
  0x510e527fade682d1; 0x9b05688c2b3e6c1f; 0x1f83d9abfb41bd6b; 0x5be0cd19137e2179].
Definition BLAKE2_sigma : list (list nat) := [
  [0; 1; 2; 3; 4; 5; 6; 7; 8; 9; 10; 11; 12; 13; 14; 15];
  [14; 10; 4; 8; 9; 15; 13; 6; 1; 12; 0; 2; 11; 7; 5; 3];
  [11; 8; 12; 0; 5; 2; 15; 13; 10; 14; 3; 6; 7; 1; 9; 4];
  [7; 9; 3; 1; 13; 12; 11; 14; 2; 6; 5; 10; 4; 0; 15; 8];
  [9; 0; 5; 7; 2; 4; 10; 15; 14; 1; 11; 12; 6; 8; 3; 13];
  [2; 12; 6; 10; 0; 11; 8; 3; 4; 13; 7; 5; 15; 14; 1; 9];
  [12; 5; 1; 15; 14; 13; 4; 10; 0; 7; 6; 3; 9; 2; 8; 11];
  [13; 11; 7; 14; 12; 1; 3; 9; 5; 0; 15; 4; 8; 6; 2; 10];
  [6; 15; 14; 9; 11; 3; 0; 8; 12; 2; 13; 7; 1; 4; 10; 5];
  [10; 2; 8; 4; 7; 6; 1; 5; 15; 11; 9; 14; 3; 12; 13; 0];
  [0; 1; 2; 3; 4; 5; 6; 7; 8; 9; 10; 11; 12; 13; 14; 15];
  [14; 10; 4; 8; 9; 15; 13; 6; 1; 12; 0; 2; 11; 7; 5; 3]]%nat.
Definition MIX2B (a b c d x y : Z) : Z * Z * Z * Z :=
  let a := u64 (a + u64 (b + x)) in
  let d := ROTR64 (Z.lxor d a) 32 in
  let c := u64 (c + d) in
  let b := ROTR64 (Z.lxor b c) 24 in
  let a := u64 (a + u64 (b + y)) in
  let d := ROTR64 (Z.lxor d a) 16 in
  let c := u64 (c + d) in
  let b := ROTR64 (Z.lxor b c) 63 in
  (a, b, c, d).
Definition work : Type := Z * Z * Z * Z * Z * Z * Z * Z * Z * Z * Z * Z * Z * Z * Z * Z.
Definition blake2_round (m : list Z) (sigma : list nat) (v : work) : work :=
  let '(v0, v1, v2, v3, v4, v5, v6, v7, v8, v9, v10, v11, v12, v13, v14, v15) := v in
  let m i := nth (nth i sigma 0%nat) m 0 in
  let '(v0, v4, v8, v12) := MIX2B v0 v4 v8 v12 (m 0%nat) (m 1%nat) in
  let '(v1, v5, v9, v13) := MIX2B v1 v5 v9 v13 (m 2%nat) (m 3%nat) in
  let '(v2, v6, v10, v14) := MIX2B v2 v6 v10 v14 (m 4%nat) (m 5%nat) in
  let '(v3, v7, v11, v15) := MIX2B v3 v7 v11 v15 (m 6%nat) (m 7%nat) in
  let '(v0, v5, v10, v15) := MIX2B v0 v5 v10 v15 (m 8%nat) (m 9%nat) in
  let '(v1, v6, v11, v12) := MIX2B v1 v6 v11 v12 (m 10%nat) (m 11%nat) in
  let '(v2, v7, v8, v13) := MIX2B v2 v7 v8 v13 (m 12%nat) (m 13%nat) in
  let '(v3, v4, v9, v14) := MIX2B v3 v4 v9 v14 (m 14%nat) (m 15%nat) in
  (v0, v1, v2, v3, v4, v5, v6, v7, v8, v9, v10, v11, v12, v13, v14, v15).
Definition caml_BLAKE2Compress (s : BLAKE2_context) (data : list Z) (nbytes : Z) (is_last_block : bool) : BLAKE2_context :=
  let l0 := u64 (len0 s + nbytes) in
  let l1 := if l0 <? nbytes then u64 (len1 s + 1) else len1 s in
  let h i := nth i (b2_h s) 0 in
  let iv i := nth i caml_BLAKE2_iv 0 in
  let m := (fun i => U8TO64LE (drop (i * 8) data)) <$> seq 0 16 in
  let v := (h 0%nat, h 1%nat, h 2%nat, h 3%nat, h 4%nat, h 5%nat, h 6%nat, h 7%nat, iv 0%nat, iv 1%nat, iv 2%nat, iv 3%nat,
    Z.lxor (iv 4%nat) l0, Z.lxor (iv 5%nat) l1, if is_last_block then u64 (Z.lnot (iv 6%nat)) else iv 6%nat, iv 7%nat) in
  let '(v0, v1, v2, v3, v4, v5, v6, v7, v8, v9, v10, v11, v12, v13, v14, v15) := foldl (fun v sigma => blake2_round m sigma v) v BLAKE2_sigma in
  mkBLAKE2 [Z.lxor (h 0%nat) (Z.lxor v0 v8); Z.lxor (h 1%nat) (Z.lxor v1 v9); Z.lxor (h 2%nat) (Z.lxor v2 v10); Z.lxor (h 3%nat) (Z.lxor v3 v11);
      Z.lxor (h 4%nat) (Z.lxor v4 v12); Z.lxor (h 5%nat) (Z.lxor v5 v13); Z.lxor (h 6%nat) (Z.lxor v6 v14); Z.lxor (h 7%nat) (Z.lxor v7 v15)]
    l0 l1 (numbytes s) (buffer s).
(** [junk] is what the buffer of the context holds before. *)
Definition caml_BLAKE2Init (junk : list Z) (hashlen : Z) (key : list Z) : BLAKE2_context :=
  let keylen := Z.of_nat (length key) in
  let h := <[0%nat := Z.lxor (nth 0 caml_BLAKE2_iv 0) (u64 (Z.lor (Z.lor 0x01010000 (Z.shiftl keylen 8)) hashlen))]> caml_BLAKE2_iv in
  if 0 <? keylen then
    let keylen := if 64 <? keylen then 64 else keylen in
    let b := memcpy junk 0 (take (Z.to_nat keylen) key) in
    mkBLAKE2 h 0 0 BLAKE2_BLOCKSIZE (memset b (Z.to_nat keylen) 0 (Z.to_nat (BLAKE2_BLOCKSIZE - keylen)))
  else mkBLAKE2 h 0 0 0 junk.
Definition set_buffer (n : Z) (b : list Z) (s : BLAKE2_context) : BLAKE2_context := mkBLAKE2 (b2_h s) (len0 s) (len1 s) n b.
(** [while (len > BLAKE2_BLOCKSIZE)] *)
Fixpoint blake2_blocks (fuel : nat) (s : BLAKE2_context) (data : list Z) : BLAKE2_context * list Z :=
  match fuel with
  | O => (s, data)
  | S n =>
      if BLAKE2_BLOCKSIZE <? Z.of_nat (length data) then
        blake2_blocks n (caml_BLAKE2Compress s data BLAKE2_BLOCKSIZE false) (drop (Z.to_nat BLAKE2_BLOCKSIZE) data)
      else (s, data)
  end.
Definition caml_BLAKE2Update (s : BLAKE2_context) (data : list Z) : BLAKE2_context :=
  let len := Z.of_nat (length data) in
  let n := BLAKE2_BLOCKSIZE - numbytes s in
  if (0 <? numbytes s) && (len <=? n) then
    set_buffer (numbytes s + len) (memcpy (buffer s) (Z.to_nat (numbytes s)) data) s
  else
    let '(s, data) :=
      if 0 <? numbytes s then
        let s := set_buffer (numbytes s) (memcpy (buffer s) (Z.to_nat (numbytes s)) (take (Z.to_nat n) data)) s in
        (caml_BLAKE2Compress s (buffer s) BLAKE2_BLOCKSIZE false, drop (Z.to_nat n) data)
      else (s, data) in
    let '(s, data) := blake2_blocks (length data) s data in
    set_buffer (Z.of_nat (length data)) (memcpy (buffer s) 0 data) s.
Definition caml_BLAKE2Final (s : BLAKE2_context) (hashlen : Z) : list Z * BLAKE2_context :=
  let s := set_buffer (numbytes s) (memset (buffer s) (Z.to_nat (numbytes s)) 0 (Z.to_nat (BLAKE2_BLOCKSIZE - numbytes s))) s in
  let s := caml_BLAKE2Compress s (buffer s) (numbytes s) true in
  ((fun i => Z.land (Z.shiftr (nth (i / 8) (b2_h s) 0) (8 * Z.of_nat (i mod 8))) 255) <$> seq 0 (Z.to_nat hashlen), s).
Definition caml_blake2_string `{SharedHeap} (junk : list Z) (h : heap) (hashlen key str ofs len : Z) : result (Z * heap) :=
  let hlen := Long_val hashlen in
  keylen ← caml_string_length h key;
  k ← read_bytes (Z.to_nat keylen) h key 0;
  data ← read_bytes (Z.to_nat (Long_val len)) h str (Long_val ofs);
  let ctx := caml_BLAKE2Update (caml_BLAKE2Init junk hlen k) data in
  '(hash, h) ← caml_alloc_string h hlen;
  h ← memcpy_bytes h hash 0 (caml_BLAKE2Final ctx hlen).1;
  Ret (hash, h).

(** ** The compression function of MD5 (RFC 1321) *)

Definition rfc_F (x y z : Z) : Z := Z.lor (Z.land x y) (Z.land (Z.lnot x) z).
Definition rfc_G (x y z : Z) : Z := Z.lor (Z.land x z) (Z.land y (Z.lnot z)).
Definition rfc_H (x y z : Z) : Z := Z.lxor (Z.lxor x y) z.
Definition rfc_I (x y z : Z) : Z := Z.lxor y (Z.lor x (u32 (Z.lnot z))).
Definition rfc_T : list Z := [
  0xd76aa478; 0xe8c7b756; 0x242070db; 0xc1bdceee; 0xf57c0faf; 0x4787c62a; 0xa8304613; 0xfd469501;
  0x698098d8; 0x8b44f7af; 0xffff5bb1; 0x895cd7be; 0x6b901122; 0xfd987193; 0xa679438e; 0x49b40821;
  0xf61e2562; 0xc040b340; 0x265e5a51; 0xe9b6c7aa; 0xd62f105d; 0x02441453; 0xd8a1e681; 0xe7d3fbc8;
  0x21e1cde6; 0xc33707d6; 0xf4d50d87; 0x455a14ed; 0xa9e3e905; 0xfcefa3f8; 0x676f02d9; 0x8d2a4c8a;
  0xfffa3942; 0x8771f681; 0x6d9d6122; 0xfde5380c; 0xa4beea44; 0x4bdecfa9; 0xf6bb4b60; 0xbebfbc70;
  0x289b7ec6; 0xeaa127fa; 0xd4ef3085; 0x04881d05; 0xd9d4d039; 0xe6db99e5; 0x1fa27cf8; 0xc4ac5665;
  0xf4292244; 0x432aff97; 0xab9423a7; 0xfc93a039; 0x655b59c3; 0x8f0ccc92; 0xffeff47d; 0x85845dd1;
  0x6fa87e4f; 0xfe2ce6e0; 0xa3014314; 0x4e0811a1; 0xf7537e82; 0xbd3af235; 0x2ad7d2bb; 0xeb86d391].
Definition rfc_shift (i : nat) : Z :=
  nth (i mod 4) (nth (i / 16) [[7; 12; 17; 22]; [5; 9; 14; 20]; [4; 11; 16; 23]; [6; 10; 15; 21]] []) 0.
(** The function and the word of the block of the step [i]. *)
Definition rfc_round (i : nat) : (Z -> Z -> Z -> Z) * nat :=
  match (i / 16)%nat with
  | 0%nat => (rfc_F, i)
  | 1%nat => (rfc_G, (5 * i + 1) mod 16)
  | 2%nat => (rfc_H, (3 * i + 5) mod 16)
  | _ => (rfc_I, (7 * i) mod 16)
  end%nat.
Definition rotl32 (x s : Z) : Z := Z.lor (u32 (Z.shiftl x s)) (Z.shiftr x (32 - s)).
Definition rfc_step (input : list Z) (st : Z * Z * Z * Z) (i : nat) : Z * Z * Z * Z :=
  let '(a, b, c, d) := st in
  let '(f, k) := rfc_round i in
  (d, u32 (b + rotl32 (u32 (a + f b c d + le_word (take 4 (drop (4 * k) input)) + nth i rfc_T 0)) (rfc_shift i)), b, c).
Definition rfc_compress (buf input : list Z) : list Z :=
  let '(a, b, c, d) := foldl (rfc_step input) (nth 0 buf 0, nth 1 buf 0, nth 2 buf 0, nth 3 buf 0) (seq 0 64) in
  [u32 (nth 0 buf 0 + a); u32 (nth 1 buf 0 + b); u32 (nth 2 buf 0 + c); u32 (nth 3 buf 0 + d)].

Lemma F1_rfc x y z : rfc_F x y z = F1 x y z.
Proof.
  unfold rfc_F, F1. apply Z.bits_inj'. intros i Hi. rewrite !Z.lor_spec, !Z.lxor_spec, !Z.land_spec, Z.lxor_spec, Z.lnot_spec by done.
  by destruct (Z.testbit x i), (Z.testbit y i), (Z.testbit z i).
Qed.
Lemma F2_rfc x y z : rfc_G x y z = F2 x y z.
Proof.
  unfold rfc_G, F2, F1. apply Z.bits_inj'. intros i Hi. rewrite !Z.lor_spec, !Z.lxor_spec, !Z.land_spec, Z.lxor_spec, Z.lnot_spec by done.
  by destruct (Z.testbit x i), (Z.testbit y i), (Z.testbit z i).
Qed.
Lemma MD5STEP_rfc f g a b c d m t s : (forall x y z, f x y z = g x y z) ->
  u32 (b + rotl32 (u32 (a + f b c d + m + t)) s) = MD5STEP g a b c d (u32 (m + t)) s.
Proof.
  intros Hf. unfold MD5STEP, rotl32. rewrite Hf. cbv zeta.
  assert (u32 (a + u32 (g b c d + u32 (m + t))) = u32 (a + g b c d + m + t)) as ->.
  { rewrite (eqm_of_wrap 32 (m + t)), (eqm_of_wrap 32 (g b c d + (m + t))). f_equal. lia. }
  by rewrite Z.add_comm.
Qed.
Lemma foldl_cons {A B} (f : A -> B -> A) x y l : foldl f x (y :: l) = foldl f (f x y) l.
Proof. done. Qed.
Lemma assign_eq {A B} (v : A) (k : A -> B) : assign v k = k v.
Proof. done. Qed.
(** A step on both sides. *)
Ltac md5_step f g H :=
  rewrite (foldl_cons (rfc_step _));
  match goal with |- context [rfc_step ?m (?a, ?b, ?c, ?d) ?i] =>
    let r := eval vm_compute in (rfc_shift i) in
    let t := eval vm_compute in (nth i rfc_T 0) in
    let k := eval vm_compute in (snd (rfc_round i)) in
    let v := constr:(MD5STEP g a b c d (u32 (le_word (take 4 (drop (4 * k) m)) + t)) r) in
    replace (rfc_step m (a, b, c, d) i) with (d, v, b, c)
      by (symmetry; unfold rfc_step; change (rfc_round i) with (f, k); change (nth i rfc_T 0) with t; change (rfc_shift i) with r; cbv beta iota;
          by rewrite (MD5STEP_rfc f g) by exact H);
    let y := fresh "r" in generalize v; intros y; rewrite (assign_eq y); cbv beta
  end.
Lemma transform_rfc b m : caml_MD5Transform b m = rfc_compress b m.
Proof.
  unfold caml_MD5Transform, rfc_compress. cbv beta zeta.
  generalize (nth 0 b 0), (nth 1 b 0), (nth 2 b 0), (nth 3 b 0). intros r0 r1 r2 r3.
  cbn [seq].
  do 16 md5_step rfc_F F1 F1_rfc. do 16 md5_step rfc_G F2 F2_rfc. do 16 md5_step rfc_H F3 (fun x y z => eq_refl (F3 x y z)). do 16 md5_step rfc_I F4 (fun x y z => eq_refl (F4 x y z)).
  reflexivity.
Qed.

(** ** Messages and blocks *)

Fixpoint blocks (sz n : nat) (l : list Z) : list (list Z) :=
  match n with O => [] | S n => take sz l :: blocks sz n (drop sz l) end.
Lemma blocks_app sz n m : forall l, blocks sz (n + m) l = blocks sz n l ++ blocks sz m (drop (sz * n) l).
Proof.
  induction n as [|n IH]; intros l; cbn [Nat.add blocks app]; [by rewrite Nat.mul_0_r|].
  rewrite IH, drop_drop. by replace (sz + sz * n)%nat with (sz * S n)%nat by lia.
Qed.
Lemma blocks_prefix sz n : forall l x, (sz * n <= length l)%nat -> blocks sz n (l ++ x) = blocks sz n l.
Proof.
  induction n as [|n IH]; intros l x Hl; cbn [blocks]; [done|]. rewrite take_app_le, drop_app_le by lia. rewrite IH; [done|]. rewrite length_drop. lia.
Qed.
(** The blocks of [l ++ x] when [l] is made of [n] blocks. *)
Lemma blocks_extend sz n m l x : length l = (sz * n)%nat -> blocks sz (n + m) (l ++ x) = blocks sz n l ++ blocks sz m x.
Proof. intros Hl. rewrite blocks_app, blocks_prefix by lia. f_equal. by rewrite <- Hl, drop_app_length. Qed.

Lemma memcpy_eq dst i src : (i + length src <= length dst)%nat -> memcpy dst i src = take i dst ++ src ++ drop (i + length src) dst.
Proof.
  intros H. unfold memcpy. apply list_eq. intros k. destruct (decide (k < i)%nat).
  - rewrite list_lookup_inserts_lt by done. rewrite lookup_app_l by (rewrite length_take; lia). by rewrite lookup_take_lt.
  - destruct (decide (k < i + length src)%nat).
    + rewrite list_lookup_inserts by lia. rewrite lookup_app_r by (rewrite length_take; lia). rewrite length_take, lookup_app_l by lia. f_equal. lia.
    + rewrite list_lookup_inserts_ge by lia. rewrite lookup_app_r by (rewrite length_take; lia). rewrite length_take, lookup_app_r by lia. rewrite lookup_drop. f_equal. lia.
Qed.
Lemma length_memcpy dst i src : length (memcpy dst i src) = length dst.
Proof. apply length_inserts. Qed.

(** The padding and the digest of RFC 1321. *)
Definition md5_iv : list Z := [0x67452301; 0xefcdab89; 0x98badcfe; 0x10325476].
Definition md5_padding (len : nat) : list Z :=
  [0x80] ++ replicate ((119 - len mod 64) mod 64) 0 ++ le_bytes 8 (u64 (8 * Z.of_nat len)).
Definition rfc_md5 (msg : list Z) : list Z :=
  let padded := msg ++ md5_padding (length msg) in
  foldl rfc_compress md5_iv (blocks 64 (length padded / 64) padded) ≫= le_bytes 4.

(** ** The context of MD5 *)

Definition state_after (msg : list Z) (n : nat) : list Z := foldl rfc_compress md5_iv (blocks 64 n msg).
Record md5_repr (ctx : MD5Context) (msg : list Z) : Prop := {
  mr_in : length (md5_in ctx) = 64%nat;
  mr_bits0 : bits0 ctx = (8 * Z.of_nat (length msg)) mod 2 ^ 32;
  mr_bits1 : bits1 ctx = (8 * Z.of_nat (length msg) / 2 ^ 32) mod 2 ^ 32;
  mr_buf : buf ctx = state_after msg (length msg / 64);
  mr_rest : take (length msg mod 64) (md5_in ctx) = drop (64 * (length msg / 64)) msg;
}.
Lemma md5_init junk : length junk = 64%nat -> md5_repr (caml_MD5Init junk) [].
Proof. intros H. by split. Qed.

Lemma md5_count L : Z.land (Z.shiftr ((8 * Z.of_nat L) mod 2 ^ 32) 3) 0x3f = Z.of_nat (L mod 64).
Proof.
  change 0x3f with (Z.ones 6). rewrite Z.land_ones, Z.shiftr_div_pow2 by lia. rewrite Nat2Z.inj_mod. change (Z.of_nat 64) with 64. change (2 ^ 3) with 8. change (2 ^ 6) with 64. change (2 ^ 32) with (8 * 2 ^ 29).
  rewrite Z.mul_mod_distr_l by lia. rewrite (Z.mul_comm 8), Z.div_mul by lia. change (2 ^ 29) with (64 * 2 ^ 23). rewrite Z.rem_mul_r by lia.
  rewrite (Z.mul_comm 64), Z_mod_plus_full. by rewrite Zmod_mod.
Qed.
Lemma md5_bit_count L len : let t := (8 * L) mod 2 ^ 32 in let b0 := u32 (t + u32 (Z.shiftl (u32 len) 3)) in 0 <= L -> 0 <= len ->
  b0 = (8 * (L + len)) mod 2 ^ 32 /\
  u32 ((if b0 <? t then u32 ((8 * L / 2 ^ 32) mod 2 ^ 32 + 1) else (8 * L / 2 ^ 32) mod 2 ^ 32) + Z.shiftr len 29) = (8 * (L + len) / 2 ^ 32) mod 2 ^ 32.
Proof.
  intros t b0 HL Hl. rewrite Z.shiftr_div_pow2 by lia. assert (u32 (Z.shiftl (u32 len) 3) = (8 * len) mod 2 ^ 32) as E.
  { unfold wrap. rewrite Z.shiftl_mul_pow2 by lia. rewrite Zmult_mod_idemp_l. f_equal. lia. }
  assert (len / 2 ^ 29 = 8 * len / 2 ^ 32) as E2 by (change (2 ^ 32) with (8 * 2 ^ 29); by rewrite Z.div_mul_cancel_l by lia).
  unfold b0. rewrite E, E2. unfold t, wrap.
  pose proof (Z.div_mod (8 * L) (2 ^ 32) ltac:(lia)) as D1. pose proof (Z.mod_pos_bound (8 * L) (2 ^ 32) ltac:(lia)) as M1.
  pose proof (Z.div_mod (8 * len) (2 ^ 32) ltac:(lia)) as D2. pose proof (Z.mod_pos_bound (8 * len) (2 ^ 32) ltac:(lia)) as M2.
  set (q1 := 8 * L / 2 ^ 32) in *. set (q2 := 8 * len / 2 ^ 32) in *. set (r1 := (8 * L) mod 2 ^ 32) in *. set (r2 := (8 * len) mod 2 ^ 32) in *.
  assert (8 * (L + len) = 2 ^ 32 * (q1 + q2) + (r1 + r2)) as Ex by lia.
  destruct (Z_lt_le_dec (r1 + r2) (2 ^ 32)) as [Hc|Hc].
  - rewrite (Z.mod_small (r1 + r2)) by lia. rewrite (proj2 (Z.ltb_ge _ _)) by lia. split.
    + apply (Z.mod_unique _ _ (q1 + q2)); lia.
    + replace (8 * (L + len) / 2 ^ 32) with (q1 + q2) by (apply (Z.div_unique _ _ _ (r1 + r2)); lia). by rewrite Zplus_mod_idemp_l.
  - assert ((r1 + r2) mod 2 ^ 32 = r1 + r2 - 2 ^ 32) as -> by (symmetry; apply (Z.mod_unique _ _ 1); lia). rewrite (proj2 (Z.ltb_lt _ _)) by lia. split.
    + apply (Z.mod_unique _ _ (q1 + q2 + 1)); lia.
    + replace (8 * (L + len) / 2 ^ 32) with (q1 + q2 + 1) by (apply (Z.div_unique _ _ _ (r1 + r2 - 2 ^ 32)); lia).
      rewrite !Zplus_mod_idemp_l. rewrite <- Zplus_assoc. rewrite Zplus_mod_idemp_l. f_equal. lia.
Qed.

Lemma md5_blocks_ok fuel : forall b inp data, length inp = 64%nat -> (length data / 64 <= fuel)%nat ->
  exists inp', length inp' = 64%nat /\
  md5_blocks fuel b inp data = (foldl rfc_compress b (blocks 64 (length data / 64) data), inp', drop (64 * (length data / 64)) data).
Proof.
  induction fuel as [|n IH]; intros b inp data Hi Hf; cbn [md5_blocks].
  - assert (length data / 64 = 0)%nat as -> by lia. by exists inp.
  - destruct (Z.leb_spec 64 (Z.of_nat (length data))) as [Hl|Hl].
    + assert (length data / 64 = S ((length data - 64) / 64))%nat as E.
      { replace (length data) with (1 * 64 + (length data - 64))%nat at 1 by lia. by rewrite Nat.div_add_l by lia. }
      assert (memcpy inp 0 (take 64 data) = take 64 data) as Em.
      { rewrite memcpy_eq by (rewrite length_take; lia). rewrite take_0, drop_ge by (rewrite length_take; lia). by rewrite app_nil_r. }
      rewrite Em. destruct (IH (caml_MD5Transform b (take 64 data)) (take 64 data) (drop 64 data)) as (inp' & Hi' & E'); [rewrite length_take; lia|rewrite length_drop; lia|].
      exists inp'. split; [done|]. rewrite E', length_drop, E. cbn [blocks foldl]. rewrite transform_rfc, drop_drop. do 2 f_equal. lia.
    + rewrite Nat.div_small by lia. by exists inp.
Qed.
(** The end of an update, when what was read before is a list of blocks. *)
Lemma md5_finish msg q inp data : length msg = (64 * q)%nat -> length inp = 64%nat ->
  let '(b, inp, rest) := md5_blocks (length data) (state_after msg q) inp data in
  let inp := memcpy inp 0 rest in
  let msg' := msg ++ data in
  length inp = 64%nat /\ b = state_after msg' (length msg' / 64) /\ take (length msg' mod 64) inp = drop (64 * (length msg' / 64)) msg'.
Proof.
  intros Hm Hi. destruct (md5_blocks_ok (length data) (state_after msg q) inp data Hi) as (inp' & Hi' & ->).
  { apply Nat.div_le_upper_bound; lia. }
  cbn zeta. rewrite length_app, Hm. replace (64 * q + length data)%nat with (q * 64 + length data)%nat by lia. rewrite Nat.div_add_l by lia.
  rewrite (Nat.add_comm (q * 64)), Nat.Div0.mod_add. rewrite length_memcpy. split; [done|]. unfold state_after. rewrite blocks_extend by done. rewrite foldl_app. split; [done|].
  pose proof (Nat.div_mod_eq (length data) 64) as Hd. pose proof (Nat.mod_upper_bound (length data) 64 ltac:(lia)) as Hb.
  assert (length (drop (64 * (length data / 64)) data) = length data mod 64)%nat as Hr by (rewrite length_drop; lia).
  rewrite memcpy_eq by lia. rewrite take_0. cbn [app]. rewrite <- Hr, take_app_length.
  replace (64 * (q + length data / 64))%nat with (length msg + 64 * (length data / 64))%nat by lia. by rewrite <- drop_drop, drop_app_length.
Qed.
Lemma md5_update ctx msg data : md5_repr ctx msg -> md5_repr (caml_MD5Update ctx data) (msg ++ data).
Proof.
  intros [Hi H0 H1 Hb Hr]. unfold caml_MD5Update. rewrite H0, H1, md5_count.
  destruct (md5_bit_count (Z.of_nat (length msg)) (Z.of_nat (length data))) as [E0 E1]; [lia|lia|]. cbv zeta in E0, E1. rewrite E1, E0. clear E0 E1.
  rewrite <- Nat2Z.inj_add, <- length_app. set (r := (length msg mod 64)%nat) in *. set (q := (length msg / 64)%nat) in *.
  pose proof (Nat.div_mod_eq (length msg) 64) as Hd. fold q r in Hd. assert (r < 64)%nat as Hlt by (apply Nat.mod_upper_bound; lia).
  assert (length (drop (64 * q) msg) = r) as Hlr by (rewrite length_drop; lia).
  destruct (negb (Z.of_nat r =? 0) && (Z.of_nat (length data) <? 64 - Z.of_nat r)) eqn:Ec.
  { apply andb_true_iff in Ec as [Ez El]. apply Z.ltb_lt in El. rewrite Nat2Z.id. split; cbn [md5_in bits0 bits1 buf]; try done.
    - by rewrite length_memcpy.
    - rewrite length_app, Hd. replace (64 * q + r + length data)%nat with (q * 64 + (r + length data))%nat by lia. rewrite Nat.div_add_l, Nat.div_small, Nat.add_0_r by lia.
      rewrite Hb. unfold state_after. by rewrite blocks_prefix by lia.
    - rewrite length_app, Hd. replace (64 * q + r + length data)%nat with (r + length data + q * 64)%nat by lia. rewrite Nat.Div0.mod_add, Nat.div_add by lia.
      rewrite (Nat.mod_small (r + length data)), (Nat.div_small (r + length data)) by lia. cbn [Nat.add]. rewrite memcpy_eq by lia. rewrite Hr, app_assoc, drop_app_le by lia.
      rewrite take_app_length'; [done|]. rewrite length_app. lia. }
  destruct (Z.eqb_spec (Z.of_nat r) 0) as [Ez|Ez]; cbn [negb].
  - pose proof (md5_finish msg q (md5_in ctx) data ltac:(lia) Hi) as Hf. rewrite Hb. destruct (md5_blocks _ _ _ _) as [[b inp] rest]. cbv zeta in Hf. destruct Hf as (F1' & F2' & F3').
    by split.
  - cbn [andb negb] in Ec. apply Z.ltb_ge in Ec. rewrite Nat2Z.id.
    set (n := Z.to_nat (64 - Z.of_nat r)). assert (n = 64 - r)%nat as Hn by lia. assert (length (take n data) = n) as Hln by (rewrite length_take; lia).
    set (inp := memcpy (md5_in ctx) r (take n data)). assert (inp = drop (64 * q) msg ++ take n data) as Einp.
    { unfold inp. rewrite memcpy_eq by lia. rewrite (drop_ge (md5_in ctx)), Hr by lia. by rewrite app_nil_r. }
    assert (length inp = 64%nat) as Hinp by (rewrite Einp, length_app; lia).
    pose proof (md5_finish (msg ++ take n data) (S q) inp (drop n data) ltac:(rewrite length_app; lia) Hinp) as Hf.
    assert (caml_MD5Transform (buf ctx) inp = state_after (msg ++ take n data) (S q)) as ->.
    { rewrite transform_rfc, Hb. unfold state_after. replace (S q) with (q + 1)%nat by lia. rewrite blocks_app, foldl_app, blocks_prefix by lia. cbn [blocks foldl].
      rewrite drop_app_le by lia. rewrite <- Einp, take_ge by lia. done. }
    rewrite <- app_assoc, take_drop in Hf. destruct (md5_blocks _ _ _ _) as [[b inp'] rest]. cbv zeta in Hf. destruct Hf as (F1' & F2' & F3'). by split.
Qed.
Lemma md5_updates chunks : forall ctx msg, md5_repr ctx msg -> md5_repr (foldl caml_MD5Update ctx chunks) (msg ++ concat chunks).
Proof.
  induction chunks as [|c chunks IH]; intros ctx msg H; cbn [foldl concat]; [by rewrite app_nil_r|]. rewrite app_assoc. apply IH. by apply md5_update.
Qed.
(** What a copy leaves in the array, up to its end. *)
Lemma memcpy_take dst i src n : n = (i + length src)%nat -> (n <= length dst)%nat -> take n (memcpy dst i src) = take i dst ++ src.
Proof. intros -> H. rewrite memcpy_eq by done. rewrite app_assoc. apply take_app_length'. rewrite length_app, length_take. lia. Qed.
Lemma memcpy_take_below dst i src n : (n <= i)%nat -> (i + length src <= length dst)%nat -> take n (memcpy dst i src) = take n dst.
Proof. intros Hn H. rewrite memcpy_eq by done. rewrite take_app_le by (rewrite length_take; lia). rewrite take_take. f_equal. lia. Qed.
Lemma memset_memcpy dst i c n : memset dst i c n = memcpy dst i (replicate n c).
Proof. done. Qed.
Lemma le_bytes_split x : le_bytes 8 (u64 x) = le_bytes 4 (x mod 2 ^ 32) ++ le_bytes 4 ((x / 2 ^ 32) mod 2 ^ 32).
Proof.
  unfold le_bytes. change (seqZ 0 (Z.of_nat 8)) with [0; 1; 2; 3; 4; 5; 6; 7]. change (seqZ 0 (Z.of_nat 4)) with [0; 1; 2; 3]. cbn [fmap list_fmap app].
  change (x mod 2 ^ 32) with (wrap 32 x). change ((x / 2 ^ 32) mod 2 ^ 32) with (wrap 32 (x / 2 ^ 32)). rewrite !get_byte_wrap by lia.
  rewrite <- (Z.shiftr_div_pow2 x 32) by lia. unfold get_byte. by rewrite !Z.shiftr_shiftr by lia.
Qed.
(** The blocks of a message with its padding: those of the message, then the
    rest of it with the padding. *)
Lemma blocks_padded msg q t pad k : t = drop (64 * q) msg -> (64 * q <= length msg)%nat -> length (t ++ pad) = (64 * k)%nat ->
  state_after (msg ++ pad) (length (msg ++ pad) / 64) = foldl rfc_compress (state_after msg q) (blocks 64 k (t ++ pad)).
Proof.
  intros -> Hq Hk. rewrite length_app, length_drop in Hk. unfold state_after. rewrite length_app. replace (length msg + length pad)%nat with ((q + k) * 64)%nat by lia.
  rewrite Nat.div_mul by lia. rewrite blocks_app, foldl_app, blocks_prefix by lia. by rewrite drop_app_le by lia.
Qed.
(** The last block: the array with the bit count in its last eight bytes. *)
Lemma md5_last inp lo hi pre : length inp = 64%nat -> length lo = 4%nat -> length hi = 4%nat -> take 56 inp = pre ->
  memcpy (memcpy inp 56 lo) 60 hi = pre ++ lo ++ hi.
Proof.
  intros L Hlo Hhi <-. rewrite <- (take_ge (memcpy _ 60 hi) 64) by (rewrite !length_memcpy; lia).
  rewrite memcpy_take by (rewrite ?length_memcpy; lia). rewrite memcpy_take by lia. by rewrite app_assoc.
Qed.
Lemma md5_final ctx msg : md5_repr ctx msg -> caml_MD5Final ctx = (rfc_md5 msg, mkMD5 (replicate 4 0) 0 0 (replicate 64 0)).
Proof.
  intros [Hi H0 H1 Hb Hr]. unfold caml_MD5Final, rfc_md5, md5_padding. rewrite H0, H1, md5_count, le_bytes_split, Hb.
  set (lo := le_bytes 4 ((8 * Z.of_nat (length msg)) mod 2 ^ 32)). set (hi := le_bytes 4 ((8 * Z.of_nat (length msg) / 2 ^ 32) mod 2 ^ 32)).
  assert (length lo = 4%nat /\ length hi = 4%nat) as [Hlo Hhi] by (split; apply length_le_bytes).
  set (r := (length msg mod 64)%nat) in *. set (q := (length msg / 64)%nat) in *.
  pose proof (Nat.div_mod_eq (length msg) 64) as Hd. fold q r in Hd. assert (r < 64)%nat as Hlt by (apply Nat.mod_upper_bound; lia).
  set (t := drop (64 * q) msg) in *. assert (length t = r) as Ht by (unfold t; rewrite length_drop; lia).
  rewrite Nat2Z.id. replace (Z.to_nat (Z.of_nat r + 1)) with (r + 1)%nat by lia.
  set (i1 := memcpy (md5_in ctx) r [128]). assert (length i1 = 64%nat) as L1 by (unfold i1; by rewrite length_memcpy).
  assert (take (r + 1) i1 = t ++ [128]) as T1 by (unfold i1; rewrite memcpy_take by (done || lia); by rewrite Hr).
  match goal with |- context [foldl rfc_compress md5_iv (blocks 64 ?n ?l)] => change (foldl rfc_compress md5_iv (blocks 64 n l)) with (state_after l n) end.
  destruct (Z.ltb_spec (64 - 1 - Z.of_nat r) 8) as [Hc|Hc]; rewrite !memset_memcpy.
  - rewrite Nat.mod_small by lia. replace (Z.to_nat (64 - 1 - Z.of_nat r)) with (63 - r)%nat by lia.
    rewrite (blocks_padded msg q t _ 2) by (done || lia || (rewrite !length_app, length_replicate; cbn [length]; lia)).
    set (i2 := memcpy i1 (r + 1) (replicate (63 - r) 0)). assert (length i2 = 64%nat) as L2 by (unfold i2; by rewrite length_memcpy).
    assert (i2 = t ++ [128] ++ replicate (63 - r) 0) as T2.
    { rewrite <- (take_ge i2 64) by lia. unfold i2. rewrite memcpy_take by (rewrite ?length_replicate; lia). by rewrite T1, <- app_assoc. }
    rewrite (md5_last _ _ _ (replicate 56 0)); try done; [|by rewrite length_memcpy|by rewrite memcpy_take by (rewrite ?length_replicate; lia)].
    replace (119 - r)%nat with (63 - r + 56)%nat by lia. rewrite replicate_add, <- !app_assoc. rewrite (app_assoc [128]), (app_assoc t), <- T2.
    cbn [blocks foldl]. rewrite take_app_length', drop_app_length' by done. rewrite !transform_rfc. rewrite (take_ge (replicate 56 0 ++ lo ++ hi)); [done|].
    rewrite !length_app, length_replicate. lia.
  - replace ((119 - r) mod 64)%nat with (55 - r)%nat by (apply (Nat.mod_unique _ _ 1); lia). replace (Z.to_nat (64 - 1 - Z.of_nat r - 8)) with (55 - r)%nat by lia.
    rewrite (blocks_padded msg q t _ 1) by (done || lia || (rewrite !length_app, length_replicate; cbn [length]; lia)).
    rewrite (md5_last _ _ _ (t ++ [128] ++ replicate (55 - r) 0)); try done; [|by rewrite length_memcpy|].
    + cbn [blocks foldl]. rewrite transform_rfc, <- !app_assoc. rewrite (take_ge (t ++ _)); [done|]. rewrite !length_app, length_replicate. cbn [length]. lia.
    + rewrite memcpy_take by (rewrite ?length_replicate; lia). by rewrite T1, <- app_assoc.
Qed.

(** ** BLAKE2b (RFC 7693) *)

(** The mixing function of the RFC, on the sixteen words of the work vector. *)
Definition rfc_mix (v : list Z) (a b c d : nat) (x y : Z) : list Z :=
  let v := <[a := u64 (nth a v 0 + nth b v 0 + x)]> v in
  let v := <[d := ROTR64 (Z.lxor (nth d v 0) (nth a v 0)) 32]> v in
  let v := <[c := u64 (nth c v 0 + nth d v 0)]> v in
  let v := <[b := ROTR64 (Z.lxor (nth b v 0) (nth c v 0)) 24]> v in
  let v := <[a := u64 (nth a v 0 + nth b v 0 + y)]> v in
  let v := <[d := ROTR64 (Z.lxor (nth d v 0) (nth a v 0)) 16]> v in
  let v := <[c := u64 (nth c v 0 + nth d v 0)]> v in
  <[b := ROTR64 (Z.lxor (nth b v 0) (nth c v 0)) 63]> v.
Definition rfc_schedule : list (nat * nat * nat * nat) :=
  [(0, 4, 8, 12); (1, 5, 9, 13); (2, 6, 10, 14); (3, 7, 11, 15); (0, 5, 10, 15); (1, 6, 11, 12); (2, 7, 8, 13); (3, 4, 9, 14)]%nat.
(** The permutations, and the first 64 bits of the fractional parts of the
    square roots of the first primes. *)
Definition rfc_sigma : list (list nat) := [
  [0; 1; 2; 3; 4; 5; 6; 7; 8; 9; 10; 11; 12; 13; 14; 15];
  [14; 10; 4; 8; 9; 15; 13; 6; 1; 12; 0; 2; 11; 7; 5; 3];
  [11; 8; 12; 0; 5; 2; 15; 13; 10; 14; 3; 6; 7; 1; 9; 4];
  [7; 9; 3; 1; 13; 12; 11; 14; 2; 6; 5; 10; 4; 0; 15; 8];
  [9; 0; 5; 7; 2; 4; 10; 15; 14; 1; 11; 12; 6; 8; 3; 13];
  [2; 12; 6; 10; 0; 11; 8; 3; 4; 13; 7; 5; 15; 14; 1; 9];
  [12; 5; 1; 15; 14; 13; 4; 10; 0; 7; 6; 3; 9; 2; 8; 11];
  [13; 11; 7; 14; 12; 1; 3; 9; 5; 0; 15; 4; 8; 6; 2; 10];
  [6; 15; 14; 9; 11; 3; 0; 8; 12; 2; 13; 7; 1; 4; 10; 5];
  [10; 2; 8; 4; 7; 6; 1; 5; 15; 11; 9; 14; 3; 12; 13; 0]]%nat.
Definition rfc_blake2_iv : list Z := (fun p => Z.sqrt (p * 2 ^ 128) mod 2 ^ 64) <$> [2; 3; 5; 7; 11; 13; 17; 19].
Definition rfc_mixes (m : list Z) (v : list Z) (i : nat) : list Z :=
  let s := nth (i mod 10) rfc_sigma [] in
  let word k := nth (nth k s 0%nat) m 0 in
  foldl (fun v '(k, (a, b, c, d)) => rfc_mix v a b c d (word (2 * k)%nat) (word (2 * k + 1)%nat)) v (imap pair rfc_schedule).
Definition rfc_blake2_F (h : list Z) (block : list Z) (t : Z) (f : bool) : list Z :=
  let m := (fun i => le_word (take 8 (drop (i * 8) block))) <$> seq 0 16 in
  let v := h ++ rfc_blake2_iv in
  let v := <[12%nat := Z.lxor (nth 12 v 0) (t mod 2 ^ 64)]> v in
  let v := <[13%nat := Z.lxor (nth 13 v 0) ((t / 2 ^ 64) mod 2 ^ 64)]> v in
  let v := if f then <[14%nat := Z.lxor (nth 14 v 0) (2 ^ 64 - 1)]> v else v in
  let v := foldl (rfc_mixes m) v (seq 0 12) in
  (fun i => Z.lxor (Z.lxor (nth i h 0) (nth i v 0)) (nth (i + 8) v 0)) <$> seq 0 8.
(** The state after the first [n] blocks of a message. *)
Definition rfc_blake2_state (h0 : list Z) (d : list Z) (n : nat) : list Z :=
  foldl (fun h i => rfc_blake2_F h (take 128 (drop (128 * i) d)) (128 * (Z.of_nat i + 1)) false) h0 (seq 0 n).
Definition rfc_blake2_h0 (nn kk : Z) : list Z :=
  <[0%nat := Z.lxor (Z.lxor (Z.lxor (nth 0 rfc_blake2_iv 0) 0x01010000) (Z.shiftl kk 8)) nn]> rfc_blake2_iv.
Definition rfc_blake2 (nn : nat) (key msg : list Z) : list Z :=
  let d := (match key with [] => [] | _ => key ++ replicate (128 - length key) 0 end) ++ msg in
  let n := ((length d - 1) / 128)%nat in
  let last := drop (128 * n) d in
  let h := rfc_blake2_state (rfc_blake2_h0 (Z.of_nat nn) (Z.of_nat (length key))) d n in
  take nn (rfc_blake2_F h (last ++ replicate (128 - length last) 0) (Z.of_nat (length d)) true ≫= le_bytes 8).

Lemma iv_rfc : caml_BLAKE2_iv = rfc_blake2_iv.
Proof. vm_compute. reflexivity. Qed.
Lemma nth_insert_eq (l : list Z) i x d : (i < length l)%nat -> nth i (<[i := x]> l) d = x.
Proof. intros H. apply nth_lookup_Some. by apply list_lookup_insert_eq. Qed.
Lemma nth_insert_ne (l : list Z) i j x d : i <> j -> nth i (<[j := x]> l) d = nth i l d.
Proof. intros H. rewrite !nth_lookup. by rewrite list_lookup_insert_ne. Qed.
Lemma u64_add3 a b x : u64 (a + b + x) = u64 (a + u64 (b + x)).
Proof. rewrite (eqm_of_wrap 64 (b + x)). f_equal. lia. Qed.
Lemma rfc_mix_code v a b c d x y : NoDup [a; b; c; d] -> Forall (fun i => i < length v)%nat [a; b; c; d] ->
  rfc_mix v a b c d x y = let '(a', b', c', d') := MIX2B (nth a v 0) (nth b v 0) (nth c v 0) (nth d v 0) x y in <[b := b']> (<[c := c']> (<[d := d']> (<[a := a']> v))).
Proof.
  intros Hn Hv. apply NoDup_cons in Hn as [Ha Hn]. apply NoDup_cons in Hn as [Hb Hn]. apply NoDup_cons in Hn as [Hc _].
  assert (a <> b /\ a <> c /\ a <> d /\ b <> c /\ b <> d /\ c <> d) as (? & ? & ? & ? & ? & ?) by set_solver.
  apply Forall_cons in Hv as [? Hv]. apply Forall_cons in Hv as [? Hv]. apply Forall_cons in Hv as [? Hv]. apply Forall_cons in Hv as [? _].
  unfold rfc_mix, MIX2B. cbv zeta. rewrite !u64_add3.
  repeat ((rewrite nth_insert_eq by (rewrite ?length_insert; done)) || (rewrite nth_insert_ne by done)).
  apply list_eq. intros i. destruct (decide (i = a)) as [Ea|Na], (decide (i = b)) as [Eb|Nb], (decide (i = c)) as [Ec|Nc], (decide (i = d)) as [Ed|Nd]; try congruence; subst;
    repeat ((rewrite list_lookup_insert_eq by (rewrite ?length_insert; done)) || (rewrite list_lookup_insert_ne by congruence)); done.
Qed.
Definition work_list (v : work) : list Z :=
  let '(v0, v1, v2, v3, v4, v5, v6, v7, v8, v9, v10, v11, v12, v13, v14, v15) := v in
  [v0; v1; v2; v3; v4; v5; v6; v7; v8; v9; v10; v11; v12; v13; v14; v15].
Ltac mix_step :=
  rewrite foldl_cons; cbv beta iota; cbn [Nat.mul Nat.add];
  match goal with |- context [rfc_mix ?v ?a ?b ?c ?d ?x ?y] =>
    rewrite (rfc_mix_code v a b c d x y) by first [apply (bool_decide_unpack _); vm_compute; exact I | repeat constructor; cbn [length]; lia];
    cbn [nth]; destruct (MIX2B _ _ _ _ x y) as [[[? ?] ?] ?]; cbn [insert list_insert]
  end.
Lemma round_rfc m sigma i v : nth (i mod 10) rfc_sigma [] = sigma -> work_list (blake2_round m sigma v) = rfc_mixes m (work_list v) i.
Proof.
  intros E. unfold rfc_mixes. rewrite E. clear E. destruct v as [[[[[[[[[[[[[[[v0 v1] v2] v3] v4] v5] v6] v7] v8] v9] v10] v11] v12] v13] v14] v15].
  unfold blake2_round, work_list at 2. change (imap pair rfc_schedule) with (zip (seq 0 8) rfc_schedule). unfold rfc_schedule. cbn [seq zip zip_with].
  do 8 mix_step. reflexivity.
Qed.
Lemma rounds_rfc m v : work_list (foldl (fun v sigma => blake2_round m sigma v) v BLAKE2_sigma) = foldl (rfc_mixes m) (work_list v) (seq 0 12).
Proof.
  change (seq 0 12) with [0; 1; 2; 3; 4; 5; 6; 7; 8; 9; 10; 11]%nat. unfold BLAKE2_sigma at 1. cbn [foldl].
  rewrite (round_rfc _ _ 11), (round_rfc _ _ 10), (round_rfc _ _ 9), (round_rfc _ _ 8), (round_rfc _ _ 7), (round_rfc _ _ 6), (round_rfc _ _ 5), (round_rfc _ _ 4), (round_rfc _ _ 3), (round_rfc _ _ 2), (round_rfc _ _ 1), (round_rfc _ _ 0) by reflexivity. done.
Qed.
(** The carry of the byte counter. *)
Lemma counter_carry t n : 0 <= t -> 0 <= n < 2 ^ 64 ->
  let l0 := u64 (t mod 2 ^ 64 + n) in
  l0 = (t + n) mod 2 ^ 64 /\ (if l0 <? n then u64 ((t / 2 ^ 64) mod 2 ^ 64 + 1) else (t / 2 ^ 64) mod 2 ^ 64) = ((t + n) / 2 ^ 64) mod 2 ^ 64.
Proof.
  intros Ht Hn l0. assert (l0 = (t + n) mod 2 ^ 64) as E by (unfold l0, wrap; by rewrite Zplus_mod_idemp_l). split; [done|]. rewrite E.
  pose proof (Z.div_mod t (2 ^ 64) ltac:(lia)) as D. pose proof (Z.mod_pos_bound t (2 ^ 64) ltac:(lia)) as M. set (q := t / 2 ^ 64) in *. set (r := t mod 2 ^ 64) in *.
  destruct (Z_lt_le_dec (r + n) (2 ^ 64)) as [Hc|Hc].
  - assert ((t + n) mod 2 ^ 64 = r + n) as -> by (symmetry; apply (Z.mod_unique _ _ q); lia). rewrite (proj2 (Z.ltb_ge _ _)) by lia.
    by replace ((t + n) / 2 ^ 64) with q by (apply (Z.div_unique _ _ _ (r + n)); lia).
  - assert ((t + n) mod 2 ^ 64 = r + n - 2 ^ 64) as -> by (symmetry; apply (Z.mod_unique _ _ (q + 1)); lia). rewrite (proj2 (Z.ltb_lt _ _)) by lia.
    replace ((t + n) / 2 ^ 64) with (q + 1) by (apply (Z.div_unique _ _ _ (r + n - 2 ^ 64)); lia). unfold wrap. by rewrite Zplus_mod_idemp_l.
Qed.
Lemma compress_rfc s data nbytes last t : length (b2_h s) = 8%nat -> 0 <= t -> 0 <= nbytes < 2 ^ 64 -> len0 s = t mod 2 ^ 64 -> len1 s = (t / 2 ^ 64) mod 2 ^ 64 ->
  caml_BLAKE2Compress s data nbytes last = mkBLAKE2 (rfc_blake2_F (b2_h s) (take 128 data) (t + nbytes) last) ((t + nbytes) mod 2 ^ 64) (((t + nbytes) / 2 ^ 64) mod 2 ^ 64) (numbytes s) (buffer s).
Proof.
  intros Hh Ht Hn E0 E1. unfold caml_BLAKE2Compress. rewrite E0, E1. destruct (counter_carry t nbytes Ht Hn) as [C0 C1]. cbv zeta in C0, C1. rewrite C1, C0. clear C0 C1 E0 E1.
  destruct s as [h l0 l1 nb bf]. cbn [b2_h numbytes buffer] in *. do 8 (destruct h as [|? h]; [done|]). destruct h; [|done]. unfold rfc_blake2_F. rewrite <- iv_rfc. cbv zeta.
  assert (((fun i => le_word (take 8 (drop (i * 8) (take 128 data)))) <$> seq 0 16) = ((fun i => U8TO64LE (drop (i * 8) data)) <$> seq 0 16)) as ->.
  { apply list_fmap_ext. intros k i Hi. apply lookup_seq in Hi as [-> Hi]. unfold U8TO64LE. rewrite !take_drop_commute, take_take. do 3 f_equal. lia. }
  set (m := (fun i => U8TO64LE (drop (i * 8) data)) <$> seq 0 16). clearbody m.
  match goal with |- context [foldl ?f ?v BLAKE2_sigma] => pose proof (rounds_rfc m v : work_list (foldl f v BLAKE2_sigma) = _) as R; destruct (foldl f v BLAKE2_sigma) as [[[[[[[[[[[[[[[v0 v1] v2] v3] v4] v5] v6] v7] v8] v9] v10] v11] v12] v13] v14] v15] end.
  match goal with |- context [foldl (rfc_mixes m) ?w (seq 0 12)] => replace (foldl (rfc_mixes m) w (seq 0 12)) with [v0; v1; v2; v3; v4; v5; v6; v7; v8; v9; v10; v11; v12; v13; v14; v15] end.
  - cbn [seq fmap list_fmap nth Nat.add]. by rewrite !Z.lxor_assoc.
  - unfold work_list in R. rewrite R. f_equal. by destruct last.
Qed.
Lemma length_F h b t f : length (rfc_blake2_F h b t f) = 8%nat.
Proof. unfold rfc_blake2_F. cbv zeta. by rewrite length_fmap, length_seq. Qed.
(** The bytes of the digest, one by one and word by word. *)
Lemma digest_bytes h nn : length h = 8%nat -> (nn <= 64)%nat ->
  (fun i => Z.land (Z.shiftr (nth (i / 8) h 0) (8 * Z.of_nat (i mod 8))) 255) <$> seq 0 (Z.to_nat (Z.of_nat nn)) = take nn (h ≫= le_bytes 8).
Proof.
  intros Hh Hn. rewrite Nat2Z.id. replace (seq 0 nn) with (take nn (seq 0 64)) by (rewrite take_seq; f_equal; lia). rewrite fmap_take. f_equal.
  do 8 (destruct h as [|? h]; [done|]). destruct h; [|done]. reflexivity.
Qed.

(** ** The context of BLAKE2 *)

Section blake2.
Context (h0 : list Z) (Hh0 : length h0 = 8%nat).
(** [n] blocks of [d] have been compressed. *)
Record b2_comp (s : BLAKE2_context) (d : list Z) (n : nat) : Prop := {
  bc_h : b2_h s = rfc_blake2_state h0 d n;
  bc_len0 : len0 s = (128 * Z.of_nat n) mod 2 ^ 64;
  bc_len1 : len1 s = (128 * Z.of_nat n / 2 ^ 64) mod 2 ^ 64;
  bc_buf : length (buffer s) = 128%nat;
}.
(** The last block, even a full one, waits in the buffer. *)
Definition b2_full (d : list Z) : nat := (length d - 1) / 128.
Record b2_repr (s : BLAKE2_context) (d : list Z) : Prop := {
  br_comp : b2_comp s d (b2_full d);
  br_num : numbytes s = Z.of_nat (length d - 128 * b2_full d);
  br_rest : take (length d - 128 * b2_full d) (buffer s) = drop (128 * b2_full d) d;
}.
Lemma length_state d n : length (rfc_blake2_state h0 d n) = 8%nat.
Proof. unfold rfc_blake2_state. destruct n; [done|]. rewrite seq_S, foldl_app. cbn [foldl]. apply length_F. Qed.
Lemma state_S d n : rfc_blake2_state h0 d (S n) = rfc_blake2_F (rfc_blake2_state h0 d n) (take 128 (drop (128 * n) d)) (128 * Z.of_nat (S n)) false.
Proof. unfold rfc_blake2_state. rewrite seq_S, foldl_app. cbn [foldl]. rewrite Nat.add_0_l. replace (128 * (Z.of_nat n + 1)) with (128 * Z.of_nat (S n)) by lia. reflexivity. Qed.
Lemma state_prefix d x n : (128 * n <= length d)%nat -> rfc_blake2_state h0 (d ++ x) n = rfc_blake2_state h0 d n.
Proof.
  induction n as [|n IH]; intros H; [done|]. rewrite !state_S, IH by lia. by rewrite drop_app_le, take_app_le by (rewrite ?length_drop; lia).
Qed.
Lemma comp_extend s d x n : (128 * n <= length d)%nat -> b2_comp s d n -> b2_comp s (d ++ x) n.
Proof. intros H [A B C D]. split; [rewrite state_prefix by exact H; exact A|exact B|exact C|exact D]. Qed.
Lemma comp_step s d n data : b2_comp s d n -> take 128 data = take 128 (drop (128 * n) d) -> b2_comp (caml_BLAKE2Compress s data BLAKE2_BLOCKSIZE false) d (S n).
Proof.
  intros [Eh E0 E1 Eb] Ed. rewrite (compress_rfc _ _ _ _ (128 * Z.of_nat n)); [|rewrite Eh; apply length_state|lia|done|exact E0|exact E1].
  replace (128 * Z.of_nat n + BLAKE2_BLOCKSIZE) with (128 * Z.of_nat (S n)) by (unfold BLAKE2_BLOCKSIZE; lia).
  split; cbn [b2_h len0 len1 buffer]; [|reflexivity|reflexivity|exact Eb]. rewrite Eh, Ed. symmetry. apply state_S.
Qed.
Lemma comp_set_buffer s d n k b : length b = 128%nat -> b2_comp s d n -> b2_comp (set_buffer k b s) d n.
Proof. intros Hb [A B C D]. split; [exact A|exact B|exact C|exact Hb]. Qed.
Lemma blocks_comp d fuel : forall s n data, b2_comp s d n -> data = drop (128 * n) d -> ((length data - 1) / 128 <= fuel)%nat ->
  exists s', blake2_blocks fuel s data = (s', drop (128 * (n + (length data - 1) / 128)) d) /\ b2_comp s' d (n + (length data - 1) / 128).
Proof.
  induction fuel as [|f IH]; intros s n data Hs Ed Hf; cbn [blake2_blocks].
  - replace (n + (length data - 1) / 128)%nat with n by lia. exists s. by rewrite Ed.
  - unfold BLAKE2_BLOCKSIZE. destruct (Z.ltb_spec 128 (Z.of_nat (length data))) as [Hl|Hl].
    + assert ((length data - 1) / 128 = S ((length data - 128 - 1) / 128))%nat as E.
      { replace (length data - 1)%nat with (1 * 128 + (length data - 128 - 1))%nat at 1 by lia. by rewrite Nat.div_add_l by lia. }
      change (Z.to_nat 128) with 128%nat. destruct (IH (caml_BLAKE2Compress s data 128 false) (S n) (drop 128 data)) as (s' & E' & H').
      * apply comp_step; [done|by rewrite Ed].
      * rewrite Ed, drop_drop. f_equal. lia.
      * rewrite length_drop. lia.
      * exists s'. rewrite length_drop in E', H'. rewrite E. replace (n + S ((length data - 128 - 1) / 128))%nat with (S n + (length data - 128 - 1) / 128)%nat by lia. done.
    + rewrite (Nat.div_small (length data - 1)) by lia. rewrite Nat.add_0_r. exists s. by rewrite Ed.
Qed.
Lemma b2_finish s d n data : b2_comp s d n -> data = drop (128 * n) d -> (n = 0 \/ 128 * n < length d)%nat ->
  b2_repr (let '(s, rest) := blake2_blocks (length data) s data in set_buffer (Z.of_nat (length rest)) (memcpy (buffer s) 0 rest) s) d.
Proof.
  intros Hs Ed Hn. destruct (blocks_comp d (length data) s n data Hs Ed) as (s' & -> & Hs'). { apply Nat.div_le_upper_bound; lia. }
  assert (length data = length d - 128 * n)%nat as Hl by (rewrite Ed; apply length_drop).
  assert (n + (length data - 1) / 128 = b2_full d)%nat as E.
  { unfold b2_full. destruct Hn as [->|Hn]; [by rewrite Hl, Nat.mul_0_r, Nat.sub_0_r|]. replace (length d - 1)%nat with (n * 128 + (length data - 1))%nat by lia. by rewrite Nat.div_add_l by lia. }
  rewrite E in *. pose proof (bc_buf _ _ _ Hs') as Hb.
  assert (length d - 128 * b2_full d <= 128)%nat as Hr.
  { unfold b2_full. pose proof (Nat.div_mod_eq (length d - 1) 128). pose proof (Nat.mod_upper_bound (length d - 1) 128 ltac:(lia)). lia. }
  split; cbn [numbytes buffer set_buffer].
  - apply comp_set_buffer; [by rewrite length_memcpy|done].
  - by rewrite length_drop.
  - rewrite memcpy_take by (rewrite ?length_drop; lia). done.
Qed.
Lemma b2_update s msg data : b2_repr s msg -> b2_repr (caml_BLAKE2Update s data) (msg ++ data).
Proof.
  intros [Hc En Er]. unfold caml_BLAKE2Update. rewrite En. set (n := b2_full msg) in *. pose proof (bc_buf _ _ _ Hc) as Hb.
  assert (length msg - 128 * n <= 128 /\ 128 * n <= length msg /\ (length msg = 0 \/ 128 * n < length msg))%nat as (Hr & Hn & Hz).
  { unfold n, b2_full. pose proof (Nat.div_mod_eq (length msg - 1) 128). pose proof (Nat.mod_upper_bound (length msg - 1) 128 ltac:(lia)). lia. }
  set (r := (length msg - 128 * n)%nat) in *. assert (length (drop (128 * n) msg) = r) as Hlr by (by rewrite length_drop). unfold BLAKE2_BLOCKSIZE.
  destruct ((0 <? Z.of_nat r) && (Z.of_nat (length data) <=? 128 - Z.of_nat r)) eqn:Ec.
  { apply andb_true_iff in Ec as [Ez El]. apply Z.ltb_lt in Ez. apply Z.leb_le in El. rewrite Nat2Z.id.
    assert (b2_full (msg ++ data) = n) as En'. { unfold b2_full. rewrite length_app. symmetry. apply (Nat.div_unique _ _ _ (r + length data - 1)); lia. }
    assert (length (msg ++ data) - 128 * n = r + length data)%nat as Er' by (rewrite length_app; lia).
    split; rewrite ?En'; cbn [numbytes buffer set_buffer].
    - apply comp_set_buffer; [by rewrite length_memcpy|]. by apply comp_extend.
    - rewrite Er'. lia.
    - rewrite Er', memcpy_take by lia. rewrite Er, drop_app_le by lia. done. }
  destruct (Z.ltb_spec 0 (Z.of_nat r)) as [Ez|Ez].
  - cbn [andb] in Ec. apply Z.leb_gt in Ec. rewrite Nat2Z.id. set (k := Z.to_nat (128 - Z.of_nat r)). assert (k = 128 - r)%nat as Hk by lia.
    apply b2_finish with (n := S n).
    + apply comp_step; [apply comp_set_buffer; [by rewrite length_memcpy|by apply comp_extend]|]. cbn [buffer set_buffer].
      assert (length (take k data) = k) as Hl by (rewrite length_take; lia).
      rewrite memcpy_take by lia. rewrite Er, drop_app_le by lia. rewrite take_app, Hlr, (take_ge (drop _ _)) by lia. by rewrite <- Hk.
    + rewrite drop_app, (drop_ge msg) by lia. cbn [app]. f_equal. lia.
    + right. rewrite length_app. lia.
  - assert (length msg = 0)%nat as E0 by lia. apply nil_length_inv in E0. subst msg. cbn [app]. apply (b2_finish s data 0); [|done|by left]. by apply (comp_extend s [] data 0).
Qed.
Lemma b2_updates chunks : forall s msg, b2_repr s msg -> b2_repr (foldl caml_BLAKE2Update s chunks) (msg ++ concat chunks).
Proof.
  induction chunks as [|c chunks IH]; intros s msg H; cbn [foldl concat]; [by rewrite app_nil_r|]. rewrite app_assoc. apply IH. by apply b2_update.
Qed.
Lemma b2_final s d nn : (nn <= 64)%nat -> b2_repr s d ->
  (caml_BLAKE2Final s (Z.of_nat nn)).1 = take nn (rfc_blake2_F (rfc_blake2_state h0 d (b2_full d))
    (drop (128 * b2_full d) d ++ replicate (128 - length (drop (128 * b2_full d) d)) 0) (Z.of_nat (length d)) true ≫= le_bytes 8).
Proof.
  intros Hnn [[Eh E0 E1 Eb] En Er]. unfold caml_BLAKE2Final. rewrite En, Nat2Z.id. set (n := b2_full d) in *.
  assert (length d - 128 * n <= 128 /\ 128 * n <= length d)%nat as [Hr Hn].
  { unfold n, b2_full. pose proof (Nat.div_mod_eq (length d - 1) 128). pose proof (Nat.mod_upper_bound (length d - 1) 128 ltac:(lia)). lia. }
  set (r := (length d - 128 * n)%nat) in *. rewrite (compress_rfc _ _ _ _ (128 * Z.of_nat n)); cbn [b2_h len0 len1 buffer numbytes set_buffer];
    [|rewrite Eh; apply length_state|lia|lia|exact E0|exact E1].
  cbn [fst]. replace (128 * Z.of_nat n + Z.of_nat r) with (Z.of_nat (length d)) by lia. rewrite Eh, memset_memcpy. unfold BLAKE2_BLOCKSIZE.
  replace (Z.to_nat (128 - Z.of_nat r)) with (128 - r)%nat by lia. rewrite memcpy_take by (rewrite ?length_replicate; lia). rewrite Er, length_drop. fold r.
  apply digest_bytes; [apply length_F|done].
Qed.
End blake2.
(** The parameter block: the fields do not overlap. *)
Lemma parameter_block (kk nn : nat) : (kk <= 64)%nat -> (nn <= 64)%nat ->
  u64 (Z.lor (Z.lor 0x01010000 (Z.shiftl (Z.of_nat kk) 8)) (Z.of_nat nn)) = Z.lxor (Z.lxor 0x01010000 (Z.shiftl (Z.of_nat kk) 8)) (Z.of_nat nn).
Proof.
  intros Hk Hn. assert (forallb (fun kk => forallb (fun nn =>
    u64 (Z.lor (Z.lor 0x01010000 (Z.shiftl (Z.of_nat kk) 8)) (Z.of_nat nn)) =? Z.lxor (Z.lxor 0x01010000 (Z.shiftl (Z.of_nat kk) 8)) (Z.of_nat nn)) (seq 0 65)) (seq 0 65) = true) as H by (vm_compute; reflexivity).
  rewrite forallb_forall in H. specialize (H kk (proj2 (in_seq 65 0 kk) ltac:(lia))). rewrite forallb_forall in H. apply Z.eqb_eq, H, in_seq. lia.
Qed.
Lemma b2_init junk nn key : length junk = 128%nat -> (nn <= 64)%nat -> (length key <= 64)%nat ->
  b2_repr (rfc_blake2_h0 (Z.of_nat nn) (Z.of_nat (length key))) (caml_BLAKE2Init junk (Z.of_nat nn) key)
    (match key with [] => [] | _ => key ++ replicate (128 - length key) 0 end).
Proof.
  intros Hj Hn Hk. unfold caml_BLAKE2Init. rewrite parameter_block by done. rewrite <- !Z.lxor_assoc, iv_rfc. fold (rfc_blake2_h0 (Z.of_nat nn) (Z.of_nat (length key))).
  set (h0 := rfc_blake2_h0 _ _). clearbody h0. destruct key as [|c key]; [by repeat split|].
  set (k := c :: key) in *. rewrite (proj2 (Z.ltb_lt _ _)) by (unfold k; cbn [length]; lia). rewrite (proj2 (Z.ltb_ge _ _)) by lia. rewrite Nat2Z.id. cbv zeta. rewrite memset_memcpy, (take_ge k) by lia.
  replace (Z.to_nat (BLAKE2_BLOCKSIZE - Z.of_nat (length k))) with (128 - length k)%nat by (unfold BLAKE2_BLOCKSIZE; lia).
  set (d := k ++ replicate (128 - length k) 0). assert (length d = 128%nat) as Hd by (unfold d; rewrite length_app, length_replicate; lia).
  assert (b2_full d = 0)%nat as Ef by (unfold b2_full; by rewrite Hd).
  split; rewrite ?Ef, ?Hd; cbn [numbytes buffer]; [|done|].
  - repeat split. cbn [buffer]. by rewrite !length_memcpy.
  - rewrite memcpy_take by (rewrite ?length_memcpy, ?length_replicate; lia). by rewrite memcpy_take by lia.
Qed.

(** ** The digests *)

(** C38: the MD5 digest of a message handed over in any number of pieces, of any
    lengths, whatever the context holds before: the digest that RFC 1321
    defines for their concatenation; the context is cleared. *)
Theorem md5_digest junk chunks : length junk = 64%nat ->
  caml_MD5Final (foldl caml_MD5Update (caml_MD5Init junk) chunks) = (rfc_md5 (concat chunks), mkMD5 (replicate 4 0) 0 0 (replicate 64 0)).
Proof. intros H. apply md5_final. by apply (md5_updates chunks _ []), md5_init. Qed.
Lemma md5_digest_witness : caml_MD5Final (foldl caml_MD5Update (caml_MD5Init (replicate 64 7)) [replicate 3 97; replicate 70 98; []]) = (rfc_md5 (replicate 3 97 ++ replicate 70 98), mkMD5 (replicate 4 0) 0 0 (replicate 64 0)).
Proof. rewrite (md5_digest (replicate 64 7) [replicate 3 97; replicate 70 98; []] eq_refl). reflexivity. Defined.

Lemma length_h0 nn kk : length (rfc_blake2_h0 nn kk) = 8%nat.
Proof. reflexivity. Qed.
Lemma b2_result nn key s msg : (nn <= 64)%nat ->
  b2_repr (rfc_blake2_h0 (Z.of_nat nn) (Z.of_nat (length key))) s ((match key with [] => [] | _ => key ++ replicate (128 - length key) 0 end) ++ msg) ->
  (caml_BLAKE2Final s (Z.of_nat nn)).1 = rfc_blake2 nn key msg.
Proof.
  set (h0 := rfc_blake2_h0 _ _). assert (length h0 = 8%nat) as Hh by apply length_h0. intros Hn H. exact (b2_final h0 Hh _ _ _ Hn H).
Qed.
(** C39: the keyed BLAKE2b digest of a message handed over in any number of pieces:
    the digest that RFC 7693 defines for the key and their concatenation. *)
Theorem blake2_digest junk nn key chunks : length junk = 128%nat -> (nn <= 64)%nat -> (length key <= 64)%nat ->
  (caml_BLAKE2Final (foldl caml_BLAKE2Update (caml_BLAKE2Init junk (Z.of_nat nn) key) chunks) (Z.of_nat nn)).1 = rfc_blake2 nn key (concat chunks).
Proof. intros Hj Hn Hk. apply b2_result; [done|]. by apply (b2_updates _ (length_h0 _ _) chunks), b2_init. Qed.
Lemma blake2_digest_witness : (caml_BLAKE2Final (foldl caml_BLAKE2Update (caml_BLAKE2Init (replicate 128 7) (Z.of_nat 32) [1; 2; 3]) [replicate 3 97; replicate 270 98]) (Z.of_nat 32)).1 =
  rfc_blake2 32 [1; 2; 3] (concat [replicate 3 97; replicate 270 98]).
Proof. apply (blake2_digest (replicate 128 7) 32 [1; 2; 3] [replicate 3 97; replicate 270 98]); [reflexivity|lia|cbn [length]; lia]. Defined.

(** ** The primitives on strings *)

Lemma le_bytes_range n x : Forall is_byte (le_bytes n x).
Proof. unfold le_bytes. apply Forall_fmap, Forall_true. intros k. apply get_byte_range. Qed.
Lemma words_bytes_range n l : Forall is_byte (l ≫= le_bytes n).
Proof. apply Forall_bind, Forall_true. intros x. apply le_bytes_range. Qed.
Lemma words_bytes_length n l : length (l ≫= le_bytes n) = (n * length l)%nat.
Proof. induction l as [|x l IH]; [by rewrite Nat.mul_0_r|]. rewrite bind_cons, length_app, length_le_bytes, IH. cbn [length]. lia. Qed.
Lemma length_compress b m : length (rfc_compress b m) = 4%nat.
Proof. unfold rfc_compress. by destruct (foldl _ _ _) as [[[? ?] ?] ?]. Qed.
Lemma length_rfc_md5 msg : length (rfc_md5 msg) = 16%nat.
Proof.
  unfold rfc_md5. cbv zeta. rewrite words_bytes_length.
  generalize (blocks 64 (length (msg ++ md5_padding (length msg)) / 64) (msg ++ md5_padding (length msg))). intros l.
  destruct l as [|l x _] using rev_ind; [done|]. rewrite foldl_app. cbn [foldl]. by rewrite length_compress.
Qed.
Lemma length_rfc_blake2 nn key msg : (nn <= 64)%nat -> length (rfc_blake2 nn key msg) = nn.
Proof. intros H. unfold rfc_blake2. cbv zeta. rewrite length_take, words_bytes_length, length_F. lia. Qed.

Section primitives.
Context `{SH : SharedHeap, !SharedHeapOk SH}.
(** [Digest.string] on a part of a string of the heap: a fresh string of
    sixteen bytes, the digest of that part; the other words of the heap keep
    their values. *)
Theorem md5_string_correct junk h str bs (ofs len : nat) :
  heap_ok h -> length junk = 64%nat -> string_at h str bs -> (ofs + len <= length bs)%nat ->
  alloc_outcome h (str_wosize 16) (caml_md5_string junk h str (Val_long (Z.of_nat ofs)) (Val_long (Z.of_nat len))) (fun v h' =>
    string_at h' v (rfc_md5 (take len (drop ofs bs))) /\ words h ⊆ words h').
Proof.
  intros Hok Hj Hs Hl. pose proof (sa_small _ _ _ Hs) as Hb. unfold str_len in Hb. unfold caml_md5_string. rewrite !Long_Val_int by (unfold is_int, Min_long, Max_long; lia).
  rewrite Nat2Z.id. rewrite (read_bytes_string _ _ _ _ _ Hs) by (unfold str_len; lia). cbn [mbind result_bind]. rewrite Nat2Z.id.
  rewrite (md5_final _ _ (md5_update _ _ (take len (drop ofs bs)) (md5_init junk Hj))). cbn [app fst].
  set (d := rfc_md5 _). assert (length d = 16%nat) as Hd by apply length_rfc_md5.
  pose proof (alloc_initialized_spec h d Hok (words_bytes_range _ _)) as Ha. unfold caml_alloc_initialized_string, str_len in Ha. rewrite Hd in Ha. apply Ha. lia.
Qed.
Theorem blake2_string_correct junk h (nn : nat) key kbs str bs (ofs len : nat) :
  heap_ok h -> length junk = 128%nat -> (nn <= 64)%nat -> string_at h key kbs -> (length kbs <= 64)%nat -> string_at h str bs -> (ofs + len <= length bs)%nat ->
  alloc_outcome h (str_wosize (Z.of_nat nn)) (caml_blake2_string junk h (Val_long (Z.of_nat nn)) key str (Val_long (Z.of_nat ofs)) (Val_long (Z.of_nat len))) (fun v h' =>
    string_at h' v (rfc_blake2 nn kbs (take len (drop ofs bs))) /\ words h ⊆ words h').
Proof.
  intros Hok Hj Hn Hk Hkl Hs Hl. pose proof (sa_small _ _ _ Hs) as Hb. unfold str_len in Hb. unfold caml_blake2_string. rewrite !Long_Val_int by (unfold is_int, Min_long, Max_long; lia).
  rewrite (string_length_spec _ _ _ Hk). cbn [mbind result_bind]. unfold str_len. rewrite !Nat2Z.id. rewrite (read_bytes_string _ _ _ _ _ Hk) by (unfold str_len; lia). cbn [mbind result_bind]. rewrite drop_0, take_ge by lia.
  rewrite (read_bytes_string _ _ _ _ _ Hs) by (unfold str_len; lia). cbn [mbind result_bind]. rewrite Nat2Z.id.
  rewrite (b2_result nn kbs _ (take len (drop ofs bs)) Hn) by (by apply (b2_update _ (length_h0 _ _)), b2_init).
  set (d := rfc_blake2 _ _ _). assert (length d = nn) as Hd by (by apply length_rfc_blake2). assert (Forall is_byte d) as Hr by apply Forall_take, words_bytes_range.
  pose proof (alloc_initialized_spec h d Hok Hr) as Ha. unfold caml_alloc_initialized_string, str_len in Ha. rewrite Hd in Ha. apply Ha. lia.
Qed.
End primitives.
Example md5_abc : caml_md5_block (replicate 64 7) [97; 98; 99] = [0x90; 0x01; 0x50; 0x98; 0x3c; 0xd2; 0x4f; 0xb0; 0xd6; 0x96; 0x3f; 0x7d; 0x28; 0xe1; 0x7f; 0x72].
Proof. vm_compute. reflexivity. Qed.
Example blake2_abc : take 16 (caml_BLAKE2Final (caml_BLAKE2Update (caml_BLAKE2Init (replicate 128 7) 64 []) [97; 98; 99]) 64).1 =
  [0xba; 0x80; 0xa5; 0x3f; 0x98; 0x1c; 0x4d; 0x0d; 0x6a; 0x27; 0x97; 0xb6; 0x9f; 0x12; 0xf6; 0xe9].
Proof. vm_compute. reflexivity. Qed.
End Digest.
