(* ===== verification/Channels.v ===== *)
(** * Channels (runtime/io.c, and caml_read_fd and caml_write_fd of runtime/unix.c)

    A channel is a file descriptor with a buffer.  Pointers into the buffer are
    indices; the bytes are between 0 and 255.  The functions on one channel run
    in a monad over that channel and the world outside the program: a state
    monad whose exceptions keep the state, as a C exception does.  The system
    calls are parameters. *)

From S2P Require Import Prelude Memory.
From stdpp Require Import list.
#[local] Open Scope Z_scope.

Module Channels.

(** ** System calls *)

Inductive errno := EINTR | EAGAIN | EWOULDBLOCK | EBADF | EPIPE | ECONNRESET | EOVERFLOW | Eother (n : Z).
#[export] Instance errno_eq_dec : EqDecision errno.
Proof. solve_decision. Defined.
Inductive whence := SEEK_SET | SEEK_CUR | SEEK_END.
(** [IO_BUFFER_SIZE] can be chosen when the runtime is built.  [fuel] bounds
    the rounds of every loop. *)
Class OS := {
  world : Type;
  sys_read : Z -> Z -> world -> (errno + list Z) * world;
  sys_write : Z -> list Z -> world -> (errno + Z) * world;
  sys_lseek : Z -> Z -> whence -> world -> (errno + Z) * world;
  sys_close : Z -> world -> option errno * world;
  caml_check_pending_actions : world -> bool;
  IO_BUFFER_SIZE : Z;
  fuel : nat;
}.

(** ** Channels *)

(** [max] is a null pointer for an output channel. *)
Record channel := mkchannel {
  fd : Z; offset : Z; curr : Z; max : option Z; mutex : bool; next : Z; prev : Z; refcount : Z; flags : Z; buff : list Z; name : option (list Z);
}.
Definition CHANNEL_FLAG_FROM_SOCKET : Z := 1.
Definition CHANNEL_FLAG_MANAGED_BY_GC : Z := 4.
Definition CHANNEL_TEXT_MODE : Z := 8.
Definition CHANNEL_FLAG_UNBUFFERED : Z := 16.
Definition has_flag (f : Z) (c : channel) : bool := negb (Z.land (flags c) f =? 0).

Definition set_fd (x : Z) (c : channel) : channel := mkchannel x (offset c) (curr c) (max c) (mutex c) (next c) (prev c) (refcount c) (flags c) (buff c) (name c).
Definition set_offset (x : Z) (c : channel) : channel := mkchannel (fd c) x (curr c) (max c) (mutex c) (next c) (prev c) (refcount c) (flags c) (buff c) (name c).
Definition set_curr (x : Z) (c : channel) : channel := mkchannel (fd c) (offset c) x (max c) (mutex c) (next c) (prev c) (refcount c) (flags c) (buff c) (name c).
Definition set_max (x : option Z) (c : channel) : channel := mkchannel (fd c) (offset c) (curr c) x (mutex c) (next c) (prev c) (refcount c) (flags c) (buff c) (name c).
Definition set_mutex (x : bool) (c : channel) : channel := mkchannel (fd c) (offset c) (curr c) (max c) x (next c) (prev c) (refcount c) (flags c) (buff c) (name c).
Definition set_next (x : Z) (c : channel) : channel := mkchannel (fd c) (offset c) (curr c) (max c) (mutex c) x (prev c) (refcount c) (flags c) (buff c) (name c).
Definition set_prev (x : Z) (c : channel) : channel := mkchannel (fd c) (offset c) (curr c) (max c) (mutex c) (next c) x (refcount c) (flags c) (buff c) (name c).
Definition set_refcount (x : Z) (c : channel) : channel := mkchannel (fd c) (offset c) (curr c) (max c) (mutex c) (next c) (prev c) x (flags c) (buff c) (name c).
Definition set_flags (x : Z) (c : channel) : channel := mkchannel (fd c) (offset c) (curr c) (max c) (mutex c) (next c) (prev c) (refcount c) x (buff c) (name c).
Definition set_buff (x : list Z) (c : channel) : channel := mkchannel (fd c) (offset c) (curr c) (max c) (mutex c) (next c) (prev c) (refcount c) (flags c) x (name c).
Definition set_name (x : option (list Z)) (c : channel) : channel := mkchannel (fd c) (offset c) (curr c) (max c) (mutex c) (next c) (prev c) (refcount c) (flags c) (buff c) x.

(** ** The monad *)

Inductive exn := Sys_error (e : errno) | Sys_blocked_io | End_of_file | Failure_not_binary | Handler (v : Z).
(** [Stuck]: the code would follow a null pointer, wait for a lock it holds
    or run out of fuel. *)
Inductive outcome (A : Type) := Val (a : A) | Exn (e : exn) | Stuck.
#[global] Arguments Val {A}. 
#[global] Arguments Exn {A}. 
#[global] Arguments Stuck {A}.
(** [last_locked]: the channel is the last channel locked by the thread. *)
Record st `{OS} := mkst { ch : channel; w : world; last_locked : bool }.
(** What signal handlers, finalisers and memory-profiling callbacks do. *)
Class Actions `{OS} := { caml_process_pending_actions : st -> option Z * st }.
Definition io `{OS} (A : Type) : Type := st -> outcome A * st.
#[export] Instance io_ret `{OS} : MRet io := fun A a s => (Val a, s).
#[export] Instance io_bind `{OS} : MBind io := fun A B k m s => match m s with (Val a, s) => k a s | (Exn e, s) => (Exn e, s) | (Stuck, s) => (Stuck, s) end.

Section channels.
Context `{Actions}.
Definition stuck {A} : io A := fun s => (Stuck, s).
Definition throw {A} (e : exn) : io A := fun s => (Exn e, s).
Definition chan : io channel := fun s => (Val (ch s), s).
Definition update (f : channel -> channel) : io () := fun s => (Val (), mkst _ (f (ch s)) (w s) (last_locked s)).
Definition is_last : io bool := fun s => (Val (last_locked s), s).
Definition pending : io bool := fun s => (Val (caml_check_pending_actions (w s)), s).
Definition set_last (b : bool) : io () := fun s => (Val (), mkst _ (ch s) (w s) b).
Definition call {A} (f : world -> A * world) : io A := fun s => let '(r, x) := f (w s) in (Val r, mkst _ (ch s) x (last_locked s)).
Definition max_pos (c : channel) : io Z := match max c with Some m => mret m | None => stuck end.

(** ** Locks *)

Definition caml_channel_lock : io () :=
  c ← chan;
  if mutex c then stuck else update (set_mutex true);; set_last true.
Definition caml_channel_unlock : io () := update (set_mutex false);; set_last false.
Definition caml_channel_cleanup_on_raise : io () :=
  b ← is_last;
  if (b : bool) then caml_channel_unlock else mret ().
(** [caml_raise] *)
Definition raise {A} (e : exn) : io A := caml_channel_cleanup_on_raise;; throw e.
Definition caml_sys_error {A} (e : errno) : io A := raise (Sys_error e).
Definition caml_sys_io_error {A} (e : errno) : io A :=
  if decide (e = EAGAIN \/ e = EWOULDBLOCK) then raise Sys_blocked_io else caml_sys_error e.
Definition process_pending : io () :=
  fun s => match caml_process_pending_actions s with (None, s) => (Val (), s) | (Some v, s) => raise (Handler v) s end.
Definition check_pending : io () :=
  b ← pending;
  if (b : bool) then
    c ← chan;
    (if has_flag CHANNEL_FLAG_MANAGED_BY_GC c then caml_channel_unlock else mret ());;
    process_pending;;
    c ← chan;
    (if has_flag CHANNEL_FLAG_MANAGED_BY_GC c then caml_channel_lock else mret ())
  else mret ().

(** ** Creation, size *)

Definition caml_open_descriptor_in (junk : list Z) (d : Z) (x : world) : channel * world :=
  let '(r, x) := sys_lseek d 0 SEEK_CUR x in
  (mkchannel d (match r with inr o => o | inl _ => -1 end) 0 (Some 0) false 0 0 0 0 junk None, x).
Definition caml_open_descriptor_out (junk : list Z) (d : Z) (x : world) : channel * world :=
  let '(c, x) := caml_open_descriptor_in junk d x in
  (set_max None c, x).
Definition caml_channel_size : io Z :=
  check_pending;;
  c ← chan;
  let here := if has_flag CHANNEL_TEXT_MODE c then -1 else offset c in
  here ← (if here =? -1 then
      r ← call (sys_lseek (fd c) 0 SEEK_CUR);
      match r with inr o => mret o | inl e => caml_sys_error e end
    else mret here);
  r ← call (sys_lseek (fd c) 0 SEEK_END);
  match r with
  | inl e => caml_sys_error e
  | inr e =>
      r ← call (sys_lseek (fd c) here SEEK_SET);
      match r with
      | inl er => caml_sys_error er
      | inr o => if o =? here then mret e else caml_sys_error (Eother 0)
      end
  end.
Definition caml_channel_binary_mode (c : channel) : bool := negb (has_flag CHANNEL_TEXT_MODE c).

(** ** Output *)

Definition caml_write_fd (d : Z) (data : list Z) : io (errno + Z) :=
  r ← call (sys_write d data);
  match r with
  | inl e => if bool_decide (e = EAGAIN \/ e = EWOULDBLOCK) && (1 <? Z.of_nat (length data)) then call (sys_write d (take 1 data)) else mret r
  | inr _ => mret r
  end.
(** The bytes of [buff] from [i] to [j]. *)
Definition slice (i j : Z) (l : list Z) : list Z := take (Z.to_nat (j - i)) (drop (Z.to_nat i) l).
Definition move (i : Z) (src : list Z) (l : list Z) : list Z := list_inserts (Z.to_nat i) src l.
Definition flush_written (towrite written : Z) (c : channel) : channel :=
  let c := set_offset (offset c + written) c in
  let c := if written <? towrite then set_buff (move 0 (slice written towrite (buff c)) (buff c)) c else c in
  set_curr (curr c - written) c.
Fixpoint flush_partial_loop (n : nat) : io bool :=
  match n with
  | O => stuck
  | S n =>
      check_pending;;
      c ← chan;
      let towrite := curr c in
      if 0 <? towrite then
        r ← caml_write_fd (fd c) (slice 0 towrite (buff c));
        match r with
        | inl e =>
            if decide (e = EINTR) then flush_partial_loop n else
            (if decide (e = EBADF \/ e = EPIPE \/ e = ECONNRESET) then update (set_curr 0) else mret ());;
            caml_sys_io_error e
        | inr written =>
            update (flush_written towrite written);;
            c ← chan;
            mret (curr c =? 0)
        end
      else mret (curr c =? 0)
  end.
Definition caml_flush_partial : io bool := flush_partial_loop fuel.
Fixpoint flush_loop (n : nat) : io () :=
  match n with
  | O => stuck
  | S n => b ← caml_flush_partial; if (b : bool) then mret () else flush_loop n
  end.
Definition caml_flush : io () := flush_loop fuel.
Definition caml_flush_if_unbuffered : io () :=
  c ← chan;
  if has_flag CHANNEL_FLAG_UNBUFFERED c then caml_flush else mret ().
Definition put_byte (x : Z) (c : channel) : channel := set_curr (curr c + 1) (set_buff (move (curr c) [u8 x] (buff c)) c).
Definition Putch (x : Z) : io () :=
  c ← chan;
  (if IO_BUFFER_SIZE <=? curr c then _ ← caml_flush_partial; mret () else mret ());;
  update (put_byte x).
Definition caml_putch (x : Z) : io () := Putch x.
Definition caml_putword (x : Z) : io () :=
  c ← chan;
  if negb (caml_channel_binary_mode c) then raise Failure_not_binary else
  caml_putch (Z.shiftr x 24);;
  caml_putch (Z.shiftr x 16);;
  caml_putch (Z.shiftr x 8);;
  caml_putch x.
Definition INT_MAX : Z := 2 ^ 31 - 1.
Definition put_bytes (p : list Z) (c : channel) : channel :=
  set_curr (curr c + Z.of_nat (length p)) (set_buff (move (curr c) p (buff c)) c).
(** [p] holds the [len] bytes to write. *)
Definition caml_putblock (p : list Z) : io Z :=
  let len := Z.of_nat (length p) in
  let n := if INT_MAX <=? len then INT_MAX else len in
  c ← chan;
  let free := IO_BUFFER_SIZE - curr c in
  if n <? free then
    update (put_bytes (take (Z.to_nat n) p));;
    mret n
  else
    update (put_bytes (take (Z.to_nat free) p));;
    update (set_curr IO_BUFFER_SIZE);;
    caml_flush_partial;;
    mret free.
Fixpoint putblock_loop (n : nat) (p : list Z) : io () :=
  match n with
  | O => stuck
  | S n =>
      if 0 <? Z.of_nat (length p) then
        written ← caml_putblock p;
        putblock_loop n (drop (Z.to_nat written) p)
      else mret ()
  end.
Definition caml_really_putblock (p : list Z) : io () := putblock_loop fuel p.
Definition caml_seek_out (dest : Z) : io () :=
  caml_flush;;
  c ← chan;
  r ← call (sys_lseek (fd c) dest SEEK_SET);
  match r with
  | inl e => caml_sys_error e
  | inr res => if (res <? 0) || negb (res =? dest) then caml_sys_error (Eother 0) else update (set_offset dest)
  end.
Definition caml_pos_out (c : channel) : Z := offset c + curr c.

(** ** Input *)

Definition caml_read_fd (d n : Z) : io (errno + list Z) := call (sys_read d n).
Fixpoint do_read_loop (n : nat) (d len : Z) : io (errno + list Z) :=
  match n with
  | O => stuck
  | S n => r ← caml_read_fd d len; if decide (r = inl EINTR) then do_read_loop n d len else mret r
  end.
Definition caml_do_read (d len : Z) : io (errno + list Z) := do_read_loop fuel d len.
(** [read] has stored [bs] at [i]. *)
Definition fill (i : Z) (bs : list Z) (c : channel) : channel :=
  set_max (Some (i + Z.of_nat (length bs))) (set_offset (offset c + Z.of_nat (length bs)) (set_buff (move i bs (buff c)) c)).
Definition byte_at (i : Z) (c : channel) : io Z := match buff c !! Z.to_nat i with Some b => mret b | None => stuck end.
Fixpoint refill_loop (n : nat) : io Z :=
  match n with
  | O => stuck
  | S n =>
      check_pending;;
      c ← chan;
      r ← caml_read_fd (fd c) IO_BUFFER_SIZE;
      match r with
      | inl e => if decide (e = EINTR) then refill_loop n else caml_sys_io_error e
      | inr [] => raise End_of_file
      | inr bs =>
          update (fill 0 bs);;
          update (set_curr 1);;
          c ← chan;
          byte_at 0 c
      end
  end.
Definition caml_refill : io Z := refill_loop fuel.
Definition Getch : io Z :=
  c ← chan;
  m ← max_pos c;
  if m <=? curr c then caml_refill else
  update (set_curr (curr c + 1));;
  byte_at (curr c) c.
Definition caml_getch : io Z := Getch.
Fixpoint getword_loop (n : nat) (res : Z) : io Z :=
  match n with
  | O => mret res
  | S n => b ← Getch; getword_loop n (u32 (u32 (Z.shiftl res 8) + b))
  end.
Definition caml_getword : io Z :=
  c ← chan;
  if negb (caml_channel_binary_mode c) then raise Failure_not_binary else getword_loop 4 0.
(** The block of at most [len] bytes that is copied to the caller. *)
Fixpoint getblock_loop (n : nat) (len : Z) : io (list Z) :=
  match n with
  | O => stuck
  | S fuel =>
      check_pending;;
      let n := if INT_MAX <=? len then INT_MAX else len in
      c ← chan;
      m ← max_pos c;
      let avail := m - curr c in
      if n <=? avail then
        update (set_curr (curr c + n));;
        mret (slice (curr c) (curr c + n) (buff c))
      else if 0 <? avail then
        update (set_curr (curr c + avail));;
        mret (slice (curr c) m (buff c))
      else
        r ← caml_read_fd (fd c) IO_BUFFER_SIZE;
        match r with
        | inl e => if decide (e = EINTR) then getblock_loop fuel len else caml_sys_io_error e
        | inr bs =>
            let nread := Z.of_nat (length bs) in
            update (fill 0 bs);;
            let n := if nread <? n then nread else n in
            update (set_curr n);;
            c ← chan;
            mret (slice 0 n (buff c))
        end
  end.
Definition caml_getblock (len : Z) : io (list Z) := getblock_loop fuel len.
Fixpoint really_getblock_loop (n : nat) (k : Z) (p : list Z) : io (list Z) :=
  match n with
  | O => stuck
  | S n =>
      if 0 <? k then
        r ← caml_getblock k;
        match r with
        | [] => mret p
        | _ => really_getblock_loop n (k - Z.of_nat (length r)) (p ++ r)
        end
      else mret p
  end.
Definition caml_really_getblock (len : Z) : io (list Z) := really_getblock_loop fuel len [].
Definition caml_seek_in (dest : Z) : io () :=
  c ← chan;
  m ← max_pos c;
  if (offset c - m <=? dest) && (dest <=? offset c) && negb (has_flag CHANNEL_TEXT_MODE c) then
    update (set_curr (m - (offset c - dest)))
  else
    r ← call (sys_lseek (fd c) dest SEEK_SET);
    match r with
    | inl e => caml_sys_error e
    | inr res =>
        if (res <? 0) || negb (res =? dest) then caml_sys_error (Eother 0) else
        update (fun c => set_max (Some 0) (set_curr 0 (set_offset dest c)))
    end.
Definition caml_pos_in : io Z :=
  c ← chan;
  m ← max_pos c;
  mret (offset c - (m - curr c)).
Definition shift_unread (m : Z) (c : channel) : channel :=
  if 0 <? curr c then
    set_max (Some (m - curr c)) (set_curr 0 (set_buff (move 0 (slice (curr c) m (buff c)) (buff c)) c))
  else c.
Definition NEWLINE : Z := 10.
Fixpoint scan_loop (n : nat) (p : Z) : io Z :=
  match n with
  | O => stuck
  | S n =>
      let next_char p :=
        c ← chan;
        b ← byte_at p c;
        if b =? NEWLINE then mret (p + 1 - curr c) else scan_loop n (p + 1) in
      c ← chan;
      m ← max_pos c;
      if m <=? p then
        let p := p - curr c in
        update (shift_unread m);;
        c ← chan;
        m ← max_pos c;
        if IO_BUFFER_SIZE <=? m then mret (- (m - curr c)) else
        r ← caml_read_fd (fd c) (IO_BUFFER_SIZE - m);
        match r with
        | inl e => if decide (e = EINTR) then check_pending;; c ← chan; scan_loop n (curr c) else caml_sys_io_error e
        | inr [] => mret (- (m - curr c))
        | inr bs => update (fill m bs);; next_char p
        end
      else next_char p
  end.
Definition caml_input_scan_line : io Z :=
  check_pending;;
  c ← chan;
  scan_loop fuel (curr c).

(** ** The primitives *)

Definition locked {A} (m : io A) : io A :=
  caml_channel_lock;;
  r ← m;
  caml_channel_unlock;;
  mret r.
(** The C string at the start of the bytes of a string. *)
Fixpoint caml_stat_strdup (s : list Z) : list Z :=
  match s with [] => [] | c :: s => if c =? 0 then [] else c :: caml_stat_strdup s end.
Definition caml_ml_set_channel_name (vname : list Z) : io Z :=
  locked (update (set_name (if 0 <? Z.of_nat (length vname) then Some (caml_stat_strdup vname) else None)));; mret Val_unit.
Definition caml_channel_descriptor : io Z :=
  c ← chan;
  if fd c =? -1 then caml_sys_error EBADF else mret (Val_long (fd c)).
Definition caml_ml_close_channel : io Z :=
  caml_channel_lock;;
  update (fun c => set_offset 0 (set_max (Some IO_BUFFER_SIZE) (set_curr IO_BUFFER_SIZE c)));;
  c ← chan;
  (if negb (fd c =? -1) then
    update (set_fd (-1));;
    r ← call (sys_close (fd c));
    match r with Some e => caml_sys_error e | None => mret () end
  else mret ());;
  caml_channel_unlock;;
  mret Val_unit.
Definition ml_channel_size : io Z := locked caml_channel_size.
Definition caml_ml_channel_size : io Z :=
  size ← ml_channel_size;
  if Max_long <? size then caml_sys_error EOVERFLOW else mret (Val_long size).
(** The primitives on 64-bit positions: the argument and the result are the
    contents of the boxed integers. *)
Definition caml_ml_channel_size_64 : io Z := ml_channel_size.
Definition caml_ml_seek_out_64 (pos : Z) : io Z := locked (caml_seek_out pos);; mret Val_unit.
Definition caml_ml_pos_out_64 : io Z := locked (c ← chan; mret (caml_pos_out c)).
Definition caml_ml_seek_in_64 (pos : Z) : io Z := locked (caml_seek_in pos);; mret Val_unit.
Definition caml_ml_pos_in_64 : io Z := locked caml_pos_in.
Definition caml_ml_flush : io Z :=
  locked (c ← chan; if negb (fd c =? -1) then caml_flush else mret ());; mret Val_unit.
Definition caml_ml_set_buffered (mode : bool) : io Z :=
  locked (
    if mode then update (fun c => set_flags (Z.land (flags c) (Z.lnot CHANNEL_FLAG_UNBUFFERED)) c)
    else
      update (fun c => set_flags (Z.lor (flags c) CHANNEL_FLAG_UNBUFFERED) c);;
      c ← chan;
      if negb (fd c =? -1) then caml_flush else mret ());; mret Val_unit.
Definition caml_ml_is_buffered : io Z := c ← chan; mret (Val_bool (negb (has_flag CHANNEL_FLAG_UNBUFFERED c))).
Definition caml_ml_is_binary_mode : io Z := c ← chan; mret (Val_bool (caml_channel_binary_mode c)).
Definition caml_ml_output_char (x : Z) : io Z :=
  locked (Putch (Long_val x);; caml_flush_if_unbuffered);; mret Val_unit.
Definition caml_ml_output_int (x : Z) : io Z :=
  locked (caml_putword (u32 (Long_val x));; caml_flush_if_unbuffered);; mret Val_unit.
(** [data]: the bytes of the string that the arguments delimit. *)
Definition caml_ml_output_bytes (data : list Z) : io Z :=
  locked (putblock_loop fuel data;; caml_flush_if_unbuffered);; mret Val_unit.
Definition caml_ml_output (data : list Z) : io Z := caml_ml_output_bytes data.
Definition caml_ml_output_bigarray (data : list Z) : io Z :=
  locked (caml_really_putblock data);; mret Val_unit.
Definition caml_ml_seek_out (pos : Z) : io Z := locked (caml_seek_out (Long_val pos));; mret Val_unit.
Definition caml_ml_pos_out : io Z :=
  pos ← locked (c ← chan; mret (caml_pos_out c));
  if Max_long <? pos then caml_sys_error EOVERFLOW else mret (Val_long pos).
Definition caml_ml_input_char : io Z := c ← locked Getch; mret (Val_long c).
Definition caml_ml_input_int : io Z := i ← locked caml_getword; mret (Val_long (Z.shiftr (s64 (Z.shiftl i 32)) 32)).
(** [caml_ml_input] repeats [caml_getblock] on a block that can move. *)
Definition caml_ml_input (len : Z) : io (list Z) := locked (getblock_loop fuel (Long_val len)).
Definition caml_ml_input_bigarray (len : Z) : io (list Z) := locked (caml_getblock (Long_val len)).
Definition caml_ml_seek_in (pos : Z) : io Z := locked (caml_seek_in (Long_val pos));; mret Val_unit.
Definition caml_ml_pos_in : io Z :=
  pos ← locked caml_pos_in;
  if Max_long <? pos then caml_sys_error EOVERFLOW else mret (Val_long pos).
Definition caml_ml_input_scan_line : io Z := res ← locked caml_input_scan_line; mret (Val_long res).
End channels.

(** ** The list of the channels opened by the program

    The channels live in a table indexed by their addresses; zero is the null
    pointer. *)
Record chans := mkchans { table : gmap Z channel; caml_all_opened_channels : Z }.
Definition modify_chan (a : Z) (f : channel -> channel) (t : gmap Z channel) : option (gmap Z channel) :=
  c ← t !! a; Some (<[a := f c]> t).
Definition link_channel (a : Z) (s : chans) : option chans :=
  let head := caml_all_opened_channels s in
  t ← modify_chan a (set_next head) (table s);
  t ← (if head =? 0 then Some t else modify_chan head (set_prev a) t);
  Some (mkchans t a).
Definition unlink_channel (a : Z) (s : chans) : option chans :=
  c ← table s !! a;
  '(t, head) ← (if prev c =? 0 then
      first ← table s !! caml_all_opened_channels s;
      let head := next first in
      t ← (if head =? 0 then Some (table s) else modify_chan head (set_prev 0) (table s));
      Some (t, head)
    else
      t ← modify_chan (prev c) (set_next (next c)) (table s);
      t ← (if next c =? 0 then Some t else modify_chan (next c) (set_prev (prev c)) t);
      Some (t, caml_all_opened_channels s));
  t ← modify_chan a (fun c => set_prev 0 (set_next 0 c)) t;
  Some (mkchans t head).
(** [a] is the address of the channel [c] that [caml_open_descriptor_in] or
    [caml_open_descriptor_out] has allocated. *)
Definition open_with_flags (a : Z) (c : channel) (f : Z) (s : chans) : option chans :=
  let c := set_refcount 1 (set_flags (Z.lor (flags c) (Z.lor f CHANNEL_FLAG_MANAGED_BY_GC)) c) in
  link_channel a (mkchans (<[a := c]> (table s)) (caml_all_opened_channels s)).
Definition caml_ml_open_descriptor_in_with_flags `{OS} (a : Z) (junk : list Z) (d f : Z) (x : world) (s : chans) : option chans * world :=
  let '(c, x) := caml_open_descriptor_in junk d x in (open_with_flags a c f s, x).
Definition caml_ml_open_descriptor_out_with_flags `{OS} (a : Z) (junk : list Z) (d f : Z) (x : world) (s : chans) : option chans * world :=
  let '(c, x) := caml_open_descriptor_out junk d x in (open_with_flags a c f s, x).
Definition caml_ml_open_descriptor_in `{OS} (a : Z) (junk : list Z) (d : Z) (x : world) (s : chans) : option chans * world := caml_ml_open_descriptor_in_with_flags a junk (Int_val d) 0 x s.
Definition caml_ml_open_descriptor_out `{OS} (a : Z) (junk : list Z) (d : Z) (x : world) (s : chans) : option chans * world := caml_ml_open_descriptor_out_with_flags a junk (Int_val d) 0 x s.
(** The channel is freed when no block owns it and its buffer is written. *)
Definition caml_finalize_channel (a : Z) (s : chans) : option chans :=
  c ← table s !! a;
  if negb (has_flag CHANNEL_FLAG_MANAGED_BY_GC c) then Some s else
  let notflushed := bool_decide (max c = None) && negb (curr c =? 0) in
  t ← modify_chan a (set_refcount (refcount c - 1)) (table s);
  let s := mkchans t (caml_all_opened_channels s) in
  if (0 <? refcount c - 1) || notflushed then Some s else
  s ← unlink_channel a s;
  Some (mkchans (delete a (table s)) (caml_all_opened_channels s)).
(** The output channels of the list, each with one more owner. *)
Fixpoint out_channels_loop (n : nat) (a : Z) (s : chans) (acc : list Z) : option (chans * list Z) :=
  if a =? 0 then Some (s, acc) else
  match n with
  | O => None
  | S n =>
      c ← table s !! a;
      if bool_decide (max c = None) then
        t ← modify_chan a (set_refcount (refcount c + 1)) (table s);
        out_channels_loop n (next c) (mkchans t (caml_all_opened_channels s)) (a :: acc)
      else out_channels_loop n (next c) s acc
  end.
Definition caml_ml_out_channels_list (s : chans) : option (chans * list Z) :=
  '(s, channel_list) ← out_channels_loop (size (table s)) (caml_all_opened_channels s) s [];
  Some (s, foldl (fun res a => a :: res) [] channel_list).

Section wp.
Context `{Actions}.

(** ** Weakest preconditions *)

Definition wp {A} (m : io A) (s : st) (Q : outcome A -> st -> Prop) : Prop :=
  match m s with (Stuck, _) => False | (o, s') => Q o s' end.
Lemma wp_mono {A} (m : io A) s (Q Q' : outcome A -> st -> Prop) : (forall o s', Q o s' -> Q' o s') -> wp m s Q -> wp m s Q'.
Proof. unfold wp. destruct (m s) as [[a|e|] s']; intros HQ Hm; try done; by apply HQ. Qed.
Lemma wp_bind {A B} (m : io A) (k : A -> io B) s Q :
  wp m s (fun o s' => match o with Val a => wp (k a) s' Q | Exn e => Q (Exn e) s' | Stuck => False end) -> wp (m ≫= k) s Q.
Proof. unfold wp, mbind, io_bind. by destruct (m s) as [[a|e|] s']. Qed.
Lemma wp_ret {A} (a : A) s (Q : outcome A -> st -> Prop) : Q (Val a) s -> wp (mret a) s Q.
Proof. done. Qed.
Lemma wp_throw {A} e s (Q : outcome A -> st -> Prop) : Q (Exn e) s -> wp (throw e) s Q.
Proof. done. Qed.
Lemma wp_chan {B} (k : channel -> io B) s Q : wp (k (ch s)) s Q -> wp (chan ≫= k) s Q.
Proof. intros Hk. by apply wp_bind. Qed.
Lemma wp_update f s (Q : outcome () -> st -> Prop) : Q (Val ()) (mkst _ (f (ch s)) (w s) (last_locked s)) -> wp (update f) s Q.
Proof. done. Qed.
Lemma wp_call {A} (f : world -> A * world) s (Q : outcome A -> st -> Prop) :
  (forall r x, f (w s) = (r, x) -> Q (Val r) (mkst _ (ch s) x (last_locked s))) -> wp (call f) s Q.
Proof. intros HQ. unfold wp, call. destruct (f (w s)) as [r x] eqn:E. by apply HQ. Qed.
Lemma wp_max m {B} (k : Z -> io B) s Q : max (ch s) = Some m -> wp (k m) s Q -> wp (max_pos (ch s) ≫= k) s Q.
Proof. intros E Hk. unfold max_pos. rewrite E. by apply wp_bind. Qed.
End wp.
End Channels.
