(* ===== verification/ChannelProps.v ===== *)
(** * Channels as files

    A channel on a regular file behaves as the file and a position in it:
    the buffer cannot be observed, whatever the system does with the sizes of the
    transfers and the interruptions. *)

From S2P Require Import Prelude Memory Channels.
From stdpp Require Import list.
#[local] Open Scope Z_scope.
Import Channels.

Module ChannelProps.

(** ** Regular files *)

(** The contents of a file after [data] is written at [p]: beyond its end it is
    filled with zeros. *)
Definition overwrite (f : list Z) (p : Z) (data : list Z) : list Z :=
  match data with
  | [] => f
  | _ => take (Z.to_nat p) (f ++ replicate (Z.to_nat p - length f) 0) ++ data ++ drop (Z.to_nat p + length data) f
  end.
(** What POSIX says of a descriptor [d] open on a regular file (not in append mode) that nothing
    else uses, and of handlers that do not use the channel.  A signal
    interrupts finitely many system calls. *)
Class FileLaws `{Act : Actions} (d : Z) := {
  file : world -> list Z;
  pos : world -> Z;
  interrupts : world -> nat;
  same (x x' : world) : Prop := file x' = file x /\ pos x' = pos x /\ (interrupts x' <= interrupts x)%nat;
  valid_fd : 0 <= d;
  buffer_size : 0 < IO_BUFFER_SIZE < INT_MAX;
  read_ok : forall n x bs x', 0 < n -> sys_read d n x = (inr bs, x') ->
    Z.of_nat (length bs) <= n /\ bs = slice (pos x) (pos x + Z.of_nat (length bs)) (file x) /\ (bs = [] -> Z.of_nat (length (file x)) <= pos x) /\
    file x' = file x /\ pos x' = pos x + Z.of_nat (length bs) /\ (interrupts x' <= interrupts x)%nat;
  read_err : forall n x e x', sys_read d n x = (inl e, x') -> same x x' /\ (e = EINTR -> (interrupts x' < interrupts x)%nat);
  write_ok : forall data x n x', data <> [] -> sys_write d data x = (inr n, x') ->
    1 <= n <= Z.of_nat (length data) /\ file x' = overwrite (file x) (pos x) (take (Z.to_nat n) data) /\ pos x' = pos x + n /\ (interrupts x' <= interrupts x)%nat;
  write_err : forall data x e x', sys_write d data x = (inl e, x') -> same x x' /\ (e = EINTR -> (interrupts x' < interrupts x)%nat) /\ e <> EBADF /\ e <> EPIPE /\ e <> ECONNRESET;
  seek_ok : forall o x r x', sys_lseek d o SEEK_SET x = (inr r, x') -> 0 <= o /\ file x' = file x /\ (interrupts x' <= interrupts x)%nat /\ r = o /\ pos x' = o;
  seek_cur : forall x r x', sys_lseek d 0 SEEK_CUR x = (inr r, x') -> r = pos x /\ same x x' /\ 0 <= r;
  seek_err : forall o wh x e x', sys_lseek d o wh x = (inl e, x') -> same x x';
  actions_ok : forall s r s', caml_process_pending_actions s = (r, s') -> ch s' = ch s /\ last_locked s' = last_locked s /\ same (w s) (w s');
}.

Section props.
Context `{Act : Actions} (d : Z) `{!FileLaws d}.

(** ** Assertions

    [op n I m Q E]: from a locked channel in [I], with fewer than [n]
    interruptions to come, [m] returns a value in [Q], the channel still
    locked, or raises an exception in [E], the channel unlocked. *)
Definition held (s : st) : Prop := mutex (ch s) = true /\ last_locked s = true.
Definition released (s : st) : Prop := mutex (ch s) = false /\ last_locked s = false.
Definition op {A} (n : nat) (I : channel -> world -> Prop) (m : io A) (Q : A -> channel -> world -> Prop) (E : exn -> channel -> world -> Prop) : Prop :=
  forall s, I (ch s) (w s) -> held s -> (interrupts (w s) < n)%nat ->
  wp m s (fun o s' => (interrupts (w s') <= interrupts (w s))%nat /\
    match o with Val a => Q a (ch s') (w s') /\ held s' | Exn e => E e (ch s') (w s') /\ released s' | Stuck => False end).
Lemma op_conseq {A} n n' (I I' : channel -> world -> Prop) (m : io A) (Q Q' : A -> channel -> world -> Prop) (E E' : exn -> channel -> world -> Prop) :
  op n I m Q E -> (n' <= n)%nat -> (forall c x, I' c x -> I c x) -> (forall a c x, Q a c x -> Q' a c x) -> (forall e c x, E e c x -> E' e c x) -> op n' I' m Q' E'.
Proof.
  intros Hm Hn HI HQ HE s Hs Hh Hi. eapply wp_mono; [|apply Hm; [by apply HI|done|lia]]. intros o s' [Hl Ho]. split; [done|].
  destruct o; [|by destruct Ho as [Ho ?]; split; [apply HE|]|done]. destruct Ho as [Ho ?]; split; [by apply HQ|done].
Qed.
Lemma op_bind {A B} n I (m : io A) (k : A -> io B) Q R E : op n I m Q E -> (forall a, op n (Q a) (k a) R E) -> op n I (m ≫= k) R E.
Proof.
  intros Hm Hk s Hs Hh Hi. apply wp_bind. eapply wp_mono; [|by apply Hm]. intros o s' [Hl Ho]. destruct o as [a|e|]; [|done|done].
  destruct Ho as [Ho Hh']. eapply wp_mono; [|apply Hk; [done|done|lia]]. cbn. intros o s2 [Hl2 Ho2]. split; [lia|done].
Qed.
Lemma op_ret {A} n (a : A) (I : channel -> world -> Prop) Q E : (forall c x, I c x -> Q a c x) -> op n I (mret a) Q E.
Proof. intros HQ s Hs Hh Hi. apply wp_ret. split; [done|]. split; [by apply HQ|done]. Qed.
Lemma op_chan {B} n (I : channel -> world -> Prop) (k : channel -> io B) Q E : (forall c, op n (fun c' x => c' = c /\ I c x) (k c) Q E) -> op n I (chan ≫= k) Q E.
Proof. intros Hk s Hs Hh Hi. apply wp_chan. by apply Hk. Qed.
Lemma op_update n (I : channel -> world -> Prop) f Q E : (forall c, mutex (f c) = mutex c) -> (forall c x, I c x -> Q () (f c) x) -> op n I (update f) Q E.
Proof. intros Hf HQ s Hs [Hm Hl] Hi. apply wp_update. cbn. split; [done|]. split; [by apply HQ|]. split; cbn; [by rewrite Hf|done]. Qed.
Lemma op_call {A} n (I : channel -> world -> Prop) (f : world -> A * world) (Q : A -> channel -> world -> Prop) E :
  (forall c x r x', I c x -> f x = (r, x') -> Q r c x' /\ (interrupts x' <= interrupts x)%nat) -> op n I (call f) Q E.
Proof. intros HQ s Hs [Hm Hl] Hi. apply wp_call. intros r x Ex. destruct (HQ _ _ _ _ Hs Ex). by split_and!. Qed.
Lemma op_max {B} n (I : channel -> world -> Prop) m c (k : Z -> io B) Q E : (forall c' x, I c' x -> c' = c /\ max c = Some m) -> op n I (k m) Q E -> op n I (max_pos c ≫= k) Q E.
Proof. intros Hc Hk s Hs Hh Hi. destruct (Hc _ _ Hs) as [Ec Em]. rewrite <- Ec. apply (wp_max m); [by rewrite Ec|]. by apply Hk. Qed.
Lemma unlock_eq s : caml_channel_unlock s = (Val (), mkst _ (set_mutex false (ch s)) (w s) false).
Proof. done. Qed.
Lemma lock_eq s : mutex (ch s) = false -> caml_channel_lock s = (Val (), mkst _ (set_mutex true (ch s)) (w s) true).
Proof. intros E. unfold caml_channel_lock, mbind, io_bind. cbn. by rewrite E. Qed.
Lemma raise_eq {A} e s : (raise e : io A) s = (Exn e, if last_locked s then mkst _ (set_mutex false (ch s)) (w s) false else s).
Proof. unfold raise, caml_channel_cleanup_on_raise, mbind, io_bind. cbn. by destruct (last_locked s). Qed.
Lemma op_raise {A} n (I : channel -> world -> Prop) e (Q : A -> channel -> world -> Prop) (E : exn -> channel -> world -> Prop) :
  (forall c x, I c x -> E e (set_mutex false c) x) -> op n I (raise e) Q E.
Proof.
  intros HE s Hs [Hm Hl] Hi. unfold wp. rewrite raise_eq, Hl. cbn. split; [done|]. split; [by apply HE|done].
Qed.
Lemma op_io_error {A} n (I : channel -> world -> Prop) e (Q : A -> channel -> world -> Prop) (E : exn -> channel -> world -> Prop) :
  (forall c x e, e <> End_of_file -> I c x -> E e (set_mutex false c) x) -> op n I (caml_sys_io_error e) Q E.
Proof. intros HE. unfold caml_sys_io_error, caml_sys_error. destruct (decide _); apply op_raise; intros; by apply HE. Qed.

(** Assertions that the pending actions and an exception preserve. *)
Definition stable (I : channel -> world -> Prop) : Prop := forall c x x' b, I c x -> same x x' -> I (set_mutex b c) x'.
Lemma set_mutex_id c : mutex c = true -> set_mutex true (set_mutex false c) = c.
Proof. destruct c; cbn. by intros ->. Qed.
Lemma op_check_pending n (I : channel -> world -> Prop) (E : exn -> channel -> world -> Prop) : stable I ->
  (forall v c x, I c x -> E (Handler v) c x) -> op n I check_pending (fun _ => I) E.
Proof.
  intros HI HE s Hs [Hm Hl] Hi. assert (same (w s) (w s)) as Hr by by split_and!.
  unfold check_pending, wp, mbind, io_bind, pending, chan, process_pending. destruct (caml_check_pending_actions (w s)); [|by split_and!].
  destruct (has_flag CHANNEL_FLAG_MANAGED_BY_GC (ch s)) eqn:Ef.
  - rewrite unlock_eq. destruct (caml_process_pending_actions (mkst _ _ _ _)) as [[v|] s'] eqn:Ep; apply actions_ok in Ep as (Ec & El & Hw); cbn [ch w last_locked] in Ec, El, Hw.
    + rewrite raise_eq, El. split; [apply Hw|]. rewrite Ec. split; [|by split; rewrite ?Ec]. apply HE. by apply (HI _ (w s)).
    + unfold has_flag in *. rewrite Ec. cbn [flags set_mutex]. rewrite Ef, lock_eq by (by rewrite Ec). cbn [ch w]. rewrite Ec, set_mutex_id by done.
      split; [apply Hw|]. split; [|done]. rewrite <- (set_mutex_id (ch s)) by done. by apply (HI _ (w s)), Hw; apply (HI _ (w s)).
  - unfold mret at 1, io_ret at 1. destruct (caml_process_pending_actions s) as [[v|] s'] eqn:Ep; apply actions_ok in Ep as (Ec & El & Hw).
    + rewrite raise_eq, El, Hl. cbn [ch w]. split; [apply Hw|]. rewrite Ec. split; [|done]. apply HE. by apply (HI _ (w s)).
    + rewrite Ec, Ef. split; [apply Hw|]. rewrite Ec. split; [|by split; rewrite ?Ec, ?El].
      rewrite <- (set_mutex_id (ch s)) by done. by apply (HI _ (w s)), Hw; apply (HI _ (w s)).
Qed.

(** ** Bytes of the buffer *)

Lemma slice_lookup i j l k : 0 <= i -> slice i j l !! k = if Z.of_nat k <? j - i then l !! (Z.to_nat i + k)%nat else None.
Proof.
  intros Hi. unfold slice. destruct (Z.ltb_spec (Z.of_nat k) (j - i)).
  - rewrite lookup_take_lt by lia. apply lookup_drop.
  - apply lookup_take_ge. lia.
Qed.
Lemma length_slice i j l : 0 <= i <= j -> j <= Z.of_nat (length l) -> Z.of_nat (length (slice i j l)) = j - i.
Proof. intros Hi Hj. unfold slice. rewrite length_take, length_drop. lia. Qed.
Lemma move_lookup i src l k : 0 <= i -> i + Z.of_nat (length src) <= Z.of_nat (length l) ->
  move i src l !! k = if Z.of_nat k <? i then l !! k else if Z.of_nat k <? i + Z.of_nat (length src) then src !! (k - Z.to_nat i)%nat else l !! k.
Proof.
  intros Hi Hl. unfold move. destruct (Z.ltb_spec (Z.of_nat k) i); [apply list_lookup_inserts_lt; lia|].
  destruct (Z.ltb_spec (Z.of_nat k) (i + Z.of_nat (length src))); [apply list_lookup_inserts; lia|apply list_lookup_inserts_ge; lia].
Qed.
Lemma length_move i src l : length (move i src l) = length l.
Proof. apply length_inserts. Qed.
Lemma overwrite_lookup f p data k : 0 <= p -> data <> [] -> overwrite f p data !! k =
  if Z.of_nat k <? p then (if Z.of_nat k <? Z.of_nat (length f) then f !! k else Some 0)
  else if Z.of_nat k <? p + Z.of_nat (length data) then data !! (k - Z.to_nat p)%nat else f !! k.
Proof.
  intros Hp Hd. unfold overwrite. destruct data as [|b data]; [done|]. set (t := b :: data) in *. clearbody t. clear b data.
  assert (length (take (Z.to_nat p) (f ++ replicate (Z.to_nat p - length f) 0)) = Z.to_nat p) as El by (rewrite length_take, length_app, length_replicate; lia).
  destruct (Z.ltb_spec (Z.of_nat k) p).
  - rewrite lookup_app_l by lia. rewrite lookup_take_lt by lia. destruct (Z.ltb_spec (Z.of_nat k) (Z.of_nat (length f))); [by rewrite lookup_app_l by lia|].
    rewrite lookup_app_r by lia. rewrite lookup_replicate_2; [done|lia].
  - rewrite lookup_app_r by lia. rewrite El. destruct (Z.ltb_spec (Z.of_nat k) (p + Z.of_nat (length t))).
    + by rewrite lookup_app_l by lia.
    + rewrite lookup_app_r by lia. rewrite lookup_drop. f_equal. lia.
Qed.
Lemma overwrite_length f p data : 0 <= p -> data <> [] -> Z.of_nat (length (overwrite f p data)) = Z.max (Z.of_nat (length f)) (p + Z.of_nat (length data)).
Proof.
  intros Hp Hd. unfold overwrite. destruct data as [|b data]; [done|]. set (t := b :: data) in *. clearbody t. rewrite !length_app, length_take, length_app, length_replicate, length_drop. lia.
Qed.
Lemma overwrite_app f p a b : 0 <= p -> overwrite (overwrite f p a) (p + Z.of_nat (length a)) b = overwrite f p (a ++ b).
Proof.
  intros Hp. destruct (decide (a = [])) as [->|Ha]; [by rewrite Z.add_0_r|]. destruct (decide (b = [])) as [->|Hb]; [by rewrite app_nil_r|].
  assert (a ++ b <> []) as Hab by (by destruct a). apply list_eq. intros k. rewrite !overwrite_lookup, overwrite_length by (done || lia). rewrite length_app.
  repeat case_match; try lia; try done; rewrite ?lookup_app_l, ?lookup_app_r by lia; try done.
  f_equal. lia.
Qed.

(** ** Loops *)

Lemma op_know {A} n I (m : io A) Q E : op n (fun c x => I c x /\ (interrupts x < n)%nat) m Q E -> op n I m Q E.
Proof. intros Hm s Hs Hh Hi. by apply Hm. Qed.
Lemma op_fuel {A} n n' I (m : io A) Q E : op n' I m Q E -> op n (fun c x => I c x /\ (interrupts x < n')%nat) m Q E.
Proof. intros Hm s [Hs Hn] Hh Hi. by apply Hm. Qed.
Lemma op_pre {A} n (I I' : channel -> world -> Prop) (m : io A) Q E : (forall c x, I' c x -> I c x) -> op n I m Q E -> op n I' m Q E.
Proof. intros HI Hm. by apply (op_conseq n n I I' m Q Q E E). Qed.
Lemma op_False {A} n I (m : io A) Q E : (forall c x, I c x -> False) -> op n I m Q E.
Proof. intros HI s Hs. by destruct (HI _ _ Hs). Qed.
Lemma op_pure {A} n (P : Prop) I (m : io A) Q E : (P -> op n I m Q E) -> op n (fun c x => P /\ I c x) m Q E.
Proof. intros Hm s [HP Hs]. by apply Hm. Qed.
Lemma same_refl x : same x x.
Proof. by split_and!. Qed.
Lemma same_trans x y z : same x y -> same y z -> same x z.
Proof. intros (E1 & E2 & E3) (F1 & F2 & F3). split_and!; [congruence|congruence|lia]. Qed.

(** ** Output *)

(** The file is [G] once the buffer is written, and the position is [p]; [u]: the
    channel is not buffered. *)
Section output.
Context (u : bool).
Record out_inv (G : list Z) (p : Z) (c : channel) (x : world) : Prop := {
  oi_fd : fd c = d;
  oi_max : max c = None;
  oi_text : has_flag CHANNEL_TEXT_MODE c = false;
  oi_unbuffered : has_flag CHANNEL_FLAG_UNBUFFERED c = u;
  oi_curr : 0 <= curr c <= IO_BUFFER_SIZE;
  oi_buff : Z.of_nat (length (buff c)) = IO_BUFFER_SIZE;
  oi_pos : pos x = offset c;
  oi_off : 0 <= offset c;
  oi_file : overwrite (file x) (offset c) (slice 0 (curr c) (buff c)) = G;
  oi_p : p = offset c + curr c;
}.
Lemma out_stable G p : stable (out_inv G p).
Proof. intros c x x' b [] (Ef & Ep & _). split; try done; cbn; congruence. Qed.
Lemma set_mutex_same c : set_mutex (mutex c) c = c.
Proof. by destruct c. Qed.
Lemma stable_world I : stable I -> forall c x x', I c x -> same x x' -> I c x'.
Proof. intros HI c x x' Hx Hs. rewrite <- (set_mutex_same c). by apply (HI _ x). Qed.
Lemma stable_and I J : stable I -> stable J -> stable (fun c x => I c x /\ J c x).
Proof. intros HI HJ c x x' b [Hi Hj] Hs. split; [by apply (HI _ x)|by apply (HJ _ x)]. Qed.
Lemma stable_fuel n : stable (fun _ x => interrupts x < n)%nat.
Proof. intros c x x' b Hi (_ & _ & Hs). lia. Qed.
Lemma stable_chan (P : channel -> Prop) : (forall b c, P c -> P (set_mutex b c)) -> stable (fun c _ => P c).
Proof. intros HP c x x' b Hc _. by apply HP. Qed.

Lemma op_write n I data E : data <> [] -> (forall c x x', I c x -> same x x' -> I c x') ->
  op n I (caml_write_fd d data) (fun r c x' => exists x, I c x /\ (interrupts x' <= interrupts x)%nat /\
    match r with
    | inl e => same x x' /\ (e = EINTR -> (interrupts x' < interrupts x)%nat) /\ e <> EBADF /\ e <> EPIPE /\ e <> ECONNRESET
    | inr k => 1 <= k <= Z.of_nat (length data) /\ file x' = overwrite (file x) (pos x) (take (Z.to_nat k) data) /\ pos x' = pos x + k
    end) E.
Proof.
  intros Hd HI. unfold caml_write_fd. eapply op_bind.
  - apply op_call with (Q := fun r c x' => exists x, I c x /\ sys_write d data x = (r, x')). intros c x r x' Hi Ew. split; [by exists x|].
    destruct r as [e|k]; [apply write_err in Ew as [Hs _]; apply Hs|apply write_ok in Ew; [apply Ew|done]].
  - intros [e|k].
    + destruct (bool_decide _ && _) eqn:Ec.
      * apply op_call. intros c x1 r x2 (x & Hi & Ew) Ew2. apply write_err in Ew as (Hs & _). assert (I c x1) as Hi1 by (by apply (HI _ x)).
        assert (take 1 data <> []) as Ht by (by destruct data). destruct r as [e'|k].
        -- pose proof (write_err _ _ _ _ Ew2) as Hw. split; [|apply Hw]. exists x1. by split; [|split; [apply Hw|]].
        -- apply write_ok in Ew2 as (Hk & Hf & Hp & Hn); [|done]. split; [|done]. exists x1. rewrite length_take in Hk.
           rewrite take_take in Hf. replace (Z.to_nat k `min` 1)%nat with (Z.to_nat k) in Hf by lia. split_and!; try done; lia.
      * apply op_ret. intros c x' (x & Hi & Ew). pose proof (write_err _ _ _ _ Ew) as Hw. exists x. by split; [|split; [apply Hw|]].
    + apply op_ret. intros c x' (x & Hi & Ew). apply write_ok in Ew as (Hk & Hf & Hp & Hn); [|done]. by exists x.
Qed.

(** The buffer after a write of [k] of its [curr c] bytes. *)
Lemma flush_written_inv G p c x x' k : out_inv G p c x -> 1 <= k <= curr c ->
  file x' = overwrite (file x) (pos x) (take (Z.to_nat k) (slice 0 (curr c) (buff c))) -> pos x' = pos x + k ->
  out_inv G p (flush_written (curr c) k c) x' /\ curr (flush_written (curr c) k c) = curr c - k.
Proof.
  intros [Hfd Hm Ht Hu Hc Hb Hp Ho HG Ep] Hk Ef Epos. assert (forall n, slice 0 (curr c) (buff c) = take n (slice 0 (curr c) (buff c)) ++ drop n (slice 0 (curr c) (buff c))) as Etd by (intros; by rewrite take_drop).
  pose proof (length_slice 0 (curr c) (buff c) ltac:(lia) ltac:(lia)) as Hl. rewrite Z.sub_0_r in Hl.
  assert (overwrite (file x') (offset c + k) (drop (Z.to_nat k) (slice 0 (curr c) (buff c))) = G) as HG'.
  { rewrite <- HG, (Etd (Z.to_nat k)), Ef, Hp. rewrite <- overwrite_app by done.
    replace (Z.of_nat (length (take (Z.to_nat k) (slice 0 (curr c) (buff c))))) with k by (rewrite length_take; lia). by rewrite <- Etd. }
  unfold flush_written. destruct (Z.ltb_spec k (curr c)) as [Hlt|Hlt]; cbn [offset curr set_curr set_buff set_offset buff].
  - assert (Z.of_nat (length (slice k (curr c) (buff c))) = curr c - k) as Hls by (apply length_slice; lia).
    split; [|done]. split; cbn; try done; try lia.
    + by rewrite length_move.
    + rewrite <- HG'. f_equal. apply list_eq. intros i. rewrite lookup_drop, !slice_lookup by lia. rewrite move_lookup, slice_lookup by lia.
      repeat case_match; try lia; try done. f_equal. lia.
  - split; [|done]. split; cbn; try done; try lia. rewrite <- HG'. f_equal. replace k with (curr c) by lia. rewrite Z.sub_diag. rewrite drop_ge by lia. done.
Qed.
Lemma flush_partial_ok G p k n : op n (fun c x => out_inv G p c x /\ curr c = k) (flush_partial_loop n)
  (fun b c x => out_inv G p c x /\ (curr c < k \/ curr c = 0) /\ b = (curr c =? 0)) (fun _ => out_inv G p).
Proof.
  induction n as [|n IH]; [by intros s ? ? Hi; lia|]. cbn [flush_partial_loop]. apply op_know. set (I := fun c x => _ /\ _). assert (stable I) as HI.
  { apply stable_and; [|apply stable_fuel]. apply stable_and; [apply out_stable|]. by apply stable_chan. }
  eapply op_bind; [apply op_check_pending; [exact HI|intros v c x Hx; apply Hx]|]. intros []. apply op_chan. intros c.
  destruct (Z.ltb_spec 0 (curr c)) as [Hc|Hc].
  2: { apply op_ret. intros c' x [-> [[Hi Ek] _]]. pose proof (oi_curr _ _ _ _ Hi). split; [done|]. split; [lia|done]. }
  destruct (decide (fd c = d)) as [Ed|]; [|apply op_False; by intros c' x [_ [[Hi _] _]]; destruct Hi]. rewrite Ed.
  destruct (decide (slice 0 (curr c) (buff c) = [])) as [E0|Hne].
  { apply op_False. intros c' x [_ [[Hi _] _]]. destruct Hi. pose proof (length_slice 0 (curr c) (buff c) ltac:(lia) ltac:(lia)) as Hl. rewrite E0 in Hl. cbn in Hl. lia. }
  eapply op_bind; [apply op_write; [done|]|].
  - intros c' x x' [-> Hx] Hs. split; [done|]. by apply (stable_world I HI _ x).
  - intros [e|written].
    + destruct (decide (e = EINTR)) as [->|Hne'].
      * eapply op_pre; [|apply (op_fuel _ n), IH]. intros c' x' (x & [-> [[Hi Ek] Hn]] & _ & Hs & He & _). split; [|specialize (He eq_refl); lia].
        split; [|done]. by apply (stable_world _ (out_stable G p) _ x).
      * destruct (decide (e = EBADF \/ _)) as [Hb|_]; [apply op_False; intros c' x' (x & _ & _ & _ & _ & ? & ? & ?); naive_solver|].
        eapply op_bind; [apply op_ret with (Q := fun _ c' x' => out_inv G p c' x')|intros []; apply op_io_error; intros; by apply (out_stable G p _ x); [|apply same_refl]].
        intros c' x' (x & [-> [[Hi Ek] Hn]] & _ & Hs & _). by apply (stable_world _ (out_stable G p) _ x).
    + eapply op_bind; [apply op_update with (Q := fun _ c' x' => out_inv G p c' x' /\ (curr c' < k \/ curr c' = 0)); [by intros; unfold flush_written; case_match|]|].
      * intros c' x' (x & [-> [[Hi Ek] Hn]] & _ & Hk & Ef & Ep). pose proof (oi_curr _ _ _ _ Hi) as Hcu. pose proof (oi_buff _ _ _ _ Hi) as Hb.
        rewrite length_slice in Hk by lia. destruct (flush_written_inv G p c x x' written Hi ltac:(lia) Ef Ep) as [Hi' Ec']. split; [done|]. lia.
      * intros []. apply op_chan. intros c'. apply op_ret. intros c2 x' [-> [Hi Hc']]. by split_and!.
Qed.

Context (Hfuel : IO_BUFFER_SIZE + 1 < Z.of_nat fuel).
Lemma flush_ok G p : op fuel (out_inv G p) caml_flush (fun _ c x => out_inv G p c x /\ curr c = 0) (fun _ => out_inv G p).
Proof.
  assert (forall m, op fuel (fun c x => out_inv G p c x /\ curr c < Z.of_nat m) (flush_loop m) (fun _ c x => out_inv G p c x /\ curr c = 0) (fun _ => out_inv G p)) as Hl.
  { induction m as [|m IH]; cbn [flush_loop]; [apply op_False; intros c x [Hi Hc]; pose proof (oi_curr _ _ _ _ Hi); lia|].
    intros s [Hi Hc]. revert s Hi Hc.
    assert (forall k, k < Z.of_nat (S m) -> op fuel (fun c x => out_inv G p c x /\ curr c = k) (b ← caml_flush_partial; if (b : bool) then mret () else flush_loop m) (fun _ c x => out_inv G p c x /\ curr c = 0) (fun _ => out_inv G p)) as Hk.
    - intros k Hk. eapply op_bind; [apply flush_partial_ok|]. intros b. destruct b.
      + apply op_ret. intros c x (Hi & _ & Eb). split; [done|]. symmetry in Eb. by apply Z.eqb_eq in Eb.
      + eapply op_pre; [|exact IH]. intros c x (Hi & Hc & Eb). symmetry in Eb. apply Z.eqb_neq in Eb. split; [done|lia].
    - intros s Hi Hc. by apply (Hk (curr (ch s))). }
  eapply op_pre; [|apply Hl]. intros c x Hi. pose proof (oi_curr _ _ _ _ Hi). split; [done|lia].
Qed.
Lemma flushed G p c x : out_inv G p c x -> curr c = 0 -> file x = G.
Proof. intros [] E. by rewrite E in *. Qed.
Lemma put_bytes_inv G p c x bs : out_inv G p c x -> curr c + Z.of_nat (length bs) <= IO_BUFFER_SIZE -> out_inv (overwrite G p bs) (p + Z.of_nat (length bs)) (put_bytes bs c) x.
Proof.
  intros [Hfd Hm Ht Hu Hc Hb Hp Ho HG Ep] Hl. split; cbn; try done; try lia.
  - by rewrite length_move.
  - rewrite <- HG, Ep. pose proof (length_slice 0 (curr c) (buff c) ltac:(lia) ltac:(lia)) as Hs.
    replace (offset c + curr c) with (offset c + Z.of_nat (length (slice 0 (curr c) (buff c)))) by lia. rewrite overwrite_app by done. f_equal.
    apply list_eq. intros k. rewrite slice_lookup, move_lookup by lia. destruct (decide (k < length (slice 0 (curr c) (buff c)))%nat).
    + rewrite lookup_app_l by done. rewrite slice_lookup by lia. repeat case_match; try lia; done.
    + rewrite lookup_app_r by lia. repeat case_match; try lia; [f_equal; lia|]. symmetry. apply lookup_ge_None_2. lia.
Qed.
Lemma putch_ok G p b : op fuel (out_inv G p) (Putch b) (fun _ => out_inv (overwrite G p [u8 b]) (p + 1)) (fun _ => out_inv G p).
Proof.
  unfold Putch. apply op_chan. intros c. apply op_bind with (Q := fun _ c x => out_inv G p c x /\ curr c < IO_BUFFER_SIZE).
  - destruct (Z.leb_spec IO_BUFFER_SIZE (curr c)) as [Hc|Hc]; [|apply op_ret; by intros c' x [-> Hi]].
    destruct (Z_lt_le_dec IO_BUFFER_SIZE (curr c)); [apply op_False; intros c' x [_ Hi]; pose proof (oi_curr _ _ _ _ Hi); lia|].
    eapply op_bind; [eapply op_pre; [|apply (flush_partial_ok G p (curr c))]; by intros c' x [-> Hi]|]. intros b'. apply op_ret. intros c' x (Hi & Hc' & _).
    split; [done|]. pose proof buffer_size. lia.
  - intros []. apply op_update; [done|]. intros c' x [Hi Hc]. apply (put_bytes_inv G p c' x [u8 b] Hi). cbn. lia.
Qed.
Lemma putblock_ok G p k0 bs : op fuel (fun c x => out_inv G p c x /\ curr c = k0) (caml_putblock bs)
  (fun k c x => 0 <= k <= Z.of_nat (length bs) /\ out_inv (overwrite G p (take (Z.to_nat k) bs)) (p + k) c x /\ (0 < k \/ (k0 = IO_BUFFER_SIZE /\ curr c < IO_BUFFER_SIZE) \/ bs = []))
  (fun _ c x => exists k, 0 <= k <= Z.of_nat (length bs) /\ out_inv (overwrite G p (take (Z.to_nat k) bs)) (p + k) c x).
Proof.
  pose proof buffer_size as Hsz. unfold caml_putblock. apply op_chan. intros c.
  destruct (decide (0 <= curr c <= IO_BUFFER_SIZE)) as [Hc|]; [|apply op_False; intros c' x [_ [Hi _]]; by pose proof (oi_curr _ _ _ _ Hi)].
  apply op_pre with (I := fun c' x => curr c = k0 /\ (c' = c /\ out_inv G p c x)); [by intros c' x (-> & ? & ?)|]. apply op_pure. intros Ek.
  set (n := if INT_MAX <=? _ then _ else _). assert (n = Z.min INT_MAX (Z.of_nat (length bs))) as En by (unfold n; destruct (Z.leb_spec INT_MAX (Z.of_nat (length bs))); lia). clearbody n.
  destruct (Z.ltb_spec n (IO_BUFFER_SIZE - curr c)) as [Hn|Hn].
  - eapply op_bind; [apply op_update with (Q := fun _ => out_inv (overwrite G p (take (Z.to_nat n) bs)) (p + n)); [done|]|].
    + intros c' x [-> Hi]. replace (p + n) with (p + Z.of_nat (length (take (Z.to_nat n) bs))) by (rewrite length_take; lia). apply put_bytes_inv; [done|]. rewrite length_take. lia.
    + intros []. apply op_ret. intros c' x Hi. split; [lia|]. split; [done|]. destruct bs; [by right; right|left; cbn in En; lia].
  - set (free := IO_BUFFER_SIZE - curr c) in *.
    eapply op_bind; [apply op_update with (Q := fun _ c x => out_inv (overwrite G p (take (Z.to_nat free) bs)) (p + free) c x /\ curr c = IO_BUFFER_SIZE); [done|]|].
    + intros c' x [-> Hi]. assert (Z.of_nat (length (take (Z.to_nat free) bs)) = free) as Hl by (rewrite length_take; lia).
      split; [|cbn; lia]. rewrite <- Hl at 2. apply put_bytes_inv; [done|lia].
    + intros []. eapply op_bind; [apply op_update with (Q := fun _ c x => out_inv (overwrite G p (take (Z.to_nat free) bs)) (p + free) c x /\ curr c = IO_BUFFER_SIZE); [done|]|].
      * intros c' x [Hi Ec]. replace (set_curr IO_BUFFER_SIZE c') with c' by (destruct c'; cbn in *; by rewrite Ec). done.
      * intros []. eapply op_bind; [eapply op_conseq; [apply (flush_partial_ok (overwrite G p (take (Z.to_nat free) bs)) (p + free) IO_BUFFER_SIZE)|done|intros c' x Hx; exact Hx|intros b c' x Hx; exact Hx|]|].
        -- cbn. intros e c' x Hi. exists free. split; [lia|done].
        -- cbn. intros b. apply op_ret. intros c' x (Hi & Hc' & _). split; [lia|]. split; [done|]. lia.
Qed.
(** The bytes before an exception: a prefix of the data. *)
Definition accepted (G : list Z) (p : Z) (bs : list Z) (c : channel) (x : world) : Prop :=
  exists k, 0 <= k <= Z.of_nat (length bs) /\ out_inv (overwrite G p (take (Z.to_nat k) bs)) (p + k) c x.
Lemma accepted_more G p bs k c x : 0 <= p -> 0 <= k <= Z.of_nat (length bs) ->
  accepted (overwrite G p (take (Z.to_nat k) bs)) (p + k) (drop (Z.to_nat k) bs) c x -> accepted G p bs c x.
Proof.
  intros Hp Hk (j & Hj & Hi). rewrite length_drop in Hj. exists (k + j). split; [lia|].
  replace (take (Z.to_nat (k + j)) bs) with (take (Z.to_nat k) bs ++ take (Z.to_nat j) (drop (Z.to_nat k) bs)).
  - rewrite <- overwrite_app by done. replace (Z.of_nat (length (take (Z.to_nat k) bs))) with k by (rewrite length_take; lia). by rewrite Z.add_assoc.
  - rewrite take_take_drop. f_equal. lia.
Qed.
Lemma putblock_loop_ok m : forall bs G p, op fuel (fun c x => out_inv G p c x /\ 2 * Z.of_nat (length bs) + (if curr c <? IO_BUFFER_SIZE then 0 else 1) < Z.of_nat m) (putblock_loop m bs)
  (fun _ => out_inv (overwrite G p bs) (p + Z.of_nat (length bs))) (fun _ => accepted G p bs).
Proof.
  induction m as [|m IH]; intros bs G p; cbn [putblock_loop]; [apply op_False; intros c x [_ Hm]; case_match; lia|].
  destruct (Z.ltb_spec 0 (Z.of_nat (length bs))) as [Hl|Hl].
  2: { destruct bs; [|cbn in Hl; lia]. apply op_ret. intros c x [Hi _]. cbn. by rewrite Z.add_0_r. }
  destruct (Z_lt_le_dec p 0) as [|Hp]; [apply op_False; intros c x [Hi _]; destruct Hi; lia|].
  intros s [Hi Hm]. revert s Hi Hm.
  assert (forall k0, 2 * Z.of_nat (length bs) + (if k0 <? IO_BUFFER_SIZE then 0 else 1) < Z.of_nat (S m) ->
    op fuel (fun c x => out_inv G p c x /\ curr c = k0) (written ← caml_putblock bs; putblock_loop m (drop (Z.to_nat written) bs))
      (fun _ => out_inv (overwrite G p bs) (p + Z.of_nat (length bs))) (fun _ => accepted G p bs)) as Hk; [|intros s Hi Hm; by apply (Hk (curr (ch s)))].
  intros k0 Hk0. eapply op_bind; [apply putblock_ok|]. intros k. cbn beta. apply op_pure. intros Hk.
  eapply op_conseq; [apply (IH (drop (Z.to_nat k) bs) (overwrite G p (take (Z.to_nat k) bs)) (p + k))|done|..].
  - intros c x [Hi Hpr]. split; [done|]. rewrite length_drop. destruct Hpr as [Hpr|[[-> Hpr]|Hpr]]; [case_match; case_match; lia| |by rewrite Hpr in Hl].
    rewrite Z.ltb_irrefl in Hk0. rewrite (proj2 (Z.ltb_lt _ _)) by done. lia.
  - cbn. intros _ c x Hi. rewrite length_drop in Hi. replace (p + Z.of_nat (length bs)) with (p + k + Z.of_nat (length bs - Z.to_nat k)) by lia.
    assert (Z.of_nat (length (take (Z.to_nat k) bs)) = k) as Ek by (rewrite length_take; lia). rewrite <- Ek in Hi at 2. rewrite overwrite_app, take_drop in Hi by done. done.
  - cbn. intros _ c x. by apply accepted_more.
Qed.
Lemma really_putblock_ok G p bs : 2 * Z.of_nat (length bs) + 1 < Z.of_nat fuel -> op fuel (out_inv G p) (caml_really_putblock bs)
  (fun _ => out_inv (overwrite G p bs) (p + Z.of_nat (length bs))) (fun _ => accepted G p bs).
Proof. intros Hl. eapply op_pre; [|apply putblock_loop_ok]. intros c x Hi. split; [done|]. case_match; lia. Qed.
Lemma flush_if_unbuffered_ok G p : op fuel (out_inv G p) caml_flush_if_unbuffered (fun _ c x => out_inv G p c x /\ (u = true -> file x = G)) (fun _ => out_inv G p).
Proof.
  unfold caml_flush_if_unbuffered. apply op_chan. intros c. destruct (has_flag CHANNEL_FLAG_UNBUFFERED c) eqn:Eu.
  - eapply op_conseq; [apply (flush_ok G p)|done|by intros c' x [-> Hi]|cbn|done]. intros _ c' x [Hi Ec]. split; [done|]. intros _. by apply (flushed G p c').
  - apply op_ret. intros c' x [-> Hi]. split; [done|]. destruct Hi. congruence.
Qed.
Lemma putch_then {A} G p b bs (m : io A) Q : 0 <= p -> op fuel (out_inv (overwrite G p [u8 b]) (p + 1)) m Q (fun _ => accepted (overwrite G p [u8 b]) (p + 1) bs) ->
  op fuel (out_inv G p) (caml_putch b;; m) Q (fun _ => accepted G p (u8 b :: bs)).
Proof.
  intros Hp Hm. eapply op_bind; [eapply op_conseq; [apply (putch_ok G p b)|done|done|intros a c x Hx; exact Hx|]|intros []].
  - cbn. intros _ c x Hi. exists 0. split; [cbn; lia|]. cbn. by rewrite Z.add_0_r.
  - eapply op_conseq; [exact Hm|done|done|done|]. cbn. intros _ c x Ha. apply (accepted_more G p (u8 b :: bs) 1); [done|cbn; lia|done].
Qed.
Definition be_bytes (x : Z) : list Z := [u8 (Z.shiftr x 24); u8 (Z.shiftr x 16); u8 (Z.shiftr x 8); u8 x].
Lemma overwrite_cons G p b bs : 0 <= p -> overwrite (overwrite G p [b]) (p + 1) bs = overwrite G p (b :: bs).
Proof. intros Hp. apply (overwrite_app G p [b] bs Hp). Qed.
Lemma putword_ok G p x : 0 <= p -> op fuel (out_inv G p) (caml_putword x) (fun _ => out_inv (overwrite G p (be_bytes x)) (p + 4)) (fun _ => accepted G p (be_bytes x)).
Proof.
  intros Hp. unfold caml_putword. apply op_chan. intros c. unfold caml_channel_binary_mode.
  destruct (has_flag CHANNEL_TEXT_MODE c) eqn:Et; cbn [negb]; [apply op_False; intros c' y [_ Hi]; destruct Hi; congruence|].
  eapply op_pre; [intros c' y [-> Hi]; exact Hi|]. do 3 (apply putch_then; [lia|]).
  eapply op_conseq; [apply putch_ok|done|done|..]; cbn beta.
  - intros _ c' y Hi. rewrite !overwrite_cons in Hi by lia. unfold be_bytes. by replace (p + 4) with (p + 1 + 1 + 1 + 1) by lia.
  - intros _ c' y Hi. exists 0. split; [cbn; lia|]. change (take (Z.to_nat 0) [u8 x]) with (@nil Z). by rewrite Z.add_0_r.
Qed.
Lemma seek_out_ok G p dest : op fuel (out_inv G p) (caml_seek_out dest) (fun _ c x => out_inv G dest c x /\ 0 <= dest) (fun _ => out_inv G p).
Proof.
  unfold caml_seek_out. eapply op_bind; [apply flush_ok|]. intros []. apply op_chan. intros c.
  destruct (decide (fd c = d)) as [Ed|]; [|apply op_False; by intros c' x [_ [Hi _]]; destruct Hi]. rewrite Ed.
  eapply op_bind; [apply op_call with (Q := fun r c' x' => c' = c /\ exists x, out_inv G p c x /\ curr c = 0 /\ sys_lseek d dest SEEK_SET x = (r, x'))|].
  - intros c' x r x' [-> [Hi Ec]] El. split; [split; [done|by exists x]|]. destruct r; [by apply seek_err in El as (_ & _ & ?)|by apply seek_ok in El as (_ & _ & ? & _)].
  - intros [e|r].
    + apply op_raise. intros c' x' [-> (x & Hi & _ & El)]. apply seek_err in El. by apply (out_stable G p _ x).
    + destruct ((r <? 0) || negb (r =? dest)) eqn:Er.
      * apply op_False. intros c' x' [_ (x & _ & _ & El)]. apply seek_ok in El as (? & _ & _ & -> & _). rewrite Z.eqb_refl in Er. cbn in Er. lia.
      * apply op_update; [done|]. intros c' x' [-> (x & Hi & Ec & El)]. apply seek_ok in El as (Hd & Ef & _ & _ & Ep). destruct Hi as [Hfd Hm Ht Hu Hc Hb Hp Ho HG Epp].
        split; [|done]. rewrite Ec in HG. split; cbn; rewrite ?Ec; try done; try lia. by rewrite <- HG, <- Ef.
Qed.

(** ** Locks *)

Lemma locked_ok {A} I (m : io A) (Q : A -> channel -> world -> Prop) E s : stable I -> (forall a, stable (Q a)) -> op fuel I m Q E ->
  I (ch s) (w s) -> released s -> (interrupts (w s) < fuel)%nat ->
  wp (locked m) s (fun o s' => (interrupts (w s') <= interrupts (w s))%nat /\ released s' /\
    match o with Val a => Q a (ch s') (w s') | Exn e => E e (ch s') (w s') | Stuck => False end).
Proof.
  intros HI HQ Hm Hs [Hmu Hl] Hi. unfold locked. apply wp_bind. unfold wp at 1. rewrite lock_eq by done. apply wp_bind.
  eapply wp_mono; [|apply Hm; [by apply (HI _ (w s)), same_refl|done|done]]. intros o s' [Hn Ho]. destruct o as [a|e|]; [|by destruct Ho|done]. destruct Ho as [Ha Hh].
  apply wp_bind. unfold wp. rewrite unlock_eq. cbn. split; [done|]. split; [done|]. by apply (HQ a _ (w s')), same_refl.
Qed.

(** ** The primitives of an output channel *)

Inductive out_op := Out_char (v : Z) | Out_int (v : Z) | Out_bytes (bs : list Z) | Out_bigarray (bs : list Z) | Out_flush | Out_seek (v : Z) | Out_pos.
Definition out_exec (o : out_op) : io Z :=
  match o with
  | Out_char v => caml_ml_output_char v
  | Out_int v => caml_ml_output_int v
  | Out_bytes bs => caml_ml_output_bytes bs
  | Out_bigarray bs => caml_ml_output_bigarray bs
  | Out_flush => caml_ml_flush
  | Out_seek v => caml_ml_seek_out v
  | Out_pos => caml_ml_pos_out
  end.
Definition out_data (o : out_op) : list Z :=
  match o with Out_char v => [u8 (Long_val v)] | Out_int v => be_bytes (u32 (Long_val v)) | Out_bytes bs | Out_bigarray bs => bs | _ => [] end.
(** The operations on a file [G] and a position [p] in it; [F'] is the file
    that other programs see afterwards. *)
Definition out_spec (G : list Z) (p : Z) (o : out_op) (r : outcome Z) (F' G' : list Z) (p' : Z) : Prop :=
  match o, r with
  | Out_flush, Val v => v = Val_unit /\ G' = G /\ p' = p /\ F' = G
  | Out_flush, Exn _ => G' = G /\ p' = p
  | Out_seek v, Val x => x = Val_unit /\ G' = G /\ p' = Long_val v
  | Out_seek v, Exn _ => G' = G /\ p' = p
  | Out_pos, _ => G' = G /\ p' = p /\ r = if Max_long <? p then Exn (Sys_error EOVERFLOW) else Val (Val_long p)
  | _, Val v => v = Val_unit /\ G' = overwrite G p (out_data o) /\ p' = p + Z.of_nat (length (out_data o)) /\ (u = true -> F' = G' \/ exists bs, o = Out_bigarray bs)
  | _, Exn _ => exists k, (k <= length (out_data o))%nat /\ G' = overwrite G p (take k (out_data o)) /\ p' = p + Z.of_nat k
  | _, Stuck => False
  end.
Definition out_fits (o : out_op) : Prop := 2 * Z.of_nat (length (out_data o)) + 1 < Z.of_nat fuel.

Lemma then_flush G p data (m : io ()) : op fuel (out_inv G p) m (fun _ => out_inv (overwrite G p data) (p + Z.of_nat (length data))) (fun _ => accepted G p data) ->
  op fuel (out_inv G p) (m;; caml_flush_if_unbuffered)
    (fun _ c x => out_inv (overwrite G p data) (p + Z.of_nat (length data)) c x /\ (u = true -> file x = overwrite G p data)) (fun _ => accepted G p data).
Proof.
  intros Hm. eapply op_bind; [exact Hm|]. intros []. eapply op_conseq; [apply flush_if_unbuffered_ok|done|done|done|]. cbn. intros _ c x Hi.
  exists (Z.of_nat (length data)). split; [lia|]. by rewrite Nat2Z.id, take_ge by done.
Qed.
Lemma stable_file G P : stable (fun _ x => P -> file x = G).
Proof. intros c x x' b Hx (E & _) HP. rewrite E. by apply Hx. Qed.
Lemma wp_unit (m : io ()) s (Q : outcome Z -> st -> Prop) :
  wp m s (fun o s' => match o with Val _ => Q (Val Val_unit) s' | Exn e => Q (Exn e) s' | Stuck => False end) -> wp (m;; mret Val_unit) s Q.
Proof. intros Hm. apply wp_bind. eapply wp_mono; [|exact Hm]. by intros [[]|e|] s'. Qed.
(** What an operation leaves. *)
Definition out_post (G : list Z) (p : Z) (o : out_op) (s : st) (r : outcome Z) (s' : st) : Prop :=
  (interrupts (w s') <= interrupts (w s))%nat /\ released s' /\ exists G' p', out_spec G p o r (file (w s')) G' p' /\ out_inv G' p' (ch s') (w s').
Lemma accepted_stable G p bs : stable (accepted G p bs).
Proof. intros c x x' b (k & Hk & Hi) Hs. exists k. split; [done|]. by apply (out_stable _ _ _ x). Qed.
(** The primitives that write data. *)
Lemma put_op_ok G p o (m : io ()) s :
  op fuel (out_inv G p) m (fun _ c x => out_inv (overwrite G p (out_data o)) (p + Z.of_nat (length (out_data o))) c x /\
    (u = true -> file x = overwrite G p (out_data o) \/ exists bs, o = Out_bigarray bs)) (fun _ => accepted G p (out_data o)) ->
  match o with Out_flush | Out_seek _ | Out_pos => False | _ => True end ->
  out_inv G p (ch s) (w s) -> released s -> (interrupts (w s) < fuel)%nat -> wp (locked m;; mret Val_unit) s (out_post G p o s).
Proof.
  intros Hm Ho Hs Hr Hn. apply wp_unit. eapply wp_mono; [|eapply (locked_ok (out_inv G p) m _ _ s (out_stable G p)); [|exact Hm|done|done|done]].
  - cbn. intros r s' (Hi & Hr' & Hres). destruct r as [[]|e|]; [| |done].
    + destruct Hres as [Hi' Hf]. split; [done|]. split; [done|]. eexists _, _. split; [|exact Hi']. by destruct o.
    + destruct Hres as (k & Hk & Hi'). split; [done|]. split; [done|]. eexists _, _. split; [|exact Hi']. destruct o; try done; exists (Z.to_nat k); (split; [lia|]); by rewrite Z2Nat.id by lia.
  - intros []. apply stable_and; [apply out_stable|]. intros c x x' b Hx (E & _) HP. rewrite E. by apply Hx.
Qed.
Lemma out_op_ok G p o s : out_fits o -> out_inv G p (ch s) (w s) -> released s -> (interrupts (w s) < fuel)%nat -> wp (out_exec o) s (out_post G p o s).
Proof.
  intros Hf Hs Hr Hn. assert (0 <= p) as Hp by (destruct Hs; lia). destruct o as [v|v|bs|bs| |v|]; cbn [out_exec].
  - apply put_op_ok; try done. eapply op_conseq; [apply (then_flush G p [u8 (Long_val v)])|done|done|..]; [|cbn; intros _ c x [Hi Hu]; split; [done|by left; apply Hu]|done].
    eapply op_conseq; [apply (putch_ok G p (Long_val v))|done|done|done|]. cbn beta. intros _ c x Hi. exists 0. split; [cbn; lia|]. change (take _ _) with (@nil Z). by rewrite Z.add_0_r.
  - apply put_op_ok; try done. eapply op_conseq; [apply (then_flush G p (be_bytes (u32 (Long_val v))))|done|done|..]; [by apply putword_ok| |done].
    cbn beta. intros _ c x [Hi Hu]. split; [done|by left; apply Hu].
  - apply put_op_ok; try done. eapply op_conseq; [apply (then_flush G p bs)|done|done|..]; [by apply really_putblock_ok| |done].
    cbn beta. intros _ c x [Hi Hu]. split; [done|by left; apply Hu].
  - apply put_op_ok; try done. eapply op_conseq; [by apply (really_putblock_ok G p bs)|done|done|..]; [|done]. cbn beta. intros _ c x Hi. split; [done|]. right. by exists bs.
  - unfold caml_ml_flush. apply wp_unit. eapply wp_mono; [|eapply (locked_ok (out_inv G p) _ (fun _ c x => out_inv G p c x /\ (True -> file x = G)) (fun _ => out_inv G p)); try done]; try apply out_stable.
    + cbn. intros r s' (Hi & Hr' & Hres). destruct r as [[]|e|]; [| |done].
      * destruct Hres as [Hi' Ef]. split; [done|]. split; [done|]. exists G, p. split; [|done]. cbn. by split_and!; try apply Ef.
      * split; [done|]. split; [done|]. by exists G, p.
    + intros []. apply stable_and; [apply out_stable|apply stable_file].
    + apply op_chan. intros c. destruct (Z.eqb_spec (fd c) (-1)) as [E|E]; cbn [negb].
      * apply op_False. intros c' x [_ Hi]. pose proof valid_fd. destruct Hi. lia.
      * eapply op_conseq; [apply (flush_ok G p)|done|by intros c' x [-> Hi]|cbn|done]. intros _ c' x [Hi Ec]. split; [done|]. intros _. by apply (flushed G p c').
  - unfold caml_ml_seek_out. apply wp_unit. eapply wp_mono; [|eapply (locked_ok (out_inv G p) _ (fun _ => out_inv G (Long_val v)) (fun _ => out_inv G p)); try done]; try apply out_stable.
    + cbn. intros r s' (Hi & Hr' & Hres). destruct r as [[]|e|]; [| |done]; (split; [done|]); (split; [done|]); eexists _, _; (split; [|exact Hres]); done.
    + intros []. apply out_stable.
    + eapply op_conseq; [apply (seek_out_ok G p)|done|done|cbn|done]. by intros _ c x [Hi _].
  - unfold caml_ml_pos_out. apply wp_bind. eapply wp_mono; [|eapply (locked_ok (out_inv G p) _ (fun q c x => out_inv G p c x /\ q = p) (fun _ _ _ => False)); try done]; try apply out_stable.
    + cbn. intros r s' (Hi & Hr' & Hres). destruct r as [q|e|]; [|done|done]. destruct Hres as [Hi' ->].
      destruct (Z.ltb_spec Max_long p) as [Hm|Hm]; unfold wp.
      * unfold caml_sys_error. rewrite raise_eq. destruct Hr' as [Hm' Hl']. rewrite Hl'. split; [done|]. split; [done|]. exists G, p. split; [|done]. cbn. by rewrite (proj2 (Z.ltb_lt _ _)) by done.
      * cbn. split; [done|]. split; [done|]. exists G, p. split; [|done]. cbn. by rewrite (proj2 (Z.ltb_ge _ _)) by done.
    + intros q. apply stable_and; [apply out_stable|by apply stable_chan].
    + apply op_chan. intros c. apply op_ret. intros c' x [-> Hi]. split; [done|]. by destruct Hi.
Qed.
End output.

(** A program that catches the exceptions: the result of each operation, and
    the file after it. *)
Fixpoint run_ops {A B} (exec : A -> io B) (ops : list A) (s : st) : list (outcome B * list Z) * st :=
  match ops with
  | [] => ([], s)
  | o :: ops => let '(r, s) := exec o s in let '(rs, s') := run_ops exec ops s in ((r, file (w s)) :: rs, s')
  end.

(** A channel is made buffered or not at any time. *)
Inductive out_call := Out (o : out_op) | Set_buffered (mode : bool).
Definition call_exec (o : out_call) : io Z := match o with Out o => out_exec o | Set_buffered mode => caml_ml_set_buffered mode end.
Definition call_fits (o : out_call) : Prop := match o with Out o => out_fits o | Set_buffered _ => True end.
(** The calls on a file [G] and a position [p] in it; [u]: the channel is not buffered. *)
Inductive out_trace : bool -> list Z -> Z -> list out_call -> list (outcome Z * list Z) -> bool -> list Z -> Z -> Prop :=
| out_nil u G p : out_trace u G p [] [] u G p
| out_cons u G p o r F1 G1 p1 ops rs u' G' p' : out_spec u G p o r F1 G1 p1 -> out_trace u G1 p1 ops rs u' G' p' ->
    out_trace u G p (Out o :: ops) ((r, F1) :: rs) u' G' p'
| out_mode u G p (mode : bool) r F1 ops rs u' G' p' : (if mode then r = Val Val_unit else r = Val Val_unit /\ F1 = G \/ exists e, r = Exn e) ->
    out_trace (negb mode) G p ops rs u' G' p' -> out_trace u G p (Set_buffered mode :: ops) ((r, F1) :: rs) u' G' p'.
Lemma has_flag_mask m f c : Z.land m f = f -> has_flag f (set_flags (Z.land (flags c) m) c) = has_flag f c.
Proof. intros E. unfold has_flag. cbn. by rewrite <- Z.land_assoc, E. Qed.
Lemma has_flag_unmask m f c : Z.land m f = 0 -> has_flag f (set_flags (Z.land (flags c) m) c) = false.
Proof. intros E. unfold has_flag. cbn. by rewrite <- Z.land_assoc, E, Z.land_0_r. Qed.
Lemma has_flag_add m f c : Z.land m f = 0 -> has_flag f (set_flags (Z.lor (flags c) m) c) = has_flag f c.
Proof. intros E. unfold has_flag. cbn. by rewrite Z.land_lor_distr_l, E, Z.lor_0_r. Qed.
Lemma has_flag_added f c : f <> 0 -> has_flag f (set_flags (Z.lor (flags c) f) c) = true.
Proof. intros Hf. unfold has_flag. cbn. rewrite Z.land_lor_distr_l, Z.land_diag. apply negb_true_iff, Z.eqb_neq. rewrite Z.lor_eq_0_iff. tauto. Qed.
Lemma set_buffered_inv u (mode : bool) G p c x : out_inv u G p c x ->
  out_inv (negb mode) G p (set_flags (if mode then Z.land (flags c) (Z.lnot CHANNEL_FLAG_UNBUFFERED) else Z.lor (flags c) CHANNEL_FLAG_UNBUFFERED) c) x.
Proof.
  intros [Hfd Hm Ht Hu Hc Hb Hp Ho HG Ep]. destruct mode; split; try done.
  - by rewrite has_flag_mask.
  - by rewrite has_flag_unmask.
  - by rewrite has_flag_add.
  - by rewrite has_flag_added.
Qed.
Lemma set_buffered_ok u (mode : bool) G p s : IO_BUFFER_SIZE + 1 < Z.of_nat fuel -> out_inv u G p (ch s) (w s) -> released s -> (interrupts (w s) < fuel)%nat ->
  wp (caml_ml_set_buffered mode) s (fun r s' => (interrupts (w s') <= interrupts (w s))%nat /\ released s' /\ out_inv (negb mode) G p (ch s') (w s') /\
    (if mode then r = Val Val_unit else r = Val Val_unit /\ file (w s') = G \/ exists e, r = Exn e)).
Proof.
  intros Hfuel Hs Hr Hn. unfold caml_ml_set_buffered. apply wp_unit.
  eapply wp_mono; [|eapply (locked_ok (out_inv u G p) _ (fun _ c x => out_inv (negb mode) G p c x /\ (mode = false -> file x = G))
    (fun _ c x => out_inv (negb mode) G p c x /\ mode = false)); try done].
  - cbn. intros r s' (Hi & Hr' & Hres). destruct r as [[]|e|]; [| |done]; destruct Hres as [Hi' Hm]; split_and!; try done; destruct mode; try done.
    + left. split; [done|by apply Hm].
    + right. by eexists.
  - apply out_stable.
  - intros []. apply stable_and; [apply out_stable|]. intros c x x' b Hx (E & _) Hmode. rewrite E. by apply Hx.
  - destruct mode.
    + apply op_update; [done|]. intros c x Hi. split; [|done]. by apply (set_buffered_inv u true).
    + eapply op_bind; [apply op_update with (Q := fun _ => out_inv true G p); [done|intros c x Hi; by apply (set_buffered_inv u false)]|]. intros []. apply op_chan. intros c.
      destruct (Z.eqb_spec (fd c) (-1)) as [E|E]; cbn [negb].
      * apply op_False. intros c' x [_ Hi]. pose proof valid_fd. destruct Hi. lia.
      * eapply op_conseq; [apply (flush_ok true Hfuel G p)|done|by intros c' x [-> Hi]|cbn|by cbn]. intros _ c' x [Hi Ec]. split; [done|]. intros _. by apply (flushed true G p c').
Qed.
Lemma out_run ops : IO_BUFFER_SIZE + 1 < Z.of_nat fuel -> Forall call_fits ops -> forall s u G p, out_inv u G p (ch s) (w s) -> released s -> (interrupts (w s) < fuel)%nat ->
  exists u' G' p', out_trace u G p ops (run_ops call_exec ops s).1 u' G' p' /\ out_inv u' G' p' (ch (run_ops call_exec ops s).2) (w (run_ops call_exec ops s).2) /\
    released (run_ops call_exec ops s).2.
Proof.
  intros Hfuel. induction 1 as [|o ops Ho _ IH]; intros s u G p Hs Hr Hn; cbn [run_ops]; [exists u, G, p; by split; [constructor|]|]. destruct o as [o|mode]; cbn [call_exec].
  - pose proof (out_op_ok u Hfuel G p o s Ho Hs Hr Hn) as Hw. unfold wp in Hw. destruct (out_exec o s) as [r s1].
    assert (out_post u G p o s r s1) as (Hi & Hr1 & G1 & p1 & Hsp & Hs1) by (by destruct r). destruct (IH s1 u G1 p1 Hs1 Hr1 ltac:(lia)) as (u' & G' & p' & Ht & Hs' & Hr').
    destruct (run_ops call_exec ops s1) as [rs s']. cbn [fst snd] in *. exists u', G', p'. split; [by econstructor|done].
  - pose proof (set_buffered_ok u mode G p s Hfuel Hs Hr Hn) as Hw. unfold wp in Hw. destruct (caml_ml_set_buffered mode s) as [r s1].
    match type of Hw with match r with Val _ => ?P | Exn _ => _ | Stuck => _ end => assert P as (Hi & Hr1 & Hs1 & Hsp) by (by destruct r) end.
    destruct (IH s1 (negb mode) G p Hs1 Hr1 ltac:(lia)) as (u' & G' & p' & Ht & Hs' & Hr').
    destruct (run_ops call_exec ops s1) as [rs s']. cbn [fst snd] in *. exists u', G', p'. split; [by constructor|done].
Qed.

(** ** Input *)

(** The channel is at [p] in the file [F], with [a] bytes in its buffer. *)
Record in_inv (F : list Z) (p a : Z) (c : channel) (x : world) : Prop := {
  ii_fd : fd c = d;
  ii_max : max c = Some (curr c + a);
  ii_text : has_flag CHANNEL_TEXT_MODE c = false;
  ii_curr : 0 <= curr c <= p;
  ii_avail : 0 <= a;
  ii_end : curr c + a <= IO_BUFFER_SIZE;
  ii_buff : Z.of_nat (length (buff c)) = IO_BUFFER_SIZE;
  ii_pos : pos x = offset c;
  ii_off : offset c = p + a;
  ii_file : file x = F;
  ii_bytes : forall i, 0 <= i < curr c + a -> buff c !! Z.to_nat i = F !! Z.to_nat (p - curr c + i);
}.
Lemma in_stable F p a : stable (in_inv F p a).
Proof. intros c x x' b [] (Ef & Ep & _). split; try done; cbn; congruence. Qed.
Lemma in_advance F p a c x k : in_inv F p a c x -> - curr c <= k <= a -> in_inv F (p + k) (a - k) (set_curr (curr c + k) c) x.
Proof.
  intros [Hfd Hm Ht Hc Ha He Hb Hp Ho Hf Hby] Hk. split; cbn; try done; try lia; [rewrite Hm; f_equal; lia|].
  intros i Hi. rewrite Hby by lia. do 2 f_equal. lia.
Qed.
Lemma in_empty F p c x : in_inv F p 0 c x -> in_inv F p 0 (set_max (Some 0) (set_curr 0 c)) x.
Proof. intros [Hfd Hm Ht Hc Ha He Hb Hp Ho Hf Hby]. split; cbn; try done; try lia. Qed.
(** What is read into the buffer. *)
Lemma in_fill F p a c x x' bs : in_inv F p a c x -> curr c + a + Z.of_nat (length bs) <= IO_BUFFER_SIZE ->
  bs = slice (pos x) (pos x + Z.of_nat (length bs)) (file x) -> file x' = file x -> pos x' = pos x + Z.of_nat (length bs) ->
  in_inv F p (a + Z.of_nat (length bs)) (fill (curr c + a) bs c) x'.
Proof.
  intros [Hfd Hm Ht Hc Ha He Hb Hp Ho Hf Hby] Hl Ebs Ef Ep. split; cbn; try done; try lia; try congruence.
  - f_equal. lia.
  - by rewrite length_move.
  - intros i Hi. rewrite move_lookup by lia. rewrite Z2Nat.id by lia. destruct (Z.ltb_spec i (curr c + a)); [apply Hby; lia|].
    rewrite (proj2 (Z.ltb_lt _ _)) by lia. rewrite Ebs, slice_lookup by lia. rewrite (proj2 (Z.ltb_lt _ _)) by lia. rewrite Hf. f_equal. lia.
Qed.
Lemma in_byte F p a c x : in_inv F p a c x -> 0 < a -> exists b, buff c !! Z.to_nat (curr c) = Some b /\ F !! Z.to_nat p = Some b.
Proof.
  intros [Hfd Hm Ht Hc Ha He Hb Hp Ho Hf Hby] Hpos. destruct (lookup_lt_is_Some_2 (buff c) (Z.to_nat (curr c)) ltac:(lia)) as [b E]. exists b. split; [done|].
  rewrite Hby in E by lia. rewrite <- E. do 2 f_equal. lia.
Qed.
Lemma in_slice F p a c x n : in_inv F p a c x -> 0 <= n <= a -> slice (curr c) (curr c + n) (buff c) = slice p (p + n) F /\ Z.of_nat (length (slice p (p + n) F)) = n.
Proof.
  intros [Hfd Hm Ht Hc Ha He Hb Hp Ho Hf Hby] Hn. assert (slice (curr c) (curr c + n) (buff c) = slice p (p + n) F) as E.
  { apply list_eq. intros k. rewrite !slice_lookup by lia. replace (curr c + n - curr c) with n by lia. replace (p + n - p) with n by lia. destruct (Z.ltb_spec (Z.of_nat k) n); [|done].
    replace (Z.to_nat (curr c) + k)%nat with (Z.to_nat (curr c + Z.of_nat k)) by lia. rewrite Hby by lia. f_equal. lia. }
  split; [done|]. rewrite <- E, length_slice; lia.
Qed.
(** A read into the free part of the buffer, and into an empty buffer. *)
Lemma read_facts F p a c x len r x' : 0 < len -> in_inv F p a c x -> sys_read d len x = (r, x') -> (interrupts x' <= interrupts x)%nat /\
  match r with
  | inl e => in_inv F p a c x' /\ (e = EINTR -> (interrupts x' < interrupts x)%nat)
  | inr bs => Z.of_nat (length bs) <= len /\ (bs = [] -> Z.of_nat (length F) <= p + a /\ in_inv F p a c x') /\
      (forall c, in_inv F p a c x -> curr c + a + len <= IO_BUFFER_SIZE -> in_inv F p (a + Z.of_nat (length bs)) (fill (curr c + a) bs c) x')
  end.
Proof.
  intros Hl Hi Er. destruct r as [e|bs].
  - apply read_err in Er as (Hs & He). split; [apply Hs|]. split; [by apply (stable_world _ (in_stable F p a) _ x)|done].
  - apply read_ok in Er as (Hb & Ebs & Hz & Ef & Ep & Hn'); [|done]. split; [done|]. split; [done|]. split.
    + intros E0. specialize (Hz E0). rewrite E0 in Ep. cbn in Ep. destruct Hi. split; [congruence || lia|]. split; try done; try lia; congruence.
    + intros c1 Hi1 Hle. apply (in_fill F p a c1 x); try done; lia.
Qed.
Lemma op_read F p a n len E c : 0 < len -> curr c + a + len <= IO_BUFFER_SIZE ->
  op n (fun c' x => c' = c /\ in_inv F p a c x /\ (interrupts x < n)%nat) (caml_read_fd d len) (fun r c' x' => c' = c /\
    match r with
    | inl e => in_inv F p a c x' /\ (e = EINTR -> (S (interrupts x') < n)%nat)
    | inr bs => in_inv F p (a + Z.of_nat (length bs)) (fill (curr c + a) bs c) x' /\ (bs = [] -> Z.of_nat (length F) <= p + a /\ in_inv F p a c x')
    end) E.
Proof.
  intros Hl Hle. apply op_call. intros c' x r x' (-> & Hi & Hn) Er. destruct (read_facts F p a c x len r x' Hl Hi Er) as [Hn' Hr]. split; [|done]. split; [done|].
  destruct r as [e|bs]; [destruct Hr as [? He]; split; [done|]; intros Ee; specialize (He Ee); lia|]. destruct Hr as (_ & Hz & Hf). split; [by apply Hf|done].
Qed.
Lemma op_read_empty F p n E c :
  op n (fun c' x => c' = c /\ in_inv F p 0 c x /\ (interrupts x < n)%nat) (caml_read_fd d IO_BUFFER_SIZE) (fun r c' x' => c' = c /\
    match r with
    | inl e => in_inv F p 0 c x' /\ (e = EINTR -> (S (interrupts x') < n)%nat)
    | inr bs => in_inv F p (Z.of_nat (length bs)) (set_curr 0 (fill 0 bs c)) x' /\ (bs = [] -> Z.of_nat (length F) <= p /\ in_inv F p 0 c x')
    end) E.
Proof.
  pose proof buffer_size as Hsz. apply op_call. intros c' x r x' (-> & Hi & Hn) Er. destruct (read_facts F p 0 c x IO_BUFFER_SIZE r x' (proj1 Hsz) Hi Er) as [Hn' Hr]. split; [|done]. split; [done|].
  destruct r as [e|bs]; [destruct Hr as [? He]; split; [done|]; intros Ee; specialize (He Ee); lia|]. destruct Hr as (_ & Hz & Hf). rewrite Z.add_0_r in Hz. split; [|done].
  apply (Hf (set_max (Some 0) (set_curr 0 c))); [by apply in_empty|cbn; lia].
Qed.
(** The start of a round of a loop that an interruption repeats. *)
Lemma op_round {A} n (I : channel -> world -> Prop) (m : channel -> io A) Q E : stable I -> (forall v c x, I c x -> E (Handler v) c x) ->
  (forall c, op (S n) (fun c' x => c' = c /\ I c x /\ (interrupts x < S n)%nat) (m c) Q E) -> op (S n) I (check_pending;; (c ← chan; m c)) Q E.
Proof.
  intros HI HE Hm. apply op_know. eapply op_bind; [apply op_check_pending; [apply stable_and; [exact HI|apply stable_fuel]|intros v c x [Hx _]; by apply HE]|].
  intros []. apply op_chan. intros c. exact (Hm c).
Qed.
Definition at_pos (F : list Z) (p : Z) (c : channel) (x : world) : Prop := exists a, in_inv F p a c x.
Lemma at_stable F p : stable (at_pos F p).
Proof. intros c x x' b (a & Hi) Hs. exists a. by apply (in_stable F p a _ x). Qed.
Lemma refill_ok F p n : op n (in_inv F p 0) (refill_loop n) (fun b c x => F !! Z.to_nat p = Some b /\ at_pos F (p + 1) c x)
  (fun e c x => at_pos F p c x /\ (e = End_of_file -> Z.of_nat (length F) <= p)).
Proof.
  pose proof buffer_size as Hsz. induction n as [|n IH]; [by intros s ? ? Hi; lia|]. cbn [refill_loop].
  apply op_round; [apply in_stable|intros v c x Hx; split; [by exists 0|done]|]. intros c.
  destruct (decide (fd c = d)) as [Ed|]; [|apply op_False; by intros c' x (_ & Hi & _); destruct Hi]. rewrite Ed.
  eapply op_bind; [apply (op_read_empty F p)|]. intros [e|[|b bs]].
  - destruct (decide (e = EINTR)) as [->|].
    + eapply op_pre; [|apply (op_fuel _ n), IH]. intros c' x (-> & Hi & He). split; [done|]. specialize (He eq_refl). lia.
    + apply op_io_error. intros c' x e' He' (-> & Hi & _). split; [exists 0; by apply (in_stable _ _ _ _ x), same_refl|done].
  - apply op_raise. intros c' x (-> & Hi & Hz). destruct (Hz eq_refl) as [Hz1 Hz2]. split; [|done]. exists 0. by apply (in_stable _ _ _ _ x), same_refl.
  - eapply op_bind; [apply op_update with (Q := fun _ c' x => curr c' = curr c /\ in_inv F p (1 + Z.of_nat (length bs)) (set_curr 0 c') x); [done|]|intros []].
    { intros c' x (-> & Hi & _). cbn [curr fill]. split; [done|]. by replace (1 + Z.of_nat (length bs)) with (Z.of_nat (length (b :: bs))) by (cbn; lia). }
    eapply op_bind; [apply op_update with (Q := fun _ c' x => in_inv F p (1 + Z.of_nat (length bs)) (set_curr 0 c') x /\ curr c' = 1); [done|by intros c' x [_ Hi]]|intros []].
    apply op_chan. intros c'. unfold byte_at. destruct (buff c' !! Z.to_nat 0) as [b'|] eqn:Eb.
    + apply op_ret. intros c2 x (-> & Hi & Ec). destruct (in_byte _ _ _ _ _ Hi ltac:(lia)) as (b2 & E1 & E2). cbn [buff set_curr curr] in E1. split; [congruence|].
      exists (Z.of_nat (length bs)). pose proof (in_advance _ _ _ _ _ 1 Hi) as Ha. cbn [curr set_curr] in Ha. replace (1 + Z.of_nat (length bs) - 1) with (Z.of_nat (length bs)) in Ha by lia.
      replace c' with (set_curr (0 + 1) (set_curr 0 c')) by (destruct c'; cbn in *; by rewrite Ec). apply Ha. lia.
    + apply op_False. intros c2 x (-> & Hi & Ec). destruct (in_byte _ _ _ _ _ Hi ltac:(lia)) as (b2 & E1 & E2). cbn [buff set_curr curr] in E1. congruence.
Qed.
Lemma op_exists {A B} n (I : B -> channel -> world -> Prop) (m : io A) Q E : (forall a, op n (I a) m Q E) -> op n (fun c x => exists a, I a c x) m Q E.
Proof. intros Hm s [a Hs]. by apply (Hm a). Qed.
Lemma getch_ok F p : op fuel (at_pos F p) Getch (fun b c x => F !! Z.to_nat p = Some b /\ at_pos F (p + 1) c x)
  (fun e c x => at_pos F p c x /\ (e = End_of_file -> Z.of_nat (length F) <= p)).
Proof.
  apply op_exists. intros a. unfold Getch. apply op_chan. intros c. apply op_max with (m := curr c + a); [intros c' x [-> Hi]; by destruct Hi|].
  destruct (Z.leb_spec (curr c + a) (curr c)) as [Hc|Hc].
  - eapply op_pre; [|apply refill_ok]. intros c' x [-> Hi]. assert (a = 0) as -> by (destruct Hi; lia). done.
  - eapply op_bind; [apply op_update with (Q := fun _ c' x => c' = set_curr (curr c + 1) c /\ in_inv F p a c x); [done|by intros c' x [-> Hi]]|intros []].
    unfold byte_at. destruct (buff c !! Z.to_nat (curr c)) as [b|] eqn:Eb.
    + apply op_ret. intros c' x [-> Hi]. destruct (in_byte _ _ _ _ _ Hi ltac:(lia)) as (b' & E1 & E2). split; [congruence|]. exists (a - 1). apply in_advance; [done|]. destruct Hi. lia.
    + apply op_False. intros c' x [-> Hi]. destruct (in_byte _ _ _ _ _ Hi ltac:(lia)) as (b' & E1 & E2). congruence.
Qed.
Lemma slice_cons F p n b : 0 <= p -> 0 <= n -> F !! Z.to_nat p = Some b -> slice p (p + (n + 1)) F = b :: slice (p + 1) (p + 1 + n) F.
Proof.
  intros Hp Hn E. apply list_eq. intros [|k].
  - cbn. rewrite slice_lookup by done. rewrite (proj2 (Z.ltb_lt _ _)) by lia. rewrite <- E. f_equal. lia.
  - cbn. rewrite !slice_lookup by lia. destruct (Z.ltb_spec (Z.of_nat (S k)) (p + (n + 1) - p)), (Z.ltb_spec (Z.of_nat k) (p + 1 + n - (p + 1))); try lia; [f_equal; lia|done].
Qed.
Lemma at_nonneg F p c x : at_pos F p c x -> 0 <= p.
Proof. intros (a & Hi). destruct Hi. lia. Qed.
Definition word_of (res : Z) (bs : list Z) : Z := foldl (fun r b => u32 (u32 (Z.shiftl r 8) + b)) res bs.
Lemma getword_ok F n : forall p res, op fuel (at_pos F p) (getword_loop n res)
  (fun v c x => v = word_of res (slice p (p + Z.of_nat n) F) /\ Z.of_nat (length (slice p (p + Z.of_nat n) F)) = Z.of_nat n /\ at_pos F (p + Z.of_nat n) c x)
  (fun e c x => exists k, 0 <= k <= Z.of_nat n /\ at_pos F (p + k) c x /\ (e = End_of_file -> Z.of_nat (length F) <= p + k)).
Proof.
  induction n as [|n IH]; intros p res; cbn [getword_loop].
  - apply op_ret. intros c x Hi. rewrite Z.add_0_r. unfold slice. by rewrite Z.sub_diag.
  - destruct (Z_lt_le_dec p 0); [apply op_False; intros c x Hi; pose proof (at_nonneg _ _ _ _ Hi); lia|].
    eapply op_bind; [eapply op_conseq; [apply (getch_ok F p)|done|done|intros b c x Hx; exact Hx|]|].
    { cbn. intros e c x [Hi He]. exists 0. rewrite Z.add_0_r. split; [lia|done]. }
    intros b. cbn beta. apply op_pure. intros Eb. eapply op_conseq; [apply IH|done|done|..]; cbn beta.
    + intros v c x (-> & Hl & Hi). replace (p + Z.of_nat (S n)) with (p + (Z.of_nat n + 1)) by lia. rewrite (slice_cons F p _ b) by (done || lia). cbn [length].
      split; [done|]. split; [lia|]. by replace (p + (Z.of_nat n + 1)) with (p + 1 + Z.of_nat n) by lia.
    + intros e c x (k & Hk & Hi & He). exists (1 + k). replace (p + (1 + k)) with (p + 1 + k) by lia. split; [lia|done].
Qed.
(** A block read from [p] with [a] bytes in the buffer, [a'] afterwards. *)
Definition block_read (F : list Z) (p a len : Z) (bs : list Z) (a' : Z) : Prop :=
  let k := Z.of_nat (length bs) in
  bs = slice p (p + k) F /\ k <= len /\ (k = 0 -> len = 0 \/ Z.of_nat (length F) <= p) /\ (0 < a -> k = Z.min len a /\ a' = a - k).
Lemma block_buffered F p a len n c x : 0 <= n <= a -> n <= len -> (0 < a -> n = Z.min len a) -> (n = 0 -> len = 0 \/ Z.of_nat (length F) <= p) -> in_inv F p a c x ->
  exists a', block_read F p a len (slice (curr c) (curr c + n) (buff c)) a' /\ in_inv F (p + Z.of_nat (length (slice (curr c) (curr c + n) (buff c)))) a' (set_curr (curr c + n) c) x.
Proof.
  intros Hn Hl Ha Hz Hi. destruct (in_slice F p a c x n Hi Hn) as [Es Hs]. rewrite Es, Hs. exists (a - n). unfold block_read. rewrite Hs. split_and!; try done; [by intros H0; split; [apply Ha|]|].
  apply in_advance; [done|]. destruct Hi. lia.
Qed.
Lemma getblock_ok F p a len n : 0 <= len -> op n (in_inv F p a) (getblock_loop n len)
  (fun bs c x => exists a', block_read F p a len bs a' /\ in_inv F (p + Z.of_nat (length bs)) a' c x) (fun e c x => in_inv F p a c x /\ e <> End_of_file).
Proof.
  intros Hlen. pose proof buffer_size as Hsz. induction n as [|n IH]; [by intros s ? ? Hi; lia|]. cbn [getblock_loop].
  apply op_round; [apply in_stable|done|]. intros c. apply op_max with (m := curr c + a); [intros c' x (-> & Hi & _); by destruct Hi|].
  set (k := if INT_MAX <=? len then _ else _). assert (k = Z.min INT_MAX len) as Ek by (unfold k; destruct (Z.leb_spec INT_MAX len); lia). clearbody k.
  replace (curr c + a - curr c) with a by lia. destruct (decide (0 <= a <= IO_BUFFER_SIZE)) as [Ha|]; [|apply op_False; intros c' x (_ & Hi & _); destruct Hi; lia].
  destruct (Z.leb_spec k a) as [Hk|Hk]; [|destruct (Z.ltb_spec 0 a) as [Hp|Hp]].
  - eapply op_bind; [apply op_update with (Q := fun _ c' x => c' = set_curr (curr c + k) c /\ in_inv F p a c x); [done|by intros c' x (-> & Hi & _)]|intros []].
    apply op_ret. intros c' x [-> Hi]. apply block_buffered; try done; lia.
  - eapply op_bind; [apply op_update with (Q := fun _ c' x => c' = set_curr (curr c + a) c /\ in_inv F p a c x); [done|by intros c' x (-> & Hi & _)]|intros []].
    apply op_ret. intros c' x [-> Hi]. apply block_buffered; try done; lia.
  - assert (a = 0) as -> by lia. destruct (decide (fd c = d)) as [Ed|]; [|apply op_False; by intros c' x (_ & Hi & _); destruct Hi]. rewrite Ed.
    eapply op_bind; [apply (op_read_empty F p)|]. intros [e|bs].
    + destruct (decide (e = EINTR)) as [->|].
      * eapply op_pre; [|apply (op_fuel _ n), IH]. intros c' x (-> & Hi & He). split; [done|]. specialize (He eq_refl). lia.
      * apply op_io_error. intros c' x e' He' (-> & Hi & _). split; [by apply (in_stable _ _ _ _ x), same_refl|done].
    + set (nread := Z.of_nat (length bs)). set (j := if nread <? k then nread else k).
      eapply op_bind; [apply op_update with (Q := fun _ c' x => in_inv F p nread (set_curr 0 c') x /\ (bs = [] -> Z.of_nat (length F) <= p)); [done|]|intros []].
      { intros c' x (-> & Hi & Hz). split; [done|]. intros E0. by destruct (Hz E0). }
      eapply op_bind; [apply op_update with (Q := fun _ c' x => c' = set_curr j (set_curr 0 c') /\ in_inv F p nread (set_curr 0 c') x /\ (bs = [] -> Z.of_nat (length F) <= p)); [done|by intros c' x Hi]|intros []].
      apply op_chan. intros c'. apply op_ret. intros c2 x (-> & Ec & Hi & Hz).
      assert (j = Z.min nread k) as Ej by (unfold j; destruct (Z.ltb_spec nread k); lia). pose proof (ii_end _ _ _ _ _ Hi) as He. cbn [curr set_curr] in He.
      assert (nread = 0 -> bs = []) as Hne by (unfold nread; destruct bs; [done|cbn; lia]).
      destruct (block_buffered F p nread len j (set_curr 0 c') x) as (a' & Hb & Hi'); try done; try lia.
      * intros Hj. destruct (Z.eq_dec nread 0) as [E0|]; [right; by apply Hz, Hne|left; lia].
      * cbn [curr set_curr] in Hi', Hb. change (0 + j) with j in Hi', Hb. change (buff (set_curr 0 c')) with (buff c') in Hi', Hb.
        change (set_curr j (set_curr 0 c')) with (set_curr j c') in *. rewrite <- Ec in Hi'. exists a'. split; [|done]. destruct Hb as (B1 & B2 & B3 & B4). by split_and!.
Qed.
(** The bytes of several blocks. *)
Lemma slice_app F p i j : 0 <= p -> 0 <= i -> 0 <= j -> i <= Z.of_nat (length (slice p (p + i) F)) -> slice p (p + i) F ++ slice (p + i) (p + i + j) F = slice p (p + (i + j)) F.
Proof.
  intros Hp Hi Hj Hl. apply list_eq. intros k. assert (length (slice p (p + i) F) = Z.to_nat i) as El by (unfold slice in *; rewrite length_take in *; lia).
  destruct (decide (k < Z.to_nat i)%nat).
  - rewrite lookup_app_l by lia. rewrite !slice_lookup by lia. repeat case_match; (done || lia).
  - rewrite lookup_app_r by lia. rewrite El, !slice_lookup by lia. repeat case_match; try done; try lia. f_equal. lia.
Qed.
Lemma really_getblock_ok F p len m : forall k bs, op fuel (fun c x => Z.of_nat (length bs) + k = len /\ 0 <= k < Z.of_nat m /\ bs = slice p (p + Z.of_nat (length bs)) F /\ at_pos F (p + Z.of_nat (length bs)) c x /\ 0 <= p)
  (really_getblock_loop m k bs)
  (fun r c x => r = slice p (p + Z.of_nat (length r)) F /\ Z.of_nat (length r) <= len /\ (Z.of_nat (length r) < len -> Z.of_nat (length F) <= p + Z.of_nat (length r)) /\ at_pos F (p + Z.of_nat (length r)) c x)
  (fun e c x => e <> End_of_file /\ exists j, 0 <= j <= len /\ at_pos F (p + j) c x).
Proof.
  induction m as [|m IH]; intros k bs; cbn [really_getblock_loop]; [apply op_False; lia|].
  apply op_pure. intros Ek. apply op_pure. intros Hk. apply op_pure. intros Ebs. destruct (Z.ltb_spec 0 k) as [Hp|Hp].
  2: { apply op_ret. intros c x [Hi _]. split_and!; try done; lia. }
  intros s [(a & Hi) Hp0]. revert s Hi. change (op fuel (in_inv F (p + Z.of_nat (length bs)) a)
    (r ← caml_getblock k; match r with [] => mret bs | _ :: _ => really_getblock_loop m (k - Z.of_nat (length r)) (bs ++ r) end)
    (fun r c x => r = slice p (p + Z.of_nat (length r)) F /\ Z.of_nat (length r) <= len /\ (Z.of_nat (length r) < len -> Z.of_nat (length F) <= p + Z.of_nat (length r)) /\ at_pos F (p + Z.of_nat (length r)) c x)
    (fun e c x => e <> End_of_file /\ exists j, 0 <= j <= len /\ at_pos F (p + j) c x)).
  eapply op_bind; [eapply op_conseq; [apply (getblock_ok F (p + Z.of_nat (length bs)) a k); lia|done|done|intros r c x Hx; exact Hx|]|].
  { cbn. intros e c x [Hi He]. split; [done|]. exists (Z.of_nat (length bs)). split; [lia|by exists a]. }
  intros [|b r].
  - apply op_ret. intros c x (a' & (_ & _ & Hz & _) & Hi). cbn in Hz, Hi. rewrite Z.add_0_r in Hi. split_and!; try done; try lia. exists a'. done.
  - eapply op_conseq; [apply (IH (k - Z.of_nat (length (b :: r))) (bs ++ b :: r))|done|..]; try done. intros c x (a' & (Er & Hr & _ & _) & Hi). set (t := b :: r) in *.
    rewrite length_app, Nat2Z.inj_add. assert (1 <= Z.of_nat (length t)) by (unfold t; cbn; lia). split_and!; try lia; [|exists a'; by rewrite Z.add_assoc].
    rewrite Ebs at 1. rewrite Er at 1. apply slice_app; try lia. rewrite <- Ebs. lia.
Qed.
Lemma seek_in_ok F p a dest : op fuel (in_inv F p a) (caml_seek_in dest) (fun _ => at_pos F dest) (fun e c x => in_inv F p a c x /\ e <> End_of_file).
Proof.
  unfold caml_seek_in. apply op_chan. intros c. apply op_max with (m := curr c + a); [intros c' x [-> Hi]; by destruct Hi|].
  destruct ((offset c - (curr c + a) <=? dest) && (dest <=? offset c) && negb (has_flag CHANNEL_TEXT_MODE c)) eqn:Eb.
  - apply andb_true_iff in Eb as [Eb _]. apply andb_true_iff in Eb as [E1 E2]. apply Z.leb_le in E1, E2. apply op_update; [done|]. intros c' x [-> Hi].
    pose proof (ii_off _ _ _ _ _ Hi) as Eo. exists (a - (dest - p)). replace (curr c + a - (offset c - dest)) with (curr c + (dest - p)) by lia. replace dest with (p + (dest - p)) at 1 by lia. apply in_advance; [done|lia].
  - destruct (decide (fd c = d)) as [Ed|]; [|apply op_False; by intros c' x [_ Hi]; destruct Hi]. rewrite Ed.
    eapply op_bind; [apply op_call with (Q := fun r c' x' => c' = c /\ exists x, in_inv F p a c x /\ sys_lseek d dest SEEK_SET x = (r, x'))|].
    + intros c' x r x' [-> Hi] El. split; [split; [done|by exists x]|]. destruct r; [by apply seek_err in El as (_ & _ & ?)|by apply seek_ok in El as (_ & _ & ? & _)].
    + intros [e|r].
      * apply op_raise. intros c' x' [-> (x & Hi & El)]. apply seek_err in El. split; [by apply (in_stable F p a _ x)|done].
      * destruct ((r <? 0) || negb (r =? dest)) eqn:Er.
        -- apply op_False. intros c' x' [_ (x & _ & El)]. apply seek_ok in El as (? & _ & _ & -> & _). rewrite Z.eqb_refl in Er. cbn in Er. lia.
        -- apply op_update; [done|]. intros c' x' [-> (x & Hi & El)]. apply seek_ok in El as (Hd & Ef & _ & _ & Ep). pose proof buffer_size. destruct Hi as [Hfd Hm Ht Hc Ha He Hb Hp Ho Hf Hby].
           exists 0. split; cbn; try done; try lia. congruence.
Qed.

(** ** Lines *)

Definition no_newline (F : list Z) (p q : Z) : Prop := forall i, p <= i < q -> F !! Z.to_nat i <> Some NEWLINE.
(** A positive result is the length of the line with its newline; the other
    results stop at the end of the file or of the buffer. *)
Definition scan_result (F : list Z) (p r : Z) : Prop :=
  (0 < r /\ F !! Z.to_nat (p + r - 1) = Some NEWLINE /\ no_newline F p (p + r - 1)) \/
  (r <= 0 /\ no_newline F p (p - r) /\ (Z.of_nat (length F) <= p - r \/ - r = IO_BUFFER_SIZE)).
Lemma in_shift F p a c x : in_inv F p a c x -> in_inv F p a (shift_unread (curr c + a) c) x /\ curr (shift_unread (curr c + a) c) = 0.
Proof.
  intros [Hfd Hm Ht Hc Ha He Hb Hp Ho Hf Hby]. unfold shift_unread. destruct (Z.ltb_spec 0 (curr c)); [|by split; [split|lia]].
  split; [|done]. split; cbn; try done; try lia.
  - f_equal. lia.
  - by rewrite length_move.
  - intros i Hi. assert (Z.of_nat (length (slice (curr c) (curr c + a) (buff c))) = a) as Hl by (rewrite length_slice; lia).
    rewrite move_lookup, slice_lookup by lia. rewrite Z2Nat.id by lia. rewrite (proj2 (Z.ltb_ge i 0)), (proj2 (Z.ltb_lt i _)), (proj2 (Z.ltb_lt _ _)) by lia.
    replace (Z.to_nat (curr c) + (Z.to_nat i - Z.to_nat 0))%nat with (Z.to_nat (curr c + i)) by lia. rewrite Hby by lia. f_equal. lia.
Qed.
(** The rounds a scan needs after [q] characters: each interruption starts it
    again. *)
Definition scan_rounds (q : Z) (x : world) : Z := IO_BUFFER_SIZE - q + (IO_BUFFER_SIZE + 2) * Z.of_nat (interrupts x).
Definition scan_inv (F : list Z) (p i q : Z) (m : nat) (c : channel) (x : world) : Prop :=
  exists a, in_inv F p a c x /\ i = curr c + q /\ 0 <= q <= a /\ scan_rounds q x < Z.of_nat m.
Definition scan_post (F : list Z) (p r : Z) (c : channel) (x : world) : Prop := scan_result F p r /\ exists a, in_inv F p a c x /\ Z.abs r <= a.
Definition scan_exn (F : list Z) (p : Z) (e : exn) (c : channel) (x : world) : Prop := at_pos F p c x /\ e <> End_of_file.
Lemma no_newline_S F p q : no_newline F p q -> F !! Z.to_nat q <> Some NEWLINE -> no_newline F p (q + 1).
Proof. intros Hn Hq i Hi. destruct (Z.eq_dec i q) as [->|]; [done|]. apply Hn. lia. Qed.
Section scan_step.
Context (F : list Z) (p q : Z) (m N : nat) (Hnl : no_newline F p (p + q)).
Context (IH : forall q i, no_newline F p (p + q) -> op N (scan_inv F p i q m) (scan_loop m i) (scan_post F p) (scan_exn F p)).
Let next_char (i : Z) : io Z := c ← chan; b ← byte_at i c; if b =? NEWLINE then mret (i + 1 - curr c) else scan_loop m (i + 1).
Lemma next_char_ok i : op N (fun c x => exists a, in_inv F p a c x /\ i = curr c + q /\ 0 <= q < a /\ scan_rounds q x < Z.of_nat (S m)) (next_char i) (scan_post F p) (scan_exn F p).
Proof.
  apply op_exists. intros a. unfold next_char. apply op_chan. intros c. unfold byte_at.
  assert (forall x, in_inv F p a c x -> i = curr c + q -> 0 <= q < a -> exists b, buff c !! Z.to_nat i = Some b /\ F !! Z.to_nat (p + q) = Some b) as Hbyte.
  { intros x [] -> Hq. destruct (lookup_lt_is_Some_2 (buff c) (Z.to_nat (curr c + q)) ltac:(lia)) as [b E]. exists b. split; [done|]. rewrite <- E, ii_bytes0 by lia. f_equal. lia. }
  destruct (buff c !! Z.to_nat i) as [b|] eqn:Eb; [|apply op_False; intros c' x (_ & Hi & Ei & Hq & _); destruct (Hbyte x Hi Ei Hq) as (b & ? & _); congruence].
  eapply op_bind; [apply op_ret with (Q := fun b' c' x => b' = b /\ (c' = c /\ in_inv F p a c x /\ i = curr c + q /\ 0 <= q < a /\ scan_rounds q x < Z.of_nat (S m))); by intros|].
  intros b'. apply op_pure. intros ->. destruct (Z.eqb_spec b NEWLINE) as [->|Hb].
  - apply op_ret. intros c' x (-> & Hi & Ei & Hq & _). destruct (Hbyte x Hi Ei Hq) as (b' & Eb' & Ef). split; [|exists a; split; [done|lia]].
    left. split; [lia|]. replace (p + (i + 1 - curr c) - 1) with (p + q) by lia. split; [congruence|done].
  - intros s (Ec & Hi & Ei & Hq & Hr). destruct (Hbyte _ Hi Ei Hq) as (b' & Eb' & Ef). apply (IH (q + 1) (i + 1)).
    + rewrite Z.add_assoc. apply no_newline_S; [done|]. congruence.
    + rewrite Ec. exists a. split_and!; try done; try lia. unfold scan_rounds in *. lia.
Qed.
End scan_step.
Lemma scan_ok F p m N : forall q i, no_newline F p (p + q) -> op N (scan_inv F p i q m) (scan_loop m i) (scan_post F p) (scan_exn F p).
Proof.
  pose proof buffer_size as Hsz. induction m as [|m IH]; intros q i Hnl.
  { apply op_False. intros c x (a & [] & _ & Hq & Hr). unfold scan_rounds in Hr. nia. }
  cbn [scan_loop]. pose proof (next_char_ok F p q m N Hnl IH) as Hnext. apply op_exists. intros a. apply op_chan. intros c.
  apply op_max with (m := curr c + a); [by intros c' x (-> & Hi & _); destruct Hi|].
  destruct (Z.leb_spec (curr c + a) i) as [Hi|Hi]; [|eapply op_pre; [|apply Hnext]; intros c' x (-> & Hi' & Ei & Hq & Hr); exists a; split_and!; (done || lia)].
  eapply op_bind; [apply op_update with (Q := fun _ c' x => q = a /\ i - curr c = a /\ curr c' = 0 /\ in_inv F p a c' x /\ scan_rounds a x < Z.of_nat (S m))|intros []].
  { intros c'. unfold shift_unread. by case_match. }
  { intros c' x (-> & Hi' & Ei & Hq & Hr). destruct (in_shift F p a c x Hi') as [Hs Ec]. assert (q = a) as -> by lia. split_and!; try done. lia. }
  apply op_pure. intros Eq. subst q. apply op_pure. intros Ei. rewrite Ei. apply op_chan. intros c1. destruct (decide (curr c1 = 0)) as [Ec|]; [|by apply op_False; intros c' x (_ & ? & _)].
  apply op_max with (m := a); [intros c' x (-> & _ & Hx & _); split; [done|]; destruct Hx; rewrite ii_max0, Ec; f_equal; lia|].
  destruct (Z.leb_spec IO_BUFFER_SIZE a) as [Hfull|Hfull].
  - apply op_ret. intros c' x (-> & _ & Hx & _). split; [|exists a; split; [done|destruct Hx; lia]]. right. destruct Hx. rewrite Ec. split; [lia|]. split; [by replace (p - - (a - 0)) with (p + a) by lia|]. right. lia.
  - destruct (decide (fd c1 = d)) as [Ed|]; [|apply op_False; by intros c' x (_ & _ & Hx & _); destruct Hx]. rewrite Ed.
    destruct (Z_lt_le_dec a 0); [apply op_False; intros c' x (_ & _ & Hx & _); destruct Hx; lia|].
    apply op_know. eapply op_bind with (Q := fun r c' x' => c' = c1 /\ match r with
      | inl e => in_inv F p a c1 x' /\ (e = EINTR -> scan_rounds 0 x' < Z.of_nat m)
      | inr bs => in_inv F p (a + Z.of_nat (length bs)) (fill a bs c1) x' /\ scan_rounds a x' < Z.of_nat (S m) /\ (bs = [] -> Z.of_nat (length F) <= p + a /\ in_inv F p a c1 x') end).
    { apply op_call. intros c' x r x' ((-> & _ & Hx & Hr) & Hn) Er. destruct (read_facts F p a c1 x (IO_BUFFER_SIZE - a) r x' (proj2 (Z.lt_0_sub _ _) Hfull) Hx Er) as [Hn' Hr']. split; [|done]. split; [done|].
      unfold scan_rounds in *. destruct r as [e|bs].
      - destruct Hr' as [? He]. split; [done|]. intros Ee. specialize (He Ee). nia.
      - destruct Hr' as (Hl & Hz & Hfi). split; [|split; [nia|done]]. specialize (Hfi c1 Hx). rewrite Ec in Hfi. apply Hfi. lia. }
    intros [e|[|b bs]].
    + destruct (decide (e = EINTR)) as [->|].
      * eapply op_pre with (I := fun c' x => in_inv F p a c' x /\ scan_rounds 0 x < Z.of_nat m); [intros c' x (-> & Hx & Hr); split; [done|by apply Hr]|].
        eapply op_bind; [apply op_check_pending|].
        -- apply stable_and; [apply in_stable|]. unfold scan_rounds. intros c' x x' b' Hr (_ & _ & Hle). nia.
        -- intros v c' x [Hx _]. split; [by exists a|done].
        -- intros []. apply op_chan. intros c2. eapply op_pre; [|apply (IH 0 (curr c2)); intros j Hj; lia]. intros c' x (-> & Hx & Hr). exists a. split_and!; try done; lia.
      * apply op_io_error. intros c' x e' He' (-> & Hx & _). split; [exists a; by apply (in_stable _ _ _ _ x), same_refl|done].
    + apply op_ret. intros c' x (-> & _ & _ & Hz). destruct (Hz eq_refl) as [Hz1 Hz2]. rewrite Ec. split; [|exists a; split; [done|lia]]. right. split; [lia|]. replace (p - - (a - 0)) with (p + a) by lia. split; [done|by left].
    + eapply op_bind; [apply op_update with (Q := fun _ c' x => curr c' = 0 /\ in_inv F p (a + Z.of_nat (length (b :: bs))) c' x /\ scan_rounds a x < Z.of_nat (S m)); [done|by intros c' x (-> & Hx & Hr & _)]|intros []].
      eapply op_pre; [|apply Hnext]. intros c' x (Ec' & Hx & Hr). exists (a + Z.of_nat (length (b :: bs))). split_and!; (done || (cbn [length]; lia)).
Qed.

(** ** The primitives of an input channel *)

Inductive in_op := In_char | In_int | In_bytes (len : Z) | In_bigarray (len : Z) | In_seek (v : Z) | In_pos | In_scan.
Inductive in_res := Num (v : Z) | Block (bs : list Z).
Definition in_exec (o : in_op) : io in_res :=
  match o with
  | In_char => v ← caml_ml_input_char; mret (Num v)
  | In_int => v ← caml_ml_input_int; mret (Num v)
  | In_bytes len => bs ← caml_ml_input len; mret (Block bs)
  | In_bigarray len => bs ← caml_ml_input_bigarray len; mret (Block bs)
  | In_seek v => r ← caml_ml_seek_in v; mret (Num r)
  | In_pos => v ← caml_ml_pos_in; mret (Num v)
  | In_scan => v ← caml_ml_input_scan_line; mret (Num v)
  end.
(** The operations on a file [F] and a position [p] in it, of which [a] bytes
    can be read without waiting. *)
Definition in_spec (F : list Z) (p a : Z) (o : in_op) (r : outcome in_res) (p' a' : Z) : Prop :=
  match o, r with
  | In_char, Val (Num v) => exists b, F !! Z.to_nat p = Some b /\ v = Val_long b /\ p' = p + 1
  | In_char, Exn e => p' = p /\ (e = End_of_file -> Z.of_nat (length F) <= p)
  | In_int, Val (Num v) => let bs := slice p (p + 4) F in length bs = 4%nat /\ v = Val_long (s32 (word_of 0 bs)) /\ p' = p + 4
  | In_int, Exn e => exists k, 0 <= k <= 4 /\ p' = p + k /\ (e = End_of_file -> Z.of_nat (length F) <= p')
  | (In_bytes len | In_bigarray len), Val (Block bs) => block_read F p a (Long_val len) bs a' /\ p' = p + Z.of_nat (length bs)
  | (In_bytes _ | In_bigarray _), Exn e => p' = p /\ a' = a /\ e <> End_of_file
  | In_seek v, Val (Num r) => r = Val_unit /\ p' = Long_val v
  | In_seek v, Exn e => p' = p /\ a' = a /\ e <> End_of_file
  | In_pos, _ => p' = p /\ a' = a /\ r = if Max_long <? p then Exn (Sys_error EOVERFLOW) else Val (Num (Val_long p))
  | In_scan, Val (Num v) => p' = p /\ exists n, v = Val_long n /\ scan_result F p n /\ Z.abs n <= a'
  | In_scan, Exn e => p' = p /\ e <> End_of_file
  | _, _ => False
  end.
Definition in_valid (o : in_op) : Prop := match o with In_bytes len | In_bigarray len => 0 <= Long_val len | _ => True end.
Definition in_post (F : list Z) (p a : Z) (o : in_op) (s : st) (r : outcome in_res) (s' : st) : Prop :=
  (interrupts (w s') <= interrupts (w s))%nat /\ released s' /\ exists p' a', in_spec F p a o r p' a' /\ in_inv F p' a' (ch s') (w s').
Lemma wp_map {A B} (m : io A) (f : A -> B) s (Q : outcome B -> st -> Prop) :
  wp m s (fun o s' => match o with Val v => Q (Val (f v)) s' | Exn e => Q (Exn e) s' | Stuck => False end) -> wp (v ← m; mret (f v)) s Q.
Proof. intros Hm. apply wp_bind. eapply wp_mono; [|exact Hm]. by intros [v|e|] s'. Qed.
Lemma sign_extend i : Z.shiftr (s64 (Z.shiftl i 32)) 32 = s32 i.
Proof.
  apply Z.bits_inj'. intros k Hk. rewrite Z.shiftr_spec, !testbit_swrap, !Z.shiftl_spec by lia. replace (k + 32 - 32) with k by lia. change (64 - 1 - 32) with (32 - 1).
  destruct (Z.ltb_spec (k + 32) 64), (Z.ltb_spec k 32); (done || lia).
Qed.
Lemma rounds_stable m : stable (fun _ x => scan_rounds 0 x < Z.of_nat m).
Proof. pose proof buffer_size. unfold scan_rounds. intros c x x' b Hr (_ & _ & Hle). nia. Qed.
Lemma block_stable F p a len bs : stable (fun c x => exists a', block_read F p a len bs a' /\ in_inv F (p + Z.of_nat (length bs)) a' c x).
Proof. intros c x x' b (a' & Hb & Hi) Hs. exists a'. split; [done|]. by apply (in_stable _ _ _ _ x). Qed.
Lemma in_op_ok F p a o s : in_valid o -> in_inv F p a (ch s) (w s) -> released s -> scan_rounds 0 (w s) < Z.of_nat fuel -> wp (in_exec o) s (in_post F p a o s).
Proof.
  intros Hv Hs Hr Hn. pose proof buffer_size as Hsz. assert (interrupts (w s) < fuel)%nat as Hi by (unfold scan_rounds in Hn; nia).
  destruct o as [| |len|len|v| |]; cbn [in_exec]; apply wp_map.
  - unfold caml_ml_input_char. apply wp_map. eapply wp_mono; [|eapply (locked_ok (at_pos F p) _ _ _ s (at_stable F p)); [|apply (getch_ok F p)|by exists a|done|done]].
    + cbn. intros r s' (Hi' & Hr' & Hres). destruct r as [b|e|]; [| |done].
      * destruct Hres as [Eb (a' & Hi2)]. split; [done|]. split; [done|]. exists (p + 1), a'. split; [by exists b|done].
      * destruct Hres as [(a' & Hi2) He]. split; [done|]. split; [done|]. by exists p, a'.
    + intros b. apply stable_and; [by apply stable_chan|apply at_stable].
  - unfold caml_ml_input_int. apply wp_map. eapply wp_mono; [|eapply (locked_ok (at_pos F p) caml_getword
      (fun v c x => (v = word_of 0 (slice p (p + 4) F) /\ length (slice p (p + 4) F) = 4%nat) /\ at_pos F (p + 4) c x)
      (fun e c x => exists k, 0 <= k <= 4 /\ at_pos F (p + k) c x /\ (e = End_of_file -> Z.of_nat (length F) <= p + k)) s (at_stable F p)); [| |by exists a|done|done]].
    + cbn. intros r s' (Hi' & Hr' & Hres). destruct r as [b|e|]; [| |done].
      * destruct Hres as [[-> El] (a' & Hi2)]. split; [done|]. split; [done|]. exists (p + 4), a'. split; [|done]. cbn. by rewrite sign_extend.
      * destruct Hres as (k & Hk & (a' & Hi2) & He). split; [done|]. split; [done|]. exists (p + k), a'. split; [by exists k|done].
    + intros b. apply stable_and; [by apply stable_chan|apply at_stable].
    + unfold caml_getword. apply op_chan. intros c. unfold caml_channel_binary_mode. destruct (has_flag CHANNEL_TEXT_MODE c) eqn:Et; cbn [negb]; [apply op_False; intros c' x [_ (a' & Hx)]; destruct Hx; congruence|].
      eapply op_conseq; [apply (getword_ok F 4 p 0)|done|by intros c' x [-> Hx]|..]; [|intros e c' x Hx; exact Hx]. cbn beta. intros v c' x (-> & El & Hx). split; [|done]. split; [done|]. by apply Nat2Z.inj.
  - eapply wp_mono; [|eapply (locked_ok (in_inv F p a) _ _ _ s (in_stable F p a)); [|by apply (getblock_ok F p a)|done|done|done]]; [|apply block_stable].
    cbn. intros r s' (Hi' & Hr' & Hres). destruct r as [bs|e|]; [| |done].
    + destruct Hres as (a' & Hb & Hi2). split; [done|]. split; [done|]. by exists (p + Z.of_nat (length bs)), a'.
    + destruct Hres as [Hi2 He]. split; [done|]. split; [done|]. by exists p, a.
  - eapply wp_mono; [|eapply (locked_ok (in_inv F p a) _ _ _ s (in_stable F p a)); [|by apply (getblock_ok F p a)|done|done|done]]; [|apply block_stable].
    cbn. intros r s' (Hi' & Hr' & Hres). destruct r as [bs|e|]; [| |done].
    + destruct Hres as (a' & Hb & Hi2). split; [done|]. split; [done|]. by exists (p + Z.of_nat (length bs)), a'.
    + destruct Hres as [Hi2 He]. split; [done|]. split; [done|]. by exists p, a.
  - unfold caml_ml_seek_in. apply wp_unit. eapply wp_mono; [|eapply (locked_ok (in_inv F p a) _ _ _ s (in_stable F p a)); [|apply (seek_in_ok F p a)|done|done|done]]; [|intros []; apply at_stable].
    cbn. intros r s' (Hi' & Hr' & Hres). destruct r as [[]|e|]; [| |done].
    + destruct Hres as (a' & Hi2). split; [done|]. split; [done|]. by exists (Long_val v), a'.
    + destruct Hres as [Hi2 He]. split; [done|]. split; [done|]. by exists p, a.
  - unfold caml_ml_pos_in. apply wp_bind. eapply wp_mono; [|eapply (locked_ok (in_inv F p a) _ (fun q c x => in_inv F p a c x /\ q = p) (fun _ _ _ => False) s (in_stable F p a)); [| |done|done|done]].
    + cbn. intros r s' (Hi' & Hr' & Hres). destruct r as [q|e|]; [|done|done]. destruct Hres as [Hi2 ->].
      assert (in_post F p a In_pos s (if Max_long <? p then Exn (Sys_error EOVERFLOW) else Val (Num (Val_long p))) s') as Hpost by (split; [done|]; split; [done|]; by exists p, a).
      destruct (Z.ltb_spec Max_long p) as [Hm|Hm]; [|done]. unfold wp, caml_sys_error. rewrite raise_eq. destruct Hr' as [Hm' Hl']. by rewrite Hl'.
    + intros q. apply stable_and; [apply in_stable|by apply stable_chan].
    + unfold caml_pos_in. apply op_chan. intros c. apply op_max with (m := curr c + a); [intros c' x [-> Hx]; by destruct Hx|]. apply op_ret. intros c' x [-> Hx]. split; [done|]. destruct Hx. lia.
  - unfold caml_ml_input_scan_line. apply wp_map. eapply wp_mono; [|eapply (locked_ok (fun c x => in_inv F p a c x /\ scan_rounds 0 x < Z.of_nat fuel) _ (scan_post F p) (scan_exn F p) s); [|..|done|done]; try done].
    + cbn. intros r s' (Hi' & Hr' & Hres). destruct r as [n|e|]; [| |done].
      * destruct Hres as [Hsc (a' & Hi2 & Ha)]. split; [done|]. split; [done|]. exists p, a'. split; [|done]. split; [done|]. by exists n.
      * destruct Hres as [(a' & Hi2) He]. split; [done|]. split; [done|]. by exists p, a'.
    + apply stable_and; [apply in_stable|apply rounds_stable].
    + intros n c x x' b [Hsc (a' & Hi2 & Ha)] Hsame. split; [done|]. exists a'. split; [by apply (in_stable _ _ _ _ x)|done].
    + unfold caml_input_scan_line. eapply op_bind; [apply op_check_pending; [apply stable_and; [apply in_stable|apply rounds_stable]|]|].
      * intros v c x [Hx _]. split; [by exists a|done].
      * intros []. apply op_chan. intros c. eapply op_pre; [|apply (scan_ok F p fuel fuel 0 (curr c)); intros j Hj; lia].
        intros c' x (-> & Hx & Hro). exists a. destruct Hx as [] eqn:E. split_and!; (done || lia).
Qed.
Inductive in_trace (F : list Z) : Z -> Z -> list in_op -> list (outcome in_res * list Z) -> Z -> Z -> Prop :=
| in_nil p a : in_trace F p a [] [] p a
| in_cons p a o r p1 a1 ops rs p' a' : in_spec F p a o r p1 a1 -> in_trace F p1 a1 ops rs p' a' -> in_trace F p a (o :: ops) ((r, F) :: rs) p' a'.
Lemma in_run F ops : Forall in_valid ops -> forall s p a, in_inv F p a (ch s) (w s) -> released s -> scan_rounds 0 (w s) < Z.of_nat fuel ->
  exists p' a', in_trace F p a ops (run_ops in_exec ops s).1 p' a' /\ in_inv F p' a' (ch (run_ops in_exec ops s).2) (w (run_ops in_exec ops s).2) /\ released (run_ops in_exec ops s).2.
Proof.
  induction 1 as [|o ops Ho _ IH]; intros s p a Hs Hr Hn; cbn [run_ops]; [exists p, a; by split; [constructor|]|].
  pose proof (in_op_ok F p a o s Ho Hs Hr Hn) as Hw. unfold wp in Hw. destruct (in_exec o s) as [r s1].
  assert (in_post F p a o s r s1) as (Hi & Hr1 & p1 & a1 & Hsp & Hs1) by (by destruct r). pose proof buffer_size.
  destruct (IH s1 p1 a1 Hs1 Hr1) as (p' & a' & Ht & Hs' & Hr'); [unfold scan_rounds in *; nia|].
  destruct (run_ops in_exec ops s1) as [rs s']. cbn [fst snd] in *. exists p', a'. split; [|done]. rewrite (ii_file _ _ _ _ _ Hs1). by econstructor.
Qed.

(** ** Opening a channel *)

(** The channel that a program opens is the one [caml_open_descriptor_in] and
    [caml_open_descriptor_out] make, but for its flags, its owner and its place in the list. *)
Lemma linked_channel a c f cs cs' c' : open_with_flags a c f cs = Some cs' -> table cs' !! a = Some c' -> exists nx pv,
  c' = set_prev pv (set_next nx (set_refcount 1 (set_flags (Z.lor (flags c) (Z.lor f CHANNEL_FLAG_MANAGED_BY_GC)) c))).
Proof.
  unfold open_with_flags, link_channel, modify_chan. cbn [table caml_all_opened_channels]. set (c0 := set_refcount 1 _). rewrite lookup_insert_eq. cbn [mbind option_bind]. rewrite insert_insert_eq.
  set (hd := caml_all_opened_channels cs). destruct (hd =? 0).
  - intros [= <-]. cbn [table]. rewrite lookup_insert_eq. intros [= <-]. exists hd, (prev c0). by destruct c0.
  - destruct (decide (hd = a)) as [->|Hne].
    + rewrite lookup_insert_eq. cbn [mbind option_bind]. intros [= <-]. cbn [table]. rewrite lookup_insert_eq. intros [= <-]. by exists a, a.
    + rewrite lookup_insert_ne by done. destruct (table cs !! hd); [|done]. cbn [mbind option_bind]. intros [= <-]. cbn [table].
      rewrite lookup_insert_ne, lookup_insert_eq by done. intros [= <-]. exists hd, (prev c0). by destruct c0.
Qed.
Lemma open_flags f : Z.land f CHANNEL_TEXT_MODE = 0 -> Z.land (Z.lor 0 (Z.lor f CHANNEL_FLAG_MANAGED_BY_GC)) CHANNEL_TEXT_MODE = 0 /\
  Z.land (Z.lor 0 (Z.lor f CHANNEL_FLAG_MANAGED_BY_GC)) CHANNEL_FLAG_UNBUFFERED = Z.land f CHANNEL_FLAG_UNBUFFERED.
Proof. intros Ef. rewrite Z.lor_0_l, !Z.land_lor_distr_l, Ef. split; [done|apply Z.lor_0_r]. Qed.
Lemma opened_managed a c f cs cs' c' : open_with_flags a c f cs = Some cs' -> table cs' !! a = Some c' -> has_flag CHANNEL_FLAG_MANAGED_BY_GC c' = true.
Proof.
  intros Eo Hc. destruct (linked_channel _ _ _ _ _ _ Eo Hc) as (nx & pv & ->). unfold has_flag. cbn [flags set_prev set_next set_refcount set_flags].
  rewrite !Z.land_lor_distr_l, Z.land_diag. apply negb_true_iff, Z.eqb_neq. rewrite !Z.lor_eq_0_iff. by intros (_ & _ & ?).
Qed.
Lemma opened_managed_out a junk d' f x cs cs' x' c : caml_ml_open_descriptor_out_with_flags a junk d' f x cs = (Some cs', x') -> table cs' !! a = Some c -> has_flag CHANNEL_FLAG_MANAGED_BY_GC c = true.
Proof. unfold caml_ml_open_descriptor_out_with_flags. destruct (caml_open_descriptor_out _ _ _). intros [= Eo _]. by eapply opened_managed. Qed.
Lemma opened_managed_in a junk d' f x cs cs' x' c : caml_ml_open_descriptor_in_with_flags a junk d' f x cs = (Some cs', x') -> table cs' !! a = Some c -> has_flag CHANNEL_FLAG_MANAGED_BY_GC c = true.
Proof. unfold caml_ml_open_descriptor_in_with_flags. destruct (caml_open_descriptor_in _ _ _). intros [= Eo _]. by eapply opened_managed. Qed.
Definition is_unbuffered (f : Z) : bool := negb (Z.land f CHANNEL_FLAG_UNBUFFERED =? 0).
Lemma open_out_ok a junk f cs cs' x c x' r x1 : sys_lseek d 0 SEEK_CUR x = (inr r, x1) -> Z.of_nat (length junk) = IO_BUFFER_SIZE -> Z.land f CHANNEL_TEXT_MODE = 0 ->
  caml_ml_open_descriptor_out_with_flags a junk d f x cs = (Some cs', x') -> table cs' !! a = Some c ->
  out_inv (is_unbuffered f) (file x) (pos x) c x' /\ mutex c = false.
Proof.
  intros El Hj Hf. unfold caml_ml_open_descriptor_out_with_flags, caml_open_descriptor_out, caml_open_descriptor_in. rewrite El. intros [= Eo <-] Hc.
  destruct (linked_channel _ _ _ _ _ _ Eo Hc) as (nx & pv & ->). apply seek_cur in El as (-> & (Ef & Ep & _) & Hp). pose proof buffer_size.
  destruct (open_flags f Hf) as [E1 E2]. split; [|done]. split; cbn [fd max flags curr buff offset set_prev set_next set_refcount set_flags set_max]; try done; try lia.
  - unfold has_flag. cbn [flags set_prev set_next set_refcount set_flags set_max]. by rewrite E1.
  - unfold has_flag. cbn [flags set_prev set_next set_refcount set_flags set_max]. by rewrite E2.
Qed.
Lemma open_in_ok a junk f cs cs' x c x' r x1 : sys_lseek d 0 SEEK_CUR x = (inr r, x1) -> Z.of_nat (length junk) = IO_BUFFER_SIZE -> Z.land f CHANNEL_TEXT_MODE = 0 ->
  caml_ml_open_descriptor_in_with_flags a junk d f x cs = (Some cs', x') -> table cs' !! a = Some c -> in_inv (file x) (pos x) 0 c x' /\ mutex c = false.
Proof.
  intros El Hj Hf. unfold caml_ml_open_descriptor_in_with_flags, caml_open_descriptor_in. rewrite El. intros [= Eo <-] Hc.
  destruct (linked_channel _ _ _ _ _ _ Eo Hc) as (nx & pv & ->). apply seek_cur in El as (-> & (Ef & Ep & _) & Hp). pose proof buffer_size.
  destruct (open_flags f Hf) as [E1 _]. split; [|done]. split; cbn [fd max flags curr buff offset set_prev set_next set_refcount set_flags]; try done; try lia.
  unfold has_flag. cbn [flags set_prev set_next set_refcount set_flags]. by rewrite E1.
Qed.

(** ** The refinement theorems *)

(** C33: a channel that a program opens for output on a regular file, managed by the GC, in binary mode and with any other
    flags.  Nothing else uses the descriptor, which is not in append mode, and signal handlers do not use the channel.  Whatever sequence of outputs (characters, integers, strings, bigarrays), flushes, seeks, positions and changes of
    buffering the program runs on it, and whatever
    sizes and interruptions the system chooses for its writes, each primitive acts on the contents
    that the file will have and on the position as if there were no buffer: outputs overwrite the bytes at the position, seeks
    and positions are those of the file; an exception keeps a prefix of the output.  A flush, making the channel unbuffered, and every output but that
    of a bigarray while the channel is unbuffered, leave these contents in the file when they return.  The channel is
    unlocked after every primitive. *)
Theorem output_channel_refines a junk f cs cs' x c x' r x1 ops : sys_lseek d 0 SEEK_CUR x = (inr r, x1) -> Z.of_nat (length junk) = IO_BUFFER_SIZE ->
  Z.land f CHANNEL_TEXT_MODE = 0 -> caml_ml_open_descriptor_out_with_flags a junk d f x cs = (Some cs', x') -> table cs' !! a = Some c ->
  IO_BUFFER_SIZE + 1 < Z.of_nat fuel -> Forall call_fits ops -> (interrupts x' < fuel)%nat ->
  has_flag CHANNEL_FLAG_MANAGED_BY_GC c = true /\
  let '(rs, s') := run_ops call_exec ops (mkst _ c x' false) in
  exists u' G' p', out_trace (is_unbuffered f) (file x) (pos x) ops rs u' G' p' /\ out_inv u' G' p' (ch s') (w s') /\ mutex (ch s') = false.
Proof.
  intros El Hj Hfl Eo Hc Hf Ho Hn. split; [by eapply opened_managed_out|]. destruct (open_out_ok a junk f cs cs' x c x' r x1 El Hj Hfl Eo Hc) as [Hi Hm].
  destruct (out_run ops Hf Ho (mkst _ c x' false) _ _ _ Hi (conj Hm eq_refl) Hn) as (u' & G' & p' & Ht & Hi' & [Hr _]).
  destruct (run_ops _ _ _) as [rs s']. by exists u', G', p'.
Qed.
(** C34: a channel that a program opens for input on a regular file, managed by the GC, in binary mode and with any other
    flags.  Nothing else uses the descriptor, and signal handlers do not use the channel.  Whatever sequence of reads (of no negative length), seeks, positions and scans the program runs on it, and whatever
    sizes and interruptions the system chooses for its reads, each primitive returns the bytes of the file at the position and
    moves it past them: characters, integers, blocks (all of the buffer or of the request when the
    buffer is not empty, nothing only at the end of the file), seeks inside and outside the buffer, and the scan for a newline, after which the
    line it measured can be read in one block.  End_of_file is raised only at the end of the file.  A primitive that fails does not move the position,
    but for the read of an integer, which may have moved it past up to 4 bytes.  The channel is unlocked after every primitive. *)
Theorem input_channel_refines a junk f cs cs' x c x' r x1 ops : sys_lseek d 0 SEEK_CUR x = (inr r, x1) -> Z.of_nat (length junk) = IO_BUFFER_SIZE ->
  Z.land f CHANNEL_TEXT_MODE = 0 -> caml_ml_open_descriptor_in_with_flags a junk d f x cs = (Some cs', x') -> table cs' !! a = Some c ->
  Forall in_valid ops -> scan_rounds 0 x' < Z.of_nat fuel ->
  has_flag CHANNEL_FLAG_MANAGED_BY_GC c = true /\
  let '(rs, s') := run_ops in_exec ops (mkst _ c x' false) in
  exists p' a', in_trace (file x) (pos x) 0 ops rs p' a' /\ in_inv (file x) p' a' (ch s') (w s') /\ mutex (ch s') = false.
Proof.
  intros El Hj Hfl Eo Hc Ho Hn. split; [by eapply opened_managed_in|]. destruct (open_in_ok a junk f cs cs' x c x' r x1 El Hj Hfl Eo Hc) as [Hi Hm].
  destruct (in_run (file x) ops Ho (mkst _ c x' false) _ _ Hi (conj Hm eq_refl) Hn) as (p' & a' & Ht & Hi' & [Hr _]).
  destruct (run_ops _ _ _) as [rs s']. by exists p', a'.
Qed.
End props.

(** ** Closed channels *)

Section closed.
Context `{Act : Actions} (Hfuel : fuel <> O) (Hpending : forall x, caml_check_pending_actions x = false) (Hwrite : forall data x, (sys_write (-1) data x).1 = inl EBADF).
Definition failed_write (x x' : world) : Prop := exists data, sys_write (-1) data x = (inl EBADF, x').
(** A write to a closed descriptor discards the buffer. *)
Lemma closed_flush s : fd (ch s) = -1 -> 0 < curr (ch s) -> last_locked s = true ->
  exists x, caml_flush_partial s = (Exn (Sys_error EBADF), mkst _ (set_mutex false (set_curr 0 (ch s))) x false) /\ failed_write (w s) x.
Proof.
  intros Hfd Hc Hl. unfold caml_flush_partial. destruct fuel as [|n]; [done|]. cbn [flush_partial_loop]. unfold check_pending, pending, chan, caml_write_fd, call, mbind, io_bind, mret, io_ret.
  rewrite Hpending. rewrite (proj2 (Z.ltb_lt _ _)) by done. rewrite Hfd. specialize (Hwrite (slice 0 (curr (ch s)) (buff (ch s))) (w s)). destruct (sys_write _ _ _) as [r x] eqn:Ew. cbn in Hwrite. subst r.
  rewrite bool_decide_eq_false_2 by (by intros [?|?]). cbn [andb]. rewrite decide_False by done. rewrite decide_True by (by left). exists x. split; [|by eexists].
  unfold update, caml_sys_io_error. rewrite decide_False by (by intros [?|?]). unfold caml_sys_error. rewrite raise_eq. cbn. by rewrite Hl.
Qed.
Lemma bind_val {A B} (m : io A) (k : A -> io B) s a s' : m s = (Val a, s') -> (m ≫= k) s = k a s'.
Proof. intros E. unfold mbind, io_bind. by rewrite E. Qed.
Lemma bind_exn {A B} (m : io A) (k : A -> io B) s e s' : m s = (Exn e, s') -> (m ≫= k) s = (Exn e, s').
Proof. intros E. unfold mbind, io_bind. by rewrite E. Qed.
Lemma locked_val {A} (m : io A) s a s' : mutex (ch s) = false -> m (mkst _ (set_mutex true (ch s)) (w s) true) = (Val a, s') -> locked m s = (Val a, mkst _ (set_mutex false (ch s')) (w s') false).
Proof. intros Hm E. unfold locked. erewrite bind_val by (by apply lock_eq). erewrite bind_val by exact E. done. Qed.
Lemma locked_exn {A} (m : io A) s e s' : mutex (ch s) = false -> m (mkst _ (set_mutex true (ch s)) (w s) true) = (Exn e, s') -> locked m s = (Exn e, s').
Proof. intros Hm E. unfold locked. erewrite bind_val by (by apply lock_eq). by erewrite bind_exn by exact E. Qed.
Lemma close_eq s : fd (ch s) <> -1 -> mutex (ch s) = false -> (sys_close (fd (ch s)) (w s)).1 = None ->
  exists x, caml_ml_close_channel s = (Val Val_unit, mkst _ (set_mutex false (set_fd (-1) (set_offset 0 (set_max (Some IO_BUFFER_SIZE) (set_curr IO_BUFFER_SIZE (ch s)))))) x false).
Proof.
  intros Hfd Hm Hc. unfold caml_ml_close_channel. erewrite bind_val by (by apply lock_eq). unfold mbind, io_bind, update, chan, call. cbn.
  rewrite (proj2 (Z.eqb_neq _ _)) by done. cbn. destruct (sys_close _ _) as [r x]. cbn in Hc. subst r. by exists x.
Qed.
Lemma closed_output s b : fd (ch s) = -1 -> 0 < IO_BUFFER_SIZE -> curr (ch s) = IO_BUFFER_SIZE -> mutex (ch s) = false ->
  exists x, caml_ml_output_char b s = (Exn (Sys_error EBADF), mkst _ (set_mutex false (set_curr 0 (ch s))) x false) /\ failed_write (w s) x.
Proof.
  intros Hfd Hsz Hc Hm. destruct (closed_flush (mkst _ (set_mutex true (ch s)) (w s) true)) as (x & E & Hw); [done|by cbn; rewrite Hc|done|]. exists x. split; [|done].
  unfold caml_ml_output_char. apply bind_exn. change (set_mutex false (set_curr 0 (ch s))) with (set_mutex false (set_curr 0 (set_mutex true (ch s)))). apply locked_exn; [done|]. apply bind_exn.
  unfold Putch. erewrite bind_val by done. cbn [ch curr set_mutex]. rewrite Hc, Z.leb_refl. apply bind_exn. by apply bind_exn.
Qed.
Lemma small_output s b : curr (ch s) < IO_BUFFER_SIZE -> mutex (ch s) = false -> has_flag CHANNEL_FLAG_UNBUFFERED (ch s) = false ->
  caml_ml_output_char b s = (Val Val_unit, mkst _ (set_mutex false (put_byte (Long_val b) (ch s))) (w s) false).
Proof.
  intros Hc Hm Hu. unfold caml_ml_output_char.
  assert ((Putch (Long_val b);; caml_flush_if_unbuffered) (mkst _ (set_mutex true (ch s)) (w s) true) = (Val (), mkst _ (put_byte (Long_val b) (set_mutex true (ch s))) (w s) true)) as E.
  { unfold Putch, caml_flush_if_unbuffered, mbind, io_bind, chan, update. cbn [ch curr set_mutex]. rewrite (proj2 (Z.leb_gt _ _)) by done. cbn. unfold has_flag in *. cbn. by rewrite Hu. }
  by rewrite (bind_val _ _ _ _ _ (locked_val _ _ _ _ Hm E)).
Qed.
Lemma closed_ml_flush s : fd (ch s) = -1 -> mutex (ch s) = false -> caml_ml_flush s = (Val Val_unit, mkst _ (set_mutex false (ch s)) (w s) false).
Proof.
  intros Hfd Hm. unfold caml_ml_flush. assert ((c ← chan; if negb (fd c =? -1) then caml_flush else mret ()) (mkst _ (set_mutex true (ch s)) (w s) true) = (Val (), mkst _ (set_mutex true (ch s)) (w s) true)) as E.
  { unfold mbind, io_bind, chan. cbn [ch fd set_mutex]. by rewrite Hfd. }
  by rewrite (bind_val _ _ _ _ _ (locked_val _ _ _ _ Hm E)).
Qed.

(** A program that outputs characters and catches the exceptions. *)
Fixpoint output_chars (bs : list Z) (s : st) : list (outcome Z) * st :=
  match bs with
  | [] => ([], s)
  | b :: bs => let '(r, s) := caml_ml_output_char b s in let '(rs, s') := output_chars bs s in (r :: rs, s')
  end.
(** The buffer of a closed channel fills up, then the next output fails and empties it. *)
Definition closed_output_result (i : Z) : outcome Z := if i mod (IO_BUFFER_SIZE + 1) =? 0 then Exn (Sys_error EBADF) else Val Val_unit.
Lemma closed_outputs bs : 0 < IO_BUFFER_SIZE -> forall s i, fd (ch s) = -1 -> mutex (ch s) = false -> has_flag CHANNEL_FLAG_UNBUFFERED (ch s) = false -> 0 <= i ->
  curr (ch s) = (i - 1) mod (IO_BUFFER_SIZE + 1) ->
  let '(rs, s') := output_chars bs s in
  rs = imap (fun k _ => closed_output_result (i + Z.of_nat k)) bs /\ fd (ch s') = -1 /\ mutex (ch s') = false /\ rtc failed_write (w s) (w s').
Proof.
  intros Hsz. induction bs as [|b bs IH]; intros s i Hfd Hm Hu Hi Hc; cbn [output_chars]; [done|]. set (N := IO_BUFFER_SIZE + 1) in *.
  pose proof (Z.mod_pos_bound (i - 1) N ltac:(lia)) as Hb.
  assert (exists x, caml_ml_output_char b s = (closed_output_result i, mkst _ (set_mutex false (if i mod N =? 0 then set_curr 0 (ch s) else put_byte (Long_val b) (ch s))) x false) /\
    rtc failed_write (w s) x) as (x & -> & Hx).
  { unfold closed_output_result. fold N. destruct (Z.eqb_spec (i mod N) 0) as [E|E].
    - destruct (closed_output s b Hfd Hsz) as (x & -> & Hw); [|done|exists x; split; [done|by apply rtc_once]].
      rewrite Hc. symmetry. apply (Z.mod_unique _ _ (i / N - 1)); [lia|]. pose proof (Z.div_mod i N ltac:(lia)). lia.
    - exists (w s). rewrite small_output; [done| |done|done]. rewrite Hc.
      assert ((i - 1) mod N = i mod N - 1) as ->; [|pose proof (Z.mod_pos_bound i N ltac:(lia)); lia].
      pose proof (Z.mod_pos_bound i N ltac:(lia)). symmetry. apply (Z.mod_unique _ _ (i / N)); [lia|]. pose proof (Z.div_mod i N ltac:(lia)). lia. }
  match goal with |- context [output_chars bs ?s0] => specialize (IH s0 (i + 1)); destruct (output_chars bs s0) as [rs s'] end.
  destruct IH as (-> & Hfd' & Hm' & Hw'); [by cbn; destruct (i mod N =? 0)|done|unfold has_flag in *; cbn; by destruct (i mod N =? 0)|lia| |].
  - cbn. replace (i + 1 - 1) with i by lia. destruct (Z.eqb_spec (i mod N) 0) as [->|E]; [done|]. cbn. rewrite Hc.
    pose proof (Z.mod_pos_bound i N ltac:(lia)). rewrite <- (Z.mod_unique (i - 1) N (i / N) (i mod N - 1)); [lia|lia|]. pose proof (Z.div_mod i N ltac:(lia)). lia.
  - cbn [imap]. split_and!; [|done|done|by etransitivity]. f_equal; [f_equal; lia|]. apply imap_ext. intros k y _. cbn. f_equal. lia.
Qed.

(** C36: after a buffered output channel is closed without an error, outputs of characters on it mostly return normally, although their data is lost.  When no
    asynchronous action is pending, the first output raises Sys_error, because closing the channel had marked its buffer as full; but the failed
    write has emptied the buffer, so that the following [IO_BUFFER_SIZE] outputs return normally.  The next one raises and empties the buffer again, and so
    on.  A flush returns normally at any time, and the only system calls are writes to the descriptor -1, which fail. *)
Theorem closed_channel_accepts_output s bs : fd (ch s) <> -1 -> mutex (ch s) = false -> has_flag CHANNEL_FLAG_UNBUFFERED (ch s) = false ->
  0 < IO_BUFFER_SIZE -> (sys_close (fd (ch s)) (w s)).1 = None ->
  let '(r1, s1) := caml_ml_close_channel s in
  let '(rs, s2) := output_chars bs s1 in
  let '(r3, s3) := caml_ml_flush s2 in
  r1 = Val Val_unit /\ rs = imap (fun i _ => closed_output_result (Z.of_nat i)) bs /\ r3 = Val Val_unit /\
  rtc failed_write (w s1) (w s2) /\ w s3 = w s2.
Proof.
  intros Hfd Hm Hu Hsz Hc. destruct (close_eq s Hfd Hm Hc) as [x1 ->].
  match goal with |- context [output_chars bs ?s1] => pose proof (closed_outputs bs Hsz s1 0) as Ho; destruct (output_chars bs s1) as [rs s2] end.
  destruct Ho as (-> & Hfd2 & Hm2 & Hw); [done|done|done|done| |].
  - cbn. apply (Z.mod_unique _ _ (-1)); lia.
  - rewrite closed_ml_flush by done. done.
Qed.
End closed.

(** ** A file in memory *)

Module Mem.
(** [script]: the bytes that the next transfers accept, zero for an
    interruption. *)
Record mem := mkmem { mfile : list Z; mpos : nat; script : list nat }.
Definition mem_read (d n : Z) (x : mem) : (errno + list Z) * mem :=
  if negb (d =? 3) then (inl EBADF, x) else
  let get k t := let bs := take k (drop (mpos x) (mfile x)) in (inr bs, mkmem (mfile x) (mpos x + length bs) t) in
  match script x with
  | O :: t => (inl EINTR, mkmem (mfile x) (mpos x) t)
  | k :: t => get (k `min` Z.to_nat n)%nat t
  | [] => get (Z.to_nat n) []
  end.
Definition mem_write (d : Z) (data : list Z) (x : mem) : (errno + Z) * mem :=
  if negb (d =? 3) then (inl EBADF, x) else
  let put k t := (inr (Z.of_nat k), mkmem (overwrite (mfile x) (Z.of_nat (mpos x)) (take k data)) (mpos x + k) t) in
  match script x with
  | O :: t => (inl EINTR, mkmem (mfile x) (mpos x) t)
  | k :: t => put (k `min` length data)%nat t
  | [] => put (length data) []
  end.
Definition mem_lseek (d o : Z) (wh : whence) (x : mem) : (errno + Z) * mem :=
  let o := match wh with SEEK_SET => o | SEEK_CUR => Z.of_nat (mpos x) + o | SEEK_END => Z.of_nat (length (mfile x)) + o end in
  if negb (d =? 3) || (o <? 0) then (inl (Eother 22), x) else (inr o, mkmem (mfile x) (Z.to_nat o) (script x)).
Definition os_with (pending : mem -> bool) : OS := {|
  world := mem; sys_read := mem_read; sys_write := mem_write; sys_lseek := mem_lseek; sys_close := fun _ x => (None, x);
  caml_check_pending_actions := pending; IO_BUFFER_SIZE := 4; fuel := 100 |}.
(** Actions are pending after every second system call. *)
#[export] Instance mem_os : OS := os_with (fun x => Nat.odd (length (script x))).
#[export] Instance mem_actions : Actions := {| caml_process_pending_actions := fun s => (None, s) |}.
Definition quiet_os : OS := os_with (fun _ => false).
Definition quiet_actions : @Actions quiet_os := {| caml_process_pending_actions := fun s => (None, s) |}.
Lemma take_drop_slice (l : list Z) p k : let bs := take k (drop p l) in bs = slice (Z.of_nat p) (Z.of_nat p + Z.of_nat (length bs)) l.
Proof.
  cbn zeta. unfold slice. rewrite Nat2Z.id. replace (Z.to_nat _) with (length (take k (drop p l))) by lia. rewrite length_take.
  apply list_eq. intros i. destruct (decide (i < k `min` length (drop p l))%nat); [by rewrite !lookup_take_lt by lia|].
  rewrite (lookup_take_ge _ (k `min` _)) by lia. apply lookup_ge_None_2. rewrite length_take. lia.
Qed.
Lemma mem_read_ok n (x : mem) bs x' : 0 < n -> mem_read 3 n x = (inr bs, x') ->
  Z.of_nat (length bs) <= n /\ bs = slice (Z.of_nat (mpos x)) (Z.of_nat (mpos x) + Z.of_nat (length bs)) (mfile x) /\ (bs = [] -> Z.of_nat (length (mfile x)) <= Z.of_nat (mpos x)) /\
  mfile x' = mfile x /\ Z.of_nat (mpos x') = Z.of_nat (mpos x) + Z.of_nat (length bs) /\ (length (script x') <= length (script x))%nat.
Proof.
  intros Hn. unfold mem_read. cbn [Z.eqb Pos.eqb negb].
  assert (forall k t, (0 < k)%nat -> Z.of_nat k <= n -> (length t <= length (script x))%nat -> (inr (take k (drop (mpos x) (mfile x))), mkmem (mfile x) (mpos x + length (take k (drop (mpos x) (mfile x)))) t) = ((inr bs : errno + list Z), x') ->
    Z.of_nat (length bs) <= n /\ bs = slice (Z.of_nat (mpos x)) (Z.of_nat (mpos x) + Z.of_nat (length bs)) (mfile x) /\ (bs = [] -> Z.of_nat (length (mfile x)) <= Z.of_nat (mpos x)) /\
    mfile x' = mfile x /\ Z.of_nat (mpos x') = Z.of_nat (mpos x) + Z.of_nat (length bs) /\ (length (script x') <= length (script x))%nat) as Hget.
  { intros k t Hk Hkn Ht [= <- <-]. cbn. split_and!; try done; try lia.
    - rewrite length_take. lia.
    - apply take_drop_slice.
    - intros E. apply (f_equal length) in E. rewrite length_take, length_drop in E. cbn in E. lia. }
  clear - Hget Hn. destruct (script x) as [|[|k] t]; [|done|]; cbn zeta; apply Hget; cbn [length]; lia.
Qed.
Lemma mem_write_ok data (x : mem) n x' : data <> [] -> mem_write 3 data x = (inr n, x') ->
  1 <= n <= Z.of_nat (length data) /\ mfile x' = overwrite (mfile x) (Z.of_nat (mpos x)) (take (Z.to_nat n) data) /\ Z.of_nat (mpos x') = Z.of_nat (mpos x) + n /\ (length (script x') <= length (script x))%nat.
Proof.
  intros Hd. assert (1 <= length data)%nat by (destruct data; [done|cbn; lia]). unfold mem_write. cbn [Z.eqb Pos.eqb negb].
  destruct (script x) as [|[|k] t] eqn:Es; [|done|]; cbn zeta; intros [= <- <-]; cbn [mfile mpos script length]; rewrite Nat2Z.id; split_and!; try done; try lia; destruct (length data); lia.
Qed.
#[export] Instance mem_laws : FileLaws 3.
Proof.
  refine {| file := mfile : world -> list Z; pos := fun x => Z.of_nat (mpos x); interrupts := fun x => length (script x) |}.
  - lia.
  - cbn. unfold INT_MAX. lia.
  - intros n x bs x' Hn Er. by apply mem_read_ok.
  - cbn. intros n x e x'. unfold mem_read. cbn [Z.eqb Pos.eqb negb]. destruct (script x) as [|[|k] t] eqn:Es; cbn zeta; intros [= <- <-]. cbn. split; [split_and!; (done || lia)|lia].
  - intros data x n x' Hd Ew. by apply mem_write_ok.
  - cbn. intros data x e x'. unfold mem_write. cbn [Z.eqb Pos.eqb negb]. destruct (script x) as [|[|k] t] eqn:Es; cbn zeta; intros [= <- <-]. cbn. split; [split_and!; (done || lia)|]. split; [lia|done].
  - cbn. intros o x r x'. unfold mem_lseek. cbn [Z.eqb Pos.eqb negb orb]. destruct (Z.ltb_spec o 0); [done|]. intros [= <- <-]. cbn. split_and!; (done || lia).
  - cbn. intros x r x'. unfold mem_lseek. cbn [Z.eqb Pos.eqb negb orb]. destruct (Z.ltb_spec (Z.of_nat (mpos x) + 0) 0); [done|]. intros [= <- <-]. cbn. split_and!; (done || lia).
  - cbn. intros o wh x e x'. unfold mem_lseek. cbn [Z.eqb Pos.eqb negb orb]. destruct (_ <? 0); [|done]. intros [= <- <-]. by split_and!.
  - cbn. intros s r s' [= <- <-]. by split_and!.
Defined.
End Mem.
Import Mem.

(** Small transfers and interruptions, with a buffer of four bytes. *)
Definition ex_world : @world mem_os := mkmem [104; 101; 108; 108; 111; 10; 119] 0 [2; 0; 3; 1; 1; 0; 2]%nat.
Definition ex_out_ops : list out_call := [Out (Out_bytes [1; 2; 3; 4; 5; 6]); Out (Out_char (Val_long 65)); Out Out_pos; Set_buffered false; Out (Out_char (Val_long 66));
  Out (Out_seek (Val_long 9)); Out (Out_int (Val_long 258)); Set_buffered true; Out Out_flush].
Definition ex_in_ops : list in_op := [In_char; In_scan; In_bytes (Val_long 10); In_seek (Val_long 2); In_pos; In_scan; In_int; In_char].
Definition no_chans : chans := mkchans ∅ 0.
Definition ex_open (r : option chans * @world mem_os) : channel := match r with (Some cs, _) => default (mkchannel 0 0 0 None false 0 0 0 0 [] None) (table cs !! 8) | _ => mkchannel 0 0 0 None false 0 0 0 0 [] None end.
Definition ex_out_chans : chans := default no_chans (caml_ml_open_descriptor_out_with_flags 8 [7; 7; 7; 7] 3 0 ex_world no_chans).1.
Definition ex_in_chans : chans := default no_chans (caml_ml_open_descriptor_in_with_flags 8 [7; 7; 7; 7] 3 CHANNEL_FLAG_FROM_SOCKET ex_world no_chans).1.
Definition ex_out : channel := ex_open (Some ex_out_chans, ex_world).
Definition ex_in : channel := ex_open (Some ex_in_chans, ex_world).
Example ex_out_file : mfile (w (run_ops 3 call_exec ex_out_ops (mkst _ ex_out ex_world false)).2) = [1; 2; 3; 4; 5; 6; 65; 66; 0; 0; 0; 1; 2].
Proof. vm_compute. reflexivity. Qed.
Example ex_in_results : (run_ops 3 in_exec ex_in_ops (mkst _ ex_in ex_world false)).1.*1 =
  [Val (Num (Val_long 104)); Val (Num (Val_long (-4))); Val (Block [101; 108; 108; 111]); Val (Num Val_unit); Val (Num (Val_long 2)); Val (Num (Val_long 4)); Val (Num (Val_long 1819045642)); Val (Num (Val_long 119))].
Proof. vm_compute. reflexivity. Qed.
Lemma output_channel_refines_witness :
  has_flag CHANNEL_FLAG_MANAGED_BY_GC ex_out = true /\
  let '(rs, s') := run_ops 3 call_exec ex_out_ops (mkst _ ex_out ex_world false) in
  exists u' G' p', out_trace false (file ex_world) (pos ex_world) ex_out_ops rs u' G' p' /\ out_inv 3 u' G' p' (ch s') (w s') /\ mutex (ch s') = false.
Proof.
  assert (Forall call_fits ex_out_ops) as Ho by (repeat (constructor; [vm_compute; first [reflexivity | exact I]|]); constructor).
  assert (sys_lseek 3 0 SEEK_CUR ex_world = (inr 0, ex_world)) as E1 by (vm_compute; reflexivity).
  assert (caml_ml_open_descriptor_out_with_flags 8 [7; 7; 7; 7] 3 0 ex_world no_chans = (Some ex_out_chans, ex_world)) as E2 by (vm_compute; reflexivity).
  assert (table ex_out_chans !! 8 = Some ex_out) as E3 by (vm_compute; reflexivity).
  assert (IO_BUFFER_SIZE + 1 < Z.of_nat fuel) as E4 by (vm_compute; reflexivity).
  assert (interrupts ex_world < fuel)%nat as E5 by (apply Nat.ltb_lt; vm_compute; reflexivity).
  exact (output_channel_refines 3 8 [7; 7; 7; 7] 0 no_chans ex_out_chans ex_world ex_out ex_world 0 ex_world ex_out_ops E1 eq_refl eq_refl E2 E3 E4 Ho E5).
Defined.
Lemma input_channel_refines_witness :
  has_flag CHANNEL_FLAG_MANAGED_BY_GC ex_in = true /\
  let '(rs, s') := run_ops 3 in_exec ex_in_ops (mkst _ ex_in ex_world false) in
  exists p' a', in_trace (file ex_world) (pos ex_world) 0 ex_in_ops rs p' a' /\ in_inv 3 (file ex_world) p' a' (ch s') (w s') /\ mutex (ch s') = false.
Proof.
  assert (Forall in_valid ex_in_ops) as Ho by (repeat (constructor; [vm_compute; first [exact I | discriminate]|]); constructor).
  assert (sys_lseek 3 0 SEEK_CUR ex_world = (inr 0, ex_world)) as E1 by (vm_compute; reflexivity).
  assert (caml_ml_open_descriptor_in_with_flags 8 [7; 7; 7; 7] 3 CHANNEL_FLAG_FROM_SOCKET ex_world no_chans = (Some ex_in_chans, ex_world)) as E2 by (vm_compute; reflexivity).
  assert (table ex_in_chans !! 8 = Some ex_in) as E3 by (vm_compute; reflexivity).
  assert (scan_rounds 3 0 ex_world < Z.of_nat fuel) as E4 by (vm_compute; reflexivity).
  exact (input_channel_refines 3 8 [7; 7; 7; 7] CHANNEL_FLAG_FROM_SOCKET no_chans ex_in_chans ex_world ex_in ex_world 0 ex_world ex_in_ops E1 eq_refl eq_refl E2 E3 Ho E4).
Defined.
Definition ex_closed : @st quiet_os := mkst quiet_os (mkchannel 3 0 0 None false 0 0 1 CHANNEL_FLAG_MANAGED_BY_GC [7; 7; 7; 7] None) ex_world false.
Lemma closed_channel_accepts_output_witness :
  let '(r1, s1) := @caml_ml_close_channel quiet_os ex_closed in
  let '(rs, s2) := @output_chars quiet_os quiet_actions [131; 133; 135] s1 in
  let '(r3, s3) := @caml_ml_flush quiet_os quiet_actions s2 in
  r1 = Val Val_unit /\ rs = [Exn (Sys_error EBADF); Val Val_unit; Val Val_unit] /\ r3 = Val Val_unit /\ rtc (@failed_write quiet_os) (w s1) (w s2) /\ w s3 = w s2.
Proof.
  assert (forall data x, (@sys_write quiet_os (-1) data x).1 = inl EBADF) as Hw by done.
  exact (@closed_channel_accepts_output quiet_os quiet_actions ltac:(discriminate) (fun _ => eq_refl) Hw ex_closed [131; 133; 135]
    ltac:(discriminate) eq_refl eq_refl eq_refl eq_refl).
Defined.
(** Data of a bigarray stays in the buffer of an unbuffered channel, where
    that of a string goes to the file. *)
Lemma unbuffered_bigarray :
  let s := (caml_ml_set_buffered false (mkst _ ex_out ex_world false)).2 in
  file (w (caml_ml_output_bytes [1; 2] s).2) = [1; 2; 108; 108; 111; 10; 119] /\ file (w (caml_ml_output_bigarray [1; 2] s).2) = file ex_world /\ (caml_ml_output_bigarray [1; 2] s).1 = Val Val_unit.
Proof. vm_compute. by split_and!. Qed.
End ChannelProps.
