(* ===== verification/ChannelList.v ===== *)
(** * The list of opened channels

    The doubly linked list of [runtime/io.c] refines a list of addresses: it
    holds exactly the channels that the program owns or that have unwritten
    data, so that [flush_all] finds them. *)

From S2P Require Import Prelude Memory Channels.
From stdpp Require Import list gmap.
#[local] Open Scope Z_scope.
Import Channels.

Module ChannelList.

(** ** Doubly linked lists *)

(** A segment of the list: it starts at [a] after the cell [p], and its last cell
    [q] is followed by [e]. *)
Fixpoint seg (t : gmap Z channel) (p : Z) (L : list Z) (a q e : Z) : Prop :=
  match L with
  | [] => a = e /\ q = p
  | x :: L => a = x /\ x <> 0 /\ exists c, t !! x = Some c /\ prev c = p /\ seg t x L (next c) q e
  end.
Lemma seg_app t L1 : forall p L2 a q e, seg t p (L1 ++ L2) a q e <-> exists q1 e1, seg t p L1 a q1 e1 /\ seg t q1 L2 e1 q e.
Proof.
  induction L1 as [|x L1 IH]; intros p L2 a q e; cbn [seg app].
  - split; [intros Hs; by exists p, a|]. by intros (? & ? & [-> ->] & Hs).
  - split.
    + intros (-> & Hx & c & Ec & Ep & Hs). apply IH in Hs as (q1 & e1 & H1 & H2). exists q1, e1. split; [|done]. split_and!; try done. by exists c.
    + intros (q1 & e1 & (-> & Hx & c & Ec & Ep & H1) & H2). split_and!; try done. exists c. split_and!; try done. apply IH. by exists q1, e1.
Qed.
Lemma seg_insert t L x c : x ∉ L -> forall p a q e, seg t p L a q e -> seg (<[x := c]> t) p L a q e.
Proof.
  induction L as [|y L IH]; intros Hx p a q e; cbn [seg]; [done|]. apply not_elem_of_cons in Hx as [Hxy Hx]. intros (-> & Hy & c' & Ec & Ep & Hs).
  split_and!; try done. exists c'. rewrite lookup_insert_ne by done. split_and!; try done. by apply IH.
Qed.
Lemma seg_delete t L x : x ∉ L -> forall p a q e, seg t p L a q e -> seg (delete x t) p L a q e.
Proof.
  induction L as [|y L IH]; intros Hx p a q e; cbn [seg]; [done|]. apply not_elem_of_cons in Hx as [Hxy Hx]. intros (-> & Hy & c' & Ec & Ep & Hs).
  split_and!; try done. exists c'. rewrite lookup_delete_ne by done. split_and!; try done. by apply IH.
Qed.
(** A change that keeps the links of a cell. *)
Lemma seg_keep t L x c c' : t !! x = Some c -> next c' = next c -> prev c' = prev c -> forall p a q e, seg t p L a q e -> seg (<[x := c']> t) p L a q e.
Proof.
  intros Ex En Epr. induction L as [|y L IH]; intros p a q e; cbn [seg]; [done|]. intros (-> & Hy & d & Ed & Ep & Hs). split_and!; try done.
  destruct (decide (x = y)) as [->|Hxy].
  - exists c'. rewrite lookup_insert_eq. assert (d = c) as -> by congruence. rewrite En, Epr. split_and!; try done. by apply IH.
  - exists d. rewrite lookup_insert_ne by done. split_and!; try done. by apply IH.
Qed.
Lemma seg_prev t L y c : t !! y = Some c -> y ∉ L -> forall p p' q e, seg t p (y :: L) y q e -> seg (<[y := set_prev p' c]> t) p' (y :: L) y q e.
Proof.
  intros Ec Hy p p' q e (_ & Hy0 & c' & Ec' & Ep & Hs). assert (c' = c) as -> by congruence. cbn [seg]. split_and!; try done. exists (set_prev p' c).
  rewrite lookup_insert_eq. split_and!; try done. cbn [next set_prev]. by apply seg_insert.
Qed.
Lemma seg_next t L y c : t !! y = Some c -> y ∉ L -> forall p a q e e', seg t p (L ++ [y]) a q e -> seg (<[y := set_next e' c]> t) p (L ++ [y]) a y e'.
Proof.
  intros Ec Hy p a q e e' Hs. apply seg_app in Hs as (q1 & e1 & H1 & H2). cbn [seg] in H2. destruct H2 as (-> & Hy0 & c' & Ec' & Ep & _). assert (c' = c) as -> by congruence.
  apply seg_app. exists q1, y. split; [by apply seg_insert|]. cbn [seg]. split_and!; try done. exists (set_next e' c). rewrite lookup_insert_eq. by split_and!.
Qed.

(** ** Representation *)

(** A channel without its links. *)
Definition core (c : channel) : channel := set_next 0 (set_prev 0 c).
Record rep (s : chans) (L : list Z) (M : gmap Z channel) : Prop := {
  rep_seg : exists q, seg (table s) 0 L (caml_all_opened_channels s) q 0;
  rep_nodup : NoDup L;
  rep_core : core <$> table s = M;
}.
Lemma core_insert (t M : gmap Z channel) a c : core <$> t = M -> core <$> <[a := c]> t = <[a := core c]> M.
Proof. intros <-. apply fmap_insert. Qed.
Lemma core_same (t M : gmap Z channel) a c c' : core <$> t = M -> t !! a = Some c -> core c' = core c -> core <$> <[a := c']> t = M.
Proof. intros E Ec Ecc. rewrite (core_insert _ _ a c' E), Ecc. apply insert_id. by rewrite <- E, lookup_fmap, Ec. Qed.
Lemma modify_some a f t c : t !! a = Some c -> modify_chan a f t = Some (<[a := f c]> t).
Proof. intros E. unfold modify_chan. by rewrite E. Qed.

Lemma link_ok s L M a c : rep s L M -> table s !! a = Some c -> prev c = 0 -> a <> 0 -> a ∉ L ->
  exists s', link_channel a s = Some s' /\ rep s' (a :: L) M.
Proof.
  intros [[q Hs] Hnd Hc] Ea Ep Ha HaL. unfold link_channel. rewrite (modify_some a _ _ c Ea). cbn [mbind option_bind].
  set (h := caml_all_opened_channels s) in *. clearbody h. set (t1 := <[a := set_next h c]> (table s)). assert (core <$> t1 = M) as Hc1 by (by apply (core_same _ _ _ c)).
  assert (seg t1 0 L h q 0) as Hs1 by (by apply seg_insert). destruct L as [|b L].
  - destruct Hs1 as [-> ->]. unfold t1 in *. cbn. eexists. split; [reflexivity|]. split; cbn [table caml_all_opened_channels]; [|by apply NoDup_singleton|done].
    exists a. cbn [seg]. split_and!; try done. exists (set_next 0 c). unfold t1. rewrite lookup_insert_eq. by split_and!.
  - pose proof Hs1 as (Eh & Hb & cb & Ecb & Epb & _). subst h. rewrite (proj2 (Z.eqb_neq _ _)) by done. rewrite (modify_some b _ _ cb Ecb). cbn. eexists. split; [reflexivity|].
    apply not_elem_of_cons in HaL as HaL'. destruct HaL' as [Hab HaL']. apply NoDup_cons in Hnd as Hnd'. destruct Hnd' as [HbL _].
    split; cbn [table caml_all_opened_channels]; [|by apply NoDup_cons|by apply (core_same _ _ _ cb)].
    exists q. cbn [seg]. split_and!; try done. exists (set_next b c). split; [rewrite lookup_insert_ne by done; unfold t1; by rewrite lookup_insert_eq|]. split; [done|].
    change (seg (<[b := set_prev a cb]> t1) a (b :: L) b q 0). by apply (seg_prev t1 L b cb Ecb HbL 0).
Qed.
Lemma NoDup_middle (L1 L2 : list Z) a : NoDup (L1 ++ a :: L2) -> a ∉ L1 /\ a ∉ L2 /\ NoDup (L1 ++ L2).
Proof. rewrite <- (Permutation_middle L1 L2 a), NoDup_cons, not_elem_of_app. tauto. Qed.
(** The two neighbours of a cell are linked to each other. *)
Lemma unlink_links (t M : gmap Z channel) L1 L2 head a c q : core <$> t = M -> NoDup (L1 ++ a :: L2) -> seg t 0 (L1 ++ a :: L2) head q 0 -> t !! a = Some c ->
  exists t2 head' q',
    (if prev c =? 0 then
       first ← t !! head; t2 ← (if next first =? 0 then Some t else modify_chan (next first) (set_prev 0) t); Some (t2, next first)
     else
       t1 ← modify_chan (prev c) (set_next (next c)) t; t2 ← (if next c =? 0 then Some t1 else modify_chan (next c) (set_prev (prev c)) t1); Some (t2, head)) = Some (t2, head') /\
    seg t2 0 (L1 ++ L2) head' q' 0 /\ core <$> t2 = M /\ t2 !! a = Some c.
Proof.
  intros Hc Hnd Hs Ec. destruct (NoDup_middle _ _ _ Hnd) as (Ha1 & Ha2 & Hnd'). apply seg_app in Hs as (q1 & e1 & H1 & H2). cbn [seg] in H2.
  destruct H2 as (-> & Ha0 & c' & Ec' & Ep & H2). assert (c' = c) as -> by congruence. destruct L1 as [|y L1 _] using rev_ind.
  - destruct H1 as [-> ->]. rewrite Ep, Z.eqb_refl, Ec. cbn [mbind option_bind app]. destruct L2 as [|b L2].
    + destruct H2 as [E0 ->]. rewrite E0. cbn. exists t, 0, 0. by split_and!.
    + pose proof H2 as (Eb & Hb0 & cb & Ecb & _). rewrite Eb in *. rewrite (proj2 (Z.eqb_neq _ _)), (modify_some b _ _ cb Ecb) by done. cbn. apply not_elem_of_cons in Ha2 as [Hab _].
      cbn in Hnd'. apply NoDup_cons in Hnd' as [HbL _]. exists (<[b := set_prev 0 cb]> t), b, q. split; [done|]. split; [by apply (seg_prev t L2 b cb Ecb HbL a)|]. split; [by apply (core_same _ _ _ cb)|by rewrite lookup_insert_ne].
  - pose proof H1 as Hy. apply seg_app in Hy as (q2 & e2 & _ & Hy). cbn [seg] in Hy. destruct Hy as (-> & Hy0 & cy & Ecy & _ & [_ ->]).
    rewrite Ep, (proj2 (Z.eqb_neq y 0)), (modify_some y _ _ cy Ecy) by done. cbn [mbind option_bind]. set (t1 := <[y := set_next (next c) cy]> t).
    rewrite <- app_assoc in Hnd'. cbn in Hnd'. destruct (NoDup_middle _ _ _ Hnd') as (Hy1 & Hy2 & _). apply not_elem_of_app in Ha1 as [_ Hay]. rewrite list_elem_of_singleton in Hay.
    assert (seg t1 0 (L1 ++ [y]) head y (next c)) as S1 by (by eapply seg_next). assert (core <$> t1 = M) as C1 by (by apply (core_same _ _ _ cy)).
    assert (t1 !! a = Some c) as A1 by (unfold t1; by rewrite lookup_insert_ne). assert (seg t1 a L2 (next c) q 0) as S2 by (by apply seg_insert). destruct L2 as [|b L2].
    + destruct S2 as [E0 ->]. rewrite E0 in *. cbn. exists t1, head, y. rewrite app_nil_r. by split_and!.
    + pose proof S2 as (Eb & Hb0 & cb & Ecb & _). rewrite Eb in *. rewrite (proj2 (Z.eqb_neq _ _)), (modify_some b _ _ cb Ecb) by done. cbn. apply not_elem_of_cons in Ha2 as [Hab _].
      assert (b ∉ L1 ++ [y] /\ b ∉ L2) as [Hb1 Hb2].
      { replace (L1 ++ y :: b :: L2) with ((L1 ++ [y]) ++ b :: L2) in Hnd' by (by rewrite <- app_assoc). destruct (NoDup_middle _ _ _ Hnd') as (? & ? & _). done. }
      exists (<[b := set_prev y cb]> t1), head, q. split; [done|]. split; [|split; [by apply (core_same _ _ _ cb)|by rewrite lookup_insert_ne]].
      apply seg_app. exists y, b. split; [by apply seg_insert|]. by apply (seg_prev t1 L2 b cb Ecb Hb2 a).
Qed.
Lemma unlink_ok s L1 L2 M a : rep s (L1 ++ a :: L2) M -> exists s', unlink_channel a s = Some s' /\ rep s' (L1 ++ L2) M.
Proof.
  intros [[q Hs] Hnd Hc]. destruct (NoDup_middle _ _ _ Hnd) as (Ha1 & Ha2 & Hnd'). pose proof Hs as Hs'. apply seg_app in Hs' as (q1 & e1 & _ & _ & _ & c & Ec & _).
  destruct (unlink_links (table s) M L1 L2 _ a c q Hc Hnd Hs Ec) as (t2 & h' & q' & E & S2 & C2 & A2). unfold unlink_channel. rewrite Ec. cbn [mbind option_bind] in E |- *. rewrite E. cbn [mbind option_bind].
  rewrite (modify_some a _ _ c A2). cbn. eexists. split; [reflexivity|]. split; cbn [table caml_all_opened_channels]; [|done|by apply (core_same _ _ _ c)].
  exists q'. apply seg_insert; [|done]. rewrite not_elem_of_app. done.
Qed.

(** ** The operations on lists and tables *)

(** [Use]: reads and writes, which keep the links of a channel and its owner. *)
Inductive list_op := Open (a : Z) (c : channel) (f : Z) | Use (a : Z) (c : channel) | Finalise (a : Z) | Out_list.
Definition managed (c : channel) : bool := has_flag CHANNEL_FLAG_MANAGED_BY_GC c.
Definition unwritten (c : channel) : bool := bool_decide (max c = None) && negb (curr c =? 0).
Definition opened (c : channel) (f : Z) : channel := set_refcount 1 (set_flags (Z.lor (flags c) (Z.lor f CHANNEL_FLAG_MANAGED_BY_GC)) c).
Definition list_exec (o : list_op) (s : chans) : option (chans * list Z) :=
  match o with
  | Open a c f => s ← open_with_flags a c f s; Some (s, [])
  | Use a c => t ← modify_chan a (fun c0 => set_next (next c0) (set_prev (prev c0) c)) (table s); Some (mkchans t (caml_all_opened_channels s), [])
  | Finalise a => s ← caml_finalize_channel a s; Some (s, [])
  | Out_list => caml_ml_out_channels_list s
  end.
Definition is_out (M : gmap Z channel) (a : Z) : bool := match M !! a with Some c => bool_decide (max c = None) | None => false end.
Definition bump (M : gmap Z channel) (a : Z) : gmap Z channel :=
  match M !! a with Some c => if bool_decide (max c = None) then <[a := set_refcount (refcount c + 1) c]> M else M | None => M end.
(** The channels that are not freed, in a table without links, and the order of the list. *)
Definition abs_exec (o : list_op) (L : list Z) (M : gmap Z channel) : option (list Z * gmap Z channel * list Z) :=
  match o with
  | Open a c f => if bool_decide (a <> 0 /\ M !! a = None /\ prev c = 0) then Some (a :: L, <[a := core (opened c f)]> M, []) else None
  | Use a c => c0 ← M !! a; if bool_decide (managed c = managed c0) then Some (L, <[a := core c]> M, []) else None
  | Finalise a =>
      c ← M !! a;
      if negb (managed c) then Some (L, M, []) else
      if (0 <? refcount c - 1) || unwritten c then Some (L, <[a := set_refcount (refcount c - 1) c]> M, []) else
      Some (filter (fun x => x <> a) L, delete a M, [])
  | Out_list => Some (L, foldl bump M L, filter (fun a => is_out M a = true) L)
  end.
(** The managed channels are those of the list. *)
Definition listed (L : list Z) (M : gmap Z channel) : Prop := forall a, a ∈ L <-> exists c, M !! a = Some c /\ managed c = true.

Lemma managed_opened c f : managed (opened c f) = true.
Proof.
  unfold managed, has_flag, opened. cbn. apply negb_true_iff, Z.eqb_neq. intros E. apply (f_equal (fun z => Z.testbit z 2)) in E. rewrite Z.land_spec, !Z.lor_spec, Z.bits_0 in E. cbn in E. by rewrite !orb_true_r in E.
Qed.
Lemma rep_lookup s L M a c : rep s L M -> M !! a = Some c -> exists c0, table s !! a = Some c0 /\ core c0 = c.
Proof. intros [_ _ <-] E. rewrite lookup_fmap in E. by apply fmap_Some in E as (c0 & E0 & ->); exists c0. Qed.
Lemma open_ok s L M a c f : rep s L M -> a <> 0 -> M !! a = None -> a ∉ L -> prev c = 0 ->
  exists s', open_with_flags a c f s = Some s' /\ rep s' (a :: L) (<[a := core (opened c f)]> M).
Proof.
  intros [[q Hs] Hnd Hc] Ha HM HaL Ep. unfold open_with_flags. fold (opened c f). apply (link_ok (mkchans (<[a := opened c f]> (table s)) _) L _ a (opened c f)); try done.
  - split; [|done|by apply core_insert]. exists q. by apply seg_insert.
  - apply lookup_insert_eq.
Qed.
Lemma filter_notin (L : list Z) a : a ∉ L -> filter (fun x => x <> a) L = L.
Proof.
  induction L as [|b L IH]; [done|]. intros H. apply not_elem_of_cons in H as [Hb HL]. rewrite filter_cons_True by congruence. by rewrite IH.
Qed.
Lemma filter_ne (L1 L2 : list Z) a : a ∉ L1 -> a ∉ L2 -> filter (fun x => x <> a) (L1 ++ a :: L2) = L1 ++ L2.
Proof. intros H1 H2. rewrite filter_app, filter_cons_False by (by intros ?). by rewrite !filter_notin by done. Qed.
Lemma core_core c : core (core c) = core c.
Proof. done. Qed.
Lemma finalise_ok s L M a c : rep s L M -> M !! a = Some c -> managed c = true -> a ∈ L ->
  exists s', caml_finalize_channel a s = Some s' /\
    if (0 <? refcount c - 1) || unwritten c then rep s' L (<[a := set_refcount (refcount c - 1) c]> M) else rep s' (filter (fun x => x <> a) L) (delete a M).
Proof.
  intros Hr Ec Hm Ha. destruct (rep_lookup s L M a c Hr Ec) as (c0 & E0 & <-). destruct Hr as [[q Hs] Hnd Hc]. unfold caml_finalize_channel. rewrite E0. cbn [mbind option_bind].
  change (has_flag CHANNEL_FLAG_MANAGED_BY_GC c0) with (managed (core c0)). rewrite Hm. cbn [negb]. rewrite (modify_some a _ _ c0 E0). cbn [mbind option_bind].
  change (bool_decide (max c0 = None) && negb (curr c0 =? 0)) with (unwritten (core c0)). change (refcount (core c0)) with (refcount c0). set (c1 := set_refcount (refcount c0 - 1) c0).
  assert (rep (mkchans (<[a := c1]> (table s)) (caml_all_opened_channels s)) L (<[a := core c1]> M)) as Hr1.
  { split; cbn [table caml_all_opened_channels]; [exists q; by apply (seg_keep _ _ _ c0)|done|by apply core_insert]. }
  destruct ((0 <? refcount c0 - 1) || unwritten (core c0)).
  - eexists. split; [reflexivity|]. exact Hr1.
  - apply list_elem_of_split in Ha as (L1 & L2 & ->). destruct (unlink_ok _ L1 L2 _ a Hr1) as (s' & -> & [[q' Hs'] Hnd' Hc']). cbn. eexists. split; [reflexivity|].
    destruct (NoDup_middle _ _ _ Hnd) as (H1 & H2 & _). rewrite filter_ne by done. split; cbn [table caml_all_opened_channels]; [|done|].
    + exists q'. apply seg_delete; [|done]. by rewrite not_elem_of_app.
    + rewrite fmap_delete, Hc'. by rewrite delete_insert_eq.
Qed.
Lemma is_out_core (t : gmap Z channel) a c : t !! a = Some c -> is_out (core <$> t) a = bool_decide (max c = None).
Proof. intros E. unfold is_out. by rewrite lookup_fmap, E. Qed.
Lemma is_out_bump M x a : is_out (bump M x) a = is_out M a.
Proof.
  unfold is_out, bump. destruct (M !! x) as [c|] eqn:E; [|done]. case_bool_decide as Hc; [|done]. destruct (decide (x = a)) as [->|].
  - rewrite lookup_insert_eq, E. cbn. by rewrite Hc.
  - by rewrite lookup_insert_ne.
Qed.
Lemma out_loop_ok L2 : forall n t head p a q acc, (length L2 <= n)%nat -> seg t p L2 a q 0 ->
  exists t', out_channels_loop n a (mkchans t head) acc = Some (mkchans t' head, reverse (filter (fun a => is_out (core <$> t) a = true) L2) ++ acc) /\
    core <$> t' = foldl bump (core <$> t) L2 /\ forall p L a q e, seg t p L a q e -> seg t' p L a q e.
Proof.
  induction L2 as [|x L2 IH]; intros n t head p a q acc Hn Hs.
  - destruct Hs as [-> _]. exists t. destruct n; by split_and!.
  - destruct Hs as (-> & Hx & c & Ec & Ep & Hs). destruct n as [|n]; [cbn in Hn; lia|]. cbn [out_channels_loop]. rewrite (proj2 (Z.eqb_neq _ _)) by done. cbn [table caml_all_opened_channels]. rewrite Ec. cbn [mbind option_bind].
    pose proof (is_out_core t x c Ec) as Ho. assert (forall M, M = core <$> t -> bump M x = if bool_decide (max c = None) then <[x := core (set_refcount (refcount c + 1) c)]> M else M) as Hb.
    { intros M ->. unfold bump. by rewrite lookup_fmap, Ec. }
    specialize (Hb _ eq_refl). cbn [foldl]. case_bool_decide as Hc.
    + rewrite (modify_some x _ _ c Ec). cbn [mbind option_bind]. set (t1 := <[x := set_refcount (refcount c + 1) c]> t). assert (core <$> t1 = bump (core <$> t) x) as E1 by (rewrite Hb; apply fmap_insert).
      destruct (IH n t1 head x (next c) q (x :: acc)) as (t' & E & Hc' & Hseg); [cbn in Hn; lia|by apply (seg_keep _ _ _ c)|]. exists t'. rewrite E. split.
      * rewrite filter_cons_True by done. rewrite reverse_cons, <- app_assoc. cbn. do 4 f_equal. apply list_filter_iff. intros y. by rewrite E1, is_out_bump.
      * rewrite Hc', E1. split; [done|]. intros. by apply Hseg, (seg_keep _ _ _ c).
    + destruct (IH n t head x (next c) q acc) as (t' & E & Hc' & Hseg); [cbn in Hn; lia|done|]. exists t'. rewrite E, Hb. rewrite filter_cons_False by (by rewrite Ho). by split_and!.
Qed.
Lemma seg_dom t L : forall p a q e x, seg t p L a q e -> x ∈ L -> is_Some (t !! x).
Proof.
  induction L as [|y L IH]; intros p a q e x Hs Hx; [by apply not_elem_of_nil in Hx|]. destruct Hs as (-> & _ & c & Ec & _ & Hs). apply elem_of_cons in Hx as [->|Hx]; [by exists c|by eapply IH].
Qed.
Lemma rep_size s L M : rep s L M -> (length L <= size (table s))%nat.
Proof.
  intros [[q Hs] Hnd _]. rewrite <- size_dom, <- (size_list_to_set (C := gset Z) L Hnd). apply subseteq_size. intros x Hx. apply elem_of_list_to_set in Hx. apply elem_of_dom. by eapply seg_dom.
Qed.
Lemma foldl_cons_reverse (l acc : list Z) : foldl (fun res a => a :: res) acc l = reverse l ++ acc.
Proof. revert acc. induction l as [|x l IH]; intros acc; [done|]. cbn [foldl]. rewrite IH, reverse_cons, <- app_assoc. done. Qed.
Lemma out_list_ok s L M : rep s L M ->
  exists s', caml_ml_out_channels_list s = Some (s', filter (fun a => is_out M a = true) L) /\ rep s' L (foldl bump M L).
Proof.
  intros Hr. pose proof (rep_size s L M Hr) as Hsz. destruct Hr as [[q Hs] Hnd Hc]. destruct s as [t head]. cbn [table caml_all_opened_channels] in *. unfold caml_ml_out_channels_list. cbn [table caml_all_opened_channels].
  destruct (out_loop_ok L (size t) t head 0 head q [] Hsz Hs) as (t' & E & Hc' & Hseg). rewrite E. cbn [mbind option_bind]. rewrite app_nil_r, foldl_cons_reverse, reverse_involutive, app_nil_r, Hc. eexists. split; [reflexivity|].
  split; cbn [table caml_all_opened_channels]; [exists q; by apply Hseg|done|]. by rewrite Hc', Hc.
Qed.
Lemma managed_core c : managed (core c) = managed c.
Proof. done. Qed.
Lemma listed_insert L M a c c0 : listed L M -> M !! a = Some c0 -> managed c = managed c0 -> listed L (<[a := c]> M).
Proof.
  intros Hl E Hm x. rewrite (Hl x). destruct (decide (a = x)) as [->|Hne]; [rewrite lookup_insert_eq, E|by rewrite lookup_insert_ne].
  split; intros (c' & [= <-] & Hc); eexists; (split; [reflexivity|]); congruence.
Qed.
Lemma listed_bump L M x : listed L M -> listed L (bump M x).
Proof. intros Hl. unfold bump. destruct (M !! x) as [c|] eqn:E; [|done]. case_bool_decide; [|done]. by apply (listed_insert L M x _ c). Qed.
Lemma listed_bumps L0 L : forall M, listed L M -> listed L (foldl bump M L0).
Proof. induction L0 as [|x L0 IH]; intros M Hl; cbn [foldl]; [done|]. by apply IH, listed_bump. Qed.
Lemma step_ok o s L M L' M' r : rep s L M -> listed L M -> abs_exec o L M = Some (L', M', r) ->
  exists s', list_exec o s = Some (s', r) /\ rep s' L' M' /\ listed L' M'.
Proof.
  intros Hr Hl. destruct o as [a c f|a c|a|]; cbn [abs_exec list_exec].
  - case_bool_decide as Hv; [|done]. destruct Hv as (Ha & HM & Ep). intros [= <- <- <-].
    assert (a ∉ L) as HaL by (intros Hin; apply Hl in Hin as (c' & E & _); congruence). destruct (open_ok s L M a c f Hr Ha HM HaL Ep) as (s' & -> & Hr'). exists s'. split; [done|]. split; [done|].
    intros x. rewrite elem_of_cons. destruct (decide (a = x)) as [->|Hne].
    + rewrite lookup_insert_eq. split; [intros _; exists (core (opened c f)); split; [done|apply managed_opened]|by left].
    + rewrite lookup_insert_ne by done. rewrite <- (Hl x). split; [by intros [->|]|by right].
  - destruct (M !! a) as [c0|] eqn:E; [|done]. cbn [mbind option_bind]. case_bool_decide as Hm; [|done]. intros [= <- <- <-]. destruct (rep_lookup s L M a c0 Hr E) as (c1 & E1 & <-).
    rewrite (modify_some a _ _ c1 E1). cbn. eexists. split; [reflexivity|]. split; [|by apply (listed_insert L M a _ (core c1))]. destruct Hr as [[q Hs] Hnd Hc].
    split; cbn [table caml_all_opened_channels]; [exists q; by apply (seg_keep _ _ _ c1)|done|].
    change (core c) with (core (set_next (next c1) (set_prev (prev c1) c))). by apply core_insert.
  - destruct (M !! a) as [c|] eqn:E; [|done]. cbn [mbind option_bind]. destruct (managed c) eqn:Hm; cbn [negb].
    + assert (a ∈ L) as Ha by (apply Hl; by exists c). destruct (finalise_ok s L M a c Hr E Hm Ha) as (s' & -> & Hr'). cbn. destruct (_ || _); intros [= <- <- <-]; exists s'; (split; [done|]); (split; [done|]).
      * by apply (listed_insert L M a _ c).
      * intros x. rewrite list_elem_of_filter. destruct (decide (a = x)) as [->|Hne]; [rewrite lookup_delete_eq; naive_solver|]. rewrite lookup_delete_ne by done. rewrite <- (Hl x). naive_solver.
    + intros [= <- <- <-]. destruct (rep_lookup s L M a c Hr E) as (c0 & E0 & <-). unfold caml_finalize_channel. rewrite E0. cbn [mbind option_bind]. change (has_flag CHANNEL_FLAG_MANAGED_BY_GC c0) with (managed (core c0)). rewrite Hm. by exists s.
  - intros [= <- <- <-]. destruct (out_list_ok s L M Hr) as (s' & -> & Hr'). exists s'. split; [done|]. split; [done|]. by apply listed_bumps.
Qed.
Fixpoint list_run (ops : list list_op) (s : chans) : option (chans * list (list Z)) :=
  match ops with
  | [] => Some (s, [])
  | o :: ops => '(s, r) ← list_exec o s; '(s, rs) ← list_run ops s; Some (s, r :: rs)
  end.
Fixpoint abs_run (ops : list list_op) (L : list Z) (M : gmap Z channel) : option (list Z * gmap Z channel * list (list Z)) :=
  match ops with
  | [] => Some (L, M, [])
  | o :: ops => '(L, M, r) ← abs_exec o L M; '(L, M, rs) ← abs_run ops L M; Some (L, M, r :: rs)
  end.
Lemma list_run_ok ops : forall s L M L' M' rs, rep s L M -> listed L M -> abs_run ops L M = Some (L', M', rs) ->
  exists s', list_run ops s = Some (s', rs) /\ rep s' L' M' /\ listed L' M'.
Proof.
  induction ops as [|o ops IH]; intros s L M L' M' rs Hr Hl; cbn [abs_run list_run]; [intros [= <- <- <-]; by exists s|].
  destruct (abs_exec o L M) as [[[L1 M1] r]|] eqn:E; [|done]. cbn [mbind option_bind]. destruct (step_ok o s L M L1 M1 r Hr Hl E) as (s1 & -> & Hr1 & Hl1). cbn [mbind option_bind].
  destruct (abs_run ops L1 M1) as [[[L2 M2] rs']|] eqn:E2; [|done]. cbn [mbind option_bind]. intros [= <- <- <-]. destruct (IH s1 L1 M1 L2 M2 rs' Hr1 Hl1 E2) as (s2 & -> & Hr2 & Hl2). by exists s2.
Qed.

(** C35: whatever channels a program opens, uses and drops, the linked list of the opened channels is well formed and
    holds exactly the channels that the program manages and that are not freed: a
    channel is freed when its last owner is finalised and it has no unwritten output, so that the list of the output
    channels, with which a program flushes them at exit, holds every channel with unwritten data. *)
Theorem channel_list_refines ops L M rs : abs_run ops [] ∅ = Some (L, M, rs) ->
  exists s, list_run ops (mkchans ∅ 0) = Some (s, rs) /\ rep s L M /\
    forall a c, M !! a = Some c -> managed c = true -> unwritten c = true -> exists s', caml_ml_out_channels_list s = Some (s', filter (fun a => is_out M a = true) L) /\ a ∈ filter (fun a => is_out M a = true) L.
Proof.
  intros E. destruct (list_run_ok ops (mkchans ∅ 0) [] ∅ L M rs) as (s & Hs & Hr & Hl); [|intros x; rewrite lookup_empty; set_solver|done|].
  - split; cbn; [by exists 0|constructor|apply fmap_empty].
  - exists s. split; [done|]. split; [done|]. intros a c Ea Hm Hu. destruct (out_list_ok s L M Hr) as (s' & Eo & _). exists s'. split; [done|].
    apply list_elem_of_filter. split; [|apply Hl; by exists c]. unfold is_out. rewrite Ea. by apply andb_true_iff in Hu as [Hu _].
Qed.
Definition ex_chan (m : option Z) (k : Z) : channel := mkchannel 3 0 k m false 0 0 0 0 [1; 2; 3; 4] None.
Definition ex_opened (m : option Z) (k : Z) : channel := set_flags CHANNEL_FLAG_MANAGED_BY_GC (ex_chan m k).
Definition ex_list_ops : list list_op :=
  [Open 100 (ex_chan None 0) 0; Open 200 (ex_chan (Some 0) 0) 0; Open 300 (ex_chan None 0) 0; Use 300 (set_refcount 1 (ex_opened None 2)); Finalise 200; Finalise 300; Out_list; Finalise 100; Finalise 100; Out_list].
Lemma channel_list_refines_witness : exists s, list_run ex_list_ops (mkchans ∅ 0) = Some (s, [[]; []; []; []; []; []; [300; 100]; []; []; [300]]).
Proof.
  destruct (abs_run ex_list_ops [] ∅) as [[[L M] rs]|] eqn:E; [|vm_compute in E; discriminate E].
  destruct (channel_list_refines ex_list_ops L M rs E) as (s & Hs & _). exists s. rewrite Hs. do 2 f_equal. vm_compute in E. injection E as _ _ <-. reflexivity.
Defined.
End ChannelList.
