(* ===== verification/DigestChannel.v ===== *)
(** * The digest of a channel (caml_md5_channel of runtime/md5.c)

    The digest of a file read through a channel: the composition of the
    contexts of [Digest] and of the input channels of [Channels]. *)

From S2P Require Import Prelude Memory Digest Channels ChannelProps.
From stdpp Require Import list.
#[local] Open Scope Z_scope.
Import Digest Channels ChannelProps.

Module DigestChannel.
Section digest.
Context `{Act : Actions}.

Definition BUFFER : Z := 4096.
(** [while (1)]: to the end of the file. *)
Fixpoint md5_all_loop (n : nat) (ctx : MD5Context) : io MD5Context :=
  match n with
  | O => stuck
  | S n =>
      read ← caml_getblock BUFFER;
      match read with
      | [] => mret ctx
      | _ => md5_all_loop n (caml_MD5Update ctx read)
      end
  end.
(** [while (toread > 0)] *)
Fixpoint md5_count_loop (n : nat) (toread : Z) (ctx : MD5Context) : io MD5Context :=
  match n with
  | O => stuck
  | S n =>
      if 0 <? toread then
        read ← caml_getblock (if BUFFER <? toread then BUFFER else toread);
        match read with
        | [] => raise End_of_file
        | _ => md5_count_loop n (toread - Z.of_nat (length read)) (caml_MD5Update ctx read)
        end
      else mret ctx
  end.
(** The result is the string of sixteen bytes. *)
Definition caml_md5_channel (junk : list Z) (toread : Z) : io (list Z) :=
  caml_channel_lock;;
  let ctx := caml_MD5Init junk in
  ctx ← (if toread <? 0 then md5_all_loop fuel ctx else md5_count_loop fuel toread ctx);
  let res := (caml_MD5Final ctx).1 in
  caml_channel_unlock;;
  mret res.
Definition caml_md5_chan (junk : list Z) (len : Z) : io (list Z) := caml_md5_channel junk (Long_val len).

(** ** Correctness *)

Context (d : Z) `{!FileLaws d} (F : list Z) (p : Z).
(** The context holds the bytes from [p] to [p + k]. *)
Definition digest_inv (k : Z) (ctx : MD5Context) (c : channel) (x : world) : Prop :=
  0 <= k /\ Z.of_nat (length (slice p (p + k) F)) = k /\ md5_repr ctx (slice p (p + k) F) /\ at_pos d F (p + k) c x.
Lemma digest_more k ctx bs a a' len c x : 0 <= p -> 0 <= k /\ Z.of_nat (length (slice p (p + k) F)) = k /\ md5_repr ctx (slice p (p + k) F) -> bs <> [] ->
  block_read F (p + k) a len bs a' -> in_inv d F (p + k + Z.of_nat (length bs)) a' c x -> digest_inv (k + Z.of_nat (length bs)) (caml_MD5Update ctx bs) c x.
Proof.
  intros Hp (Hk & Hl & Hr) Hne (Ebs & _) Hi. set (n := Z.of_nat (length bs)) in *. assert (slice p (p + (k + n)) F = slice p (p + k) F ++ bs) as E.
  { rewrite Ebs. symmetry. apply slice_app; lia. }
  split; [lia|]. rewrite E, length_app. split; [lia|]. split; [by apply md5_update|]. exists a'. by rewrite Z.add_assoc.
Qed.
Lemma op_exists_pre {A} n k ctx (m : io A) Q E : (forall a, op d n (fun c x => (0 <= k /\ Z.of_nat (length (slice p (p + k) F)) = k /\ md5_repr ctx (slice p (p + k) F)) /\ in_inv d F (p + k) a c x) m Q E) -> op d n (digest_inv k ctx) m Q E.
Proof. intros Hm s (Hk & Hl & Hr & a & Hi). apply (Hm a s). by split_and!. Qed.
(** The bytes of a context are in the file. *)
Lemma digest_bound k : 0 <= p -> 0 < k -> Z.of_nat (length (slice p (p + k) F)) = k -> p + k <= Z.of_nat (length F).
Proof. intros Hp Hk. unfold slice. rewrite length_take, length_drop. lia. Qed.
Definition digest_exn (e : exn) (c : channel) (x : world) : Prop := e <> End_of_file /\ exists k, 0 <= k /\ at_pos d F (p + k) c x.
(** One block. *)
Lemma op_block k ctx len a n : 0 <= len -> n = fuel ->
  op d fuel (fun c x => (0 <= k /\ Z.of_nat (length (slice p (p + k) F)) = k /\ md5_repr ctx (slice p (p + k) F)) /\ in_inv d F (p + k) a c x) (caml_getblock len)
    (fun bs c x => (0 <= k /\ Z.of_nat (length (slice p (p + k) F)) = k /\ md5_repr ctx (slice p (p + k) F)) /\ exists a', block_read F (p + k) a len bs a' /\ in_inv d F (p + k + Z.of_nat (length bs)) a' c x) digest_exn.
Proof.
  intros Hlen ->. apply op_pure. intros Hk. eapply op_conseq; [apply (getblock_ok d F (p + k) a len fuel Hlen)|done|done|..]; cbn beta.
  - intros bs c x Hx. by split.
  - intros e c x [Hi He]. split; [done|]. exists k. split; [lia|by exists a].
Qed.
Lemma md5_all_ok m : forall k ctx, 0 <= p -> Z.max (Z.of_nat (length F)) (p + k) < p + k + Z.of_nat m -> op d fuel (digest_inv k ctx) (md5_all_loop m ctx)
  (fun ctx c x => exists k, Z.of_nat (length F) <= p + k /\ digest_inv k ctx c x) digest_exn.
Proof.
  induction m as [|m IH]; intros k ctx Hp Hm; cbn [md5_all_loop]; [lia|]. apply op_exists_pre. intros a. eapply op_bind; [by eapply (op_block k ctx BUFFER a)|]. intros [|b bs].
  - apply op_ret. intros c x ((Hk & Hl & Hr) & a' & (_ & _ & Hz & _) & Hi). exists k. cbn in Hz, Hi. rewrite Z.add_0_r in Hi. split; [destruct Hz as [|]; done|]. split_and!; try done. by exists a'.
  - set (t := b :: bs). assert (1 <= Z.of_nat (length t)) as Ht by (unfold t; cbn; lia).
    destruct (decide (Z.max (Z.of_nat (length F)) (p + (k + Z.of_nat (length t))) < p + (k + Z.of_nat (length t)) + Z.of_nat m)) as [Hm'|Hm'].
    + eapply op_pre; [|by apply (IH (k + Z.of_nat (length t)) (caml_MD5Update ctx t))]. intros c x (Hk & a' & Hb & Hi). by apply (digest_more k ctx t a a' BUFFER).
    + apply op_False. intros c x (Hk & a' & Hb & Hi). assert (digest_inv (k + Z.of_nat (length t)) (caml_MD5Update ctx t) c x) as (Hk' & Hl' & _) by (by apply (digest_more k ctx t a a' BUFFER)).
      apply digest_bound in Hl'; lia.
Qed.
Lemma md5_count_ok len m : forall k ctx, 0 <= p -> 0 <= len - k < Z.of_nat m -> op d fuel (digest_inv k ctx) (md5_count_loop m (len - k) ctx)
  (fun ctx c x => digest_inv len ctx c x)
  (fun e c x => (e = End_of_file -> Z.of_nat (length F) < p + len) /\ exists k, 0 <= k /\ at_pos d F (p + k) c x).
Proof.
  induction m as [|m IH]; intros k ctx Hp Hm; cbn [md5_count_loop]; [lia|]. destruct (Z.ltb_spec 0 (len - k)) as [Hk0|Hk0].
  2: { apply op_ret. intros c x Hx. by replace len with k by lia. }
  set (want := if BUFFER <? len - k then BUFFER else len - k). assert (0 < want <= len - k) as Hw by (unfold want, BUFFER; destruct (Z.ltb_spec 4096 (len - k)); lia).
  apply op_exists_pre. intros a. eapply op_bind; [eapply op_conseq; [apply (op_block k ctx want a fuel); [lia|done]|done|done|intros bs c x Hx; exact Hx|]|].
  { cbn. intros e c x [He Hx]. split; [done|done]. }
  intros [|b bs].
  - apply op_raise. intros c x ((Hk & Hl & Hr) & a' & (_ & _ & Hz & _) & Hi). cbn in Hz, Hi. split; [intros _; destruct (Hz eq_refl); lia|]. exists k. split; [done|]. rewrite Z.add_0_r in Hi. exists a'. by apply (in_stable _ _ _ _ _ x), same_refl.
  - set (t := b :: bs). assert (1 <= Z.of_nat (length t)) as Ht by (unfold t; cbn; lia). destruct (decide (Z.of_nat (length t) <= want)) as [Hle|]; [|apply op_False; by intros c x (_ & a' & (_ & ? & _) & _)].
    replace (len - k - Z.of_nat (length t)) with (len - (k + Z.of_nat (length t))) by lia. eapply op_pre; [|apply (IH (k + Z.of_nat (length t)) (caml_MD5Update ctx t)); lia].
    intros c x (Hk & a' & Hb & Hi). by apply (digest_more k ctx t a a' want).
Qed.
Lemma digest_start junk c x : length junk = 64%nat -> 0 <= p -> at_pos d F p c x -> digest_inv 0 (caml_MD5Init junk) c x.
Proof. intros Hj Hp Hx. unfold digest_inv. rewrite Z.add_0_r. assert (slice p p F = []) as -> by (unfold slice; by rewrite Z.sub_diag). split; [done|]. split; [done|]. split; [by apply md5_init|done]. Qed.
Lemma digest_stable k ctx : stable d (digest_inv k ctx).
Proof. intros c x x' b (Hk & Hl & Hr & Hi) Hs. split_and!; try done. by apply (at_stable d F (p + k) _ x). Qed.

(** C37: the digest of a channel on a regular file, from its position: that of
    the rest of the file, or of the next [toread] bytes of it, whatever the sizes of
    the blocks that the channel returns; End_of_file is raised only when fewer bytes are left.  The
    channel is unlocked in every case. *)
Theorem md5_channel_correct junk toread s : length junk = 64%nat -> at_pos d F p (ch s) (w s) -> mutex (ch s) = false -> last_locked s = false -> (interrupts (w s) < fuel)%nat ->
  Z.of_nat (length F) + 1 < Z.of_nat fuel -> toread < Z.of_nat fuel ->
  let '(r, s') := caml_md5_channel junk toread s in mutex (ch s') = false /\
  match r with
  | Val digest =>
      if toread <? 0 then digest = rfc_md5 (drop (Z.to_nat p) F) /\ exists k, Z.of_nat (length F) <= p + k /\ at_pos d F (p + k) (ch s') (w s')
      else digest = rfc_md5 (slice p (p + toread) F) /\ Z.of_nat (length (slice p (p + toread) F)) = toread /\ at_pos d F (p + toread) (ch s') (w s')
  | Exn e => e = End_of_file -> 0 <= toread /\ Z.of_nat (length F) < p + toread
  | Stuck => False
  end.
Proof.
  intros Hj Hs Hm Hl Hn Hf Ht. assert (0 <= p) as Hp by (by eapply at_nonneg). assert (caml_md5_channel junk toread s = (ctx ← locked (if toread <? 0 then md5_all_loop fuel (caml_MD5Init junk) else md5_count_loop fuel toread (caml_MD5Init junk)); mret (caml_MD5Final ctx).1) s) as ->.
  { unfold caml_md5_channel, locked, mbind, io_bind. destruct (caml_channel_lock s) as [[[]|e|] s1]; try done. by destruct (toread <? 0); [destruct (md5_all_loop _ _ s1) as [[ctx|e|] s2]|destruct (md5_count_loop _ _ _ s1) as [[ctx|e|] s2]]. }
  match goal with |- let '(r, s') := ?m s in @?P r s' => assert (wp m s P) as Hw; [|unfold wp in Hw; destruct (m s) as [[v|e|] s']; done] end.
  apply wp_map. destruct (Z.ltb_spec toread 0) as [Hneg|Hpos].
  - eapply wp_mono; [|eapply (locked_ok d (at_pos d F p) _ (fun ctx c x => exists k, Z.of_nat (length F) <= p + k /\ digest_inv k ctx c x) digest_exn s (at_stable d F p)); [| |done|done|done]].
    + cbn beta. intros r s' (_ & [Hm' _] & Hr). destruct r as [ctx|e|]; [|split; [done|]; intros ->; by destruct Hr|done]. destruct Hr as (k & Hk & (Hk0 & _ & Hr & Hi)). split; [done|]. split; [|by exists k].
      rewrite (md5_final _ _ Hr). cbn [fst]. f_equal. unfold slice. rewrite take_ge; [done|]. rewrite length_drop. lia.
    + intros ctx c x x' b (k & Hk & Hx) Hsame. exists k. split; [done|]. by apply (digest_stable k ctx _ x).
    + eapply op_pre; [|apply (md5_all_ok fuel 0 (caml_MD5Init junk) Hp); lia]. intros c x Hx. by apply digest_start.
  - eapply wp_mono; [|eapply (locked_ok d (at_pos d F p) _ (digest_inv toread) (fun e c x => (e = End_of_file -> Z.of_nat (length F) < p + toread) /\ exists k, 0 <= k /\ at_pos d F (p + k) c x) s (at_stable d F p)); [| |done|done|done]].
    + cbn beta. intros r s' (_ & [Hm' _] & Hr). destruct r as [ctx|e|]; [|split; [done|]; intros He; destruct Hr as [Hr _]; by specialize (Hr He)|done]. destruct Hr as (Hk0 & Hl' & Hr & Hi). split; [done|].
      by rewrite (md5_final _ _ Hr).
    + intros ctx. apply digest_stable.
    + replace toread with (toread - 0) at 1 by lia. eapply op_pre; [|apply (md5_count_ok toread fuel 0 (caml_MD5Init junk) Hp); lia]. intros c x Hx. by apply digest_start.
Qed.
End digest.
Import Mem.
Definition ex_state : @st mem_os := mkst _ (caml_open_descriptor_in [7; 7; 7; 7] 3 ex_world).1 ex_world false.
Lemma md5_channel_correct_witness :
  let '(r, s') := caml_md5_channel (replicate 64 7) (-1) ex_state in mutex (ch s') = false /\
  match r with
  | Val digest => digest = rfc_md5 [104; 101; 108; 108; 111; 10; 119]
  | _ => False
  end.
Proof.
  assert (at_pos 3 (mfile ex_world) 0 (ch ex_state) (w ex_state)) as Hs.
  { exists 0. split; try (vm_compute; (done || intuition congruence)). intros i Hi. change (0 <= i < 0) in Hi. lia. }
  assert (interrupts (w ex_state) < fuel)%nat as Hn by (apply Nat.ltb_lt; vm_compute; reflexivity).
  assert (Z.of_nat (length (mfile ex_world)) + 1 < Z.of_nat (@fuel mem_os)) as Hf by (vm_compute; reflexivity).
  assert (-1 < Z.of_nat (@fuel mem_os)) as Ht by (vm_compute; reflexivity).
  pose proof (md5_channel_correct 3 (mfile ex_world) 0 (replicate 64 7) (-1) ex_state eq_refl Hs eq_refl eq_refl Hn Hf Ht) as H.
  assert (match (caml_md5_channel (replicate 64 7) (-1) ex_state).1 with Val _ => True | _ => False end) as Hv by (vm_compute; exact I).
  destruct (caml_md5_channel (replicate 64 7) (-1) ex_state) as [[v|e|] s']; [|destruct Hv|destruct Hv]. destruct H as [H1 [H2 _]]. split; [exact H1|exact H2].
Defined.
End DigestChannel.
