(* ===== verification/PoolHeap.v ===== *)
(** * The shared heap (runtime/shared_heap.c, heap_stats of runtime/gc_stats.c)

    The allocator of the major heap.  Small blocks live in pools, areas of
    4096 words cut into slots of one size class; a slot is free when its header
    is zero, and the free slots of a pool are linked through their second word.
    Larger blocks are allocated one by one.  Every domain has lists of pools
    that are already swept in the current cycle and lists that are not; pools
    of terminated domains and empty pools are in lists shared by all domains.

    Memory is a map from byte addresses to words (as [uintnat]); the words of a
    pool or of a large block are in the map from the time the system hands them
    over until they are given back, so that an access after that is undefined.
    The headers of pools and large blocks ([struct pool], [struct large_alloc])
    are kept apart from the words.  An assertion that fails is undefined
    behaviour.  The critical sections of [pool_freelist.lock] are atomic. *)

From S2P Require Import Prelude Memory.
From stdpp Require Import list functions gmap.
#[local] Open Scope Z_scope.

Module PoolHeap.

(** ** Size classes (caml/sizeclasses.h) *)

Definition POOL_WSIZE : Z := 4096.
Definition POOL_HEADER_WSIZE : Z := 4.
Definition SIZECLASS_MAX : Z := 128.
Definition NUM_SIZECLASSES : Z := 32.
Definition wsize_sizeclass_table : list Z :=
  [1; 2; 3; 4; 5; 6; 7; 8; 10; 12; 14; 16; 17; 19; 22; 25; 28; 32; 33; 37; 42;
   47; 53; 59; 65; 73; 81; 89; 99; 108; 118; 128].
Definition wastage_sizeclass_table : list Z :=
  [0; 0; 0; 0; 2; 0; 4; 4; 2; 0; 4; 12; 12; 7; 0; 17; 4; 28; 0; 22; 18; 3; 11;
   21; 62; 4; 42; 87; 33; 96; 80; 124].
Definition sizeclass_wsize_table : list Z :=
  [255; 0; 1; 2; 3; 4; 5; 6; 7; 8; 8; 9; 9; 10; 10; 11; 11; 12; 13; 13; 14;
   14; 14; 15; 15; 15; 16; 16; 16; 17; 17; 17; 17; 18; 19; 19; 19; 19; 20; 20;
   20; 20; 20; 21; 21; 21; 21; 21; 22; 22; 22; 22; 22; 22; 23; 23; 23; 23; 23;
   23; 24; 24; 24; 24; 24; 24; 25; 25; 25; 25; 25; 25; 25; 25; 26; 26; 26; 26;
   26; 26; 26; 26; 27; 27; 27; 27; 27; 27; 27; 27; 28; 28; 28; 28; 28; 28; 28;
   28; 28; 28; 29; 29; 29; 29; 29; 29; 29; 29; 29; 30; 30; 30; 30; 30; 30; 30;
   30; 30; 30; 31; 31; 31; 31; 31; 31; 31; 31; 31; 31].
Definition wsize_sizeclass (i : Z) : Z := nth (Z.to_nat i) wsize_sizeclass_table 0.
Definition wastage_sizeclass (i : Z) : Z := nth (Z.to_nat i) wastage_sizeclass_table 0.
Definition sizeclass_wsize (w : Z) : Z := nth (Z.to_nat w) sizeclass_wsize_table 0.

Definition POOL_SLAB_WOFFSET (sz : Z) : Z := POOL_HEADER_WSIZE + wastage_sizeclass sz.
Definition POOL_FIRST_BLOCK (p sz : Z) : Z := p + 8 * POOL_SLAB_WOFFSET sz.
Definition POOL_END (p : Z) : Z := p + 8 * POOL_WSIZE.
Definition LARGE_ALLOC_HEADER_SZ : Z := 16.

Definition Whsize_hd (hd : Z) : Z := Whsize_wosize (Wosize_hd hd).
Definition Has_status_hd (hd s : Z) : bool := Color_hd hd =? s.

(** ** The system *)

(** [caml_mem_map], [malloc], [caml_stat_alloc_noexc] return the null pointer
    when they fail; [junk] is what fresh memory holds; [finalize] says which
    tables of custom operations have a finaliser; [verify_heap] is the
    parameter of the program of that name. *)
Class OS := {
  world : Type;
  caml_mem_map : Z -> world -> Z * world;
  caml_mem_unmap : Z -> Z -> world -> world;
  malloc : Z -> world -> Z * world;
  free_large : Z -> world -> world;
  caml_stat_alloc_noexc : Z -> world -> bool * world;
  caml_stat_free : world -> world;
  junk : world -> Z -> Z;
  finalize : Z -> bool;
  verify_heap : bool;
}.

(** ** The state *)

(** The names of the variables of type [pool*]: a [pool**] of the code is one
    of them.  A local heap is named by its domain. *)
Inductive plist :=
| freelist
| global_avail_pools (sz : Z)
| global_full_pools (sz : Z)
| avail_pools (d sz : Z)
| full_pools (d sz : Z)
| unswept_avail_pools (d sz : Z)
| unswept_full_pools (d sz : Z).
#[export] Instance plist_eq_dec : EqDecision plist.
Proof. solve_decision. Defined.
(** The variables of type [large_alloc*]. *)
Inductive llist :=
| global_large
| swept_large (d : Z)
| unswept_large (d : Z).
#[export] Instance llist_eq_dec : EqDecision llist.
Proof. solve_decision. Defined.

Record pool := mkpool { next : Z; next_obj : Z; owner : option Z; sz : Z }.
Record large_alloc := mklarge { l_owner : option Z; l_next : Z }.
Record heap_stats := mkstats {
  pool_words : Z; pool_max_words : Z; pool_live_words : Z; pool_live_blocks : Z; pool_frag_words : Z;
  large_words : Z; large_max_words : Z; large_blocks : Z;
}.
Record global_heap_state := mkcolors { MARKED : Z; UNMARKED : Z; GARBAGE : Z }.

Definition no_stats : heap_stats := mkstats 0 0 0 0 0 0 0 0.
Definition initial_colors : global_heap_state := mkcolors (Z.shiftl 0 8) (Z.shiftl 1 8) (Z.shiftl 2 8).

Section heap.
Context `{Os : OS}.

(** [stats None] is [pool_freelist.stats], [stats (Some d)] those of the heap of
    domain [d]; [heaps] are the domains whose heap is allocated; [swept_words]
    and [work_done] are [swept_words] and [major_work_done_between_slices] of
    the domains; [finalised] the blocks passed to their custom finaliser. *)
Record state := mkstate {
  mem : gmap Z Z;
  pools : gmap Z pool;
  larges : gmap Z large_alloc;
  heads : plist -> Z;
  lheads : llist -> Z;
  heaps : gset Z;
  next_to_sweep : Z -> Z;
  stats : option Z -> heap_stats;
  swept_words : Z -> Z;
  work_done : Z -> Z;
  colors : global_heap_state;
  system : world;
  finalised : list Z;
}.
Definition set_mem (m : gmap Z Z) (s : state) : state :=
  mkstate m (pools s) (larges s) (heads s) (lheads s) (heaps s) (next_to_sweep s) (stats s) (swept_words s) (work_done s) (colors s) (system s) (finalised s).
Definition set_pools (x : gmap Z pool) (s : state) : state :=
  mkstate (mem s) x (larges s) (heads s) (lheads s) (heaps s) (next_to_sweep s) (stats s) (swept_words s) (work_done s) (colors s) (system s) (finalised s).
Definition set_larges (x : gmap Z large_alloc) (s : state) : state :=
  mkstate (mem s) (pools s) x (heads s) (lheads s) (heaps s) (next_to_sweep s) (stats s) (swept_words s) (work_done s) (colors s) (system s) (finalised s).
Definition set_head (pl : plist) (a : Z) (s : state) : state :=
  mkstate (mem s) (pools s) (larges s) (<[pl := a]> (heads s)) (lheads s) (heaps s) (next_to_sweep s) (stats s) (swept_words s) (work_done s) (colors s) (system s) (finalised s).
Definition set_lhead (l : llist) (a : Z) (s : state) : state :=
  mkstate (mem s) (pools s) (larges s) (heads s) (<[l := a]> (lheads s)) (heaps s) (next_to_sweep s) (stats s) (swept_words s) (work_done s) (colors s) (system s) (finalised s).
Definition set_heaps (x : gset Z) (s : state) : state :=
  mkstate (mem s) (pools s) (larges s) (heads s) (lheads s) x (next_to_sweep s) (stats s) (swept_words s) (work_done s) (colors s) (system s) (finalised s).
Definition set_next_to_sweep (d : Z) (i : Z) (s : state) : state :=
  mkstate (mem s) (pools s) (larges s) (heads s) (lheads s) (heaps s) (<[d := i]> (next_to_sweep s)) (stats s) (swept_words s) (work_done s) (colors s) (system s) (finalised s).
Definition set_stats (k : option Z) (x : heap_stats) (s : state) : state :=
  mkstate (mem s) (pools s) (larges s) (heads s) (lheads s) (heaps s) (next_to_sweep s) (<[k := x]> (stats s)) (swept_words s) (work_done s) (colors s) (system s) (finalised s).
Definition add_swept_words (d : Z) (n : Z) (s : state) : state :=
  mkstate (mem s) (pools s) (larges s) (heads s) (lheads s) (heaps s) (next_to_sweep s) (stats s) (<[d := u64 (swept_words s d + n)]> (swept_words s)) (work_done s) (colors s) (system s) (finalised s).
Definition add_work_done (d : Z) (n : Z) (s : state) : state :=
  mkstate (mem s) (pools s) (larges s) (heads s) (lheads s) (heaps s) (next_to_sweep s) (stats s) (swept_words s) (<[d := s64 (work_done s d + n)]> (work_done s)) (colors s) (system s) (finalised s).
Definition set_colors (c : global_heap_state) (s : state) : state :=
  mkstate (mem s) (pools s) (larges s) (heads s) (lheads s) (heaps s) (next_to_sweep s) (stats s) (swept_words s) (work_done s) c (system s) (finalised s).
Definition set_system (w : world) (s : state) : state :=
  mkstate (mem s) (pools s) (larges s) (heads s) (lheads s) (heaps s) (next_to_sweep s) (stats s) (swept_words s) (work_done s) (colors s) w (finalised s).
Definition log_finalised (v : Z) (s : state) : state :=
  mkstate (mem s) (pools s) (larges s) (heads s) (lheads s) (heaps s) (next_to_sweep s) (stats s) (swept_words s) (work_done s) (colors s) (system s) (finalised s ++ [v]).

Definition load (s : state) (a : Z) : result Z := of_option (mem s !! a).
Definition store (a w : Z) (s : state) : result state :=
  match mem s !! a with Some _ => Ret (set_mem (<[a := w]> (mem s)) s) | None => Undef end.
Definition get_pool (s : state) (a : Z) : result pool := of_option (pools s !! a).
Definition put_pool (a : Z) (p : pool) (s : state) : state := set_pools (<[a := p]> (pools s)) s.
Definition get_large (s : state) (a : Z) : result large_alloc := of_option (larges s !! a).
Definition put_large (a : Z) (p : large_alloc) (s : state) : state := set_larges (<[a := p]> (larges s)) s.
Definition set_next (x : Z) (p : pool) : pool := mkpool x (next_obj p) (owner p) (sz p).
Definition set_next_obj (x : Z) (p : pool) : pool := mkpool (next p) x (owner p) (sz p).
Definition set_owner (x : option Z) (p : pool) : pool := mkpool (next p) (next_obj p) x (sz p).
Definition CAMLassert (b : bool) : result unit := if b then Ret () else Undef.
(** [n] fresh words at [a], and words given back. *)
Fixpoint map_words (w : world) (a : Z) (n : nat) (m : gmap Z Z) : gmap Z Z :=
  match n with O => m | S n => <[a := junk w a]> (map_words w (a + 8) n m) end.
Fixpoint unmap_words (a : Z) (n : nat) (m : gmap Z Z) : gmap Z Z :=
  match n with O => m | S n => delete a (unmap_words (a + 8) n m) end.
Definition blank : pool := mkpool 0 0 None 0.

(** ** Statistics *)

Definition intnat_max (a b : Z) : Z := if b <? a then a else b.
Definition caml_accum_heap_stats (acc h : heap_stats) : heap_stats :=
  let pw := s64 (pool_words acc + pool_words h) in
  let lw := s64 (large_words acc + large_words h) in
  mkstats pw (intnat_max (intnat_max (pool_max_words acc) pw) (pool_max_words h))
    (s64 (pool_live_words acc + pool_live_words h)) (s64 (pool_live_blocks acc + pool_live_blocks h))
    (s64 (pool_frag_words acc + pool_frag_words h))
    lw (intnat_max (intnat_max (large_max_words acc) lw) (large_max_words h)) (s64 (large_blocks acc + large_blocks h)).
Definition caml_remove_heap_stats (acc h : heap_stats) : heap_stats :=
  mkstats (s64 (pool_words acc - pool_words h)) (pool_max_words acc)
    (s64 (pool_live_words acc - pool_live_words h)) (s64 (pool_live_blocks acc - pool_live_blocks h))
    (s64 (pool_frag_words acc - pool_frag_words h))
    (s64 (large_words acc - large_words h)) (large_max_words acc) (s64 (large_blocks acc - large_blocks h)).
(** Updates of the counters of pools: words, live words, live blocks and
    fragmentation. *)
Definition add_pool_stats (pw plw plb pf : Z) (h : heap_stats) : heap_stats :=
  mkstats (s64 (pool_words h + pw)) (pool_max_words h) (s64 (pool_live_words h + plw)) (s64 (pool_live_blocks h + plb))
    (s64 (pool_frag_words h + pf)) (large_words h) (large_max_words h) (large_blocks h).
Definition add_large_stats (lw lb : Z) (h : heap_stats) : heap_stats :=
  mkstats (pool_words h) (pool_max_words h) (pool_live_words h) (pool_live_blocks h) (pool_frag_words h)
    (s64 (large_words h + lw)) (large_max_words h) (s64 (large_blocks h + lb)).
Definition bump_pool_max (h : heap_stats) : heap_stats :=
  if pool_max_words h <? pool_words h
  then mkstats (pool_words h) (pool_words h) (pool_live_words h) (pool_live_blocks h) (pool_frag_words h)
         (large_words h) (large_max_words h) (large_blocks h)
  else h.
Definition bump_large_max (h : heap_stats) : heap_stats :=
  if large_max_words h <? large_words h
  then mkstats (pool_words h) (pool_max_words h) (pool_live_words h) (pool_live_blocks h) (pool_frag_words h)
         (large_words h) (large_words h) (large_blocks h)
  else h.
Definition update_stats (k : option Z) (f : heap_stats -> heap_stats) (s : state) : state := set_stats k (f (stats s k)) s.

(** [while (p + wh <= end) { ...; p += wh; }]: the blocks of a pool.  The
    result is the last [p] with what the loop computes. *)
Fixpoint blocks_loop {A} (n : nat) (wh end_ : Z) (body : Z -> A -> result A) (p : Z) (x : A) : result (Z * A) :=
  match n with
  | O => NoFuel
  | S n => if p + 8 * wh <=? end_ then x ← body p x; blocks_loop n wh end_ body (p + 8 * wh) x else Ret (p, x)
  end.
Definition block_fuel : nat := Z.to_nat POOL_WSIZE.
(** A list of pools or of large blocks is no longer than their number. *)
Definition list_fuel (s : state) : nat := S (size (pools s)).
Definition llist_fuel (s : state) : nat := S (size (larges s)).

Definition calc_block_stats (s : state) (wh p : Z) (h : heap_stats) : result heap_stats :=
  hd ← load s p;
  Ret (if hd =? 0 then h else add_pool_stats 0 (Whsize_hd hd) 1 (wh - Whsize_hd hd) h).
Definition calc_pool_stats (s : state) (a sz : Z) (h : heap_stats) : result heap_stats :=
  let p := POOL_FIRST_BLOCK a sz in
  let end_ := POOL_END a in
  let wh := wsize_sizeclass sz in
  '(p, h) ← blocks_loop block_fuel wh end_ (calc_block_stats s wh) p (add_pool_stats 0 0 0 (POOL_SLAB_WOFFSET sz) h);
  _ ← CAMLassert (end_ =? p);
  Ret (add_pool_stats POOL_WSIZE 0 0 0 h).
Definition orphan_heap_stats_with_lock (d : Z) (s : state) : state :=
  set_stats (Some d) no_stats (update_stats None (fun h => caml_accum_heap_stats h (stats s (Some d))) s).
Definition adopt_pool_stats_with_lock (d r sz : Z) (s : state) : result state :=
  x ← calc_pool_stats s r sz no_stats;
  Ret (update_stats None (fun h => caml_remove_heap_stats h x) (update_stats (Some d) (fun h => caml_accum_heap_stats h x) s)).
Definition adopt_all_pool_stats_with_lock (d : Z) (s : state) : state :=
  set_stats None no_stats (update_stats (Some d) (fun h => caml_accum_heap_stats h (stats s None)) s).
Definition caml_collect_heap_stats_sample (d : Z) (s : state) : heap_stats := stats s (Some d).
Definition caml_accum_orphan_heap_stats (acc : heap_stats) (s : state) : heap_stats := caml_accum_heap_stats acc (stats s None).
Definition caml_heap_size (d : Z) (s : state) : Z := u64 (Bsize_wsize (pool_words (stats s (Some d)) + large_words (stats s (Some d)))).
Definition caml_top_heap_words (d : Z) (s : state) : Z := u64 (pool_max_words (stats s (Some d)) + large_max_words (stats s (Some d))).
Definition caml_heap_blocks (d : Z) (s : state) : Z := u64 (pool_live_blocks (stats s (Some d)) + large_blocks (stats s (Some d))).

(** ** The life of a local heap *)

Definition set_heads (f : plist -> Z) (s : state) : state :=
  mkstate (mem s) (pools s) (larges s) f (lheads s) (heaps s) (next_to_sweep s) (stats s) (swept_words s) (work_done s) (colors s) (system s) (finalised s).
(** The lists of a new heap are null. *)
Definition clear_heads (d : Z) (f : plist -> Z) (pl : plist) : Z :=
  match pl with
  | avail_pools e i | full_pools e i | unswept_avail_pools e i | unswept_full_pools e i =>
      if (e =? d) && (0 <=? i) && (i <? NUM_SIZECLASSES) then 0 else f pl
  | _ => f pl
  end.
Definition sizeof_heap_state : Z := 1120.
Definition caml_init_shared_heap (d : Z) (s : state) : bool * state :=
  let '(ok, w) := caml_stat_alloc_noexc sizeof_heap_state (system s) in
  let s := set_system w s in
  if ok then
    (true, set_stats (Some d) no_stats (set_lhead (unswept_large d) 0 (set_lhead (swept_large d) 0
      (set_next_to_sweep d 0 (set_heads (clear_heads d (heads s)) (set_heaps ({[d]} ∪ heaps s) s))))))
  else (false, s).

Fixpoint move_all_pools_loop (n : nat) (src dst : plist) (new_owner : option Z) (count : Z) (s : state) : result (Z * state) :=
  match n with
  | O => NoFuel
  | S n =>
      let p := heads s src in
      if p =? 0 then Ret (count, s) else
      q ← get_pool s p;
      let s := set_head src (next q) s in
      let s := put_pool p (set_next (heads s dst) (set_owner new_owner q)) s in
      move_all_pools_loop n src dst new_owner (count + 1) (set_head dst p s)
  end.
Definition move_all_pools (src dst : plist) (new_owner : option Z) (s : state) : result (Z * state) :=
  move_all_pools_loop (list_fuel s) src dst new_owner 0 s.

(** The same loop on large blocks; [caml_cycle_heap] sets the owner. *)
Fixpoint move_all_large (n : nat) (src dst : llist) (new_owner : option (option Z)) (count : Z) (s : state) : result (Z * state) :=
  match n with
  | O => NoFuel
  | S n =>
      let a := lheads s src in
      if a =? 0 then Ret (count, s) else
      q ← get_large s a;
      let s := set_lhead src (l_next q) s in
      let s := put_large a (mklarge (default (l_owner q) new_owner) (lheads s dst)) s in
      move_all_large n src dst new_owner (count + 1) (set_lhead dst a s)
  end.

(** [for (i = 0; i < NUM_SIZECLASSES; i++)] *)
Definition sizeclasses : list Z := seqZ 0 NUM_SIZECLASSES.
Fixpoint for_each {A} (l : list Z) (body : Z -> A -> result A) (x : A) : result A :=
  match l with [] => Ret x | i :: l => x ← body i x; for_each l body x end.

Definition teardown_class (d i : Z) (s : state) : result state :=
  '(_, s) ← move_all_pools (avail_pools d i) (global_avail_pools i) None s;
  '(_, s) ← move_all_pools (full_pools d i) (global_full_pools i) None s;
  _ ← CAMLassert (heads s (unswept_avail_pools d i) =? 0);
  _ ← CAMLassert (heads s (unswept_full_pools d i) =? 0);
  Ret s.
Definition caml_teardown_shared_heap (d : Z) (s : state) : result state :=
  _ ← CAMLassert (bool_decide (d ∈ heaps s));
  s ← for_each sizeclasses (teardown_class d) s;
  _ ← CAMLassert (lheads s (unswept_large d) =? 0);
  '(_, s) ← move_all_large (llist_fuel s) (swept_large d) global_large None 0 s;
  let s := orphan_heap_stats_with_lock d s in
  Ret (set_system (caml_stat_free (system s)) (set_heaps (heaps s ∖ {[d]}) s)).

(** ** Pools *)

(** The words of a pool after its header. *)
Definition pool_words_at (a : Z) : Z := a + 8 * POOL_HEADER_WSIZE.
Definition pool_slab : nat := Z.to_nat (POOL_WSIZE - POOL_HEADER_WSIZE).

Definition pool_acquire (s : state) : result (Z * state) :=
  s ← (if heads s freelist =? 0 then
         let '(r, w) := caml_mem_map (Bsize_wsize POOL_WSIZE) (system s) in
         let s := set_system w s in
         if r =? 0 then Ret s else
         let s := set_mem (map_words w (pool_words_at r) pool_slab (mem s)) s in
         let s := put_pool r (set_next (heads s freelist) blank) s in
         Ret (set_head freelist r s)
       else Ret s);
  let r := heads s freelist in
  if r =? 0 then Ret (0, s) else
  q ← get_pool s r;
  _ ← CAMLassert (bool_decide (owner q = None));
  Ret (r, set_head freelist (next q) s).
Definition pool_release (d a sz' : Z) (s : state) : result state :=
  q ← get_pool s a;
  let s := put_pool a (set_owner None q) s in
  _ ← CAMLassert (sz q =? sz');
  let s := update_stats (Some d) (add_pool_stats (- POOL_WSIZE) 0 0 (- (POOL_HEADER_WSIZE + wastage_sizeclass sz'))) s in
  let s := put_pool a (set_next (heads s freelist) (set_owner None q)) s in
  Ret (set_head freelist a s).
(** The compactor gives pools back to the system. *)
Definition pool_free (d a sz' : Z) (s : state) : result state :=
  q ← get_pool s a;
  _ ← CAMLassert (sz q =? sz');
  let s := update_stats (Some d) (add_pool_stats (- POOL_WSIZE) 0 0 (- (POOL_HEADER_WSIZE + wastage_sizeclass sz'))) s in
  let s := set_system (caml_mem_unmap a (Bsize_wsize POOL_WSIZE) (system s)) s in
  Ret (set_mem (unmap_words (pool_words_at a) pool_slab (mem s)) (set_pools (delete a (pools s)) s)).

Definition init_block (wh p : Z) (s : state) : result state :=
  s ← store p 0 s; store (p + 8) (p - 8 * wh) s.
Definition pool_initialize (r sz' : Z) (owner' : option Z) (s : state) : result state :=
  let wh := wsize_sizeclass sz' in
  let p := POOL_FIRST_BLOCK r sz' in
  let end_ := POOL_END r in
  let s := put_pool r (mkpool 0 0 owner' sz') s in
  s ← store p 0 s;
  s ← store (p + 8) 0 s;
  '(p, s) ← blocks_loop block_fuel wh end_ (init_block wh) (p + 8 * wh) s;
  _ ← CAMLassert (p =? end_);
  q ← get_pool s r;
  Ret (put_pool r (set_next_obj (p - 8 * wh) q) s).

(** ** Sweeping *)

(** [if (Tag_hd (hd) == Custom_tag) ... final_fun(Val_hp(p))] *)
Definition finalise_custom (hd p : Z) (s : state) : result state :=
  if Tag_hd hd =? Custom_tag then
    ops ← load s (p + 8);
    Ret (if finalize ops then log_finalised (p + 8) s else s)
  else Ret s.

Definition sweep_garbage (d a wh hd p : Z) (s : state) : result state :=
  _ ← CAMLassert (Whsize_hd hd <=? wh);
  s ← finalise_custom hd p s;
  s ← store p 0 s;
  q ← get_pool s a;
  s ← store (p + 8) (next_obj q) s;
  let s := put_pool a (set_next_obj p q) s in
  let s := update_stats (Some d) (add_pool_stats 0 (- Whsize_hd hd) (-1) (- (wh - Whsize_hd hd))) s in
  Ret (add_swept_words d (Whsize_hd hd) s).
(** What the loop of [pool_sweep] updates: the state, [all_used],
    [release_to_global_pool] and [work]. *)
Record sweeping := mksweep { sw_state : state; all_used : bool; release_to_global_pool : bool; work : Z }.
Definition sweep_block (d a wh p : Z) (x : sweeping) : result sweeping :=
  let s := sw_state x in
  hd ← load s p;
  x ← (if hd =? 0 then Ret (mksweep s false (release_to_global_pool x) (work x))
       else if Has_status_hd hd (GARBAGE (colors s)) then
         s ← sweep_garbage d a wh hd p s;
         Ret (mksweep s false (release_to_global_pool x) (work x))
       else Ret (mksweep s (all_used x) false (work x)));
  Ret (mksweep (sw_state x) (all_used x) (release_to_global_pool x) (work x + wh)).
Definition pool_sweep (d : Z) (plist' : plist) (sz' : Z) (release : bool) (s : state) : result (Z * state) :=
  let a := heads s plist' in
  if a =? 0 then Ret (0, s) else
  q ← get_pool s a;
  let s := set_head plist' (next q) s in
  let wh := wsize_sizeclass sz' in
  '(_, x) ← blocks_loop block_fuel wh (POOL_END a) (sweep_block d a wh) (POOL_FIRST_BLOCK a sz') (mksweep s true release 0);
  let s := sw_state x in
  s ← (if release_to_global_pool x then pool_release d a sz' s
       else
         let l := if all_used x then full_pools d sz' else avail_pools d sz' in
         q ← get_pool s a;
         Ret (set_head l a (put_pool a (set_next (heads s l) q) s)));
  Ret (work x, s).

(** ** Allocation *)

Definition pool_global_adopt (d sz' : Z) (s : state) : result (Z * state) :=
  if (heads s (global_avail_pools sz') =? 0) && (heads s (global_full_pools sz') =? 0) then Ret (0, s) else
  let r := heads s (global_avail_pools sz') in
  if negb (r =? 0) then
    q ← get_pool s r;
    let s := set_head (global_avail_pools sz') (next q) s in
    let s := put_pool r (set_next 0 q) s in
    let s := set_head (avail_pools d sz') r s in
    s ← adopt_pool_stats_with_lock d r sz' s;
    Ret (r, s)
  else
    let r := heads s (global_full_pools sz') in
    if negb (r =? 0) then
      q ← get_pool s r;
      let s := set_head (global_full_pools sz') (next q) s in
      let s := put_pool r (set_next (heads s (full_pools d sz')) q) s in
      let s := set_head (full_pools d sz') r s in
      s ← adopt_pool_stats_with_lock d r sz' s;
      '(n, s) ← pool_sweep d (full_pools d sz') sz' false s;
      let s := add_work_done d n s in
      Ret (heads s (avail_pools d sz'), s)
    else Ret (0, s).
Fixpoint find_loop (n : nat) (d sz' : Z) (s : state) : result state :=
  match n with
  | O => NoFuel
  | S n =>
      if (heads s (avail_pools d sz') =? 0) && negb (heads s (unswept_avail_pools d sz') =? 0) then
        '(w, s) ← pool_sweep d (unswept_avail_pools d sz') sz' false s;
        find_loop n d sz' (add_work_done d w s)
      else Ret s
  end.
Definition pool_find (d sz' : Z) (s : state) : result (Z * state) :=
  let r := heads s (avail_pools d sz') in
  if negb (r =? 0) then Ret (r, s) else
  s ← find_loop (list_fuel s) d sz' s;
  let r := heads s (avail_pools d sz') in
  if negb (r =? 0) then Ret (r, s) else
  '(r, s) ← pool_global_adopt d sz' s;
  if negb (r =? 0) then Ret (r, s) else
  '(r, s) ← pool_acquire s;
  if r =? 0 then Ret (0, s) else
  let s := update_stats (Some d) (fun h =>
    add_pool_stats 0 0 0 (POOL_HEADER_WSIZE + wastage_sizeclass sz') (bump_pool_max (add_pool_stats POOL_WSIZE 0 0 0 h))) s in
  let s := set_head (avail_pools d sz') r s in
  s ← pool_initialize r sz' (Some d) s;
  Ret (r, s).
Definition pool_allocate (d sz' : Z) (s : state) : result (Z * state) :=
  '(r, s) ← pool_find d sz' s;
  if r =? 0 then Ret (0, s) else
  q ← get_pool s r;
  let p := next_obj q in
  nxt ← load s (p + 8);
  let s := put_pool r (set_next_obj nxt q) s in
  hd ← load s p;
  _ ← CAMLassert (hd =? 0);
  let s :=
    if nxt =? 0 then
      let s := set_head (avail_pools d sz') (next q) s in
      let s := put_pool r (set_next (heads s (full_pools d sz')) (set_next_obj nxt q)) s in
      set_head (full_pools d sz') r s
    else s in
  _ ← (if nxt =? 0 then Ret () else hd ← load s nxt; CAMLassert (hd =? 0));
  Ret (p, s).
Definition large_allocate (d sz' : Z) (s : state) : result (Z * state) :=
  let '(a, w) := malloc (sz' + LARGE_ALLOC_HEADER_SZ) (system s) in
  let s := set_system w s in
  if a =? 0 then Ret (0, s) else
  let s := set_mem (map_words w (a + LARGE_ALLOC_HEADER_SZ) (Z.to_nat (sz' / 8)) (mem s)) s in
  let s := update_stats (Some d) (fun h => bump_large_max (add_large_stats ((sz' + LARGE_ALLOC_HEADER_SZ) / 8) 0 h)) s in
  let s := update_stats (Some d) (add_large_stats 0 1) s in
  let s := put_large a (mklarge (Some d) (lheads s (swept_large d))) s in
  let s := set_lhead (swept_large d) a s in
  Ret (a + LARGE_ALLOC_HEADER_SZ, s).
Definition caml_shared_try_alloc (d wosize tag : Z) (s : state) : result (Z * state) :=
  let whsize := Whsize_wosize wosize in
  _ ← CAMLassert (bool_decide (d ∈ heaps s));
  _ ← CAMLassert (0 <? wosize);
  _ ← CAMLassert (negb (tag =? Infix_tag));
  '(p, s) ←
    (if whsize <=? SIZECLASS_MAX then
       let sz' := sizeclass_wsize whsize in
       _ ← CAMLassert (whsize <=? wsize_sizeclass sz');
       '(p, s) ← pool_allocate d sz' s;
       if p =? 0 then Ret (0, s) else
       Ret (p, update_stats (Some d) (add_pool_stats 0 whsize 1 (wsize_sizeclass sz' - whsize)) s)
     else large_allocate d (Bsize_wsize whsize) s);
  if p =? 0 then Ret (0, s) else
  s ← store p (Make_header wosize tag (MARKED (colors s))) s;
  Ret (p, s).

(** ** Heap verification after sweeping *)

Record mem_stats := mkmem { m_alloced : Z; m_live : Z; m_free : Z; m_overhead : Z; m_live_blocks : Z }.
Definition no_mem_stats : mem_stats := mkmem 0 0 0 0 0.
Definition add_mem (al li fr ov lb : Z) (x : mem_stats) : mem_stats :=
  mkmem (u64 (m_alloced x + al)) (u64 (m_live x + li)) (u64 (m_free x + fr)) (u64 (m_overhead x + ov)) (u64 (m_live_blocks x + lb)).
(** [for (v = a->next_obj; v; v = (value * ) v[1]) CAMLassert ( *v == 0)]: a
    free list is no longer than a pool. *)
Fixpoint verify_free_list (n : nat) (s : state) (v : Z) : result unit :=
  match n with
  | O => NoFuel
  | S n =>
      if v =? 0 then Ret () else
      hd ← load s v;
      _ ← CAMLassert (hd =? 0);
      nxt ← load s (v + 8);
      verify_free_list n s nxt
  end.
Definition verify_block (s : state) (wh p : Z) (x : mem_stats) : result mem_stats :=
  hd ← load s p;
  _ ← CAMLassert ((hd =? 0) || negb (Has_status_hd hd (GARBAGE (colors s))));
  Ret (if hd =? 0 then add_mem 0 0 wh 0 0 x else add_mem 0 (Whsize_hd hd) 0 (wh - Whsize_hd hd) 1 x).
Definition verify_pool (s : state) (a sz' : Z) (x : mem_stats) : result mem_stats :=
  q ← get_pool s a;
  _ ← verify_free_list block_fuel s (next_obj q);
  let wh := wsize_sizeclass sz' in
  '(p, x) ← blocks_loop block_fuel wh (POOL_END a) (verify_block s wh) (POOL_FIRST_BLOCK a sz') (add_mem 0 0 0 (POOL_SLAB_WOFFSET sz') 0 x);
  _ ← CAMLassert (POOL_END a =? p);
  Ret (add_mem POOL_WSIZE 0 0 0 0 x).
(** [for (p = ...; p; p = p->next)] *)
Fixpoint verify_pools (n : nat) (s : state) (full : bool) (sz' p : Z) (x : mem_stats) : result mem_stats :=
  match n with
  | O => NoFuel
  | S n =>
      if p =? 0 then Ret x else
      q ← get_pool s p;
      _ ← CAMLassert (negb full || (next_obj q =? 0));
      x ← verify_pool s p sz' x;
      verify_pools n s full sz' (next q) x
  end.
Fixpoint verify_large (n : nat) (s : state) (a : Z) (x : mem_stats) : result mem_stats :=
  match n with
  | O => NoFuel
  | S n =>
      if a =? 0 then Ret x else
      q ← get_large s a;
      hd ← load s (a + LARGE_ALLOC_HEADER_SZ);
      _ ← CAMLassert (negb (Has_status_hd hd (GARBAGE (colors s))));
      verify_large n s (l_next q) (add_mem (LARGE_ALLOC_HEADER_SZ / 8 + Whsize_hd hd) 0 0 (LARGE_ALLOC_HEADER_SZ / 8) 1 x)
  end.
Definition verify_class (d : Z) (s : state) (i : Z) (x : mem_stats) : result mem_stats :=
  _ ← CAMLassert ((heads s (unswept_avail_pools d i) =? 0) && (heads s (unswept_full_pools d i) =? 0));
  x ← verify_pools (list_fuel s) s false i (heads s (avail_pools d i)) x;
  verify_pools (list_fuel s) s true i (heads s (full_pools d i)) x.
Definition verify_swept (d : Z) (s : state) : result unit :=
  _ ← CAMLassert (next_to_sweep s d =? NUM_SIZECLASSES);
  pool_stats ← for_each sizeclasses (verify_class d s) no_mem_stats;
  large_stats ← verify_large (llist_fuel s) s (lheads s (swept_large d)) no_mem_stats;
  _ ← CAMLassert (lheads s (unswept_large d) =? 0);
  let h := stats s (Some d) in
  _ ← CAMLassert (u64 (pool_words h) =? m_alloced pool_stats);
  _ ← CAMLassert (u64 (pool_live_words h) =? m_live pool_stats);
  _ ← CAMLassert (u64 (pool_live_blocks h) =? m_live_blocks pool_stats);
  _ ← CAMLassert (u64 (pool_frag_words h) =? m_overhead pool_stats);
  _ ← CAMLassert (u64 (pool_words h - (pool_live_words h + pool_frag_words h)) =? m_free pool_stats);
  _ ← CAMLassert (u64 (large_words h) =? m_alloced large_stats);
  CAMLassert (u64 (large_blocks h) =? m_live_blocks large_stats).

(** ** Incremental sweeping *)

Definition large_alloc_sweep (d : Z) (s : state) : result (Z * state) :=
  let a := lheads s (unswept_large d) in
  if a =? 0 then Ret (0, s) else
  q ← get_large s a;
  let s := set_lhead (unswept_large d) (l_next q) s in
  let p := a + LARGE_ALLOC_HEADER_SZ in
  hd ← load s p;
  s ← (if Has_status_hd hd (GARBAGE (colors s)) then
         s ← finalise_custom hd p s;
         let s := update_stats (Some d) (add_large_stats (- (Whsize_hd hd + LARGE_ALLOC_HEADER_SZ / 8)) 0) s in
         let s := add_swept_words d (Whsize_hd hd + LARGE_ALLOC_HEADER_SZ / 8) s in
         let s := update_stats (Some d) (add_large_stats 0 (-1)) s in
         let s := set_system (free_large a (system s)) s in
         Ret (set_mem (unmap_words p (Z.to_nat (Whsize_hd hd)) (mem s)) (set_larges (delete a (larges s)) s))
       else
         let s := put_large a (mklarge (l_owner q) (lheads s (swept_large d))) s in
         Ret (set_lhead (swept_large d) a s));
  Ret (Whsize_hd hd, s).

(** [while (work > 0 && local->next_to_sweep < NUM_SIZECLASSES)]: every round
    takes a pool from a list or goes to the next size class. *)
Fixpoint sweep_pools (n : nat) (d work : Z) (s : state) : result (Z * state) :=
  match n with
  | O => NoFuel
  | S n =>
      if (0 <? work) && (next_to_sweep s d <? NUM_SIZECLASSES) then
        let i := next_to_sweep s d in
        '(avail_sweep_work, s) ← pool_sweep d (unswept_avail_pools d i) i true s;
        let work := work - avail_sweep_work in
        '(full_sweep_work, s) ← (if 0 <? work then pool_sweep d (unswept_full_pools d i) i true s else Ret (0, s));
        let work := work - full_sweep_work in
        let s := if full_sweep_work + avail_sweep_work =? 0 then set_next_to_sweep d (next_to_sweep s d + 1) s else s in
        sweep_pools n d work s
      else Ret (work, s)
  end.
Fixpoint sweep_large (n : nat) (d work : Z) (s : state) : result (Z * state) :=
  match n with
  | O => NoFuel
  | S n =>
      if (0 <? work) && negb (lheads s (unswept_large d) =? 0) then
        '(w, s) ← large_alloc_sweep d s;
        sweep_large n d (work - w) s
      else Ret (work, s)
  end.
Definition sweep_fuel (s : state) : nat := S (size (pools s)) + Z.to_nat NUM_SIZECLASSES.
Definition caml_sweep (d work : Z) (s : state) : result (Z * state) :=
  _ ← CAMLassert (bool_decide (d ∈ heaps s));
  '(work, s) ← sweep_pools (sweep_fuel s) d work s;
  '(work, s) ← sweep_large (llist_fuel s) d work s;
  _ ← (if verify_heap && (0 <? work) then verify_swept d s else Ret ());
  Ret (work, s).

(** [f] is applied to the marked blocks of a pool, in order. *)
Definition redarken_block (s : state) (p : Z) (l : list Z) : result (list Z) :=
  hd ← load s p;
  Ret (if negb (hd =? 0) && Has_status_hd hd (MARKED (colors s)) then l ++ [p + 8] else l).
Definition caml_redarken_pool (s : state) (r : Z) : result (list Z) :=
  q ← get_pool s r;
  '(_, l) ← blocks_loop block_fuel (wsize_sizeclass (sz q)) (POOL_END r) (redarken_block s) (POOL_FIRST_BLOCK r (sz q)) [];
  Ret l.

(** ** The end of a cycle *)

Definition caml_cycle_heap_from_stw_single (s : state) : state :=
  let oldg := colors s in
  set_colors (mkcolors (GARBAGE oldg) (MARKED oldg) (UNMARKED oldg)) s.
Definition cycle_class (d i : Z) (s : state) : result state :=
  _ ← CAMLassert (heads s (unswept_avail_pools d i) =? 0);
  let s := set_head (unswept_avail_pools d i) (heads s (avail_pools d i)) s in
  let s := set_head (avail_pools d i) 0 s in
  _ ← CAMLassert (heads s (unswept_full_pools d i) =? 0);
  let s := set_head (unswept_full_pools d i) (heads s (full_pools d i)) s in
  Ret (set_head (full_pools d i) 0 s).
Definition receive_class (d i : Z) (x : Z * state) : result (Z * state) :=
  let '(received_p, s) := x in
  '(n, s) ← move_all_pools (global_avail_pools i) (unswept_avail_pools d i) (Some d) s;
  '(m, s) ← move_all_pools (global_full_pools i) (unswept_full_pools d i) (Some d) s;
  Ret (received_p + n + m, s).
Definition caml_cycle_heap (d : Z) (s : state) : result state :=
  _ ← CAMLassert (bool_decide (d ∈ heaps s));
  s ← for_each sizeclasses (cycle_class d) s;
  _ ← CAMLassert (lheads s (unswept_large d) =? 0);
  let s := set_lhead (unswept_large d) (lheads s (swept_large d)) s in
  let s := set_lhead (swept_large d) 0 s in
  '(received_p, s) ← for_each sizeclasses (receive_class d) (0, s);
  '(received_l, s) ← move_all_large (llist_fuel s) global_large (unswept_large d) (Some (Some d)) 0 s;
  let s := if negb (received_p =? 0) || negb (received_l =? 0) then adopt_all_pool_stats_with_lock d s else s in
  Ret (set_next_to_sweep d 0 s).
(** The stop-the-world section at the end of a cycle
    ([stw_cycle_all_domains] of runtime/major_gc.c): one domain changes the
    colours, then every domain cycles its heap. *)
Definition cycle_all_domains (ds : list Z) (s : state) : result state :=
  for_each ds caml_cycle_heap (caml_cycle_heap_from_stw_single s).
End heap.
End PoolHeap.
