(* ===== verification/PoolHeapInv.v ===== *)
(** * The invariant of the shared heap

    The linked lists of pools and of large blocks, the slots of a pool and its
    free list, the totals that the statistics count, and the invariant that
    puts them together. *)

From S2P Require Import Prelude Memory PoolHeap.
From stdpp Require Import list functions gmap.
#[local] Open Scope Z_scope.
Import PoolHeap.
#[local] Notation eqm := Prelude.eqm.

Module PoolHeapInv.

(** ** Linked lists

    Nodes at addresses, linked by [nx]; heads are named by [L].  Only the heads
    for which [ok] holds exist. *)
Section linked.
Context {N L : Type} `{EqDecision L} (nx : N -> Z).

Fixpoint chain (m : gmap Z N) (h : Z) (l : list Z) : Prop :=
  match l with
  | [] => h = 0
  | a :: l => h = a /\ a <> 0 /\ exists n, m !! a = Some n /\ chain m (nx n) l
  end.
Record linked (ok : L -> bool) (m : gmap Z N) (heads : L -> Z) (ls : L -> list Z) : Prop := {
  lk_chain : forall q, ok q = true -> chain m (heads q) (ls q);
  lk_none : forall q, ok q = false -> ls q = [];
  lk_nodup : forall q, NoDup (ls q);
  lk_disj : forall q r a, a ∈ ls q -> a ∈ ls r -> q = r;
}.
Definition nowhere (ls : L -> list Z) (a : Z) : Prop := forall q, a ∉ ls q.

Lemma chain_insert m h l a n : a ∉ l -> chain m h l -> chain (<[a := n]> m) h l.
Proof.
  revert h. induction l as [|b l IH]; simpl; [done|]. intros h Ha (-> & Hb & n' & E & Hc).
  apply not_elem_of_cons in Ha as [Hab Ha]. split_and!; [done|done|]. exists n'. rewrite lookup_insert_ne by done. eauto.
Qed.
Lemma chain_delete m h l a : a ∉ l -> chain m h l -> chain (delete a m) h l.
Proof.
  revert h. induction l as [|b l IH]; simpl; [done|]. intros h Ha (-> & Hb & n' & E & Hc).
  apply not_elem_of_cons in Ha as [Hab Ha]. split_and!; [done|done|]. exists n'. rewrite lookup_delete_ne by done. eauto.
Qed.
(** A node may change as long as its link does not. *)
Lemma chain_update m h l a n n' : m !! a = Some n -> nx n' = nx n -> chain m h l -> chain (<[a := n']> m) h l.
Proof.
  intros E En. revert h. induction l as [|b l IH]; simpl; [done|]. intros h (-> & Hb & k & Eb & Hc).
  split_and!; [done|done|]. destruct (decide (a = b)) as [->|].
  - exists n'. rewrite lookup_insert_eq. split; [done|]. rewrite En. simplify_eq. auto.
  - exists k. rewrite lookup_insert_ne by done. auto.
Qed.
Lemma chain_head m h l : chain m h l -> h = hd 0 l.
Proof. destruct l; simpl; [done|]. by intros (-> & _). Qed.
Lemma chain_null m h l : chain m h l -> (h = 0 <-> l = []).
Proof. destruct l; simpl; [done|]. intros (-> & ? & _). done. Qed.
Lemma chain_node m h l a : chain m h l -> a ∈ l -> a <> 0 /\ is_Some (m !! a).
Proof.
  revert h. induction l as [|b l IH]; simpl; [by intros h _ ?%elem_of_nil|]. intros h (-> & Hb & n & E & Hc) [->|Ha]%elem_of_cons; [|eauto].
  split; [done|]. by rewrite E.
Qed.

Lemma linked_ok ok m heads ls q a : linked ok m heads ls -> a ∈ ls q -> ok q = true.
Proof. intros H Ha. destruct (ok q) eqn:E; [done|]. rewrite (lk_none _ _ _ _ H q E) in Ha. by apply elem_of_nil in Ha. Qed.
Lemma linked_node ok m heads ls q a : linked ok m heads ls -> a ∈ ls q -> a <> 0 /\ is_Some (m !! a).
Proof. intros H Ha. eapply chain_node; [|done]. apply (lk_chain _ _ _ _ H). by eapply linked_ok. Qed.
Lemma linked_null ok m heads ls q : linked ok m heads ls -> ok q = true -> (heads q = 0 <-> ls q = []).
Proof. intros H Hq. eapply chain_null. by apply (lk_chain _ _ _ _ H). Qed.
Lemma linked_head ok m heads ls q a l : linked ok m heads ls -> ls q = a :: l -> heads q = a.
Proof.
  intros H E. assert (ok q = true) as Hq by (eapply linked_ok; [done|]; rewrite E; left).
  pose proof (lk_chain _ _ _ _ H q Hq) as Hc. rewrite E in Hc. by destruct Hc.
Qed.

(** [*q = a->next], where [a] is the head of [q]. *)
Lemma linked_pop ok m heads ls q a l n : linked ok m heads ls -> ls q = a :: l -> m !! a = Some n ->
  linked ok m (<[q := nx n]> heads) (<[q := l]> ls) /\ nowhere (<[q := l]> ls) a.
Proof.
  intros H E Ea. assert (ok q = true) as Hq by (eapply linked_ok; [done|]; rewrite E; left).
  pose proof (lk_nodup _ _ _ _ H q) as Hn. rewrite E in Hn. apply NoDup_cons in Hn as [Hal Hl].
  assert (forall r b, b ∈ (<[q := l]> ls) r -> b ∈ ls r) as Hsub.
  { intros r b Hb. destruct (decide (q = r)) as [->|]; [|by rewrite fn_lookup_insert_ne in Hb].
    rewrite fn_lookup_insert in Hb. rewrite E. by right. }
  split; [split|].
  - intros r Hr. destruct (decide (q = r)) as [->|]; [rewrite !fn_lookup_insert|rewrite !fn_lookup_insert_ne by done; by apply H].
    pose proof (lk_chain _ _ _ _ H r Hr) as Hc. rewrite E in Hc. destruct Hc as (_ & _ & n' & En & Hc). by simplify_eq.
  - intros r Hr. rewrite fn_lookup_insert_ne by congruence. by apply H.
  - intros r. destruct (decide (q = r)) as [->|]; [by rewrite fn_lookup_insert|rewrite fn_lookup_insert_ne by done; apply H].
  - intros r r' b Hb Hb'. eapply (lk_disj _ _ _ _ H); eauto.
  - intros r Hr. destruct (decide (q = r)) as [->|]; [by rewrite fn_lookup_insert in Hr|].
    rewrite fn_lookup_insert_ne in Hr by done. apply n0. eapply (lk_disj _ _ _ _ H); [|done]. rewrite E. left.
Qed.
(** [a->next = *q; *q = a]. *)
Lemma linked_push ok m heads ls q a n : linked ok m heads ls -> nowhere ls a -> ok q = true -> a <> 0 -> nx n = heads q ->
  linked ok (<[a := n]> m) (<[q := a]> heads) (<[q := a :: ls q]> ls).
Proof.
  intros H Ha Hq Hz En. assert (forall r b, b ∈ (<[q := a :: ls q]> ls) r -> (b = a /\ r = q) \/ (b <> a /\ b ∈ ls r)) as Hin.
  { intros r b Hb. destruct (decide (q = r)) as [->|].
    - rewrite fn_lookup_insert in Hb. apply elem_of_cons in Hb as [->|Hb]; [by left|]. right. split; [|done]. intros ->. by apply (Ha r).
    - rewrite fn_lookup_insert_ne in Hb by done. right. split; [|done]. intros ->. by apply (Ha r). }
  split.
  - intros r Hr. destruct (decide (q = r)) as [->|].
    + rewrite !fn_lookup_insert. split_and!; [done|done|]. exists n. rewrite lookup_insert_eq, En. split; [done|].
      apply chain_insert; [apply Ha|by apply H].
    + rewrite !fn_lookup_insert_ne by done. apply chain_insert; [apply Ha|by apply H].
  - intros r Hr. rewrite fn_lookup_insert_ne by congruence. by apply H.
  - intros r. destruct (decide (q = r)) as [->|]; [rewrite fn_lookup_insert|rewrite fn_lookup_insert_ne by done; apply H].
    apply NoDup_cons. split; [apply Ha|apply H].
  - intros r r' b [[-> ->]|[Hb Hr]]%Hin [[E ->]|[Hb' Hr']]%Hin; try done. eapply (lk_disj _ _ _ _ H); eauto.
Qed.
Lemma linked_update ok m heads ls a n n' : linked ok m heads ls -> m !! a = Some n -> nx n' = nx n -> linked ok (<[a := n']> m) heads ls.
Proof. intros [H1 H2 H3 H4] Ea En. split; try done. intros q Hq. eapply chain_update; eauto. Qed.
Lemma linked_insert ok m heads ls a n : linked ok m heads ls -> nowhere ls a -> linked ok (<[a := n]> m) heads ls.
Proof. intros [H1 H2 H3 H4] Ha. split; try done. intros q Hq. apply chain_insert; [apply Ha|auto]. Qed.
Lemma linked_delete ok m heads ls a : linked ok m heads ls -> nowhere ls a -> linked ok (delete a m) heads ls.
Proof. intros [H1 H2 H3 H4] Ha. split; try done. intros q Hq. apply chain_delete; [apply Ha|auto]. Qed.
(** [*r = *q; *q = NULL], where [*r] is null. *)
Lemma linked_transfer ok m heads ls q r : linked ok m heads ls -> ok q = true -> ok r = true -> q <> r -> ls r = [] ->
  linked ok m (<[q := 0]> (<[r := heads q]> heads)) (<[q := []]> (<[r := ls q]> ls)).
Proof.
  intros H Hq Hr Hqr Er. set (ls' := <[q := []]> (<[r := ls q]> ls)).
  assert (ls' q = [] /\ ls' r = ls q /\ (forall t, t <> q -> t <> r -> ls' t = ls t)) as (Eq & Er' & Et).
  { unfold ls'. rewrite fn_lookup_insert, fn_lookup_insert_ne, fn_lookup_insert by done. split_and!; [done..|].
    intros t ??. by rewrite !fn_lookup_insert_ne by done. }
  assert (forall t b, b ∈ ls' t -> (t = r /\ b ∈ ls q) \/ (t <> r /\ t <> q /\ b ∈ ls t)) as Hin.
  { intros t b Hb. destruct (decide (t = q)) as [->|]; [rewrite Eq in Hb; by apply elem_of_nil in Hb|].
    destruct (decide (t = r)) as [->|]; [left; by rewrite Er' in Hb|right; rewrite Et in Hb by done; done]. }
  split.
  - intros t Ht. destruct (decide (t = q)) as [->|]; [rewrite fn_lookup_insert, Eq; done|].
    rewrite fn_lookup_insert_ne by done. destruct (decide (t = r)) as [->|].
    + rewrite fn_lookup_insert, Er'. by apply H.
    + rewrite fn_lookup_insert_ne, Et by done. by apply H.
  - intros t Ht. rewrite Et by congruence. by apply H.
  - intros t. destruct (decide (t = q)) as [->|]; [rewrite Eq; constructor|].
    destruct (decide (t = r)) as [->|]; [rewrite Er'|rewrite Et by done]; apply H.
  - intros t u b [[-> Hb]|(? & ? & Hb)]%Hin [[-> Hc]|(? & ? & Hc)]%Hin; try done.
    + by pose proof (lk_disj _ _ _ _ H _ _ _ Hb Hc).
    + by pose proof (lk_disj _ _ _ _ H _ _ _ Hb Hc).
    + by eapply (lk_disj _ _ _ _ H).
Qed.
(** A list is no longer than the number of nodes. *)
Lemma nodup_size (m : gmap Z N) (l : list Z) : NoDup l -> (forall a, a ∈ l -> is_Some (m !! a)) -> (length l <= size m)%nat.
Proof.
  intros Hn Hl. rewrite <- size_dom, <- (size_list_to_set (C := gset Z) l Hn). apply subseteq_size.
  intros a Ha%elem_of_list_to_set. apply elem_of_dom. auto.
Qed.
Lemma linked_size ok m heads ls q : linked ok m heads ls -> (length (ls q) <= size m)%nat.
Proof. intros H. apply nodup_size; [apply H|]. intros a Ha. by eapply linked_node. Qed.
End linked.
Arguments linked_pop {N L _} nx {ok m heads ls} q a l n.
Arguments linked_push {N L _} nx {ok m heads ls} q a n.
Arguments linked_transfer {N L _} nx {ok m heads ls} q r.

(** ** Sums *)

Fixpoint sum {A} (w : A -> Z) (l : list A) : Z := match l with [] => 0 | a :: l => w a + sum w l end.
Lemma sum_ext {A} (w w' : A -> Z) l : (forall a, a ∈ l -> w a = w' a) -> sum w l = sum w' l.
Proof. induction l as [|a l IH]; simpl; [done|]. intros H. rewrite (H a), IH; [done| |left]. intros b Hb. apply H. by right. Qed.
Lemma sum_app {A} (w : A -> Z) l k : sum w (l ++ k) = sum w l + sum w k.
Proof. induction l; simpl; lia. Qed.
Lemma sum_zero {A} (w : A -> Z) l : (forall a, a ∈ l -> w a = 0) -> sum w l = 0.
Proof. intros H. rewrite (sum_ext w (fun _ => 0)) by done. clear H. by induction l. Qed.
(** One term changes. *)
Lemma sum_update {A} (w w' : A -> Z) l x : NoDup l -> x ∈ l -> (forall a, a ∈ l -> a <> x -> w' a = w a) ->
  sum w' l = sum w l + (w' x - w x).
Proof.
  induction 1 as [|a l Ha Hl IH]; [by intros ?%elem_of_nil|]. intros Hx Hw. simpl. apply elem_of_cons in Hx as [->|Hx].
  - rewrite (sum_ext w' w l); [lia|]. intros b Hb. apply Hw; [by right|congruence].
  - rewrite IH; [|done|intros b Hb; apply Hw; by right]. rewrite (Hw a); [lia|left|congruence].
Qed.
(** The total of the lists named in [P]. *)
Definition total {L} (w : L -> Z -> Z) (ls : L -> list Z) (P : list L) : Z := sum (fun q => sum (w q) (ls q)) P.
Lemma total_ext {L} (w w' : L -> Z -> Z) ls P : (forall q a, q ∈ P -> a ∈ ls q -> w q a = w' q a) -> total w ls P = total w' ls P.
Proof. intros H. apply sum_ext. intros q Hq. apply sum_ext. auto. Qed.
Lemma total_insert `{EqDecision L} (w : L -> Z -> Z) ls P q l : NoDup P ->
  total w (<[q := l]> ls) P = total w ls P + (if decide (q ∈ P) then sum (w q) l - sum (w q) (ls q) else 0).
Proof.
  intros HP. unfold total. destruct (decide (q ∈ P)) as [Hq|Hq].
  - rewrite (sum_update (fun q => sum (w q) (ls q)) _ _ q HP Hq), fn_lookup_insert; [done|].
    intros r _ Hr. by rewrite fn_lookup_insert_ne.
  - rewrite Z.add_0_r. apply sum_ext. intros r Hr. rewrite fn_lookup_insert_ne; [done|congruence].
Qed.

(** ** Size classes and slots *)

Definition blocks (i : Z) : Z := (POOL_WSIZE - POOL_HEADER_WSIZE) / wsize_sizeclass i.
Definition is_class (i : Z) : Prop := 1 <= i < NUM_SIZECLASSES.
Definition class_check (i : Z) : bool :=
  (2 <=? wsize_sizeclass i) && (wsize_sizeclass i <=? 128) && (0 <=? wastage_sizeclass i) &&
  (POOL_SLAB_WOFFSET i + wsize_sizeclass i * blocks i =? POOL_WSIZE) && (1 <=? blocks i).
Lemma class_facts i : is_class i ->
  2 <= wsize_sizeclass i <= 128 /\ 0 <= wastage_sizeclass i /\ POOL_SLAB_WOFFSET i + wsize_sizeclass i * blocks i = 4096 /\ 1 <= blocks i.
Proof.
  intros Hi. assert (forallb class_check (seqZ 1 31) = true) as H by (by vm_compute).
  rewrite forallb_forall in H. specialize (H i). unfold class_check in H. change POOL_WSIZE with 4096 in *.
  assert (In i (seqZ 1 31)) as Hin by (apply list_elem_of_In, elem_of_seqZ; unfold is_class, NUM_SIZECLASSES in Hi; lia).
  specialize (H Hin). lia.
Qed.
Lemma slab_offset i : is_class i -> 4 <= POOL_SLAB_WOFFSET i.
Proof. intros H. pose proof (class_facts i H). unfold POOL_SLAB_WOFFSET, POOL_HEADER_WSIZE. lia. Qed.
(** Every small block has a size class whose slots are large enough. *)
Lemma sizeclass_facts w : 2 <= w <= SIZECLASS_MAX -> is_class (sizeclass_wsize w) /\ w <= wsize_sizeclass (sizeclass_wsize w).
Proof.
  intros Hw. assert (forallb (fun w => (1 <=? sizeclass_wsize w) && (sizeclass_wsize w <? 32) && (w <=? wsize_sizeclass (sizeclass_wsize w)))
    (seqZ 2 127) = true) as H by (by vm_compute).
  rewrite forallb_forall in H. specialize (H w). unfold is_class, NUM_SIZECLASSES.
  assert (In w (seqZ 2 127)) as Hin by (apply list_elem_of_In, elem_of_seqZ; unfold SIZECLASS_MAX in Hw; lia).
  specialize (H Hin). lia.
Qed.

(** The slots of a pool. *)
Definition slots_from (p wh : Z) (n : nat) : list Z := (fun k => p + 8 * wh * Z.of_nat k) <$> seq 0 n.
Definition slots (a i : Z) : list Z := slots_from (POOL_FIRST_BLOCK a i) (wsize_sizeclass i) (Z.to_nat (blocks i)).
Lemma slots_from_S p wh n : slots_from p wh (S n) = p :: slots_from (p + 8 * wh) wh n.
Proof.
  unfold slots_from. rewrite <- cons_seq, fmap_cons. f_equal; [lia|]. rewrite <- fmap_S_seq, <- list_fmap_compose.
  apply list_fmap_ext. intros _ k _. simpl. lia.
Qed.
Lemma elem_of_slots_from p wh n x : x ∈ slots_from p wh n <-> exists k, 0 <= k < Z.of_nat n /\ x = p + 8 * wh * k.
Proof.
  unfold slots_from. rewrite list_elem_of_fmap. split.
  - intros (k & -> & Hk%elem_of_seq). exists (Z.of_nat k). lia.
  - intros (k & Hk & ->). exists (Z.to_nat k). rewrite elem_of_seq. split; [f_equal; f_equal; lia|lia].
Qed.
Lemma slots_NoDup a i : is_class i -> NoDup (slots a i).
Proof.
  intros H. pose proof (class_facts i H). apply NoDup_fmap_2_strong; [|apply NoDup_seq].
  intros x y _ _ E. assert (8 * wsize_sizeclass i * (Z.of_nat x - Z.of_nat y) = 0) by lia. nia.
Qed.
Lemma elem_of_slots a i x : is_class i ->
  x ∈ slots a i <-> exists k, 0 <= k < blocks i /\ x = a + 8 * (POOL_SLAB_WOFFSET i + wsize_sizeclass i * k).
Proof.
  intros H. pose proof (class_facts i H). unfold slots. rewrite elem_of_slots_from. unfold POOL_FIRST_BLOCK.
  split; intros (k & Hk & ->); exists k; split; lia.
Qed.
(** A slot and its words lie in the pool, after its header. *)
Lemma slot_range a i x : is_class i -> x ∈ slots a i ->
  a + 32 <= x /\ x + 8 * wsize_sizeclass i <= a + 32768 /\ (x - a) mod 8 = 0.
Proof.
  intros H Hx. pose proof (class_facts i H) as (? & ? & Hb & ?). pose proof (slab_offset i H).
  apply elem_of_slots in Hx as (k & Hk & ->); [|done]. split_and!; [nia|nia|].
  replace (a + 8 * (POOL_SLAB_WOFFSET i + wsize_sizeclass i * k) - a) with ((POOL_SLAB_WOFFSET i + wsize_sizeclass i * k) * 8) by lia.
  apply Z_mod_mult.
Qed.
(** Two slots of a pool do not overlap. *)
Lemma slot_apart a i x y : is_class i -> x ∈ slots a i -> y ∈ slots a i -> x <> y ->
  x + 8 * wsize_sizeclass i <= y \/ y + 8 * wsize_sizeclass i <= x.
Proof.
  intros H Hx Hy Hne. pose proof (class_facts i H).
  apply elem_of_slots in Hx as (k & Hk & ->); [|done]. apply elem_of_slots in Hy as (j & Hj & ->); [|done].
  destruct (Z.lt_total k j) as [?|[->|?]]; [left; nia|done|right; nia].
Qed.
Lemma slot_second a i x y : is_class i -> x ∈ slots a i -> y ∈ slots a i -> x + 8 <> y.
Proof.
  intros H Hx Hy E. pose proof (class_facts i H). destruct (decide (x = y)) as [->|Hne]; [lia|].
  pose proof (slot_apart a i x y H Hx Hy Hne). lia.
Qed.

(** ** Loops *)

Lemma ret_bind {A B} (a : A) (f : A -> result B) : mbind f (Ret a) = f a.
Proof. done. Qed.

Lemma for_each_inv {A} (I : list Z -> A -> Prop) l body x : I [] x ->
  (forall done i rest x, l = done ++ i :: rest -> I done x -> exists y, body i x = Ret y /\ I (done ++ [i]) y) ->
  exists y, for_each l body x = Ret y /\ I l y.
Proof.
  intros H0 Hs. assert (forall rest done x, l = done ++ rest -> I done x -> exists y, for_each rest body x = Ret y /\ I l y) as H.
  { induction rest as [|i rest IH]; intros done' y E Hy; simpl.
    - rewrite app_nil_r in E. subst. eauto.
    - destruct (Hs _ _ _ _ E Hy) as (z & -> & Hz). simpl. apply (IH (done' ++ [i])); [|done]. by rewrite <- app_assoc. }
  by apply (H l []).
Qed.
Lemma blocks_loop_for_each {A} n k p wh (body : Z -> A -> result A) x : 0 < wh -> (k < n)%nat ->
  blocks_loop n wh (p + 8 * wh * Z.of_nat k) body p x =
    y ← for_each (slots_from p wh k) body x; Ret (p + 8 * wh * Z.of_nat k, y).
Proof.
  intros Hwh. revert n p x. induction k as [|k IH]; intros [|n] p x Hn; try lia; cbn [blocks_loop].
  - rewrite (proj2 (Z.leb_gt _ _)) by lia. simpl. do 2 f_equal. lia.
  - rewrite (proj2 (Z.leb_le _ _)) by nia. rewrite slots_from_S. cbn [for_each].
    destruct (body p x) as [y| | | |]; try done. cbn [mbind result_bind].
    replace (p + 8 * wh * Z.of_nat (S k)) with (p + 8 * wh + 8 * wh * Z.of_nat k) by lia. apply IH. lia.
Qed.
(** The loop over the blocks of a pool visits its slots and ends at its end. *)
Lemma blocks_loop_pool {A} a i (body : Z -> A -> result A) x : is_class i ->
  blocks_loop block_fuel (wsize_sizeclass i) (POOL_END a) body (POOL_FIRST_BLOCK a i) x =
    y ← for_each (slots a i) body x; Ret (POOL_END a, y).
Proof.
  intros H. pose proof (class_facts i H). pose proof (slab_offset i H).
  assert (POOL_END a = POOL_FIRST_BLOCK a i + 8 * wsize_sizeclass i * Z.of_nat (Z.to_nat (blocks i))) as ->
    by (unfold POOL_END, POOL_FIRST_BLOCK, POOL_WSIZE; nia).
  apply blocks_loop_for_each; [lia|]. unfold block_fuel, POOL_WSIZE. nia.
Qed.

(** ** The lists *)

Definition class_of (q : plist) : Z :=
  match q with
  | freelist => 0
  | global_avail_pools i | global_full_pools i => i
  | avail_pools _ i | full_pools _ i | unswept_avail_pools _ i | unswept_full_pools _ i => i
  end.
(** Whose statistics count the pools of a list. *)
Definition group (q : plist) : option (option Z) :=
  match q with
  | freelist => None
  | global_avail_pools _ | global_full_pools _ => Some None
  | avail_pools d _ | full_pools d _ | unswept_avail_pools d _ | unswept_full_pools d _ => Some (Some d)
  end.
Definition unswept (q : plist) : bool :=
  match q with unswept_avail_pools _ _ | unswept_full_pools _ _ => true | _ => false end.
Definition full (q : plist) : bool :=
  match q with global_full_pools _ | full_pools _ _ | unswept_full_pools _ _ => true | _ => false end.
Definition in_range (i : Z) : bool := (0 <=? i) && (i <? NUM_SIZECLASSES).
(** The lists of the heaps that are allocated. *)
Definition valid (H : gset Z) (q : plist) : bool :=
  match group q with
  | None => true
  | Some None => in_range (class_of q)
  | Some (Some d) => bool_decide (d ∈ H) && in_range (class_of q)
  end.
Definition lgroup (q : llist) : option Z := match q with global_large => None | swept_large d | unswept_large d => Some d end.
Definition lvalid (H : gset Z) (q : llist) : bool := match lgroup q with None => true | Some d => bool_decide (d ∈ H) end.
Definition places (k : option Z) : list plist :=
  match k with
  | None => sizeclasses ≫= fun i => [global_avail_pools i; global_full_pools i]
  | Some d => sizeclasses ≫= fun i => [avail_pools d i; full_pools d i; unswept_avail_pools d i; unswept_full_pools d i]
  end.
Definition lplaces (k : option Z) : list llist :=
  match k with None => [global_large] | Some d => [swept_large d; unswept_large d] end.

Lemma elem_of_sizeclasses i : i ∈ sizeclasses <-> in_range i = true.
Proof. unfold sizeclasses, in_range. rewrite elem_of_seqZ. lia. Qed.
Lemma elem_of_places q k : q ∈ places k <-> group q = Some k /\ in_range (class_of q) = true.
Proof.
  unfold places. destruct k as [d|]; rewrite list_elem_of_bind; split.
  - intros (i & Hq & Hi%elem_of_sizeclasses). set_unfold in Hq. naive_solver.
  - intros [Hg Hc]. exists (class_of q). split; [|by apply elem_of_sizeclasses]. destruct q; simplify_eq/=; set_solver.
  - intros (i & Hq & Hi%elem_of_sizeclasses). set_unfold in Hq. naive_solver.
  - intros [Hg Hc]. exists (class_of q). split; [|by apply elem_of_sizeclasses]. destruct q; simplify_eq/=; set_solver.
Qed.
Lemma places_NoDup k : NoDup (places k).
Proof.
  unfold places. destruct k as [d|]; apply NoDup_bind; try apply NoDup_seqZ.
  - intros i j q _ _ Hi Hj. set_unfold in Hi. set_unfold in Hj. naive_solver.
  - intros i _. repeat (apply NoDup_cons; split; [set_solver|]). constructor.
  - intros i j q _ _ Hi Hj. set_unfold in Hi. set_unfold in Hj. naive_solver.
  - intros i _. repeat (apply NoDup_cons; split; [set_solver|]). constructor.
Qed.
Lemma elem_of_lplaces q k : q ∈ lplaces k <-> lgroup q = k.
Proof. unfold lplaces. destruct k, q; simpl; set_unfold; naive_solver. Qed.
Lemma lplaces_NoDup k : NoDup (lplaces k).
Proof. destruct k; simpl; repeat (apply NoDup_cons; split; [set_solver|]); constructor. Qed.

(** ** Totals *)

Inductive stat := s_words | s_live_words | s_live_blocks | s_frag_words.
Definition get_stat (t : stat) (h : heap_stats) : Z :=
  match t with
  | s_words => pool_words h
  | s_live_words => pool_live_words h
  | s_live_blocks => pool_live_blocks h
  | s_frag_words => pool_frag_words h
  end.
(** What a pool, and each of its blocks, adds to a counter. *)
Definition pool_share (t : stat) (i : Z) : Z :=
  match t with s_words => POOL_WSIZE | s_frag_words => POOL_SLAB_WOFFSET i | _ => 0 end.
Definition block_share (t : stat) (wh hd : Z) : Z :=
  match t with
  | s_words => 0
  | s_live_words => Whsize_hd hd
  | s_live_blocks => 1
  | s_frag_words => wh - Whsize_hd hd
  end.
Definition slot_share (t : stat) (m : gmap Z Z) (wh x : Z) : Z :=
  match m !! x with Some hd => if hd =? 0 then 0 else block_share t wh hd | None => 0 end.
Definition pool_weight (t : stat) (m : gmap Z Z) (i a : Z) : Z :=
  pool_share t i + sum (slot_share t m (wsize_sizeclass i)) (slots a i).
Definition weight (t : stat) (m : gmap Z Z) (q : plist) (a : Z) : Z := pool_weight t m (class_of q) a.
Inductive lstat := l_words | l_blocks.
Definition get_lstat (t : lstat) (h : heap_stats) : Z := match t with l_words => large_words h | l_blocks => large_blocks h end.
Definition lblock_share (t : lstat) (hd : Z) : Z := match t with l_words => Whsize_hd hd + 2 | l_blocks => 1 end.
Definition lweight (t : lstat) (m : gmap Z Z) (q : llist) (a : Z) : Z :=
  match m !! (a + LARGE_ALLOC_HEADER_SZ) with Some hd => lblock_share t hd | None => 0 end.

(** ** The system *)

Definition new_region (a n : Z) (r : gmap Z (bool * Z)) : Prop :=
  0 < a /\ a mod 8 = 0 /\ a + n <= 2 ^ 63 /\ r !! a = None /\ forall b k m, r !! b = Some (k, m) -> a + n <= b \/ b + m <= a.
(** [mmap] and [malloc] fail, or return areas that are aligned and apart from
    those in use; [munmap] and [free] give one back. *)
Class OsLaws `{Os : OS} := {
  regions : world -> gmap Z (bool * Z);
  mem_map_law n w a w' : 0 < n -> caml_mem_map n w = (a, w') ->
    (a = 0 /\ regions w' = regions w) \/ (new_region a n (regions w) /\ regions w' = <[a := (true, n)]> (regions w));
  mem_unmap_law a n w : regions w !! a = Some (true, n) -> regions (caml_mem_unmap a n w) = delete a (regions w);
  malloc_law n w a w' : 0 < n -> malloc n w = (a, w') ->
    (a = 0 /\ regions w' = regions w) \/ (new_region a n (regions w) /\ regions w' = <[a := (false, n)]> (regions w));
  free_law a n w : regions w !! a = Some (false, n) -> regions (free_large a w) = delete a (regions w);
  stat_alloc_law n w : regions (caml_stat_alloc_noexc n w).2 = regions w;
  stat_free_law w : regions (caml_stat_free w) = regions w;
}.
Record regions_ok (r : gmap Z (bool * Z)) : Prop := {
  rg_pos : forall a k n, r !! a = Some (k, n) -> 0 < a /\ a mod 8 = 0 /\ a + n <= 2 ^ 63;
  rg_apart : forall a b k n j m, r !! a = Some (k, n) -> r !! b = Some (j, m) -> a <> b -> a + n <= b \/ b + m <= a;
}.
Lemma regions_insert r a k n : regions_ok r -> 0 < n -> new_region a n r -> regions_ok (<[a := (k, n)]> r).
Proof.
  intros [H1 H2] Hn (Ha & Hm & Hb & _ & Hx). split.
  - intros b j m [[<- [= <- <-]]|[_ E]]%lookup_insert_Some; [done|eauto].
  - intros b c j m j' m' [[<- [= <- <-]]|[? E]]%lookup_insert_Some [[<- [= <- <-]]|[? F]]%lookup_insert_Some ?; try done; [eauto| |eauto].
    destruct (Hx _ _ _ E); lia.
Qed.
Lemma regions_delete r a : regions_ok r -> regions_ok (delete a r).
Proof. intros [H1 H2]. split; intros *; rewrite ?lookup_delete_Some; naive_solver. Qed.

(** ** The slots of a pool *)

(** The free list of a pool, linked through the second words. *)
Fixpoint free_chain (m : gmap Z Z) (h : Z) (l : list Z) : Prop :=
  match l with
  | [] => h = 0
  | x :: l => h = x /\ x <> 0 /\ exists n, m !! (x + 8) = Some n /\ free_chain m n l
  end.
Definition hd_ok (wh hd : Z) : Prop := 0 < hd < 2 ^ 64 /\ 2 <= Whsize_hd hd <= wh.
(** The free list holds exactly the slots with a zero header; the others hold
    blocks that fit, and those for which [sw] holds are not garbage. *)
Record slab_ok (m : gmap Z Z) (g : Z) (sw : Z -> Prop) (i nobj a : Z) (fl : list Z) : Prop := {
  sl_chain : free_chain m nobj fl;
  sl_nodup : NoDup fl;
  sl_free : forall x, x ∈ fl <-> x ∈ slots a i /\ m !! x = Some 0;
  sl_used : forall x hd, x ∈ slots a i -> m !! x = Some hd -> hd <> 0 -> hd_ok (wsize_sizeclass i) hd /\ (sw x -> Color_hd hd <> g);
}.
(** The words of a pool are there. *)
Definition in_pool (a x : Z) : Prop := a + 32 <= x < a + 32768 /\ (x - a) mod 8 = 0.
Definition pool_mapped (m : gmap Z Z) (a : Z) : Prop := forall x, in_pool a x -> is_Some (m !! x).
Definition pool_ok (dirty : bool) (m : gmap Z Z) (g : Z) (ps : gmap Z pool) (q : plist) (a : Z) : Prop :=
  is_class (class_of q) /\ exists p fl, ps !! a = Some p /\ sz p = class_of q /\
    slab_ok m g (fun _ => dirty || unswept q = false) (class_of q) (next_obj p) a fl /\ (fl = [] <-> full q = true).
Definition lunswept (q : llist) : bool := match q with unswept_large _ => true | _ => false end.
Definition large_ok (dirty : bool) (m : gmap Z Z) (g : Z) (r : gmap Z (bool * Z)) (q : llist) (a : Z) : Prop :=
  exists hd, m !! (a + LARGE_ALLOC_HEADER_SZ) = Some hd /\ 0 < hd < 2 ^ 64 /\ 128 < Whsize_hd hd /\
    r !! a = Some (false, 16 + 8 * Whsize_hd hd) /\
    (forall k, 0 <= k < Whsize_hd hd -> is_Some (m !! (a + LARGE_ALLOC_HEADER_SZ + 8 * k))) /\
    (dirty || lunswept q = false -> Color_hd hd <> g).
Record colors_ok (c : global_heap_state) : Prop := {
  co_marked : MARKED c = 0 \/ MARKED c = 256 \/ MARKED c = 512;
  co_unmarked : UNMARKED c = 0 \/ UNMARKED c = 256 \/ UNMARKED c = 512;
  co_garbage : GARBAGE c = 0 \/ GARBAGE c = 256 \/ GARBAGE c = 512;
  co_distinct : MARKED c <> UNMARKED c /\ MARKED c <> GARBAGE c /\ UNMARKED c <> GARBAGE c;
}.

(** ** The invariant *)

Section invariant.
Context `{Laws : OsLaws}.

Definition pool_region (st : state) (a : Z) : Prop := regions (system st) !! a = Some (true, 32768) /\ pool_mapped (mem st) a.
(** [x] and [y] are what the statistics count apart from the lists; when the colours
    have just changed the heap is [dirty]: the swept lists hold garbage too. *)
Record InvG (dirty : bool) (x : option Z -> stat -> Z) (y : option Z -> lstat -> Z) (st : state) (ls : plist -> list Z) (lls : llist -> list Z) : Prop := {
  iv_linked : linked next (valid (heaps st)) (pools st) (heads st) ls;
  iv_llinked : linked l_next (lvalid (heaps st)) (larges st) (lheads st) lls;
  iv_regions : regions_ok (regions (system st));
  iv_region : forall q a, a ∈ ls q -> pool_region st a;
  iv_free : forall a, a ∈ ls freelist -> exists p, pools st !! a = Some p /\ owner p = None;
  iv_pool : forall q a, a ∈ ls q -> q <> freelist -> pool_ok dirty (mem st) (GARBAGE (colors st)) (pools st) q a;
  iv_large : forall q a, a ∈ lls q -> large_ok dirty (mem st) (GARBAGE (colors st)) (regions (system st)) q a;
  iv_colors : colors_ok (colors st);
  iv_stats : forall k t, (forall d, k = Some d -> d ∈ heaps st) ->
    eqm 64 (get_stat t (stats st k)) (total (weight t (mem st)) ls (places k) + x k t);
  iv_lstats : forall k t, (forall d, k = Some d -> d ∈ heaps st) ->
    eqm 64 (get_lstat t (stats st k)) (total (lweight t (mem st)) lls (lplaces k) + y k t);
}.
Definition nothing : option Z -> stat -> Z := fun _ _ => 0.
Definition lnothing : option Z -> lstat -> Z := fun _ _ => 0.
#[local] Notation Inv dirty x := (InvG dirty x lnothing).
(** The share of one pool in the statistics of [k]. *)
Definition share (k : option Z) (m : gmap Z Z) (i a : Z) : option Z -> stat -> Z :=
  fun k' t => if decide (k' = k) then pool_weight t m i a else 0.
(** The lists of the size classes before [next_to_sweep] are swept. *)
Definition next_ok (st : state) (ls : plist -> list Z) : Prop :=
  forall d, d ∈ heaps st -> 0 <= next_to_sweep st d <= NUM_SIZECLASSES /\
    forall i, 0 <= i < next_to_sweep st d -> ls (unswept_avail_pools d i) = [] /\ ls (unswept_full_pools d i) = [].
Definition heap_ok (st : state) : Prop := exists ls lls, Inv false nothing st ls lls /\ next_ok st ls.

(** ** Blocks *)

(** [a] is in the list that starts at [h]. *)
Inductive in_list {N} (nx : N -> Z) (m : gmap Z N) : Z -> Z -> Prop :=
| in_head a : a <> 0 -> in_list nx m a a
| in_tail h n a : h <> 0 -> m !! h = Some n -> in_list nx m (nx n) a -> in_list nx m h a.
(** The blocks of the heap: the slots with a nonzero header, and the large
    blocks, of the lists of the heaps that exist. *)
Definition live (st : state) (p hd : Z) : Prop :=
  (exists q a, q <> freelist /\ valid (heaps st) q = true /\ in_list next (pools st) (heads st q) a /\
     p ∈ slots a (class_of q) /\ mem st !! p = Some hd /\ hd <> 0) \/
  (exists q a, lvalid (heaps st) q = true /\ in_list l_next (larges st) (lheads st q) a /\
     p = a + LARGE_ALLOC_HEADER_SZ /\ mem st !! p = Some hd).
Definition live_in (ls : plist -> list Z) (lls : llist -> list Z) (m : gmap Z Z) (p hd : Z) : Prop :=
  (exists q a, q <> freelist /\ a ∈ ls q /\ p ∈ slots a (class_of q) /\ m !! p = Some hd /\ hd <> 0) \/
  (exists q a, a ∈ lls q /\ p = a + LARGE_ALLOC_HEADER_SZ /\ m !! p = Some hd).

Lemma chain_in_list {N} (nx : N -> Z) m h l a : chain nx m h l -> in_list nx m h a <-> a ∈ l.
Proof.
  revert h. induction l as [|b l IH]; intros h; simpl.
  - intros ->. split; [|by intros ?%elem_of_nil]. by inversion 1.
  - intros (-> & Hb & n & E & Hc). rewrite elem_of_cons, <- (IH _ Hc). split.
    + inversion 1; simplify_eq; auto.
    + intros [->|Ha]; [by constructor|]. by eapply in_tail.
Qed.
Lemma linked_in_list {N L} `{EqDecision L} (nx : N -> Z) (ok : L -> bool) m heads ls q a : linked nx ok m heads ls ->
  ok q = true /\ in_list nx m (heads q) a <-> a ∈ ls q.
Proof.
  intros H. split.
  - intros [Hq Hi]. by apply (chain_in_list nx _ _ _ _ (lk_chain _ _ _ _ _ H q Hq)).
  - intros Ha. pose proof (linked_ok _ _ _ _ _ _ _ H Ha) as Hq. split; [done|].
    by apply (chain_in_list nx _ _ _ _ (lk_chain _ _ _ _ _ H q Hq)).
Qed.
Lemma live_lists dirty x st ls lls p hd : Inv dirty x st ls lls -> live st p hd <-> live_in ls lls (mem st) p hd.
Proof.
  intros H. unfold live, live_in. pose proof (fun q a => linked_in_list next _ _ _ _ q a (iv_linked _ _ _ _ _ _ H)) as E.
  pose proof (fun q a => linked_in_list l_next _ _ _ _ q a (iv_llinked _ _ _ _ _ _ H)) as F.
  split; (intros [(q & a & Hx)|(q & a & Hx)]; [left; specialize (E q a)|right; specialize (F q a)]; exists q, a; tauto).
Qed.

(** ** Framing *)

Lemma slot_in_pool a i x k : is_class i -> x ∈ slots a i -> 0 <= k < wsize_sizeclass i -> in_pool a (x + 8 * k).
Proof.
  intros H Hx Hk. destruct (slot_range a i x H Hx) as (? & ? & Hm). split; [lia|].
  replace (x + 8 * k - a) with (x - a + k * 8) by lia. by rewrite Z_mod_plus_full.
Qed.
Lemma slot_header_in a i x : is_class i -> x ∈ slots a i -> in_pool a x.
Proof. intros H Hx. pose proof (class_facts i H). replace x with (x + 8 * 0) by lia. eapply slot_in_pool; [done..|lia]. Qed.
Lemma slot_link_in a i x : is_class i -> x ∈ slots a i -> in_pool a (x + 8).
Proof. intros H Hx. pose proof (class_facts i H). replace (x + 8) with (x + 8 * 1) by lia. eapply slot_in_pool; [done..|lia]. Qed.
Lemma free_chain_ext m m' h l : (forall x, x ∈ l -> m' !! (x + 8) = m !! (x + 8)) -> free_chain m h l -> free_chain m' h l.
Proof.
  revert h. induction l as [|x l IH]; intros h; simpl; [done|]. intros Hm (-> & Hx & n & E & Hc). split_and!; [done..|].
  exists n. rewrite Hm by left. split; [done|]. apply IH; [|done]. intros y Hy. apply Hm. by right.
Qed.
Lemma slab_ok_ext m m' g sw i nobj a fl : is_class i -> (forall x, in_pool a x -> m' !! x = m !! x) -> slab_ok m g sw i nobj a fl -> slab_ok m' g sw i nobj a fl.
Proof.
  intros Hi Hm [H1 H2 H3 H4]. split; [|done| |].
  - eapply free_chain_ext; [|done]. intros x [Hx _]%H3. apply Hm. by eapply slot_link_in.
  - intros x. rewrite H3. split; intros [Hx ?]; (split; [done|]); [rewrite Hm|rewrite Hm in *]; try done; by eapply slot_header_in.
  - intros x hd Hx. rewrite Hm by (by eapply slot_header_in). auto.
Qed.
Lemma pool_weight_ext t m m' i a : is_class i -> (forall x, in_pool a x -> m' !! x = m !! x) -> pool_weight t m' i a = pool_weight t m i a.
Proof.
  intros Hi Hm. unfold pool_weight. f_equal. apply sum_ext. intros x Hx. unfold slot_share.
  rewrite Hm; [done|]. by eapply slot_header_in.
Qed.
Lemma pools_apart r a b x : regions_ok r -> r !! a = Some (true, 32768) -> r !! b = Some (true, 32768) -> a <> b -> in_pool a x -> ~ in_pool b x.
Proof. intros H Ha Hb Hne Hx Hy. destruct (rg_apart _ H _ _ _ _ _ _ Ha Hb Hne); unfold in_pool in *; lia. Qed.
Lemma pool_large_apart r a b n x : regions_ok r -> r !! a = Some (true, 32768) -> r !! b = Some (false, n) -> b <= x < b + n -> ~ in_pool a x.
Proof.
  intros H Ha Hb Hx Hy. assert (a <> b) as Hne by congruence.
  destruct (rg_apart _ H _ _ _ _ _ _ Ha Hb Hne); unfold in_pool in *; lia.
Qed.
Lemma larges_apart r a b n m x : regions_ok r -> r !! a = Some (false, n) -> r !! b = Some (false, m) -> a <> b -> a <= x < a + n -> ~ b <= x < b + m.
Proof. intros H Ha Hb Hne Hx Hy. destruct (rg_apart _ H _ _ _ _ _ _ Ha Hb Hne); lia. Qed.

Lemma large_ok_ext dirty m m' g r r' q a : (forall x, (exists n, r !! a = Some (false, n) /\ a <= x < a + n) -> m' !! x = m !! x) -> r' !! a = r !! a ->
  large_ok dirty m g r q a -> large_ok dirty m' g r' q a /\ forall t, lweight t m' q a = lweight t m q a.
Proof.
  intros Hm Hr (hd & E & Hh & Hw & Er & Hk & Hc). unfold LARGE_ALLOC_HEADER_SZ in *.
  assert (m' !! (a + 16) = m !! (a + 16)) as E' by (apply Hm; eexists; split; [done|lia]).
  split; [|intros t; unfold lweight, LARGE_ALLOC_HEADER_SZ; by rewrite E'].
  exists hd. unfold LARGE_ALLOC_HEADER_SZ. rewrite E', Hr. split_and!; try done; [lia|lia|].
  intros k Hk'. rewrite Hm; [auto|]. eexists; split; [done|lia].
Qed.
Lemma pool_ok_ext dirty m m' g ps ps' q a : (forall x, in_pool a x -> m' !! x = m !! x) -> ps' !! a = ps !! a ->
  pool_ok dirty m g ps q a -> pool_ok dirty m' g ps' q a /\ forall t, weight t m' q a = weight t m q a.
Proof.
  intros Hm Hp (Hc & p & fl & E & Hs & Hsl & Hf). split; [|intros t; by apply pool_weight_ext].
  split; [done|]. exists p, fl. rewrite Hp. split_and!; try done; [|apply Hf..]. by eapply slab_ok_ext.
Qed.
Lemma mapped_ext m m' a : (forall x, in_pool a x -> m' !! x = m !! x) -> pool_mapped m a -> pool_mapped m' a.
Proof. intros Hm H x Hx. rewrite Hm by done. auto. Qed.

Lemma eqm_eq w a b : a = b -> eqm w a b.
Proof. by intros ->. Qed.
Lemma Inv_x dirty x x' st ls lls : (forall k t, x' k t = x k t) -> Inv dirty x st ls lls -> Inv dirty x' st ls lls.
Proof. intros E H. destruct H. split; try done. intros. rewrite E. auto. Qed.

(** The words of memory of a pool that is in no list may change. *)
Lemma Inv_mem dirty x st ls lls a m : Inv dirty x st ls lls -> nowhere ls a -> regions (system st) !! a = Some (true, 32768) ->
  (forall y, ~ in_pool a y -> m !! y = mem st !! y) -> Inv dirty x (set_mem m st) ls lls.
Proof.
  intros H Ha Hr Hm.
  assert (forall q b, b ∈ ls q -> forall y, in_pool b y -> m !! y = mem st !! y) as Hp.
  { intros q b Hb y Hy. apply Hm. intros Hy'. destruct (iv_region _ _ _ _ _ _ H q b Hb) as [Hrb _].
    assert (b <> a) by (intros ->; by apply (Ha q)). by eapply (pools_apart _ b a y); [apply H|..]. }
  assert (forall q b, b ∈ lls q -> forall y, (exists n, regions (system st) !! b = Some (false, n) /\ b <= y < b + n) -> m !! y = mem st !! y) as Hl.
  { intros q b Hb y (n & Hn & Hy). apply Hm. eapply pool_large_apart; [apply H|done..]. }
  destruct H as [H1 H2 H3 H4 H5 H6 H7 H8 H9 H10]. split; simpl; try done.
  - intros q b Hb. destruct (H4 q b Hb) as [? Hmp]. split; [done|]. simpl. eapply mapped_ext; [|done]. eauto.
  - intros q b Hb Hq. eapply pool_ok_ext; [|done|by apply H6]. eauto.
  - intros q b Hb. eapply large_ok_ext; [|done|by apply H7]. eauto.
  - intros k t Hk. etransitivity; [by apply H9|]. apply eqm_eq. f_equal. apply total_ext. intros q b Hq Hb. symmetry.
    assert (q <> freelist) by (apply elem_of_places in Hq; naive_solver).
    eapply (pool_ok_ext dirty _ _ _ _ _ q b); [|reflexivity|by apply H6]. eauto.
  - intros k t Hk. etransitivity; [by apply H10|]. apply eqm_eq. f_equal. apply total_ext. intros q b Hq Hb. symmetry.
    eapply (large_ok_ext dirty _ _ _ _ _ q b); [|reflexivity|by apply H7]. eauto.
Qed.
(** So may its header. *)
Lemma Inv_put_pool dirty x st ls lls a p : Inv dirty x st ls lls -> nowhere ls a -> Inv dirty x (put_pool a p st) ls lls.
Proof.
  intros H Ha. assert (forall q b, b ∈ ls q -> <[a := p]> (pools st) !! b = pools st !! b) as Hp.
  { intros q b Hb. apply lookup_insert_ne. intros ->. by apply (Ha q). }
  destruct H. split; simpl; try done.
  - by apply linked_insert.
  - intros b Hb. rewrite (Hp freelist) by done. auto.
  - intros q b Hb Hq. eapply pool_ok_ext; [done|by apply (Hp q)|auto].
Qed.
Lemma Inv_stats dirty x x' st ls lls k f : Inv dirty x st ls lls ->
  (forall t, eqm 64 (get_stat t (f (stats st k))) (get_stat t (stats st k) + (x' k t - x k t))) ->
  (forall k' t, k' <> k -> x' k' t = x k' t) ->
  (forall t, eqm 64 (get_lstat t (f (stats st k))) (get_lstat t (stats st k))) ->
  Inv dirty x' (update_stats k f st) ls lls.
Proof.
  intros H Hf Hx Hl. destruct H. split; simpl; try done.
  - intros k' t Hk. destruct (decide (k = k')) as [->|].
    + rewrite fn_lookup_insert. etransitivity; [apply Hf|]. etransitivity; [apply eqm_add; [by apply iv_stats0|reflexivity]|]. apply eqm_eq. lia.
    + rewrite fn_lookup_insert_ne, Hx by done. auto.
  - intros k' t Hk. destruct (decide (k = k')) as [->|].
    + rewrite fn_lookup_insert. etransitivity; [apply Hl|auto].
    + rewrite fn_lookup_insert_ne by done. auto.
Qed.

(** ** Moving pools *)

(** What the statistics count for a pool of list [q]. *)
Definition counted (q : plist) (m : gmap Z Z) (i a : Z) : option Z -> stat -> Z :=
  match group q with Some k => share k m i a | None => nothing end.
Lemma valid_in_range H q k : valid H q = true -> group q = Some k -> in_range (class_of q) = true.
Proof. unfold valid. intros Hv Hg. rewrite Hg in Hv. destruct k; [by apply andb_prop in Hv as []|done]. Qed.
Lemma total_list H t m ls q l k : valid H q = true ->
  total (weight t m) (<[q := l]> ls) (places k) =
  total (weight t m) ls (places k) + (if decide (group q = Some k) then sum (weight t m q) l - sum (weight t m q) (ls q) else 0).
Proof.
  intros Hv. rewrite total_insert by apply places_NoDup. f_equal.
  destruct (decide (q ∈ places k)) as [Hq|Hq]; rewrite elem_of_places in Hq; destruct (decide (group q = Some k)) as [E|E]; try done; [naive_solver|].
  exfalso. apply Hq. split; [done|]. by eapply valid_in_range.
Qed.
Lemma counted_eq q m i a k t : counted q m i a k t = if decide (group q = Some k) then pool_weight t m i a else 0.
Proof. unfold counted, share, nothing. destruct (group q) as [k'|]; repeat destruct decide; naive_solver. Qed.

Lemma Inv_pop dirty x st ls lls q a l p : Inv dirty x st ls lls -> ls q = a :: l -> pools st !! a = Some p ->
  Inv dirty (fun k t => x k t + counted q (mem st) (class_of q) a k t) (set_head q (next p) st) (<[q := l]> ls) lls /\
  nowhere (<[q := l]> ls) a.
Proof.
  intros H E Ea. destruct (linked_pop next q a l p (iv_linked _ _ _ _ _ _ H) E Ea) as [Hl Hn]. split; [|done].
  assert (forall r b, b ∈ (<[q := l]> ls) r -> b ∈ ls r) as Hsub.
  { intros r b Hb. destruct (decide (q = r)) as [->|]; [|by rewrite fn_lookup_insert_ne in Hb].
    rewrite fn_lookup_insert in Hb. rewrite E. by right. }
  assert (valid (heaps st) q = true) as Hv by (eapply linked_ok; [apply H|]; rewrite E; left).
  destruct H. split; simpl; eauto.
  intros k t Hk. etransitivity; [by apply iv_stats0|]. apply eqm_eq. rewrite (total_list (heaps st)), E, counted_eq by done.
  simpl. destruct decide; unfold weight; lia.
Qed.
Lemma Inv_push dirty x st ls lls q a p : Inv dirty x st ls lls -> nowhere ls a -> valid (heaps st) q = true -> a <> 0 ->
  pool_region st a -> next p = heads st q ->
  (if decide (q = freelist) then owner p = None else pool_ok dirty (mem st) (GARBAGE (colors st)) (<[a := p]> (pools st)) q a) ->
  Inv dirty (fun k t => x k t - counted q (mem st) (class_of q) a k t) (set_head q a (put_pool a p st)) (<[q := a :: ls q]> ls) lls.
Proof.
  intros H Hn Hv Hz Hr Hp Hok. pose proof (linked_push next q a p (iv_linked _ _ _ _ _ _ H) Hn Hv Hz Hp) as Hl.
  apply (Inv_put_pool _ _ _ _ _ a p) in H; [|done].
  assert (forall r b, b ∈ (<[q := a :: ls q]> ls) r -> (b = a /\ r = q) \/ b ∈ ls r) as Hin.
  { intros r b Hb. destruct (decide (q = r)) as [->|]; [|by rewrite fn_lookup_insert_ne in Hb; auto].
    rewrite fn_lookup_insert in Hb. apply elem_of_cons in Hb as [->|]; auto. }
  destruct H. split; simpl in *; eauto.
  - intros r b [[-> ->]|Hb]%Hin; [|eauto]. done.
  - intros b [[-> <-]|Hb]%Hin; [|eauto]. destruct decide; [|done]. exists p. by rewrite lookup_insert_eq.
  - intros r b [[-> ->]|Hb]%Hin Hq; [|by eapply iv_pool0]. by destruct decide.
  - intros k t Hk. etransitivity; [by apply iv_stats0|]. apply eqm_eq. rewrite (total_list (heaps st)), counted_eq by done.
    simpl. destruct (decide (group q = Some k)); unfold weight; lia.
Qed.

(** Only the values of the heads matter. *)
Lemma Inv_heads dirty x st ls lls f : Inv dirty x st ls lls -> (forall q, f q = heads st q) -> Inv dirty x (set_heads f st) ls lls.
Proof.
  intros H Hf. destruct H as [[Hc H2 H3 H4] ? ? ? ? ? ? ? ? ?]. split; try done. split; try done. simpl. intros q Hq. rewrite Hf. by apply Hc.
Qed.
(** The state of the pool at the head of a list, once taken from it. *)
Lemma Inv_head dirty x st ls lls q : Inv dirty x st ls lls -> valid (heaps st) q = true ->
  (heads st q = 0 /\ ls q = []) \/
  exists a l p, heads st q = a /\ a <> 0 /\ ls q = a :: l /\ pools st !! a = Some p /\ pool_region st a.
Proof.
  intros H Hv. destruct (ls q) as [|a l] eqn:E.
  - left. split; [|done]. by apply (linked_null _ _ _ _ _ _ (iv_linked _ _ _ _ _ _ H) Hv).
  - right. assert (a ∈ ls q) as Ha by (rewrite E; left).
    destruct (linked_node _ _ _ _ _ _ _ (iv_linked _ _ _ _ _ _ H) Ha) as [Hz [p Ep]].
    exists a, l, p. split_and!; try done; [by eapply linked_head; [apply H|]|]. by apply (iv_region _ _ _ _ _ _ H q).
Qed.
End invariant.
Notation Inv dirty x := (InvG dirty x lnothing).
End PoolHeapInv.
