(* ===== verification/PoolHeapSweep.v ===== *)
(** * Sweeping the pools of the shared heap

    What [pool_sweep] does to a pool: the garbage blocks, and only those, become
    free slots; their custom finalisers run, once each; the statistics follow;
    the pool goes to the list of full pools, to that of available pools, or
    back to the free pools. *)

From S2P Require Import Prelude Memory PoolHeap PoolHeapInv.
From stdpp Require Import list functions gmap.
#[local] Open Scope Z_scope.
Import PoolHeap PoolHeapInv.
#[local] Notation eqm := Prelude.eqm.

Module PoolHeapSweep.
Section sweep.
Context `{Laws : OsLaws}.

(** ** Statistics *)

Definition delta (pw plw plb pf : Z) (t : stat) : Z :=
  match t with s_words => pw | s_live_words => plw | s_live_blocks => plb | s_frag_words => pf end.
Lemma get_add_pool t pw plw plb pf h : eqm 64 (get_stat t (add_pool_stats pw plw plb pf h)) (get_stat t h + delta pw plw plb pf t).
Proof. destruct t; apply eqm_of_swrap; lia. Qed.
Lemma lget_add_pool t pw plw plb pf h : get_lstat t (add_pool_stats pw plw plb pf h) = get_lstat t h.
Proof. by destruct t. Qed.
(** Counters of pools change with the shares that are not in lists. *)
Lemma Inv_add_pool dirty x x' st ls lls k pw plw plb pf : Inv dirty x st ls lls ->
  (forall t, x' k t = x k t + delta pw plw plb pf t) -> (forall k' t, k' <> k -> x' k' t = x k' t) ->
  Inv dirty x' (update_stats k (add_pool_stats pw plw plb pf) st) ls lls.
Proof.
  intros H Hk Hx. eapply Inv_stats; [done| |done|].
  - intros t. etransitivity; [apply get_add_pool|]. apply eqm_eq. rewrite Hk. lia.
  - intros t. by rewrite lget_add_pool.
Qed.

(** ** Freeing one slot *)

Lemma slot_share_ne t m m' wh x : m' !! x = m !! x -> slot_share t m' wh x = slot_share t m wh x.
Proof. unfold slot_share. by intros ->. Qed.
(** The header of one slot changes. *)
Lemma weight_header t m m' i a x hd hd' : is_class i -> x ∈ slots a i -> m !! x = Some hd -> m' !! x = Some hd' ->
  (forall y, y ∈ slots a i -> y <> x -> m' !! y = m !! y) ->
  pool_weight t m' i a = pool_weight t m i a +
    ((if hd' =? 0 then 0 else block_share t (wsize_sizeclass i) hd') - (if hd =? 0 then 0 else block_share t (wsize_sizeclass i) hd)).
Proof.
  intros Hi Hx E E' Hne. unfold pool_weight.
  rewrite (sum_update (slot_share t m (wsize_sizeclass i)) _ _ x); [|by apply slots_NoDup|done|].
  - unfold slot_share. rewrite E, E'. lia.
  - intros y Hy Hyx. apply slot_share_ne. auto.
Qed.
Lemma slab_free_slot m g (sw sw' : Z -> Prop) i nobj a fl x hd : is_class i -> 0 < a -> x ∈ slots a i -> m !! x = Some hd -> hd <> 0 ->
  slab_ok m g sw i nobj a fl -> (forall y, sw' y -> y = x \/ sw y) ->
  slab_ok (<[x + 8 := nobj]> (<[x := 0]> m)) g sw' i x a (x :: fl).
Proof.
  intros Hi Ha Hx E Hhd [H1 H2 H3 H4] Hsw. set (m' := <[x + 8 := nobj]> (<[x := 0]> m)).
  assert (x ∉ fl) as Hxfl by (intros [_ F]%H3; congruence).
  assert (forall y, y ∈ slots a i -> m' !! y = if decide (y = x) then Some 0 else m !! y) as Hm.
  { intros y Hy. unfold m'. rewrite lookup_insert_ne by (by eapply slot_second).
    destruct decide as [->|]; [by rewrite lookup_insert_eq|by rewrite lookup_insert_ne]. }
  split.
  - simpl. split_and!; [done| |].
    + pose proof (slot_range a i x Hi Hx). lia.
    + exists nobj. split; [apply lookup_insert_eq|]. eapply free_chain_ext; [|done]. intros y Hy.
      unfold m'. rewrite !lookup_insert_ne; [done| |].
      * apply not_eq_sym. apply H3 in Hy as [Hy _]. by eapply slot_second.
      * intros ?. assert (y = x) as -> by lia. done.
  - by apply NoDup_cons.
  - intros y. rewrite elem_of_cons, H3. split.
    + intros [->|[Hy Ey]]; (split; [done|]); rewrite Hm by done; by destruct decide.
    + intros [Hy Ey]. rewrite Hm in Ey by done. destruct decide; auto.
  - intros y hd' Hy Ey Hn. rewrite Hm in Ey by done. destruct decide; [congruence|]. destruct (H4 y hd' Hy Ey Hn) as [? ?].
    split; [done|]. intros [?|?]%Hsw; auto.
Qed.

(** ** The garbage of a pool *)

Definition garbage_at (m : gmap Z Z) (g x : Z) : bool :=
  match m !! x with Some hd => negb (hd =? 0) && Has_status_hd hd g | None => false end.
(** The block passed to its finaliser, if it is a custom block that has one. *)
Definition finals (m : gmap Z Z) (x : Z) : list Z :=
  match m !! x, m !! (x + 8) with
  | Some hd, Some ops => if (Tag_hd hd =? Custom_tag) && finalize ops then [x + 8] else []
  | _, _ => []
  end.

Section one_pool.
Context (d i a : Z) (p : pool) (s0 : state) (release : bool) (x : option Z -> stat -> Z) (ls : plist -> list Z) (lls : llist -> list Z).
Let g := GARBAGE (colors s0).
Let wh := wsize_sizeclass i.
Let gone (l : list Z) : list Z := filter (fun x => garbage_at (mem s0) g x = true) l.

(** The loop has gone through the slots [done]. *)
Record sweep_inv (done : list Z) (y : sweeping) : Prop := {
  sw_heads : heads (sw_state y) = heads s0;
  sw_lheads : lheads (sw_state y) = lheads s0;
  sw_heaps : heaps (sw_state y) = heaps s0;
  sw_next : next_to_sweep (sw_state y) = next_to_sweep s0;
  sw_colors : colors (sw_state y) = colors s0;
  sw_system : system (sw_state y) = system s0;
  sw_larges : larges (sw_state y) = larges s0;
  sw_Inv : Inv false (fun k t => x k t + share (Some d) (mem (sw_state y)) i a k t) (sw_state y) ls lls;
  sw_pool : exists nobj fl, pools (sw_state y) = <[a := set_next_obj nobj p]> (pools s0) /\
    slab_ok (mem (sw_state y)) g (.∈ done) i nobj a fl;
  sw_mapped : pool_mapped (mem (sw_state y)) a;
  sw_mem : forall z, (forall b, b ∈ gone done -> z <> b /\ z <> b + 8) -> mem (sw_state y) !! z = mem s0 !! z;
  sw_freed : forall b, b ∈ gone done -> mem (sw_state y) !! b = Some 0;
  sw_final : finalised (sw_state y) = finalised s0 ++ (gone done ≫= finals (mem s0));
  sw_all_used : all_used y = true <-> forall b, b ∈ done -> mem (sw_state y) !! b <> Some 0;
  sw_release : release_to_global_pool y = true -> release = true /\ forall b, b ∈ done -> mem (sw_state y) !! b = Some 0;
  sw_work : work y = wh * Z.of_nat (length done);
}.

Context (Hi : is_class i) (Ha : 0 < a) (Hreg : regions (system s0) !! a = Some (true, 32768)) (Hn : nowhere ls a) (Hp : sz p = i).

Lemma gone_snoc done b : gone (done ++ [b]) = gone done ++ (if garbage_at (mem s0) g b then [b] else []).
Proof. unfold gone. rewrite filter_app. f_equal. rewrite filter_cons. destruct (garbage_at _ _ b) eqn:E; by case_decide. Qed.
Lemma gone_sub done b : b ∈ gone done -> b ∈ done.
Proof. unfold gone. rewrite list_elem_of_filter. by intros []. Qed.

(** A slot that the loop has not reached holds what it held. *)
Lemma sweep_unseen done b rest y k : slots a i = done ++ b :: rest -> sweep_inv done y -> 0 <= k < wh ->
  mem (sw_state y) !! (b + 8 * k) = mem s0 !! (b + 8 * k).
Proof.
  intros E H Hk. apply (sw_mem _ _ H). intros c Hc%gone_sub. pose proof (class_facts i Hi).
  assert (b ∈ slots a i /\ c ∈ slots a i) as [Hb Hc'] by (rewrite E; set_solver).
  assert (c <> b) as Hne. { intros ->. pose proof (slots_NoDup a i Hi) as Hnd. rewrite E in Hnd. apply NoDup_app in Hnd as (_ & Hd & _). eapply Hd; [done|left]. }
  pose proof (slot_apart a i c b Hi Hc' Hb Hne). unfold wh in *. lia.
Qed.

(** A slot that is free or holds a block that is not garbage. *)
Lemma sweep_keep done b rest y hd au rel : slots a i = done ++ b :: rest -> sweep_inv done y ->
  mem (sw_state y) !! b = Some hd -> garbage_at (mem s0) g b = false ->
  (au = true <-> all_used y = true /\ hd <> 0) -> (rel = true -> release_to_global_pool y = true /\ hd = 0) ->
  sweep_inv (done ++ [b]) (mksweep (sw_state y) au rel (work y + wh)).
Proof.
  intros E H Eb Hgb Hau Hrel. assert (gone (done ++ [b]) = gone done) as Eg by (rewrite gone_snoc, Hgb; apply app_nil_r).
  assert (mem s0 !! b = Some hd) as Eb0.
  { pose proof (sweep_unseen done b rest y 0 E H) as F. pose proof (class_facts i Hi). rewrite Z.mul_0_r, Z.add_0_r in F. rewrite <- F; [done|]. unfold wh. lia. }
  destruct H as [? ? ? ? ? ? ? HI (nobj & fl & Ep & Hs) ? Hm Hf Hfin Hall Hr Hw]. split; cbn [sw_state all_used release_to_global_pool work]; try done.
  - exists nobj, fl. split; [done|]. destruct Hs as [H1 H2 H3 H4]. split; try done. intros z hd' Hz Ez Hnz.
    destruct (H4 z hd' Hz Ez Hnz) as [? ?]. split; [done|]. intros [?| ->%list_elem_of_singleton]%elem_of_app; [auto|].
    unfold garbage_at in Hgb. rewrite Eb0 in Hgb. assert (hd' = hd) as -> by congruence.
    unfold Has_status_hd in Hgb. intros F. rewrite F, Z.eqb_refl in Hgb. lia.
  - rewrite Eg. done.
  - rewrite Eg. done.
  - rewrite Eg. done.
  - rewrite Hau, Hall. split.
    + intros [? ?] c [?| ->%list_elem_of_singleton]%elem_of_app; [auto|congruence].
    + intros F. split; [intros c Hc; apply F; set_solver|]. intros ->. apply (F b); [set_solver|done].
  - intros [Hrel' ->]%Hrel. destruct (Hr Hrel') as [? F]. split; [done|].
    intros c [?| ->%list_elem_of_singleton]%elem_of_app; auto.
  - rewrite Hw, length_app. simpl. lia.
Qed.

Lemma poke_Ret z w (s : state) v : mem s !! z = Some v -> store z w s = Ret (set_mem (<[z := w]> (mem s)) s).
Proof. unfold store. by intros ->. Qed.
Lemma load_Ret z (s : state) v : mem s !! z = Some v -> load s z = Ret v.
Proof. unfold load. by intros ->. Qed.
Lemma get_pool_Ret z (s : state) v : pools s !! z = Some v -> get_pool s z = Ret v.
Proof. unfold get_pool. by intros ->. Qed.

(** The state after a garbage block at [b] was freed. *)
Definition freed_state (b hd nobj : Z) (fin : list Z) (s : state) : state :=
  mkstate (<[b + 8 := nobj]> (<[b := 0]> (mem s))) (<[a := set_next_obj b p]> (pools s)) (larges s) (heads s) (lheads s) (heaps s) (next_to_sweep s)
    (<[Some d := add_pool_stats 0 (- Whsize_hd hd) (-1) (- (wh - Whsize_hd hd)) (stats s (Some d))]> (stats s))
    (<[d := u64 (swept_words s d + Whsize_hd hd)]> (swept_words s)) (work_done s) (colors s) (system s) (finalised s ++ fin).
Lemma sweep_garbage_run b hd nobj s : mem s !! b = Some hd -> is_Some (mem s !! (b + 8)) -> pools s !! a = Some (set_next_obj nobj p) -> Whsize_hd hd <= wh ->
  sweep_garbage d a wh hd b s = Ret (freed_state b hd nobj (finals (mem s) b) s).
Proof.
  intros Eb [ops Eo] Ep Hw. unfold sweep_garbage. rewrite (proj2 (Z.leb_le _ _)) by done. cbn [CAMLassert mbind result_bind].
  assert (finalise_custom hd b s = Ret (mkstate (mem s) (pools s) (larges s) (heads s) (lheads s) (heaps s) (next_to_sweep s) (stats s)
    (swept_words s) (work_done s) (colors s) (system s) (finalised s ++ finals (mem s) b))) as ->.
  { unfold finalise_custom, finals. rewrite Eb, Eo. destruct (Tag_hd hd =? Custom_tag); [|rewrite app_nil_r; by destruct s].
    rewrite (load_Ret _ _ _ Eo). cbn [mbind result_bind]. destruct (finalize ops); simpl; [done|rewrite app_nil_r; by destruct s]. }
  cbn [mbind result_bind]. erewrite poke_Ret by done. cbn [mbind result_bind].
  erewrite get_pool_Ret by done. cbn [mbind result_bind].
  erewrite poke_Ret; [|simpl; rewrite lookup_insert_ne by lia; done]. done.
Qed.

Lemma sweep_free done b rest y hd : slots a i = done ++ b :: rest -> sweep_inv done y ->
  mem (sw_state y) !! b = Some hd -> garbage_at (mem s0) g b = true -> hd <> 0 -> exists s,
  sweep_garbage d a wh hd b (sw_state y) = Ret s /\
  sweep_inv (done ++ [b]) (mksweep s false (release_to_global_pool y) (work y + wh)).
Proof.
  intros E H Eb Hgb Hz. pose proof (class_facts i Hi) as Hcf. assert (b ∈ slots a i) as Hb by (rewrite E; set_solver).
  pose proof (sweep_unseen done b rest y 0 E H) as E0. pose proof (sweep_unseen done b rest y 1 E H) as E1.
  rewrite Z.mul_0_r, Z.add_0_r in E0. specialize (E0 ltac:(unfold wh; lia)). specialize (E1 ltac:(unfold wh; lia)). rewrite Z.mul_1_r in E1.
  assert (gone (done ++ [b]) = gone done ++ [b]) as Eg by (by rewrite gone_snoc, Hgb).
  destruct H as [? ? ? ? ? Hsys ? HI (nobj & fl & Ep & Hs) Hmap Hm Hf Hfin Hall Hr Hw]. set (s := sw_state y) in *.
  destruct (sl_used _ _ _ _ _ _ _ Hs b hd Hb Eb Hz) as [[? Hhd] _].
  destruct (Hmap (b + 8)) as [ops Eo]; [by eapply slot_link_in|].
  pose proof (sweep_garbage_run b hd nobj s Eb (ltac:(eauto)) ltac:(rewrite Ep; apply lookup_insert_eq) ltac:(unfold wh; lia)) as Erun.
  eexists. split; [exact Erun|]. set (m' := <[b + 8 := nobj]> (<[b := 0]> (mem s))).
  assert (forall z, z <> b -> z <> b + 8 -> m' !! z = mem s !! z) as Hm' by (intros z ??; unfold m'; by rewrite !lookup_insert_ne).
  assert (m' !! b = Some 0) as Eb' by (unfold m'; rewrite lookup_insert_ne by lia; apply lookup_insert_eq).
  split; cbn [sw_state all_used release_to_global_pool work freed_state heads lheads heaps next_to_sweep colors system larges pools mem finalised];
    fold m'; try done.
  - apply (Inv_mem _ _ _ _ _ a m') in HI; [|done|by rewrite Hsys|].
    2: { intros z Hz'. apply Hm'; intros ->; apply Hz'; [by eapply slot_header_in|by eapply slot_link_in]. }
    apply (Inv_put_pool _ _ _ _ _ a (set_next_obj b p)) in HI; [|done].
    apply (Inv_add_pool _ _ (fun k t => x k t + share (Some d) m' i a k t) _ _ _ (Some d) 0 (- Whsize_hd hd) (-1) (- (wh - Whsize_hd hd))) in HI.
    + destruct HI. split; done.
    + intros t. unfold share. rewrite !decide_True by done.
      rewrite (weight_header t (mem s) m' i a b hd 0) by (done || (intros; apply Hm'; [done|apply not_eq_sym; by eapply slot_second])).
      rewrite (proj2 (Z.eqb_neq hd 0)) by done. simpl. destruct t; simpl; unfold wh; lia.
    + intros k' t Hk. unfold share. by rewrite !decide_False by done.
  - exists b, (b :: fl). rewrite Ep, insert_insert_eq. split; [done|]. eapply slab_free_slot; eauto. set_solver.
  - intros z Hz'. destruct (Hmap z Hz') as [w Ew]. unfold m'. destruct (decide (z = b + 8)) as [->|]; [by rewrite lookup_insert_eq|].
    rewrite lookup_insert_ne by done. destruct (decide (z = b)) as [->|]; [by rewrite lookup_insert_eq|]. by rewrite lookup_insert_ne, Ew.
  - rewrite Eg. intros z Hz'. destruct (Hz' b) as [? ?]; [set_solver|]. rewrite Hm' by done. apply Hm. intros c Hc. apply Hz'. set_solver.
  - rewrite Eg. intros c [Hc| ->%list_elem_of_singleton]%elem_of_app; [|done].
    assert (c ∈ slots a i) as Hcs by (rewrite E; apply gone_sub in Hc; set_solver).
    destruct (decide (c = b)) as [->|]; [done|]. rewrite Hm'; [by apply Hf|done|]. apply not_eq_sym. by eapply slot_second.
  - rewrite Hfin, Eg, bind_app, <- app_assoc. do 2 f_equal. simpl. rewrite app_nil_r. unfold finals. by rewrite <- E0, <- E1.
  - split; [done|]. intros F. exfalso. apply (F b); [set_solver|done].
  - intros [Hr' F]%Hr. split; [done|]. intros c [Hc| ->%list_elem_of_singleton]%elem_of_app; [|done].
    destruct (decide (c = b)) as [->|]; [done|]. rewrite Hm'; [by apply F|done|].
    apply not_eq_sym. eapply slot_second; [done|done|]. rewrite E. set_solver.
  - rewrite Hw, length_app. simpl. lia.
Qed.

Lemma sweep_block_step done b rest y : slots a i = done ++ b :: rest -> sweep_inv done y ->
  exists y', sweep_block d a wh b y = Ret y' /\ sweep_inv (done ++ [b]) y'.
Proof.
  intros E H. assert (b ∈ slots a i) as Hb by (rewrite E; set_solver).
  destruct (sw_mapped _ _ H b) as [hd Eb]; [by eapply slot_header_in|].
  assert (mem s0 !! b = Some hd) as Eb0.
  { pose proof (sweep_unseen done b rest y 0 E H) as F. pose proof (class_facts i Hi). rewrite Z.mul_0_r, Z.add_0_r in F. rewrite <- F; [done|]. unfold wh. lia. }
  unfold sweep_block. rewrite (load_Ret _ _ _ Eb). cbn [mbind result_bind].
  assert (garbage_at (mem s0) g b = negb (hd =? 0) && Has_status_hd hd g) as Eg by (unfold garbage_at; by rewrite Eb0).
  rewrite (sw_colors _ _ H). fold g. destruct (Z.eqb_spec hd 0) as [Ez|Ez]; simpl in Eg.
  - eexists. split; [done|]. cbn [sw_state all_used release_to_global_pool work]. eapply sweep_keep; eauto; naive_solver.
  - destruct (Has_status_hd hd g).
    + destruct (sweep_free done b rest y hd E H Eb Eg Ez) as (s & -> & Hs). cbn [mbind result_bind sw_state all_used release_to_global_pool work]. eauto.
    + eexists. split; [done|]. cbn [sw_state all_used release_to_global_pool work]. eapply sweep_keep; eauto; naive_solver.
Qed.
Lemma sweep_loop y : sweep_inv [] y -> exists y', for_each (slots a i) (sweep_block d a wh) y = Ret y' /\ sweep_inv (slots a i) y'.
Proof. intros H. apply for_each_inv; [done|]. intros done b rest z E Hz. by eapply sweep_block_step. Qed.
End one_pool.

(** ** Blocks *)

(** The words of a block: its area of memory, and its slot or region. *)
Definition words_of (p hd z : Z) : Prop := p <= z < p + 8 * Whsize_hd hd.
Lemma live_size dirty x st ls lls p hd : Inv dirty x st ls lls -> live_in ls lls (mem st) p hd -> 2 <= Whsize_hd hd /\ 0 < hd < 2 ^ 64.
Proof.
  intros H [(q & a & Hq & Ha & Hp & E & Hz)|(q & a & Ha & -> & E)].
  - destruct (iv_pool _ _ _ _ _ _ H q a Ha Hq) as (_ & ? & ? & _ & _ & Hs & _). destruct (sl_used _ _ _ _ _ _ _ Hs p hd Hp E Hz) as [[? ?] _]. lia.
  - destruct (iv_large _ _ _ _ _ _ H q a Ha) as (hd' & E' & ? & ? & _). simplify_eq. lia.
Qed.
(** Two blocks do not overlap. *)
Lemma live_apart dirty x st ls lls p hd p' hd' z : Inv dirty x st ls lls ->
  live_in ls lls (mem st) p hd -> live_in ls lls (mem st) p' hd' -> p <> p' -> words_of p hd z -> ~ words_of p' hd' z.
Proof.
  intros H. assert (forall q a p hd, a ∈ ls q -> q <> freelist -> p ∈ slots a (class_of q) -> mem st !! p = Some hd -> hd <> 0 ->
    is_class (class_of q) /\ regions (system st) !! a = Some (true, 32768) /\ Whsize_hd hd <= wsize_sizeclass (class_of q)) as HP.
  { intros q a p1 hd1 Ha Hq Hp E Hz. destruct (iv_pool _ _ _ _ _ _ H q a Ha Hq) as (Hc & ? & ? & _ & _ & Hs & _).
    destruct (sl_used _ _ _ _ _ _ _ Hs p1 hd1 Hp E Hz) as [[? ?] _]. split_and!; [done|by apply (iv_region _ _ _ _ _ _ H q)|lia]. }
  assert (forall q a hd, a ∈ lls q -> mem st !! (a + LARGE_ALLOC_HEADER_SZ) = Some hd -> regions (system st) !! a = Some (false, 16 + 8 * Whsize_hd hd)) as HL.
  { intros q a hd1 Ha E. destruct (iv_large _ _ _ _ _ _ H q a Ha) as (hd2 & E' & ? & ? & Hr & _). by simplify_eq. }
  pose proof (iv_regions _ _ _ _ _ _ H) as Hr. unfold words_of, LARGE_ALLOC_HEADER_SZ in *.
  intros [(q & a & Hq & Ha & Hp & E & Hz)|(q & a & Ha & -> & E)] [(q' & a' & Hq' & Ha' & Hp' & E' & Hz')|(q' & a' & Ha' & -> & E')] Hne Hw Hw'.
  all: unfold LARGE_ALLOC_HEADER_SZ in *.
  - destruct (HP _ _ _ _ Ha Hq Hp E Hz) as (Hc & Hra & ?), (HP _ _ _ _ Ha' Hq' Hp' E' Hz') as (Hc' & Hra' & ?).
    destruct (decide (a = a')) as [<-|Haa].
    + assert (q = q') as <- by (by eapply (lk_disj _ _ _ _ _ (iv_linked _ _ _ _ _ _ H))).
      destruct (slot_apart a _ p p' Hc Hp Hp' Hne); lia.
    + pose proof (slot_range _ _ _ Hc Hp). pose proof (slot_range _ _ _ Hc' Hp'). destruct (rg_apart _ Hr _ _ _ _ _ _ Hra Hra' Haa); lia.
  - destruct (HP _ _ _ _ Ha Hq Hp E Hz) as (Hc & Hra & ?). pose proof (HL _ _ _ Ha' E') as Hra'. pose proof (slot_range _ _ _ Hc Hp).
    assert (a <> a') as Haa by congruence. destruct (rg_apart _ Hr _ _ _ _ _ _ Hra Hra' Haa); lia.
  - destruct (HP _ _ _ _ Ha' Hq' Hp' E' Hz') as (Hc & Hra' & ?). pose proof (HL _ _ _ Ha E) as Hra. pose proof (slot_range _ _ _ Hc Hp').
    assert (a <> a') as Haa by congruence. destruct (rg_apart _ Hr _ _ _ _ _ _ Hra Hra' Haa); lia.
  - pose proof (HL _ _ _ Ha E) as Hra. pose proof (HL _ _ _ Ha' E') as Hra'. assert (a <> a') as Haa by congruence.
    destruct (rg_apart _ Hr _ _ _ _ _ _ Hra Hra' Haa); lia.
Qed.

(** [D] are the blocks that a computation frees: garbage; the other blocks keep
    their place, header and contents. *)
Record Freed (st st' : state) (D : list Z) : Prop := {
  fr_live : forall p hd, live st' p hd <-> live st p hd /\ p ∉ D;
  fr_dead : forall p, p ∈ D -> exists hd, live st p hd /\ Color_hd hd = GARBAGE (colors st);
  fr_nodup : NoDup D;
  fr_mem : forall p hd z, live st' p hd -> words_of p hd z -> mem st' !! z = mem st !! z;
  fr_final : finalised st' = finalised st ++ (D ≫= finals (mem st));
  fr_colors : colors st' = colors st;
  fr_heaps : heaps st' = heaps st;
}.
Lemma Freed_none st st' : (forall p hd, live st' p hd <-> live st p hd) -> mem st' = mem st -> finalised st' = finalised st ->
  colors st' = colors st -> heaps st' = heaps st -> Freed st st' [].
Proof.
  intros Hl Hm Hf Hc Hh. split; try done.
  - intros p hd. rewrite Hl. set_solver.
  - set_solver.
  - constructor.
  - by rewrite Hm.
  - by rewrite app_nil_r.
Qed.
Lemma Freed_refl st : Freed st st [].
Proof. by apply Freed_none. Qed.
Lemma finals_live dirty x st st' ls lls D p hd : Inv dirty x st' ls lls -> Freed st st' D -> live st' p hd -> finals (mem st') p = finals (mem st) p.
Proof.
  intros HI H Hp. assert (2 <= Whsize_hd hd) by (eapply live_size; [done|]; by eapply live_lists).
  unfold finals. rewrite (fr_mem _ _ _ H p hd p), (fr_mem _ _ _ H p hd (p + 8)) by (done || (unfold words_of; lia)). done.
Qed.
Lemma Freed_trans dirty x st1 st2 st3 ls lls D D' : Inv dirty x st2 ls lls -> Freed st1 st2 D -> Freed st2 st3 D' -> Freed st1 st3 (D ++ D').
Proof.
  intros HI H1 H2. split.
  - intros p hd. rewrite (fr_live _ _ _ H2), (fr_live _ _ _ H1), not_elem_of_app. tauto.
  - intros p [Hp|Hp]%elem_of_app; [by apply (fr_dead _ _ _ H1)|]. apply (fr_dead _ _ _ H2) in Hp as (hd & Hl & Hc).
    exists hd. rewrite (fr_colors _ _ _ H1) in Hc. by apply (fr_live _ _ _ H1) in Hl as [? _].
  - apply NoDup_app. split_and!; [by eapply fr_nodup| |by eapply fr_nodup]. intros p Hp Hp'.
    apply (fr_dead _ _ _ H2) in Hp' as (hd & Hl & _). by apply (fr_live _ _ _ H1) in Hl as [_ ?].
  - intros p hd z Hp Hz. rewrite (fr_mem _ _ _ H2 p hd z Hp Hz). apply (fr_mem _ _ _ H1 p hd); [|done]. by apply (fr_live _ _ _ H2) in Hp as [? _].
  - rewrite (fr_final _ _ _ H2), (fr_final _ _ _ H1), bind_app, <- app_assoc. do 2 f_equal.
    assert (forall p, p ∈ D' -> finals (mem st2) p = finals (mem st1) p) as E.
    { intros p (hd & Hl & _)%(fr_dead _ _ _ H2). by eapply finals_live. }
    clear -E. induction D' as [|p D' IH]; [done|]. simpl. rewrite E by left. f_equal. apply IH. intros; apply E. by right.
  - rewrite (fr_colors _ _ _ H2). apply (fr_colors _ _ _ H1).
  - rewrite (fr_heaps _ _ _ H2). apply (fr_heaps _ _ _ H1).
Qed.

(** The blocks after the pool [a] was swept and moved from [q] to [dst]. *)
Lemma live_moved dirty x st ls lls q dst a l m (D : list Z) : Inv dirty x st ls lls -> ls q = a :: l -> q <> freelist ->
  (dst <> freelist -> class_of dst = class_of q) -> (dst = freelist -> forall b, b ∈ slots a (class_of q) -> m !! b = Some 0) ->
  (forall b, b ∈ D -> b ∈ slots a (class_of q) /\ m !! b = Some 0) ->
  (forall z, (forall b, b ∈ D -> z <> b /\ z <> b + 8) -> m !! z = mem st !! z) ->
  forall p hd, live_in (<[dst := a :: (<[q := l]> ls) dst]> (<[q := l]> ls)) lls m p hd <-> live_in ls lls (mem st) p hd /\ p ∉ D.
Proof.
  intros H E Hq Hc Hz HD Hm p hd. assert (a ∈ ls q) as Ha by (rewrite E; left).
  destruct (iv_pool _ _ _ _ _ _ H q a Ha Hq) as (Hcl & _). destruct (iv_region _ _ _ _ _ _ H q a Ha) as [Hra _].
  pose proof (lk_nodup _ _ _ _ _ (iv_linked _ _ _ _ _ _ H) q) as Hnd. rewrite E in Hnd. apply NoDup_cons in Hnd as [Hal _].
  set (ls' := <[dst := a :: (<[q := l]> ls) dst]> (<[q := l]> ls)).
  assert (forall r b, b ∈ ls' r <-> (b = a /\ r = dst) \/ (b <> a /\ b ∈ ls r)) as Hin.
  { intros r b. assert (b ∈ (<[q := l]> ls) r <-> b <> a /\ b ∈ ls r) as Hin1.
    { destruct (decide (q = r)) as [->|Hqr]; [rewrite fn_lookup_insert, E, elem_of_cons|rewrite fn_lookup_insert_ne by done].
      - split; [intros Hb; split; [by intros ->|by right]|tauto].
      - split; [|tauto]. intros Hb. split; [|done]. intros ->. apply Hqr. by eapply (lk_disj _ _ _ _ _ (iv_linked _ _ _ _ _ _ H)). }
    unfold ls'. destruct (decide (dst = r)) as [->|]; [rewrite fn_lookup_insert, elem_of_cons, Hin1|rewrite fn_lookup_insert_ne, Hin1 by done]; naive_solver. }
  assert (forall z, (in_pool a z -> False) -> m !! z = mem st !! z /\ z ∉ D) as Hout.
  { intros z Hzp. split.
    - apply Hm. intros b [Hb _]%HD. split; intros ->; apply Hzp; [by eapply slot_header_in|by eapply slot_link_in].
    - intros [Hb _]%HD. apply Hzp. by eapply slot_header_in. }
  assert (forall r b, b ∈ ls r -> r <> freelist -> b <> a -> p ∈ slots b (class_of r) -> m !! p = mem st !! p /\ p ∉ D) as Hother.
  { intros r b Hb Hr Hba Hp. apply Hout. destruct (iv_region _ _ _ _ _ _ H r b Hb) as [Hrb _]. destruct (iv_pool _ _ _ _ _ _ H r b Hb Hr) as (Hcr & _).
    eapply (pools_apart _ b a); [apply H|done..|]. by eapply slot_header_in. }
  assert (forall r b, b ∈ lls r -> p = b + LARGE_ALLOC_HEADER_SZ -> m !! p = mem st !! p /\ p ∉ D) as Hlarge.
  { intros r b Hb ->. apply Hout. destruct (iv_large _ _ _ _ _ _ H r b Hb) as (hd' & _ & _ & ? & Hrb & _).
    eapply pool_large_apart; [apply H|done..|]. unfold LARGE_ALLOC_HEADER_SZ. lia. }
  assert (p ∈ slots a (class_of q) -> p ∉ D -> m !! p = mem st !! p) as Hsame.
  { intros Hp Hpd. apply Hm. intros b Hb. split; [by intros ->|]. apply not_eq_sym. eapply slot_second; [done| |done]. by apply HD. }
  split.
  - intros [(r & b & Hr & [[-> ->]|[Hba Hb]]%Hin & Hp & Ep & Hnz)|(r & b & Hb & Ep & Em)].
    + rewrite Hc in Hp by done. assert (p ∉ D) as Hpd by (intros [_ ?]%HD; congruence).
      split; [|done]. left. exists q, a. rewrite <- Hsame by done. done.
    + destruct (Hother r b Hb Hr Hba Hp) as [Em ?]. split; [|done]. left. exists r, b. by rewrite <- Em.
    + destruct (Hlarge r b Hb Ep) as [Em' ?]. split; [|done]. right. exists r, b. by rewrite <- Em'.
  - intros [[(r & b & Hr & Hb & Hp & Ep & Hnz)|(r & b & Hb & Ep & Em)] Hpd].
    + left. destruct (decide (b = a)) as [->|Hba].
      * assert (r = q) as -> by (by eapply (lk_disj _ _ _ _ _ (iv_linked _ _ _ _ _ _ H))).
        destruct (decide (dst = freelist)) as [Hd|Hd]; [specialize (Hz Hd p Hp); rewrite Hsame in Hz by done; congruence|].
        exists dst, a. rewrite Hin, Hc, Hsame by done. auto 6.
      * destruct (Hother r b Hb Hr Hba Hp) as [Em _]. exists r, b. rewrite Hin, Em. auto 6.
    + right. destruct (Hlarge r b Hb Ep) as [Em' _]. exists r, b. by rewrite Em'.
Qed.

(** ** One pool *)

(** What sweeping a pool leaves alone. *)
Record same_rest (st st' : state) : Prop := {
  sr_size : size (pools st') = size (pools st);
  sr_larges : larges st' = larges st;
  sr_next : next_to_sweep st' = next_to_sweep st;
  sr_heaps : heaps st' = heaps st;
  sr_colors : colors st' = colors st;
  sr_system : system st' = system st;
}.
#[export] Instance same_rest_trans : Transitive same_rest.
Proof. intros s1 s2 s3 [] []. split; congruence. Qed.
#[export] Instance same_rest_refl : Reflexive same_rest.
Proof. by split. Qed.

Definition moved (q dst : plist) (a : Z) (l : list Z) (ls : plist -> list Z) : plist -> list Z :=
  <[dst := a :: (<[q := l]> ls) dst]> (<[q := l]> ls).
(** Where a swept pool may go. *)
Definition swept_to (d i : Z) (rel : bool) (dst : plist) : Prop :=
  (dst = freelist /\ rel = true) \/ dst = full_pools d i \/ dst = avail_pools d i.

Lemma size_insert_some {A} (m : gmap Z A) a v v' : m !! a = Some v -> size (<[a := v']> m) = size m.
Proof. intros E. by rewrite map_size_insert_Some. Qed.

Lemma weight_empty t m j b : (forall c, c ∈ slots b j -> m !! c = Some 0) -> pool_weight t m j b = pool_share t j.
Proof. intros H. unfold pool_weight. rewrite sum_zero; [lia|]. intros c Hc. unfold slot_share. by rewrite H. Qed.

Section pool.
Context (d : Z) (q : plist) (rel : bool) (st : state) (ls : plist -> list Z) (lls : llist -> list Z) (a : Z) (l : list Z) (p : pool).
Context (HI : Inv false nothing st ls lls) (Hg : group q = Some (Some d)) (E : ls q = a :: l) (Ep : pools st !! a = Some p).
Let i := class_of q.
Let s0 := set_head q (next p) st.
Let x : option Z -> stat -> Z := nothing.

Lemma sweep_facts : q <> freelist /\ is_class i /\ 0 < a /\ regions (system st) !! a = Some (true, 32768) /\ sz p = i /\ d ∈ heaps st /\ in_range i = true.
Proof.
  assert (q <> freelist) as Hq by (intros ->; done). assert (a ∈ ls q) as Ha by (rewrite E; left).
  destruct (iv_pool _ _ _ _ _ _ HI q a Ha Hq) as (Hc & p' & fl & Ep' & Hs & _). destruct (iv_region _ _ _ _ _ _ HI q a Ha) as [Hr _].
  pose proof (linked_ok _ _ _ _ _ _ _ (iv_linked _ _ _ _ _ _ HI) Ha) as Hv. unfold valid in Hv. rewrite Hg in Hv. apply andb_prop in Hv as [Hd%bool_decide_eq_true Hi].
  simplify_eq. split_and!; try done.
  by apply (rg_pos _ (iv_regions _ _ _ _ _ _ HI) a true 32768).
Qed.
Lemma sweep_start : nowhere (<[q := l]> ls) a /\ sweep_inv d i a p s0 rel x (<[q := l]> ls) lls [] (mksweep s0 true rel 0).
Proof.
  destruct sweep_facts as (Hq & Hi & Ha & Hr & Hs & Hd & _). destruct (Inv_pop _ _ _ _ _ q a l p HI E Ep) as [HI' Hn]. split; [done|].
  assert (a ∈ ls q) as Hin by (rewrite E; left). destruct (iv_pool _ _ _ _ _ _ HI q a Hin Hq) as (_ & p' & fl & Ep' & _ & Hsl & _). simplify_eq.
  split; try done.
  - eapply Inv_x; [|exact HI']. intros k t. unfold counted. by rewrite Hg.
  - exists (next_obj p), fl. simpl. split; [rewrite insert_id by (by destruct p); by destruct p|].
    destruct Hsl as [H1 H2 H3 H4]. split; try done. intros y hd Hy Ey Hz. destruct (H4 y hd Hy Ey Hz). split; [done|]. set_solver.
  - apply (iv_region _ _ _ _ _ _ HI q a Hin).
  - intros y Hy. by apply elem_of_nil in Hy.
  - simpl. by rewrite app_nil_r.
  - split; [|done]. intros _ b Hb. by apply elem_of_nil in Hb.
  - simpl. intros Hrel. split; [exact Hrel|]. intros b Hb. by apply elem_of_nil in Hb.
  - simpl. lia.
Qed.
(** The pool goes to [dst] in state [st']: what remains to show is common to
    the three lists. *)
Lemma sweep_end y dst st' : sweep_inv d i a p s0 rel x (<[q := l]> ls) lls (slots a i) y -> swept_to d i rel dst ->
  (dst = freelist -> forall b, b ∈ slots a i -> mem (sw_state y) !! b = Some 0) ->
  mem st' = mem (sw_state y) -> finalised st' = finalised (sw_state y) -> same_rest (sw_state y) st' -> Inv false nothing st' (moved q dst a l ls) lls ->
  exists D, Freed st st' D /\ same_rest st st' /\ forall b, b ∈ slots a i -> mem st' !! b = Some 0 \/ b ∉ D /\ mem st' !! b = mem st !! b.
Proof.
  intros Hy Hdst Hz Em Ef Hsr HI'. destruct sweep_facts as (Hq & Hi & _).
  set (D := filter (fun b => garbage_at (mem s0) (GARBAGE (colors s0)) b = true) (slots a i)). exists D.
  assert (forall b, b ∈ D -> b ∈ slots a i) as HD by (intros b; unfold D; rewrite list_elem_of_filter; by intros []).
  assert (forall p hd, live st' p hd <-> live st p hd /\ p ∉ D) as Hlive.
  { intros p0 hd. rewrite (live_lists _ _ _ _ _ _ _ HI'), (live_lists _ _ _ _ _ _ _ HI). unfold moved. rewrite Em.
    eapply live_moved; eauto.
    - intros Hf. destruct Hdst as [[? _]|[->| ->]]; done.
    - intros b Hb. split; [by apply HD|]. by apply (sw_freed _ _ _ _ _ _ _ _ _ _ _ Hy).
    - intros z. apply (sw_mem _ _ _ _ _ _ _ _ _ _ _ Hy). }
  assert (forall b, b ∈ D -> exists hd, live st b hd /\ Color_hd hd = GARBAGE (colors st)) as Hdead.
  { intros b Hb. pose proof (HD b Hb) as Hs. unfold D in Hb. apply list_elem_of_filter in Hb as [Hb _]. unfold garbage_at in Hb. simpl in Hb.
    destruct (mem st !! b) as [hd|] eqn:Eb; [|done]. apply andb_prop in Hb as [Hnz Hc]. exists hd. split; [|by apply Z.eqb_eq in Hc].
    rewrite (live_lists _ _ _ _ _ _ _ HI). left. exists q, a. rewrite E. split_and!; try done; [left|lia]. }
  assert (forall b, b ∈ slots a i -> b ∉ D -> mem st' !! b = mem st !! b) as Hkeep.
  { intros b Hb Hbd. rewrite Em. apply (sw_mem _ _ _ _ _ _ _ _ _ _ _ Hy). intros c Hc. split; [by intros ->|].
    apply not_eq_sym. eapply slot_second; [done| |done]. by apply HD. }
  split_and!.
  - split; try done.
    + apply NoDup_filter. by apply slots_NoDup.
    + intros p0 hd z Hp Hz'. rewrite Em. apply (sw_mem _ _ _ _ _ _ _ _ _ _ _ Hy). intros b Hb.
      apply Hlive in Hp as [Hp Hpd]. destruct (Hdead b Hb) as (hd' & Hb' & _).
      rewrite (live_lists _ _ _ _ _ _ _ HI) in Hp. rewrite (live_lists _ _ _ _ _ _ _ HI) in Hb'. pose proof (live_size _ _ _ _ _ _ _ HI Hb').
      assert (~ words_of b hd' z) as Hno. { eapply live_apart; [exact HI|exact Hp|exact Hb'| |done]. intros ->. done. }
      unfold words_of in Hno. lia.
    + rewrite Ef, (sw_final _ _ _ _ _ _ _ _ _ _ _ Hy). done.
    + destruct Hsr as [_ _ _ _ -> _]. by rewrite (sw_colors _ _ _ _ _ _ _ _ _ _ _ Hy).
    + destruct Hsr as [_ _ _ -> _ _]. by rewrite (sw_heaps _ _ _ _ _ _ _ _ _ _ _ Hy).
  - destruct Hsr as [H1 H2 H3 H4 H5 H6]. destruct (sw_pool _ _ _ _ _ _ _ _ _ _ _ Hy) as (nobj & fl & Epy & _). split.
    + rewrite H1, Epy. by eapply size_insert_some.
    + rewrite H2. by rewrite (sw_larges _ _ _ _ _ _ _ _ _ _ _ Hy).
    + rewrite H3. by rewrite (sw_next _ _ _ _ _ _ _ _ _ _ _ Hy).
    + rewrite H4. by rewrite (sw_heaps _ _ _ _ _ _ _ _ _ _ _ Hy).
    + rewrite H5. by rewrite (sw_colors _ _ _ _ _ _ _ _ _ _ _ Hy).
    + rewrite H6. by rewrite (sw_system _ _ _ _ _ _ _ _ _ _ _ Hy).
  - intros b Hb. destruct (decide (b ∈ D)) as [Hbd|Hbd]; [left|right; auto]. rewrite Em. by apply (sw_freed _ _ _ _ _ _ _ _ _ _ _ Hy).
Qed.

(** An empty pool is released. *)
Lemma sweep_release y : sweep_inv d i a p s0 rel x (<[q := l]> ls) lls (slots a i) y -> nowhere (<[q := l]> ls) a ->
  (forall b, b ∈ slots a i -> mem (sw_state y) !! b = Some 0) ->
  exists st', pool_release d a i (sw_state y) = Ret st' /\ mem st' = mem (sw_state y) /\ finalised st' = finalised (sw_state y) /\
    same_rest (sw_state y) st' /\ Inv false nothing st' (moved q freelist a l ls) lls.
Proof.
  intros Hy Hn Hz. destruct sweep_facts as (Hq & Hi & Ha & Hr & Hs & Hd & Hin). destruct (sw_pool _ _ _ _ _ _ _ _ _ _ _ Hy) as (nobj & fl & Epy & Hsl).
  assert (pools (sw_state y) !! a = Some (set_next_obj nobj p)) as Ea by (rewrite Epy; apply lookup_insert_eq).
  unfold pool_release. rewrite (get_pool_Ret _ _ _ Ea). cbn [mbind result_bind].
  cbn [set_next_obj sz]. rewrite Hs, Z.eqb_refl. cbn [CAMLassert mbind result_bind]. eexists. split; [done|]. split; [done|]. split; [done|]. split.
  - split; simpl; try done. rewrite !insert_insert_eq. by eapply size_insert_some.
  - pose proof (sw_Inv _ _ _ _ _ _ _ _ _ _ _ Hy) as HIy.
    apply (Inv_put_pool _ _ _ _ _ a (set_owner None (set_next_obj nobj p))) in HIy; [|done].
    apply (Inv_add_pool _ _ nothing _ _ _ (Some d) (- POOL_WSIZE) 0 0 (- (POOL_HEADER_WSIZE + wastage_sizeclass i))) in HIy.
    2: { intros t. unfold x, share, nothing. rewrite decide_True, weight_empty by done. destruct t; simpl; unfold POOL_SLAB_WOFFSET; lia. }
    2: { intros k t Hk. unfold x, share, nothing. by rewrite decide_False. }
    eapply (Inv_push _ _ _ _ _ freelist a) in HIy; [|exact Hn|done|lia| | |].
    + eapply Inv_x; [|exact HIy]. done.
    + split; simpl; [|apply (sw_mapped _ _ _ _ _ _ _ _ _ _ _ Hy)]. by rewrite (sw_system _ _ _ _ _ _ _ _ _ _ _ Hy).
    + done.
    + rewrite decide_True by done. done.
Qed.
(** A pool with live blocks goes to a list of its class. *)
Lemma sweep_relink y : sweep_inv d i a p s0 rel x (<[q := l]> ls) lls (slots a i) y -> nowhere (<[q := l]> ls) a ->
  let dst := if all_used y then full_pools d i else avail_pools d i in
  exists st', (r ← get_pool (sw_state y) a; Ret (set_head dst a (put_pool a (set_next (heads (sw_state y) dst) r) (sw_state y)))) = Ret st' /\
    mem st' = mem (sw_state y) /\ finalised st' = finalised (sw_state y) /\
    same_rest (sw_state y) st' /\ Inv false nothing st' (moved q dst a l ls) lls.
Proof.
  intros Hy Hn dst. destruct sweep_facts as (Hq & Hi & Ha & Hr & Hs & Hd & Hin). destruct (sw_pool _ _ _ _ _ _ _ _ _ _ _ Hy) as (nobj & fl & Epy & Hsl).
  assert (pools (sw_state y) !! a = Some (set_next_obj nobj p)) as Ea by (rewrite Epy; apply lookup_insert_eq).
  assert (dst <> freelist /\ class_of dst = i /\ group dst = Some (Some d) /\ unswept dst = false) as (Hdf & Hdc & Hdg & Hdu) by (unfold dst; by destruct (all_used y)).
  rewrite (get_pool_Ret _ _ _ Ea). cbn [mbind result_bind]. eexists. split; [done|]. split; [done|]. split; [done|]. split.
  - split; simpl; try done. by eapply size_insert_some.
  - pose proof (sw_Inv _ _ _ _ _ _ _ _ _ _ _ Hy) as HIy. pose proof (sw_all_used _ _ _ _ _ _ _ _ _ _ _ Hy) as Hau.
    eapply (Inv_push _ _ _ _ _ dst a (set_next (heads (sw_state y) dst) (set_next_obj nobj p))) in HIy; [|exact Hn| |lia| |reflexivity|].
    + eapply Inv_x; [|exact HIy]. intros k t. unfold x, nothing, counted. rewrite Hdg, Hdc. lia.
    + unfold valid. rewrite Hdg, Hdc, Hin, (sw_heaps _ _ _ _ _ _ _ _ _ _ _ Hy), andb_true_r. by apply bool_decide_eq_true.
    + split; [|apply (sw_mapped _ _ _ _ _ _ _ _ _ _ _ Hy)]. by rewrite (sw_system _ _ _ _ _ _ _ _ _ _ _ Hy).
    + rewrite decide_False by done. split; [by rewrite Hdc|]. exists (set_next (heads (sw_state y) dst) (set_next_obj nobj p)), fl.
      rewrite lookup_insert_eq, Hdc. rewrite (sw_colors _ _ _ _ _ _ _ _ _ _ _ Hy). split_and!; [done|done| |].
      * destruct Hsl as [H1 H2 H3 H4]. split; try done. intros b hd Hb Eb Hz. destruct (H4 b hd Hb Eb Hz). auto.
      * unfold dst. split.
        { intros ->. rewrite (proj2 Hau); [done|]. intros b Hb Eb. by apply (elem_of_nil b), (sl_free _ _ _ _ _ _ _ Hsl). }
        destruct (all_used y); [|done]. intros _. destruct fl as [|b fl]; [done|]. exfalso.
        destruct (proj1 (sl_free _ _ _ _ _ _ _ Hsl b)) as [Hb Eb]; [left|]. by apply (proj1 Hau eq_refl b).
Qed.
Lemma pool_sweep_spec : exists st' dst D, pool_sweep d q i rel st = Ret (wsize_sizeclass i * blocks i, st') /\ swept_to d i rel dst /\
  Inv false nothing st' (moved q dst a l ls) lls /\ Freed st st' D /\ same_rest st st'.
Proof.
  destruct sweep_facts as (Hq & Hi & Ha & Hr & Hs & Hd & Hin). destruct sweep_start as [Hn H0].
  destruct (sweep_loop d i a p s0 rel x (<[q := l]> ls) lls Hi Ha Hr Hn Hs _ H0) as (y & Ey & Hy).
  unfold pool_sweep. rewrite (linked_head _ _ _ _ _ _ _ _ (iv_linked _ _ _ _ _ _ HI) E), (proj2 (Z.eqb_neq a 0)) by lia.
  rewrite (get_pool_Ret _ _ _ Ep). cbn [mbind result_bind]. rewrite blocks_loop_pool by done. unfold s0 in Ey. rewrite Ey. cbn [mbind result_bind].
  assert (work y = wsize_sizeclass i * blocks i) as Hw.
  { rewrite (sw_work _ _ _ _ _ _ _ _ _ _ _ Hy). f_equal. unfold slots, slots_from. rewrite length_fmap, length_seq.
    pose proof (class_facts i Hi). lia. }
  destruct (release_to_global_pool y) eqn:Erel.
  - destruct (sw_release _ _ _ _ _ _ _ _ _ _ _ Hy Erel) as [Hrel Hz].
    destruct (sweep_release y Hy Hn Hz) as (st' & -> & Em & Ef & Hsr & HI'). cbn [mbind result_bind].
    assert (swept_to d i rel freelist) as Hto by (by left).
    destruct (sweep_end y freelist st' Hy Hto ltac:(done) Em Ef Hsr HI') as (D & HF & Hrest & _).
    exists st', freelist, D. by rewrite Hw.
  - destruct (sweep_relink y Hy Hn) as (st' & -> & Em & Ef & Hsr & HI'). cbn [mbind result_bind].
    assert (swept_to d i rel (if all_used y then full_pools d i else avail_pools d i)) as Hto by (right; destruct (all_used y); auto).
    destruct (sweep_end y _ st' Hy Hto ltac:(by destruct (all_used y)) Em Ef Hsr HI') as (D & HF & Hrest & _).
    eexists st', _, D. by rewrite Hw.
Qed.
End pool.
End sweep.
End PoolHeapSweep.
