(* ===== verification/PoolHeapAlloc.v ===== *)
(** * Allocation in the shared heap

    Finding a pool with a free slot (sweeping, adopting a pool of a terminated
    domain, or mapping a new one), taking a slot, and large blocks. *)

From S2P Require Import Prelude Memory PoolHeap PoolHeapInv PoolHeapSweep.
From stdpp Require Import list functions gmap.
#[local] Open Scope Z_scope.
Import PoolHeap PoolHeapInv PoolHeapSweep.
#[local] Notation eqm := Prelude.eqm.

Module PoolHeapAlloc.
Section alloc.
Context `{Laws : OsLaws}.

(** ** Statistics of a pool *)

Lemma calc_pool_stats_spec st a i h : is_class i -> pool_mapped (mem st) a ->
  exists h', calc_pool_stats st a i h = Ret h' /\ (forall t, eqm 64 (get_stat t h') (get_stat t h + pool_weight t (mem st) i a)) /\
    forall t, get_lstat t h' = get_lstat t h.
Proof.
  intros Hi Hm. unfold calc_pool_stats. rewrite blocks_loop_pool by done.
  destruct (for_each_inv (fun done y => (forall t, eqm 64 (get_stat t y)
      (get_stat t h + (delta 0 0 0 (POOL_SLAB_WOFFSET i) t + sum (slot_share t (mem st) (wsize_sizeclass i)) done))) /\ forall t, get_lstat t y = get_lstat t h)
    (slots a i) (calc_block_stats st (wsize_sizeclass i)) (add_pool_stats 0 0 0 (POOL_SLAB_WOFFSET i) h)) as (y & -> & Hy & Hly).
  - split; [|by intros []]. intros t. etransitivity; [apply get_add_pool|]. apply eqm_eq. simpl. lia.
  - intros done b rest y E [Hy Hly]. destruct (Hm b) as [hd Eb]; [eapply slot_header_in; [done|]; rewrite E; set_solver|].
    unfold calc_block_stats. rewrite (load_Ret _ _ _ Eb). cbn [mbind result_bind]. eexists. split; [done|]. split.
    + intros t. rewrite sum_app. simpl. unfold slot_share at 2. rewrite Eb. destruct (hd =? 0).
      * etransitivity; [apply Hy|]. apply eqm_eq. lia.
      * etransitivity; [apply get_add_pool|]. etransitivity; [apply eqm_add; [apply Hy|reflexivity]|]. apply eqm_eq. destruct t; simpl; lia.
    + destruct (hd =? 0); [done|]. intros t. by rewrite lget_add_pool.
  - cbn [mbind result_bind]. rewrite Z.eqb_refl. cbn [CAMLassert mbind result_bind]. eexists. split; [done|]. split.
    + intros t. etransitivity; [apply get_add_pool|]. etransitivity; [apply eqm_add; [apply Hy|reflexivity]|]. apply eqm_eq.
      unfold pool_weight. destruct t; simpl; lia.
    + intros t. by rewrite lget_add_pool.
Qed.
Lemma get_accum t h h' : eqm 64 (get_stat t (caml_accum_heap_stats h h')) (get_stat t h + get_stat t h').
Proof. destruct t; apply eqm_of_swrap; lia. Qed.
Lemma lget_accum t h h' : eqm 64 (get_lstat t (caml_accum_heap_stats h h')) (get_lstat t h + get_lstat t h').
Proof. destruct t; apply eqm_of_swrap; lia. Qed.
Lemma get_remove t h h' : eqm 64 (get_stat t (caml_remove_heap_stats h h')) (get_stat t h - get_stat t h').
Proof. destruct t; apply eqm_of_swrap; lia. Qed.
Lemma lget_remove t h h' : eqm 64 (get_lstat t (caml_remove_heap_stats h h')) (get_lstat t h - get_lstat t h').
Proof. destruct t; apply eqm_of_swrap; lia. Qed.

(** The pool [a] passes from the statistics of the free list to those of [d]. *)
Lemma adopt_stats_spec dirty x st ls lls d a i : Inv dirty x st ls lls -> is_class i -> pool_mapped (mem st) a ->
  (forall k t, x k t = share None (mem st) i a k t - share (Some d) (mem st) i a k t) ->
  exists f, adopt_pool_stats_with_lock d a i st =
    Ret (mkstate (mem st) (pools st) (larges st) (heads st) (lheads st) (heaps st) (next_to_sweep st) f (swept_words st) (work_done st) (colors st) (system st) (finalised st)) /\
  Inv dirty nothing (mkstate (mem st) (pools st) (larges st) (heads st) (lheads st) (heaps st) (next_to_sweep st) f (swept_words st) (work_done st) (colors st) (system st) (finalised st)) ls lls.
Proof.
  intros H Hi Hm Hx. unfold adopt_pool_stats_with_lock. destruct (calc_pool_stats_spec st a i no_stats Hi Hm) as (h & -> & Hh & Hl).
  cbn [mbind result_bind]. eexists. split; [done|].
  assert (forall t, eqm 64 (get_stat t h) (pool_weight t (mem st) i a)) as Hh' by (intros t; etransitivity; [apply Hh|]; by destruct t).
  assert (forall t, get_lstat t h = 0) as Hl' by (intros t; rewrite Hl; by destruct t).
  assert (Inv dirty (share None (mem st) i a) (update_stats (Some d) (fun h0 => caml_accum_heap_stats h0 h) st) ls lls) as H1.
  { eapply Inv_stats; [exact H| | |].
    - intros t. etransitivity; [apply get_accum|]. rewrite Hx. etransitivity; [apply eqm_add; [reflexivity|apply Hh']|].
      apply eqm_eq. unfold share. rewrite decide_False, decide_True by done. lia.
    - intros k t Hk. rewrite Hx. unfold share. rewrite (decide_False (P := k = Some d)) by done. lia.
    - intros t. etransitivity; [apply lget_accum|]. rewrite Hl'. apply eqm_eq. lia. }
  assert (Inv dirty nothing (update_stats None (fun h0 => caml_remove_heap_stats h0 h) (update_stats (Some d) (fun h0 => caml_accum_heap_stats h0 h) st)) ls lls) as H2.
  { eapply Inv_stats; [exact H1| | |].
    - intros t. etransitivity; [apply get_remove|]. etransitivity; [apply eqm_sub; [reflexivity|apply Hh']|].
      apply eqm_eq. unfold share, nothing. rewrite decide_True by done. lia.
    - intros k t Hk. unfold share, nothing. by rewrite decide_False.
    - intros t. etransitivity; [apply lget_remove|]. rewrite Hl'. apply eqm_eq. lia. }
  exact H2.
Qed.

(** ** Moving a pool from one list to another *)

Lemma Inv_move dirty x st ls lls q dst a l p p' : Inv dirty x st ls lls -> ls q = a :: l -> pools st !! a = Some p ->
  q <> freelist -> dst <> freelist -> valid (heaps st) dst = true -> class_of dst = class_of q -> full dst = full q ->
  (dirty || unswept dst = false -> dirty || unswept q = false) ->
  next p' = (<[q := next p]> (heads st)) dst -> next_obj p' = next_obj p -> sz p' = sz p ->
  Inv dirty (fun k t => x k t + counted q (mem st) (class_of q) a k t - counted dst (mem st) (class_of q) a k t)
    (set_head dst a (put_pool a p' (set_head q (next p) st))) (moved q dst a l ls) lls.
Proof.
  intros H E Ep Hq Hdst Hv Hc Hf Hu Hn Hno Hsz. destruct (Inv_pop _ _ _ _ _ q a l p H E Ep) as [HI Hnw].
  assert (a ∈ ls q) as Ha by (rewrite E; left). destruct (iv_region _ _ _ _ _ _ H q a Ha) as [Hr Hm].
  destruct (iv_pool _ _ _ _ _ _ H q a Ha Hq) as (Hcl & p0 & fl & Ep0 & Hs & Hsl & Hfl). simplify_eq.
  eapply (Inv_push _ _ _ _ _ dst a p') in HI; [|done|done| |done|done|].
  - eapply Inv_x; [|exact HI]. intros k t. simpl. by rewrite Hc.
  - eapply linked_node; [apply H|done].
  - rewrite decide_False by done. split; [by rewrite Hc|]. exists p', fl. rewrite lookup_insert_eq, Hc, Hno, Hf.
    split_and!; [done|congruence| |done]. destruct Hsl as [H1 H2 H3 H4]. split; try done.
    intros y hd Hy Ey Hz. destruct (H4 y hd Hy Ey Hz) as [? Hcol]. auto.
Qed.
Lemma live_in_moved dirty x st ls lls q dst a l p hd : Inv dirty x st ls lls -> ls q = a :: l -> q <> freelist -> dst <> freelist ->
  class_of dst = class_of q -> live_in (moved q dst a l ls) lls (mem st) p hd <-> live_in ls lls (mem st) p hd.
Proof.
  intros H E Hq Hdst Hc. unfold moved. rewrite (live_moved dirty x st ls lls q dst a l (mem st) []); try done; set_solver.
Qed.
(** Lists to sweep do not grow. *)
Definition shrinks (ls ls' : plist -> list Z) : Prop := forall q, unswept q = true -> ls q = [] -> ls' q = [].
Lemma shrinks_refl ls : shrinks ls ls.
Proof. by intros ?. Qed.
Lemma shrinks_trans l1 l2 l3 : shrinks l1 l2 -> shrinks l2 l3 -> shrinks l1 l3.
Proof. unfold shrinks. auto. Qed.
Lemma shrinks_moved q dst a l ls : ls q = a :: l -> unswept dst = false -> shrinks ls (moved q dst a l ls).
Proof.
  intros E Hd r Hr Er. unfold moved. rewrite fn_lookup_insert_ne by congruence. by rewrite fn_lookup_insert_ne by congruence.
Qed.
Lemma next_ok_shrinks st st' ls ls' : next_ok st ls -> heaps st' = heaps st -> next_to_sweep st' = next_to_sweep st -> shrinks ls ls' -> next_ok st' ls'.
Proof.
  intros H Hh Hn Hs d Hd. rewrite Hh in Hd. rewrite Hn. destruct (H d Hd) as [? Hl]. split; [done|].
  intros i Hi. destruct (Hl i Hi). split; by apply Hs.
Qed.

(** What finding a pool may change: pools are swept or moved; blocks are freed. *)
Record searched (st st' : state) (ls ls' : plist -> list Z) (lls : llist -> list Z) (D : list Z) : Prop := {
  se_Inv : Inv false nothing st' ls' lls;
  se_Freed : Freed st st' D;
  se_heaps : heaps st' = heaps st;
  se_next : next_to_sweep st' = next_to_sweep st;
  se_shrinks : shrinks ls ls';
  se_system : system st' = system st;
  se_larges : larges st' = larges st;
}.
Lemma searched_refl st ls lls : Inv false nothing st ls lls -> searched st st ls ls lls [].
Proof. intros H. split; try done; [apply Freed_refl|apply shrinks_refl]. Qed.
Lemma searched_trans st1 st2 st3 l1 l2 l3 lls D D' : searched st1 st2 l1 l2 lls D -> searched st2 st3 l2 l3 lls D' ->
  searched st1 st3 l1 l3 lls (D ++ D').
Proof.
  intros [? ? ? ? ? ? ?] [? ? ? ? ? ? ?]. split; [done|eapply (Freed_trans false nothing st1 st2 st3); eassumption|congruence|congruence|by eapply shrinks_trans|congruence|congruence].
Qed.
Lemma swept_searched d i st st' ls lls q dst a l D n : ls q = a :: l -> swept_to d i false dst -> Inv false nothing st' (moved q dst a l ls) lls ->
  Freed st st' D -> same_rest st st' -> searched st (add_work_done d n st') ls (moved q dst a l ls) lls D.
Proof.
  intros E Hdst HI HF [? ? ? ? ? ?]. split; try done.
  - destruct HI. split; done.
  - destruct HF. split; done.
  - apply shrinks_moved; [done|]. destruct Hdst as [[_ ?]|[->| ->]]; done.
Qed.

(** [while (!avail && unswept_avail) pool_sweep]: ends with a pool that has a
    free slot, or with nothing left to sweep. *)
Lemma find_loop_spec n d i st ls lls : Inv false nothing st ls lls -> d ∈ heaps st -> is_class i ->
  (length (ls (unswept_avail_pools d i)) < n)%nat ->
  exists st' ls' D, find_loop n d i st = Ret st' /\ searched st st' ls ls' lls D /\
    (forall r, group r = Some None -> ls' r = ls r).
Proof.
  revert st ls. induction n as [|n IH]; intros st ls H Hd Hi Hn; [lia|]. cbn [find_loop].
  assert (forall r, group r = Some (Some d) -> class_of r = i -> valid (heaps st) r = true) as Hv.
  { intros r Hg Hc. unfold valid. rewrite Hg, Hc. unfold in_range, is_class in *. rewrite bool_decide_true by done. simpl. lia. }
  destruct ((_ =? 0) && _) eqn:Et; [|exists st, ls, []; split_and!; [done|by apply searched_refl|done]].
  apply andb_prop in Et as [_ Eu]. destruct (Inv_head _ _ _ _ _ (unswept_avail_pools d i) H) as [[Ez _]|(a & l & p & Ea & _ & El & Ep & _)]; [by apply Hv|lia|].
  destruct (pool_sweep_spec d (unswept_avail_pools d i) false st ls lls a l p H eq_refl El Ep) as (st1 & dst & D & Es & Hdst & HI & HF & Hsr).
  cbn [class_of] in Es. rewrite Es. cbn [mbind result_bind].
  pose proof (swept_searched d i st st1 ls lls _ dst a l D (wsize_sizeclass i * blocks i) El Hdst HI HF Hsr) as HS.
  set (st2 := add_work_done d _ st1) in *. set (ls1 := moved _ _ _ _ _) in *.
  assert (dst <> unswept_avail_pools d i /\ group dst <> Some None) as [Hd1 Hd2] by (destruct Hdst as [[_ ?]|[->| ->]]; done).
  destruct (IH st2 ls1) as (st' & ls' & D' & E' & HS' & Hg'); [apply HS|by rewrite (se_heaps _ _ _ _ _ _ HS)|done| |].
  - unfold ls1, moved. rewrite fn_lookup_insert_ne, fn_lookup_insert by done. rewrite El in Hn. simpl in Hn. lia.
  - exists st', ls', (D ++ D'). split_and!; [done|by eapply searched_trans|]. intros r Hr. rewrite Hg' by done.
    unfold ls1, moved. rewrite fn_lookup_insert_ne by congruence. rewrite fn_lookup_insert_ne; [done|]. intros <-. done.
Qed.

(** A pool of a terminated domain passes to [d]. *)
Lemma adopt_pool d i st ls lls q dst r l p p' : Inv false nothing st ls lls -> d ∈ heaps st -> is_class i -> ls q = r :: l -> pools st !! r = Some p ->
  group q = Some None -> class_of q = i -> unswept q = false -> group dst = Some (Some d) -> class_of dst = i -> unswept dst = false -> full dst = full q ->
  next p' = heads st dst -> next_obj p' = next_obj p -> sz p' = sz p ->
  exists st', adopt_pool_stats_with_lock d r i (set_head dst r (put_pool r p' (set_head q (next p) st))) = Ret st' /\
    searched st st' ls (moved q dst r l ls) lls [] /\ heads st' = <[dst := r]> (<[q := next p]> (heads st)).
Proof.
  intros H Hd Hi E Ep Hgq Hcq Huq Hgd Hcd Hud Hf Hn Hno Hsz.
  assert (q <> freelist /\ dst <> freelist /\ q <> dst) as (Hq & Hdst & Hne) by (split_and!; intros ->; simpl in *; congruence).
  assert (valid (heaps st) dst = true) as Hv.
  { unfold valid. rewrite Hgd, Hcd. unfold in_range, is_class in *. rewrite bool_decide_true by done. simpl. lia. }
  pose proof (Inv_move _ _ _ _ _ q dst r l p p' H E Ep Hq Hdst Hv ltac:(congruence) Hf ltac:(intros _; exact Huq)
    ltac:(rewrite fn_lookup_insert_ne by done; exact Hn) Hno Hsz) as HI.
  destruct (iv_region _ _ _ _ _ _ H q r ltac:(rewrite E; left)) as [_ Hm].
  destruct (adopt_stats_spec _ _ _ _ _ d r i HI Hi Hm) as (f & Ef & HI').
  { intros k t. unfold nothing, counted. rewrite Hgq, Hgd, Hcq. simpl. lia. }
  rewrite Ef. eexists. split; [done|]. split; [|done]. split; try done.
  - apply Freed_none; try done. intros p0 hd. rewrite (live_lists _ _ _ _ _ _ _ HI'), (live_lists _ _ _ _ _ _ _ H).
    apply (live_in_moved false nothing st); try done. congruence.
  - by apply shrinks_moved.
Qed.
Lemma local_valid st d i r : d ∈ heaps st -> is_class i -> group r = Some (Some d) -> class_of r = i -> valid (heaps st) r = true.
Proof. intros Hd Hi Hg Hc. unfold valid. rewrite Hg, Hc. unfold in_range, is_class in *. rewrite bool_decide_true by done. simpl. lia. Qed.
Lemma global_valid st i r : is_class i -> group r = Some None -> class_of r = i -> valid (heaps st) r = true.
Proof. intros Hi Hg Hc. unfold valid. rewrite Hg, Hc. unfold in_range, is_class in *. lia. Qed.

(** A full pool is adopted, then swept. *)
Lemma adopt_full d i st ls lls r l p : Inv false nothing st ls lls -> d ∈ heaps st -> is_class i -> ls (global_full_pools i) = r :: l -> pools st !! r = Some p ->
  exists st1 st2 n ls' D, adopt_pool_stats_with_lock d r i
      (set_head (full_pools d i) r (put_pool r (set_next (heads (set_head (global_full_pools i) (next p) st) (full_pools d i)) p) (set_head (global_full_pools i) (next p) st))) = Ret st1 /\
    pool_sweep d (full_pools d i) i false st1 = Ret (n, st2) /\ searched st (add_work_done d n st2) ls ls' lls D.
Proof.
  intros H Hd Hi El Ep. set (p' := set_next _ p).
  assert (next p' = heads st (full_pools d i)) as Hp'.
  { unfold p', set_next, set_head. cbn [next heads]. by rewrite fn_lookup_insert_ne. }
  destruct (adopt_pool d i st ls lls (global_full_pools i) (full_pools d i) r l p p' H Hd Hi El Ep eq_refl eq_refl eq_refl eq_refl eq_refl eq_refl eq_refl
    Hp' eq_refl eq_refl) as (st1 & E1 & HS1 & _).
  set (ls1 := moved _ _ _ _ _) in HS1. clearbody p'.
  assert (ls1 (full_pools d i) = r :: ls (full_pools d i)) as El1 by (unfold ls1, moved; rewrite fn_lookup_insert, fn_lookup_insert_ne; done).
  clearbody ls1. destruct (linked_node _ _ _ _ _ (full_pools d i) r (iv_linked _ _ _ _ _ _ (se_Inv _ _ _ _ _ _ HS1))) as [_ [p1 Ep1]]; [rewrite El1; left|].
  destruct (pool_sweep_spec d (full_pools d i) false st1 ls1 lls r _ p1 (se_Inv _ _ _ _ _ _ HS1) eq_refl El1 Ep1) as (st2 & dst & D & Es & Hdst & HI & HF & Hsr).
  exists st1, st2, (wsize_sizeclass i * blocks i). eexists _, _. split; [exact E1|]. split; [exact Es|]. eapply searched_trans; [exact HS1|].
  exact (swept_searched d i st1 st2 ls1 lls _ dst r _ D (wsize_sizeclass i * blocks i) El1 Hdst HI HF Hsr).
Qed.
Lemma pool_global_adopt_spec d i st ls lls : Inv false nothing st ls lls -> d ∈ heaps st -> is_class i -> ls (avail_pools d i) = [] ->
  exists st' ls' D, pool_global_adopt d i st = Ret (heads st' (avail_pools d i), st') /\ searched st st' ls ls' lls D.
Proof.
  intros H Hd Hi Ha. unfold pool_global_adopt.
  assert (heads st (avail_pools d i) = 0) as Hz by (apply (linked_null _ _ _ _ _ _ (iv_linked _ _ _ _ _ _ H)); [by eapply local_valid|done]).
  destruct (Inv_head _ _ _ _ _ (global_avail_pools i) H) as [[Ez _]|(r & l & p & Er & Hr & El & Ep & _)]; [by eapply global_valid| |].
  - rewrite Ez, Z.eqb_refl. cbn [andb negb].
    destruct (Inv_head _ _ _ _ _ (global_full_pools i) H) as [[Ez' _]|(r & l & p & Er & Hr & El & Ep & _)]; [by eapply global_valid| |].
    { rewrite Ez', Z.eqb_refl. exists st, ls, []. rewrite Hz. split; [done|by apply searched_refl]. }
    rewrite Er, (proj2 (Z.eqb_neq r 0)) by done. cbn [negb]. rewrite (get_pool_Ret _ _ _ Ep). rewrite ret_bind.
    destruct (adopt_full d i st ls lls r l p H Hd Hi El Ep) as (st1 & st2 & n & ls' & D & -> & Es & HS).
    rewrite ret_bind. rewrite Es, ret_bind. cbv beta iota zeta. exists (add_work_done d n st2), ls', D. split; [reflexivity|exact HS].
  - rewrite Er, (proj2 (Z.eqb_neq r 0)) by done. cbn [negb andb]. rewrite (get_pool_Ret _ _ _ Ep). rewrite ret_bind.
    destruct (adopt_pool d i st ls lls (global_avail_pools i) (avail_pools d i) r l p (set_next 0 p) H Hd Hi El Ep eq_refl eq_refl eq_refl eq_refl eq_refl
      eq_refl eq_refl (eq_sym Hz) eq_refl eq_refl) as (st1 & -> & HS1 & Eh1).
    rewrite ret_bind. exists st1, (moved (global_avail_pools i) (avail_pools d i) r l ls), []. split; [|exact HS1].
    by rewrite Eh1, fn_lookup_insert.
Qed.

(** ** New memory *)

#[local] Arguments pool_slab : simpl never.
Lemma lookup_map_words w a n m z : (map_words w a n m) !! z = m !! z \/ is_Some ((map_words w a n m) !! z).
Proof.
  revert a. induction n as [|n IH]; intros a; simpl; [by left|]. destruct (decide (a = z)) as [->|]; [right; by rewrite lookup_insert_eq|].
  rewrite lookup_insert_ne by done. apply IH.
Qed.
Lemma map_words_out w a n m z : ~ (a <= z < a + 8 * Z.of_nat n) -> (map_words w a n m) !! z = m !! z.
Proof.
  revert a. induction n as [|n IH]; intros a Hz; simpl; [done|]. rewrite lookup_insert_ne by lia. apply IH. lia.
Qed.
Lemma map_words_in w a n m k : 0 <= k < Z.of_nat n -> is_Some ((map_words w a n m) !! (a + 8 * k)).
Proof.
  revert a k. induction n as [|n IH]; intros a k Hk; simpl; [lia|]. destruct (decide (k = 0)) as [->|].
  - replace (a + 8 * 0) with a by lia. by rewrite lookup_insert_eq.
  - rewrite lookup_insert_ne by lia. replace (a + 8 * k) with (a + 8 + 8 * (k - 1)) by lia. apply IH. lia.
Qed.
(** The new words of a pool. *)
Lemma pool_words_in w a m : pool_mapped (map_words w (pool_words_at a) pool_slab m) a.
Proof.
  intros z [Hz Hm]. unfold pool_words_at, pool_slab, POOL_HEADER_WSIZE, POOL_WSIZE.
  assert (z - a = 8 * ((z - a) / 8)) as E by (apply Z.div_exact; lia).
  replace z with (a + 8 * 4 + 8 * ((z - a) / 8 - 4)) by lia. apply map_words_in. lia.
Qed.
Lemma pool_words_out w a m z : ~ (a <= z < a + 32768) -> map_words w (pool_words_at a) pool_slab m !! z = m !! z.
Proof. intros Hz. apply map_words_out. unfold pool_words_at, pool_slab, POOL_HEADER_WSIZE, POOL_WSIZE. lia. Qed.

(** Memory changes in a region that is not in use. *)
Lemma Inv_fresh dirty x st ls lls a k n w m : Inv dirty x st ls lls -> 0 < n -> new_region a n (regions (system st)) ->
  regions w = <[a := (k, n)]> (regions (system st)) -> (forall z, ~ (a <= z < a + n) -> m !! z = mem st !! z) ->
  Inv dirty x (set_mem m (set_system w st)) ls lls.
Proof.
  intros H Hn Hnew Er Hm. pose proof (regions_insert _ a k n (iv_regions _ _ _ _ _ _ H) Hn Hnew) as Hok.
  destruct Hnew as (Ha & Hal & Hb & Hnone & Hap).
  assert (forall b j c, regions (system st) !! b = Some (j, c) -> regions w !! b = Some (j, c)) as Hr.
  { intros b j c E. rewrite Er, lookup_insert_ne by congruence. done. }
  assert (forall q b, b ∈ ls q -> forall y, in_pool b y -> m !! y = mem st !! y) as Hp.
  { intros q b Hbq y Hy. apply Hm. destruct (iv_region _ _ _ _ _ _ H q b Hbq) as [Hrb _]. destruct (Hap _ _ _ Hrb); unfold in_pool in Hy; lia. }
  assert (forall q b, b ∈ lls q -> forall y, (exists n, regions (system st) !! b = Some (false, n) /\ b <= y < b + n) -> m !! y = mem st !! y) as Hl.
  { intros q b Hbq y (c & Hc & Hy). apply Hm. destruct (Hap _ _ _ Hc); lia. }
  assert (forall q b, b ∈ lls q -> regions w !! b = regions (system st) !! b) as Hrl.
  { intros q b Hbq. destruct (iv_large _ _ _ _ _ _ H q b Hbq) as (hd & _ & _ & _ & E & _). rewrite E. by apply Hr. }
  destruct H as [H1 H2 H3 H4 H5 H6 H7 H8 H9 H10]. split; simpl; try done.
  - by rewrite Er.
  - intros q b Hbq. destruct (H4 q b Hbq) as [? Hmp]. split; [by apply Hr|]. simpl. eapply mapped_ext; [|done]. eauto.
  - intros q b Hbq Hq. eapply pool_ok_ext; [|done|by apply H6]. eauto.
  - intros q b Hbq. eapply large_ok_ext; [|by eapply Hrl|by apply H7]. eauto.
  - intros j t Hk. etransitivity; [by apply H9|]. apply eqm_eq. f_equal. apply total_ext. intros q b Hq Hbq. symmetry.
    assert (q <> freelist) by (apply elem_of_places in Hq; naive_solver).
    eapply (pool_ok_ext dirty _ _ _ _ _ q b); [|reflexivity|by apply H6]. eauto.
  - intros j t Hk. etransitivity; [by apply H10|]. apply eqm_eq. f_equal. apply total_ext. intros q b Hq Hbq. symmetry.
    eapply (large_ok_ext dirty _ _ _ _ _ q b); [|reflexivity|by apply H7]. eauto.
Qed.
(** The system refuses. *)
Lemma Inv_refused dirty x st ls lls w : Inv dirty x st ls lls -> regions w = regions (system st) -> Inv dirty x (set_system w st) ls lls.
Proof. intros H E. destruct H. split; simpl; try done; rewrite ?E; try done. intros q b Hb. split; simpl; [rewrite E|]; apply (iv_region0 q b Hb). Qed.

(** [pool_acquire] returns a pool in no list, or the system has no memory. *)
Lemma pool_acquire_spec st ls lls : Inv false nothing st ls lls ->
  exists r st' ls', pool_acquire st = Ret (r, st') /\ Inv false nothing st' ls' lls /\
    (r = 0 -> fst (caml_mem_map (Bsize_wsize POOL_WSIZE) (system st)) = 0) /\
    (r <> 0 -> nowhere ls' r /\ pool_region st' r /\ 0 < r) /\
    (forall q, q <> freelist -> ls' q = ls q /\ heads st' q = heads st q) /\
    (forall q b, b ∈ ls q -> forall z, b <= z < b + 32768 -> mem st' !! z = mem st !! z) /\
    (forall q b, b ∈ lls q -> forall z, (exists n, regions (system st) !! b = Some (false, n) /\ b <= z < b + n) -> mem st' !! z = mem st !! z) /\
    heaps st' = heaps st /\ next_to_sweep st' = next_to_sweep st /\ colors st' = colors st /\ finalised st' = finalised st /\
    larges st' = larges st /\ lheads st' = lheads st /\ stats st' = stats st.
Proof.
  intros H. unfold pool_acquire. destruct (Inv_head _ _ _ _ _ freelist H eq_refl) as [[Ez El]|(r & l & p & Er & Hr & El & Ep & Hreg)].
  - rewrite Ez, Z.eqb_refl. destruct (caml_mem_map (Bsize_wsize POOL_WSIZE) (system st)) as [r w] eqn:Em.
    apply mem_map_law in Em as [[-> Ew]|[Hnew Ew]]; [| |unfold Bsize_wsize, POOL_WSIZE; lia].
    + rewrite Z.eqb_refl, ret_bind. cbn [heads set_system]. rewrite Ez, Z.eqb_refl. eexists _, _, ls. split; [done|].
      split; [by apply Inv_refused|]. split_and!; try done.
    + destruct Hnew as (Hpos & Hnew'). rewrite (proj2 (Z.eqb_neq r 0)) by lia. rewrite ret_bind.
      unfold set_head, put_pool, set_pools, set_mem, set_system, get_pool. cbn [heads pools mem larges lheads heaps next_to_sweep stats swept_words work_done colors system finalised].
      rewrite !fn_lookup_insert, (proj2 (Z.eqb_neq r 0)), lookup_insert_eq by lia. cbn [of_option]. rewrite ret_bind.
      rewrite bool_decide_true by done. unfold CAMLassert at 1. rewrite ret_bind.
      pose proof (fun z => pool_words_out w r (mem st) z) as Hmo. pose proof (pool_words_in w r (mem st)) as Hmi.
      generalize dependent (map_words w (pool_words_at r) pool_slab (mem st)). intros m Hmo Hmi.
      assert (Inv false nothing (set_mem m (set_system w st)) ls lls) as HI.
      { eapply (Inv_fresh _ _ _ _ _ r true 32768); [done|lia|by split|done|]. intros z Hz. by apply Hmo. }
      assert (nowhere ls r) as Hnw.
      { intros q Hq. destruct (iv_region _ _ _ _ _ _ H q r Hq) as [F _]. destruct Hnew' as (_ & _ & F' & _). congruence. }
      apply (Inv_put_pool _ _ _ _ _ r (set_next (heads st freelist) blank)) in HI; [|done].
      eexists r, _, ls. split; [done|]. split.
      { refine (Inv_heads _ _ _ _ _ (<[freelist := next (set_next (heads st freelist) blank)]> (<[freelist := r]> (heads st))) HI _). intros q. destruct (decide (q = freelist)) as [->|]; [rewrite fn_lookup_insert; simpl; done|].
        by rewrite !fn_lookup_insert_ne. }
      split_and!; try done.
      * intros _. split_and!; [done| |lia]. split; simpl; [by rewrite Ew, lookup_insert_eq|done].
      * intros q Hq. simpl. by rewrite !fn_lookup_insert_ne by done.
      * intros q b Hb z Hz. simpl. apply Hmo. destruct (iv_region _ _ _ _ _ _ H q b Hb) as [F _].
        destruct Hnew' as (_ & _ & _ & Hap). destruct (Hap _ _ _ F); change (Bsize_wsize POOL_WSIZE) with 32768 in *; lia.
      * intros q b Hb z (n & F & Hz). simpl. apply Hmo.
        destruct Hnew' as (_ & _ & _ & Hap). destruct (Hap _ _ _ F); change (Bsize_wsize POOL_WSIZE) with 32768 in *; lia.
  - rewrite Er, (proj2 (Z.eqb_neq r 0)) by done. rewrite ret_bind. rewrite Er, (proj2 (Z.eqb_neq r 0)) by done.
    rewrite (get_pool_Ret _ _ _ Ep). rewrite ret_bind.
    destruct (iv_free _ _ _ _ _ _ H r) as (p0 & Ep0 & Ho); [rewrite El; left|]. assert (p0 = p) as -> by congruence.
    rewrite bool_decide_true by done. unfold CAMLassert at 1. rewrite ret_bind.
    destruct (Inv_pop _ _ _ _ _ freelist r l p H El Ep) as [HI Hn]. eexists r, _, _. split; [done|].
    split; [eapply Inv_x; [|exact HI]; done|]. split_and!; try done.
    + intros _. split_and!; [done|done|]. destruct Hreg as [Hreg _]. apply (rg_pos _ (iv_regions _ _ _ _ _ _ H)) in Hreg as (? & _); lia.
    + intros q Hq. simpl. by rewrite !fn_lookup_insert_ne by done.
Qed.

(** ** New pools *)

Lemma slots_from_snoc p wh n : slots_from p wh (S n) = slots_from p wh n ++ [p + 8 * wh * Z.of_nat n].
Proof. unfold slots_from. by rewrite seq_S, fmap_app. Qed.
Lemma slots_from_prefix p wh n done b rest : slots_from p wh n = done ++ b :: rest ->
  done = slots_from p wh (length done) /\ b = p + 8 * wh * Z.of_nat (length done).
Proof.
  intros E. assert (length done < n)%nat as Hn.
  { apply (f_equal length) in E. unfold slots_from in E. rewrite length_fmap, length_seq, length_app in E. simpl in E. lia. }
  assert (forall k, (k < n)%nat -> slots_from p wh n !! k = Some (p + 8 * wh * Z.of_nat k)) as Hk.
  { intros k Hk. unfold slots_from. rewrite list_lookup_fmap, lookup_seq_lt by done. done. }
  split.
  - apply list_eq. intros k. destruct (decide (k < length done)%nat) as [Hlt|Hge].
    + rewrite <- (lookup_app_l done (b :: rest)), <- E, Hk by lia. unfold slots_from. by rewrite list_lookup_fmap, lookup_seq_lt.
    + rewrite !lookup_ge_None_2; [done| |lia]. unfold slots_from. rewrite length_fmap, length_seq. lia.
  - specialize (Hk (length done) Hn). rewrite E, lookup_app_r, Nat.sub_diag in Hk by done. simpl in Hk. congruence.
Qed.

Section initialize.
Context (r i : Z) (o : option Z) (s1 : state) (Hi : is_class i) (Hr : 0 < r) (Hm : pool_mapped (mem s1) r).
Let wh := wsize_sizeclass i.
Let first := POOL_FIRST_BLOCK r i.
(** The first [n + 1] slots are linked. *)
Record init_inv (n : nat) (m : gmap Z Z) : Prop := {
  ii_chain : free_chain m (first + 8 * wh * Z.of_nat n) (rev (slots_from first wh (S n)));
  ii_zero : forall x, x ∈ slots_from first wh (S n) -> m !! x = Some 0;
  ii_out : forall z, ~ in_pool r z -> m !! z = mem s1 !! z;
  ii_mapped : pool_mapped m r;
}.
Lemma slots_from_sub n x : Z.of_nat n <= blocks i -> x ∈ slots_from first wh n -> x ∈ slots r i.
Proof.
  intros Hn. pose proof (class_facts i Hi). unfold slots. rewrite !elem_of_slots_from. intros (k & Hk & ->). exists k. split; [lia|done].
Qed.
Lemma init_slot n m x w : Z.of_nat n < blocks i -> x = first + 8 * wh * Z.of_nat n -> pool_mapped m r ->
  (forall z, ~ in_pool r z -> m !! z = mem s1 !! z) ->
  (forall y, y ∈ slots_from first wh n -> m !! y = Some 0) -> (w = 0 /\ n = 0%nat \/ w = x - 8 * wh /\ exists k, n = S k /\ free_chain m w (rev (slots_from first wh n))) ->
  init_inv n (<[x + 8 := w]> (<[x := 0]> m)).
Proof.
  intros Hn Ex Hmp Ho Hz Hw. pose proof (class_facts i Hi). set (m' := <[x + 8 := w]> (<[x := 0]> m)).
  assert (x ∈ slots r i) as Hx by (apply (slots_from_sub (S n)); [lia|]; rewrite slots_from_snoc, Ex; set_solver).
  assert (forall y, y ∈ slots_from first wh n -> y ∈ slots r i /\ y <> x) as Hys.
  { intros y Hy. split; [by apply (slots_from_sub n); [lia|]|]. apply elem_of_slots_from in Hy as (k & Hk & ->). rewrite Ex. unfold wh. nia. }
  assert (m' !! x = Some 0) as E0 by (unfold m'; rewrite lookup_insert_ne by lia; apply lookup_insert_eq).
  split.
  - rewrite slots_from_snoc, rev_app_distr. simpl. rewrite <- Ex. split; [done|]. split; [pose proof (slot_range r i x Hi Hx); lia|].
    exists w. split; [apply lookup_insert_eq|]. destruct Hw as [[-> ->]|[-> (k & -> & Hc)]]; [done|].
    eapply free_chain_ext; [|exact Hc]. intros y Hy.
    assert (y ∈ slots_from first wh (S k)) as Hy' by (apply list_elem_of_In, in_rev; by apply list_elem_of_In).
    destruct (Hys y Hy') as [Hy1 Hy2]. unfold m'. rewrite !lookup_insert_ne; [done| |lia]. apply not_eq_sym. by eapply slot_second.
  - intros y. rewrite slots_from_snoc, elem_of_app, list_elem_of_singleton, <- Ex. intros [Hy| ->]; [|done].
    destruct (Hys y Hy) as [Hy1 Hy2]. unfold m'. rewrite !lookup_insert_ne; [by apply Hz|done|by eapply slot_second].
  - intros z Hnz. unfold m'. rewrite !lookup_insert_ne; [by apply Ho| |]; intros <-; apply Hnz; [by eapply slot_header_in|by eapply slot_link_in].
  - intros z Hp. unfold m'. destruct (decide (z = x + 8)) as [->|]; [by rewrite lookup_insert_eq|]. rewrite lookup_insert_ne by done.
    destruct (decide (z = x)) as [->|]; [by rewrite lookup_insert_eq|]. rewrite lookup_insert_ne by done. by apply Hmp.
Qed.

(** A slot is zeroed and linked to [w]. *)
Lemma link_slot x w (s : state) : is_Some (mem s !! x) -> is_Some (mem s !! (x + 8)) ->
  (s' ← store x 0 s; store (x + 8) w s') = Ret (set_mem (<[x + 8 := w]> (<[x := 0]> (mem s))) s).
Proof.
  intros [v Ev] [v' Ev']. rewrite (poke_Ret _ _ _ _ Ev), ret_bind. erewrite poke_Ret; [|simpl; rewrite lookup_insert_ne by lia; done].
  by destruct s.
Qed.
Lemma init_loop m0 : init_inv 0 m0 -> let k := (Z.to_nat (blocks i) - 1)%nat in
  exists m', for_each (slots_from (first + 8 * wh) wh k) (init_block wh) (set_mem m0 (put_pool r (mkpool 0 0 o i) s1)) =
    Ret (set_mem m' (put_pool r (mkpool 0 0 o i) s1)) /\ init_inv k m'.
Proof.
  intros H0 k. pose proof (class_facts i Hi) as (? & ? & ? & ?).
  destruct (for_each_inv (fun done s => exists m, s = set_mem m (put_pool r (mkpool 0 0 o i) s1) /\ init_inv (length done) m)
    (slots_from (first + 8 * wh) wh k) (init_block wh) (set_mem m0 (put_pool r (mkpool 0 0 o i) s1))) as (y & -> & m & -> & Hm').
  - exists m0. done.
  - intros done b rest y E (m & -> & [Hc Hz Ho Hmp]). destruct (slots_from_prefix _ _ _ _ _ _ E) as [Ed Eb].
    assert (Z.of_nat (length done) < Z.of_nat k) as Hlen.
    { apply (f_equal length) in E. unfold slots_from in E. rewrite length_fmap, length_seq, length_app in E. simpl in E. lia. }
    assert (b = first + 8 * wh * Z.of_nat (S (length done))) as Eb' by (rewrite Eb; lia).
    assert (b ∈ slots r i) as Hb by (apply (slots_from_sub (S (S (length done)))); [lia|]; rewrite slots_from_snoc, Eb'; set_solver).
    unfold init_block. rewrite link_slot; [|apply Hmp; by eapply slot_header_in|apply Hmp; by eapply slot_link_in].
    eexists. split; [done|]. eexists. split; [by unfold set_mem|]. rewrite length_app, Nat.add_1_r. simpl.
    apply init_slot; try done; [lia|]. right. split; [done|]. exists (length done). split; [done|].
    replace (b - 8 * wh) with (first + 8 * wh * Z.of_nat (length done)) by lia. done.
  - exists m. split; [done|]. unfold slots_from in Hm'. by rewrite length_fmap, length_seq in Hm'.
Qed.
Lemma pool_initialize_run g sw : exists m' nobj fl,
  pool_initialize r i o s1 = Ret (set_mem m' (put_pool r (mkpool 0 nobj o i) s1)) /\ slab_ok m' g sw i nobj r fl /\ fl <> [] /\
  (forall x, x ∈ slots r i -> m' !! x = Some 0) /\ (forall z, ~ in_pool r z -> m' !! z = mem s1 !! z) /\ pool_mapped m' r.
Proof.
  pose proof (class_facts i Hi) as (? & ? & Hb & ?). assert (first ∈ slots r i) as Hf.
  { unfold slots. apply elem_of_slots_from. exists 0. unfold first. lia. }
  unfold pool_initialize. fold wh first. set (s2 := put_pool r (mkpool 0 0 o i) s1).
  destruct (Hm first) as [v Ev]; [by eapply slot_header_in|]. destruct (Hm (first + 8)) as [v' Ev']; [by eapply slot_link_in|].
  rewrite (poke_Ret _ _ _ _ (Ev : mem s2 !! _ = _)), ret_bind.
  erewrite poke_Ret; [|simpl; rewrite lookup_insert_ne by lia; exact Ev']. rewrite ret_bind.
  change (set_mem _ (set_mem _ s2)) with (set_mem (<[first + 8 := 0]> (<[first := 0]> (mem s1))) s2).
  set (k := (Z.to_nat (blocks i) - 1)%nat).
  assert (POOL_END r = first + 8 * wh + 8 * wh * Z.of_nat k) as Eend by (unfold POOL_END, first, POOL_FIRST_BLOCK, POOL_WSIZE, k, wh; nia).
  rewrite Eend, blocks_loop_for_each; [|unfold wh; lia|unfold block_fuel, POOL_WSIZE, k; pose proof (slab_offset i Hi); unfold wh in *; nia].
  destruct (init_loop (<[first + 8 := 0]> (<[first := 0]> (mem s1)))) as (m' & Eloop & [Hc Hz Ho Hmp]).
  { apply init_slot; try done; [lia|lia|intros y Hy; by apply elem_of_nil in Hy|]. by left. }
  fold k in Hc, Hz. assert (slots_from first wh (S k) = slots r i) as Eslots by (unfold slots; f_equal; lia). rewrite Eslots in *.
  fold k s2 in Eloop. rewrite Eloop. rewrite !ret_bind. cbv beta iota zeta. rewrite Z.eqb_refl. unfold CAMLassert at 1. rewrite ret_bind.
  rewrite (get_pool_Ret r _ (mkpool 0 0 o i)) by (simpl; apply lookup_insert_eq). rewrite ret_bind.
  exists m', (first + 8 * wh * Z.of_nat k), (rev (slots r i)). split_and!; try done.
  - replace (first + 8 * wh + 8 * wh * Z.of_nat k - 8 * wh) with (first + 8 * wh * Z.of_nat k) by lia.
    unfold set_next_obj, put_pool, set_pools, set_mem, s2. simpl. by rewrite insert_insert_eq.
  - split; [done| | |].
    + rewrite <- Permutation_rev. by apply slots_NoDup.
    + intros x. rewrite list_elem_of_In, <- in_rev, <- list_elem_of_In. split; [auto|tauto].
    + intros x hd Hx E Hnz. rewrite Hz in E by done. congruence.
  - intros F. apply (f_equal (@rev Z)) in F. rewrite rev_involutive in F. rewrite F in Hf. by apply elem_of_nil in Hf.
Qed.
End initialize.

(** ** Finding a pool *)

Lemma live_where dirty x st ls lls p hd z : Inv dirty x st ls lls -> live_in ls lls (mem st) p hd -> words_of p hd z ->
  (exists q a, q <> freelist /\ a ∈ ls q /\ a + 32 <= z < a + 32768) \/
  (exists q a n, a ∈ lls q /\ regions (system st) !! a = Some (false, n) /\ a <= z < a + n).
Proof.
  intros H [(q & a & Hq & Ha & Hp & E & Hz)|(q & a & Ha & -> & E)] Hw; unfold words_of in Hw; [left|right].
  - destruct (iv_pool _ _ _ _ _ _ H q a Ha Hq) as (Hc & ? & ? & _ & _ & Hs & _). destruct (sl_used _ _ _ _ _ _ _ Hs p hd Hp E Hz) as [[? ?] _].
    pose proof (slot_range _ _ _ Hc Hp). exists q, a. split_and!; try done; lia.
  - destruct (iv_large _ _ _ _ _ _ H q a Ha) as (hd' & E' & ? & ? & Hr & _). simplify_eq. unfold LARGE_ALLOC_HEADER_SZ in *.
    exists q, a, (16 + 8 * Whsize_hd hd). split_and!; try done; lia.
Qed.
(** Nothing is freed when the blocks and their words stay. *)
Lemma Freed_same dirty x x' st st' ls ls' lls lls' : Inv dirty x st ls lls -> Inv dirty x' st' ls' lls' ->
  (forall p hd, live_in ls' lls' (mem st') p hd <-> live_in ls lls (mem st) p hd) ->
  (forall p hd z, live_in ls lls (mem st) p hd -> words_of p hd z -> mem st' !! z = mem st !! z) ->
  finalised st' = finalised st -> colors st' = colors st -> heaps st' = heaps st -> Freed st st' [].
Proof.
  intros H H' Hl Hm Hf Hc Hh. assert (forall p hd, live st' p hd <-> live st p hd) as Hl'.
  { intros p hd. rewrite (live_lists _ _ _ _ _ _ _ H'), (live_lists _ _ _ _ _ _ _ H). apply Hl. }
  split; try done.
  - intros p hd. rewrite Hl'. set_solver.
  - set_solver.
  - constructor.
  - intros p hd z Hp Hz. apply (Hm p hd); [|done]. rewrite <- (live_lists _ _ _ _ _ _ _ H). by apply Hl'.
  - by rewrite app_nil_r.
Qed.
Lemma live_in_ext ls ls' lls lls' m m' p hd : (forall q, q <> freelist -> ls' q = ls q) -> (forall q, lls' q = lls q) ->
  (forall q a, q <> freelist -> a ∈ ls q -> p ∈ slots a (class_of q) -> m' !! p = m !! p) ->
  (forall q a, a ∈ lls q -> p = a + LARGE_ALLOC_HEADER_SZ -> m' !! p = m !! p) ->
  live_in ls' lls' m' p hd <-> live_in ls lls m p hd.
Proof.
  intros Hls Hlls Hm Hml. split; (intros [(q & a & Hq & Ha & Hp & E & Hz)|(q & a & Ha & Hp & E)]; [left|right]; exists q, a).
  - rewrite Hls in Ha by done. rewrite (Hm q a) in E by done. done.
  - rewrite Hlls in Ha. rewrite (Hml q a) in E by done. done.
  - rewrite Hls by done. rewrite (Hm q a) by done. done.
  - rewrite Hlls. rewrite (Hml q a) by done. done.
Qed.

Record progress (st st' : state) (ls ls' : plist -> list Z) (lls : llist -> list Z) (D : list Z) : Prop := {
  pr_Inv : Inv false nothing st' ls' lls;
  pr_Freed : Freed st st' D;
  pr_heaps : heaps st' = heaps st;
  pr_next : next_to_sweep st' = next_to_sweep st;
  pr_shrinks : shrinks ls ls';
}.
Lemma searched_progress st st' ls ls' lls D : searched st st' ls ls' lls D -> progress st st' ls ls' lls D.
Proof. by intros []. Qed.
Lemma progress_trans st1 st2 st3 l1 l2 l3 lls D D' : progress st1 st2 l1 l2 lls D -> progress st2 st3 l2 l3 lls D' ->
  progress st1 st3 l1 l3 lls (D ++ D').
Proof.
  intros [? ? ? ? ?] [? ? ? ? ?]. split; [done|eapply (Freed_trans false nothing st1 st2 st3); eassumption|congruence|congruence|by eapply shrinks_trans].
Qed.
(** Taking a free pool changes no block. *)
Lemma acquired_progress st st' ls ls' lls : Inv false nothing st ls lls -> Inv false nothing st' ls' lls ->
  (forall q, q <> freelist -> ls' q = ls q /\ heads st' q = heads st q) ->
  (forall q b, b ∈ ls q -> forall z, b <= z < b + 32768 -> mem st' !! z = mem st !! z) ->
  (forall q b, b ∈ lls q -> forall z, (exists n, regions (system st) !! b = Some (false, n) /\ b <= z < b + n) -> mem st' !! z = mem st !! z) ->
  heaps st' = heaps st -> next_to_sweep st' = next_to_sweep st -> colors st' = colors st -> finalised st' = finalised st ->
  progress st st' ls ls' lls [].
Proof.
  intros H H' Hls Hm Hml Hh Hn Hc Hf. split; try done.
  - eapply (Freed_same false nothing nothing st st'); [exact H|exact H'| | |done..].
    + intros p hd. apply live_in_ext; [by apply Hls|done| |].
      * intros q a Hq Ha Hp. apply (Hm q a Ha). destruct (iv_pool _ _ _ _ _ _ H q a Ha Hq) as (Hcl & _).
        pose proof (slot_header_in _ _ _ Hcl Hp) as [? _]. lia.
      * intros q a Ha ->. apply (Hml q a Ha). destruct (iv_large _ _ _ _ _ _ H q a Ha) as (hd' & _ & _ & ? & E & _).
        eexists. split; [done|]. unfold LARGE_ALLOC_HEADER_SZ. lia.
    + intros p hd z Hp Hz. destruct (live_where _ _ _ _ _ _ _ _ H Hp Hz) as [(q & a & _ & Ha & ?)|(q & a & n & Ha & E & ?)].
      * apply (Hm q a Ha). lia.
      * apply (Hml q a Ha). eauto.
  - intros q Hq E. destruct (Hls q) as [-> _]; [|done]. by intros ->.
Qed.

Definition count_new_pool (i : Z) (h : heap_stats) : heap_stats :=
  add_pool_stats 0 0 0 (POOL_HEADER_WSIZE + wastage_sizeclass i) (bump_pool_max (add_pool_stats POOL_WSIZE 0 0 0 h)).
Lemma get_count_new t i h : eqm 64 (get_stat t (count_new_pool i h)) (get_stat t h + pool_share t i).
Proof.
  unfold count_new_pool. etransitivity; [apply get_add_pool|]. assert (forall h, get_stat t (bump_pool_max h) = get_stat t h) as ->
    by (intros h'; unfold bump_pool_max; destruct (_ <? _); by destruct t).
  etransitivity; [apply eqm_add; [apply get_add_pool|reflexivity]|]. apply eqm_eq. destruct t; simpl; unfold POOL_SLAB_WOFFSET; lia.
Qed.
Lemma lget_count_new t i h : get_lstat t (count_new_pool i h) = get_lstat t h.
Proof. unfold count_new_pool, bump_pool_max. rewrite lget_add_pool. destruct (_ <? _); by destruct t. Qed.

(** A pool in no list becomes a pool of [d] with all its slots free. *)
Lemma new_pool_spec d i st ls lls r : Inv false nothing st ls lls -> d ∈ heaps st -> is_class i -> ls (avail_pools d i) = [] ->
  nowhere ls r -> pool_region st r -> 0 < r -> exists st',
  pool_initialize r i (Some d) (set_head (avail_pools d i) r (update_stats (Some d) (count_new_pool i) st)) = Ret st' /\
  progress st st' ls (<[avail_pools d i := [r]]> ls) lls [].
Proof.
  intros H Hd Hi Ha Hn [Hr Hm] Hpos. set (s1 := set_head _ _ _).
  destruct (pool_initialize_run r i (Some d) s1 Hi Hpos Hm (GARBAGE (colors st)) (fun _ => False)) as (m' & nobj & fl & E & Hsl & Hfl & Hz & Ho & Hmp).
  exists (set_mem m' (put_pool r (mkpool 0 nobj (Some d) i) s1)). split; [exact E|].
  assert (heads st (avail_pools d i) = 0) as Hz0 by (apply (linked_null _ _ _ _ _ _ (iv_linked _ _ _ _ _ _ H)); [by eapply local_valid|done]).
  pose proof (Inv_mem _ _ _ _ _ r m' H Hn Hr Ho) as H1.
  apply (Inv_stats _ _ (share (Some d) m' i r) _ _ _ (Some d) (count_new_pool i)) in H1.
  2: { intros t. etransitivity; [apply get_count_new|]. apply eqm_eq. unfold share, nothing. rewrite decide_True by done.
       rewrite weight_empty by exact Hz. lia. }
  2: { intros k t Hk. unfold share, nothing. by rewrite decide_False. }
  2: { intros t. by rewrite lget_count_new. }
  eapply (Inv_push _ _ _ _ _ (avail_pools d i) r (mkpool 0 nobj (Some d) i)) in H1; [|done|by eapply local_valid|lia|by split|done|].
  2: { rewrite decide_False by done. split; [done|]. exists (mkpool 0 nobj (Some d) i), fl. rewrite lookup_insert_eq. split_and!; try done.
       destruct Hsl as [? ? ? Hu]. split; try done. intros y hd Hy Ey Hnz. rewrite Hz in Ey by done. congruence. }
  assert (Inv false nothing (set_mem m' (put_pool r (mkpool 0 nobj (Some d) i) s1)) (<[avail_pools d i := [r]]> ls) lls) as H2.
  { rewrite Ha in H1. eapply Inv_x; [|exact H1]. intros k t. unfold counted, nothing. simpl. lia. }
  split; try done.
  - eapply (Freed_same false nothing nothing); [exact H|exact H2| | |done..].
    + intros p hd. assert (forall q a, q <> freelist -> a ∈ ls q -> p ∈ slots a (class_of q) -> m' !! p = mem st !! p) as Hs.
      { intros q a Hq Hb Hp. apply Ho. destruct (iv_pool _ _ _ _ _ _ H q a Hb Hq) as (Hcl & _). destruct (iv_region _ _ _ _ _ _ H q a Hb) as [Hra _].
        apply (pools_apart _ a r _ (iv_regions _ _ _ _ _ _ H) Hra Hr); [intros ->; by apply (Hn q)|by eapply slot_header_in]. }
      assert (forall q a, a ∈ lls q -> p = a + LARGE_ALLOC_HEADER_SZ -> m' !! p = mem st !! p) as Hs'.
      { intros q a Hb ->. apply Ho. destruct (iv_large _ _ _ _ _ _ H q a Hb) as (hd' & _ & _ & ? & F & _).
        eapply pool_large_apart; [apply H|done..|]. unfold LARGE_ALLOC_HEADER_SZ. lia. }
      simpl. split; (intros [(q & a & Hq & Hb & Hp & E' & Hnz)|(q & a & Hb & Hp & E')]; [left|right]; exists q, a).
      * destruct (decide (avail_pools d i = q)) as [<-|Hne].
        { rewrite fn_lookup_insert in Hb. apply list_elem_of_singleton in Hb as ->. simpl in Hp. rewrite Hz in E' by done. congruence. }
        rewrite fn_lookup_insert_ne in Hb by done. rewrite (Hs q a) in E' by done. done.
      * rewrite (Hs' q a) in E' by done. done.
      * rewrite (Hs q a) by done. split_and!; try done. rewrite fn_lookup_insert_ne; [done|]. intros <-. rewrite Ha in Hb. by apply elem_of_nil in Hb.
      * rewrite (Hs' q a) by done. done.
    + intros p hd z Hp Hw. apply Ho. intros Hin. unfold in_pool in Hin.
      destruct (live_where _ _ _ _ _ _ _ _ H Hp Hw) as [(q & a & _ & Hb & ?)|(q & a & n & Hb & F & ?)].
      * destruct (iv_region _ _ _ _ _ _ H q a Hb) as [Hra _]. assert (a <> r) as Hne by (intros ->; by apply (Hn q)).
        destruct (rg_apart _ (iv_regions _ _ _ _ _ _ H) _ _ _ _ _ _ Hra Hr Hne); lia.
      * assert (a <> r) as Hne by congruence. destruct (rg_apart _ (iv_regions _ _ _ _ _ _ H) _ _ _ _ _ _ F Hr Hne); lia.
  - intros q Hq E'. rewrite fn_lookup_insert_ne; [done|]. by intros <-.
Qed.

(** [pool_find] returns the first available pool, or the system has no memory. *)
Lemma pool_find_spec d i st ls lls : Inv false nothing st ls lls -> d ∈ heaps st -> is_class i ->
  exists r st' ls' D, pool_find d i st = Ret (r, st') /\ progress st st' ls ls' lls D /\
    ((r = 0 /\ fst (caml_mem_map (Bsize_wsize POOL_WSIZE) (system st)) = 0) \/ exists l, ls' (avail_pools d i) = r :: l).
Proof.
  intros H Hd Hi. unfold pool_find.
  assert (forall st ls, Inv false nothing st ls lls -> d ∈ heaps st -> heads st (avail_pools d i) <> 0 -> exists l, ls (avail_pools d i) = heads st (avail_pools d i) :: l) as Hhd.
  { intros st0 ls0 H0 Hd0 Hne. destruct (Inv_head _ _ _ _ _ (avail_pools d i) H0) as [[Ez _]|(a & l & p & Ea & _ & El & _)]; [by eapply local_valid|done|].
    exists l. by rewrite Ea. }
  destruct (Z.eqb_spec (heads st (avail_pools d i)) 0) as [Ez|Ez]; cbn [negb].
  2: { exists (heads st (avail_pools d i)), st, ls, []. split; [done|]. split; [by apply searched_progress, searched_refl|]. right. eauto. }
  destruct (find_loop_spec (list_fuel st) d i st ls lls H Hd Hi) as (st1 & ls1 & D1 & -> & HS1 & _).
  { unfold list_fuel. pose proof (linked_size next _ _ _ _ (unswept_avail_pools d i) (iv_linked _ _ _ _ _ _ H)). lia. }
  rewrite ret_bind. assert (d ∈ heaps st1) as Hd1 by (by rewrite (se_heaps _ _ _ _ _ _ HS1)). cbv zeta.
  destruct (Z.eqb_spec (heads st1 (avail_pools d i)) 0) as [Ez1|Ez1]; cbn [negb].
  2: { exists (heads st1 (avail_pools d i)), st1, ls1, D1. split; [done|]. split; [by apply searched_progress|]. right. apply (Hhd st1); [apply HS1|done|done]. }
  assert (ls1 (avail_pools d i) = []) as Ha1.
  { apply (linked_null _ _ _ _ _ _ (iv_linked _ _ _ _ _ _ (se_Inv _ _ _ _ _ _ HS1))); [by eapply local_valid|done]. }
  destruct (pool_global_adopt_spec d i st1 ls1 lls (se_Inv _ _ _ _ _ _ HS1) Hd1 Hi Ha1) as (st2 & ls2 & D2 & -> & HS2). rewrite ret_bind. cbv beta iota zeta.
  assert (d ∈ heaps st2) as Hd2 by (by rewrite (se_heaps _ _ _ _ _ _ HS2)). pose proof (searched_trans _ _ _ _ _ _ _ _ _ HS1 HS2) as HS.
  destruct (Z.eqb_spec (heads st2 (avail_pools d i)) 0) as [Ez2|Ez2]; cbn [negb].
  2: { exists (heads st2 (avail_pools d i)), st2, ls2, (D1 ++ D2). split; [done|]. split; [by apply searched_progress|]. right. apply (Hhd st2); [apply HS|done|done]. }
  assert (ls2 (avail_pools d i) = []) as Ha2.
  { apply (linked_null _ _ _ _ _ _ (iv_linked _ _ _ _ _ _ (se_Inv _ _ _ _ _ _ HS2))); [by eapply local_valid|done]. }
  destruct (pool_acquire_spec st2 ls2 lls (se_Inv _ _ _ _ _ _ HS2)) as (r & st3 & ls3 & -> & HI3 & Hr0 & Hr & Hls & Hm & Hml & Hh & Hn & Hc & Hf & _).
  rewrite ret_bind. cbv beta iota zeta.
  pose proof (acquired_progress st2 st3 ls2 ls3 lls (se_Inv _ _ _ _ _ _ HS2) HI3 Hls Hm Hml Hh Hn Hc Hf) as HP3.
  pose proof (progress_trans _ _ _ _ _ _ _ _ _ (searched_progress _ _ _ _ _ _ HS) HP3) as HP.
  destruct (Z.eqb_spec r 0) as [->|Hr1].
  { exists 0, st3, ls3, (D1 ++ D2 ++ []). rewrite app_assoc. split; [done|]. split; [done|]. left. split; [done|].
    rewrite <- (se_system _ _ _ _ _ _ HS). by apply Hr0. }
  destruct (Hr Hr1) as (Hnw & Hreg & Hpos). destruct (Hls (avail_pools d i) ltac:(done)) as [Ha3 _].
  destruct (new_pool_spec d i st3 ls3 lls r HI3 ltac:(by rewrite Hh) Hi ltac:(by rewrite Ha3) Hnw Hreg Hpos) as (st4 & E4 & HP4).
  unfold count_new_pool in E4. rewrite E4, ret_bind.
  exists r, st4, (<[avail_pools d i := [r]]> ls3), (((D1 ++ D2) ++ []) ++ []). split; [done|]. split; [by eapply progress_trans|].
  right. exists []. by rewrite fn_lookup_insert.
Qed.

(** ** Taking a slot *)

(** [pool_allocate], once a pool is found. *)
Definition take_slot (d i r : Z) (s : state) : result (Z * state) :=
  if r =? 0 then Ret (0, s) else
  q ← get_pool s r;
  let p := next_obj q in
  nxt ← load s (p + 8);
  let s := put_pool r (set_next_obj nxt q) s in
  hd ← load s p;
  _ ← CAMLassert (hd =? 0);
  let s :=
    if nxt =? 0 then
      let s := set_head (avail_pools d i) (next q) s in
      let s := put_pool r (set_next (heads s (full_pools d i)) (set_next_obj nxt q)) s in
      set_head (full_pools d i) r s
    else s in
  _ ← (if nxt =? 0 then Ret () else hd ← load s nxt; CAMLassert (hd =? 0));
  Ret (p, s).
Lemma pool_allocate_eq d i s : pool_allocate d i s = ('(r, s) ← pool_find d i s; take_slot d i r s).
Proof. reflexivity. Qed.

Section take.
Context (d i r : Z) (l : list Z) (st : state) (ls : plist -> list Z) (lls : llist -> list Z) (q : pool) (p nxt : Z) (fl : list Z).
Context (H : Inv false nothing st ls lls) (Hi : is_class i) (Hd : d ∈ heaps st) (El : ls (avail_pools d i) = r :: l) (Eq : pools st !! r = Some q).
Context (Hsl : slab_ok (mem st) (GARBAGE (colors st)) (fun _ => false = false) i (next_obj q) r (p :: fl)) (En : mem st !! (p + 8) = Some nxt) (Hq : sz q = i).
Let dst : plist := if nxt =? 0 then full_pools d i else avail_pools d i.
Let P : pool := set_next ((<[avail_pools d i := next q]> (heads st)) dst) (set_next_obj nxt q).

Lemma take_facts : p ∈ slots r i /\ mem st !! p = Some 0 /\ p <> 0 /\ next_obj q = p /\ (nxt = 0 <-> fl = []) /\
  free_chain (mem st) nxt fl /\ (nxt <> 0 -> mem st !! nxt = Some 0) /\ p ∉ fl.
Proof.
  destruct Hsl as [(E1 & Hp & n & E2 & Hc) Hnd Hf _]. assert (n = nxt) as -> by congruence.
  destruct (proj1 (Hf p) ltac:(left)) as [? ?]. apply NoDup_cons in Hnd as [? _]. split_and!; try done.
  - destruct fl; simpl in Hc; [done|]. naive_solver.
  - destruct fl as [|y fl']; simpl in Hc; [done|]. destruct Hc as (-> & _). intros _. apply (Hf y). right. left.
Qed.
Lemma take_slot_run : exists heads', (forall k, heads' k = (<[dst := r]> (<[avail_pools d i := next q]> (heads st))) k) /\
  take_slot d i r st = Ret (p, set_heads heads' (put_pool r P st)).
Proof.
  destruct take_facts as (Hp & E0 & Hpz & Eno & Hnz & Hc & Hz & _).
  assert (r <> 0) as Hr by (eapply linked_node; [apply H|]; rewrite El; left). assert (heads st (avail_pools d i) = r) as Eh by (eapply linked_head; [apply H|done]).
  unfold take_slot. rewrite (proj2 (Z.eqb_neq r 0)), (get_pool_Ret _ _ _ Eq), ret_bind by done. cbv zeta.
  rewrite Eno, (load_Ret _ _ _ En), ret_bind. rewrite (load_Ret p _ 0) by exact E0. rewrite ret_bind, Z.eqb_refl. change (CAMLassert true) with (Ret ()). rewrite ret_bind.
  unfold P, dst. destruct (Z.eqb_spec nxt 0) as [Ez|Ez].
  - rewrite ret_bind. exists (<[full_pools d i := r]> (<[avail_pools d i := next q]> (heads st))). split; [done|].
    unfold set_head, put_pool, set_pools, set_heads. simpl. by rewrite insert_insert_eq.
  - rewrite (load_Ret nxt _ 0) by (by apply Hz). rewrite ret_bind, Z.eqb_refl. change (CAMLassert true) with (Ret ()). rewrite ret_bind. exists (heads st). split.
    + intros k. destruct (decide (avail_pools d i = k)) as [<-|]; [by rewrite fn_lookup_insert|by rewrite !fn_lookup_insert_ne].
    + rewrite fn_lookup_insert. unfold put_pool, set_pools, set_heads, set_next, set_next_obj. by destruct st.
Qed.

Context (hd w : Z) (Hhd : hd_ok (wsize_sizeclass i) hd) (Hw : Whsize_hd hd = w) (Hcol : Color_hd hd <> GARBAGE (colors st)).
Let m' : gmap Z Z := <[p := hd]> (mem st).

Lemma take_slab : slab_ok m' (GARBAGE (colors st)) (fun _ => false = false) i nxt r fl.
Proof.
  destruct take_facts as (Hp & E0 & Hpz & Eno & Hnz & Hc & Hz & Hpf). destruct Hsl as [_ Hnd Hf Hu]. apply NoDup_cons in Hnd as [_ Hnd].
  assert (0 < hd) as Hh0 by (by destruct Hhd as [[? _] _]). split; [|done| |].
  - eapply free_chain_ext; [|exact Hc]. intros y Hy. unfold m'. rewrite lookup_insert_ne; [done|]. apply not_eq_sym. eapply slot_second; [done| |done].
    apply (Hf y). by right.
  - intros x. destruct (decide (x = p)) as [->|Hne].
    + unfold m'. rewrite lookup_insert_eq. split; [done|]. intros [_ [= ?]]. lia.
    + unfold m'. rewrite lookup_insert_ne by done. rewrite <- Hf, elem_of_cons. naive_solver.
  - intros x hd' Hx. unfold m'. destruct (decide (x = p)) as [->|Hne]; [rewrite lookup_insert_eq; naive_solver|].
    rewrite lookup_insert_ne by done. by apply Hu.
Qed.
Lemma take_Inv heads' : (forall k, heads' k = (<[dst := r]> (<[avail_pools d i := next q]> (heads st))) k) ->
  Inv false nothing (set_mem m' (update_stats (Some d) (add_pool_stats 0 w 1 (wsize_sizeclass i - w)) (set_heads heads' (put_pool r P st))))
    (moved (avail_pools d i) dst r l ls) lls.
Proof.
  intros Hh. destruct take_facts as (Hp & E0 & Hpz & Eno & Hnz & Hc & Hz & Hpf).
  assert (r ∈ ls (avail_pools d i)) as Hr by (rewrite El; left). destruct (iv_region _ _ _ _ _ _ H _ r Hr) as [Hreg Hmap].
  destruct (Inv_pop _ _ _ _ _ (avail_pools d i) r l q H El Eq) as [H1 Hn].
  apply (Inv_mem _ _ _ _ _ r m') in H1; [|done|done|].
  2: { intros y Hy. unfold m'. rewrite lookup_insert_ne; [done|]. intros <-. apply Hy. by eapply slot_header_in. }
  apply (Inv_add_pool _ _ (share (Some d) m' i r) _ _ _ (Some d) 0 w 1 (wsize_sizeclass i - w)) in H1.
  2: { intros t. unfold counted, share, nothing. simpl. rewrite !decide_True by done.
       rewrite (weight_header t (mem st) m' i r p 0 hd); try done; [|by apply lookup_insert_eq|intros y _ Hy; by apply lookup_insert_ne].
       rewrite (proj2 (Z.eqb_neq hd 0)) by (destruct Hhd; lia). simpl. destruct t; simpl; lia. }
  2: { intros k t Hk. unfold counted, share, nothing. simpl. by rewrite !decide_False. }
  assert (class_of dst = i /\ group dst = Some (Some d) /\ unswept dst = false /\ dst <> freelist) as (Hdc & Hdg & Hdu & Hdf) by (unfold dst; by destruct (nxt =? 0)).
  apply (Inv_push _ _ _ _ _ dst r P) in H1; [|done|by eapply local_valid|by eapply linked_node; [apply H|]| |done|].
  - apply (Inv_heads _ _ _ _ _ heads') in H1; [|exact Hh]. eapply Inv_x; [|exact H1]. intros k t. unfold counted, nothing. rewrite Hdg, Hdc. simpl. lia.
  - split; [done|]. intros z Hzp. simpl. unfold m'. destruct (decide (z = p)) as [->|]; [by rewrite lookup_insert_eq|]. rewrite lookup_insert_ne by done. by apply Hmap.
  - rewrite decide_False by done. split; [by rewrite Hdc|]. exists P, fl. rewrite lookup_insert_eq, Hdc, Hdu. split_and!; [done|done|apply take_slab|].
    unfold dst. rewrite <- Hnz. destruct (Z.eqb_spec nxt 0); naive_solver.
Qed.
Lemma take_live p' hd' : live_in (moved (avail_pools d i) dst r l ls) lls m' p' hd' <-> (p' = p /\ hd' = hd) \/ live_in ls lls (mem st) p' hd'.
Proof.
  destruct take_facts as (Hp & E0 & _). assert (class_of dst = i /\ dst <> freelist) as [Hdc Hdf] by (unfold dst; by destruct (nxt =? 0)).
  rewrite <- (live_in_moved false nothing st ls lls (avail_pools d i) dst r l p' hd') by done.
  assert (r ∈ moved (avail_pools d i) dst r l ls dst) as Hr by (unfold moved; rewrite fn_lookup_insert; left).
  assert (r ∈ ls (avail_pools d i)) as Hr' by (rewrite El; left). destruct (iv_region _ _ _ _ _ _ H _ r Hr') as [Hreg _].
  generalize dependent (moved (avail_pools d i) dst r l ls). intros ls' Hr. unfold m'. destruct (decide (p' = p)) as [->|Hne].
  - split; [|intros [[_ ->]|[(k & a & Hk & Ha & Hs & E & Hz)|(k & a & Ha & E & E')]]].
    + intros [(k & a & _ & _ & _ & E & _)|(k & a & _ & _ & E)]; rewrite lookup_insert_eq in E; left; by simplify_eq.
    + left. exists dst, r. rewrite lookup_insert_eq, Hdc. split_and!; try done. destruct Hhd. lia.
    + rewrite E0 in E. congruence.
    + exfalso. destruct (iv_large _ _ _ _ _ _ H k a Ha) as (h & F & ? & _). rewrite <- E in F. simplify_eq. lia.
  - unfold live_in. rewrite lookup_insert_ne by done. split; [auto|]. by intros [[? _]|?].
Qed.
End take.
End alloc.
End PoolHeapAlloc.
