(* ===== verification/PoolHeapLarge.v ===== *)
(** * Large blocks of the shared heap, and the theorem on allocation *)

From S2P Require Import Prelude Memory PoolHeap PoolHeapInv PoolHeapSweep PoolHeapAlloc.
From stdpp Require Import list functions gmap.
#[local] Open Scope Z_scope.
Import PoolHeap PoolHeapInv PoolHeapSweep PoolHeapAlloc.
#[local] Notation eqm := Prelude.eqm.

Module PoolHeapLarge.
Section large.
Context `{Laws : OsLaws}.

(** ** Moving large blocks *)

Definition lcounted (q : llist) (m : gmap Z Z) (a : Z) (k : option Z) (t : lstat) : Z :=
  if decide (lgroup q = k) then lweight t m q a else 0.
Lemma total_llist t m lls q l k :
  total (lweight t m) (<[q := l]> lls) (lplaces k) =
  total (lweight t m) lls (lplaces k) + (if decide (lgroup q = k) then sum (lweight t m q) l - sum (lweight t m q) (lls q) else 0).
Proof.
  rewrite total_insert by apply lplaces_NoDup. f_equal.
  destruct (decide (q ∈ lplaces k)) as [Hq|Hq]; rewrite elem_of_lplaces in Hq; by destruct (decide (lgroup q = k)).
Qed.
Lemma Inv_lpop dirty x y st ls lls q a l p : InvG dirty x y st ls lls -> lls q = a :: l -> larges st !! a = Some p ->
  InvG dirty x (fun k t => y k t + lcounted q (mem st) a k t) (set_lhead q (l_next p) st) ls (<[q := l]> lls) /\ nowhere (<[q := l]> lls) a.
Proof.
  intros H E Ea. destruct (linked_pop l_next q a l p (iv_llinked _ _ _ _ _ _ H) E Ea) as [Hl Hn]. split; [|done].
  assert (forall r b, b ∈ (<[q := l]> lls) r -> b ∈ lls r) as Hsub.
  { intros r b Hb. destruct (decide (q = r)) as [->|]; [|by rewrite fn_lookup_insert_ne in Hb].
    rewrite fn_lookup_insert in Hb. rewrite E. by right. }
  destruct H. split; simpl; eauto.
  intros k t Hk. etransitivity; [by apply iv_lstats0|]. apply eqm_eq. rewrite total_llist, E. unfold lcounted. simpl. destruct decide; lia.
Qed.
Lemma Inv_lpush dirty x y st ls lls q a p : InvG dirty x y st ls lls -> nowhere lls a -> lvalid (heaps st) q = true -> a <> 0 ->
  l_next p = lheads st q -> large_ok dirty (mem st) (GARBAGE (colors st)) (regions (system st)) q a ->
  InvG dirty x (fun k t => y k t - lcounted q (mem st) a k t) (set_lhead q a (put_large a p st)) ls (<[q := a :: lls q]> lls).
Proof.
  intros H Hn Hv Hz Hp Hok. pose proof (linked_push l_next q a p (iv_llinked _ _ _ _ _ _ H) Hn Hv Hz Hp) as Hl.
  destruct H. split; simpl in *; eauto.
  - intros r b Hb. destruct (decide (q = r)) as [->|]; [|rewrite fn_lookup_insert_ne in Hb by done; auto].
    rewrite fn_lookup_insert in Hb. apply elem_of_cons in Hb as [->|]; auto.
  - intros k t Hk. etransitivity; [by apply iv_lstats0|]. apply eqm_eq. rewrite total_llist. unfold lcounted. simpl. destruct decide; lia.
Qed.
Lemma Inv_gstats dirty x x' y y' st ls lls k f : InvG dirty x y st ls lls ->
  (forall t, eqm 64 (get_stat t (f (stats st k))) (get_stat t (stats st k) + (x' k t - x k t))) ->
  (forall t, eqm 64 (get_lstat t (f (stats st k))) (get_lstat t (stats st k) + (y' k t - y k t))) ->
  (forall k' t, k' <> k -> x' k' t = x k' t) -> (forall k' t, k' <> k -> y' k' t = y k' t) ->
  InvG dirty x' y' (update_stats k f st) ls lls.
Proof.
  intros H Hf Hl Hx Hy. destruct H. split; simpl; try done.
  - intros k' t Hk. destruct (decide (k = k')) as [->|].
    + rewrite fn_lookup_insert. etransitivity; [apply Hf|]. etransitivity; [apply eqm_add; [by apply iv_stats0|reflexivity]|]. apply eqm_eq. lia.
    + rewrite fn_lookup_insert_ne, Hx by done. auto.
  - intros k' t Hk. destruct (decide (k = k')) as [->|].
    + rewrite fn_lookup_insert. etransitivity; [apply Hl|]. etransitivity; [apply eqm_add; [by apply iv_lstats0|reflexivity]|]. apply eqm_eq. lia.
    + rewrite fn_lookup_insert_ne, Hy by done. auto.
Qed.
Lemma Inv_xy dirty x x' y y' st ls lls : (forall k t, x' k t = x k t) -> (forall k t, y' k t = y k t) -> InvG dirty x y st ls lls -> InvG dirty x' y' st ls lls.
Proof. intros E F H. destruct H. split; try done; intros; rewrite ?E, ?F; auto. Qed.

(** The list at the head of the large blocks. *)
Lemma Inv_lhead dirty x y st ls lls q : InvG dirty x y st ls lls -> lvalid (heaps st) q = true ->
  (lheads st q = 0 /\ lls q = []) \/ exists a l p, lheads st q = a /\ a <> 0 /\ lls q = a :: l /\ larges st !! a = Some p.
Proof.
  intros H Hv. destruct (lls q) as [|a l] eqn:E.
  - left. split; [|done]. by apply (linked_null _ _ _ _ _ _ (iv_llinked _ _ _ _ _ _ H) Hv).
  - right. assert (a ∈ lls q) as Ha by (rewrite E; left).
    destruct (linked_node _ _ _ _ _ _ _ (iv_llinked _ _ _ _ _ _ H) Ha) as [Hz [p Ep]].
    exists a, l, p. split_and!; try done. by eapply linked_head; [apply H|].
Qed.

(** ** Allocating a large block *)

Definition add_large (d a : Z) (lls : llist -> list Z) : llist -> list Z := <[swept_large d := a :: lls (swept_large d)]> lls.
Lemma get_add_large t lw lb h : get_stat t (add_large_stats lw lb h) = get_stat t h.
Proof. by destruct t. Qed.
Lemma lget_add_large t lw lb h : eqm 64 (get_lstat t (add_large_stats lw lb h)) (get_lstat t h + match t with l_words => lw | l_blocks => lb end).
Proof. destruct t; apply eqm_of_swrap; lia. Qed.
Lemma get_bump_large t h : get_stat t (bump_large_max h) = get_stat t h.
Proof. unfold bump_large_max. destruct (_ <? _); by destruct t. Qed.
Lemma lget_bump_large t h : get_lstat t (bump_large_max h) = get_lstat t h.
Proof. unfold bump_large_max. destruct (_ <? _); by destruct t. Qed.
(** Counters of large blocks change with the shares that are not in lists. *)
Definition lchange (d lw lb : Z) (y : option Z -> lstat -> Z) (k : option Z) (t : lstat) : Z :=
  y k t + (if decide (Some d = k) then match t with l_words => lw | l_blocks => lb end else 0).
Lemma Inv_add_large dirty x y st ls lls d lw lb f : InvG dirty x y st ls lls ->
  (forall h t, get_stat t (f h) = get_stat t (add_large_stats lw lb h)) -> (forall h t, get_lstat t (f h) = get_lstat t (add_large_stats lw lb h)) ->
  InvG dirty x (lchange d lw lb y) (update_stats (Some d) f st) ls lls.
Proof.
  intros H Hf Hl. eapply Inv_gstats; [exact H|..].
  - intros t. rewrite Hf, get_add_large. apply eqm_eq. lia.
  - intros t. rewrite Hl. etransitivity; [apply lget_add_large|]. apply eqm_eq. unfold lchange. rewrite decide_True by done. lia.
  - done.
  - intros k t Hk. unfold lchange. rewrite decide_False by done. lia.
Qed.
Lemma large_allocate_spec d wosize hd st ls lls : Inv false nothing st ls lls -> d ∈ heaps st -> 128 < Whsize_hd hd -> 0 < hd < 2 ^ 64 ->
  Color_hd hd <> GARBAGE (colors st) -> Whsize_hd hd = Whsize_wosize wosize ->
  (exists st', large_allocate d (Bsize_wsize (Whsize_wosize wosize)) st = Ret (0, st') /\ progress st st' ls ls lls [] /\
     fst (malloc (Bsize_wsize (Whsize_wosize wosize) + 16) (system st)) = 0) \/
  (exists a st', a <> 0 /\ large_allocate d (Bsize_wsize (Whsize_wosize wosize)) st = Ret (a + 16, st') /\
     is_Some (mem st' !! (a + 16)) /\ Inv false nothing (set_mem (<[a + 16 := hd]> (mem st')) st') ls (add_large d a lls) /\
     new_region a (Bsize_wsize (Whsize_wosize wosize) + 16) (regions (system st)) /\ nowhere lls a /\
     (forall z, ~ (a <= z < a + (Bsize_wsize (Whsize_wosize wosize) + 16)) -> mem st' !! z = mem st !! z) /\
     (forall k, 0 <= k < Whsize_wosize wosize -> is_Some (mem st' !! (a + 16 + 8 * k))) /\
     heaps st' = heaps st /\ next_to_sweep st' = next_to_sweep st /\ finalised st' = finalised st /\ colors st' = colors st).
Proof.
  intros H Hd Hw Hh Hc Ew. unfold large_allocate, LARGE_ALLOC_HEADER_SZ. set (n := Bsize_wsize (Whsize_wosize wosize) + 16).
  assert (n = 16 + 8 * Whsize_hd hd) as En by (unfold n, Bsize_wsize; lia).
  destruct (malloc n (system st)) as [a w] eqn:Em. apply malloc_law in Em as [[-> Er]|[Hnew Er]]; [| |lia].
  - left. exists (set_system w st). split; [done|]. split; [|done]. split; try done; [by apply Inv_refused| |apply shrinks_refl].
    by apply Freed_none.
  - right. assert (0 < a) as Ha by (by destruct Hnew). rewrite (proj2 (Z.eqb_neq a 0)) by lia.
    assert (Bsize_wsize (Whsize_wosize wosize) / 8 = Whsize_hd hd) as E8 by (rewrite Ew; unfold Bsize_wsize; apply Z.div_mul; lia).
    assert (n / 8 = Whsize_hd hd + 2) as En8 by (rewrite En; replace (16 + 8 * Whsize_hd hd) with ((Whsize_hd hd + 2) * 8) by lia; apply Z.div_mul; lia).
    rewrite E8. fold n. rewrite En8.
    pose proof (fun z => map_words_out w (a + 16) (Z.to_nat (Whsize_hd hd)) (mem st) z) as Hout.
    pose proof (fun k => map_words_in w (a + 16) (Z.to_nat (Whsize_hd hd)) (mem st) k) as Hin.
    change (mem (set_system w st)) with (mem st).
    generalize dependent (map_words w (a + 16) (Z.to_nat (Whsize_hd hd)) (mem st)). intros m Hout Hin.
    eexists a, _. split; [lia|]. split; [done|].
    assert (nowhere lls a) as Hnw.
    { intros q Hq. destruct (iv_large _ _ _ _ _ _ H q a Hq) as (h & _ & _ & _ & F & _). destruct Hnew as (_ & _ & _ & F' & _). congruence. }
    assert (Inv false nothing (set_mem (<[a + 16 := hd]> m) (set_system w st)) ls lls) as H1.
    { eapply (Inv_fresh _ _ _ _ _ a false n); [done|lia|done|done|]. intros z Hz. rewrite lookup_insert_ne by lia. apply Hout. lia. }
    apply (Inv_add_large _ _ _ _ _ _ d (Whsize_hd hd + 2) 0 (fun h => bump_large_max (add_large_stats (Whsize_hd hd + 2) 0 h))) in H1.
    2: { intros h t. apply get_bump_large. }
    2: { intros h t. apply lget_bump_large. }
    apply (Inv_add_large _ _ _ _ _ _ d 0 1 (add_large_stats 0 1)) in H1; [|done..].
    eapply (Inv_lpush _ _ _ _ _ _ (swept_large d) a (mklarge (Some d) (lheads st (swept_large d)))) in H1; [|done|by apply bool_decide_eq_true|lia|done|].
    2: { exists hd. unfold LARGE_ALLOC_HEADER_SZ. simpl. rewrite lookup_insert_eq, Er, lookup_insert_eq. split_and!; try done; try lia; [by f_equal; f_equal|].
         intros k Hk. destruct (decide (k = 0)) as [->|]; [rewrite Z.mul_0_r, Z.add_0_r, lookup_insert_eq; done|].
         rewrite lookup_insert_ne by lia. apply Hin. lia. }
    split_and!; try done.
    + replace (a + 16) with (a + 16 + 8 * 0) by lia. apply Hin. lia.
    + eapply Inv_xy; [| |exact H1]; [done|]. intros k t. unfold lchange, lcounted, lweight, LARGE_ALLOC_HEADER_SZ, lnothing. simpl. rewrite lookup_insert_eq. destruct decide; destruct t; simpl; lia.
    + intros z Hz. simpl. apply Hout. lia.
    + intros k Hk. simpl. apply Hin. lia.
Qed.

(** ** Allocation *)

Lemma Color_hd_eq hd : Color_hd hd = hd / 256 mod 4 * 256.
Proof.
  unfold Color_hd, HEADER_COLOR_MASK. change (2 ^ 2 - 1) with (Z.ones 2).
  assert (Z.land hd (Z.shiftl (Z.ones 2) 8) = Z.shiftl (Z.land (Z.shiftr hd 8) (Z.ones 2)) 8) as ->.
  { apply Z.bits_inj'. intros n Hn. rewrite Z.land_spec. destruct (Z.lt_ge_cases n 8).
    - rewrite !Z.shiftl_spec_low by done. apply andb_false_r.
    - rewrite !Z.shiftl_spec, Z.land_spec, Z.shiftr_spec by lia. do 2 f_equal. lia. }
  rewrite Z.land_ones, Z.shiftl_mul_pow2, Z.shiftr_div_pow2 by lia. done.
Qed.
Lemma Color_Make_header wosize tag color : 0 <= wosize < 2 ^ 54 -> 0 <= tag < 256 -> is_color color -> Color_hd (Make_header wosize tag color) = color.
Proof.
  intros Hw Ht Hc. rewrite Color_hd_eq, Make_header_eq by done.
  assert ((wosize * 1024 + color + tag) / 256 = wosize * 4 + color / 256) as ->.
  { symmetry. apply (Z.div_unique _ _ _ tag); [lia|]. destruct Hc as [->|[->|[->| ->]]]; [change (0 / 256) with 0|change (256 / 256) with 1|change (512 / 256) with 2|change (768 / 256) with 3]; lia. }
  rewrite Z.add_comm, Z.mod_add by lia. by destruct Hc as [->|[->|[->| ->]]].
Qed.
Lemma alloc_header st wosize tag : colors_ok (colors st) -> 0 < wosize < 2 ^ 54 -> 0 <= tag < 256 ->
  let hd := Make_header wosize tag (MARKED (colors st)) in
  0 < hd < 2 ^ 64 /\ Whsize_hd hd = Whsize_wosize wosize /\ Color_hd hd <> GARBAGE (colors st).
Proof.
  intros Hc Hw Ht hd. assert (is_color (MARKED (colors st))) as Hm by (unfold is_color; destruct (co_marked _ Hc) as [->|[->| ->]]; auto).
  split_and!.
  - unfold hd. rewrite Make_header_eq by (done || lia). unfold is_color in Hm. lia.
  - unfold hd. rewrite Make_header_eq by (done || lia). unfold is_color in Hm. lia.
  - unfold hd, Whsize_hd. by rewrite Wosize_Make_header by (done || lia).
  - unfold hd. rewrite Color_Make_header by (done || lia). apply Hc.
Qed.

(** A block was allocated at [p], after the garbage blocks [D] were freed. *)
Record allocated (st st' : state) (p hd : Z) (D : list Z) : Prop := {
  al_nonnull : p <> 0;
  al_live : forall q h, live st' q h <-> (q = p /\ h = hd) \/ (live st q h /\ q ∉ D);
  al_new : forall h, live st p h -> p ∈ D;
  al_apart : forall q h z, live st' q h -> q <> p -> words_of p hd z -> ~ words_of q h z;
  al_words : forall k, 0 <= k < Whsize_hd hd -> is_Some (mem st' !! (p + 8 * k));
  al_mem : forall q h z, live st q h -> q ∉ D -> words_of q h z -> mem st' !! z = mem st !! z;
  al_dead : forall q, q ∈ D -> exists h, live st q h /\ Color_hd h = GARBAGE (colors st);
  al_nodup : NoDup D;
  al_final : finalised st' = finalised st ++ (D ≫= finals (mem st));
  al_colors : colors st' = colors st;
  al_heaps : heaps st' = heaps st;
}.
(** Allocation once blocks were freed. *)
Lemma allocated_after st st1 st' ls1 lls1 ls' lls' p hd D : Freed st st1 D -> Inv false nothing st1 ls1 lls1 -> Inv false nothing st' ls' lls' ->
  p <> 0 -> (forall q h, live_in ls' lls' (mem st') q h <-> (q = p /\ h = hd) \/ live_in ls1 lls1 (mem st1) q h) ->
  (forall h, ~ live_in ls1 lls1 (mem st1) p h) ->
  (forall k, 0 <= k < Whsize_hd hd -> is_Some (mem st' !! (p + 8 * k))) ->
  (forall q h z, live_in ls1 lls1 (mem st1) q h -> words_of q h z -> mem st' !! z = mem st1 !! z) ->
  finalised st' = finalised st1 -> colors st' = colors st1 -> heaps st' = heaps st1 -> allocated st st' p hd D.
Proof.
  intros HF H1 H' Hp Hl Hn Hk Hm Hf Hc Hh.
  assert (forall q h, live st1 q h <-> live_in ls1 lls1 (mem st1) q h) as L1 by (intros; by eapply live_lists).
  assert (forall q h, live st' q h <-> live_in ls' lls' (mem st') q h) as L' by (intros; by eapply live_lists).
  split.
  - done.
  - intros q h. rewrite L', Hl, <- L1, (fr_live _ _ _ HF). done.
  - intros h Hlv. destruct (decide (p ∈ D)); [done|]. exfalso. apply (Hn h). rewrite <- L1. by apply (fr_live _ _ _ HF).
  - intros q h z Hq Hne Hz. eapply (live_apart _ _ _ _ _ p hd q h); [exact H'| | |done|done].
    + apply Hl. by left.
    + by apply L'.
  - done.
  - intros q h z Hq HD Hz. assert (live st1 q h) as Hq1 by (by apply (fr_live _ _ _ HF)).
    rewrite (Hm q h z); [|by apply L1|done]. by eapply (fr_mem _ _ _ HF).
  - apply (fr_dead _ _ _ HF).
  - apply (fr_nodup _ _ _ HF).
  - rewrite Hf. apply (fr_final _ _ _ HF).
  - rewrite Hc. apply (fr_colors _ _ _ HF).
  - rewrite Hh. apply (fr_heaps _ _ _ HF).
Qed.

Section try_alloc.
Context (d wosize tag : Z) (st : state) (ls : plist -> list Z) (lls : llist -> list Z).
Context (H : Inv false nothing st ls lls) (Hn : next_ok st ls) (Hd : d ∈ heaps st) (Hw : 0 < wosize < 2 ^ 54) (Ht : 0 <= tag < 256).
Let hd : Z := Make_header wosize tag (MARKED (colors st)).
Let outcome (r : result (Z * state)) : Prop := exists p st' D, r = Ret (p, st') /\ heap_ok st' /\
  ((p = 0 /\ Freed st st' D /\ (fst (caml_mem_map (Bsize_wsize POOL_WSIZE) (system st)) = 0 \/ fst (malloc (Bsize_wsize (Whsize_wosize wosize) + 16) (system st)) = 0)) \/
   allocated st st' p hd D).
(** The end of [caml_shared_try_alloc]: the header is written. *)
Let finish (p : Z) (s : state) : result (Z * state) :=
  if p =? 0 then Ret (0, s) else s ← store p (Make_header wosize tag (MARKED (colors s))) s; Ret (p, s).

Lemma small_alloc i w : i = sizeclass_wsize w -> w = Whsize_wosize wosize -> w <= SIZECLASS_MAX ->
  outcome ('(p, s) ← ('(p, s) ← pool_allocate d i st; if p =? 0 then Ret (0, s) else
     Ret (p, update_stats (Some d) (add_pool_stats 0 w 1 (wsize_sizeclass i - w)) s)); finish p s).
Proof.
  intros Ei Ew Hmax. destruct (sizeclass_facts w) as [Hi Hfit]; [unfold Whsize_wosize in *; lia|]. rewrite <- Ei in Hi, Hfit.
  destruct (alloc_header st wosize tag (iv_colors _ _ _ _ _ _ H) Hw Ht) as (Hh & Hwh & Hcol). fold hd in Hh, Hwh, Hcol.
  rewrite pool_allocate_eq. destruct (pool_find_spec d i st ls lls H Hd Hi) as (r & st1 & ls1 & D & -> & HP & Hr). rewrite ret_bind. cbv beta iota zeta.
  destruct HP as [H1 HF Hh1 Hn1 Hs1]. pose proof (next_ok_shrinks _ _ _ _ Hn Hh1 Hn1 Hs1) as Hok1. assert (colors st1 = colors st) as Hc1 by apply HF.
  destruct Hr as [[-> Hsys]|[l El]].
  - unfold take_slot. rewrite Z.eqb_refl, ret_bind, Z.eqb_refl, ret_bind. unfold finish. rewrite Z.eqb_refl.
    exists 0, st1, D. split; [done|]. split; [by exists ls1, lls|]. left. auto.
  - assert (r ∈ ls1 (avail_pools d i)) as Hr by (rewrite El; left).
    destruct (iv_pool _ _ _ _ _ _ H1 _ r Hr ltac:(done)) as (_ & q & fl0 & Eq & Hsz & Hsl & Hfl). cbn [class_of] in *.
    destruct fl0 as [|p fl]; [destruct Hfl as [Hfl _]; by discriminate Hfl|].
    destruct (sl_chain _ _ _ _ _ _ _ Hsl) as (_ & Hpz & nxt & En & _). assert (d ∈ heaps st1) as Hd1 by (by rewrite Hh1).
    assert (hd_ok (wsize_sizeclass i) hd) as Hhok by (split; [done|]; rewrite Hwh; unfold Whsize_wosize in *; lia).
    assert (Color_hd hd <> GARBAGE (colors st1)) as Hcol1 by (by rewrite Hc1).
    destruct (take_slot_run d i r l st1 ls1 lls q p nxt fl H1 Hi Hd1 El Eq Hsl En Hsz) as (heads' & Hheads & ->).
    rewrite ret_bind. cbv beta iota zeta. rewrite (proj2 (Z.eqb_neq p 0)), ret_bind by done. unfold finish. rewrite (proj2 (Z.eqb_neq p 0)) by done.
    destruct (take_facts d i r l st1 ls1 q p nxt fl Hi El Hsl En Hsz) as (Hps & E0 & _). 
    erewrite poke_Ret by exact E0. rewrite ret_bind. cbn [colors update_stats set_stats set_heads put_pool set_pools]. rewrite Hc1. fold hd.
    pose proof (take_Inv d i r l st1 ls1 lls q p nxt fl H1 Hi Hd1 El Eq Hsl En Hsz hd w Hhok ltac:(by rewrite Hwh) Hcol1 heads' Hheads) as H2.
    eexists p, _, D. split; [done|]. split.
    + exists (moved (avail_pools d i) (if nxt =? 0 then full_pools d i else avail_pools d i) r l ls1), lls. split; [exact H2|].
      eapply next_ok_shrinks; [exact Hok1|done|done|]. apply shrinks_moved; [done|by destruct (nxt =? 0)].
    + right. eapply (allocated_after st st1); [exact HF|exact H1|exact H2|done| | | | |done..].
      * intros q' h'. simpl. apply (take_live d i r l st1 ls1 lls q p nxt fl H1 Hi El Hsl En Hsz hd Hhok Hcol1).
      * intros h' [(k & a & _ & _ & _ & E & Hz)|(k & a & Ha & -> & E)].
        { rewrite E0 in E. congruence. }
        destruct (iv_large _ _ _ _ _ _ H1 k a Ha) as (h0 & F & ? & _). simplify_eq. lia.
      * intros k Hk. simpl. destruct (iv_region _ _ _ _ _ _ H1 _ r Hr) as [_ Hmap].
        destruct (decide (k = 0)) as [->|]; [rewrite Z.mul_0_r, Z.add_0_r, lookup_insert_eq; done|].
        rewrite lookup_insert_ne by lia. apply Hmap. eapply slot_in_pool; [done..|]. rewrite Hwh in Hk. unfold Whsize_wosize in *. lia.
      * intros q' h' z Hq' Hz. simpl. apply lookup_insert_ne. intros <-.
        assert (words_of p hd p) as Hzp by (unfold words_of; destruct Hhok; lia).
        eapply (live_apart _ _ _ _ _ q' h' p hd p H2); [| |intros ->|exact Hz|exact Hzp]; simpl.
        { apply (take_live d i r l st1 ls1 lls q p nxt fl H1 Hi El Hsl En Hsz hd Hhok Hcol1). by right. }
        { apply (take_live d i r l st1 ls1 lls q p nxt fl H1 Hi El Hsl En Hsz hd Hhok Hcol1). by left. }
        destruct Hq' as [(k & a & _ & _ & _ & E & Hz')|(k & a & Ha & Ep & E)]; [rewrite E0 in E; congruence|].
        rewrite Ep in E0. destruct (iv_large _ _ _ _ _ _ H1 k a Ha) as (h0 & F & ? & _). simplify_eq. lia.
Qed.

Lemma large_alloc_case : SIZECLASS_MAX < Whsize_wosize wosize ->
  outcome ('(p, s) ← large_allocate d (Bsize_wsize (Whsize_wosize wosize)) st; finish p s).
Proof.
  intros Hbig. destruct (alloc_header st wosize tag (iv_colors _ _ _ _ _ _ H) Hw Ht) as (Hh & Hwh & Hcol). fold hd in Hh, Hwh, Hcol.
  assert (128 < Whsize_hd hd) as H128 by (rewrite Hwh; unfold SIZECLASS_MAX in Hbig; lia).
  destruct (large_allocate_spec d wosize hd st ls lls H Hd H128 Hh Hcol Hwh) as
    [(st1 & -> & HP & Hsys)|(a & st1 & Haz & -> & [v Ev] & H2 & Hnew & Hnw & Ho & Hin & Hh1 & Hn1 & Hf1 & Hc1)]; rewrite ret_bind; cbv beta iota zeta.
  - unfold finish. rewrite Z.eqb_refl. exists 0, st1, []. split; [done|]. destruct HP as [H1 HF Hh1 Hn1 Hs1]. split; [|left; auto].
    exists ls, lls. split; [done|]. by eapply next_ok_shrinks.
  - assert (0 < a) as Ha by (by destruct Hnew). unfold finish. rewrite (proj2 (Z.eqb_neq (a + 16) 0)) by lia. rewrite (poke_Ret _ _ _ _ Ev), ret_bind, Hc1. fold hd.
    assert (forall q' h', live_in ls lls (mem st) q' h' -> forall z, words_of q' h' z -> ~ (a <= z < a + (Bsize_wsize (Whsize_wosize wosize) + 16))) as Hold.
    { intros q' h' Hq z Hz Hz'. destruct Hnew as (_ & _ & _ & _ & Hap).
      destruct (live_where _ _ _ _ _ _ _ _ H Hq Hz) as [(k & b & _ & Hb & ?)|(k & b & n & Hb & F & ?)].
      - destruct (iv_region _ _ _ _ _ _ H k b Hb) as [F _]. destruct (Hap _ _ _ F); lia.
      - destruct (Hap _ _ _ F); lia. }
    assert (forall q' h', live_in ls lls (mem st) q' h' -> words_of q' h' q') as Hself.
    { intros q' h' Hq. destruct (live_size _ _ _ _ _ _ _ H Hq). unfold words_of. lia. }
    assert (0 <= wosize) as Hw0 by lia. unfold Bsize_wsize, Whsize_wosize in Hold, Ho.
    exists (a + 16), (set_mem (<[a + 16 := hd]> (mem st1)) st1), []. split; [done|]. split.
    + exists ls, (add_large d a lls). split; [done|]. intros e He. simpl in He |- *. rewrite Hh1 in He. rewrite Hn1. by apply Hn.
    + right. eapply (allocated_after st st); [apply Freed_refl|exact H|exact H2|lia| | | | | | |].
      * intros q' h'. cbn [set_mem mem]. split.
        { intros [(k & b & Hk & Hb & Hp & E & Hz)|(k & b & Hb & Ep & E)].
          - right. left. exists k, b. destruct (iv_region _ _ _ _ _ _ H k b Hb) as [F _]. destruct (iv_pool _ _ _ _ _ _ H k b Hb Hk) as (Hcl & _).
            pose proof (slot_header_in _ _ _ Hcl Hp) as [? _]. destruct Hnew as (_ & _ & _ & _ & Hap). unfold Bsize_wsize, Whsize_wosize in Hap.
            destruct (Hap _ _ _ F); (rewrite lookup_insert_ne in E by lia; rewrite Ho in E by lia; done).
          - unfold add_large in Hb. assert (b = a \/ b ∈ lls k) as [->|Hb'].
            { destruct (decide (swept_large d = k)) as [<-|]; [rewrite fn_lookup_insert in Hb; by apply elem_of_cons in Hb|rewrite fn_lookup_insert_ne in Hb by done; auto]. }
            + left. unfold LARGE_ALLOC_HEADER_SZ in Ep. rewrite Ep, lookup_insert_eq in E. by simplify_eq.
            + right. right. exists k, b. destruct (iv_large _ _ _ _ _ _ H k b Hb') as (h0 & F0 & _ & ? & F & _). destruct Hnew as (_ & _ & _ & _ & Hap).
              unfold Bsize_wsize, Whsize_wosize in Hap. unfold LARGE_ALLOC_HEADER_SZ in *.
              destruct (Hap _ _ _ F); (rewrite lookup_insert_ne in E by lia; rewrite Ho in E by lia; done). }
        { intros [[-> ->]|Hq].
          - right. exists (swept_large d), a. unfold add_large. rewrite fn_lookup_insert. split_and!; [left|done|apply lookup_insert_eq].
          - pose proof (Hold _ _ Hq _ (Hself _ _ Hq)) as Hout. destruct Hq as [(k & b & Hk & Hb & Hp & E & Hz)|(k & b & Hb & Ep & E)]; [left|right]; exists k, b.
            + rewrite lookup_insert_ne, Ho by lia. done.
            + rewrite lookup_insert_ne, Ho by lia. split_and!; try done. unfold add_large. destruct (decide (swept_large d = k)) as [<-|];
                [rewrite fn_lookup_insert; by right|by rewrite fn_lookup_insert_ne]. }
      * intros h' Hq. apply (Hold _ _ Hq _ (Hself _ _ Hq)). lia.
      * intros k Hk. cbn [set_mem mem]. destruct (decide (k = 0)) as [->|]; [rewrite Z.mul_0_r, Z.add_0_r, lookup_insert_eq; done|].
        rewrite lookup_insert_ne by lia. apply Hin. by rewrite <- Hwh.
      * intros q' h' z Hq Hz. pose proof (Hold _ _ Hq _ Hz) as Hout. cbn [set_mem mem]. rewrite lookup_insert_ne by lia. apply Ho. lia.
      * done.
      * done.
      * done.
Qed.
End try_alloc.

(** [caml_shared_try_alloc] on every branch. *)
Lemma try_alloc_spec d wosize tag st : heap_ok st -> d ∈ heaps st -> 0 < wosize < 2 ^ 54 -> 0 <= tag < 256 -> tag <> Infix_tag ->
  exists p st' D, caml_shared_try_alloc d wosize tag st = Ret (p, st') /\ heap_ok st' /\
    ((p = 0 /\ Freed st st' D /\ (fst (caml_mem_map (Bsize_wsize POOL_WSIZE) (system st)) = 0 \/ fst (malloc (Bsize_wsize (Whsize_wosize wosize) + 16) (system st)) = 0)) \/
     allocated st st' p (Make_header wosize tag (MARKED (colors st))) D).
Proof.
  intros (ls & lls & H & Hn) Hd Hw Ht Hi. unfold caml_shared_try_alloc. cbv zeta. rewrite bool_decide_true by done.
  change (CAMLassert true) with (Ret ()). rewrite ret_bind, (proj2 (Z.ltb_lt 0 wosize)) by lia. change (CAMLassert true) with (Ret ()).
  rewrite ret_bind, (proj2 (Z.eqb_neq tag Infix_tag)) by done. change (CAMLassert (negb false)) with (Ret ()). rewrite ret_bind.
  destruct (Z.leb_spec (Whsize_wosize wosize) SIZECLASS_MAX) as [Hs|Hs].
  - destruct (sizeclass_facts (Whsize_wosize wosize)) as [Hc Hf]; [unfold Whsize_wosize in *; lia|]. rewrite (proj2 (Z.leb_le _ _)) by done.
    change (CAMLassert true) with (Ret ()). rewrite ret_bind. exact (small_alloc d wosize tag st ls lls H Hn Hd Hw Ht _ _ eq_refl eq_refl Hs).
  - exact (large_alloc_case d wosize tag st ls lls H Hn Hd Hw Ht Hs).
Qed.
End large.
End PoolHeapLarge.
