(* ===== verification/PoolHeapCycle.v ===== *)
(** * Incremental sweeping and the end of a cycle *)

From S2P Require Import Prelude Memory PoolHeap PoolHeapInv PoolHeapSweep PoolHeapAlloc PoolHeapLarge.
From stdpp Require Import list functions gmap.
#[local] Open Scope Z_scope.
Import PoolHeap PoolHeapInv PoolHeapSweep PoolHeapAlloc PoolHeapLarge.
#[local] Notation eqm := Prelude.eqm.

Module PoolHeapCycle.
Section cycle.
Context `{Laws : OsLaws}.

(** ** Large blocks *)

Lemma unmap_words_out a n m z : ~ (a <= z < a + 8 * Z.of_nat n) -> unmap_words a n m !! z = m !! z.
Proof. revert a. induction n as [|n IH]; intros a Hz; simpl; [done|]. rewrite lookup_delete_ne by lia. apply IH. lia. Qed.
(** A region is given back. *)
Lemma Inv_gone dirty x y st ls lls a n w m : InvG dirty x y st ls lls -> nowhere lls a -> regions (system st) !! a = Some (false, n) ->
  regions w = delete a (regions (system st)) -> (forall z, ~ (a <= z < a + n) -> m !! z = mem st !! z) ->
  InvG dirty x y (set_mem m (set_larges (delete a (larges st)) (set_system w st))) ls lls.
Proof.
  intros H Hn Ha Er Hm. pose proof (iv_regions _ _ _ _ _ _ H) as Hok.
  assert (forall q b, b ∈ ls q -> forall z, in_pool b z -> m !! z = mem st !! z) as Hp.
  { intros q b Hbq z Hz. apply Hm. intros Hz'. destruct (iv_region _ _ _ _ _ _ H q b Hbq) as [Hrb _]. by eapply (pool_large_apart _ b a n z). }
  assert (forall q b, b ∈ lls q -> b <> a) as Hne by (intros q b Hb ->; by apply (Hn q)).
  assert (forall q b, b ∈ lls q -> forall z, (exists n, regions (system st) !! b = Some (false, n) /\ b <= z < b + n) -> m !! z = mem st !! z) as Hl.
  { intros q b Hbq z (c & Hc & Hz). apply Hm. eapply (larges_apart _ b a c n z); try done. by eapply Hne. }
  assert (forall q b, b ∈ lls q -> regions w !! b = regions (system st) !! b) as Hrl.
  { intros q b Hbq. rewrite Er. apply lookup_delete_ne. apply not_eq_sym. by eapply Hne. }
  destruct H as [H1 H2 H3 H4 H5 H6 H7 H8 H9 H10]. split; simpl; try done.
  - by apply linked_delete.
  - rewrite Er. by apply regions_delete.
  - intros q b Hbq. destruct (H4 q b Hbq) as [Hrb Hmp]. split; simpl; [|eapply mapped_ext; [|done]; eauto].
    rewrite Er, lookup_delete_ne; [done|]. congruence.
  - intros q b Hbq Hq. eapply pool_ok_ext; [|done|by apply H6]. eauto.
  - intros q b Hbq. eapply large_ok_ext; [|by eapply Hrl|by apply H7]. eauto.
  - intros j t Hk. etransitivity; [by apply H9|]. apply eqm_eq. f_equal. apply total_ext. intros q b Hq Hbq. symmetry.
    assert (q <> freelist) by (apply elem_of_places in Hq; naive_solver).
    eapply (pool_ok_ext dirty _ _ _ _ _ q b); [|reflexivity|by apply H6]. eauto.
  - intros j t Hk. etransitivity; [by apply H10|]. apply eqm_eq. f_equal. apply total_ext. intros q b Hq Hbq. symmetry.
    eapply (large_ok_ext dirty _ _ _ _ _ q b); [|reflexivity|by apply H7]. eauto.
Qed.
Lemma finalise_custom_run hd p (s : state) : mem s !! p = Some hd -> is_Some (mem s !! (p + 8)) ->
  finalise_custom hd p s = Ret (mkstate (mem s) (pools s) (larges s) (heads s) (lheads s) (heaps s) (next_to_sweep s) (stats s)
    (swept_words s) (work_done s) (colors s) (system s) (finalised s ++ finals (mem s) p)).
Proof.
  intros Eb [ops Eo]. unfold finalise_custom, finals. rewrite Eb, Eo. destruct (Tag_hd hd =? Custom_tag); [|rewrite app_nil_r; by destruct s].
  rewrite (load_Ret _ _ _ Eo), ret_bind. destruct (finalize ops); simpl; [done|rewrite app_nil_r; by destruct s].
Qed.
(** The words of the other blocks are outside the region of a large block. *)
Lemma live_outside dirty x st ls lls a q n p hd z : Inv dirty x st ls lls -> a ∈ lls q -> regions (system st) !! a = Some (false, n) ->
  live_in ls lls (mem st) p hd -> p <> a + LARGE_ALLOC_HEADER_SZ -> words_of p hd z -> ~ (a <= z < a + n).
Proof.
  intros H Ha Hr Hp Hne Hz Hz'. pose proof (iv_regions _ _ _ _ _ _ H) as Hok. unfold words_of in Hz.
  destruct Hp as [(r & b & Hq & Hb & Hs & E & Hnz)|(r & b & Hb & -> & E)].
  - destruct (iv_region _ _ _ _ _ _ H r b Hb) as [F _]. destruct (iv_pool _ _ _ _ _ _ H r b Hb Hq) as (Hcl & ? & ? & _ & _ & Hsl & _).
    destruct (sl_used _ _ _ _ _ _ _ Hsl p hd Hs E Hnz) as [[_ ?] _]. pose proof (slot_range _ _ _ Hcl Hs).
    assert (b <> a) as Hba by congruence. destruct (rg_apart _ Hok _ _ _ _ _ _ F Hr Hba); lia.
  - destruct (iv_large _ _ _ _ _ _ H r b Hb) as (h & F' & _ & ? & F & _). simplify_eq. assert (b <> a) as Hba by congruence.
    unfold LARGE_ALLOC_HEADER_SZ in *. destruct (rg_apart _ Hok _ _ _ _ _ _ F Hr Hba); lia.
Qed.
Lemma get_large_Ret z (s : state) v : larges s !! z = Some v -> get_large s z = Ret v.
Proof. unfold get_large. by intros ->. Qed.

Section one_large.
Context (d : Z) (st : state) (ls : plist -> list Z) (lls : llist -> list Z) (a : Z) (l : list Z) (p : large_alloc).
Context (H : Inv false nothing st ls lls) (Hd : d ∈ heaps st) (El : lls (unswept_large d) = a :: l) (Ep : larges st !! a = Some p).

(** It stays. *)
Lemma sweep_large_keep hd : mem st !! (a + LARGE_ALLOC_HEADER_SZ) = Some hd -> Color_hd hd <> GARBAGE (colors st) ->
  let lls1 := <[unswept_large d := l]> lls in
  let st' := set_lhead (swept_large d) a (put_large a (mklarge (l_owner p) (lheads (set_lhead (unswept_large d) (l_next p) st) (swept_large d))) (set_lhead (unswept_large d) (l_next p) st)) in
  Inv false nothing st' ls (<[swept_large d := a :: lls1 (swept_large d)]> lls1) /\ Freed st st' [].
Proof.
  intros Eh Hc lls1 st'. destruct (Inv_lpop _ _ _ _ _ _ (unswept_large d) a l p H El Ep) as [H1 Hn].
  assert (a ∈ lls (unswept_large d)) as Ha by (rewrite El; left). destruct (iv_large _ _ _ _ _ _ H _ a Ha) as (hd' & Eh' & Hh1 & Hh2 & Hr & Hmp & _). simplify_eq.
  apply (Inv_lpush _ _ _ _ _ _ (swept_large d) a (mklarge (l_owner p) (lheads (set_lhead (unswept_large d) (l_next p) st) (swept_large d)))) in H1; [|done|by apply bool_decide_eq_true| |done|by exists hd].
  2: { by destruct (linked_node _ _ _ _ _ _ _ (iv_llinked _ _ _ _ _ _ H) Ha). }
  assert (Inv false nothing st' ls (<[swept_large d := a :: lls1 (swept_large d)]> lls1)) as H2.
  { eapply Inv_xy; [| |exact H1]; [done|]. intros k t. unfold lnothing, lcounted. simpl. unfold lweight. destruct decide; lia. }
  split; [done|]. eapply (Freed_same false nothing nothing st st' ls ls lls); [done|exact H2| |done..].
  assert (forall b, (exists q, b ∈ (<[swept_large d := a :: lls1 (swept_large d)]> lls1) q) <-> exists q, b ∈ lls q) as Hin.
  { intros b. unfold lls1. split; intros [q Hb].
    - destruct (decide (swept_large d = q)) as [<-|]; [rewrite fn_lookup_insert, fn_lookup_insert_ne in Hb by done; apply elem_of_cons in Hb as [->|Hb]; [by exists (unswept_large d)|eauto]|].
      rewrite fn_lookup_insert_ne in Hb by done. destruct (decide (unswept_large d = q)) as [<-|]; [rewrite fn_lookup_insert in Hb; exists (unswept_large d); rewrite El; by right|].
      rewrite fn_lookup_insert_ne in Hb by done. eauto.
    - destruct (decide (b = a)) as [->|]; [exists (swept_large d); rewrite fn_lookup_insert; left|]. exists q.
      destruct (decide (swept_large d = q)) as [<-|]; [rewrite fn_lookup_insert, fn_lookup_insert_ne by done; by right|]. rewrite fn_lookup_insert_ne by done.
      destruct (decide (unswept_large d = q)) as [<-|]; [rewrite fn_lookup_insert; rewrite El in Hb; apply elem_of_cons in Hb as [?|?]; done|by rewrite fn_lookup_insert_ne]. }
  intros p' h'. simpl. unfold live_in. split; (intros [Hx|(q & b & Hb & Hx)]; [by left|right]).
  - destruct (proj1 (Hin b)) as [q' Hq']; [eauto|]. eauto.
  - destruct (proj2 (Hin b)) as [q' Hq']; [eauto|]. eauto.
Qed.
(** It is freed. *)
Lemma sweep_large_free hd : mem st !! (a + LARGE_ALLOC_HEADER_SZ) = Some hd -> Color_hd hd = GARBAGE (colors st) ->
  let st' := mkstate (unmap_words (a + LARGE_ALLOC_HEADER_SZ) (Z.to_nat (Whsize_hd hd)) (mem st)) (pools st) (delete a (larges st)) (heads st)
    (<[unswept_large d := l_next p]> (lheads st)) (heaps st) (next_to_sweep st)
    (stats (update_stats (Some d) (add_large_stats 0 (-1)) (update_stats (Some d) (add_large_stats (- (Whsize_hd hd + LARGE_ALLOC_HEADER_SZ / 8)) 0) st)))
    (<[d := u64 (swept_words st d + (Whsize_hd hd + LARGE_ALLOC_HEADER_SZ / 8))]> (swept_words st)) (work_done st) (colors st) (free_large a (system st))
    (finalised st ++ finals (mem st) (a + LARGE_ALLOC_HEADER_SZ)) in
  Inv false nothing st' ls (<[unswept_large d := l]> lls) /\ Freed st st' [a + LARGE_ALLOC_HEADER_SZ].
Proof.
  intros Eh Hc st'. destruct (Inv_lpop _ _ _ _ _ _ (unswept_large d) a l p H El Ep) as [H1 Hn].
  assert (a ∈ lls (unswept_large d)) as Ha by (rewrite El; left). destruct (iv_large _ _ _ _ _ _ H _ a Ha) as (hd' & Eh' & Hh1 & Hh2 & Hr & Hmp & _).
  assert (hd' = hd) as -> by congruence. clear Eh'. assert (2 = LARGE_ALLOC_HEADER_SZ / 8) as E2 by done.
  assert (forall z, ~ (a <= z < a + (16 + 8 * Whsize_hd hd)) -> unmap_words (a + LARGE_ALLOC_HEADER_SZ) (Z.to_nat (Whsize_hd hd)) (mem st) !! z = mem st !! z) as Hout.
  { intros z Hz. apply unmap_words_out. unfold LARGE_ALLOC_HEADER_SZ. lia. }
  assert (Inv false nothing st' ls (<[unswept_large d := l]> lls)) as H2.
  { apply (Inv_add_large _ _ _ _ _ _ d (- (Whsize_hd hd + LARGE_ALLOC_HEADER_SZ / 8)) 0 (add_large_stats (- (Whsize_hd hd + LARGE_ALLOC_HEADER_SZ / 8)) 0)) in H1; [|done..].
    apply (Inv_add_large _ _ _ _ _ _ d 0 (-1) (add_large_stats 0 (-1))) in H1; [|done..].
    eapply (Inv_gone _ _ _ _ _ _ a _ (free_large a (system st))) in H1; [|done|exact Hr|by eapply free_law|exact Hout].
    assert (InvG false nothing lnothing (set_mem (unmap_words (a + LARGE_ALLOC_HEADER_SZ) (Z.to_nat (Whsize_hd hd)) (mem st)) (set_larges (delete a (larges st)) (set_system (free_large a (system st))
      (update_stats (Some d) (add_large_stats 0 (-1)) (update_stats (Some d) (add_large_stats (- (Whsize_hd hd + LARGE_ALLOC_HEADER_SZ / 8)) 0) (set_lhead (unswept_large d) (l_next p) st)))))) ls (<[unswept_large d := l]> lls)) as H3.
    { eapply Inv_xy; [| |exact H1]; [done|]. intros k t. unfold lchange, lcounted, lnothing, lweight. simpl. rewrite Eh. destruct decide; destruct t; simpl; lia. }
    destruct H3. split; done. }
  pose proof (fun p' h' z => live_outside false nothing st ls lls a _ _ p' h' z H Ha Hr) as Hold.
  assert (forall b q, b ∈ (<[unswept_large d := l]> lls) q <-> b ∈ lls q /\ b <> a) as Hin.
  { intros b q. split.
    - intros Hb. split; [|intros ->; by apply (Hn q)]. destruct (decide (unswept_large d = q)) as [<-|]; [rewrite fn_lookup_insert in Hb; rewrite El; by right|by rewrite fn_lookup_insert_ne in Hb].
    - intros [Hb Hne]. destruct (decide (unswept_large d = q)) as [<-|]; [rewrite fn_lookup_insert; rewrite El in Hb; by apply elem_of_cons in Hb as [?|?]|by rewrite fn_lookup_insert_ne]. }
  assert (forall p' h', live_in ls (<[unswept_large d := l]> lls) (mem st') p' h' <-> live_in ls lls (mem st) p' h' /\ p' <> a + LARGE_ALLOC_HEADER_SZ) as Hlive.
  { intros p' h'. assert (p' <> a + LARGE_ALLOC_HEADER_SZ -> live_in ls lls (mem st) p' h' -> mem st' !! p' = mem st !! p') as Hsame.
    { intros Hne Hp. apply Hout. eapply Hold; [exact Hp|done|]. destruct (live_size _ _ _ _ _ _ _ H Hp). unfold words_of. lia. }
    assert (forall q b, b ∈ ls q -> q <> freelist -> p' ∈ slots b (class_of q) -> mem st' !! p' = mem st !! p' /\ p' <> a + LARGE_ALLOC_HEADER_SZ) as Hpool.
    { intros q b Hb Hq Hs. destruct (iv_region _ _ _ _ _ _ H q b Hb) as [F _]. destruct (iv_pool _ _ _ _ _ _ H q b Hb Hq) as (Hcl & _).
      pose proof (slot_header_in _ _ _ Hcl Hs) as Hip. pose proof (fun X => pool_large_apart _ b a _ p' (iv_regions _ _ _ _ _ _ H) F Hr X Hip) as Hno.
      split; [by apply Hout|]. intros ->. apply Hno. unfold LARGE_ALLOC_HEADER_SZ. lia. }
    split.
    - intros [(q & b & Hq & Hb & Hs & E & Hz)|(q & b & [Hb Hne]%Hin & -> & E)].
      + destruct (Hpool q b Hb Hq Hs) as [Em ?]. split; [|done]. left. exists q, b. by rewrite <- Em.
      + assert (b + LARGE_ALLOC_HEADER_SZ <> a + LARGE_ALLOC_HEADER_SZ) as Hne' by lia. split; [|done].
        destruct (iv_large _ _ _ _ _ _ H q b Hb) as (h & Eb & _). assert (live_in ls lls (mem st) (b + LARGE_ALLOC_HEADER_SZ) h) as Hl by (right; eauto).
        right. exists q, b. split_and!; try done. rewrite <- E. symmetry. apply Hout. eapply Hold; [exact Hl|done|].
        destruct (live_size _ _ _ _ _ _ _ H Hl). unfold words_of. lia.
    - intros [Hp Hne]. pose proof (Hsame Hne Hp) as Em. destruct Hp as [(q & b & Hq & Hb & Hs & E & Hz)|(q & b & Hb & Hp & E)]; [left|right]; exists q, b; rewrite Em.
      + done.
      + split_and!; try done. apply Hin. split; [done|]. intros ->. done. }
  split; [done|]. split.
  - intros p' h'. rewrite (live_lists _ _ _ _ _ _ _ H2), (live_lists _ _ _ _ _ _ _ H), Hlive. by rewrite list_elem_of_singleton.
  - intros p' ->%list_elem_of_singleton. exists hd. split; [|done]. rewrite (live_lists _ _ _ _ _ _ _ H). right. eauto.
  - apply NoDup_singleton.
  - intros p' h' z Hp Hz. rewrite (live_lists _ _ _ _ _ _ _ H2), Hlive in Hp. destruct Hp as [Hp Hne]. apply Hout. by eapply Hold.
  - simpl. by rewrite app_nil_r.
  - done.
  - done.
Qed.
Lemma large_alloc_sweep_spec : exists st' lls' n D, large_alloc_sweep d st = Ret (n, st') /\ 0 < n /\ Inv false nothing st' ls lls' /\ Freed st st' D /\
  heaps st' = heaps st /\ next_to_sweep st' = next_to_sweep st /\ pools st' = pools st /\ (size (larges st') <= size (larges st))%nat /\ lls' (unswept_large d) = l /\
  forall e, e <> d -> lls' (unswept_large e) = lls (unswept_large e).
Proof.
  assert (a ∈ lls (unswept_large d)) as Ha by (rewrite El; left). destruct (iv_large _ _ _ _ _ _ H _ a Ha) as (hd & Eh & Hh1 & Hw & Hr & Hmp & _).
  destruct (linked_node _ _ _ _ _ _ _ (iv_llinked _ _ _ _ _ _ H) Ha) as [Hz _].
  unfold large_alloc_sweep. rewrite (linked_head _ _ _ _ _ _ _ _ (iv_llinked _ _ _ _ _ _ H) El), (proj2 (Z.eqb_neq a 0)) by done.
  rewrite (get_large_Ret _ _ _ Ep), ret_bind. cbv zeta. rewrite (load_Ret _ (set_lhead (unswept_large d) (l_next p) st) hd) by exact Eh. rewrite ret_bind.
  unfold Has_status_hd. change (colors (set_lhead (unswept_large d) (l_next p) st)) with (colors st). destruct (Z.eqb_spec (Color_hd hd) (GARBAGE (colors st))) as [Hc|Hc].
  - destruct (sweep_large_free hd Eh Hc) as [HI HF]. rewrite finalise_custom_run; [|exact Eh|].
    2: { simpl. replace (a + LARGE_ALLOC_HEADER_SZ + 8) with (a + LARGE_ALLOC_HEADER_SZ + 8 * 1) by lia. apply Hmp. lia. }
    rewrite !ret_bind. eexists _, _, (Whsize_hd hd), _. split; [done|]. split; [lia|]. split; [exact HI|]. split; [exact HF|]. split_and!; try done.
    + simpl. rewrite map_size_delete_Some by eauto. lia.
    + by rewrite fn_lookup_insert.
    + intros e He. by rewrite fn_lookup_insert_ne by congruence.
  - destruct (sweep_large_keep hd Eh Hc) as [HI HF]. rewrite ret_bind. eexists _, _, (Whsize_hd hd), _. split; [done|]. split; [lia|].
    split; [exact HI|]. split; [exact HF|]. split_and!; try done.
    + simpl. by rewrite (size_insert_some _ _ _ _ Ep).
    + rewrite fn_lookup_insert_ne by done. by rewrite fn_lookup_insert.
    + intros e He. by rewrite !fn_lookup_insert_ne by congruence.
Qed.
End one_large.

(** ** The lists left to sweep *)

Definition uplaces (d : Z) : list plist := sizeclasses ≫= fun i => [unswept_avail_pools d i; unswept_full_pools d i].
Lemma elem_of_uplaces q d : q ∈ uplaces d <-> unswept q = true /\ group q = Some (Some d) /\ in_range (class_of q) = true.
Proof.
  unfold uplaces. rewrite list_elem_of_bind. split.
  - intros (i & Hq & Hi%elem_of_sizeclasses). set_unfold in Hq. naive_solver.
  - intros (Hu & Hg & Hr). exists (class_of q). split; [|by apply elem_of_sizeclasses]. destruct q; simplify_eq/=; set_solver.
Qed.
Lemma uplaces_NoDup d : NoDup (uplaces d).
Proof.
  apply NoDup_bind; [|intros i _; repeat (apply NoDup_cons; split; [set_solver|]); constructor|apply NoDup_seqZ].
  intros i j q _ _ Hi Hj. set_unfold in Hi. set_unfold in Hj. naive_solver.
Qed.
(** The number of pools to sweep. *)
Definition to_sweep (d : Z) (ls : plist -> list Z) : Z := total (fun _ _ => 1) ls (uplaces d).
Lemma sum_one {A} (l : list A) : sum (fun _ => 1) l = Z.of_nat (length l).
Proof. induction l; simpl; lia. Qed.
Lemma total_one {L} (ls : L -> list Z) P : total (fun _ _ => 1) ls P = Z.of_nat (length (P ≫= ls)).
Proof. unfold total. induction P as [|q P IH]; [done|]. change ((q :: P) ≫= ls) with (ls q ++ (P ≫= ls)). cbn [sum]. rewrite IH, sum_one, length_app. lia. Qed.
Lemma to_sweep_size dirty x y st ls lls d : InvG dirty x y st ls lls -> 0 <= to_sweep d ls <= Z.of_nat (size (pools st)).
Proof.
  intros H. unfold to_sweep. rewrite total_one. split; [lia|]. apply Nat2Z.inj_le. pose proof (iv_linked _ _ _ _ _ _ H) as Hl. apply nodup_size.
  - apply NoDup_bind; [|intros q _; apply Hl|apply uplaces_NoDup]. intros q r a _ _ Ha Hb. by eapply (lk_disj _ _ _ _ _ Hl).
  - intros a (q & Ha & _)%list_elem_of_bind. by eapply linked_node.
Qed.
Lemma to_sweep_moved d q dst a l ls : q ∈ uplaces d -> unswept dst = false -> ls q = a :: l -> to_sweep d (moved q dst a l ls) = to_sweep d ls - 1.
Proof.
  intros Hq Hd E. unfold to_sweep, moved. rewrite !total_insert by apply uplaces_NoDup.
  rewrite (decide_False (P := dst ∈ uplaces d)) by (intros (F & _)%elem_of_uplaces; congruence). rewrite (decide_True (P := q ∈ uplaces d)) by done. rewrite E. simpl. lia.
Qed.

(** One call of [pool_sweep] by [caml_sweep]. *)
Lemma sweep_head d q st ls lls : Inv false nothing st ls lls -> d ∈ heaps st -> q ∈ uplaces d ->
  exists n st' ls' D, pool_sweep d q (class_of q) true st = Ret (n, st') /\ Inv false nothing st' ls' lls /\ Freed st st' D /\ same_rest st st' /\ shrinks ls ls' /\
    ((n = 0 /\ ls q = [] /\ ls' = ls) \/ (0 < n /\ to_sweep d ls' = to_sweep d ls - 1)).
Proof.
  intros H Hd Hq. pose proof (proj1 (elem_of_uplaces q d) Hq) as (Hu & Hg & Hr).
  destruct (Inv_head _ _ _ _ _ q H) as [[Ez El]|(a & l & p & Ea & _ & El & Ep & _)].
  { unfold valid. rewrite Hg, Hr, bool_decide_true by done. done. }
  - unfold pool_sweep. rewrite Ez, Z.eqb_refl. exists 0, st, ls, []. split; [done|]. split; [done|]. split; [apply Freed_refl|]. split; [done|]. split; [apply shrinks_refl|auto].
  - destruct (pool_sweep_spec d q true st ls lls a l p H Hg El Ep) as (st' & dst & D & E & Hdst & HI & HF & Hsr).
    assert (unswept dst = false) as Hdu by (destruct Hdst as [[-> _]|[->| ->]]; done).
    eexists _, st', _, D. split; [exact E|]. split; [exact HI|]. split; [exact HF|]. split; [exact Hsr|]. split; [by apply shrinks_moved|]. right.
    assert (is_class (class_of q)) as Hc. { destruct (iv_pool _ _ _ _ _ _ H q a) as (Hc & _); [rewrite El; left|by intros ->|done]. }
    pose proof (class_facts _ Hc). split; [nia|]. by apply to_sweep_moved.
Qed.

Definition swept_pools (d : Z) (ls : plist -> list Z) : Prop := forall q, q ∈ uplaces d -> ls q = [].
(** What sweeping pools leaves. *)
Definition keeps_swept (st st' : state) (ls ls' : plist -> list Z) : Prop :=
  forall e, next_to_sweep st e = NUM_SIZECLASSES -> swept_pools e ls -> next_to_sweep st' e = NUM_SIZECLASSES /\ swept_pools e ls'.
Record swept_some (st st' : state) (ls ls' : plist -> list Z) (lls : llist -> list Z) (D : list Z) : Prop := {
  ss_Inv : Inv false nothing st' ls' lls;
  ss_next : next_ok st' ls';
  ss_Freed : Freed st st' D;
  ss_heaps : heaps st' = heaps st;
  ss_larges : larges st' = larges st;
  ss_keeps : keeps_swept st st' ls ls';
}.
Lemma swept_some_step st st1 ls ls1 lls D : next_ok st ls -> Inv false nothing st1 ls1 lls -> Freed st st1 D -> same_rest st st1 -> shrinks ls ls1 -> swept_some st st1 ls ls1 lls D.
Proof.
  intros Hn HI HF [] Hs. split; try done; [by eapply next_ok_shrinks|]. intros e He Hl. split; [congruence|]. intros q Hq. apply Hs; [|auto].
  by apply elem_of_uplaces in Hq as [? _].
Qed.
Lemma swept_some_trans st1 st2 st3 ls1 ls2 ls3 lls D D' : swept_some st1 st2 ls1 ls2 lls D -> swept_some st2 st3 ls2 ls3 lls D' -> swept_some st1 st3 ls1 ls3 lls (D ++ D').
Proof.
  intros [? ? ? ? ? K1] [? ? ? ? ? K2]. split; try done; [eapply (Freed_trans false nothing st1 st2 st3); eassumption|congruence|congruence|].
  intros e He Hl. destruct (K1 e He Hl). by apply K2.
Qed.
Lemma swept_some_refl st ls lls : Inv false nothing st ls lls -> next_ok st ls -> swept_some st st ls ls lls [].
Proof. intros H Hn. split; try done. apply Freed_refl. Qed.

(** One round of the loop of [caml_sweep]. *)
Lemma sweep_round d i st ls lls work : Inv false nothing st ls lls -> next_ok st ls -> d ∈ heaps st -> 0 < work -> i = next_to_sweep st d -> i < NUM_SIZECLASSES ->
  exists n1 n2 st1 st2 st3 ls' D, pool_sweep d (unswept_avail_pools d i) i true st = Ret (n1, st1) /\
    (if 0 <? work - n1 then pool_sweep d (unswept_full_pools d i) i true st1 else Ret (0, st1)) = Ret (n2, st2) /\
    st3 = (if n2 + n1 =? 0 then set_next_to_sweep d (next_to_sweep st2 d + 1) st2 else st2) /\ 0 <= n1 /\ 0 <= n2 /\
    swept_some st st3 ls ls' lls D /\ to_sweep d ls' + (NUM_SIZECLASSES - next_to_sweep st3 d) < to_sweep d ls + (NUM_SIZECLASSES - next_to_sweep st d).
Proof.
  intros H Hn Hd Hw Ei Hi. destruct (Hn d Hd) as [Hnd _].
  assert (unswept_avail_pools d i ∈ uplaces d /\ unswept_full_pools d i ∈ uplaces d) as [Hqa Hqf].
  { rewrite !elem_of_uplaces. unfold in_range. simpl. rewrite (proj2 (Z.leb_le 0 i)), (proj2 (Z.ltb_lt i _)) by lia. done. }
  destruct (sweep_head d _ st ls lls H Hd Hqa) as (n1 & st1 & ls1 & D1 & E1 & HI1 & HF1 & Hsr1 & Hs1 & Hc1). cbn [class_of] in E1.
  assert (d ∈ heaps st1) as Hd1 by (by rewrite (sr_heaps _ _ Hsr1)). pose proof (swept_some_step _ _ _ _ _ _ Hn HI1 HF1 Hsr1 Hs1) as HS1.
  destruct (Z.lt_ge_cases 0 (work - n1)) as [Hw1|Hw1].
  - destruct (sweep_head d _ st1 ls1 lls HI1 Hd1 Hqf) as (n2 & st2 & ls2 & D2 & E2 & HI2 & HF2 & Hsr2 & Hs2 & Hc2). cbn [class_of] in E2.
    pose proof (swept_some_step _ _ _ _ _ _ (ss_next _ _ _ _ _ _ HS1) HI2 HF2 Hsr2 Hs2) as HS2. pose proof (swept_some_trans _ _ _ _ _ _ _ _ _ HS1 HS2) as HS.
    eexists n1, n2, st1, st2, _, ls2, (D1 ++ D2). split; [exact E1|]. split; [rewrite (proj2 (Z.ltb_lt _ _) Hw1); exact E2|]. split; [reflexivity|].
    assert (next_to_sweep st2 d = i) as En by (rewrite (sr_next _ _ Hsr2), (sr_next _ _ Hsr1); done).
    split; [lia|]. split; [lia|]. destruct (Z.eqb_spec (n2 + n1) 0) as [Hz|Hz].
    + destruct Hc1 as [(? & El1 & ->)|[? _]]; [|lia]. destruct Hc2 as [(? & El2 & ->)|[? _]]; [|lia]. split.
      * destruct HS as [HIs Hns HFs Hhs Hls Hks]. split; [destruct HIs; split; done| |destruct HFs; split; done|done|done|].
        2: { intros e He Hl. destruct (Hks e He Hl) as [? ?]. split; [|done]. simpl. rewrite fn_lookup_insert_ne; [done|]. intros <-. lia. }
        intros e He. simpl in He |- *. destruct (Hns e He) as [Hb Hl]. destruct (decide (d = e)) as [<-|]; [|by rewrite fn_lookup_insert_ne].
        rewrite fn_lookup_insert, En. split; [lia|]. intros j Hj. destruct (decide (j = i)) as [->|]; [done|]. apply Hl. lia.
      * simpl. rewrite fn_lookup_insert, En. lia.
    + split; [exact HS|]. rewrite En. destruct Hc1 as [(? & _ & ->)|[? ?]], Hc2 as [(? & _ & ->)|[? ?]]; lia.
  - eexists n1, 0, st1, st1, _, ls1, D1. split; [exact E1|]. split; [by rewrite (proj2 (Z.ltb_ge _ _) Hw1)|]. split; [reflexivity|].
    assert (next_to_sweep st1 d = i) as En by (rewrite (sr_next _ _ Hsr1); done).
    destruct Hc1 as [(? & _)|[? ?]]; [lia|]. split; [lia|]. split; [lia|]. rewrite (proj2 (Z.eqb_neq _ 0)) by lia. split; [exact HS1|]. lia.
Qed.
(** The pools that a domain still has to sweep, and the size classes left. *)
Definition left_pools (d : Z) (st : state) (ls : plist -> list Z) : Z := to_sweep d ls + (NUM_SIZECLASSES - next_to_sweep st d).
Lemma sweep_pools_spec n d work st ls lls : Inv false nothing st ls lls -> next_ok st ls -> d ∈ heaps st ->
  to_sweep d ls + (NUM_SIZECLASSES - next_to_sweep st d) < Z.of_nat n ->
  exists w st' ls' D, sweep_pools n d work st = Ret (w, st') /\ swept_some st st' ls ls' lls D /\ w <= work /\
    (0 < w -> next_to_sweep st' d = NUM_SIZECLASSES /\ swept_pools d ls') /\ left_pools d st' ls' <= left_pools d st ls /\
    (0 < work -> left_pools d st' ls' < left_pools d st ls \/ (w = work /\ next_to_sweep st d = NUM_SIZECLASSES)).
Proof.
  unfold left_pools. revert work st ls. induction n as [|n IH]; intros work st ls H Hn Hd Hfuel.
  { pose proof (to_sweep_size _ _ _ _ _ _ d H). destruct (Hn d Hd). lia. }
  cbn [sweep_pools]. destruct (Z.ltb_spec 0 work) as [Hw|Hw]; cbn [andb].
  2: { exists work, st, ls, []. split; [done|]. split; [by apply swept_some_refl|]. split_and!; lia. }
  destruct (Z.ltb_spec (next_to_sweep st d) NUM_SIZECLASSES) as [Hi|Hi].
  2: { exists work, st, ls, []. split; [done|]. split; [by apply swept_some_refl|]. destruct (Hn d Hd) as [Hb Hl]. split; [lia|]. split; [|lia].
    intros _. split; [lia|]. intros q (Hu & Hg & Hr)%elem_of_uplaces. destruct (Hl (class_of q)) as [? ?]; [unfold in_range in Hr; lia|]. destruct q; simplify_eq/=; done. }
  cbv zeta. destruct (sweep_round d _ st ls lls work H Hn Hd Hw eq_refl Hi) as (n1 & n2 & st1 & st2 & st3 & ls' & D & E1 & E2 & E3 & ? & ? & HS & Hm).
  rewrite E1, ret_bind. cbv beta iota. rewrite E2, ret_bind. cbv beta iota. rewrite <- E3.
  destruct (IH (work - n1 - n2) st3 ls') as (w & st' & ls'' & D' & -> & HS' & Hw' & Hdone & Hle & _); [apply HS|apply HS|by rewrite (ss_heaps _ _ _ _ _ _ HS)|lia|].
  exists w, st', ls'', (D ++ D'). split; [done|]. split; [by eapply swept_some_trans|]. split; [lia|]. split; [done|]. lia.
Qed.

Lemma sweep_large_spec n d work st ls lls : Inv false nothing st ls lls -> d ∈ heaps st -> (length (lls (unswept_large d)) < n)%nat ->
  exists w st' lls' D, sweep_large n d work st = Ret (w, st') /\ Inv false nothing st' ls lls' /\ Freed st st' D /\ heaps st' = heaps st /\
    next_to_sweep st' = next_to_sweep st /\ w <= work /\ (0 < w -> lls' (unswept_large d) = []) /\
    (length (lls' (unswept_large d)) <= length (lls (unswept_large d)))%nat /\ (forall e, lls (unswept_large e) = [] -> lls' (unswept_large e) = []) /\
    (0 < work -> (length (lls' (unswept_large d)) < length (lls (unswept_large d)))%nat \/ w = work).
Proof.
  revert work st lls. induction n as [|n IH]; intros work st lls H Hd Hn; [lia|]. cbn [sweep_large].
  destruct (Z.ltb_spec 0 work) as [Hw|Hw]; cbn [andb].
  2: { exists work, st, lls, []. split_and!; try done; [apply Freed_refl|lia..]. }
  destruct (Inv_lhead _ _ _ _ _ _ (unswept_large d) H) as [[Ez El]|(a & l & p & Ea & Hz & El & Ep)]; [by apply bool_decide_eq_true| |].
  { rewrite Ez, Z.eqb_refl. cbn [negb]. exists work, st, lls, []. split_and!; try done; [apply Freed_refl|auto]. }
  rewrite Ea, (proj2 (Z.eqb_neq a 0)) by done. cbn [negb].
  destruct (large_alloc_sweep_spec d st ls lls a l p H Hd El Ep) as (st1 & lls1 & w & D & -> & Hw1 & HI1 & HF1 & Hh1 & Hn1 & _ & _ & El1 & Eo1). rewrite ret_bind. cbv beta iota.
  destruct (IH (work - w) st1 lls1 HI1) as (w' & st' & lls' & D' & -> & HI' & HF' & Hh' & Hn' & Hw' & Hdone & Hle & Hk & _); [by rewrite Hh1|rewrite El1; rewrite El in Hn; simpl in Hn; lia|].
  rewrite El1 in Hle. exists w', st', lls', (D ++ D'). rewrite El. cbn [length]. split_and!; try done; [eapply (Freed_trans false nothing st st1 st'); eassumption|congruence|congruence|lia|lia| |lia].
  intros e He. apply Hk. destruct (decide (e = d)) as [->|]; [congruence|by rewrite Eo1].
Qed.

(** ** Verification of the swept heap *)

Definition mem_is (x : mem_stats) (al li fr ov lb : Z) : Prop :=
  m_alloced x = u64 al /\ m_live x = u64 li /\ m_free x = u64 fr /\ m_overhead x = u64 ov /\ m_live_blocks x = u64 lb.
Lemma u64_add a b : u64 (u64 a + b) = u64 (a + b).
Proof. unfold wrap. by rewrite Zplus_mod_idemp_l. Qed.
Lemma mem_is_add x al li fr ov lb al' li' fr' ov' lb' : mem_is x al li fr ov lb ->
  mem_is (add_mem al' li' fr' ov' lb' x) (al + al') (li + li') (fr + fr') (ov + ov') (lb + lb').
Proof. intros (E1 & E2 & E3 & E4 & E5). unfold mem_is, add_mem. simpl. rewrite E1, E2, E3, E4, E5, !u64_add. done. Qed.
Lemma mem_is_eq x al li fr ov lb al' li' fr' ov' lb' : mem_is x al li fr ov lb -> al = al' -> li = li' -> fr = fr' -> ov = ov' -> lb = lb' -> mem_is x al' li' fr' ov' lb'.
Proof. by intros H <- <- <- <- <-. Qed.

Lemma verify_free_list_spec st fl n v : free_chain (mem st) v fl -> (forall x, x ∈ fl -> mem st !! x = Some 0) -> (length fl < n)%nat -> verify_free_list n st v = Ret ().
Proof.
  revert n v. induction fl as [|x fl IH]; intros [|n] v Hc Hz Hn; simpl in Hn; try lia; cbn [verify_free_list].
  - simpl in Hc. by rewrite Hc, Z.eqb_refl.
  - destruct Hc as (-> & Hx & w & Ew & Hc). rewrite (proj2 (Z.eqb_neq x 0)) by done. rewrite (load_Ret _ _ _ (Hz x ltac:(left))), ret_bind, Z.eqb_refl.
    change (CAMLassert true) with (Ret ()). rewrite ret_bind, (load_Ret _ _ _ Ew), ret_bind. apply IH; [done| |lia]. intros y Hy. apply Hz. by right.
Qed.
(** The words of the free slots of a pool. *)
Definition free_words (m : gmap Z Z) (i a : Z) : Z := POOL_WSIZE - pool_weight s_live_words m i a - pool_weight s_frag_words m i a.
Lemma slot_shares_fill m wh l : sum (fun x => slot_share s_live_words m wh x + slot_share s_frag_words m wh x + (if default 0 (m !! x) =? 0 then wh else 0)) l = wh * Z.of_nat (length l).
Proof.
  induction l as [|x l IH]; simpl; [lia|]. rewrite IH. unfold slot_share. destruct (m !! x) as [hd|]; simpl; [destruct (hd =? 0)|]; simpl; lia.
Qed.
Lemma sum_plus {A} (f g : A -> Z) l : sum (fun x => f x + g x) l = sum f l + sum g l.
Proof. induction l; simpl; lia. Qed.
Lemma free_words_eq m i a : is_class i -> free_words m i a = sum (fun x => if default 0 (m !! x) =? 0 then wsize_sizeclass i else 0) (slots a i).
Proof.
  intros Hi. pose proof (class_facts i Hi). pose proof (slot_shares_fill m (wsize_sizeclass i) (slots a i)) as E. rewrite !sum_plus in E.
  assert (Z.of_nat (length (slots a i)) = blocks i) as El by (unfold slots, slots_from; rewrite length_fmap, length_seq; lia). rewrite El in E.
  unfold free_words, pool_weight, pool_share, POOL_WSIZE. lia.
Qed.
Lemma verify_pool_spec st q a al li fr ov lb x : pool_ok false (mem st) (GARBAGE (colors st)) (pools st) q a -> pool_mapped (mem st) a -> unswept q = false ->
  mem_is x al li fr ov lb -> let i := class_of q in exists x', verify_pool st a i x = Ret x' /\
    mem_is x' (al + POOL_WSIZE) (li + pool_weight s_live_words (mem st) i a) (fr + free_words (mem st) i a) (ov + pool_weight s_frag_words (mem st) i a) (lb + pool_weight s_live_blocks (mem st) i a).
Proof.
  intros (Hi & p & fl & Ep & Hs & Hsl & _) Hm Hu Hx i. fold i in Hi, Hs, Hsl. unfold verify_pool. rewrite (get_pool_Ret _ _ _ Ep), ret_bind.
  pose proof (class_facts i Hi) as (? & ? & Hb & ?). pose proof (slab_offset i Hi).
  rewrite (verify_free_list_spec st fl); [|apply Hsl|intros y Hy; by apply (sl_free _ _ _ _ _ _ _ Hsl)|].
  2: { assert (length fl <= length (slots a i))%nat as Hlen. { apply submseteq_length, NoDup_submseteq; [apply Hsl|]. intros y Hy. by apply (sl_free _ _ _ _ _ _ _ Hsl). }
       unfold slots, slots_from in Hlen. rewrite length_fmap, length_seq in Hlen. unfold block_fuel, POOL_WSIZE. nia. }
  rewrite ret_bind. cbv zeta. rewrite blocks_loop_pool by done.
  destruct (for_each_inv (fun done y => mem_is y al (li + sum (slot_share s_live_words (mem st) (wsize_sizeclass i)) done)
      (fr + sum (fun x => if default 0 (mem st !! x) =? 0 then wsize_sizeclass i else 0) done)
      (ov + POOL_SLAB_WOFFSET i + sum (slot_share s_frag_words (mem st) (wsize_sizeclass i)) done)
      (lb + sum (slot_share s_live_blocks (mem st) (wsize_sizeclass i)) done))
    (slots a i) (verify_block st (wsize_sizeclass i)) (add_mem 0 0 0 (POOL_SLAB_WOFFSET i) 0 x)) as (y & -> & Hy).
  - eapply mem_is_eq; [by apply mem_is_add|simpl; lia..].
  - intros done b rest y E Hy. assert (b ∈ slots a i) as Hbs by (rewrite E; set_solver). destruct (Hm b) as [hd Eb]; [by eapply slot_header_in|].
    unfold verify_block. rewrite (load_Ret _ _ _ Eb), ret_bind.
    assert ((hd =? 0) || negb (Has_status_hd hd (GARBAGE (colors st))) = true) as ->.
    { destruct (Z.eqb_spec hd 0) as [->|Hz]; [done|]. simpl. apply negb_true_iff, Z.eqb_neq. by apply (sl_used _ _ _ _ _ _ _ Hsl b hd). }
    change (CAMLassert true) with (Ret ()). rewrite ret_bind. eexists. split; [done|]. rewrite !sum_app. simpl. rewrite Eb. simpl. unfold slot_share at 2 4 6. rewrite Eb.
    destruct (hd =? 0); (eapply mem_is_eq; [by apply mem_is_add|simpl; lia..]).
  - rewrite !ret_bind. cbv beta iota. rewrite Z.eqb_refl. change (CAMLassert true) with (Ret ()). rewrite ret_bind. eexists. split; [done|].
    rewrite free_words_eq by done. eapply mem_is_eq; [by apply mem_is_add|unfold pool_weight, pool_share; lia..].
Qed.

Definition share_of (t : stat) (m : gmap Z Z) (i : Z) (l : list Z) : Z := sum (pool_weight t m i) l.
Lemma verify_pools_spec st q l n p al li fr ov lb x : chain next (pools st) p l -> (length l < n)%nat -> unswept q = false ->
  (forall a, a ∈ l -> pool_ok false (mem st) (GARBAGE (colors st)) (pools st) q a /\ pool_mapped (mem st) a) ->
  mem_is x al li fr ov lb -> let i := class_of q in exists x', verify_pools n st (full q) i p x = Ret x' /\
    mem_is x' (al + POOL_WSIZE * Z.of_nat (length l)) (li + share_of s_live_words (mem st) i l) (fr + sum (free_words (mem st) i) l)
      (ov + share_of s_frag_words (mem st) i l) (lb + share_of s_live_blocks (mem st) i l).
Proof.
  intros Hc Hn Hu Hok Hx i. revert n p x al li fr ov lb Hc Hn Hok Hx. unfold share_of. induction l as [|a l IH]; intros [|n] p x al li fr ov lb Hc Hn Hok Hx; simpl in Hn; try lia; cbn [verify_pools].
  - simpl in Hc. rewrite Hc, Z.eqb_refl. exists x. split; [done|]. eapply mem_is_eq; [done|simpl; lia..].
  - destruct Hc as (-> & Ha & r & Ep & Hc). rewrite (proj2 (Z.eqb_neq a 0)), (get_pool_Ret _ _ _ Ep), ret_bind by done.
    destruct (Hok a ltac:(left)) as [Hpo Hm]. assert (negb (full q) || (next_obj r =? 0) = true) as ->.
    { destruct Hpo as (_ & p' & fl & Ep' & _ & Hsl & Hfl). simplify_eq. destruct (full q); [|done]. simpl. rewrite (proj2 Hfl eq_refl) in Hsl.
      apply Z.eqb_eq. apply (sl_chain _ _ _ _ _ _ _ Hsl). }
    change (CAMLassert true) with (Ret ()). rewrite ret_bind.
    destruct (verify_pool_spec st q a al li fr ov lb x Hpo Hm Hu Hx) as (x1 & E1 & Hx1). fold i in E1, Hx1. rewrite E1, ret_bind.
    destruct (IH n (next r) x1 _ _ _ _ _ Hc ltac:(lia) (fun b Hb => Hok b ltac:(by right)) Hx1) as (x' & -> & Hx').
    exists x'. split; [done|]. eapply mem_is_eq; [exact Hx'|cbn [length sum]; fold i; lia..].
Qed.
Lemma verify_large_spec st q l n a al li fr ov lb x : chain l_next (larges st) a l -> (length l < n)%nat -> lunswept q = false ->
  (forall b, b ∈ l -> large_ok false (mem st) (GARBAGE (colors st)) (regions (system st)) q b) ->
  mem_is x al li fr ov lb -> exists x', verify_large n st a x = Ret x' /\
    mem_is x' (al + sum (lweight l_words (mem st) q) l) li fr (ov + 2 * Z.of_nat (length l)) (lb + sum (lweight l_blocks (mem st) q) l).
Proof.
  intros Hc Hn Hu Hok Hx. revert n a x al li fr ov lb Hc Hn Hok Hx. induction l as [|b l IH]; intros [|n] a x al li fr ov lb Hc Hn Hok Hx; simpl in Hn; try lia; cbn [verify_large].
  - simpl in Hc. rewrite Hc, Z.eqb_refl. exists x. split; [done|]. eapply mem_is_eq; [done|simpl; lia..].
  - destruct Hc as (-> & Ha & p & Ep & Hc). rewrite (proj2 (Z.eqb_neq b 0)), (get_large_Ret _ _ _ Ep), ret_bind by done.
    destruct (Hok b ltac:(left)) as (hd & Eh & _ & _ & _ & _ & Hcol). rewrite (load_Ret _ _ _ Eh), ret_bind.
    unfold Has_status_hd. rewrite (proj2 (Z.eqb_neq _ _)) by (apply Hcol; by rewrite Hu). change (CAMLassert (negb false)) with (Ret ()). rewrite ret_bind.
    edestruct (IH n (l_next p)) as (x' & -> & Hx'); [exact Hc|lia|intros c Hc'; apply Hok; by right|by apply mem_is_add|].
    exists x'. split; [done|]. assert (LARGE_ALLOC_HEADER_SZ / 8 = 2) as E2 by done.
    assert (lweight l_words (mem st) q b = Whsize_hd hd + 2 /\ lweight l_blocks (mem st) q b = 1) as [Ew Eb] by (unfold lweight; by rewrite Eh).
    eapply mem_is_eq; [exact Hx'|cbn [length sum]; lia..].
Qed.

Lemma sum_bind {A B} (f : B -> Z) (g : A -> list B) l : sum f (l ≫= g) = sum (fun a => sum f (g a)) l.
Proof. induction l as [|a l IH]; [done|]. change ((a :: l) ≫= g) with (g a ++ (l ≫= g)). rewrite sum_app, IH. done. Qed.
(** What the pools of a size class count, when none is left to sweep. *)
Definition class_share (t : stat) (m : gmap Z Z) (d : Z) (ls : plist -> list Z) (i : Z) : Z :=
  share_of t m i (ls (avail_pools d i)) + share_of t m i (ls (full_pools d i)).
Lemma total_swept t m d ls : swept_pools d ls -> total (weight t m) ls (places (Some d)) = sum (class_share t m d ls) sizeclasses.
Proof.
  intros Hs. unfold total, places. rewrite sum_bind. apply sum_ext. intros i Hi%elem_of_sizeclasses. simpl.
  rewrite (Hs (unswept_avail_pools d i)), (Hs (unswept_full_pools d i)) by (by rewrite elem_of_uplaces). unfold class_share, share_of.
  change (weight t m (avail_pools d i)) with (pool_weight t m i). change (weight t m (full_pools d i)) with (pool_weight t m i). simpl. lia.
Qed.
Lemma share_words m i l : share_of s_words m i l = POOL_WSIZE * Z.of_nat (length l).
Proof.
  unfold share_of. induction l as [|a l IH]; simpl; [lia|]. rewrite IH. unfold pool_weight at 1. rewrite sum_zero; [simpl; unfold POOL_WSIZE; lia|].
  intros x _. unfold slot_share. destruct (m !! x) as [hd|]; [by destruct (hd =? 0)|done].
Qed.
Lemma free_share m i l : sum (free_words m i) l = share_of s_words m i l - share_of s_live_words m i l - share_of s_frag_words m i l.
Proof. rewrite share_words. unfold share_of. induction l as [|a l IH]; cbn [sum length]; [lia|]. rewrite IH. unfold free_words. lia. Qed.
Lemma sum_minus {A} (f g : A -> Z) l : sum (fun x => f x - g x) l = sum f l - sum g l.
Proof. induction l; simpl; lia. Qed.

Section verify.
Context (d : Z) (st : state) (ls : plist -> list Z) (lls : llist -> list Z).
Context (H : Inv false nothing st ls lls) (Hd : d ∈ heaps st) (Hs : swept_pools d ls) (Hl : lls (unswept_large d) = []) (Hn : next_to_sweep st d = NUM_SIZECLASSES).
Let C (t : stat) (i : Z) : Z := class_share t (mem st) d ls i.
Lemma local_ok i q : in_range i = true -> group q = Some (Some d) -> class_of q = i -> valid (heaps st) q = true.
Proof. intros Hi Hg Hc. unfold valid. rewrite Hg, Hc, Hi, bool_decide_true by done. done. Qed.
Lemma verify_list q n al li fr ov lb x : group q = Some (Some d) -> in_range (class_of q) = true -> unswept q = false -> n = list_fuel st ->
  mem_is x al li fr ov lb -> let i := class_of q in let l := ls q in exists x', verify_pools n st (full q) i (heads st q) x = Ret x' /\
    mem_is x' (al + share_of s_words (mem st) i l) (li + share_of s_live_words (mem st) i l)
      (fr + (share_of s_words (mem st) i l - share_of s_live_words (mem st) i l - share_of s_frag_words (mem st) i l))
      (ov + share_of s_frag_words (mem st) i l) (lb + share_of s_live_blocks (mem st) i l).
Proof.
  intros Hg Hr Hu -> Hx i l. assert (valid (heaps st) q = true) as Hv by (by eapply local_ok).
  destruct (verify_pools_spec st q (ls q) (list_fuel st) (heads st q) al li fr ov lb x) as (x' & E & Hx'); try done.
  - by apply (lk_chain _ _ _ _ _ (iv_linked _ _ _ _ _ _ H)).
  - unfold list_fuel. pose proof (linked_size next _ _ _ _ q (iv_linked _ _ _ _ _ _ H)). lia.
  - intros a Ha. split; [apply (iv_pool _ _ _ _ _ _ H q a Ha); by intros ->|apply (iv_region _ _ _ _ _ _ H q a Ha)].
  - exists x'. split; [done|]. rewrite free_share in Hx'. eapply mem_is_eq; [exact Hx'|try done..]. unfold l. by rewrite share_words.
Qed.
Lemma verify_class_spec i al li fr ov lb x : in_range i = true -> mem_is x al li fr ov lb -> exists x', verify_class d st i x = Ret x' /\
  mem_is x' (al + C s_words i) (li + C s_live_words i) (fr + (C s_words i - C s_live_words i - C s_frag_words i)) (ov + C s_frag_words i) (lb + C s_live_blocks i).
Proof.
  intros Hi Hx. unfold verify_class.
  assert (heads st (unswept_avail_pools d i) = 0 /\ heads st (unswept_full_pools d i) = 0) as [-> ->].
  { split; (apply (linked_null _ _ _ _ _ _ (iv_linked _ _ _ _ _ _ H)); [by eapply local_ok|apply Hs; by rewrite elem_of_uplaces]). }
  change (CAMLassert ((0 =? 0) && (0 =? 0))) with (Ret ()). rewrite ret_bind.
  destruct (verify_list (avail_pools d i) _ al li fr ov lb x eq_refl Hi eq_refl eq_refl Hx) as (x1 & E1 & Hx1). cbn [full class_of] in E1. rewrite E1, ret_bind.
  destruct (verify_list (full_pools d i) _ _ _ _ _ _ x1 eq_refl Hi eq_refl eq_refl Hx1) as (x2 & E2 & Hx2). cbn [full class_of] in E2. rewrite E2.
  exists x2. split; [done|]. eapply mem_is_eq; [exact Hx2|unfold C, class_share; cbn [class_of]; lia..].
Qed.
Lemma u64_eqm a b : eqm 64 a b -> (u64 a =? u64 b) = true.
Proof. intros E. by apply Z.eqb_eq. Qed.
(** Every assertion of [verify_swept] holds. *)
Lemma verify_swept_ok : verify_swept d st = Ret ().
Proof.
  unfold verify_swept. rewrite Hn, Z.eqb_refl. change (CAMLassert true) with (Ret ()). rewrite ret_bind.
  destruct (for_each_inv (fun done y => mem_is y (sum (C s_words) done) (sum (C s_live_words) done)
      (sum (C s_words) done - sum (C s_live_words) done - sum (C s_frag_words) done) (sum (C s_frag_words) done) (sum (C s_live_blocks) done))
    sizeclasses (verify_class d st) no_mem_stats) as (y & -> & Hy).
  - done.
  - intros done i rest y E Hy. assert (in_range i = true) as Hi by (apply elem_of_sizeclasses; rewrite E; set_solver).
    destruct (verify_class_spec i _ _ _ _ _ y Hi Hy) as (y' & -> & Hy'). exists y'. split; [done|].
    eapply mem_is_eq; [exact Hy'|rewrite !sum_app; simpl; lia..].
  - destruct (verify_large_spec st (swept_large d) (lls (swept_large d)) (llist_fuel st) (lheads st (swept_large d)) 0 0 0 0 0 no_mem_stats) as (z & Ez & Hz); try done.
    { apply (lk_chain _ _ _ _ _ (iv_llinked _ _ _ _ _ _ H)). by apply bool_decide_eq_true. }
    { unfold llist_fuel. pose proof (linked_size l_next _ _ _ _ (swept_large d) (iv_llinked _ _ _ _ _ _ H)). lia. }
    { intros b Hb. by apply (iv_large _ _ _ _ _ _ H). }
    rewrite ret_bind, Ez, ret_bind. assert (lheads st (unswept_large d) = 0) as ->.
    { apply (linked_null _ _ _ _ _ _ (iv_llinked _ _ _ _ _ _ H)); [by apply bool_decide_eq_true|done]. }
    change (CAMLassert (0 =? 0)) with (Ret ()). rewrite ret_bind. cbv zeta.
    assert (forall t, eqm 64 (get_stat t (stats st (Some d))) (sum (C t) sizeclasses)) as Hst.
    { intros t. etransitivity; [apply (iv_stats _ _ _ _ _ _ H (Some d) t); naive_solver|]. apply eqm_eq. unfold nothing. rewrite total_swept by done. unfold C. apply Z.add_0_r. }
    assert (forall t, eqm 64 (get_lstat t (stats st (Some d))) (sum (lweight t (mem st) (swept_large d)) (lls (swept_large d)))) as Hlst.
    { intros t. etransitivity; [apply (iv_lstats _ _ _ _ _ _ H (Some d) t); naive_solver|]. apply eqm_eq. unfold lnothing, total. cbn [lplaces sum]. rewrite Hl. cbn [sum]. lia. }
    destruct Hy as (-> & -> & -> & -> & ->), Hz as (-> & _ & _ & _ & ->).
    set (h := stats st (Some d)) in *.
    rewrite (u64_eqm (pool_words h) _ (Hst s_words)), (u64_eqm (pool_live_words h) _ (Hst s_live_words)), (u64_eqm (pool_live_blocks h) _ (Hst s_live_blocks)), (u64_eqm (pool_frag_words h) _ (Hst s_frag_words)).
    rewrite (u64_eqm (pool_words h - _) (sum (C s_words) sizeclasses - sum (C s_live_words) sizeclasses - sum (C s_frag_words) sizeclasses)).
    2: { rewrite <- Z.sub_add_distr. apply eqm_sub; [apply (Hst s_words)|]. apply eqm_add; [apply (Hst s_live_words)|apply (Hst s_frag_words)]. }
    rewrite !Z.add_0_l, (u64_eqm (large_words h) _ (Hlst l_words)), (u64_eqm (large_blocks h) _ (Hlst l_blocks)). change (CAMLassert true) with (Ret ()). by rewrite !ret_bind.
Qed.
End verify.

(** ** [caml_sweep] *)

Definition no_unswept (d : Z) (st : state) : Prop :=
  lheads st (unswept_large d) = 0 /\
  forall i, 0 <= i < NUM_SIZECLASSES -> heads st (unswept_avail_pools d i) = 0 /\ heads st (unswept_full_pools d i) = 0.
(** The state after a complete sweep. *)
Definition swept (d : Z) (st : state) : Prop := next_to_sweep st d = NUM_SIZECLASSES /\ no_unswept d st.
Lemma unswept_lists dirty x y st ls lls d : InvG dirty x y st ls lls -> d ∈ heaps st -> no_unswept d st <-> lls (unswept_large d) = [] /\ swept_pools d ls.
Proof.
  intros H Hd. unfold no_unswept. rewrite (linked_null _ _ _ _ _ (unswept_large d) (iv_llinked _ _ _ _ _ _ H)) by (by apply bool_decide_eq_true).
  assert (forall q, q ∈ uplaces d -> heads st q = 0 <-> ls q = []) as Hq.
  { intros q (Hu & Hg & Hr)%elem_of_uplaces. apply (linked_null _ _ _ _ _ _ (iv_linked _ _ _ _ _ _ H)). unfold valid. rewrite Hg, Hr, bool_decide_true by done. done. }
  assert (forall i, 0 <= i < NUM_SIZECLASSES -> unswept_avail_pools d i ∈ uplaces d /\ unswept_full_pools d i ∈ uplaces d) as Hi.
  { intros i Hi. rewrite !elem_of_uplaces. unfold in_range. simpl. split_and!; try done; lia. }
  apply and_iff_compat_l. split.
  - intros Hh q Hin. pose proof (proj1 (elem_of_uplaces q d) Hin) as (Hu & Hg & Hr). apply Hq; [done|].
    destruct (Hh (class_of q)) as [? ?]; [unfold in_range in Hr; lia|]. destruct q; simplify_eq/=; done.
  - intros Hs i Hr. destruct (Hi i Hr). split; apply Hq; auto.
Qed.
Lemma swept_lists dirty x y st ls lls d : InvG dirty x y st ls lls -> d ∈ heaps st -> swept d st <-> next_to_sweep st d = NUM_SIZECLASSES /\ lls (unswept_large d) = [] /\ swept_pools d ls.
Proof. intros H Hd. unfold swept. by rewrite (unswept_lists _ _ _ _ _ _ d H Hd). Qed.
(** What a domain still has to sweep. *)
Definition left_to_sweep (d : Z) (st : state) (ls : plist -> list Z) (lls : llist -> list Z) : Z :=
  left_pools d st ls + Z.of_nat (length (lls (unswept_large d))).
Lemma left_to_sweep_size st ls lls d : Inv false nothing st ls lls -> next_ok st ls -> d ∈ heaps st ->
  0 <= left_to_sweep d st ls lls <= Z.of_nat (size (pools st) + size (larges st)) + NUM_SIZECLASSES.
Proof.
  intros H Hn Hd. pose proof (to_sweep_size _ _ _ _ _ _ d H). destruct (Hn d Hd) as [? _].
  pose proof (linked_size l_next _ _ _ _ (unswept_large d) (iv_llinked _ _ _ _ _ _ H)). unfold left_to_sweep, left_pools. lia.
Qed.
(** A slice of sweeping: it frees garbage only, and it makes progress unless it
    finishes. *)
Lemma sweep_slice_spec d work st ls lls : Inv false nothing st ls lls -> next_ok st ls -> d ∈ heaps st ->
  exists w st' ls' lls' D, caml_sweep d work st = Ret (w, st') /\ Inv false nothing st' ls' lls' /\ next_ok st' ls' /\ Freed st st' D /\ w <= work /\
    (0 < w -> swept d st') /\ (forall e, e ∈ heaps st -> swept e st -> swept e st') /\ (0 < work -> 0 < w \/ left_to_sweep d st' ls' lls' < left_to_sweep d st ls lls).
Proof.
  intros H Hn Hd. unfold caml_sweep. rewrite bool_decide_true by done. change (CAMLassert true) with (Ret ()). rewrite ret_bind.
  destruct (sweep_pools_spec (sweep_fuel st) d work st ls lls H Hn Hd) as (w1 & st1 & ls1 & D1 & -> & HS & Hw1 & Hdone1 & Hle1 & Hlt1).
  { pose proof (to_sweep_size _ _ _ _ _ _ d H). destruct (Hn d Hd) as [? _]. unfold sweep_fuel. lia. }
  rewrite ret_bind. cbv beta iota. destruct HS as [HI1 Hn1 HF1 Hh1 Hl1 Hk1]. assert (d ∈ heaps st1) as Hd1 by (by rewrite Hh1).
  destruct (sweep_large_spec (llist_fuel st1) d w1 st1 ls1 lls HI1 Hd1) as (w & st2 & lls2 & D2 & -> & HI2 & HF2 & Hh2 & Hn2 & Hw2 & Hdone2 & Hle2 & Hk2 & Hlt2).
  { unfold llist_fuel. pose proof (linked_size l_next _ _ _ _ (unswept_large d) (iv_llinked _ _ _ _ _ _ HI1)). lia. }
  rewrite ret_bind. cbv beta iota. assert (d ∈ heaps st2) as Hd2 by (by rewrite Hh2).
  assert (0 < w -> next_to_sweep st2 d = NUM_SIZECLASSES /\ lls2 (unswept_large d) = [] /\ swept_pools d ls1) as Hdone.
  { intros Hw. destruct Hdone1 as [? ?]; [lia|]. rewrite Hn2. auto. }
  exists w, st2, ls1, lls2, (D1 ++ D2). split_and!; try done.
  - destruct (Z.ltb_spec 0 w) as [Hw|Hw]; [|rewrite andb_false_r; by rewrite ret_bind]. destruct Hdone as (? & ? & ?); [done|].
    destruct verify_heap; cbn [andb]; [rewrite (verify_swept_ok d st2 ls1 lls2) by done|]; by rewrite ret_bind.
  - eapply next_ok_shrinks; [exact Hn1|done|done|apply shrinks_refl].
  - eapply (Freed_trans false nothing st st1 st2); eassumption.
  - lia.
  - intros Hw. by apply (swept_lists _ _ _ _ _ _ d HI2 Hd2), Hdone.
  - intros e He (Hs1 & Hs2 & Hs3)%(swept_lists _ _ _ _ _ _ e H He). destruct (Hk1 e Hs1 Hs3) as [? ?].
    apply (swept_lists _ _ _ _ _ _ e HI2); [by rewrite Hh2, Hh1|]. rewrite Hn2. auto.
  - unfold left_to_sweep, left_pools in *. rewrite Hn2. lia.
Qed.
Lemma sweep_spec d work st : heap_ok st -> d ∈ heaps st ->
  exists w st' D, caml_sweep d work st = Ret (w, st') /\ heap_ok st' /\ Freed st st' D /\ w <= work /\ (0 < w -> swept d st') /\
    (forall e, e ∈ heaps st -> swept e st -> swept e st').
Proof.
  intros (ls & lls & H & Hn) Hd. destruct (sweep_slice_spec d work st ls lls H Hn Hd) as (w & st' & ls' & lls' & D & E & HI & Hn' & HF & Hw & Hs & Hk & _).
  exists w, st', D. split_and!; try done. by exists ls', lls'.
Qed.
(** When every domain has swept its heap there is no garbage. *)
Lemma swept_no_garbage st p hd : heap_ok st -> (forall d, d ∈ heaps st -> no_unswept d st) -> live st p hd -> Color_hd hd <> GARBAGE (colors st).
Proof.
  intros (ls & lls & H & _) Hs. rewrite (live_lists _ _ _ _ _ _ _ H). intros [(q & a & Hq & Ha & Hp & E & Hz)|(q & a & Ha & -> & E)].
  - destruct (iv_pool _ _ _ _ _ _ H q a Ha Hq) as (Hc & ? & ? & _ & _ & Hsl & _). apply (sl_used _ _ _ _ _ _ _ Hsl p hd Hp E Hz).
    destruct (unswept q) eqn:Hu; [|done]. exfalso. pose proof (linked_ok _ _ _ _ _ _ _ (iv_linked _ _ _ _ _ _ H) Ha) as Hv.
    assert (exists d, group q = Some (Some d)) as [d Hg] by (destruct q; simplify_eq/=; eauto). unfold valid in Hv. rewrite Hg in Hv.
    apply andb_prop in Hv as [Hd%bool_decide_eq_true Hr]. destruct (proj1 (unswept_lists _ _ _ _ _ _ d H Hd) (Hs d Hd)) as (_ & Hl).
    rewrite Hl in Ha by (by rewrite elem_of_uplaces). by apply elem_of_nil in Ha.
  - destruct (iv_large _ _ _ _ _ _ H q a Ha) as (hd' & E' & _ & _ & _ & _ & Hc). simplify_eq. apply Hc. destruct q as [|d|d]; try done. exfalso.
    pose proof (linked_ok _ _ _ _ _ _ _ (iv_llinked _ _ _ _ _ _ H) Ha) as Hd%bool_decide_eq_true.
    destruct (proj1 (unswept_lists _ _ _ _ _ _ d H Hd) (Hs d Hd)) as (Hl & _). rewrite Hl in Ha. by apply elem_of_nil in Ha.
Qed.
End cycle.
End PoolHeapCycle.
