(* ===== verification/PoolHeapMove.v ===== *)
(** * Whole lists change hands: the end of a cycle, the end of a domain *)

From S2P Require Import Prelude Memory PoolHeap PoolHeapInv PoolHeapSweep PoolHeapAlloc PoolHeapLarge PoolHeapCycle.
From stdpp Require Import list functions gmap.
#[local] Open Scope Z_scope.
Import PoolHeap PoolHeapInv PoolHeapSweep PoolHeapAlloc PoolHeapLarge PoolHeapCycle.
#[local] Notation eqm := Prelude.eqm.

Module PoolHeapMove.
Section move.
Context `{Laws : OsLaws}.

(** ** The same pools and blocks in other lists *)

Definition pool_in (ls : plist -> list Z) (a i : Z) : Prop := exists q, q <> freelist /\ a ∈ ls q /\ class_of q = i.
Definition same_pools (ls ls' : plist -> list Z) : Prop := forall a i, pool_in ls a i <-> pool_in ls' a i.
Definition same_larges (lls lls' : llist -> list Z) : Prop := forall a, (exists q, a ∈ lls q) <-> exists q, a ∈ lls' q.
Lemma live_in_same ls ls' lls lls' m p hd : same_pools ls ls' -> same_larges lls lls' -> live_in ls lls m p hd <-> live_in ls' lls' m p hd.
Proof.
  intros Hp Hl. assert (forall ls lls, live_in ls lls m p hd <->
    (exists a i, pool_in ls a i /\ p ∈ slots a i /\ m !! p = Some hd /\ hd <> 0) \/ (exists a, (exists q, a ∈ lls q) /\ p = a + LARGE_ALLOC_HEADER_SZ /\ m !! p = Some hd)) as E.
  { intros ls0 lls0. unfold live_in, pool_in. split.
    - intros [(q & a & Hx)|(q & a & Hx)]; [left; exists a, (class_of q); naive_solver|right; exists a; naive_solver].
    - intros [(a & i & (q & ? & ? & <-) & ?)|(a & (q & ?) & ?)]; [left; exists q, a; naive_solver|right; exists q, a; naive_solver]. }
  rewrite !E. split; (intros [(a & i & Hi & Hx)|(a & Ha & Hx)]; [left; exists a, i; split; [by apply Hp|done]|right; exists a; split; [by apply Hl|done]]).
Qed.
#[export] Instance same_pools_equiv : Equivalence same_pools.
Proof. split; unfold same_pools; [done|intros l k H a i; by rewrite H|intros l k j H1 H2 a i; by rewrite H1]. Qed.
#[export] Instance same_larges_equiv : Equivalence same_larges.
Proof. split; unfold same_larges; [done|intros l k H a; by rewrite H|intros l k j H1 H2 a; by rewrite H1]. Qed.

Lemma moved_in q dst a l ls : NoDup (ls q) -> (forall q' b, b ∈ ls q -> b ∈ ls q' -> q = q') -> ls q = a :: l ->
  forall b r, b ∈ moved q dst a l ls r <-> (b = a /\ r = dst) \/ (b <> a /\ b ∈ ls r).
Proof.
  intros Hnd Hdis E b r. rewrite E in Hnd. apply NoDup_cons in Hnd as [Hal _].
  assert (b ∈ (<[q := l]> ls) r <-> b <> a /\ b ∈ ls r) as Hin.
  { destruct (decide (q = r)) as [<-|Hqr]; [rewrite fn_lookup_insert, E, elem_of_cons|rewrite fn_lookup_insert_ne by done].
    - split; [intros Hb; split; [by intros ->|by right]|tauto].
    - split; [|tauto]. intros Hb. split; [|done]. intros ->. apply Hqr. apply (Hdis r a); [rewrite E; left|done]. }
  unfold moved. destruct (decide (dst = r)) as [<-|]; [rewrite fn_lookup_insert, elem_of_cons, Hin|rewrite fn_lookup_insert_ne, Hin by done]; naive_solver.
Qed.
Lemma same_pools_moved dirty x y st ls lls q dst a l : InvG dirty x y st ls lls -> ls q = a :: l -> q <> freelist -> dst <> freelist -> class_of dst = class_of q ->
  same_pools ls (moved q dst a l ls).
Proof.
  intros H E Hq Hd Hc. pose proof (iv_linked _ _ _ _ _ _ H) as Hl.
  pose proof (moved_in q dst a l ls (lk_nodup _ _ _ _ _ Hl q) (fun q' b Hb Hb' => lk_disj _ _ _ _ _ Hl q q' b Hb Hb') E) as Hin.
  intros b i. unfold pool_in. split.
  - intros (r & Hr & Hb & Hi). destruct (decide (b = a)) as [->|Hne]; [|exists r; rewrite Hin; auto].
    assert (r = q) as -> by (eapply (lk_disj _ _ _ _ _ Hl); [done|]; rewrite E; left). exists dst. rewrite Hin, Hc. auto.
  - intros (r & Hr & [[-> ->]|[_ Hb]]%Hin & Hi); [|by exists r]. exists q. rewrite E, <- Hc. split_and!; try done. left.
Qed.

(** What the moves leave alone. *)
Record same_mem (st st' : state) : Prop := {
  sm_mem : mem st' = mem st;
  sm_heaps : heaps st' = heaps st;
  sm_colors : colors st' = colors st;
  sm_system : system st' = system st;
  sm_finalised : finalised st' = finalised st;
  sm_stats : stats st' = stats st;
  sm_next : next_to_sweep st' = next_to_sweep st;
}.
Lemma same_mem_refl st : same_mem st st.
Proof. by split. Qed.
Lemma same_mem_trans s1 s2 s3 : same_mem s1 s2 -> same_mem s2 s3 -> same_mem s1 s3.
Proof. intros [] []. split; congruence. Qed.

(** [S] passes from the statistics of [g] to those of [g']. *)
Definition xmove {T} (g g' : option Z) (S : T -> Z) (x : option Z -> T -> Z) (k : option Z) (t : T) : Z :=
  x k t + (if decide (g = k) then S t else 0) - (if decide (g' = k) then S t else 0).

Section pools.
Context (dirty : bool) (src dst : plist) (o : option Z) (g g' : option Z) (lls : llist -> list Z).
Context (Hsrc : group src = Some g) (Hdst : group dst = Some g') (Hc : class_of dst = class_of src) (Hf : full dst = full src) (Hne : src <> dst)
  (Hu : dirty || unswept dst = false -> dirty || unswept src = false).

Lemma move_all_pools_loop_spec n x st ls c : Inv dirty x st ls lls -> valid (heaps st) src = true -> valid (heaps st) dst = true -> (length (ls src) < n)%nat ->
  exists st' ls', move_all_pools_loop n src dst o c st = Ret (c + Z.of_nat (length (ls src)), st') /\
    Inv dirty (xmove g g' (fun t => sum (pool_weight t (mem st) (class_of src)) (ls src)) x) st' ls' lls /\
    same_mem st st' /\ larges st' = larges st /\ lheads st' = lheads st /\ ls' src = [] /\ (forall q, q <> src -> q <> dst -> ls' q = ls q) /\ same_pools ls ls'.
Proof.
  revert x st ls c. induction n as [|n IH]; intros x st ls c H Hvs Hvd Hn; [lia|]. cbn [move_all_pools_loop]. cbv zeta.
  assert (src <> freelist /\ dst <> freelist) as [Hs Hd] by (split; intros ->; simpl in *; congruence).
  destruct (Inv_head _ _ _ _ _ src H Hvs) as [[Ez El]|(a & l & p & Ea & Hz & El & Ep & _)].
  - rewrite Ez, Z.eqb_refl. exists st, ls. rewrite El. simpl. rewrite Z.add_0_r. split_and!; try done.
    eapply Inv_x; [|exact H]. intros k t. unfold xmove. simpl. repeat destruct decide; lia.
  - rewrite Ea, (proj2 (Z.eqb_neq a 0)), (get_pool_Ret _ _ _ Ep), ret_bind by done.
    set (p' := set_next (heads (set_head src (next p) st) dst) (set_owner o p)).
    pose proof (Inv_move dirty x st ls lls src dst a l p p' H El Ep Hs Hd Hvd Hc Hf Hu eq_refl eq_refl eq_refl) as H1.
    set (st1 := set_head dst a _) in H1 |- *.
    assert (moved src dst a l ls src = l) as El1 by (unfold moved; rewrite fn_lookup_insert_ne, fn_lookup_insert by done; done).
    destruct (IH _ st1 _ (c + 1) H1 Hvs Hvd) as (st' & ls' & -> & HI & Hsm & Hlg & Hlh & Es & Eo & Hsp); [rewrite El1; rewrite El in Hn; simpl in Hn; lia|].
    exists st', ls'. rewrite El1 in *. rewrite El. split; [f_equal; f_equal; cbn [length]; lia|]. split.
    { eapply Inv_x; [|exact HI]. intros k t. unfold xmove, counted. rewrite Hsrc, Hdst. unfold share. cbn [sum]. change (mem st1) with (mem st).
      repeat destruct decide; simplify_eq; try done; lia. }
    split; [destruct Hsm; split; done|]. split_and!; try done.
    + intros q Hq1 Hq2. rewrite Eo by done. unfold moved. by rewrite !fn_lookup_insert_ne by done.
    + etransitivity; [|exact Hsp]. by eapply same_pools_moved.
Qed.
Lemma move_all_pools_spec x st ls : Inv dirty x st ls lls -> valid (heaps st) src = true -> valid (heaps st) dst = true ->
  exists st' ls', move_all_pools src dst o st = Ret (Z.of_nat (length (ls src)), st') /\
    Inv dirty (xmove g g' (fun t => sum (pool_weight t (mem st) (class_of src)) (ls src)) x) st' ls' lls /\
    same_mem st st' /\ larges st' = larges st /\ lheads st' = lheads st /\ ls' src = [] /\ (forall q, q <> src -> q <> dst -> ls' q = ls q) /\ same_pools ls ls'.
Proof.
  intros H Hs Hd. apply (move_all_pools_loop_spec (list_fuel st) x st ls 0); try done. unfold list_fuel.
  pose proof (linked_size next _ _ _ _ src (iv_linked _ _ _ _ _ _ H)). lia.
Qed.
End pools.

Lemma same_larges_moved (lls : llist -> list Z) q dst a l : NoDup (lls q) -> (forall q' b, b ∈ lls q -> b ∈ lls q' -> q = q') -> lls q = a :: l ->
  same_larges lls (<[dst := a :: (<[q := l]> lls) dst]> (<[q := l]> lls)).
Proof.
  intros Hnd Hdis E b. rewrite E in Hnd. apply NoDup_cons in Hnd as [Hal _].
  assert (forall r, b ∈ (<[q := l]> lls) r <-> b <> a /\ b ∈ lls r) as Hin.
  { intros r. destruct (decide (q = r)) as [<-|Hqr]; [rewrite fn_lookup_insert, E, elem_of_cons|rewrite fn_lookup_insert_ne by done].
    - split; [intros Hb; split; [by intros ->|by right]|tauto].
    - split; [|tauto]. intros Hb. split; [|done]. intros ->. apply Hqr. apply (Hdis r a); [rewrite E; left|done]. }
  split.
  - intros [r Hb]. destruct (decide (b = a)) as [->|]; [exists dst; rewrite fn_lookup_insert; left|]. exists r.
    destruct (decide (dst = r)) as [<-|]; [rewrite fn_lookup_insert; right|rewrite fn_lookup_insert_ne by done]; by apply Hin.
  - intros [r Hb]. destruct (decide (dst = r)) as [<-|].
    + rewrite fn_lookup_insert in Hb. apply elem_of_cons in Hb as [->|Hb]; [exists q; rewrite E; left|]. exists dst. by apply Hin.
    + rewrite fn_lookup_insert_ne in Hb by done. exists r. by apply Hin.
Qed.

Section larges.
Context (dirty : bool) (src dst : llist) (o : option (option Z)) (ls : plist -> list Z) (x : option Z -> stat -> Z).
Context (Hne : src <> dst) (Hu : dirty || lunswept dst = false -> dirty || lunswept src = false).
Lemma move_all_large_spec n y st lls c : InvG dirty x y st ls lls -> lvalid (heaps st) src = true -> lvalid (heaps st) dst = true -> (length (lls src) < n)%nat ->
  exists st' lls', move_all_large n src dst o c st = Ret (c + Z.of_nat (length (lls src)), st') /\
    InvG dirty x (xmove (lgroup src) (lgroup dst) (fun t => sum (lweight t (mem st) src) (lls src)) y) st' ls lls' /\
    same_mem st st' /\ heads st' = heads st /\ lls' src = [] /\ (forall q, q <> src -> q <> dst -> lls' q = lls q) /\ same_larges lls lls'.
Proof.
  revert y st lls c. induction n as [|n IH]; intros y st lls c H Hvs Hvd Hn; [lia|]. cbn [move_all_large]. cbv zeta.
  destruct (Inv_lhead _ _ _ _ _ _ src H Hvs) as [[Ez El]|(a & l & p & Ea & Hz & El & Ep)].
  - rewrite Ez, Z.eqb_refl. exists st, lls. rewrite El. simpl. rewrite Z.add_0_r. split_and!; try done.
    eapply Inv_xy; [| |exact H]; [done|]. intros k t. unfold xmove. simpl. repeat destruct decide; lia.
  - rewrite Ea, (proj2 (Z.eqb_neq a 0)), (get_large_Ret _ _ _ Ep), ret_bind by done.
    assert (a ∈ lls src) as Ha by (rewrite El; left). pose proof (iv_large _ _ _ _ _ _ H src a Ha) as (hd & Eh & Hh1 & Hh2 & Hr & Hm & Hcol).
    pose proof (iv_llinked _ _ _ _ _ _ H) as Hlk.
    destruct (Inv_lpop _ _ _ _ _ _ src a l p H El Ep) as [H1 Hnw].
    set (p' := mklarge (default (l_owner p) o) (lheads (set_lhead src (l_next p) st) dst)).
    apply (Inv_lpush _ _ _ _ _ _ dst a p') in H1; [|done|done|done|done|exists hd; split_and!; try done; try lia; auto].
    set (st1 := set_lhead dst a _) in H1 |- *. set (lls1 := <[dst := _]> _) in H1.
    assert (lls1 src = l) as El1 by (unfold lls1; rewrite fn_lookup_insert_ne, fn_lookup_insert by done; done).
    assert (same_larges lls lls1) as Hsl by (apply same_larges_moved; [apply Hlk|intros; by eapply (lk_disj _ _ _ _ _ Hlk)|done]).
    assert (forall q, q <> src -> q <> dst -> lls1 q = lls q) as Eq1 by (intros; unfold lls1; by rewrite !fn_lookup_insert_ne by done).
    clearbody lls1. destruct (IH _ st1 _ (c + 1) H1 Hvs Hvd) as (st' & lls' & -> & HI & Hsm & Hhd & Es & Eo & Hsp); [rewrite El1; rewrite El in Hn; simpl in Hn; lia|].
    exists st', lls'. rewrite El1 in *. rewrite El. split; [f_equal; f_equal; cbn [length]; lia|]. split.
    { eapply Inv_xy; [| |exact HI]; [done|]. intros k t. unfold xmove, lcounted. cbn [sum]. change (mem st1) with (mem st). change (mem (set_lhead src (l_next p) st)) with (mem st).
      unfold lweight. repeat destruct decide; lia. }
    split; [destruct Hsm; split; done|]. split_and!; try done.
    + intros q Hq1 Hq2. rewrite Eo, Eq1 by done. done.
    + by etransitivity.
Qed.
End larges.

(** ** A list becomes a list to sweep *)

Lemma Inv_transfer x st ls lls q r k : Inv true x st ls lls -> valid (heaps st) q = true -> valid (heaps st) r = true -> q <> r -> ls r = [] ->
  group q = Some k -> group r = Some k -> class_of r = class_of q -> full r = full q ->
  Inv true x (set_head q 0 (set_head r (heads st q) st)) (<[q := []]> (<[r := ls q]> ls)) lls /\ same_pools ls (<[q := []]> (<[r := ls q]> ls)).
Proof.
  intros H Hq Hr Hne Er Hgq Hgr Hc Hf. pose proof (linked_transfer next q r (iv_linked _ _ _ _ _ _ H) Hq Hr Hne Er) as Hl.
  set (ls' := <[q := []]> (<[r := ls q]> ls)) in *. assert (q <> freelist /\ r <> freelist) as [Hqf Hrf] by (split; intros ->; done).
  assert (ls' q = [] /\ ls' r = ls q /\ forall t, t <> q -> t <> r -> ls' t = ls t) as (Eq & Er' & Et).
  { unfold ls'. rewrite fn_lookup_insert, fn_lookup_insert_ne, fn_lookup_insert by done. split_and!; try done. intros t ??. by rewrite !fn_lookup_insert_ne by done. }
  assert (forall t b, b ∈ ls' t -> (t = r /\ b ∈ ls q) \/ (t <> q /\ t <> r /\ b ∈ ls t)) as Hin.
  { intros t b Hb. destruct (decide (t = q)) as [->|]; [rewrite Eq in Hb; by apply elem_of_nil in Hb|].
    destruct (decide (t = r)) as [->|]; [left; by rewrite Er' in Hb|right; rewrite Et in Hb by done; done]. }
  split.
  - assert (forall t k, total (weight t (mem st)) ls' (places k) = total (weight t (mem st)) ls (places k)) as Htot.
    { intros t k'. unfold ls'. rewrite (total_list (heaps st)), (total_list (heaps st)), fn_lookup_insert_ne, Er by done. rewrite Hgq, Hgr.
      destruct decide; [|lia]. assert (sum (weight t (mem st) r) (ls q) = sum (weight t (mem st) q) (ls q)) as -> by (apply sum_ext; intros; unfold weight; by rewrite Hc). simpl. lia. }
    destruct H. split; simpl; try done.
    + intros t b [[-> Hb]|(_ & _ & Hb)]%Hin; by eapply iv_region0.
    + intros b [[F _]|(_ & _ & Hb)]%Hin; [done|auto].
    + intros t b [[-> Hb]|(_ & _ & Hb)]%Hin Ht; [|by apply iv_pool0].
      destruct (iv_pool0 q b Hb Hqf) as (Hcl & p & fl & Ep & Hs & Hsl & Hfl). split; [by rewrite Hc|]. exists p, fl. rewrite Hc, Hf. done.
    + intros k' t Hk. rewrite Htot. auto.
  - intros b i. unfold pool_in. split.
    + intros (t & Ht & Hb & Hi). destruct (decide (t = q)) as [->|]; [exists r; rewrite Er', Hc; done|].
      destruct (decide (t = r)) as [->|]; [rewrite Er in Hb; by apply elem_of_nil in Hb|]. exists t. rewrite Et by done. done.
    + intros (t & Ht & [[-> Hb]|(_ & _ & Hb)]%Hin & Hi); [exists q; rewrite <- Hc; done|by exists t].
Qed.
Lemma Inv_ltransfer x st ls lls d : Inv true x st ls lls -> d ∈ heaps st -> lls (unswept_large d) = [] ->
  let lls' := <[swept_large d := []]> (<[unswept_large d := lls (swept_large d)]> lls) in
  Inv true x (set_lhead (swept_large d) 0 (set_lhead (unswept_large d) (lheads st (swept_large d)) st)) ls lls' /\ same_larges lls lls'.
Proof.
  intros H Hd Er lls'. assert (lvalid (heaps st) (swept_large d) = true /\ lvalid (heaps st) (unswept_large d) = true) as [Hv1 Hv2] by (split; by apply bool_decide_eq_true).
  pose proof (linked_transfer l_next (swept_large d) (unswept_large d) (iv_llinked _ _ _ _ _ _ H) Hv1 Hv2 ltac:(done) Er) as Hl. fold lls' in Hl.
  assert (forall q b, b ∈ lls' q -> exists q', b ∈ lls q') as Hin.
  { intros q b Hb. unfold lls' in Hb. destruct (decide (swept_large d = q)) as [<-|]; [rewrite fn_lookup_insert in Hb; by apply elem_of_nil in Hb|rewrite fn_lookup_insert_ne in Hb by done].
    destruct (decide (unswept_large d = q)) as [<-|]; [rewrite fn_lookup_insert in Hb; eauto|rewrite fn_lookup_insert_ne in Hb by done; eauto]. }
  split.
  - assert (forall t k, total (lweight t (mem st)) lls' (lplaces k) = total (lweight t (mem st)) lls (lplaces k)) as Htot.
    { intros t k'. unfold lls'. rewrite !total_llist, fn_lookup_insert_ne, Er by done. simpl. destruct decide; [|lia]. unfold lweight. lia. }
    destruct H. split; simpl; try done.
    + intros q b Hb. destruct (Hin q b Hb) as [q' Hq']. destruct (iv_large0 q' b Hq') as (hd & E1 & E2 & E3 & E4 & E5 & _). exists hd. split_and!; try done; lia.
    + intros k t Hk. rewrite Htot. auto.
  - intros b. split; [|intros [q Hb]; eauto]. intros [q Hb]. unfold lls'.
    destruct (decide (q = swept_large d)) as [->|]; [exists (unswept_large d); by rewrite fn_lookup_insert_ne, fn_lookup_insert|].
    destruct (decide (q = unswept_large d)) as [->|]; [rewrite Er in Hb; by apply elem_of_nil in Hb|]. exists q. by rewrite !fn_lookup_insert_ne.
Qed.

(** ** The end of a cycle *)

Definition drained (d : Z) (ls : plist -> list Z) : Prop := forall i, ls (avail_pools d i) = [] /\ ls (full_pools d i) = [].
Definition no_global (ls : plist -> list Z) : Prop := forall i, ls (global_avail_pools i) = [] /\ ls (global_full_pools i) = [].
Lemma out_of_range dirty x y st ls lls q : InvG dirty x y st ls lls -> q <> freelist -> in_range (class_of q) = false -> ls q = [].
Proof.
  intros H Hq Hr. apply (lk_none _ _ _ _ _ (iv_linked _ _ _ _ _ _ H)). unfold valid. rewrite Hr. destruct q; simpl; rewrite ?andb_false_r; done.
Qed.

Lemma cycle_classes d st ls lls : Inv true nothing st ls lls -> d ∈ heaps st -> swept_pools d ls ->
  exists st' ls', for_each sizeclasses (cycle_class d) st = Ret st' /\ Inv true nothing st' ls' lls /\ same_pools ls ls' /\ same_mem st st' /\
    larges st' = larges st /\ lheads st' = lheads st /\ drained d ls' /\ (forall q, group q <> Some (Some d) -> ls' q = ls q).
Proof.
  intros H Hd Hs.
  destruct (for_each_inv (fun done s => exists ls', Inv true nothing s ls' lls /\ same_pools ls ls' /\ same_mem st s /\ larges s = larges st /\ lheads s = lheads st /\
      (forall i, i ∈ done -> ls' (avail_pools d i) = [] /\ ls' (full_pools d i) = []) /\
      (forall i, in_range i = true -> i ∉ done -> ls' (unswept_avail_pools d i) = [] /\ ls' (unswept_full_pools d i) = []) /\
      (forall q, group q <> Some (Some d) -> ls' q = ls q)) sizeclasses (cycle_class d) st) as (s & -> & ls' & HI & Hsp & Hsm & Hlg & Hlh & Hdone & _ & Ho).
  - exists ls. split_and!; try done; [set_solver|]. intros i Hi _. split; apply Hs; by rewrite elem_of_uplaces.
  - intros done i rest s E (ls' & HI & Hsp & Hsm & Hlg & Hlh & Hdone & Hrest & Ho).
    assert (in_range i = true) as Hi by (apply elem_of_sizeclasses; rewrite E; set_solver).
    assert (i ∉ done) as Hnd. { intros Hin. pose proof (NoDup_seqZ 0 NUM_SIZECLASSES) as F. change (seqZ 0 NUM_SIZECLASSES) with sizeclasses in F. rewrite E in F. apply NoDup_app in F as (_ & F & _). eapply F; [done|left]. }
    destruct (Hrest i Hi Hnd) as [Ea Ef]. assert (d ∈ heaps s) as Hd' by (by rewrite (sm_heaps _ _ Hsm)).
    assert (forall q, group q = Some (Some d) -> class_of q = i -> valid (heaps s) q = true) as Hv by (intros q Hg Hc; unfold valid; rewrite Hg, Hc, Hi, bool_decide_true by done; done).
    unfold cycle_class. assert (heads s (unswept_avail_pools d i) = 0) as -> by (apply (linked_null _ _ _ _ _ _ (iv_linked _ _ _ _ _ _ HI)); [by apply Hv|done]).
    change (CAMLassert (0 =? 0)) with (Ret ()). rewrite ret_bind. cbv zeta.
    destruct (Inv_transfer nothing s ls' lls (avail_pools d i) (unswept_avail_pools d i) (Some d) HI (Hv (avail_pools d i) eq_refl eq_refl) (Hv (unswept_avail_pools d i) eq_refl eq_refl) ltac:(done) Ea eq_refl eq_refl eq_refl eq_refl) as [H1 Hp1].
    set (s1 := set_head (avail_pools d i) 0 _) in H1 |- *. set (ls1 := <[avail_pools d i := []]> _) in H1, Hp1.
    assert (ls1 (unswept_full_pools d i) = [] /\ ls1 (full_pools d i) = ls' (full_pools d i) /\ ls1 (avail_pools d i) = []) as (Ef1 & Eful1 & Eav1).
    { unfold ls1. rewrite !(fn_lookup_insert_ne _ (avail_pools d i)) by done. rewrite !fn_lookup_insert_ne by done. rewrite fn_lookup_insert. done. }
    assert (heads s1 (unswept_full_pools d i) = 0) as -> by (apply (linked_null _ _ _ _ _ _ (iv_linked _ _ _ _ _ _ H1)); [by apply Hv|done]).
    change (CAMLassert (0 =? 0)) with (Ret ()). rewrite ret_bind.
    destruct (Inv_transfer nothing s1 ls1 lls (full_pools d i) (unswept_full_pools d i) (Some d) H1 (Hv (full_pools d i) eq_refl eq_refl) (Hv (unswept_full_pools d i) eq_refl eq_refl) ltac:(done) Ef1 eq_refl eq_refl eq_refl eq_refl) as [H2 Hp2].
    eexists. split; [reflexivity|]. eexists. split; [exact H2|]. split; [by do 2 (etransitivity; [eassumption|])|]. split; [destruct Hsm; split; done|]. split_and!; try done.
    + intros j Hj. destruct (decide (j = i)) as [->|Hji].
      * rewrite fn_lookup_insert, !fn_lookup_insert_ne by done. done.
      * apply elem_of_app in Hj as [Hj|Hj]; [|by apply list_elem_of_singleton in Hj]. destruct (Hdone j Hj).
        unfold ls1. rewrite !fn_lookup_insert_ne by congruence. done.
    + intros j Hj Hjd. assert (j <> i /\ j ∉ done) as [Hji Hjn] by set_solver. destruct (Hrest j Hj Hjn). unfold ls1. rewrite !fn_lookup_insert_ne by congruence. done.
    + intros q Hq. unfold ls1. rewrite !fn_lookup_insert_ne by (intros <-; done). by apply Ho.
  - exists s, ls'. split_and!; try done. intros i. destruct (in_range i) eqn:Hi; [apply Hdone; by apply elem_of_sizeclasses|].
    split; by eapply (out_of_range _ _ _ _ _ _ _ HI).
Qed.

Lemma receive_classes d st ls lls : Inv true nothing st ls lls -> d ∈ heaps st -> drained d ls ->
  exists n st' ls' M, for_each sizeclasses (receive_class d) (0, st) = Ret (n, st') /\ Inv true (xmove None (Some d) M nothing) st' ls' lls /\ same_pools ls ls' /\ same_mem st st' /\
    larges st' = larges st /\ lheads st' = lheads st /\ drained d ls' /\ no_global ls' /\ (n = 0 -> forall t, M t = 0) /\
    (forall q, group q <> Some (Some d) -> group q <> Some None -> ls' q = ls q).
Proof.
  intros H Hd Hdr.
  destruct (for_each_inv (fun done (y : Z * state) => exists ls' M, Inv true (xmove None (Some d) M nothing) y.2 ls' lls /\ same_pools ls ls' /\ same_mem st y.2 /\ larges y.2 = larges st /\ lheads y.2 = lheads st /\
      drained d ls' /\ (forall i, i ∈ done -> ls' (global_avail_pools i) = [] /\ ls' (global_full_pools i) = []) /\ 0 <= y.1 /\ (y.1 = 0 -> forall t, M t = 0) /\
      (forall q, group q <> Some (Some d) -> group q <> Some None -> ls' q = ls q)) sizeclasses (receive_class d) (0, st))
    as ([n s] & E & ls' & M & HI & Hsp & Hsm & Hlg & Hlh & Hdr' & Hdone & Hn0 & Hn & Ho).
  - exists ls, (fun _ => 0). split_and!; try done; [|set_solver]. eapply Inv_x; [|exact H]. intros k t. unfold xmove. simpl. repeat destruct decide; lia.
  - intros done i rest [n s] E (ls' & M & HI & Hsp & Hsm & Hlg & Hlh & Hdr' & Hdone & Hn0 & Hn & Ho). cbn [fst snd] in *.
    assert (in_range i = true) as Hi by (apply elem_of_sizeclasses; rewrite E; set_solver). assert (d ∈ heaps s) as Hd' by (by rewrite (sm_heaps _ _ Hsm)).
    assert (forall s', heaps s' = heaps s -> forall q, (group q = Some (Some d) \/ group q = Some None) -> class_of q = i -> valid (heaps s') q = true) as Hv.
    { intros s' -> q Hg Hc. unfold valid. destruct Hg as [-> | ->]; rewrite Hc, Hi, ?bool_decide_true by done; done. }
    unfold receive_class.
    destruct (move_all_pools_spec true (global_avail_pools i) (unswept_avail_pools d i) (Some d) None (Some d) lls eq_refl eq_refl eq_refl eq_refl ltac:(done) ltac:(done) _ s ls' HI
      ltac:(apply Hv; auto) ltac:(apply Hv; auto)) as (s1 & ls1 & -> & H1 & Hm1 & Hlg1 & Hlh1 & Es1 & Eo1 & Hp1). rewrite ret_bind. cbv beta iota.
    destruct (move_all_pools_spec true (global_full_pools i) (unswept_full_pools d i) (Some d) None (Some d) lls eq_refl eq_refl eq_refl eq_refl ltac:(done) ltac:(done) _ s1 ls1 H1
      ltac:(apply Hv; [apply Hm1|auto|auto]) ltac:(apply Hv; [apply Hm1|auto|auto])) as (s2 & ls2 & -> & H2 & Hm2 & Hlg2 & Hlh2 & Es2 & Eo2 & Hp2). rewrite ret_bind. cbv beta iota.
    rewrite (sm_mem _ _ Hm1) in H2. cbn [class_of] in H2.
    set (S1 := fun t => sum (pool_weight t (mem s) i) (ls' (global_avail_pools i))) in H2. set (S2 := fun t => sum (pool_weight t (mem s) i) (ls1 (global_full_pools i))) in H2.
    eexists. split; [reflexivity|]. exists ls2, (fun t => M t + S1 t + S2 t). cbn [fst snd]. split_and!.
    + eapply Inv_x; [|exact H2]. intros k t. unfold xmove. repeat destruct decide; unfold S1, S2; lia.
    + by do 2 (etransitivity; [eassumption|]).
    + eapply same_mem_trans; [exact Hsm|]. by eapply same_mem_trans.
    + congruence.
    + congruence.
    + intros j. rewrite !Eo2, !Eo1 by done. apply Hdr'.
    + intros j Hj. destruct (decide (j = i)) as [->|Hji].
      * split; [|done]. rewrite Eo2 by done. done.
      * rewrite !Eo2, !Eo1 by congruence. apply Hdone. set_solver.
    + lia.
    + intros F t. assert (length (ls' (global_avail_pools i)) = 0%nat /\ length (ls1 (global_full_pools i)) = 0%nat) as [L1%length_zero_iff_nil L2%length_zero_iff_nil] by lia.
      unfold S1, S2. rewrite L1, L2, Hn by lia. done.
    + intros q Hq1 Hq2. rewrite Eo2, Eo1 by (intros ->; done). by apply Ho.
  - exists n, s, ls', M. cbn [fst snd] in *. split_and!; try done. intros i. destruct (in_range i) eqn:Hi; [apply Hdone; by apply elem_of_sizeclasses|].
    split; by eapply (out_of_range _ _ _ _ _ _ _ HI).
Qed.

Lemma total_empty {L} (w : L -> Z -> Z) ls P : (forall q, q ∈ P -> ls q = []) -> total w ls P = 0.
Proof. intros H. unfold total. apply sum_zero. intros q Hq. by rewrite H. Qed.
Lemma no_global_places ls q : no_global ls -> q ∈ places None -> ls q = [].
Proof. intros H [Hg Hr]%elem_of_places. destruct (H (class_of q)). destruct q; simplify_eq/=; done. Qed.
(** The statistics of the free list pass to [d]. *)
Lemma adopt_all_spec d st ls lls M N : InvG true (xmove None (Some d) M nothing) (xmove None (Some d) N lnothing) st ls lls -> no_global ls -> lls global_large = [] ->
  Inv true nothing (adopt_all_pool_stats_with_lock d st) ls lls.
Proof.
  intros H Hg Hl. assert (forall t, total (weight t (mem st)) ls (places None) = 0) as T1 by (intros; apply total_empty; intros; by apply no_global_places).
  assert (forall t, total (lweight t (mem st)) lls (lplaces None) = 0) as T2 by (intros; apply total_empty; intros q ->%list_elem_of_singleton; done).
  destruct H. split; simpl; try done.
  - intros k t Hk. destruct (decide (k = None)) as [->|Hkn]; [rewrite fn_lookup_insert, T1; by destruct t|]. rewrite fn_lookup_insert_ne by done.
    destruct (decide (k = Some d)) as [->|Hkd]; [rewrite fn_lookup_insert|rewrite fn_lookup_insert_ne by done].
    + etransitivity; [apply get_accum|]. etransitivity; [apply eqm_add; [by apply iv_stats0|by apply (iv_stats0 None)]|]. apply eqm_eq. rewrite T1.
      unfold xmove, nothing. repeat destruct decide; simplify_eq; lia.
    + etransitivity; [by apply iv_stats0|]. apply eqm_eq. unfold xmove, nothing. repeat destruct decide; simplify_eq; lia.
  - intros k t Hk. destruct (decide (k = None)) as [->|Hkn]; [rewrite fn_lookup_insert, T2; by destruct t|]. rewrite fn_lookup_insert_ne by done.
    destruct (decide (k = Some d)) as [->|Hkd]; [rewrite fn_lookup_insert|rewrite fn_lookup_insert_ne by done].
    + etransitivity; [apply lget_accum|]. etransitivity; [apply eqm_add; [by apply iv_lstats0|by apply (iv_lstats0 None)]|]. apply eqm_eq. rewrite T2.
      unfold xmove, lnothing. repeat destruct decide; simplify_eq; lia.
    + etransitivity; [by apply iv_lstats0|]. apply eqm_eq. unfold xmove, lnothing. repeat destruct decide; simplify_eq; lia.
Qed.

(** What [caml_cycle_heap] does to the heap of [d]. *)
Record cycled (d : Z) (st st' : state) (ls ls' : plist -> list Z) (lls lls' : llist -> list Z) : Prop := {
  cy_Inv : Inv true nothing st' ls' lls';
  cy_pools : same_pools ls ls';
  cy_larges : same_larges lls lls';
  cy_mem : mem st' = mem st;
  cy_heaps : heaps st' = heaps st;
  cy_colors : colors st' = colors st;
  cy_finalised : finalised st' = finalised st;
  cy_next : next_to_sweep st' = <[d := 0]> (next_to_sweep st);
  cy_drained : drained d ls' /\ lls' (swept_large d) = [];
  cy_global : no_global ls' /\ lls' global_large = [];
  cy_others : (forall q, group q <> Some (Some d) -> group q <> Some None -> ls' q = ls q) /\ (forall q, lgroup q <> Some d -> lgroup q <> None -> lls' q = lls q);
}.
Lemma cycle_heap_spec d st ls lls : Inv true nothing st ls lls -> d ∈ heaps st -> swept_pools d ls -> lls (unswept_large d) = [] ->
  exists st' ls' lls', caml_cycle_heap d st = Ret st' /\ cycled d st st' ls ls' lls lls'.
Proof.
  intros H Hd Hs Hl. unfold caml_cycle_heap. rewrite bool_decide_true by done. change (CAMLassert true) with (Ret ()). rewrite ret_bind.
  destruct (cycle_classes d st ls lls H Hd Hs) as (s1 & ls1 & -> & H1 & Hp1 & Hm1 & Hlg1 & Hlh1 & Hdr1 & Ho1). rewrite ret_bind.
  assert (d ∈ heaps s1) as Hd1 by (by rewrite (sm_heaps _ _ Hm1)).
  assert (lheads s1 (unswept_large d) = 0) as -> by (apply (linked_null _ _ _ _ _ _ (iv_llinked _ _ _ _ _ _ H1)); [by apply bool_decide_eq_true|done]).
  change (CAMLassert (0 =? 0)) with (Ret ()). rewrite ret_bind. cbv zeta.
  destruct (Inv_ltransfer nothing s1 ls1 lls d H1 Hd1 Hl) as [H2 Hsl2]. set (s2 := set_lhead (swept_large d) 0 _) in H2 |- *. set (lls2 := <[swept_large d := []]> _) in H2, Hsl2.
  assert (lls2 (swept_large d) = [] /\ (forall q, lgroup q <> Some d -> lls2 q = lls q)) as [Esl2 Eo2].
  { unfold lls2. rewrite fn_lookup_insert. split; [done|]. intros q Hq. by rewrite !fn_lookup_insert_ne by (intros <-; done). }
  clearbody lls2. destruct (receive_classes d s2 ls1 lls2 H2 Hd1 Hdr1) as (n & s3 & ls3 & M & -> & H3 & Hp3 & Hm3 & Hlg3 & Hlh3 & Hdr3 & Hng3 & HM & Ho3).
  rewrite ret_bind. cbv beta iota. assert (d ∈ heaps s3) as Hd3 by (by rewrite (sm_heaps _ _ Hm3)).
  destruct (move_all_large_spec true global_large (unswept_large d) (Some (Some d)) ls3 _ ltac:(done) ltac:(done) (llist_fuel s3) lnothing s3 lls2 0 H3 eq_refl) as
    (s4 & lls4 & -> & H4 & Hm4 & Hh4 & Es4 & Eo4 & Hsl4); [by apply bool_decide_eq_true|unfold llist_fuel; pose proof (linked_size l_next _ _ _ _ global_large (iv_llinked _ _ _ _ _ _ H3)); lia|].
  rewrite ret_bind. cbv beta iota. set (N := fun t => sum (lweight t (mem s3) global_large) (lls2 global_large)) in H4. cbn [lgroup] in H4.
  set (b := negb (n =? 0) || negb (0 + Z.of_nat (length (lls2 global_large)) =? 0)).
  assert (Inv true nothing (if b then adopt_all_pool_stats_with_lock d s4 else s4) ls3 lls4) as H5.
  { destruct b eqn:Eb; [by eapply adopt_all_spec|]. unfold b in Eb. apply orb_false_iff in Eb as [En%negb_false_iff%Z.eqb_eq El%negb_false_iff%Z.eqb_eq].
    assert (lls2 global_large = []) as El' by (apply length_zero_iff_nil; lia). eapply Inv_xy; [| |exact H4].
    - intros k t. unfold xmove. rewrite HM by done. repeat destruct decide; lia.
    - intros k t. unfold xmove, N. rewrite El'. simpl. repeat destruct decide; lia. }
  pose proof (same_mem_trans _ _ _ Hm3 Hm4) as Hm. destruct Hm1, Hm.
  eexists _, ls3, lls4. split; [reflexivity|]. split.
  - assert (Inv true nothing (set_next_to_sweep d 0 (if b then adopt_all_pool_stats_with_lock d s4 else s4)) ls3 lls4) as H6 by (destruct H5; split; done). exact H6.
  - by transitivity ls1.
  - by transitivity lls2.
  - destruct b; simpl; rewrite sm_mem1; simpl; done.
  - destruct b; simpl; rewrite sm_heaps1; simpl; done.
  - destruct b; simpl; rewrite sm_colors1; simpl; done.
  - destruct b; simpl; rewrite sm_finalised1; simpl; done.
  - destruct b; simpl; rewrite sm_next1; simpl; by rewrite sm_next0.
  - split; [done|]. rewrite Eo4 by done. done.
  - done.
  - split; [intros q Hq1 Hq2; rewrite Ho3, Ho1 by done; done|]. intros q Hq1 Hq2. rewrite Eo4, Eo2 by (done || (intros ->; done)). done.
Qed.

Definition rotated (c : global_heap_state) : global_heap_state := mkcolors (GARBAGE c) (MARKED c) (UNMARKED c).
Lemma rotate_Inv st ls lls : Inv false nothing st ls lls -> Inv true nothing (caml_cycle_heap_from_stw_single st) ls lls.
Proof.
  intros H. destruct H. split; simpl; try done.
  - intros q a Ha Hq. destruct (iv_pool0 q a Ha Hq) as (Hc & p & fl & Ep & Hs & [H1 H2 H3 H4] & Hf). split; [done|]. exists p, fl. split_and!; try done.
    split; try done. intros x hd Hx E Hz. destruct (H4 x hd Hx E Hz). done.
  - intros q a Ha. destruct (iv_large0 q a Ha) as (hd & E1 & E2 & E3 & E4 & E5 & _). exists hd. split_and!; try done; lia.
  - destruct iv_colors0 as [? ? ? (? & ? & ?)]. split; simpl; try done.
Qed.
(** Nothing is dirty when only lists to sweep hold pools. *)
Lemma Inv_clean st ls lls : Inv true nothing st ls lls -> (forall d, d ∈ heaps st -> drained d ls /\ lls (swept_large d) = []) -> no_global ls -> lls global_large = [] ->
  Inv false nothing st ls lls.
Proof.
  intros H Hd Hg Hl. pose proof (iv_linked _ _ _ _ _ _ H) as Hlk. pose proof (iv_llinked _ _ _ _ _ _ H) as Hllk.
  assert (forall q a, a ∈ ls q -> q <> freelist -> unswept q = true) as Hu.
  { intros q a Ha Hq. pose proof (linked_ok _ _ _ _ _ _ _ Hlk Ha) as Hv. unfold valid in Hv.
    destruct q as [|i|i|d i|d i|d i|d i]; try done; cbn [group class_of] in Hv; exfalso;
      [destruct (Hg i) as [F1 F2]|destruct (Hg i) as [F1 F2]
      |apply andb_prop in Hv as [Hv%bool_decide_eq_true _]; destruct (Hd d Hv) as [F _]; destruct (F i) as [F1 F2]
      |apply andb_prop in Hv as [Hv%bool_decide_eq_true _]; destruct (Hd d Hv) as [F _]; destruct (F i) as [F1 F2]];
      rewrite ?F1, ?F2 in Ha; by apply elem_of_nil in Ha. }
  assert (forall q a, a ∈ lls q -> lunswept q = true) as Hlu.
  { intros q a Ha. pose proof (linked_ok _ _ _ _ _ _ _ Hllk Ha) as Hv. destruct q as [|d|d]; [rewrite Hl in Ha; by apply elem_of_nil in Ha| |done].
    apply bool_decide_eq_true in Hv. destruct (Hd d Hv) as [_ F]. rewrite F in Ha. by apply elem_of_nil in Ha. }
  destruct H. split; try done.
  - intros q a Ha Hq. destruct (iv_pool0 q a Ha Hq) as (Hc & p & fl & Ep & Hs & [H1 H2 H3 H4] & Hf). split; [done|]. exists p, fl. split_and!; try done.
    split; try done. intros x hd Hx E Hz. destruct (H4 x hd Hx E Hz). split; [done|]. by rewrite (Hu q a Ha Hq).
  - intros q a Ha. destruct (iv_large0 q a Ha) as (hd & E1 & E2 & E3 & E4 & E5 & _). exists hd. split_and!; try done; try lia. by rewrite (Hlu q a Ha).
Qed.
Lemma cycle_all_spec ds st : heap_ok st -> ds <> [] -> NoDup ds -> (forall d, d ∈ ds <-> d ∈ heaps st) -> (forall d, d ∈ heaps st -> no_unswept d st) ->
  exists st', cycle_all_domains ds st = Ret st' /\ heap_ok st' /\ (forall p hd, live st' p hd <-> live st p hd) /\ mem st' = mem st /\
    colors st' = rotated (colors st) /\ finalised st' = finalised st /\ heaps st' = heaps st.
Proof.
  intros (ls & lls & H & Hn) Hne Hnd Hds Hsw. unfold cycle_all_domains. set (s0 := caml_cycle_heap_from_stw_single st). pose proof (rotate_Inv st ls lls H) as H0. fold s0 in H0.
  destruct (for_each_inv (fun done s => exists ls' lls', Inv true nothing s ls' lls' /\ same_pools ls ls' /\ same_larges lls lls' /\
      mem s = mem st /\ heaps s = heaps st /\ colors s = rotated (colors st) /\ finalised s = finalised st /\
      (forall d, d ∈ done -> next_to_sweep s d = 0 /\ drained d ls' /\ lls' (swept_large d) = []) /\
      (done <> [] -> no_global ls' /\ lls' global_large = []) /\
      (forall q d, group q = Some (Some d) -> d ∉ done -> ls' q = ls q) /\ (forall q d, lgroup q = Some d -> d ∉ done -> lls' q = lls q))
    ds caml_cycle_heap s0) as (s & -> & ls' & lls' & HI & Hp & Hl & Em & Eh & Ec & Ef & Hdone & Hg & _).
  - exists ls, lls. split_and!; try done. set_solver.
  - intros done d rest s E (ls' & lls' & HI & Hp & Hl & Em & Eh & Ec & Ef & Hdone & Hg & Ho & Hlo).
    assert (d ∈ heaps st) as Hd by (apply Hds; rewrite E; set_solver).
    assert (d ∉ done) as Hdn. { intros Hin. rewrite E in Hnd. apply NoDup_app in Hnd as (_ & F & _). eapply F; [done|left]. }
    destruct (proj1 (unswept_lists _ _ _ _ _ _ d H Hd) (Hsw d Hd)) as (Hsl & Hsp).
    destruct (cycle_heap_spec d s ls' lls' HI) as (s' & ls'' & lls'' & -> & Hcy); [by rewrite Eh| |by rewrite (Hlo _ d)|].
    { intros q Hq. rewrite (Ho q d); [by apply Hsp| |done]. by apply elem_of_uplaces in Hq as (_ & ? & _). }
    destruct Hcy as [C1 C2 C3 C4 C5 C6 C7 C8 [C9 C9'] C10 [C11 C12]]. exists s'. split; [done|]. exists ls'', lls''. split_and!; try done; try congruence.
    + by transitivity ls'.
    + by transitivity lls'.
    + intros e [He| ->%list_elem_of_singleton]%elem_of_app; [|rewrite C8, fn_lookup_insert; done]. assert (e <> d) by (by intros ->).
      rewrite C8, fn_lookup_insert_ne by done. destruct (Hdone e He) as (E1 & E2 & E3). split; [done|]. split; [intros i; rewrite !C11 by (simpl; congruence); apply E2|].
      rewrite C12 by (simpl; congruence). done.
    + intros q e Hq He. assert (e <> d /\ e ∉ done) as [? ?] by set_solver. rewrite C11 by congruence. by eapply Ho.
    + intros q e Hq He. assert (e <> d /\ e ∉ done) as [? ?] by set_solver. rewrite C12 by congruence. by eapply Hlo.
  - exists s. split; [done|]. assert (Inv false nothing s ls' lls') as HI'.
    { apply Inv_clean; [done| |by apply Hg|by apply Hg]. intros d Hd. rewrite Eh in Hd. apply Hds in Hd. by destruct (Hdone d Hd) as (_ & ? & ?). }
    split_and!; try done.
    + exists ls', lls'. split; [done|]. intros d Hd. rewrite Eh in Hd. apply Hds in Hd. destruct (Hdone d Hd) as (-> & _). split; [done|]. intros; lia.
    + intros p hd. rewrite (live_lists _ _ _ _ _ _ _ HI'), (live_lists _ _ _ _ _ _ _ H), Em. symmetry. by apply live_in_same.
Qed.

(** ** The end and the beginning of a local heap *)

Lemma teardown_classes d st ls lls : Inv false nothing st ls lls -> d ∈ heaps st -> swept_pools d ls ->
  exists st' ls' M, for_each sizeclasses (teardown_class d) st = Ret st' /\ Inv false (xmove (Some d) None M nothing) st' ls' lls /\ same_pools ls ls' /\ same_mem st st' /\
    larges st' = larges st /\ lheads st' = lheads st /\ drained d ls' /\ (forall q, group q <> Some (Some d) -> group q <> Some None -> ls' q = ls q) /\ swept_pools d ls'.
Proof.
  intros H Hd Hs.
  destruct (for_each_inv (fun done s => exists ls' M, Inv false (xmove (Some d) None M nothing) s ls' lls /\ same_pools ls ls' /\ same_mem st s /\ larges s = larges st /\ lheads s = lheads st /\
      (forall i, i ∈ done -> ls' (avail_pools d i) = [] /\ ls' (full_pools d i) = []) /\ swept_pools d ls' /\
      (forall q, group q <> Some (Some d) -> group q <> Some None -> ls' q = ls q)) sizeclasses (teardown_class d) st)
    as (s & E & ls' & M & HI & Hsp & Hsm & Hlg & Hlh & Hdone & Hs' & Ho).
  - exists ls, (fun _ => 0). split_and!; try done; [|set_solver]. eapply Inv_x; [|exact H]. intros k t. unfold xmove. simpl. repeat destruct decide; lia.
  - intros done i rest s E (ls' & M & HI & Hsp & Hsm & Hlg & Hlh & Hdone & Hs' & Ho).
    assert (in_range i = true) as Hi by (apply elem_of_sizeclasses; rewrite E; set_solver). assert (d ∈ heaps s) as Hd' by (by rewrite (sm_heaps _ _ Hsm)).
    assert (forall s', heaps s' = heaps s -> forall q, (group q = Some (Some d) \/ group q = Some None) -> class_of q = i -> valid (heaps s') q = true) as Hv.
    { intros s' -> q Hg Hc. unfold valid. destruct Hg as [-> | ->]; rewrite Hc, Hi, ?bool_decide_true by done; done. }
    unfold teardown_class.
    destruct (move_all_pools_spec false (avail_pools d i) (global_avail_pools i) None (Some d) None lls eq_refl eq_refl eq_refl eq_refl ltac:(done) ltac:(done) _ s ls' HI
      ltac:(apply Hv; auto) ltac:(apply Hv; auto)) as (s1 & ls1 & -> & H1 & Hm1 & Hlg1 & Hlh1 & Es1 & Eo1 & Hp1). rewrite ret_bind. cbv beta iota.
    destruct (move_all_pools_spec false (full_pools d i) (global_full_pools i) None (Some d) None lls eq_refl eq_refl eq_refl eq_refl ltac:(done) ltac:(done) _ s1 ls1 H1
      ltac:(apply Hv; [apply Hm1|auto|auto]) ltac:(apply Hv; [apply Hm1|auto|auto])) as (s2 & ls2 & -> & H2 & Hm2 & Hlg2 & Hlh2 & Es2 & Eo2 & Hp2). rewrite ret_bind. cbv beta iota.
    assert (forall q, unswept q = true -> ls2 q = ls' q) as Eu by (intros q Hq; rewrite Eo2, Eo1 by (intros ->; done); done).
    assert (forall q, q ∈ uplaces d -> class_of q = i -> heads s2 q = 0) as Hz.
    { intros q Hq Hqi. pose proof (proj1 (elem_of_uplaces q d) Hq) as (Hu & Hg & _). apply (linked_null _ _ _ _ _ _ (iv_linked _ _ _ _ _ _ H2)).
      - apply Hv; [rewrite (sm_heaps _ _ Hm2); apply Hm1|auto|done].
      - rewrite Eu by done. by apply Hs'. }
    rewrite (Hz (unswept_avail_pools d i)), (Hz (unswept_full_pools d i)) by (done || by rewrite elem_of_uplaces).
    change (CAMLassert (0 =? 0)) with (Ret ()). rewrite !ret_bind.
    rewrite (sm_mem _ _ Hm1) in H2. cbn [class_of] in H2.
    set (S1 := fun t => sum (pool_weight t (mem s) i) (ls' (avail_pools d i))) in H2. set (S2 := fun t => sum (pool_weight t (mem s) i) (ls1 (full_pools d i))) in H2.
    eexists. split; [reflexivity|]. exists ls2, (fun t => M t + S1 t + S2 t). split_and!.
    + eapply Inv_x; [|exact H2]. intros k t. unfold xmove. repeat destruct decide; unfold S1, S2; lia.
    + by do 2 (etransitivity; [eassumption|]).
    + eapply same_mem_trans; [exact Hsm|]. by eapply same_mem_trans.
    + congruence.
    + congruence.
    + intros j Hj. destruct (decide (j = i)) as [->|Hji].
      * split; [|done]. rewrite Eo2 by done. done.
      * rewrite !Eo2, !Eo1 by congruence. apply Hdone. set_solver.
    + intros q Hq. pose proof (proj1 (elem_of_uplaces q d) Hq) as (Hu & _). rewrite Eu by done. by apply Hs'.
    + intros q Hq1 Hq2. rewrite Eo2, Eo1 by (intros ->; done). by apply Ho.
  - exists s, ls', M. split_and!; try done. intros i. destruct (in_range i) eqn:Hi; [apply Hdone; by apply elem_of_sizeclasses|].
    split; by eapply (out_of_range _ _ _ _ _ _ _ HI).
Qed.
Lemma local_empty d ls q : drained d ls -> swept_pools d ls -> q ∈ places (Some d) -> ls q = [].
Proof.
  intros Hd Hs [Hg Hr]%elem_of_places. destruct (Hd (class_of q)). destruct (unswept q) eqn:Hu; [apply Hs; by rewrite elem_of_uplaces|].
  destruct q; simplify_eq/=; done.
Qed.
Lemma valid_remove H d q : group q <> Some (Some d) -> valid (H ∖ {[d]}) q = valid H q.
Proof.
  intros Hg. unfold valid. destruct (group q) as [[e|]|]; try done. f_equal. apply bool_decide_ext. set_unfold. naive_solver.
Qed.
Lemma teardown_spec d st : heap_ok st -> d ∈ heaps st -> no_unswept d st ->
  exists st', caml_teardown_shared_heap d st = Ret st' /\ heap_ok st' /\ (forall p hd, live st' p hd <-> live st p hd) /\ mem st' = mem st /\
    colors st' = colors st /\ finalised st' = finalised st /\ heaps st' = heaps st ∖ {[d]}.
Proof.
  intros (ls & lls & H & Hn) Hd Hsw. destruct (proj1 (unswept_lists _ _ _ _ _ _ d H Hd) Hsw) as (Hl & Hs).
  unfold caml_teardown_shared_heap. rewrite bool_decide_true by done. change (CAMLassert true) with (Ret ()). rewrite ret_bind.
  destruct (teardown_classes d st ls lls H Hd Hs) as (s1 & ls1 & M & -> & H1 & Hp1 & Hm1 & Hlg1 & Hlh1 & Hdr1 & Ho1 & Hs1). rewrite ret_bind.
  assert (d ∈ heaps s1) as Hd1 by (by rewrite (sm_heaps _ _ Hm1)).
  assert (lheads s1 (unswept_large d) = 0) as -> by (apply (linked_null _ _ _ _ _ _ (iv_llinked _ _ _ _ _ _ H1)); [by apply bool_decide_eq_true|done]).
  change (CAMLassert (0 =? 0)) with (Ret ()). rewrite ret_bind.
  destruct (move_all_large_spec false (swept_large d) global_large None ls1 _ ltac:(done) ltac:(done) (llist_fuel s1) lnothing s1 lls 0 H1) as
    (s2 & lls2 & -> & H2 & Hm2 & Hh2 & Es2 & Eo2 & Hsl2); [by apply bool_decide_eq_true|done|unfold llist_fuel; pose proof (linked_size l_next _ _ _ _ (swept_large d) (iv_llinked _ _ _ _ _ _ H1)); lia|].
  rewrite ret_bind. cbv beta iota zeta. pose proof (same_mem_trans _ _ _ Hm1 Hm2) as Hm. eexists. split; [reflexivity|].
  assert (forall q, group q = Some (Some d) -> ls1 q = []) as Hle.
  { intros q Hq. destruct (in_range (class_of q)) eqn:Hr; [apply (local_empty d); [done|done|by apply elem_of_places]|]. eapply (out_of_range _ _ _ _ _ _ _ H2); [by intros ->|done]. }
  assert (forall q, lgroup q = Some d -> lls2 q = []) as Hlle by (intros q Hq; destruct q as [|e|e]; simplify_eq/=; [done|rewrite Eo2 by done; done]).
  set (st' := set_system _ _). assert (Inv false nothing st' ls1 lls2) as HI.
  { assert (forall t, total (weight t (mem s2)) ls1 (places (Some d)) = 0) as T1 by (intros; apply total_empty; intros; by apply (local_empty d)).
    assert (forall t, total (lweight t (mem s2)) lls2 (lplaces (Some d)) = 0) as T2 by (intros; apply total_empty; intros q Hq%elem_of_lplaces; by apply Hlle).
    cbn [lgroup] in H2. destruct H2 as [[K1 K2 K3 K4] [J1 J2 J3 J4] R1 R2 R3 R4 R5 R6 S1 S2]. split; simpl; try done.
    - split; try done; intros q Hq; (destruct (decide (group q = Some (Some d))) as [Hg|Hg]; [|rewrite valid_remove in Hq by done; auto]); [|by apply Hle].
      exfalso. unfold valid in Hq. rewrite Hg in Hq. apply andb_prop in Hq as [Hq%bool_decide_eq_true _]. set_solver.
    - split; try done; intros q Hq; (destruct (decide (lgroup q = Some d)) as [Hg|Hg]; [|]).
      + exfalso. unfold lvalid in Hq. rewrite Hg in Hq. apply bool_decide_eq_true in Hq. set_solver.
      + apply J1. unfold lvalid in *. destruct (lgroup q); [|done]. apply bool_decide_eq_true in Hq. apply bool_decide_eq_true. set_solver.
      + by apply Hlle.
      + apply J2. unfold lvalid in *. destruct (lgroup q) as [e|]; [|done]. apply bool_decide_eq_false in Hq. apply bool_decide_eq_false. set_unfold. naive_solver.
    - rewrite stat_free_law. done.
    - intros q a Ha. destruct (R2 q a Ha) as [F1 F2]. split; simpl; [by rewrite stat_free_law|done].
    - intros q a Ha. rewrite stat_free_law. auto.
    - intros k t Hk. destruct (decide (k = Some d)) as [->|Hkd]; [exfalso; specialize (Hk d eq_refl); set_solver|]. rewrite fn_lookup_insert_ne by done.
      assert (forall e, k = Some e -> e ∈ heaps s2) as Hk' by (intros e He; specialize (Hk e He); set_solver).
      destruct (decide (k = None)) as [->|Hkn]; [rewrite fn_lookup_insert|rewrite fn_lookup_insert_ne by done].
      + etransitivity; [apply get_accum|]. etransitivity; [apply eqm_add; [by apply S1|apply (S1 (Some d)); intros e [= <-]; by rewrite (sm_heaps _ _ Hm2)]|].
        apply eqm_eq. rewrite T1. unfold xmove, nothing. repeat destruct decide; simplify_eq; lia.
      + etransitivity; [by apply S1|]. apply eqm_eq. unfold xmove, nothing. repeat destruct decide; simplify_eq; lia.
    - intros k t Hk. destruct (decide (k = Some d)) as [->|Hkd]; [exfalso; specialize (Hk d eq_refl); set_solver|]. rewrite fn_lookup_insert_ne by done.
      assert (forall e, k = Some e -> e ∈ heaps s2) as Hk' by (intros e He; specialize (Hk e He); set_solver).
      destruct (decide (k = None)) as [->|Hkn]; [rewrite fn_lookup_insert|rewrite fn_lookup_insert_ne by done].
      + etransitivity; [apply lget_accum|]. etransitivity; [apply eqm_add; [by apply S2|apply (S2 (Some d)); intros e [= <-]; by rewrite (sm_heaps _ _ Hm2)]|].
        apply eqm_eq. rewrite T2. unfold xmove, lnothing. repeat destruct decide; simplify_eq; lia.
      + etransitivity; [by apply S2|]. apply eqm_eq. unfold xmove, lnothing. repeat destruct decide; simplify_eq; lia. }
  destruct Hm as [Em Eh Ec Esy Ef Est En]. split_and!; simpl; try done; [| |by rewrite Eh].
  - exists ls1, lls2. split; [exact HI|]. intros e He. simpl in He |- *. rewrite En. rewrite Eh in He. assert (e ∈ heaps st /\ e <> d) as [He' Hed] by set_solver.
    destruct (Hn e He') as [? Hx]. split; [done|]. intros i Hi. rewrite !Ho1 by (simpl; congruence). by apply Hx.
  - intros p hd. rewrite (live_lists _ _ _ _ _ _ _ HI), (live_lists _ _ _ _ _ _ _ H). simpl. rewrite Em. symmetry. by apply live_in_same.
Qed.

Lemma init_spec d st : heap_ok st -> d ∉ heaps st ->
  let '(b, st') := caml_init_shared_heap d st in
  heap_ok st' /\ (forall p hd, live st' p hd <-> live st p hd) /\ mem st' = mem st /\ colors st' = colors st /\ finalised st' = finalised st /\
  heaps st' = (if b : bool then {[d]} ∪ heaps st else heaps st) /\ (b = true -> stats st' (Some d) = no_stats /\ next_to_sweep st' d = 0).
Proof.
  intros (ls & lls & H & Hn) Hd. unfold caml_init_shared_heap. destruct (caml_stat_alloc_noexc sizeof_heap_state (system st)) as [b w] eqn:E.
  assert (regions w = regions (system st)) as Er by (pose proof (stat_alloc_law sizeof_heap_state (system st)) as F; by rewrite E in F). destruct b.
  - set (st' := set_stats _ _ _).
    assert (forall q, group q = Some (Some d) -> ls q = []) as Hle.
    { intros q Hq. apply (lk_none _ _ _ _ _ (iv_linked _ _ _ _ _ _ H)). unfold valid. rewrite Hq, bool_decide_false by done. done. }
    assert (forall q, lgroup q = Some d -> lls q = []) as Hlle.
    { intros q Hq. apply (lk_none _ _ _ _ _ (iv_llinked _ _ _ _ _ _ H)). unfold lvalid. by rewrite Hq, bool_decide_false by done. }
    assert (Inv false nothing st' ls lls) as HI.
    { destruct H as [[K1 K2 K3 K4] [J1 J2 J3 J4] R1 R2 R3 R4 R5 R6 S1 S2]. split; simpl; try done.
      - split; try done; intros q Hq; destruct (decide (group q = Some (Some d))) as [Hg|Hg].
        + rewrite (Hle q Hg). simpl. unfold valid in Hq. rewrite Hg in Hq. apply andb_prop in Hq as [_ Hr]. unfold in_range in Hr. apply andb_prop in Hr as [Hr1 Hr2].
          unfold clear_heads. destruct q; simplify_eq/=; by rewrite Z.eqb_refl, Hr1, Hr2.
        + assert (clear_heads d (heads st) q = heads st q) as ->.
          { unfold clear_heads. destruct q as [|i|i|e i|e i|e i|e i]; try done; destruct (Z.eqb_spec e d) as [->|]; done. }
          apply K1. rewrite <- Hq. unfold valid. destruct (group q) as [[e|]|]; try done. f_equal. apply bool_decide_ext. set_unfold. naive_solver.
        + by apply Hle.
        + apply K2. rewrite <- Hq. unfold valid. destruct (group q) as [[e|]|]; try done. f_equal. apply bool_decide_ext. set_unfold. naive_solver.
      - split; try done; intros q Hq; destruct (decide (lgroup q = Some d)) as [Hg|Hg].
        + rewrite (Hlle q Hg). simpl. destruct q as [|e|e]; simplify_eq/=; [rewrite fn_lookup_insert_ne by done|]; by rewrite fn_lookup_insert.
        + rewrite !fn_lookup_insert_ne by (intros <-; done). apply J1. rewrite <- Hq. unfold lvalid. destruct (lgroup q) as [e|]; [|done]. apply bool_decide_ext. set_unfold. naive_solver.
        + by apply Hlle.
        + apply J2. rewrite <- Hq. unfold lvalid. destruct (lgroup q) as [e|]; [|done]. apply bool_decide_ext. set_unfold. naive_solver.
      - by rewrite Er.
      - intros q a Ha. destruct (R2 q a Ha) as [F1 F2]. split; simpl; [by rewrite Er|done].
      - intros q a Ha. rewrite Er. auto.
      - intros k t Hk. destruct (decide (k = Some d)) as [->|Hkd].
        + rewrite fn_lookup_insert, total_empty; [by destruct t|]. intros q [Hg _]%elem_of_places. by apply Hle.
        + rewrite fn_lookup_insert_ne by done. apply S1. intros e ->. specialize (Hk e eq_refl). set_solver.
      - intros k t Hk. destruct (decide (k = Some d)) as [->|Hkd].
        + rewrite fn_lookup_insert, total_empty; [by destruct t|]. intros q Hg%elem_of_lplaces. by apply Hlle.
        + rewrite fn_lookup_insert_ne by done. apply S2. intros e ->. specialize (Hk e eq_refl). set_solver. }
    split_and!; try done.
    + exists ls, lls. split; [exact HI|]. intros e He. simpl in He |- *. destruct (decide (d = e)) as [<-|].
      * rewrite fn_lookup_insert. split; [done|]. intros; lia.
      * rewrite fn_lookup_insert_ne by done. apply Hn. set_solver.
    + intros p hd. rewrite (live_lists _ _ _ _ _ _ _ HI), (live_lists _ _ _ _ _ _ _ H). done.
    + intros _. simpl. rewrite fn_lookup_insert. split; [done|]. by rewrite fn_lookup_insert.
  - assert (Inv false nothing (set_system w st) ls lls) as HI by (by apply Inv_refused). split_and!; try done.
    exists ls, lls. done.
Qed.
End move.
End PoolHeapMove.
