(* ===== verification/PoolHeapMutate.v ===== *)
(** * Writes of the program and of the marker to the blocks of the heap *)

From S2P Require Import Prelude Memory PoolHeap PoolHeapInv PoolHeapSweep PoolHeapAlloc PoolHeapLarge PoolHeapCycle.
From stdpp Require Import list functions gmap.
#[local] Open Scope Z_scope.
Import PoolHeap PoolHeapInv PoolHeapSweep PoolHeapAlloc PoolHeapLarge PoolHeapCycle.
#[local] Notation eqm := Prelude.eqm.

Module PoolHeapMutate.
Section mutate.
Context `{Laws : OsLaws}.
#[local] Notation Inv := (InvG false nothing lnothing).

(** The words of a free slot belong to no block. *)
Lemma free_apart st ls lls q a x p hd z : Inv st ls lls -> a ∈ ls q -> q <> freelist -> x ∈ slots a (class_of q) -> mem st !! x = Some 0 ->
  x <= z < x + 8 * wsize_sizeclass (class_of q) -> live_in ls lls (mem st) p hd -> ~ words_of p hd z.
Proof.
  intros H Ha Hq Hx Ex Hz Hl. pose proof (iv_regions _ _ _ _ _ _ H) as Hr. unfold words_of.
  destruct (iv_pool _ _ _ _ _ _ H q a Ha Hq) as (Hc & _). destruct (iv_region _ _ _ _ _ _ H q a Ha) as [Hra _]. pose proof (slot_range _ _ _ Hc Hx).
  destruct Hl as [(q' & a' & Hq' & Ha' & Hp & E & Hh)|(q' & a' & Ha' & -> & E)].
  - destruct (iv_pool _ _ _ _ _ _ H q' a' Ha' Hq') as (Hc' & ? & ? & _ & _ & Hs & _). destruct (sl_used _ _ _ _ _ _ _ Hs p hd Hp E Hh) as [[_ Hw] _].
    destruct (iv_region _ _ _ _ _ _ H q' a' Ha') as [Hra' _]. pose proof (slot_range _ _ _ Hc' Hp). destruct (decide (a = a')) as [<-|Haa].
    + assert (q = q') as <- by (by eapply (lk_disj _ _ _ _ _ (iv_linked _ _ _ _ _ _ H))).
      destruct (slot_apart a _ x p Hc Hx Hp); [congruence|lia|lia].
    + destruct (rg_apart _ Hr _ _ _ _ _ _ Hra Hra' Haa); lia.
  - destruct (iv_large _ _ _ _ _ _ H q' a' Ha') as (hd' & E' & _ & _ & Hra' & _). simplify_eq. unfold LARGE_ALLOC_HEADER_SZ in *.
    assert (a <> a') as Haa by congruence. destruct (rg_apart _ Hr _ _ _ _ _ _ Hra Hra' Haa); lia.
Qed.

(** [m] changes only words of blocks; a header keeps its size, and takes the
    colour of garbage only if it had it. *)
Definition hd_evolves (g hd hd' : Z) : Prop := 0 < hd' < 2 ^ 64 /\ Wosize_hd hd' = Wosize_hd hd /\ (Color_hd hd' = g -> Color_hd hd = g).
Record rewritten (st : state) (m : gmap Z Z) : Prop := {
  rw_dom : forall z, is_Some (mem st !! z) -> is_Some (m !! z);
  rw_hd : forall p hd, live st p hd -> exists hd', m !! p = Some hd' /\ hd_evolves (GARBAGE (colors st)) hd hd';
  rw_rest : forall z, (forall p hd, live st p hd -> ~ words_of p hd z) -> m !! z = mem st !! z;
}.
Section rewritten.
Context (st : state) (ls : plist -> list Z) (lls : llist -> list Z) (m : gmap Z Z).
Context (H : Inv st ls lls) (Hm : rewritten st m).

Lemma rewritten_slot q a x : a ∈ ls q -> q <> freelist -> x ∈ slots a (class_of q) ->
  (mem st !! x = Some 0 /\ m !! x = Some 0 /\ m !! (x + 8) = mem st !! (x + 8)) \/
  exists hd hd', mem st !! x = Some hd /\ hd <> 0 /\ m !! x = Some hd' /\ hd_evolves (GARBAGE (colors st)) hd hd'.
Proof.
  intros Ha Hq Hx. destruct (iv_pool _ _ _ _ _ _ H q a Ha Hq) as (Hc & _). destruct (iv_region _ _ _ _ _ _ H q a Ha) as [_ Hmp].
  destruct (Hmp x) as [hd E]; [by eapply slot_header_in|]. destruct (decide (hd = 0)) as [->|Hz].
  - left. pose proof (class_facts _ Hc). split_and!; [done|rewrite <- E; apply (rw_rest _ _ Hm)|apply (rw_rest _ _ Hm)];
      intros p hd Hl; rewrite (live_lists _ _ _ _ _ _ _ H) in Hl; eapply free_apart; try done; lia.
  - right. destruct (rw_hd _ _ Hm x hd) as (hd' & E' & Hd'); [|eauto 10].
    rewrite (live_lists _ _ _ _ _ _ _ H). left. by exists q, a.
Qed.
Lemma rewritten_pool q a : a ∈ ls q -> q <> freelist ->
  pool_ok false m (GARBAGE (colors st)) (pools st) q a /\ forall t, weight t m q a = weight t (mem st) q a.
Proof.
  intros Ha Hq. destruct (iv_pool _ _ _ _ _ _ H q a Ha Hq) as (Hc & p & fl & Ep & Hs & [H1 H2 H3 H4] & Hf). split.
  - split; [done|]. exists p, fl. split_and!; try done; [|apply Hf..]. split; [|done| |].
    + eapply free_chain_ext; [|done]. intros x [Hx E]%H3. destruct (rewritten_slot q a x Ha Hq Hx) as [(_ & _ & ?)|(? & ? & ? & ? & _)]; [done|congruence].
    + intros x. rewrite H3. split; intros [Hx E]; (split; [done|]); destruct (rewritten_slot q a x Ha Hq Hx) as [(? & ? & _)|(hd & hd' & ? & ? & ? & ? & _)]; try congruence.
      simplify_eq. lia.
    + intros x hd' Hx E Hz. destruct (rewritten_slot q a x Ha Hq Hx) as [(? & ? & _)|(hd & hd1 & Eo & Ho & En & Hr & Hw & Hg)]; simplify_eq.
      destruct (H4 x hd Hx Eo Ho) as [[? Hs1] Hs2]. split; [|intros ? Hg'; apply Hs2; [done|auto]]. unfold hd_ok, Whsize_hd in *. rewrite Hw. split; lia.
  - intros t. unfold weight, pool_weight. f_equal. apply sum_ext. intros x Hx. unfold slot_share.
    destruct (rewritten_slot q a x Ha Hq Hx) as [(-> & -> & _)|(hd & hd' & -> & Hz & -> & Hr & Hw & _)]; [done|].
    rewrite !(proj2 (Z.eqb_neq _ _)) by lia. unfold block_share, Whsize_hd. by rewrite Hw.
Qed.
Lemma rewritten_large q a : a ∈ lls q ->
  large_ok false m (GARBAGE (colors st)) (regions (system st)) q a /\ forall t, lweight t m q a = lweight t (mem st) q a.
Proof.
  intros Ha. destruct (iv_large _ _ _ _ _ _ H q a Ha) as (hd & E & H1 & H2 & H3 & H4 & H5).
  destruct (rw_hd _ _ Hm (a + LARGE_ALLOC_HEADER_SZ) hd) as (hd' & E' & Hr & Hw & Hg).
  { rewrite (live_lists _ _ _ _ _ _ _ H). right. by exists q, a. }
  split; [|intros t; unfold lweight, lblock_share, Whsize_hd; by rewrite E, E', Hw].
  exists hd'. unfold Whsize_hd in *. rewrite Hw. split; [done|]. split; [lia|]. split; [lia|]. split; [done|]. split; [|intros F G; apply H5; auto]. intros k Hk. by apply (rw_dom _ _ Hm), H4.
Qed.
Lemma Inv_rewritten : Inv (set_mem m st) ls lls.
Proof.
  pose proof H as HI. destruct HI. split; simpl; try done.
  - intros q a Ha. destruct (iv_region0 q a Ha) as [? Hmp]. split; [done|]. intros x Hx. by apply (rw_dom _ _ Hm), Hmp.
  - intros q a Ha Hq. by apply rewritten_pool.
  - intros q a Ha. by apply rewritten_large.
  - intros k t Hk. etransitivity; [by apply iv_stats0|]. apply eqm_eq. f_equal. apply total_ext. intros q a Hq Ha. symmetry. apply rewritten_pool; [done|].
    apply elem_of_places in Hq. naive_solver.
  - intros k t Hk. etransitivity; [by apply iv_lstats0|]. apply eqm_eq. f_equal. apply total_ext. intros q a Hq Ha. symmetry. by apply rewritten_large.
Qed.
(** The blocks are where they were. *)
Lemma live_rewritten p hd' : live (set_mem m st) p hd' <-> exists hd, live st p hd /\ m !! p = Some hd'.
Proof.
  rewrite (live_lists _ _ _ _ _ _ _ Inv_rewritten). simpl. split.
  - intros [(q & a & Hq & Ha & Hp & E & Hz)|(q & a & Ha & -> & E)].
    + destruct (rewritten_slot q a p Ha Hq Hp) as [(? & ? & _)|(hd & hd1 & Eo & Ho & En & _)]; [congruence|].
      exists hd. split; [|done]. rewrite (live_lists _ _ _ _ _ _ _ H). left. by exists q, a.
    + destruct (iv_large _ _ _ _ _ _ H q a Ha) as (hd & Eh & _). exists hd. split; [|done]. rewrite (live_lists _ _ _ _ _ _ _ H). right. by exists q, a.
  - intros (hd & Hl & E). destruct (rw_hd _ _ Hm p hd Hl) as (hd1 & E1 & Hr & _). simplify_eq. rewrite (live_lists _ _ _ _ _ _ _ H) in Hl.
    destruct Hl as [(q & a & Hq & Ha & Hp & Eo & Hz)|(q & a & Ha & -> & Eo)]; [left; exists q, a; split_and!; try done; lia|right; by exists q, a].
Qed.
End rewritten.
Lemma heap_ok_rewritten st m : heap_ok st -> rewritten st m -> heap_ok (set_mem m st).
Proof. intros (ls & lls & H & Hn) Hm. exists ls, lls. split; [by apply Inv_rewritten|done]. Qed.

(** ** One word *)

Lemma live_unique st p hd hd' : heap_ok st -> live st p hd -> live st p hd' -> hd = hd'.
Proof.
  intros (ls & lls & H & _). rewrite !(live_lists _ _ _ _ _ _ _ H).
  intros [(? & ? & ? & ? & ? & E & ?)|(? & ? & ? & ? & E)] [(? & ? & ? & ? & ? & F & ?)|(? & ? & ? & ? & F)]; congruence.
Qed.
Lemma live_header st p hd : live st p hd -> mem st !! p = Some hd.
Proof. intros [(q & a & _ & _ & _ & _ & E & _)|(q & a & _ & _ & _ & E)]; done. Qed.
Lemma live_header_range st p hd : heap_ok st -> live st p hd -> 2 <= Whsize_hd hd /\ 0 < hd < 2 ^ 64.
Proof. intros (ls & lls & H & _). rewrite (live_lists _ _ _ _ _ _ _ H). by eapply live_size. Qed.
Lemma live_disjoint st p hd p' hd' z : heap_ok st -> live st p hd -> live st p' hd' -> p <> p' -> words_of p hd z -> ~ words_of p' hd' z.
Proof. intros (ls & lls & H & _). rewrite !(live_lists _ _ _ _ _ _ _ H). by eapply live_apart. Qed.

(** A field. *)
Lemma rewritten_field st p hd i v : heap_ok st -> live st p hd -> 0 <= i < Wosize_hd hd -> rewritten st (<[p + 8 + 8 * i := v]> (mem st)).
Proof.
  intros H Hl Hi. destruct (live_header_range _ _ _ H Hl) as [Hw _].
  assert (words_of p hd (p + 8 + 8 * i)) as Hin by (unfold words_of, Whsize_hd, Whsize_wosize; lia). split.
  - intros z Hz. destruct (decide (p + 8 + 8 * i = z)) as [<-|]; [rewrite lookup_insert_eq; eauto|by rewrite lookup_insert_ne].
  - intros q hq Hq. exists hq. destruct (live_header_range _ _ _ H Hq) as [? ?]. split; [|split; [done|by split]]. rewrite lookup_insert_ne; [by apply live_header|]. intros E.
    destruct (decide (p = q)) as [->|Hne]; [lia|]. apply (live_disjoint st p hd q hq q H Hl Hq Hne); [by rewrite <- E|unfold words_of; lia].
  - intros z Hz. rewrite lookup_insert_ne; [done|]. intros <-. by apply (Hz p hd).
Qed.
(** The header. *)
Lemma rewritten_header st p hd hd' : heap_ok st -> live st p hd -> hd_evolves (GARBAGE (colors st)) hd hd' -> rewritten st (<[p := hd']> (mem st)).
Proof.
  intros H Hl He. destruct (live_header_range _ _ _ H Hl) as [Hw _]. split.
  - intros z Hz. destruct (decide (p = z)) as [<-|]; [rewrite lookup_insert_eq; eauto|by rewrite lookup_insert_ne].
  - intros q hq Hq. destruct (decide (p = q)) as [<-|Hne].
    + exists hd'. rewrite lookup_insert_eq. split; [done|]. by rewrite (live_unique _ _ _ _ H Hq Hl).
    + exists hq. rewrite lookup_insert_ne by done. split; [by apply live_header|]. destruct (live_header_range _ _ _ H Hq). split; [done|by split].
  - intros z Hz. rewrite lookup_insert_ne; [done|]. intros <-. apply (Hz p hd Hl). unfold words_of. lia.
Qed.

(** [With_status_hd] changes the colour only. *)
Definition With_status_hd (hd s : Z) : Z := Hd_with_color hd s.
Lemma With_status_fields hd c : is_color c ->
  Wosize_hd (With_status_hd hd c) = Wosize_hd hd /\ Color_hd (With_status_hd hd c) = c /\ Tag_hd (With_status_hd hd c) = Tag_hd hd.
Proof.
  intros Hc. unfold With_status_hd, Hd_with_color, Wosize_hd, Color_hd, Tag_hd. rewrite !Z.land_lor_distr_l, <- !Z.land_assoc.
  change (Z.land (Z.lnot HEADER_COLOR_MASK) HEADER_WOSIZE_MASK) with HEADER_WOSIZE_MASK.
  change (Z.land (Z.lnot HEADER_COLOR_MASK) HEADER_COLOR_MASK) with 0. change (Z.land (Z.lnot HEADER_COLOR_MASK) HEADER_TAG_MASK) with HEADER_TAG_MASK.
  rewrite Z.land_0_r, Z.lor_0_l.
  destruct Hc as [->|[->|[->| ->]]]; split_and!; try done; f_equal; by rewrite Z.lor_0_r.
Qed.
Lemma With_status_range hd c : is_color c -> 0 <= hd < 2 ^ 64 -> 0 < Wosize_hd hd -> 0 < With_status_hd hd c < 2 ^ 64.
Proof.
  intros Hc Hh Hw. destruct (With_status_fields hd c Hc) as [E _].
  assert (Z.land (With_status_hd hd c) (Z.ones 64) = With_status_hd hd c) as Hl.
  { assert (Z.land hd (Z.ones 64) = hd) as Hz by (rewrite Z.land_ones by lia; apply Z.mod_small; lia).
    unfold With_status_hd, Hd_with_color. rewrite Z.land_lor_distr_l, <- Z.land_assoc, (Z.land_comm _ (Z.ones 64)), Z.land_assoc, Hz.
    f_equal. destruct Hc as [->|[->|[->| ->]]]; done. }
  rewrite Z.land_ones in Hl by lia. pose proof (Z.mod_pos_bound (With_status_hd hd c) (2 ^ 64) ltac:(lia)).
  assert (With_status_hd hd c <> 0) by (intros F; rewrite F in E; change (Wosize_hd 0) with 0 in E; lia). lia.
Qed.
Lemma With_status_evolves g hd c : is_color c -> 0 <= hd < 2 ^ 64 -> 0 < Wosize_hd hd -> c <> g -> hd_evolves g hd (With_status_hd hd c).
Proof.
  intros Hc Hh Hw Hg. destruct (With_status_fields hd c Hc) as (E1 & E2 & _). split; [by apply With_status_range|]. split; [done|]. rewrite E2. done.
Qed.
End mutate.
End PoolHeapMutate.
