(* ===== verification/PoolHeapGc.v ===== *)
(** * The sweeping phases of the major collector, and the life of the heap

    The parts of runtime/major_gc.c that drive the sweeper of
    runtime/shared_heap.c, and the theorems on the shared heap as a whole: the
    steps that the runtime and the program can make, in any order, keep its
    invariant; no assertion of the code fails; a whole major cycle frees exactly
    the blocks that were not marked.  The calls of
    [caml_handle_incoming_interrupts] between two slices are not modelled: what
    they run are other steps. *)

From S2P Require Import Prelude Memory PoolHeap PoolHeapInv PoolHeapSweep PoolHeapAlloc PoolHeapLarge PoolHeapCycle PoolHeapMove PoolHeapMutate.
From stdpp Require Import list functions gmap relations.
#[local] Open Scope Z_scope.
Import PoolHeap PoolHeapInv PoolHeapSweep PoolHeapAlloc PoolHeapLarge PoolHeapCycle PoolHeapMove PoolHeapMutate.
#[local] Notation eqm := Prelude.eqm.

Module PoolHeapGc.

(** ** Sweeping (runtime/major_gc.c) *)

(** The fields [sweeping_done] of the domains, and [num_domains_to_sweep]. *)
Record gc_info := mkgc { sweeping_done : Z -> bool; num_domains_to_sweep : Z }.
Definition atomic_fetch_add_verify_ge0 (p v : Z) : result Z :=
  _ ← CAMLassert (0 <? s64 p);
  Ret (u64 (p + v)).
Definition set_sweeping_done (d : Z) (g : gc_info) : result gc_info :=
  n ← atomic_fetch_add_verify_ge0 (num_domains_to_sweep g) (-1);
  Ret (mkgc (<[d := true]> (sweeping_done g)) n).

Section collector.
Context `{Os : OS}.

(** Every slice takes a pool or a large block, or goes to the next size class. *)
Definition finish_fuel (s : state) : nat := S (S (size (pools s) + size (larges s) + Z.to_nat NUM_SIZECLASSES)).
Fixpoint finish_sweeping_loop (n : nat) (d : Z) (g : gc_info) (s : state) : result (gc_info * state) :=
  match n with
  | O => NoFuel
  | S n =>
      if sweeping_done g d then Ret (g, s) else
      '(left_, s) ← caml_sweep d 10 s;
      if 0 <? left_ then
        _ ← CAMLassert (negb (sweeping_done g d));
        g ← set_sweeping_done d g;
        Ret (g, s)
      else finish_sweeping_loop n d g s
  end.
Definition caml_finish_sweeping (d : Z) (x : gc_info * state) : result (gc_info * state) :=
  let '(g, s) := x in
  if sweeping_done g d then Ret (g, s) else finish_sweeping_loop (finish_fuel s) d g s.
(** The loop of [major_collection_slice] that sweeps; the list holds the results of
    [get_major_slice_work]. *)
Fixpoint sweep_phase (budgets : list Z) (d : Z) (g : gc_info) (s : state) : result (gc_info * state) :=
  match budgets with
  | [] => Ret (g, s)
  | budget :: rest =>
      if negb (sweeping_done g d) && (0 <? budget) then
        '(left_, s) ← caml_sweep d budget s;
        let work_done := budget - left_ in
        g ← (if work_done =? 0 then set_sweeping_done d g else Ret g);
        sweep_phase rest d g s
      else Ret (g, s)
  end.
(** The end of a cycle for the sweepers ([cycle_major_heap_from_stw_single] and
    the resets of the fields [sweeping_done]), then sweeping by every domain. *)
Definition start_sweeping (ds : list Z) (g : gc_info) : gc_info :=
  mkgc (fun d => if bool_decide (d ∈ ds) then false else sweeping_done g d) (Z.of_nat (length ds)).
Definition major_cycle (ds : list Z) (g : gc_info) (s : state) : result (gc_info * state) :=
  s ← cycle_all_domains ds s;
  for_each ds caml_finish_sweeping (start_sweeping ds g, s).

(** ** The steps *)

(** What the runtime and the program do to the heap: start and stop a domain,
    allocate, write a field, mark a block, sweep, and end a cycle when no domain has
    anything left to sweep. *)
Inductive heap_step (s : state) : state -> Prop :=
| step_init d b s' : d ∉ heaps s -> caml_init_shared_heap d s = (b, s') -> heap_step s s'
| step_alloc d wosize tag p s' : d ∈ heaps s -> 0 < wosize < 2 ^ 54 -> 0 <= tag < 256 -> tag <> Infix_tag ->
    caml_shared_try_alloc d wosize tag s = Ret (p, s') -> heap_step s s'
| step_field p hd i v : live s p hd -> 0 <= i < Wosize_hd hd -> heap_step s (set_mem (<[p + 8 + 8 * i := v]> (mem s)) s)
| step_mark p hd : live s p hd -> Color_hd hd = UNMARKED (colors s) -> heap_step s (set_mem (<[p := With_status_hd hd (MARKED (colors s))]> (mem s)) s)
| step_sweep d work w s' : d ∈ heaps s -> caml_sweep d work s = Ret (w, s') -> heap_step s s'
| step_cycle ds s' : ds <> [] -> NoDup ds -> (forall d, d ∈ ds <-> d ∈ heaps s) -> (forall d, d ∈ heaps s -> no_unswept d s) ->
    cycle_all_domains ds s = Ret s' -> heap_step s s'
| step_teardown d s' : d ∈ heaps s -> no_unswept d s -> caml_teardown_shared_heap d s = Ret s' -> heap_step s s'.
Definition initial (w : world) : state :=
  mkstate ∅ ∅ ∅ (fun _ => 0) (fun _ => 0) ∅ (fun _ => 0) (fun _ => no_stats) (fun _ => 0) (fun _ => 0) initial_colors w [].
End collector.

Section theorems.
Context `{Laws : OsLaws}.
#[local] Notation Inv := (InvG false nothing lnothing).

Lemma initial_ok w : regions_ok (regions w) -> heap_ok (initial w).
Proof.
  intros Hr. exists (fun _ => []), (fun _ => []). split; [|intros d Hd; set_solver]. split; simpl; try done; try (intros *; by intros ?%elem_of_nil).
  - split; try done; intros *; [constructor|by intros ?%elem_of_nil].
  - split; try done; intros *; [constructor|by intros ?%elem_of_nil].
  - intros q a Ha. by apply elem_of_nil in Ha.
  - split; [by left|by right; left|by right; right|done].
  - intros k t Hk. rewrite total_empty by done. by destruct t.
  - intros k t Hk. rewrite total_empty by done. by destruct t.
Qed.

Lemma color_of_marked c : colors_ok c -> is_color (MARKED c).
Proof. intros H. unfold is_color. destruct (co_marked _ H) as [->|[->| ->]]; auto. Qed.
Lemma heap_colors s : heap_ok s -> colors_ok (colors s).
Proof. intros (ls & lls & H & _). apply H. Qed.
Lemma heap_step_ok s s' : heap_ok s -> heap_step s s' -> heap_ok s'.
Proof.
  intros H Hs. destruct Hs as [d b s' Hd E|d wosize tag p s' Hd Hw Ht Hi E|p hd i v Hl Hi|p hd Hl Hc|d work w s' Hd E|ds s' Hne Hnd Hds Hsw E|d s' Hd Hsw E].
  - pose proof (init_spec d s H Hd) as F. rewrite E in F. apply F.
  - destruct (try_alloc_spec d wosize tag s H Hd Hw Ht Hi) as (p' & st' & D & E' & Hok & _). rewrite E in E'. by simplify_eq.
  - by eapply heap_ok_rewritten, rewritten_field.
  - destruct (live_header_range _ _ _ H Hl) as [? ?]. pose proof (heap_colors s H) as Hok. apply heap_ok_rewritten; [done|]. eapply rewritten_header; try done.
    apply With_status_evolves; [by apply color_of_marked|lia|unfold Whsize_hd, Whsize_wosize in *; lia|apply Hok].
  - destruct (sweep_spec d work s H Hd) as (w' & st' & D & E' & Hok & _). rewrite E in E'. by simplify_eq.
  - destruct (cycle_all_spec ds s H Hne Hnd Hds Hsw) as (st' & E' & Hok & _). rewrite E in E'. by simplify_eq.
  - destruct (teardown_spec d s H Hd Hsw) as (st' & E' & Hok & _). rewrite E in E'. by simplify_eq.
Qed.
Lemma reachable_ok w s : regions_ok (regions w) -> rtc heap_step (initial w) s -> heap_ok s.
Proof. intros Hr. apply initial_ok in Hr. induction 1; [done|]. eauto using heap_step_ok. Qed.

Lemma live_mapped st p hd k : heap_ok st -> live st p hd -> 0 <= k < Whsize_hd hd -> is_Some (mem st !! (p + 8 * k)).
Proof.
  intros (ls & lls & H & _). rewrite (live_lists _ _ _ _ _ _ _ H). intros [(q & a & Hq & Ha & Hp & E & Hz)|(q & a & Ha & -> & E)] Hk.
  - destruct (iv_pool _ _ _ _ _ _ H q a Ha Hq) as (Hc & ? & ? & _ & _ & Hs & _). destruct (sl_used _ _ _ _ _ _ _ Hs p hd Hp E Hz) as [[_ Hw] _].
    apply (iv_region _ _ _ _ _ _ H q a Ha). eapply slot_in_pool; try done. lia.
  - destruct (iv_large _ _ _ _ _ _ H q a Ha) as (hd' & E' & _ & _ & _ & Hm & _). simplify_eq. by apply Hm.
Qed.

(** ** Complete sweeping *)

Lemma set_sweeping_done_run d g : 0 < num_domains_to_sweep g < 2 ^ 63 ->
  set_sweeping_done d g = Ret (mkgc (<[d := true]> (sweeping_done g)) (num_domains_to_sweep g - 1)).
Proof.
  intros Hn. unfold set_sweeping_done, atomic_fetch_add_verify_ge0. rewrite swrap_small by (simpl; lia). rewrite (proj2 (Z.ltb_lt 0 _)) by lia.
  change (CAMLassert true) with (Ret ()). rewrite !ret_bind. do 2 f_equal. rewrite wrap_small; lia.
Qed.
Lemma finish_loop_spec n d g st ls lls : Inv st ls lls -> next_ok st ls -> d ∈ heaps st -> sweeping_done g d = false -> 0 < num_domains_to_sweep g < 2 ^ 63 ->
  left_to_sweep d st ls lls < Z.of_nat n ->
  exists st' D, finish_sweeping_loop n d g st = Ret (mkgc (<[d := true]> (sweeping_done g)) (num_domains_to_sweep g - 1), st') /\
    heap_ok st' /\ Freed st st' D /\ swept d st' /\ forall e, e ∈ heaps st -> swept e st -> swept e st'.
Proof.
  intros H Hn Hd Hg Hnum. revert st ls lls H Hn Hd. induction n as [|n IH]; intros st ls lls H Hn Hd Hf.
  { pose proof (left_to_sweep_size st ls lls d H Hn Hd). lia. }
  cbn [finish_sweeping_loop]. rewrite Hg.
  destruct (sweep_slice_spec d 10 st ls lls H Hn Hd) as (w & st1 & ls1 & lls1 & D1 & -> & HI1 & Hn1 & HF1 & _ & Hs1 & Hk1 & Hlt). rewrite ret_bind. cbv beta iota.
  destruct (Z.ltb_spec 0 w) as [Hw|Hw].
  - change (CAMLassert (negb false)) with (Ret ()). rewrite ret_bind, set_sweeping_done_run, ret_bind by done. exists st1, D1. split_and!; auto. by exists ls1, lls1.
  - pose proof (fr_heaps _ _ _ HF1) as Eh. destruct (IH st1 ls1 lls1 HI1 Hn1) as (st2 & D2 & -> & Hok & HF2 & Hs2 & Hk2); [by rewrite Eh|lia|].
    exists st2, (D1 ++ D2). split_and!; try done; [eapply (Freed_trans false nothing st st1 st2); eassumption|]. intros e He Hse. apply Hk2; [by rewrite Eh|auto].
Qed.
Lemma finish_sweeping_spec d g st : heap_ok st -> d ∈ heaps st -> sweeping_done g d = false -> 0 < num_domains_to_sweep g < 2 ^ 63 ->
  exists st' D, caml_finish_sweeping d (g, st) = Ret (mkgc (<[d := true]> (sweeping_done g)) (num_domains_to_sweep g - 1), st') /\
    heap_ok st' /\ Freed st st' D /\ swept d st' /\ forall e, e ∈ heaps st -> swept e st -> swept e st'.
Proof.
  intros (ls & lls & H & Hn) Hd Hg Hnum. unfold caml_finish_sweeping. rewrite Hg. eapply finish_loop_spec; try done.
  pose proof (left_to_sweep_size st ls lls d H Hn Hd). unfold finish_fuel. lia.
Qed.
Lemma Freed_compose st1 st2 st3 D D' : heap_ok st2 -> Freed st1 st2 D -> Freed st2 st3 D' -> Freed st1 st3 (D ++ D').
Proof. intros (ls & lls & H & _). by eapply Freed_trans. Qed.
Lemma sweep_phase_spec budgets d g st : heap_ok st -> d ∈ heaps st -> 0 < num_domains_to_sweep g < 2 ^ 63 -> (sweeping_done g d = true -> no_unswept d st) ->
  exists g' st' D, sweep_phase budgets d g st = Ret (g', st') /\ heap_ok st' /\ Freed st st' D /\
    num_domains_to_sweep g' + (if sweeping_done g' d then 1 else 0) = num_domains_to_sweep g + (if sweeping_done g d then 1 else 0) /\
    (sweeping_done g' d = true -> no_unswept d st').
Proof.
  revert g st. induction budgets as [|b rest IH]; intros g st H Hd Hnum Hdone; cbn [sweep_phase].
  - exists g, st, []. split_and!; try done. apply Freed_refl.
  - destruct (sweeping_done g d) eqn:Hg; cbn [negb andb]; [exists g, st, []; rewrite ?Hg; split_and!; auto using Freed_refl|].
    destruct (Z.ltb_spec 0 b) as [Hb|Hb]; [|exists g, st, []; rewrite ?Hg; split_and!; auto using Freed_refl; congruence].
    destruct (sweep_spec d b st H Hd) as (w & st1 & D1 & -> & Hok & HF & Hw & Hs & Hk). rewrite ret_bind. cbv beta iota zeta.
    assert (d ∈ heaps st1) as Hd1 by (by rewrite (fr_heaps _ _ _ HF)).
    destruct (Z.eqb_spec (b - w) 0) as [Hz|Hz].
    + rewrite set_sweeping_done_run, ret_bind by done. set (g1 := mkgc _ _).
      assert (sweep_phase rest d g1 st1 = Ret (g1, st1)) as ->. { destruct rest; [done|]. cbn [sweep_phase g1 sweeping_done]. by rewrite fn_lookup_insert. }
      exists g1, st1, D1. assert (sweeping_done g1 d = true) as E1 by (cbn [g1 sweeping_done]; by rewrite fn_lookup_insert).
      rewrite E1. split_and!; try done; [cbn [g1 num_domains_to_sweep]; lia|]. intros _. apply Hs. lia.
    + rewrite ret_bind. destruct (IH g st1 Hok Hd1 Hnum) as (g' & st' & D' & -> & Hok' & HF' & Hn' & Hd'); [congruence|].
      exists g', st', (D1 ++ D'). split_and!; try done; [exact (Freed_compose _ _ _ _ _ Hok HF HF')|]. by rewrite Hn', Hg.
Qed.
Lemma sweep_all_spec ds g st : heap_ok st -> NoDup ds -> (forall d, d ∈ ds <-> d ∈ heaps st) -> (forall d, d ∈ ds -> sweeping_done g d = false) ->
  num_domains_to_sweep g = Z.of_nat (length ds) -> Z.of_nat (length ds) < 2 ^ 63 ->
  exists g' st' D, for_each ds caml_finish_sweeping (g, st) = Ret (g', st') /\ num_domains_to_sweep g' = 0 /\ heap_ok st' /\ Freed st st' D /\
    forall d, d ∈ heaps st -> swept d st'.
Proof.
  intros H Hnd Hds Hg Hnum Hlt.
  destruct (for_each_inv (fun done x => num_domains_to_sweep x.1 = Z.of_nat (length ds) - Z.of_nat (length done) /\ heap_ok x.2 /\ (exists D, Freed st x.2 D) /\
      (forall d, d ∈ ds -> d ∉ done -> sweeping_done x.1 d = false) /\ forall d, d ∈ done -> swept d x.2) ds caml_finish_sweeping (g, st))
    as ([g' st'] & E & Hn & Hok & [D HF] & _ & Hs).
  - simpl. split_and!; try done; [lia|exists []; apply Freed_refl|auto|set_solver].
  - intros done d rest [g1 s1] E (Hn1 & Hok1 & [D1 HF1] & Hg1 & Hs1). cbn [fst snd] in *.
    assert (d ∈ ds) as Hd by (rewrite E; set_solver). assert (d ∉ done) as Hdn.
    { intros Hin. rewrite E in Hnd. apply NoDup_app in Hnd as (_ & F & _). eapply F; [done|left]. }
    assert (length ds = length done + S (length rest))%nat as El by (rewrite E, length_app; done).
    destruct (finish_sweeping_spec d g1 s1 Hok1) as (s2 & D2 & E2 & Hok2 & HF2 & Hsd & Hk); [rewrite (fr_heaps _ _ _ HF1); by apply Hds|auto|lia|].
    eexists. split; [exact E2|]. cbn [fst snd num_domains_to_sweep sweeping_done]. split_and!.
    + rewrite length_app. cbn [length]. lia.
    + done.
    + exists (D1 ++ D2). exact (Freed_compose _ _ _ _ _ Hok1 HF1 HF2).
    + intros e He Hne. rewrite fn_lookup_insert_ne by set_solver. apply Hg1; set_solver.
    + intros e [He| ->%list_elem_of_singleton]%elem_of_app; [|done]. apply Hk; [|auto]. rewrite (fr_heaps _ _ _ HF1). apply Hds. rewrite E. set_solver.
  - cbn [fst snd] in *. exists g', st', D. split_and!; try done; [lia|]. intros d Hd. apply Hs. by apply Hds.
Qed.
End theorems.
End PoolHeapGc.
