(* ===== verification/PoolHeapProps.v ===== *)
(** * The shared heap: its theorems, and a system that satisfies the laws *)

From S2P Require Import Prelude Memory PoolHeap PoolHeapInv PoolHeapSweep PoolHeapAlloc PoolHeapLarge PoolHeapCycle PoolHeapMove PoolHeapMutate PoolHeapGc.
From stdpp Require Import list functions gmap relations.
#[local] Open Scope Z_scope.
Import PoolHeap PoolHeapInv PoolHeapSweep PoolHeapAlloc PoolHeapLarge PoolHeapCycle PoolHeapMove PoolHeapMutate PoolHeapGc.

Module PoolHeapProps.
Section theorems.
Context `{Laws : OsLaws}.

(** C6: on a heap that satisfies the invariant, with a system that hands out
    memory that is aligned and not in use, [caml_shared_try_alloc] returns for
    every size and tag. It yields the null pointer only when the system refuses
    memory. Otherwise the block it returns has the header asked for, all its words are
    mapped, and it overlaps no block of the heap; the blocks freed on the way by
    lazy sweeping are garbage, the custom finaliser of each of them runs once, and every
    other block keeps its place, header and contents. The invariant (lists of pools,
    free lists, statistics, no garbage in the swept lists) is preserved. *)
Theorem shared_alloc d wosize tag st : heap_ok st -> d ∈ heaps st -> 0 < wosize < 2 ^ 54 -> 0 <= tag < 256 -> tag <> Infix_tag ->
  exists p st' D, caml_shared_try_alloc d wosize tag st = Ret (p, st') /\ heap_ok st' /\
    ((p = 0 /\ Freed st st' D /\ (fst (caml_mem_map (Bsize_wsize POOL_WSIZE) (system st)) = 0 \/ fst (malloc (Bsize_wsize (Whsize_wosize wosize) + 16) (system st)) = 0)) \/
     allocated st st' p (Make_header wosize tag (MARKED (colors st))) D).
Proof. exact (try_alloc_spec d wosize tag st). Qed.

(** C5: in every state that the runtime and the program can reach from the start by
    starting and stopping domains, allocating, writing fields, marking, sweeping and
    ending cycles, in any order, two blocks never overlap and their words are mapped;
    allocation, sweeping, the end of a cycle and of a domain return, so that none of
    their assertions fails; and [verify_swept], which recomputes the statistics of a
    swept heap block by block, finds them exact. *)
Theorem heap_reachable w s : regions_ok (regions w) -> rtc heap_step (initial w) s ->
  (forall p hd p' hd' z, live s p hd -> live s p' hd' -> p <> p' -> words_of p hd z -> ~ words_of p' hd' z) /\
  (forall p hd k, live s p hd -> 0 <= k < Whsize_hd hd -> is_Some (mem s !! (p + 8 * k))) /\
  (forall d wosize tag, d ∈ heaps s -> 0 < wosize < 2 ^ 54 -> 0 <= tag < 256 -> tag <> Infix_tag -> exists p s', caml_shared_try_alloc d wosize tag s = Ret (p, s')) /\
  (forall d work, d ∈ heaps s -> exists w s', caml_sweep d work s = Ret (w, s')) /\
  (forall ds, ds <> [] -> NoDup ds -> (forall d, d ∈ ds <-> d ∈ heaps s) -> (forall d, d ∈ heaps s -> no_unswept d s) -> exists s', cycle_all_domains ds s = Ret s') /\
  (forall d, d ∈ heaps s -> no_unswept d s -> exists s', caml_teardown_shared_heap d s = Ret s') /\
  (forall d, d ∈ heaps s -> swept d s -> verify_swept d s = Ret ()).
Proof.
  intros Hr Hs. pose proof (reachable_ok w s Hr Hs) as H. split_and!.
  - intros p hd p' hd' z. by apply live_disjoint.
  - intros p hd k. by apply live_mapped.
  - intros d wosize tag Hd Hw Ht Hi. destruct (try_alloc_spec d wosize tag s H Hd Hw Ht Hi) as (p & s' & D & E & _). eauto.
  - intros d work Hd. destruct (sweep_spec d work s H Hd) as (x & s' & D & E & _). eauto.
  - intros ds Hne Hnd Hds Hsw. destruct (cycle_all_spec ds s H Hne Hnd Hds Hsw) as (s' & E & _). eauto.
  - intros d Hd Hsw. destruct (teardown_spec d s H Hd Hsw) as (s' & E & _). eauto.
  - intros d Hd Hsw. destruct H as (ls & lls & H & _). destruct (proj1 (swept_lists _ _ _ _ _ _ d H Hd) Hsw) as (H1 & H2 & H3). by apply (verify_swept_ok d s ls lls).
Qed.

(** C8: [caml_finish_sweeping] ends: after finitely many slices of ten words the
    domain has nothing left to sweep, [sweeping_done] is set and the number of
    domains to sweep has decreased by one; only garbage was freed, the other blocks
    are intact, and what other domains had swept stays swept. *)
Theorem finish_sweeping_ends d g st : heap_ok st -> d ∈ heaps st -> sweeping_done g d = false -> 0 < num_domains_to_sweep g < 2 ^ 63 ->
  exists st' D, caml_finish_sweeping d (g, st) = Ret (mkgc (<[d := true]> (sweeping_done g)) (num_domains_to_sweep g - 1), st') /\
    heap_ok st' /\ swept d st' /\ Freed st st' D /\ forall e, e ∈ heaps st -> swept e st -> swept e st'.
Proof. intros H Hd Hg Hn. destruct (finish_sweeping_spec d g st H Hd Hg Hn) as (st' & D & E & ? & ? & ? & ?). exists st', D. auto. Qed.

(** C7: the end of a major cycle followed by the sweeping of every domain frees exactly
    the blocks that were not marked when the cycle ended: a block is there afterwards
    if and only if it was there and its colour was not UNMARKED, with the same header
    and contents; the custom finalisers of the freed blocks, and no others, run once
    each; every domain has swept its heap, and the colours have rotated. *)
Theorem major_cycle_frees ds g st : heap_ok st -> ds <> [] -> NoDup ds -> Z.of_nat (length ds) < 2 ^ 63 -> (forall d, d ∈ ds <-> d ∈ heaps st) ->
  (forall d, d ∈ heaps st -> no_unswept d st) ->
  exists g' st' D, major_cycle ds g st = Ret (g', st') /\ heap_ok st' /\ num_domains_to_sweep g' = 0 /\ (forall d, d ∈ heaps st' -> swept d st') /\
    (forall p hd, live st' p hd <-> live st p hd /\ Color_hd hd <> UNMARKED (colors st)) /\
    (forall p hd z, live st' p hd -> words_of p hd z -> mem st' !! z = mem st !! z) /\
    NoDup D /\ (forall p, p ∈ D <-> exists hd, live st p hd /\ Color_hd hd = UNMARKED (colors st)) /\
    finalised st' = finalised st ++ (D ≫= finals (mem st)) /\ colors st' = rotated (colors st).
Proof.
  intros H Hne Hnd Hlen Hds Hsw. unfold major_cycle.
  destruct (cycle_all_spec ds st H Hne Hnd Hds Hsw) as (s1 & -> & H1 & Hl1 & Em1 & Ec1 & Ef1 & Eh1). rewrite ret_bind.
  destruct (sweep_all_spec ds (start_sweeping ds g) s1 H1 Hnd) as (g' & st' & D & -> & Hn & Hok & HF & Hs); try done.
  { intros d. by rewrite Eh1. } { intros d Hd. simpl. by rewrite bool_decide_true. }
  pose proof (fr_colors _ _ _ HF) as Ec. pose proof (fr_heaps _ _ _ HF) as Eh.
  assert (forall d, d ∈ heaps st' -> swept d st') as Hsw' by (intros d; rewrite Eh; apply Hs).
  assert (forall p hd, live st p hd -> p ∈ D <-> Color_hd hd = UNMARKED (colors st)) as HD.
  { intros p hd Hl. split.
    - intros (hd' & Hl' & Hc)%(fr_dead _ _ _ HF). rewrite Hl1 in Hl'. rewrite Ec1 in Hc. by rewrite (live_unique _ _ _ _ H Hl Hl').
    - intros Hc. destruct (decide (p ∈ D)) as [|Hp]; [done|]. exfalso. apply (swept_no_garbage st' p hd Hok); [intros d Hd; by apply Hsw'| |].
      + apply (fr_live _ _ _ HF). by rewrite Hl1.
      + by rewrite Ec, Ec1. }
  exists g', st', D. split_and!; try done.
  - intros p hd. rewrite (fr_live _ _ _ HF), Hl1. split; intros [Hl Hp]; (split; [done|]); by rewrite (HD p hd Hl) in *.
  - intros p hd z Hl Hz. rewrite <- Em1. by eapply (fr_mem _ _ _ HF).
  - apply HF.
  - intros p. split.
    + intros Hp. destruct (fr_dead _ _ _ HF p Hp) as (hd & Hl & Hc). rewrite Hl1 in Hl. rewrite Ec1 in Hc. eauto.
    + intros (hd & Hl & Hc). by apply (HD p hd Hl).
  - by rewrite (fr_final _ _ _ HF), Ef1, Em1.
  - by rewrite Ec.
Qed.
End theorems.

(** ** A system *)

(** Memory is taken at increasing addresses, up to a limit. *)
Record arena := mkarena { brk : Z; regs : gmap Z (bool * Z) }.
Definition fresh (a n : Z) (r : gmap Z (bool * Z)) : bool :=
  (0 <? a) && (a mod 8 =? 0) && (a + n <=? 2 ^ 40) && forallb (fun x => (0 <? x.2.2) && (x.1 + x.2.2 <=? a)) (map_to_list r).
Definition take (k : bool) (n : Z) (w : arena) : Z * arena :=
  if fresh (brk w) n (regs w) then (brk w, mkarena ((brk w + n + 7) / 8 * 8) (<[brk w := (k, n)]> (regs w))) else (0, w).
Definition drop (a : Z) (w : arena) : arena := mkarena (brk w) (delete a (regs w)).
#[local] Instance arena_os : OS := {|
  world := arena; caml_mem_map := take true; caml_mem_unmap a _ w := drop a w; malloc := take false; free_large a w := drop a w;
  caml_stat_alloc_noexc _ w := (true, w); caml_stat_free w := w; junk _ _ := 7; finalize _ := true; verify_heap := true |}.
Lemma take_law k n w a w' : 0 < n -> take k n w = (a, w') ->
  (a = 0 /\ regs w' = regs w) \/ (new_region a n (regs w) /\ regs w' = <[a := (k, n)]> (regs w)).
Proof.
  intros Hn. unfold take, fresh. set (F := forallb _ _). destruct (Z.ltb_spec 0 (brk w)); [|intros [= <- <-]; by left].
  destruct (Z.eqb_spec (brk w mod 8) 0); [|intros [= <- <-]; by left]. destruct (Z.leb_spec (brk w + n) (2 ^ 40)); [|intros [= <- <-]; by left].
  destruct F eqn:EF; cbn [andb]; [|intros [= <- <-]; by left]. intros [= <- <-]. right. split; [|done].
  assert (forall b j m, regs w !! b = Some (j, m) -> 0 < m /\ b + m <= brk w) as HF.
  { intros b j m E%elem_of_map_to_list. unfold F in EF. rewrite forallb_forall in EF. specialize (EF (b, (j, m))). rewrite <- list_elem_of_In in EF.
    apply EF, andb_prop in E as [E1 E2]. cbn [fst snd] in *. lia. }
  split_and!; [done|done|lia| |].
  - destruct (regs w !! brk w) as [[j m]|] eqn:E; [|done]. specialize (HF _ _ _ E). lia.
  - intros b j m E. specialize (HF _ _ _ E). lia.
Qed.
#[local] Instance arena_laws : OsLaws.
Proof.
  refine {| regions := (regs : world -> gmap Z (bool * Z)) |}; try done.
  - intros n w a w'. apply take_law.
  - intros n w a w'. apply take_law.
Defined.

(** ** Executions *)

Definition result_of {A} (r : result (Z * A)) (x : A) : A := match r with Ret (_, y) => y | _ => x end.
Definition value_of {A} (r : result (Z * A)) : Z := match r with Ret (v, _) => v | _ => 0 end.
Definition returns {A} (r : result A) : bool := match r with Ret _ => true | _ => false end.
Lemma returned {A} (r : result (Z * A)) x : returns r = true -> r = Ret (value_of r, result_of r x).
Proof. destruct r as [[? ?]| | | |]; done. Qed.

Definition arena0 : arena := mkarena 65536 ∅.
Definition run_alloc (wosize tag : Z) (s : state) : state := result_of (caml_shared_try_alloc 0 wosize tag s) s.
Definition run_sweep (s : state) : state := result_of (caml_sweep 0 10000 s) s.
Definition run_cycle (s : state) : state := match cycle_all_domains [0] s with Ret s' => s' | _ => s end.
(** A domain starts, allocates a pair, a custom block and a large one, and sweeps. *)
Definition start : state := (caml_init_shared_heap 0 (initial (Os := arena_os) arena0)).2.
Definition three : state := run_sweep (run_alloc 200 Custom_tag (run_alloc 3 Custom_tag (run_alloc 2 0 start))).

(** After a cycle it allocates another pair: the older blocks are not marked. *)
Definition four : state := run_alloc 2 0 (run_sweep (run_cycle three)).

Lemma arena0_ok : regions_ok (regions (Os := arena_os) arena0).
Proof. split; intros *; (intros E; exfalso; done). Qed.
Lemma start_steps : rtc heap_step (initial (Os := arena_os) arena0) start.
Proof. eapply rtc_l; [|reflexivity]. apply (step_init _ 0 true); [set_solver|reflexivity]. Qed.
Lemma alloc_steps s0 wosize tag s : rtc heap_step s0 s -> 0 < wosize < 2 ^ 54 -> 0 <= tag < 256 -> tag <> Infix_tag ->
  bool_decide (0 ∈ heaps s) && returns (caml_shared_try_alloc 0 wosize tag s) = true -> rtc heap_step s0 (run_alloc wosize tag s).
Proof.
  intros Hs Hw Ht Hi [Hd%bool_decide_eq_true Hr]%andb_prop. eapply rtc_r; [exact Hs|].
  eapply step_alloc; [exact Hd|exact Hw|exact Ht|exact Hi|]. by apply returned.
Qed.
Lemma sweep_steps s0 s : rtc heap_step s0 s -> bool_decide (0 ∈ heaps s) && returns (caml_sweep 0 10000 s) = true -> rtc heap_step s0 (run_sweep s).
Proof. intros Hs [Hd%bool_decide_eq_true Hr]%andb_prop. eapply rtc_r; [exact Hs|]. eapply step_sweep; [exact Hd|]. by apply returned. Qed.
Lemma three_steps : rtc heap_step (initial (Os := arena_os) arena0) three.
Proof.
  apply sweep_steps; [|vm_compute; reflexivity].
  do 3 (apply alloc_steps; [|lia|unfold Custom_tag; lia|done|vm_compute; reflexivity]). exact start_steps.
Qed.
Definition unswept_check (d : Z) (s : state) : bool :=
  (lheads s (unswept_large d) =? 0) &&
  forallb (fun i => (heads s (unswept_avail_pools d i) =? 0) && (heads s (unswept_full_pools d i) =? 0)) sizeclasses.
Lemma unswept_check_ok d s : unswept_check d s = true -> no_unswept d s.
Proof.
  intros [H1%Z.eqb_eq H3]%andb_prop. split; [done|]. intros i Hi. rewrite forallb_forall in H3. specialize (H3 i).
  rewrite <- list_elem_of_In, elem_of_sizeclasses in H3. destruct (andb_prop _ _ (H3 ltac:(unfold in_range; lia))) as [E1 E2]. lia.
Qed.
Lemma one_domain s : bool_decide (heaps s = {[0]}) = true -> forall d, d ∈ [0] <-> d ∈ heaps s.
Proof. intros ->%bool_decide_eq_true d. set_solver. Qed.
Lemma one_swept s : bool_decide (heaps s = {[0]}) && unswept_check 0 s = true -> forall d, d ∈ heaps s -> no_unswept d s.
Proof. intros [->%bool_decide_eq_true Hs%unswept_check_ok]%andb_prop d ->%elem_of_singleton. done. Qed.
Lemma cycle_steps s0 s : rtc heap_step s0 s -> bool_decide (heaps s = {[0]}) && unswept_check 0 s && returns (cycle_all_domains [0] s) = true -> rtc heap_step s0 (run_cycle s).
Proof.
  intros Hs [H1 Hr]%andb_prop. pose proof (andb_prop _ _ H1) as [Hh _]. eapply rtc_r; [exact Hs|].
  apply (step_cycle _ [0]); [done|apply NoDup_singleton|by apply one_domain|by apply one_swept|]. unfold run_cycle. by destruct (cycle_all_domains [0] s).
Qed.
Lemma four_steps : rtc heap_step (initial (Os := arena_os) arena0) four.
Proof.
  apply alloc_steps; [|lia|lia|done|vm_compute; reflexivity]. apply sweep_steps; [|vm_compute; reflexivity]. apply cycle_steps; [|vm_compute; reflexivity].
  exact three_steps.
Qed.
Lemma four_ok : heap_ok four.
Proof. exact (reachable_ok _ _ arena0_ok four_steps). Qed.
Lemma start_ok : heap_ok start.
Proof. exact (reachable_ok _ _ arena0_ok start_steps). Qed.
Lemma three_ok : heap_ok three.
Proof. exact (reachable_ok _ _ arena0_ok three_steps). Qed.
Definition no_gc : gc_info := mkgc (fun _ => false) 1.

Lemma shared_alloc_witness : exists p st' D, caml_shared_try_alloc 0 2 0 start = Ret (p, st') /\ heap_ok st' /\
    ((p = 0 /\ Freed start st' D /\ (fst (caml_mem_map (Bsize_wsize POOL_WSIZE) (system start)) = 0 \/ fst (malloc (Bsize_wsize (Whsize_wosize 2) + 16) (system start)) = 0)) \/
     allocated start st' p (Make_header 2 0 (MARKED (colors start))) D).
Proof. apply (shared_alloc 0 2 0 start start_ok); [set_solver|lia|lia|done]. Defined.
Lemma heap_reachable_witness : (exists p s', caml_shared_try_alloc 0 5 0 three = Ret (p, s')) /\ (exists w s', caml_sweep 0 10 three = Ret (w, s')) /\
  (exists s', cycle_all_domains [0] three = Ret s').
Proof.
  destruct (heap_reachable (Os := arena_os) arena0 three arena0_ok three_steps) as (_ & _ & H1 & H2 & H3 & _).
  assert (0 ∈ heaps three) as Hd by (by apply one_domain; [vm_compute|left]). split_and!.
  - apply H1; [exact Hd|lia|lia|done].
  - apply H2. exact Hd.
  - apply H3; [done|apply NoDup_singleton|apply one_domain; vm_compute; reflexivity|apply one_swept; vm_compute; reflexivity].
Defined.
Lemma finish_sweeping_ends_witness : exists st' D, caml_finish_sweeping 0 (no_gc, start) = Ret (mkgc (<[0 := true]> (fun _ => false)) 0, st') /\
    heap_ok st' /\ swept 0 st' /\ Freed start st' D /\ forall e, e ∈ heaps start -> swept e start -> swept e st'.
Proof. apply (finish_sweeping_ends 0 no_gc start start_ok); [set_solver|done|simpl; lia]. Defined.
Lemma major_cycle_frees_witness :
  (exists g' st' D, major_cycle [0] no_gc four = Ret (g', st') /\ heap_ok st' /\ num_domains_to_sweep g' = 0 /\ (forall d, d ∈ heaps st' -> swept d st') /\
    (forall p hd, live st' p hd <-> live four p hd /\ Color_hd hd <> UNMARKED (colors four)) /\
    (forall p hd z, live st' p hd -> words_of p hd z -> mem st' !! z = mem four !! z) /\
    NoDup D /\ (forall p, p ∈ D <-> exists hd, live four p hd /\ Color_hd hd = UNMARKED (colors four)) /\
    finalised st' = finalised four ++ (D ≫= finals (mem four)) /\ colors st' = rotated (colors four)) /\
  match major_cycle [0] no_gc four with Ret (_, s) => length (finalised s) | _ => O end = 2%nat.
Proof.
  split; [|vm_compute; reflexivity]. apply (major_cycle_frees [0] no_gc four four_ok); [done|apply NoDup_singleton|simpl; lia|apply one_domain; vm_compute; reflexivity|].
  apply one_swept. vm_compute. reflexivity.
Defined.
End PoolHeapProps.
